(* ===== verification/_CoqProject ===== *)
-Q . S2P
Prelude.v
JsMap.v
Types.v
Registry.v
Lifecycle.v
Stream.v
Reorg.v
Replay.v
Invalidation.v
Hash.v
Entities.v
Listing.v
Quantities.v
AbiEvents.v
EventRanges.v
RangeFetcher.v
FilterRules.v
Requests.v
Issuing.v
Decoding.v
Retention.v
StoreSpec.v
Declarations.v
Versions.v
MemoryStore.v
PatchStore.v
Seam.v
Backends.v
MutationContext.v
EntityProcessor.v
Json.v
Canonical.v
StreamConfig.v
SourceIdentity.v
SnapshotDocument.v
SnapshotRoundTrip.v
Snapshots.v
Installed.v
SqlTables.v
SqlStore.v
SqlLaws.v
SqlPrune.v
SqlRuns.v
Cursor.v
StreamBuilder.v
Emissions.v
Keeper.v
KeeperOnIndexedDB.v
SeedDocument.v
SeedInstall.v
Feed.v
Consumer.v
Compaction.v
Chunks.v
Recode.v
Rebuild.v
Publishing.v
Rebuilt.v
Fetched.v
Fetching.v
Seeding.v
LogFetcher.v
Sending.v
Direct.v
Writer.v
Scenarios.v
Combining.v
Rebuilding.v
Writing.v
