(* ===== verification/Prelude.v ===== *)
(** * A verification library for the etherfold indexer

    etherfold reads contract events off a chain and folds them into an entity store.  The
    chain reorganises, the process stops at any point, and several generations of the
    author's code fold the same history side by side; what makes the program correct is
    that none of this shows in what the store answers.  This library models the parts of
    it that decide that, from the text of the source, and proves what they promise.

    ** The program, and how its parts meet

    A sender fetches a block range and pushes its logs.  The receiver checks the batch,
    tells what is new and what was reorganised away against the unconfirmed window in its
    cursor, appends the conclusion to the stored stream and hands it to the processor,
    which reverts the store at the fork and applies one block at a time, each with the
    cursor that is true of it.  The stored rows are read by four parties: a feed consumer
    in [seq] order, a canonical consumer by position with a rewind when the chain moved, a
    compaction that reclaims the pairs that cancel out, and a generation that fetches
    nothing and catches up by replaying them.  A registry says which generation answers.

    ** Files

    Shared.
    - [Prelude]: the [result] of a call that throws, sorting and orderings, lists, the
      tactics and the hint database.  [JsMap]: the insertion-ordered [Map].
    - [Types]: logs, blocks, cursors and the well-formedness of a chain
      ([core/src/types.ts], [errors.ts], [emissionStream.ts]).

    The engine, [core/src/internal/engine/utils.ts].
    - [Stream]: grouping by block, the delivery batches ([batchStreamForDelivery]),
      [getFromBlock], [cursorSyncedThrough] and the payload checks.
    - [Reorg]: [generateStreamToAppend] and [findReorg].  [holds] is what a cursor promises
      about the chain it resumes from, [honest_fetch] what a sender read.
    - [Replay]: [windowOfStoredStream] and [generateStreamFromReplay].  [cycles] is a log:
      runs of retractions and applications from one chain to another.
    - [Chunks]: what a replay of a block range of a log delivers.
    - [Invalidation]: the two verdicts on a persisted context, [sameWireContext].
    - [Hash], [Canonical]: [simple_hash] and [canonical_form] of [core/src/utils/hash.ts];
      two values without spaces in their texts have one canonical form exactly when they
      are the same JSON value.
    - [StreamConfig], [SourceIdentity]: [resolveStreamConfig] and the canonical filter rules,
      [sourceHashesOf] ([engine/eventRanges.ts]) and the digest of a stream
      ([stream/identity.ts]).

    Fetching, [core/src/internal] and [core/src/logFetcher.ts].
    - [Quantities], [AbiEvents]: hex quantities, event signatures and identity
      ([decoding/eventIdentity.ts]).  [EventRanges]: the block ranges a declaration is live in
      ([engine/eventRanges.ts]).  [FilterRules]: argument filters and what refuses them
      ([decoding/filterRules.ts]).
    - [Requests], [Issuing]: the requests a range becomes and their concurrent issue
      ([engine/ethereum.ts]).  [Decoding], [Fetched]: [LogEventFetcher], and that what it
      asks for and decodes is what the declarations and the rules say.
    - [RangeFetcher]: how wide a range is asked for and what a refusal teaches
      ([engine/RangeLogFetcher.ts]).  [LogFetcher]: one cycle of a sender, over the class
      [FetchPort], with [internal/utils/retry.ts].  [Sending]: the port that [RangeFetcher]
      gives it, which discharges [port_ok].
    - [Direct]: [core/src/directIngestion.ts], and the whole of a combined deployment:
      [LogFetcher] over [RangeFetcher] into [StreamBuilder] over any store.

    The stores, [packages/state-store], [state-store-patch] and [state-store-sqlite].
    - [Entities], [Listing], [Retention]: [entities.ts], [semantic-types.ts],
      [listing.ts], [retention.ts].
    - [StoreSpec]: the interface.  [StateStore] is the class of a backend's operations,
      [StateStoreLaws] what it promises: a history of blocks the store represents ([repr])
      and what each operation does to it.  Every client is proved against the class.
    - [Versions], [MemoryStore]: the reference store and its instance of the laws.
    - [PatchStore], [Backends]: the light store, its instance, and its equivalence with
      the reference store under the same calls.  Its rows are plain objects, so an id of one
      column may name a member every object inherits ([rowAt], [keyIn]): the equivalence is
      over the ids that do not ([plainKey]), the instance over declarations whose ids have
      two columns or more.
    - [Declarations]: [normalizeEntities] of [entities.ts], and that what it accepts is what
      the stores ask of their declarations.
    - [SnapshotDocument], [SnapshotRoundTrip]: a snapshot's text, its writer and its reader
      ([snapshot-document.ts]).  [Snapshots]: [SnapshotAwareStateStore] ([snapshot.ts]) over
      the class [StateStoreBackend], with its own instance of [StateStoreLaws].
      [Installed]: from a document's blocks to what the installed store answers.
    - [Seam]: the rest of the backend's interface, [StateStoreBackend], and its laws;
      [OriginLaws], that nothing else a backend does touches the record of where its history
      starts, which all three keep.
    - [SqlTables], [SqlStore], [SqlLaws], [SqlPrune], [SqlRuns]: the SQL store,
      [packages/state-store-sqlite].  The tables of [ddl.ts], what each statement of
      [statements.ts] does to them, the calls of [store.ts] as the batches they send, their
      instance of the laws, the paged prune, and several handles over one database.

    The fold, [packages/processor-entities] and [core/src/streamBuilder.ts].
    - [MutationContext]: the staging area of one block; an author's handler is the tree of
      the calls it makes.  [EntityProcessor]: [applyEventStream], against [fold_chain], the
      fold of a chain from nothing.
    - [Json], [Cursor]: [JSON], the BigInt convention and the cursor's codec.
    - [StreamBuilder]: [receive] and its refusals; [tracks] is the contract of a fold.

    The stored stream, [packages/server/src].
    - [Emissions]: the tables, [appendEmissions] ([emissions.ts], [feed/entries.ts]).
    - [Feed], [Consumer]: the two feeds and their consumers ([feed/stream.ts],
      [feed/canonical.ts], [api/feed.ts]).
    - [Compaction]: [compactEmissionPairs] ([compaction.ts]).

    A stream kept, published and installed, [core/src/stream] and [packages/browser].
    - [Keeper]: [createSegmentedStream] ([segments.ts]) over the class [StreamSegmentPort],
      a read being two transactions with other tabs' calls between ([fetchAcross]);
      [SegmentPortLaws] is what a substrate promises, [ExistingStreamLaws] what a keeper
      does.  [KeeperOnIndexedDB]: the substrate of [browser/src/storage/stream], which
      discharges both.
    - [SeedDocument], [SeedInstall]: the document of a stream seed ([seed.ts]) and its
      install ([seedInstall.ts]) into any keeper.  [Publishing]: the seed a server makes of
      its stored rows ([server/src/publication.ts]).

    Generations, [core/src/generation].
    - [Registry], [Lifecycle]: [registry.ts], [memory.ts], [promotion.ts] and what a
      container's registration, its promotion policy ([add], [applyPolicyTo]) and an
      operator's reclaim do to it.
    - [Rebuild], [Rebuilt]: [rebuild.ts] over [server/src/streamReader.ts], driven by
      [cli/src/followers.ts].  [Recode]: what an ABI decodes decides nothing the engine reads.
    - [Writer]: the stream writer, [core/src/stream/writer.ts], into the stored stream.

    Concrete runs.  [Scenarios], [Rebuilding], [Writing], [Fetching], [Seeding] and [Combining] apply
    the theorems to a small indexer, and evaluate the runs on which the code falls short of
    its comments.

    ** Representation

    Numbers are [Z]; where JavaScript's 32-bit conversions matter ([Hash]) they are
    written out.  A string is the list of its UTF-8 bytes, except in [Hash] and [Listing],
    which speak of UTF-16 code units.  A call that throws answers [Err] with the error's
    fields.  A store is an argument and a result; what lies behind a host's port
    ([StreamBuilder]) is a world the port answers.  A database table is the list of its
    rows and a statement what its SQL does to them; a batch is one transaction, and a column
    gives back what was bound to it.  Code that is not in the repository is
    a parameter: viem's [sha256], the network and the inflate of a seed, immer with its patch law for recipes that write own keys ([PatchStore]), the locale order of two texts
    ([Registry]), viem's event signatures, selectors and decoder (the class [AbiLibrary],
    [Rebuild]), and that a checksummed address holds no space (the hypothesis [checksummed]
    of the theorems on stream texts), the node behind a provider, an author's handlers everywhere.

    ** What is shown

    - A cycle of a combined deployment leaves the fold of the node's chain, behind a node that
      cuts its answers short; every batch a sender pushes is whole; the ranges it asks for
      shrink until they are answered ([Direct], [Sending], [RangeFetcher]).
    - What is asked of the node is what the rules let through, answers come back once each
      and in chain order whatever order they arrive in, and decoding again is fetching again
      ([Fetched], [Issuing], [Decoding]).
    - One push, and any run of them: what is emitted, stored, folded and answered is the
      node's chain; refusals leave nothing behind ([StreamBuilder], [Reorg], [Replay]).
    - Each backend refines the history of its blocks, over reverts to what no prune has
      passed; the two in memory answer alike.
    - The SQL store under interleaved handles: its tables hold one history, the writer row
      decides who may add to it, and a prune ends having deleted what it reports.
    - A snapshot written, downloaded in any chunks and installed over any store leaves the
      store that recorded its blocks; an install that stops short leaves no cursor; through
      every later run and reopening nothing below the block it starts at is answered.
    - What a handler reads inside its block is what a reader is told after it.
    - A cut delivery, a narrowed cursor and a serialized one are still true.
    - The stored stream: its rows pair up, its live rows are the chain's logs, and no
      append, compaction or fork loses a consumer an entry or leaves it a dead one, on the
      runs [undisturbed] describes.
    - The registry: its invariant over every run, room for every arrival while nothing is
      promoted meanwhile, exact deletion, exact reverts.
    - A stream writer appends exactly the chain's cycles, and a generation that rebuilds over
      what it wrote ends with the fold of the chain ([Writer], [Writing]).
    - A rebuild: one call is a step of refinement over a stream that grew and forked since,
      and asking while the budget cuts ends with the fold of the stream's chain.
    - Where the code does not do what its comments promise, the run is evaluated:
      [torn_revert_loses_block], [replay_flip_flop_drops], [prune_then_revert_forgets],
      [tip_regression_wedges], [truncated_refetch_refused], [rewind_skips_lower_block],
      [rewind_cursor_unvalidated], [compaction_reuses_seq], [follow_leaves_hole],
      [rebuild_misses_level_fork], [clue_at_start_wedges], [cut_at_a_row_taken_for_whole],
      [inherited_row_answered], [torn_by_clear], [named_by_two_slots],
      [promoted_twice_then_refused].  The hypotheses of the theorems next to them
      ([nothing_reread], [undisturbed], no block applied twice, a claim that moved with
      its stream, a batch that [reaches_fork], a clue past the range's first block, a plain key) are what rules these runs out.

    - Two sources have one stream exactly when their events have the same 32-bit stream
      hashes under configurations that mean the same; the canonical rules let through what the written
      ones do; what is declared above the last block indexed invalidates nothing.
    - A keeper holds the batches it accepted and no hole; an install writes a seed whole or
      says it did not; a seed published from the stored rows installs, and leaves the chain's
      own logs ([Keeper], [SeedInstall], [Publishing]).

    ** Fuel

    [batchLoop] takes the number of groups, one of which every turn consumes.  The JSON
    reader takes the length of its text plus one, and every call consumes a character; the
    round trip is proved at that fuel.  The base-36 rendering takes a digit per call.
    [deletionChunks] takes the number of pairs.  [sweepAll] (a host compacting until told
    it is complete) and [rebuildUntilLevel] are [while] loops of a host: [compaction_sweep]
    and [rebuild_completes] give a number of calls that is enough and the answer at it.

    [readStoredStreamUpTo] takes one more than the blocks of its range; every chunk reaches
    at least one further.  [pruneEntity] deletes a page a turn: the number of the entity's rows plus one.
    The retries of [RangeFetcher.getLogs] and of [retryLoop] are the code's own counters;
    [fetchCompleteRange] halves, and the tip plus one is fuel enough for it.

    ** Not modelled

    The IndexedDB backend (a browser service decides what it does; [StateStoreLaws] says
    what it owes), queries in SQL a caller writes, the browser host, the command line, the
    GraphQL surface, HTTP framing, timers and logging.  What the range fetcher reads in the
    text of a refusal (regular expressions over providers' prose) is a parameter of it, and
    a quantity that does not parse stops [parse] where the code carries a [NaN].  Of the
    containers that own the generations only what they do to the registry is here, without
    drop-on-promotion; the writer's claim is not.  What an assignment under [__proto__] does
    to a plain object is not modelled; compression is a parameter of the snapshot reader; [list] in the mutation context is not modelled.  A seed document is checked
    as the code checks it and then read at the types it is cast to: one that passes the
    checks and holds a value of another type is [Mistyped], which is where the model ends and
    the code carries on.  Of a snapshot's head what nothing reads is not checked either; a
    truthy cursor that is not two texts is outside the model.  Of [publication.ts] only the stream
    seed is here, not the snapshot beside it nor the index. *)
From stdpp Require Export base list gmap strings sorting pretty.
From Stdlib Require Export ZArith Lia Ascii.
#[global] Open Scope Z_scope.

(** ** Fallible code

    A TypeScript function that throws is modelled by a function into
    [result E A]: [Err e] is the thrown error, which keeps the fields of the
    error object and drops its prose. *)
Inductive result (E A : Type) : Type :=
  | Ok (a : A)
  | Err (e : E).
Arguments Ok {E A} a.
Arguments Err {E A} e.

#[export] Instance result_ret {E} : MRet (result E) := fun A a => Ok a.
#[export] Instance result_bind {E} : MBind (result E) := fun A B f r =>
  match r with Ok a => f a | Err e => Err e end.
#[export] Instance result_fmap {E} : FMap (result E) := fun A B f r =>
  match r with Ok a => Ok (f a) | Err e => Err e end.

Definition is_Ok {E A} (r : result E A) : Prop :=
  match r with Ok _ => True | Err _ => False end.

(** [assert c e] is the [if (!c) throw e] guard. *)
Definition assert_or {E} (c : bool) (e : E) : result E unit :=
  if c then Ok tt else Err e.

(** Map a fallible function over a list, stopping at the first error: the
    [array.map] of a callback that may throw. *)
Fixpoint mapR {E A B} (f : A -> result E B) (l : list A) : result E (list B) :=
  match l with
  | [] => Ok []
  | a :: l' =>
      match f a with
      | Err e => Err e
      | Ok b => match mapR f l' with Ok bs => Ok (b :: bs) | Err e => Err e end
      end
  end.

Lemma mapR_length {E A B} (f : A -> result E B) l bs : mapR f l = Ok bs -> length bs = length l.
Proof.
  revert bs. induction l as [|a l IH]; intros bs; simpl; [by intros [= <-]|].
  destruct (f a); [|done]. destruct (mapR f l) eqn:Hl; [|done]. intros [= <-]. simpl. by rewrite (IH _ eq_refl).
Qed.

Lemma mapR_Forall2 {E A B} (f : A -> result E B) l bs : mapR f l = Ok bs <-> Forall2 (fun a b => f a = Ok b) l bs.
Proof.
  split.
  - revert bs. induction l as [|a l IH]; intros bs; simpl; [by intros [= <-]|].
    destruct (f a) eqn:Ha; [|done]. destruct (mapR f l) eqn:Hl; [|done]. intros [= <-]. constructor; auto.
  - induction 1 as [|a b l bs Ha _ IH]; [done|]. simpl. by rewrite Ha, IH.
Qed.

Lemma mapR_ext {E A B} (f g : A -> result E B) l : (forall a, a ∈ l -> f a = g a) -> mapR f l = mapR g l.
Proof. induction l as [|a l IH]; intros Hfg; [done|]. cbn [mapR]. rewrite (Hfg a), IH; [done| |left]. intros b Hb. apply Hfg. by right. Qed.

Lemma mapR_elem {E A B} (f : A -> result E B) l bs a : mapR f l = Ok bs -> a ∈ l -> exists b, b ∈ bs /\ f a = Ok b.
Proof.
  intros Hall%mapR_Forall2 (i & Hi)%list_elem_of_lookup. destruct (Forall2_lookup_l _ _ _ _ _ Hall Hi) as (b & Hb & Hf).
  exists b. split; [by eapply list_elem_of_lookup_2|done].
Qed.

Lemma mapR_elem_iff {E A B} (f : A -> result E B) l bs : mapR f l = Ok bs -> forall b, b ∈ bs <-> exists a, a ∈ l /\ f a = Ok b.
Proof.
  intros Hall%mapR_Forall2 b. split.
  - intros (i & Hi)%list_elem_of_lookup. destruct (Forall2_lookup_r _ _ _ _ _ Hall Hi) as (a & Ha & Hab). exists a. split; [by eapply list_elem_of_lookup_2|done].
  - intros (a & (i & Hi)%list_elem_of_lookup & Hab). destruct (Forall2_lookup_l _ _ _ _ _ Hall Hi) as (b' & Hb & Hab').
    rewrite Hab in Hab'. injection Hab' as <-. by eapply list_elem_of_lookup_2.
Qed.

Lemma fmap_Ok {E A B} (r : result E A) (f : A -> B) b : f <$> r = Ok b <-> exists a, r = Ok a /\ f a = b.
Proof.
  destruct r as [a|e]; cbn; split; [intros [= <-]; by exists a|by intros (? & [= <-] & <-)|done|by intros (? & ? & _)].
Qed.

Lemma bind_Err {E A B} (r : result E A) (f : A -> result E B) e :
  (r ≫= f) = Err e <-> r = Err e \/ exists a, r = Ok a /\ f a = Err e.
Proof.
  destruct r as [a|e']; simpl; split.
  - intros Hf. right. by exists a.
  - by intros [[=]|(? & [= <-] & Hf)].
  - intros [= <-]. by left.
  - by intros [[= <-]|(? & [=] & _)].
Qed.

Lemma bind_Ok {E A B} (r : result E A) (f : A -> result E B) b :
  (r ≫= f) = Ok b <-> exists a, r = Ok a /\ f a = Ok b.
Proof.
  destruct r as [a|e]; simpl; split.
  - intros Hf. by exists a.
  - by intros (a' & [= <-] & ?).
  - done.
  - by intros (a & [=] & _).
Qed.

Lemma assert_or_Ok {E} (c : bool) (e : E) u : assert_or c e = Ok u <-> c = true.
Proof. destruct u. by destruct c. Qed.

(** A loop whose body may throw. *)
Fixpoint foldR {E S A} (f : S -> A -> result E S) (s : S) (l : list A) : result E S :=
  match l with
  | [] => Ok s
  | a :: l' => match f s a with Ok s' => foldR f s' l' | Err e => Err e end
  end.

(** A loop whose every completed body is a pure step is the loop of the pure steps. *)
Lemma foldR_pure {E S A} (f : S -> A -> result E S) (g : S -> A -> S) s l s' :
  (forall s s' a, a ∈ l -> f s a = Ok s' -> s' = g s a) -> foldR f s l = Ok s' -> s' = foldl g s l.
Proof.
  revert s. induction l as [|a l IH]; intros s Hf; simpl; [by intros [= <-]|].
  destruct (f s a) as [s1|] eqn:Ha; [|done]. intros Hl. apply Hf in Ha as ->; [|left].
  apply IH; [|done]. intros s1 s2 b Hb. apply Hf. by right.
Qed.

Lemma foldR_elem {E S A} (f : S -> A -> result E S) s l s' a :
  foldR f s l = Ok s' -> a ∈ l -> exists s1 s2, f s1 a = Ok s2.
Proof.
  revert s. induction l as [|b l IH]; intros s; simpl; [by intros _ ?%not_elem_of_nil|].
  destruct (f s b) as [s1|] eqn:Hb; [|done]. intros Hl [->|Hin]%elem_of_cons; [by exists s, s1|by eapply IH].
Qed.

Lemma foldR_inv {E S A} (f : S -> A -> result E S) (I : S -> Prop) s l s' :
  (forall s1 a s2, a ∈ l -> I s1 -> f s1 a = Ok s2 -> I s2) -> I s -> foldR f s l = Ok s' -> I s'.
Proof.
  revert s. induction l as [|a l IH]; intros s Hf Hs; simpl; [by intros [= <-]|].
  destruct (f s a) as [s1|] eqn:Ha; [|done]. apply IH; [|by eapply Hf; [left| |]].
  intros s2 b s3 Hb. apply Hf. by right.
Qed.

(** ** [Array.prototype.sort] with a numeric key

    ECMAScript's sort is stable, so it is an insertion sort that keeps equal
    keys in their original order. *)
Section SortOn.
Context {A : Type} (key : A -> Z).

Fixpoint insert_on (x : A) (l : list A) : list A :=
  match l with
  | [] => [x]
  | y :: l' => if decide (key x <= key y) then x :: l else y :: insert_on x l'
  end.

Definition sort_on (l : list A) : list A := foldr insert_on [] l.

Definition ascending (l : list A) : Prop := StronglySorted (fun a b => key a < key b) l.
Definition ascending_weak (l : list A) : Prop := StronglySorted (fun a b => key a <= key b) l.
End SortOn.

(** [sort] with a comparator: the stable insertion sort again. *)
Section SortBy.
Context {A : Type} (compare : A -> A -> Z).

Fixpoint insert_by (x : A) (l : list A) : list A :=
  match l with
  | [] => [x]
  | y :: l' => if decide (compare x y <= 0) then x :: l else y :: insert_by x l'
  end.

Definition sort_by (l : list A) : list A := foldr insert_by [] l.
End SortBy.

(** ** Automation

    [split_and!] and [destruct_and!] come from stdpp; [inv_ok] reads a
    successful run of a fallible function apart. *)
Ltac inv_ok :=
  repeat match goal with
  | H : Ok _ = Ok _ |- _ => injection H as H; subst
  | H : Err _ = Err _ |- _ => injection H as H; subst
  | H : Ok _ = Err _ |- _ => discriminate H
  | H : Err _ = Ok _ |- _ => discriminate H
  | H : context [match ?x with Ok _ => _ | Err _ => _ end] |- _ =>
      let E := fresh "E" in destruct x eqn:E
  end.

(** Decide a closed proposition by evaluation. *)
Ltac evaluate := apply (bool_decide_unpack _); vm_compute; exact I.

(** Go through the members of a concrete list. *)
Ltac each_in H := repeat (apply elem_of_cons in H as [->|H]); try (by apply not_elem_of_nil in H).

(** A closed fallible run is not the error it is assumed to be. *)
Ltac not_error H :=
  exfalso;
  match type of H with
  | ?run = Err _ =>
      assert ((match run with Ok _ => true | Err _ => false end) = true) as Hrun by (vm_compute; reflexivity);
      rewrite H in Hrun; discriminate Hrun
  end.

Create HintDb etherfold.

(** ** Generic list lemmas *)
Lemma filter_Forall_id {A} (P : A -> Prop) `{!forall x, Decision (P x)} (l : list A) :
  Forall P l -> filter P l = l.
Proof. induction 1; [done|]. rewrite filter_cons_True by done. by f_equal. Qed.

Lemma filter_Forall_nil {A} (P : A -> Prop) `{!forall x, Decision (P x)} (l : list A) :
  Forall (fun x => ~ P x) l -> filter P l = [].
Proof. induction 1; [done|]. by rewrite filter_cons_False. Qed.

Lemma filter_ext_in {A} (P Q : A -> Prop) `{!forall x, Decision (P x), !forall x, Decision (Q x)}
    (l : list A) :
  (forall x, x ∈ l -> (P x <-> Q x)) -> filter P l = filter Q l.
Proof.
  induction l as [|x l IH]; intros Heq; [done|].
  assert (P x <-> Q x) as Hx by (apply Heq; left).
  rewrite !filter_cons, IH by (intros y Hy; apply Heq; by right).
  repeat case_decide; tauto || done.
Qed.

(** A cut of a filtered list comes from a cut of the list. *)
Lemma filter_split {A} (P : A -> Prop) `{!forall x, Decision (P x)} (l l1 l2 : list A) x :
  filter P l = l1 ++ x :: l2 ->
  exists k1 k2, l = k1 ++ x :: k2 /\ P x /\ filter P k2 = l2.
Proof.
  revert l1. induction l as [|y l IH]; intros l1; [by destruct l1|]. rewrite filter_cons.
  case_decide as HP; [|intros Hl; by destruct (IH _ Hl) as (k1 & k2 & -> & ? & ?); exists (y :: k1), k2].
  destruct l1 as [|z l1]; simpl; intros [= -> Hl]; [by exists [], l|].
  destruct (IH _ Hl) as (k1 & k2 & -> & ? & ?). by exists (z :: k1), k2.
Qed.

Lemma sublist_filter_mono {A} (P : A -> Prop) `{!forall x, Decision (P x)} (l k : list A) :
  l `sublist_of` k -> filter P l `sublist_of` filter P k.
Proof.
  induction 1 as [|x l k Hs IH|x l k Hs IH]; [done|..]; rewrite ?filter_cons; case_decide;
    first [done | by apply sublist_skip | by apply sublist_cons].
Qed.

Lemma elem_of_filter_intro {A} (P : A -> Prop) `{!forall x, Decision (P x)} (l : list A) x :
  P x -> x ∈ l -> x ∈ filter P l.
Proof. intros. by apply list_elem_of_filter. Qed.

Lemma StronglySorted_sublist {A} (R : relation A) (k l : list A) :
  k `sublist_of` l -> StronglySorted R l -> StronglySorted R k.
Proof.
  induction 1 as [|x k l Hsub IH|x k l Hsub IH]; [done| |];
    rewrite !StronglySorted_cons; intros [Hx Hl]; [split|]; auto.
  apply Forall_forall. intros y Hy. rewrite Forall_forall in Hx.
  apply Hx. by eapply elem_of_sublist.
Qed.

Lemma Forall_sublist {A} (P : A -> Prop) (k l : list A) :
  k `sublist_of` l -> Forall P l -> Forall P k.
Proof. rewrite !Forall_forall. intros Hs H x Hx. by eapply H, elem_of_sublist. Qed.

Lemma sublist_fmap {A B} (f : A -> B) (k l : list A) :
  k `sublist_of` l -> (f <$> k) `sublist_of` (f <$> l).
Proof. induction 1; csimpl; by constructor. Qed.

Lemma StronglySorted_impl {A} (R S : relation A) (l : list A) :
  (forall x y, R x y -> S x y) -> StronglySorted R l -> StronglySorted S l.
Proof.
  intros HRS. induction 1 as [|x l Hl IH Hx]; constructor; [done|].
  eapply Forall_impl; eauto.
Qed.

#[export] Hint Resolve sublist_filter StronglySorted_sublist Forall_sublist : etherfold.

(** A sublist that misses no element of a duplicate-free list is the list. *)
Lemma sublist_all_eq {A} (k l : list A) :
  k `sublist_of` l -> NoDup l -> (forall x, x ∈ l -> x ∈ k) -> k = l.
Proof.
  induction 1 as [|x k l Hsub IH|x k l Hsub IH]; intros Hnd Hall; [done| |];
    apply NoDup_cons in Hnd as [Hx Hnd].
  - f_equal. apply IH; [done|]. intros y Hy.
    destruct (proj1 (elem_of_cons _ _ _) (Hall y (list_elem_of_further _ _ _ Hy))) as [->|]; done.
  - destruct Hx. eapply elem_of_sublist; [|exact Hsub]. apply Hall. by left.
Qed.

Lemma sublist_app_split {A} (k l1 l2 : list A) :
  k `sublist_of` l1 ++ l2 ->
  exists k1 k2, k = k1 ++ k2 /\ k1 `sublist_of` l1 /\ k2 `sublist_of` l2.
Proof. intros (k1 & k2 & ? & ? & ?)%sublist_app_r. by exists k1, k2. Qed.

Lemma NoDup_fmap_inj_on {A B} (f : A -> B) (l : list A) x y :
  NoDup (f <$> l) -> x ∈ l -> y ∈ l -> f x = f y -> x = y.
Proof.
  intros Hnd [i Hi]%list_elem_of_lookup [j Hj]%list_elem_of_lookup Hf.
  assert (i = j) as ->; [|congruence].
  eapply (NoDup_lookup _ i j (f x)); [done|..]; rewrite list_lookup_fmap.
  - by rewrite Hi.
  - by rewrite Hj, Hf.
Qed.

Lemma elem_of_concat {A} (x : A) (ls : list (list A)) : x ∈ concat ls <-> exists l, x ∈ l /\ l ∈ ls.
Proof.
  induction ls as [|k ls IH]; simpl.
  - split; [by intros ?%not_elem_of_nil|]. by intros (l & _ & ?%not_elem_of_nil).
  - rewrite elem_of_app, IH. setoid_rewrite elem_of_cons. split.
    + intros [Hx|(l & Hx & Hl)]; [by exists k; auto|by exists l; auto].
    + intros (l & Hx & [->|Hl]); [by left|right; by exists l].
Qed.

Lemma head_fmap {A B} (f : A -> B) (l : list A) : head (f <$> l) = f <$> head l.
Proof. by destruct l. Qed.

Lemma filter_pairs {A B} (P : A -> Prop) (Q : B -> Prop) `{!forall x, Decision (P x), !forall x, Decision (Q x)}
    (f : A -> B) (l : list A) :
  (forall x, x ∈ l -> (Q (f x) <-> P x)) -> filter Q (f <$> l) = f <$> filter P l.
Proof.
  induction l as [|x l IH]; intros HPQ; [done|]. csimpl.
  assert (Q (f x) <-> P x) as Hx by (apply HPQ; left).
  rewrite !filter_cons, IH by (intros y Hy; apply HPQ; by right).
  destruct (decide (P x)), (decide (Q (f x))); tauto || done.
Qed.

(** ** Lists ordered by a numeric key *)
Section Ascending.
Context {A : Type} (key : A -> Z).
Implicit Types (x y : A) (l k : list A).

Lemma ascending_weaken l : ascending key l -> ascending_weak key l.
Proof. apply StronglySorted_impl. intros; lia. Qed.

Lemma ascending_app l k :
  ascending key (l ++ k) <->
  (forall x y, x ∈ l -> y ∈ k -> key x < key y) /\ ascending key l /\ ascending key k.
Proof. apply StronglySorted_app. Qed.

Lemma ascending_sublist k l : k `sublist_of` l -> ascending key l -> ascending key k.
Proof. apply StronglySorted_sublist. Qed.

Lemma ascending_key_inj l x y :
  ascending key l -> x ∈ l -> y ∈ l -> key x = key y -> x = y.
Proof.
  induction 1 as [|z l Hl IH Hz]; [by intros ?%not_elem_of_nil|].
  rewrite Forall_forall in Hz.
  intros [->|Hx]%elem_of_cons [->|Hy]%elem_of_cons Heq; auto.
  - apply Hz in Hy. lia.
  - apply Hz in Hx. lia.
Qed.

Lemma ascending_keys_NoDup l : ascending key l -> NoDup (key <$> l).
Proof.
  induction 1 as [|z l Hl IH Hz]; csimpl; constructor; [|done].
  intros (y & Hy & Hin)%list_elem_of_fmap. rewrite Forall_forall in Hz. specialize (Hz y Hin). lia.
Qed.

Lemma ascending_NoDup l : ascending key l -> NoDup l.
Proof.
  induction 1 as [|z l Hl IH Hz]; constructor; [|done].
  intros Hin. rewrite Forall_forall in Hz. apply Hz in Hin. lia.
Qed.

(** *** The stable sort *)
Lemma insert_on_perm x l : insert_on key x l ≡ₚ x :: l.
Proof.
  induction l as [|y l IH]; simpl; [done|].
  case_decide; [done|]. rewrite IH. apply Permutation_swap.
Qed.

Lemma sort_on_perm l : sort_on key l ≡ₚ l.
Proof. induction l as [|x l IH]; simpl; [done|]. by rewrite insert_on_perm, IH. Qed.

Lemma insert_on_sorted x l : ascending_weak key l -> ascending_weak key (insert_on key x l).
Proof.
  induction 1 as [|y l Hl IH Hy]; simpl; [by repeat constructor|].
  case_decide as Hle; constructor; auto.
  - by constructor.
  - constructor; [done|]. eapply Forall_impl; [exact Hy|]. simpl. lia.
  - rewrite insert_on_perm. constructor; [lia|done].
Qed.

Lemma sort_on_sorted l : ascending_weak key (sort_on key l).
Proof. induction l; simpl; [constructor|by apply insert_on_sorted]. Qed.

Lemma sort_on_id l : ascending_weak key l -> sort_on key l = l.
Proof.
  induction 1 as [|x l Hl IH Hx]; simpl; [done|]. rewrite IH.
  destruct Hx; simpl; [done|]. by rewrite decide_True.
Qed.

Lemma elem_of_sort_on x l : x ∈ sort_on key l <-> x ∈ l.
Proof. by rewrite sort_on_perm. Qed.

(** A list with distinct keys has one ascending arrangement. *)
Lemma sort_on_unique l k :
  l ≡ₚ k -> ascending key k -> sort_on key l = k.
Proof.
  intros Hp Hk. apply (StronglySorted_unique_strong (fun a b => key a <= key b)).
  - intros x y Hx Hy Hxy Hyx. rewrite sort_on_perm, Hp in Hx.
    eapply ascending_key_inj; eauto. lia.
  - apply sort_on_sorted.
  - by apply ascending_weaken.
  - by rewrite sort_on_perm.
Qed.

Lemma ascending_ext l k : ascending key l -> ascending key k -> (forall x, x ∈ l <-> x ∈ k) -> l = k.
Proof.
  intros Hl Hk Hin. rewrite <- (sort_on_id l) by (by apply ascending_weaken). apply sort_on_unique; [|done].
  apply NoDup_Permutation; [by apply ascending_NoDup..|done].
Qed.
End Ascending.

#[export] Hint Resolve ascending_weaken ascending_sublist ascending_NoDup : etherfold.

Lemma sort_by_perm {A} (compare : A -> A -> Z) l : sort_by compare l ≡ₚ l.
Proof.
  assert (forall x l, insert_by compare x l ≡ₚ x :: l) as Hins.
  { intros x k. induction k as [|y k IH]; simpl; [done|]. case_decide; [done|]. rewrite IH. constructor. }
  induction l as [|x l IH]; simpl; [done|]. by rewrite Hins, IH.
Qed.

Lemma sort_by_id {A} (compare : A -> A -> Z) l :
  StronglySorted (fun a b => compare a b <= 0) l -> sort_by compare l = l.
Proof.
  induction 1 as [|x l Hl IH Hx]; simpl; [done|]. rewrite IH.
  destruct Hx as [|y l Hxy _]; simpl; [done|]. by rewrite decide_True.
Qed.

(** *** Comparators

    A comparator that is a total preorder: what [sort] asks of it. *)
Class Ordering {A} (compare : A -> A -> Z) : Prop := {
  ord_flip : forall a b, compare a b < 0 <-> 0 < compare b a;
  ord_trans : forall a b c, compare a b <= 0 -> compare b c <= 0 -> compare a c <= 0
}.

Lemma sort_by_sorted {A} (compare : A -> A -> Z) `{!Ordering compare} l :
  StronglySorted (fun a b => compare a b <= 0) (sort_by compare l).
Proof.
  assert (forall x l, StronglySorted (fun a b => compare a b <= 0) l ->
    StronglySorted (fun a b => compare a b <= 0) (insert_by compare x l)) as Hins.
  { intros x k. induction 1 as [|y k Hk IH Hy]; simpl; [by repeat constructor|]. case_decide as Hxy.
    - constructor; [by constructor|]. constructor; [done|]. eapply Forall_impl; [exact Hy|]. intros z Hyz. simpl in Hyz. by eapply ord_trans.
    - constructor; [done|]. assert (insert_by compare x k ≡ₚ x :: k) as ->.
      { clear. induction k as [|y k IH]; simpl; [done|]. case_decide; [done|]. rewrite IH. constructor. }
      constructor; [|done]. destruct (Z.lt_trichotomy (compare y x) 0) as [?|[?|Hlt]]; [lia|lia|]. apply ord_flip in Hlt. lia. }
  induction l as [|x l IH]; simpl; [constructor|by apply Hins].
Qed.

(** Compare by the first, then by the second. *)
Definition lex {A} (first then_ : A -> A -> Z) (a b : A) : Z :=
  if decide (first a b <> 0) then first a b else then_ a b.

Definition on {A} (key : A -> Z) (a b : A) : Z := key a - key b.

#[export] Instance on_ordering {A} (key : A -> Z) : Ordering (on key).
Proof. unfold on. split; intros; lia. Qed.

#[export] Instance lex_ordering {A} (c1 c2 : A -> A -> Z) `{!Ordering c1, !Ordering c2} : Ordering (lex c1 c2).
Proof.
  split; unfold lex.
  - intros a b. pose proof (ord_flip (compare := c1) a b). pose proof (ord_flip (compare := c1) b a).
    pose proof (ord_flip (compare := c2) a b). repeat case_decide; lia.
  - intros a b c H1 H2.
    pose proof (ord_trans (compare := c1) a b c). pose proof (ord_trans (compare := c1) c a b).
    pose proof (ord_trans (compare := c1) b c a). pose proof (ord_trans (compare := c2) a b c).
    pose proof (ord_flip (compare := c1) a b). pose proof (ord_flip (compare := c1) b a).
    pose proof (ord_flip (compare := c1) b c). pose proof (ord_flip (compare := c1) c b).
    pose proof (ord_flip (compare := c1) a c). pose proof (ord_flip (compare := c1) c a).
    repeat case_decide; lia.
Qed.

(** The text collation: by the bytes. *)
Fixpoint textOrder (a b : string) : Z :=
  match a, b with
  | EmptyString, EmptyString => 0
  | EmptyString, _ => -1
  | _, EmptyString => 1
  | String x a', String y b' =>
      let d := Z.of_nat (nat_of_ascii x) - Z.of_nat (nat_of_ascii y) in
      if decide (d <> 0) then d else textOrder a' b'
  end.

Lemma textOrder_refl a : textOrder a a = 0.
Proof. induction a as [|x a IH]; [done|]. cbn [textOrder]. rewrite Z.sub_diag. by rewrite decide_False by lia. Qed.

Lemma textOrder_eq a b : textOrder a b = 0 -> a = b.
Proof.
  revert b. induction a as [|x a IH]; intros [|y b]; try done. cbn [textOrder]. intros Ho.
  destruct (decide (Z.of_nat (nat_of_ascii x) - Z.of_nat (nat_of_ascii y) <> 0)) as [?|Hxy]; [done|].
  f_equal; [|by apply IH]. rewrite <- (ascii_nat_embedding x), <- (ascii_nat_embedding y). f_equal. lia.
Qed.

Lemma textOrder_flip a b : textOrder a b < 0 <-> 0 < textOrder b a.
Proof.
  revert b. induction a as [|x a IH]; intros [|y b]; cbn [textOrder]; [lia..|].
  specialize (IH b). repeat case_decide; lia.
Qed.

Lemma textOrder_trans a b c : textOrder a b <= 0 -> textOrder b c <= 0 -> textOrder a c <= 0.
Proof.
  revert b c. induction a as [|x a IH]; intros [|y b] [|z c]; cbn [textOrder]; try lia.
  specialize (IH b c). repeat case_decide; lia.
Qed.

#[export] Instance text_ordering {A} (key : A -> string) : Ordering (fun a b => textOrder (key a) (key b)).
Proof. split; intros *; [apply textOrder_flip|apply textOrder_trans]. Qed.

(** ** Keys built by joining text with a separator

    [free_of c s]: the character [c] does not occur in [s]. *)
Fixpoint free_of (c : Ascii.ascii) (s : string) : Prop :=
  match s with
  | EmptyString => True
  | String c' s' => c' <> c /\ free_of c s'
  end.

#[export] Instance free_of_dec c s : Decision (free_of c s).
Proof. induction s; simpl; apply _. Defined.

Lemma free_of_app c s t : free_of c (s +:+ t) <-> free_of c s /\ free_of c t.
Proof. induction s as [|c' s IH]; simpl; [tauto|]. rewrite IH. tauto. Qed.

(** A separator that does not occur in the first part cuts the text in one way. *)
Lemma separator_inj c s s' t t' :
  free_of c s -> free_of c s' ->
  s +:+ String c t = s' +:+ String c t' -> s = s' /\ t = t'.
Proof.
  revert s'. induction s as [|a s IH]; intros [|a' s'] Hs Hs' Heq; simpl in *.
  - by injection Heq as ->.
  - injection Heq as -> _. tauto.
  - injection Heq as -> _. tauto.
  - injection Heq as -> Heq. destruct (IH s') as [-> ->]; tauto.
Qed.

Lemma pretty_N_go_free c x s :
  (forall d, c <> pretty_N_char d) -> free_of c s -> free_of c (pretty_N_go x s).
Proof.
  intros Hc. revert s. induction (N.lt_wf_0 x) as [x _ IH]; intros s Hs.
  destruct (decide (x = 0%N)) as [->|Hx]; [by rewrite pretty_N_go_0|].
  rewrite pretty_N_go_step by lia. apply IH; [apply N.div_lt; lia|].
  simpl. split; [|done]. intros Heq. by eapply Hc.
Qed.

(** A decimal numeral holds digits and at most a sign. *)
Lemma pretty_Z_free c (z : Z) :
  (forall d, c <> pretty_N_char d) -> c <> "-"%char -> free_of c (pretty z).
Proof.
  intros Hc Hd. assert (forall p, free_of c (pretty (Npos p))) as Hp.
  { intros p. unfold pretty, pretty_N. rewrite decide_False by done. by apply pretty_N_go_free. }
  destruct z as [|p|p]; unfold pretty, pretty_Z; simpl.
  - split; [|done]. intros Heq. by apply (Hc 0%N).
  - apply Hp.
  - split; [congruence|apply Hp].
Qed.
