(* ===== verification/JsMap.v ===== *)
(** * The insertion-ordered [Map]

    A JavaScript [Map] iterates in insertion order: [set] on a present key
    updates it in place, [set] on an absent key appends, and a deleted key that
    comes back goes to the end.  The model is the list of its entries; [get] is
    the lookup of stdpp's finite map over the same entries. *)
From S2P Require Import Prelude.

Section JsMap.
Context {K A : Type} `{Countable K}.
Implicit Types (m : list (K * A)) (k : K) (a : A).

Fixpoint jm_get m k : option A :=
  match m with
  | [] => None
  | (k', a) :: m' => if decide (k' = k) then Some a else jm_get m' k
  end.

Definition jm_has m k : bool := bool_decide (is_Some (jm_get m k)).

Fixpoint jm_set m k a : list (K * A) :=
  match m with
  | [] => [(k, a)]
  | (k', a') :: m' => if decide (k' = k) then (k, a) :: m' else (k', a') :: jm_set m' k a
  end.

Definition jm_delete m k : list (K * A) := filter (fun p => p.1 <> k) m.

Definition jm_wf m : Prop := NoDup m.*1.

Lemma jm_get_map m k : jm_get m k = (list_to_map m : gmap K A) !! k.
Proof.
  induction m as [|[k' a] m IH]; simpl; [by rewrite lookup_empty|].
  case_decide as Hk; [by subst; rewrite lookup_insert_eq|]. by rewrite lookup_insert_ne.
Qed.

Lemma jm_get_Some m k a : jm_wf m -> jm_get m k = Some a <-> (k, a) ∈ m.
Proof. intros Hwf. rewrite jm_get_map. symmetry. by apply elem_of_list_to_map. Qed.

Lemma jm_get_None m k : jm_get m k = None <-> k ∉ m.*1.
Proof. rewrite jm_get_map. split; [apply not_elem_of_list_to_map_2|apply not_elem_of_list_to_map_1]. Qed.

Lemma jm_get_elem m k a : jm_get m k = Some a -> (k, a) ∈ m.
Proof. rewrite jm_get_map. apply elem_of_list_to_map_2. Qed.

Lemma jm_get_set_eq m k a : jm_get (jm_set m k a) k = Some a.
Proof.
  induction m as [|[k' a'] m IH]; simpl; [by rewrite decide_True|].
  case_decide as Hk; simpl; [by rewrite decide_True|]. by rewrite decide_False.
Qed.

Lemma jm_get_set_ne m k k' a : k <> k' -> jm_get (jm_set m k a) k' = jm_get m k'.
Proof.
  intros Hne. induction m as [|[k'' a'] m IH]; simpl; [by rewrite decide_False|].
  case_decide as Hk; simpl; [|by rewrite IH]. subst. by rewrite !decide_False.
Qed.

Lemma jm_get_set m k k' a :
  jm_get (jm_set m k a) k' = if decide (k = k') then Some a else jm_get m k'.
Proof. case_decide as Hk; [subst; apply jm_get_set_eq|by apply jm_get_set_ne]. Qed.

Lemma jm_set_set m k a b : jm_set (jm_set m k a) k b = jm_set m k b.
Proof.
  induction m as [|[k' c] m IH]; simpl; [by rewrite decide_True|]. destruct (decide (k' = k)) as [->|Hne]; simpl.
  - by rewrite decide_True.
  - by rewrite decide_False, IH.
Qed.

Lemma jm_set_keys_old m k a : k ∈ m.*1 -> (jm_set m k a).*1 = m.*1.
Proof.
  induction m as [|[k' a'] m IH]; csimpl; [by intros ?%not_elem_of_nil|].
  intros Hk. case_decide as Hd; csimpl; [by subst|]. f_equal. apply IH.
  apply elem_of_cons in Hk as [->|Hk]; done.
Qed.

Lemma jm_set_new m k a : k ∉ m.*1 -> jm_set m k a = m ++ [(k, a)].
Proof.
  induction m as [|[k' a'] m IH]; csimpl; [done|]. intros Hk. rewrite decide_False.
  - rewrite IH; [done|]. intros Hin. apply Hk. by right.
  - intros ->. apply Hk. left.
Qed.

(** Setting keys that are not there appends them. *)
Lemma foldl_jm_set_fresh (fields done_ : list (K * A)) :
  jm_wf (done_ ++ fields) -> foldl (fun m q => jm_set m q.1 q.2) done_ fields = done_ ++ fields.
Proof.
  revert done_. induction fields as [|[k v] fields IH]; intros d Hwf; [by rewrite app_nil_r|]. cbn [foldl].
  rewrite jm_set_new.
  - rewrite IH by (by rewrite <- app_assoc). by rewrite <- app_assoc.
  - unfold jm_wf in Hwf. rewrite fmap_app in Hwf. apply NoDup_app in Hwf as (_ & Hdis & _).
    intros Hin. apply (Hdis k Hin). csimpl. apply list_elem_of_here.
Qed.

Lemma jm_wf_set m k a : jm_wf m -> jm_wf (jm_set m k a).
Proof.
  unfold jm_wf. intros Hnd. destruct (decide (k ∈ m.*1)) as [Hk|Hk].
  - by rewrite jm_set_keys_old.
  - rewrite jm_set_new, fmap_app by done. apply NoDup_app. split_and!; [done| |apply NoDup_singleton].
    intros x Hx ->%list_elem_of_singleton. done.
Qed.

Lemma jm_get_filter (P : K -> Prop) `{!forall k, Decision (P k)} m k :
  jm_get (filter (fun p => P p.1) m) k = if decide (P k) then jm_get m k else None.
Proof.
  induction m as [|[k' a] m IH]; simpl; [by case_decide|].
  rewrite filter_cons. simpl. destruct (decide (P k')) as [Hk'|Hk']; simpl.
  - destruct (decide (k' = k)) as [->|Hne]; [by rewrite decide_True|done].
  - rewrite IH. destruct (decide (P k)); [|done]. rewrite decide_False; [done|]. by intros ->.
Qed.

Lemma jm_get_delete m k k' : jm_get (jm_delete m k) k' = if decide (k = k') then None else jm_get m k'.
Proof.
  unfold jm_delete. induction m as [|[k'' a] m IH]; simpl; [by case_decide|].
  rewrite filter_cons. simpl. repeat case_decide; simpl; repeat case_decide; congruence.
Qed.

Lemma jm_wf_filter (P : K * A -> Prop) `{!forall p, Decision (P p)} m : jm_wf m -> jm_wf (filter P m).
Proof. intros Hnd. eapply sublist_NoDup; [exact Hnd|]. apply sublist_fmap, sublist_filter. Qed.


Lemma jm_get_without (ks : list K) m k :
  jm_get (filter (fun p => p.1 ∉ ks) m) k = if decide (k ∈ ks) then None else jm_get m k.
Proof.
  induction m as [|[k' a] m IH]; simpl; [by case_decide|].
  rewrite filter_cons. simpl. destruct (decide (k' ∈ ks)) as [Hin|Hin].
  - rewrite decide_False by tauto. rewrite IH. destruct (decide (k ∈ ks)); [done|].
    rewrite decide_False; [done|]. by intros ->.
  - rewrite decide_True by done. simpl. rewrite IH. destruct (decide (k' = k)) as [->|]; [|done].
    by rewrite decide_False.
Qed.

Lemma jm_delete_fold (ks : list K) m :
  foldl jm_delete m ks = filter (fun p => p.1 ∉ ks) m.
Proof.
  revert m. induction ks as [|k ks IH]; intros m; cbn [foldl].
  - symmetry. apply filter_Forall_id, Forall_forall. intros p _. apply not_elem_of_nil.
  - rewrite IH. unfold jm_delete. induction m as [|p m IHm]; [done|]. rewrite !filter_cons.
    destruct (decide (p.1 = k)) as [->|Hne].
    + rewrite !decide_False; [done|intros Hn; apply Hn; left|tauto].
    + rewrite decide_True by done. rewrite filter_cons.
      destruct (decide (p.1 ∈ ks)) as [Hin|Hin].
      * rewrite !decide_False; [done|intros Hn; apply Hn; by right|tauto].
      * rewrite !decide_True; [by rewrite IHm|by apply not_elem_of_cons|done].
Qed.
End JsMap.

(** A pass over the entries that updates or deletes each one. *)
Definition jm_omap {K A B} (g : K -> A -> option B) (m : list (K * A)) : list (K * B) :=
  omap (fun '(k, a) => pair k <$> g k a) m.

Section JsMapOmap.
Context {K A B : Type} `{Countable K} (g : K -> A -> option B).

Lemma jm_omap_keys (m : list (K * A)) : (jm_omap g m).*1 `sublist_of` m.*1.
Proof.
  induction m as [|[k a] m IH]; [done|]. unfold jm_omap. csimpl.
  destruct (g k a); csimpl; by constructor.
Qed.

Lemma jm_wf_omap (m : list (K * A)) : jm_wf m -> jm_wf (jm_omap g m).
Proof. intros Hnd. eapply sublist_NoDup; [exact Hnd|apply jm_omap_keys]. Qed.

Lemma jm_get_omap (m : list (K * A)) k :
  jm_wf m -> jm_get (jm_omap g m) k = jm_get m k ≫= g k.
Proof.
  unfold jm_wf. induction m as [|[k' a] m IH]; [done|]. csimpl. intros [Hk' Hnd]%NoDup_cons.
  unfold jm_omap. csimpl. fold (jm_omap g m). case_decide as Hk.
  - subst k'. csimpl. destruct (g k a) eqn:Hg; csimpl; [by rewrite decide_True|].
    apply jm_get_None. intros Hin. apply Hk'. eapply elem_of_sublist; [exact Hin|apply jm_omap_keys].
  - destruct (g k' a); csimpl; [rewrite decide_False by done|]; by apply IH.
Qed.
End JsMapOmap.

Lemma jm_has_pairs {K A B : Type} `{Countable K} (f : B -> K) (g : B -> A) (l : list B) k :
  jm_has ((fun b => (f b, g b)) <$> l) k = bool_decide (k ∈ f <$> l).
Proof.
  unfold jm_has. apply bool_decide_ext. rewrite <- not_eq_None_Some, jm_get_None.
  rewrite <- list_fmap_compose. unfold compose. simpl. destruct (decide (k ∈ f <$> l)); tauto.
Qed.

(** ** The insertion-ordered [Set] *)
Section JsSet.
Context {A : Type} `{EqDecision A}.
Implicit Types (l : list A) (x : A).

(** [new Set(...)]: the first occurrence of each element. *)
Definition js_set l : list A :=
  foldl (fun seen x => if decide (x ∈ seen) then seen else seen ++ [x]) [] l.

Lemma js_set_spec l : NoDup (js_set l) /\ forall x, x ∈ js_set l <-> x ∈ l.
Proof.
  unfold js_set. induction l as [|x l [Hnd IH]] using rev_ind.
  { split; [constructor|done]. }
  rewrite foldl_app. cbn [foldl]. case_decide as Hx.
  - split; [done|]. intros y. rewrite elem_of_app, list_elem_of_singleton, IH. apply IH in Hx.
    split; [by left|]. by intros [?| ->].
  - split.
    + apply NoDup_app. split_and!; [done| |apply NoDup_singleton]. by intros y Hy ->%list_elem_of_singleton.
    + intros y. by rewrite !elem_of_app, IH.
Qed.

Lemma js_set_length l l' : (forall x, x ∈ l -> x ∈ l') -> (length (js_set l) <= length (js_set l'))%nat.
Proof.
  intros Hsub. destruct (js_set_spec l) as [Hnd Hl], (js_set_spec l') as [Hnd' Hl'].
  apply submseteq_length, NoDup_submseteq; [done|]. intros x Hx. by apply Hl', Hsub, Hl.
Qed.

Lemma js_set_snoc_known x l : x ∈ l -> js_set (l ++ [x]) = js_set l.
Proof.
  intros Hx. unfold js_set. rewrite foldl_app. cbn [foldl]. rewrite decide_True; [done|].
  by apply (proj2 (js_set_spec l)).
Qed.

Lemma js_set_snoc_new x l : x ∉ l -> js_set (l ++ [x]) = js_set l ++ [x].
Proof.
  intros Hx. unfold js_set. rewrite foldl_app. cbn [foldl]. rewrite decide_False; [done|].
  by intros Hin%(proj2 (js_set_spec l)).
Qed.
End JsSet.

#[export] Hint Resolve jm_wf_set jm_wf_filter : etherfold.
