(* ===== verification/Types.v ===== *)
(** * The data the engine passes around

    The types of [packages/core/src/types.ts] and the errors of
    [packages/core/src/errors.ts] the modelled code throws.  Block numbers are
    JavaScript integers below [2^53]; they are [Z] here, and every operation the
    engine applies to them (comparison, [+ 1], [- finality], [Math.min],
    [Math.max]) is exact on that range.  Hashes and addresses are hex strings. *)
From S2P Require Import Prelude.

#[local] Set Warnings "-register-all".

(** A decoded argument value: what viem's decoder hands over for one ABI
    parameter. *)
Inductive JsVal : Type :=
  | JNull
  | JBool (b : bool)
  | JNum (n : Z)
  | JBigInt (n : Z)
  | JStr (s : string)
  | JArr (items : list JsVal)
  | JObj (fields : list (string * JsVal)).

(** [LogParsedData] or [{decodeError}]: the two halves of the [LogEvent] union. *)
Inductive Decoded : Type :=
  | Parsed (eventName : string) (args : JsVal)
  | DecodeFailure (decodeError : string).

(** [NumberifiedLog] and its decoding. *)
Record LogEvent : Type := mkLog {
  blockNumber : Z;
  blockHash : string;
  transactionIndex : Z;
  removed : bool;
  address : string;
  data : string;
  topics : list string;
  transactionHash : string;
  logIndex : Z;
  blockTimestamp : option Z;
  decoded : Decoded
}.

(** [{...event, removed: true}] *)
Definition asRemoved (e : LogEvent) : LogEvent :=
  mkLog (blockNumber e) (blockHash e) (transactionIndex e) true (address e) (data e)
    (topics e) (transactionHash e) (logIndex e) (blockTimestamp e) (decoded e).

(** [EventBlock]; the engine's [BlockOfEvents] has the same fields. *)
Record EventBlock : Type := mkBlock {
  hash : string;
  number : Z;
  events : list LogEvent
}.

Record SourceHashEntry : Type := mkEntry {
  startBlock : Z;
  entry_hash : string;
  streamHash : option string;
  legacyHash : option string
}.

Record ContextIdentifier : Type := mkContext {
  ctx_source : list SourceHashEntry;
  ctx_config : string;
  ctx_processor : string
}.

Record LastSync : Type := mkSync {
  context : ContextIdentifier;
  latestBlock : Z;
  lastFromBlock : Z;
  lastToBlock : Z;
  unconfirmedBlocks : list EventBlock
}.

Record WireContext : Type := mkWireContext {
  wire_source : list SourceHashEntry;
  wire_config : string
}.

Record WireBatch : Type := mkBatch {
  batch_context : option WireContext;
  batch_fromBlock : Z;
  batch_toBlock : Z;
  batch_latestBlock : Z;
  batch_logs : list LogEvent
}.

(** [ContractData] / [AllContractData], reduced to the fields the engine's
    arithmetic reads; [abi] and [address] are hashed elsewhere. *)
Record ContractData : Type := mkContract {
  contract_address : string;
  contract_startBlock : option Z
}.

Inductive Contracts : Type :=
  | ContractList (contracts : list ContractData)
  | AllContracts (all_startBlock : option Z).

(** [ReorgCause] and [ReorgDetection] of [internal/engine/utils.ts]. *)
Inductive ReorgCause : Type := contradiction | absence.

#[export] Instance ReorgCause_eq_dec : EqDecision ReorgCause.
Proof. solve_decision. Defined.

Record ReorgDetection : Type := mkReorg {
  cause : ReorgCause;
  reorg_blockNumber : Z;
  reorg_blockHash : string
}.

(** WHICH generation: the stream it folds and the processor that folds it. *)
Record GenerationId : Type := mkGeneration {
  generation_stream : string;
  generation_processor : string
}.

#[export] Instance GenerationId_eq_dec : EqDecision GenerationId.
Proof. solve_decision. Defined.

(** Why an [InvalidBatchError] was thrown: one constructor per [throw]. *)
Inductive InvalidBatchReason : Type :=
  | NotBlockNumbers
  | RangeInverted
  | RangeAboveTip
  | LogsDescend (previous current : Z)
  | LogOutsideRange (at_block : Z)
  | LogMarkedRemoved (at_block : Z).

Inductive EngineError : Type :=
  | UnexpectedFromBlockError (expected received : Z)
  | InvalidBatchError (reason : InvalidBatchReason)
  | TimestamplessLogError (log_blockNumber : Z) (log_blockHash : string)
  | WireContextMismatchError (expected : WireContext) (received : option WireContext).

(** ** Chains of event-bearing blocks

    The specification side: what a complete node holds, reduced to the blocks
    that carry logs of the source. *)
Record block_wf (b : EventBlock) : Prop := {
  block_wf_nonempty : events b <> [];
  block_wf_events : Forall (fun e =>
    blockNumber e = number b /\ blockHash e = hash b /\ removed e = false) (events b);
  block_wf_number : 0 <= number b
}.

Record chain_wf (c : list EventBlock) : Prop := {
  chain_wf_ascending : ascending number c;
  chain_wf_hashes : NoDup (hash <$> c);
  chain_wf_blocks : Forall block_wf c
}.

(** The logs of a list of blocks, in order: what [eth_getLogs] answers. *)
Definition events_of (c : list EventBlock) : list LogEvent := concat (events <$> c).

(** The logs a retraction re-emits for a list of blocks. *)
Definition retractions_of (c : list EventBlock) : list LogEvent := asRemoved <$> events_of c.

(** The blocks of a chain a range covers, both ends included. *)
Definition blocks_in (from to : Z) (c : list EventBlock) : list EventBlock :=
  filter (fun b => from <= number b /\ number b <= to) c.

Lemma events_of_cons b c : events_of (b :: c) = events b ++ events_of c.
Proof. done. Qed.

Lemma events_of_app c c' : events_of (c ++ c') = events_of c ++ events_of c'.
Proof. unfold events_of. by rewrite fmap_app, concat_app. Qed.

Lemma chain_wf_sublist k c : k `sublist_of` c -> chain_wf c -> chain_wf k.
Proof.
  intros Hs [Ha Hn Hb]. split.
  - by eapply ascending_sublist.
  - eapply sublist_NoDup; [exact Hn|]. by apply sublist_fmap.
  - by eapply Forall_sublist.
Qed.

Lemma chain_wf_NoDup c : chain_wf c -> NoDup c.
Proof. intros [Ha _ _]. eauto with etherfold. Qed.

Lemma chain_hash_inj c x y : chain_wf c -> x ∈ c -> y ∈ c -> hash x = hash y -> x = y.
Proof. intros [_ Hn _]. by apply NoDup_fmap_inj_on. Qed.

Lemma blocks_in_app from to c c' :
  blocks_in from to (c ++ c') = blocks_in from to c ++ blocks_in from to c'.
Proof. apply filter_app. Qed.

Lemma elem_of_blocks_in from to c b :
  b ∈ blocks_in from to c <-> from <= number b <= to /\ b ∈ c.
Proof. unfold blocks_in. by rewrite list_elem_of_filter. Qed.

Lemma retractions_of_app c c' : retractions_of (c ++ c') = retractions_of c ++ retractions_of c'.
Proof. unfold retractions_of. by rewrite events_of_app, fmap_app. Qed.

#[export] Hint Resolve chain_wf_sublist chain_wf_NoDup : etherfold.

(** ** Concrete chains *)
#[export] Instance ascending_dec {A} (key : A -> Z) (l : list A) : Decision (ascending key l).
Proof.
  induction l as [|x l IH]; [left; constructor|].
  refine (cast_if_and IH (decide (Forall (fun y => key x < key y) l)));
    unfold ascending in *; rewrite StronglySorted_cons; tauto.
Defined.

#[export] Instance block_wf_dec b : Decision (block_wf b).
Proof.
  refine (cast_if_and3 (decide (events b <> []))
    (decide (Forall (fun e => blockNumber e = number b /\ blockHash e = hash b /\ removed e = false) (events b)))
    (decide (0 <= number b)));
    [by split|by intros []|by intros []|by intros []].
Defined.

#[export] Instance chain_wf_dec c : Decision (chain_wf c).
Proof.
  refine (cast_if_and3 (decide (ascending number c)) (decide (NoDup (hash <$> c))) (decide (Forall block_wf c)));
    [by split|by intros []|by intros []|by intros []].
Defined.

(** A block of one log, for the examples that evaluate the model. *)
Definition sample_log (n : Z) (h : string) : LogEvent :=
  mkLog n h 0 false "0xc0" "0x" [] ("0xt" +:+ h) 0 (Some (1000 + n)) (Parsed "Set" JNull).

Definition sample_block (n : Z) (h : string) : EventBlock := mkBlock h n [sample_log n h].
