(* ===== verification/Registry.v ===== *)
(** * The generation registry

    [packages/core/src/generation/registry.ts] over the reference substrate of
    [generation/memory.ts], the promotion trigger of [generation/promotion.ts],
    and the two places of [receivingContainer.ts] where a registration or an
    operator deletes generations: [replaceTheSuccessor] and [reclaim].

    A plan is a function of the state one commit read; the substrate applies what it
    decides in the same step.  [String.prototype.localeCompare] and the host's
    [dropState] callback are parameters. *)
From S2P Require Import Prelude JsMap Types.

(** ** Records, slots, state *)
Record GenerationRecord : Type := mkRecord {
  record_id : GenerationId;
  createdAt : Z
}.

#[export] Instance GenerationRecord_eq_dec : EqDecision GenerationRecord.
Proof. solve_decision. Defined.

Definition record_stream (r : GenerationRecord) : string := generation_stream (record_id r).

Inductive SlotName : Type := Canonical | Successor | Predecessor.

#[export] Instance SlotName_eq_dec : EqDecision SlotName.
Proof. solve_decision. Defined.

Definition SLOT_NAMES : list SlotName := [Canonical; Successor; Predecessor].

(** An object with an optional property per slot name. *)
Record PerSlot (A : Type) : Type := mkSlots {
  slot_canonical : option A;
  slot_successor : option A;
  slot_predecessor : option A
}.
Arguments mkSlots {A}.
Arguments slot_canonical {A}. Arguments slot_successor {A}. Arguments slot_predecessor {A}.

Abbreviation GenerationSlots := (PerSlot GenerationId).

(** [SlotAssignment]: [Some None] is the [null] that clears. *)
Abbreviation SlotAssignment := (PerSlot (option GenerationId)).

Definition slot_get {A} (slots : PerSlot A) (name : SlotName) : option A :=
  match name with
  | Canonical => slot_canonical slots
  | Successor => slot_successor slots
  | Predecessor => slot_predecessor slots
  end.

Definition slot_update {A} (slots : PerSlot A) (name : SlotName) (value : option A) : PerSlot A :=
  match name with
  | Canonical => mkSlots value (slot_successor slots) (slot_predecessor slots)
  | Successor => mkSlots (slot_canonical slots) value (slot_predecessor slots)
  | Predecessor => mkSlots (slot_canonical slots) (slot_successor slots) value
  end.

Definition no_slots {A} : PerSlot A := mkSlots None None None.

Record GenerationCaps : Type := mkCaps { maxGenerations : Z; maxStreams : Z }.

Record GenerationRegistryState : Type := mkRegistryState {
  generations : list GenerationRecord;
  slots : GenerationSlots;
  keptStreams : list string
}.

Record GenerationRegistryWrite : Type := mkRegistryWrite {
  write_remove : list GenerationId;
  write_put : option GenerationRecord;
  write_bundle : option (list Z);
  write_slots : SlotAssignment;
  write_keepStream : option string;
  write_forgetStreams : list string
}.

Inductive CapName : Type := CapGenerations | CapStreams.

Inductive RegistryError : Type :=
  | InvalidIdentity
  | InvalidBundle
  | InvalidCaps
  | UnknownPolicy (policy : string)
  | GenerationCapReachedError (cap : CapName) (limit : Z) (refused : GenerationId)
      (candidates : list GenerationId) (candidateStreams : list string)
  | UnknownGenerationError (id : GenerationId)
  | UnknownStreamError (digest : string)
  | GenerationIsCanonicalError (id : GenerationId).

(** ** Helpers *)
Definition sameGeneration (a b : GenerationId) : bool :=
  bool_decide (generation_stream a = generation_stream b)
  && bool_decide (generation_processor a = generation_processor b).

(** [if (held && sameGeneration(held, id))] *)
Definition names (held : option GenerationId) (id : GenerationId) : bool :=
  match held with Some held => sameGeneration held id | None => false end.

Definition slotHolding (slots : GenerationSlots) (id : GenerationId) : option SlotName :=
  find (fun name => names (slot_get slots name) id) SLOT_NAMES.

Definition findRecord (records : list GenerationRecord) (id : GenerationId) : option GenerationRecord :=
  find (fun record => sameGeneration (record_id record) id) records.

Definition unslottedGenerations (records : list GenerationRecord) (slots : GenerationSlots) : list GenerationRecord :=
  filter (fun record => slotHolding slots (record_id record) = None) records.

Definition sort_text (l : list string) : list string :=
  sort_by (fun a b => match String.compare a b with Lt => -1 | Eq => 0 | Gt => 1 end) l.

Definition newest (records : list GenerationRecord) : Z :=
  foldl (fun high record => Z.max high (createdAt record)) 0 records.

Definition clearSlotsNaming (slots : GenerationSlots) (removed : list GenerationId) : SlotAssignment :=
  foldl (fun cleared name =>
    match slot_get slots name with
    | Some held =>
        if existsb (fun id => sameGeneration id held) removed then slot_update cleared name (Some None) else cleared
    | None => cleared
    end) no_slots SLOT_NAMES.

Definition resolveSlots (current : GenerationRegistryState) : PerSlot GenerationRecord :=
  foldl (fun held name =>
    match slot_get (slots current) name ≫= findRecord (generations current) with
    | Some record => slot_update held name (Some record)
    | None => held
    end) no_slots SLOT_NAMES.

(** The slots a container works from: the resolved records, by identity. *)
Definition resolvedSlots (current : GenerationRegistryState) : GenerationSlots :=
  let resolved := resolveSlots current in
  mkSlots (record_id <$> slot_canonical resolved) (record_id <$> slot_successor resolved)
    (record_id <$> slot_predecessor resolved).

Definition assertIdentity (id : GenerationId) : result RegistryError GenerationId :=
  if decide (generation_stream id = "") then Err InvalidIdentity
  else if decide (generation_processor id = "") then Err InvalidIdentity
  else Ok id.

Definition assertBundle (bundle : option (list Z)) : result RegistryError (option (list Z)) :=
  match bundle with
  | Some [] => Err InvalidBundle
  | _ => Ok bundle
  end.

Definition assertCaps (caps : GenerationCaps) : result RegistryError GenerationCaps :=
  if decide (maxGenerations caps < 1 \/ maxStreams caps < 1) then Err InvalidCaps else Ok caps.

Definition deletable (current : GenerationRegistryState) : list GenerationId * list string :=
  let canonical := slot_canonical (slots current) in
  (record_id <$> filter (fun record => names canonical (record_id record) = false) (generations current),
   sort_text (filter (fun digest => generation_stream <$> canonical <> Some digest)
     (js_set (record_stream <$> generations current)))).

(** ** The reference substrate *)
Record Entry : Type := mkEntry {
  entry_record : GenerationRecord;
  entry_bundle : option (list Z)
}.

Record RegistryStore : Type := mkRegistry {
  r_generations : list (string * Entry);
  r_streams : list string;
  r_slots : GenerationSlots
}.

Definition keyOf (id : GenerationId) : string :=
  generation_stream id +:+ String zero (generation_processor id).

Definition emptyRegistry : RegistryStore := mkRegistry [] [] no_slots.

Definition snapshot (s : RegistryStore) : GenerationRegistryState :=
  mkRegistryState ((fun p => entry_record p.2) <$> r_generations s) (r_slots s) (r_streams s).

(** The three cases of an assignment: absent leaves, [null] clears, an identity assigns. *)
Definition assignSlots (slots : GenerationSlots) (assignment : SlotAssignment) : GenerationSlots :=
  foldl (fun slots name =>
    match slot_get assignment name with
    | None => slots
    | Some assigned => slot_update slots name assigned
    end) slots SLOT_NAMES.

Definition applyWrite (s : RegistryStore) (write : GenerationRegistryWrite) : RegistryStore :=
  let removed := foldl (fun m id => jm_delete m (keyOf id)) (r_generations s) (write_remove write) in
  let stored := match write_put write with
    | Some record => jm_set removed (keyOf (record_id record)) (mkEntry record (write_bundle write))
    | None => removed
    end in
  let kept := match write_keepStream write with
    | Some digest => if decide (digest ∈ r_streams s) then r_streams s else r_streams s ++ [digest]
    | None => r_streams s
    end in
  mkRegistry stored
    (foldl (fun streams digest => filter (fun d => d <> digest) streams) kept (write_forgetStreams write))
    (assignSlots (r_slots s) (write_slots write)).

(** [commit]: the plan decides on what the same step read, and may throw. *)
Definition commit {A} (s : RegistryStore)
    (plan : GenerationRegistryState -> result RegistryError (option GenerationRegistryWrite * A))
    : result RegistryError (RegistryStore * A) :=
  planned ← plan (snapshot s);
  let '(write, a) := planned in
  Ok (match write with Some write => applyWrite s write | None => s end, a).

Definition dropStreamSubtree (s : RegistryStore) (digest : string) : RegistryStore * nat :=
  if decide (digest ∈ r_streams s)
  then (mkRegistry (r_generations s) (filter (fun d => d <> digest) (r_streams s)) (r_slots s), 1%nat)
  else (s, 0%nat).

Definition readBundle (s : RegistryStore) (id : GenerationId) : option (list Z) :=
  jm_get (r_generations s) (keyOf id) ≫= entry_bundle.

(** ** Opening: the sweep

    [digests] are the subtrees on the substrate, listed by the port. *)
Definition knownStreams (opening : GenerationRegistryState) : list string :=
  js_set ((record_stream <$> generations opening) ++ keptStreams opening).

Definition sweep (opening : GenerationRegistryState) (digests : list string) : list string :=
  filter (fun digest => digest ∉ knownStreams opening) digests.

Definition openGenerationRegistry (caps : GenerationCaps) (opening : GenerationRegistryState)
    (digests : list string) : result RegistryError (list string) :=
  _ ← assertCaps caps;
  Ok (sweep opening digests).

(** ** The registry's operations *)
Section Operations.
Context (localeCompare : string -> string -> Z).

(** [a.createdAt - b.createdAt || ... || ...] *)
Definition byAge (a b : GenerationRecord) : Z :=
  if decide (createdAt a - createdAt b <> 0) then createdAt a - createdAt b
  else
    let by_stream := localeCompare (record_stream a) (record_stream b) in
    if decide (by_stream <> 0) then by_stream
    else localeCompare (generation_processor (record_id a)) (generation_processor (record_id b)).

Definition fetcherOf (records : list GenerationRecord) (stream : string) : option GenerationRecord :=
  head (sort_by byAge (filter (fun record => record_stream record = stream) records)).

Definition r_list (s : RegistryStore) : list GenerationRecord := sort_by byAge (generations (snapshot s)).

Definition r_streamsFolded (s : RegistryStore) : list string :=
  sort_text (js_set (record_stream <$> generations (snapshot s))).

Definition r_keptStreams (s : RegistryStore) : list string := sort_text (keptStreams (snapshot s)).

Definition r_canonical (s : RegistryStore) : option GenerationRecord := slot_canonical (resolveSlots (snapshot s)).

(** [now] is [Date.now()]. *)
Definition create_plan (caps : GenerationCaps) (wanted : GenerationId) (into : option SlotName)
    (bundle : option (list Z)) (now : Z) (current : GenerationRegistryState)
    : result RegistryError (option GenerationRegistryWrite * GenerationRecord) :=
  let keepStream := Some (generation_stream wanted) in
  let resolves assignment := Some (mkRegistryWrite [] None None assignment keepStream []) in
  match findRecord (generations current) wanted with
  | Some found =>
      Ok (match slot_canonical (slots current), into, slotHolding (slots current) (record_id found) with
          | None, _, _ => resolves (slot_update no_slots Canonical (Some (Some (record_id found))))
          | Some _, Some Successor, Some Predecessor =>
              resolves (mkSlots None (Some (Some (record_id found))) (Some None))
          | Some _, None, _ | Some _, _, Some _ => resolves no_slots
          | Some _, Some into, None => resolves (slot_update no_slots into (Some (Some (record_id found))))
          end, found)
  | None =>
      let refuse cap limit :=
        let '(candidates, candidateStreams) := deletable current in
        Err (GenerationCapReachedError cap limit wanted candidates candidateStreams) in
      let streams := js_set (record_stream <$> generations current) in
      if decide (maxGenerations caps < Z.of_nat (length (generations current)) + 1)
      then refuse CapGenerations (maxGenerations caps)
      else if decide ((generation_stream wanted ∉ streams) /\ maxStreams caps < Z.of_nat (length streams) + 1)
      then refuse CapStreams (maxStreams caps)
      else
        let resolved := mkRecord wanted (Z.max now (newest (generations current) + 1)) in
        let assignment :=
          match slot_canonical (slots current), into with
          | None, _ => slot_update no_slots Canonical (Some (Some wanted))
          | Some _, Some into => slot_update no_slots into (Some (Some wanted))
          | Some _, None => no_slots
          end in
        Ok (Some (mkRegistryWrite [] (Some resolved) bundle assignment keepStream []), resolved)
  end.

Definition create (caps : GenerationCaps) (s : RegistryStore) (id : GenerationId) (into : option SlotName)
    (bundle : option (list Z)) (now : Z) : result RegistryError (RegistryStore * GenerationRecord) :=
  wanted ← assertIdentity id;
  bundle ← assertBundle bundle;
  commit s (create_plan caps wanted into bundle now).

Definition move_plan (wanted : GenerationId) (assignPredecessor : bool) (current : GenerationRegistryState)
    : result RegistryError (option GenerationRegistryWrite * GenerationRecord) :=
  match findRecord (generations current) wanted with
  | None => Err (UnknownGenerationError wanted)
  | Some found =>
      let movedOff := slot_canonical (slots current) in
      if names movedOff (record_id found) then Ok (None, found)
      else
        let assignment := slot_update no_slots Canonical (Some (Some (record_id found))) in
        let assignment := match movedOff with
          | Some movedOff => if assignPredecessor then slot_update assignment Predecessor (Some (Some movedOff)) else assignment
          | None => assignment
          end in
        let assignment :=
          if decide (slotHolding (slots current) (record_id found) = Some Successor)
          then slot_update assignment Successor (Some None)
          else assignment in
        Ok (Some (mkRegistryWrite [] None None assignment None []), found)
  end.

Definition moveCanonicalTo (s : RegistryStore) (id : GenerationId) (assignPredecessor : bool)
    : result RegistryError (RegistryStore * GenerationRecord) :=
  wanted ← assertIdentity id;
  commit s (move_plan wanted assignPredecessor).

Record GenerationDeletion : Type := mkDeletion {
  deletion_generation : GenerationRecord;
  deletion_reaped : option string;
  deletion_records : option nat
}.

Definition delete_plan (wanted : GenerationId) (reapStream : bool) (current : GenerationRegistryState)
    : result RegistryError (option GenerationRegistryWrite * (GenerationRecord * option string)) :=
  match findRecord (generations current) wanted with
  | None => Err (UnknownGenerationError wanted)
  | Some found =>
      if names (slot_canonical (slots current)) (record_id found) then Err (GenerationIsCanonicalError wanted)
      else
        let on := filter (fun record => record_stream record = record_stream found) (generations current) in
        let reaped := if reapStream && bool_decide (length on = 1%nat) then Some (record_stream found) else None in
        Ok (Some (mkRegistryWrite [record_id found] None None (clearSlotsNaming (slots current) [record_id found]) None
                    (match reaped with Some digest => [digest] | None => [] end)),
            (found, reaped))
  end.

Definition delete_stream_plan (digest : string) (current : GenerationRegistryState)
    : result RegistryError (option GenerationRegistryWrite * list GenerationRecord) :=
  let on := sort_by byAge (filter (fun record => record_stream record = digest) (generations current)) in
  if decide (on = [] /\ digest ∉ keptStreams current) then Err (UnknownStreamError digest)
  else
    match slot_canonical (slots current) with
    | Some canonical =>
        if decide (generation_stream canonical = digest) then Err (GenerationIsCanonicalError canonical)
        else Ok (Some (mkRegistryWrite (record_id <$> on) None None (clearSlotsNaming (slots current) (record_id <$> on))
                         None [digest]), on)
    | None =>
        Ok (Some (mkRegistryWrite (record_id <$> on) None None (clearSlotsNaming (slots current) (record_id <$> on))
                    None [digest]), on)
    end.

(** The deletions drop state the host keeps: [world] is what [dropState] acts on. *)
Context {world : Type} (dropState : GenerationId -> world -> world).

Definition deleteGeneration (s : RegistryStore) (w : world) (id : GenerationId) (reapStream : bool)
    : result RegistryError (RegistryStore * world * GenerationDeletion) :=
  wanted ← assertIdentity id;
  committed ← commit s (delete_plan wanted reapStream);
  let '(s1, (removed, reaped)) := committed in
  let w1 := dropState (record_id removed) w in
  Ok (match reaped with
      | Some digest =>
          let '(s2, records) := dropStreamSubtree s1 digest in (s2, w1, mkDeletion removed reaped (Some records))
      | None => (s1, w1, mkDeletion removed None None)
      end).

Definition deleteStream (s : RegistryStore) (w : world) (digest : string)
    : result RegistryError (RegistryStore * world * (list GenerationRecord * nat)) :=
  committed ← commit s (delete_stream_plan digest);
  let '(s1, removed) := committed in
  let w1 := foldl (fun w record => dropState (record_id record) w) w removed in
  let '(s2, records) := dropStreamSubtree s1 digest in
  Ok (s2, w1, (removed, records)).

(** ** What a registration displaces *)
Record DisplacementRuntime : Type := mkRuntime {
  heldHere : GenerationRecord -> bool;
  unheldIsCollectable : bool
}.

(** The filter's callback. *)
Definition displaceable (arriving : GenerationId) (slots : GenerationSlots) (runtime : DisplacementRuntime)
    (record : GenerationRecord) : bool :=
  negb (sameGeneration (record_id record) arriving)
  && match slotHolding slots (record_id record) with
     | Some slot => bool_decide (slot = Successor)
     | None => unheldIsCollectable runtime || heldHere runtime record
     end.

Definition displacedBySuccessor (arriving : GenerationId) (records : list GenerationRecord) (slots : GenerationSlots)
    (runtime : DisplacementRuntime) : list GenerationRecord :=
  match slot_canonical slots, slotHolding slots arriving with
  | None, _ | _, Some Canonical | _, Some Successor => []
  | _, _ =>
      sort_on (fun record => - createdAt record)
        (filter (fun record => displaceable arriving slots runtime record = true) records)
  end.

(** [replaceTheSuccessor] of the receiving container: a drop that fails is logged
    and left for a later one. *)
Definition replaceTheSuccessor (s : RegistryStore) (w : world) (arriving : GenerationId)
    (registered : list GenerationRecord) (slots : GenerationSlots) (held : GenerationRecord -> bool)
    : RegistryStore * world :=
  foldl (fun '(s, w) record =>
    match deleteGeneration s w (record_id record) false with
    | Ok (s', w', _) => (s', w')
    | Err _ => (s, w)
    end) (s, w) (displacedBySuccessor arriving registered slots (mkRuntime held false)).

(** A registration: what the slot held goes first, then the arriving generation is
    registered into it. *)
Definition register (caps : GenerationCaps) (s : RegistryStore) (w : world) (wanted : GenerationId)
    (bundle : option (list Z)) (now : Z) (held : GenerationRecord -> bool)
    : RegistryStore * world * result RegistryError GenerationRecord :=
  let registeredBefore := r_list s in
  let slotsBefore := resolvedSlots (snapshot s) in
  let '(s1, w1) := replaceTheSuccessor s w wanted registeredBefore slotsBefore held in
  match create caps s1 wanted (Some Successor) bundle now with
  | Ok (s2, record) => (s2, w1, Ok record)
  | Err e => (s1, w1, Err e)
  end.

(** ** [reclaim] *)
Record ReclaimReport : Type := mkReclaim {
  reclaimed : list GenerationDeletion;
  declined : list GenerationRecord
}.

Inductive ReclaimOutcome : Type := Reclaimed | Declined | NothingToReclaim.

Definition outcome (report : ReclaimReport) : ReclaimOutcome :=
  if decide (0 < length (reclaimed report))%nat then Reclaimed
  else if decide (0 < length (declined report))%nat then Declined
  else NothingToReclaim.

Definition reclaim (s : RegistryStore) (w : world) : RegistryStore * world * ReclaimReport :=
  let garbage := sort_on (fun record => - createdAt record)
    (unslottedGenerations (r_list s) (resolvedSlots (snapshot s))) in
  foldl (fun '(s, w, report) record =>
    match deleteGeneration s w (record_id record) true with
    | Ok (s', w', deletion) => (s', w', mkReclaim (reclaimed report ++ [deletion]) (declined report))
    | Err _ => (s, w, mkReclaim (reclaimed report) (declined report ++ [record]))
    end) (s, w, mkReclaim [] []) garbage.
End Operations.

(** ** The promotion trigger *)
Inductive PromotionPolicy : Type := OnCatchUp | Immediate | Manual.
Inductive PromotionOnAdd : Type := Promote | Arm | Wait.

Definition promotionOnAdd (policy : PromotionPolicy) : PromotionOnAdd :=
  match policy with Immediate => Promote | OnCatchUp => Arm | Manual => Wait end.

(** A configured policy is a text until it is resolved. *)
Definition PROMOTION_POLICIES : list (string * PromotionPolicy) :=
  [("on-catch-up", OnCatchUp); ("immediate", Immediate); ("manual", Manual)].

Definition DEFAULT_PROMOTION_POLICY : string := "on-catch-up".

Record PromotionConfig : Type := mkPromotionConfig {
  config_policy : option string;
  config_drop : option bool
}.

Record UsedPromotionConfig : Type := mkUsedPromotionConfig {
  used_policy : PromotionPolicy;
  used_drop : bool
}.

(** [runtimeDrop] is what [runtimeDefaults] says of the drop, where it says anything. *)
Definition resolvePromotionConfig (config : option PromotionConfig) (runtimeDrop : option bool)
    : result RegistryError UsedPromotionConfig :=
  let policy := default DEFAULT_PROMOTION_POLICY (config ≫= config_policy) in
  match find (fun p => String.eqb p.1 policy) PROMOTION_POLICIES with
  | None => Err (UnknownPolicy policy)
  | Some (_, used) =>
      Ok (mkUsedPromotionConfig used
            (match config ≫= config_drop with
             | Some drop => drop
             | None => default false runtimeDrop
             end))
  end.

Definition hasReachedCursor (cursor target : option Z) : bool :=
  match cursor, target with
  | Some cursor, Some target => bool_decide (target <= cursor)
  | _, _ => false
  end.

(** Entries are compared by identity, as the code's object references are. *)
Definition readyForPromotion {T} `{EqDecision T} (entries : list T) (current : option T)
    (isCandidate : T -> bool) (cursorOf : T -> option Z) : option T :=
  match current with
  | None => None
  | Some current =>
      find (fun entry => bool_decide (entry <> current) && isCandidate entry
        && hasReachedCursor (cursorOf entry) (cursorOf current)) entries
  end.

(** ** What a registry holds *)
Definition records (s : RegistryStore) : list GenerationRecord := (fun p => entry_record p.2) <$> r_generations s.

(** An identity a registration may carry: two non-empty texts, no NUL in the digest. *)
Record identity_ok (id : GenerationId) : Prop := {
  identity_stream : generation_stream id <> "";
  identity_processor : generation_processor id <> "";
  identity_free : free_of zero (generation_stream id)
}.

(** Slots name registered generations, each at most once, where [once] says so: else the
    canonical generation may be the predecessor too; a registry that holds
    generations answers from one of them; the caps hold; ages are a strict
    registration order; every stream folded is a stream recorded. *)
Record registry_wf (once : bool) (caps : GenerationCaps) (s : RegistryStore) : Prop := {
  rw_keys : jm_wf (r_generations s);
  rw_entries : Forall (fun p => p.1 = keyOf (record_id (entry_record p.2)) /\ identity_ok (record_id (entry_record p.2)))
    (r_generations s);
  rw_ages : ascending createdAt (records s);
  rw_named name id : slot_get (r_slots s) name = Some id -> id ∈ record_id <$> records s;
  rw_once name name' id :
    slot_get (r_slots s) name = Some id -> slot_get (r_slots s) name' = Some id ->
    name = name' \/ once = false /\ name <> Successor /\ name' <> Successor;
  rw_canonical : records s <> [] -> is_Some (slot_canonical (r_slots s));
  rw_generations : Z.of_nat (length (records s)) <= maxGenerations caps;
  rw_streams : Z.of_nat (length (js_set (record_stream <$> records s))) <= maxStreams caps;
  rw_kept r : r ∈ records s -> record_stream r ∈ r_streams s
}.

Section Once.
Context {once : bool}.

Lemma keyOf_inj id id' : identity_ok id -> identity_ok id' -> keyOf id = keyOf id' -> id = id'.
Proof.
  intros [_ _ Hf] [_ _ Hf'] Heq. destruct (separator_inj _ _ _ _ _ Hf Hf' Heq).
  destruct id, id'. simpl in *. congruence.
Qed.

Lemma sameGeneration_true a b : sameGeneration a b = true <-> a = b.
Proof.
  unfold sameGeneration. rewrite andb_true_iff, !bool_decide_eq_true. destruct a, b. simpl.
  split; [intros [-> ->]; done|by intros [= -> ->]].
Qed.

Lemma sameGeneration_false a b : sameGeneration a b = false <-> a <> b.
Proof. rewrite <- sameGeneration_true. by destruct (sameGeneration a b). Qed.

Lemma names_true held id : names held id = true <-> held = Some id.
Proof. destruct held as [h|]; simpl; [rewrite sameGeneration_true|]; split; by try intros [= ->]; try intros ->. Qed.

Lemma findRecord_Some records id r : findRecord records id = Some r -> r ∈ records /\ record_id r = id.
Proof.
  intros [Hin Hs]%find_some. split; [by apply list_elem_of_In|by apply sameGeneration_true].
Qed.

Lemma findRecord_None records id : findRecord records id = None <-> id ∉ record_id <$> records.
Proof.
  split.
  - intros Hf (r & -> & Hr)%list_elem_of_fmap. apply list_elem_of_In, (find_none _ _ Hf r) in Hr.
    by apply sameGeneration_false in Hr.
  - intros Hn. destruct (findRecord records id) as [r|] eqn:Hf; [|done]. destruct Hn.
    apply findRecord_Some in Hf as [Hr <-]. by apply list_elem_of_fmap_2.
Qed.

Lemma slotHolding_Some slots id name :
  slotHolding slots id = Some name -> slot_get slots name = Some id.
Proof. intros [_ Hf]%find_some. by apply names_true. Qed.

Lemma slotHolding_None slots id : slotHolding slots id = None <-> forall name, slot_get slots name <> Some id.
Proof.
  split.
  - intros Hf name Hn. assert (names (slot_get slots name) id = false) as Hfalse.
    { apply (find_none _ _ Hf). destruct name; simpl; tauto. }
    apply names_true in Hn. congruence.
  - intros Hall. destruct (slotHolding slots id) as [name|] eqn:Hs; [|done].
    apply slotHolding_Some in Hs. by apply Hall in Hs.
Qed.

(** What is held in the last slot is not held in the others. *)
Lemma slotHolding_Predecessor slots id name :
  slotHolding slots id = Some Predecessor -> slot_get slots name = Some id -> name = Predecessor.
Proof.
  intros Hs Hn%names_true. unfold slotHolding, SLOT_NAMES in Hs. cbn [find] in Hs.
  destruct name; [by rewrite Hn in Hs| |done]. destruct (names (slot_get slots Canonical) id); [done|]. by rewrite Hn in Hs.
Qed.

Lemma slotHolding_is caps s id name :
  registry_wf once caps s -> name <> Predecessor ->
  slotHolding (r_slots s) id = Some name <-> slot_get (r_slots s) name = Some id.
Proof.
  intros Hwf Hne. split; [apply slotHolding_Some|]. intros Hn.
  destruct (slotHolding (r_slots s) id) as [name'|] eqn:Hs; [|by rewrite slotHolding_None in Hs; apply Hs in Hn].
  f_equal. destruct (decide (name' = Predecessor)) as [->|Hne']; [by rewrite (slotHolding_Predecessor _ _ _ Hs Hn)|].
  apply slotHolding_Some in Hs. destruct (rw_once _ _ _ Hwf _ _ _ Hs Hn) as [?|(_ & ? & ?)]; [done|by destruct name, name'].
Qed.

Lemma assignSlots_get slots assignment name :
  slot_get (assignSlots slots assignment) name =
    match slot_get assignment name with Some assigned => assigned | None => slot_get slots name end.
Proof. destruct assignment as [[a|] [b|] [c|]], slots, name; done. Qed.

Lemma slot_get_update {A} (slots : PerSlot A) name value name' :
  slot_get (slot_update slots name value) name' = if decide (name = name') then value else slot_get slots name'.
Proof. by destruct name, name', slots. Qed.

Lemma slot_get_none {A} name : slot_get (@no_slots A) name = None.
Proof. by destruct name. Qed.

Lemma clearSlots_get slots removed name :
  slot_get (assignSlots slots (clearSlotsNaming slots removed)) name =
    match slot_get slots name with
    | Some id => if decide (id ∈ removed) then None else Some id
    | None => None
    end.
Proof.
  assert (forall id, existsb (fun id' => sameGeneration id' id) removed = bool_decide (id ∈ removed)) as He.
  { intros id. apply eq_true_iff_eq. rewrite bool_decide_eq_true, existsb_exists. setoid_rewrite sameGeneration_true.
    setoid_rewrite <- list_elem_of_In. split; [by intros (x & Hx & ->)|by intros Hx; exists id]. }
  unfold clearSlotsNaming, assignSlots, SLOT_NAMES. cbn [foldl].
  destruct slots as [[a|] [b|] [c|]]; cbn [slot_get slot_canonical slot_successor slot_predecessor];
    rewrite ?He; unfold bool_decide; repeat case_decide; destruct name; cbn; rewrite ?decide_True, ?decide_False by done; done.
Qed.

(** ** Erasing generations *)
Definition erase (ids : list GenerationId) (s : RegistryStore) : RegistryStore :=
  mkRegistry (filter (fun p => record_id (entry_record p.2) ∉ ids) (r_generations s)) (r_streams s)
    (assignSlots (r_slots s) (clearSlotsNaming (r_slots s) ids)).

Definition forget (digests : list string) (s : RegistryStore) : RegistryStore :=
  mkRegistry (r_generations s) (filter (fun d => d ∉ digests) (r_streams s)) (r_slots s).

Lemma records_erase ids s : records (erase ids s) = filter (fun r => record_id r ∉ ids) (records s).
Proof. symmetry. unfold records, erase. simpl. by apply filter_pairs. Qed.

Lemma forget_nil s : forget [] s = s.
Proof.
  destruct s as [g st sl]. unfold forget. simpl. f_equal. apply filter_Forall_id, Forall_forall.
  intros d _. apply not_elem_of_nil.
Qed.

Lemma record_identity caps s r : registry_wf once caps s -> r ∈ records s -> identity_ok (record_id r).
Proof.
  intros Hwf (p & -> & Hp)%list_elem_of_fmap. pose proof (rw_entries _ _ _ Hwf) as He.
  rewrite Forall_forall in He. by destruct (He p Hp).
Qed.

Lemma record_unique caps s r r' :
  registry_wf once caps s -> r ∈ records s -> r' ∈ records s -> record_id r = record_id r' -> r = r'.
Proof.
  intros Hwf (p & -> & Hp)%list_elem_of_fmap (p' & -> & Hp')%list_elem_of_fmap Heq.
  pose proof (rw_entries _ _ _ Hwf) as He. rewrite Forall_forall in He.
  destruct (He p Hp) as [Hk _], (He p' Hp') as [Hk' _]. rewrite Heq, <- Hk' in Hk.
  by rewrite (NoDup_fmap_inj_on fst (r_generations s) p p' (rw_keys _ _ _ Hwf) Hp Hp' Hk).
Qed.

Lemma findRecord_is caps s r : registry_wf once caps s -> r ∈ records s -> findRecord (records s) (record_id r) = Some r.
Proof.
  intros Hwf Hr. destruct (findRecord (records s) (record_id r)) as [r'|] eqn:Hf.
  - apply findRecord_Some in Hf as [Hr' Heq]. f_equal. by eapply record_unique.
  - apply findRecord_None in Hf. destruct Hf. by apply list_elem_of_fmap_2.
Qed.

Lemma erased_entries caps s ids :
  registry_wf once caps s -> Forall identity_ok ids ->
  foldl (fun m id => jm_delete m (keyOf id)) (r_generations s) ids
    = filter (fun p => record_id (entry_record p.2) ∉ ids) (r_generations s).
Proof.
  intros Hwf Hids.
  assert (foldl (fun m id => jm_delete m (keyOf id)) (r_generations s) ids = foldl jm_delete (r_generations s) (keyOf <$> ids)) as ->.
  { generalize (r_generations s). clear. induction ids as [|id ids IH]; intros m; [done|]. apply IH. }
  rewrite jm_delete_fold. apply filter_ext_in. intros p Hp. pose proof (rw_entries _ _ _ Hwf) as He.
  rewrite Forall_forall in He. rewrite Forall_forall in Hids. destruct (He p Hp) as [-> Hok]. apply not_iff_compat. rewrite list_elem_of_fmap. split.
  - intros (id & Hk & Hin). apply keyOf_inj in Hk; [by subst|done|by apply Hids].
  - intros Hin. by exists (record_id (entry_record p.2)).
Qed.

(** Erasing any generations but the canonical one keeps the registry well formed. *)
Lemma erase_wf caps s ids :
  registry_wf once caps s -> (forall id, slot_canonical (r_slots s) = Some id -> id ∉ ids) ->
  registry_wf once caps (erase ids s).
Proof.
  intros Hwf Hcan.
  assert (forall name, slot_get (r_slots (erase ids s)) name =
    match slot_get (r_slots s) name with Some id => if decide (id ∈ ids) then None else Some id | None => None end) as Hslot
    by (intros; apply clearSlots_get).
  assert (forall name id, slot_get (r_slots (erase ids s)) name = Some id ->
    slot_get (r_slots s) name = Some id /\ id ∉ ids) as Hold.
  { intros name id. rewrite Hslot. destruct (slot_get _ name); [|done]. case_decide; [done|]. by intros [= <-]. }
  assert (records (erase ids s) `sublist_of` records s) as Hsub by (rewrite records_erase; apply sublist_filter).
  split.
  - by apply jm_wf_filter, Hwf.
  - eapply Forall_sublist; [apply sublist_filter|apply Hwf].
  - by eapply ascending_sublist; [|apply Hwf].
  - intros name id [Hn Hid]%Hold. apply (rw_named _ _ _ Hwf) in Hn as (r & -> & Hr)%list_elem_of_fmap.
    apply list_elem_of_fmap_2. rewrite records_erase. by apply elem_of_filter_intro.
  - intros name name' id [Hn _]%Hold [Hn' _]%Hold. by eapply rw_once.
  - intros Hne. destruct (rw_canonical _ _ _ Hwf) as [id Hid].
    { intros Hnil. apply Hne. rewrite Hnil in Hsub. by apply sublist_nil_r in Hsub. }
    change (is_Some (slot_get (r_slots (erase ids s)) Canonical)). rewrite Hslot. simpl. rewrite Hid.
    by rewrite decide_False by (by apply Hcan).
  - pose proof (rw_generations _ _ _ Hwf). apply sublist_length in Hsub. lia.
  - pose proof (rw_streams _ _ _ Hwf). assert (length (js_set (record_stream <$> records (erase ids s)))
      <= length (js_set (record_stream <$> records s)))%nat; [|lia].
    apply js_set_length. intros x (r & -> & Hr)%list_elem_of_fmap. apply list_elem_of_fmap_2.
    by eapply elem_of_sublist.
  - intros r Hr. apply (rw_kept _ _ _ Hwf). by eapply elem_of_sublist.
Qed.

(** Forgetting streams nothing folds keeps it well formed too. *)
Lemma forget_wf caps s digests :
  registry_wf once caps s -> (forall r, r ∈ records s -> record_stream r ∉ digests) -> registry_wf once caps (forget digests s).
Proof.
  intros [] Hfold. split; try done. intros r Hr. simpl. apply elem_of_filter_intro; [by apply Hfold|auto].
Qed.

(** ** Registering *)
Definition keep (digest : string) (streams : list string) : list string :=
  if decide (digest ∈ streams) then streams else streams ++ [digest].

Lemma elem_of_keep x digest streams : x ∈ keep digest streams <-> x = digest \/ x ∈ streams.
Proof.
  unfold keep. case_decide as Hd; [split; [by right|by intros [->|]]|].
  rewrite elem_of_app, list_elem_of_singleton. tauto.
Qed.

Definition slots_once (slots : GenerationSlots) : Prop := forall name name' id,
  slot_get slots name = Some id -> slot_get slots name' = Some id ->
  name = name' \/ once = false /\ name <> Successor /\ name' <> Successor.

Lemma once_update slots name id :
  slots_once slots -> (forall name', slot_get slots name' = Some id -> name' = name) ->
  slots_once (slot_update slots name (Some id)).
Proof.
  intros Honce Hid n n' x. rewrite !slot_get_update. repeat case_decide; subst; try done.
  - by left.
  - intros [= <-] Hx. left. symmetry. by apply Hid.
  - intros Hx [= <-]. left. by apply Hid.
  - apply Honce.
Qed.

Lemma once_clear slots name : slots_once slots -> slots_once (slot_update slots name None).
Proof. intros Honce n n' x. rewrite !slot_get_update. repeat case_decide; try done. apply Honce. Qed.

Lemma named_update (ids : list GenerationId) slots name value :
  (forall n id, slot_get slots n = Some id -> id ∈ ids) -> (forall id, value = Some id -> id ∈ ids) ->
  forall n id, slot_get (slot_update slots name value) n = Some id -> id ∈ ids.
Proof. intros Hs Hv n id. rewrite slot_get_update. case_decide; [by apply Hv|by apply Hs]. Qed.

(** Moving slots among registered generations. *)
Lemma reslot_wf caps s streams slots :
  registry_wf once caps s -> (forall x, x ∈ r_streams s -> x ∈ streams) ->
  (forall name id, slot_get slots name = Some id -> id ∈ record_id <$> records s) ->
  slots_once slots -> (records s <> [] -> is_Some (slot_canonical slots)) ->
  registry_wf once caps (mkRegistry (r_generations s) streams slots).
Proof. intros [] Hst Hnamed Honce Hcan. split; try done. intros r Hr. simpl. auto. Qed.

Lemma newest_ge records r : r ∈ records -> createdAt r <= newest records.
Proof.
  unfold newest. induction records as [|x l IH] using rev_ind; [by intros ?%not_elem_of_nil|].
  rewrite foldl_app. intros [Hr| ->%list_elem_of_singleton]%elem_of_app; cbn [foldl]; [specialize (IH Hr)|]; lia.
Qed.

(** What [create] does to a well-formed registry. *)
Lemma create_spec caps here s id into bundle now s' r :
  registry_wf once caps s -> create here s id into bundle now = Ok (s', r) ->
  r_streams s' = keep (generation_stream id) (r_streams s) /\ record_id r = id
  /\ (((r ∈ records s) /\ r_generations s' = r_generations s
       /\ r_slots s' =
            match into, slotHolding (r_slots s) id with
            | Some Successor, Some Predecessor => mkSlots (slot_canonical (r_slots s)) (Some id) None
            | None, _ | _, Some _ => r_slots s
            | Some into, None => slot_update (r_slots s) into (Some id)
            end)
      \/ ((id ∉ record_id <$> records s)
          /\ Z.of_nat (length (records s)) < maxGenerations here
          /\ (generation_stream id ∉ record_stream <$> records s ->
                Z.of_nat (length (js_set (record_stream <$> records s))) < maxStreams here)
          /\ r = mkRecord id (Z.max now (newest (records s) + 1))
          /\ r_generations s' = jm_set (r_generations s) (keyOf id) (mkEntry r bundle)
          /\ r_slots s' =
               match slot_canonical (r_slots s), into with
               | None, _ => slot_update (r_slots s) Canonical (Some id)
               | Some _, Some into => slot_update (r_slots s) into (Some id)
               | Some _, None => r_slots s
               end)).
Proof.
  intros Hwf. unfold create. intros (wanted & Hid & (b & Hb & Hc)%bind_Ok)%bind_Ok.
  assert (wanted = id) as -> by (unfold assertIdentity in Hid; repeat (case_decide; [done|]); by injection Hid).
  assert (b = bundle) as -> by (unfold assertBundle in Hb; destruct bundle as [[|]|]; congruence).
  unfold commit in Hc. apply bind_Ok in Hc as ([write r'] & Hplan & [= <- ->]). unfold create_plan in Hplan.
  change (generations (snapshot s)) with (records s) in Hplan. cbn [snapshot slots] in Hplan.
  destruct (findRecord (records s) id) as [found|] eqn:Hf.
  - apply findRecord_Some in Hf as [Hin Heq]. rewrite Heq in Hplan.
    injection Hplan as <- ->. destruct (rw_canonical _ _ _ Hwf) as [c Hc]; [by intros Hnil; rewrite Hnil in Hin; apply not_elem_of_nil in Hin|].
    rewrite Hc. destruct (r_slots s) as [sc ss sp] eqn:Hs. simpl in Hc. subst sc.
    destruct into as [[| |]|], (slotHolding (mkSlots (Some c) ss sp) id) as [[| |]|];
      (split; [done|split; [done|left; split; [done|split; [done|simpl; by rewrite Hs]]]]).
  - apply findRecord_None in Hf. case_decide as Hcap; [done|].
    destruct (decide (_ /\ _)) as [|Hst] in Hplan; [done|]. injection Hplan as <- <-.
    split; [done|split; [done|right]]. split_and!; try done.
    + lia.
    + intros Hnew. assert (generation_stream id ∉ js_set (record_stream <$> records s)) as Hnew'
        by (by rewrite (proj2 (js_set_spec _))).
      destruct (decide (maxStreams here < Z.of_nat (length (js_set (record_stream <$> records s))) + 1)); [tauto|lia].
    + destruct (r_slots s) as [[c|] ss sp] eqn:Hs; simpl; rewrite Hs; [destruct into as [[| |]|]|]; done.
Qed.

(** The caps an opening was given, and the most any was. *)
Definition caps_within (here caps : GenerationCaps) : Prop :=
  maxGenerations here <= maxGenerations caps /\ maxStreams here <= maxStreams caps.

Lemma create_wf caps here s id into bundle now s' r :
  registry_wf once caps s -> caps_within here caps -> identity_ok id -> create here s id into bundle now = Ok (s', r) ->
  registry_wf once caps s'.
Proof.
  intros Hwf [Hleg Hles] Hok Hc. destruct (create_spec _ _ _ _ _ _ _ _ _ Hwf Hc) as (Hst & Hid & [(Hin & Hg & Hs)|Hnew]).
  - assert (id ∈ record_id <$> records s) as Hreg by (rewrite <- Hid; by apply list_elem_of_fmap_2).
    destruct s' as [g' st' sl']. simpl in Hst, Hg, Hs. subst g' st'.
    destruct (rw_canonical _ _ _ Hwf) as [c Hcan]; [by intros Hnil; rewrite Hnil in Hin; apply not_elem_of_nil in Hin|].
    assert ((forall name id', slot_get sl' name = Some id' -> id' ∈ record_id <$> records s)
      /\ slots_once sl' /\ is_Some (slot_canonical sl')) as (Hn & Ho & Hcan').
    { pose proof (rw_named _ _ _ Hwf) as Hn0. pose proof (rw_once _ _ _ Hwf) as Ho0.
      assert (slotHolding (r_slots s) id = None -> forall name, sl' = slot_update (r_slots s) name (Some id) ->
        (forall name id', slot_get sl' name = Some id' -> id' ∈ record_id <$> records s)
        /\ slots_once sl' /\ is_Some (slot_canonical sl')) as Hfree.
      { intros Hnone name ->. split_and!.
        - apply named_update; [done|]. by intros ? [= <-].
        - apply once_update; [done|]. intros name' Hname'. rewrite slotHolding_None in Hnone. by apply Hnone in Hname'.
        - destruct name; simpl; by rewrite ?Hcan. }
      assert (sl' = r_slots s -> (forall name id', slot_get sl' name = Some id' -> id' ∈ record_id <$> records s)
        /\ slots_once sl' /\ is_Some (slot_canonical sl')) as Hsame by (intros ->; by rewrite Hcan).
      destruct into as [[| |]|], (slotHolding (r_slots s) id) as [[| |]|] eqn:Hh; try (by apply Hsame); try (by eapply Hfree).
      replace (mkSlots (slot_canonical (r_slots s)) (Some id) None) with
        (slot_update (slot_update (r_slots s) Predecessor None) Successor (Some id)) in Hs by (by destruct (r_slots s)).
      rewrite Hs. split_and!.
      - apply named_update; [|by intros ? [= <-]]. by apply named_update.
      - apply once_update; [by apply once_clear|]. intros name'. rewrite slot_get_update. case_decide as Hd; [done|].
        intros Hname'. by destruct Hd; rewrite (slotHolding_Predecessor _ _ _ Hh Hname').
      - simpl; by rewrite Hcan. }
    apply reslot_wf; [done|intros x Hx; apply elem_of_keep; by right|done..].
  - destruct Hnew as (Hfresh & Hcap & Hcaps & -> & Hg & Hs).
    assert (keyOf id ∉ (r_generations s).*1) as Hkey.
    { intros (p & Hk & Hp)%list_elem_of_fmap. pose proof (rw_entries _ _ _ Hwf) as He. rewrite Forall_forall in He.
      destruct (He p Hp) as [Hpk Hpok]. rewrite <- Hk in Hpk. apply keyOf_inj in Hpk; [|done|done].
      apply Hfresh. rewrite Hpk. by apply (list_elem_of_fmap_2 record_id), (list_elem_of_fmap_2 (fun p => entry_record p.2)). }
    rewrite jm_set_new in Hg by done. set (r := mkRecord id _) in *.
    assert (records s' = records s ++ [r]) as Hrec by (unfold records; by rewrite Hg, fmap_app).
    split.
    + unfold jm_wf. rewrite Hg, fmap_app. apply NoDup_app. split_and!; [apply Hwf| |apply NoDup_singleton].
      by intros x Hx ->%list_elem_of_singleton.
    + rewrite Hg. apply Forall_app. split; [apply Hwf|]. by apply Forall_singleton.
    + rewrite Hrec. apply ascending_app. split_and!; [|apply Hwf|repeat constructor].
      intros x y Hx ->%list_elem_of_singleton. apply newest_ge in Hx. simpl. lia.
    + intros name id' Hn. rewrite Hrec, fmap_app. apply elem_of_app.
      assert (id' ∈ (record_id <$> records s) ++ [id]) as Hin; [|by apply elem_of_app in Hin].
      rewrite Hs in Hn. destruct (slot_canonical (r_slots s)), into as [into|].
      2: { apply elem_of_app. left. by eapply rw_named. }
      all: revert Hn; apply named_update; [|intros ? [= <-]; apply elem_of_app; right; left].
      all: intros n x Hx; apply elem_of_app; left; by eapply rw_named.
    + assert (forall name, slots_once (slot_update (r_slots s) name (Some id))) as Hupd.
      { intros name. apply once_update; [exact (rw_once _ _ _ Hwf)|]. intros name' Hn'.
        by apply (rw_named _ _ _ Hwf) in Hn'. }
      rewrite Hs. destruct (slot_canonical (r_slots s)), into as [into|]; try apply Hupd. exact (rw_once _ _ _ Hwf).
    + intros _. rewrite Hs. destruct (slot_canonical (r_slots s)) as [c|] eqn:Hcan; [|done].
      destruct into as [[| |]|]; simpl; by rewrite ?Hcan.
    + rewrite Hrec, length_app. simpl. lia.
    + rewrite Hrec, fmap_app. cbn [fmap list_fmap]. destruct (decide (generation_stream id ∈ record_stream <$> records s)) as [Hk|Hk].
      * rewrite js_set_snoc_known by done. apply Hwf.
      * rewrite js_set_snoc_new, length_app by done. specialize (Hcaps Hk). simpl. lia.
    + intros x Hx. rewrite Hst. apply elem_of_keep. rewrite Hrec in Hx.
      apply elem_of_app in Hx as [Hx| ->%list_elem_of_singleton]; [right; by apply (rw_kept _ _ _ Hwf)|by left].
Qed.

(** ** Moving the pointer *)
Lemma assertIdentity_ok id : identity_ok id -> assertIdentity id = Ok id.
Proof. intros [Hs Hp _]. unfold assertIdentity. by rewrite !decide_False. Qed.

Lemma move_spec caps s id assign s' r :
  registry_wf once caps s -> moveCanonicalTo s id assign = Ok (s', r) ->
  record_id r = id /\ (r ∈ records s) /\ r_generations s' = r_generations s /\ r_streams s' = r_streams s
  /\ exists c, slot_canonical (r_slots s) = Some c
     /\ r_slots s' = if decide (c = id) then r_slots s else
          mkSlots (Some id)
            (if decide (slot_successor (r_slots s) = Some id) then None else slot_successor (r_slots s))
            (if assign then Some c else slot_predecessor (r_slots s)).
Proof.
  intros Hwf. unfold moveCanonicalTo. intros (wanted & Hid & Hc)%bind_Ok.
  assert (wanted = id) as -> by (unfold assertIdentity in Hid; repeat (case_decide; [done|]); by injection Hid).
  unfold commit in Hc. apply bind_Ok in Hc as ([write r'] & Hplan & [= <- ->]). unfold move_plan in Hplan.
  change (generations (snapshot s)) with (records s) in Hplan. cbn [snapshot slots] in Hplan.
  destruct (findRecord (records s) id) as [found|] eqn:Hf; [|done].
  apply findRecord_Some in Hf as [Hin Heq]. rewrite Heq in Hplan.
  destruct (rw_canonical _ _ _ Hwf) as [c Hcan]; [by intros Hnil; rewrite Hnil in Hin; apply not_elem_of_nil in Hin|].
  rewrite Hcan in Hplan. cbn [names] in Hplan. destruct (sameGeneration c id) eqn:Hsame.
  - apply sameGeneration_true in Hsame as ->. injection Hplan as <- <-. split_and!; try done.
    exists id. split; [done|]. by rewrite decide_True.
  - apply sameGeneration_false in Hsame. injection Hplan as <- <-. split_and!; try done.
    exists c. split; [done|]. rewrite (decide_False (P := c = id)) by done.
    assert (slotHolding (r_slots s) id = Some Successor <-> slot_successor (r_slots s) = Some id) as Hsucc
      by (by apply (slotHolding_is caps s id Successor)).
    unfold applyWrite. cbn [r_slots write_slots].
    destruct (decide (slotHolding (r_slots s) id = Some Successor)) as [Hd|Hd];
      [apply Hsucc in Hd|rewrite Hsucc in Hd]; [rewrite decide_True by done|rewrite decide_False by done];
      destruct (r_slots s) as [sc ss sp]; by destruct assign.
Qed.

(** A move that assigns no predecessor, onto the one there is: two slots name it. *)
Definition names_twice (s : RegistryStore) (id : GenerationId) (assign : bool) : bool :=
  negb assign && bool_decide (slotHolding (r_slots s) id = Some Predecessor).

Lemma move_wf caps s id assign s' r :
  registry_wf once caps s -> moveCanonicalTo s id assign = Ok (s', r) ->
  registry_wf (once && negb (names_twice s id assign)) caps s'.
Proof.
  intros Hwf Hm. destruct (move_spec _ _ _ _ _ _ Hwf Hm) as (Hid & Hin & Hg & Hst & c & Hcan & Hs).
  destruct s' as [g' st' sl']. simpl in Hg, Hst, Hs. subst g' st'.
  assert (id ∈ record_id <$> records s) as Hreg by (rewrite <- Hid; by apply list_elem_of_fmap_2).
  pose proof (rw_once _ _ _ Hwf) as Ho.
  assert (forall name x, slot_successor (r_slots s) = Some x -> slot_get (r_slots s) name = Some x -> name = Successor) as Hsucc
    by (intros name x Hx Hn; by destruct (Ho _ _ _ Hn (Hx : slot_get _ Successor = _)) as [|(_ & _ & ?)]).
  case_decide as Hc; subst sl'.
  { destruct s as [g st sl]. split; try apply Hwf. intros n n' x Hn Hn'. destruct (Ho n n' x Hn Hn') as [?|(-> & ? & ?)]; [by left|by right]. }
  split; try apply Hwf.
  - intros name id' Hn. destruct name; simpl in Hn; [by injection Hn as <-|..].
    + case_decide; [done|]. by apply (rw_named _ _ _ Hwf Successor).
    + destruct assign; [injection Hn as <-; by apply (rw_named _ _ _ Hwf Canonical)|by apply (rw_named _ _ _ Hwf Predecessor)].
  - assert (forall x, (if decide (slot_successor (r_slots s) = Some id) then None else slot_successor (r_slots s)) = Some x ->
      x <> id /\ (if assign then Some c else slot_predecessor (r_slots s)) <> Some x) as Halone.
    { intros x. case_decide as Hx; [done|]. intros Hsx. split; [congruence|]. intros Hp.
      destruct assign; [injection Hp as ->; by discriminate (Hsucc Canonical x Hsx Hcan)|by discriminate (Hsucc Predecessor x Hsx Hp)]. }
    assert ((if assign then Some c else slot_predecessor (r_slots s)) = Some id -> once && negb (names_twice s id assign) = false) as Htwice.
    { intros Hp. unfold names_twice. destruct assign; [congruence|]. destruct once eqn:Hon; [|done]. cbn [negb andb].
      rewrite negb_false_iff, bool_decide_eq_true. destruct (slotHolding (r_slots s) id) as [name|] eqn:Hh;
        [|by rewrite slotHolding_None in Hh; destruct (Hh Predecessor)].
      apply slotHolding_Some in Hh. by destruct (Ho name Predecessor id Hh Hp) as [->|[? _]]. }
    intros n n' x. destruct n, n'; cbn [slot_get slot_canonical slot_successor slot_predecessor]; try (by left); intros Hn Hn'.
    + injection Hn as <-. by apply Halone in Hn' as [? _].
    + injection Hn as <-. right. by rewrite Htwice.
    + injection Hn' as <-. by apply Halone in Hn as [? _].
    + by apply Halone in Hn as [_ ?].
    + injection Hn' as <-. right. by rewrite Htwice.
    + by apply Halone in Hn' as [_ ?].
  - intros _. by eexists.
Qed.

(** ** Deleting *)
Definition last_on (s : RegistryStore) (r : GenerationRecord) : bool :=
  bool_decide (length (filter (fun r' => record_stream r' = record_stream r) (records s)) = 1%nat).

Section Deleting.
Context {world : Type} (dropState : GenerationId -> world -> world).

Lemma deleteGeneration_spec caps s w r reapStream :
  registry_wf once caps s -> r ∈ records s ->
  deleteGeneration dropState s w (record_id r) reapStream =
    if decide (slot_canonical (r_slots s) = Some (record_id r)) then Err (GenerationIsCanonicalError (record_id r))
    else
      let reaped := if reapStream && last_on s r then Some (record_stream r) else None in
      Ok (forget (match reaped with Some d => [d] | None => [] end) (erase [record_id r] s), dropState (record_id r) w,
          mkDeletion r reaped ((fun _ => 0%nat) <$> reaped)).
Proof.
  intros Hwf Hr. pose proof (record_identity caps s r Hwf Hr) as Hok.
  unfold deleteGeneration. rewrite assertIdentity_ok by done. cbn [mbind result_bind]. unfold commit, delete_plan.
  change (generations (snapshot s)) with (records s). cbn [snapshot slots].
  rewrite (findRecord_is caps s r Hwf Hr). fold (last_on s r).
  destruct (names (slot_canonical (r_slots s)) (record_id r)) eqn:Hn.
  { apply names_true in Hn. by rewrite decide_True. }
  rewrite decide_False by (by rewrite <- names_true, Hn). cbn [mbind result_bind].
  unfold applyWrite. cbn [write_remove write_put write_keepStream write_forgetStreams write_slots].
  rewrite (erased_entries caps s [record_id r] Hwf) by (by apply Forall_singleton).
  destruct (reapStream && last_on s r); cbn [foldl fmap option_fmap option_map].
  - unfold dropStreamSubtree. cbn [r_streams]. rewrite decide_False; [|by intros [? _]%list_elem_of_filter].
    unfold forget, erase. simpl. do 4 f_equal. apply filter_ext_in. intros d _. by rewrite list_elem_of_singleton.
  - by rewrite forget_nil.
Qed.

Lemma deleteGeneration_wf caps s w r reapStream :
  registry_wf once caps s -> r ∈ records s ->
  match deleteGeneration dropState s w (record_id r) reapStream with
  | Ok (s', _, _) => registry_wf once caps s'
  | Err _ => True
  end.
Proof.
  intros Hwf Hr. rewrite (deleteGeneration_spec caps) by done. case_decide as Hcan; [done|]. cbv zeta.
  apply forget_wf; [apply erase_wf; [done|by intros id Hid ->%list_elem_of_singleton]|].
  intros r' Hr'. rewrite records_erase in Hr'. apply list_elem_of_filter in Hr' as [Hne Hr'].
  destruct (reapStream && last_on s r) eqn:Hlast; [|apply not_elem_of_nil].
  apply andb_true_iff in Hlast as [_ Hlast%bool_decide_eq_true]. intros Hst%list_elem_of_singleton.
  set (on := filter _ _) in Hlast.
  assert (r ∈ on /\ r' ∈ on) as [Hon Hon'] by (split; by apply elem_of_filter_intro).
  destruct on as [|x [|y l]]; try done. apply list_elem_of_singleton in Hon, Hon'. subst. by apply Hne, list_elem_of_here.
Qed.
End Deleting.

Lemma slots_ext (slots slots' : GenerationSlots) : (forall name, slot_get slots name = slot_get slots' name) -> slots = slots'.
Proof.
  intros Heq. pose proof (Heq Canonical). pose proof (Heq Successor). pose proof (Heq Predecessor).
  destruct slots, slots'. simpl in *. congruence.
Qed.

Lemma erase_app ids ids' s : erase ids' (erase ids s) = erase (ids ++ ids') s.
Proof.
  unfold erase. simpl. f_equal.
  - rewrite list_filter_filter. apply filter_ext_in. intros p _. rewrite elem_of_app. tauto.
  - apply slots_ext. intros name. rewrite !clearSlots_get. destruct (slot_get (r_slots s) name) as [id|]; [|done].
    destruct (decide (id ∈ ids)), (decide (id ∈ ids')), (decide (id ∈ ids ++ ids')) as [Hin|Hin];
      rewrite elem_of_app in Hin; tauto || done.
Qed.

Lemma erase_nil s : erase [] s = s.
Proof.
  destruct s as [g st sl]. unfold erase. simpl. f_equal.
  - apply filter_Forall_id, Forall_forall. intros p _. apply not_elem_of_nil.
  - apply slots_ext. intros name. rewrite clearSlots_get. destruct (slot_get sl name); [|done].
    rewrite decide_False; [done|apply not_elem_of_nil].
Qed.

(** A well-formed registry resolves its slots to themselves. *)
Lemma resolvedSlots_wf caps s : registry_wf once caps s -> resolvedSlots (snapshot s) = r_slots s.
Proof.
  intros Hwf.
  assert (forall name id, slot_get (r_slots s) name = Some id ->
    exists r, findRecord (records s) id = Some r /\ record_id r = id) as Hfind.
  { intros name id Hn. apply (rw_named _ _ _ Hwf) in Hn as (r & -> & Hr)%list_elem_of_fmap.
    exists r. split; [by eapply findRecord_is|done]. }
  unfold resolvedSlots, resolveSlots, SLOT_NAMES. cbn [foldl slots snapshot].
  change (generations (snapshot s)) with (records s). unfold snapshot. cbn [generations slots].
  fold (records s). pose proof (Hfind Canonical) as Hc. pose proof (Hfind Successor) as Hs. pose proof (Hfind Predecessor) as Hp.
  destruct (r_slots s) as [[c|] [b|] [p|]]; simpl in *.
  all: try (destruct (Hc c eq_refl) as (rc & -> & <-)); try (destruct (Hs b eq_refl) as (rb & -> & <-));
    try (destruct (Hp p eq_refl) as (rp & -> & <-)); done.
Qed.

Section Lifecycle.
Context (localeCompare : string -> string -> Z) {world : Type} (dropState : GenerationId -> world -> world).

Definition drops (l : list GenerationRecord) (w : world) : world :=
  foldl (fun w r => dropState (record_id r) w) w l.

Lemma replace_spec caps s w l :
  registry_wf once caps s -> NoDup l -> (forall r, r ∈ l -> r ∈ records s /\ slot_canonical (r_slots s) <> Some (record_id r)) ->
  foldl (fun '(s, w) record =>
    match deleteGeneration dropState s w (record_id record) false with
    | Ok (s', w', _) => (s', w')
    | Err _ => (s, w)
    end) (s, w) l = (erase (record_id <$> l) s, drops l w).
Proof.
  intros Hwf Hnd. revert s w Hwf. induction Hnd as [|r l Hr Hnd IH]; intros s w Hwf Hall.
  { simpl. by rewrite erase_nil. }
  cbn [foldl]. destruct (Hall r (list_elem_of_here _ _)) as [Hin Hcan].
  rewrite (deleteGeneration_spec dropState caps) by done. rewrite decide_False by done. cbn [andb]. rewrite forget_nil.
  rewrite IH.
  - rewrite erase_app. done.
  - apply erase_wf; [done|]. by intros id Hid ->%list_elem_of_singleton.
  - intros r' Hr'. destruct (Hall r' (list_elem_of_further _ _ _ Hr')) as [Hin' Hcan']. split.
    + rewrite records_erase. apply elem_of_filter_intro; [|done]. rewrite list_elem_of_singleton.
      intros Heq. apply (record_unique caps s) in Heq; [by subst|done..].
    + change (slot_get (r_slots (erase [record_id r] s)) Canonical <> Some (record_id r')). simpl r_slots.
      rewrite clearSlots_get. simpl. destruct (slot_canonical (r_slots s)); [|done]. by case_decide.
Qed.

Lemma elem_of_displaced caps s wanted records' held r :
  registry_wf once caps s -> (forall x, x ∈ records' <-> x ∈ records s) ->
  r ∈ displacedBySuccessor wanted records' (r_slots s) (mkRuntime held false) <->
  (slot_canonical (r_slots s) <> None /\ slot_canonical (r_slots s) <> Some wanted
   /\ slot_successor (r_slots s) <> Some wanted)
  /\ (r ∈ records s) /\ record_id r <> wanted
  /\ (slot_successor (r_slots s) = Some (record_id r)
      \/ slotHolding (r_slots s) (record_id r) = None /\ held r = true).
Proof.
  intros Hwf Hrec. unfold displacedBySuccessor.
  assert (slotHolding (r_slots s) wanted = Some Canonical <-> slot_canonical (r_slots s) = Some wanted) as Hc
    by (by apply (slotHolding_is caps s wanted Canonical)).
  assert (slotHolding (r_slots s) wanted = Some Successor <-> slot_successor (r_slots s) = Some wanted) as Hs
    by (by apply (slotHolding_is caps s wanted Successor)).
  assert (forall l, r ∈ sort_on (fun record => - createdAt record)
      (filter (fun record => displaceable wanted (r_slots s) (mkRuntime held false) record = true) l)
    <-> r ∈ l /\ record_id r <> wanted /\ (slot_successor (r_slots s) = Some (record_id r)
      \/ slotHolding (r_slots s) (record_id r) = None /\ held r = true)) as Hfilter.
  { intros l. rewrite (elem_of_sort_on (fun record => - createdAt record)), list_elem_of_filter. unfold displaceable.
    rewrite andb_true_iff, negb_true_iff, sameGeneration_false. cbn [unheldIsCollectable heldHere orb].
    assert (slotHolding (r_slots s) (record_id r) = Some Successor <-> slot_successor (r_slots s) = Some (record_id r)) as Hr
      by (by apply (slotHolding_is caps s (record_id r) Successor)).
    rewrite <- Hr. clear. destruct (slotHolding (r_slots s) (record_id r)) as [[| |]|]; simpl; intuition congruence. }
  destruct (slot_canonical (r_slots s)) as [c|]; [|split; [by intros ?%not_elem_of_nil|by intros [[? _] _]]].
  destruct (slotHolding (r_slots s) wanted) as [[| |]|]; rewrite ?Hfilter, ?Hrec.
  - split; [by intros ?%not_elem_of_nil|]. intros ((_ & Hne & _) & _). by destruct Hne; apply Hc.
  - split; [by intros ?%not_elem_of_nil|]. intros ((_ & _ & Hne) & _). by destruct Hne; apply Hs.
  - rewrite <- Hc, <- Hs. clear. intuition congruence.
  - rewrite <- Hc, <- Hs. clear. intuition congruence.
Qed.

Lemma r_list_elem s r : r ∈ r_list localeCompare s <-> r ∈ records s.
Proof. unfold r_list. by rewrite sort_by_perm. Qed.

Lemma records_NoDup caps s : registry_wf once caps s -> NoDup (records s).
Proof. intros Hwf. eapply ascending_NoDup, (rw_ages _ _ _ Hwf). Qed.

(** What a registration leaves before it registers: the displaced generations are
    gone, and nothing else is. *)
Lemma replaceTheSuccessor_spec caps s w wanted held :
  registry_wf once caps s ->
  let displaced := displacedBySuccessor wanted (r_list localeCompare s) (r_slots s) (mkRuntime held false) in
  replaceTheSuccessor dropState s w wanted (r_list localeCompare s) (resolvedSlots (snapshot s)) held
    = (erase (record_id <$> displaced) s, drops displaced w)
  /\ registry_wf once caps (erase (record_id <$> displaced) s)
  /\ (forall r, r ∈ displaced -> slot_canonical (r_slots s) <> Some (record_id r)).
Proof.
  intros Hwf displaced. assert (forall r, r ∈ displaced -> r ∈ records s /\ slot_canonical (r_slots s) <> Some (record_id r)) as Hall.
  { intros r Hr. apply (elem_of_displaced caps s) in Hr as (_ & Hin & _ & Hslot); [|done|by intros; apply r_list_elem].
    split; [done|]. intros Hcan. destruct Hslot as [Hs|[Hnone _]].
    - by destruct (rw_once _ _ _ Hwf Canonical Successor _ Hcan Hs) as [|(_ & _ & ?)].
    - rewrite slotHolding_None in Hnone. by apply (Hnone Canonical). }
  split_and!; [| |by intros r [_ ?]%Hall].
  - unfold replaceTheSuccessor. rewrite (resolvedSlots_wf caps) by done. apply (replace_spec caps); [done| |done].
    unfold displaced, displacedBySuccessor.
    assert (NoDup (r_list localeCompare s)) as Hnd by (unfold r_list; rewrite sort_by_perm; by eapply records_NoDup).
    destruct (slot_canonical (r_slots s)), (slotHolding (r_slots s) wanted) as [[| |]|]; try constructor;
      rewrite (sort_on_perm (fun record => - createdAt record)); by apply NoDup_filter.
  - apply erase_wf; [done|]. intros id Hid (r & -> & Hr)%list_elem_of_fmap. by apply Hall in Hr as [_ ?].
Qed.

Lemma register_wf caps here s w wanted bundle now held :
  registry_wf once caps s -> caps_within here caps -> identity_ok wanted ->
  registry_wf once caps (register localeCompare dropState here s w wanted bundle now held).1.1.
Proof.
  intros Hwf Hle Hok. destruct (replaceTheSuccessor_spec caps s w wanted held Hwf) as (Heq & Hwf' & _).
  unfold register. rewrite Heq. destruct (create _ _ _ _ _ _) as [[s2 r]|e] eqn:Hc; [|done].
  by apply (create_wf _ _ _ _ _ _ _ _ _ Hwf' Hle Hok Hc).
Qed.

(** ** Reclaiming *)
Lemma last_on_spec caps s r :
  registry_wf once caps s -> r ∈ records s ->
  last_on s r = true <-> forall r', r' ∈ records s -> record_stream r' = record_stream r -> r' = r.
Proof.
  intros Hwf Hr. unfold last_on. rewrite bool_decide_eq_true.
  assert (NoDup (filter (fun r' => record_stream r' = record_stream r) (records s))) as Hnd
    by (by eapply NoDup_filter, records_NoDup).
  assert (forall r', r' ∈ filter (fun r' => record_stream r' = record_stream r) (records s) <->
    r' ∈ records s /\ record_stream r' = record_stream r) as Hel by (intros; rewrite list_elem_of_filter; tauto).
  set (on := filter _ _) in *. assert (r ∈ on) as Hon by (by apply Hel). split.
  - intros Hlen r' Hr' Hst. assert (r' ∈ on) as Hon' by (by apply Hel).
    destruct on as [|x [|y l]]; try done. apply list_elem_of_singleton in Hon, Hon'. congruence.
  - intros Hall. destruct on as [|x [|y l]]; [by apply not_elem_of_nil in Hon|done|]. exfalso.
    assert (x = r /\ y = r) as [-> ->].
    { split; apply Hall; apply Hel; [left|left|right; left|right; left]. }
    apply NoDup_cons in Hnd as [Hnot _]. apply Hnot. left.
Qed.

(** Reclaiming a list of unnamed generations, one deletion at a time. *)
Lemma reclaim_loop caps l : forall s w report,
  registry_wf once caps s -> NoDup l ->
  (forall r, r ∈ l -> r ∈ records s /\ slotHolding (r_slots s) (record_id r) = None) ->
  let '(s', w', report') := foldl (fun '(s, w, report) record =>
    match deleteGeneration dropState s w (record_id record) true with
    | Ok (s', w', deletion) => (s', w', mkReclaim (reclaimed report ++ [deletion]) (declined report))
    | Err _ => (s, w, mkReclaim (reclaimed report) (declined report ++ [record]))
    end) (s, w, report) l in
  registry_wf once caps s' /\ records s' = filter (fun r => record_id r ∉ record_id <$> l) (records s)
  /\ r_slots s' = r_slots s /\ w' = drops l w
  /\ declined report' = declined report
  /\ deletion_generation <$> reclaimed report' = (deletion_generation <$> reclaimed report) ++ l
  /\ (forall x, x ∈ r_streams s' <->
        x ∈ r_streams s /\ ((exists r, r ∈ records s' /\ record_stream r = x) \/ forall r, r ∈ l -> record_stream r <> x)).
Proof.
  induction l as [|r l IH]; intros s w report Hwf Hnd Hall.
  { cbn [foldl]. split_and!; try done; [|by rewrite app_nil_r|].
    - symmetry. apply filter_Forall_id, Forall_forall. intros r _. apply not_elem_of_nil.
    - intros x. split; [|tauto]. intros Hx. split; [done|]. right. by intros r ?%not_elem_of_nil. }
  apply NoDup_cons in Hnd as [Hr Hnd]. destruct (Hall r (list_elem_of_here _ _)) as [Hin Hnone].
  cbn [foldl]. pose proof (deleteGeneration_wf dropState caps s w r true Hwf Hin) as Hwf1.
  rewrite (deleteGeneration_spec dropState caps) in Hwf1 |- * by done.
  assert (slot_canonical (r_slots s) <> Some (record_id r)) as Hcan.
  { rewrite slotHolding_None in Hnone. apply (Hnone Canonical). }
  rewrite decide_False in Hwf1 |- * by done. cbn [andb] in *. cbv zeta in *.
  set (reaped := if last_on s r then Some (record_stream r) else None) in *.
  set (s1 := forget _ (erase [record_id r] s)) in *.
  assert (r_slots s1 = r_slots s) as Hslots.
  { apply slots_ext. intros name. simpl. rewrite clearSlots_get. destruct (slot_get (r_slots s) name) as [id|] eqn:Hn; [|done].
    rewrite decide_False; [done|]. intros ->%list_elem_of_singleton. rewrite slotHolding_None in Hnone. by apply (Hnone name). }
  assert (records s1 = filter (fun r' => record_id r' ∉ [record_id r]) (records s)) as Hrec by apply records_erase.
  assert (forall r', r' ∈ records s1 <-> r' ∈ records s /\ r' <> r) as Hrec1.
  { intros r'. rewrite Hrec, list_elem_of_filter, list_elem_of_singleton. split; [intros [Hne Hr']; split; [done|by intros ->]|].
    intros [Hr' Hne]. split; [|done]. intros Heq. by apply Hne, (record_unique caps s). }
  specialize (IH s1 (dropState (record_id r) w)
    (mkReclaim (reclaimed report ++ [mkDeletion r reaped ((fun _ => 0%nat) <$> reaped)]) (declined report)) Hwf1 Hnd).
  destruct (foldl _ _ l) as [[s' w'] report']. destruct IH as (Hwf' & Hr' & Hs' & Hw' & Hd' & Hrc' & Hst').
  { intros r' Hr'. rewrite Hslots. destruct (Hall r' (list_elem_of_further _ _ _ Hr')) as [Hin' Hnone'].
    split; [|done]. apply Hrec1. split; [done|]. by intros ->. }
  assert (records s' = filter (fun r' => record_id r' ∉ record_id <$> r :: l) (records s)) as Hrs'.
  { rewrite Hr', Hrec, list_filter_filter. apply filter_ext_in. intros r' _. csimpl.
    rewrite list_elem_of_singleton, elem_of_cons. tauto. }
  split_and!; [done|done|congruence|done|done| |].
  { rewrite Hrc'. cbn [reclaimed]. by rewrite fmap_app, <- app_assoc. }
  intros x. rewrite Hst'. assert (x ∈ r_streams s1 <-> x ∈ r_streams s /\ ~ (last_on s r = true /\ x = record_stream r)) as Hx.
  { unfold s1, forget, reaped. cbn [r_streams erase]. rewrite list_elem_of_filter.
    destruct (last_on s r); rewrite ?list_elem_of_singleton; [tauto|]. split; [intros [_ ?]; split; [done|by intros [? _]]|].
    intros [? _]. split; [apply not_elem_of_nil|done]. }
  rewrite Hx. pose proof (last_on_spec caps s r Hwf Hin) as Hlast. split.
  - intros [[Hxs Hno] Hor]. split; [done|]. destruct Hor as [?|Hor]; [by left|].
    destruct (decide (record_stream r = x)) as [Hrx|Hrx].
    + left. destruct (last_on s r) eqn:Hl; [by destruct Hno|].
      destruct (decide (Exists (fun r' => record_stream r' = x /\ r' <> r) (records s))) as [Hex|Hex].
      * apply Exists_exists in Hex as (r' & Hin' & Hx' & Hne). exists r'. split; [|done].
        rewrite Hr'. apply elem_of_filter_intro; [|by apply Hrec1].
        intros (r'' & Heq & Hin'')%list_elem_of_fmap. destruct (Hall r'' (list_elem_of_further _ _ _ Hin'')) as [Hin3 _].
        apply (record_unique caps s) in Heq; [|done..]. subst r''. by apply (Hor r').
      * exfalso. assert (false = true); [|done]. apply Hlast. intros r' Hin' Hst. destruct (decide (r' = r)); [done|].
        destruct Hex. apply Exists_exists. exists r'. split_and!; [done|congruence|done].
    + right. intros r' [->|Hr2]%elem_of_cons; [done|by apply Hor].
  - intros [Hxs Hor]. split.
    + split; [done|]. intros [Hl ->]. destruct Hor as [(r' & Hin' & Hst)|Hor]; [|by apply (Hor r (list_elem_of_here _ _))].
      rewrite Hr' in Hin'. apply list_elem_of_filter in Hin' as [_ [Hin' Hne]%Hrec1].
      apply Hne. by apply (proj1 Hlast Hl).
    + destruct Hor as [?|Hor]; [by left|]. right. intros r' Hr2. by apply Hor, list_elem_of_further.
Qed.

Lemma elem_of_unslotted caps s r :
  registry_wf once caps s ->
  r ∈ sort_on (fun record => - createdAt record) (unslottedGenerations (r_list localeCompare s) (resolvedSlots (snapshot s)))
  <-> r ∈ records s /\ slotHolding (r_slots s) (record_id r) = None.
Proof.
  intros Hwf. rewrite (elem_of_sort_on (fun record => - createdAt record)). unfold unslottedGenerations.
  rewrite (resolvedSlots_wf caps), list_elem_of_filter, r_list_elem by done. tauto.
Qed.

(** ** Deleting a stream *)
Lemma deleteStream_wf caps s w digest :
  registry_wf once caps s ->
  match deleteStream localeCompare dropState s w digest with
  | Ok (s', _, _) => registry_wf once caps s'
  | Err _ => True
  end.
Proof.
  intros Hwf. unfold deleteStream, commit, delete_stream_plan. cbn [snapshot slots keptStreams].
  change (generations (snapshot s)) with (records s). change (fmap _ (r_generations s)) with (records s). cbn [generations].
  set (on := sort_by _ _).
  assert (forall r, r ∈ on <-> r ∈ records s /\ record_stream r = digest) as Hon.
  { intros r. unfold on. rewrite sort_by_perm, list_elem_of_filter. tauto. }
  case_decide as Hnone; [done|].
  assert ((forall c, slot_canonical (r_slots s) = Some c -> generation_stream c <> digest) ->
    let '(s2, _) := dropStreamSubtree (applyWrite s (mkRegistryWrite (record_id <$> on) None None
      (clearSlotsNaming (r_slots s) (record_id <$> on)) None [digest])) digest in registry_wf once caps s2) as Hdel.
  { intros Hcan. unfold applyWrite. cbn [write_remove write_put write_keepStream write_forgetStreams write_slots foldl].
    rewrite (erased_entries caps s (record_id <$> on) Hwf).
    2:{ apply Forall_forall. intros id (r & -> & [Hr _]%Hon)%list_elem_of_fmap. by eapply record_identity. }
    unfold dropStreamSubtree. cbn [r_streams]. rewrite decide_False; [|by intros [? _]%list_elem_of_filter].
    replace (filter (fun d => d <> digest) (r_streams s)) with (filter (fun d => d ∉ [digest]) (r_streams s))
      by (apply filter_ext_in; intros d _; by rewrite list_elem_of_singleton).
    apply (forget_wf caps (erase (record_id <$> on) s) [digest]).
    - apply erase_wf; [done|]. intros id Hid (r & -> & [_ Hst]%Hon)%list_elem_of_fmap. by apply (Hcan _ Hid).
    - intros r Hr Hst%list_elem_of_singleton. rewrite records_erase in Hr. apply list_elem_of_filter in Hr as [Hno Hr].
      apply Hno, list_elem_of_fmap_2, Hon. done. }
  destruct (slot_canonical (r_slots s)) as [c|].
  - case_decide as Hc; [done|]. cbn [mbind result_bind]. specialize (Hdel ltac:(by intros ? [= <-])).
    by destruct (dropStreamSubtree _ _).
  - cbn [mbind result_bind]. specialize (Hdel ltac:(done)). by destruct (dropStreamSubtree _ _).
Qed.

(** ** What a reclaim leaves *)
Lemma reclaim_spec caps s w :
  registry_wf once caps s ->
  let '(s', w', report) := reclaim localeCompare dropState s w in
  registry_wf once caps s' /\ (forall r, r ∈ records s' <-> r ∈ records s /\ slotHolding (r_slots s) (record_id r) <> None)
  /\ r_slots s' = r_slots s /\ declined report = []
  /\ (forall r, r ∈ deletion_generation <$> reclaimed report <-> r ∈ records s /\ slotHolding (r_slots s) (record_id r) = None)
  /\ w' = drops (deletion_generation <$> reclaimed report) w
  /\ (forall x, x ∈ r_streams s' <-> x ∈ r_streams s /\ ((exists r, r ∈ records s' /\ record_stream r = x)
        \/ forall r, r ∈ records s -> record_stream r <> x)).
Proof.
  intros Hwf. unfold reclaim. pose proof (fun r => elem_of_unslotted caps s r Hwf) as Hel.
  set (l := sort_on _ _) in *.
  assert (NoDup l) as Hnd.
  { unfold l. rewrite (sort_on_perm (fun record => - createdAt record)). apply NoDup_filter.
    unfold r_list. rewrite sort_by_perm. by eapply records_NoDup. }
  pose proof (reclaim_loop caps l s w (mkReclaim [] []) Hwf Hnd (fun r => proj1 (Hel r))) as Hloop.
  destruct (foldl _ _ l) as [[s' w'] report]. destruct Hloop as (Hwf' & Hr' & Hs' & Hw' & Hd' & Hrc & Hst).
  cbn [reclaimed declined fmap list_fmap app] in *. rewrite Hrc.
  assert (forall r, r ∈ records s' <-> r ∈ records s /\ slotHolding (r_slots s) (record_id r) <> None) as Hrec.
  { intros r. rewrite Hr', list_elem_of_filter. split; intros [H1 H2]; [split; [done|]|split; [|done]].
    - intros Hnone. apply H1, list_elem_of_fmap_2, Hel. done.
    - intros (r' & Heq & [Hin' Hnone]%Hel)%list_elem_of_fmap. by rewrite Heq in H2. }
  split_and!; try done. intros x. rewrite Hst. split; (intros [Hx Hor]; split; [done|]).
  - destruct Hor as [?|Hor]; [by left|].
    destruct (decide (Exists (fun r => record_stream r = x) (records s'))) as [Hex|Hex];
      [apply Exists_exists in Hex as (r & ? & ?); left; by exists r|right].
    intros r Hin Hxr. destruct (decide (slotHolding (r_slots s) (record_id r) = None)) as [Hn|Hn].
    + apply (Hor r); [by apply Hel|done].
    + destruct Hex. apply Exists_exists. exists r. split; [by apply Hrec|done].
  - destruct Hor as [?|Hor]; [by left|]. right. intros r [Hin _]%Hel. by apply Hor.
Qed.

(** ** Arrivals *)
Definition all_named (s : RegistryStore) : Prop :=
  forall r, r ∈ records s -> slotHolding (r_slots s) (record_id r) <> None.

Lemma create_total caps s id into bundle now :
  identity_ok id -> bundle <> Some [] ->
  (id ∈ record_id <$> records s)
  \/ Z.of_nat (length (records s)) < maxGenerations caps
     /\ Z.of_nat (length (js_set (record_stream <$> records s))) < maxStreams caps ->
  is_Ok (create caps s id into bundle now).
Proof.
  intros Hok Hb Hroom. unfold create. rewrite assertIdentity_ok by done. cbn [mbind result_bind].
  assert (assertBundle bundle = Ok bundle) as -> by (by destruct bundle as [[|]|]). cbn [mbind result_bind].
  unfold commit, create_plan. change (generations (snapshot s)) with (records s).
  destruct (findRecord (records s) id) as [found|] eqn:Hf; [done|]. apply findRecord_None in Hf.
  destruct Hroom as [?|[Hg Hs]]; [done|]. rewrite decide_False by lia. rewrite decide_False; [done|]. lia.
Qed.

(** Among generations only [canonical] and [predecessor] name, there are two at most. *)
Lemma two_named caps s :
  registry_wf once caps s ->
  (forall r, r ∈ records s -> slot_canonical (r_slots s) = Some (record_id r) \/ slot_predecessor (r_slots s) = Some (record_id r)) ->
  (length (records s) <= 2)%nat /\ (length (js_set (record_stream <$> records s)) <= 2)%nat.
Proof.
  intros Hwf Hnamed.
  assert (NoDup (Some <$> (record_id <$> records s))) as Hnd.
  { apply NoDup_fmap_2; [by intros ? ? [= ->]|]. apply NoDup_fmap_2_strong; [|by eapply records_NoDup].
    intros x y Hx Hy Heq. by apply (record_unique caps s). }
  assert (length (records s) <= 2)%nat as Hlen.
  { rewrite <- (length_fmap record_id), <- (length_fmap Some).
    apply (submseteq_length _ [slot_canonical (r_slots s); slot_predecessor (r_slots s)]), NoDup_submseteq; [done|].
    intros o (id & -> & (r & -> & Hr)%list_elem_of_fmap)%list_elem_of_fmap.
    destruct (Hnamed r Hr) as [<-|<-]; [left|right; left]. }
  split; [done|]. destruct (js_set_spec (record_stream <$> records s)) as [Hnds Hels].
  etrans; [apply (submseteq_length _ (record_stream <$> records s)), NoDup_submseteq; [done|]|by rewrite length_fmap].
  intros x. apply Hels.
Qed.

Lemma named_by slots name id : slot_get slots name = Some id -> slotHolding slots id <> None.
Proof. intros Hn Hnone. rewrite slotHolding_None in Hnone. by apply (Hnone name). Qed.

(** What is left once the room is made: only what [canonical] and [predecessor]
    name, in slots that did not move. *)
Lemma room_made caps s wanted held c :
  registry_wf once caps s -> all_named s -> slot_canonical (r_slots s) = Some c -> c <> wanted ->
  slot_successor (r_slots s) <> Some wanted ->
  let s1 := erase (record_id <$> displacedBySuccessor wanted (r_list localeCompare s) (r_slots s) (mkRuntime held false)) s in
  r_slots s1 = mkSlots (Some c) None (slot_predecessor (r_slots s))
  /\ forall r, r ∈ records s1 ->
       slot_canonical (r_slots s1) = Some (record_id r) \/ slot_predecessor (r_slots s1) = Some (record_id r).
Proof.
  intros Hwf Hnamed Hc Hne Hsucc s1.
  pose proof (fun r => elem_of_displaced caps s wanted (r_list localeCompare s) held r Hwf (r_list_elem s)) as Hdisp.
  assert (forall r, r ∈ displacedBySuccessor wanted (r_list localeCompare s) (r_slots s) (mkRuntime held false) <->
    r ∈ records s /\ slot_successor (r_slots s) = Some (record_id r)) as Hd.
  { intros r. rewrite Hdisp, Hc. split.
    - intros (_ & Hin & _ & [?|[Hnone _]]); [done|]. by destruct (Hnamed r Hin).
    - intros [Hin Hs]. split_and!; try done; [congruence| |by left]. intros Heq. by rewrite Heq in Hs. }
  set (displaced := displacedBySuccessor _ _ _ _) in *.
  assert (r_slots s1 = mkSlots (Some c) None (slot_predecessor (r_slots s))) as Hslots.
  { apply slots_ext. intros name. unfold s1, erase. cbn [r_slots]. rewrite clearSlots_get.
    pose proof (rw_once _ _ _ Hwf) as Honce.
    destruct name; cbn [slot_get slot_canonical slot_successor slot_predecessor].
    - rewrite Hc. rewrite decide_False; [done|]. intros (r & -> & [_ Hs]%Hd)%list_elem_of_fmap.
      by destruct (Honce Canonical Successor _ Hc Hs) as [|(_ & _ & ?)].
    - destruct (slot_successor (r_slots s)) as [b|] eqn:Hb; [|done]. rewrite decide_True; [done|].
      apply (rw_named _ _ _ Hwf Successor) in Hb as Hb'. apply list_elem_of_fmap in Hb' as (r & -> & Hr).
      by apply list_elem_of_fmap_2, Hd.
    - destruct (slot_predecessor (r_slots s)) as [p|] eqn:Hp; [|done]. rewrite decide_False; [done|].
      intros (r & -> & [_ Hs]%Hd)%list_elem_of_fmap. by destruct (Honce Predecessor Successor _ Hp Hs) as [|(_ & _ & ?)]. }
  split; [done|]. intros r Hr. rewrite Hslots. cbn [slot_canonical slot_predecessor].
  unfold s1 in Hr. rewrite records_erase in Hr. apply list_elem_of_filter in Hr as [Hno Hin].
  specialize (Hnamed r Hin). destruct (slotHolding (r_slots s) (record_id r)) as [name|] eqn:Hs; [|done].
  apply slotHolding_Some in Hs. destruct name; simpl in Hs; [left; congruence| |by right].
  destruct Hno. by apply list_elem_of_fmap_2, Hd.
Qed.

(** Registering into a slot that is free, or that names the arrival already. *)
Lemma create_arrival caps s wanted bundle now s' r :
  registry_wf once caps s -> all_named s -> identity_ok wanted ->
  (slot_successor (r_slots s) = None \/ slot_successor (r_slots s) = Some wanted
   \/ slot_canonical (r_slots s) = Some wanted \/ slot_canonical (r_slots s) = None) ->
  create caps s wanted (Some Successor) bundle now = Ok (s', r) ->
  (r ∈ records s') /\ all_named s'
  /\ slot_canonical (r_slots s') = Some (default wanted (slot_canonical (r_slots s)))
  /\ (forall p, slot_predecessor (r_slots s) = Some p -> p <> wanted -> slot_predecessor (r_slots s') = Some p)
  /\ (slot_canonical (r_slots s') = Some wanted \/ slot_successor (r_slots s') = Some wanted)
  /\ (forall x, x ∈ r_streams s -> x ∈ r_streams s').
Proof.
  intros Hwf Hnamed Hok Hfree Hcr.
  destruct (create_spec _ _ _ _ _ _ _ _ _ Hwf Hcr) as (Hst & Hid & Hcase).
  assert (forall x, x ∈ r_streams s -> x ∈ r_streams s') as Hkeep by (intros x Hx; rewrite Hst; apply elem_of_keep; by right).
  pose proof (rw_once _ _ _ Hwf) as Honce. destruct Hcase as [(Hin & Hg & Hs)|Hnew].
  - assert (records s' = records s) as Hrec by (unfold records; by rewrite Hg).
    pose proof (Hnamed r Hin) as Hr. rewrite Hid in Hr.
    assert (slot_canonical (r_slots s) = Some (default wanted (slot_canonical (r_slots s)))) as Hcan.
    { destruct (rw_canonical _ _ _ Hwf) as [c Hc]; [intros Hnil; rewrite Hnil in Hin; by apply not_elem_of_nil in Hin|]. by rewrite Hc. }
    destruct (slotHolding (r_slots s) wanted) as [h|] eqn:Hheld; [|done]. pose proof Hheld as Hh. apply slotHolding_Some in Hh.
    assert (r_slots s' = r_slots s -> slot_get (r_slots s) h = Some wanted -> h <> Predecessor ->
      all_named s' /\ (slot_canonical (r_slots s') = Some wanted \/ slot_successor (r_slots s') = Some wanted)) as Hsame.
    { intros Hss Hw Hp. split; [intros x Hx; rewrite Hss; apply Hnamed; by rewrite <- Hrec|].
      rewrite Hss. destruct h; [by left|by right|done]. }
    destruct h.
    + destruct (Hsame Hs Hh ltac:(done)) as [Ha Hw]. rewrite Hrec. split_and!; try done; by rewrite Hs.
    + destruct (Hsame Hs Hh ltac:(done)) as [Ha Hw]. rewrite Hrec. split_and!; try done; by rewrite Hs.
    + simpl in Hh. assert (slot_successor (r_slots s) = None) as Hnone.
      { destruct Hfree as [?|[Hw|[Hw|Hw]]]; [done|..].
        - by discriminate (slotHolding_Predecessor _ _ Successor Hheld Hw).
        - by discriminate (slotHolding_Predecessor _ _ Canonical Hheld Hw).
        - destruct (rw_canonical _ _ _ Hwf) as [c Hc]; [|congruence]. intros Hnil. rewrite Hnil in Hin. by apply not_elem_of_nil in Hin. }
      rewrite Hrec, Hs. split_and!; try done; [|by intros p Hp Hne; congruence|by right].
      intros x Hx. rewrite Hrec in Hx. rewrite Hs. specialize (Hnamed x Hx).
      destruct (slotHolding (r_slots s) (record_id x)) as [n|] eqn:Hn; [|done]. apply slotHolding_Some in Hn.
      destruct n; simpl in Hn; [by apply (named_by _ Canonical)|congruence|].
      apply (named_by _ Successor). simpl. congruence.
  - destruct Hnew as (Hfresh & _ & _ & -> & Hg & Hs). set (r := mkRecord wanted _) in *.
    assert (slot_get (r_slots s) Canonical = None \/ slot_get (r_slots s) Successor = None) as Hslot.
    { destruct Hfree as [?|[Hw|[Hw|Hw]]]; [by right| | |by left]; exfalso; apply Hfresh.
      - by apply (rw_named _ _ _ Hwf Successor). - by apply (rw_named _ _ _ Hwf Canonical). }
    assert (forall x, x ∈ records s' -> x ∈ records s \/ x = r) as Hrec.
    { intros x (p & -> & Hp)%list_elem_of_fmap. rewrite Hg in Hp.
      destruct (decide (keyOf wanted ∈ (r_generations s).*1)) as [Hk|Hk].
      - exfalso. apply list_elem_of_fmap in Hk as (q & Hk & Hq). pose proof (rw_entries _ _ _ Hwf) as He.
        rewrite Forall_forall in He. destruct (He q Hq) as [Hqk Hqok]. rewrite <- Hk in Hqk.
        apply keyOf_inj in Hqk; [|done|done]. apply Hfresh. rewrite Hqk.
        by apply (list_elem_of_fmap_2 record_id), (list_elem_of_fmap_2 (fun p => entry_record p.2)).
      - rewrite jm_set_new in Hp by done. apply elem_of_app in Hp as [Hp| ->%list_elem_of_singleton]; [left|by right].
        by apply (list_elem_of_fmap_2 (fun p => entry_record p.2)). }
    assert (r ∈ records s') as Hin.
    { unfold records. rewrite Hg. apply (list_elem_of_fmap_2' _ _ (keyOf wanted, mkEntry r bundle)); [|done].
      apply jm_get_elem. by rewrite jm_get_set_eq. }
    destruct (slot_canonical (r_slots s)) as [c|] eqn:Hc.
    + assert (slot_successor (r_slots s) = None) as Hnone by (destruct Hslot as [Hslot|?]; [simpl in Hslot; congruence|done]).
      split_and!; try done; [|by rewrite Hs|by intros p Hp _; rewrite Hs|by right; rewrite Hs].
      intros x [Hx| ->]%Hrec; rewrite Hs; [|by apply (named_by _ Successor)].
      specialize (Hnamed x Hx). destruct (slotHolding (r_slots s) (record_id x)) as [n|] eqn:Hn; [|done].
      apply slotHolding_Some in Hn. destruct n; simpl in Hn; [by apply (named_by _ Canonical)|congruence|by apply (named_by _ Predecessor)].
    + assert (records s = []) as Hnil.
      { destruct (records s) as [|x l] eqn:Hl; [done|]. destruct (rw_canonical _ _ _ Hwf) as [c' Hc']; [by rewrite Hl|congruence]. }
      split_and!; try done; [|by rewrite Hs|by intros p Hp _; rewrite Hs|by left; rewrite Hs].
      intros x [Hx| ->]%Hrec; [by rewrite Hnil in Hx; apply not_elem_of_nil in Hx|].
      rewrite Hs. by apply (named_by _ Canonical).
Qed.

(** One arrival into a registry whose generations are all named. *)
Lemma register_named caps s w wanted bundle now held :
  registry_wf once caps s -> all_named s -> 3 <= maxGenerations caps -> 3 <= maxStreams caps ->
  identity_ok wanted -> bundle <> Some [] ->
  let '(s', w', answer) := register localeCompare dropState caps s w wanted bundle now held in
  (exists r, answer = Ok r /\ record_id r = wanted /\ r ∈ records s')
  /\ registry_wf once caps s' /\ all_named s'
  /\ slot_canonical (r_slots s') = Some (default wanted (slot_canonical (r_slots s)))
  /\ (forall p, slot_predecessor (r_slots s) = Some p -> p <> wanted -> slot_predecessor (r_slots s') = Some p)
  /\ (slot_canonical (r_slots s') = Some wanted \/ slot_successor (r_slots s') = Some wanted)
  /\ (forall x, x ∈ r_streams s -> x ∈ r_streams s').
Proof.
  intros Hwf Hnamed Hg Hst Hok Hb.
  destruct (replaceTheSuccessor_spec caps s w wanted held Hwf) as (Heq & Hwf1 & _).
  unfold register. rewrite Heq. pose proof (room_made caps s wanted held) as Hroom.
  set (displaced := displacedBySuccessor _ _ _ _) in *.
  assert (forall s1, erase (record_id <$> displaced) s = s1 -> registry_wf once caps s1 -> all_named s1 ->
    (wanted ∈ record_id <$> records s1) \/ (length (records s1) <= 2)%nat /\ (length (js_set (record_stream <$> records s1)) <= 2)%nat ->
    (slot_successor (r_slots s1) = None \/ slot_successor (r_slots s1) = Some wanted
     \/ slot_canonical (r_slots s1) = Some wanted \/ slot_canonical (r_slots s1) = None) ->
    slot_canonical (r_slots s1) = slot_canonical (r_slots s) /\ slot_predecessor (r_slots s1) = slot_predecessor (r_slots s) ->
    let '(s', w', answer) := match create caps (erase (record_id <$> displaced) s) wanted (Some Successor) bundle now with
      | Ok (s2, record) => (s2, drops displaced w, Ok record)
      | Err e => (erase (record_id <$> displaced) s, drops displaced w, Err e) end in
    (exists r, answer = Ok r /\ record_id r = wanted /\ r ∈ records s') /\ registry_wf once caps s' /\ all_named s'
    /\ slot_canonical (r_slots s') = Some (default wanted (slot_canonical (r_slots s)))
    /\ (forall p, slot_predecessor (r_slots s) = Some p -> p <> wanted -> slot_predecessor (r_slots s') = Some p)
    /\ (slot_canonical (r_slots s') = Some wanted \/ slot_successor (r_slots s') = Some wanted)
    /\ (forall x, x ∈ r_streams s -> x ∈ r_streams s')) as Hgo.
  { intros s1 Hs1 Hwf' Hnamed' Hspace Hslot [Hc Hp].
    destruct (create caps _ wanted _ bundle now) as [[s2 r]|e] eqn:Hcr; rewrite Hs1 in Hcr.
    2:{ exfalso. pose proof (create_total caps s1 wanted (Some Successor) bundle now Hok Hb) as Ht.
        rewrite Hcr in Ht. apply Ht. destruct Hspace as [?|[? ?]]; [by left|right; lia]. }
    destruct (create_arrival _ _ _ _ _ _ _ Hwf' Hnamed' Hok Hslot Hcr) as (Hr & Hn & Hcc & Hpp & Hw & Hk).
    destruct (create_spec _ _ _ _ _ _ _ _ _ Hwf' Hcr) as (_ & Hid & _). rewrite Hc in Hcc. rewrite Hp in Hpp.
    split_and!; try done; [by exists r|by eapply (create_wf caps caps)|]. intros x Hx. apply Hk. by rewrite <- Hs1. }
  assert ((slot_canonical (r_slots s) = None \/ slot_canonical (r_slots s) = Some wanted \/ slot_successor (r_slots s) = Some wanted) ->
    erase (record_id <$> displaced) s = s) as Hsettled.
  { intros Hcase. assert (displaced = []) as ->; [|by rewrite erase_nil].
    destruct displaced as [|x l] eqn:Hd; [done|]. exfalso.
    assert (x ∈ displaced) as Hx by (rewrite Hd; left).
    apply (elem_of_displaced caps s) in Hx as ((? & ? & ?) & _); [|done|by intros; apply r_list_elem]. tauto. }
  destruct (slot_canonical (r_slots s)) as [c|] eqn:Hc.
  - destruct (decide (c = wanted)) as [->|Hne].
    + apply (Hgo s); try done; [by apply Hsettled; right; left|left; by apply (rw_named _ _ _ Hwf Canonical)|tauto].
    + destruct (decide (slot_successor (r_slots s) = Some wanted)) as [Hs|Hs].
      * apply (Hgo s); try done; [by apply Hsettled; right; right|left; by apply (rw_named _ _ _ Hwf Successor)|tauto].
      * destruct (Hroom c Hwf Hnamed eq_refl Hne Hs) as [Hslots Hleft]. fold displaced in Hslots, Hleft.
        apply (Hgo _ eq_refl); [done| |right; by apply (two_named caps)|left; by rewrite Hslots|by rewrite Hslots].
        intros r Hr. destruct (Hleft r Hr); [by apply (named_by _ Canonical)|by apply (named_by _ Predecessor)].
  - assert (records s = []) as Hnil.
    { destruct (records s) as [|x l] eqn:Hl; [done|]. destruct (rw_canonical _ _ _ Hwf) as [c' Hc']; [by rewrite Hl|congruence]. }
    apply (Hgo s); try done; [by apply Hsettled; left|right; rewrite Hnil; simpl; lia|tauto].
Qed.
End Lifecycle.
End Once.

(** ** Every run of a registry

    Opened with one pair of caps after another, none above [caps]; [once] says that no
    move landed on the generation the predecessor slot names without assigning another
    one to it. *)
Section Runs.
Context (localeCompare : string -> string -> Z) {world : Type} (dropState : GenerationId -> world -> world).

Inductive registry_run (caps : GenerationCaps) : bool -> RegistryStore -> world -> Prop :=
  | run_open w : registry_run caps true emptyRegistry w
  | run_create once s w here id into bundle now s' r :
      registry_run caps once s w -> caps_within here caps -> identity_ok id ->
      create here s id into bundle now = Ok (s', r) -> registry_run caps once s' w
  | run_move once s w id assign s' r :
      registry_run caps once s w -> moveCanonicalTo s id assign = Ok (s', r) ->
      registry_run caps (once && negb (names_twice s id assign)) s' w
  | run_delete once s w r reap s' w' deletion :
      registry_run caps once s w -> r ∈ records s ->
      deleteGeneration dropState s w (record_id r) reap = Ok (s', w', deletion) -> registry_run caps once s' w'
  | run_delete_stream once s w digest s' w' deletion :
      registry_run caps once s w -> deleteStream localeCompare dropState s w digest = Ok (s', w', deletion) ->
      registry_run caps once s' w'
  | run_register once s w here id bundle now held s' w' r :
      registry_run caps once s w -> caps_within here caps -> identity_ok id ->
      register localeCompare dropState here s w id bundle now held = (s', w', r) -> registry_run caps once s' w'
  | run_reclaim once s w s' w' report :
      registry_run caps once s w -> reclaim localeCompare dropState s w = (s', w', report) -> registry_run caps once s' w'.

Lemma registry_run_wf caps once s w :
  is_Ok (assertCaps caps) -> registry_run caps once s w -> registry_wf once caps s.
Proof.
  intros Hcaps. induction 1 as [w|once s w here id into bundle now s' r _ IH Hle Hid Hc|once s w id assign s' r _ IH Hm
    |once s w r reap s' w' deletion _ IH Hr Hd|once s w digest s' w' deletion _ IH Hd|once s w here id bundle now held s' w' r _ IH Hle Hid Hreg
    |once s w s' w' report _ IH Hrec].
  - unfold assertCaps in Hcaps. case_decide as Hlow; [done|]. split; try done; try (constructor); simpl; try lia.
    + by intros [| |].
    + by destruct name.
    + by intros r ?%not_elem_of_nil.
  - by eapply (create_wf caps here).
  - by eapply move_wf.
  - pose proof (deleteGeneration_wf dropState caps s w r reap IH Hr) as Hwf. by rewrite Hd in Hwf.
  - pose proof (deleteStream_wf localeCompare dropState caps s w digest IH) as Hwf. by rewrite Hd in Hwf.
  - pose proof (register_wf localeCompare dropState caps here s w id bundle now held IH Hle Hid) as Hwf. by rewrite Hreg in Hwf.
  - pose proof (reclaim_spec localeCompare dropState caps s w IH) as Hspec. rewrite Hrec in Hspec. by destruct Hspec as [? _].
Qed.
End Runs.
