(* ===== verification/Lifecycle.v ===== *)
(** * The life of a generation

    What the receiving container of [packages/core/src/receivingContainer.ts] does when a
    generation arrives, over the registry of [Registry.v]: it registers it and applies the
    promotion policy.  And what the registry promises to a container that registers,
    promotes, reverts and deletes generations: the invariant of every run, that an arrival always
    finds room, that a reclaim takes exactly what no slot names, and that a revert is
    exact. *)
From S2P Require Import Prelude JsMap Types Registry.

Section Lifecycle.
Context {once : bool}.
Context (localeCompare : string -> string -> Z) {world : Type} (dropState : GenerationId -> world -> world).

(** *** What the policy does about an arrival

    The registry half of the pointer's move, for a deployment that keeps what a promotion
    superseded. *)
Definition movePointer (s : RegistryStore) (id : GenerationId) : result RegistryError RegistryStore :=
  fst <$> moveCanonicalTo s id true.

(** The cursors are read live, from where each generation persisted its own. *)
Definition promoteIfLevel (s : RegistryStore) (current successor : GenerationRecord) (cursorOf : GenerationRecord -> option Z)
    : result RegistryError RegistryStore :=
  match readyForPromotion [current; successor] (Some current) (fun record => bool_decide (record = successor)) cursorOf with
  | Some ready => movePointer s (record_id ready)
  | None => Ok s
  end.

Definition settlePromotion (policy : PromotionPolicy) (cursorOf : GenerationRecord -> option Z) (s : RegistryStore)
    : result RegistryError RegistryStore :=
  match promotionOnAdd policy with
  | Arm =>
      let slots := resolveSlots (snapshot s) in
      match slot_canonical slots, slot_successor slots with
      | Some current, Some successor => promoteIfLevel s current successor cursorOf
      | _, _ => Ok s
      end
  | _ => Ok s
  end.

Definition applyPolicyTo (policy : PromotionPolicy) (cursorOf : GenerationRecord -> option Z) (s : RegistryStore)
    (record : GenerationRecord) : result RegistryError RegistryStore :=
  if decide (slotHolding (resolvedSlots (snapshot s)) (record_id record) = Some Successor) then
    match promotionOnAdd policy with
    | Promote => movePointer s (record_id record)
    | Arm => settlePromotion policy cursorOf s
    | Wait => Ok s
    end
  else Ok s.

(** [add], [registerHeld]: an arrival is registered, and the policy speaks. *)
Definition add (caps : GenerationCaps) (policy : PromotionPolicy) (cursorOf : GenerationRecord -> option Z)
    (s : RegistryStore) (w : world) (wanted : GenerationId) (bundle : option (list Z)) (now : Z)
    (held : GenerationRecord -> bool) : RegistryStore * world * result RegistryError GenerationRecord :=
  let '(s, w, answer) := register localeCompare dropState caps s w wanted bundle now held in
  match answer with
  | Err e => (s, w, Err e)
  | Ok record =>
      match applyPolicyTo policy cursorOf s record with
      | Ok s => (s, w, Ok record)
      | Err e => (s, w, Err e)
      end
  end.

(** A container restarted with one processor after the other, each added in turn; what it
    holds and where the cursors stand may differ at each.  The answers, in order. *)
Record Arrival : Type := mkArrival {
  arriving : GenerationId;
  arrival_bundle : option (list Z);
  arrival_now : Z;
  arrival_held : GenerationRecord -> bool;
  arrival_cursors : GenerationRecord -> option Z
}.

Definition arrive (caps : GenerationCaps) (policy : PromotionPolicy)
    (p : RegistryStore * world * list (result RegistryError GenerationRecord)) (a : Arrival)
    : RegistryStore * world * list (result RegistryError GenerationRecord) :=
  let '(s, w, answers) := p in
  let '(s', w', answer) :=
    add caps policy (arrival_cursors a) s w (arriving a) (arrival_bundle a) (arrival_now a) (arrival_held a) in
  (s', w', answers ++ [answer]).

Definition arrivals (caps : GenerationCaps) (policy : PromotionPolicy) (wanted : list Arrival) (s : RegistryStore) (w : world)
    : RegistryStore * world * list (result RegistryError GenerationRecord) :=
  foldl (arrive caps policy) (s, w, []) wanted.

(** What answers reads once the arrivals are in: the canonical generation, or the first
    arrival, which takes the slot of a registry that names none. *)
Definition answering (s : RegistryStore) (wanted : list Arrival) : option GenerationId :=
  match slot_canonical (r_slots s) with
  | Some c => Some c
  | None => arriving <$> head wanted
  end.

(** The policy moves nothing by itself: it waits for an operator, or no other generation
    has reached the cursor of the canonical one. *)
Definition no_promotion (policy : PromotionPolicy) (canonical : option GenerationId)
    (cursorOf : GenerationRecord -> option Z) : Prop :=
  policy = Manual
  \/ policy = OnCatchUp
     /\ forall a b, Some (record_id a) <> canonical -> Some (record_id b) = canonical ->
          hasReachedCursor (cursorOf a) (cursorOf b) = false.

Lemma applyPolicyTo_waits caps policy cursorOf s record :
  registry_wf once caps s -> no_promotion policy (slot_canonical (r_slots s)) cursorOf ->
  applyPolicyTo policy cursorOf s record = Ok s.
Proof.
  intros Hwf Hno. unfold applyPolicyTo. case_decide; [|done]. destruct Hno as [->|[-> Hcursors]]; [done|]. cbn [promotionOnAdd].
  unfold settlePromotion. cbn [promotionOnAdd]. pose proof (resolvedSlots_wf _ _ Hwf) as Hres. unfold resolvedSlots in Hres.
  destruct (slot_canonical (resolveSlots _)) as [current|] eqn:Hc; [|done].
  destruct (slot_successor (resolveSlots _)) as [successor|] eqn:Hs; [|done].
  pose proof (f_equal slot_canonical Hres) as Hcan. pose proof (f_equal slot_successor Hres) as Hsuc.
  cbn in Hcan, Hsuc. symmetry in Hcan, Hsuc.
  assert (record_id successor <> record_id current) as Hne.
  { intros Heq. rewrite Heq in Hsuc. by destruct (rw_once _ _ _ Hwf Canonical Successor _ Hcan Hsuc) as [|(_ & _ & ?)]. }
  unfold promoteIfLevel, readyForPromotion. cbn [find].
  rewrite (bool_decide_false (current <> current)) by tauto. cbn [andb].
  rewrite (Hcursors successor current), andb_false_r; [done| |by rewrite Hcan]. rewrite Hcan. congruence.
Qed.

(** What the policy does keeps the registry well formed, whatever it is. *)
Lemma movePointer_wf caps s id s' : registry_wf once caps s -> movePointer s id = Ok s' -> registry_wf once caps s'.
Proof.
  unfold movePointer. destruct (moveCanonicalTo s id true) as [[s1 r]|] eqn:Hm; [|done]. intros Hwf [= <-].
  pose proof (move_wf caps s id true s1 r Hwf Hm) as Hwf'. unfold names_twice in Hwf'. cbn [negb andb] in Hwf'. by rewrite andb_true_r in Hwf'.
Qed.

Lemma applyPolicyTo_wf caps policy cursorOf s record s' :
  registry_wf once caps s -> applyPolicyTo policy cursorOf s record = Ok s' -> registry_wf once caps s'.
Proof.
  intros Hwf. unfold applyPolicyTo. case_decide; [|by intros [= <-]].
  destruct policy; cbn [promotionOnAdd]; [|by apply movePointer_wf|by intros [= <-]].
  unfold settlePromotion. cbn [promotionOnAdd]. destruct (slot_canonical _) as [current|]; [|by intros [= <-]].
  destruct (slot_successor _) as [successor|]; [|by intros [= <-]]. unfold promoteIfLevel.
  destruct (readyForPromotion _ _ _ _) as [ready|]; [by apply movePointer_wf|by intros [= <-]].
Qed.

Lemma add_wf caps policy cursorOf s w wanted bundle now held :
  registry_wf once caps s -> identity_ok wanted -> registry_wf once caps (add caps policy cursorOf s w wanted bundle now held).1.1.
Proof.
  intros Hwf Hok. pose proof (register_wf localeCompare dropState caps caps s w wanted bundle now held Hwf ltac:(by split) Hok) as Hwf'.
  unfold add. destruct (register _ _ _ _ _ _ _ _ _) as [[s1 w1] [record|e]]; [|exact Hwf']. cbn [fst] in Hwf'.
  destruct (applyPolicyTo _ _ _ _) as [s2|] eqn:Hp; [by eapply applyPolicyTo_wf|exact Hwf'].
Qed.

Lemma arrivals_named caps policy wanted s w answers :
  registry_wf once caps s -> all_named s -> 3 <= maxGenerations caps -> 3 <= maxStreams caps ->
  Forall (fun a => identity_ok (arriving a) /\ arrival_bundle a <> Some [] /\ no_promotion policy (answering s wanted) (arrival_cursors a)) wanted ->
  Forall is_Ok answers ->
  let '(s', _, answers') := foldl (arrive caps policy) (s, w, answers) wanted in
  Forall is_Ok answers' /\ length answers' = (length answers + length wanted)%nat
  /\ registry_wf once caps s' /\ all_named s'
  /\ slot_canonical (r_slots s') = answering s wanted
  /\ (forall p, slot_predecessor (r_slots s) = Some p -> p ∉ arriving <$> wanted -> slot_predecessor (r_slots s') = Some p)
  /\ (forall x, x ∈ r_streams s -> x ∈ r_streams s')
  /\ (forall id, arriving <$> last wanted = Some id ->
        slot_canonical (r_slots s') = Some id \/ slot_successor (r_slots s') = Some id).
Proof.
  revert s w answers. induction wanted as [|[id bundle now held cursors] wanted IH] using rev_ind; intros s w answers Hwf Hn Hg Hst Hok Hans.
  - simpl. split_and!; try done. unfold answering. by destruct (slot_canonical _).
  - apply Forall_app in Hok as [Hok [(Hid & Hb & Hwait) _]%Forall_cons]. cbn [arriving arrival_bundle arrival_cursors] in *. rewrite foldl_app.
    assert (wanted = [] \/ is_Some (answering s wanted)
      /\ answering s (wanted ++ [mkArrival id bundle now held cursors]) = answering s wanted) as Hfirst.
    { destruct wanted as [|a l]; [by left|right]. unfold answering. destruct (slot_canonical _); by split. }
    assert (Forall (fun a => identity_ok (arriving a) /\ arrival_bundle a <> Some []
      /\ no_promotion policy (answering s wanted) (arrival_cursors a)) wanted) as Hok'.
    { destruct Hfirst as [->|[_ Heq]]; [constructor|]. by rewrite Heq in Hok. }
    specialize (IH s w answers Hwf Hn Hg Hst Hok' Hans).
    destruct (foldl _ _ wanted) as [[s1 w1] answers1]. destruct IH as (Ha1 & Hl1 & Hwf1 & Hn1 & Hc1 & Hp1 & Hx1 & _).
    pose proof (register_named localeCompare dropState caps s1 w1 id bundle now held Hwf1 Hn1 Hg Hst Hid Hb) as Hreg.
    cbn [foldl arrive arriving arrival_bundle arrival_now arrival_held arrival_cursors]. unfold add.
    destruct (register _ _ _ _ _ _ _ _ _) as [[s2 w2] answer].
    destruct Hreg as ((r & -> & _) & Hwf2 & Hn2 & Hc2 & Hp2 & Hlast & Hx2).
    assert (slot_canonical (r_slots s2) = answering s (wanted ++ [mkArrival id bundle now held cursors])) as Hc3.
    { rewrite Hc2, Hc1. destruct Hfirst as [->|[[c Hc] ->]]; [unfold answering; destruct (slot_canonical (r_slots s)); reflexivity|by rewrite Hc]. }
    rewrite (applyPolicyTo_waits caps) by (by rewrite ?Hc3). split_and!; try done.
    + apply Forall_app. split; [done|]. by apply Forall_singleton.
    + rewrite !length_app. simpl. lia.
    + intros p Hp Hnot. rewrite fmap_app, not_elem_of_app in Hnot. destruct Hnot as [Hnot Hne].
      apply Hp2; [by apply Hp1|]. intros ->. apply Hne. left.
    + intros x Hx. by apply Hx2, Hx1.
    + rewrite last_snoc. by intros ? [= <-].
Qed.

(** Ages being strict, the listing is the registration order. *)
Lemma byAge_older a b : createdAt a < createdAt b -> byAge localeCompare a b < 0.
Proof. intros Hlt. unfold byAge. rewrite decide_True; lia. Qed.

Lemma listing_is_registration_order l : ascending createdAt l -> sort_by (byAge localeCompare) l = l.
Proof.
  intros Ha. apply sort_by_id. eapply StronglySorted_impl; [|exact Ha].
  intros a b Hab%byAge_older. simpl. lia.
Qed.

(** The canonical read resolves what the slot names. *)
Lemma canonical_resolves caps s :
  registry_wf once caps s -> records s <> [] -> exists r, r ∈ records s /\ r_canonical s = Some r.
Proof.
  intros Hwf Hne. destruct (rw_canonical _ _ _ Hwf Hne) as [c Hc].
  pose proof (resolvedSlots_wf _ _ Hwf) as Hres. unfold resolvedSlots in Hres.
  assert (record_id <$> r_canonical s = Some c) as Hr.
  { unfold r_canonical. rewrite <- Hc, <- Hres. done. }
  destruct (r_canonical s) as [r|] eqn:Hcan; [|done]. injection Hr as Hr. exists r. split; [|done].
  destruct (proj1 (list_elem_of_fmap _ _ _) (rw_named _ _ _ Hwf Canonical c Hc)) as (r' & Hr' & Hin).
  assert (findRecord (records s) c = Some r') as Hf by (rewrite Hr'; by eapply findRecord_is).
  unfold r_canonical, resolveSlots in Hcan. cbn [foldl SLOT_NAMES slot_get snapshot slots generations] in Hcan.
  change (fmap _ (r_generations s)) with (records s) in Hcan. rewrite Hc in Hcan. cbn [mbind option_bind] in Hcan.
  rewrite Hf in Hcan.
  assert (Some r' = Some r) as [= ->]; [|done]. rewrite <- Hcan.
  destruct (slot_successor (r_slots s) ≫= _), (slot_predecessor (r_slots s) ≫= _); done.
Qed.

Lemma move_total caps s r assign :
  registry_wf once caps s -> r ∈ records s -> exists s', moveCanonicalTo s (record_id r) assign = Ok (s', r).
Proof.
  intros Hwf Hr. unfold moveCanonicalTo, commit, move_plan.
  rewrite assertIdentity_ok by (by eapply record_identity). cbn [mbind result_bind].
  change (generations (snapshot s)) with (records s). rewrite (findRecord_is caps s r Hwf Hr).
  destruct (names _ _); cbn [mbind result_bind]; eauto.
Qed.

(** A move to another generation and back. *)
Lemma move_back caps s a b :
  registry_wf once caps s -> a ∈ records s -> b ∈ records s -> record_id a <> record_id b ->
  slot_canonical (r_slots s) = Some (record_id a) ->
  exists s1 s2,
    moveCanonicalTo s (record_id b) true = Ok (s1, b) /\ moveCanonicalTo s1 (record_id a) true = Ok (s2, a)
    /\ slot_predecessor (r_slots s1) = Some (record_id a)
    /\ r_generations s1 = r_generations s /\ r_streams s1 = r_streams s
    /\ r_generations s2 = r_generations s /\ r_streams s2 = r_streams s
    /\ r_slots s2 = mkSlots (Some (record_id a))
         (if decide (slot_successor (r_slots s) = Some (record_id b)) then None else slot_successor (r_slots s))
         (Some (record_id b)).
Proof.
  intros Hwf Ha Hb Hab Hc. destruct (move_total caps s b true Hwf Hb) as [s1 H1].
  destruct (move_spec _ _ _ _ _ _ Hwf H1) as (_ & _ & Hg1 & Hst1 & c & Hc' & Hs1).
  rewrite Hc in Hc'. injection Hc' as <-. rewrite decide_False in Hs1 by done.
  pose proof (move_wf caps s _ _ _ _ Hwf H1) as Hwf1. unfold names_twice in Hwf1. cbn [negb andb] in Hwf1. rewrite andb_true_r in Hwf1.
  assert (a ∈ records s1) as Ha1 by (unfold records; by rewrite Hg1).
  destruct (move_total caps s1 a true Hwf1 Ha1) as [s2 H2].
  destruct (move_spec _ _ _ _ _ _ Hwf1 H2) as (_ & _ & Hg2 & Hst2 & c & Hc2 & Hs2).
  rewrite Hs1 in Hc2, Hs2. cbn [slot_canonical slot_successor slot_predecessor] in *. injection Hc2 as <-.
  rewrite decide_False in Hs2 by done.
  exists s1, s2. split_and!; try done; try congruence; [by rewrite Hs1|]. rewrite Hs2. f_equal.
  assert (slot_successor (r_slots s) <> Some (record_id a)) as Hnot.
  { intros Hsu. by destruct (rw_once _ _ _ Hwf Canonical Successor _ Hc Hsu) as [|(_ & _ & ?)]. }
  repeat case_decide; congruence.
Qed.

(** C39. Whatever a registry went through, from empty and with whatever caps at each
    opening, its slots name registered generations, and none of them twice except that
    the canonical one is the predecessor too after a move that assigned no predecessor
    landed on it; one of them answers reads as soon as there is any; the registry stays
    within the largest caps it was opened with; the listing is the order of registration, so the generation a
    stream was fetched for is the first one registered on it; and the sweep of the next
    opening takes no stream a generation folds. *)
Theorem registry_invariant caps s w :
  is_Ok (assertCaps caps) -> registry_run localeCompare dropState caps once s w ->
  resolvedSlots (snapshot s) = r_slots s
  /\ (forall name id, slot_get (r_slots s) name = Some id -> id ∈ record_id <$> records s)
  /\ (forall name name' id, slot_get (r_slots s) name = Some id -> slot_get (r_slots s) name' = Some id ->
        name = name' \/ once = false /\ name <> Successor /\ name' <> Successor)
  /\ (records s <> [] -> exists r, r ∈ records s /\ r_canonical s = Some r)
  /\ Z.of_nat (length (records s)) <= maxGenerations caps
  /\ Z.of_nat (length (r_streamsFolded s)) <= maxStreams caps
  /\ r_list localeCompare s = records s
  /\ (forall stream, fetcherOf localeCompare (records s) stream
        = head (filter (fun r => record_stream r = stream) (records s)))
  /\ (forall digests r, r ∈ records s -> (record_stream r ∈ r_streams s) /\ (record_stream r ∉ sweep (snapshot s) digests)).
Proof.
  intros Hcaps Hrun. pose proof (registry_run_wf _ _ _ _ _ _ Hcaps Hrun) as Hwf. split_and!.
  - by eapply resolvedSlots_wf.
  - apply (rw_named _ _ _ Hwf).
  - apply (rw_once _ _ _ Hwf).
  - by eapply canonical_resolves.
  - apply (rw_generations _ _ _ Hwf).
  - unfold r_streamsFolded, sort_text. rewrite sort_by_perm. apply (rw_streams _ _ _ Hwf).
  - apply listing_is_registration_order, (rw_ages _ _ _ Hwf).
  - intros stream. unfold fetcherOf. rewrite listing_is_registration_order; [done|].
    eapply ascending_sublist, (rw_ages _ _ _ Hwf). apply sublist_filter.
  - intros digests r Hr. split; [by apply (rw_kept _ _ _ Hwf)|]. intros [Hno _]%list_elem_of_filter. apply Hno.
    unfold knownStreams. apply js_set_spec, elem_of_app. left. by apply list_elem_of_fmap_2.
Qed.

(** C40. An arrival is never refused while the pointer stays where it is: from a registry
    whose every generation some slot names, with room for three generations and three
    streams, and under a policy that promotes nothing meanwhile (it waits for an operator,
    or no other generation has reached the cursor of the one that answers reads), a
    container that adds one processor after another, whatever their order, whatever it
    still holds and however often one comes back, gets a record for each; the canonical
    generation stays canonical, and the first arrival becomes it where there was none; a
    revert target that does not itself arrive stays one, every generation registered is
    one some slot names, the last arrival is pending or canonical, and no stream fetched
    is forgotten. *)
Theorem arrivals_never_refused caps policy wanted s w :
  registry_wf once caps s -> all_named s -> 3 <= maxGenerations caps -> 3 <= maxStreams caps ->
  Forall (fun a => identity_ok (arriving a) /\ arrival_bundle a <> Some [] /\ no_promotion policy (answering s wanted) (arrival_cursors a)) wanted ->
  let '(s', _, answers) := arrivals caps policy wanted s w in
  Forall is_Ok answers /\ length answers = length wanted
  /\ registry_wf once caps s' /\ all_named s'
  /\ slot_canonical (r_slots s') = answering s wanted
  /\ (forall p, slot_predecessor (r_slots s) = Some p -> p ∉ arriving <$> wanted -> slot_predecessor (r_slots s') = Some p)
  /\ (forall x, x ∈ r_streams s -> x ∈ r_streams s')
  /\ (forall id, arriving <$> last wanted = Some id ->
        slot_canonical (r_slots s') = Some id \/ slot_successor (r_slots s') = Some id).
Proof.
  intros Hwf Hn Hg Hst Hok.
  exact (arrivals_named caps policy wanted s w [] Hwf Hn Hg Hst Hok (Forall_nil_2 _)).
Qed.

(** An operator's [reclaim] deletes exactly the generations no slot names and
    declines none, drops the state of each of them once, moves no slot, and keeps every
    recorded stream except those whose last generation it deleted. *)
Theorem reclaim_exact caps s w :
  is_Ok (assertCaps caps) -> registry_run localeCompare dropState caps once s w ->
  let '(s', w', report) := reclaim localeCompare dropState s w in
  (forall r, r ∈ records s' <-> r ∈ records s /\ slotHolding (r_slots s) (record_id r) <> None)
  /\ (forall r, r ∈ deletion_generation <$> reclaimed report
        <-> r ∈ records s /\ slotHolding (r_slots s) (record_id r) = None)
  /\ r_slots s' = r_slots s /\ declined report = []
  /\ w' = drops dropState (deletion_generation <$> reclaimed report) w
  /\ (forall x, x ∈ r_streams s' <-> x ∈ r_streams s /\ ((exists r, r ∈ records s' /\ record_stream r = x)
        \/ forall r, r ∈ records s -> record_stream r <> x)).
Proof.
  intros Hcaps Hrun. pose proof (reclaim_spec localeCompare dropState caps s w (registry_run_wf _ _ _ _ _ _ Hcaps Hrun)) as Hspec.
  destruct (reclaim _ _ _ _) as [[s' w'] report]. destruct Hspec as (_ & ? & ? & ? & ? & ? & ?). by split_and!.
Qed.

(** A promotion names what it came off as the revert target, and moving back to it
    is exact: the same generation is canonical, the one left is the next revert target,
    and no record, bundle or stream was touched on the way. *)
Theorem revert_exact caps s w a b :
  is_Ok (assertCaps caps) -> registry_run localeCompare dropState caps once s w ->
  a ∈ records s -> b ∈ records s -> record_id a <> record_id b ->
  slot_canonical (r_slots s) = Some (record_id a) ->
  exists s1 s2,
    moveCanonicalTo s (record_id b) true = Ok (s1, b) /\ moveCanonicalTo s1 (record_id a) true = Ok (s2, a)
    /\ slot_predecessor (r_slots s1) = Some (record_id a)
    /\ r_generations s1 = r_generations s /\ r_streams s1 = r_streams s
    /\ r_generations s2 = r_generations s /\ r_streams s2 = r_streams s
    /\ r_slots s2 = mkSlots (Some (record_id a))
         (if decide (slot_successor (r_slots s) = Some (record_id b)) then None else slot_successor (r_slots s))
         (Some (record_id b)).
Proof. intros Hcaps Hrun. apply (move_back caps). by eapply registry_run_wf. Qed.
End Lifecycle.

(** ** A registry of two generations *)
Definition ascii_compare (a b : string) : Z :=
  match String.compare a b with Lt => -1 | Eq => 0 | Gt => 1 end.

Definition first_fold : GenerationId := mkGeneration "stream1" "processor1".
Definition second_fold : GenerationId := mkGeneration "stream1" "processor2".
Definition third_fold : GenerationId := mkGeneration "stream2" "processor1".
Definition three_caps : GenerationCaps := mkCaps 3 3.

Definition dropping (id : GenerationId) (w : list GenerationId) : list GenerationId := w ++ [id].

Definition created (s : RegistryStore) (id : GenerationId) (into : option SlotName) (now : Z) : RegistryStore :=
  match create three_caps s id into None now with Ok (s', _) => s' | Err _ => s end.

Definition two_registered : RegistryStore :=
  created (created emptyRegistry first_fold (Some Successor) 5) second_fold (Some Successor) 5.

(** The same two, and a third no slot names. *)
Definition one_loose : RegistryStore := created two_registered third_fold None 6.

Lemma fold_ids_ok : identity_ok first_fold /\ identity_ok second_fold /\ identity_ok third_fold.
Proof. split_and!; by split; vm_compute. Qed.

Lemma run_created s id into now :
  registry_run ascii_compare dropping three_caps true s [] -> identity_ok id ->
  registry_run ascii_compare dropping three_caps true (created s id into now) [].
Proof.
  intros Hrun Hid. unfold created. destruct (create _ _ _ _ _ _) as [[s' r]|] eqn:Hc; [|done].
  exact (run_create _ _ _ true s [] three_caps id into None now s' r Hrun ltac:(by split) Hid Hc).
Qed.

Lemma two_registered_run : registry_run ascii_compare dropping three_caps true two_registered [].
Proof. destruct fold_ids_ok as (H1 & H2 & _). apply run_created; [apply run_created; [apply run_open|done]|done]. Qed.

Lemma one_loose_run : registry_run ascii_compare dropping three_caps true one_loose [].
Proof. destruct fold_ids_ok as (_ & _ & H3). apply run_created; [apply two_registered_run|done]. Qed.

Lemma two_registered_named : all_named two_registered.
Proof. intros r Hr. change (records two_registered) with [mkRecord first_fold 5; mkRecord second_fold 6] in Hr. by each_in Hr. Qed.

Lemma registry_invariant_witness : fetcherOf ascii_compare (records one_loose) "stream1" = Some (mkRecord first_fold 5).
Proof.
  destruct (registry_invariant ascii_compare dropping three_caps one_loose [] I one_loose_run) as (_ & _ & _ & _ & _ & _ & _ & Hf & _).
  rewrite (Hf "stream1"). reflexivity.
Defined.

(** Three arrivals while the canonical generation is ahead of the others. *)
Definition sample_cursors (r : GenerationRecord) : option Z := Some (if decide (record_id r = first_fold) then 90 else 10).
Definition sample_arrival (id : GenerationId) (bundle : option (list Z)) (now : Z) : Arrival :=
  mkArrival id bundle now (fun _ => false) sample_cursors.
Definition sample_wanted : list Arrival := [sample_arrival third_fold None 3; sample_arrival second_fold (Some [1]) 9; sample_arrival third_fold None 9].

Lemma arrivals_never_refused_witness :
  let '(s', _, answers) := arrivals ascii_compare dropping three_caps OnCatchUp sample_wanted two_registered [] in
  Forall is_Ok answers /\ slot_canonical (r_slots s') = Some first_fold.
Proof.
  destruct fold_ids_ok as (H1 & H2 & H3).
  assert (no_promotion OnCatchUp (Some first_fold) sample_cursors) as Hwait.
  { right. split; [done|]. intros a b Ha [= Hb]. unfold hasReachedCursor, sample_cursors. rewrite (decide_True (P := record_id b = _)) by done.
    rewrite decide_False by congruence. done. }
  pose proof (arrivals_never_refused ascii_compare dropping three_caps OnCatchUp sample_wanted two_registered []
    (registry_run_wf ascii_compare dropping three_caps true two_registered [] I two_registered_run) two_registered_named ltac:(done) ltac:(done)
    ltac:(repeat (constructor; [by split_and!|]); constructor)) as Hall.
  destruct (arrivals _ _ _ _ _ _ _) as [[s' w'] answers]. destruct Hall as (Hok & _ & _ & _ & Hc & _).
  split; [exact Hok|exact Hc].
Defined.

(** Two promotions leave a generation no slot names, and a process that no longer holds it
    finds no room for the next arrival. *)
Definition promoted_twice : RegistryStore * list GenerationId * list (result RegistryError GenerationRecord) :=
  arrivals ascii_compare dropping three_caps Immediate
    [sample_arrival second_fold None 7; sample_arrival third_fold None 8;
     sample_arrival (mkGeneration "stream2" "processor2") None 9] (created emptyRegistry first_fold (Some Successor) 5) [].

Example promoted_twice_then_refused :
  r_slots promoted_twice.1.1 = mkSlots (Some third_fold) None (Some second_fold)
  /\ record_id <$> records promoted_twice.1.1 = [first_fold; second_fold; third_fold]
  /\ (fun answer => match answer with Ok _ => true | Err _ => false end) <$> promoted_twice.2 = [true; true; false].
Proof. vm_compute. done. Qed.

Lemma reclaim_exact_witness :
  let '(s', w', report) := reclaim ascii_compare dropping one_loose [] in
  records s' = [mkRecord first_fold 5; mkRecord second_fold 6] /\ w' = [third_fold] /\ declined report = [].
Proof.
  pose proof (reclaim_exact ascii_compare dropping three_caps one_loose [] I one_loose_run) as Hall.
  destruct (reclaim ascii_compare dropping one_loose []) as [[s' w'] report] eqn:Hr. vm_compute in Hr.
  destruct Hall as (_ & _ & _ & Hd & _). split_and!; [..|exact Hd]; by injection Hr as <- <- <-.
Defined.

Lemma revert_exact_witness : exists s1 s2,
  moveCanonicalTo two_registered second_fold true = Ok (s1, mkRecord second_fold 6)
  /\ moveCanonicalTo s1 first_fold true = Ok (s2, mkRecord first_fold 5)
  /\ r_slots s2 = mkSlots (Some first_fold) None (Some second_fold).
Proof.
  destruct (revert_exact ascii_compare dropping three_caps two_registered [] (mkRecord first_fold 5) (mkRecord second_fold 6)
    I two_registered_run ltac:(left) ltac:(right; left) ltac:(done) eq_refl) as (s1 & s2 & H1 & H2 & _ & _ & _ & _ & _ & Hs).
  exists s1, s2. split; [exact H1|split; [exact H2|exact Hs]].
Defined.

(** Nothing in the registry itself keeps a move that assigns no predecessor from landing
    on the generation the predecessor slot names, which two slots then name. *)
Lemma named_by_two_slots : exists s1 s2,
  moveCanonicalTo two_registered second_fold true = Ok (s1, mkRecord second_fold 6)
  /\ moveCanonicalTo s1 first_fold false = Ok (s2, mkRecord first_fold 5)
  /\ slot_get (r_slots s2) Canonical = Some first_fold /\ slot_get (r_slots s2) Predecessor = Some first_fold.
Proof. do 2 eexists. split_and!; vm_compute; reflexivity. Qed.
