(* ===== verification/Stream.v ===== *)
(** * Shaping a stream: grouping, batching, cursor arithmetic

    The pure helpers of [packages/core/src/internal/engine/utils.ts] that the
    fetch path, the replay path and the delivery path share: grouping a fetch
    by block hash, grouping a generated stream by consecutive run, cutting a
    stream into [process()] calls, narrowing a cursor, and the block a fold
    reads from next. *)
From S2P Require Import Prelude Types.

(** ** [groupLogsPerBlock]

    The JavaScript object keyed by block hash and the ordered list of groups
    share the group objects; here the ordered list is the only copy, and a log
    is appended to the group with its hash. *)
Fixpoint addToGroup (groups : list EventBlock) (event : LogEvent) : list EventBlock :=
  match groups with
  | [] => [mkBlock (blockHash event) (blockNumber event) [event]]
  | g :: rest =>
      if decide (hash g = blockHash event)
      then mkBlock (hash g) (number g) (events g ++ [event]) :: rest
      else g :: addToGroup rest event
  end.

(** One turn of the loop: a [removed] log is skipped. *)
Definition fetchStep (groups : list EventBlock) (event : LogEvent) : list EventBlock :=
  if removed event then groups else addToGroup groups event.

Definition groupLogsPerBlock (logEvents : list LogEvent) : list EventBlock :=
  foldl fetchStep [] logEvents.

(** ** [groupStreamPerBlock]

    [current] is the last group pushed on [ordered]; a run ends where the hash
    or the [removed] flag changes. *)
Record StreamGroup : Type := mkGroup {
  group_block : EventBlock;
  group_removed : bool
}.

Definition startGroup (event : LogEvent) : StreamGroup :=
  mkGroup (mkBlock (blockHash event) (blockNumber event) [event]) (removed event).

Definition extendGroup (g : StreamGroup) (event : LogEvent) : StreamGroup :=
  mkGroup (mkBlock (hash (group_block g)) (number (group_block g))
             (events (group_block g) ++ [event])) (group_removed g).

Definition sameRun (g : StreamGroup) (event : LogEvent) : bool :=
  bool_decide (hash (group_block g) = blockHash event /\ group_removed g = removed event).

Fixpoint groupRuns (current : StreamGroup) (stream : list LogEvent) : list StreamGroup :=
  match stream with
  | [] => [current]
  | event :: rest =>
      if sameRun current event then groupRuns (extendGroup current event) rest
      else current :: groupRuns (startGroup event) rest
  end.

Definition groupStreamPerBlock (stream : list LogEvent) : list StreamGroup :=
  match stream with
  | [] => []
  | event :: rest => groupRuns (startGroup event) rest
  end.

(** The events of a list of groups, in order. *)
Definition group_events (groups : list StreamGroup) : list LogEvent :=
  concat ((fun g => events (group_block g)) <$> groups).

(** ** [cursorSyncedThrough] *)
Definition cursorSyncedThrough (lastSync : LastSync) (blockNumber : Z) : LastSync :=
  mkSync (context lastSync) (latestBlock lastSync) (lastFromBlock lastSync) blockNumber
    (filter (fun b => number b <= blockNumber) (unconfirmedBlocks lastSync)).

(** ** [batchStreamForDelivery] *)
Record DeliveryBatch : Type := mkDelivery {
  batch_events : list LogEvent;
  batch_lastSync : LastSync
}.

(** The first inner [while]: shift every leading retracted group into [list]. *)
Fixpoint shiftRemoved (groups : list StreamGroup) (list : list LogEvent)
    : Datatypes.list LogEvent * Datatypes.list StreamGroup :=
  match groups with
  | g :: rest =>
      if group_removed g then shiftRemoved rest (list ++ events (group_block g)) else (list, groups)
  | [] => (list, [])
  end.

(** The second: shift applied groups while fewer than [batchSize] events are in [list]. *)
Fixpoint shiftApplied (batchSize : Z) (groups : list StreamGroup) (list : list LogEvent)
    : Datatypes.list LogEvent * Datatypes.list StreamGroup :=
  match groups with
  | g :: rest =>
      if group_removed g then (list, groups)
      else if decide (Z.of_nat (length list) < batchSize)
      then shiftApplied batchSize rest (list ++ events (group_block g))
      else (list, groups)
  | [] => (list, [])
  end.

(** [Math.min(...list)] of a non-empty list of heights. *)
Definition minBlock (list : list LogEvent) : Z :=
  match list with
  | [] => 0
  | e :: rest => foldl (fun m x => Z.min m (blockNumber x)) (blockNumber e) rest
  end.

Definition foldedThrough (list : list LogEvent) : Z :=
  match last (filter (fun e => removed e = false) list) with
  | Some e => blockNumber e
  | None => Z.max 0 (minBlock list - 1)
  end.

(** The outer [while], with the number of groups left as fuel: every turn that
    does not [break] shifts at least one. *)
Fixpoint batchLoop (fuel : nat) (groups : list StreamGroup) (newLastSync : LastSync)
    (batchSize : Z) : list DeliveryBatch :=
  match fuel, groups with
  | S fuel, _ :: _ =>
      let (l1, groups1) := shiftRemoved groups [] in
      let (l2, groups2) := shiftApplied batchSize groups1 l1 in
      match l2 with
      | [] => []
      | _ =>
          mkDelivery l2
            (match groups2 with
             | [] => newLastSync
             | _ => cursorSyncedThrough newLastSync (foldedThrough l2)
             end)
          :: batchLoop fuel groups2 newLastSync batchSize
      end
  | _, _ => []
  end.

Definition batchStreamForDelivery (eventStream : list LogEvent) (newLastSync : LastSync)
    (batchSize : Z) : list DeliveryBatch :=
  let groups := groupStreamPerBlock eventStream in
  batchLoop (length groups) groups newLastSync batchSize.

(** ** [getFromBlock] and [defaultFromBlockOf] *)
Definition getFromBlock (lastSync : LastSync) (defaultFromBlock finality : Z) : Z :=
  if decide (latestBlock lastSync = 0) then defaultFromBlock
  else Z.max (Z.min (lastToBlock lastSync + 1) (latestBlock lastSync - finality)) defaultFromBlock.

(** [if (contractData.startBlock)]: absent and [0] are both falsy. *)
Definition truthyBlock (b : option Z) : option Z :=
  match b with Some n => if decide (n = 0) then None else Some n | None => None end.

Definition earliestStart (fromBlockFromContracts : option Z) (c : ContractData) : option Z :=
  match truthyBlock (contract_startBlock c) with
  | Some start =>
      match fromBlockFromContracts with
      | Some lowest => if decide (start < lowest) then Some start else Some lowest
      | None => Some start
      end
  | None => Some 0
  end.

Definition defaultFromBlockOf (contracts : Contracts) : Z :=
  match contracts with
  | ContractList cs => default 0 (foldl earliestStart None cs)
  | AllContracts start => default 0 start
  end.

(** ** The checks on a fetched or pushed payload *)
Fixpoint assertAscendingFrom (previous : Z) (logs : list LogEvent) : result EngineError unit :=
  match logs with
  | [] => Ok tt
  | current :: rest =>
      if decide (blockNumber current < previous)
      then Err (InvalidBatchError (LogsDescend previous (blockNumber current)))
      else assertAscendingFrom (blockNumber current) rest
  end.

Definition assertAscendingByBlock (logs : list LogEvent) : result EngineError unit :=
  match logs with
  | [] => Ok tt
  | first :: rest => assertAscendingFrom (blockNumber first) rest
  end.

Fixpoint assertLogsCarryTimestamps (logs : list LogEvent) : result EngineError unit :=
  match logs with
  | [] => Ok tt
  | log :: rest =>
      match blockTimestamp log with
      | None => Err (TimestamplessLogError (blockNumber log) (blockHash log))
      | Some _ => assertLogsCarryTimestamps rest
      end
  end.

(** ** Grouping a fetch gives back the blocks it was read from *)
Definition groups_hash (h : string) (groups : list EventBlock) : Prop :=
  Forall (fun g => hash g <> h) groups.

Lemma addToGroup_fresh gs e :
  groups_hash (blockHash e) gs ->
  addToGroup gs e = gs ++ [mkBlock (blockHash e) (blockNumber e) [e]].
Proof. induction 1 as [|g gs Hg IH]; simpl; [done|]. rewrite decide_False by done. by f_equal. Qed.

Lemma addToGroup_last gs b e :
  groups_hash (blockHash e) gs -> hash b = blockHash e ->
  addToGroup (gs ++ [b]) e = gs ++ [mkBlock (hash b) (number b) (events b ++ [e])].
Proof.
  intros Hgs Hb. induction Hgs as [|g gs Hg IH]; simpl.
  - by rewrite decide_True.
  - rewrite decide_False by done. by f_equal.
Qed.

Lemma foldl_fetch_extend gs h n es es' :
  groups_hash h gs -> Forall (fun e => blockHash e = h /\ removed e = false) es' ->
  foldl fetchStep (gs ++ [mkBlock h n es]) es' = gs ++ [mkBlock h n (es ++ es')].
Proof.
  intros Hgs. revert es. induction es' as [|e es' IH]; intros es Hes; simpl.
  - by rewrite app_nil_r.
  - apply Forall_cons in Hes as [[Hh Hr] Hes]. unfold fetchStep at 2. rewrite Hr, addToGroup_last by (simpl; congruence).
    simpl. rewrite IH by done. by rewrite <- app_assoc.
Qed.

Lemma foldl_fetch_block gs b :
  groups_hash (hash b) gs -> block_wf b ->
  foldl fetchStep gs (events b) = gs ++ [b].
Proof.
  intros Hgs [Hne Hev]. destruct b as [h n [|e es]]; simpl in *; [done|].
  apply Forall_cons in Hev as [(Hn & Hh & Hr) Hev].
  unfold fetchStep at 2. rewrite Hr, addToGroup_fresh by congruence. rewrite Hn, Hh.
  rewrite foldl_fetch_extend; [done|done|].
  eapply Forall_impl; [exact Hev|]. by intros e' (_ & ? & ?).
Qed.

Lemma foldl_fetch_chain gs c :
  NoDup (hash <$> gs ++ c) -> Forall block_wf c ->
  foldl fetchStep gs (events_of c) = gs ++ c.
Proof.
  revert gs. induction c as [|b c IH]; intros gs Hnd Hwf.
  - by rewrite app_nil_r.
  - apply Forall_cons in Hwf as [Hb Hwf].
    rewrite events_of_cons, foldl_app, foldl_fetch_block; [|..|done].
    + rewrite cons_middle, app_assoc in Hnd. rewrite (IH (gs ++ [b])) by done.
      by rewrite <- app_assoc.
    + rewrite fmap_app in Hnd. apply NoDup_app in Hnd as (_ & Hnd & _).
      apply Forall_forall. intros g Hg Heq.
      apply (Hnd (hash g)); [by apply list_elem_of_fmap_2|]. csimpl. rewrite Heq. by left.
Qed.

Lemma group_fetch c :
  NoDup (hash <$> c) -> Forall block_wf c -> groupLogsPerBlock (events_of c) = c.
Proof. intros. by apply (foldl_fetch_chain []). Qed.

(** ** Consecutive runs *)
Record group_wf (g : StreamGroup) : Prop := {
  group_wf_head : exists e es, events (group_block g) = e :: es /\ number (group_block g) = blockNumber e;
  group_wf_run : Forall (fun e => sameRun g e = true) (events (group_block g))
}.

(** Two neighbouring groups differ in hash or in verdict. *)
Definition run_boundary (g h : StreamGroup) : Prop :=
  ~ (hash (group_block g) = hash (group_block h) /\ group_removed g = group_removed h).

Lemma sameRun_true g e :
  sameRun g e = true <-> hash (group_block g) = blockHash e /\ group_removed g = removed e.
Proof. unfold sameRun. by rewrite bool_decide_eq_true. Qed.

Lemma sameRun_extend g e e' : sameRun (extendGroup g e) e' = sameRun g e'.
Proof. done. Qed.

Lemma startGroup_wf e : group_wf (startGroup e).
Proof. split; simpl; [by eexists _, _|]. repeat constructor. by apply sameRun_true. Qed.

Lemma extendGroup_wf g e : group_wf g -> sameRun g e = true -> group_wf (extendGroup g e).
Proof.
  intros [(e0 & es & Hev & Hn) Hrun] He. split; simpl.
  - rewrite Hev, Hn. by eexists _, _.
  - apply Forall_app. split; [done|]. by constructor.
Qed.

Lemma groupRuns_events c s : group_events (groupRuns c s) = events (group_block c) ++ s.
Proof.
  revert c. induction s as [|e s IH]; intros c; unfold group_events in *; simpl; [done|].
  destruct (sameRun c e).
  - rewrite IH. simpl. by rewrite <- app_assoc.
  - csimpl. by rewrite IH.
Qed.

Lemma groupRuns_wf c s : group_wf c -> Forall group_wf (groupRuns c s).
Proof.
  revert c. induction s as [|e s IH]; intros c Hc; simpl; [by constructor|].
  destruct (sameRun c e) eqn:Hs.
  - by apply IH, extendGroup_wf.
  - constructor; [done|]. apply IH, startGroup_wf.
Qed.

Lemma groupRuns_head c s :
  exists g gs, groupRuns c s = g :: gs /\ hash (group_block g) = hash (group_block c)
    /\ group_removed g = group_removed c.
Proof.
  revert c. induction s as [|e s IH]; intros c; simpl; [by eexists _, _|].
  destruct (sameRun c e); [|by eexists _, _].
  destruct (IH (extendGroup c e)) as (g & gs & -> & ? & ?). by eexists _, _.
Qed.

Lemma groupRuns_boundaries c s : Sorted run_boundary (groupRuns c s).
Proof.
  revert c. induction s as [|e s IH]; intros c; simpl; [by repeat constructor|].
  destruct (sameRun c e) eqn:Hs; [apply IH|]. constructor; [apply IH|].
  destruct (groupRuns_head (startGroup e) s) as (g & gs & -> & Hh & Hr).
  constructor. unfold run_boundary. rewrite Hh, Hr. simpl.
  intros Hsame%sameRun_true. congruence.
Qed.

Lemma groupStream_wf s : Forall group_wf (groupStreamPerBlock s).
Proof. destruct s; simpl; [constructor|]. apply groupRuns_wf, startGroup_wf. Qed.

Lemma groupRuns_run c es s :
  Forall (fun e => sameRun c e = true) es ->
  groupRuns c (es ++ s) =
    groupRuns (mkGroup (mkBlock (hash (group_block c)) (number (group_block c))
      (events (group_block c) ++ es)) (group_removed c)) s.
Proof.
  revert c. induction es as [|e es IH]; intros c Hes; simpl.
  - rewrite app_nil_r. by destruct c as [[] ].
  - apply Forall_cons in Hes as [He Hes]. rewrite He, IH by done. simpl. by rewrite <- app_assoc.
Qed.

Lemma groupStream_roundtrip_aux g gs :
  Forall group_wf (g :: gs) -> Sorted run_boundary (g :: gs) ->
  forall e es, events (group_block g) = e :: es ->
  groupRuns (startGroup e) (es ++ group_events gs) = g :: gs.
Proof.
  revert g. induction gs as [|g' gs IH]; intros g Hwf Hs e es He.
  all: apply Forall_cons in Hwf as [[(e0 & es0 & He0 & Hn) Hrun] Hwf].
  all: rewrite He in He0; injection He0 as <- <-.
  all: rewrite He in Hrun; apply Forall_cons in Hrun as [Hhead Hrun].
  all: apply sameRun_true in Hhead as [Hh Hr].
  all: rewrite groupRuns_run by (eapply Forall_impl; [exact Hrun|];
    intros x [Hx1 Hx2]%sameRun_true; apply sameRun_true; split; simpl; congruence).
  all: simpl; rewrite <- Hh, <- Hr, <- Hn, <- He.
  - by destruct g as [[] ].
  - pose proof Hwf as Hwf'. apply Forall_cons in Hwf' as [[(e1 & es1 & He1 & Hn1) Hrun1] _].
    inversion Hs as [|? ? Hs' Hhd]; subst. inversion Hhd as [|? ? Hb]; subst.
    unfold group_events in *. csimpl. rewrite He1. simpl.
    rewrite He1 in Hrun1. apply Forall_cons in Hrun1 as [[Hh1 Hr1]%sameRun_true _].
    destruct (sameRun _ e1) eqn:Hsame.
    + exfalso. apply Hb. apply sameRun_true in Hsame as [? ?]. simpl in *. split; congruence.
    + rewrite (IH g' Hwf Hs' e1 es1 He1). by destruct g as [[] ].
Qed.

Lemma groupStream_roundtrip gs :
  Forall group_wf gs -> Sorted run_boundary gs -> groupStreamPerBlock (group_events gs) = gs.
Proof.
  destruct gs as [|g gs]; [done|]. intros Hwf Hs.
  pose proof Hwf as Hwf'. apply Forall_cons in Hwf' as [[(e & es & He & _) _] _].
  unfold group_events. csimpl. rewrite He. simpl. by apply groupStream_roundtrip_aux.
Qed.

(** ** The delivery cut *)
Lemma group_events_app gs hs : group_events (gs ++ hs) = group_events gs ++ group_events hs.
Proof. unfold group_events. by rewrite fmap_app, concat_app. Qed.

Lemma group_events_cons g gs : group_events (g :: gs) = events (group_block g) ++ group_events gs.
Proof. done. Qed.

Lemma app_group_nil (l : list LogEvent) : l ++ group_events [] = l.
Proof. apply app_nil_r. Qed.

(** The group list does not start with a retracted group. *)
Definition starts_applied (gs : list StreamGroup) : Prop :=
  match gs with [] => True | g :: _ => group_removed g = false end.

Lemma shiftRemoved_spec gs l :
  exists shifted rest, gs = shifted ++ rest /\ Forall (fun g => group_removed g = true) shifted
    /\ starts_applied rest /\ shiftRemoved gs l = (l ++ group_events shifted, rest).
Proof.
  revert l. induction gs as [|g gs IH]; intros l; simpl.
  - exists [], []. rewrite app_group_nil. split_and!; first [apply Forall_nil_2 | done].
  - destruct (group_removed g) eqn:Hg.
    + destruct (IH (l ++ events (group_block g))) as (s & r & -> & Hs & Hr & ->).
      exists (g :: s), r. split_and!; [done|by constructor|done|].
      by rewrite group_events_cons, app_assoc.
    + exists [], (g :: gs). rewrite app_group_nil. split_and!; first [apply Forall_nil_2 | done].
Qed.

Lemma shiftApplied_spec n gs l :
  exists shifted rest, gs = shifted ++ rest /\ Forall (fun g => group_removed g = false) shifted
    /\ shiftApplied n gs l = (l ++ group_events shifted, rest)
    /\ (starts_applied gs -> Z.of_nat (length l) < n -> gs <> [] -> shifted <> []).
Proof.
  revert l. induction gs as [|g gs IH]; intros l; simpl.
  - exists [], []. rewrite app_group_nil. split_and!; first [apply Forall_nil_2 | done].
  - destruct (group_removed g) eqn:Hg; [|case_decide].
    + exists [], (g :: gs). rewrite app_group_nil. split_and!; [done|constructor|done|]. simpl. congruence.
    + destruct (IH (l ++ events (group_block g))) as (s & r & -> & Hs & -> & _).
      exists (g :: s), r. split_and!; [done|by constructor| |done].
      by rewrite group_events_cons, app_assoc.
    + exists [], (g :: gs). rewrite app_group_nil. split_and!; first [apply Forall_nil_2 | done].
Qed.

(** What the cut promises, as a relation on the groups: each call takes a whole
    run of retractions [r] (possibly none), then applied groups [a], and carries
    the stream's own cursor only when nothing is left. *)
Inductive delivered (cursor : LastSync) : list StreamGroup -> list DeliveryBatch -> Prop :=
  | delivered_nil : delivered cursor [] []
  | delivered_turn r a rest batches :
      Forall (fun g => group_removed g = true) r ->
      Forall (fun g => group_removed g = false) a ->
      r ++ a <> [] ->
      starts_applied (a ++ rest) ->
      delivered cursor rest batches ->
      delivered cursor (r ++ a ++ rest)
        (mkDelivery (group_events (r ++ a))
           (match rest with
            | [] => cursor
            | _ => cursorSyncedThrough cursor (foldedThrough (group_events (r ++ a)))
            end) :: batches).

Lemma group_events_nonempty gs : Forall group_wf gs -> gs <> [] -> group_events gs <> [].
Proof.
  destruct gs as [|g gs]; [done|]. intros [[(e & es & He & _) _] _]%Forall_cons _.
  by rewrite group_events_cons, He.
Qed.

Lemma batchLoop_delivered cursor n fuel gs :
  1 <= n -> Forall group_wf gs -> (length gs <= fuel)%nat ->
  delivered cursor gs (batchLoop fuel gs cursor n).
Proof.
  intros Hn. revert gs. induction fuel as [|fuel IH]; intros gs Hwf Hlen.
  { destruct gs; [constructor|simpl in *; lia]. }
  destruct gs as [|g0 gs0]; [constructor|]. cbn [batchLoop].
  destruct (shiftRemoved_spec (g0 :: gs0) []) as (r & rest1 & Hr1 & Hr & Hstart & ->).
  destruct (shiftApplied_spec n rest1 ([] ++ group_events r)) as (a & rest & Ha1 & Ha & -> & Hprog).
  subst rest1. rewrite Hr1 in Hwf, Hlen |- *.
  assert (r ++ a <> []) as Hne.
  { intros [-> ->]%app_nil. simpl in *. apply Hprog; try done; [simpl; lia|congruence]. }
  assert (group_events (r ++ a) <> []) as Hev.
  { apply group_events_nonempty; [|done]. rewrite app_assoc in Hwf. by apply Forall_app in Hwf as [? _]. }
  simpl. rewrite <- group_events_app. destruct (group_events (r ++ a)) as [|e es] eqn:Hes; [done|].
  rewrite <- Hes. constructor; try done. apply IH.
  - by rewrite !Forall_app in Hwf; destruct Hwf as (_ & _ & ?).
  - rewrite !length_app in Hlen. destruct r, a; simpl in *; try done; lia.
Qed.

Lemma group_wf_verdict g : group_wf g ->
  Forall (fun e => removed e = group_removed g) (events (group_block g)).
Proof. intros [_ H]. eapply Forall_impl; [exact H|]. by intros e [_ ->]%sameRun_true. Qed.

Lemma group_events_verdict v gs :
  Forall group_wf gs -> Forall (fun g => group_removed g = v) gs ->
  Forall (fun e => removed e = v) (group_events gs).
Proof.
  induction 1 as [|g gs Hg _ IH]; intros Hv; [constructor|].
  apply Forall_cons in Hv as [Hv Hvs]. rewrite group_events_cons. apply Forall_app. split; [|auto].
  rewrite <- Hv. by apply group_wf_verdict.
Qed.

Lemma delivered_events cursor gs bs :
  delivered cursor gs bs -> concat (batch_events <$> bs) = group_events gs.
Proof.
  induction 1 as [|r a rest bs Hr Ha Hne Hst Hd IH]; [done|].
  csimpl. by rewrite IH, (app_assoc r), !group_events_app.
Qed.

Definition revert_then_apply (b : DeliveryBatch) : Prop :=
  exists r a, batch_events b = r ++ a
    /\ Forall (fun e => removed e = true) r /\ Forall (fun e => removed e = false) a.

Lemma delivered_shape cursor gs bs :
  Forall group_wf gs -> delivered cursor gs bs -> Forall revert_then_apply bs.
Proof.
  intros Hwf. induction 1 as [|r a rest bs Hr Ha Hne Hst Hd IH]; [constructor|].
  rewrite !Forall_app in Hwf. destruct Hwf as (Hr' & Ha' & Hrest).
  constructor; [|auto]. exists (group_events r), (group_events a).
  split; [apply group_events_app|]. split; by apply group_events_verdict.
Qed.

Lemma delivered_last cursor gs bs b :
  delivered cursor gs bs -> last bs = Some b -> batch_lastSync b = cursor.
Proof.
  induction 1 as [|r a rest bs Hr Ha Hne Hst Hd IH]; [done|].
  destruct bs as [|b' bs]; [|by rewrite last_cons_cons].
  intros [= <-]. simpl. by inversion Hd; subst.
Qed.

(** A retraction never ends one call with another opening the next. *)
Definition no_split_revert (b b' : DeliveryBatch) : Prop :=
  forall e e', last (batch_events b) = Some e -> head (batch_events b') = Some e' ->
  ~ (removed e = true /\ removed e' = true).

Lemma head_group_events g gs e :
  group_wf g -> head (group_events (g :: gs)) = Some e -> removed e = group_removed g.
Proof.
  intros Hg. destruct (group_wf_head g Hg) as (e0 & es & He & _).
  pose proof (group_wf_verdict g Hg) as Hv. rewrite group_events_cons, He in *.
  simpl. intros [= <-]. by apply Forall_cons in Hv as [-> _].
Qed.

Lemma last_group_events gs e :
  Forall group_wf gs -> Forall (fun g => group_removed g = false) gs ->
  last (group_events gs) = Some e -> removed e = false.
Proof.
  intros Hwf Hv Hl. pose proof (group_events_verdict false gs Hwf Hv) as Hall.
  rewrite Forall_forall in Hall. apply Hall. by apply last_Some_elem_of.
Qed.

Lemma delivered_next cursor gs bs i b b' :
  Forall group_wf gs -> delivered cursor gs bs -> bs !! i = Some b -> bs !! S i = Some b' ->
  batch_lastSync b = cursorSyncedThrough cursor (foldedThrough (batch_events b))
  /\ no_split_revert b b'.
Proof.
  intros Hwf Hd. revert i. induction Hd as [|r a rest bs Hr Ha Hne Hst Hd IH]; [done|].
  rewrite !Forall_app in Hwf. destruct Hwf as (Hr' & Ha' & Hrest).
  intros [|i] Hb Hb'; [|by eapply IH]. injection Hb as <-. simpl in Hb'.
  inversion Hd as [|r2 a2 rest2 bs2 Hr2 Ha2 Hne2 Hst2 Hd2]; subst; [done|].
  simplify_eq/=. split.
  { simpl. destruct r2, a2; simpl; done. }
  intros e e' Hl Hh [He He']. simpl in *. destruct a as [|ga a] using rev_ind.
  - simpl in Hst. destruct r2 as [|g2 r2].
    + destruct a2 as [|g2 a2]; [done|]. simpl in *. apply head_group_events in Hh.
      * apply Forall_cons in Ha2 as [? _]. congruence.
      * by apply Forall_cons in Hrest as [? _].
    + simpl in Hst. apply Forall_cons in Hr2 as [? _]. congruence.
  - rewrite app_assoc, group_events_app, last_app in Hl.
    destruct (last (group_events [ga])) as [x|] eqn:Hx.
    + simplify_eq. apply Forall_app in Ha as [_ Hga]. apply Forall_app in Ha' as [_ Hga'].
      apply last_group_events in Hx; [congruence|done..].
    + apply last_None in Hx. apply Forall_app in Ha' as [_ Hga'].
      by eapply group_events_nonempty in Hx.
Qed.

(** Cutting a generated stream into [process()] calls loses and reorders
    nothing; every call reverts and then applies; a run of retractions is never
    split over two calls, whatever the batch size; every call but the last
    carries the cursor narrowed to what it folded, and the last one carries the
    stream's own cursor. *)
Theorem batchStreamForDelivery_cut (stream : list LogEvent) (cursor : LastSync) (batchSize : Z) :
  1 <= batchSize ->
  let batches := batchStreamForDelivery stream cursor batchSize in
  concat (batch_events <$> batches) = stream
  /\ Forall revert_then_apply batches
  /\ (forall b, last batches = Some b -> batch_lastSync b = cursor)
  /\ (forall i b b', batches !! i = Some b -> batches !! S i = Some b' ->
        batch_lastSync b = cursorSyncedThrough cursor (foldedThrough (batch_events b))
        /\ no_split_revert b b').
Proof.
  intros Hn batches. pose proof (groupStream_wf stream) as Hwf.
  assert (delivered cursor (groupStreamPerBlock stream) batches) as Hd
    by (apply batchLoop_delivered; [done|done|lia]).
  split_and!.
  - rewrite (delivered_events _ _ _ Hd). destruct stream; [done|]. apply groupRuns_events.
  - by eapply delivered_shape.
  - intros b. by eapply delivered_last.
  - intros i b b'. by eapply delivered_next.
Qed.

Lemma batchStreamForDelivery_cut_witness :
  let stream := retractions_of [sample_block 2 "a2"; sample_block 3 "a3"]
                ++ events_of [sample_block 2 "b2"; sample_block 3 "b3"] in
  let batches := batchStreamForDelivery stream (mkSync (mkContext [] "" "") 9 0 5 []) 1 in
  1 <= 1 /\ length batches = 3%nat /\ concat (batch_events <$> batches) = stream.
Proof. split_and!; [lia|by vm_compute|]. apply batchStreamForDelivery_cut. lia. Defined.

(** ** Where a fold reads from next *)
Lemma getFromBlock_synced s d f :
  latestBlock s <> 0 ->
  getFromBlock s d f = Z.max (Z.min (lastToBlock s + 1) (latestBlock s - f)) d.
Proof. intros. unfold getFromBlock. by rewrite decide_False. Qed.

(** The block a fold reads from next: the source's own first block as long as no
    tip was ever observed; otherwise a block at or above that first one is re-read
    exactly when the fold has not synced it, or when it is still within the
    finality distance of the observed tip.  Nothing is skipped, and the whole
    window a reorg may reach is read again. *)
Theorem getFromBlock_bounds (lastSync : LastSync) (defaultFromBlock finality : Z) :
  let from := getFromBlock lastSync defaultFromBlock finality in
  if decide (latestBlock lastSync = 0) then from = defaultFromBlock
  else defaultFromBlock <= from
    /\ forall n, from <= n <->
         defaultFromBlock <= n /\ (lastToBlock lastSync < n \/ latestBlock lastSync - n <= finality).
Proof. unfold getFromBlock. case_decide; [done|]. split; [|intros n]; lia. Qed.

Lemma getFromBlock_le_next s d f :
  d <= lastToBlock s + 1 -> getFromBlock s d f <= lastToBlock s + 1.
Proof. unfold getFromBlock. case_decide; lia. Qed.

Lemma getFromBlock_window s d f n :
  latestBlock s <> 0 -> latestBlock s - n <= f -> d <= n -> getFromBlock s d f <= n.
Proof. intros. rewrite getFromBlock_synced by done. lia. Qed.

Lemma foldl_earliestStart cs low :
  0 <= low -> Forall (fun c => 0 <= default 0 (contract_startBlock c)) cs ->
  exists n, foldl earliestStart (Some low) cs = Some n /\ 0 <= n /\ n <= low
    /\ Forall (fun c => n <= default 0 (contract_startBlock c)) cs
    /\ (n = low \/ exists c, c ∈ cs /\ n = default 0 (contract_startBlock c)).
Proof.
  revert low. induction cs as [|c cs IH]; intros low Hlow Hcs; simpl.
  { exists low. split_and!; [done|lia|lia|constructor|by left]. }
  apply Forall_cons in Hcs as [Hc Hcs].
  assert (exists low', earliestStart (Some low) c = Some low' /\ 0 <= low' /\ low' <= low
    /\ low' <= default 0 (contract_startBlock c)
    /\ (low' = low \/ low' = default 0 (contract_startBlock c))) as (low' & -> & ? & ? & ? & Hor).
  { unfold earliestStart. destruct (contract_startBlock c) as [s|]; simpl in *.
    - repeat case_decide; subst; eexists; split_and!; try done; try lia; auto.
    - eexists; split_and!; try done; lia || auto. }
  destruct (IH low') as (n & -> & ? & ? & Hall & Hwit); [done|done|].
  exists n. split_and!; [done|done|lia| |].
  - constructor; [lia|done].
  - destruct Hwit as [->|(c' & ? & ?)].
    + destruct Hor as [->| ->]; [by left|right; exists c]. split; [left|done].
    + right. exists c'. split; [by right|done].
Qed.

Lemma earliestStart_first c :
  earliestStart None c = Some (default 0 (contract_startBlock c)).
Proof.
  unfold earliestStart. destruct (contract_startBlock c) as [s|]; simpl; [|done].
  by case_decide; subst.
Qed.

(** The default first block of a source is the lowest start block its contracts
    declare, where an undeclared one counts as block 0; a source with no
    contract starts at 0. *)
Theorem defaultFromBlockOf_least (contracts : list ContractData) :
  Forall (fun c => 0 <= default 0 (contract_startBlock c)) contracts ->
  let first := defaultFromBlockOf (ContractList contracts) in
  Forall (fun c => first <= default 0 (contract_startBlock c)) contracts
  /\ (contracts = [] /\ first = 0
      \/ exists c, c ∈ contracts /\ first = default 0 (contract_startBlock c)).
Proof.
  simpl. destruct contracts as [|c cs]; [split; [constructor|by left]|].
  intros [Hc Hcs]%Forall_cons. simpl. rewrite earliestStart_first.
  destruct (foldl_earliestStart cs _ Hc Hcs) as (n & -> & ? & ? & Hall & Hwit). simpl.
  split; [by constructor|]. right.
  destruct Hwit as [->|(c' & ? & ?)]; [exists c|exists c']; split; try done; by constructor.
Qed.

Lemma defaultFromBlockOf_least_witness :
  let contracts := [mkContract "0xa" (Some 7); mkContract "0xb" (Some 3); mkContract "0xc" (Some 5)] in
  let first := defaultFromBlockOf (ContractList contracts) in
  first = 3 /\ Forall (fun c => first <= default 0 (contract_startBlock c)) contracts.
Proof. split; [done|]. apply defaultFromBlockOf_least. repeat constructor; simpl; lia. Defined.

(** ** The payload checks *)
Lemma assertAscendingFrom_ok p logs :
  assertAscendingFrom p logs = Ok tt <-> Forall (fun e => p <= blockNumber e) logs
    /\ StronglySorted (fun a b => blockNumber a <= blockNumber b) logs.
Proof.
  revert p. induction logs as [|e logs IH]; intros p; simpl.
  { split; [split; constructor|done]. }
  rewrite StronglySorted_cons, Forall_cons. case_decide as Hlt.
  - split; [done|]. intros [[? _] _]. lia.
  - rewrite IH. split; [intros [? ?]|tauto].
    split_and!; try done; [lia|]. eapply Forall_impl; [done|]. simpl. lia.
Qed.

Lemma assertAscendingByBlock_ok logs :
  assertAscendingByBlock logs = Ok tt <->
  StronglySorted (fun a b => blockNumber a <= blockNumber b) logs.
Proof.
  destruct logs as [|e logs]; simpl; [split; [constructor|done]|].
  rewrite assertAscendingFrom_ok, StronglySorted_cons. tauto.
Qed.

Lemma assertLogsCarryTimestamps_ok logs :
  assertLogsCarryTimestamps logs = Ok tt <-> Forall (fun e => is_Some (blockTimestamp e)) logs.
Proof.
  induction logs as [|e logs IH]; simpl; [split; [constructor|done]|].
  rewrite Forall_cons. destruct (blockTimestamp e).
  - rewrite IH. split; [by split|tauto].
  - split; [done|]. intros [[? [=]] _].
Qed.
