(* ===== verification/Reorg.v ===== *)
(** * Shaping a fetch into the stream to append

    [generateStreamToAppend] of [packages/core/src/internal/engine/utils.ts]:
    the reorg walk over the unconfirmed window, the retractions it derives, the
    blocks it delivers and the window it carries forward.  The second half is
    the honest cycle: a complete fetch from a node whose chain forked no deeper
    than the finality distance brings the fold onto the node's chain. *)
From S2P Require Import Prelude Types Stream.

(** ** [windowKeyOf] *)
Definition windowKeyOf (number : Z) (hash : string) : string :=
  pretty number +:+ ":" +:+ hash.

(** ** [generateStreamToAppend] *)

(** The options object of the call. *)
Record FetchBounds : Type := mkBounds {
  newLatestBlock : Z;
  newLastFromBlock : Z;
  newLastToBlock : Z;
  finality : Z
}.

Record Appended : Type := mkAppended {
  eventStream : list LogEvent;
  newLastSync : LastSync;
  reorg : option ReorgDetection
}.

(** [newBlockHashPerNumber]: a later block of the payload overwrites an earlier
    one at its height. *)
Definition newBlockHashPerNumber (blocks : list EventBlock) : gmap Z string :=
  foldl (fun m block => <[number block := hash block]> m) ∅ blocks.

(** The reorg walk: the contradicted block with its cause, and
    [reorgedBlockIndex]. *)
Fixpoint findReorg (hashAt : gmap Z string) (from to : Z) (window : list EventBlock) (i : nat)
    : option (EventBlock * ReorgCause) * nat :=
  match window with
  | [] => (None, i)
  | unconfirmedBlock :: rest =>
      if decide (number unconfirmedBlock < from \/ to < number unconfirmedBlock)
      then findReorg hashAt from to rest (S i)
      else
        match hashAt !! number unconfirmedBlock with
        | None => (Some (unconfirmedBlock, absence), i)
        | Some newHash =>
            if decide (newHash = hash unconfirmedBlock)
            then findReorg hashAt from to rest (S i)
            else (Some (unconfirmedBlock, contradiction), i)
        end
  end.

(** [block.events.length > 0 && !retained.has(windowKeyOf(...))] *)
Definition isNewBlock (retained : gset string) (block : EventBlock) : bool :=
  bool_decide (events block <> [] /\ windowKeyOf (number block) (hash block) ∉ retained).

Definition generateStreamToAppend (lastSync : LastSync) (defaultFromBlock : Z)
    (newEvents : list LogEvent) (bounds : FetchBounds) : result EngineError Appended :=
  let expectedFromBlock := getFromBlock lastSync defaultFromBlock (finality bounds) in
  if decide (newLastFromBlock bounds <> expectedFromBlock)
  then Err (UnexpectedFromBlockError expectedFromBlock (newLastFromBlock bounds))
  else
    let groups := groupLogsPerBlock newEvents in
    let window := unconfirmedBlocks lastSync in
    let '(found, reorgedBlockIndex) :=
      findReorg (newBlockHashPerNumber groups) (newLastFromBlock bounds) (newLastToBlock bounds)
        window 0 in
    let retractions :=
      match found with
      | Some _ => retractions_of (drop reorgedBlockIndex window)
      | None => []
      end in
    let retainedBlocks := take reorgedBlockIndex window in
    let retained : gset string :=
      list_to_set ((fun b => windowKeyOf (number b) (hash b)) <$> retainedBlocks) in
    let carried :=
      filter (fun b => newLastToBlock bounds - number b <= finality bounds) retainedBlocks in
    let delivered := filter (fun b => isNewBlock retained b = true) groups in
    let entering :=
      filter (fun b => newLatestBlock bounds - number b <= finality bounds) delivered in
    Ok (mkAppended
          (retractions ++ events_of delivered)
          (mkSync (context lastSync) (newLatestBlock bounds) (newLastFromBlock bounds)
             (newLastToBlock bounds) (sort_on number (carried ++ entering)))
          ((fun '(b, c) => mkReorg c (number b) (hash b)) <$> found)).

(** ** The walk *)
Lemma windowKeyOf_inj n h n' h' :
  windowKeyOf n h = windowKeyOf n' h' -> n = n' /\ h = h'.
Proof.
  intros Heq. apply separator_inj in Heq as [?%(inj pretty) ?]; [done|..];
    apply pretty_Z_free; try done; intros d; unfold pretty_N_char; repeat case_match; done.
Qed.

Lemma newBlockHashPerNumber_spec bs (m : gmap Z string) n h :
  ascending number bs ->
  foldl (fun (m : gmap Z string) block => <[number block := hash block]> m) m bs !! n = Some h <->
  (exists b, b ∈ bs /\ number b = n /\ hash b = h)
  \/ (Forall (fun b => number b <> n) bs /\ m !! n = Some h).
Proof.
  revert m. induction bs as [|b bs IH]; intros m Hs; simpl.
  { split; [by right|]. intros [(b & []%not_elem_of_nil & _)|[_ ?]]. done. }
  apply StronglySorted_inv in Hs as [Hs Hb]. rewrite IH, Forall_cons by done.
  rewrite Forall_forall in Hb. split.
  - intros [(b' & ? & ? & ?)|[Hall Hm]].
    + left. exists b'. split; [by right|done].
    + destruct (decide (number b = n)) as [<-|Hne].
      * rewrite lookup_insert_eq in Hm. injection Hm as <-. left. exists b. split; [left|done].
      * rewrite lookup_insert_ne in Hm by done. by right.
  - intros [(b' & [->|Hin]%elem_of_cons & <- & <-)|[[Hne Hall] Hm]].
    + right. split; [|by rewrite lookup_insert_eq].
      apply Forall_forall. intros x Hx. apply Hb in Hx. lia.
    + left. by exists b'.
    + right. split; [done|]. by rewrite lookup_insert_ne.
Qed.

Lemma newBlockHashPerNumber_Some bs n h :
  ascending number bs ->
  newBlockHashPerNumber bs !! n = Some h <-> exists b, b ∈ bs /\ number b = n /\ hash b = h.
Proof.
  intros Hs. unfold newBlockHashPerNumber. rewrite newBlockHashPerNumber_spec by done.
  rewrite lookup_empty. split; [intros [Hin|[_ [=]]]; exact Hin|by left].
Qed.

(** A window block the payload does not contradict: outside the range, or
    present under its own hash. *)
Definition uncontradicted (hashAt : gmap Z string) (from to : Z) (b : EventBlock) : Prop :=
  number b < from \/ to < number b \/ hashAt !! number b = Some (hash b).

Lemma findReorg_skip hashAt from to pre rest i :
  Forall (uncontradicted hashAt from to) pre ->
  findReorg hashAt from to (pre ++ rest) i = findReorg hashAt from to rest (i + length pre).
Proof.
  intros Hpre. revert i. induction Hpre as [|b pre Hb Hpre IH]; intros i; simpl.
  { by rewrite Nat.add_0_r. }
  replace (i + S (length pre))%nat with (S i + length pre)%nat by lia.
  case_decide; [done|]. destruct Hb as [?|[?|Hb]]; [lia|lia|].
  by rewrite Hb, decide_True.
Qed.

Definition causeOf (hashAt : gmap Z string) (b : EventBlock) : ReorgCause :=
  match hashAt !! number b with Some _ => contradiction | None => absence end.

Lemma findReorg_hit hashAt from to pre b rest :
  Forall (uncontradicted hashAt from to) pre -> ~ uncontradicted hashAt from to b ->
  findReorg hashAt from to (pre ++ b :: rest) 0 = (Some (b, causeOf hashAt b), length pre).
Proof.
  intros Hpre Hb. rewrite findReorg_skip by done. simpl. unfold uncontradicted, causeOf in *.
  rewrite decide_False by tauto.
  destruct (hashAt !! number b); [|done]. rewrite decide_False; [done|]. intros ->. tauto.
Qed.

Lemma findReorg_none hashAt from to window :
  Forall (uncontradicted hashAt from to) window ->
  findReorg hashAt from to window 0 = (None, length window).
Proof. intros Hw. rewrite <- (app_nil_r window), findReorg_skip, app_nil_r by done. done. Qed.

(** ** The honest cycle

    [H] is the list of event-bearing blocks the fold holds: what the emitted
    stream applied and did not take back.  It is specification state; the code
    keeps only the part of it still inside the unconfirmed window. *)
Record holds (defaultFromBlock finality : Z) (s : LastSync) (H : list EventBlock) : Prop := {
  holds_chain : chain_wf H;
  holds_window : unconfirmedBlocks s `sublist_of` H;
  holds_reach b : b ∈ H -> getFromBlock s defaultFromBlock finality <= number b ->
    b ∈ unconfirmedBlocks s
}.

(** The bounds of a cycle that takes a fold forward: it starts where the fold
    resumes, and the observed tip does not move back. *)
Record advancing (defaultFromBlock : Z) (s : LastSync) (bounds : FetchBounds) : Prop := {
  advancing_from : newLastFromBlock bounds = getFromBlock s defaultFromBlock (finality bounds);
  advancing_range : newLastFromBlock bounds <= newLastToBlock bounds <= newLatestBlock bounds;
  advancing_tip : 0 < newLatestBlock bounds /\ latestBlock s <= newLatestBlock bounds;
  advancing_finality : 0 <= finality bounds
}.

(** The block read from next never moves back, and what lies above it is within
    the finality distance of the range's end and of the tip, or above both. *)
Lemma advancing_next d s bounds s' n :
  advancing d s bounds ->
  latestBlock s' = newLatestBlock bounds -> lastToBlock s' = newLastToBlock bounds ->
  getFromBlock s' d (finality bounds) <= n ->
  newLastFromBlock bounds <= n /\ newLastToBlock bounds - n <= finality bounds
  /\ (n <= newLastToBlock bounds -> newLatestBlock bounds - n <= finality bounds).
Proof.
  intros [Hf Hr Ht Hfin] Hl Hto. rewrite (getFromBlock_synced s') by lia.
  rewrite Hl, Hto, Hf in *. unfold getFromBlock in *. case_decide; lia.
Qed.

(** A complete fetch, answered by a node whose chain is [P ++ N], of a fold that
    holds [P ++ D]: they agree on [P], the dead branch [D] and the new branch
    [N] share no hash, neither starts below the re-read range, and the range
    covers the height where the held blocks diverge. *)
Record honest_fetch (defaultFromBlock : Z) (s : LastSync) (bounds : FetchBounds)
    (P D N : list EventBlock) : Prop := {
  honest_advancing :> advancing defaultFromBlock s bounds;
  honest_chain : chain_wf (P ++ N);
  honest_fork x y : x ∈ D -> y ∈ N -> hash x <> hash y;
  honest_depth : Forall (fun b => newLastFromBlock bounds <= number b) (D ++ N);
  honest_covers x : head D = Some x -> number x <= newLastToBlock bounds
}.

(** The logs such a fetch returns. *)
Definition fetched_logs (bounds : FetchBounds) (chain : list EventBlock) : list LogEvent :=
  events_of (blocks_in (newLastFromBlock bounds) (newLastToBlock bounds) chain).

Definition upto (to : Z) (c : list EventBlock) : list EventBlock := filter (fun b => number b <= to) c.

(** What is left above a block. *)
Definition over (to : Z) (c : list EventBlock) : list EventBlock := filter (fun b => to < number b) c.

Lemma over_app to c c' : over to (c ++ c') = over to c ++ over to c'.
Proof. apply filter_app. Qed.

Lemma upto_sublist to c : upto to c `sublist_of` c.
Proof. apply sublist_filter. Qed.

Lemma over_sublist to c : over to c `sublist_of` c.
Proof. apply sublist_filter. Qed.

Lemma upto_over to c : ascending number c -> upto to c ++ over to c = c.
Proof.
  induction 1 as [|b c Hc IH Hb]; [done|]. unfold upto, over in *. rewrite !filter_cons.
  destruct (decide (number b <= to)), (decide (to < number b)); try lia; simpl; [by f_equal|].
  rewrite (filter_Forall_nil (fun x => number x <= to)), filter_Forall_id; [done|..].
  - eapply Forall_impl; [exact Hb|]. simpl. lia.
  - eapply Forall_impl; [exact Hb|]. simpl. lia.
Qed.

Section HonestCycle.
Context (defaultFromBlock : Z) (s : LastSync) (bounds : FetchBounds) (P D N : list EventBlock).
Hypothesis Hold : holds defaultFromBlock (finality bounds) s (P ++ D).
Hypothesis Hfetch : honest_fetch defaultFromBlock s bounds P D N.

Let from := newLastFromBlock bounds.
Let to := newLastToBlock bounds.
Let groups := blocks_in from to (P ++ N).

(** What is left of the window once the dead branch is cut off. *)
Lemma honest_window_split :
  exists WP, unconfirmedBlocks s = WP ++ D /\ WP `sublist_of` P.
Proof.
  destruct Hold as [Hc Hw Hr]. destruct (sublist_app_split _ _ _ Hw) as (WP & WD & Hsplit & HP & HD).
  exists WP. split; [|done]. rewrite Hsplit. f_equal.
  pose proof (chain_wf_NoDup _ Hc) as (_ & Hdisj & HndD)%NoDup_app.
  apply sublist_all_eq; [done|done|]. intros x Hx.
  assert (x ∈ unconfirmedBlocks s) as Hin.
  { apply Hr; [apply elem_of_app; by right|]. rewrite <- (advancing_from _ _ _ (honest_advancing _ _ _ _ _ _ Hfetch)).
    pose proof (honest_depth _ _ _ _ _ _ Hfetch) as Hd. rewrite Forall_forall in Hd.
    apply Hd, elem_of_app. by left. }
  rewrite Hsplit in Hin. apply elem_of_app in Hin as [Hin|]; [|done].
  destruct (Hdisj x); [|done]. by eapply elem_of_sublist.
Qed.

Lemma honest_groups : groupLogsPerBlock (fetched_logs bounds (P ++ N)) = groups.
Proof.
  destruct (chain_wf_sublist groups (P ++ N)) as [_ Hn Hb].
  - apply sublist_filter.
  - apply (honest_chain _ _ _ _ _ _ Hfetch).
  - by apply group_fetch.
Qed.

Lemma honest_hashAt_P b :
  b ∈ P -> uncontradicted (newBlockHashPerNumber groups) from to b.
Proof.
  intros Hb. unfold uncontradicted. destruct (decide (number b < from)); [by left|].
  destruct (decide (to < number b)); [by right; left|]. right; right.
  apply newBlockHashPerNumber_Some.
  - eapply ascending_sublist; [apply sublist_filter|]. apply (honest_chain _ _ _ _ _ _ Hfetch).
  - exists b. split_and!; [|done..]. apply elem_of_blocks_in. split; [lia|].
    apply elem_of_app. by left.
Qed.

Lemma honest_contradicted x D' :
  D = x :: D' -> ~ uncontradicted (newBlockHashPerNumber groups) from to x.
Proof.
  intros HD. pose proof (honest_depth _ _ _ _ _ _ Hfetch) as Hd.
  pose proof (honest_covers _ _ _ _ _ _ Hfetch x) as Hcov.
  assert (x ∈ D) as HxD by (rewrite HD; by left).
  rewrite Forall_forall in Hd. specialize (Hd x (proj2 (elem_of_app _ _ _) (or_introl HxD))).
  rewrite HD in Hcov. specialize (Hcov eq_refl).
  intros [?|[?|Hat]]; [lia|lia|].
  apply newBlockHashPerNumber_Some in Hat as (y & Hy & Hn & Hh).
  2:{ eapply ascending_sublist; [apply sublist_filter|]. apply (honest_chain _ _ _ _ _ _ Hfetch). }
  apply elem_of_blocks_in in Hy as [_ [Hy|Hy]%elem_of_app].
  - pose proof (holds_chain _ _ _ _ Hold) as [Ha _ _].
    apply ascending_app in Ha as (Hlt & _ & _). specialize (Hlt y x Hy HxD). lia.
  - by apply (honest_fork _ _ _ _ _ _ Hfetch x y).
Qed.

Definition honest_found : option (EventBlock * ReorgCause) :=
  match D with
  | [] => None
  | x :: _ => Some (x, causeOf (newBlockHashPerNumber groups) x)
  end.

Lemma honest_walk WP :
  unconfirmedBlocks s = WP ++ D -> WP `sublist_of` P ->
  findReorg (newBlockHashPerNumber groups) from to (unconfirmedBlocks s) 0 = (honest_found, length WP).
Proof.
  intros -> Hsub. assert (Forall (uncontradicted (newBlockHashPerNumber groups) from to) WP) as HWP.
  { apply Forall_forall. intros b Hb. apply honest_hashAt_P. by eapply elem_of_sublist. }
  pose proof honest_contradicted as Hcon. unfold honest_found. clear Hold Hfetch Hsub.
  destruct D as [|x D'] eqn:HD.
  - rewrite app_nil_r. by apply findReorg_none.
  - apply findReorg_hit; [done|]. by eapply Hcon.
Qed.

(** The delivered blocks are exactly the new branch, as far as the range goes. *)
Lemma honest_delivered WP :
  WP `sublist_of` P -> unconfirmedBlocks s = WP ++ D ->
  filter (fun b => isNewBlock
    (list_to_set ((fun b => windowKeyOf (number b) (hash b)) <$> WP)) b = true) groups
  = upto to N.
Proof.
  intros HWP Hw. unfold groups. rewrite blocks_in_app, filter_app.
  pose proof (honest_chain _ _ _ _ _ _ Hfetch) as Hc.
  rewrite filter_Forall_nil; simpl.
  2:{ apply Forall_forall. intros b [Hin Hb]%elem_of_blocks_in. unfold isNewBlock.
      rewrite bool_decide_eq_true. intros [_ Hnew]. apply Hnew. apply elem_of_list_to_set.
      apply (list_elem_of_fmap_2 (fun b => windowKeyOf (number b) (hash b))).
      assert (b ∈ unconfirmedBlocks s) as HbW.
      { apply (holds_reach _ _ _ _ Hold); [apply elem_of_app; by left|].
        pose proof (advancing_from _ _ _ (honest_advancing _ _ _ _ _ _ Hfetch)). fold from in H. lia. }
      rewrite Hw in HbW. apply elem_of_app in HbW as [|HD]; [done|].
      pose proof (chain_wf_NoDup _ (holds_chain _ _ _ _ Hold)) as (_ & Hdis & _)%NoDup_app.
      by destruct (Hdis b). }
  rewrite filter_Forall_id.
  - unfold blocks_in, upto. apply filter_ext_in. intros b Hb.
    pose proof (honest_depth _ _ _ _ _ _ Hfetch) as Hd. rewrite Forall_forall in Hd.
    specialize (Hd b (proj2 (elem_of_app _ _ _) (or_intror Hb))). unfold from. lia.
  - apply Forall_forall. intros b [_ Hb]%elem_of_blocks_in. unfold isNewBlock.
    rewrite bool_decide_eq_true. split.
    + destruct Hc as [_ _ Hwf]. rewrite Forall_forall in Hwf.
      apply block_wf_nonempty, Hwf, elem_of_app. by right.
    + intros (y & [Hn Hh]%windowKeyOf_inj & Hy)%elem_of_list_to_set%list_elem_of_fmap.
      destruct Hc as [_ Hnd _]. rewrite fmap_app in Hnd.
      apply NoDup_app in Hnd as (_ & Hdis & _).
      apply (Hdis (hash y)); [|rewrite <- Hh]; apply list_elem_of_fmap_2; [|done].
      by eapply elem_of_sublist.
Qed.

Definition carried_window (WP : list EventBlock) : list EventBlock :=
  filter (fun b => to - number b <= finality bounds) WP
  ++ filter (fun b => newLatestBlock bounds - number b <= finality bounds) (upto to N).

Lemma honest_carried_sublist WP :
  WP `sublist_of` P -> carried_window WP `sublist_of` P ++ upto to N.
Proof. intros HWP. apply sublist_app; [|apply sublist_filter]. etrans; [apply sublist_filter|done]. Qed.

Lemma honest_new_chain : chain_wf (P ++ upto to N).
Proof.
  eapply chain_wf_sublist; [|apply (honest_chain _ _ _ _ _ _ Hfetch)].
  apply sublist_app; [done|apply sublist_filter].
Qed.

Lemma honest_sorted WP :
  WP `sublist_of` P -> sort_on number (carried_window WP) = carried_window WP.
Proof.
  intros HWP. apply sort_on_id, ascending_weaken. eapply ascending_sublist.
  - by apply honest_carried_sublist.
  - apply honest_new_chain.
Qed.

Lemma honest_holds WP s' :
  WP `sublist_of` P -> unconfirmedBlocks s = WP ++ D ->
  latestBlock s' = newLatestBlock bounds -> lastToBlock s' = to ->
  unconfirmedBlocks s' = carried_window WP ->
  holds defaultFromBlock (finality bounds) s' (P ++ upto to N).
Proof.
  intros HWP Hw Hl Ht Hu. split.
  - apply honest_new_chain.
  - rewrite Hu. by apply honest_carried_sublist.
  - intros b Hb Hge. rewrite Hu.
    destruct (advancing_next _ _ _ _ _ (honest_advancing _ _ _ _ _ _ Hfetch) Hl Ht Hge)
      as (Hadv & Hto & Htip).
    apply elem_of_app in Hb as [Hb|Hb]; apply elem_of_app; [left|right].
    + apply elem_of_filter_intro; [done|].
      assert (b ∈ unconfirmedBlocks s) as HbW.
      { apply (holds_reach _ _ _ _ Hold); [apply elem_of_app; by left|].
        by rewrite <- (advancing_from _ _ _ (honest_advancing _ _ _ _ _ _ Hfetch)). }
      rewrite Hw in HbW. apply elem_of_app in HbW as [|HD]; [done|].
      pose proof (chain_wf_NoDup _ (holds_chain _ _ _ _ Hold)) as (_ & Hdis & _)%NoDup_app.
      by destruct (Hdis b).
    + apply elem_of_filter_intro; [|done].
      apply list_elem_of_filter in Hb as [? _]. by apply Htip.
Qed.

Definition causeIn (x : EventBlock) : ReorgCause :=
  if decide (Exists (fun y => number y = number x) N) then contradiction else absence.

Lemma honest_cause x D' : D = x :: D' -> causeOf (newBlockHashPerNumber groups) x = causeIn x.
Proof.
  intros HD. assert (x ∈ D) as HxD by (rewrite HD; left).
  pose proof (honest_covers _ _ _ _ _ _ Hfetch x) as Hcov. rewrite HD in Hcov. specialize (Hcov eq_refl).
  pose proof (honest_depth _ _ _ _ _ _ Hfetch) as Hd. rewrite Forall_forall in Hd.
  specialize (Hd x (proj2 (elem_of_app _ _ _) (or_introl HxD))).
  assert (ascending number groups) as Hag.
  { eapply ascending_sublist; [apply sublist_filter|]. apply (honest_chain _ _ _ _ _ _ Hfetch). }
  unfold causeOf, causeIn. destruct (newBlockHashPerNumber groups !! number x) as [h|] eqn:Hat.
  - apply newBlockHashPerNumber_Some in Hat as (y & Hy & Hn & _); [|done].
    apply elem_of_blocks_in in Hy as [_ [Hy|Hy]%elem_of_app].
    + pose proof (holds_chain _ _ _ _ Hold) as [Ha _ _].
      apply ascending_app in Ha as (Hlt & _ & _). specialize (Hlt y x Hy HxD). lia.
    + rewrite decide_True; [done|]. apply Exists_exists. by exists y.
  - rewrite decide_False; [done|]. intros (y & Hy & Hn)%Exists_exists.
    assert (newBlockHashPerNumber groups !! number x = Some (hash y)) as Hsome; [|congruence].
    apply newBlockHashPerNumber_Some; [done|]. exists y. split_and!; [|done..].
    apply elem_of_blocks_in. split; [lia|]. apply elem_of_app. by right.
Qed.
End HonestCycle.

Lemma append_honest (d : Z) (s : LastSync) (bounds : FetchBounds)
    (P D N : list EventBlock) :
  holds d (finality bounds) s (P ++ D) -> honest_fetch d s bounds P D N ->
  exists a, generateStreamToAppend s d (fetched_logs bounds (P ++ N)) bounds = Ok a
    /\ eventStream a = retractions_of D ++ events_of (upto (newLastToBlock bounds) N)
    /\ reorg a = (fun x => mkReorg (causeIn N x) (number x) (hash x)) <$> head D
    /\ latestBlock (newLastSync a) = newLatestBlock bounds
    /\ lastToBlock (newLastSync a) = newLastToBlock bounds
    /\ context (newLastSync a) = context s
    /\ holds d (finality bounds) (newLastSync a) (P ++ upto (newLastToBlock bounds) N).
Proof.
  intros Hold Hfetch. destruct (honest_window_split _ _ _ _ _ _ Hold Hfetch) as (WP & Hw & HWP).
  unfold generateStreamToAppend.
  rewrite decide_False by (pose proof (advancing_from _ _ _ (honest_advancing _ _ _ _ _ _ Hfetch)); tauto).
  rewrite (honest_groups _ _ _ _ _ _ Hfetch), (honest_walk _ _ _ _ _ _ Hold Hfetch WP Hw HWP).
  rewrite Hw, take_app_length, drop_app_length.
  rewrite (honest_delivered _ _ _ _ _ _ Hold Hfetch WP HWP Hw).
  eexists. split; [done|]. cbn [eventStream reorg newLastSync latestBlock lastToBlock context].
  split_and!; try done.
  - unfold honest_found. by destruct D.
  - unfold honest_found. destruct D as [|x D']; [done|]. simpl. do 2 f_equal.
    by eapply (honest_cause _ _ _ _ _ _ Hold Hfetch).
  - eapply (honest_holds _ _ _ _ _ _ Hold Hfetch WP); try done.
    cbn [unconfirmedBlocks]. by apply (honest_sorted _ _ _ _ _ _ Hfetch).
Qed.

(** C8. A complete fetch from a node whose chain forked inside the re-read range
    retracts exactly the dead branch, delivers exactly the new branch as far as
    the range goes (nothing twice, nothing dropped, the gap under a sparse
    window included), reports the first dead block with the right cause, and
    leaves a cursor that again reaches every block a later fork may take back. *)
Theorem generateStreamToAppend_honest (d : Z) (s : LastSync) (bounds : FetchBounds)
    (P D N : list EventBlock) :
  holds d (finality bounds) s (P ++ D) -> honest_fetch d s bounds P D N ->
  exists a, generateStreamToAppend s d (fetched_logs bounds (P ++ N)) bounds = Ok a
    /\ eventStream a = retractions_of D ++ events_of (upto (newLastToBlock bounds) N)
    /\ reorg a = (fun x => mkReorg (causeIn N x) (number x) (hash x)) <$> head D
    /\ latestBlock (newLastSync a) = newLatestBlock bounds
    /\ lastToBlock (newLastSync a) = newLastToBlock bounds
    /\ context (newLastSync a) = context s
    /\ holds d (finality bounds) (newLastSync a) (P ++ upto (newLastToBlock bounds) N).
Proof. apply append_honest. Qed.

(** A fold that holds blocks 1 and 2, and a node whose chain forked at 2. *)
Definition sample_sync : LastSync :=
  mkSync (mkContext [] "cfg" "proc") 2 0 2 [sample_block 1 "a1"; sample_block 2 "a2"].
Definition sample_bounds : FetchBounds := mkBounds 3 0 3 10.

Lemma sample_holds : holds 0 10 sample_sync ([sample_block 1 "a1"] ++ [sample_block 2 "a2"]).
Proof. split; [evaluate|done|]. intros b Hb _. done. Qed.

Lemma sample_honest :
  honest_fetch 0 sample_sync sample_bounds [sample_block 1 "a1"] [sample_block 2 "a2"]
    [sample_block 2 "b2"; sample_block 3 "b3"].
Proof.
  split; [split; done|evaluate| |evaluate|].
  - intros x y Hx Hy. each_in Hx. each_in Hy; done.
  - by intros x [= <-].
Qed.

Lemma generateStreamToAppend_honest_witness :
  exists a, generateStreamToAppend sample_sync 0
      (fetched_logs sample_bounds [sample_block 1 "a1"; sample_block 2 "b2"; sample_block 3 "b3"]) sample_bounds = Ok a
    /\ eventStream a = retractions_of [sample_block 2 "a2"]
        ++ events_of (upto 3 [sample_block 2 "b2"; sample_block 3 "b3"]).
Proof.
  destruct (generateStreamToAppend_honest 0 sample_sync sample_bounds [sample_block 1 "a1"] [sample_block 2 "a2"]
    [sample_block 2 "b2"; sample_block 3 "b3"] sample_holds sample_honest) as (a & Ha & He & _).
  exists a. split; [exact Ha|exact He].
Defined.

(** ** The cursors a batch or a block is stored with *)

Lemma holds_through d f s H n :
  holds d f s H -> latestBlock s <> 0 -> holds d f (cursorSyncedThrough s n) (upto n H).
Proof.
  intros [Hc Hw Hr] Hl. split.
  - eapply chain_wf_sublist; [apply sublist_filter|done].
  - by apply sublist_filter_mono.
  - intros b [Hn Hb]%list_elem_of_filter Hge. apply elem_of_filter_intro; [done|]. apply Hr; [done|].
    rewrite !getFromBlock_synced in * by done. cbn [lastToBlock latestBlock cursorSyncedThrough] in Hge. lia.
Qed.

(** Narrowed to a block the fold has reached, a cursor is a cursor of the fold up
    to that block: a run that stops there resumes with nothing lost. *)
Theorem cursorSyncedThrough_holds d f s H n :
  holds d f s H -> latestBlock s <> 0 -> holds d f (cursorSyncedThrough s n) (upto n H).
Proof. apply holds_through. Qed.

Lemma cursorSyncedThrough_holds_witness :
  latestBlock sample_sync <> 0
  /\ holds 0 10 (cursorSyncedThrough sample_sync 1) (upto 1 [sample_block 1 "a1"; sample_block 2 "a2"]).
Proof. split; [done|]. apply (cursorSyncedThrough_holds 0 10 sample_sync _ 1 sample_holds). done. Defined.
