(* ===== verification/Replay.v ===== *)
(** * Replaying a stored stream

    [windowOfStoredStream] and [generateStreamFromReplay] of
    [packages/core/src/internal/engine/utils.ts], and the streams a fold emits:
    what a rebuild and a catch-up deliver, and why the window derived from the
    rows agrees with the one the live fold kept. *)
From S2P Require Import Prelude Types Stream Reorg.

(** ** The walk

    [live] is the [Map] keyed by block hash, [order] the array of first
    appearances.  The spread copies of the events are the events themselves. *)
Record Walk : Type := mkWalk {
  live : gmap string EventBlock;
  order : list string
}.

(** One turn of the loop of [windowOfStoredStream]. *)
Definition windowStep (w : Walk) (group : StreamGroup) : Walk :=
  let b := group_block group in
  if group_removed group then mkWalk (delete (hash b) (live w)) (order w)
  else if decide (is_Some (live w !! hash b)) then w
  else mkWalk (<[hash b := b]> (live w)) (order w ++ [hash b]).

(** The second loop: the live blocks in first-appearance order, each once, those
    within the finality distance of [coveredThrough]. *)
Fixpoint keptBlocks (live : gmap string EventBlock) (kept : gset string)
    (coveredThrough finality : Z) (order : list string) : list EventBlock :=
  match order with
  | [] => []
  | h :: rest =>
      match live !! h with
      | None => keptBlocks live kept coveredThrough finality rest
      | Some block =>
          if decide (h ∈ kept) then keptBlocks live kept coveredThrough finality rest
          else
            let others := keptBlocks live ({[h]} ∪ kept) coveredThrough finality rest in
            if decide (coveredThrough - number block <= finality) then block :: others else others
      end
  end.

Definition windowOfStoredStream (storedStream : list LogEvent) (coveredThrough finality : Z)
    : list EventBlock :=
  let w := foldl windowStep (mkWalk ∅ []) (groupStreamPerBlock storedStream) in
  sort_on number (keptBlocks (live w) ∅ coveredThrough finality (order w)).

(** ** [generateStreamFromReplay] *)

(** [groups] is the list from the current group's successor on. *)
Fixpoint retractedLater (h : string) (groups : list StreamGroup) : bool :=
  match groups with
  | [] => false
  | g :: rest => if decide (hash (group_block g) = h) then group_removed g else retractedLater h rest
  end.

(** The walk seeded from the cursor's own window: a hash listed twice keeps the
    later block. *)
Definition seedStep (w : Walk) (unconfirmedBlock : EventBlock) : Walk :=
  mkWalk (<[hash unconfirmedBlock := unconfirmedBlock]> (live w))
    (if decide (is_Some (live w !! hash unconfirmedBlock)) then order w
     else order w ++ [hash unconfirmedBlock]).

Fixpoint replayLoop (syncedTo : Z) (w : Walk) (eventStream : list LogEvent)
    (groups : list StreamGroup) : Walk * list LogEvent :=
  match groups with
  | [] => (w, eventStream)
  | group :: rest =>
      let b := group_block group in
      if group_removed group then
        match live w !! hash b with
        | None => replayLoop syncedTo w eventStream rest
        | Some _ =>
            replayLoop syncedTo (mkWalk (delete (hash b) (live w)) (order w))
              (eventStream ++ events b) rest
        end
      else
        match live w !! hash b with
        | Some _ => replayLoop syncedTo w eventStream rest
        | None =>
            if decide (number b <= syncedTo /\ retractedLater (hash b) rest = true)
            then replayLoop syncedTo w eventStream rest
            else
              replayLoop syncedTo (mkWalk (<[hash b := b]> (live w)) (order w ++ [hash b]))
                (eventStream ++ events b) rest
        end
  end.

Definition generateStreamFromReplay (lastSync : LastSync) (defaultFromBlock : Z)
    (storedStream : list LogEvent) (bounds : FetchBounds)
    : result EngineError (list LogEvent * LastSync) :=
  let expectedFromBlock := getFromBlock lastSync defaultFromBlock (finality bounds) in
  if decide (newLastFromBlock bounds <> expectedFromBlock)
  then Err (UnexpectedFromBlockError expectedFromBlock (newLastFromBlock bounds))
  else
    let seeded := foldl seedStep (mkWalk ∅ []) (unconfirmedBlocks lastSync) in
    let '(w, eventStream) :=
      replayLoop (lastToBlock lastSync) seeded [] (groupStreamPerBlock storedStream) in
    Ok (eventStream,
        mkSync (context lastSync) (newLatestBlock bounds) (newLastFromBlock bounds)
          (newLastToBlock bounds)
          (sort_on number
             (keptBlocks (live w) ∅ (newLastToBlock bounds) (finality bounds) (order w)))).

(** ** The streams a fold emits

    A cycle takes back a branch it holds, oldest block first, and applies the
    branch that replaces it.  [cycles from H0 gs H]: the groups [gs] are a run of
    such cycles, none reaching below [from], and they take a fold that holds
    [H0] to one that holds [H]. *)
Definition appliedGroup (b : EventBlock) : StreamGroup := mkGroup b false.

Definition retractedGroup (b : EventBlock) : StreamGroup :=
  mkGroup (mkBlock (hash b) (number b) (asRemoved <$> events b)) true.

Inductive cycles (from : Z) (H0 : list EventBlock) : list StreamGroup -> list EventBlock -> Prop :=
  | cycles_none : cycles from H0 [] H0
  | cycles_turn gs P D N :
      cycles from H0 gs (P ++ D) ->
      chain_wf (P ++ N) ->
      (forall x y, x ∈ D -> y ∈ N -> hash x <> hash y) ->
      Forall (fun b => from <= number b) (D ++ N) ->
      cycles from H0 (gs ++ (retractedGroup <$> D) ++ (appliedGroup <$> N)) (P ++ N).

Lemma cycles_chain from H0 gs H : chain_wf H0 -> cycles from H0 gs H -> chain_wf H.
Proof. by destruct 2. Qed.

Lemma chain_wf_nil : chain_wf [].
Proof. split; repeat constructor. Qed.

Lemma appliedGroup_wf b : block_wf b -> group_wf (appliedGroup b).
Proof.
  intros [Hne Hev]. split; simpl.
  - destruct (events b) as [|e es]; [done|]. apply Forall_cons in Hev as [(Hn & _) _]. by eexists _, _.
  - eapply Forall_impl; [exact Hev|]. intros e (_ & Hh & Hr). apply sameRun_true. by rewrite Hh, Hr.
Qed.

Lemma retractedGroup_wf b : block_wf b -> group_wf (retractedGroup b).
Proof.
  intros [Hne Hev]. split; simpl.
  - destruct (events b) as [|e es]; [done|]. apply Forall_cons in Hev as [(Hn & _) _]. by eexists _, _.
  - apply Forall_fmap. eapply Forall_impl; [exact Hev|]. intros e (_ & Hh & _). by apply sameRun_true.
Qed.

Lemma group_events_applied c : group_events (appliedGroup <$> c) = events_of c.
Proof. unfold group_events, events_of. by rewrite <- list_fmap_compose. Qed.

Lemma group_events_retracted c : group_events (retractedGroup <$> c) = retractions_of c.
Proof.
  induction c as [|b c IH]; [done|]. csimpl. rewrite group_events_cons, IH.
  unfold retractions_of. by rewrite events_of_cons, fmap_app.
Qed.

Lemma cycles_wf from H0 gs H : chain_wf H0 -> cycles from H0 gs H -> Forall group_wf gs.
Proof.
  intros H0wf. induction 1 as [|gs P D N Hc IH Hwf Hdis Hlow]; [constructor|].
  pose proof (chain_wf_blocks _ (cycles_chain _ _ _ _ H0wf Hc)) as [_ HD]%Forall_app.
  pose proof (chain_wf_blocks _ Hwf) as [_ HN]%Forall_app.
  rewrite !Forall_app, !Forall_fmap. split_and!; [done|..]; (eapply Forall_impl; [eassumption|]);
    auto using appliedGroup_wf, retractedGroup_wf.
Qed.

(** The last group of a stream tells whether its block is held. *)
Lemma cycles_last from H0 gs H g :
  chain_wf H0 -> cycles from H0 gs H -> last gs = Some g ->
  if group_removed g then hash (group_block g) ∉ hash <$> H else hash (group_block g) ∈ hash <$> H.
Proof.
  intros H0wf. induction 1 as [|gs P D N Hc IH Hwf Hdis Hlow]; [done|].
  rewrite !last_app, !fmap_last. destruct (last N) as [n|] eqn:Hn; simpl.
  { intros [= <-]. simpl. apply list_elem_of_fmap_2, elem_of_app. right. by apply last_Some_elem_of. }
  apply last_None in Hn as ->. rewrite app_nil_r in *. destruct (last D) as [x|] eqn:Hx; simpl.
  - intros [= <-]. simpl. pose proof (chain_wf_hashes _ (cycles_chain _ _ _ _ H0wf Hc)) as Hnd.
    rewrite fmap_app in Hnd. apply NoDup_app in Hnd as (_ & Hd & _).
    intros HP. apply (Hd (hash x)); [done|]. apply list_elem_of_fmap_2. by apply last_Some_elem_of.
  - apply last_None in Hx as ->. by rewrite app_nil_r in IH.
Qed.

Lemma Sorted_app_boundary {A} (R : relation A) (l k : list A) :
  Sorted R l -> Sorted R k -> (forall x y, last l = Some x -> head k = Some y -> R x y) ->
  Sorted R (l ++ k).
Proof.
  intros Hl Hk Hb. induction Hl as [|x l Hl IH Hx]; [done|]. simpl. constructor.
  - apply IH. intros y z Hy. apply Hb. destruct l; done.
  - destruct l as [|y l]; simpl.
    + destruct k as [|y k]; constructor. by apply Hb.
    + inversion Hx. by constructor.
Qed.

Lemma boundary_distinct_hashes (f : EventBlock -> StreamGroup) c :
  (forall b, hash (group_block (f b)) = hash b) ->
  NoDup (hash <$> c) -> Sorted run_boundary (f <$> c).
Proof.
  intros Hf. induction c as [|b c IH]; intros Hnd; csimpl; [constructor|].
  apply NoDup_cons in Hnd as [Hb Hnd]. constructor; [auto|].
  destruct c as [|b' c]; csimpl; constructor. intros [Heq _]. rewrite !Hf in Heq.
  apply Hb. csimpl. rewrite Heq. left.
Qed.

Lemma cycles_boundaries from H0 gs H : chain_wf H0 -> cycles from H0 gs H -> Sorted run_boundary gs.
Proof.
  intros H0wf. induction 1 as [|gs P D N Hc IH Hwf Hdis Hlow]; [constructor|].
  pose proof (chain_wf_hashes _ (cycles_chain _ _ _ _ H0wf Hc)) as HndD.
  pose proof (chain_wf_hashes _ Hwf) as HndN. rewrite fmap_app in HndD, HndN.
  apply NoDup_app in HndD as (_ & HPD & HndD), HndN as (_ & HPN & HndN).
  apply Sorted_app_boundary; [done| |].
  { apply Sorted_app_boundary; try (by apply boundary_distinct_hashes).
    intros x y Hx Hy. rewrite fmap_last in Hx. rewrite head_fmap in Hy.
    apply fmap_Some in Hx as (d & _ & ->), Hy as (n & _ & ->). by intros [_ ?]. }
  intros g y Hg Hy [Hh Hr]. pose proof (cycles_last _ _ _ _ _ H0wf Hc Hg) as Hlast.
  destruct D as [|d D]; csimpl in Hy.
  - rewrite head_fmap in Hy. apply fmap_Some in Hy as (n & Hn & ->). simpl in *.
    rewrite Hr, app_nil_r, Hh in Hlast. apply (HPN _ Hlast), list_elem_of_fmap_2.
    by apply head_Some_elem_of.
  - injection Hy as <-. simpl in *. rewrite Hr, Hh in Hlast. apply Hlast.
    apply list_elem_of_fmap_2, elem_of_app. right. left.
Qed.

(** Splitting an emitted stream into runs recovers the cycles' own groups. *)
Lemma cycles_groups from H0 gs H :
  chain_wf H0 -> cycles from H0 gs H -> groupStreamPerBlock (group_events gs) = gs.
Proof. intros H0wf Hc. apply groupStream_roundtrip; eauto using cycles_wf, cycles_boundaries. Qed.

(** ** What the walk holds *)
Record walk_holds (w : Walk) (H : list EventBlock) : Prop := {
  walk_live h b : live w !! h = Some b <-> b ∈ H /\ hash b = h;
  walk_order b : b ∈ H -> hash b ∈ order w
}.

Lemma walk_holds_empty : walk_holds (mkWalk ∅ []) [].
Proof.
  split; simpl.
  - intros h b. rewrite lookup_empty. split; [done|]. by intros [?%not_elem_of_nil _].
  - by intros b ?%not_elem_of_nil.
Qed.

Lemma walk_live_None w H h : walk_holds w H -> h ∉ hash <$> H -> live w !! h = None.
Proof.
  intros Hw Hh. apply eq_None_not_Some. intros [b Hb]. apply (walk_live _ _ Hw) in Hb as [Hb <-].
  by apply Hh, list_elem_of_fmap_2.
Qed.

Lemma walk_live_Some w H b : walk_holds w H -> b ∈ H -> live w !! hash b = Some b.
Proof. intros Hw Hb. by apply (walk_live _ _ Hw). Qed.

Lemma walk_delete w P b D :
  walk_holds w (P ++ b :: D) -> NoDup (hash <$> P ++ b :: D) ->
  walk_holds (mkWalk (delete (hash b) (live w)) (order w)) (P ++ D).
Proof.
  intros Hw Hnd. rewrite <- Permutation_middle in Hnd. csimpl in Hnd.
  apply NoDup_cons in Hnd as [Hb _]. split; simpl.
  - intros h x. rewrite lookup_delete_Some, (walk_live _ _ Hw).
    rewrite <- Permutation_middle, elem_of_cons. split.
    + intros (Hne & [->|Hx] & Hh); [congruence|done].
    + intros [Hx <-]. split_and!; [|by right|done]. intros Heq. apply Hb.
      rewrite Heq. by apply list_elem_of_fmap_2.
  - intros x Hx. apply (walk_order _ _ Hw). rewrite <- Permutation_middle. by right.
Qed.

Lemma walk_insert w H b :
  walk_holds w H -> hash b ∉ hash <$> H ->
  walk_holds (mkWalk (<[hash b := b]> (live w)) (order w ++ [hash b])) (H ++ [b]).
Proof.
  intros Hw Hb. split; simpl.
  - intros h x. rewrite lookup_insert_Some, (walk_live _ _ Hw), elem_of_app, list_elem_of_singleton.
    split; [intros [[<- ->]|(? & ? & ?)]; auto|]. intros [[Hx| ->] <-]; [|by left]. right. split_and!; [|done..].
    intros Heq. apply Hb. rewrite Heq. by apply list_elem_of_fmap_2.
  - intros x [Hx| ->%list_elem_of_singleton]%elem_of_app; apply elem_of_app.
    + left. by apply (walk_order _ _ Hw).
    + right. by apply list_elem_of_singleton.
Qed.

Lemma windowStep_retract w P D :
  walk_holds w (P ++ D) -> NoDup (hash <$> P ++ D) ->
  walk_holds (foldl windowStep w (retractedGroup <$> D)) P.
Proof.
  revert w. induction D as [|b D IH]; intros w Hw Hnd; csimpl; [by rewrite app_nil_r in Hw|].
  apply IH; [by apply (walk_delete w P b D)|].
  rewrite <- Permutation_middle in Hnd. csimpl in Hnd. by apply NoDup_cons in Hnd as [_ ?].
Qed.

Lemma windowStep_apply w H N :
  walk_holds w H -> NoDup (hash <$> H ++ N) ->
  walk_holds (foldl windowStep w (appliedGroup <$> N)) (H ++ N).
Proof.
  revert w H. induction N as [|b N IH]; intros w H Hw Hnd; csimpl; [by rewrite app_nil_r|].
  assert (hash b ∉ hash <$> H) as Hb.
  { rewrite <- Permutation_middle in Hnd. csimpl in Hnd. apply NoDup_cons in Hnd as [Hnd _].
    rewrite fmap_app, elem_of_app in Hnd. tauto. }
  rewrite cons_middle, app_assoc in *. apply IH; [|done].
  unfold windowStep. simpl. rewrite decide_False; [by apply walk_insert|].
  rewrite (walk_live_None _ _ _ Hw Hb). by intros [? [=]].
Qed.

Lemma cycles_walk from H0 gs H w :
  chain_wf H0 -> cycles from H0 gs H -> walk_holds w H0 ->
  walk_holds (foldl windowStep w gs) H.
Proof.
  intros H0wf. induction 1 as [|gs P D N Hc IH Hwf Hdis Hlow]; intros Hw; [done|].
  rewrite !foldl_app. apply windowStep_apply; [|by apply Hwf].
  apply windowStep_retract; [by apply IH|]. by apply (cycles_chain _ _ _ _ H0wf Hc).
Qed.

(** ** The blocks the walk keeps *)
Lemma elem_of_keptBlocks lv kept c f ord b :
  (forall h x, lv !! h = Some x -> hash x = h) ->
  b ∈ keptBlocks lv kept c f ord <->
  lv !! hash b = Some b /\ hash b ∈ ord /\ (hash b ∉ kept) /\ c - number b <= f.
Proof.
  intros Hlv. revert kept. induction ord as [|h ord IH]; intros kept; simpl.
  { split; [by intros ?%not_elem_of_nil|]. by intros (_ & ?%not_elem_of_nil & _). }
  destruct (lv !! h) as [x|] eqn:Hx.
  2:{ rewrite IH, elem_of_cons. split; [tauto|]. intros (Hb & [<-|?] & ?); [congruence|tauto]. }
  pose proof (Hlv _ _ Hx) as <-.
  destruct (decide (hash x ∈ kept)).
  { rewrite IH, elem_of_cons. split; [tauto|]. intros (Hb & [Heq|?] & ?); [|tauto].
    rewrite Heq in *. tauto. }
  case_decide as Hf; rewrite ?elem_of_cons, IH, ?not_elem_of_union, ?not_elem_of_singleton.
  - split; [intros [->|(?&?&[??]&?)]; auto|].
    intros (Hb & Ho & Hk & Hc). destruct (decide (hash b = hash x)) as [Heq|]; [|tauto].
    left. congruence.
  - split; [tauto|]. intros (Hb & Ho & Hk & Hc).
    destruct (decide (hash b = hash x)) as [Heq|]; [|tauto]. rewrite Heq in Hb.
    assert (b = x) as -> by congruence. tauto.
Qed.

Lemma NoDup_keptBlocks lv kept c f ord :
  (forall h x, lv !! h = Some x -> hash x = h) -> NoDup (keptBlocks lv kept c f ord).
Proof.
  intros Hlv. revert kept. induction ord as [|h ord IH]; intros kept; simpl; [constructor|].
  destruct (lv !! h) as [x|] eqn:Hx; [|auto].
  case_decide; [auto|]. case_decide; [|auto]. constructor; [|auto].
  rewrite elem_of_keptBlocks by done. rewrite (Hlv _ _ Hx). intros (_ & _ & Hk & _).
  apply Hk, elem_of_union. left. by apply elem_of_singleton.
Qed.

Definition within (coveredThrough finality : Z) (c : list EventBlock) : list EventBlock :=
  filter (fun b => coveredThrough - number b <= finality) c.

Lemma walk_kept w H c f :
  walk_holds w H -> chain_wf H ->
  sort_on number (keptBlocks (live w) ∅ c f (order w)) = within c f H.
Proof.
  intros Hw Hc. assert (forall h x, live w !! h = Some x -> hash x = h) as Hlv.
  { intros h x Hx. by apply (walk_live _ _ Hw) in Hx as [_ ?]. }
  apply sort_on_unique.
  - apply NoDup_Permutation.
    + by apply NoDup_keptBlocks.
    + eapply sublist_NoDup; [by apply chain_wf_NoDup|]. apply sublist_filter.
    + intros b. rewrite elem_of_keptBlocks by done. unfold within. rewrite list_elem_of_filter.
      rewrite (walk_live _ _ Hw). split; [tauto|]. intros [? Hb].
      pose proof (walk_order _ _ Hw b Hb). pose proof (not_elem_of_empty (C:=gset string) (hash b)). tauto.
  - eapply ascending_sublist; [apply sublist_filter|]. apply Hc.
Qed.

Lemma window_of_cycles (from : Z) (gs : list StreamGroup)
    (H : list EventBlock) (coveredThrough finality : Z) :
  cycles from [] gs H ->
  windowOfStoredStream (group_events gs) coveredThrough finality = within coveredThrough finality H.
Proof.
  intros Hc. unfold windowOfStoredStream. rewrite (cycles_groups _ _ _ _ chain_wf_nil Hc).
  apply walk_kept; [|eapply cycles_chain; [apply chain_wf_nil|exact Hc]].
  eapply cycles_walk; [apply chain_wf_nil|done|apply walk_holds_empty].
Qed.

(** The window rebuilt by walking the rows of an emitted stream is the part of
    the blocks the stream leaves applied that is within the finality distance of
    its coverage: one entry per live block, no dead branch, ascending. *)
Theorem windowOfStoredStream_live (from : Z) (gs : list StreamGroup)
    (H : list EventBlock) (coveredThrough finality : Z) :
  cycles from [] gs H ->
  windowOfStoredStream (group_events gs) coveredThrough finality = within coveredThrough finality H.
Proof. apply window_of_cycles. Qed.

(** ** What a replay delivers *)

(** A block at or below what the fold has settled is never applied and then
    taken back inside the walk. *)
Fixpoint nothing_reread (syncedTo : Z) (groups : list StreamGroup) : Prop :=
  match groups with
  | [] => True
  | g :: rest =>
      (group_removed g = false ->
        syncedTo < number (group_block g) \/ retractedLater (hash (group_block g)) rest = false)
      /\ nothing_reread syncedTo rest
  end.

(** The walk without its lookahead. *)
Definition replayStep (st : Walk * list LogEvent) (group : StreamGroup) : Walk * list LogEvent :=
  let '(w, acc) := st in
  let b := group_block group in
  match group_removed group, live w !! hash b with
  | true, None => (w, acc)
  | true, Some _ => (mkWalk (delete (hash b) (live w)) (order w), acc ++ events b)
  | false, Some _ => (w, acc)
  | false, None => (mkWalk (<[hash b := b]> (live w)) (order w ++ [hash b]), acc ++ events b)
  end.

Lemma replayLoop_fold syncedTo groups w acc :
  nothing_reread syncedTo groups ->
  replayLoop syncedTo w acc groups = foldl replayStep (w, acc) groups.
Proof.
  revert w acc. induction groups as [|g groups IH]; intros w acc; cbn [replayLoop nothing_reread foldl]; [done|].
  intros [Hg Hrest]. unfold replayStep at 2.
  destruct (group_removed g), (live w !! hash (group_block g)); try by apply IH.
  rewrite decide_False; [by apply IH|]. destruct Hg as [?|Hg]; [done|lia|].
  rewrite Hg. by intros [_ ?].
Qed.

Lemma replayStep_retract w P D acc :
  walk_holds w (P ++ D) -> NoDup (hash <$> P ++ D) ->
  exists w', foldl replayStep (w, acc) (retractedGroup <$> D) = (w', acc ++ retractions_of D)
    /\ walk_holds w' P.
Proof.
  revert w acc. induction D as [|b D IH]; intros w acc Hw Hnd; csimpl.
  { exists w. by rewrite !app_nil_r in *. }
  rewrite (walk_live_Some _ _ b Hw) by (apply elem_of_app; right; left).
  destruct (IH _ (acc ++ (asRemoved <$> events b)) (walk_delete _ _ _ _ Hw Hnd)) as (w' & Hfold & Hw').
  - rewrite <- Permutation_middle in Hnd. csimpl in Hnd. by apply NoDup_cons in Hnd as [_ ?].
  - exists w'. split; [|done]. rewrite Hfold. f_equal. rewrite <- app_assoc. f_equal.
    unfold retractions_of. by rewrite events_of_cons, fmap_app.
Qed.

Lemma replayStep_apply w H N acc :
  walk_holds w H -> NoDup (hash <$> H ++ N) ->
  exists w', foldl replayStep (w, acc) (appliedGroup <$> N) = (w', acc ++ events_of N)
    /\ walk_holds w' (H ++ N).
Proof.
  revert w H acc. induction N as [|b N IH]; intros w H acc Hw Hnd; csimpl.
  { exists w. by rewrite !app_nil_r. }
  assert (hash b ∉ hash <$> H) as Hb.
  { rewrite <- Permutation_middle in Hnd. csimpl in Hnd. apply NoDup_cons in Hnd as [Hnd _].
    rewrite fmap_app, elem_of_app in Hnd. tauto. }
  rewrite (walk_live_None _ _ _ Hw Hb). rewrite cons_middle, app_assoc in Hnd.
  destruct (IH _ _ (acc ++ events b) (walk_insert _ _ _ Hw Hb) Hnd) as (w' & Hfold & Hw').
  exists w'. rewrite (cons_middle b H N), (app_assoc H). split; [|done].
  by rewrite Hfold, events_of_cons, <- app_assoc.
Qed.

(** The walk holds the part [K] of the held blocks the cursor can see. *)
Definition sees (from : Z) (K H : list EventBlock) : Prop :=
  K `sublist_of` H /\ forall b, b ∈ H -> from <= number b -> b ∈ K.

Lemma sees_split from K P D :
  NoDup (P ++ D) -> Forall (fun b => from <= number b) D -> sees from K (P ++ D) ->
  exists KP, K = KP ++ D /\ sees from KP P.
Proof.
  intros Hnd HD [Hsub Hall]. destruct (sublist_app_split _ _ _ Hsub) as (KP & KD & -> & HP & HKD).
  apply NoDup_app in Hnd as (HndP & Hdis & HndD). rewrite Forall_forall in HD.
  assert (KD = D) as ->.
  { apply sublist_all_eq; [done|done|]. intros x Hx.
    assert (x ∈ KP ++ KD) as [Hin|]%elem_of_app; [|..|done].
    - apply Hall; [apply elem_of_app; by right|by apply HD].
    - destruct (Hdis x); [|done]. by eapply elem_of_sublist. }
  exists KP. split; [done|]. split; [done|]. intros b Hb Hf.
  assert (b ∈ KP ++ D) as [?|?]%elem_of_app; [|done|by destruct (Hdis b)].
  apply Hall; [apply elem_of_app; by left|done].
Qed.

Lemma sees_app from K P N : sees from K P -> sees from (K ++ N) (P ++ N).
Proof.
  intros [Hsub Hall]. split; [by apply sublist_app|].
  intros b [Hb|Hb]%elem_of_app Hf; apply elem_of_app; auto.
Qed.

Lemma cycles_replay from H0 gs H w K acc :
  chain_wf H0 -> cycles from H0 gs H -> walk_holds w K -> sees from K H0 ->
  exists w' K', foldl replayStep (w, acc) gs = (w', acc ++ group_events gs)
    /\ walk_holds w' K' /\ sees from K' H.
Proof.
  intros H0wf Hc Hw Hsees. induction Hc as [|gs P D N Hc IH Hwf Hdis Hlow].
  { exists w, K. by rewrite app_group_nil. }
  destruct IH as (w1 & K1 & Hf1 & Hw1 & Hs1). pose proof (cycles_chain _ _ _ _ H0wf Hc) as HwfD.
  apply Forall_app in Hlow as [HlowD HlowN].
  destruct (sees_split _ _ _ _ (chain_wf_NoDup _ HwfD) HlowD Hs1) as (KP & -> & HsP).
  destruct (replayStep_retract w1 KP D (acc ++ group_events gs)) as (w2 & Hf2 & Hw2); [done|..].
  { eapply sublist_NoDup; [apply HwfD|]. apply sublist_fmap, Hs1. }
  destruct (replayStep_apply w2 KP N (acc ++ group_events gs ++ retractions_of D)) as (w3 & Hf3 & Hw3); [done|..].
  { eapply sublist_NoDup; [apply Hwf|]. apply sublist_fmap, sublist_app; [apply HsP|done]. }
  exists w3, (KP ++ N). split_and!; [|done|by apply sees_app].
  rewrite !foldl_app, Hf1, Hf2, <- app_assoc, Hf3.
  by rewrite !group_events_app, group_events_applied, group_events_retracted, !app_assoc.
Qed.

Lemma seed_holds W w K :
  walk_holds w K -> NoDup (hash <$> K ++ W) -> walk_holds (foldl seedStep w W) (K ++ W).
Proof.
  revert w K. induction W as [|b W IH]; intros w K Hw Hnd; csimpl; [by rewrite app_nil_r|].
  assert (hash b ∉ hash <$> K) as Hb.
  { rewrite <- Permutation_middle in Hnd. csimpl in Hnd. apply NoDup_cons in Hnd as [Hnd _].
    rewrite fmap_app, elem_of_app in Hnd. tauto. }
  rewrite cons_middle, app_assoc in Hnd |- *. apply IH; [|done].
  unfold seedStep. rewrite decide_False by (rewrite (walk_live_None _ _ _ Hw Hb); by intros [? [=]]).
  by apply walk_insert.
Qed.

(** A cursor read off a walk reaches every block its fold may have to take back. *)
Lemma walk_cursor_holds d s bounds H K w s' :
  advancing d s bounds -> chain_wf H -> walk_holds w K -> sees (newLastFromBlock bounds) K H ->
  latestBlock s' = newLatestBlock bounds -> lastToBlock s' = newLastToBlock bounds ->
  unconfirmedBlocks s' = sort_on number
    (keptBlocks (live w) ∅ (newLastToBlock bounds) (finality bounds) (order w)) ->
  holds d (finality bounds) s' H.
Proof.
  intros Hadv HwfH Hw [Hsub Hall] Hl Ht Hu.
  rewrite (walk_kept w K) in Hu by eauto with etherfold. split; [done|..].
  - rewrite Hu. etrans; [apply sublist_filter|done].
  - intros b Hb Hge. destruct (advancing_next _ _ _ _ _ Hadv Hl Ht Hge) as (Hf & Hto & _).
    rewrite Hu. apply elem_of_filter_intro; [done|]. by apply Hall.
Qed.

(** A replay of what was appended since, from where the fold resumes. *)
Lemma cycles_follow (d : Z) (s : LastSync) (bounds : FetchBounds)
    (H0 H : list EventBlock) (gs : list StreamGroup) :
  holds d (finality bounds) s H0 -> advancing d s bounds ->
  cycles (newLastFromBlock bounds) H0 gs H -> nothing_reread (lastToBlock s) gs ->
  exists s', generateStreamFromReplay s d (group_events gs) bounds = Ok (group_events gs, s')
    /\ context s' = context s
    /\ latestBlock s' = newLatestBlock bounds /\ lastToBlock s' = newLastToBlock bounds
    /\ holds d (finality bounds) s' H.
Proof.
  intros [Hwf Hwin Hreach] Hadv Hc Hre. unfold generateStreamFromReplay.
  rewrite decide_False by (pose proof (advancing_from _ _ _ Hadv); tauto).
  rewrite (cycles_groups _ _ _ _ Hwf Hc), replayLoop_fold by done.
  assert (NoDup (hash <$> [] ++ unconfirmedBlocks s)) as Hnd.
  { eapply sublist_NoDup; [apply Hwf|]. by apply sublist_fmap. }
  pose proof (seed_holds _ _ _ walk_holds_empty Hnd) as Hseed.
  assert (sees (newLastFromBlock bounds) (unconfirmedBlocks s) H0) as Hsees.
  { split; [done|]. intros b Hb Hf. apply Hreach; [done|]. by rewrite <- (advancing_from _ _ _ Hadv). }
  destruct (cycles_replay _ _ _ _ _ _ [] Hwf Hc Hseed Hsees) as (w & K & -> & Hw & HK).
  eexists. split_and!; [done..|].
  eapply walk_cursor_holds; try done. by eapply cycles_chain.
Qed.

(** Replaying the rows a stream's writer appended brings a fold that resumes
    where they begin onto the writer's blocks: everything is delivered as it was
    concluded, reverts included, and the cursor rebuilt by the walk reaches as far
    back as the fetch path's own.  A rebuild is the case of a fresh cursor and the
    whole stream. *)
Theorem generateStreamFromReplay_follow (d : Z) (s : LastSync) (bounds : FetchBounds)
    (H0 H : list EventBlock) (gs : list StreamGroup) :
  holds d (finality bounds) s H0 -> advancing d s bounds ->
  cycles (newLastFromBlock bounds) H0 gs H -> nothing_reread (lastToBlock s) gs ->
  exists s', generateStreamFromReplay s d (group_events gs) bounds = Ok (group_events gs, s')
    /\ context s' = context s
    /\ latestBlock s' = newLatestBlock bounds /\ lastToBlock s' = newLastToBlock bounds
    /\ holds d (finality bounds) s' H.
Proof. apply cycles_follow. Qed.

(** ** Catching up over a window already folded *)

(** What a group says of its block. *)
Definition verdict (g : StreamGroup) : string * bool := (hash (group_block g), group_removed g).

Lemma NoDup_boundaries gs : NoDup (verdict <$> gs) -> Sorted run_boundary gs.
Proof.
  induction gs as [|g gs IH]; intros Hnd; [constructor|]. csimpl in Hnd.
  apply NoDup_cons in Hnd as [Hg Hnd]. constructor; [auto|].
  destruct gs as [|g' gs]; constructor. intros [Hh Hr]. apply Hg. csimpl.
  unfold verdict at 1. rewrite Hh, Hr. left.
Qed.

Lemma cycles_applied from gs H b : cycles from [] gs H -> b ∈ H -> appliedGroup b ∈ gs.
Proof.
  induction 1 as [|gs P D N Hc IH Hwf Hdis Hlow]; [by intros ?%not_elem_of_nil|].
  rewrite !elem_of_app. intros [Hb|Hb].
  - left. apply IH, elem_of_app. by left.
  - right; right. by apply list_elem_of_fmap_2.
Qed.

Lemma cycles_retraction_applied from gs H g :
  cycles from [] gs H -> g ∈ gs -> group_removed g = true ->
  exists g', g' ∈ gs /\ verdict g' = (hash (group_block g), false).
Proof.
  induction 1 as [|gs P D N Hc IH Hwf Hdis Hlow]; [by intros ?%not_elem_of_nil|].
  rewrite !elem_of_app. intros [Hg|[(b & -> & Hb)%list_elem_of_fmap|(b & -> & _)%list_elem_of_fmap]] Hr.
  - destruct (IH Hg Hr) as (g' & ? & ?). exists g'. split; [|done]. apply elem_of_app. by left.
  - exists (appliedGroup b). split; [|done]. apply elem_of_app. left.
    eapply cycles_applied; [done|]. apply elem_of_app. by right.
  - done.
Qed.

(** Where no block comes back, a retracted block is no longer held... *)
Lemma cycles_retracted from gs H g :
  cycles from [] gs H -> NoDup (verdict <$> gs) ->
  g ∈ gs -> group_removed g = true -> hash (group_block g) ∉ hash <$> H.
Proof.
  induction 1 as [|gs P D N Hc IH Hwf Hdis Hlow]; [by intros _ ?%not_elem_of_nil|].
  pose proof (chain_wf_hashes _ (cycles_chain _ _ _ _ chain_wf_nil Hc)) as HndD.
  rewrite !fmap_app in *. intros (Hnd & Hcross & _)%NoDup_app.
  rewrite !elem_of_app. intros [Hg|[(b & -> & Hb)%list_elem_of_fmap|(b & -> & _)%list_elem_of_fmap]] Hr; [..|done].
  - specialize (IH Hnd Hg Hr). rewrite elem_of_app in IH. intros [?|(n & Hn & HnN)%list_elem_of_fmap]; [tauto|].
    destruct (cycles_retraction_applied _ _ _ _ Hc Hg Hr) as (g' & Hg' & Hv).
    apply (Hcross (verdict g')); [by apply list_elem_of_fmap_2|].
    rewrite Hv, Hn, elem_of_app. right. apply (list_elem_of_fmap_2 verdict _ (appliedGroup n)).
    by apply list_elem_of_fmap_2.
  - simpl. apply NoDup_app in HndD as (_ & HPD & _).
    intros [HP|(n & Hn & HnN)%list_elem_of_fmap].
    + apply (HPD _ HP). by apply list_elem_of_fmap_2.
    + by apply (Hdis b n).
Qed.

(** ...and an applied one is held, or taken back further on. *)
Lemma cycles_settled from gs H i g :
  cycles from [] gs H -> gs !! i = Some g -> group_removed g = false ->
  group_block g ∈ H \/ exists j b, gs !! j = Some (retractedGroup b) /\ (i < j)%nat /\ b = group_block g.
Proof.
  intros Hc. revert i g. induction Hc as [|gs P D N Hc IH Hwf Hdis Hlow]; [done|]. intros i g.
  rewrite lookup_app_Some. intros [Hi|[Hle Hi]] Hr.
  - pose proof (lookup_lt_Some _ _ _ Hi) as Hlt.
    destruct (IH i g Hi Hr) as [[HP|HD]%elem_of_app|(j & b & Hj & ? & ?)].
    + left. apply elem_of_app. by left.
    + right. apply list_elem_of_lookup in HD as [k Hk]. exists (length gs + k)%nat, (group_block g).
      split_and!; [|lia|done]. rewrite lookup_app_r by lia.
      replace (length gs + k - length gs)%nat with k by lia.
      apply lookup_app_l_Some. by rewrite list_lookup_fmap, Hk.
    + right. exists j, b. split_and!; [|done..]. by apply lookup_app_l_Some.
  - left. apply elem_of_app. apply list_elem_of_lookup_2, elem_of_app in Hi as [Hi|Hi];
      apply list_elem_of_fmap in Hi as (b & -> & Hb); [done|by right].
Qed.

Lemma retractedLater_true h l :
  (exists g, g ∈ l /\ hash (group_block g) = h) ->
  (forall g, g ∈ l -> hash (group_block g) = h -> group_removed g = true) ->
  retractedLater h l = true.
Proof.
  intros (g & Hg & Hh) Hall. induction l as [|g0 l IH]; simpl; [by apply not_elem_of_nil in Hg|].
  case_decide as Hd; [apply Hall; [left|done]|].
  apply elem_of_cons in Hg as [->|Hg]; [done|]. apply IH; [done|].
  intros x Hx. apply Hall. by right.
Qed.

(** A part of the slice that delivers nothing. *)
Lemma replayLoop_skip T w acc pre rest :
  (forall l g r, pre = l ++ g :: r ->
    if group_removed g then live w !! hash (group_block g) = None
    else is_Some (live w !! hash (group_block g))
         \/ number (group_block g) <= T /\ retractedLater (hash (group_block g)) (r ++ rest) = true) ->
  replayLoop T w acc (pre ++ rest) = replayLoop T w acc rest.
Proof.
  induction pre as [|g pre IH]; intros Hpre; [done|]. simpl.
  assert (replayLoop T w acc (pre ++ rest) = replayLoop T w acc rest) as Hrec.
  { apply IH. intros l x r ->. by apply (Hpre (g :: l) x r). }
  specialize (Hpre [] g pre eq_refl).
  destruct (group_removed g); [by rewrite Hpre|].
  destruct (live w !! hash (group_block g)); [done|]. rewrite decide_True; [done|].
  destruct Hpre as [[? [=]]|?]; done.
Qed.

(** The rows a catch-up reads back start at a block, not at a position. *)
Definition from_block (from : Z) (gs : list StreamGroup) : list StreamGroup :=
  filter (fun g => from <= number (group_block g)) gs.

Section CatchUp.
Context (from0 from T : Z) (gs0 gs1 : list StreamGroup) (H0 K : list EventBlock) (w : Walk).
Hypothesis Hc0 : cycles from0 [] gs0 H0.
Hypothesis Hnd : NoDup (verdict <$> gs0 ++ gs1).
Hypothesis HT : Forall (fun g => number (group_block g) <= T) gs0.
Hypothesis Hw : walk_holds w K.
Hypothesis HK : sees from K H0.

Lemma later_mentions l g r :
  gs0 = l ++ g :: r -> group_removed g = false ->
  forall g', g' ∈ r ++ gs1 -> hash (group_block g') = hash (group_block g) -> group_removed g' = true.
Proof.
  intros -> Hr g' Hg' Hh. destruct (group_removed g') eqn:Hr'; [done|exfalso].
  rewrite <- app_assoc in Hnd. simpl in Hnd. rewrite fmap_app in Hnd.
  apply NoDup_app in Hnd as (_ & _ & Hnd'). csimpl in Hnd'. apply NoDup_cons in Hnd' as [Hnd' _].
  apply Hnd'. replace (verdict g) with (verdict g') by (unfold verdict; congruence).
  by apply list_elem_of_fmap_2.
Qed.

Lemma catchup_skips acc :
  replayLoop T w acc (from_block from gs0 ++ gs1) = replayLoop T w acc gs1.
Proof.
  apply replayLoop_skip. intros l g r Hsplit.
  apply filter_split in Hsplit as (k1 & k2 & Hgs & Hf & <-).
  assert (g ∈ gs0) as Hg by (rewrite Hgs; apply elem_of_app; right; left).
  assert (NoDup (verdict <$> gs0)) as Hnd0 by (rewrite fmap_app in Hnd; by apply NoDup_app in Hnd as (? & _)).
  destruct HK as [Hsub Hall]. destruct (group_removed g) eqn:Hr.
  - eapply walk_live_None; [done|]. intros Hin. eapply (cycles_retracted _ _ _ g Hc0); try done.
    eapply elem_of_sublist; [exact Hin|]. by apply sublist_fmap.
  - assert (gs0 !! length k1 = Some g) as Hi by (rewrite Hgs; by apply list_lookup_middle).
    destruct (cycles_settled _ _ _ _ _ Hc0 Hi Hr) as [Hin|(j & b & Hj & Hlt & ->)].
    + left. exists (group_block g). apply walk_live_Some with K; [done|]. by apply Hall.
    + right. split; [by rewrite Forall_forall in HT; apply HT|]. apply retractedLater_true.
      * exists (retractedGroup (group_block g)). split; [|done]. apply elem_of_app. left.
        apply elem_of_filter_intro; [done|]. rewrite Hgs in Hj.
        rewrite lookup_app_r in Hj by lia.
        destruct (j - length k1)%nat as [|m] eqn:Hm; [lia|]. by eapply list_elem_of_lookup_2.
      * intros g' Hg' Hh. eapply (later_mentions k1 g k2 Hgs Hr g'); [|done].
        apply elem_of_app in Hg' as [[_ ?]%list_elem_of_filter|?]; apply elem_of_app; auto.
Qed.
End CatchUp.

(** A catch-up reads back rows its fold has already settled, because it resumes
    below its own reorg window.  As long as no block was applied twice, it
    delivers exactly the rows appended since: nothing it holds is applied again,
    no branch it took back is offered again, nothing new is dropped. *)
Theorem generateStreamFromReplay_catchup (d from0 : Z) (s : LastSync) (bounds : FetchBounds)
    (H0 H : list EventBlock) (gs0 gs1 : list StreamGroup) :
  holds d (finality bounds) s H0 -> advancing d s bounds ->
  cycles from0 [] gs0 H0 -> cycles (newLastFromBlock bounds) H0 gs1 H ->
  Forall (fun g => number (group_block g) <= lastToBlock s) gs0 ->
  NoDup (verdict <$> gs0 ++ gs1) -> nothing_reread (lastToBlock s) gs1 ->
  let offered := from_block (newLastFromBlock bounds) gs0 ++ gs1 in
  exists s', generateStreamFromReplay s d (group_events offered) bounds = Ok (group_events gs1, s')
    /\ lastToBlock s' = newLastToBlock bounds /\ holds d (finality bounds) s' H.
Proof.
  intros [Hwf Hwin Hreach] Hadv Hc0 Hc1 HT Hnd Hre offered. unfold generateStreamFromReplay.
  rewrite decide_False by (pose proof (advancing_from _ _ _ Hadv); tauto).
  assert (groupStreamPerBlock (group_events offered) = offered) as ->.
  { apply groupStream_roundtrip.
    - apply Forall_app. split; [|by eapply cycles_wf].
      eapply Forall_sublist; [apply sublist_filter|]. eapply cycles_wf; [apply chain_wf_nil|done].
    - apply NoDup_boundaries. eapply sublist_NoDup; [exact Hnd|].
      apply sublist_fmap, sublist_app; [apply sublist_filter|done]. }
  assert (NoDup (hash <$> [] ++ unconfirmedBlocks s)) as Hndw.
  { eapply sublist_NoDup; [apply Hwf|]. by apply sublist_fmap. }
  pose proof (seed_holds _ _ _ walk_holds_empty Hndw) as Hseed.
  assert (sees (newLastFromBlock bounds) (unconfirmedBlocks s) H0) as Hsees.
  { split; [done|]. intros b Hb Hf. apply Hreach; [done|]. by rewrite <- (advancing_from _ _ _ Hadv). }
  unfold offered. erewrite catchup_skips by done. rewrite replayLoop_fold by done.
  destruct (cycles_replay _ _ _ _ _ _ [] Hwf Hc1 Hseed Hsees) as (w & K & -> & Hw & HK).
  eexists. split_and!; [done..|].
  eapply walk_cursor_holds; try done. by eapply cycles_chain.
Qed.

(** ** Runs of the fetch path

    [run d f s stream chain]: a fold that started fresh, fetched again and again
    from nodes whose chains never forked deeper than the finality distance, has
    the cursor [s], has emitted [stream], and fetched last from a node whose
    chain is [chain]. *)
Inductive run (d f : Z) : LastSync -> list LogEvent -> list EventBlock -> Prop :=
  | run_fresh s :
      latestBlock s = 0 -> lastToBlock s = 0 -> unconfirmedBlocks s = [] -> run d f s [] []
  | run_cycle s stream chain P D N bounds a :
      run d f s stream chain ->
      upto (lastToBlock s) chain = P ++ D ->
      finality bounds = f ->
      honest_fetch d s bounds P D N ->
      lastToBlock s <= newLastToBlock bounds ->
      generateStreamToAppend s d (fetched_logs bounds (P ++ N)) bounds = Ok a ->
      run d f (newLastSync a) (stream ++ eventStream a) (P ++ N).

Lemma upto_app to c c' : upto to (c ++ c') = upto to c ++ upto to c'.
Proof. apply filter_app. Qed.

Lemma cycles_weaken from from' H0 gs H : from' <= from -> cycles from H0 gs H -> cycles from' H0 gs H.
Proof.
  intros Hle. induction 1 as [|gs P D N Hc IH Hwf Hdis Hlow]; constructor; try done.
  eapply Forall_impl; [exact Hlow|]. simpl. lia.
Qed.

Lemma getFromBlock_ge_default s d f : d <= getFromBlock s d f.
Proof. unfold getFromBlock. case_decide; lia. Qed.

Lemma run_cycles d f s stream chain :
  run d f s stream chain ->
  exists gs, stream = group_events gs /\ cycles d [] gs (upto (lastToBlock s) chain)
    /\ holds d f s (upto (lastToBlock s) chain).
Proof.
  induction 1 as [s Hl Ht Hw|s stream chain P D N bounds a Hrun IH Hheld Hf Hfetch Hto Hgen].
  { exists []. split_and!; [done|constructor|]. split; simpl.
    - apply chain_wf_nil.
    - by rewrite Hw.
    - by intros b ?%not_elem_of_nil. }
  destruct IH as (gs & -> & Hc & Hhold). rewrite Hheld in Hc, Hhold. subst f.
  destruct (append_honest _ _ _ _ _ _ Hhold Hfetch)
    as (a' & Hgen' & Hev & _ & Hl' & Ht' & _ & Hhold').
  rewrite Hgen in Hgen'. injection Hgen' as <-. rewrite Ht', Hev, upto_app.
  assert (upto (newLastToBlock bounds) P = P) as ->.
  { apply filter_Forall_id, Forall_forall. intros b Hb.
    assert (b ∈ upto (lastToBlock s) chain) as [? _]%list_elem_of_filter
      by (rewrite Hheld; apply elem_of_app; by left). lia. }
  exists (gs ++ (retractedGroup <$> D) ++ (appliedGroup <$> upto (newLastToBlock bounds) N)).
  split_and!; [|constructor|done].
  - by rewrite !group_events_app, group_events_retracted, group_events_applied.
  - done.
  - apply Hhold'.
  - intros x y Hx [_ Hy]%list_elem_of_filter. by apply (honest_fork _ _ _ _ _ _ Hfetch).
  - pose proof (honest_depth _ _ _ _ _ _ Hfetch) as Hd.
    rewrite (advancing_from _ _ _ (honest_advancing _ _ _ _ _ _ Hfetch)) in Hd.
    pose proof (getFromBlock_ge_default s d (finality bounds)).
    eapply Forall_impl with (P := fun b => getFromBlock s d (finality bounds) <= number b); [|simpl; lia].
    eapply Forall_sublist; [|exact Hd]. apply sublist_app; [done|apply sublist_filter].
Qed.

(** C9. However often the chain reorganised on the way, the rows the fetch path
    emitted leave applied exactly the node's own blocks up to the synced one: the
    window derived by walking the rows is the node's chain within the finality
    distance, and the window the live fold kept is a part of it that misses no
    block the next fetch re-reads. *)
Theorem run_canonical (d f : Z) (s : LastSync) (stream : list LogEvent) (chain : list EventBlock) :
  run d f s stream chain ->
  let derived := windowOfStoredStream stream (lastToBlock s) f in
  derived = within (lastToBlock s) f (upto (lastToBlock s) chain)
  /\ (forall b, b ∈ derived -> getFromBlock s d f <= number b -> b ∈ unconfirmedBlocks s)
  /\ (forall b, b ∈ unconfirmedBlocks s -> b ∈ upto (lastToBlock s) chain)
  /\ (forall b, b ∈ chain -> number b <= lastToBlock s -> getFromBlock s d f <= number b ->
        b ∈ unconfirmedBlocks s).
Proof.
  intros (gs & -> & Hc & [Hwf Hwin Hreach])%run_cycles derived.
  assert (derived = within (lastToBlock s) f (upto (lastToBlock s) chain)) as Hd
    by (by eapply window_of_cycles). rewrite Hd. split_and!; [done|..].
  - intros b [_ Hb]%list_elem_of_filter. by apply Hreach.
  - intros b Hb. by eapply elem_of_sublist.
  - intros b Hb Hle. apply Hreach. by apply elem_of_filter_intro.
Qed.

(** ** The theorems at work

    The fold of [sample_sync]: blocks 1 and 2 were applied, then a fork at 2. *)
Definition sample_before : list StreamGroup := appliedGroup <$> [sample_block 1 "a1"; sample_block 2 "a2"].
Definition sample_after : list StreamGroup :=
  [retractedGroup (sample_block 2 "a2"); appliedGroup (sample_block 2 "b2"); appliedGroup (sample_block 3 "b3")].

Lemma sample_cycles_before : cycles 0 [] sample_before [sample_block 1 "a1"; sample_block 2 "a2"].
Proof.
  apply (cycles_turn 0 [] [] [] [] [sample_block 1 "a1"; sample_block 2 "a2"]); [constructor|evaluate| |evaluate].
  by intros x y ?%not_elem_of_nil.
Qed.

Lemma sample_cycles_after H0 gs :
  cycles 0 H0 gs ([sample_block 1 "a1"] ++ [sample_block 2 "a2"]) ->
  cycles 0 H0 (gs ++ sample_after) [sample_block 1 "a1"; sample_block 2 "b2"; sample_block 3 "b3"].
Proof.
  intros Hc. apply (cycles_turn 0 H0 gs [sample_block 1 "a1"] [sample_block 2 "a2"]
    [sample_block 2 "b2"; sample_block 3 "b3"] Hc); [evaluate| |evaluate].
  intros x y Hx Hy. each_in Hx. each_in Hy; done.
Qed.

Lemma windowOfStoredStream_live_witness :
  windowOfStoredStream (group_events (sample_before ++ sample_after)) 3 10
  = within 3 10 [sample_block 1 "a1"; sample_block 2 "b2"; sample_block 3 "b3"].
Proof.
  apply (windowOfStoredStream_live 0), sample_cycles_after, sample_cycles_before.
Defined.

Lemma sample_advancing : advancing 0 sample_sync sample_bounds.
Proof. by split. Qed.

Lemma generateStreamFromReplay_follow_witness :
  exists s', generateStreamFromReplay sample_sync 0 (group_events ([] ++ sample_after)) sample_bounds
      = Ok (group_events ([] ++ sample_after), s')
    /\ lastToBlock s' = 3.
Proof.
  destruct (generateStreamFromReplay_follow 0 sample_sync sample_bounds
    ([sample_block 1 "a1"] ++ [sample_block 2 "a2"])
    [sample_block 1 "a1"; sample_block 2 "b2"; sample_block 3 "b3"] ([] ++ sample_after))
    as (s' & Hs & _ & _ & Hto & _).
  - apply sample_holds.
  - apply sample_advancing.
  - apply sample_cycles_after. constructor.
  - repeat split; done || (intros _; right; reflexivity).
  - by exists s'.
Defined.

Lemma generateStreamFromReplay_catchup_witness :
  exists s', generateStreamFromReplay sample_sync 0
      (group_events (from_block 0 sample_before ++ ([] ++ sample_after))) sample_bounds
      = Ok (group_events ([] ++ sample_after), s')
    /\ lastToBlock s' = 3.
Proof.
  destruct (generateStreamFromReplay_catchup 0 0 sample_sync sample_bounds
    ([sample_block 1 "a1"] ++ [sample_block 2 "a2"])
    [sample_block 1 "a1"; sample_block 2 "b2"; sample_block 3 "b3"] sample_before ([] ++ sample_after))
    as (s' & Hs & Hto & _).
  - apply sample_holds.
  - apply sample_advancing.
  - apply sample_cycles_before.
  - apply sample_cycles_after. constructor.
  - evaluate.
  - evaluate.
  - repeat split; done || (intros _; right; reflexivity).
  - by exists s'.
Defined.

(** One cycle of a fold that starts fresh. *)
Definition fresh_sync : LastSync := mkSync (mkContext [] "cfg" "proc") 0 0 0 [].
Definition first_bounds : FetchBounds := mkBounds 2 0 2 10.

Lemma run_canonical_witness :
  exists s stream, run 0 10 s stream [sample_block 1 "a1"; sample_block 2 "a2"]
    /\ windowOfStoredStream stream (lastToBlock s) 10
       = within (lastToBlock s) 10 (upto (lastToBlock s) [sample_block 1 "a1"; sample_block 2 "a2"]).
Proof.
  destruct (generateStreamToAppend fresh_sync 0
    (fetched_logs first_bounds [sample_block 1 "a1"; sample_block 2 "a2"]) first_bounds) as [a|e] eqn:Ha.
  2:{ vm_compute in Ha. discriminate. }
  assert (run 0 10 (newLastSync a) ([] ++ eventStream a) ([] ++ [sample_block 1 "a1"; sample_block 2 "a2"])) as Hrun.
  { apply (run_cycle 0 10 fresh_sync [] [] [] [] _ first_bounds a); try done; [by constructor|].
    split; [by split|evaluate| |evaluate|done]. by intros x y ?%not_elem_of_nil. }
  exists (newLastSync a), ([] ++ eventStream a). split; [exact Hrun|]. apply (run_canonical 0 10 _ _ _ Hrun).
Defined.
