(* ===== verification/Invalidation.v ===== *)
(** * Whether stored data still describes the source

    The comparison half of [packages/core/src/internal/engine/utils.ts]: the two
    verdicts (raw log stream, folded state) on a persisted context, and the wire
    identity check. *)
From S2P Require Import Prelude Types.

Inductive InvalidationReason : Type := streamConfigMoved | entryChanged | entryAdded | entryRemoved.

#[export] Instance InvalidationReason_eq_dec : EqDecision InvalidationReason.
Proof. solve_decision. Defined.

(** [{valid: true}] or [{valid: false, invalidFromBlock, reason}]. *)
Inductive InvalidationVerdict : Type :=
  | ValidVerdict
  | InvalidVerdict (invalidFromBlock : Z) (reason : InvalidationReason).

Record SourceInvalidation : Type := mkInvalidation {
  state_verdict : InvalidationVerdict;
  stream_verdict : InvalidationVerdict
}.

Definition isWholeSourceContext (entries : list SourceHashEntry) : bool :=
  match entries with
  | [e] => bool_decide (startBlock e = 0 /\ streamHash e = None)
  | _ => false
  end.

Definition blocksOf (entries : list SourceHashEntry) : gset Z := list_to_set (startBlock <$> entries).

(** The closure [invalidFrom]: keep the lower block, and the first reason given
    for it. *)
Definition invalidFrom (acc : option (Z * InvalidationReason)) (block : Z) (why : InvalidationReason)
    : option (Z * InvalidationReason) :=
  match acc with
  | None => Some (block, why)
  | Some (b, r) => if decide (block < b) then Some (block, why) else Some (b, r)
  end.

(** One of the two loops: [others] are the start blocks of the opposite list. *)
Definition invalidateFrom (lastToBlock : Z) (others : gset Z) (otherwise : InvalidationReason)
    (acc : option (Z * InvalidationReason)) (entries : list SourceHashEntry)
    : option (Z * InvalidationReason) :=
  foldl (fun acc entry =>
    if decide (startBlock entry <= lastToBlock)
    then invalidFrom acc (startBlock entry)
           (if decide (startBlock entry ∈ others) then entryChanged else otherwise)
    else acc) acc entries.

Definition missingFrom (digestOf : SourceHashEntry -> string) (known entries : list SourceHashEntry)
    : list SourceHashEntry :=
  filter (fun e => digestOf e ∉ (list_to_set (digestOf <$> known) : gset string)) entries.

Definition verdictOn (current stored : list SourceHashEntry) (digestOf : SourceHashEntry -> string)
    (lastToBlock : Z) (removalInvalidates : bool) : InvalidationVerdict :=
  let added := missingFrom digestOf stored current in
  let removed := if removalInvalidates then missingFrom digestOf current stored else [] in
  let acc := invalidateFrom lastToBlock (blocksOf removed) entryAdded None added in
  match invalidateFrom lastToBlock (blocksOf added) entryRemoved acc removed with
  | None => ValidVerdict
  | Some (block, reason) => InvalidVerdict block reason
  end.

(** [(entry) => entry.streamHash as string] *)
Definition streamHashOf (entry : SourceHashEntry) : string := default "" (streamHash entry).

Definition knowsTheFilter (entries : list SourceHashEntry) : bool :=
  forallb (fun e => bool_decide (is_Some (streamHash e))) entries.

Definition sourceInvalidationOf (indexerSourceHashes : list SourceHashEntry)
    (indexerConfigHash : string) (lastToBlock : Z) (context : ContextIdentifier)
    : SourceInvalidation :=
  let both v := mkInvalidation v v in
  if decide (ctx_config context <> indexerConfigHash)
  then both (InvalidVerdict 0 streamConfigMoved)
  else
    let stored := ctx_source context in
    let perEvent :=
      let state := verdictOn indexerSourceHashes stored entry_hash lastToBlock true in
      mkInvalidation state
        (if knowsTheFilter indexerSourceHashes && knowsTheFilter stored
         then verdictOn indexerSourceHashes stored streamHashOf lastToBlock false
         else state) in
    match head indexerSourceHashes ≫= legacyHash, stored with
    | Some legacy, first :: _ =>
        if isWholeSourceContext stored
        then
          if decide (entry_hash first = legacy) then both ValidVerdict
          else both (InvalidVerdict 0 entryChanged)
        else perEvent
    | _, _ => perEvent
    end.

Definition isValid (v : InvalidationVerdict) : bool :=
  match v with ValidVerdict => true | InvalidVerdict _ _ => false end.

Definition stateMatches (hashes : list SourceHashEntry) (config : string) (lastToBlock : Z)
    (context : ContextIdentifier) : bool :=
  isValid (state_verdict (sourceInvalidationOf hashes config lastToBlock context)).

Definition streamMatches (hashes : list SourceHashEntry) (config : string) (lastToBlock : Z)
    (context : ContextIdentifier) : bool :=
  isValid (stream_verdict (sourceInvalidationOf hashes config lastToBlock context)).

(** [sameWireContext]; the [every] callback reads [b.source] at the same index. *)
Definition sameWireContext (a b : option WireContext) : bool :=
  match a, b with
  | Some a, Some b =>
      bool_decide (wire_config a = wire_config b)
      && bool_decide (length (wire_source a) = length (wire_source b))
      && forallb (fun p => bool_decide (entry_hash <$> (wire_source b !! p.1) = Some (entry_hash p.2)))
           (imap pair (wire_source a))
  | _, _ => false
  end.

(** ** The two loops *)

(** The entries of a list that could have contributed to what was indexed. *)
Definition due (lastToBlock : Z) (entries : list SourceHashEntry) : list SourceHashEntry :=
  filter (fun e => startBlock e <= lastToBlock) entries.

(** [least m l]: [m] is the lowest start block of [l]. *)
Definition least (m : Z) (entries : list SourceHashEntry) : Prop :=
  (exists e, e ∈ entries /\ startBlock e = m) /\ Forall (fun e => m <= startBlock e) entries.

Definition reasonAt (others : gset Z) (otherwise : InvalidationReason) (m : Z) : InvalidationReason :=
  if decide (m ∈ others) then entryChanged else otherwise.

Lemma invalidateFrom_due lastTo others otherwise acc entries :
  invalidateFrom lastTo others otherwise acc entries
  = foldl (fun acc e => invalidFrom acc (startBlock e) (reasonAt others otherwise (startBlock e)))
      acc (due lastTo entries).
Proof.
  unfold invalidateFrom, due. revert acc. induction entries as [|e entries IH]; intros acc; [done|].
  rewrite filter_cons. cbn [foldl]. case_decide; apply IH.
Qed.

Definition below (acc : option (Z * InvalidationReason)) (m : Z) : Prop :=
  match acc with Some (b, _) => b <= m | None => False end.

Lemma foldl_invalidFrom others otherwise acc es :
  let res := foldl (fun acc e => invalidFrom acc (startBlock e)
               (reasonAt others otherwise (startBlock e))) acc es in
  (res = acc /\ Forall (fun e => below acc (startBlock e)) es)
  \/ exists m, least m es /\ ~ below acc m /\ res = Some (m, reasonAt others otherwise m).
Proof.
  revert acc. induction es as [|e es IH]; intros acc; [left; split; [done|constructor]|].
  cbn [foldl]. set (acc1 := invalidFrom acc (startBlock e) (reasonAt others otherwise (startBlock e))).
  assert (below acc (startBlock e) /\ acc1 = acc
    \/ ~ below acc (startBlock e) /\ acc1 = Some (startBlock e, reasonAt others otherwise (startBlock e)))
    as Hacc1.
  { unfold acc1, invalidFrom, below. destruct acc as [[b r]|]; [case_decide|]; auto; [right|left]; split; lia || done. }
  clearbody acc1. destruct (IH acc1) as [[-> Hall]|(m & [(x & Hx & Hm) Hle] & Hnb & ->)].
  - destruct Hacc1 as [[Hb ->]|[Hb ->]].
    + left. split; [done|by constructor].
    + right. exists (startBlock e). split_and!; [|done..]. split.
      * exists e. split; [left|done].
      * constructor; [lia|]. eapply Forall_impl; [exact Hall|]. done.
  - right. exists m. split_and!; [split|..|done].
    + exists x. split; [by right|done].
    + constructor; [|done]. destruct Hacc1 as [[Hb ->]|[Hb ->]]; [|unfold below in Hnb; lia].
      unfold below in *. destruct acc as [[b r]|]; [lia|done].
    + destruct Hacc1 as [[Hb ->]|[Hb ->]]; [done|].
      unfold below in *. destruct acc as [[b r]|]; [lia|auto].
Qed.

(** ** What a verdict says *)
Definition reasonOf (added removed : list SourceHashEntry) (m : Z) : InvalidationReason :=
  if decide (m ∈ blocksOf added)
  then if decide (m ∈ blocksOf removed) then entryChanged else entryAdded
  else entryRemoved.

Lemma elem_of_blocksOf m es : m ∈ blocksOf es <-> exists e, e ∈ es /\ startBlock e = m.
Proof.
  unfold blocksOf. rewrite elem_of_list_to_set, list_elem_of_fmap.
  split; intros (e & ? & ?); by exists e.
Qed.

Lemma elem_of_missingFrom digestOf known es e :
  e ∈ missingFrom digestOf known es <->
  e ∈ es /\ forall e', e' ∈ known -> digestOf e' <> digestOf e.
Proof.
  unfold missingFrom. rewrite list_elem_of_filter, elem_of_list_to_set, list_elem_of_fmap.
  split; [intros [Hn He]|intros [He Hn]].
  - split; [done|]. intros e' He' Heq. apply Hn. by exists e'.
  - split; [|done]. intros (e' & Heq & He'). by eapply Hn.
Qed.

Lemma elem_of_due lastTo es e : e ∈ due lastTo es <-> startBlock e <= lastTo /\ e ∈ es.
Proof. unfold due. by rewrite list_elem_of_filter. Qed.

Lemma least_unique m m' es : least m es -> least m' es -> m = m'.
Proof.
  intros [(e & He & <-) Hall] [(e' & He' & <-) Hall']. rewrite Forall_forall in Hall, Hall'.
  specialize (Hall _ He'). specialize (Hall' _ He). lia.
Qed.

Lemma least_app_l m es es' :
  least m es -> Forall (fun e => m <= startBlock e) es' -> least m (es ++ es').
Proof.
  intros [(e & He & Hm) Hall] Hall'. split; [|by apply Forall_app].
  exists e. split; [apply elem_of_app; by left|done].
Qed.

Lemma least_app_r m es es' :
  least m es' -> Forall (fun e => m <= startBlock e) es -> least m (es ++ es').
Proof.
  intros [(e & He & Hm) Hall] Hall'. split; [|by apply Forall_app].
  exists e. split; [apply elem_of_app; by right|done].
Qed.

Lemma Forall_nil_false {A} (P : A -> Prop) (l : list A) :
  Forall P l -> (forall x, ~ P x) -> l = [].
Proof. destruct 1; [done|]. intros Hno. by destruct (Hno x). Qed.

(** A valid verdict: nothing that could have contributed is missing on either
    side.  An invalid one names the lowest block where something is, and tells
    an added entry, a removed one and a changed one apart. *)
Lemma verdictOn_exact current stored digestOf lastTo removalInvalidates :
  let added := missingFrom digestOf stored current in
  let removed := if (removalInvalidates : bool) then missingFrom digestOf current stored else [] in
  match verdictOn current stored digestOf lastTo removalInvalidates with
  | ValidVerdict => due lastTo (added ++ removed) = []
  | InvalidVerdict m reason => least m (due lastTo (added ++ removed)) /\ reason = reasonOf added removed m
  end.
Proof.
  intros added removed. unfold verdictOn. fold added removed. rewrite !invalidateFrom_due.
  unfold due. rewrite filter_app. fold (due lastTo added) (due lastTo removed).
  destruct (foldl_invalidFrom (blocksOf removed) entryAdded None (due lastTo added))
    as [[-> Hadd]|(m & Hm & _ & ->)].
  - apply Forall_nil_false in Hadd as Hnil; [|by intros x []]. rewrite Hnil. cbn [app].
    destruct (foldl_invalidFrom (blocksOf added) entryRemoved None (due lastTo removed))
      as [[-> Hrem]|(m & Hm & _ & ->)].
    + apply Forall_nil_false in Hrem as Hnil'; [done|by intros x []].
    + split; [done|]. unfold reasonAt, reasonOf. rewrite decide_False, decide_False; [done|..];
        intros (e & He & Hem)%elem_of_blocksOf; (assert (e ∈ due lastTo added) as Hd; [|by rewrite Hnil in Hd; apply not_elem_of_nil in Hd]);
        apply elem_of_due; (split; [|done]); destruct Hm as [(e' & [? _]%elem_of_due & ?) _]; lia.
  - destruct (foldl_invalidFrom (blocksOf added) entryRemoved
      (Some (m, reasonAt (blocksOf removed) entryAdded m)) (due lastTo removed))
      as [[-> Hrem]|(m' & Hm' & Hlow & ->)].
    + split; [by apply least_app_l|]. destruct Hm as [(e & [_ He]%elem_of_due & Hem) _].
      unfold reasonAt, reasonOf. rewrite (decide_True (P := m ∈ blocksOf added)); [done|].
      apply elem_of_blocksOf. by exists e.
    + unfold below in Hlow. split.
      * apply least_app_r; [done|]. destruct Hm as [_ Hall]. eapply Forall_impl; [exact Hall|].
        intros e He. simpl in He. lia.
      * unfold reasonAt, reasonOf. rewrite decide_False, decide_False; [done|..];
          intros (e & He & Hem)%elem_of_blocksOf; destruct Hm as [_ Hall]; rewrite Forall_forall in Hall;
          specialize (Hall e); destruct Hm' as [(e' & [? _]%elem_of_due & ?) _];
          rewrite elem_of_due in Hall;
          assert (m <= startBlock e) by (apply Hall; split; [lia|done]); lia.
Qed.

Lemma verdictOn_valid current stored digestOf lastTo removalInvalidates :
  isValid (verdictOn current stored digestOf lastTo removalInvalidates) = true <->
  due lastTo (missingFrom digestOf stored current) = []
  /\ (removalInvalidates = true -> due lastTo (missingFrom digestOf current stored) = []).
Proof.
  pose proof (verdictOn_exact current stored digestOf lastTo removalInvalidates) as Hv.
  simpl in Hv. unfold due in *. rewrite filter_app in Hv.
  destruct (verdictOn _ _ _ _ _) as [|m r]; simpl.
  - apply app_nil in Hv as [Hadd Hrem]. destruct removalInvalidates; done.
  - split; [done|]. intros [Hadd Hrem]. destruct Hv as [[(e & He & _) _] _].
    rewrite Hadd in He. destruct removalInvalidates; [rewrite Hrem in He by done|];
      by apply not_elem_of_nil in He.
Qed.

Lemma due_nil lastTo es : due lastTo es = [] <-> forall e, e ∈ es -> lastTo < startBlock e.
Proof.
  split.
  - intros Hnil e He. destruct (decide (startBlock e <= lastTo)) as [Hle|]; [|lia].
    assert (e ∈ due lastTo es) as Hd by (by apply elem_of_due).
    rewrite Hnil in Hd. by apply not_elem_of_nil in Hd.
  - intros Hall. apply filter_Forall_nil, Forall_forall. intros e He. specialize (Hall e He). lia.
Qed.

(** The two verdicts are a diff of SETS: an entry inserted anywhere, a list in
    another order or with repeats, gets the same verdict, the same block and the
    same reason. *)
Theorem verdictOn_sets (current current' stored stored' : list SourceHashEntry)
    (digestOf : SourceHashEntry -> string) (lastToBlock : Z) (removalInvalidates : bool) :
  (forall e, e ∈ current <-> e ∈ current') -> (forall e, e ∈ stored <-> e ∈ stored') ->
  verdictOn current stored digestOf lastToBlock removalInvalidates
  = verdictOn current' stored' digestOf lastToBlock removalInvalidates.
Proof.
  intros Hc Hs.
  pose proof (verdictOn_exact current stored digestOf lastToBlock removalInvalidates) as Hv.
  pose proof (verdictOn_exact current' stored' digestOf lastToBlock removalInvalidates) as Hv'.
  simpl in Hv, Hv'.
  set (added := missingFrom digestOf stored current) in *.
  set (added' := missingFrom digestOf stored' current') in *.
  set (removed := if removalInvalidates then _ else _) in Hv.
  set (removed' := if removalInvalidates then _ else _) in Hv'.
  assert (forall e, e ∈ added <-> e ∈ added') as Ha.
  { intros e. unfold added, added'. rewrite !elem_of_missingFrom. setoid_rewrite Hs. by rewrite Hc. }
  assert (forall e, e ∈ removed <-> e ∈ removed') as Hr.
  { intros e. unfold removed, removed'. destruct removalInvalidates; [|done].
    rewrite !elem_of_missingFrom. setoid_rewrite Hc. by rewrite Hs. }
  assert (forall e, e ∈ due lastToBlock (added ++ removed) <-> e ∈ due lastToBlock (added' ++ removed')) as Hd.
  { intros e. by rewrite !elem_of_due, !elem_of_app, Ha, Hr. }
  destruct (verdictOn current stored _ _ _) as [|m r], (verdictOn current' stored' _ _ _) as [|m' r'].
  - done.
  - destruct Hv' as [[(e & He & _) _] _]. apply Hd in He. rewrite Hv in He. by apply not_elem_of_nil in He.
  - destruct Hv as [[(e & He & _) _] _]. apply Hd in He. rewrite Hv' in He. by apply not_elem_of_nil in He.
  - destruct Hv as [Hm ->], Hv' as [Hm' ->].
    assert (m = m') as <-.
    { apply (least_unique _ _ (due lastToBlock (added ++ removed))); [done|].
      destruct Hm' as [(e & He & Hem) Hall]. split; [exists e; by rewrite Hd|].
      rewrite Forall_forall in *. setoid_rewrite Hd. done. }
    f_equal. unfold reasonOf.
    assert (blocksOf added = blocksOf added') as ->
      by (apply set_eq; intros x; rewrite !elem_of_blocksOf; by setoid_rewrite Ha).
    assert (blocksOf removed = blocksOf removed') as ->
      by (apply set_eq; intros x; rewrite !elem_of_blocksOf; by setoid_rewrite Hr).
    done.
Qed.

(** The implication between the two verdicts runs one way: everything the
    filter's digest commits to, the decode's digest commits to as well, so a
    stream that is invalid from a block means a state invalid from that block or
    an earlier one. *)
Theorem sourceInvalidationOf_implication (hashes : list SourceHashEntry) (config : string)
    (lastToBlock : Z) (context : ContextIdentifier) (m : Z) (reason : InvalidationReason) :
  (forall e e', e ∈ hashes -> e' ∈ ctx_source context ->
    entry_hash e = entry_hash e' -> streamHashOf e = streamHashOf e') ->
  let verdicts := sourceInvalidationOf hashes config lastToBlock context in
  stream_verdict verdicts = InvalidVerdict m reason ->
  exists m' reason', state_verdict verdicts = InvalidVerdict m' reason' /\ m' <= m.
Proof.
  intros Hcommit verdicts. unfold verdicts, sourceInvalidationOf.
  case_decide; simpl; [intros [= <- <-]; by exists 0, streamConfigMoved|].
  set (state := verdictOn hashes (ctx_source context) entry_hash lastToBlock true).
  set (perEvent := mkInvalidation state _).
  assert (stream_verdict perEvent = InvalidVerdict m reason ->
    exists m' reason', state_verdict perEvent = InvalidVerdict m' reason' /\ m' <= m) as Hper.
  { simpl. destruct (_ && _); [|intros ->; by exists m, reason].
    intros Hv. pose proof (verdictOn_exact hashes (ctx_source context) streamHashOf lastToBlock false) as Hs.
    pose proof (verdictOn_exact hashes (ctx_source context) entry_hash lastToBlock true) as Hst.
    simpl in Hs, Hst. rewrite Hv in Hs. fold state in Hst.
    destruct Hs as [[(e & [Hle He]%elem_of_due & Hem) _] _]. rewrite app_nil_r in He.
    apply elem_of_missingFrom in He as [He Hmiss].
    assert (e ∈ due lastToBlock (missingFrom entry_hash (ctx_source context) hashes
              ++ missingFrom entry_hash hashes (ctx_source context))) as Hd.
    { apply elem_of_due. split; [done|]. apply elem_of_app. left. apply elem_of_missingFrom.
      split; [done|]. intros e' He' Heq. apply (Hmiss e' He'). symmetry. by apply Hcommit. }
    destruct state as [|m' r']; [rewrite Hst in Hd; by apply not_elem_of_nil in Hd|].
    exists m', r'. split; [done|]. destruct Hst as [[_ Hall] _].
    rewrite Forall_forall in Hall. specialize (Hall _ Hd). lia. }
  destruct (head hashes ≫= legacyHash) as [legacy|]; [|done].
  destruct (ctx_source context) as [|first rest]; [done|].
  destruct (isWholeSourceContext _); [|done].
  case_decide; simpl; [done|]. intros [= <- <-]. by exists 0, entryChanged.
Qed.

(** A per-event context matches the running source exactly when the stream
    config did not move and every entry that could have contributed to what was
    indexed is declared on both sides; an entry that starts above the cursor
    costs nothing. *)
Theorem stateMatches_iff (hashes : list SourceHashEntry) (config : string) (lastToBlock : Z)
    (context : ContextIdentifier) :
  isWholeSourceContext (ctx_source context) = false ->
  stateMatches hashes config lastToBlock context = true <->
  ctx_config context = config
  /\ (forall e, e ∈ hashes -> startBlock e <= lastToBlock ->
        entry_hash e ∈ entry_hash <$> ctx_source context)
  /\ (forall e, e ∈ ctx_source context -> startBlock e <= lastToBlock ->
        entry_hash e ∈ entry_hash <$> hashes).
Proof.
  intros Hlegacy. unfold stateMatches, sourceInvalidationOf.
  assert (forall es es', due lastToBlock (missingFrom entry_hash es es') = [] <->
    forall e, e ∈ es' -> startBlock e <= lastToBlock -> entry_hash e ∈ entry_hash <$> es) as Hdue.
  { intros es es'. rewrite due_nil. split.
    - intros Hall e He Hle. destruct (decide (entry_hash e ∈ entry_hash <$> es)) as [|Hn]; [done|].
      assert (e ∈ missingFrom entry_hash es es') as Hm; [|specialize (Hall e Hm); lia].
      apply elem_of_missingFrom. split; [done|]. intros e' He' Heq. apply Hn. rewrite <- Heq.
      by apply list_elem_of_fmap_2.
    - intros Hall e [He Hmiss]%elem_of_missingFrom.
      destruct (decide (startBlock e <= lastToBlock)) as [Hle|]; [|lia].
      destruct (proj1 (list_elem_of_fmap _ _ _) (Hall e He Hle)) as (e' & Heq & He').
      by destruct (Hmiss e' He'). }
  case_decide as Hcfg; simpl; [split; [done|]; by intros [? _]|].
  assert (isValid (verdictOn hashes (ctx_source context) entry_hash lastToBlock true) = true <->
    (forall e, e ∈ hashes -> startBlock e <= lastToBlock ->
        entry_hash e ∈ entry_hash <$> ctx_source context)
    /\ (forall e, e ∈ ctx_source context -> startBlock e <= lastToBlock ->
        entry_hash e ∈ entry_hash <$> hashes)) as Hv.
  { rewrite verdictOn_valid, !Hdue. tauto. }
  rewrite Hlegacy.
  destruct (head hashes ≫= legacyHash); [destruct (ctx_source context)|]; simpl; tauto.
Qed.

(** ** The theorems at work

    A source of two entries; the stored context lists them the other way round,
    and the second one was declared since, above the cursor. *)
Definition sample_entry (start : Z) (h : string) : SourceHashEntry := mkEntry start h (Some ("s" +:+ h)) None.

Lemma verdictOn_sets_witness :
  verdictOn [sample_entry 5 "x"; sample_entry 9 "y"] [sample_entry 5 "z"] entry_hash 7 true
  = verdictOn [sample_entry 9 "y"; sample_entry 5 "x"; sample_entry 9 "y"] [sample_entry 5 "z"] entry_hash 7 true.
Proof.
  apply verdictOn_sets; [|done]. intros e. rewrite !elem_of_cons, elem_of_nil. tauto.
Defined.

Lemma sourceInvalidationOf_implication_witness :
  let verdicts := sourceInvalidationOf [sample_entry 5 "x"] "cfg" 7 (mkContext [sample_entry 5 "z"] "cfg" "p") in
  stream_verdict verdicts = InvalidVerdict 5 entryAdded
  /\ exists m' reason', state_verdict verdicts = InvalidVerdict m' reason' /\ m' <= 5.
Proof.
  split; [by vm_compute|].
  apply (sourceInvalidationOf_implication _ _ _ _ 5 entryAdded); [|by vm_compute].
  intros e e' He He'. each_in He. each_in He'. done.
Defined.

Lemma stateMatches_iff_witness :
  isWholeSourceContext (ctx_source (mkContext [sample_entry 5 "x"] "cfg" "p")) = false
  /\ stateMatches [sample_entry 5 "x"; sample_entry 9 "y"] "cfg" 7 (mkContext [sample_entry 5 "x"] "cfg" "p") = true.
Proof.
  split; [done|]. apply stateMatches_iff; [done|]. split_and!; [done|..].
  - intros e He Hle. each_in He; [left|simpl in Hle; lia].
  - intros e He Hle. each_in He. left.
Defined.
