(* ===== verification/Hash.v ===== *)
(** * The 32-bit digest

    [simple_hash] of [packages/core/src/utils/hash.ts]: the loop over the UTF-16
    code units of the canonical text and the base-36 rendering.  The canonical
    text itself is an input here. *)
From S2P Require Import Prelude.

(** ** JavaScript's 32-bit conversions *)
Definition toUint32 (z : Z) : Z := z mod 2 ^ 32.

Definition toInt32 (z : Z) : Z :=
  let u := toUint32 z in if decide (u < 2 ^ 31) then u else u - 2 ^ 32.

(** [hash << 5]: a 32-bit shift. *)
Definition shl32 (z n : Z) : Z := toInt32 (Z.shiftl (toInt32 z) n).

(** [hash & hash]: both operands converted, the result a signed 32-bit integer. *)
Definition and32 (a b : Z) : Z := toInt32 (Z.land (toInt32 a) (toInt32 b)).

(** ** [simple_hash] *)

(** [hash = (hash << 5) - hash + char; hash &= hash;] *)
Definition hashStep (hash char : Z) : Z :=
  let hash' := shl32 hash 5 - hash + char in and32 hash' hash'.

Definition hash32 (codeUnits : list Z) : Z := toUint32 (foldl hashStep 0 codeUnits).

(** [toString(36)] of a non-negative integer: the digits, most significant first. *)
Definition base36digit (n : Z) : ascii :=
  ascii_of_nat (Z.to_nat (if decide (n < 10) then 48 + n else 87 + n)).

Fixpoint base36_go (fuel : nat) (n : Z) (acc : string) : string :=
  match fuel with
  | O => acc
  | S fuel =>
      let acc' := String (base36digit (n mod 36)) acc in
      if decide (n < 36) then acc' else base36_go fuel (n / 36) acc'
  end.

(** Seven digits hold every 32-bit value: [36 ^ 7 > 2 ^ 32]. *)
Definition base36 (n : Z) : string := base36_go 7 n "".

Definition simple_hash_of (codeUnits : list Z) : string := "h" +:+ base36 (hash32 codeUnits).

(** ** The digest is a polynomial modulo [2 ^ 32] *)
Definition horner31 (codeUnits : list Z) : Z := foldl (fun h c => 31 * h + c) 0 codeUnits.

Lemma toUint32_toInt32 z : toUint32 (toInt32 z) = toUint32 z.
Proof.
  unfold toInt32, toUint32. case_decide; [by rewrite Z.mod_mod|].
  rewrite Zminus_mod, Z.mod_mod, Z_mod_same_full, Z.sub_0_r by done. by rewrite Z.mod_mod.
Qed.

Lemma toUint32_eqm a b : toUint32 a = toUint32 b <-> eqm (2 ^ 32) a b.
Proof. done. Qed.

Lemma hashStep_mod h c : toUint32 (hashStep h c) = toUint32 (31 * h + c).
Proof.
  unfold hashStep, and32. rewrite Z.land_diag, !toUint32_toInt32.
  unfold toUint32. unfold shl32. rewrite Z.shiftl_mul_pow2 by lia.
  assert (forall z, exists k, toInt32 z = z + k * 2 ^ 32) as Hint.
  { intros z. unfold toInt32, toUint32. pose proof (Z.div_mod z (2 ^ 32)).
    case_decide; [exists (- (z / 2 ^ 32))|exists (- (z / 2 ^ 32) - 1)]; lia. }
  destruct (Hint h) as [k ->]. destruct (Hint ((h + k * 2 ^ 32) * 2 ^ 5)) as [k' ->].
  replace ((h + k * 2 ^ 32) * 2 ^ 5 + k' * 2 ^ 32 - h + c)
    with (31 * h + c + (32 * k + k') * 2 ^ 32) by lia.
  by rewrite Z_mod_plus_full.
Qed.

Lemma hash32_horner (codeUnits : list Z) :
  hash32 codeUnits = horner31 codeUnits mod 2 ^ 32 /\ 0 <= hash32 codeUnits < 2 ^ 32.
Proof.
  assert (forall l a b, toUint32 a = toUint32 b ->
    toUint32 (foldl hashStep a l) = toUint32 (foldl (fun h c => 31 * h + c) b l)) as Hfold.
  { induction l as [|c l IH]; intros a b Hab; [done|]. cbn [foldl]. apply IH.
    rewrite hashStep_mod. unfold toUint32 in *.
    by rewrite (Zplus_mod (31 * a)), (Zmult_mod 31 a), Hab, <- Zmult_mod, <- Zplus_mod. }
  split; [by apply Hfold|]. unfold hash32, toUint32. by apply Z.mod_pos_bound.
Qed.

(** The shift-and-subtract loop with its 32-bit wraparound computes the
    polynomial in 31 over the code units, modulo [2 ^ 32], and the digest is a
    32-bit value. *)
Theorem hash32_polynomial (codeUnits : list Z) :
  hash32 codeUnits = horner31 codeUnits mod 2 ^ 32 /\ 0 <= hash32 codeUnits < 2 ^ 32.
Proof. apply hash32_horner. Qed.

(** ** The rendering keeps the value *)
Definition digit_value (c : ascii) : Z :=
  let n := Z.of_nat (nat_of_ascii c) in if decide (n < 58) then n - 48 else n - 87.

Fixpoint base36_value (acc : Z) (s : string) : Z :=
  match s with
  | EmptyString => acc
  | String c s' => base36_value (36 * acc + digit_value c) s'
  end.

Lemma digit_value_digit n : 0 <= n < 36 -> digit_value (base36digit n) = n.
Proof.
  intros Hn. unfold digit_value, base36digit. rewrite nat_ascii_embedding.
  - repeat case_decide; lia.
  - case_decide; lia.
Qed.

Lemma base36_go_value fuel n acc :
  0 <= n < 36 ^ Z.of_nat fuel ->
  base36_value 0 (base36_go fuel n acc) = base36_value n acc.
Proof.
  revert n acc. induction fuel as [|fuel IH]; intros n acc Hn.
  { simpl in Hn. assert (n = 0) as -> by lia. done. }
  rewrite Nat2Z.inj_succ, Z.pow_succ_r in Hn by lia. cbn [base36_go].
  assert (0 <= n mod 36 < 36) by (apply Z.mod_pos_bound; lia).
  case_decide.
  - cbn [base36_value]. rewrite digit_value_digit, Z.mod_small by lia. by rewrite Z.mul_0_r, Z.add_0_l.
  - rewrite IH by (split; [apply Z.div_pos; lia|apply Z.div_lt_upper_bound; lia]).
    cbn [base36_value]. rewrite digit_value_digit by done. f_equal.
    pose proof (Z.div_mod n 36). lia.
Qed.

(** Two digests are the same text exactly when their 32-bit values agree. *)
Theorem simple_hash_of_inj (codeUnits codeUnits' : list Z) :
  simple_hash_of codeUnits = simple_hash_of codeUnits' <-> hash32 codeUnits = hash32 codeUnits'.
Proof.
  split; [|by unfold simple_hash_of; intros ->]. unfold simple_hash_of. intros [= Heq].
  change (base36 (hash32 codeUnits) = base36 (hash32 codeUnits')) in Heq.
  pose proof (hash32_horner codeUnits) as [_ H1]. pose proof (hash32_horner codeUnits') as [_ H2].
  assert (forall n, 0 <= n < 2 ^ 32 -> base36_value 0 (base36 n) = n) as Hval.
  { intros n Hn. unfold base36. rewrite base36_go_value; [done|]. simpl. lia. }
  rewrite <- (Hval (hash32 codeUnits)), <- (Hval (hash32 codeUnits')) by done. by rewrite Heq.
Qed.
