(* ===== verification/Entities.v ===== *)
(** * Entities, business keys and stored values

    The declaration side of [packages/state-store/src/entities.ts] a store uses
    at run time ([idValues], [entityKey], [encodeFieldValues],
    [decodeFieldValues]), the [u256] codec of [semantic-types.ts] and the mutation
    and block types of [types.ts]. *)
From S2P Require Import Prelude JsMap.

(** A value a row may hold: what the seam hands in and out, and what is stored. *)
Inductive Value : Type :=
  | VNull
  | VText (s : string)
  | VNum (n : Z)
  | VBool (b : bool)
  | VBigInt (n : Z)
  | VBytes (bytes : list Z).

#[export] Instance Value_eq_dec : EqDecision Value.
Proof. solve_decision. Defined.

(** [Record<string, unknown>]: an absent field is [undefined]. *)
Abbreviation Values := (gmap string Value).

Inductive FieldType : Type := text | integer | real | blob.

(** [FieldDeclaration]; [u256] is the one semantic type. *)
Inductive FieldDeclaration : Type :=
  | Storage (type : FieldType)
  | EnumField (values : list string)
  | U256Field (storage : FieldType).

Record NormalizedEntity : Type := mkEntity {
  entity_name : string;
  entity_id : list string;
  entity_fields : list (string * FieldDeclaration);
  (** [parent]: the parent entity and the name of its collection of these. *)
  entity_parent : option (string * string)
}.

Definition fieldStorage (field : FieldDeclaration) : FieldType :=
  match field with Storage type => type | EnumField _ => text | U256Field storage => storage end.

(** [EntityId]: the columns named by the entity's [id], a string or a number each. *)
Inductive IdValue : Type := IdText (s : string) | IdNum (n : Z).
Abbreviation EntityId := (gmap string IdValue).

Inductive Mutation : Type :=
  | Upsert (entity : string) (id : EntityId) (values : Values)
  | Delete (entity : string) (id : EntityId).

Definition mutation_entity (m : Mutation) : string :=
  match m with Upsert e _ _ | Delete e _ => e end.

Definition mutation_id (m : Mutation) : EntityId :=
  match m with Upsert _ id _ | Delete _ id => id end.

(** What a call on a store may throw. *)
Inductive StoreError : Type :=
  | UnknownEntityError (name : string)
  | MissingIdColumn (entity column : string)
  | NulInIdColumn (entity column : string)
  | NotInEnum (entity field : string)
  | NotAdmitted (entity field : string)
  | NotCanonical (entity field : string)
  | BadListingPrefix (entity : string)
  | BadListingLimit (entity : string)
  | InvalidBlockHash
  | BlockAlreadyRecorded (number : Z)
  | BlockHashAlreadyRecorded (hash : string)
  | BlockNotAboveTip (number tip : Z)
  | InvalidBlockNumber
  | NotRetained (requested : Z) (from : option Z)
  | InvalidRetention
  | InvalidFinalityDepth
  | InvalidPruneBudget
  | RevertBeyondPatchHistory (keepUpTo : Z) (missing : list Z) (deepest finalityDepth : option Z)
  | RevertBeyondSnapshotError (keepUpTo snapshotOrigin : Z)
  | StoreWriterChangedError (operation : string)
  | SqlRefused.

Definition entities_map : Type := list (string * NormalizedEntity).

Definition mustGet (entities : entities_map) (name : string) : result StoreError NormalizedEntity :=
  match jm_get entities name with
  | Some entity => Ok entity
  | None => Err (UnknownEntityError name)
  end.

(** ** Business keys *)
Definition SEPARATOR : ascii := zero.

(** [String(value)] *)
Definition idText (v : IdValue) : string :=
  match v with IdText s => s | IdNum n => pretty n end.

Definition idColumn (entity : NormalizedEntity) (id : EntityId) (column : string)
    : result StoreError string :=
  match id !! column with
  | None => Err (MissingIdColumn (entity_name entity) column)
  | Some value =>
      if decide (free_of SEPARATOR (idText value)) then Ok (idText value)
      else Err (NulInIdColumn (entity_name entity) column)
  end.

Definition idValues (entity : NormalizedEntity) (id : EntityId) : result StoreError (list string) :=
  mapR (idColumn entity id) (entity_id entity).

(** [array.join(SEPARATOR)] *)
Fixpoint join (sep : ascii) (parts : list string) : string :=
  match parts with
  | [] => ""
  | [s] => s
  | s :: parts' => s +:+ String sep (join sep parts')
  end.

Definition entityKey (entity : NormalizedEntity) (id : EntityId) : result StoreError string :=
  match idValues entity id with
  | Ok values => Ok (join SEPARATOR (entity_name entity :: values))
  | Err e => Err e
  end.

(** ** The [u256] codec *)
Definition U256_BYTES : nat := 32.

(** The loop from the last byte down; it stops early on [rest = 0], where every
    byte it would have written is the zero the array was created with. *)
Fixpoint u256_bytes (index : nat) (rest : Z) (bytes : list Z) : list Z :=
  match index with
  | O => bytes
  | S index =>
      if decide (0 < rest)
      then u256_bytes index (Z.shiftr rest 8) (<[index := Z.land rest 255]> bytes)
      else bytes
  end.

Definition u256_encode (value : Value) : option Value :=
  match value with
  | VBigInt n =>
      if decide (n < 0) then None
      else if decide (2 ^ 256 - 1 < n) then None
      else Some (VBytes (u256_bytes U256_BYTES n (replicate U256_BYTES 0)))
  | _ => None
  end.

Definition u256_decode (encoded : Value) : option Value :=
  match encoded with
  | VBytes bytes =>
      if decide (length bytes = U256_BYTES)
      then Some (VBigInt (foldl (fun value byte => Z.lor (Z.shiftl value 8) byte) 0 bytes))
      else None
  | _ => None
  end.

(** ** What an upsert stores and a read answers *)
Definition enumAdmits (allowed : list string) (value : option Value) : bool :=
  match value with
  | None | Some VNull => true
  | Some (VText s) => bool_decide (s ∈ allowed)
  | Some _ => false
  end.

(** The first loop of [encodeFieldValues]. *)
Fixpoint checkEnums (name : string) (fields : list (string * FieldDeclaration)) (values : Values)
    : result StoreError unit :=
  match fields with
  | [] => Ok tt
  | (field, EnumField allowed) :: rest =>
      if enumAdmits allowed (values !! field) then checkEnums name rest values
      else Err (NotInEnum name field)
  | _ :: rest => checkEnums name rest values
  end.

(** The loop over the semantic fields that both directions run: [out] starts as
    a copy of [values], a missing or NULL field passes through. *)
Fixpoint semanticLoop (convert : Value -> option Value) (refusal : string -> StoreError)
    (fields : list (string * FieldDeclaration)) (values out : Values) : result StoreError Values :=
  match fields with
  | [] => Ok out
  | (field, U256Field _) :: rest =>
      match values !! field with
      | None | Some VNull => semanticLoop convert refusal rest values out
      | Some value =>
          match convert value with
          | Some converted => semanticLoop convert refusal rest values (<[field := converted]> out)
          | None => Err (refusal field)
          end
      end
  | _ :: rest => semanticLoop convert refusal rest values out
  end.

Definition encodeFieldValues (entity : NormalizedEntity) (values : Values) : result StoreError Values :=
  match checkEnums (entity_name entity) (entity_fields entity) values with
  | Err e => Err e
  | Ok _ => semanticLoop u256_encode (NotAdmitted (entity_name entity)) (entity_fields entity) values values
  end.

Definition decodeFieldValues (entity : NormalizedEntity) (row : Values) : result StoreError Values :=
  semanticLoop u256_decode (NotCanonical (entity_name entity)) (entity_fields entity) row row.

(** The id columns and every declared field, an unlisted one as NULL: the row a
    backend writes for an upsert, and the one a block's staging area answers. *)
Definition wholeRow (entity : NormalizedEntity) (id : list string) (values : Values) : Values :=
  foldl (fun row '(field, _) => <[field := default VNull (values !! field)]> row)
    (list_to_map (reverse (zip (entity_id entity) (VText <$> id)))) (entity_fields entity).

(** ** Blocks *)
Record BlockPointer : Type := mkPointer {
  bp_number : Z;
  bp_hash : string;
  bp_timestamp : Z
}.

Definition lowerChar (c : ascii) : ascii :=
  let n := nat_of_ascii c in
  if decide (65 <= n <= 90)%nat then ascii_of_nat (n + 32) else c.

Fixpoint toLowerCase (s : string) : string :=
  match s with
  | EmptyString => EmptyString
  | String c s' => String (lowerChar c) (toLowerCase s')
  end.

(** A block hash is a non-empty hex string; [toLowerCase] is modelled on ASCII. *)
Definition normalizeBlockHash (hash : string) : result StoreError string :=
  match hash with
  | EmptyString => Err InvalidBlockHash
  | _ => Ok (toLowerCase hash)
  end.

(** ** Keys name one entity *)
Lemma not_free_of_separator c s t : ~ free_of c (s +:+ String c t).
Proof. rewrite free_of_app. simpl. tauto. Qed.

Lemma join_inj sep l l' :
  Forall (free_of sep) l -> Forall (free_of sep) l' -> l <> [] -> l' <> [] ->
  join sep l = join sep l' -> l = l'.
Proof.
  intros Hl. revert l'. induction Hl as [|s l Hs Hl IH]; intros l' Hl' Hne Hne'; [done|].
  destruct Hl' as [|s' l' Hs' Hl']; [done|].
  destruct l as [|t l], l' as [|t' l']; cbn [join]; intros Heq.
  - by subst.
  - exfalso. rewrite Heq in Hs. by apply not_free_of_separator in Hs.
  - exfalso. rewrite <- Heq in Hs'. by apply not_free_of_separator in Hs'.
  - apply separator_inj in Heq as [-> Heq]; [|done..]. f_equal. by apply IH.
Qed.

Lemma mapR_Forall {E A B} (f : A -> result E B) (P : B -> Prop) l bs :
  (forall a b, f a = Ok b -> P b) -> mapR f l = Ok bs -> Forall P bs.
Proof.
  intros Hf. revert bs. induction l as [|a l IH]; intros bs; simpl; [intros [= <-]; constructor|].
  destruct (f a) eqn:Ha; [|done]. destruct (mapR f l) eqn:Hl; [|done].
  intros [= <-]. constructor; eauto.
Qed.

Lemma idValues_free entity id values :
  idValues entity id = Ok values -> Forall (free_of SEPARATOR) values.
Proof.
  apply mapR_Forall. intros column s. unfold idColumn. destruct (id !! column); [|done].
  case_decide; [|done]. by intros [= <-].
Qed.

Lemma entityKey_inj (e e' : NormalizedEntity) (id id' : EntityId) (key : string) :
  free_of SEPARATOR (entity_name e) -> free_of SEPARATOR (entity_name e') ->
  entityKey e id = Ok key -> entityKey e' id' = Ok key ->
  entity_name e = entity_name e' /\ idValues e id = idValues e' id'.
Proof.
  unfold entityKey. intros Hn Hn'.
  destruct (idValues e id) as [vs|] eqn:Hv; [|done]. destruct (idValues e' id') as [vs'|] eqn:Hv'; [|done].
  intros Hk Hk'. assert (join SEPARATOR (entity_name e :: vs) = join SEPARATOR (entity_name e' :: vs'))
    as Heq by congruence.
  apply join_inj in Heq; [by injection Heq as -> ->|..]; try done; constructor; eauto using idValues_free.
Qed.

(** One key, one entity: two ids render to the same key only when they name the
    same entity and agree on every id column, whatever other properties the
    caller's objects carry and however the columns were written. *)
Theorem entityKey_injective (e e' : NormalizedEntity) (id id' : EntityId) (key : string) :
  free_of SEPARATOR (entity_name e) -> free_of SEPARATOR (entity_name e') ->
  entityKey e id = Ok key -> entityKey e' id' = Ok key ->
  entity_name e = entity_name e' /\ idValues e id = idValues e' id'.
Proof. apply entityKey_inj. Qed.

(** ** The [u256] encoding *)

(** The big-endian value of a byte list. *)
Definition big_endian (bytes : list Z) : Z := foldl (fun v b => 256 * v + b) 0 bytes.

Definition is_bytes (bytes : list Z) : Prop := Forall (fun b => 0 <= b < 256) bytes.

Lemma big_endian_acc v bytes :
  foldl (fun v b => 256 * v + b) v bytes = v * 256 ^ Z.of_nat (length bytes) + big_endian bytes.
Proof.
  unfold big_endian. revert v. induction bytes as [|b bytes IH]; intros v; cbn [foldl length].
  - simpl. lia.
  - rewrite IH, (IH (256 * 0 + b)). rewrite Nat2Z.inj_succ, Z.pow_succ_r by lia. lia.
Qed.

Lemma big_endian_cons b bytes :
  big_endian (b :: bytes) = b * 256 ^ Z.of_nat (length bytes) + big_endian bytes.
Proof. unfold big_endian at 1. cbn [foldl]. by rewrite big_endian_acc. Qed.

Lemma big_endian_snoc bytes b : big_endian (bytes ++ [b]) = 256 * big_endian bytes + b.
Proof. unfold big_endian. by rewrite foldl_app. Qed.

Lemma big_endian_bound bytes :
  is_bytes bytes -> 0 <= big_endian bytes < 256 ^ Z.of_nat (length bytes).
Proof.
  induction 1 as [|b bytes Hb Hbs IH]; [done|]. rewrite big_endian_cons. cbn [length].
  rewrite Nat2Z.inj_succ, Z.pow_succ_r by lia. nia.
Qed.

Lemma byte_testbit b n : 0 <= b < 256 -> 8 <= n -> Z.testbit b n = false.
Proof.
  intros Hb Hn. destruct (decide (b = 0)) as [->|]; [apply Z.bits_0|].
  apply Z.bits_above_log2; [lia|]. apply Z.log2_lt_pow2; [lia|].
  apply Z.lt_le_trans with (2 ^ 8); [lia|apply Z.pow_le_mono_r; lia].
Qed.

Lemma lor_shift_byte v b : 0 <= b < 256 -> Z.lor (Z.shiftl v 8) b = 256 * v + b.
Proof.
  intros Hb. assert (Z.land (Z.shiftl v 8) b = 0) as Hland.
  { apply Z.bits_inj'. intros n Hn. rewrite Z.land_spec, Z.bits_0, Z.shiftl_spec by done.
    destruct (decide (n < 8)); [by rewrite Z.testbit_neg_r by lia|].
    by rewrite (byte_testbit b), andb_false_r by lia. }
  rewrite <- Z.lxor_lor, <- Z.add_nocarry_lxor by done. rewrite Z.shiftl_mul_pow2 by lia. lia.
Qed.

Lemma decode_shift bytes v :
  is_bytes bytes ->
  foldl (fun value byte => Z.lor (Z.shiftl value 8) byte) v bytes
  = foldl (fun v b => 256 * v + b) v bytes.
Proof.
  intros Hb. revert v. induction Hb as [|b bytes Hb Hbs IH]; intros v; [done|]. cbn [foldl].
  rewrite lor_shift_byte by done. apply IH.
Qed.

(** The loop writes the base-256 digits of [rest] into the low [index] bytes. *)
Lemma u256_bytes_spec index rest tail :
  0 <= rest < 256 ^ Z.of_nat index -> is_bytes tail ->
  exists head, u256_bytes index rest (replicate index 0 ++ tail) = head ++ tail
    /\ length head = index /\ is_bytes head /\ big_endian head = rest.
Proof.
  revert rest tail. induction index as [|index IH]; intros rest tail Hr Ht.
  { exists []. split_and!; [done|done|constructor|]. simpl in Hr. unfold big_endian. simpl. lia. }
  rewrite Nat2Z.inj_succ, Z.pow_succ_r in Hr by lia. cbn [u256_bytes]. case_decide as Hpos.
  - assert (Z.land rest 255 = rest mod 256) as Hmod by (apply (Z.land_ones rest 8); lia).
    assert (Z.shiftr rest 8 = rest / 256) as -> by (apply (Z.shiftr_div_pow2 rest 8); lia).
    assert (0 <= rest mod 256 < 256) by (apply Z.mod_pos_bound; lia). rewrite Hmod.
    replace (<[index:=rest mod 256]> (replicate (S index) 0 ++ tail))
      with (replicate index 0 ++ (rest mod 256) :: tail).
    2:{ replace (S index) with (index + 1)%nat by lia. rewrite replicate_add, <- app_assoc. simpl.
        rewrite insert_app_r_alt by (by rewrite length_replicate).
        by rewrite length_replicate, Nat.sub_diag. }
    destruct (IH (rest / 256) ((rest mod 256) :: tail)) as (head & -> & Hlen & Hb & Hv).
    { split; [apply Z.div_pos; lia|apply Z.div_lt_upper_bound; lia]. }
    { by constructor. }
    exists (head ++ [rest mod 256]). rewrite length_app, big_endian_snoc, Hv. cbn [length].
    split_and!; [by rewrite <- app_assoc|lia|apply Forall_app; split; [done|by apply Forall_singleton]|].
    pose proof (Z.div_mod rest 256). lia.
  - assert (rest = 0) as -> by lia. exists (replicate (S index) 0).
    split_and!; [done|by rewrite length_replicate| |].
    + apply Forall_replicate. lia.
    + clear. induction (S index) as [|n IHn]; [done|]. cbn [replicate]. rewrite big_endian_cons, IHn. lia.
Qed.

Lemma u256_encode_spec n :
  0 <= n < 2 ^ 256 ->
  exists bytes, u256_encode (VBigInt n) = Some (VBytes bytes)
    /\ length bytes = 32%nat /\ is_bytes bytes /\ big_endian bytes = n.
Proof.
  intros Hn. unfold u256_encode. rewrite !decide_False by lia.
  destruct (u256_bytes_spec U256_BYTES n []) as (bytes & Heq & Hlen & Hb & Hv); [|constructor|].
  { change (256 ^ Z.of_nat U256_BYTES) with (2 ^ 256). lia. }
  rewrite !app_nil_r in Heq. exists bytes. by rewrite Heq.
Qed.

Lemma u256_encode_bounds v bytes :
  u256_encode v = Some bytes -> exists n, v = VBigInt n /\ 0 <= n < 2 ^ 256.
Proof.
  destruct v as [| | | |n|]; try done. unfold u256_encode. repeat case_decide; try done.
  intros _. exists n. split; [done|lia].
Qed.

Lemma u256_decode_bytes bytes :
  length bytes = 32%nat -> is_bytes bytes -> u256_decode (VBytes bytes) = Some (VBigInt (big_endian bytes)).
Proof.
  intros Hlen Hb. unfold u256_decode. rewrite decide_True by done. by rewrite decode_shift.
Qed.

(** Byte-wise order of two encodings of the same width. *)
Fixpoint bytes_compare (a b : list Z) : comparison :=
  match a, b with
  | x :: a, y :: b => match x ?= y with Eq => bytes_compare a b | c => c end
  | [], [] => Eq
  | [], _ => Lt
  | _, [] => Gt
  end.

Lemma bytes_compare_big_endian a b :
  is_bytes a -> is_bytes b -> length a = length b -> bytes_compare a b = (big_endian a ?= big_endian b).
Proof.
  intros Ha. revert b. induction Ha as [|x a Hx Ha IH]; intros b Hb Hlen; destruct Hb as [|y b Hy Hb]; try done.
  injection Hlen as Hlen. cbn [bytes_compare]. rewrite !big_endian_cons, <- Hlen, IH by done.
  pose proof (big_endian_bound a Ha). pose proof (big_endian_bound b Hb). rewrite <- Hlen in *.
  destruct (Z.compare_spec x y) as [->|Hlt|Hlt].
  - destruct (Z.compare_spec (big_endian a) (big_endian b)); symmetry;
      [apply Z.compare_eq_iff|apply Z.compare_lt_iff|apply Z.compare_gt_iff]; lia.
  - symmetry. apply Z.compare_lt_iff. nia.
  - symmetry. apply Z.compare_gt_iff. nia.
Qed.

Lemma bytes_compare_Eq a b : bytes_compare a b = Eq -> a = b.
Proof.
  revert b. induction a as [|x a IH]; intros [|y b]; cbn [bytes_compare]; try done.
  destruct (Z.compare_spec x y) as [->|?|?]; try done. intros ?. f_equal. by apply IH.
Qed.

Lemma big_endian_inj a b :
  is_bytes a -> is_bytes b -> length a = length b -> big_endian a = big_endian b -> a = b.
Proof.
  intros Ha Hb Hlen Hv. apply bytes_compare_Eq. rewrite bytes_compare_big_endian by done.
  by apply Z.compare_eq_iff.
Qed.

(** The encoding is total on 256-bit integers and refuses everything else, comes
    back as the value it was, has one stored form per value, and its byte-wise
    order is the numeric order. *)
Theorem u256_codec :
  (forall v, is_Some (u256_encode v) <-> exists n, v = VBigInt n /\ 0 <= n < 2 ^ 256)
  /\ (forall v bytes, u256_encode v = Some bytes -> u256_decode bytes = Some v)
  /\ (forall bytes, length bytes = 32%nat -> is_bytes bytes ->
        exists v, u256_decode (VBytes bytes) = Some v /\ u256_encode v = Some (VBytes bytes))
  /\ (forall n m a b, u256_encode (VBigInt n) = Some (VBytes a) ->
        u256_encode (VBigInt m) = Some (VBytes b) -> bytes_compare a b = (n ?= m)).
Proof.
  split_and!.
  - intros v. split; [intros [? ?]; by eapply u256_encode_bounds|].
    intros (n & -> & Hn). destruct (u256_encode_spec n Hn) as (bytes & -> & _). done.
  - intros v bytes He. destruct (u256_encode_bounds _ _ He) as (n & -> & Hn).
    destruct (u256_encode_spec n Hn) as (bs & He' & Hlen & Hb & Hv). rewrite He in He'.
    injection He' as ->. by rewrite u256_decode_bytes, Hv.
  - intros bytes Hlen Hb. exists (VBigInt (big_endian bytes)). split; [by apply u256_decode_bytes|].
    pose proof (big_endian_bound _ Hb) as Hbound. rewrite Hlen in Hbound.
    change (256 ^ Z.of_nat 32) with (2 ^ 256) in Hbound.
    destruct (u256_encode_spec _ Hbound) as (bs & -> & Hlen' & Hb' & Hv). do 2 f_equal.
    apply big_endian_inj; congruence.
  - intros n m a b Ha Hb. destruct (u256_encode_bounds _ _ Ha) as (? & [= <-] & Hn).
    destruct (u256_encode_bounds _ _ Hb) as (? & [= <-] & Hm).
    destruct (u256_encode_spec n Hn) as (a' & Ha' & Hla & Hba & Hva).
    destruct (u256_encode_spec m Hm) as (b' & Hb' & Hlb & Hbb & Hvb).
    rewrite Ha in Ha'. rewrite Hb in Hb'. injection Ha' as ->. injection Hb' as ->.
    rewrite bytes_compare_big_endian by congruence. congruence.
Qed.

(** ** Stored fields come back as they were written *)
Definition is_semantic (d : FieldDeclaration) : bool :=
  match d with U256Field _ => true | _ => false end.

(** What the loop does to one field. *)
Definition converted (convert : Value -> option Value) (d : FieldDeclaration) (value : option Value)
    : option (option Value) :=
  match d, value with
  | U256Field _, Some v => if decide (v = VNull) then Some value else Some <$> convert v
  | _, _ => Some value
  end.

Lemma semanticLoop_other convert refusal fields values out res f :
  semanticLoop convert refusal fields values out = Ok res -> f ∉ fields.*1 -> res !! f = out !! f.
Proof.
  revert out. induction fields as [|[g d] fields IH]; intros out; simpl; [by intros [= <-]|].
  intros Hrec [Hne Hf]%not_elem_of_cons.
  destruct d; [by apply IH|by apply IH|]. destruct (values !! g) as [v|]; [|by apply IH].
  destruct v; try (by apply IH); destruct (convert _); try done;
    (rewrite (IH _ Hrec Hf); by apply lookup_insert_ne).
Qed.

Lemma semanticLoop_field convert refusal fields values out res f d :
  NoDup fields.*1 -> (forall g, g ∈ fields.*1 -> out !! g = values !! g) ->
  semanticLoop convert refusal fields values out = Ok res ->
  (f, d) ∈ fields -> converted convert d (values !! f) = Some (res !! f).
Proof.
  revert out. induction fields as [|[g d'] fields IH]; intros out Hnd Hag Hrec Hin; [by apply not_elem_of_nil in Hin|].
  rewrite fmap_cons in Hnd, Hag. simpl in Hnd, Hag. apply NoDup_cons in Hnd as [Hg Hnd].
  assert (forall h, h ∈ fields.*1 -> out !! h = values !! h) as Hag'.
  { intros h Hh. apply Hag. by right. }
  assert (semanticLoop convert refusal fields values out = Ok res ->
    converted convert d' (values !! g) = Some (values !! g) ->
    converted convert d (values !! f) = Some (res !! f)) as Hskip.
  { intros Hrec' Hc. apply elem_of_cons in Hin as [[= -> ->]|Hin]; [|by eapply IH].
    rewrite (semanticLoop_other _ _ _ _ _ _ _ Hrec' Hg), Hag by left. done. }
  cbn [semanticLoop] in Hrec. destruct d' as [t|vs|st]; [by apply Hskip..|].
  destruct (values !! g) as [v|] eqn:Hv; [|by apply Hskip].
  destruct (decide (v = VNull)) as [->|Hnn]; [by apply Hskip|].
  assert (exists x, convert v = Some x /\ semanticLoop convert refusal fields values (<[g:=x]> out) = Ok res)
    as (x & Hx & Hrec') by (destruct v; try done; destruct (convert _) as [x|]; try done; by exists x).
  apply elem_of_cons in Hin as [[= -> ->]|Hin].
  - rewrite (semanticLoop_other _ _ _ _ _ _ _ Hrec' Hg), lookup_insert_eq, Hv. simpl.
    by rewrite decide_False, Hx by done.
  - eapply (IH (<[g:=x]> out)); try done. intros h Hh. rewrite lookup_insert_ne; [by apply Hag'|].
    by intros ->.
Qed.

Lemma semanticLoop_total convert refusal fields values out :
  (forall f d, (f, d) ∈ fields -> is_Some (converted convert d (values !! f))) ->
  exists res, semanticLoop convert refusal fields values out = Ok res.
Proof.
  revert out. induction fields as [|[g d] fields IH]; intros out Hall; [by exists out|].
  assert (forall f d', (f, d') ∈ fields -> is_Some (converted convert d' (values !! f))) as Hall'
    by (intros f d' Hin; apply Hall; by right).
  specialize (Hall g d (list_elem_of_here _ _)). cbn [semanticLoop].
  destruct d as [t|vs|st]; [by apply IH..|]. destruct (values !! g) as [v|]; [|by apply IH].
  simpl in Hall. destruct (decide (v = VNull)) as [->|Hnn]; [by apply IH|].
  destruct (convert v) eqn:Hc; [|by destruct Hall]. destruct v; rewrite ?Hc; done || by apply IH.
Qed.

(** The loop that writes every declared field, an unlisted one as NULL. *)
Lemma declared_lookup (fields : list (string * FieldDeclaration)) (row values : Values) f :
  NoDup fields.*1 ->
  foldl (fun row '(field, _) => <[field := default VNull (values !! field)]> row) row fields !! f =
    if decide (f ∈ fields.*1) then Some (default VNull (values !! f)) else row !! f.
Proof.
  revert row. induction fields as [|[g d] fields IH]; intros row Hnd.
  { rewrite decide_False; [done|apply not_elem_of_nil]. }
  rewrite fmap_cons in *. simpl in Hnd. apply NoDup_cons in Hnd as [Hg Hnd]. cbn [foldl].
  rewrite IH by done. simpl (fst _). destruct (decide (f ∈ fields.*1)) as [Hf|Hf].
  - by rewrite decide_True by (by right).
  - destruct (decide (g = f)) as [->|Hne].
    + by rewrite lookup_insert_eq, decide_True by left.
    + rewrite lookup_insert_ne by done. rewrite decide_False; [done|].
      by intros [->|?]%elem_of_cons.
Qed.

Lemma wholeRow_lookup entity id values f :
  NoDup (entity_fields entity).*1 ->
  wholeRow entity id values !! f =
    if decide (f ∈ (entity_fields entity).*1) then Some (default VNull (values !! f))
    else (list_to_map (reverse (zip (entity_id entity) (VText <$> id))) : Values) !! f.
Proof. apply declared_lookup. Qed.

Lemma row_roundtrip (entity : NormalizedEntity) (id : list string) (values stored : Values) :
  NoDup (entity_fields entity).*1 ->
  encodeFieldValues entity values = Ok stored ->
  decodeFieldValues entity (wholeRow entity id stored) = Ok (wholeRow entity id values).
Proof.
  intros Hnd Henc. unfold encodeFieldValues in Henc. destruct (checkEnums _ _ _); [|done].
  assert (forall f d, (f, d) ∈ entity_fields entity ->
    converted u256_decode d (wholeRow entity id stored !! f) = Some (wholeRow entity id values !! f)) as Hconv.
  { intros f d Hin. pose proof (semanticLoop_field _ _ _ _ _ _ f d Hnd (fun _ _ => eq_refl) Henc Hin) as Hf.
    assert (f ∈ (entity_fields entity).*1) as Hf' by (by apply (list_elem_of_fmap_2 fst _ (f, d))).
    rewrite !wholeRow_lookup, !decide_True by done.
    destruct d as [t|vs|st]; simpl in *; [by injection Hf as <-..|].
    destruct (values !! f) as [v|]; simpl in *; [|by injection Hf as <-].
    case_decide as Hv; [by injection Hf as <-; subst|].
    destruct (u256_encode v) as [x|] eqn:Hx; [|done]. injection Hf as <-. simpl.
    destruct (u256_encode_bounds _ _ Hx) as (n & -> & Hn).
    destruct (u256_encode_spec n Hn) as (bytes & Hb & Hlen & Hby & Hval).
    rewrite Hx in Hb. injection Hb as ->. rewrite decide_False by done.
    by rewrite u256_decode_bytes, Hval. }
  destruct (semanticLoop_total u256_decode (NotCanonical (entity_name entity)) (entity_fields entity)
    (wholeRow entity id stored) (wholeRow entity id stored)) as [res Hres].
  { intros f d Hin. rewrite Hconv by done. done. }
  unfold decodeFieldValues. rewrite Hres. f_equal. apply map_eq. intros f.
  destruct (decide (f ∈ (entity_fields entity).*1)) as [Hf|Hf].
  - apply list_elem_of_fmap in Hf as ([f' d] & -> & Hin). simpl.
    pose proof (semanticLoop_field _ _ _ _ _ _ f' d Hnd (fun _ _ => eq_refl) Hres Hin) as Hr.
    rewrite Hconv in Hr by done. by injection Hr as ->.
  - rewrite (semanticLoop_other _ _ _ _ _ _ _ Hres Hf), !wholeRow_lookup by done.
    by rewrite !decide_False.
Qed.

(** Whatever an upsert was admitted with is what a read answers: the row stored
    for it decodes to the row of its own values, semantic fields included. *)
Theorem stored_row_roundtrip (entity : NormalizedEntity) (id : list string) (values stored : Values) :
  NoDup (entity_fields entity).*1 ->
  encodeFieldValues entity values = Ok stored ->
  decodeFieldValues entity (wholeRow entity id stored) = Ok (wholeRow entity id values).
Proof. apply row_roundtrip. Qed.

(** ** The theorems at work *)
Definition sample_entity : NormalizedEntity :=
  mkEntity "Item" ["id"] [("owner", Storage text); ("amount", U256Field blob)] None.

Definition sample_id (n : Z) : EntityId := {["id" := IdNum n]}.

Lemma entityKey_injective_witness :
  let e := sample_entity in
  entityKey e (sample_id 7) = entityKey e (<["note" := IdText "x"]> (sample_id 7))
  /\ idValues e (sample_id 7) = idValues e (<["note" := IdText "x"]> (sample_id 7)).
Proof.
  split; [by vm_compute|].
  apply (entityKey_injective sample_entity sample_entity (sample_id 7) (<["note" := IdText "x"]> (sample_id 7))
    ("Item" +:+ String SEPARATOR "7")); by vm_compute.
Defined.

Lemma stored_row_roundtrip_witness :
  exists stored, encodeFieldValues sample_entity {["amount" := VBigInt 12345]} = Ok stored
    /\ decodeFieldValues sample_entity (wholeRow sample_entity ["7"] stored)
       = Ok (wholeRow sample_entity ["7"] {["amount" := VBigInt 12345]}).
Proof.
  destruct (encodeFieldValues sample_entity {["amount" := VBigInt 12345]}) as [stored|e] eqn:Henc.
  2:{ not_error Henc. }
  exists stored. split; [done|]. apply stored_row_roundtrip; [|exact Henc]. apply (bool_decide_unpack _). by vm_compute.
Defined.
