(* ===== verification/Listing.v ===== *)
(** * Listings: prefixes, the id order and the bound

    [packages/state-store/src/listing.ts].  An id column is compared by its
    UTF-16 code units; a Rocq string stands for the text whose code units are its
    characters' codes. *)
From S2P Require Import Prelude JsMap Entities.

(** ** [compareUtf8] *)
Definition codePointRank (unit : Z) : Z :=
  if decide (55296 <= unit /\ unit <= 57343) then unit + 65536 else unit.

Fixpoint compareUtf8 (a b : list Z) : Z :=
  match a, b with
  | x :: a', y :: b' => if decide (x <> y) then codePointRank x - codePointRank y else compareUtf8 a' b'
  | _, _ => Z.of_nat (length a) - Z.of_nat (length b)
  end.

Fixpoint codeUnits (s : string) : list Z :=
  match s with
  | EmptyString => []
  | String c s' => Z.of_nat (nat_of_ascii c) :: codeUnits s'
  end.

Fixpoint compareIds (a b : list string) : Z :=
  match a, b with
  | x :: a', y :: b' =>
      let compared := compareUtf8 (codeUnits x) (codeUnits y) in
      if decide (compared <> 0) then compared else compareIds a' b'
  | _, _ => Z.of_nat (length a) - Z.of_nat (length b)
  end.

(** ** Prefixes and the bound *)

(** [prefix.every((value, index) => id[index] === value)] *)
Definition hasIdPrefix (id prefix : list string) : bool :=
  forallb (fun p => bool_decide (id !! p.1 = Some p.2)) (imap pair prefix).

(** [prefixValues]: the named columns are the keys of the caller's object. *)
Definition prefixValues (entity : NormalizedEntity) (prefix : EntityId) : result StoreError (list string) :=
  let named := elements (dom prefix) in
  let leading := take (length named) (entity_id entity) in
  if decide (named = [] \/ (length (entity_id entity) < length named)%nat
             \/ ~ Forall (fun column => column ∈ leading) named)
  then Err (BadListingPrefix (entity_name entity))
  else idValues (mkEntity (entity_name entity) leading (entity_fields entity) (entity_parent entity)) prefix.

Definition assertListingLimit (entity : NormalizedEntity) (limit : Z) : result StoreError unit :=
  if decide (limit < 1) then Err (BadListingLimit (entity_name entity)) else Ok tt.

Record Listing (T : Type) : Type := mkListing { rows : list T; truncated : bool }.
Arguments mkListing {T} rows truncated.
Arguments rows {T} _.
Arguments truncated {T} _.

Definition boundedListing {T} (fetched : list T) (limit : Z) : Listing T :=
  mkListing (take (Z.to_nat limit) fetched) (bool_decide (limit < Z.of_nat (length fetched))).

(** [found.sort((a, b) => compareIds(a.id, b.id))]: a stable sort. *)
Section SortIds.
Context {T : Type} (idOf : T -> list string).

Fixpoint insert_id (x : T) (l : list T) : list T :=
  match l with
  | [] => [x]
  | y :: l' => if decide (compareIds (idOf x) (idOf y) <= 0) then x :: l else y :: insert_id x l'
  end.

Definition sort_ids (l : list T) : list T := foldr insert_id [] l.
End SortIds.

(** ** The order is code point order *)

(** The UTF-16 encoding of a code point. *)
Definition utf16 (cp : Z) : list Z :=
  if decide (cp < 65536) then [cp]
  else [55296 + (cp - 65536) / 1024; 56320 + (cp - 65536) mod 1024].

Definition encode_utf16 (cps : list Z) : list Z := concat (utf16 <$> cps).

(** A Unicode scalar value: no surrogate on its own. *)
Definition scalar (cp : Z) : Prop := 0 <= cp < 55296 \/ 57344 <= cp < 1114112.

Fixpoint lex_compare (a b : list Z) : comparison :=
  match a, b with
  | [], [] => Eq
  | [], _ => Lt
  | _, [] => Gt
  | x :: a', y :: b' => match x ?= y with Eq => lex_compare a' b' | c => c end
  end.

Lemma compareUtf8_cons x a y b :
  compareUtf8 (x :: a) (y :: b)
  = if decide (x <> y) then codePointRank x - codePointRank y else compareUtf8 a b.
Proof. done. Qed.

Lemma utf16_cases cp :
  scalar cp ->
  (cp < 65536 /\ utf16 cp = [cp] /\ codePointRank cp = cp)
  \/ (65536 <= cp /\ exists hi lo, utf16 cp = [55296 + hi; 56320 + lo]
      /\ 0 <= hi < 1024 /\ 0 <= lo < 1024 /\ cp - 65536 = 1024 * hi + lo).
Proof.
  intros Hcp. unfold utf16. case_decide as Hlow; [left|right].
  - split_and!; [done|done|]. unfold codePointRank, scalar in *. rewrite decide_False; [done|lia].
  - split; [lia|]. exists ((cp - 65536) / 1024), ((cp - 65536) mod 1024).
    pose proof (Z.div_mod (cp - 65536) 1024). pose proof (Z.mod_pos_bound (cp - 65536) 1024).
    unfold scalar in *.
    split_and!; [done|apply Z.div_pos; lia|apply Z.div_lt_upper_bound; lia|lia|lia|lia].
Qed.

Lemma rank_surrogate u : 0 <= u < 2048 -> codePointRank (55296 + u) = 120832 + u.
Proof. intros Hu. unfold codePointRank. rewrite decide_True; lia. Qed.

Lemma compareUtf8_head x y a b :
  scalar x -> scalar y -> x <> y -> (compareUtf8 (utf16 x ++ a) (utf16 y ++ b) ?= 0) = (x ?= y).
Proof.
  intros Hx Hy Hne.
  destruct (utf16_cases x Hx) as [(Hlx & -> & Hrx)|(Hlx & hx & lx & -> & Hhx & Hllx & Hex)],
    (utf16_cases y Hy) as [(Hly & -> & Hry)|(Hly & hy & ly & -> & Hhy & Hlly & Hey)];
    cbn [app]; rewrite compareUtf8_cons.
  - rewrite decide_True, Hrx, Hry by done. symmetry. by rewrite <- Z.compare_sub.
  - rewrite decide_True, Hrx, rank_surrogate by (lia || (unfold scalar in Hx; lia)).
    transitivity Lt; [|symmetry]; apply Z.compare_lt_iff; lia.
  - rewrite decide_True, Hry, rank_surrogate by (lia || (unfold scalar in Hy; lia)).
    transitivity Gt; [|symmetry]; apply Z.compare_gt_iff; lia.
  - destruct (decide (hx = hy)) as [->|Hh].
    + rewrite decide_False by tauto. rewrite compareUtf8_cons, decide_True by lia.
      replace (56320 + lx) with (55296 + (1024 + lx)) by lia.
      replace (56320 + ly) with (55296 + (1024 + ly)) by lia. rewrite !rank_surrogate by lia.
      destruct (Z.compare_spec x y) as [->|?|?]; [done|apply Z.compare_lt_iff|apply Z.compare_gt_iff]; lia.
    + rewrite decide_True, !rank_surrogate by lia.
      destruct (Z.compare_spec x y) as [->|?|?]; [done|apply Z.compare_lt_iff|apply Z.compare_gt_iff]; lia.
Qed.

Lemma compareUtf8_same p a b : compareUtf8 (p ++ a) (p ++ b) = compareUtf8 a b.
Proof. induction p as [|x p IH]; [done|]. simpl. rewrite decide_False by tauto. done. Qed.

Lemma utf16_nonempty cp a : exists u us, utf16 cp ++ a = u :: us.
Proof. unfold utf16. case_decide; by eexists _, _. Qed.

(** Comparing UTF-16 code units with the surrogates lifted is comparing code
    points, so the in-memory order agrees with the byte-wise order of the UTF-8
    encoding the other backends keep. *)
Theorem compareUtf8_code_points (a b : list Z) :
  Forall scalar a -> Forall scalar b ->
  (compareUtf8 (encode_utf16 a) (encode_utf16 b) ?= 0) = lex_compare a b.
Proof.
  intros Ha. revert b. induction Ha as [|x a Hx Ha IH]; intros b Hb; destruct Hb as [|y b Hy Hb].
  - done.
  - unfold encode_utf16. csimpl. destruct (utf16_nonempty y (concat (utf16 <$> b))) as (u & us & ->).
    cbn [compareUtf8 length lex_compare]. apply Z.compare_lt_iff. lia.
  - unfold encode_utf16. csimpl. destruct (utf16_nonempty x (concat (utf16 <$> a))) as (u & us & ->).
    cbn [compareUtf8 length lex_compare]. apply Z.compare_gt_iff. lia.
  - unfold encode_utf16 in *. csimpl. cbn [lex_compare]. destruct (decide (x = y)) as [->|Hne].
    + rewrite Z.compare_refl, compareUtf8_same. by apply IH.
    + rewrite compareUtf8_head by done. destruct (Z.compare_spec x y); done.
Qed.

(** A character outside the basic plane sorts after one above the surrogates. *)
Lemma compareUtf8_code_points_witness :
  (compareUtf8 (encode_utf16 [65; 128512]) (encode_utf16 [65; 65281]) ?= 0) = Gt.
Proof.
  rewrite (compareUtf8_code_points [65; 128512] [65; 65281]); [done|..];
    repeat constructor; unfold scalar; lia.
Defined.
