(* ===== verification/Quantities.v ===== *)
(** * Hexadecimal quantities

    JavaScript's [parseInt(text, 16)] and [n.toString(16)], through which a JSON-RPC answer's
    numbers are read and a request's are written.  [None] is [NaN]; the white space that is
    skipped is the ASCII one. *)
From S2P Require Import Prelude.

Definition hexValue (c : ascii) : option Z :=
  let n := Z.of_nat (nat_of_ascii c) in
  if decide (48 <= n <= 57) then Some (n - 48)
  else if decide (97 <= n <= 102) then Some (n - 87)
  else if decide (65 <= n <= 70) then Some (n - 55)
  else None.

Definition hexDigit (d : Z) : ascii := ascii_of_nat (Z.to_nat (if decide (d < 10) then d + 48 else d + 87)).

(** The longest run of digits, [NaN] when there is none. *)
Fixpoint readHex (read : option Z) (text : string) : option Z :=
  match text with
  | EmptyString => read
  | String c rest =>
      match hexValue c with
      | Some d => readHex (Some (16 * default 0 read + d)) rest
      | None => read
      end
  end.

Definition isSpace (c : ascii) : bool :=
  let n := Z.of_nat (nat_of_ascii c) in bool_decide (n = 32 \/ 9 <= n <= 13).

Fixpoint trimStart (text : string) : string :=
  match text with
  | String c rest => if isSpace c then trimStart rest else text
  | EmptyString => EmptyString
  end.

(** An optional [0x], which [parseInt] accepts in base 16. *)
Definition dropHexPrefix (text : string) : string :=
  match text with
  | String "0" (String "x" rest) | String "0" (String "X" rest) => rest
  | _ => text
  end.

Definition parseInt16 (text : string) : option Z :=
  match trimStart text with
  | String "-" rest => Z.opp <$> readHex None (dropHexPrefix rest)
  | String "+" rest => readHex None (dropHexPrefix rest)
  | trimmed => readHex None (dropHexPrefix trimmed)
  end.

(** [text.slice(2)] *)
Definition slice2 (text : string) : string :=
  match text with String _ (String _ rest) => rest | _ => EmptyString end.

(** [parseInt(text.slice(2), 16)] *)
Definition quantity (text : string) : option Z := parseInt16 (slice2 text).

Fixpoint hexDigits (fuel : nat) (n : Z) (tail : string) : string :=
  match fuel with
  | O => tail
  | S fuel =>
      let tail := String (hexDigit (n mod 16)) tail in
      if decide (n / 16 = 0) then tail else hexDigits fuel (n / 16) tail
  end.

(** [n.toString(16)]: a digit for every four bits. *)
Definition toString16 (n : Z) : string := hexDigits (S (Z.to_nat (Z.log2 n))) n "".

(** [('0x' + n.toString(16))] *)
Definition toQuantity (n : Z) : string := "0x" +:+ toString16 n.

(** ** Reading back what was written *)
Lemma hexValue_digit d : 0 <= d < 16 -> hexValue (hexDigit d) = Some d.
Proof.
  intros Hd. assert (d ∈ [0;1;2;3;4;5;6;7;8;9;10;11;12;13;14;15]) as Hin.
  { rewrite !elem_of_cons. lia. }
  by each_in Hin.
Qed.

Lemma readHex_digits fuel : forall n tail, 0 <= n < 16 ^ Z.of_nat fuel -> (0 < fuel)%nat ->
  readHex None (hexDigits fuel n tail) = readHex (Some n) tail.
Proof.
  induction fuel as [|fuel IH]; intros n tail Hn Hf; [lia|]. cbn [hexDigits].
  assert (0 <= n mod 16 < 16) as Hm by (apply Z.mod_pos_bound; lia).
  case_decide as Hdiv.
  - cbn [readHex]. rewrite hexValue_digit by done. cbn [default from_option id]. do 2 f_equal. pose proof (Z.div_mod n 16). lia.
  - assert (0 < fuel)%nat as Hf'.
    { destruct fuel; [|lia]. exfalso. apply Hdiv, Z.div_small. simpl in Hn. lia. }
    rewrite IH; [|split; [apply Z.div_pos; lia|]|done].
    + cbn [readHex]. rewrite hexValue_digit by done. cbn [default from_option id]. do 2 f_equal. pose proof (Z.div_mod n 16). lia.
    + apply Z.div_lt_upper_bound; [lia|]. rewrite <- Z.pow_succ_r by lia. rewrite <- Nat2Z.inj_succ. lia.
Qed.

Fixpoint allHex (text : string) : bool :=
  match text with EmptyString => true | String c rest => bool_decide (is_Some (hexValue c)) && allHex rest end.

Lemma hexDigits_allHex fuel : forall n tail, allHex tail = true -> allHex (hexDigits fuel n tail) = true.
Proof.
  induction fuel as [|fuel IH]; intros n tail Ht; [done|]. cbn [hexDigits].
  assert (allHex (String (hexDigit (n mod 16)) tail) = true) as Hs.
  { cbn. rewrite hexValue_digit by (apply Z.mod_pos_bound; lia). by rewrite Ht. }
  case_decide; [done|by apply IH].
Qed.

(** Nothing in a run of digits is a sign, white space or the [x] of a prefix. *)
Lemma parseInt16_allHex text : allHex text = true -> parseInt16 text = readHex None text.
Proof.
  destruct text as [|c text]; [done|]. cbn [allHex]. intros [Hc Ht]%andb_true_iff.
  apply bool_decide_eq_true in Hc. unfold parseInt16.
  assert (isSpace c = false) as Hsp.
  { unfold hexValue in Hc. apply bool_decide_eq_false. intros Hs. destruct Hc as [d Hc]. repeat case_decide; try done; lia. }
  cbn [trimStart]. rewrite Hsp.
  assert (dropHexPrefix (String c text) = String c text) as Hpre.
  { destruct text as [|c' text]; [by destruct c as [[] [] [] [] [] [] [] []]|]. cbn [allHex] in Ht.
    apply andb_true_iff in Ht as [Hc'%bool_decide_eq_true _].
    destruct c as [[] [] [] [] [] [] [] []]; try done. destruct c' as [[] [] [] [] [] [] [] []]; try done; by destruct Hc'. }
  destruct c as [[] [] [] [] [] [] [] []]; try (by destruct Hc); exact (f_equal (readHex None) Hpre).
Qed.

Lemma parseInt16_toString16 n : 0 <= n -> parseInt16 (toString16 n) = Some n.
Proof.
  intros Hn. unfold toString16. rewrite parseInt16_allHex by by apply hexDigits_allHex.
  rewrite readHex_digits; [done| |lia]. split; [done|].
  destruct (decide (n = 0)) as [->|Hne]; [done|]. pose proof (Z.log2_nonneg n).
  rewrite Nat2Z.inj_succ, Z2Nat.id by done. apply Z.lt_le_trans with (2 ^ Z.succ (Z.log2 n)); [apply Z.log2_spec; lia|].
  apply Z.pow_le_mono_l. lia.
Qed.

Lemma quantity_toQuantity n : 0 <= n -> quantity (toQuantity n) = Some n.
Proof. apply parseInt16_toString16. Qed.
