(* ===== verification/AbiEvents.v ===== *)
(** * What makes two declarations the same event

    [packages/core/src/internal/decoding/eventIdentity.ts] over the declarations a source
    carries ([types.ts]).  The canonical signature, the selector and the checksummed form
    of an address are viem's; [AbiLibrary] states what of them the code relies on. *)
From S2P Require Import Prelude.

#[local] Set Warnings "-register-all".

(** An ABI parameter; [components] are a tuple's. *)
Inductive AbiParameter : Type :=
  mkParameter (parameter_name : option string) (parameter_type : string) (parameter_indexed : option bool)
    (parameter_components : option (list AbiParameter)).

Record AbiEvent : Type := mkAbiEvent {
  event_name : string;
  event_inputs : list AbiParameter;
  event_anonymous : option bool
}.

(** [RangedAbiEvent] *)
Record RangedAbiEvent : Type := mkRanged {
  ranged_event : AbiEvent;
  declared_firstBlock : option Z;
  declared_lastBlock : option Z
}.

(** [item.type === 'event'], or a function, an error, a constructor. *)
Inductive AbiItem : Type :=
  | EventItem (event : RangedAbiEvent)
  | OtherItem.

(** [ContractData] and [AllContractData], with their ABI. *)
Record SourceContract : Type := mkSourceContract {
  source_address : string;
  source_abi : list AbiItem;
  source_startBlock : option Z
}.

Inductive SourceContracts : Type :=
  | ListedContracts (contracts : list SourceContract)
  | MergedAbi (abi : list AbiItem) (startBlock : option Z).

(** [abi.filter((item) => item.type === 'event')] *)
Definition eventsOfAbi (abi : list AbiItem) : list AbiEvent :=
  omap (fun item => match item with EventItem event => Some (ranged_event event) | OtherItem => None end) abi.

Lemma elem_of_eventsOfAbi event abi : event ∈ eventsOfAbi abi <-> exists item, EventItem item ∈ abi /\ ranged_event item = event.
Proof.
  unfold eventsOfAbi. rewrite list_elem_of_omap. split.
  - intros ([item|] & Hin & Heq); [|done]. injection Heq as <-. by exists item.
  - intros (item & Hin & <-). by exists (EventItem item).
Qed.

(** viem's [toEventSignature], [toEventSelector] and [getAddress]: a selector is the hash
    of the signature, and a checksummed address is its own checksummed form.  [getAddress]
    refuses what is not an address. *)
Class AbiLibrary : Type := {
  toEventSignature : AbiEvent -> string;
  toEventSelector : AbiEvent -> string;
  getAddress : string -> option string;
  selector_of_signature a b : toEventSignature a = toEventSignature b -> toEventSelector a = toEventSelector b;
  getAddress_again a b : getAddress a = Some b -> getAddress b = Some b;
  getAddress_hex a b : getAddress a = Some b -> b <> "" /\ b <> "*" /\ free_of ":" b /\ free_of "," b
}.

Section Identity.
Context `{lib : AbiLibrary}.

Definition canonicalSignatureOf (event : AbiEvent) : string := toEventSignature event.

(** [internal/utils/address.ts]; the caller's error says which address was refused. *)
Definition normalizeAddress {E} (refusal : string -> E) (addr : string) : result E string :=
  match getAddress addr with Some address => Ok address | None => Err (refusal addr) end.

Lemma normalizeAddress_Ok {E} (refusal : string -> E) addr address :
  normalizeAddress refusal addr = Ok address <-> getAddress addr = Some address.
Proof. unfold normalizeAddress. destruct (getAddress addr); [by split; intros [= ->]|done]. Qed.

(** [event.anonymous] as a condition. *)
Definition isAnonymous (event : AbiEvent) : bool := default false (event_anonymous event).

Definition topic0Of (event : AbiEvent) : option string :=
  if isAnonymous event then None else Some (toEventSelector event).

Lemma topic0Of_signature a b :
  canonicalSignatureOf a = canonicalSignatureOf b -> isAnonymous a = isAnonymous b -> topic0Of a = topic0Of b.
Proof. intros Hs Ha. unfold topic0Of. rewrite Ha. by rewrite (selector_of_signature a b). Qed.

Lemma topic0Of_Some event topic0 : topic0Of event = Some topic0 -> isAnonymous event = false /\ toEventSelector event = topic0.
Proof. unfold topic0Of. destruct (isAnonymous event); [done|]. by intros [= <-]. Qed.
End Identity.

(** ** What decoding reads of a declaration *)
Inductive ParameterShape : Type :=
  mkShape (shape_name : string) (shape_type : string) (shape_indexed : bool) (shape_components : option (list ParameterShape)).

Record DecodingShape : Type := mkDecodingShape { shape_anonymous : bool; shape_inputs : list ParameterShape }.

Fixpoint shapeOfParameter (parameter : AbiParameter) : ParameterShape :=
  match parameter with
  | mkParameter name type indexed components =>
      mkShape (default "" name) type (default false indexed)
        (match components with Some parts => Some (map shapeOfParameter parts) | None => None end)
  end.

Definition decodingShapeOf (event : AbiEvent) : DecodingShape :=
  mkDecodingShape (isAnonymous event) (map shapeOfParameter (event_inputs event)).

(** [deepEqual] on two arrays: as many elements, and equal at each index. *)
Definition list_eqb {A} (f : A -> A -> bool) : list A -> list A -> bool :=
  fix go (xs ys : list A) : bool :=
    match xs, ys with
    | [], [] => true
    | x :: xs, y :: ys => f x y && go xs ys
    | _, _ => false
    end.

Lemma list_eqb_eq {A} (f : A -> A -> bool) (xs : list A) :
  Forall (fun x => forall y, f x y = true <-> x = y) xs -> forall ys, list_eqb f xs ys = true <-> xs = ys.
Proof.
  induction 1 as [|x xs Hx _ IH]; intros [|y ys]; cbn; try done. rewrite andb_true_iff, Hx, IH. split.
  - by intros [-> ->].
  - by intros [= -> ->].
Qed.

(** [deepEqual] on two shapes: the same keys, and equal under each. *)
Fixpoint parameterShape_eqb (a b : ParameterShape) : bool :=
  match a, b with
  | mkShape name type indexed components, mkShape name' type' indexed' components' =>
      bool_decide (name = name') && bool_decide (type = type') && Bool.eqb indexed indexed'
        && match components, components' with
           | None, None => true
           | Some xs, Some ys => list_eqb parameterShape_eqb xs ys
           | _, _ => false
           end
  end.

Definition deepEqualShapes (a b : DecodingShape) : bool :=
  Bool.eqb (shape_anonymous a) (shape_anonymous b) && list_eqb parameterShape_eqb (shape_inputs a) (shape_inputs b).

Lemma parameterShape_eqb_eq : forall a b, parameterShape_eqb a b = true <-> a = b.
Proof.
  fix IH 1. intros [name type indexed components] [name' type' indexed' components'].
  assert (match components, components' with
    | None, None => true | Some xs, Some ys => list_eqb parameterShape_eqb xs ys | _, _ => false end = true
    <-> components = components') as Hparts.
  { destruct components as [xs|], components' as [ys|]; [|done..].
    assert (Forall (fun x => forall y, parameterShape_eqb x y = true <-> x = y) xs) as Hxs.
    { clear ys. induction xs as [|x xs IHxs]; constructor; [apply IH|apply IHxs]. }
    rewrite list_eqb_eq by exact Hxs. by split; [intros ->|intros [= ->]]. }
  cbn [parameterShape_eqb]. rewrite !andb_true_iff, !bool_decide_eq_true, Bool.eqb_true_iff, Hparts. split.
  - by intros [[[-> ->] ->] ->].
  - by intros [= -> -> -> ->].
Qed.

Lemma deepEqualShapes_eq a b : deepEqualShapes a b = true <-> a = b.
Proof.
  destruct a as [an ins], b as [an' ins']. unfold deepEqualShapes. cbn [shape_anonymous shape_inputs].
  rewrite andb_true_iff, Bool.eqb_true_iff, list_eqb_eq by (apply Forall_forall; intros; apply parameterShape_eqb_eq).
  split; [by intros [-> ->]|by intros [= -> ->]].
Qed.

#[export] Instance DecodingShape_eq_dec : EqDecision DecodingShape.
Proof.
  intros a b. destruct (deepEqualShapes a b) eqn:Heq; [left; by apply deepEqualShapes_eq|right].
  intros Hab%deepEqualShapes_eq. congruence.
Defined.

(** Two declarations of one event: nothing on the wire tells them apart. *)
Lemma same_shape_anonymous a b : decodingShapeOf a = decodingShapeOf b -> isAnonymous a = isAnonymous b.
Proof. by intros [= -> _]. Qed.
