(* ===== verification/EventRanges.v ===== *)
(** * The block ranges an event is declared over

    [packages/core/src/internal/engine/eventRanges.ts]: what a source declares of the
    blocks its events are live in, normalised per event, and the topics a block range has
    to be asked for. *)
From S2P Require Import Prelude JsMap AbiEvents.

Record EventBlockRange : Type := mkRange { range_firstBlock : Z; range_lastBlock : option Z }.

#[export] Instance EventBlockRange_eq_dec : EqDecision EventBlockRange.
Proof. solve_decision. Defined.

Definition holdsBlock (r : EventBlockRange) (n : Z) : Prop :=
  range_firstBlock r <= n /\ match range_lastBlock r with Some l => n <= l | None => True end.

Inductive BoundName : Type := firstBlockBound | lastBlockBound.

Inductive RangeError : Type :=
  | InvalidBound (field : BoundName) (value : Z)
  | LastBeforeFirst (lastBlock firstBlock : Z)
  | GapInRanges (from to : Z).

Section EventRanges.
Context `{lib : AbiLibrary}.

(** One contract's declarations: [ContractEntry] has no address for a merged ABI. *)
Record ContractEntry : Type := mkContractEntry {
  entry_address : option string;
  entry_abi : list AbiItem;
  entry_defaultFirstBlock : Z
}.

Record LiveEvent : Type := mkLive {
  live_address : option string;
  live_signature : string;
  live_event : AbiEvent;
  live_ranges : list EventBlockRange
}.

(** [Number.isSafeInteger] and non-negative. *)
Definition assertBlockNumber (value : Z) (field : BoundName) : result RangeError unit :=
  assert_or (bool_decide (0 <= value <= 2 ^ 53 - 1)) (InvalidBound field value).

Definition assertBound (value : option Z) (field : BoundName) : result RangeError unit :=
  match value with Some value => assertBlockNumber value field | None => Ok tt end.

Definition declaredRangeOf (event : RangedAbiEvent) (contractStartBlock : Z) : result RangeError (option EventBlockRange) :=
  match declared_firstBlock event, declared_lastBlock event with
  | None, None => Ok None
  | firstBlock, lastBlock =>
      assertBound firstBlock firstBlockBound ≫= fun _ =>
      assertBound lastBlock lastBlockBound ≫= fun _ =>
      let from := default contractStartBlock firstBlock in
      match lastBlock with
      | Some last => if decide (last < from) then Err (LastBeforeFirst last from) else Ok (Some (mkRange from lastBlock))
      | None => Ok (Some (mkRange from None))
      end
  end.

Definition declaresRange (item : AbiItem) : bool :=
  match item with
  | EventItem (mkRanged _ None None) | OtherItem => false
  | EventItem _ => true
  end.

Definition contractsDeclareEventRanges (contracts : SourceContracts) : bool :=
  let abis := match contracts with ListedContracts listed => source_abi <$> listed | MergedAbi abi _ => [abi] end in
  existsb (existsb declaresRange) abis.

(** [Math.min(...ranges.map((range) => range.firstBlock))] *)
Definition lowestFirst (r : EventBlockRange) (rest : list EventBlockRange) : Z :=
  foldl (fun m range => Z.min m (range_firstBlock range)) (range_firstBlock r) rest.

(** The loop over the sorted closed ranges: each is joined onto the last one, or leaves
    a gap. *)
Fixpoint mergeRanges (first last : Z) (rest : list EventBlockRange) : result RangeError EventBlockRange :=
  match rest with
  | [] => Ok (mkRange first (Some last))
  | range :: rest =>
      if decide (last + 1 < range_firstBlock range) then Err (GapInRanges (last + 1) (range_firstBlock range - 1))
      else mergeRanges first (Z.max last (default 0 (range_lastBlock range))) rest
  end.

(** The list is one declaration or more. *)
Definition normalizeRanges (ranges : list EventBlockRange) : result RangeError (list EventBlockRange) :=
  match ranges with
  | [] => Ok []
  | r :: rest =>
      if existsb (fun range => bool_decide (range_lastBlock range = None)) ranges
      then Ok [mkRange (lowestFirst r rest) None]
      else
        match sort_on range_firstBlock ranges with
        | [] => Ok []
        | first :: others =>
            (fun merged => [merged]) <$> mergeRanges (range_firstBlock first) (default 0 (range_lastBlock first)) others
        end
  end.

(** [perSignature]: the first event under a signature and every range declared for it. *)
Fixpoint signatureGroups (defaultFirst : Z) (abi : list AbiItem) (groups : list (string * (AbiEvent * list EventBlockRange)))
    : result RangeError (list (string * (AbiEvent * list EventBlockRange))) :=
  match abi with
  | [] => Ok groups
  | OtherItem :: rest => signatureGroups defaultFirst rest groups
  | EventItem item :: rest =>
      let event := ranged_event item in
      let signature := canonicalSignatureOf event in
      declaredRangeOf item defaultFirst ≫= fun declared =>
      let range := default (mkRange defaultFirst None) declared in
      signatureGroups defaultFirst rest
        (match jm_get groups signature with
         | Some (first, ranges) => jm_set groups signature (first, ranges ++ [range])
         | None => jm_set groups signature (event, [range])
         end)
  end.

Definition liveEventsOfContract (contract : ContractEntry) : result RangeError (list LiveEvent) :=
  signatureGroups (entry_defaultFirstBlock contract) (entry_abi contract) [] ≫= fun groups =>
  mapR (fun '(signature, (event, ranges)) =>
    (fun normal => mkLive (entry_address contract) signature event normal) <$> normalizeRanges ranges) groups.

Definition liveEventsIn (contracts : list ContractEntry) : result RangeError (list LiveEvent) :=
  (fun lives => concat lives) <$> mapR liveEventsOfContract contracts.

Definition contractEntriesOf (contracts : SourceContracts) (defaultFirstBlockOf : option Z -> Z) : list ContractEntry :=
  match contracts with
  | ListedContracts listed =>
      (fun contract => mkContractEntry (Some (source_address contract)) (source_abi contract)
        (defaultFirstBlockOf (source_startBlock contract))) <$> listed
  | MergedAbi abi startBlock => [mkContractEntry None abi (defaultFirstBlockOf startBlock)]
  end.

Definition FROM_THE_CONTRACT_START_BLOCK (startBlock : option Z) : Z := default 0 startBlock.

Definition FROM_BLOCK_ZERO (startBlock : option Z) : Z := 0.

Definition liveEventsOf (contracts : SourceContracts) : result RangeError (list LiveEvent) :=
  liveEventsIn (contractEntriesOf contracts FROM_THE_CONTRACT_START_BLOCK).

Definition TopicBlockRanges : Type := list (string * list EventBlockRange).

Definition addTopic (perTopic : TopicBlockRanges) (live : LiveEvent) : TopicBlockRanges :=
  match topic0Of (live_event live) with
  | None => perTopic
  | Some topic0 => jm_set perTopic topic0 (default [] (jm_get perTopic topic0) ++ live_ranges live)
  end.

Definition requestableRangesPerTopic (contracts : SourceContracts) : result RangeError TopicBlockRanges :=
  if contractsDeclareEventRanges contracts
  then foldl addTopic [] <$> liveEventsIn (contractEntriesOf contracts FROM_BLOCK_ZERO)
  else Ok [].

Definition canOccurIn (ranges : option (list EventBlockRange)) (fromBlock toBlock : Z) : bool :=
  match ranges with
  | None => true
  | Some ranges =>
      existsb (fun range => bool_decide (range_firstBlock range <= toBlock)
        && match range_lastBlock range with Some last => bool_decide (fromBlock <= last) | None => true end) ranges
  end.
End EventRanges.

(** ** What a normalised declaration covers *)
Definition valid (r : EventBlockRange) : Prop :=
  match range_lastBlock r with Some l => range_firstBlock r <= l | None => True end.

Definition closed (r : EventBlockRange) : Prop := is_Some (range_lastBlock r).

Definition covered (rs : list EventBlockRange) (n : Z) : Prop := exists r, r ∈ rs /\ holdsBlock r n.

Lemma covered_cons r rs n : covered (r :: rs) n <-> holdsBlock r n \/ covered rs n.
Proof.
  split.
  - intros (x & [->|Hx]%elem_of_cons & Hn); [by left|]. right. by exists x.
  - intros [Hn|(x & Hx & Hn)]; [exists r; split; [left|done]|]. exists x. split; [by right|done].
Qed.

(** The join of what is left to join onto a range that covers [first] to [last]. *)
Lemma mergeRanges_spec first last rest :
  first <= last -> ascending_weak range_firstBlock rest -> Forall (fun r => closed r /\ valid r /\ first <= range_firstBlock r) rest ->
  match mergeRanges first last rest with
  | Ok r => range_firstBlock r = first /\ closed r
      /\ forall n, holdsBlock r n <-> first <= n <= last \/ covered rest n
  | Err (GapInRanges a b) => first <= a - 1 /\ a <= b
      /\ (forall n, a <= n <= b -> ~ (first <= n <= last \/ covered rest n))
      /\ (first <= a - 1 <= last \/ covered rest (a - 1)) /\ covered rest (b + 1)
  | Err _ => False
  end.
Proof.
  revert last. induction rest as [|r rest IH]; intros last Hle Ha Hall; cbn [mergeRanges].
  { split; [done|]. split; [by eexists|]. intros n. unfold holdsBlock. simpl. split; [by left|].
    intros [?|(x & ?%not_elem_of_nil & _)]; done. }
  apply Forall_cons in Hall as [([l Hl] & Hv & Hf) Hall]. unfold valid in Hv. rewrite Hl in Hv. apply StronglySorted_inv in Ha as [Ha Hr].
  case_decide as Hgap.
  - split_and!; [lia|lia| |left; lia|].
    + intros n Hn [?|(x & Hx & Hcov)]; [lia|]. destruct Hcov as [Hcov _].
      apply elem_of_cons in Hx as [->|Hx]; [lia|]. rewrite Forall_forall in Hr. specialize (Hr x Hx). simpl in Hr. lia.
    + exists r. split; [left|]. unfold holdsBlock. rewrite Hl. lia.
  - rewrite Hl. cbn [default from_option id]. specialize (IH (Z.max last l) ltac:(lia) Ha Hall).
    assert (forall n, first <= n <= Z.max last l \/ covered rest n <-> first <= n <= last \/ covered (r :: rest) n) as Heq.
    { intros n. rewrite covered_cons. unfold holdsBlock at 1. rewrite Hl. split.
      - intros [Hn|?]; [|tauto]. destruct (decide (n <= last)); [left; lia|right; left; lia].
      - intros [?|[?|?]]; [left; lia|left; lia|tauto]. }
    destruct (mergeRanges first (Z.max last l) rest) as [x|[| |a b]]; try done.
    + destruct IH as (H1 & H2 & H3). split_and!; [done|done|]. intros n. by rewrite H3, Heq.
    + destruct IH as (H1 & H2 & H3 & H4 & H5). split_and!; [done|done| |by apply Heq|rewrite covered_cons; by right].
      intros n Hn. rewrite <- Heq. by apply H3.
Qed.

Lemma lowestFirst_spec r rest :
  (forall x, x ∈ r :: rest -> lowestFirst r rest <= range_firstBlock x)
  /\ exists x, x ∈ r :: rest /\ range_firstBlock x = lowestFirst r rest.
Proof.
  unfold lowestFirst.
  assert (forall m, let low := foldl (fun m range => Z.min m (range_firstBlock range)) m rest in
    low <= m /\ (forall x, x ∈ rest -> low <= range_firstBlock x) /\ (low = m \/ exists x, x ∈ rest /\ range_firstBlock x = low)) as Hfold.
  { induction rest as [|y rest IH]; intros m; cbn [foldl]; cbv zeta.
    { split_and!; [lia|by intros x ?%not_elem_of_nil|by left]. }
    destruct (IH (Z.min m (range_firstBlock y))) as (H1 & H2 & H3). split_and!; [lia| |].
    - intros x [->|Hx]%elem_of_cons; [lia|by apply H2].
    - destruct H3 as [H3|(x & Hx & Heq)]; [|right; exists x; split; [by right|done]].
      destruct (Z.min_spec m (range_firstBlock y)) as [[_ Hm]|[_ Hm]]; [left; lia|]. right. exists y. split; [left|lia]. }
  destruct (Hfold (range_firstBlock r)) as (H1 & H2 & H3). split.
  - intros x [->|Hx]%elem_of_cons; [done|by apply H2].
  - destruct H3 as [H3|(x & Hx & Heq)]; [exists r; split; [left|done]|exists x; split; [by right|done]].
Qed.

Lemma existsb_open ranges :
  existsb (fun range => bool_decide (range_lastBlock range = None)) ranges = false <-> Forall closed ranges.
Proof.
  induction ranges as [|r ranges IH]; [split; [constructor|done]|]. cbn [existsb]. rewrite orb_false_iff, bool_decide_eq_false, IH, Forall_cons.
  unfold closed. by rewrite not_eq_None_Some.
Qed.

(** One normalised range: it covers everything declared, and nothing else when every
    declaration is closed. *)
Lemma normalizeRanges_spec ranges :
  ranges <> [] -> Forall valid ranges ->
  match normalizeRanges ranges with
  | Ok normal => exists r, normal = [r] /\ (forall n, covered ranges n -> holdsBlock r n)
      /\ (Forall closed ranges -> forall n, holdsBlock r n -> covered ranges n)
      /\ (~ Forall closed ranges -> range_lastBlock r = None)
      /\ exists x, x ∈ ranges /\ range_firstBlock x = range_firstBlock r
  | Err (GapInRanges a b) => Forall closed ranges /\ a <= b /\ (forall n, a <= n <= b -> ~ covered ranges n)
      /\ covered ranges (a - 1) /\ covered ranges (b + 1)
  | Err _ => False
  end.
Proof.
  intros Hne Hv. destruct ranges as [|r0 rest0]; [done|]. unfold normalizeRanges.
  destruct (existsb _ (r0 :: rest0)) eqn:Hopen.
  - destruct (lowestFirst_spec r0 rest0) as [Hlow (x & Hx & Heq)]. eexists. split; [done|].
    assert (~ Forall closed (r0 :: rest0)) as Hno by (intros Hc%existsb_open; congruence). split_and!.
    + intros n (y & Hy & Hn & _). specialize (Hlow y Hy). split; simpl; [lia|done].
    + done.
    + done.
    + by exists x.
  - apply existsb_open in Hopen. pose proof Hopen as Hclosed. pose proof (sort_on_perm range_firstBlock (r0 :: rest0)) as Hp.
    pose proof (sort_on_sorted range_firstBlock (r0 :: rest0)) as Hs.
    destruct (sort_on range_firstBlock (r0 :: rest0)) as [|first others]; [by apply Permutation_nil_cons in Hp|].
    assert (forall n, covered (r0 :: rest0) n <-> covered (first :: others) n) as Hcov.
    { intros n. unfold covered. by setoid_rewrite Hp. }
    rewrite <- Hp in Hv, Hopen. apply Forall_cons in Hv as [Hv Hvs], Hopen as [Hc Hcs].
    apply StronglySorted_inv in Hs as [Hs Hf]. destruct Hc as [l Hl]. unfold valid in Hv. rewrite Hl in *. cbn [default from_option id].
    pose proof (mergeRanges_spec (range_firstBlock first) l others Hv Hs) as Hmerge.
    assert (Forall (fun r => closed r /\ valid r /\ range_firstBlock first <= range_firstBlock r) others) as Hall.
    { apply Forall_forall. intros x Hx. rewrite Forall_forall in Hvs, Hcs, Hf. split_and!; auto. }
    specialize (Hmerge Hall).
    assert (forall n, range_firstBlock first <= n <= l \/ covered others n <-> covered (r0 :: rest0) n) as Heq.
    { intros n. rewrite Hcov, covered_cons. unfold holdsBlock. by rewrite Hl. }
    destruct (mergeRanges _ l others) as [r|[| |x y]]; try done.
    + destruct Hmerge as (H1 & H2 & H3). cbn [fmap result_fmap]. exists r. split_and!; [done|..].
      * intros n Hn. by apply H3, Heq.
      * intros _ n Hn. by apply Heq, H3.
      * done.
      * exists first. split; [rewrite <- Hp; left|done].
    + destruct Hmerge as (H1 & H2 & H3 & H4 & H5). cbn [fmap result_fmap]. split_and!; [|done|..].
      * done.
      * intros n Hn. rewrite <- Heq. by apply H3.
      * by apply Heq.
      * apply Heq. by right.
Qed.

(** ** The topics a request leaves out *)
Section Narrowing.
Context `{lib : AbiLibrary}.

(** The blocks a declaration says its event is live in, as declared. *)
Definition liveRange (item : RangedAbiEvent) (start : Z) : EventBlockRange :=
  mkRange (default start (declared_firstBlock item)) (declared_lastBlock item).

Lemma declaredRangeOf_Ok item start d :
  declaredRangeOf item start = Ok d -> default (mkRange start None) d = liveRange item start /\ valid (liveRange item start).
Proof.
  unfold declaredRangeOf, liveRange, valid. destruct item as [event [f|] [l|]]; cbn [declared_firstBlock declared_lastBlock range_lastBlock].
  1,3: intros (_ & _ & (_ & _ & Hd)%bind_Ok)%bind_Ok; cbn [range_firstBlock]; case_decide; [done|]; injection Hd as <-; split; [done|]; cbn [default from_option id] in *; lia.
  - by intros (_ & _ & (_ & _ & [= <-])%bind_Ok)%bind_Ok.
  - by intros [= <-].
Qed.

(** A group is the first declaration of its signature and every range declared for it. *)
Definition groups_ok (groups : list (string * (AbiEvent * list EventBlockRange))) : Prop :=
  forall signature event ranges, jm_get groups signature = Some (event, ranges) ->
    canonicalSignatureOf event = signature /\ ranges <> [] /\ Forall valid ranges.

Lemma signatureGroups_ok start abi : forall groups out,
  signatureGroups start abi groups = Ok out -> groups_ok groups ->
  groups_ok out
  /\ (forall signature event ranges, jm_get groups signature = Some (event, ranges) ->
       exists more, jm_get out signature = Some (event, ranges ++ more))
  /\ (forall signature event ranges, jm_get out signature = Some (event, ranges) ->
       (exists old, jm_get groups signature = Some (event, old)) \/ event ∈ eventsOfAbi abi)
  /\ forall item, EventItem item ∈ abi -> exists event ranges,
       jm_get out (canonicalSignatureOf (ranged_event item)) = Some (event, ranges) /\ liveRange item start ∈ ranges.
Proof.
  induction abi as [|[item|] abi IH]; intros groups out; cbn [signatureGroups].
  - intros [= <-] Hok. split_and!; [done|..].
    + intros s e rs Hs. exists []. by rewrite app_nil_r.
    + intros s e rs Hs. left. by exists rs.
    + by intros item ?%not_elem_of_nil.
  - intros (d & Hd & Hrun)%bind_Ok Hok. apply declaredRangeOf_Ok in Hd as [Hd Hv]. rewrite Hd in Hrun.
    set (sig := canonicalSignatureOf (ranged_event item)) in *.
    match type of Hrun with signatureGroups _ _ ?groups' = _ => set (next := groups') in Hrun end.
    assert (exists event old, (jm_get groups sig = Some (event, old) \/ jm_get groups sig = None /\ old = [] /\ event = ranged_event item)
      /\ next = jm_set groups sig (event, old ++ [liveRange item start])) as (event & old & Hold & ->).
    { unfold next. destruct (jm_get groups sig) as [[e rs]|]; [exists e, rs; by split; [left|]|].
      exists (ranged_event item), []. split; [by right|done]. }
    destruct (IH _ _ Hrun) as (H1 & H2 & H3 & H4).
    { intros s e rs. rewrite jm_get_set. case_decide as Heq; [|apply Hok]. intros [= <- <-]. subst s.
      destruct Hold as [Hold|(_ & -> & ->)].
      - apply Hok in Hold as (Hs & _ & Hvs). split_and!; [done|by destruct old|]. apply Forall_app. by repeat constructor.
      - split_and!; [done|done|]. by repeat constructor. }
    split_and!; [done|..].
    + intros s e rs Hs. specialize (H2 s). rewrite jm_get_set in H2. case_decide as Heq; [|by apply H2].
      subst s. destruct Hold as [Hold|(Hold & _)]; rewrite Hs in Hold; [|done]. injection Hold as <- <-.
      destruct (H2 _ _ eq_refl) as (more & Hmore). exists (liveRange item start :: more). by rewrite Hmore, <- app_assoc.
    + intros s e rs Hs. destruct (H3 _ _ _ Hs) as [(old' & Hin)|Hin].
      * rewrite jm_get_set in Hin. case_decide as Heq; [|left; by exists old']. injection Hin as <- _. subst s.
        destruct Hold as [Hold|(_ & _ & ->)]; [left; by exists old|right; unfold eventsOfAbi; cbn; left].
      * right. unfold eventsOfAbi. cbn. by right.
    + intros item' [[= ->]|Hin]%elem_of_cons; [|by apply H4].
      destruct (H2 sig event (old ++ [liveRange item start])) as (more & Hmore); [by rewrite jm_get_set, decide_True|].
      exists event. eexists. split; [exact Hmore|]. rewrite !elem_of_app. left. right. by apply list_elem_of_singleton.
  - intros Hrun Hok. destruct (IH _ _ Hrun Hok) as (H1 & H2 & H3 & H4). split_and!; [done..|].
    intros item [[=]|Hin]%elem_of_cons. by apply H4.
Qed.

(** Whatever a contract declares, one live event of its signature covers. *)
Lemma liveEventsOfContract_live contract lives item :
  liveEventsOfContract contract = Ok lives -> EventItem item ∈ entry_abi contract ->
  exists live, live ∈ lives /\ live_signature live = canonicalSignatureOf (ranged_event item)
    /\ live_address live = entry_address contract
    /\ live_event live ∈ eventsOfAbi (entry_abi contract)
    /\ canonicalSignatureOf (live_event live) = live_signature live
    /\ forall n, holdsBlock (liveRange item (entry_defaultFirstBlock contract)) n -> covered (live_ranges live) n.
Proof.
  intros (groups & Hgroups & Hlives)%bind_Ok Hitem.
  destruct (signatureGroups_ok _ _ _ _ Hgroups) as (Hok & _ & Hfrom & Hto); [done|].
  destruct (Hto _ Hitem) as (event & ranges & Hget & Hin).
  destruct (mapR_elem _ _ _ _ Hlives (jm_get_elem _ _ _ Hget)) as (live & Hlive & (normal & Hnormal & <-)%fmap_Ok).
  destruct (Hok _ _ _ Hget) as (Hs & Hne & Hv). eexists. split_and!; [exact Hlive|done|done| |done|].
  - by destruct (Hfrom _ _ _ Hget) as [(? & [=])|].
  - intros n Hn. pose proof (normalizeRanges_spec _ Hne Hv) as Hspec. rewrite Hnormal in Hspec.
    destruct Hspec as (r & -> & Hall & _). exists r. split; [left|]. apply Hall. by eexists.
Qed.

Lemma liveEventsIn_live contracts lives contract item :
  liveEventsIn contracts = Ok lives -> contract ∈ contracts -> EventItem item ∈ entry_abi contract ->
  exists live, live ∈ lives /\ live_signature live = canonicalSignatureOf (ranged_event item)
    /\ live_address live = entry_address contract
    /\ live_event live ∈ eventsOfAbi (entry_abi contract)
    /\ canonicalSignatureOf (live_event live) = live_signature live
    /\ forall n, holdsBlock (liveRange item (entry_defaultFirstBlock contract)) n -> covered (live_ranges live) n.
Proof.
  intros (perContract & Hper & <-)%fmap_Ok Hcontract Hitem.
  destruct (mapR_elem _ _ _ _ Hper Hcontract) as (here & Hhere & Hlives).
  destruct (liveEventsOfContract_live _ _ _ Hlives Hitem) as (live & Hlive & Hrest).
  exists live. split; [|done]. apply list_elem_of_In, in_concat. exists here. by rewrite <- !list_elem_of_In.
Qed.

Lemma addTopic_get perTopic live topic0 :
  default [] (jm_get (addTopic perTopic live) topic0)
  = default [] (jm_get perTopic topic0) ++ if decide (topic0Of (live_event live) = Some topic0) then live_ranges live else [].
Proof.
  unfold addTopic. destruct (topic0Of (live_event live)) as [t|]; [|by rewrite decide_False, app_nil_r].
  rewrite jm_get_set. destruct (decide (t = topic0)) as [->|Hne]; [by rewrite decide_True|].
  rewrite decide_False by congruence. by rewrite app_nil_r.
Qed.

Lemma addTopics_get lives : forall perTopic live topic0 r,
  r ∈ default [] (jm_get perTopic topic0) \/ live ∈ lives /\ topic0Of (live_event live) = Some topic0 /\ r ∈ live_ranges live ->
  r ∈ default [] (jm_get (foldl addTopic perTopic lives) topic0).
Proof.
  induction lives as [|l lives IH]; intros perTopic live topic0 r Hr; cbn [foldl].
  { by destruct Hr as [|(?%not_elem_of_nil & _)]. }
  apply (IH _ live). rewrite addTopic_get, elem_of_app. destruct Hr as [Hr|([->|Hlive]%elem_of_cons & Ht & Hr)].
  - tauto.
  - rewrite decide_True by done. tauto.
  - tauto.
Qed.

Lemma canOccurIn_covers ranges r from to n : r ∈ ranges -> holdsBlock r n -> from <= n <= to -> canOccurIn (Some ranges) from to = true.
Proof.
  intros Hr [Hf Hl] Hn. apply existsb_exists. exists r. split; [by apply list_elem_of_In|].
  apply andb_true_iff. split; [apply bool_decide_eq_true; lia|].
  destruct (range_lastBlock r); [apply bool_decide_eq_true; lia|done].
Qed.

(** Two declarations of one signature in one ABI agree on being anonymous: the fetch
    filter refuses the source otherwise. *)
Definition one_kind (abi : list AbiItem) : Prop :=
  forall a b, a ∈ eventsOfAbi abi -> b ∈ eventsOfAbi abi -> canonicalSignatureOf a = canonicalSignatureOf b -> isAnonymous a = isAnonymous b.

(** The narrowing is computed from block zero, and asks for at least what the source says
    is live. *)
Lemma requestable_sound contracts perTopic contract item topic0 from to n :
  requestableRangesPerTopic contracts = Ok perTopic ->
  contract ∈ contractEntriesOf contracts FROM_THE_CONTRACT_START_BLOCK -> 0 <= entry_defaultFirstBlock contract ->
  EventItem item ∈ entry_abi contract -> one_kind (entry_abi contract) ->
  topic0Of (ranged_event item) = Some topic0 ->
  holdsBlock (liveRange item (entry_defaultFirstBlock contract)) n -> from <= n <= to ->
  canOccurIn (jm_get perTopic topic0) from to = true.
Proof.
  unfold requestableRangesPerTopic. intros Hper Hcontract Hstart Hitem Hkind Htopic Hn Hrange.
  destruct (contractsDeclareEventRanges contracts); [|by injection Hper as <-].
  apply fmap_Ok in Hper as (lives & Hlives & <-).
  assert (exists entry, entry ∈ contractEntriesOf contracts FROM_BLOCK_ZERO /\ entry_abi entry = entry_abi contract
    /\ entry_defaultFirstBlock entry = 0) as (entry & Hentry & Habi & Hzero).
  { destruct contracts as [listed|abi start]; cbn in Hcontract |- *.
    - apply list_elem_of_fmap in Hcontract as (c & -> & Hc). eexists. split; [apply list_elem_of_fmap; by exists c|done].
    - apply list_elem_of_singleton in Hcontract as ->. eexists. split; [by apply list_elem_of_singleton|done]. }
  rewrite <- Habi in Hitem, Hkind.
  destruct (liveEventsIn_live _ _ _ _ Hlives Hentry Hitem) as (live & Hlive & Hs & _ & Hfrom & Hsig & Hcov).
  destruct (Hcov n) as (r & Hr & Hrn).
  { rewrite Hzero. destruct Hn as [Hf Hl]. split; [|done]. cbn in *. destruct (declared_firstBlock item); cbn in *; lia. }
  assert (topic0Of (live_event live) = Some topic0) as Ht.
  { rewrite <- Htopic. apply topic0Of_signature; [congruence|]. apply Hkind; [done| |congruence].
    apply elem_of_eventsOfAbi. by exists item. }
  assert (r ∈ default [] (jm_get (foldl addTopic [] lives) topic0)) as Hin by (apply (addTopics_get lives [] live); by right).
  destruct (jm_get _ topic0) as [ranges|]; [|done]. by eapply canOccurIn_covers.
Qed.
End Narrowing.
