(* ===== verification/RangeFetcher.v ===== *)
(** * The adaptive range fetcher

    [packages/core/src/internal/engine/RangeLogFetcher.ts]: how wide a block range is asked
    for, and what a refusal does to that.  What the code reads in the text of a refusal is a
    parameter of the section, and so is the answer to a request, which may differ from one
    attempt to the next. *)
From S2P Require Import Prelude JsMap EventRanges.

(** [InternalLogFetcherConfig], its defaults applied. *)
Record RangeFetcherConfig : Type := mkRangeConfig {
  numBlocksToFetchAtStart : Z;
  maxBlocksPerFetch : Z;
  percentageToReach : Z;
  maxEventsPerFetch : Z;
  numRetry : Z
}.

Definition defaultRangeConfig : RangeFetcherConfig := mkRangeConfig 50 100000 80 10000 3.

(** [ProvidedLearnedRange] *)
Record LearnedRange : Type := mkLearned { ceiling : option Z; safeSpan : option Z; nextSize : option Z }.

Record RangeLogFetcher : Type := mkRangeFetcher {
  numBlocksToFetch : Z;
  foundNumBlockToHigh : option Z;
  safeNumBlock : option Z;
  lowestReportedResultCap : option Z
}.

(** A number as a condition: zero is false, and so is [undefined]. *)
Definition truthyNumber (n : option Z) : option Z :=
  match n with Some n => if decide (n = 0) then None else Some n | None => None end.

Section Sizing.
Context (config : RangeFetcherConfig).

Definition with_size (st : RangeLogFetcher) (size : Z) : RangeLogFetcher :=
  mkRangeFetcher size (foundNumBlockToHigh st) (safeNumBlock st) (lowestReportedResultCap st).

Definition with_safe (st : RangeLogFetcher) (safe : option Z) : RangeLogFetcher :=
  mkRangeFetcher (numBlocksToFetch st) (foundNumBlockToHigh st) safe (lowestReportedResultCap st).

Definition lowerBlockCeilingTo (st : RangeLogFetcher) (cap : option Z) : RangeLogFetcher :=
  match cap with
  | None => st
  | Some cap =>
      if decide (cap < 1) then st
      else
        let found := Z.min (default (maxBlocksPerFetch config) (foundNumBlockToHigh st)) cap in
        let safe := match safeNumBlock st with Some safe => if decide (found <= safe) then None else Some safe | None => None end in
        mkRangeFetcher (numBlocksToFetch st) (Some found) safe (lowestReportedResultCap st)
  end.

Definition recordReportedResultCap (st : RangeLogFetcher) (cap : option Z) : RangeLogFetcher :=
  match cap with
  | None => st
  | Some cap =>
      if match lowestReportedResultCap st with Some lowest => bool_decide (lowest <= cap) | None => false end then st
      else mkRangeFetcher (numBlocksToFetch st) (foundNumBlockToHigh st) (safeNumBlock st) (Some cap)
  end.

(** [configuredSpan]: numbers are whole here. *)
Definition configuredSpan (value : option Z) : option Z :=
  match value with Some value => if decide (value < 1) then None else Some value | None => None end.

Definition seedLearnedRange (st : RangeLogFetcher) (seed : option LearnedRange) : RangeLogFetcher :=
  match seed with
  | None => st
  | Some seed =>
      let st := lowerBlockCeilingTo st (configuredSpan (ceiling seed)) in
      let st := match configuredSpan (safeSpan seed) with
                | Some safe =>
                    if match foundNumBlockToHigh st with Some found => bool_decide (safe < found) | None => true end
                    then with_safe st (Some (Z.min safe (maxBlocksPerFetch config))) else st
                | None => st
                end in
      match configuredSpan (nextSize seed) with
      | Some size => with_size st (Z.min size (maxBlocksPerFetch config))
      | None => st
      end
  end.

(** The constructor. *)
Definition newRangeLogFetcher (seed : option LearnedRange) : RangeLogFetcher :=
  seedLearnedRange (mkRangeFetcher (Z.min (numBlocksToFetchAtStart config) (maxBlocksPerFetch config)) None None None) seed.

Definition learnedRange (st : RangeLogFetcher) : LearnedRange :=
  mkLearned (foundNumBlockToHigh st) (safeNumBlock st) (Some (numBlocksToFetch st)).

(** The next width under a ceiling: between the widest span answered and the ceiling. *)
Definition widthUnder (found : Z) (safe : option Z) : Z :=
  match truthyNumber safe with
  | Some safe => Z.max 1 (Z.min (safe + (found - safe) / 2) (found - 1))
  | None => Z.max 1 (found - 1)
  end.

(** After a range was answered with so many logs. *)
Definition adaptToAnswer (st : RangeLogFetcher) (logs : nat) (fromBlock toBlock : Z) : RangeLogFetcher :=
  let targetNumberOfLog := Z.max 1 (maxEventsPerFetch config * percentageToReach config / 100) in
  let fetched := toBlock - fromBlock + 1 in
  let st := with_safe st (Some (Z.max (default 0 (safeNumBlock st)) fetched)) in
  match truthyNumber (foundNumBlockToHigh st) with
  | Some found => with_size st (widthUnder found (safeNumBlock st))
  | None =>
      with_size st
        (match logs with
         | O => maxBlocksPerFetch config
         | S _ => Z.min (maxBlocksPerFetch config) (Z.max 1 (targetNumberOfLog * fetched / Z.of_nat logs))
         end)
  end.

(** After a refusal of [fromBlock, toBlock]: what was read in it, and the width to try. *)
Definition adaptToRefusal (st : RangeLogFetcher) (statedCap clue : option Z) (tooWide : bool) (fromBlock toBlock : Z) : RangeLogFetcher :=
  let st := lowerBlockCeilingTo st statedCap in
  let '(st, this_time) :=
    match truthyNumber clue with
    | Some clue =>
        let total := clue - fromBlock + 1 in
        (st, if decide (1 < total) then total * percentageToReach config / 100 else numBlocksToFetch st)
    | None =>
        let fetched := toBlock - fromBlock in
        (if tooWide then lowerBlockCeilingTo st (Some fetched) else st, if decide (1 < fetched) then fetched / 2 else 1)
    end in
  match truthyNumber (foundNumBlockToHigh st) with
  | Some found => with_size st (if decide (found < this_time) then widthUnder found (safeNumBlock st) else this_time)
  | None => with_size st this_time
  end.

Section Fetch.
Context {ProviderError Log : Type}.
Context (eventNameTopics : option (list string)) (topicBlockRanges : TopicBlockRanges).
Context (archiveRefusalFromError : ProviderError -> option string).
Context (reportedResultCapFromError statedBlockCapFromError getNewToBlockFromError : ProviderError -> option Z).
Context (saysRangeTooWide : ProviderError -> bool).
Context (ask : nat -> option (list string) -> Z -> Z -> result ProviderError (list Log)).

Inductive RangeFetchError : Type :=
  | ArchiveRefusedError (fromBlock toBlock : Z) (refusal : string)
  | Refused (e : ProviderError).

Definition topicsThatCanOccurIn (fromBlock toBlock : Z) : option (list string) :=
  match eventNameTopics with
  | None => None
  | Some topics =>
      match topicBlockRanges with
      | [] => None
      | ranges => Some (filter (fun topic => canOccurIn (jm_get ranges topic) fromBlock toBlock = true) topics)
      end
  end.

(** The request for a range, or none when no topic can occur in it. *)
Definition askRange (retry : nat) (fromBlock toBlock : Z) : result ProviderError (list Log) :=
  match topicsThatCanOccurIn fromBlock toBlock with
  | Some [] => Ok []
  | Some topics => ask retry (Some topics) fromBlock toBlock
  | None => ask retry eventNameTopics fromBlock toBlock
  end.

Fixpoint getLogs (retry : nat) (st : RangeLogFetcher) (fromBlock requestedTo : Z)
    : RangeLogFetcher * result RangeFetchError (list Log * Z) :=
  let toBlock := Z.min requestedTo (fromBlock + numBlocksToFetch st - 1) in
  match askRange retry fromBlock toBlock with
  | Ok logs => (adaptToAnswer st (length logs) fromBlock toBlock, Ok (logs, toBlock))
  | Err err =>
      match archiveRefusalFromError err with
      | Some refusal => (st, Err (ArchiveRefusedError fromBlock toBlock refusal))
      | None =>
          let st := recordReportedResultCap st (reportedResultCapFromError err) in
          match retry with
          | O => (st, Err (Refused err))
          | S retry =>
              let st := adaptToRefusal st (statedBlockCapFromError err) (getNewToBlockFromError err) (saysRangeTooWide err) fromBlock toBlock in
              match getLogs retry st fromBlock (fromBlock + numBlocksToFetch st - 1) with
              | (st, Ok (logs, toBlock)) => (adaptToAnswer st (length logs) fromBlock toBlock, Ok (logs, toBlock))
              | (st, Err e) => (st, Err e)
              end
          end
      end
  end.
End Fetch.
End Sizing.

(** ** What a fetcher keeps *)
Section Kept.
Context (config : RangeFetcherConfig).

Record config_ok : Prop := {
  co_start : 1 <= numBlocksToFetchAtStart config;
  co_max : 1 <= maxBlocksPerFetch config;
  co_percentage : 50 <= percentageToReach config <= 100
}.

(** Widths are of one block at least. *)
Record sized (st : RangeLogFetcher) : Prop := {
  sz_width : 1 <= numBlocksToFetch st;
  sz_ceiling found : foundNumBlockToHigh st = Some found -> 1 <= found;
  sz_safe safe : safeNumBlock st = Some safe -> 1 <= safe
}.

(** What is learned of a limit only ever lowers. *)
Definition lowers (now before : option Z) : Prop :=
  match before with None => True | Some b => exists n, now = Some n /\ n <= b end.

#[export] Instance lowers_preorder : PreOrder lowers.
Proof.
  split.
  - intros [n|]; [|done]. exists n. split; [done|lia].
  - intros a [b|] [c|]; cbn; try done; [|by intros _ (? & [=] & _)].
    intros (n & -> & Hn) (m & [= <-] & Hm). exists n. split; [done|lia].
Qed.

Record learns (now before : RangeLogFetcher) : Prop := {
  ln_ceiling : lowers (foundNumBlockToHigh now) (foundNumBlockToHigh before);
  ln_cap : lowers (lowestReportedResultCap now) (lowestReportedResultCap before)
}.

#[export] Instance learns_preorder : PreOrder learns.
Proof.
  split.
  - intros st. by split.
  - intros a b c [H1 H2] [H3 H4]. split; by etrans.
Qed.

Lemma lowerBlockCeilingTo_learns st cap : learns (lowerBlockCeilingTo config st cap) st.
Proof.
  unfold lowerBlockCeilingTo. destruct cap as [cap|]; [|done]. case_decide; [done|]. split; cbn; [|done].
  destruct (foundNumBlockToHigh st) as [found|]; [|done]. cbn. eexists. split; [done|]. lia.
Qed.

Lemma recordReportedResultCap_learns st cap : learns (recordReportedResultCap st cap) st.
Proof.
  unfold recordReportedResultCap. destruct cap as [cap|]; [|done].
  destruct (lowestReportedResultCap st) as [lowest|] eqn:Hl.
  - case_bool_decide; [done|]. split; cbn; [done|]. rewrite Hl. exists cap. split; [done|lia].
  - split; cbn; [done|by rewrite Hl].
Qed.

Lemma adaptToAnswer_learns st logs from to : learns (adaptToAnswer config st logs from to) st.
Proof. unfold adaptToAnswer. by destruct (truthyNumber _). Qed.

Lemma adaptToRefusal_learns st stated clue tooWide from to : learns (adaptToRefusal config st stated clue tooWide from to) st.
Proof.
  unfold adaptToRefusal. pose proof (lowerBlockCeilingTo_learns st stated) as H1. set (st1 := lowerBlockCeilingTo config st stated) in *.
  assert (forall st2 w, learns st2 st1 -> learns (match truthyNumber (foundNumBlockToHigh st2) with
    | Some found => with_size st2 (if decide (found < w) then widthUnder found (safeNumBlock st2) else w)
    | None => with_size st2 w end) st) as Hsize.
  { intros st2 w H2. transitivity st1; [|done]. transitivity st2; [|done]. by destruct (truthyNumber _). }
  destruct (truthyNumber clue); [by apply Hsize|]. apply Hsize. destruct tooWide; [apply lowerBlockCeilingTo_learns|done].
Qed.

Hypothesis Hconfig : config_ok.

Lemma widthUnder_range found safe : 1 <= widthUnder found safe <= Z.max 1 (found - 1).
Proof. unfold widthUnder. destruct (truthyNumber safe); lia. Qed.

Lemma lowerBlockCeilingTo_sized st cap : sized st -> sized (lowerBlockCeilingTo config st cap).
Proof.
  intros [Hw Hc Hs]. unfold lowerBlockCeilingTo. destruct cap as [cap|]; [|done]. case_decide; [done|]. split; cbn; [done|..].
  - intros found [= <-]. pose proof (co_max Hconfig). destruct (foundNumBlockToHigh st) as [f|]; cbn; [specialize (Hc f eq_refl)|]; lia.
  - intros safe. destruct (safeNumBlock st) as [s|]; [|done]. case_decide; [done|]. intros [= <-]. by apply Hs.
Qed.

Lemma recordReportedResultCap_sized st cap : sized st -> sized (recordReportedResultCap st cap).
Proof.
  intros [Hw Hc Hs]. unfold recordReportedResultCap. destruct cap; [|done]. by destruct (match lowestReportedResultCap st with Some _ => _ | None => _ end).
Qed.

Lemma adaptToAnswer_sized st logs from to : sized st -> from <= to -> sized (adaptToAnswer config st logs from to).
Proof.
  intros [Hw Hc Hs] Hle. pose proof (co_max Hconfig). unfold adaptToAnswer. cbn [with_safe foundNumBlockToHigh safeNumBlock].
  assert (forall width, 1 <= width -> sized (with_size (with_safe st (Some (Z.max (default 0 (safeNumBlock st)) (to - from + 1)))) width)) as Hwith.
  { intros width Hwidth. split; cbn; [done|done|]. intros safe [= <-]. lia. }
  destruct (truthyNumber _) as [found|]; apply Hwith; [apply widthUnder_range|]. destruct logs; lia.
Qed.

(** The width tried after a refusal: smaller than the range refused, unless the clue says
    nothing below it. *)
Lemma adaptToRefusal_width st stated clue tooWide from to :
  sized st -> from <= to ->
  let st' := adaptToRefusal config st stated clue tooWide from to in
  sized st' /\
  match truthyNumber clue with
  | Some clue => from < clue -> numBlocksToFetch st' <= clue - from + 1
  | None => numBlocksToFetch st' <= Z.max 1 ((to - from) / 2)
  end.
Proof.
  intros Hst Hle. cbv zeta. unfold adaptToRefusal. pose proof (lowerBlockCeilingTo_sized st stated Hst) as H1.
  set (st1 := lowerBlockCeilingTo config st stated) in *.
  assert (forall st2 w, sized st2 -> 1 <= w -> let st' := match truthyNumber (foundNumBlockToHigh st2) with
    | Some found => with_size st2 (if decide (found < w) then widthUnder found (safeNumBlock st2) else w)
    | None => with_size st2 w end in sized st' /\ numBlocksToFetch st' <= w) as Hsize.
  { intros st2 w [Hw2 Hc2 Hs2] Hw. cbv zeta. destruct (truthyNumber (foundNumBlockToHigh st2)) as [found|]; [|by split; [split|]; cbn; [..|lia]].
    case_decide; [|by split; [split|]; cbn; [..|lia]]. pose proof (widthUnder_range found (safeNumBlock st2)). split; [split|]; cbn; [lia|done|done|lia]. }
  pose proof (co_percentage Hconfig) as Hp. destruct (truthyNumber clue) as [c|].
  - case_decide as Hc.
    + destruct (Hsize st1 ((c - from + 1) * percentageToReach config / 100) H1) as [Hs' Hw'].
      { apply Z.div_le_lower_bound; nia. }
      split; [done|]. intros _. etrans; [exact Hw'|]. apply Z.div_le_upper_bound; nia.
    + destruct (Hsize st1 (numBlocksToFetch st1) H1 (sz_width _ H1)) as [Hs' _]. split; [done|]. lia.
  - case_decide as Hf.
    + destruct (Hsize (if tooWide then lowerBlockCeilingTo config st1 (Some (to - from)) else st1) ((to - from) / 2)) as [Hs' Hw'].
      * destruct tooWide; [by apply lowerBlockCeilingTo_sized|done].
      * apply Z.div_le_lower_bound; lia.
      * split; [done|]. lia.
    + destruct (Hsize (if tooWide then lowerBlockCeilingTo config st1 (Some (to - from)) else st1) 1) as [Hs' Hw'].
      * destruct tooWide; [by apply lowerBlockCeilingTo_sized|done].
      * lia.
      * split; [done|]. lia.
Qed.

Lemma newRangeLogFetcher_sized seed : sized (newRangeLogFetcher config seed).
Proof.
  pose proof (co_max Hconfig) as Hmax. pose proof (co_start Hconfig) as Hstart. unfold newRangeLogFetcher, seedLearnedRange.
  set (st0 := mkRangeFetcher _ None None None). assert (sized st0) as H0 by (split; cbn; [lia|done|done]). clearbody st0.
  destruct seed as [[c s n]|]; [|done]. cbn [ceiling safeSpan nextSize].
  pose proof (lowerBlockCeilingTo_sized st0 (configuredSpan c) H0) as H1. set (st1 := lowerBlockCeilingTo _ _ _) in *.
  assert (forall v x, configuredSpan v = Some x -> 1 <= x) as Hspan by (intros [v|] x; cbn; [case_decide|]; intros [=]; lia).
  set (st2 := match configuredSpan s with Some _ => _ | None => _ end).
  assert (sized st2) as H2.
  { subst st2. destruct (configuredSpan s) as [v|] eqn:Hv; [|done]. destruct (match foundNumBlockToHigh st1 with Some _ => _ | None => _ end); [|done].
    destruct H1 as [Hw Hc Hs]. split; cbn; [done|done|]. intros safe [= <-]. apply Hspan in Hv. lia. }
  destruct (configuredSpan n) as [v|] eqn:Hv; [|done]. destruct H2 as [Hw Hc Hs]. apply Hspan in Hv. split; cbn; [lia|done|done].
Qed.
End Kept.

(** ** What a call answers *)
Section Answers.
Context (config : RangeFetcherConfig) (Hconfig : config_ok config).
Context {ProviderError Log : Type} (topics : option (list string)) (ranges : TopicBlockRanges).
Context (archive : ProviderError -> option string) (reported stated clueOf : ProviderError -> option Z) (tooWide : ProviderError -> bool).
Context (ask : nat -> option (list string) -> Z -> Z -> result ProviderError (list Log)).

#[local] Abbreviation fetch := (getLogs config topics ranges archive reported stated clueOf tooWide ask).
#[local] Abbreviation askAt := (askRange topics ranges ask).

(** What is answered for a range is the answer to one request for that very range, and what
    is thrown is one refusal of a range from the same block. *)
Definition answered_by (retry : nat) (from : Z) (out : result (RangeFetchError (ProviderError:=ProviderError)) (list Log * Z)) : Prop :=
  match out with
  | Ok (logs, used) => from <= used /\ exists attempt, (attempt <= retry)%nat /\ askAt attempt from used = Ok logs
  | Err (Refused e) => exists attempt used, (attempt <= retry)%nat /\ from <= used /\ askAt attempt from used = Err e /\ archive e = None
  | Err (ArchiveRefusedError from' used refusal) => from' = from /\ from <= used
      /\ exists attempt e, (attempt <= retry)%nat /\ askAt attempt from used = Err e /\ archive e = Some refusal
  end.

Lemma answered_by_later retry from out : answered_by retry from out -> answered_by (S retry) from out.
Proof.
  destruct out as [[logs used]|[f u r|e]]; cbn.
  - intros (? & a & ? & ?). split; [done|]. exists a. split; [lia|done].
  - intros (? & ? & a & e & ? & ?). split_and!; [done|done|]. exists a, e. split; [lia|done].
  - intros (a & u & ? & ?). exists a, u. split; [lia|done].
Qed.

Lemma getLogs_spec retry : forall st from to, sized st -> from <= to ->
  sized (fetch retry st from to).1 /\ learns (fetch retry st from to).1 st /\ answered_by retry from (fetch retry st from to).2.
Proof.
  induction retry as [|retry IH]; intros st from to Hst Hle; cbn [getLogs];
    set (toBlock := Z.min to (from + numBlocksToFetch st - 1)); pose proof (sz_width _ Hst) as Hw; assert (from <= toBlock) as Hto by lia;
    destruct (askAt _ from toBlock) as [logs|e] eqn:Hask.
  1,3: cbn [fst snd]; split_and!; [by apply adaptToAnswer_sized|apply adaptToAnswer_learns|split; [done|]; by eexists].
  - destruct (archive e) as [refusal|] eqn:Ha; cbn [fst snd].
    + split_and!; [done|done|]. split_and!; [done..|]. by exists 0%nat, e.
    + split_and!; [by apply recordReportedResultCap_sized|apply recordReportedResultCap_learns|]. by exists 0%nat, toBlock.
  - destruct (archive e) as [refusal|] eqn:Ha; cbn [fst snd].
    { split_and!; [done|done|]. split_and!; [done..|]. by exists (S retry), e. }
    pose proof (recordReportedResultCap_sized st (reported e) Hst) as H1. pose proof (recordReportedResultCap_learns st (reported e)) as L1.
    set (st1 := recordReportedResultCap st (reported e)) in *.
    destruct (adaptToRefusal_width config Hconfig st1 (stated e) (clueOf e) (tooWide e) from toBlock H1 Hto) as [H2 _].
    pose proof (adaptToRefusal_learns config st1 (stated e) (clueOf e) (tooWide e) from toBlock) as L2.
    set (st2 := adaptToRefusal _ _ _ _ _ _ _) in *. pose proof (sz_width _ H2) as Hw2.
    destruct (IH st2 from (from + numBlocksToFetch st2 - 1) H2 ltac:(lia)) as (H3 & L3 & Hout).
    destruct (fetch retry st2 from _) as [st3 [[logs used]|e']]; cbn [fst snd] in *.
    + split_and!; [apply adaptToAnswer_sized; [done|done|apply Hout]| |by apply (answered_by_later _ _ (Ok (logs, used)))].
      etrans; [apply adaptToAnswer_learns|]. etrans; [exact L3|]. by etrans.
    + split_and!; [done| |by apply (answered_by_later _ _ (Err e'))]. etrans; [exact L3|]. by etrans.
Qed.

(** A clue that names a block of the refused range past its first: the range a retry asks
    for is inside the one refused. *)
Lemma getLogs_within retry : forall st from to logs used, sized st -> from <= to ->
  (forall attempt u e, from <= u -> askAt attempt from u = Err e -> forall c, truthyNumber (clueOf e) = Some c -> from < c <= u) ->
  (fetch retry st from to).2 = Ok (logs, used) -> used <= to.
Proof.
  induction retry as [|retry IH]; intros st from to logs used Hst Hle Hclue; cbn [getLogs];
    set (toBlock := Z.min to (from + numBlocksToFetch st - 1)); pose proof (sz_width _ Hst) as Hw; assert (from <= toBlock) as Hto by lia;
    destruct (askAt _ from toBlock) as [answer|e] eqn:Hask.
  1,3: cbn [snd]; intros [= _ <-]; lia.
  - by destruct (archive e).
  - destruct (archive e) as [refusal|]; [done|].
    pose proof (recordReportedResultCap_sized st (reported e) Hst) as H1. set (st1 := recordReportedResultCap st (reported e)) in *.
    destruct (adaptToRefusal_width config Hconfig st1 (stated e) (clueOf e) (tooWide e) from toBlock H1 Hto) as [H2 Hw2].
    set (st2 := adaptToRefusal _ _ _ _ _ _ _) in *. pose proof (sz_width _ H2) as Hw2'.
    assert (from + numBlocksToFetch st2 - 1 <= toBlock) as Hnext.
    { clearbody st2. revert Hw2. destruct (truthyNumber (clueOf e)) as [c|] eqn:Hc; intros Hw2;
        [|assert ((toBlock - from) / 2 <= toBlock - from) by (apply Z.div_le_upper_bound; lia); lia]. destruct (Hclue _ _ _ Hto Hask _ Hc). specialize (Hw2 ltac:(lia)). lia. }
    specialize (IH st2 from (from + numBlocksToFetch st2 - 1)).
    destruct (fetch retry st2 from _) as [st3 [[answer' used']|e']] eqn:Hrun; cbn [snd] in *; [|done].
    intros [= -> ->]. specialize (IH logs used H2 ltac:(lia) Hclue eq_refl). lia.
Qed.

(** Refusals that say nothing of a block halve the range: a node that answers single blocks
    is asked for one in as many retries as the width has bits. *)
Lemma getLogs_halves retry : forall st from to, sized st -> from <= to ->
  Z.min (to - from + 1) (numBlocksToFetch st) <= 2 ^ Z.of_nat retry ->
  (forall attempt, is_Ok (askAt attempt from from)) ->
  (forall attempt u e, askAt attempt from u = Err e -> archive e = None /\ truthyNumber (clueOf e) = None) ->
  is_Ok (fetch retry st from to).2.
Proof.
  induction retry as [|retry IH]; intros st from to Hst Hle Hbits Hone Herr; cbn [getLogs];
    set (toBlock := Z.min to (from + numBlocksToFetch st - 1)); pose proof (sz_width _ Hst) as Hw; assert (from <= toBlock) as Hto by lia;
    destruct (askAt _ from toBlock) as [answer|e] eqn:Hask; try done.
  - assert (toBlock = from) as Heq by (simpl in Hbits; lia). rewrite Heq in Hask. specialize (Hone 0%nat). by rewrite Hask in Hone.
  - destruct (Herr _ _ _ Hask) as [-> Hc].
    pose proof (recordReportedResultCap_sized st (reported e) Hst) as H1. set (st1 := recordReportedResultCap st (reported e)) in *.
    destruct (adaptToRefusal_width config Hconfig st1 (stated e) (clueOf e) (tooWide e) from toBlock H1 Hto) as [H2 Hw2]. rewrite Hc in Hw2.
    set (st2 := adaptToRefusal _ _ _ _ _ _ _) in *. pose proof (sz_width _ H2) as Hw2'.
    assert (is_Ok (fetch retry st2 from (from + numBlocksToFetch st2 - 1)).2) as Hok.
    { apply IH; [done|lia| |done|done]. rewrite Nat2Z.inj_succ, Z.pow_succ_r in Hbits by lia.
      assert (0 < 2 ^ Z.of_nat retry) by (apply Z.pow_pos_nonneg; lia). assert ((toBlock - from) / 2 < 2 ^ Z.of_nat retry); [|lia].
      apply Z.div_lt_upper_bound; lia. }
    by destruct (fetch retry st2 from _) as [st3 [[answer' used']|e']].
Qed.
End Answers.

(** A node that refuses every wider range with a clue that names its first block, and
    answers the single block: the width never moves, and the call always fails. *)
Section Wedge.
Context (config : RangeFetcherConfig) (from : Z) (Hfrom : from <> 0).

Definition crowdedBlock (_ : nat) (_ : option (list string)) (fromBlock toBlock : Z) : result Z (list unit) :=
  if decide (fromBlock = toBlock) then Ok [] else Err fromBlock.

Lemma clue_wedges retry : forall st to, 2 <= numBlocksToFetch st -> foundNumBlockToHigh st = None -> from < to ->
  exists st', getLogs config None [] (fun _ => None) (fun _ => None) (fun _ => None) Some (fun _ => false) crowdedBlock retry st from to
    = (st', Err (Refused from)) /\ numBlocksToFetch st' = numBlocksToFetch st.
Proof.
  induction retry as [|retry IH]; intros st to Hw Hf Hto; cbn [getLogs]; unfold askRange at 1; cbn [topicsThatCanOccurIn];
    unfold crowdedBlock at 1; (rewrite decide_False by lia); cbn [recordReportedResultCap].
  - by exists st.
  - unfold adaptToRefusal. cbn [lowerBlockCeilingTo truthyNumber]. rewrite (decide_False (P:=from = 0)) by done.
    rewrite decide_False by lia. rewrite Hf. cbn [truthyNumber].
    destruct (IH (with_size st (numBlocksToFetch st)) (from + numBlocksToFetch st - 1)) as (st' & Hrun & Hw'); [done|done|lia|].
    cbn [numBlocksToFetch with_size] in *. rewrite Hrun. by exists st'.
Qed.
End Wedge.

(** ** What a call promises *)

(** C34. A call that answers, answers a range from the block it was asked for on, at least one
    block wide and, when clues name blocks inside the refused range, not past the range
    asked for, with one request's answer for exactly that range; a call that throws, throws
    a refusal of such a range.  Meanwhile widths stay of one block at least and the limits
    learned only lower. *)
Theorem range_fetch_exact config {ProviderError Log} topics ranges (archive : ProviderError -> option string) reported stated clueOf tooWide
    (ask : nat -> option (list string) -> Z -> Z -> result ProviderError (list Log)) retry st from to :
  config_ok config -> sized st -> from <= to ->
  let run := getLogs config topics ranges archive reported stated clueOf tooWide ask retry st from to in
  sized run.1 /\ learns run.1 st /\ answered_by topics ranges archive ask retry from run.2 /\
  ((forall attempt u e, from <= u -> askRange topics ranges ask attempt from u = Err e -> forall c, truthyNumber (clueOf e) = Some c -> from < c <= u) ->
   forall logs used, run.2 = Ok (logs, used) -> used <= to).
Proof.
  intros Hc Hst Hle. cbv zeta. destruct (getLogs_spec config Hc topics ranges archive reported stated clueOf tooWide ask retry st from to Hst Hle) as (H1 & H2 & H3).
  split_and!; [done..|]. intros Hclue logs used. by apply getLogs_within.
Qed.

(** Refusals without a clue halve the range: a node that answers every single block is
    answered by within as many retries as the width asked for has bits. *)
Theorem halving_succeeds config {ProviderError Log} topics ranges (archive : ProviderError -> option string) reported stated clueOf tooWide
    (ask : nat -> option (list string) -> Z -> Z -> result ProviderError (list Log)) retry st from to :
  config_ok config -> sized st -> from <= to ->
  Z.min (to - from + 1) (numBlocksToFetch st) <= 2 ^ Z.of_nat retry ->
  (forall attempt, is_Ok (askRange topics ranges ask attempt from from)) ->
  (forall attempt u e, askRange topics ranges ask attempt from u = Err e -> archive e = None /\ truthyNumber (clueOf e) = None) ->
  is_Ok (getLogs config topics ranges archive reported stated clueOf tooWide ask retry st from to).2.
Proof. intros. by apply getLogs_halves. Qed.

(** A node whose refusals name the first block of the range they refuse is asked for that
    same wide range on every retry, and the call throws, though the single block would have
    been answered. *)
Theorem clue_at_start_wedges config from retry st to :
  from <> 0 -> 2 <= numBlocksToFetch st -> foundNumBlockToHigh st = None -> from < to ->
  (getLogs config None [] (fun _ => None) (fun _ => None) (fun _ => None) Some (fun _ => false) crowdedBlock retry st from to).2 = Err (Refused from)
  /\ crowdedBlock retry None from from = Ok [].
Proof.
  intros Hz Hw Hf Hto. destruct (clue_wedges config from Hz retry st to Hw Hf Hto) as (st' & -> & _).
  split; [done|]. unfold crowdedBlock. by rewrite decide_True.
Qed.

(** A node that refuses more than eight blocks at once, saying so or not. *)
Definition narrowNode (_ : nat) (_ : option (list string)) (from to : Z) : result string (list Z) :=
  if decide (8 <= to - from) then Err "too wide" else Ok [from; to].

#[local] Abbreviation narrow st := (getLogs defaultRangeConfig None [] (fun _ : string => None) (fun _ => None) (fun _ => None) (fun _ => None) (fun _ => true) narrowNode 3 st).
#[local] Abbreviation freshRange := (newRangeLogFetcher defaultRangeConfig None).

Example narrow_learns :
  narrow freshRange 100 500 = (mkRangeFetcher 7 (Some 10) (Some 5) None, Ok ([100; 104], 104)).
Proof. vm_compute. reflexivity. Qed.

Lemma default_config_ok : config_ok defaultRangeConfig.
Proof. split; cbn; lia. Qed.

Lemma range_fetch_exact_witness :
  let run := narrow freshRange 100 500 in
  sized run.1 /\ learns run.1 freshRange /\ answered_by None [] (fun _ => None) narrowNode 3 100 run.2 /\
  ((forall attempt u e, 100 <= u -> askRange None [] narrowNode attempt 100 u = Err e -> forall c, truthyNumber None = Some c -> 100 < c <= u) ->
   forall logs used, run.2 = Ok (logs, used) -> used <= 500).
Proof.
  exact (range_fetch_exact defaultRangeConfig None [] _ _ _ _ _ narrowNode 3 freshRange 100 500 default_config_ok
    (newRangeLogFetcher_sized _ default_config_ok None) ltac:(lia)).
Defined.

Lemma halving_succeeds_witness :
  is_Ok (narrow (with_size freshRange 8) 100 500).2.
Proof.
  apply (halving_succeeds defaultRangeConfig None [] (fun _ => None) (fun _ => None) (fun _ => None) (fun _ => None) (fun _ => true) narrowNode 3);
    [apply default_config_ok|split; cbn; [lia|done|done]|lia|cbn; lia|done|by intros].
Defined.

Lemma clue_at_start_wedges_witness :
  (getLogs defaultRangeConfig None [] (fun _ => None) (fun _ => None) (fun _ => None) Some (fun _ => false) crowdedBlock 3 freshRange 100 500).2
    = Err (Refused 100) /\ crowdedBlock 3 None 100 100 = Ok [].
Proof. apply (clue_at_start_wedges defaultRangeConfig 100 3 freshRange 500); vm_compute; congruence. Defined.
