(* ===== verification/FilterRules.v ===== *)
(** * Argument filters

    [packages/core/src/internal/decoding/filterRules.ts]: what a rule of the configuration
    restricts is a (contract, [topic0]) pair.  [resolveFilterRules] refuses a rule it could
    only answer with a quiet nothing, and turns the others into the instructions the request
    planner takes: one scoped request per match entry, and a leftover for the addresses
    that no rule reaches. *)
From S2P Require Import Prelude JsMap AbiEvents.

(** A slot of a match entry: [null], a topic, or a list of them. *)
Inductive ArgumentSlot : Type :=
  | AnyTopic
  | ThisTopic (topic : string)
  | OneOfTopics (topics : list string).

#[export] Instance ArgumentSlot_eq_dec : EqDecision ArgumentSlot.
Proof. solve_decision. Defined.

Definition ArgumentFilter : Type := list ArgumentSlot.

Record FilterRule : Type := mkRule {
  rule_event : string;
  rule_contracts : option (list string);
  rule_match : list ArgumentFilter
}.

(** [address] is [None] on a source that is one merged ABI. *)
Record SourceDeclaration : Type := mkDeclaration {
  declaration_address : option string;
  declaration_event : AbiEvent
}.

Inductive ExtraFilter : Type :=
  | MatchFilter (topic0 : string) (contractAddresses : option (list string)) (entry : ArgumentFilter)
  | LeftoverFilter (topic0 : string) (contractAddresses : option (list string)).

(** The refusals, in the order they are tried. *)
Inductive FilterRefusal : Type :=
  | EmptyMatch (event : string)
  | UnconstrainedEntry (event : string)
  | ContractsOnMergedAbi (event : string)
  | UndeclaredSignature (event : string)
  | OnlyAnonymous (event : string)
  | UndeclaredEvent (event : string)
  | InvalidFilterAddress (address : string)
  | DeclaresNoMatch (event address : string)
  | SeveralShapes (event topic0 : string)
  | EntryTooLong (event topic0 : string).

Fixpoint isSignature (event : string) : bool :=
  match event with
  | EmptyString => false
  | String c rest => bool_decide (c = "("%char) || isSignature rest
  end.

Definition isIndexed (input : AbiParameter) : bool :=
  match input with mkParameter _ _ indexed _ => default false indexed end.

Definition indexedArgumentCount (event : AbiEvent) : nat :=
  length (filter (fun input => isIndexed input = true) (event_inputs event)).

Section FilterRules.
Context `{lib : AbiLibrary}.

Definition wanted (rule : FilterRule) (declaration : SourceDeclaration) : bool :=
  let event := declaration_event declaration in
  negb (isAnonymous event)
    && (if isSignature (rule_event rule)
        then bool_decide (canonicalSignatureOf event = rule_event rule)
        else bool_decide (event_name event = rule_event rule)).

(** The entries of a rule, before any declaration is looked at. *)
Definition checkEntry (rule : FilterRule) (entry : ArgumentFilter) : result FilterRefusal unit :=
  assert_or (negb (bool_decide (entry = [])) && negb (forallb (fun slot => bool_decide (slot = AnyTopic)) entry))
    (UnconstrainedEntry (rule_event rule)).

Definition checkMatch (rule : FilterRule) : result FilterRefusal unit :=
  match rule_match rule with
  | [] => Err (EmptyMatch (rule_event rule))
  | entries => (fun _ => tt) <$> mapR (checkEntry rule) entries
  end.

Definition refuseUndeclared (rule : FilterRule) (declarations : list SourceDeclaration) : FilterRefusal :=
  if isSignature (rule_event rule) then UndeclaredSignature (rule_event rule)
  else if existsb (fun declaration => bool_decide (event_name (declaration_event declaration) = rule_event rule)
                     && isAnonymous (declaration_event declaration)) declarations
  then OnlyAnonymous (rule_event rule)
  else UndeclaredEvent (rule_event rule).

Definition declaredIn (addresses : list string) (candidate : SourceDeclaration) : bool :=
  match declaration_address candidate with Some address => bool_decide (address ∈ addresses) | None => false end.

(** The declarations a rule is about, once its [contracts] narrow them. *)
Definition scopedTo (rule : FilterRule) (candidates : list SourceDeclaration) : result FilterRefusal (list SourceDeclaration) :=
  match rule_contracts rule with
  | None => Ok candidates
  | Some contracts =>
      mapR (normalizeAddress InvalidFilterAddress) contracts ≫= fun scopeAddresses =>
      mapR (fun address => assert_or (bool_decide (Some address ∈ declaration_address <$> candidates))
        (DeclaresNoMatch (rule_event rule) address)) scopeAddresses ≫= fun _ =>
      Ok (filter (fun candidate => declaredIn scopeAddresses candidate = true) candidates)
  end.

(** The distinct decoding shapes of a list of declarations, each by its first event. *)
Definition distinctShapes (here : list SourceDeclaration) : list AbiEvent :=
  foldl (fun shapes candidate =>
    if existsb (fun seen => deepEqualShapes (decodingShapeOf seen) (decodingShapeOf (declaration_event candidate))) shapes
    then shapes else shapes ++ [declaration_event candidate]) [] here.

Record Resolution : Type := mkResolution {
  resolved : list ExtraFilter;
  coveredPerTopic0 : list (string * list string);
  reachedTopic0s : list string
}.

(** One [topic0] a rule reaches: refused when two decoding shapes answer to it or an entry
    is too long for the one that does, and otherwise one scoped request per entry. *)
Definition resolveTopic0 (addressLess : bool) (rule : FilterRule) (scoped : list SourceDeclaration)
    (st : Resolution) (topic0 : string) : result FilterRefusal Resolution :=
  let here := filter (fun candidate => topic0Of (declaration_event candidate) = Some topic0) scoped in
  let shapes := distinctShapes here in
  assert_or (bool_decide (length shapes <= 1)%nat) (SeveralShapes (rule_event rule) topic0) ≫= fun _ =>
  let indexed := match shapes with event :: _ => indexedArgumentCount event | [] => 0%nat end in
  mapR (fun entry : ArgumentFilter => assert_or (bool_decide (length entry <= indexed)%nat) (EntryTooLong (rule_event rule) topic0))
    (rule_match rule) ≫= fun _ =>
  let requestScope := if addressLess then None else Some (js_set (omap declaration_address here)) in
  Ok (mkResolution
    (resolved st ++ (MatchFilter topic0 requestScope <$> rule_match rule))
    (jm_set (coveredPerTopic0 st) topic0
      (js_set (default [] (jm_get (coveredPerTopic0 st) topic0) ++ default [] requestScope)))
    (js_set (reachedTopic0s st ++ [topic0]))).

Definition resolveRule (declarations : list SourceDeclaration) (addressLess : bool) (st : Resolution) (rule : FilterRule)
    : result FilterRefusal Resolution :=
  checkMatch rule ≫= fun _ =>
  assert_or (negb (bool_decide (is_Some (rule_contracts rule)) && addressLess)) (ContractsOnMergedAbi (rule_event rule)) ≫= fun _ =>
  let candidates := filter (fun declaration => wanted rule declaration = true) declarations in
  assert_or (negb (bool_decide (candidates = []))) (refuseUndeclared rule declarations) ≫= fun _ =>
  scopedTo rule candidates ≫= fun scoped =>
  let topic0sOfRule := js_set (omap (fun candidate => topic0Of (declaration_event candidate)) scoped) in
  foldR (resolveTopic0 addressLess rule scoped) st topic0sOfRule.

(** The addresses that declare a [topic0] and that no rule covers, one per reached [topic0]. *)
Definition leftovers (declarations : list SourceDeclaration) (addressLess : bool) (st : Resolution) : list ExtraFilter :=
  if addressLess then []
  else omap (fun topic0 =>
    let declaring := js_set (omap declaration_address
      (filter (fun declaration => topic0Of (declaration_event declaration) = Some topic0) declarations)) in
    let covered := default [] (jm_get (coveredPerTopic0 st) topic0) in
    match filter (fun address => address ∉ covered) declaring with
    | [] => None
    | leftover => Some (LeftoverFilter topic0 (Some leftover))
    end) (reachedTopic0s st).

Definition isAddressLess (declarations : list SourceDeclaration) : bool :=
  forallb (fun declaration => bool_decide (declaration_address declaration = None)) declarations.

Definition resolveFilterRules (rules : list FilterRule) (declarations : list SourceDeclaration) : result FilterRefusal (list ExtraFilter) :=
  let addressLess := isAddressLess declarations in
  (fun st => resolved st ++ leftovers declarations addressLess st)
    <$> foldR (resolveRule declarations addressLess) (mkResolution [] [] []) rules.
End FilterRules.

(** ** What the instructions say

    A rule governs a declared (address, [topic0]) pair when it names the event declared
    there and its [contracts], if it has any, hold the address. *)
Section Resolved.
Context `{lib : AbiLibrary}.

Definition declares (declarations : list SourceDeclaration) (address : option string) (topic0 : string) : Prop :=
  exists d, d ∈ declarations /\ declaration_address d = address /\ topic0Of (declaration_event d) = Some topic0.

Definition governs (declarations : list SourceDeclaration) (rule : FilterRule) (address : option string) (topic0 : string) : Prop :=
  exists d, d ∈ declarations /\ declaration_address d = address /\ topic0Of (declaration_event d) = Some topic0
    /\ wanted rule d = true
    /\ match rule_contracts rule with
       | None => True
       | Some contracts => exists c a, c ∈ contracts /\ getAddress c = Some a /\ address = Some a
       end.

Definition inScope (scope : option (list string)) (address : option string) : Prop :=
  match scope with None => True | Some addresses => exists a, address = Some a /\ a ∈ addresses end.

Definition filter_topic0 (f : ExtraFilter) : string :=
  match f with MatchFilter topic0 _ _ | LeftoverFilter topic0 _ => topic0 end.

(** The declarations are a merged ABI's, or a list of contracts'. *)
Definition uniform (declarations : list SourceDeclaration) (addressLess : bool) : Prop :=
  Forall (fun d => declaration_address d = None <-> addressLess = true) declarations.

(** A [topic0] a rule reaches, with the scope and the entries it asks for there. *)
Record Reach : Type := mkReach { reach_topic0 : string; reach_scope : option (list string); reach_match : list ArgumentFilter }.

Definition addReach (st : Resolution) (r : Reach) : Resolution :=
  mkResolution
    (resolved st ++ (MatchFilter (reach_topic0 r) (reach_scope r) <$> reach_match r))
    (jm_set (coveredPerTopic0 st) (reach_topic0 r)
      (js_set (default [] (jm_get (coveredPerTopic0 st) (reach_topic0 r)) ++ default [] (reach_scope r))))
    (js_set (reachedTopic0s st ++ [reach_topic0 r])).

Lemma addReaches_spec rs : forall st,
  let st' := foldl addReach st rs in
  (forall f, f ∈ resolved st' <-> f ∈ resolved st \/ exists r m, r ∈ rs /\ m ∈ reach_match r /\ f = MatchFilter (reach_topic0 r) (reach_scope r) m)
  /\ (forall t a, a ∈ default [] (jm_get (coveredPerTopic0 st') t) <->
       a ∈ default [] (jm_get (coveredPerTopic0 st) t) \/ exists r, r ∈ rs /\ reach_topic0 r = t /\ a ∈ default [] (reach_scope r))
  /\ (forall t, t ∈ reachedTopic0s st' <-> t ∈ reachedTopic0s st \/ exists r, r ∈ rs /\ reach_topic0 r = t).
Proof.
  induction rs as [|r rs IH]; intros st; cbn [foldl]; cbv zeta.
  { split_and!; intros *; (split; [by left|]).
    - by intros [Hin|(r & m & ?%not_elem_of_nil & _)].
    - by intros [Hin|(r & ?%not_elem_of_nil & _)].
    - by intros [Hin|(r & ?%not_elem_of_nil & _)]. }
  destruct (IH (addReach st r)) as (Hres & Hcov & Hreach). split_and!.
  - intros f. rewrite Hres. unfold addReach. cbn [resolved]. rewrite elem_of_app, list_elem_of_fmap. split.
    + intros [[Hin|(m & -> & Hm)]|(r' & m & Hr & Hm & ->)]; [by left|right; exists r, m; by split_and!; [left|..]|].
      right. exists r', m. by split_and!; [right|..].
    + intros [Hin|(r' & m & [->|Hr]%elem_of_cons & Hm & ->)]; [tauto|left; right; by exists m|right; by exists r', m].
  - intros t a. rewrite Hcov. unfold addReach. cbn [coveredPerTopic0]. rewrite jm_get_set. split.
    + intros [Hin|(r' & Hr & Ht & Ha)]; [|right; exists r'; by split; [right|]]. case_decide as Heq; [|by left].
      cbn [default from_option id] in Hin. apply (proj2 (js_set_spec _)), elem_of_app in Hin as [Hin|Ha]; subst t; [by left|].
      right. exists r. by split; [left|].
    + intros [Hin|(r' & [->|Hr]%elem_of_cons & Ht & Ha)]; [left|left|right; by exists r'].
      * case_decide; subst; [|done]. cbn [default from_option id]. apply (proj2 (js_set_spec _)), elem_of_app. by left.
      * rewrite decide_True by done. cbn [default from_option id]. apply (proj2 (js_set_spec _)), elem_of_app. by right.
  - intros t. rewrite Hreach. unfold addReach. cbn [reachedTopic0s]. rewrite (proj2 (js_set_spec _)), elem_of_app, list_elem_of_singleton. split.
    + intros [[Hin| ->]|(r' & Hr & Ht)]; [by left|right; exists r; by split; [left|]|right; exists r'; by split; [right|]].
    + intros [Hin|(r' & [->|Hr]%elem_of_cons & Ht)]; [tauto|left; right; done|right; by exists r'].
Qed.

(** ** The reaches of a rule *)
Definition reachOf (addressLess : bool) (rule : FilterRule) (scoped : list SourceDeclaration) (topic0 : string) : Reach :=
  let here := filter (fun candidate => topic0Of (declaration_event candidate) = Some topic0) scoped in
  mkReach topic0 (if addressLess then None else Some (js_set (omap declaration_address here))) (rule_match rule).

Lemma resolveTopic0_reach addressLess rule scoped st st' topic0 :
  resolveTopic0 addressLess rule scoped st topic0 = Ok st' -> st' = addReach st (reachOf addressLess rule scoped topic0).
Proof. unfold resolveTopic0. by intros (_ & _ & (_ & _ & [= <-])%bind_Ok)%bind_Ok. Qed.

Lemma scopedTo_spec rule candidates scoped :
  scopedTo rule candidates = Ok scoped ->
  forall d, d ∈ scoped <-> d ∈ candidates
    /\ match rule_contracts rule with
       | None => True
       | Some contracts => exists c a, c ∈ contracts /\ getAddress c = Some a /\ declaration_address d = Some a
       end.
Proof.
  unfold scopedTo. destruct (rule_contracts rule) as [contracts|]; [|intros [= ->] d; tauto].
  intros (addresses & Haddr & (_ & _ & [= <-])%bind_Ok)%bind_Ok d. rewrite list_elem_of_filter, (and_comm (_ = true)).
  apply and_iff_compat_l. unfold declaredIn. apply mapR_Forall2 in Haddr. destruct (declaration_address d) as [a|].
  - rewrite bool_decide_eq_true. split.
    + intros (i & Hi)%list_elem_of_lookup. destruct (Forall2_lookup_r _ _ _ _ _ Haddr Hi) as (c & Hc & Hn%normalizeAddress_Ok).
      exists c, a. split_and!; [by eapply list_elem_of_lookup_2|done..].
    + intros (c & b & (i & Hi)%list_elem_of_lookup & Hn & [= ->]).
      destruct (Forall2_lookup_l _ _ _ _ _ Haddr Hi) as (b' & Hb & Hn'%normalizeAddress_Ok). rewrite Hn in Hn'.
      injection Hn' as <-. by eapply list_elem_of_lookup_2.
  - split; [done|]. by intros (c & a & _ & _ & [=]).
Qed.

(** The reaches of a rule that is accepted: one for each [topic0] it governs anywhere, whose
    scope holds exactly the addresses it governs it at. *)
Lemma resolveRule_reaches declarations addressLess st rule st' :
  uniform declarations addressLess -> resolveRule declarations addressLess st rule = Ok st' ->
  rule_match rule <> [] /\
  exists rs, st' = foldl addReach st rs /\ (forall r, r ∈ rs -> reach_match r = rule_match rule /\ (reach_scope r = None -> addressLess = true)
         /\ forall a, a ∈ default [] (reach_scope r) -> Some a ∈ declaration_address <$> declarations)
    /\ (forall t, (exists r, r ∈ rs /\ reach_topic0 r = t) <-> exists address, governs declarations rule address t)
    /\ (forall r address, r ∈ rs -> declares declarations address (reach_topic0 r) ->
         inScope (reach_scope r) address <-> governs declarations rule address (reach_topic0 r)).
Proof.
  intros Hu (u & Hmatch & (_ & _ & (_ & _ & (scoped & Hscoped & Hrun)%bind_Ok)%bind_Ok)%bind_Ok)%bind_Ok.
  set (candidates := filter _ declarations) in Hscoped. split; [unfold checkMatch in Hmatch; by destruct (rule_match rule)|].
  assert (forall d, d ∈ scoped <-> d ∈ declarations /\ wanted rule d = true /\
    match rule_contracts rule with
    | None => True
    | Some contracts => exists c a, c ∈ contracts /\ getAddress c = Some a /\ declaration_address d = Some a
    end) as Hin.
  { intros d. rewrite (scopedTo_spec _ _ _ Hscoped). unfold candidates. rewrite list_elem_of_filter. tauto. }
  assert (forall t address, governs declarations rule address t <->
    exists d, d ∈ scoped /\ declaration_address d = address /\ topic0Of (declaration_event d) = Some t) as Hgov.
  { intros t address. split.
    - intros (d & Hd & Ha & Ht & Hw & Hc). exists d. split_and!; [|done..]. apply Hin. split_and!; [done..|].
      destruct (rule_contracts rule); [|done]. by subst address.
    - intros (d & (Hd & Hw & Hc)%Hin & Ha & Ht). exists d. split_and!; [done..|]. destruct (rule_contracts rule); [|done]. by subst address. }
  set (ts := js_set _) in Hrun.
  exists (reachOf addressLess rule scoped <$> ts). split_and!.
  - rewrite foldl_fmap. eapply foldR_pure; [|exact Hrun]. intros s1 s2 t _. apply resolveTopic0_reach.
  - intros r (t & -> & _)%list_elem_of_fmap. cbn. destruct addressLess; split_and!; [done|done|by intros ? ?%not_elem_of_nil|done|done|].
    intros a (d & (_ & [Hd _]%Hin)%list_elem_of_filter & Ha)%(proj2 (js_set_spec _))%list_elem_of_omap.
    rewrite <- Ha. by apply list_elem_of_fmap_2.
  - intros t. transitivity (t ∈ ts).
    + split; [by intros (r & (t' & -> & Ht)%list_elem_of_fmap & <-)|]. intros Ht. eexists. split; [by apply list_elem_of_fmap_2|done].
    + unfold ts. rewrite (proj2 (js_set_spec _)), list_elem_of_omap. split.
      * intros (d & Hd & Ht). exists (declaration_address d). apply Hgov. by exists d.
      * intros (address & (d & Hd & _ & Ht)%Hgov). by exists d.
  - intros r address (t & -> & Ht)%list_elem_of_fmap (d0 & Hd0 & Ha0 & Ht0). cbn [reachOf reach_topic0 reach_scope] in *.
    rewrite Hgov. unfold uniform in Hu. rewrite Forall_forall in Hu. pose proof (Hu _ Hd0) as Hu0. destruct addressLess; cbn [inScope].
    + split; [intros _|done]. unfold ts in Ht. apply (proj2 (js_set_spec _)), list_elem_of_omap in Ht as (d & Hd & Ht).
      exists d. split_and!; [done| |done]. rewrite <- Ha0, (proj2 Hu0) by done. apply Hin in Hd as (Hd & _). by apply Hu.
    + split.
      * intros (a & -> & (d & (Htd & Hd)%list_elem_of_filter & Hda)%(proj2 (js_set_spec _))%list_elem_of_omap). by exists d.
      * intros (d & Hd & Ha & Htd). apply Hin in Hd as Hd'. destruct Hd' as (Hdd & _). destruct (declaration_address d) as [a|] eqn:Hda.
        -- exists a. split; [done|]. apply (proj2 (js_set_spec _)), list_elem_of_omap. exists d. by rewrite list_elem_of_filter.
        -- by apply Hu in Hda.
Qed.

(** One reach is what one rule asks for under one [topic0]. *)
Definition reach_of (declarations : list SourceDeclaration) (addressLess : bool) (rule : FilterRule) (r : Reach) : Prop :=
  reach_match r = rule_match rule /\ rule_match rule <> [] /\ (reach_scope r = None -> addressLess = true)
  /\ (forall a, a ∈ default [] (reach_scope r) -> Some a ∈ declaration_address <$> declarations)
  /\ (exists address, governs declarations rule address (reach_topic0 r))
  /\ forall address, declares declarations address (reach_topic0 r) ->
       inScope (reach_scope r) address <-> governs declarations rule address (reach_topic0 r).

Lemma resolveRules_reaches declarations addressLess rules : forall st st',
  uniform declarations addressLess -> foldR (resolveRule declarations addressLess) st rules = Ok st' ->
  exists rs, st' = foldl addReach st rs
    /\ (forall r, r ∈ rs -> exists rule, rule ∈ rules /\ reach_of declarations addressLess rule r)
    /\ (forall rule address t, rule ∈ rules -> governs declarations rule address t ->
         exists r, r ∈ rs /\ reach_topic0 r = t /\ reach_of declarations addressLess rule r).
Proof.
  induction rules as [|rule rules IH]; intros st st' Hu; cbn [foldR].
  { intros [= <-]. exists []. split_and!; [done|by intros ? ?%not_elem_of_nil|by intros ? ? ? ?%not_elem_of_nil]. }
  destruct (resolveRule _ _ st rule) as [st1|] eqn:Hrule; [|done]. intros Hrun.
  destruct (resolveRule_reaches _ _ _ _ _ Hu Hrule) as (Hne & rs & -> & Hm & Hts & Hscope).
  destruct (IH _ _ Hu Hrun) as (rs' & -> & Hfrom & Hto).
  assert (forall r, r ∈ rs -> reach_of declarations addressLess rule r) as Hof.
  { intros r Hr. split_and!; [by apply Hm|done|by apply Hm|by apply Hm|apply Hts; by exists r|]. intros address. by apply Hscope. }
  exists (rs ++ rs'). split_and!; [by rewrite foldl_app|..].
  - intros r [Hr|Hr]%elem_of_app; [exists rule; split; [left|by apply Hof]|].
    destruct (Hfrom _ Hr) as (rule' & Hin & Hr'). exists rule'. by split; [right|].
  - intros rule' address t [->|Hin]%elem_of_cons Hg.
    + destruct (proj2 (Hts t)) as (r & Hr & Ht); [by exists address|]. exists r. split_and!; [apply elem_of_app; by left|done|by apply Hof].
    + destruct (Hto _ _ _ Hin Hg) as (r & Hr & Hrest). exists r. split; [apply elem_of_app; by right|done].
Qed.

(** The leftover of a [topic0] holds the declaring addresses that no reach covers. *)
Lemma leftovers_spec declarations addressLess st address t :
  uniform declarations addressLess -> declares declarations address t ->
  (exists scope, LeftoverFilter t scope ∈ leftovers declarations addressLess st /\ inScope scope address)
  <-> addressLess = false /\ t ∈ reachedTopic0s st /\ forall a, address = Some a -> a ∉ default [] (jm_get (coveredPerTopic0 st) t).
Proof.
  intros Hu (d & Hd & Ha & Ht). unfold leftovers. unfold uniform in Hu. rewrite Forall_forall in Hu. pose proof (Hu _ Hd) as Hnone.
  destruct addressLess.
  { split; [by intros (scope & ?%not_elem_of_nil & _)|by intros [? _]]. }
  destruct (declaration_address d) as [a|] eqn:Hda; [|discriminate (proj1 Hnone eq_refl)]. clear Hnone.
  set (uncovered := fun t' => filter (fun x => x ∉ default [] (jm_get (coveredPerTopic0 st) t'))
    (js_set (omap declaration_address (filter (fun declaration => topic0Of (declaration_event declaration) = Some t') declarations)))).
  assert (a ∈ uncovered t <-> a ∉ default [] (jm_get (coveredPerTopic0 st) t)) as Hunc.
  { unfold uncovered. rewrite list_elem_of_filter, (proj2 (js_set_spec _)), list_elem_of_omap. split; [tauto|]. intros Hnot. split; [done|].
    exists d. by rewrite list_elem_of_filter. }
  subst address. split.
  - intros (scope & Hin & Hscope). apply list_elem_of_omap in Hin as (t' & Ht' & Heq). fold (uncovered t') in Heq.
    destruct (uncovered t') as [|x xs] eqn:Hun; [done|]. injection Heq as -> <-. split_and!; [done..|].
    intros a' [= <-]. apply Hunc. rewrite Hun. by destruct Hscope as (a' & [= <-] & ?).
  - intros (_ & Hreached & Hcov). specialize (Hcov a eq_refl). apply Hunc in Hcov. exists (Some (uncovered t)). split; [|by exists a].
    apply list_elem_of_omap. exists t. split; [done|]. fold (uncovered t). destruct (uncovered t); [by apply not_elem_of_nil in Hcov|done].
Qed.

Lemma leftovers_reached declarations addressLess st f :
  f ∈ leftovers declarations addressLess st -> filter_topic0 f ∈ reachedTopic0s st /\ exists t scope, f = LeftoverFilter t scope.
Proof.
  unfold leftovers. destruct addressLess; [by intros ?%not_elem_of_nil|].
  intros (t' & Ht' & Heq)%list_elem_of_omap. destruct (filter _ _); [done|]. injection Heq as <-. split; [done|]. by eexists _, _.
Qed.

(** What the instructions ask of a declared pair: each entry of each rule that governs it,
    and all of it when its [topic0] is named and no rule governs it there. *)
Lemma resolve_exact declarations rules filters :
  resolveFilterRules rules declarations = Ok filters ->
  uniform declarations (isAddressLess declarations) ->
  forall address t, declares declarations address t ->
  (forall m, (exists scope, MatchFilter t scope m ∈ filters /\ inScope scope address)
     <-> exists rule, rule ∈ rules /\ governs declarations rule address t /\ m ∈ rule_match rule)
  /\ ((exists scope, LeftoverFilter t scope ∈ filters /\ inScope scope address)
     <-> (exists f, f ∈ filters /\ filter_topic0 f = t) /\ ~ exists rule, rule ∈ rules /\ governs declarations rule address t).
Proof.
  unfold resolveFilterRules. set (addressLess := isAddressLess declarations).
  intros (st & Hrun & <-)%fmap_Ok Hu address t Hd.
  destruct (resolveRules_reaches _ _ _ _ _ Hu Hrun) as (rs & -> & Hfrom & Hto).
  destruct (addReaches_spec rs (mkResolution [] [] [])) as (Hres & Hcov & Hreach). cbn in Hcov, Hreach.
  set (st := foldl addReach _ rs) in *.
  pose proof (leftovers_reached declarations addressLess st) as Hleft.
  assert ((exists f, f ∈ resolved st ++ leftovers declarations addressLess st /\ filter_topic0 f = t) <-> t ∈ reachedTopic0s st) as Hmentioned.
  { split.
    - intros (f & [Hin|Hin]%elem_of_app & Hf); [|apply Hleft in Hin as [Hin _]; by rewrite Hf in Hin].
      apply Hres in Hin as [?%not_elem_of_nil|(r & m & Hr & _ & ->)]; [done|]. apply Hreach. right. by exists r.
    - intros [?%not_elem_of_nil|(r & Hr & Ht)]%Hreach; [done|]. destruct (Hfrom _ Hr) as (rule & _ & Hm & Hne & _).
      rewrite <- Hm in Hne. destruct (reach_match r) as [|m ms] eqn:Hms; [done|]. exists (MatchFilter (reach_topic0 r) (reach_scope r) m).
      split; [|done]. apply elem_of_app. left. apply Hres. right. exists r, m. split_and!; [done|rewrite Hms; left|done]. }
  assert (forall other, addressLess = true -> (exists rule, governs declarations rule other t) -> other = address) as same_address.
  { intros other Hless (rule & d & Hdd & <- & _). destruct Hd as (d' & Hd' & <- & _). unfold uniform in Hu. rewrite Forall_forall in Hu.
    by rewrite (proj2 (Hu _ Hdd)), (proj2 (Hu _ Hd')). }
  split.
  - intros m. split.
    + intros (scope & Hin & Hscope). apply elem_of_app in Hin as [Hin|(_ & ? & ? & ?)%Hleft]; [|done].
      apply Hres in Hin as [?%not_elem_of_nil|(r & m' & Hr & Hm & [= -> -> ->])]; [done|].
      destruct (Hfrom _ Hr) as (rule & Hrule & Hmatch & _ & _ & _ & _ & Hsc). exists rule. rewrite <- Hmatch, <- Hsc by done. done.
    + intros (rule & Hrule & Hg & Hm). destruct (Hto _ _ _ Hrule Hg) as (r & Hr & <- & Hmatch & _ & _ & _ & _ & Hsc).
      exists (reach_scope r). split; [|by apply Hsc]. apply elem_of_app. left. apply Hres. right. exists r, m. by rewrite Hmatch.
  - transitivity (exists scope, LeftoverFilter t scope ∈ leftovers declarations addressLess st /\ inScope scope address).
    { split; intros (scope & Hin & Hsc); exists scope; (split; [|done]); [|apply elem_of_app; by right].
      apply elem_of_app in Hin as [Hin|]; [|done]. by apply Hres in Hin as [?%not_elem_of_nil|(r & m & _ & _ & [=])]. }
    rewrite leftovers_spec, Hmentioned by done. split.
    + intros (Hless & Ht & Hno). split; [done|]. intros (rule & Hrule & Hg). destruct (Hto _ _ _ Hrule Hg) as (r & Hr & Htr & _ & _ & Hsome & _ & _ & Hsc).
      rewrite Htr in Hsc. apply Hsc in Hg; [|done]. destruct (reach_scope r) as [addresses|] eqn:Hscope; [|by rewrite Hsome in Hless].
      destruct Hg as (a & -> & Ha). apply (Hno a eq_refl), Hcov. right. exists r. by rewrite Hscope.
    + intros [Ht Hno]. apply Hreach in Ht as Hr. destruct Hr as [?%not_elem_of_nil|(r & Hr & Htr)]; [done|].
      destruct (Hfrom _ Hr) as (rule & Hrule & _ & _ & _ & _ & (other & Hg) & _). rewrite Htr in Hg. split_and!; [|done|].
      * apply not_true_is_false. intros Hless. apply Hno. exists rule. split; [done|]. rewrite <- (same_address other); [done|done|by exists rule].
      * intros a -> [?%not_elem_of_nil|(r' & Hr' & Ht' & Ha)]%Hcov; [done|]. apply Hno.
        destruct (Hfrom _ Hr') as (rule' & Hrule' & _ & _ & _ & _ & _ & Hsc'). exists rule'. split; [done|]. rewrite Ht' in Hsc'. apply Hsc'; [done|].
        destruct (reach_scope r') as [addresses|]; [by exists a|done].
Qed.
(** A scope names declared addresses only. *)
Lemma resolve_scope declarations rules filters f a :
  resolveFilterRules rules declarations = Ok filters -> uniform declarations (isAddressLess declarations) ->
  f ∈ filters -> a ∈ default [] (match f with MatchFilter _ scope _ | LeftoverFilter _ scope => scope end) ->
  Some a ∈ declaration_address <$> declarations.
Proof.
  intros (st & Hrun & <-)%fmap_Ok Hu [Hf|Hf]%elem_of_app Ha.
  - destruct (resolveRules_reaches _ _ _ _ _ Hu Hrun) as (rs & -> & Hfrom & _).
    apply (proj1 (addReaches_spec rs (mkResolution [] [] []))) in Hf as [?%not_elem_of_nil|(r & m & Hr & _ & ->)]; [done|].
    destruct (Hfrom _ Hr) as (rule & _ & _ & _ & _ & Hin & _). by apply Hin.
  - unfold leftovers in Hf. destruct (isAddressLess declarations); [by apply not_elem_of_nil in Hf|].
    apply list_elem_of_omap in Hf as (t & _ & Heq). destruct (filter _ (js_set _)) as [|x xs] eqn:Hleft; [done|]. injection Heq as <-.
    cbn [default from_option id] in Ha. rewrite <- Hleft in Ha. apply list_elem_of_filter in Ha as [_ Ha].
    apply (proj2 (js_set_spec _)), list_elem_of_omap in Ha as (d & [_ Hd]%list_elem_of_filter & <-). by apply list_elem_of_fmap_2.
Qed.

(** ** What an accepted rule constrains *)
Lemma distinctShapes_spec here : forall d, d ∈ here ->
  exists e, e ∈ distinctShapes here /\ decodingShapeOf e = decodingShapeOf (declaration_event d).
Proof.
  unfold distinctShapes. induction here as [|x here IH] using rev_ind; intros d Hd; [by apply not_elem_of_nil in Hd|].
  rewrite foldl_app. cbn [foldl]. set (shapes := foldl _ _ here) in *.
  assert (forall b, (if b : bool then shapes else shapes ++ [declaration_event x]) = shapes ++ if b then [] else [declaration_event x]) as Hif
    by (intros []; [by rewrite app_nil_r|done]).
  rewrite Hif. apply elem_of_app in Hd as [Hd| ->%list_elem_of_singleton].
  - destruct (IH _ Hd) as (e & He & Heq). exists e. by rewrite elem_of_app; split; [left|].
  - destruct (existsb _ shapes) eqn:Hex.
    + apply existsb_exists in Hex as (e & He & Heq%deepEqualShapes_eq). exists e. split; [|done].
      rewrite app_nil_r. by apply list_elem_of_In.
    + eexists. split; [apply elem_of_app; right; left|done].
Qed.

Lemma indexed_shape a b : decodingShapeOf a = decodingShapeOf b -> indexedArgumentCount a = indexedArgumentCount b.
Proof.
  assert (forall e, indexedArgumentCount e = length (filter (fun shape => (match shape with mkShape _ _ indexed _ => indexed end) = true) (shape_inputs (decodingShapeOf e)))) as Hcount.
  { intros [name inputs anonymous]. unfold indexedArgumentCount, decodingShapeOf. cbn [event_inputs shape_inputs].
    induction inputs as [|[pn pt pi pc] inputs IH]; [done|]. cbn [map shapeOfParameter]. rewrite !filter_cons.
    cbn [isIndexed]. destruct pi as [[]|]; cbn [default from_option id]; rewrite ?decide_True, ?decide_False by done; cbn [length]; by rewrite IH. }
  intros Heq. by rewrite !Hcount, Heq.
Qed.

Lemma mapR_assert {E A} (c : A -> bool) (e : A -> E) l us a : mapR (fun x => assert_or (c x) (e x)) l = Ok us -> a ∈ l -> c a = true.
Proof. intros Hm Ha. destruct (mapR_elem _ _ _ _ Hm Ha) as (u & _ & Hu). by apply assert_or_Ok in Hu. Qed.

Lemma resolveTopic0_entries addressLess rule scoped st st' topic0 d entry :
  resolveTopic0 addressLess rule scoped st topic0 = Ok st' ->
  d ∈ scoped -> topic0Of (declaration_event d) = Some topic0 -> entry ∈ rule_match rule ->
  (length entry <= indexedArgumentCount (declaration_event d))%nat.
Proof.
  intros (u & Hone%assert_or_Ok%bool_decide_eq_true & (us & Hm & _)%bind_Ok)%bind_Ok Hd Ht Hentry.
  apply (mapR_assert _ _ _ _ _ Hm) in Hentry. apply bool_decide_eq_true in Hentry.
  set (here := filter _ scoped) in *. destruct (distinctShapes_spec here d) as (e & He & Heq); [by apply list_elem_of_filter|].
  destruct (distinctShapes here) as [|e' [|]]; [by apply not_elem_of_nil in He| |simpl in Hone; lia].
  apply list_elem_of_singleton in He as ->. by rewrite <- (indexed_shape _ _ Heq).
Qed.

Lemma accepted_nonempty declarations rules filters rule :
  resolveFilterRules rules declarations = Ok filters -> rule ∈ rules -> rule_match rule <> [].
Proof.
  intros (st & Hrun & _)%fmap_Ok Hrule. destruct (foldR_elem _ _ _ _ _ Hrun Hrule) as (st1 & st2 & (u & Hmatch & _)%bind_Ok).
  unfold checkMatch in Hmatch. by destruct (rule_match rule).
Qed.

(** Every entry of an accepted rule constrains something, in an argument the event has. *)
Lemma accepted_entry declarations rules filters rule entry d :
  resolveFilterRules rules declarations = Ok filters -> rule ∈ rules -> entry ∈ rule_match rule ->
  d ∈ declarations -> wanted rule d = true ->
  match rule_contracts rule with
  | None => True
  | Some contracts => exists c a, c ∈ contracts /\ getAddress c = Some a /\ declaration_address d = Some a
  end ->
  (exists slot, slot ∈ entry /\ slot <> AnyTopic) /\ (length entry <= indexedArgumentCount (declaration_event d))%nat.
Proof.
  intros (st & Hrun & _)%fmap_Ok Hrule Hentry Hd Hw Hall. destruct (foldR_elem _ _ _ _ _ Hrun Hrule) as (st1 & st2 & Hone).
  apply bind_Ok in Hone as (u & Hmatch & Hone). apply bind_Ok in Hone as (_ & _ & Hone). apply bind_Ok in Hone as (_ & _ & Hone).
  apply bind_Ok in Hone as (scoped & Hscoped & Hone).
  split.
  - unfold checkMatch in Hmatch. destruct (rule_match rule) as [|m ms]; [by apply not_elem_of_nil in Hentry|].
    apply fmap_Ok in Hmatch as (us & Hm & _). apply (mapR_assert _ _ _ _ _ Hm), andb_true_iff in Hentry as [_ Hf].
    apply negb_true_iff in Hf. apply not_true_iff_false in Hf.
    destruct (decide (Exists (fun slot => slot <> AnyTopic) entry)) as [Hex|Hno].
    + apply Exists_exists in Hex. done.
    + exfalso. apply Hf, forallb_forall. intros slot Hslot%list_elem_of_In. apply bool_decide_eq_true.
      apply dec_stable. intros Hne. apply Hno, Exists_exists. by exists slot.
  - assert (d ∈ scoped) as Hin by by apply (scopedTo_spec _ _ _ Hscoped); split; [apply list_elem_of_filter|].
    assert (exists t, topic0Of (declaration_event d) = Some t) as (t & Ht).
    { unfold topic0Of. unfold wanted in Hw. destruct (isAnonymous _); [done|]. by eexists. }
    destruct (foldR_elem _ _ _ _ t Hone) as (s1 & s2 & Hstep).
    + apply (proj2 (js_set_spec _)), list_elem_of_omap. by exists d.
    + by eapply resolveTopic0_entries.
Qed.
End Resolved.
