(* ===== verification/Requests.v ===== *)
(** * The requests for a block range

    [packages/core/src/internal/engine/ethereum.ts]: the one planner of [eth_getLogs]
    requests, the bounded concurrency they are issued with, and the union of their answers.
    The node is a parameter: it answers a request over a range with logs or an error. *)
From S2P Require Import Prelude JsMap Types AbiEvents Quantities FilterRules.

(** The JSON of a log: quantities are hex text, and a pending log has no block. *)
Record RpcLog : Type := mkRpcLog {
  rpc_blockNumber : option string;
  rpc_blockHash : string;
  rpc_transactionIndex : string;
  rpc_removed : option bool;
  rpc_address : string;
  rpc_data : string;
  rpc_topics : list string;
  rpc_transactionHash : string;
  rpc_logIndex : string;
  rpc_blockTimestamp : option JsVal
}.

Record LogRequest : Type := mkRequest {
  request_topics : list ArgumentSlot;
  request_addresses : option (list string)
}.

(** ** The planner *)
Definition addressScopeKey (contractAddresses : option (list string)) : string :=
  match contractAddresses with None => "*" | Some addresses => String.concat "," addresses end.

(** From the end, while the last slot is a wildcard. *)
Fixpoint withoutTrailingWildcards (entry : ArgumentFilter) : ArgumentFilter :=
  match entry with
  | [] => []
  | slot :: rest =>
      match slot, withoutTrailingWildcards rest with
      | AnyTopic, [] => []
      | _, kept => slot :: kept
      end
  end.

(** A leftover group: its addresses and the topics asked for at them. *)
Definition LeftoverGroups : Type := list (string * (option (list string) * list string)).

Definition pushLeftover (groups : LeftoverGroups) (scope : option (list string)) (topic0 : string) : LeftoverGroups :=
  let key := addressScopeKey scope in
  let '(addresses, topic0s) := default (scope, []) (jm_get groups key) in
  jm_set groups key (addresses, topic0s ++ [topic0]).

Record Planning : Type := mkPlanning {
  scopedRequests : list LogRequest;
  leftoverGroups : LeftoverGroups;
  mentioned : list string
}.

Definition planFilter (live : list string) (st : Planning) (f : ExtraFilter) : Planning :=
  let seen := js_set (mentioned st ++ [filter_topic0 f]) in
  if decide (filter_topic0 f ∈ live) then
    match f with
    | LeftoverFilter topic0 scope => mkPlanning (scopedRequests st) (pushLeftover (leftoverGroups st) scope topic0) seen
    | MatchFilter topic0 scope entry =>
        mkPlanning (scopedRequests st ++ [mkRequest (ThisTopic topic0 :: withoutTrailingWildcards entry) scope]) (leftoverGroups st) seen
    end
  else mkPlanning (scopedRequests st) (leftoverGroups st) seen.

Definition generateLogRequestForTopicsAndFiltersCombinations (contractAddresses : option (list string)) (eventNameTopics : list string)
    (filters : list ExtraFilter) : list LogRequest :=
  match filters with
  | [] => [mkRequest [OneOfTopics eventNameTopics] contractAddresses]
  | _ =>
      let st := foldl (planFilter eventNameTopics) (mkPlanning [] [] []) filters in
      let groups := foldl (fun groups topic0 =>
        if decide (topic0 ∈ mentioned st) then groups else pushLeftover groups contractAddresses topic0) (leftoverGroups st) eventNameTopics in
      omap (fun '(_, (addresses, topic0s)) =>
        match topic0s with [] => None | _ => Some (mkRequest [OneOfTopics topic0s] addresses) end) groups
      ++ scopedRequests st
  end.

(** ** Issuing a list of requests

    [MAX_CONCURRENT_LOG_REQUESTS] workers, each waiting for the answer to the request it
    claimed or done.  A worker whose request fails is done; one whose request is answered
    claims the next, unless a request has failed. *)
Definition MAX_CONCURRENT_LOG_REQUESTS : nat := 4.

Section Issue.
Context {E : Type} (answer : nat -> result E (list RpcLog)) (total : nat).

Record Issuing : Type := mkIssuing {
  results : list (nat * list RpcLog);
  failures : list (nat * E);
  nextIndex : nat;
  workers : list (option nat)
}.

Definition claim (st : Issuing) : option nat * nat :=
  if decide (failures st = [] /\ (nextIndex st < total)%nat) then (Some (nextIndex st), S (nextIndex st)) else (None, nextIndex st).

(** The workers are started one after the other, each up to its first [await]. *)
Definition startWorker (st : Issuing) : Issuing :=
  let '(claimed, next) := claim st in
  mkIssuing (results st) (failures st) next (workers st ++ [claimed]).

Definition startWorkers : Issuing :=
  Nat.iter (Nat.min MAX_CONCURRENT_LOG_REQUESTS total) startWorker (mkIssuing [] [] 0 []).

(** The answer that one worker waits for comes in. *)
Definition settleWorker (st : Issuing) (worker : nat) : Issuing :=
  match workers st !! worker with
  | Some (Some index) =>
      match answer index with
      | Ok logs =>
          let st := mkIssuing (results st ++ [(index, logs)]) (failures st) (nextIndex st) (workers st) in
          let '(claimed, next) := claim st in
          mkIssuing (results st) (failures st) next (<[worker := claimed]> (workers st))
      | Err error => mkIssuing (results st) (failures st ++ [(index, error)]) (nextIndex st) (<[worker := None]> (workers st))
      end
  | _ => st
  end.

(** [Promise.all(workers)] resolves when every worker is done. *)
Definition allDone (st : Issuing) : bool := forallb (fun worker => bool_decide (worker = None)) (workers st).

Definition earliestFailure (first : nat * E) (rest : list (nat * E)) : nat * E :=
  foldl (fun earliest failure => if decide (failure.1 < earliest.1)%nat then failure else earliest) first rest.

(** [None]: the answers have not all come in under this schedule. *)
Definition issueRequestsBounded (schedule : list nat) : option (result E (list (list RpcLog))) :=
  let st := foldl settleWorker startWorkers schedule in
  if allDone st
  then Some match failures st with
            | first :: rest => Err (earliestFailure first rest).2
            | [] => Ok ((fun index => default [] (jm_get (results st) index)) <$> seq 0 total)
            end
  else None.
End Issue.
#[global] Arguments Issuing : clear implicits.

(** ** The union of the answers *)
Definition logPosition (log : RpcLog) : option Z * option Z :=
  (rpc_blockNumber log ≫= quantity, quantity (rpc_logIndex log)).

(** [>] and [<] on two numbers, false of a [NaN]. *)
Definition compareNumbers (a b : option Z) : Z :=
  match a, b with
  | Some a, Some b => if decide (b < a) then 1 else if decide (a < b) then -1 else 0
  | _, _ => 0
  end.

Definition compareLogs (a b : RpcLog) : Z :=
  let byBlock := compareNumbers (logPosition a).1 (logPosition b).1 in
  if decide (byBlock = 0) then compareNumbers (logPosition a).2 (logPosition b).2 else byBlock.

(** A log that repeats the one before it is left out. *)
Fixpoint withoutRepeats (lastAdded : option RpcLog) (sortedLogs : list RpcLog) : list RpcLog :=
  match sortedLogs with
  | [] => []
  | log :: rest =>
      match lastAdded with
      | Some last =>
          if decide (rpc_blockHash log = rpc_blockHash last /\ rpc_logIndex log = rpc_logIndex last)
          then withoutRepeats lastAdded rest else log :: withoutRepeats (Some log) rest
      | None => log :: withoutRepeats (Some log) rest
      end
  end.

Section GetLogs.
Context {E : Type} (eth_getLogs : option (list string) -> string -> string -> option (list ArgumentSlot) -> result E (list RpcLog)).

Definition getLogs (contractAddresses : option (list string)) (topics : option (list ArgumentSlot)) (fromBlock toBlock : Z)
    : result E (list RpcLog) :=
  filter (fun log => is_Some (rpc_blockNumber log)) <$> eth_getLogs contractAddresses (toQuantity fromBlock) (toQuantity toBlock) topics.

(** Concatenated, sorted and freed of repeats. *)
Definition unionOf (answers : result E (list (list RpcLog))) : result E (list RpcLog) :=
  (fun answers : list (list RpcLog) => withoutRepeats None (sort_by compareLogs (concat answers))) <$> answers.

Definition getLogsWithVariousFilters (contractAddresses : option (list string)) (eventNameTopics : option (list string))
    (filters : list ExtraFilter) (fromBlock toBlock : Z) (schedule : list nat) : option (result E (list RpcLog)) :=
  match eventNameTopics with
  | None => Some (getLogs contractAddresses None fromBlock toBlock)
  | Some eventNameTopics =>
      match generateLogRequestForTopicsAndFiltersCombinations contractAddresses eventNameTopics filters with
      | [request] => Some (getLogs (request_addresses request) (Some (request_topics request)) fromBlock toBlock)
      | requestList =>
          let answer index :=
            match requestList !! index with
            | Some request => getLogs (request_addresses request) (Some (request_topics request)) fromBlock toBlock
            | None => Ok []
            end in
          unionOf <$> issueRequestsBounded answer (length requestList) schedule
      end
  end.
End GetLogs.

(** ** What a request asks for

    Each slot constrains the topic at its position, which has to be there. *)
Definition slotHolds (slot : ArgumentSlot) (topic : string) : bool :=
  match slot with
  | AnyTopic => true
  | ThisTopic this => bool_decide (topic = this)
  | OneOfTopics these => bool_decide (topic ∈ these)
  end.

Fixpoint topicsMatch (slots : list ArgumentSlot) (topics : list string) : bool :=
  match slots, topics with
  | [], _ => true
  | slot :: slots, topic :: topics => slotHolds slot topic && topicsMatch slots topics
  | _ :: _, [] => false
  end.

Definition addressIn (scope : option (list string)) (address : string) : bool :=
  match scope with None => true | Some addresses => bool_decide (address ∈ addresses) end.

(** A log at an address, in its checksummed form, with these topics. *)
Definition requestMatches (request : LogRequest) (address : string) (topics : list string) : bool :=
  addressIn (request_addresses request) address && topicsMatch (request_topics request) topics.

(** What a match entry says of a log's arguments: a wildcard says nothing, even of an
    argument that is not there. *)
Fixpoint entryMatches (entry : ArgumentFilter) (args : list string) : bool :=
  match entry, args with
  | [], _ => true
  | AnyTopic :: entry, _ => entryMatches entry (tail args)
  | slot :: entry, arg :: args => slotHolds slot arg && entryMatches entry args
  | _ :: _, [] => false
  end.

Lemma entryMatches_wildcards entry args : withoutTrailingWildcards entry = [] -> entryMatches entry args = true.
Proof.
  revert args. induction entry as [|slot entry IH]; intros args; [done|]. cbn [withoutTrailingWildcards].
  destruct slot; [|by destruct (withoutTrailingWildcards entry)..].
  destruct (withoutTrailingWildcards entry); [|done]. intros _. cbn. by apply IH.
Qed.

(** Dropping the trailing wildcards is what makes a positional request ask for that. *)
Lemma withoutTrailingWildcards_matches entry args : topicsMatch (withoutTrailingWildcards entry) args = entryMatches entry args.
Proof.
  revert args. induction entry as [|slot entry IH]; intros args; [by destruct args|]. cbn [withoutTrailingWildcards].
  assert (forall kept, kept = withoutTrailingWildcards entry -> (slot <> AnyTopic \/ kept <> []) ->
    topicsMatch (slot :: kept) args = entryMatches (slot :: entry) args) as Hkept.
  { intros kept -> Hne. destruct args as [|arg args]; cbn [topicsMatch].
    - destruct slot; [|done..]. cbn [entryMatches tail]. rewrite <- IH. destruct Hne as [?|Hne]; [done|].
      by destruct (withoutTrailingWildcards entry).
    - rewrite IH. by destruct slot. }
  destruct (withoutTrailingWildcards entry) as [|kept keeps] eqn:Hw; destruct slot;
    try (apply Hkept; [done|first [by left|by right]]).
  cbn. by rewrite entryMatches_wildcards.
Qed.

(** ** The groups of leftovers

    The key of a group is its addresses joined, which says which they are. *)
Definition plain (address : string) : Prop := address <> "" /\ address <> "*" /\ free_of "," address.

Definition plainScope (scope : option (list string)) : Prop :=
  match scope with None => True | Some addresses => Forall plain addresses end.

Lemma concat_comma_cons x y l : String.concat "," (x :: y :: l) = x +:+ String "," (String.concat "," (y :: l)).
Proof. done. Qed.

Lemma concat_comma_inj l : forall k, Forall plain l -> Forall plain k -> String.concat "," l = String.concat "," k -> l = k.
Proof.
  assert (forall x y l, free_of "," x -> x = y +:+ String "," l -> False) as Hno.
  { intros x y m Hx ->. apply free_of_app in Hx as [_ [Hc _]]. done. }
  induction l as [|x l IH]; intros k Hl Hk Heq.
  - destruct k as [|y [|z k]]; [done|..]; apply Forall_cons in Hk as [(Hy & _) _].
    + by destruct Hy.
    + rewrite concat_comma_cons in Heq. by destruct y.
  - apply Forall_cons in Hl as [(Hx & _ & Hfx) Hl]. destruct k as [|y k].
    + destruct l as [|z l]; [by destruct Hx|]. rewrite concat_comma_cons in Heq. by destruct x.
    + apply Forall_cons in Hk as [(Hy & _ & Hfy) Hk]. destruct l as [|z l], k as [|w k].
      * by cbn in Heq; subst.
      * rewrite concat_comma_cons in Heq. by destruct (Hno _ _ _ Hfx Heq).
      * rewrite concat_comma_cons in Heq. by destruct (Hno _ _ _ Hfy (eq_sym Heq)).
      * rewrite !concat_comma_cons in Heq. apply separator_inj in Heq as [-> Heq]; [|done..]. f_equal. by apply IH.
Qed.

Lemma addressScopeKey_inj a b : plainScope a -> plainScope b -> addressScopeKey a = addressScopeKey b -> a = b.
Proof.
  assert (forall l, Forall plain l -> String.concat "," l <> "*") as Hstar.
  { intros [|x [|y l]] Hl; [done|..]; apply Forall_cons in Hl as [(Hx & Hs & _) _]; [done|].
    rewrite concat_comma_cons. destruct x as [|c [|c' x]]; done. }
  destruct a as [a|], b as [b|]; cbn [plainScope addressScopeKey]; intros Ha Hb Heq; [|by apply Hstar in Heq|by symmetry in Heq; apply Hstar in Heq|done].
  f_equal. by apply concat_comma_inj.
Qed.

Definition groups_ok (groups : LeftoverGroups) : Prop :=
  jm_wf groups /\ forall key scope topic0s, jm_get groups key = Some (scope, topic0s) -> key = addressScopeKey scope /\ plainScope scope.

Definition inGroup (groups : LeftoverGroups) (scope : option (list string)) (topic0 : string) : Prop :=
  exists topic0s, jm_get groups (addressScopeKey scope) = Some (scope, topic0s) /\ topic0 ∈ topic0s.

Lemma pushLeftover_spec groups scope topic0 :
  groups_ok groups -> plainScope scope ->
  groups_ok (pushLeftover groups scope topic0)
  /\ forall sc t, inGroup (pushLeftover groups scope topic0) sc t <-> inGroup groups sc t \/ sc = scope /\ t = topic0.
Proof.
  intros [Hwf Hok] Hplain. set (key := addressScopeKey scope).
  assert (exists old, default (scope, []) (jm_get groups key) = (scope, old)
    /\ forall t, t ∈ old <-> inGroup groups scope t) as (old & Hold & Hin).
  { destruct (jm_get groups key) as [[sc ts]|] eqn:Hget.
    - destruct (Hok _ _ _ Hget) as [Hkey Hsc]. apply addressScopeKey_inj in Hkey as <-; [|done..].
      exists ts. split; [done|]. intros t. split; [by exists ts|]. intros (ts' & Hget' & Ht). fold key in Hget'. congruence.
    - exists []. split; [done|]. intros t. split; [by intros ?%not_elem_of_nil|]. intros (ts & Hget' & _). fold key in Hget'. congruence. }
  assert (pushLeftover groups scope topic0 = jm_set groups key (scope, old ++ [topic0])) as ->.
  { unfold pushLeftover. fold key. by rewrite Hold. }
  split.
  - split; [by apply jm_wf_set|]. intros k sc ts. rewrite jm_get_set. case_decide; [intros [= <- <-]; by subst k|apply Hok].
  - intros sc t. unfold inGroup at 1. rewrite jm_get_set. case_decide as Heq.
    + split.
      * intros (ts & [= <- <-] & [Ht| ->%list_elem_of_singleton]%elem_of_app); [left; by apply Hin|by right].
      * intros [Ht|[-> ->]].
        -- destruct Ht as (ts & Hget & Ht). destruct (Hok _ _ _ Hget) as [_ Hsc]. apply addressScopeKey_inj in Heq as <-; [|done..].
           eexists. split; [done|]. apply elem_of_app. left. apply Hin. by exists ts.
        -- eexists. split; [done|]. apply elem_of_app. right. by apply list_elem_of_singleton.
    + split; [by left|]. intros [?|[-> _]]; [done|]. by destruct Heq.
Qed.

(** ** The plan *)
Definition filter_scope (f : ExtraFilter) : option (list string) :=
  match f with MatchFilter _ scope _ | LeftoverFilter _ scope => scope end.

Definition matchRequest (topic0 : string) (scope : option (list string)) (entry : ArgumentFilter) : LogRequest :=
  mkRequest (ThisTopic topic0 :: withoutTrailingWildcards entry) scope.

Definition mentions (filters : list ExtraFilter) (t : string) : Prop := exists f, f ∈ filters /\ filter_topic0 f = t.

#[export] Instance mentions_dec filters t : Decision (mentions filters t).
Proof.
  destruct (decide (Exists (fun f => filter_topic0 f = t) filters)) as [Hex|Hno]; [left|right]; unfold mentions; rewrite <- Exists_exists; done.
Defined.

Definition scopedBy (live : list string) (filters : list ExtraFilter) (request : LogRequest) : Prop :=
  exists t scope entry, MatchFilter t scope entry ∈ filters /\ t ∈ live /\ request = matchRequest t scope entry.

Lemma mentions_filters_app fs gs t : mentions (fs ++ gs) t <-> mentions fs t \/ mentions gs t.
Proof.
  split.
  - intros (f & [?|?]%elem_of_app & ?); [left|right]; by exists f.
  - intros [(f & ? & ?)|(f & ? & ?)]; exists f; rewrite elem_of_app; tauto.
Qed.

Lemma scopedBy_app live fs gs request : scopedBy live (fs ++ gs) request <-> scopedBy live fs request \/ scopedBy live gs request.
Proof.
  split.
  - intros (t & scope & entry & [?|?]%elem_of_app & ?); [left|right]; by exists t, scope, entry.
  - intros [(t & scope & entry & ? & ?)|(t & scope & entry & ? & ?)]; exists t, scope, entry; rewrite elem_of_app; tauto.
Qed.

(** What a list of filters adds to a plan. *)
Record planned (live : list string) (filters : list ExtraFilter) (st st' : Planning) : Prop := {
  pl_ok : groups_ok (leftoverGroups st');
  pl_groups scope t : inGroup (leftoverGroups st') scope t <->
    inGroup (leftoverGroups st) scope t \/ LeftoverFilter t scope ∈ filters /\ t ∈ live;
  pl_scoped request : request ∈ scopedRequests st' <-> request ∈ scopedRequests st \/ scopedBy live filters request;
  pl_mentioned t : t ∈ mentioned st' <-> t ∈ mentioned st \/ mentions filters t
}.

Lemma planFilter_planned live st f :
  groups_ok (leftoverGroups st) -> plainScope (filter_scope f) -> planned live [f] st (planFilter live st f).
Proof.
  intros Hok Hplain. unfold planFilter.
  assert (forall t, t ∈ js_set (mentioned st ++ [filter_topic0 f]) <-> t ∈ mentioned st \/ mentions [f] t) as Hm.
  { intros t. rewrite (proj2 (js_set_spec _)), elem_of_app, list_elem_of_singleton. split.
    - intros [?| ->]; [by left|right; exists f; by split; [left|]].
    - by intros [?|(g & ->%list_elem_of_singleton & <-)]; [left|right]. }
  case_decide as Hlive; [destruct f as [t sc m|t sc]|]; cbn [filter_topic0 filter_scope] in *.
  - split; cbn [leftoverGroups scopedRequests mentioned]; [done|..|done].
    + intros scope t'. split; [by left|]. by intros [?|[[=]%list_elem_of_singleton _]].
    + intros request. rewrite elem_of_app, list_elem_of_singleton. apply or_iff_compat_l. split.
      * intros ->. exists t, sc, m. by split_and!; [left|..].
      * by intros (? & ? & ? & [= -> -> ->]%list_elem_of_singleton & _ & ->).
  - destruct (pushLeftover_spec _ _ t Hok Hplain) as [Hok' Hin]. split; cbn [leftoverGroups scopedRequests mentioned]; [done|..|done].
    + intros scope t'. rewrite Hin. apply or_iff_compat_l. split.
      * intros [-> ->]. by split; [left|].
      * by intros [[= -> ->]%list_elem_of_singleton _].
    + intros request. split; [by left|]. by intros [?|(? & ? & ? & [=]%list_elem_of_singleton & _)].
  - split; cbn [leftoverGroups scopedRequests mentioned]; [done|..|done].
    + intros scope t'. split; [by left|]. by intros [?|[<-%list_elem_of_singleton ?]].
    + intros request. split; [by left|]. by intros [?|(? & ? & ? & <-%list_elem_of_singleton & ? & _)].
Qed.

Lemma planned_trans live fs gs st st1 st2 : planned live fs st st1 -> planned live gs st1 st2 -> planned live (fs ++ gs) st st2.
Proof.
  intros [_ Hg1 Hs1 Hm1] [Hok Hg2 Hs2 Hm2]. split; [done|..].
  - intros scope t. rewrite Hg2, Hg1, elem_of_app. tauto.
  - intros request. rewrite Hs2, Hs1, scopedBy_app. tauto.
  - intros t. rewrite Hm2, Hm1, mentions_filters_app. tauto.
Qed.

Lemma planFilters_planned live filters : forall st,
  groups_ok (leftoverGroups st) -> Forall (fun f => plainScope (filter_scope f)) filters ->
  planned live filters st (foldl (planFilter live) st filters).
Proof.
  induction filters as [|f filters IH]; intros st Hok Hplain; cbn [foldl].
  - split; [done|..]; intros *; (split; [by left|]).
    + by intros [?|[?%not_elem_of_nil _]].
    + by intros [?|(? & ? & ? & ?%not_elem_of_nil & _)].
    + by intros [?|(? & ?%not_elem_of_nil & _)].
  - apply Forall_cons in Hplain as [Hf Hfs]. apply (planned_trans _ [f] _ _ (planFilter live st f)).
    + by apply planFilter_planned.
    + apply IH; [|done]. by apply (pl_ok _ _ _ _ (planFilter_planned live st f Hok Hf)).
Qed.

(** The topics no filter mentions go to the group that holds every address. *)
Lemma pushUnmentioned_spec (mentioned : list string) (contractAddresses : option (list string)) topics : forall groups,
  groups_ok groups -> plainScope contractAddresses ->
  let groups' := foldl (fun groups topic0 => if decide (topic0 ∈ mentioned) then groups else pushLeftover groups contractAddresses topic0) groups topics in
  groups_ok groups' /\ forall scope t, inGroup groups' scope t <->
    inGroup groups scope t \/ scope = contractAddresses /\ t ∈ topics /\ t ∉ mentioned.
Proof.
  induction topics as [|topic topics IH]; intros groups Hok Hplain; cbn [foldl]; cbv zeta.
  { split; [done|]. intros scope t. split; [by left|]. by intros [?|(_ & ?%not_elem_of_nil & _)]. }
  case_decide as Hm.
  - destruct (IH groups Hok Hplain) as [Hok' Hin]. split; [done|]. intros scope t. rewrite Hin, elem_of_cons. split; [tauto|].
    intros [?|(-> & [->|?] & ?)]; tauto.
  - destruct (pushLeftover_spec _ _ topic Hok Hplain) as [Hok1 Hin1]. destruct (IH _ Hok1 Hplain) as [Hok' Hin]. split; [done|].
    intros scope t. rewrite Hin, Hin1, elem_of_cons. split; [intros [[?|[-> ->]]|?]; tauto|]. intros [?|(-> & [->|?] & ?)]; tauto.
Qed.

Lemma inGroup_request groups address t args :
  groups_ok groups ->
  (exists request, request ∈ omap (fun '(_, (addresses, topic0s)) =>
     match topic0s with [] => None | _ => Some (mkRequest [OneOfTopics topic0s] addresses) end) groups /\ requestMatches request address (t :: args) = true)
  <-> exists scope, inGroup groups scope t /\ addressIn scope address = true.
Proof.
  intros [Hwf Hok].
  assert (forall scope ts, requestMatches (mkRequest [OneOfTopics ts] scope) address (t :: args) = true <-> addressIn scope address = true /\ t ∈ ts) as Hreq.
  { intros scope ts. unfold requestMatches. cbn [request_addresses request_topics topicsMatch slotHolds].
    by rewrite andb_true_r, andb_true_iff, bool_decide_eq_true. }
  split.
  - intros (request & ([key [scope ts]] & Hin & Heq)%list_elem_of_omap & Hm).
    destruct ts as [|t' ts]; [done|]. injection Heq as <-. apply Hreq in Hm as [Ha Ht].
    apply (jm_get_Some _ _ _ Hwf) in Hin. destruct (Hok _ _ _ Hin) as [-> _]. exists scope. split; [|done]. by eexists.
  - intros (scope & (ts & Hget & Ht) & Ha). exists (mkRequest [OneOfTopics ts] scope). split; [|by apply Hreq].
    apply list_elem_of_omap. exists (addressScopeKey scope, (scope, ts)). split; [by apply jm_get_elem|].
    destruct ts; [by apply not_elem_of_nil in Ht|done].
Qed.

(** What the requests of a plan ask for: nothing but the live topics, and of a live topic
    the entries of its matches, its leftovers, and all of it when no filter mentions it. *)
Lemma generate_spec contractAddresses live filters address t args :
  Forall (fun f => plainScope (filter_scope f)) filters -> plainScope contractAddresses ->
  (exists request, request ∈ generateLogRequestForTopicsAndFiltersCombinations contractAddresses live filters /\ requestMatches request address (t :: args) = true)
  <-> t ∈ live /\
    ((exists scope entry, MatchFilter t scope entry ∈ filters /\ addressIn scope address = true /\ entryMatches entry args = true)
     \/ (exists scope, LeftoverFilter t scope ∈ filters /\ addressIn scope address = true)
     \/ ~ mentions filters t /\ addressIn contractAddresses address = true).
Proof.
  intros Hplain Hall.
  assert (forall t' scope entry, requestMatches (matchRequest t' scope entry) address (t :: args) = true
    <-> addressIn scope address = true /\ t = t' /\ entryMatches entry args = true) as Hmatch.
  { intros t' scope entry. unfold requestMatches, matchRequest. cbn [request_addresses request_topics topicsMatch slotHolds].
    by rewrite !andb_true_iff, bool_decide_eq_true, withoutTrailingWildcards_matches. }
  unfold generateLogRequestForTopicsAndFiltersCombinations. destruct filters as [|f fs] eqn:Hfilters.
  { setoid_rewrite list_elem_of_singleton. split.
    - intros (request & -> & [Ha Ht]%andb_true_iff). cbn in Ht. rewrite andb_true_r, bool_decide_eq_true in Ht.
      split; [done|]. right. right. split; [by intros (? & ?%not_elem_of_nil & _)|done].
    - intros [Ht [(? & ? & ?%not_elem_of_nil & _)|[(? & ?%not_elem_of_nil & _)|[_ Ha]]]]; [done..|].
      eexists. split; [done|]. unfold requestMatches. cbn [request_addresses request_topics]. cbn.
      rewrite andb_true_r, andb_true_iff, bool_decide_eq_true. done. }
  rewrite <- Hfilters in *. clear Hfilters f fs.
  assert (groups_ok []) as Hnil by (split; [constructor|done]).
  destruct (planFilters_planned live filters (mkPlanning [] [] []) Hnil Hplain) as [Hok Hg Hs Hm]. cbn in Hg, Hs, Hm.
  set (st := foldl (planFilter live) _ filters) in *.
  destruct (pushUnmentioned_spec (mentioned st) contractAddresses live _ Hok Hall) as [Hok' Hg'].
  set (groups := foldl _ (leftoverGroups st) live) in *.
  pose proof (inGroup_request groups address t args Hok') as Hgroups.
  assert (t ∈ mentioned st <-> mentions filters t) as Hment.
  { rewrite Hm. split; [by intros [?%not_elem_of_nil|]|by right]. }
  split.
  - intros (request & [Hin|Hin]%elem_of_app & Hreq).
    + destruct (proj1 Hgroups) as (scope & Hsc & Ha); [by exists request|].
      apply Hg' in Hsc as [Hsc|(-> & Ht & Hno)]; [|split; [done|right; right; by rewrite <- Hment]].
      apply Hg in Hsc as [(? & ? & _)|[Hl Ht]]; [done|]. split; [done|right; left; by exists scope].
    + apply Hs in Hin as [?%not_elem_of_nil|(t' & scope & entry & Hf & Ht & ->)]; [done|].
      apply Hmatch in Hreq as (Ha & <- & He). split; [done|left; by exists scope, entry].
  - intros (Ht & [(scope & entry & Hf & Ha & He)|Hgr]).
    + exists (matchRequest t scope entry). split; [|by apply Hmatch]. apply elem_of_app. right. apply Hs. right. by exists t, scope, entry.
    + destruct (proj2 Hgroups) as (request & Hin & Hreq); [|exists request; split; [apply elem_of_app; by left|done]].
      destruct Hgr as [(scope & Hf & Ha)|[Hno Ha]]; [exists scope|exists contractAddresses]; (split; [apply Hg'|done]).
      * left. apply Hg. by right.
      * right. by rewrite Hment.
Qed.
