(* ===== verification/Issuing.v ===== *)
(** * The answers to a list of requests

    What [Requests] makes of the answers that come in, in whatever order they do: the
    bounded workers answer every request or throw the error of one that failed, and the
    union holds each log of the range once, in order. *)
From S2P Require Import Prelude JsMap Types AbiEvents Quantities FilterRules Requests.

Section Issue.
Context {E : Type} (answer : nat -> result E (list RpcLog)) (total : nat).

Definition waiting (st : Issuing E) : list nat := omap id (workers st).

(** Every claimed request is answered, failed, or waited for by one worker; and the workers
    only stop when there is nothing left to claim or a request has failed. *)
Record issuing_ok (st : Issuing E) : Prop := {
  is_claimed : (results st).*1 ++ (failures st).*1 ++ waiting st ≡ₚ seq 0 (nextIndex st);
  is_next : (nextIndex st <= total)%nat;
  is_results i logs : (i, logs) ∈ results st -> answer i = Ok logs;
  is_failures i e : (i, e) ∈ failures st -> answer i = Err e;
  is_busy : failures st = [] -> (nextIndex st < total)%nat -> Forall (fun w => w <> None) (workers st)
}.

Definition settled (st : Issuing E) : nat := length (results st) + length (failures st).

Lemma claim_spec st : issuing_ok st -> forall rest, rest ≡ₚ waiting st ->
  let '(claimed, next) := claim total st in
  (results st).*1 ++ (failures st).*1 ++ rest ++ option_list claimed ≡ₚ seq 0 next /\ (next <= total)%nat
  /\ (claimed = None -> next = nextIndex st /\ ~ (failures st = [] /\ (next < total)%nat)).
Proof.
  intros Hok rest Hrest. unfold claim. pose proof (is_claimed _ Hok) as Hc. pose proof (is_next _ Hok). case_decide as Hd.
  - cbn [option_list]. split_and!; [|lia|done]. rewrite seq_S, <- Hc, Hrest. by rewrite <- !(assoc_L (++)).
  - cbn [option_list]. split_and!; [|lia|done]. by rewrite app_nil_r, Hrest.
Qed.

Lemma omap_id_insert (ws : list (option nat)) w i c :
  ws !! w = Some (Some i) -> omap id ws ≡ₚ i :: omap id (<[w := None]> ws) /\ omap id (<[w := c]> ws) ≡ₚ omap id (<[w := None]> ws) ++ option_list c.
Proof.
  revert w. induction ws as [|x ws IH]; intros [|w] Hw; [done..| |].
  - injection Hw as ->. split; [done|]. cbn. destruct c; cbn; [|by rewrite app_nil_r]. by rewrite Permutation_cons_append.
  - destruct (IH w Hw) as [H1 H2]. split; destruct x; cbn.
    + rewrite H1. constructor.
    + done.
    + by rewrite H2.
    + done.
Qed.

Lemma startWorkers_ok n : (n <= total)%nat ->
  let st := Nat.iter n (startWorker total) (mkIssuing [] [] 0 []) in
  issuing_ok st /\ workers st = Some <$> seq 0 n /\ nextIndex st = n /\ failures st = [] /\ results st = [].
Proof.
  induction n as [|n IH]; intros Hn; cbv zeta.
  { split_and!; [|done..]. split; cbn; [done|lia|by intros ? ? ?%not_elem_of_nil|by intros ? ? ?%not_elem_of_nil|constructor]. }
  rewrite Nat.iter_succ. destruct IH as (Hok & Hw & Hnext & Hf & Hr); [lia|]. set (st := Nat.iter n _ _) in *. unfold startWorker, claim.
  rewrite decide_True by (split; [done|lia]). cbn [nextIndex workers results failures]. rewrite Hw, Hnext, Hf, Hr. split_and!; [|by rewrite seq_S, fmap_app|done..].
  split; cbn [nextIndex workers results failures]; [|lia|by intros ? ? ?%not_elem_of_nil|by intros ? ? ?%not_elem_of_nil|].
  - unfold waiting. cbn [workers fmap list_fmap app]. rewrite omap_app, seq_S. assert (omap id (Some <$> seq 0 n) = seq 0 n) as ->; [|done].
    generalize (seq 0 n). intros l. induction l as [|x l IHl]; [done|]. cbn. by rewrite IHl.
  - intros _ _. apply Forall_app. split; [|by repeat constructor]. apply Forall_fmap, Forall_true. done.
Qed.

Lemma settleWorker_ok st w : issuing_ok st ->
  let st' := settleWorker answer total st w in
  issuing_ok st' /\ length (workers st') = length (workers st)
  /\ settled st' = (settled st + match workers st !! w with Some (Some _) => 1 | _ => 0 end)%nat.
Proof.
  intros Hok. unfold settleWorker. destruct (workers st !! w) as [[i|]|] eqn:Hw; [|split_and!; [done|done|lia]..].
  destruct (omap_id_insert _ _ i None Hw) as [Hwait _]. pose proof (is_claimed _ Hok) as Hclaimed.
  destruct (answer i) as [logs|e] eqn:Hi.
  - pose proof (claim_spec st Hok (waiting st) ltac:(done)) as Hclaim. unfold claim in *. cbn [failures nextIndex] in *.
    set (claimed := if decide _ then _ else _) in *. destruct claimed as [c next] eqn:Hc. subst claimed.
    destruct Hclaim as (Hperm & Hnext & Hstop). cbv zeta. cbn [workers results failures nextIndex].
    split_and!; [|by rewrite length_insert|unfold settled; cbn; rewrite length_app; simpl; lia].
    split; cbn [results failures nextIndex workers].
    + unfold waiting in *. cbn [workers]. rewrite (proj2 (omap_id_insert _ _ _ c Hw)), <- Hperm, Hwait, fmap_app. cbn. solve_Permutation.
    + done.
    + intros j l [Hin|[= -> ->]%list_elem_of_singleton]%elem_of_app; [by apply (is_results _ Hok)|done].
    + apply (is_failures _ Hok).
    + intros Hf Hlt. destruct c as [c|]; [|by destruct (Hstop eq_refl) as [_ []]]. case_decide as Hd; [|done].
      apply Forall_insert; [|done]. destruct Hd. by apply (is_busy _ Hok).
  - cbn [workers results failures nextIndex]. split_and!; [|by rewrite length_insert|unfold settled; cbn; rewrite length_app; simpl; lia].
    split; cbn [results failures nextIndex workers].
    + unfold waiting in *. cbn [workers]. rewrite <- Hclaimed, Hwait, fmap_app. cbn. solve_Permutation.
    + apply (is_next _ Hok).
    + apply (is_results _ Hok).
    + intros j e' [Hin|[= -> ->]%list_elem_of_singleton]%elem_of_app; [by apply (is_failures _ Hok)|done].
    + by intros [_ [=]]%app_nil.
Qed.

Lemma settleWorkers_ok schedule : forall st, issuing_ok st ->
  let st' := foldl (settleWorker answer total) st schedule in
  issuing_ok st' /\ length (workers st') = length (workers st).
Proof.
  induction schedule as [|w schedule IH]; intros st Hok; [done|]. cbn [foldl].
  destruct (settleWorker_ok st w Hok) as (Hok' & Hlen & _). destruct (IH _ Hok') as [? Hlen']. split; [done|]. by rewrite Hlen'.
Qed.

Lemma started_ok : issuing_ok (startWorkers total) /\ length (workers (startWorkers (E:=E) total)) = Nat.min MAX_CONCURRENT_LOG_REQUESTS total.
Proof.
  destruct (startWorkers_ok (Nat.min MAX_CONCURRENT_LOG_REQUESTS total)) as (Hok & Hw & _); [lia|]. split; [done|].
  unfold startWorkers. by rewrite Hw, length_fmap, length_seq.
Qed.

Lemma allDone_waiting (st : Issuing E) : allDone st = true <-> Forall (fun w => w = None) (workers st).
Proof.
  unfold allDone. rewrite forallb_forall, Forall_forall. split; intros Hall w Hw.
  - apply (bool_decide_eq_true (w = None)), Hall. by apply list_elem_of_In.
  - apply (bool_decide_eq_true (w = None)), Hall. by apply list_elem_of_In.
Qed.

Lemma done_claimed st : issuing_ok st -> allDone st = true -> (results st).*1 ++ (failures st).*1 ≡ₚ seq 0 (nextIndex st).
Proof.
  intros Hok Hd%allDone_waiting. rewrite <- (is_claimed _ Hok). unfold waiting.
  assert (omap id (workers st) = []) as ->; [|by rewrite app_nil_r]. induction Hd as [|w ws -> _ IH]; [done|]. exact IH.
Qed.

Lemma earliestFailure_least rest : forall first, let found := earliestFailure (E:=E) first rest in
  found ∈ first :: rest /\ forall failure, failure ∈ first :: rest -> (found.1 <= failure.1)%nat.
Proof.
  unfold earliestFailure. induction rest as [|f rest IH]; intros first; cbn [foldl]; cbv zeta.
  { split; [left|]. by intros failure ->%list_elem_of_singleton. }
  destruct (IH (if decide (f.1 < first.1)%nat then f else first)) as [Hin Hle]. split.
  - case_decide; rewrite !elem_of_cons in *; tauto.
  - intros g Hg. assert ((if decide (f.1 < first.1)%nat then f else first).1 <= first.1 /\ (if decide (f.1 < first.1)%nat then f else first).1 <= f.1)%nat
      as [H1 H2] by (case_decide; lia).
    pose proof (Hle _ (list_elem_of_here _ _)) as H0. apply elem_of_cons in Hg as [->|[->|Hg]%elem_of_cons]; [lia|lia|].
    apply Hle. by right.
Qed.

Lemma mapR_first_error (f : nat -> result E (list RpcLog)) n i e :
  (i < n)%nat -> f i = Err e -> (forall j, (j < i)%nat -> exists logs, f j = Ok logs) -> mapR f (seq 0 n) = Err e.
Proof.
  intros Hi He Hbefore. assert (forall k m, (m <= i)%nat -> (k = n - m)%nat -> mapR f (seq m k) = Err e) as Hgo; [|apply (Hgo _ 0%nat); lia].
  induction k as [|k IH]; intros m Hm Hk; [lia|]. cbn [seq mapR]. destruct (decide (m = i)) as [->|Hne]; [by rewrite He|].
  destruct (Hbefore m) as [logs ->]; [lia|]. by rewrite IH by lia.
Qed.

(** Whatever order the answers come in, what comes out is the answers in the order of the
    requests, or the error of the first request that fails. *)
Lemma issue_answers schedule out : issueRequestsBounded answer total schedule = Some out -> out = mapR answer (seq 0 total).
Proof.
  unfold issueRequestsBounded. destruct started_ok as [Hok0 Hlen0]. destruct (settleWorkers_ok schedule _ Hok0) as [Hok Hlen].
  set (st := foldl _ _ schedule) in *. destruct (allDone st) eqn:Hdone; [|done]. intros [= <-].
  pose proof (done_claimed _ Hok Hdone) as Hclaimed.
  assert (NoDup (results st).*1) as Hnd.
  { pose proof (NoDup_seq 0 (nextIndex st)) as Hseq. rewrite <- Hclaimed in Hseq. by apply NoDup_app in Hseq as [? _]. }
  assert (forall j, (j < nextIndex st)%nat -> j ∈ (results st).*1 \/ j ∈ (failures st).*1) as Hall.
  { intros j Hj. apply elem_of_app. rewrite Hclaimed. apply elem_of_seq. lia. }
  destruct (failures st) as [|first rest] eqn:Hf; symmetry.
  - assert (nextIndex st = total) as Hnext.
    { pose proof (is_next _ Hok). destruct (decide (nextIndex st < total)%nat) as [Hlt|]; [|lia]. exfalso.
      pose proof (is_busy _ Hok Hf Hlt) as Hbusy. apply allDone_waiting in Hdone. rewrite Hlen0 in Hlen.
      destruct (workers st) as [|w ws]; [cbn [length] in Hlen; unfold MAX_CONCURRENT_LOG_REQUESTS in Hlen; lia|].
      by apply Forall_cons in Hbusy as [? _], Hdone as [? _]. }
    apply mapR_Forall2. apply Forall2_fmap_r, Forall_Forall2_diag, Forall_forall. intros j Hj%elem_of_seq.
    destruct (Hall j) as [([j' logs] & -> & Hr)%list_elem_of_fmap|?%not_elem_of_nil]; [lia| |done].
    cbn [fst compose]. unfold compose. cbn beta. rewrite (proj2 (jm_get_Some (results st) j' logs Hnd) Hr). by apply (is_results _ Hok).
  - destruct (earliestFailure_least rest first) as [Hin Hle]. set (found := earliestFailure first rest) in *. rewrite <- Hf in Hin, Hle.
    destruct found as [i e] eqn:Hfound. cbn [fst snd] in *. apply (mapR_first_error answer total i e).
    + assert (i ∈ seq 0 (nextIndex st)) as Hi.
      { rewrite <- Hclaimed, <- Hf. apply elem_of_app. right. apply list_elem_of_fmap. by exists (i, e). }
      apply elem_of_seq in Hi. pose proof (is_next _ Hok). lia.
    + by apply (is_failures _ Hok).
    + intros j Hj. destruct (Hall j) as [([j' logs] & -> & Hr)%list_elem_of_fmap|Hr].
      * assert (i ∈ seq 0 (nextIndex st)) as Hi by (rewrite <- Hclaimed, <- Hf; apply elem_of_app; right; apply list_elem_of_fmap; by exists (i, e)).
        apply elem_of_seq in Hi. lia.
      * exists logs. by apply (is_results _ Hok).
      * exfalso. rewrite <- Hf in Hr. apply list_elem_of_fmap in Hr as (g & -> & Hg). apply Hle in Hg. lia.
Qed.
Lemma settled_bound st : issuing_ok st -> (settled st + length (waiting st) <= total)%nat.
Proof.
  intros Hok. pose proof (Permutation_length (is_claimed _ Hok)) as Hlen. rewrite !length_app, !length_fmap, length_seq in Hlen.
  pose proof (is_next _ Hok). unfold settled. lia.
Qed.

Lemma still_waiting (st : Issuing E) : allDone st = false -> exists w i, workers st !! w = Some (Some i).
Proof.
  intros Hnot. destruct (decide (Forall (fun w => w = None) (workers st))) as [Hall|Hex].
  - apply allDone_waiting in Hall. congruence.
  - apply not_Forall_Exists, Exists_exists in Hex as ([i|] & Hin & Hw); [|by destruct Hw| apply _].
    apply list_elem_of_lookup in Hin as [w Hw']. by exists w, i.
Qed.

Lemma omap_id_length {A} (l : list (option A)) : (length (omap id l) <= length l)%nat.
Proof. induction l as [|[a|] l IH]; cbn; lia. Qed.

(** At most four requests are in flight, and whatever answers have come in, the ones that
    are left are enough to finish. *)
Lemma issue_completes schedule :
  (length (waiting (foldl (settleWorker answer total) (startWorkers total) schedule)) <= MAX_CONCURRENT_LOG_REQUESTS)%nat
  /\ exists more, (length more <= total)%nat /\ is_Some (issueRequestsBounded answer total (schedule ++ more)).
Proof.
  destruct started_ok as [Hok0 Hlen0]. destruct (settleWorkers_ok schedule _ Hok0) as [Hok Hlen]. rewrite Hlen0 in Hlen. split.
  { unfold waiting. etrans; [apply omap_id_length|]. rewrite Hlen. lia. }
  unfold issueRequestsBounded. setoid_rewrite foldl_app. set (st := foldl _ _ schedule) in *. clearbody st.
  assert (forall n st, issuing_ok st -> (total - settled st <= n)%nat ->
    exists more, (length more <= n)%nat /\ allDone (foldl (settleWorker answer total) st more) = true) as Hgo.
  { clear. induction n as [|n IH]; intros st Hok Hn; destruct (allDone st) eqn:Hd; try (exists []; split; [simpl; lia|done]).
    - destruct (still_waiting _ Hd) as (w & i & Hw). destruct (settleWorker_ok st w Hok) as (Hok' & _ & Hs).
      rewrite Hw in Hs. pose proof (settled_bound _ Hok'). lia.
    - destruct (still_waiting _ Hd) as (w & i & Hw). destruct (settleWorker_ok st w Hok) as (Hok' & _ & Hs). rewrite Hw in Hs.
      destruct (IH _ Hok') as (more & Hlen & Hdone); [lia|]. exists (w :: more). split; [simpl; lia|done]. }
  destruct (Hgo total st Hok) as (more & Hm & Hdone); [lia|]. exists more. split; [done|]. rewrite Hdone. by eexists.
Qed.
End Issue.

(** ** The union of the answers

    [byPosition] is the comparison on logs whose numbers can be read. *)
Definition blockKey (log : RpcLog) : Z := default 0 (logPosition log).1.
Definition indexKey (log : RpcLog) : Z := default 0 (logPosition log).2.
Definition byPosition : RpcLog -> RpcLog -> Z := lex (on blockKey) (on indexKey).

Definition placed (log : RpcLog) : Prop := exists block index, logPosition log = (Some block, Some index).

(** The logs a node holds: each placed, in order, and told apart by its block and index. *)
Record chain_of (chain : list RpcLog) : Prop := {
  co_placed : Forall placed chain;
  co_order : StronglySorted (fun a b => byPosition a b < 0) chain;
  co_one a b : a ∈ chain -> b ∈ chain -> rpc_blockHash a = rpc_blockHash b -> rpc_logIndex a = rpc_logIndex b -> a = b
}.

Lemma compareLogs_placed a b : placed a -> placed b -> (compareLogs a b <= 0 <-> byPosition a b <= 0).
Proof.
  intros (n & i & Ha) (m & j & Hb). unfold compareLogs, byPosition, lex, on, blockKey, indexKey. rewrite Ha, Hb. cbn.
  repeat case_decide; lia.
Qed.

Lemma sort_by_ext {A} (c1 c2 : A -> A -> Z) l :
  (forall a b, a ∈ l -> b ∈ l -> (c1 a b <= 0 <-> c2 a b <= 0)) -> sort_by c1 l = sort_by c2 l.
Proof.
  induction l as [|x l IH]; intros Heq; [done|]. cbn [sort_by foldr]. fold (sort_by c1 l) (sort_by c2 l).
  rewrite IH by (intros; apply Heq; by right).
  assert (forall y, y ∈ sort_by c2 l -> (c1 x y <= 0 <-> c2 x y <= 0)) as Hx.
  { intros y Hy. rewrite sort_by_perm in Hy. apply Heq; [left|by right]. }
  clear IH. induction (sort_by c2 l) as [|y k IHk]; [done|]. cbn [insert_by].
  destruct (decide (c1 x y <= 0)) as [Hc|Hc]; [rewrite decide_True by (apply Hx; [left|done]); done|].
  rewrite decide_False by (intros Hc2; apply Hc, Hx; [left|done]). f_equal. apply IHk. intros z Hz. apply Hx. by right.
Qed.

Section Union.
Context (chain : list RpcLog) (Hchain : chain_of chain).

Lemma position_inj a b : a ∈ chain -> b ∈ chain -> byPosition a b = 0 -> a = b.
Proof.
  intros Ha Hb H0. pose proof (co_order _ Hchain) as Hs. clear Hchain. revert Ha Hb. induction Hs as [|x l Hl IH Hx]; [by intros ?%not_elem_of_nil|].
  rewrite Forall_forall in Hx. assert (byPosition b a = 0) as H0' by (unfold byPosition, lex, on in *; repeat case_decide; lia).
  intros [->|Ha]%elem_of_cons [->|Hb]%elem_of_cons; [done|specialize (Hx _ Hb); lia|specialize (Hx _ Ha); lia|by apply IH].
Qed.

Lemma withoutRepeats_spec s : forall last,
  (forall x, x ∈ s -> x ∈ chain) -> (forall l, last = Some l -> l ∈ chain /\ forall x, x ∈ s -> byPosition l x <= 0) ->
  StronglySorted (fun a b => byPosition a b <= 0) s ->
  (forall x, x ∈ withoutRepeats last s <-> x ∈ s /\ last <> Some x)
  /\ StronglySorted (fun a b => byPosition a b < 0) (withoutRepeats last s).
Proof.
  induction s as [|x s IH]; intros last Hin Hlast Hs; cbn [withoutRepeats].
  { split; [|constructor]. intros x. split; [by intros ?%not_elem_of_nil|by intros [? _]]. }
  apply StronglySorted_inv in Hs as [Hs Hx]. rewrite Forall_forall in Hx.
  assert (last <> Some x -> (forall y, y ∈ x :: withoutRepeats (Some x) s <-> y ∈ x :: s /\ last <> Some y)
    /\ StronglySorted (fun a b => byPosition a b < 0) (x :: withoutRepeats (Some x) s)) as Hkeep.
  { intros Hne. destruct (IH (Some x)) as [Hel Hss]; [intros; apply Hin; by right| |done|].
    { intros l [= <-]. split; [apply Hin; left|]. intros y Hy. by apply Hx. }
    split.
    - intros y. rewrite !elem_of_cons, Hel. split.
      + intros [->|[Hy Hxy]]; [by split; [left|]|]. split; [by right|]. intros ->. destruct (Hlast _ eq_refl) as [Hy' Hle].
        apply Hxy. f_equal. apply position_inj; [apply Hin; left|done|]. specialize (Hle x (list_elem_of_here _ _)). specialize (Hx _ Hy).
        unfold byPosition, lex, on in *. repeat case_decide; lia.
      + intros [[->|Hy] Hl]; [by left|]. destruct (decide (byPosition x y = 0)) as [H0|H0].
        * left. symmetry. apply position_inj; [apply Hin; left|apply Hin; by right|done].
        * right. split; [done|]. intros [= ->]. apply H0. unfold byPosition, lex, on. repeat case_decide; lia.
    - constructor; [done|]. apply Forall_forall. intros y [Hy Hxy]%Hel. specialize (Hx _ Hy).
      destruct (decide (byPosition x y = 0)) as [H0|H0]; [|lia]. destruct Hxy. f_equal.
      apply position_inj; [apply Hin; left|apply Hin; by right|done]. }
  destruct last as [l|]; [|by apply Hkeep]. destruct (Hlast _ eq_refl) as [Hl Hle].
  case_decide as Hsame; [|apply Hkeep; intros [= ->]; by destruct Hsame].
  assert (x = l) as ->. { destruct Hsame. apply (co_one _ Hchain); [apply Hin; left|done..]. }
  destruct (IH (Some l)) as [Hel Hss]; [intros; apply Hin; by right| |done|].
  { intros l' [= <-]. split; [done|]. intros y Hy. apply Hle. by right. }
  split; [|done]. intros y. rewrite Hel, elem_of_cons. split; [intros [? ?]; by split; [right|]|]. intros [[->|?] ?]; by split.
Qed.

(** Sorted and freed of repeats, logs of the chain are the chain's logs among them. *)
Lemma union_of_chain l : (forall x, x ∈ l -> x ∈ chain) -> forall (P : RpcLog -> Prop) `{!forall x, Decision (P x)},
  (forall x, x ∈ chain -> (x ∈ l <-> P x)) -> withoutRepeats None (sort_by compareLogs l) = filter P chain.
Proof.
  intros Hin P HP Hl. pose proof (co_placed _ Hchain) as Hpl. rewrite Forall_forall in Hpl.
  rewrite (sort_by_ext compareLogs byPosition) by (intros; apply compareLogs_placed; auto).
  assert (forall x, x ∈ sort_by byPosition l <-> x ∈ l) as Hel by (intros x; by rewrite sort_by_perm).
  destruct (withoutRepeats_spec (sort_by byPosition l) None) as [Hw Hs]; [intros x Hx; by apply Hin, Hel|done|apply sort_by_sorted, _|].
  pose proof (StronglySorted_sublist _ _ _ (sublist_filter P chain) (co_order _ Hchain)) as Hf.
  assert (forall s, StronglySorted (fun a b => byPosition a b < 0) s -> NoDup s) as Hnd.
  { intros s Hss. induction Hss as [|x s _ IH Hx]; constructor; [|done]. intros Hxs. rewrite Forall_forall in Hx. specialize (Hx _ Hxs).
    unfold byPosition, lex, on in Hx. repeat case_decide; lia. }
  apply (StronglySorted_unique_strong (fun a b => byPosition a b < 0)); [|done|done|].
  - intros x y _ _ Hxy Hyx. exfalso. unfold byPosition, lex, on in *. repeat case_decide; lia.
  - apply NoDup_Permutation; [by apply Hnd..|]. intros x. rewrite Hw, Hel, list_elem_of_filter. split.
    + intros [Hx _]. split; [by apply Hl; [apply Hin|]|by apply Hin].
    + intros [Hx Hc]. split; [by apply Hl|done].
Qed.
End Union.

(** ** What a range is answered with *)
Section Range.
Context `{lib : AbiLibrary} {E : Type}.
Context (eth_getLogs : option (list string) -> string -> string -> option (list ArgumentSlot) -> result E (list RpcLog)).

(** The checksummed form of the address of a log. *)
Definition checksummed (log : RpcLog) : string := default (rpc_address log) (getAddress (rpc_address log)).

Definition inRange (from to : Z) (log : RpcLog) : bool := bool_decide (from <= blockKey log <= to).

Definition askedBy (requests : list LogRequest) (log : RpcLog) : bool :=
  existsb (fun request => requestMatches request (checksummed log) (rpc_topics log)) requests.

(** A node answers a request with the logs it holds that the request matches. *)
Definition answersFrom (chain : list RpcLog) : Prop :=
  forall scope slots from to, 0 <= from -> 0 <= to ->
    eth_getLogs scope (toQuantity from) (toQuantity to) (Some slots)
    = Ok (filter (fun log => inRange from to log && askedBy [mkRequest slots scope] log = true) chain).

Lemma getLogs_answers chain scope slots from to : chain_of chain -> answersFrom chain -> 0 <= from -> 0 <= to ->
  getLogs eth_getLogs scope (Some slots) from to = Ok (filter (fun log => inRange from to log && askedBy [mkRequest slots scope] log = true) chain).
Proof.
  intros Hchain Hans Hf Ht. unfold getLogs. rewrite Hans by done. cbn. f_equal. apply filter_Forall_id, Forall_forall.
  intros log [_ Hin]%list_elem_of_filter. pose proof (co_placed _ Hchain) as Hpl. rewrite Forall_forall in Hpl.
  destruct (Hpl _ Hin) as (n & i & Hpos). unfold logPosition in Hpos. by destruct (rpc_blockNumber log).
Qed.

(** One request or several, and however their answers are scheduled: the logs of the range
    that some request asks for, once each and in order. *)
Lemma getLogsWithVariousFilters_exact chain contractAddresses live filters from to schedule answer :
  chain_of chain -> answersFrom chain -> 0 <= from -> 0 <= to ->
  getLogsWithVariousFilters eth_getLogs contractAddresses (Some live) filters from to schedule = Some answer ->
  answer = Ok (filter (fun log => inRange from to log
    && askedBy (generateLogRequestForTopicsAndFiltersCombinations contractAddresses live filters) log = true) chain).
Proof.
  intros Hchain Hans Hf Ht. unfold getLogsWithVariousFilters.
  set (requests := generateLogRequestForTopicsAndFiltersCombinations contractAddresses live filters).
  set (answerTo := fun index => match requests !! index with
    | Some request => getLogs eth_getLogs (request_addresses request) (Some (request_topics request)) from to | None => Ok [] end).
  assert (forall schedule answer, unionOf <$> issueRequestsBounded answerTo (length requests) schedule = Some answer ->
    answer = Ok (filter (fun log => inRange from to log && askedBy requests log = true) chain)) as Hmany.
  { clear schedule answer. intros schedule answer Hrun. destruct (issueRequestsBounded _ _ schedule) as [out|] eqn:Hissue; [|done].
    injection Hrun as <-. apply issue_answers in Hissue as ->.
    set (pick := fun request => filter (fun log => inRange from to log && askedBy [request] log = true) chain).
    assert (mapR answerTo (seq 0 (length requests)) = Ok (pick <$> requests)) as ->.
    { apply mapR_Forall2, Forall2_lookup. intros i. rewrite list_lookup_fmap. destruct (requests !! i) as [[slots scope]|] eqn:Hi.
      - apply lookup_lt_Some in Hi as Hlt. rewrite lookup_seq_lt by done. constructor. unfold answerTo. cbn [Nat.add]. rewrite Hi. by apply getLogs_answers.
      - apply lookup_ge_None in Hi. rewrite lookup_seq_ge by done. constructor. }
    unfold unionOf. cbn [fmap result_fmap]. f_equal. apply union_of_chain; [done|..].
    - intros x (here & Hx & (request & -> & _)%list_elem_of_fmap)%elem_of_concat. by apply list_elem_of_filter in Hx as [_ Hx].
    - intros x Hx. rewrite andb_true_iff. split.
      + intros (here & Hxh & (request & -> & Hr)%list_elem_of_fmap)%elem_of_concat. apply list_elem_of_filter in Hxh as [[Hrange Hreq]%andb_true_iff _].
        split; [done|]. unfold askedBy. apply existsb_exists. exists request. split; [by apply list_elem_of_In|].
        unfold askedBy in Hreq. cbn in Hreq. by rewrite orb_false_r in Hreq.
      + intros [Hrange (request & Hr%list_elem_of_In & Hreq)%existsb_exists]. apply elem_of_concat. exists (pick request).
        split; [|by apply list_elem_of_fmap_2]. apply list_elem_of_filter. split; [|done]. rewrite Hrange. unfold askedBy. cbn. by rewrite Hreq. }
  destruct requests as [|[slots scope] [|second rest]] eqn:Hrequests.
  - apply Hmany.
  - intros [= <-]. by apply getLogs_answers.
  - apply Hmany.
Qed.
End Range.
