(* ===== verification/Decoding.v ===== *)
(** * Fetching and decoding the events of a source

    [packages/core/src/internal/decoding/LogEventFetcher.ts]: the tables a fetcher builds
    from the declarations of a source, refusing those nothing tells apart, and the decoding
    of raw logs; [Rebuild] decodes stored ones again.  viem's [decodeEventLog] is a parameter: it throws a
    text, or answers a name and arguments. *)
From S2P Require Import Prelude JsMap Types AbiEvents Quantities EventRanges FilterRules Requests.

Inductive ConstructError : Type :=
  | InvalidContractAddress (address : string)
  | AmbiguousAbi (signature : string) (declared event : AbiEvent)
  | FilterRefused (refusal : FilterRefusal)
  | RangeRefused (refusal : RangeError).

Definition mapErr {E E' A} (f : E -> E') (r : result E A) : result E' A :=
  match r with Ok a => Ok a | Err e => Err (f e) end.

(** [LogParseConfig] *)
Record LogParseConfig : Type := mkParseConfig {
  parseAllEventsIrrespectiveOfAddresses : bool;
  parse_filters : list FilterRule
}.

Record LogEventFetcher : Type := mkFetcher {
  contractAddresses : option (list string);
  eventNameTopics : list string;
  fetcher_filters : list ExtraFilter;
  topicBlockRanges : TopicBlockRanges;
  abiEventPerAddressAndTopic : list (string * AbiEvent);
  abiPerAddress : list (string * list AbiEvent);
  allABIEvents : list AbiEvent;
  mergedListDecodes : bool
}.

Section Construct.
Context `{lib : AbiLibrary}.

Definition sameShape (a b : AbiEvent) : bool := deepEqualShapes (decodingShapeOf a) (decodingShapeOf b).

(** The loop over the declarations, which are kept or spliced out; the first of a
    signature is the one a refusal names. *)
Fixpoint deleteDuplicateEvents (refuseACollision : bool) (declaredPerSignature : list (string * list AbiEvent))
    (events : list AbiEvent) : result ConstructError (list AbiEvent) :=
  match events with
  | [] => Ok []
  | event :: rest =>
      let signature := canonicalSignatureOf event in
      match jm_get declaredPerSignature signature with
      | None | Some [] => cons event <$> deleteDuplicateEvents refuseACollision (jm_set declaredPerSignature signature [event]) rest
      | Some ((first :: _) as declared) =>
          if existsb (fun seen => sameShape seen event) declared
          then deleteDuplicateEvents refuseACollision declaredPerSignature rest
          else if refuseACollision
          then Err (AmbiguousAbi signature first event)
          else cons event <$> deleteDuplicateEvents refuseACollision (jm_set declaredPerSignature signature (declared ++ [event])) rest
      end
  end.

(** [_abiPerAddress], [contractAddresses] and [_allABIEvents], one contract at a time. *)
Definition Declared : Type := list (string * list AbiEvent) * list string * list AbiEvent.

Definition addContract (st : Declared) (contract : SourceContract) : result ConstructError Declared :=
  let '(perAddress, addresses, all) := st in
  normalizeAddress InvalidContractAddress (source_address contract) ≫= fun contractAddress =>
  let events := eventsOfAbi (source_abi contract) in
  Ok match jm_get perAddress contractAddress with
     | None => (jm_set perAddress contractAddress events, addresses ++ [contractAddress], all ++ events)
     | Some here => (jm_set perAddress contractAddress (here ++ events), addresses, all ++ events)
     end.

Definition declarationsOf (contracts : SourceContracts)
    : result ConstructError (list (string * list AbiEvent) * option (list string) * list AbiEvent) :=
  match contracts with
  | ListedContracts listed =>
      (fun '(perAddress, addresses, all) => (perAddress, Some addresses, all)) <$> foldR addContract ([], [], []) listed
  | MergedAbi abi _ => Ok ([], None, eventsOfAbi abi)
  end.

(** [eventNameTopics] is one topic per entry of [_abiEventPerTopic]. *)
Definition addEventTopic (st : list (string * AbiEvent) * list string) (item : AbiEvent) : list (string * AbiEvent) * list string :=
  match topic0Of item with
  | None => st
  | Some topic0 => if jm_has st.1 topic0 then st else (jm_set st.1 topic0 item, st.2 ++ [topic0])
  end.

Definition preselectionKey (address : string) (topic0 : option string) : string :=
  address +:+ ":" +:+ default "undefined" topic0.

Definition addPreselected (table : list (string * AbiEvent)) (at_address : string * AbiEvent) : list (string * AbiEvent) :=
  match topic0Of at_address.2 with
  | None => table
  | Some topic0 => jm_set table (preselectionKey at_address.1 (Some topic0)) at_address.2
  end.

(** Every (address, event) of the table. *)
Definition declaredPairs (perAddress : list (string * list AbiEvent)) : list (string * AbiEvent) :=
  perAddress ≫= fun '(address, events) => pair address <$> events.

Definition sourceDeclarations (perAddress : list (string * list AbiEvent)) (all : list AbiEvent) : list SourceDeclaration :=
  match perAddress with
  | [] => mkDeclaration None <$> all
  | _ => (fun '(address, event) => mkDeclaration (Some address) event) <$> declaredPairs perAddress
  end.

(** The constructor; [configured] is the fetcher configuration's own [filters]. *)
Definition newLogEventFetcher (contracts : SourceContracts) (configured : list ExtraFilter) (parseConfig : LogParseConfig)
    : result ConstructError LogEventFetcher :=
  declarationsOf contracts ≫= fun '(perAddress, addresses, all) =>
  mapR (fun '(address, events) => pair address <$> deleteDuplicateEvents true [] events) perAddress ≫= fun perAddress =>
  let merged := bool_decide (perAddress = []) || parseAllEventsIrrespectiveOfAddresses parseConfig in
  deleteDuplicateEvents merged [] all ≫= fun all =>
  let topics := (foldl addEventTopic ([], []) all).2 in
  match parse_filters parseConfig with
  | [] => Ok configured
  | rules => mapErr FilterRefused (resolveFilterRules rules (sourceDeclarations perAddress all))
  end ≫= fun filters =>
  mapErr RangeRefused (requestableRangesPerTopic contracts) ≫= fun ranges =>
  Ok (mkFetcher addresses topics filters ranges (foldl addPreselected [] (declaredPairs perAddress)) perAddress all merged).
End Construct.

(** ** Reading a log *)
Inductive ParseError : Type :=
  | InvalidLogAddress (address : string)
  | NotANumber (field : string).

Definition MAX_SAFE_INTEGER : Z := 2 ^ 53 - 1.

Definition safeTimestamp (n : Z) : option Z := if decide (0 <= n <= MAX_SAFE_INTEGER) then Some n else None.

Fixpoint trimEnd (text : string) : string :=
  match text with
  | EmptyString => EmptyString
  | String c rest =>
      match trimEnd rest with
      | EmptyString => if isSpace c then EmptyString else String c EmptyString
      | kept => String c kept
      end
  end.

Definition decimalValue (c : ascii) : option Z :=
  let n := Z.of_nat (nat_of_ascii c) in if decide (48 <= n <= 57) then Some (n - 48) else None.

(** [Number(text)] of a text that is only decimal digits, one or more. *)
Fixpoint readDecimal (read : option Z) (text : string) : option Z :=
  match text with
  | EmptyString => read
  | String c rest => d ← decimalValue c; readDecimal (Some (10 * default 0 read + d)) rest
  end.

(** [HEX_QUANTITY] and [parseInt], or [DECIMAL_QUANTITY] and [Number], or [NaN]. *)
Definition timestampText (text : string) : option Z :=
  match text with
  | String "0" (String "x" digits) | String "0" (String "X" digits) => if allHex digits then readHex None digits else None
  | _ => readDecimal None text
  end.

Definition parseLogBlockTimestamp (value : option JsVal) : option Z :=
  match value with
  | Some (JNum n) => safeTimestamp n
  | Some (JStr text) => timestampText (trimEnd (trimStart text)) ≫= safeTimestamp
  | _ => None
  end.

(** A JSON-RPC quantity; the source carries a [NaN] on, which no log of a node makes. *)
Definition readQuantity (field : string) (text : string) : result ParseError Z :=
  match quantity text with Some n => Ok n | None => Err (NotANumber field) end.

Fixpoint firstLine (text : string) : string :=
  match text with
  | EmptyString => EmptyString
  | String c rest => if decide (nat_of_ascii c = 10%nat) then EmptyString else String c (firstLine rest)
  end.

Definition decodeErrorOf (err : string) : string := "decoding error: " +:+ firstLine err.

Section Decode.
Context `{lib : AbiLibrary} (decodeEventLog : list AbiEvent -> string -> list string -> result string (option (string * JsVal))).

(** What decoding writes onto a log at an address. *)
Definition decodeOnto (fetcher : LogEventFetcher) (eventAddress : string) (eventTopics : list string) (eventData : string) : Decoded :=
  let useAllABIEvents := mergedListDecodes fetcher in
  let correspondingABI := if useAllABIEvents then Some (allABIEvents fetcher) else jm_get (abiPerAddress fetcher) eventAddress in
  match correspondingABI with
  | None => DecodeFailure "event triggered at a different address"
  | Some abi =>
      let preselected :=
        if useAllABIEvents then None
        else jm_get (abiEventPerAddressAndTopic fetcher) (preselectionKey eventAddress (head eventTopics)) in
      match decodeEventLog (match preselected with Some event => [event] | None => abi end) eventData eventTopics with
      | Err err => DecodeFailure (decodeErrorOf err)
      | Ok (Some (eventName, args)) => Parsed eventName args
      | Ok None => DecodeFailure "parsing did not return any results"
      end
  end.

Definition parseLog (fetcher : LogEventFetcher) (log : RpcLog) : result ParseError LogEvent :=
  normalizeAddress InvalidLogAddress (rpc_address log) ≫= fun eventAddress =>
  readQuantity "blockNumber" (default "" (rpc_blockNumber log)) ≫= fun blockNumber =>
  readQuantity "transactionIndex" (rpc_transactionIndex log) ≫= fun transactionIndex =>
  readQuantity "logIndex" (rpc_logIndex log) ≫= fun logIndex =>
  Ok (mkLog blockNumber (rpc_blockHash log) transactionIndex (default false (rpc_removed log)) eventAddress (rpc_data log) (rpc_topics log)
       (rpc_transactionHash log) logIndex (parseLogBlockTimestamp (rpc_blockTimestamp log))
       (decodeOnto fetcher eventAddress (rpc_topics log) (rpc_data log))).

Definition parse (fetcher : LogEventFetcher) (logs : list RpcLog) : result ParseError (list LogEvent) :=
  mapR (parseLog fetcher) logs.
End Decode.

(** ** What is kept of the declarations *)
Section Kept.
Context `{lib : AbiLibrary}.

Lemma sameShape_eq a b : sameShape a b = true <-> decodingShapeOf a = decodingShapeOf b.
Proof. apply deepEqualShapes_eq. Qed.

Definition seenUnder (declared : list (string * list AbiEvent)) (signature : string) : list AbiEvent :=
  default [] (jm_get declared signature).

Definition declared_ok (refuse : bool) (declared : list (string * list AbiEvent)) : Prop :=
  forall signature, Forall (fun s => canonicalSignatureOf s = signature) (seenUnder declared signature)
    /\ (refuse = true -> (length (seenUnder declared signature) <= 1)%nat).

Lemma seenUnder_set declared signature events other :
  seenUnder (jm_set declared signature events) other = if decide (signature = other) then events else seenUnder declared other.
Proof. unfold seenUnder. rewrite jm_get_set. by case_decide. Qed.

Lemma declared_ok_add refuse declared event :
  declared_ok refuse declared -> (refuse = true -> seenUnder declared (canonicalSignatureOf event) = []) ->
  declared_ok refuse (jm_set declared (canonicalSignatureOf event) (seenUnder declared (canonicalSignatureOf event) ++ [event])).
Proof.
  intros Hok Hr signature. rewrite seenUnder_set. case_decide as Heq; [|apply Hok]. subst signature. split.
  - apply Forall_app. split; [apply Hok|by repeat constructor].
  - intros Hrefuse. by rewrite Hr.
Qed.

(** What the loop keeps of [events] when [declared] is already kept. *)
Definition kept_of (refuse : bool) (declared : list (string * list AbiEvent)) (events kept : list AbiEvent) : Prop :=
  kept `sublist_of` events
  /\ (forall e, e ∈ events -> exists s, (s ∈ kept \/ s ∈ seenUnder declared (canonicalSignatureOf e))
       /\ canonicalSignatureOf s = canonicalSignatureOf e /\ decodingShapeOf s = decodingShapeOf e)
  /\ (forall k, k ∈ kept -> (forall s, s ∈ seenUnder declared (canonicalSignatureOf k) -> decodingShapeOf s <> decodingShapeOf k)
       /\ (refuse = true -> seenUnder declared (canonicalSignatureOf k) = []))
  /\ NoDup ((fun e => (canonicalSignatureOf e, decodingShapeOf e)) <$> kept)
  /\ (refuse = true -> NoDup (canonicalSignatureOf <$> kept)).

Lemma kept_of_new refuse declared event rest kept :
  let signature := canonicalSignatureOf event in
  (forall s, s ∈ seenUnder declared signature -> decodingShapeOf s <> decodingShapeOf event) ->
  (refuse = true -> seenUnder declared signature = []) ->
  kept_of refuse (jm_set declared signature (seenUnder declared signature ++ [event])) rest kept ->
  kept_of refuse declared (event :: rest) (event :: kept).
Proof.
  intros signature Hnew Hnil (Hsub & Hcov & Hfresh & Hnd & Hnd').
  assert (forall k, k ∈ kept -> canonicalSignatureOf k = signature -> refuse = false /\ decodingShapeOf k <> decodingShapeOf event) as Hk.
  { intros k Hk Hs. destruct (Hfresh _ Hk) as [Hf Hr]. rewrite Hs, seenUnder_set, decide_True in Hf, Hr by done.
    split; [|intros Heq; apply (Hf event); [apply elem_of_app; right; left|done]].
    apply not_true_is_false. intros Ht%Hr. by destruct (seenUnder declared signature). }
  split_and!.
  - by constructor.
  - intros e [->|He]%elem_of_cons; [exists event; split; [left; left|done]|].
    destruct (Hcov _ He) as (s & [Hs|Hs] & Hrest); [exists s; split; [left; by right|done]|].
    rewrite seenUnder_set in Hs. case_decide as Heq; [|exists s; by split; [right|]].
    apply elem_of_app in Hs as [Hs| ->%list_elem_of_singleton]; [exists s|exists event]; (split; [|done]); [right; by rewrite <- Heq|left; left].
  - intros k [->|Hin]%elem_of_cons; [done|]. destruct (Hfresh _ Hin) as [Hf Hr]. rewrite seenUnder_set in Hf, Hr.
    case_decide as Heq; [|done]. destruct (Hk _ Hin (eq_sym Heq)) as [Hff _]. rewrite <- Heq. split; [|by rewrite Hff].
    intros s Hs. apply Hf, elem_of_app. by left.
  - cbn. constructor; [|done]. intros (k & Heq & Hin)%list_elem_of_fmap.
    destruct (Hk _ Hin (f_equal fst (eq_sym Heq))) as [_ Hne]. by destruct (Hne (f_equal snd (eq_sym Heq))).
  - intros Hr. cbn. constructor; [|by apply Hnd']. intros (k & Hs & Hin)%list_elem_of_fmap.
    destruct (Hk _ Hin (eq_sym Hs)) as [Hff _]. congruence.
Qed.

Lemma deleteDuplicateEvents_spec refuse events : forall declared, declared_ok refuse declared ->
  match deleteDuplicateEvents refuse declared events with
  | Ok kept => kept_of refuse declared events kept
  | Err (AmbiguousAbi signature first event) => refuse = true /\ event ∈ events
      /\ (first ∈ events \/ first ∈ seenUnder declared signature)
      /\ canonicalSignatureOf first = signature /\ canonicalSignatureOf event = signature
      /\ decodingShapeOf first <> decodingShapeOf event
  | Err _ => False
  end.
Proof.
  induction events as [|event rest IH]; intros declared Hok; cbn [deleteDuplicateEvents].
  { split_and!; [done|by intros ? ?%not_elem_of_nil|by intros ? ?%not_elem_of_nil|constructor|constructor]. }
  set (signature := canonicalSignatureOf event).
  assert (forall kept, (forall s, s ∈ seenUnder declared signature -> decodingShapeOf s <> decodingShapeOf event) ->
    (refuse = true -> seenUnder declared signature = []) -> kept = seenUnder declared signature ++ [event] ->
    match cons event <$> deleteDuplicateEvents refuse (jm_set declared signature kept) rest with
    | Ok kept => kept_of refuse declared (event :: rest) kept
    | Err (AmbiguousAbi sig first e) => refuse = true /\ e ∈ event :: rest /\ (first ∈ event :: rest \/ first ∈ seenUnder declared sig)
        /\ canonicalSignatureOf first = sig /\ canonicalSignatureOf e = sig /\ decodingShapeOf first <> decodingShapeOf e
    | Err _ => False
    end) as Hnew.
  { intros kept Hdiff Hnil ->. specialize (IH _ (declared_ok_add _ _ _ Hok Hnil)). fold signature in IH.
    destruct (deleteDuplicateEvents _ _ rest) as [kept|[|sig first e| |]]; cbn [fmap result_fmap]; try done.
    - by apply kept_of_new.
    - destruct IH as (? & ? & Hfirst & ? & ? & ?). split_and!; [done|by right| |done..]. rewrite seenUnder_set in Hfirst.
      case_decide; [|destruct Hfirst; [left; by right|by right]]. subst sig.
      destruct Hfirst as [?|[?| ->%list_elem_of_singleton]%elem_of_app]; [left; by right|by right|left; left]. }
  unfold seenUnder in Hnew. destruct (jm_get declared signature) as [[|first more]|] eqn:Hget; cbn [default from_option id] in Hnew.
  1,3: by apply Hnew; [intros ? ?%not_elem_of_nil|..].
  destruct (existsb _ (first :: more)) eqn:Hex.
  - apply existsb_exists in Hex as (seen & Hseen%list_elem_of_In & Hshape%sameShape_eq).
    assert (seen ∈ seenUnder declared signature) as Hin by (unfold seenUnder; by rewrite Hget).
    specialize (IH _ Hok). destruct (deleteDuplicateEvents _ _ rest) as [kept|[|sig f e| |]]; try done.
    + destruct IH as (Hsub & Hcov & ? & ? & ?). split_and!; [by constructor| |done..].
      intros e [->|He]%elem_of_cons; [|by apply Hcov]. exists seen. split_and!; [by right| |done].
      destruct (Hok signature) as [Hall _]. rewrite Forall_forall in Hall. by apply Hall.
    + destruct IH as (? & ? & Hfirst & ? & ? & ?). split_and!; [done|by right|destruct Hfirst; [left; by right|by right]|done..].
  - assert (forall s, s ∈ first :: more -> decodingShapeOf s <> decodingShapeOf event) as Hdiff.
    { intros s Hs Heq. apply not_true_iff_false in Hex. apply Hex, existsb_exists. exists s.
      split; [by apply list_elem_of_In|by apply sameShape_eq]. }
    destruct refuse; [|by apply Hnew].
    split_and!; [done|left|right; unfold seenUnder; rewrite Hget; left| |done|apply Hdiff; left].
    destruct (Hok signature) as [Hall _]. unfold seenUnder in Hall. rewrite Hget in Hall. by apply Forall_cons in Hall as [? _].
Qed.
End Kept.

(** ** The tables of a fetcher *)
Section Tables.
Context `{lib : AbiLibrary}.

(** The contracts of a source at an address, in its checksummed form. *)
Definition declaredAt (listed : list SourceContract) (address : string) (event : AbiEvent) : Prop :=
  exists contract, contract ∈ listed /\ getAddress (source_address contract) = Some address /\ event ∈ eventsOfAbi (source_abi contract).

Record declared_spec (listed : list SourceContract) (st : Declared) : Prop := {
  ds_wf : jm_wf st.1.1;
  ds_addresses : st.1.2 = st.1.1.*1;
  ds_keys a : a ∈ st.1.1.*1 <-> exists contract, contract ∈ listed /\ getAddress (source_address contract) = Some a;
  ds_events a e : e ∈ default [] (jm_get st.1.1 a) <-> declaredAt listed a e;
  ds_all e : e ∈ st.2 <-> exists contract, contract ∈ listed /\ e ∈ eventsOfAbi (source_abi contract)
}.

Lemma declaredAt_snoc listed contract a e :
  declaredAt (listed ++ [contract]) a e <->
  declaredAt listed a e \/ getAddress (source_address contract) = Some a /\ e ∈ eventsOfAbi (source_abi contract).
Proof.
  split.
  - intros (c & [?| ->%list_elem_of_singleton]%elem_of_app & ?); [left; by exists c|by right].
  - intros [(c & ? & ?)|?]; [exists c|exists contract]; rewrite elem_of_app, list_elem_of_singleton; tauto.
Qed.

Lemma addContract_spec listed contract st st' :
  declared_spec listed st -> addContract st contract = Ok st' -> declared_spec (listed ++ [contract]) st'.
Proof.
  destruct st as [[per addresses] all]. intros [Hwf Hadd Hkeys Hev Hall] (a & Ha%normalizeAddress_Ok & [= <-])%bind_Ok. cbn in *.
  assert (forall x, (exists c, c ∈ listed ++ [contract] /\ getAddress (source_address c) = Some x) <-> x ∈ per.*1 \/ x = a) as Hk.
  { intros x. rewrite Hkeys. split.
    - intros (c & [?| ->%list_elem_of_singleton]%elem_of_app & Hc); [left; by exists c|right; congruence].
    - intros [(c & ? & ?)| ->]; [exists c|exists contract]; by rewrite elem_of_app, list_elem_of_singleton; split; [tauto|]. }
  assert (forall e, (e ∈ all ++ eventsOfAbi (source_abi contract)) <-> exists c, c ∈ listed ++ [contract] /\ e ∈ eventsOfAbi (source_abi c)) as Hal.
  { intros e. rewrite elem_of_app, Hall. split.
    - intros [(c & ? & ?)|?]; [exists c|exists contract]; rewrite elem_of_app, list_elem_of_singleton; tauto.
    - intros (c & [?| ->%list_elem_of_singleton]%elem_of_app & ?); [left; by exists c|by right]. }
  assert (forall here, default [] (jm_get per a) = here -> forall x e,
    e ∈ default [] (jm_get (jm_set per a (here ++ eventsOfAbi (source_abi contract))) x) <-> declaredAt (listed ++ [contract]) x e) as Hset.
  { intros here <- x e. rewrite declaredAt_snoc, jm_get_set, <- Hev, Ha. case_decide as Heq.
    - subst x. cbn [default from_option id]. rewrite elem_of_app. tauto.
    - split; [tauto|]. by intros [?|[[= ?] _]]. }
  destruct (jm_get per a) as [here|] eqn:Hget.
  - assert (a ∈ per.*1) as Hin by (apply list_elem_of_fmap; exists (a, here); split; [done|by apply jm_get_elem]).
    split; cbn; [by apply jm_wf_set|by rewrite jm_set_keys_old|intros x|by apply Hset|done].
    rewrite jm_set_keys_old, Hk by done. split; [tauto|]. by intros [?| ->].
  - apply jm_get_None in Hget as Hnew. split; cbn; [by apply jm_wf_set|by rewrite jm_set_new, fmap_app, Hadd|intros x|by apply (Hset [])|done].
    rewrite jm_set_new, fmap_app, elem_of_app, Hk by done. cbn. by rewrite list_elem_of_singleton.
Qed.

Lemma declarationsOf_listed listed st : foldR addContract ([], [], []) listed = Ok st -> declared_spec listed st.
Proof.
  assert (forall before st0 st, declared_spec before st0 -> foldR addContract st0 listed = Ok st -> declared_spec (before ++ listed) st) as Hgo.
  { induction listed as [|contract listed IH]; intros before st0 st1 Hs; cbn [foldR]; [intros [= <-]; by rewrite app_nil_r|].
    destruct (addContract st0 contract) as [st2|] eqn:Hadd; [|done]. intros Hrun.
    change (contract :: listed) with ([contract] ++ listed). rewrite app_assoc. eapply IH; [|exact Hrun]. by eapply addContract_spec. }
  apply (Hgo []). split; cbn; [constructor|done|..].
  - intros a. split; [by intros ?%not_elem_of_nil|]. by intros (c & ?%not_elem_of_nil & _).
  - intros a e. split; [by intros ?%not_elem_of_nil|]. by intros (c & ?%not_elem_of_nil & _).
  - intros e. split; [by intros ?%not_elem_of_nil|]. by intros (c & ?%not_elem_of_nil & _).
Qed.

Lemma kept_all events kept e :
  kept_of true [] events kept -> e ∈ events ->
  exists k, k ∈ kept /\ canonicalSignatureOf k = canonicalSignatureOf e /\ decodingShapeOf k = decodingShapeOf e.
Proof.
  intros (_ & Hcov & _) He. destruct (Hcov _ He) as (k & [Hk|Hk] & Hrest); [by exists k|]. by apply not_elem_of_nil in Hk.
Qed.

(** One kept declaration for each, under the same topic. *)
Lemma same_topic0 k e : canonicalSignatureOf k = canonicalSignatureOf e -> decodingShapeOf k = decodingShapeOf e -> topic0Of k = topic0Of e.
Proof. intros Hs Hd. apply topic0Of_signature; [done|]. by apply same_shape_anonymous. Qed.

Lemma addEventTopic_spec events : forall st, (forall t, is_Some (jm_get st.1 t) <-> t ∈ st.2) -> NoDup st.2 ->
  let st' := foldl addEventTopic st events in
  NoDup st'.2 /\ forall t, t ∈ st'.2 <-> t ∈ st.2 \/ exists e, e ∈ events /\ topic0Of e = Some t.
Proof.
  induction events as [|event events IH]; intros st Hhas Hnd; cbn [foldl]; cbv zeta.
  { split; [done|]. intros t. split; [by left|]. by intros [?|(? & ?%not_elem_of_nil & _)]. }
  assert ((forall t, is_Some (jm_get (addEventTopic st event).1 t) <-> t ∈ (addEventTopic st event).2) /\ NoDup (addEventTopic st event).2
    /\ forall t, t ∈ (addEventTopic st event).2 <-> t ∈ st.2 \/ topic0Of event = Some t) as (Hhas' & Hnd' & Hin).
  { unfold addEventTopic. destruct (topic0Of event) as [t0|]; [|by split_and!; [..|intros t; split; [by left|intros [?|[=]]]]].
    unfold jm_has. destruct (decide (is_Some (jm_get st.1 t0))) as [Ht0|Ht0]; [rewrite bool_decide_true|rewrite bool_decide_false]; [|done| |done]; rewrite Hhas in Ht0.
    - split_and!; [done..|]. intros t. split; [by left|]. by intros [?|[= <-]].
    - cbn. split_and!.
      + intros t. rewrite jm_get_set, elem_of_app, list_elem_of_singleton. case_decide as Heq; [by split; [right|]|].
        rewrite Hhas. split; [by left|]. by intros [?|<-].
      + apply NoDup_app. split_and!; [done| |apply NoDup_singleton]. by intros t Ht ->%list_elem_of_singleton.
      + intros t. rewrite elem_of_app, list_elem_of_singleton. split; [by intros [?| ->]; [left|right]|]. by intros [?|[= <-]]; [left|right]. }
  destruct (IH _ Hhas' Hnd') as [Hn Hspec]. split; [done|]. intros t. rewrite Hspec, Hin. split.
  - intros [[?|?]|(e & ? & ?)]; [by left|right; exists event; by split; [left|]|right; exists e; by split; [right|]].
  - intros [?|(e & [->|?]%elem_of_cons & ?)]; [tauto|tauto|right; by exists e].
Qed.
End Tables.

(** ** A constructed fetcher *)
Section Built.
Context `{lib : AbiLibrary}.

Lemma declaredPairs_elem perAddress a e : (a, e) ∈ declaredPairs perAddress <-> exists events, (a, events) ∈ perAddress /\ e ∈ events.
Proof.
  unfold declaredPairs. rewrite list_elem_of_bind. split.
  - intros ([a' events] & Hin & Hp). apply list_elem_of_fmap in Hin as (e' & [= -> ->] & He). by exists events.
  - intros (events & Hp & He). exists (a, events). split; [by apply list_elem_of_fmap_2|done].
Qed.

Lemma preselectionKey_inj a b t u : free_of ":" a -> free_of ":" b ->
  preselectionKey a (Some t) = preselectionKey b (Some u) -> a = b /\ t = u.
Proof. apply separator_inj. Qed.

Lemma addPreselected_spec pairs a t : Forall (fun p => free_of ":" p.1) pairs -> free_of ":" a -> forall table,
  let found := jm_get (foldl addPreselected table pairs) (preselectionKey a (Some t)) in
  (forall e, found = Some e -> jm_get table (preselectionKey a (Some t)) = Some e \/ (a, e) ∈ pairs /\ topic0Of e = Some t)
  /\ ((is_Some (jm_get table (preselectionKey a (Some t))) \/ exists e, (a, e) ∈ pairs /\ topic0Of e = Some t) -> is_Some found).
Proof.
  intros Hall Ha. induction Hall as [|[b event] pairs Hb _ IH]; intros table; cbn [foldl]; cbv zeta.
  { split; [by left|]. by intros [?|(? & ?%not_elem_of_nil & _)]. }
  specialize (IH (addPreselected table (b, event))). cbv zeta in IH. destruct IH as [Hfrom Hto].
  assert (jm_get (addPreselected table (b, event)) (preselectionKey a (Some t)) =
    if decide (b = a /\ topic0Of event = Some t) then Some event else jm_get table (preselectionKey a (Some t))) as Hget.
  { unfold addPreselected. cbn [fst snd] in *. destruct (topic0Of event) as [u|]; [|by rewrite decide_False by (by intros [_ [=]])].
    rewrite jm_get_set. destruct (decide (preselectionKey b (Some u) = preselectionKey a (Some t))) as [Heq|Hne].
    - apply preselectionKey_inj in Heq as [-> ->]; [|done..]. by rewrite decide_True.
    - rewrite decide_False; [done|]. intros [-> [= ->]]. done. }
  rewrite Hget in Hfrom, Hto. split.
  - intros e He. apply Hfrom in He as [He|[? ?]]; [|right; split; [by right|done]].
    case_decide as Hd; [|by left]. injection He as <-. destruct Hd as [-> Ht]. right. split; [left|done].
  - intros Hex. apply Hto. case_decide as Hd; [left; by eexists|]. destruct Hex as [?|(e & [[= <- <-]|He]%elem_of_cons & Ht)]; [by left| |right; by exists e].
    by destruct Hd.
Qed.

Lemma mapR_kept (per kept : list (string * list AbiEvent)) :
  mapR (fun '(address, events) => pair address <$> deleteDuplicateEvents true [] events) per = Ok kept ->
  kept.*1 = per.*1
  /\ (forall a events, jm_get per a = Some events -> exists here, jm_get kept a = Some here /\ kept_of true [] events here)
  /\ forall a, jm_get per a = None -> jm_get kept a = None.
Proof.
  assert (declared_ok true []) as Hnil by (intros signature; split; [constructor|intros _; simpl; lia]).
  revert kept. induction per as [|[a events] per IH]; intros kept; cbn [mapR]; [by intros [= <-]|].
  pose proof (deleteDuplicateEvents_spec true events [] Hnil) as Hspec.
  destruct (deleteDuplicateEvents true [] events) as [here|]; cbn [fmap result_fmap]; [|done].
  destruct (mapR _ per) as [rest|]; [|done]. intros [= <-]. destruct (IH _ eq_refl) as (Hkeys & Hsome & Hnone).
  split_and!; [by cbn; rewrite Hkeys|..]; cbn [jm_get].
  - intros b evs. case_decide; [|apply Hsome]. intros [= <-]. by exists here.
  - intros b. case_decide; [done|apply Hnone].
Qed.

(** What the fetcher of a listed source holds. *)
Record built (listed : list SourceContract) (f : LogEventFetcher) : Prop := {
  bt_addresses : contractAddresses f = Some (abiPerAddress f).*1;
  bt_wf : jm_wf (abiPerAddress f);
  bt_keys a : a ∈ (abiPerAddress f).*1 <-> exists contract, contract ∈ listed /\ getAddress (source_address contract) = Some a;
  bt_kept a here : jm_get (abiPerAddress f) a = Some here ->
    exists events, (forall e, e ∈ events <-> declaredAt listed a e) /\ kept_of true [] events here;
  bt_all : exists events, (forall e, e ∈ events <-> exists contract, contract ∈ listed /\ e ∈ eventsOfAbi (source_abi contract))
    /\ kept_of (mergedListDecodes f) [] events (allABIEvents f);
  bt_topics : NoDup (eventNameTopics f) /\ forall t, t ∈ eventNameTopics f <-> exists e, e ∈ allABIEvents f /\ topic0Of e = Some t;
  bt_table : abiEventPerAddressAndTopic f = foldl addPreselected [] (declaredPairs (abiPerAddress f))
}.

Lemma fetcher_built listed configured parseConfig f :
  newLogEventFetcher (ListedContracts listed) configured parseConfig = Ok f -> built listed f
  /\ (parse_filters parseConfig <> [] ->
      resolveFilterRules (parse_filters parseConfig) (sourceDeclarations (abiPerAddress f) (allABIEvents f)) = Ok (fetcher_filters f))
  /\ (parse_filters parseConfig = [] -> fetcher_filters f = configured)
  /\ mergedListDecodes f = bool_decide (abiPerAddress f = []) || parseAllEventsIrrespectiveOfAddresses parseConfig
  /\ requestableRangesPerTopic (ListedContracts listed) = Ok (topicBlockRanges f).
Proof.
  unfold newLogEventFetcher. intros ([[per addresses] all] & Hdecl & (kept & Hkept & Hrun)%bind_Ok)%bind_Ok.
  apply fmap_Ok in Hdecl as ([[per' addresses'] all'] & Hfold & [= -> <- ->]). apply declarationsOf_listed in Hfold as [Hwf Hadd Hkeys Hev Hall].
  cbn in Hwf, Hadd, Hkeys, Hev, Hall. destruct (mapR_kept _ _ Hkept) as (Hk & Hsome & Hnone).
  set (merged := bool_decide (kept = []) || _) in Hrun. apply bind_Ok in Hrun as (events & Hevents & (filters & Hfilters & (ranges & Hranges & [= <-])%bind_Ok)%bind_Ok).
  split_and!; cbn.
  - assert (declared_ok merged []) as Hnil by (intros signature; split; [constructor|intros _; simpl; lia]).
    pose proof (deleteDuplicateEvents_spec merged all [] Hnil) as Hspec. rewrite Hevents in Hspec.
    assert (forall t : string, is_Some (jm_get ([] : list (string * AbiEvent)) t) <-> t ∈ ([] : list string)) as H0.
    { intros t. split; [by intros [? [=]]|by intros ?%not_elem_of_nil]. }
    destruct (addEventTopic_spec events ([], []) H0) as [Hnd Htopics]; [constructor|]. split; cbn.
    + by rewrite Hk, Hadd.
    + unfold jm_wf. by rewrite Hk.
    + intros a. by rewrite Hk.
    + intros a here Hget. destruct (jm_get per a) as [evs|] eqn:Hper; [|by rewrite Hnone in Hget].
      destruct (Hsome _ _ Hper) as (here' & Hget' & Hof). rewrite Hget in Hget'. injection Hget' as <-. exists evs. split; [|done].
      intros e. by rewrite <- Hev, Hper.
    + by exists all.
    + split; [done|]. intros t. rewrite Htopics. split; [by intros [?%not_elem_of_nil|]|by right].
    + done.
  - intros Hne. destruct (parse_filters parseConfig) as [|rule rules]; [done|]. unfold mapErr in Hfilters. by destruct (resolveFilterRules _ _); [injection Hfilters as ->|].
  - intros He. rewrite He in Hfilters. by injection Hfilters as ->.
  - done.
  - unfold mapErr in Hranges. by destruct (requestableRangesPerTopic _); [injection Hranges as ->|].
Qed.
End Built.
