(* ===== verification/Retention.v ===== *)
(** * Retention

    [packages/state-store/src/retention.ts] and the report of [enforcement.ts]:
    what a deployment may ask a store to keep, the floor a prune deletes at and
    the range a historical read is answered in. *)
From S2P Require Import Prelude Entities.

(** What a deployment writes.  [MalformedSetting] is every other shape ([{days}],
    a bare number, a window that is not an integer). *)
Inductive RetentionSetting : Type :=
  | SetRevertOnly
  | SetUnbounded
  | SetBlocks (blocks : Z)
  | MalformedSetting.

(** What a store reports. *)
Inductive Retention : Type :=
  | RevertOnly
  | Unbounded
  | Window (blocks : Z).

Record StateStoreCapabilities : Type := mkCapabilities {
  cap_retention : Retention;
  cap_asOf : bool;
  cap_singleWriter : bool
}.

(** An integer by assumption; the check that is left is the sign. *)
Definition assertFinalityDepth (finalityDepth : option Z) : result StoreError unit :=
  match finalityDepth with
  | Some d => if decide (d < 0) then Err InvalidFinalityDepth else Ok tt
  | None => Ok tt
  end.

Definition resolveRetention (setting : option RetentionSetting) (finalityDepth : option Z)
    : result StoreError Retention :=
  match assertFinalityDepth finalityDepth with
  | Err e => Err e
  | Ok _ =>
      match setting with
      | None => Ok Unbounded
      | Some SetRevertOnly => Ok RevertOnly
      | Some SetUnbounded => Ok Unbounded
      | Some MalformedSetting => Err InvalidRetention
      | Some (SetBlocks blocks) =>
          if decide (blocks < 0) then Err InvalidRetention
          else
            match finalityDepth with
            | None => Err InvalidRetention
            | Some depth => if decide (blocks < depth) then Err InvalidRetention else Ok (Window blocks)
            end
      end
  end.

Definition retentionFloor (retention : Retention) (tip : Z) (finalityDepth : option Z) : option Z :=
  match retention with
  | Unbounded => None
  | Window blocks => Some (Z.max 0 (tip - blocks))
  | RevertOnly => match finalityDepth with None => None | Some d => Some (Z.max 0 (tip - d)) end
  end.

(** [Number.POSITIVE_INFINITY] is [None]. *)
Definition pruneBudget (maxVersions : option Z) : result StoreError (option nat) :=
  match maxVersions with
  | None => Ok None
  | Some n => if decide (n < 1) then Err InvalidPruneBudget else Ok (Some (Z.to_nat n))
  end.

Definition retainedRange (retention : Retention) (tip : Z) : option (Z * Z) :=
  match retention with
  | RevertOnly => None
  | Window blocks => Some (Z.max 0 (tip - blocks), tip)
  | Unbounded => Some (0, tip)
  end.

Definition isBlockNumber (n : Z) : bool := bool_decide (0 <= n).

(** [tip] is the thunk's answer. *)
Definition assertRetained (capabilities : StateStoreCapabilities) (requested : Z) (tip : option Z)
    : result StoreError unit :=
  if isBlockNumber requested then
    match cap_asOf capabilities, cap_retention capabilities with
    | false, _ | _, RevertOnly => Err (NotRetained requested None)
    | true, Unbounded => Ok tt
    | true, Window blocks =>
        match tip with
        | None => Ok tt
        | Some at_ =>
            match retainedRange (Window blocks) at_ with
            | Some (from, _) =>
                if decide (requested < from) then Err (NotRetained requested (Some from)) else Ok tt
            | None => Ok tt
            end
        end
    end
  else Err InvalidBlockNumber.

(** ** The report on enforcement *)
Inductive RetentionEnforcement : Type :=
  | NoFloor
  | NeverPruned (floor : option Z)
  | Pruned (floor : option Z) (prunedTo : Z).

(** [recorded] is the floor the record holds, [None] where there is no readable one. *)
Definition retentionEnforcementOf (retention : Retention) (finalityDepth tip recorded : option Z)
    : RetentionEnforcement :=
  match retentionFloor retention 0 finalityDepth with
  | None => NoFloor
  | Some _ =>
      let floor := tip ≫= fun t => retentionFloor retention t finalityDepth in
      match recorded with None => NeverPruned floor | Some prunedTo => Pruned floor prunedTo end
  end.

(** A resolved retention never puts reorg safety at risk: the finality depth is
    a natural number, a window is at least that depth, so the floor it prunes at
    stays at or below [tip - finality], never above the tip, never below block 0,
    and it is the very block an as-of read is first answered at. *)
Theorem resolveRetention_safe (setting : option RetentionSetting) (finalityDepth : option Z)
    (retention : Retention) (tip : Z) :
  0 <= tip -> resolveRetention setting finalityDepth = Ok retention ->
  (forall floor, retentionFloor retention tip finalityDepth = Some floor ->
     0 <= floor <= tip
     /\ exists depth, finalityDepth = Some depth /\ 0 <= depth /\ floor <= Z.max 0 (tip - depth))
  /\ (forall from to, retainedRange retention tip = Some (from, to) -> retention <> Unbounded ->
        retentionFloor retention tip finalityDepth = Some from).
Proof.
  intros Htip. unfold resolveRetention, assertFinalityDepth.
  destruct finalityDepth as [d|]; [case_decide; [done|]|].
  all: destruct setting as [[| |blocks|]|]; try done; repeat case_decide; try done; intros [= <-].
  all: simpl; split; [intros floor [= <-] || done|intros ? ? [= <- <-] ?; done || done].
  all: split; [lia|]; exists d; split_and!; [done|lia|lia].
Qed.

(** A historical read is refused exactly when the request is not a block number,
    the store answers no history at all, or the block is below the window. *)
Theorem assertRetained_iff (retention : Retention) (singleWriter : bool) (requested : Z) (tip : option Z) :
  let capabilities :=
    mkCapabilities retention (match retention with RevertOnly => false | _ => true end) singleWriter in
  is_Ok (assertRetained capabilities requested tip) <->
  0 <= requested /\ retention <> RevertOnly
  /\ (forall t from to, tip = Some t -> retainedRange retention t = Some (from, to) -> from <= requested).
Proof.
  unfold assertRetained, isBlockNumber. simpl. case_bool_decide as Hn; [|split; [done|tauto]].
  destruct retention as [| |blocks]; simpl.
  - split; [done|]. intros (_ & ? & _). done.
  - split; [|done]. intros _. split_and!; [done|done|]. intros t from to _ [= <- <-]. done.
  - destruct tip as [t|]; [case_decide|]; simpl.
    + split; [done|]. intros (_ & _ & Hall). specialize (Hall t _ _ eq_refl eq_refl). lia.
    + split; [|done]. intros _. split_and!; [done|done|]. intros t' from to [= <-] [= <- <-]. lia.
    + split; [|done]. intros _. split_and!; [done|done|]. by intros t from to [=].
Qed.

Lemma resolveRetention_safe_witness :
  resolveRetention (Some (SetBlocks 50)) (Some 12) = Ok (Window 50)
  /\ (forall floor, retentionFloor (Window 50) 90 (Some 12) = Some floor ->
       0 <= floor <= 90 /\ exists depth, Some 12 = Some depth /\ 0 <= depth /\ floor <= Z.max 0 (90 - depth)).
Proof.
  split; [done|]. apply (resolveRetention_safe (Some (SetBlocks 50)) (Some 12) (Window 50) 90); [lia|done].
Defined.
