(* ===== verification/StoreSpec.v ===== *)
(** * What a state store promises

    The [StateStoreBackend] seam of [packages/state-store/src/store.ts], as an
    interface: the operations a block-fed store offers, and the laws that relate
    them to the one abstract thing every backend implements, the history of the
    blocks recorded and the mutations each one carried. *)
From S2P Require Import Prelude JsMap Entities.

(** ** Planning a block

    Every backend resolves the mutations of a block against the declarations
    before it writes anything. *)
Record Planned : Type := mkPlanned {
  pl_entity : NormalizedEntity;
  pl_key : string;
  pl_id : list string;
  pl_values : option Values;
  pl_stored : option Values
}.

(** The [map] callback of [applyBlock]; [None] for a delete. *)
Definition plan (entities : entities_map) (mutation : Mutation) : result StoreError Planned :=
  entity ← mustGet entities (mutation_entity mutation);
  id ← idValues entity (mutation_id mutation);
  stored ← match mutation with
    | Upsert _ _ values => Some <$> encodeFieldValues entity values
    | Delete _ _ => Ok None
    end;
  key ← entityKey entity (mutation_id mutation);
  Ok (mkPlanned entity key id
        (match mutation with Upsert _ _ values => Some values | Delete _ _ => None end) stored).

(** ** What backends share

    A record of the seam is a text; a prune record is held as the floor it
    renders. *)
Inductive SeamRecord : Type :=
  | RecordText (value : string)
  | PruneRecord (floor : Z).

Record PruneReport : Type := mkReport {
  report_tip : option Z;
  report_floor : option Z;
  report_deleted : nat;
  report_complete : bool
}.

(** The last loop: the highest recorded height. *)
Definition tipOf (blocks : list (Z * BlockPointer)) : option Z :=
  foldl (fun tip p =>
    match tip with Some t => if decide (t < p.1) then Some p.1 else Some t | None => Some p.1 end)
    None blocks.

(** ** Histories *)
Record HistoryBlock : Type := mkHistoryBlock {
  hb_block : BlockPointer;
  hb_planned : list Planned
}.

Abbreviation history := (list HistoryBlock).

Definition hb_number (b : HistoryBlock) : Z := bp_number (hb_block b).
Definition hb_hash (b : HistoryBlock) : string := bp_hash (hb_block b).

(** The row an upsert writes, [None] for a delete. *)
Definition pl_row (p : Planned) : option Values := wholeRow (pl_entity p) (pl_id p) <$> pl_values p.
Definition pl_stored_row (p : Planned) : option Values := wholeRow (pl_entity p) (pl_id p) <$> pl_stored p.

(** The operations on one key, oldest first, each with its block number. *)
Definition block_ops (key : string) (b : HistoryBlock) : list (Z * Planned) :=
  (fun p => (hb_number b, p)) <$> filter (fun p => pl_key p = key) (hb_planned b).

Definition ops (key : string) (h : history) : list (Z * Planned) := concat (block_ops key <$> h).

(** The row a key holds after a list of operations. *)
Definition outcome (l : list (Z * Planned)) : option Values := last l ≫= fun p => pl_row p.2.

Definition current (h : history) (key : string) : option Values := outcome (ops key h).

Definition as_of (h : history) (at_ : Z) (key : string) : option Values :=
  outcome (filter (fun p => p.1 <= at_) (ops key h)).

Definition history_upto (n : Z) (h : history) : history := filter (fun b => hb_number b <= n) h.

Record history_wf (entities : entities_map) (h : history) : Prop := {
  history_ascending : ascending hb_number h;
  history_hashes : NoDup (hb_hash <$> h);
  history_planned : Forall (fun b => Forall (fun p => exists m, plan entities m = Ok p) (hb_planned b)) h
}.

(** The declarations a store is built over: each under its own name, identifiers
    free of the separator, one namespace of columns. *)
Record entities_wf (entities : entities_map) : Prop := {
  entities_names name e : jm_get entities name = Some e -> entity_name e = name;
  entities_free name e : jm_get entities name = Some e -> free_of SEPARATOR name;
  entities_fields name e : jm_get entities name = Some e -> NoDup (entity_fields e).*1;
  entities_columns name e c : jm_get entities name = Some e ->
    c ∈ entity_id e ++ (entity_fields e).*1 -> c <> "_lower" /\ c <> "_upper"
}.

Definition declared_columns (e : NormalizedEntity) : list string := entity_id e ++ (entity_fields e).*1.

(** Two rows agree on what the entity declares. *)
Definition same_row (e : NormalizedEntity) (row row' : Values) : Prop :=
  forall column, column ∈ declared_columns e -> row !! column = row' !! column.

(** A read answers what the history says the row is. *)
Definition answers (e : NormalizedEntity) (row : option Values)
    (answer : result StoreError (option Values)) : Prop :=
  match row with
  | None => answer = Ok None
  | Some row => exists a, answer = Ok (Some a) /\ same_row e a row
  end.

(** Two answers are the same up to what the entity declares: a store may answer
    more columns (the version columns of a versioned one). *)
Definition same_answer (e : NormalizedEntity) (a a' : option Values) : Prop :=
  match a, a' with
  | None, None => True
  | Some row, Some row' => same_row e row row'
  | _, _ => False
  end.

Lemma same_answer_refl e a : same_answer e a a.
Proof. by destruct a. Qed.

(** ** The interface *)
Class StateStore (S : Type) : Type := {
  declarations : S -> entities_map;
  applyBlock : S -> BlockPointer -> list Mutation -> option (string * string) -> result StoreError S;
  revertTo : S -> Z -> result StoreError S;
  getCurrent : S -> string -> EntityId -> result StoreError (option Values);
  readCursor : S -> string -> option string;
  writeCursor : S -> string -> string -> S;
  clearCursor : S -> string -> S
}.

(** What a recorded block must satisfy to be admitted. *)
Definition admits (entities : entities_map) (h : history) (block : BlockPointer)
    (mutations : list Mutation) (b : HistoryBlock) : Prop :=
  exists hash planned,
    normalizeBlockHash (bp_hash block) = Ok hash
    /\ (hash ∉ hb_hash <$> h)
    /\ Forall (fun b => hb_number b < bp_number block) h
    /\ mapR (plan entities) mutations = Ok planned
    /\ b = mkHistoryBlock (mkPointer (bp_number block) hash (bp_timestamp block)) planned.

Lemma admits_unique entities h block mutations b b' :
  admits entities h block mutations b -> admits entities h block mutations b' -> b = b'.
Proof. intros (hash & ps & Hn & _ & _ & Hps & ->) (hash' & ps' & Hn' & _ & _ & Hps' & ->). congruence. Qed.

(** The cursors after a write that may carry one. *)
Definition cursor_after (before : string -> option string) (cursor : option (string * string))
    (key : string) : option string :=
  match cursor with
  | Some (k, v) => if decide (k = key) then Some v else before key
  | None => before key
  end.

(** [repr floor s h]: the store [s] holds the history [h], and no version at or
    above [floor] was ever dropped. *)
Class StateStoreLaws (S : Type) `{StateStore S} : Type := {
  repr : Z -> S -> history -> Prop;
  repr_wf floor s h : repr floor s h -> history_wf (declarations s) h /\ entities_wf (declarations s);
  (** A block is recorded exactly when the history admits it, together with its
      cursor; a refused block leaves the store as it was, since it answers no
      new one. *)
  applyBlock_law floor s h block mutations cursor :
    repr floor s h ->
    (forall b, admits (declarations s) h block mutations b ->
      exists s', applyBlock s block mutations cursor = Ok s' /\ repr floor s' (h ++ [b])
        /\ declarations s' = declarations s
        /\ forall key, readCursor s' key = cursor_after (readCursor s) cursor key)
    /\ (forall s', applyBlock s block mutations cursor = Ok s' ->
          exists b, admits (declarations s) h block mutations b);
  (** A revert forgets the blocks above the fork, and nothing else.  Below block 0
      it is a wipe, so it may only be asked for when no block is below. *)
  revertTo_law floor s h n :
    repr floor s h -> floor <= n -> 0 <= n \/ history_upto n h = [] ->
    exists s', revertTo s n = Ok s' /\ repr floor s' (history_upto n h)
      /\ declarations s' = declarations s /\ forall key, readCursor s' key = readCursor s key;
  (** A read answers the last write the history holds. *)
  getCurrent_law floor s h entity id e key :
    repr floor s h -> jm_get (declarations s) entity = Some e -> entityKey e id = Ok key ->
    match current h key with
    | None => getCurrent s entity id = Ok None
    | Some row => exists answer, getCurrent s entity id = Ok (Some answer) /\ same_row e answer row
    end;
  writeCursor_law floor s h key value :
    repr floor s h -> repr floor (writeCursor s key value) h
    /\ declarations (writeCursor s key value) = declarations s
    /\ forall key', readCursor (writeCursor s key value) key' = cursor_after (readCursor s) (Some (key, value)) key';
  (** A revert below block 0 empties the store, whatever was dropped before. *)
  wipe_law floor s h :
    repr floor s h -> Forall (fun b => 0 <= hb_number b) h ->
    exists s', revertTo s (-1) = Ok s' /\ repr (-1) s' []
      /\ declarations s' = declarations s /\ forall key, readCursor s' key = readCursor s key;
  clearCursor_law floor s h key :
    repr floor s h -> repr floor (clearCursor s key) h
    /\ declarations (clearCursor s key) = declarations s /\ readCursor (clearCursor s key) key = None
}.

(** ** Histories under the operations *)
Lemma ops_app key h h' : ops key (h ++ h') = ops key h ++ ops key h'.
Proof. unfold ops. by rewrite fmap_app, concat_app. Qed.

Lemma ops_cons key b h : ops key (b :: h) = block_ops key b ++ ops key h.
Proof. done. Qed.

Lemma block_ops_number key b p : p ∈ block_ops key b -> p.1 = hb_number b.
Proof. by intros (q & -> & _)%list_elem_of_fmap. Qed.

Lemma ops_upto key n h : ops key (history_upto n h) = filter (fun p => p.1 <= n) (ops key h).
Proof.
  induction h as [|b h IH]; [done|]. rewrite ops_cons, filter_app, <- IH.
  unfold history_upto. rewrite filter_cons. case_decide as Hb.
  - rewrite ops_cons. f_equal. symmetry. apply filter_Forall_id, Forall_forall.
    intros p Hp. by rewrite (block_ops_number _ _ _ Hp).
  - rewrite (filter_Forall_nil _ (block_ops key b)); [done|]. apply Forall_forall.
    intros p Hp. by rewrite (block_ops_number _ _ _ Hp).
Qed.

Lemma ops_weakly_ascending key h :
  ascending hb_number h -> ascending_weak fst (ops key h).
Proof.
  induction 1 as [|b h Hh IH Hb]; [constructor|]. rewrite ops_cons. apply StronglySorted_app.
  split_and!; [|..|done].
  - intros p q Hp%block_ops_number Hq. apply elem_of_concat in Hq as (l & Hq & Hl).
    apply list_elem_of_fmap in Hl as (b' & -> & Hb'). apply block_ops_number in Hq.
    rewrite Forall_forall in Hb. specialize (Hb _ Hb'). lia.
  - assert (forall l : list (Z * Planned), Forall (fun p => p.1 = hb_number b) l -> ascending_weak fst l) as Heq.
    { induction 1 as [|p l Hp Hl IHl]; constructor; [done|]. eapply Forall_impl; [exact Hl|]. simpl. lia. }
    apply Heq, Forall_forall. intros p. apply block_ops_number.
Qed.

Lemma history_wf_upto entities n h : history_wf entities h -> history_wf entities (history_upto n h).
Proof.
  intros [Ha Hh Hp]. assert (history_upto n h `sublist_of` h) as Hs by apply sublist_filter.
  split; [by eapply ascending_sublist|eapply sublist_NoDup; [exact Hh|by apply sublist_fmap]|by eapply Forall_sublist].
Qed.

Lemma history_wf_snoc entities h block mutations b :
  history_wf entities h -> admits entities h block mutations b -> history_wf entities (h ++ [b]).
Proof.
  intros [Ha Hh Hp] (hash & planned & Hn & Hnew & Hlow & Hplan & ->). split.
  - apply ascending_app. split_and!; [|done|repeat constructor].
    intros x y Hx ->%list_elem_of_singleton. rewrite Forall_forall in Hlow. by apply Hlow.
  - rewrite fmap_app. apply NoDup_app. split_and!; [done| |apply NoDup_singleton].
    intros x Hx Hin. csimpl in Hin. apply list_elem_of_singleton in Hin as ->. done.
  - apply Forall_app. split; [done|]. apply Forall_singleton. simpl.
    revert planned Hplan. induction mutations as [|m ms IH]; intros planned; simpl.
    + intros [= <-]. constructor.
    + destruct (plan entities m) as [p|] eqn:Hm; [|done].
      destruct (mapR (plan entities) ms) as [ps|] eqn:Hms; [|done]. intros [= <-].
      constructor; [by exists m|auto].
Qed.

(** Reading as of the tip, or above it, is reading the present. *)
Lemma as_of_tip h n key : Forall (fun b => hb_number b <= n) h -> as_of h n key = current h key.
Proof.
  intros Hall. unfold as_of, current. rewrite <- ops_upto. unfold history_upto.
  by rewrite filter_Forall_id.
Qed.

(** A read as of a height is a read of the present after a revert to it. *)
Lemma as_of_upto h n key : as_of h n key = current (history_upto n h) key.
Proof. unfold as_of, current. by rewrite ops_upto. Qed.

(** Two declared entities with a key in common are the same. *)
Lemma entity_of_key entities name name' e e' id id' key :
  entities_wf entities -> jm_get entities name = Some e -> jm_get entities name' = Some e' ->
  entityKey e id = Ok key -> entityKey e' id' = Ok key -> e' = e.
Proof.
  intros Hew He He' Hk Hk'. pose proof (entities_names _ Hew _ _ He) as Hn.
  pose proof (entities_names _ Hew _ _ He') as Hn'.
  destruct (entityKey_inj e e' id id' key) as [Heq _]; [rewrite Hn|rewrite Hn'|done|done|congruence];
    by eapply entities_free.
Qed.

Lemma elem_of_ops key h q :
  q ∈ ops key h -> pl_key q.2 = key /\ exists b, b ∈ h /\ q.2 ∈ hb_planned b.
Proof.
  intros (l & Hq & (b & -> & Hb)%list_elem_of_fmap)%elem_of_concat.
  apply list_elem_of_fmap in Hq as (p & -> & [Hk Hp]%list_elem_of_filter).
  split; [done|]. by exists b.
Qed.

Lemma plan_id entities m p :
  plan entities m = Ok p -> idValues (pl_entity p) (mutation_id m) = Ok (pl_id p).
Proof.
  unfold plan. by intros (e & He & (id & Hid & (st & Hst & (key & Hkey & [= <-])%bind_Ok)%bind_Ok)%bind_Ok)%bind_Ok.
Qed.

Lemma plan_spec entities m p :
  plan entities m = Ok p ->
  jm_get entities (mutation_entity m) = Some (pl_entity p)
  /\ entityKey (pl_entity p) (mutation_id m) = Ok (pl_key p)
  /\ match pl_values p with
     | Some values => exists stored, encodeFieldValues (pl_entity p) values = Ok stored /\ pl_stored p = Some stored
     | None => pl_stored p = None
     end.
Proof.
  unfold plan. intros (e & He & (id & Hid & (st & Hst & (key & Hkey & [= <-])%bind_Ok)%bind_Ok)%bind_Ok)%bind_Ok.
  unfold mustGet in He. destruct (jm_get entities (mutation_entity m)) as [e'|]; [|done].
  injection He as ->. cbn [pl_entity pl_key pl_values pl_stored]. split_and!; [done|done|].
  destruct m as [name i values|name i]; simpl in Hst.
  - destruct (encodeFieldValues e values) as [stored|]; [|done]. injection Hst as <-. by exists stored.
  - by injection Hst as <-.
Qed.

(** ** The recorded blocks *)
Lemma ascending_last_max (h : history) b :
  ascending hb_number h -> last h = Some b -> Forall (fun b' => hb_number b' <= hb_number b) h.
Proof.
  intros Ha Hl. apply Forall_forall. intros x Hx. destruct h as [|y h _] using rev_ind; [done|].
  rewrite last_snoc in Hl. injection Hl as ->. apply ascending_app in Ha as (Hlt & _).
  apply elem_of_app in Hx as [Hx| ->%list_elem_of_singleton]; [|lia].
  specialize (Hlt x b Hx (list_elem_of_here _ _)). lia.
Qed.

(** The tip check, on a store that holds [h]. *)
Lemma above_tip (h : history) n :
  ascending hb_number h ->
  match hb_number <$> last h with
  | Some tip => assert_or (bool_decide (tip < n)) (BlockNotAboveTip n tip)
  | None => Ok tt
  end = Ok tt <-> Forall (fun b => hb_number b < n) h.
Proof.
  intros Ha. destruct (last h) as [b|] eqn:Hl; simpl.
  - unfold assert_or. case_bool_decide as Hb; split; try done.
    + intros _. eapply Forall_impl; [by apply ascending_last_max|]. simpl. lia.
    + rewrite Forall_forall. intros Hall. specialize (Hall b (last_Some_elem_of _ _ Hl)). lia.
  - apply last_None in Hl as ->. split; [constructor|done].
Qed.

Lemma tip_advances (h : history) n :
  Forall (fun b => hb_number b < n) h ->
  match hb_number <$> last h with
  | Some tip => if decide (tip < n) then Some n else Some tip
  | None => Some n
  end = Some n.
Proof.
  rewrite Forall_forall. intros Hlow. destruct (last h) as [b|] eqn:Hl; [|done]. simpl.
  by rewrite decide_True by (by apply Hlow, last_Some_elem_of).
Qed.

Lemma tipOf_ascending (h : history) :
  ascending hb_number h -> tipOf ((fun b => (hb_number b, hb_block b)) <$> h) = hb_number <$> last h.
Proof.
  induction h as [|b h IH] using rev_ind; intros Ha; [done|].
  pose proof Ha as (Hlt & Hh & _)%ascending_app. unfold tipOf in *. rewrite fmap_app, foldl_app, IH, last_snoc by done.
  csimpl. destruct (last h) as [b'|] eqn:Hl; [|done]. simpl. rewrite decide_True; [done|].
  apply (Hlt b' b); [by apply last_Some_elem_of|left].
Qed.

(** What a revert keeps is a prefix of the history. *)
Lemma history_split n h :
  ascending hb_number h -> h = history_upto n h ++ filter (fun b => n < hb_number b) h.
Proof.
  induction 1 as [|b h Hh IH Hb]; [done|]. unfold history_upto in *. rewrite !filter_cons.
  destruct (decide (hb_number b <= n)).
  - by rewrite (decide_False (P := n < hb_number b)), <- app_comm_cons, <- IH by lia.
  - rewrite decide_True by lia. rewrite Forall_forall in Hb.
    rewrite filter_Forall_nil, filter_Forall_id; [done|..]; apply Forall_forall; intros x Hx; specialize (Hb x Hx); simpl; lia.
Qed.
