(* ===== verification/Declarations.v ===== *)
(** * What a set of declarations must be

    [normalizeEntities] of [packages/state-store/src/entities.ts]: the checks an author's
    declarations go through once, before any store is built over them.  What they accept is
    [entities_wf], which the store theorems ask for. *)
From S2P Require Import Prelude JsMap Entities StoreSpec.

(** What an author writes for a field. *)
Inductive RawField : Type :=
  | RawStorage (type : string)
  | RawEnum (storage : string) (values : list string)
  | RawSemantic (storage type : string)
  | RawOther.

Record EntityDeclaration : Type := mkDeclaration {
  decl_name : string;
  decl_id : list string;
  decl_fields : list (string * RawField);
  decl_parent : option (string * string)
}.

Inductive DeclarationError : Type :=
  | ReservedIdentifier (s : string)
  | InvalidIdentifier (s : string)
  | NoIdColumn (entity : string)
  | IdColumnAndField (entity field : string)
  | UnknownFieldType (entity field : string)
  | EnumNotText (entity field : string)
  | EnumEmpty (entity field : string)
  | EnumValueIllegal (entity field value : string)
  | EnumValueTwice (entity field value : string)
  | SemanticUnknown (entity field : string)
  | SemanticStorage (entity field : string)
  | IdColumnTwice (entity column : string)
  | ColumnsDifferInCase (entity declared column : string)
  | CollectionTaken (entity as_ : string)
  | EntityTwice (name : string)
  | EntitiesDifferInCase (declared name : string)
  | ParentNotDeclared (entity parent : string)
  | IdNotUnderParent (entity parent : string)
  | NoColumnOfItsOwn (entity parent : string)
  | CollectionClashes (entity parent clash : string)
  | CollectionsClash (sibling entity : string).

(** ** Identifiers *)
Definition between (lo hi : nat) (c : ascii) : bool := (lo <=? nat_of_ascii c)%nat && (nat_of_ascii c <=? hi)%nat.
Definition isLetter (c : ascii) : bool := between 65 90 c || between 97 122 c.
Definition isUnderscore (c : ascii) : bool := bool_decide (c = "_"%char).
Definition isIdentifierPart (c : ascii) : bool := isLetter c || between 48 57 c || isUnderscore c.

Fixpoint all_chars (p : ascii -> bool) (s : string) : bool :=
  match s with EmptyString => true | String c s => p c && all_chars p s end.

(** [/^[A-Za-z][A-Za-z0-9_]*$/] *)
Definition IDENTIFIER (s : string) : bool :=
  match s with EmptyString => false | String c s => isLetter c && all_chars isIdentifierPart s end.

(** [/^[A-Za-z_][A-Za-z0-9_]*$/] *)
Definition GRAPHQL_NAME (s : string) : bool :=
  match s with EmptyString => false | String c s => (isLetter c || isUnderscore c) && all_chars isIdentifierPart s end.

Definition isReserved (s : string) : bool := match s with String c _ => isUnderscore c | EmptyString => false end.

Definition startsWithTwo (s : string) : bool :=
  match s with String c (String c' _) => isUnderscore c && isUnderscore c' | _ => false end.

(** Identifiers are ASCII where they are folded. *)
Definition fold (name : string) : string := toLowerCase name.

Definition assertIdentifier (name : string) : result DeclarationError unit :=
  if isReserved name then Err (ReservedIdentifier name)
  else assert_or (IDENTIFIER name) (InvalidIdentifier name).

(** ** One entity *)
Definition FIELD_TYPES (type : string) : option FieldType :=
  if decide (type = "text") then Some text
  else if decide (type = "integer") then Some integer
  else if decide (type = "real") then Some real
  else if decide (type = "blob") then Some blob
  else None.

Definition NOT_ENUM_VALUES : list string := ["true"; "false"; "null"].

Definition checkEnumValue (name field : string) (seen : list string) (value : string) : result DeclarationError (list string) :=
  if negb (GRAPHQL_NAME value) || bool_decide (value ∈ NOT_ENUM_VALUES) || startsWithTwo value
  then Err (EnumValueIllegal name field value)
  else if decide (value ∈ seen) then Err (EnumValueTwice name field value) else Ok (value :: seen).

(** [SEMANTIC_TYPES]: [u256], in [blob]. *)
Definition semanticFieldOf (name field storage type : string) : result DeclarationError FieldDeclaration :=
  if decide (type = "u256")
  then if decide (storage = "blob") then Ok (U256Field blob) else Err (SemanticStorage name field)
  else Err (SemanticUnknown name field).

Definition fieldOf (name field : string) (type : RawField) : result DeclarationError FieldDeclaration :=
  match type with
  | RawStorage type => match FIELD_TYPES type with Some t => Ok (Storage t) | None => Err (UnknownFieldType name field) end
  | RawOther => Err (UnknownFieldType name field)
  | RawSemantic storage type => semanticFieldOf name field storage type
  | RawEnum storage values =>
      if decide (storage = "text")
      then
        match values with
        | [] => Err (EnumEmpty name field)
        | _ => _ ← foldR (checkEnumValue name field) [] values; Ok (EnumField values)
        end
      else Err (EnumNotText name field)
  end.

Definition addField (name : string) (id : list string) (fields : list (string * FieldDeclaration)) (p : string * RawField)
    : result DeclarationError (list (string * FieldDeclaration)) :=
  _ ← assertIdentifier p.1;
  if decide (p.1 ∈ id) then Err (IdColumnAndField name p.1)
  else declared ← fieldOf name p.1 p.2; Ok (jm_set fields p.1 declared).

Definition addColumn (name : string) (columns : list (string * string)) (column : string) : result DeclarationError (list (string * string)) :=
  match jm_get columns (fold column) with
  | Some declared => if decide (declared = column) then Err (IdColumnTwice name column) else Err (ColumnsDifferInCase name declared column)
  | None => Ok (jm_set columns (fold column) column)
  end.

Definition READ_SURFACE_NAMES : list string := ["getCurrent"; "getAsOf"; "listCurrent"; "listAsOf"; "queryCurrent"; "queryAsOf"].

Definition relationOf (name : string) (parent : option (string * string)) : result DeclarationError (option (string * string)) :=
  match parent with
  | None => Ok None
  | Some (entity, as_) =>
      _ ← assertIdentifier entity;
      _ ← assertIdentifier as_;
      if decide (fold as_ ∈ fold <$> READ_SURFACE_NAMES) then Err (CollectionTaken name as_) else Ok (Some (entity, as_))
  end.

Definition normalizeEntity (declaration : EntityDeclaration) : result DeclarationError NormalizedEntity :=
  let name := decl_name declaration in
  _ ← assertIdentifier name;
  match decl_id declaration with
  | [] => Err (NoIdColumn name)
  | id =>
      _ ← mapR assertIdentifier id;
      fields ← foldR (addField name id) [] (decl_fields declaration);
      _ ← foldR (addColumn name) [] (id ++ fields.*1);
      parent ← relationOf name (decl_parent declaration);
      Ok (mkEntity name id fields parent)
  end.

(** ** The set of them *)

(** [collections]: the child that named a collection, by parent and folded name. *)
Definition assertRelation (entities : entities_map) (collections : list (string * string * string)) (child : NormalizedEntity)
    : result DeclarationError (list (string * string * string)) :=
  match entity_parent child with
  | None => Ok collections
  | Some (parentName, as_) =>
      match jm_get entities parentName with
      | None => Err (ParentNotDeclared (entity_name child) parentName)
      | Some parent =>
          let leading := take (length (entity_id parent)) (entity_id child) in
          if decide (leading <> entity_id parent) then Err (IdNotUnderParent (entity_name child) parentName)
          else if decide (length (entity_id child) = length (entity_id parent)) then Err (NoColumnOfItsOwn (entity_name child) parentName)
          else
            match filter (fun column => fold column = fold as_) (entity_id parent ++ (entity_fields parent).*1) with
            | clash :: _ => Err (CollectionClashes (entity_name child) parentName clash)
            | [] =>
                match jm_get collections (entity_name parent, fold as_) with
                | Some sibling => Err (CollectionsClash sibling (entity_name child))
                | None => Ok (jm_set collections (entity_name parent, fold as_) (entity_name child))
                end
            end
      end
  end.

Definition addEntity (entities : entities_map * list (string * string)) (declaration : EntityDeclaration)
    : result DeclarationError (entities_map * list (string * string)) :=
  entity ← normalizeEntity declaration;
  if jm_has entities.1 (entity_name entity) then Err (EntityTwice (entity_name entity))
  else
    match jm_get entities.2 (fold (entity_name entity)) with
    | Some declared => Err (EntitiesDifferInCase declared (entity_name entity))
    | None => Ok (jm_set entities.1 (entity_name entity) entity, jm_set entities.2 (fold (entity_name entity)) (entity_name entity))
    end.

Definition normalizeEntities (declarations : list EntityDeclaration) : result DeclarationError entities_map :=
  entities ← foldR addEntity ([], []) declarations;
  _ ← foldR (assertRelation entities.1) [] entities.1.*2;
  Ok entities.1.

(** ** What is accepted *)
Definition identifier (s : string) : Prop := isReserved s = false /\ IDENTIFIER s = true.

Lemma assertIdentifier_Ok s u : assertIdentifier s = Ok u -> identifier s.
Proof. unfold assertIdentifier, identifier. destruct (isReserved s); [done|]. by intros H%assert_or_Ok. Qed.

Lemma identifier_free s : identifier s -> free_of SEPARATOR s.
Proof.
  assert (forall s, all_chars isIdentifierPart s = true -> free_of SEPARATOR s) as Hall.
  { clear s. induction s as [|c s IH]; cbn [all_chars free_of]; [done|]. intros [Hc Hs]%andb_true_iff. split; [|by apply IH]. by intros ->. }
  intros [_ Hid]. destruct s as [|c s]; [done|]. cbn [IDENTIFIER] in Hid. apply andb_true_iff in Hid as [Hc Hs].
  split; [by intros ->|by apply Hall].
Qed.

Lemma identifier_not_reserved s : identifier s -> s <> "_lower" /\ s <> "_upper".
Proof. intros [Hr _]. by split; intros ->. Qed.

Lemma addColumn_keys name columns m m' :
  foldR (addColumn name) m columns = Ok m' -> jm_wf m -> jm_wf m' /\ m'.*1 = m.*1 ++ (fold <$> columns).
Proof.
  revert m. induction columns as [|c columns IH]; intros m; cbn [foldR]; [intros [= <-] Hm; by rewrite app_nil_r|].
  unfold addColumn at 1. destruct (jm_get m (fold c)) as [x|] eqn:Hc; [by case_decide|]. apply jm_get_None in Hc. intros Hrun Hm.
  destruct (IH _ Hrun) as [Hwf Hkeys]; [by apply jm_wf_set|]. split; [done|]. rewrite Hkeys, jm_set_new, fmap_app by done. by rewrite <- app_assoc.
Qed.

Record entity_ok (name : string) (e : NormalizedEntity) : Prop := {
  eo_name : entity_name e = name;
  eo_identifier : identifier name;
  eo_id : entity_id e <> [];
  eo_columns : Forall identifier (declared_columns e);
  eo_distinct : NoDup (fold <$> declared_columns e);
  eo_fields : NoDup (entity_fields e).*1
}.

Lemma normalizeEntity_ok declaration e :
  normalizeEntity declaration = Ok e -> entity_ok (decl_name declaration) e.
Proof.
  unfold normalizeEntity. rewrite bind_Ok. intros (u & Hname%assertIdentifier_Ok & Hrest).
  destruct (decl_id declaration) as [|c id] eqn:Hid; [done|]. apply bind_Ok in Hrest as (us & Hids & Hrest).
  apply bind_Ok in Hrest as (fields & Hfields & Hrest). apply bind_Ok in Hrest as (columns & Hcolumns & Hrest).
  apply bind_Ok in Hrest as (parent & _ & [= <-]).
  assert (Forall identifier (c :: id)) as Hid'.
  { apply Forall_forall. intros x Hx. apply (mapR_elem _ _ _ _ Hids) in Hx as (b & _ & Hb). by eapply assertIdentifier_Ok. }
  apply (foldR_inv _ (fun fs => jm_wf fs /\ Forall identifier fs.*1)) in Hfields as [Hwf Hidf].
  - apply addColumn_keys in Hcolumns as [Hcwf Hkeys]; [|by constructor]. unfold jm_wf in Hcwf. rewrite Hkeys in Hcwf.
    split; cbn [entity_name entity_id entity_fields declared_columns]; try done. by apply Forall_app.
  - intros fs p fs' _ [Hf Hi]. unfold addField. rewrite bind_Ok. intros (u' & Hp%assertIdentifier_Ok & Hrest). case_decide as Hin; [done|].
    apply bind_Ok in Hrest as (d & _ & [= <-]). split; [by apply jm_wf_set|].
    destruct (decide (p.1 ∈ fs.*1)); [by rewrite jm_set_keys_old|]. rewrite jm_set_new, fmap_app by done. apply Forall_app. by split; [|constructor].
  - split; constructor.
Qed.

(** The parent's collection a child is in. *)
Definition collection_of (e : NormalizedEntity) : option (string * string) := prod_map id fold <$> entity_parent e.

Record relation_ok (entities : entities_map) (child : NormalizedEntity) : Prop := {
  ro_parent p as_ : entity_parent child = Some (p, as_) ->
    exists parent own, jm_get entities p = Some parent /\ own <> [] /\ entity_id child = entity_id parent ++ own
      /\ fold as_ ∉ fold <$> declared_columns parent
}.

Lemma assertRelation_keys entities children m m' :
  (forall name e, jm_get entities name = Some e -> entity_name e = name) ->
  foldR (assertRelation entities) m children = Ok m' -> jm_wf m ->
  jm_wf m' /\ m'.*1 = m.*1 ++ omap collection_of children /\ Forall (relation_ok entities) children.
Proof.
  intros Hnames. revert m. induction children as [|child children IH]; intros m; cbn [foldR]; [intros [= <-] Hm; by rewrite app_nil_r|].
  unfold assertRelation at 1. unfold collection_of at 1. cbn [omap list_omap]. destruct (entity_parent child) as [[p as_]|] eqn:Hp; cbn [fmap option_fmap option_map].
  2:{ intros Hrun Hm. destruct (IH _ Hrun Hm) as (H1 & H2 & H3). split_and!; [done|done|]. constructor; [|done]. split. intros ??. by rewrite Hp. }
  destruct (jm_get entities p) as [parent|] eqn:Hparent; [|done]. case_decide as Hlead; [done|]. case_decide as Hlen; [done|].
  destruct (filter _ _) as [|clash rest] eqn:Hclash; [|done].
  destruct (jm_get m _) as [x|] eqn:Hm0; [done|]. apply jm_get_None in Hm0. rewrite (Hnames _ _ Hparent) in *. intros Hrun Hm.
  destruct (IH _ Hrun) as (H1 & H2 & H3); [by apply jm_wf_set|]. split_and!; [done| |].
  - rewrite H2, jm_set_new, fmap_app by done. by rewrite <- app_assoc.
  - constructor; [|done]. split. intros p' as' [= <- <-]%(eq_trans (eq_sym Hp)).
    exists parent, (drop (length (entity_id parent)) (entity_id child)). split_and!; [done| | |].
    + intros Hnil. apply Hlen. apply (f_equal length) in Hnil. rewrite length_drop in Hnil. cbn in Hnil.
      apply (f_equal length) in Hlead. rewrite length_take in Hlead. lia.
    + rewrite <- Hlead at 1. symmetry. apply take_drop.
    + intros (c & Hc & Hin)%list_elem_of_fmap. assert (c ∈ filter (fun column => fold column = fold as_) (entity_id parent ++ (entity_fields parent).*1)) as Hf
        by (by apply list_elem_of_filter). rewrite Hclash in Hf. by apply elem_of_nil in Hf.
Qed.

Lemma addEntity_ok declarations s s' :
  foldR addEntity s declarations = Ok s' ->
  (jm_wf s.1 /\ jm_wf s.2 /\ s.2.*1 = fold <$> s.1.*1 /\ forall name e, jm_get s.1 name = Some e -> entity_ok name e) ->
  jm_wf s'.1 /\ jm_wf s'.2 /\ s'.2.*1 = fold <$> s'.1.*1 /\ forall name e, jm_get s'.1 name = Some e -> entity_ok name e.
Proof.
  intros Hrun Hs. apply (foldR_inv _ (fun s => jm_wf s.1 /\ jm_wf s.2 /\ s.2.*1 = fold <$> s.1.*1 /\ forall name e, jm_get s.1 name = Some e -> entity_ok name e)) in Hrun;
    [done| |done].
  clear. intros [es fs] d s' _ (H1 & H2 & H3 & H4). cbn [fst snd] in *. unfold addEntity. rewrite bind_Ok. intros (e & He%normalizeEntity_ok & Hrest).
  pose proof (eo_name _ _ He) as Hn. cbn [fst snd] in Hrest. unfold jm_has in Hrest. case_bool_decide as Hhas; [done|].
  destruct (jm_get fs _) as [x|] eqn:Hfold; [done|]. injection Hrest as <-. cbn [fst snd]. apply jm_get_None in Hfold.
  assert (entity_name e ∉ es.*1) as Hnew by (apply jm_get_None; by destruct (jm_get es (entity_name e)); [destruct Hhas|]).
  split_and!; [by apply jm_wf_set|by apply jm_wf_set| |].
  - rewrite !jm_set_new, !fmap_app by done. by rewrite H3.
  - intros name e'. rewrite jm_get_set. case_decide as Hname; [|by apply H4]. intros [= <-]. subst name. by rewrite Hn.
Qed.

(** The children of one parent are told apart by the collections they name, and each
    belongs to one parent: its key is its parent's, then columns of its own. *)
Record declared_wf (entities : entities_map) : Prop := {
  dw_wf : entities_wf entities;
  dw_unique : jm_wf entities;
  dw_cases : NoDup (fold <$> entities.*1);
  dw_entity name e : jm_get entities name = Some e -> entity_ok name e;
  dw_collections : NoDup (omap collection_of entities.*2);
  dw_parent name child p as_ : jm_get entities name = Some child -> entity_parent child = Some (p, as_) ->
    exists parent, jm_get entities p = Some parent /\ (length (entity_id parent) < length (entity_id child))%nat
      /\ (fold as_ ∉ fold <$> declared_columns parent)
      /\ forall id values, idValues child id = Ok values -> idValues parent id = Ok (take (length (entity_id parent)) values)
}.

Lemma idValues_prefix (e e' : NormalizedEntity) own id values :
  entity_id e = entity_id e' ++ own -> idValues e id = Ok values -> idValues e' id = Ok (take (length (entity_id e')) values).
Proof.
  unfold idValues. intros -> Hv. apply mapR_Forall2 in Hv. apply Forall2_app_inv_l in Hv as (vs & ws & Hvs & _ & ->).
  rewrite (Forall2_length _ _ _ Hvs), take_app_length. apply mapR_Forall2. eapply Forall2_impl; [exact Hvs|]. intros c v. unfold idColumn.
  destruct (id !! c); [|done]. by case_decide.
Qed.

Lemma normalizeEntities_wf declarations entities : normalizeEntities declarations = Ok entities -> declared_wf entities.
Proof.
  unfold normalizeEntities. rewrite bind_Ok. intros ([es fs] & Hes & Hrest). apply bind_Ok in Hrest as (collections & Hrel & [= <-]). cbn [fst] in *.
  apply addEntity_ok in Hes as (Hwf & Hfwf & Hcases & Hok); [|split_and!; [constructor|constructor|done|done]]. cbn [fst snd] in *.
  apply assertRelation_keys in Hrel as (Hcwf & Hkeys & Hall); [|intros name e He; by apply eo_name, Hok|constructor].
  split; try done.
  - split.
    + intros name e He. by apply eo_name, Hok.
    + intros name e He. by eapply identifier_free, eo_identifier, Hok.
    + intros name e He. by eapply eo_fields, Hok.
    + intros name e c He Hc. pose proof (eo_columns _ _ (Hok _ _ He)) as Hcols. rewrite Forall_forall in Hcols. by apply identifier_not_reserved, Hcols.
  - unfold jm_wf in Hfwf. by rewrite Hcases in Hfwf.
  - unfold jm_wf in Hcwf. by rewrite Hkeys in Hcwf.
  - intros name child p as_ Hchild Hparent. rewrite Forall_forall in Hall.
    assert (relation_ok es child) as [Hrel] by (apply Hall; apply jm_get_elem in Hchild; by apply (list_elem_of_fmap_2 snd) in Hchild).
    destruct (Hrel _ _ Hparent) as (parent & own & Hp & Hown & Hid & Hclash). exists parent. split_and!; [done| |done|].
    + rewrite Hid, length_app. destruct own; [done|cbn; lia].
    + intros id values. by apply (idValues_prefix _ _ own).
Qed.

(** C22. What [normalizeEntities] accepts is what the stores are proved over, and a declared
    relation says what the ids already encode: each child's key begins with one parent's
    whole key, and no two children of a parent share a collection name. *)
Theorem accepted_declarations_wf declarations entities :
  normalizeEntities declarations = Ok entities -> declared_wf entities.
Proof. apply normalizeEntities_wf. Qed.

(** ** The theorem at work *)
Definition sample_declarations : list EntityDeclaration :=
  [mkDeclaration "Token" ["id"] [("owner", RawStorage "text"); ("kind", RawEnum "text" ["ERC20"; "ERC721"])] None;
   mkDeclaration "Holder" ["id"; "account"] [("amount", RawSemantic "blob" "u256")] (Some ("Token", "holders"))].

Example sample_accepted :
  normalizeEntities sample_declarations
  = Ok [("Token", mkEntity "Token" ["id"] [("owner", Storage text); ("kind", EnumField ["ERC20"; "ERC721"])] None);
        ("Holder", mkEntity "Holder" ["id"; "account"] [("amount", U256Field blob)] (Some ("Token", "holders")))].
Proof. vm_compute. reflexivity. Qed.

Example sample_refusals :
  normalizeEntities [mkDeclaration "_block" ["id"] [] None] = Err (ReservedIdentifier "_block")
  /\ normalizeEntities [mkDeclaration "A" ["id"] [("Owner", RawStorage "text"); ("owner", RawStorage "text")] None] = Err (ColumnsDifferInCase "A" "Owner" "owner")
  /\ normalizeEntities [mkDeclaration "A" ["id"; "id"] [] None] = Err (IdColumnTwice "A" "id")
  /\ normalizeEntities (sample_declarations ++ [mkDeclaration "Seller" ["id"; "seller"] [] (Some ("Token", "Holders"))]) = Err (CollectionsClash "Holder" "Seller").
Proof. vm_compute. done. Qed.

Lemma accepted_declarations_wf_witness :
  exists entities, normalizeEntities sample_declarations = Ok entities /\ declared_wf entities.
Proof.
  eexists. split; [apply sample_accepted|]. apply (accepted_declarations_wf sample_declarations). apply sample_accepted.
Defined.
