(* ===== verification/Versions.v ===== *)
(** * Versions of one business key

    The half-open validity ranges of [packages/state-store/src/memory.ts]: what
    an apply, a revert and a prune do to the versions of one row, and what the
    two reads find among them. *)
From S2P Require Import Prelude Entities.

(** [Version]: a complete row and its range; [upper: null] is [None]. *)
Record Version : Type := mkVersion {
  v_values : Values;
  v_lower : Z;
  v_upper : option Z
}.

Definition is_live (v : Version) : bool := match v_upper v with None => true | Some _ => false end.

(** [const live = versions.find(...); if (live) live.upper = block.number] *)
Fixpoint closeLive (n : Z) (versions : list Version) : list Version :=
  match versions with
  | [] => []
  | v :: rest =>
      if is_live v then mkVersion (v_values v) (v_lower v) (Some n) :: rest else v :: closeLive n rest
  end.

(** One mutation of one block: close, then open a version for an upsert. *)
Definition applyVersion (versions : list Version) (op : Z * option Values) : list Version :=
  closeLive op.1 versions
  ++ match op.2 with Some row => [mkVersion row op.1 None] | None => [] end.

(** The body of [revertTo] for one row. *)
Definition reopen (keepUpTo : Z) (v : Version) : Version :=
  match v_upper v with
  | Some u => if decide (keepUpTo < u) then mkVersion (v_values v) (v_lower v) None else v
  | None => v
  end.

Definition revertVersions (keepUpTo : Z) (versions : list Version) : list Version :=
  reopen keepUpTo <$> filter (fun v => v_lower v <= keepUpTo) versions.

(** [version.lower <= at && (version.upper === null || at < version.upper)] *)
Definition covers (at_ : Z) (v : Version) : bool :=
  bool_decide (v_lower v <= at_)
  && match v_upper v with None => true | Some u => bool_decide (at_ < u) end.

(** [version.upper !== null && version.upper <= floor] *)
Definition unreachable (floor : Z) (v : Version) : bool :=
  match v_upper v with Some u => bool_decide (u <= floor) | None => false end.

(** ** The versions an operation list leaves *)
Definition versions_of (l : list (Z * option Values)) : list Version := foldl applyVersion [] l.

(** At most one version is live, and it is the last. *)
Inductive live_last : list Version -> Prop :=
  | live_last_closed vs : Forall (fun v => is_live v = false) vs -> live_last vs
  | live_last_open vs v : Forall (fun v => is_live v = false) vs -> is_live v = true -> live_last (vs ++ [v]).

Lemma closeLive_closed n vs : Forall (fun v => is_live v = false) vs -> closeLive n vs = vs.
Proof. induction 1 as [|v vs Hv Hvs IH]; simpl; [done|]. by rewrite Hv, IH. Qed.

Lemma closeLive_open n vs v :
  Forall (fun v => is_live v = false) vs -> is_live v = true ->
  closeLive n (vs ++ [v]) = vs ++ [mkVersion (v_values v) (v_lower v) (Some n)].
Proof. induction 1 as [|w vs Hw Hvs IH]; simpl; intros Hv; [by rewrite Hv|]. by rewrite Hw, IH. Qed.

Lemma closeLive_all_closed n vs : live_last vs -> Forall (fun v => is_live v = false) (closeLive n vs).
Proof.
  destruct 1 as [vs Hvs|vs v Hvs Hv].
  - by rewrite closeLive_closed.
  - rewrite closeLive_open by done. apply Forall_app. split; [done|by apply Forall_singleton].
Qed.

Lemma closeLive_Forall (P : Version -> Prop) n vs :
  live_last vs -> Forall P vs ->
  (forall v, is_live v = true -> P v -> P (mkVersion (v_values v) (v_lower v) (Some n))) ->
  Forall P (closeLive n vs).
Proof.
  intros [vs' Hvs|vs' v Hvs Hv] HP Hclose; [by rewrite closeLive_closed|].
  apply Forall_app in HP as [HP Hlast%Forall_inv].
  rewrite closeLive_open by done. apply Forall_app. split; [done|]. apply Forall_singleton. by apply Hclose.
Qed.

Lemma applyVersion_live_last vs op : live_last vs -> live_last (applyVersion vs op).
Proof.
  intros Hvs%(closeLive_all_closed op.1). unfold applyVersion. destruct op.2 as [row|].
  - by constructor.
  - rewrite app_nil_r. by constructor.
Qed.

Lemma versions_of_snoc l op : versions_of (l ++ [op]) = applyVersion (versions_of l) op.
Proof. unfold versions_of. by rewrite foldl_app. Qed.

Lemma versions_of_live_last l : live_last (versions_of l).
Proof.
  induction l as [|op l IH] using rev_ind; [by constructor|].
  rewrite versions_of_snoc. by apply applyVersion_live_last.
Qed.

(** Every bound a version carries is the block number of an operation. *)
Lemma versions_of_bounds (P : Z -> Prop) l :
  Forall (fun op => P op.1) l ->
  Forall (fun v => P (v_lower v) /\ forall u, v_upper v = Some u -> P u) (versions_of l).
Proof.
  induction l as [|[n o] l IH] using rev_ind; [constructor|].
  intros [Hl Hn%Forall_inv]%Forall_app. specialize (IH Hl). rewrite versions_of_snoc.
  unfold applyVersion. apply Forall_app. split.
  - apply closeLive_Forall; [apply versions_of_live_last|done|].
    intros v _ [Hlow _]. split; [done|]. by intros u [= <-].
  - destruct o as [row|]; [|constructor]. apply Forall_singleton. by split.
Qed.

(** Closing keeps the lower bounds, and an upsert opens one at its block. *)
Lemma closeLive_lowers n vs : v_lower <$> closeLive n vs = v_lower <$> vs.
Proof.
  induction vs as [|v vs IH]; [done|]. cbn [closeLive]. destruct (is_live v); [done|]. csimpl. by rewrite IH.
Qed.

Lemma foldl_applyVersion_lowers (P : Z -> Prop) vs l :
  Forall P (v_lower <$> vs) -> Forall (fun op => P op.1) l ->
  Forall P (v_lower <$> foldl applyVersion vs l).
Proof.
  intros Hvs Hl. revert vs Hvs. induction Hl as [|[n o] l Hn Hl IH]; intros vs Hvs; [done|].
  cbn [foldl]. apply IH. unfold applyVersion. rewrite fmap_app, closeLive_lowers. apply Forall_app.
  split; [done|]. destruct o; [by apply Forall_singleton|constructor].
Qed.

Lemma revertVersions_lowers (P : Z -> Prop) keep vs :
  Forall P (v_lower <$> vs) -> Forall (fun n => P n /\ n <= keep) (v_lower <$> revertVersions keep vs).
Proof.
  induction vs as [|v vs IH]; [constructor|]. csimpl. intros [Hv Hvs]%Forall_cons.
  unfold revertVersions. rewrite filter_cons. case_decide; [|by apply IH]. csimpl. constructor; [|by apply IH].
  unfold reopen. destruct (v_upper v); [case_decide|]; done.
Qed.

(** ** Reverting *)
Lemma revert_applyVersion keep vs op :
  live_last vs -> keep < op.1 -> revertVersions keep (applyVersion vs op) = revertVersions keep vs.
Proof.
  intros Hvs Hn. unfold applyVersion, revertVersions. rewrite filter_app.
  assert (filter (fun v => v_lower v <= keep)
    (match op.2 with Some row => [mkVersion row op.1 None] | None => [] end) = []) as ->.
  { destruct op.2; [|done]. rewrite filter_cons_False; [done|]. simpl. lia. }
  rewrite app_nil_r. destruct Hvs as [vs Hvs|vs v Hvs Hv]; [by rewrite closeLive_closed|].
  rewrite closeLive_open by done. rewrite !filter_app, !fmap_app. f_equal.
  rewrite !filter_cons. simpl. case_decide; [|done]. csimpl. f_equal.
  unfold reopen at 1. simpl. rewrite decide_True by done.
  unfold reopen, is_live in *. destruct v as [row low [u|]]; done.
Qed.

Lemma revert_identity keep vs :
  Forall (fun v => v_lower v <= keep /\ forall u, v_upper v = Some u -> u <= keep) vs ->
  revertVersions keep vs = vs.
Proof.
  unfold revertVersions. induction 1 as [|v vs [Hlow Hup] Hvs IH]; [done|].
  rewrite filter_cons_True by done. csimpl. rewrite IH. f_equal. unfold reopen.
  destruct (v_upper v) as [u|]; [|done]. specialize (Hup u eq_refl). by rewrite decide_False by lia.
Qed.

(** Reverting the versions a run of operations left gives the versions the
    operations up to the fork leave. *)
Lemma revert_versions_of keep l :
  ascending_weak fst l ->
  revertVersions keep (versions_of l) = versions_of (filter (fun op => op.1 <= keep) l).
Proof.
  induction l as [|op l IH] using rev_ind; intros Hs; [done|].
  apply StronglySorted_app in Hs as (Hle & Hs & _). rewrite versions_of_snoc, filter_app, filter_cons.
  case_decide as Hop.
  - rewrite (filter_Forall_id _ l).
    2:{ apply Forall_forall. intros x Hx. specialize (Hle x op Hx (list_elem_of_here _ _)). lia. }
    cbn [filter list_filter app]. change (filter _ []) with (@nil (Z * option Values)).
    rewrite versions_of_snoc, <- versions_of_snoc. apply revert_identity.
    apply (versions_of_bounds (fun z => z <= keep)). apply Forall_app. split; [|by apply Forall_singleton].
    apply Forall_forall. intros x Hx. specialize (Hle x op Hx (list_elem_of_here _ _)). lia.
  - change (filter _ []) with (@nil (Z * option Values)). rewrite app_nil_r, <- IH by done.
    apply revert_applyVersion; [apply versions_of_live_last|lia].
Qed.

(** ** Reading *)
Definition op_outcome (l : list (Z * option Values)) : option Values := last l ≫= snd.

Lemma find_app {A} (f : A -> bool) l k :
  find f (l ++ k) = match find f l with Some x => Some x | None => find f k end.
Proof. induction l as [|x l IH]; simpl; [done|]. by destruct (f x). Qed.

Lemma find_none_Forall {A} (f : A -> bool) l : Forall (fun x => f x = false) l -> find f l = None.
Proof. induction 1 as [|x l Hx Hl IH]; simpl; [done|]. by rewrite Hx. Qed.

Lemma find_live l : v_values <$> find is_live (versions_of l) = op_outcome l.
Proof.
  destruct l as [|[n o] l _] using rev_ind; [done|]. rewrite versions_of_snoc. unfold op_outcome.
  rewrite last_snoc. unfold applyVersion. simpl. rewrite find_app.
  rewrite (find_none_Forall _ (closeLive n (versions_of l)))
    by (apply closeLive_all_closed, versions_of_live_last). by destruct o.
Qed.

Lemma find_closeLive n at_ vs :
  live_last vs -> at_ < n ->
  v_values <$> find (covers at_) (closeLive n vs) = v_values <$> find (covers at_) vs.
Proof.
  intros [vs' Hvs|vs' v Hvs Hv] Hn; [by rewrite closeLive_closed|].
  rewrite closeLive_open, !find_app by done. destruct (find (covers at_) vs'); [done|]. simpl.
  unfold covers, is_live in *. destruct v as [row low [u|]]; [done|]. simpl.
  rewrite (bool_decide_true (at_ < n)) by done. by destruct (bool_decide (low <= at_)).
Qed.

(** A read as of a height finds the row the last operation at or below it wrote. *)
Lemma find_covers at_ l :
  ascending_weak fst l ->
  v_values <$> find (covers at_) (versions_of l) = op_outcome (filter (fun op => op.1 <= at_) l).
Proof.
  induction l as [|[n o] l IH] using rev_ind; intros Hs; [done|].
  apply StronglySorted_app in Hs as (Hle & Hs & _). rewrite versions_of_snoc, filter_app, filter_cons.
  change (filter _ []) with (@nil (Z * option Values)). simpl (fst _).
  unfold applyVersion. simpl (fst _). simpl (snd _). rewrite find_app. case_decide as Hn.
  - assert (find (covers at_) (closeLive n (versions_of l)) = None) as ->.
    { apply find_none_Forall. pose proof (versions_of_live_last l) as Hlive.
      assert (Forall (fun v => forall u, v_upper v = Some u -> u <= n) (closeLive n (versions_of l))) as Hup.
      { apply closeLive_Forall; [done| |by intros v _ _ u [= <-]].
        eapply Forall_impl; [apply (versions_of_bounds (fun z => z <= n))|by intros v [_ ?]].
        apply Forall_forall. intros x Hx. apply (Hle x _ Hx (list_elem_of_here _ _)). }
      pose proof (closeLive_all_closed n _ Hlive) as Hclosed.
      rewrite Forall_forall in *. intros v Hv. specialize (Hclosed v Hv). specialize (Hup v Hv).
      unfold covers, is_live in *. destruct (v_upper v) as [u|]; [|done]. specialize (Hup u eq_refl).
      rewrite (bool_decide_false (at_ < u)) by lia. apply andb_false_r. }
    unfold op_outcome. rewrite last_snoc. destruct o as [row|]; simpl; [|done].
    unfold covers. simpl. by rewrite bool_decide_true.
  - rewrite app_nil_r, <- IH by done.
    rewrite <- (find_closeLive n) by (apply versions_of_live_last || lia).
    destruct (find (covers at_) (closeLive n (versions_of l))); [done|].
    destruct o as [row|]; simpl; [|done]. unfold covers. simpl. by rewrite bool_decide_false by lia.
Qed.

(** ** Pruning

    [reachable floor vs]: the versions some legal read can still find.  Two
    version lists that agree on it are told apart by no read at or above the
    floor, and stay that way under every operation. *)
Definition reachable (floor : Z) (vs : list Version) : list Version :=
  filter (fun v => unreachable floor v = false) vs.

Lemma live_reachable floor v : is_live v = true -> unreachable floor v = false.
Proof. unfold is_live, unreachable. by destruct (v_upper v). Qed.

Lemma reachable_cons floor v vs :
  reachable floor (v :: vs) = if unreachable floor v then reachable floor vs else v :: reachable floor vs.
Proof. unfold reachable. rewrite filter_cons. by destruct (unreachable floor v). Qed.

Lemma reachable_idemp floor vs : reachable floor (reachable floor vs) = reachable floor vs.
Proof. apply filter_Forall_id, Forall_forall. by intros x [? _]%list_elem_of_filter. Qed.

Lemma reachable_closeLive floor n vs :
  reachable floor (closeLive n vs) = reachable floor (closeLive n (reachable floor vs)).
Proof.
  induction vs as [|v vs IH]; [done|]. rewrite (reachable_cons _ v). cbn [closeLive].
  destruct (is_live v) eqn:Hv.
  - rewrite (live_reachable floor v Hv). cbn [closeLive].
    by rewrite Hv, !reachable_cons, reachable_idemp.
  - rewrite reachable_cons. destruct (unreachable floor v) eqn:Hu; [done|].
    cbn [closeLive]. by rewrite Hv, reachable_cons, Hu, IH.
Qed.

Lemma reachable_app floor vs ws : reachable floor (vs ++ ws) = reachable floor vs ++ reachable floor ws.
Proof. apply filter_app. Qed.

Lemma reachable_apply floor vs ws op :
  reachable floor vs = reachable floor ws ->
  reachable floor (applyVersion vs op) = reachable floor (applyVersion ws op).
Proof.
  intros Heq. unfold applyVersion. rewrite !reachable_app, (reachable_closeLive _ _ vs), Heq.
  by rewrite <- reachable_closeLive.
Qed.

Lemma unreachable_reopen floor keep v :
  floor <= keep -> unreachable floor (reopen keep v) = unreachable floor v.
Proof.
  intros Hle. unfold unreachable, reopen. destruct (v_upper v) as [u|] eqn:Hu; [|by rewrite Hu].
  case_decide; simpl; [symmetry; apply bool_decide_eq_false_2; lia|by rewrite Hu].
Qed.

Lemma revertVersions_cons keep v vs :
  revertVersions keep (v :: vs)
  = if decide (v_lower v <= keep) then reopen keep v :: revertVersions keep vs else revertVersions keep vs.
Proof. unfold revertVersions. rewrite filter_cons. by case_decide. Qed.

Lemma reachable_revert_alt floor keep vs :
  floor <= keep -> reachable floor (revertVersions keep vs) = revertVersions keep (reachable floor vs).
Proof.
  intros Hle. induction vs as [|v vs IH]; [done|].
  rewrite revertVersions_cons, (reachable_cons _ v). destruct (decide (v_lower v <= keep)) as [Hlow|Hlow].
  - rewrite reachable_cons, unreachable_reopen by done. destruct (unreachable floor v); [done|].
    by rewrite revertVersions_cons, decide_True, IH.
  - rewrite IH. destruct (unreachable floor v); [done|]. by rewrite revertVersions_cons, decide_False.
Qed.

Lemma reachable_revert floor keep vs ws :
  floor <= keep -> reachable floor vs = reachable floor ws ->
  reachable floor (revertVersions keep vs) = reachable floor (revertVersions keep ws).
Proof. intros Hle Heq. by rewrite !reachable_revert_alt, Heq. Qed.

Lemma find_reachable (f : Version -> bool) floor vs :
  (forall v, unreachable floor v = true -> f v = false) ->
  find f (reachable floor vs) = find f vs.
Proof.
  intros Hf. induction vs as [|v vs IH]; [done|]. rewrite reachable_cons. cbn [find].
  destruct (unreachable floor v) eqn:Hu; [by rewrite Hf|]. cbn [find]. by rewrite IH.
Qed.

Lemma find_live_reachable floor vs ws :
  reachable floor vs = reachable floor ws -> find is_live vs = find is_live ws.
Proof.
  intros Heq. assert (forall v, unreachable floor v = true -> is_live v = false) as Hf
    by (intros v; unfold unreachable, is_live; by destruct (v_upper v)).
  by rewrite <- (find_reachable is_live floor vs), Heq, find_reachable.
Qed.

Lemma find_covers_reachable floor at_ vs ws :
  floor <= at_ -> reachable floor vs = reachable floor ws -> find (covers at_) vs = find (covers at_) ws.
Proof.
  intros Hle Heq. assert (forall v, unreachable floor v = true -> covers at_ v = false) as Hf.
  { intros v. unfold unreachable, covers. destruct (v_upper v) as [u|]; [|done].
    rewrite bool_decide_eq_true. intros Hu. rewrite (bool_decide_false (at_ < u)) by lia. apply andb_false_r. }
  by rewrite <- (find_reachable (covers at_) floor vs), Heq, find_reachable.
Qed.

Lemma reachable_weaken floor floor' vs ws :
  floor <= floor' -> reachable floor vs = reachable floor ws -> reachable floor' vs = reachable floor' ws.
Proof.
  intros Hle Heq. assert (forall l, reachable floor' (reachable floor l) = reachable floor' l) as Hl.
  { intros l. induction l as [|v l IH]; [done|]. rewrite !(reachable_cons _ v).
    destruct (unreachable floor v) eqn:Hu.
    - assert (unreachable floor' v = true) as ->; [|done].
      unfold unreachable in *. destruct (v_upper v); [|done].
      rewrite bool_decide_eq_true in *. lia.
    - rewrite reachable_cons. by rewrite IH. }
  by rewrite <- Hl, Heq, Hl.
Qed.

(** Dropping versions no read can find changes no answer. *)
Lemma reachable_drop floor (doomed : Version -> bool) vs :
  (forall v, doomed v = true -> unreachable floor v = true) ->
  reachable floor (filter (fun v => doomed v = false) vs) = reachable floor vs.
Proof.
  intros Hd. induction vs as [|v vs IH]; [done|]. rewrite filter_cons, (reachable_cons _ v).
  case_decide as Hv.
  - by rewrite reachable_cons, IH.
  - by rewrite (Hd v) by (by destruct (doomed v)).
Qed.
