(* ===== verification/MemoryStore.v ===== *)
(** * The reference store: versioned rows in a [Map]

    [MemoryStateStore] of [packages/state-store/src/memory.ts].  The records of
    the seam are texts in the code; here a prune record is the floor it holds. *)
From S2P Require Import Prelude JsMap Entities Listing Retention StoreSpec Versions.

(** ** State *)
Record Row : Type := mkRow {
  row_entity : string;
  row_id : list string;
  row_versions : list Version
}.

Record MemoryStateStore : Type := mkMemory {
  m_entities : entities_map;
  m_rows : list (string * Row);
  m_blocks : list (Z * BlockPointer);
  m_hashes : list (string * Z);
  m_cursors : list (string * string);
  m_records : list (string * SeamRecord);
  m_provided : Retention;
  m_finalityDepth : option Z;
  m_tip : option Z
}.

(** The constructor, over declarations already normalised. *)
Definition newMemoryStore (entities : entities_map) (setting : option RetentionSetting)
    (finalityDepth : option Z) : result StoreError MemoryStateStore :=
  provided ← resolveRetention setting finalityDepth;
  Ok (mkMemory entities [] [] [] [] [] provided finalityDepth None).

Definition m_capabilities (s : MemoryStateStore) : StateStoreCapabilities :=
  mkCapabilities (m_provided s) (match m_provided s with RevertOnly => false | _ => true end) false.

(** ** Applying a block *)
Definition applyPlanned (n : Z) (rows : list (string * Row)) (p : Planned) : list (string * Row) :=
  let row := default (mkRow (entity_name (pl_entity p)) (pl_id p) []) (jm_get rows (pl_key p)) in
  jm_set rows (pl_key p)
    (mkRow (row_entity row) (row_id row) (applyVersion (row_versions row) (n, pl_stored_row p))).

Definition m_applyBlock (s : MemoryStateStore) (block : BlockPointer) (mutations : list Mutation)
    (cursor : option (string * string)) : result StoreError MemoryStateStore :=
  hash ← normalizeBlockHash (bp_hash block);
  _ ← assert_or (negb (jm_has (m_blocks s) (bp_number block))) (BlockAlreadyRecorded (bp_number block));
  _ ← assert_or (negb (jm_has (m_hashes s) hash)) (BlockHashAlreadyRecorded hash);
  _ ← match m_tip s with
    | Some tip => assert_or (bool_decide (tip < bp_number block)) (BlockNotAboveTip (bp_number block) tip)
    | None => Ok tt
    end;
  planned ← mapR (plan (m_entities s)) mutations;
  Ok (mkMemory (m_entities s)
        (foldl (applyPlanned (bp_number block)) (m_rows s) planned)
        (jm_set (m_blocks s) (bp_number block) (mkPointer (bp_number block) hash (bp_timestamp block)))
        (jm_set (m_hashes s) hash (bp_number block))
        (match cursor with Some (key, value) => jm_set (m_cursors s) key value | None => m_cursors s end)
        (m_records s) (m_provided s) (m_finalityDepth s)
        (match m_tip s with
         | Some tip => if decide (tip < bp_number block) then Some (bp_number block) else Some tip
         | None => Some (bp_number block)
         end)).

(** ** Cursors and records *)
Definition with_cursors (s : MemoryStateStore) (cursors : list (string * string)) : MemoryStateStore :=
  mkMemory (m_entities s) (m_rows s) (m_blocks s) (m_hashes s) cursors (m_records s) (m_provided s)
    (m_finalityDepth s) (m_tip s).

Definition with_records (s : MemoryStateStore) (records : list (string * SeamRecord)) : MemoryStateStore :=
  mkMemory (m_entities s) (m_rows s) (m_blocks s) (m_hashes s) (m_cursors s) records (m_provided s)
    (m_finalityDepth s) (m_tip s).

Definition m_readCursor (s : MemoryStateStore) (key : string) : option string := jm_get (m_cursors s) key.
Definition m_writeCursor (s : MemoryStateStore) (key value : string) : MemoryStateStore :=
  with_cursors s (jm_set (m_cursors s) key value).
Definition m_clearCursor (s : MemoryStateStore) (key : string) : MemoryStateStore :=
  with_cursors s (jm_delete (m_cursors s) key).
Definition m_readSeamRecord (s : MemoryStateStore) (key : string) : option SeamRecord :=
  jm_get (m_records s) key.
Definition m_writeSeamRecord (s : MemoryStateStore) (key : string) (value : SeamRecord) : MemoryStateStore :=
  with_records s (jm_set (m_records s) key value).
Definition m_clearSeamRecord (s : MemoryStateStore) (key : string) : MemoryStateStore :=
  with_records s (jm_delete (m_records s) key).

(** ** Reading *)

(** [{...found.values, _lower, _upper}] *)
Definition answered (v : Version) : Values :=
  <["_upper" := match v_upper v with Some u => VNum u | None => VNull end]>
    (<["_lower" := VNum (v_lower v)]> (v_values v)).

Definition m_read (s : MemoryStateStore) (entity : string) (id : EntityId) (matches : Version -> bool)
    : result StoreError (option Values) :=
  declaration ← mustGet (m_entities s) entity;
  key ← entityKey declaration id;
  match jm_get (m_rows s) key ≫= fun row => find matches (row_versions row) with
  | None => Ok None
  | Some found => Some <$> decodeFieldValues declaration (answered found)
  end.

Definition m_getCurrent (s : MemoryStateStore) (entity : string) (id : EntityId)
    : result StoreError (option Values) := m_read s entity id is_live.

Definition m_getAsOf (s : MemoryStateStore) (entity : string) (id : EntityId) (at_ : Z)
    : result StoreError (option Values) :=
  _ ← assertRetained (m_capabilities s) at_ (m_tip s);
  m_read s entity id (covers at_).

(** The prefix scan: a walk of the map, sorted by id, one row more than the limit. *)
Definition m_scan (s : MemoryStateStore) (entity : string) (prefix : EntityId) (limit : Z)
    (matches : Version -> bool) : result StoreError (Listing Values) :=
  declaration ← mustGet (m_entities s) entity;
  values ← prefixValues declaration prefix;
  _ ← assertListingLimit declaration limit;
  let found := omap (fun '(_, row) =>
    if bool_decide (row_entity row = entity_name declaration) && hasIdPrefix (row_id row) values
    then (fun v => (row_id row, v)) <$> find matches (row_versions row) else None) (m_rows s) in
  rows ← mapR (fun p => decodeFieldValues declaration (answered p.2))
    (take (Z.to_nat (limit + 1)) (sort_ids fst found));
  Ok (boundedListing rows limit).

Definition m_listCurrent s entity prefix limit := m_scan s entity prefix limit is_live.

Definition m_listAsOf s entity prefix at_ limit : result StoreError (Listing Values) :=
  _ ← assertRetained (m_capabilities s) at_ (m_tip s);
  m_scan s entity prefix limit (covers at_).

(** ** Reverting *)
Definition revertRows (keepUpTo : Z) (rows : list (string * Row)) : list (string * Row) :=
  jm_omap (fun _ row =>
    match revertVersions keepUpTo (row_versions row) with
    | [] => None
    | kept => Some (mkRow (row_entity row) (row_id row) kept)
    end) rows.

Definition m_revertTo (s : MemoryStateStore) (keepUpTo : Z) : MemoryStateStore :=
  let gone := filter (fun p => keepUpTo < p.1) (m_blocks s) in
  let blocks := filter (fun p => ~ keepUpTo < p.1) (m_blocks s) in
  mkMemory (m_entities s) (revertRows keepUpTo (m_rows s)) blocks
    (foldl (fun hashes p => jm_delete hashes (bp_hash p.2)) (m_hashes s) gone)
    (m_cursors s) (m_records s) (m_provided s) (m_finalityDepth s) (tipOf blocks).

(** ** Pruning

    A version object is its row's key and its position. *)
Definition candidates (floor : Z) (rows : list (string * Row)) : list (Z * (string * nat)) :=
  concat ((fun '(key, row) =>
    concat (imap (fun i v => match v_upper v with
      | Some u => if decide (u <= floor) then [(u, (key, i))] else []
      | None => []
      end) (row_versions row))) <$> rows).

Fixpoint dropDoomed (doomed : gset (string * nat)) (key : string) (i : nat) (versions : list Version)
    : list Version :=
  match versions with
  | [] => []
  | v :: rest =>
      if decide ((key, i) ∈ doomed) then dropDoomed doomed key (S i) rest
      else v :: dropDoomed doomed key (S i) rest
  end.

Definition pruneRows (doomed : gset (string * nat)) (rows : list (string * Row)) : list (string * Row) :=
  jm_omap (fun key row =>
    let kept := dropDoomed doomed key 0 (row_versions row) in
    if decide (length kept = length (row_versions row)) then Some row
    else match kept with [] => None | _ => Some (mkRow (row_entity row) (row_id row) kept) end) rows.

Definition m_prune (s : MemoryStateStore) (maxVersions : option Z)
    : result StoreError (MemoryStateStore * PruneReport) :=
  let floor := m_tip s ≫= fun tip => retentionFloor (m_provided s) tip (m_finalityDepth s) in
  budget ← pruneBudget maxVersions;
  match floor with
  | None => Ok (s, mkReport (m_tip s) None 0 true)
  | Some floor =>
      let unreachable := sort_on fst (candidates floor (m_rows s)) in
      let chosen := match budget with Some n => take n unreachable | None => unreachable end in
      let doomed : gset (string * nat) := list_to_set chosen.*2 in
      let s' := mkMemory (m_entities s) (pruneRows doomed (m_rows s)) (m_blocks s) (m_hashes s)
        (m_cursors s) (jm_set (m_records s) "retentionEnforcement" (PruneRecord floor))
        (m_provided s) (m_finalityDepth s) (m_tip s) in
      Ok (s', mkReport (m_tip s) (Some floor) (size doomed)
                (bool_decide (size doomed = length unreachable)))
  end.

Definition m_readRetentionEnforcement (s : MemoryStateStore) : RetentionEnforcement :=
  retentionEnforcementOf (m_provided s) (m_finalityDepth s) (m_tip s)
    (match jm_get (m_records s) "retentionEnforcement" with Some (PruneRecord floor) => Some floor | _ => None end).

(** ** The store is a state store *)
#[export] Instance memory_store : StateStore MemoryStateStore := {
  declarations := m_entities;
  applyBlock := m_applyBlock;
  revertTo s n := Ok (m_revertTo s n);
  getCurrent := m_getCurrent;
  readCursor := m_readCursor;
  writeCursor := m_writeCursor;
  clearCursor := m_clearCursor
}.

(** ** The store holds its history *)
Definition versions_at (rows : list (string * Row)) (key : string) : list Version :=
  default [] (row_versions <$> jm_get rows key).

Definition stored_ops (key : string) (h : history) : list (Z * option Values) :=
  prod_map id pl_stored_row <$> ops key h.

Record memory_repr (floor : Z) (s : MemoryStateStore) (h : history) : Prop := {
  mr_entities : entities_wf (m_entities s);
  mr_history : history_wf (m_entities s) h;
  mr_versions key :
    reachable floor (versions_at (m_rows s) key) = reachable floor (versions_of (stored_ops key h));
  mr_rows : jm_wf (m_rows s);
  mr_blocks : m_blocks s = (fun b => (hb_number b, hb_block b)) <$> h;
  mr_hashes : m_hashes s = (fun b => (hb_hash b, hb_number b)) <$> h;
  mr_tip : m_tip s = hb_number <$> last h;
  mr_lowers key : Forall (fun n => n ∈ hb_number <$> h) (v_lower <$> versions_at (m_rows s) key)
}.

Lemma applyPlanned_versions n rows p key :
  versions_at (applyPlanned n rows p) key =
    if decide (pl_key p = key) then applyVersion (versions_at rows key) (n, pl_stored_row p)
    else versions_at rows key.
Proof.
  unfold versions_at, applyPlanned. rewrite jm_get_set. case_decide as Hk; [|done].
  subst key. csimpl. by destruct (jm_get rows (pl_key p)).
Qed.

Lemma foldl_applyPlanned_versions n rows planned key :
  versions_at (foldl (applyPlanned n) rows planned) key
  = foldl applyVersion (versions_at rows key)
      ((fun p => (n, pl_stored_row p)) <$> filter (fun p => pl_key p = key) planned).
Proof.
  revert rows. induction planned as [|p planned IH]; intros rows; [done|]. cbn [foldl].
  rewrite IH, applyPlanned_versions, filter_cons. by case_decide.
Qed.

Lemma foldl_applyPlanned_wf n rows planned : jm_wf rows -> jm_wf (foldl (applyPlanned n) rows planned).
Proof.
  revert rows. induction planned as [|p planned IH]; intros rows Hwf; [done|].
  apply IH. by apply jm_wf_set.
Qed.

Lemma reachable_foldl floor vs ws l :
  reachable floor vs = reachable floor ws ->
  reachable floor (foldl applyVersion vs l) = reachable floor (foldl applyVersion ws l).
Proof.
  revert vs ws. induction l as [|op l IH]; intros vs ws Heq; [done|].
  cbn [foldl]. apply IH. by apply reachable_apply.
Qed.

Lemma stored_ops_app key h h' : stored_ops key (h ++ h') = stored_ops key h ++ stored_ops key h'.
Proof. unfold stored_ops. by rewrite ops_app, fmap_app. Qed.

Lemma stored_ops_block key b :
  stored_ops key [b] = (fun p => (hb_number b, pl_stored_row p)) <$> filter (fun p => pl_key p = key) (hb_planned b).
Proof.
  unfold stored_ops, ops, block_ops. csimpl. rewrite app_nil_r, <- list_fmap_compose. done.
Qed.

Lemma stored_ops_upto key n h :
  stored_ops key (history_upto n h) = filter (fun op => op.1 <= n) (stored_ops key h).
Proof.
  unfold stored_ops. rewrite ops_upto. induction (ops key h) as [|[m p] l IH]; [done|].
  rewrite filter_cons. csimpl. rewrite filter_cons. simpl. case_decide; csimpl; by rewrite IH.
Qed.

Lemma stored_ops_ascending entities key h : history_wf entities h -> ascending_weak fst (stored_ops key h).
Proof.
  intros [Ha _ _]. pose proof (ops_weakly_ascending key h Ha) as Hs. unfold stored_ops.
  induction Hs as [|p l Hl IH Hp]; csimpl; constructor; [done|].
  apply Forall_fmap. eapply Forall_impl; [exact Hp|]. done.
Qed.

Definition rows_after (rows : list (string * Row)) (b : HistoryBlock) : list (string * Row) :=
  foldl (applyPlanned (hb_number b)) rows (hb_planned b).

(** What [applyBlock] answers on a store that holds [h]. *)
Lemma m_applyBlock_spec floor s h block mutations cursor s' :
  memory_repr floor s h ->
  m_applyBlock s block mutations cursor = Ok s' <->
  exists b, admits (m_entities s) h block mutations b
    /\ s' = mkMemory (m_entities s) (rows_after (m_rows s) b) (m_blocks s ++ [(hb_number b, hb_block b)])
              (m_hashes s ++ [(hb_hash b, hb_number b)])
              (match cursor with Some (key, value) => jm_set (m_cursors s) key value | None => m_cursors s end)
              (m_records s) (m_provided s) (m_finalityDepth s) (Some (hb_number b)).
Proof.
  intros [He [Ha Hh Hp] Hv Hr Hb Hhs Ht _]. unfold m_applyBlock. rewrite Hb, Hhs, Ht.
  pose proof (above_tip h (bp_number block) Ha) as Htip. split.
  - intros (hash & Hn & ([] & Hnum & ([] & Hhash & ([] & Hcheck & Hrest)%bind_Ok)%bind_Ok)%bind_Ok)%bind_Ok.
    apply assert_or_Ok in Hnum, Hhash. apply Htip in Hcheck.
    apply bind_Ok in Hrest as (planned & Hplan & [= <-]).
    rewrite negb_true_iff, jm_has_pairs, bool_decide_eq_false in Hnum.
    rewrite negb_true_iff, jm_has_pairs, bool_decide_eq_false in Hhash.
    eexists. split; [exists hash, planned; by split_and!|]. f_equal.
    + apply jm_set_new. by rewrite <- list_fmap_compose.
    + apply jm_set_new. by rewrite <- list_fmap_compose.
    + by apply tip_advances.
  - intros (b & (hash & planned & Hn & Hnew & Hlow & Hplan & ->) & ->).
    assert (bp_number block ∉ hb_number <$> h) as Hnum.
    { intros (b' & Heq & Hb')%list_elem_of_fmap. rewrite Forall_forall in Hlow. specialize (Hlow b' Hb'). lia. }
    rewrite Hn. cbn [mbind result_bind].
    rewrite !jm_has_pairs, !bool_decide_false by done. cbn [negb assert_or mbind result_bind].
    rewrite (proj2 Htip Hlow). cbn [mbind result_bind]. rewrite Hplan. cbn [mbind result_bind].
    rewrite (tip_advances h _ Hlow).
    rewrite (jm_set_new (_ <$> h)), (jm_set_new (_ <$> h)) by (by rewrite <- list_fmap_compose). done.
Qed.

Lemma memory_repr_apply floor s h block mutations cursor b records :
  memory_repr floor s h -> admits (m_entities s) h block mutations b ->
  memory_repr floor
    (mkMemory (m_entities s) (rows_after (m_rows s) b) (m_blocks s ++ [(hb_number b, hb_block b)])
       (m_hashes s ++ [(hb_hash b, hb_number b)]) cursor records (m_provided s) (m_finalityDepth s)
       (Some (hb_number b))) (h ++ [b]).
Proof.
  intros [He Hw Hv Hr Hb Hhs Ht Hlo] Had. split; simpl; try done.
  - by eapply history_wf_snoc.
  - intros key. unfold rows_after. rewrite foldl_applyPlanned_versions, stored_ops_app, stored_ops_block.
    unfold versions_of. rewrite foldl_app. by apply reachable_foldl.
  - by apply foldl_applyPlanned_wf.
  - by rewrite Hb, fmap_app.
  - by rewrite Hhs, fmap_app.
  - by rewrite last_snoc.
  - intros key. unfold rows_after. rewrite foldl_applyPlanned_versions.
    apply foldl_applyVersion_lowers.
    + eapply Forall_impl; [apply Hlo|]. intros n Hn. rewrite fmap_app. apply elem_of_app. by left.
    + apply Forall_fmap, Forall_forall. intros p _. simpl. rewrite fmap_app. apply elem_of_app. right.
      apply list_elem_of_here.
Qed.

Lemma revertRows_versions keep rows key :
  jm_wf rows -> versions_at (revertRows keep rows) key = revertVersions keep (versions_at rows key).
Proof.
  intros Hwf. unfold versions_at, revertRows. rewrite jm_get_omap by done.
  destruct (jm_get rows key) as [row|]; [|done]. simpl. by destruct (revertVersions keep (row_versions row)).
Qed.

Lemma memory_revert_blocks floor s h keep :
  memory_repr floor s h ->
  m_blocks (m_revertTo s keep) = (fun b => (hb_number b, hb_block b)) <$> history_upto keep h
  /\ m_hashes (m_revertTo s keep) = (fun b => (hb_hash b, hb_number b)) <$> history_upto keep h
  /\ m_tip (m_revertTo s keep) = hb_number <$> last (history_upto keep h).
Proof.
  intros [He Hw Hv Hr Hb Hhs Ht Hlo]. unfold m_revertTo.
  assert (filter (fun p => ~ keep < p.1) (m_blocks s) = (fun b => (hb_number b, hb_block b)) <$> history_upto keep h) as Hblocks.
  { rewrite Hb. unfold history_upto. apply filter_pairs. intros b _. simpl. lia. }
  simpl. split_and!; [done| |].
  - rewrite Hb, Hhs. rewrite (filter_pairs (fun b => keep < hb_number b) (fun p : Z * BlockPointer => keep < p.1)) by done.
    assert (forall l (m : list (string * Z)), foldl (fun hashes (p : Z * BlockPointer) => jm_delete hashes (bp_hash p.2)) m l
      = foldl jm_delete m ((fun p => bp_hash p.2) <$> l)) as Hfold.
    { induction l as [|p l IH]; intros m; [done|]. csimpl. apply IH. }
    rewrite Hfold, jm_delete_fold, <- list_fmap_compose. apply filter_pairs.
    intros b Hin. simpl. rewrite list_elem_of_fmap. split.
    + intros Hnot. destruct (decide (hb_number b <= keep)); [done|]. destruct Hnot.
      exists b. split; [done|]. apply elem_of_filter_intro; [lia|done].
    + intros Hn (b' & Heq & [Hb' Hin']%list_elem_of_filter).
      assert (b = b') as <-; [|lia].
      by apply (NoDup_fmap_inj_on hb_hash h); [apply (history_hashes _ _ Hw)|..].
  - rewrite Hblocks. apply tipOf_ascending. eapply ascending_sublist; [apply sublist_filter|apply (history_ascending _ _ Hw)].
Qed.

Lemma memory_repr_revert floor s h keep :
  memory_repr floor s h -> floor <= keep -> memory_repr floor (m_revertTo s keep) (history_upto keep h).
Proof.
  intros Hrepr Hle. destruct (memory_revert_blocks floor s h keep Hrepr) as (Hblocks & Hhashes & Htip).
  destruct Hrepr as [He Hw Hv Hr Hb Hhs Ht Hlo]. split; try done.
  - by apply history_wf_upto.
  - intros key. simpl. rewrite revertRows_versions, stored_ops_upto by done.
    rewrite <- revert_versions_of by (by eapply stored_ops_ascending). by apply reachable_revert.
  - by apply jm_wf_omap.
  - intros key. simpl. rewrite revertRows_versions by done.
    eapply Forall_impl; [apply revertVersions_lowers, Hlo|]. intros n [(b & -> & Hin)%list_elem_of_fmap Hn].
    apply list_elem_of_fmap_2. by apply elem_of_filter_intro.
Qed.

(** ** Reads *)
(** Decoding an answer: whatever columns ride along, the declared ones are the values the
    upsert was given. *)
Lemma decode_declared e id values stored (columns : Values) :
  NoDup (entity_fields e).*1 -> encodeFieldValues e values = Ok stored ->
  (forall c, c ∈ declared_columns e -> columns !! c = wholeRow e id stored !! c) ->
  exists answer, decodeFieldValues e columns = Ok answer /\ same_row e answer (wholeRow e id values).
Proof.
  intros Hnd Henc Hans. pose proof (row_roundtrip e id values stored Hnd Henc) as Hround.
  assert (forall f d, (f, d) ∈ entity_fields e -> f ∈ declared_columns e) as Hfield.
  { intros f d Hin. apply elem_of_app. right. by apply (list_elem_of_fmap_2 fst _ (f, d)). }
  unfold decodeFieldValues in *.
  destruct (semanticLoop_total u256_decode (NotCanonical (entity_name e)) (entity_fields e) columns columns) as [answer Hanswer].
  { intros f d Hin. rewrite Hans by eauto.
    by rewrite (semanticLoop_field _ _ _ _ _ _ f d Hnd (fun _ _ => eq_refl) Hround Hin). }
  exists answer. split; [done|]. intros c Hc.
  destruct (decide (c ∈ (entity_fields e).*1)) as [Hf|Hf].
  - apply list_elem_of_fmap in Hf as ([f d] & -> & Hin). simpl in *.
    pose proof (semanticLoop_field _ _ _ _ _ _ f d Hnd (fun _ _ => eq_refl) Hround Hin) as Hr.
    pose proof (semanticLoop_field _ _ _ _ _ _ f d Hnd (fun _ _ => eq_refl) Hanswer Hin) as Ha.
    rewrite Hans in Ha by done. congruence.
  - rewrite (semanticLoop_other _ _ _ _ _ _ _ Hanswer Hf), Hans by done.
    by rewrite !wholeRow_lookup, !decide_False.
Qed.

(** What a store stored for the last of the operations [l], decoded, is the row they leave. *)
Lemma found_answers entities h entity e id key l (found : option Values) (answer : result StoreError (option Values)) :
  entities_wf entities -> history_wf entities h -> jm_get entities entity = Some e -> entityKey e id = Ok key ->
  l `sublist_of` ops key h -> found = op_outcome (prod_map Datatypes.id pl_stored_row <$> l) ->
  (found = None -> answer = Ok None) ->
  (forall row, found = Some row -> exists columns, answer = Some <$> decodeFieldValues e columns
    /\ forall c, c ∈ declared_columns e -> columns !! c = row !! c) ->
  answers e (outcome l) answer.
Proof.
  intros Hew [_ _ Hplanned] He Hkey Hl Hfound Hnone Hsome.
  unfold op_outcome in Hfound. rewrite fmap_last in Hfound. unfold outcome.
  destruct (last l) as [[n p]|] eqn:Hlast; simpl in *; [|by apply Hnone].
  destruct (elem_of_ops key h (n, p)) as (Hpk & b & Hb & Hp).
  { eapply elem_of_sublist; [|exact Hl]. by apply last_Some_elem_of. }
  rewrite Forall_forall in Hplanned. specialize (Hplanned b Hb). rewrite Forall_forall in Hplanned.
  destruct (Hplanned p Hp) as [m Hm]. apply plan_spec in Hm as (Hem & Hkm & Hval). simpl in Hpk.
  assert (pl_entity p = e) as Hpe.
  { rewrite Hpk in Hkm. by eapply entity_of_key. }
  unfold pl_row, pl_stored_row in *. destruct (pl_values p) as [values|]; simpl in *.
  - destruct Hval as (stored & Henc & Hst). rewrite Hst in Hfound. destruct (Hsome _ Hfound) as (columns & -> & Hcols).
    rewrite Hpe in *. destruct (decode_declared e (pl_id p) values stored columns) as (a & Ha & Hsame); [by eapply entities_fields|done|done|].
    exists a. by rewrite Ha.
  - rewrite Hval in Hfound. by apply Hnone.
Qed.

(** A read whose predicate finds the last of the operations [l] answers the row they leave. *)
Lemma m_read_answers floor s h entity e id key (f : Version -> bool) l :
  memory_repr floor s h -> jm_get (m_entities s) entity = Some e -> entityKey e id = Ok key ->
  l `sublist_of` ops key h ->
  v_values <$> find f (versions_at (m_rows s) key) = op_outcome (prod_map Datatypes.id pl_stored_row <$> l) ->
  answers e (outcome l) (m_read s entity id f).
Proof.
  intros [Hew Hw _ _ _ _ _ _] He Hkey Hl Hfind. unfold m_read, mustGet. rewrite He.
  cbn [mbind result_bind]. rewrite Hkey. cbn [mbind result_bind].
  assert (jm_get (m_rows s) key ≫= (fun row => find f (row_versions row)) = find f (versions_at (m_rows s) key)) as ->.
  { unfold versions_at. by destruct (jm_get (m_rows s) key). }
  apply (found_answers _ _ _ _ _ _ _ _ _ Hew Hw He Hkey Hl Hfind); destruct (find f (versions_at (m_rows s) key)) as [v|]; try done.
  intros row [= <-]. exists (answered v). split; [done|]. intros c Hc. destruct (entities_columns _ Hew _ _ c He Hc) as [Hlo Hup].
  unfold answered. by rewrite !lookup_insert_ne.
Qed.

Lemma m_getCurrent_answers floor s h entity e id key :
  memory_repr floor s h -> jm_get (m_entities s) entity = Some e -> entityKey e id = Ok key ->
  answers e (current h key) (m_getCurrent s entity id).
Proof.
  intros Hr He Hkey. eapply m_read_answers; try done.
  rewrite (find_live_reachable floor _ _ (mr_versions _ _ _ Hr key)). apply find_live.
Qed.

(** A historical read at or above the prune floor answers the row the last
    operation at or below the requested height left. *)
Lemma m_read_as_of floor s h entity e id key at_ :
  memory_repr floor s h -> jm_get (m_entities s) entity = Some e -> entityKey e id = Ok key ->
  floor <= at_ -> answers e (as_of h at_ key) (m_read s entity id (covers at_)).
Proof.
  intros Hr He Hkey Hle. eapply m_read_answers; try done; [apply sublist_filter|].
  rewrite (find_covers_reachable floor at_ _ _ Hle (mr_versions _ _ _ Hr key)), find_covers.
  - rewrite <- ops_upto. by rewrite <- stored_ops_upto.
  - eapply stored_ops_ascending, mr_history, Hr.
Qed.

(** ** Pruning keeps every answer above its floor *)
Lemma elem_of_candidates floor rows u key i :
  (u, (key, i)) ∈ candidates floor rows <->
  exists row v, (key, row) ∈ rows /\ row_versions row !! i = Some v /\ v_upper v = Some u /\ u <= floor.
Proof.
  unfold candidates. rewrite elem_of_concat. split.
  - intros (l & Hin & ([k row] & -> & Hrow)%list_elem_of_fmap).
    apply elem_of_concat in Hin as (l' & Hin & Hl'). apply elem_of_lookup_imap in Hl' as (j & v & -> & Hv).
    destruct (v_upper v) as [u'|] eqn:Hu; [case_decide|]; try (by apply not_elem_of_nil in Hin).
    apply list_elem_of_singleton in Hin as [= -> -> ->]. by exists row, v.
  - intros (row & v & Hrow & Hv & Hu & Hle). eexists. split.
    2:{ apply (list_elem_of_fmap_2 _ rows (key, row)), Hrow. }
    simpl. apply elem_of_concat. exists [(u, (key, i))]. split; [left|].
    apply elem_of_lookup_imap. exists i, v. split; [|done]. by rewrite Hu, decide_True.
Qed.

Lemma dropDoomed_reachable floor doomed key k (versions : list Version) :
  (forall i v, versions !! i = Some v -> (key, (k + i)%nat) ∈ doomed -> unreachable floor v = true) ->
  reachable floor (dropDoomed doomed key k versions) = reachable floor versions.
Proof.
  revert k. induction versions as [|v vs IH]; intros k Hk; [done|]. cbn [dropDoomed].
  assert (reachable floor (dropDoomed doomed key (S k) vs) = reachable floor vs) as Hrec.
  { apply IH. intros i w Hw Hin. apply (Hk (S i) w); [done|].
    by replace (k + S i)%nat with (S k + i)%nat by lia. }
  rewrite (reachable_cons _ v). case_decide as Hin.
  - by rewrite Hrec, (Hk 0%nat v) by (rewrite ?Nat.add_0_r; done).
  - by rewrite reachable_cons, Hrec.
Qed.

Lemma pruneRows_versions floor doomed rows key :
  jm_wf rows ->
  (forall row i v, (key, row) ∈ rows -> row_versions row !! i = Some v -> (key, i) ∈ doomed ->
     unreachable floor v = true) ->
  reachable floor (versions_at (pruneRows doomed rows) key) = reachable floor (versions_at rows key).
Proof.
  intros Hwf Hd. unfold versions_at, pruneRows. rewrite jm_get_omap by done.
  destruct (jm_get rows key) as [row|] eqn:Hrow; [|done]. apply jm_get_Some in Hrow; [|done]. simpl.
  case_decide; [done|]. rewrite <- (dropDoomed_reachable floor doomed key 0 (row_versions row)).
  - by destruct (dropDoomed doomed key 0 (row_versions row)).
  - intros i v. by apply Hd.
Qed.

Lemma dropDoomed_sublist doomed key k versions : dropDoomed doomed key k versions `sublist_of` versions.
Proof.
  revert k. induction versions as [|v vs IH]; intros k; [done|]. cbn [dropDoomed].
  case_decide; [by apply sublist_cons|by apply sublist_skip].
Qed.

Lemma pruneRows_sublist doomed rows key :
  jm_wf rows -> versions_at (pruneRows doomed rows) key `sublist_of` versions_at rows key.
Proof.
  intros Hwf. unfold versions_at, pruneRows. rewrite jm_get_omap by done.
  destruct (jm_get rows key) as [row|]; [|done]. simpl. case_decide; [done|].
  pose proof (dropDoomed_sublist doomed key 0 (row_versions row)) as Hs.
  destruct (dropDoomed doomed key 0 (row_versions row)); [apply sublist_nil_l|done].
Qed.

Lemma memory_repr_prune floor s h budget s' report :
  memory_repr floor s h -> m_prune s budget = Ok (s', report) ->
  memory_repr (Z.max floor (default floor (report_floor report))) s' h
  /\ m_cursors s' = m_cursors s /\ m_entities s' = m_entities s.
Proof.
  intros Hr. unfold m_prune. intros (b & Hb & Hrest)%bind_Ok.
  destruct (m_tip s ≫= _) as [fl|] eqn:Hfl.
  2:{ injection Hrest as <- <-. simpl. by rewrite Z.max_id. }
  injection Hrest as <- <-. simpl. split_and!; [|done..].
  destruct Hr as [He Hw Hv Hrows Hbl Hhs Ht Hlo]. split; simpl; try done.
  - intros key. rewrite pruneRows_versions; [|done|].
    + by apply (reachable_weaken floor); [lia|].
    + intros row i v Hrow Hi Hin. apply elem_of_list_to_set in Hin.
      apply list_elem_of_fmap in Hin as ([u [k j]] & [= <- <-] & Hin).
      assert ((u, (key, i)) ∈ candidates fl (m_rows s)) as Hc.
      { apply (elem_of_sort_on fst). destruct b; [|done].
        eapply elem_of_sublist; [exact Hin|]. apply sublist_take. }
      apply elem_of_candidates in Hc as (row' & v' & Hrow' & Hv' & Hu & Hle).
      assert (row' = row) as -> by (apply jm_get_Some in Hrow, Hrow'; congruence).
      rewrite Hi in Hv'. injection Hv' as <-. unfold unreachable. rewrite Hu.
      apply bool_decide_eq_true. lia.
  - by apply jm_wf_omap.
  - intros key. apply Forall_forall. intros n Hn. specialize (Hlo key). rewrite Forall_forall in Hlo.
    apply Hlo. eapply elem_of_sublist; [exact Hn|]. apply sublist_fmap. by apply pruneRows_sublist.
Qed.

(** Reverting below every block empties the store, whatever it pruned before. *)
Lemma memory_repr_wipe floor s h :
  memory_repr floor s h -> Forall (fun b => 0 <= hb_number b) h -> memory_repr (-1) (m_revertTo s (-1)) [].
Proof.
  intros Hr Hpos. pose proof Hr as [He Hw _ Hrows _ _ _ Hlo].
  assert (history_upto (-1) h = []) as Hnil.
  { apply filter_Forall_nil. eapply Forall_impl; [exact Hpos|]. simpl. lia. }
  assert (forall key, versions_at (m_rows (m_revertTo s (-1))) key = []) as Hempty.
  { intros key. simpl. rewrite revertRows_versions by done.
    pose proof (revertVersions_lowers _ (-1) _ (Hlo key)) as Hall.
    destruct (revertVersions (-1) (versions_at (m_rows s) key)) as [|v vs]; [done|]. csimpl in Hall.
    apply Forall_cons in Hall as [[(b & -> & Hb)%list_elem_of_fmap Hneg] _].
    rewrite Forall_forall in Hpos. specialize (Hpos b Hb). lia. }
  destruct (memory_revert_blocks floor s h (-1) Hr) as (Hb & Hh & Ht). rewrite Hnil in *. split; try done.
  - split; [constructor|constructor|constructor].
  - intros key. by rewrite Hempty.
  - by apply jm_wf_omap.
  - intros key. rewrite Hempty. constructor.
Qed.

(** ** The laws *)
Lemma with_cursors_repr floor s h cursors : memory_repr floor s h -> memory_repr floor (with_cursors s cursors) h.
Proof. by intros []. Qed.

#[export] Program Instance memory_store_laws : StateStoreLaws MemoryStateStore := {
  repr := memory_repr
}.
Next Obligation. intros floor s h Hr. split; apply Hr. Qed.
Next Obligation.
  intros floor s h block mutations cursor Hr. split.
  - intros b Had. eexists. split_and!.
    + apply (m_applyBlock_spec _ _ _ _ _ _ _ Hr). by exists b.
    + by eapply memory_repr_apply.
    + done.
    + intros key. unfold readCursor. simpl. unfold m_readCursor. simpl. unfold cursor_after.
      destruct cursor as [[k v]|]; [|done]. apply jm_get_set.
  - intros s' (b & Had & _)%(m_applyBlock_spec _ _ _ _ _ _ _ Hr). by exists b.
Qed.
Next Obligation.
  intros floor s h n Hr Hle _. eexists. split_and!; [done|by apply memory_repr_revert|done..].
Qed.
Next Obligation.
  intros floor s h entity id e key Hr He Hkey. by apply (m_getCurrent_answers floor s h entity e id key).
Qed.
Next Obligation.
  intros floor s h key value Hr. split_and!; [by apply with_cursors_repr|done|].
  intros key'. unfold readCursor, writeCursor, cursor_after. simpl. apply jm_get_set.
Qed.
Next Obligation.
  intros floor s h Hr Hpos. eexists. split_and!; [done|by eapply memory_repr_wipe|done..].
Qed.
Next Obligation.
  intros floor s h key Hr. split_and!; [by apply with_cursors_repr|done|].
  unfold readCursor, clearCursor. simpl. apply jm_get_None. unfold jm_delete.
  intros ([k v] & Hk & [Hne _]%list_elem_of_filter)%list_elem_of_fmap. by subst.
Qed.

(** ** Every run of the store

    [memory_run s h floor]: the store [s] came out of the constructor by some
    sequence of calls, [h] is the history those calls recorded and [floor] the
    highest block a prune ran at.  A revert may not reach below it. *)
Inductive memory_run (entities : entities_map) : MemoryStateStore -> history -> Z -> Prop :=
  | run_new setting depth s :
      newMemoryStore entities setting depth = Ok s -> memory_run entities s [] (-1)
  | run_apply s h floor block mutations cursor b s' :
      memory_run entities s h floor ->
      m_applyBlock s block mutations cursor = Ok s' -> admits entities h block mutations b ->
      memory_run entities s' (h ++ [b]) floor
  | run_revert s h floor n :
      memory_run entities s h floor -> floor <= n ->
      memory_run entities (m_revertTo s n) (history_upto n h) floor
  | run_prune s h floor budget s' report :
      memory_run entities s h floor -> m_prune s budget = Ok (s', report) ->
      memory_run entities s' h (Z.max floor (default floor (report_floor report)))
  | run_cursor s h floor cursors :
      memory_run entities s h floor -> memory_run entities (with_cursors s cursors) h floor.

Lemma memory_run_repr entities s h floor :
  entities_wf entities -> memory_run entities s h floor -> m_entities s = entities /\ memory_repr floor s h.
Proof.
  intros Hew. induction 1 as [setting depth s Hnew|s h floor block mutations cursor b s' Hrun IH Happ Had
    |s h floor n Hrun IH Hle|s h floor budget s' report Hrun IH Hprune|s h floor cursors Hrun IH].
  - unfold newMemoryStore in Hnew. apply bind_Ok in Hnew as (provided & _ & [= <-]). split; [done|].
    split; try done; [split; repeat constructor|constructor].
  - destruct IH as [He Hr]. apply (m_applyBlock_spec _ _ _ _ _ _ _ Hr) in Happ as (b' & Had' & ->).
    rewrite <- He in Had. rewrite (admits_unique _ _ _ _ _ _ Had' Had) in *.
    split; [done|]. by apply (memory_repr_apply _ _ _ block mutations).
  - destruct IH as [He Hr]. split; [done|]. by apply memory_repr_revert.
  - destruct IH as [He Hr]. destruct (memory_repr_prune _ _ _ _ _ _ Hr Hprune) as (Hr' & _ & He').
    split; [congruence|done].
  - destruct IH as [He Hr]. split; [done|]. by apply with_cursors_repr.
Qed.

(** C12. Whatever sequence of applies, prunes, cursor moves and reverts to a block no prune has
    passed the store has been through, it answers as its history does: a block is recorded
    exactly when it is above every recorded one under a hash not seen and its mutations
    resolve, a current read answers the last surviving write, and a read as of a
    block no prune has passed answers the last write at or below that block, or
    the seam's refusal. *)
Theorem memory_run_refines (entities : entities_map) (s : MemoryStateStore) (h : history) (floor : Z) :
  entities_wf entities -> memory_run entities s h floor ->
  (forall block mutations cursor,
     is_Ok (m_applyBlock s block mutations cursor) <-> exists b, admits entities h block mutations b)
  /\ (forall entity e id key, jm_get entities entity = Some e -> entityKey e id = Ok key ->
        answers e (current h key) (m_getCurrent s entity id))
  /\ (forall entity e id key at_, jm_get entities entity = Some e -> entityKey e id = Ok key -> floor <= at_ ->
        match assertRetained (m_capabilities s) at_ (m_tip s) with
        | Ok _ => answers e (as_of h at_ key) (m_getAsOf s entity id at_)
        | Err error => m_getAsOf s entity id at_ = Err error
        end).
Proof.
  intros Hew Hrun. destruct (memory_run_repr _ _ _ _ Hew Hrun) as [<- Hr]. split_and!.
  - intros block mutations cursor. split.
    + destruct (m_applyBlock s block mutations cursor) as [s'|] eqn:Happ; [|done].
      intros _. apply (m_applyBlock_spec _ _ _ _ _ _ _ Hr) in Happ as (b & Had & _). by exists b.
    + intros [b Had]. eassert (m_applyBlock s block mutations cursor = Ok _) as ->; [|done].
      apply (m_applyBlock_spec _ _ _ _ _ _ _ Hr). by exists b.
  - intros. by eapply m_getCurrent_answers.
  - intros entity e id key at_ He Hkey Hle. unfold m_getAsOf.
    destruct (assertRetained _ _ _); [|done]. by eapply m_read_as_of.
Qed.

(** ** The theorem at work *)
Definition sample_entities : entities_map := [("Item", sample_entity)].

Lemma sample_entities_wf : entities_wf sample_entities.
Proof.
  assert (forall name e, jm_get sample_entities name = Some e -> name = "Item" /\ e = sample_entity) as Hone.
  { intros name e. unfold sample_entities. cbn [jm_get]. case_decide as Hn; [|done]. by intros [= <-]. }
  split; intros name e; [intros Hg|intros Hg|intros Hg|intros c Hg]; destruct (Hone _ _ Hg) as [-> ->].
  - done.
  - apply (bool_decide_unpack _). by vm_compute.
  - apply (bool_decide_unpack _). by vm_compute.
  - intros Hc. repeat (apply elem_of_cons in Hc as [->|Hc]; [done|]). by apply not_elem_of_nil in Hc.
Qed.

Definition sample_pointer (n : Z) (h : string) : BlockPointer := mkPointer n h (1000 + n).

Definition sample_upsert (n amount : Z) : Mutation := Upsert "Item" (sample_id n) {["amount" := VBigInt amount]}.

Lemma memory_run_refines_witness :
  exists s h, memory_run sample_entities s h (-1)
    /\ jm_get sample_entities "Item" = Some sample_entity
    /\ answers sample_entity (current h ("Item" +:+ String SEPARATOR "7")) (m_getCurrent s "Item" (sample_id 7))
    /\ is_Some (current h ("Item" +:+ String SEPARATOR "7")).
Proof.
  destruct (newMemoryStore sample_entities None None) as [s0|e] eqn:H0; [|by vm_compute in H0].
  destruct (mapR (plan sample_entities) [sample_upsert 7 500]) as [planned|e] eqn:Hplan; [|by vm_compute in Hplan].
  set (b := mkHistoryBlock (sample_pointer 1 "0xa1") planned).
  assert (memory_run sample_entities s0 [] (-1)) as Hrun0 by (by eapply run_new).
  assert (admits sample_entities [] (sample_pointer 1 "0xa1") [sample_upsert 7 500] b) as Had.
  { exists "0xa1", planned. split_and!; try done. apply not_elem_of_nil. }
  destruct (m_applyBlock s0 (sample_pointer 1 "0xa1") [sample_upsert 7 500] None) as [s1|e] eqn:Happ.
  2:{ vm_compute in H0. injection H0 as <-. by vm_compute in Happ. }
  exists s1, ([] ++ [b]).
  assert (memory_run sample_entities s1 ([] ++ [b]) (-1)) as Hrun by (by eapply run_apply).
  split; [exact Hrun|]. split; [done|]. split.
  - destruct (memory_run_refines sample_entities s1 ([] ++ [b]) (-1) sample_entities_wf Hrun) as (_ & Hread & _).
    apply Hread; [done|by vm_compute].
  - vm_compute in Hplan. injection Hplan as <-. evaluate.
Defined.
