(* ===== verification/PatchStore.v ===== *)
(** * The light store: current rows, and the patches that undo each block

    [PatchStateStore] of [packages/state-store-patch/src/store.ts].  The state is
    a plain object the code hands to immer: [produceWithPatches] answers the next
    state and the patches that take it back, [applyPatches] replays patches.  Both
    are parameters here, with immer's documented contract as the laws a theorem
    may use.  The state is a plain object of plain objects, a finite map of finite
    maps of own keys; a key [Object.prototype] has and the rows do not is still read
    and still [in] them ([rowAt], [keyIn]). *)
From S2P Require Import Prelude JsMap Entities Listing Retention StoreSpec.

(** [EntityRows] and [LightState]. *)
Abbreviation EntityRows := (gmap string Values).
Abbreviation LightState := (gmap string (gmap string Values)).

(** ** immer *)
Class Immer : Type := {
  Patch : Type;
  (** The next state, the patches and the inverse patches. *)
  produceWithPatches : LightState -> (LightState -> LightState) -> LightState * list Patch * list Patch;
  applyPatches : LightState -> list Patch -> LightState
}.

(** ** Keys and rows *)
Definition entityValuesKey (entity : NormalizedEntity) (id : EntityId) : result StoreError string :=
  join SEPARATOR <$> idValues entity id.

Definition completeRow (entity : NormalizedEntity) (id : list string) (values : option Values) : Values :=
  wholeRow entity id (default ∅ values).

(** [key.split(SEPARATOR)] *)
Fixpoint split (sep : ascii) (s : string) : list string :=
  match s with
  | EmptyString => [EmptyString]
  | String c s' =>
      if decide (c = sep) then EmptyString :: split sep s'
      else match split sep s' with
           | part :: parts => String c part :: parts
           | [] => [String c EmptyString]
           end
  end.

(** The members a plain object inherits. *)
Definition prototype_members : list string :=
  ["__proto__"; "constructor"; "hasOwnProperty"; "isPrototypeOf"; "propertyIsEnumerable"; "toLocaleString";
   "toString"; "valueOf"; "__defineGetter__"; "__defineSetter__"; "__lookupGetter__"; "__lookupSetter__"].

(** [{...rows[key]}]: an own row, or what spreading an inherited member leaves, which
    has no own enumerable property. *)
Definition rowAt (rows : EntityRows) (key : string) : option Values :=
  match rows !! key with
  | Some row => Some row
  | None => if decide (key ∈ prototype_members) then Some ∅ else None
  end.

(** [key in rows] *)
Definition keyIn (rows : EntityRows) (key : string) : bool :=
  bool_decide (is_Some (rows !! key)) || bool_decide (key ∈ prototype_members).

Definition emptyState (entities : entities_map) : LightState :=
  list_to_map ((fun p => (p.1, ∅)) <$> entities).

(** An id no object inherits a member under. *)
Definition plainKey (entities : entities_map) (entity : string) (id : EntityId) : bool :=
  match jm_get entities entity with
  | None => true
  | Some e =>
      match entityValuesKey e id with
      | Ok key => bool_decide (key ∉ prototype_members)
      | Err _ => true
      end
  end.

(** One turn of the recipe: a delete of an absent key leaves the object alone. *)
Definition applyDraft (draft : LightState) (p : Planned) : LightState :=
  let key := join SEPARATOR (pl_id p) in
  alter (fun rows =>
    match pl_stored p with
    | Some stored => <[key := completeRow (pl_entity p) (pl_id p) (Some stored)]> rows
    | None => if keyIn rows key then delete key rows else rows
    end) (entity_name (pl_entity p)) draft.

(** What immer promises of a recipe that writes own keys only.  It compares a draft
    with its base by reading it, so it keeps no such promise for a key the base
    inherits. *)
Definition plain_planned (p : Planned) : Prop := join SEPARATOR (pl_id p) ∉ prototype_members.

Class ImmerLaws `{Immer} : Prop := {
  produce_next state planned : Forall plain_planned planned ->
    (produceWithPatches state (fun draft => foldl applyDraft draft planned)).1.1 = foldl applyDraft state planned;
  produce_inverse state planned : Forall plain_planned planned ->
    applyPatches (foldl applyDraft state planned)
      (produceWithPatches state (fun draft => foldl applyDraft draft planned)).2 = state
}.

(** ** State *)
Section PatchStore.
Context `{Immer}.

Record PatchStateStore : Type := mkPatch {
  p_entities : entities_map;
  p_finalityDepth : option Z;
  p_blocks : list (Z * BlockPointer);
  p_hashes : list (string * Z);
  p_reversals : list (Z * list Patch);
  p_cursors : list (string * string);
  p_records : list (string * SeamRecord);
  p_state : LightState;
  p_tip : option Z
}.

Definition assertRevertOnly (retention : option RetentionSetting) : result StoreError unit :=
  match retention with
  | None | Some SetRevertOnly => Ok tt
  | Some _ => Err InvalidRetention
  end.

Definition newPatchStore (entities : entities_map) (retention : option RetentionSetting)
    (finalityDepth : option Z) : result StoreError PatchStateStore :=
  _ ← assertRevertOnly retention;
  _ ← assertFinalityDepth finalityDepth;
  Ok (mkPatch entities finalityDepth [] [] [] [] [] (emptyState entities) None).

Definition p_capabilities (s : PatchStateStore) : StateStoreCapabilities := mkCapabilities RevertOnly false false.

(** ** Applying a block *)
Definition p_applyBlock (s : PatchStateStore) (block : BlockPointer) (mutations : list Mutation)
    (cursor : option (string * string)) : result StoreError PatchStateStore :=
  hash ← normalizeBlockHash (bp_hash block);
  _ ← assert_or (negb (jm_has (p_blocks s) (bp_number block))) (BlockAlreadyRecorded (bp_number block));
  _ ← assert_or (negb (jm_has (p_hashes s) hash)) (BlockHashAlreadyRecorded hash);
  _ ← match p_tip s with
    | Some tip => assert_or (bool_decide (tip < bp_number block)) (BlockNotAboveTip (bp_number block) tip)
    | None => Ok tt
    end;
  planned ← mapR (plan (p_entities s)) mutations;
  let '(next, _, reversal) := produceWithPatches (p_state s) (fun draft => foldl applyDraft draft planned) in
  Ok (mkPatch (p_entities s) (p_finalityDepth s)
        (jm_set (p_blocks s) (bp_number block) (mkPointer (bp_number block) hash (bp_timestamp block)))
        (jm_set (p_hashes s) hash (bp_number block))
        (jm_set (p_reversals s) (bp_number block) reversal)
        (match cursor with Some (key, value) => jm_set (p_cursors s) key value | None => p_cursors s end)
        (p_records s) next
        (match p_tip s with
         | Some tip => if decide (tip < bp_number block) then Some (bp_number block) else Some tip
         | None => Some (bp_number block)
         end)).

(** ** Cursors and records *)
Definition p_with_cursors (s : PatchStateStore) (cursors : list (string * string)) : PatchStateStore :=
  mkPatch (p_entities s) (p_finalityDepth s) (p_blocks s) (p_hashes s) (p_reversals s) cursors (p_records s)
    (p_state s) (p_tip s).

Definition p_with_records (s : PatchStateStore) (records : list (string * SeamRecord)) : PatchStateStore :=
  mkPatch (p_entities s) (p_finalityDepth s) (p_blocks s) (p_hashes s) (p_reversals s) (p_cursors s) records
    (p_state s) (p_tip s).

Definition p_readCursor (s : PatchStateStore) (key : string) : option string := jm_get (p_cursors s) key.
Definition p_writeCursor (s : PatchStateStore) (key value : string) : PatchStateStore :=
  p_with_cursors s (jm_set (p_cursors s) key value).
Definition p_clearCursor (s : PatchStateStore) (key : string) : PatchStateStore :=
  p_with_cursors s (jm_delete (p_cursors s) key).
Definition p_readSeamRecord (s : PatchStateStore) (key : string) : option SeamRecord :=
  jm_get (p_records s) key.
Definition p_writeSeamRecord (s : PatchStateStore) (key : string) (value : SeamRecord) : PatchStateStore :=
  p_with_records s (jm_set (p_records s) key value).
Definition p_clearSeamRecord (s : PatchStateStore) (key : string) : PatchStateStore :=
  p_with_records s (jm_delete (p_records s) key).

(** ** Reading *)
Definition bucket (s : PatchStateStore) (entity : NormalizedEntity) : EntityRows :=
  default ∅ (p_state s !! entity_name entity).

Definition p_getCurrent (s : PatchStateStore) (entity : string) (id : EntityId)
    : result StoreError (option Values) :=
  declaration ← mustGet (p_entities s) entity;
  key ← entityValuesKey declaration id;
  match rowAt (bucket s declaration) key with
  | None => Ok None
  | Some row => Some <$> decodeFieldValues declaration row
  end.

(** Both as-of reads end in a refusal whatever [assertRetained] answers. *)
Definition p_getAsOf (s : PatchStateStore) (entity : string) (id : EntityId) (at_ : Z)
    : result StoreError (option Values) :=
  _ ← assertRetained (p_capabilities s) at_ (p_tip s);
  Err (NotRetained at_ None).

Definition p_listAsOf (s : PatchStateStore) (entity : string) (prefix : EntityId) (at_ limit : Z)
    : result StoreError (Listing Values) :=
  _ ← assertRetained (p_capabilities s) at_ (p_tip s);
  Err (NotRetained at_ None).

(** The walk is over the bucket's keys; the sort makes its order irrelevant. *)
Definition p_listCurrent (s : PatchStateStore) (entity : string) (prefix : EntityId) (limit : Z)
    : result StoreError (Listing Values) :=
  declaration ← mustGet (p_entities s) entity;
  values ← prefixValues declaration prefix;
  _ ← assertListingLimit declaration limit;
  let found := omap (fun '(key, row) =>
    let id := split SEPARATOR key in
    if hasIdPrefix id values then Some (id, row) else None) (map_to_list (bucket s declaration)) in
  rows ← mapR (fun p => decodeFieldValues declaration p.2)
    (take (Z.to_nat (limit + 1)) (sort_ids fst found));
  Ok (boundedListing rows limit).

Definition storedCurrent (s : PatchStateStore) (entity : string) (id : EntityId)
    : result StoreError (option Values) :=
  declaration ← mustGet (p_entities s) entity;
  key ← entityValuesKey declaration id;
  Ok (rowAt (bucket s declaration) key).

Definition p_getBlock (s : PatchStateStore) (number : Z) : option BlockPointer := jm_get (p_blocks s) number.

(** ** Reverting *)
Definition deepestRevert (s : PatchStateStore) : option Z :=
  foldl (fun deepest n =>
    if jm_has (p_reversals s) n then deepest
    else match deepest with Some d => if decide (d < n) then Some n else deepest | None => Some n end)
    None (p_blocks s).*1.

(** The second loop over the reverted heights. *)
Definition forgetBlock (m : list (Z * list Patch) * list (string * Z) * list (Z * BlockPointer)) (n : Z) :=
  let '(reversals, hashes, blocks) := m in
  (jm_delete reversals n,
   match jm_get blocks n with Some block => jm_delete hashes (bp_hash block) | None => hashes end,
   jm_delete blocks n).

Definition p_revertTo (s : PatchStateStore) (keepUpTo : Z) : result StoreError PatchStateStore :=
  if decide (keepUpTo < 0) then
    Ok (mkPatch (p_entities s) (p_finalityDepth s) [] [] [] (p_cursors s) (p_records s)
          (emptyState (p_entities s)) None)
  else
    let above := sort_on Z.opp (filter (fun n => keepUpTo < n) (p_blocks s).*1) in
    let missing := sort_on id (filter (fun n => jm_has (p_reversals s) n = false) above) in
    match above, missing with
    | [], _ => Ok s
    | _, _ :: _ => Err (RevertBeyondPatchHistory keepUpTo missing (deepestRevert s) (p_finalityDepth s))
    | _, [] =>
        let state := foldl (fun state n => applyPatches state (default [] (jm_get (p_reversals s) n)))
          (p_state s) above in
        let '(reversals, hashes, blocks) := foldl forgetBlock (p_reversals s, p_hashes s, p_blocks s) above in
        Ok (mkPatch (p_entities s) (p_finalityDepth s) blocks hashes reversals (p_cursors s) (p_records s)
              state (tipOf blocks))
    end.

(** ** Pruning *)
Definition p_prune (s : PatchStateStore) (maxVersions : option Z)
    : result StoreError (PatchStateStore * PruneReport) :=
  let floor := p_tip s ≫= fun tip => retentionFloor RevertOnly tip (p_finalityDepth s) in
  budget ← pruneBudget maxVersions;
  match floor with
  | None => Ok (s, mkReport (p_tip s) None 0 true)
  | Some floor =>
      let unreachable := sort_on id (filter (fun n => n <= floor) (p_reversals s).*1) in
      let doomed := match budget with Some n => take n unreachable | None => unreachable end in
      let s' := mkPatch (p_entities s) (p_finalityDepth s) (p_blocks s) (p_hashes s)
        (foldl jm_delete (p_reversals s) doomed) (p_cursors s)
        (jm_set (p_records s) "retentionEnforcement" (PruneRecord floor)) (p_state s) (p_tip s) in
      Ok (s', mkReport (p_tip s) (Some floor) (length doomed)
                (bool_decide (length doomed = length unreachable)))
  end.

Definition p_readRetentionEnforcement (s : PatchStateStore) : RetentionEnforcement :=
  retentionEnforcementOf RevertOnly (p_finalityDepth s) (p_tip s)
    (match jm_get (p_records s) "retentionEnforcement" with Some (PruneRecord floor) => Some floor | _ => None end).

Definition retainedReversals (s : PatchStateStore) : list Z := sort_on id (p_reversals s).*1.

#[export] Instance patch_store : StateStore PatchStateStore := {
  declarations := p_entities;
  applyBlock := p_applyBlock;
  revertTo := p_revertTo;
  getCurrent := p_getCurrent;
  readCursor := p_readCursor;
  writeCursor := p_writeCursor;
  clearCursor := p_clearCursor
}.
End PatchStore.

(** ** The state a history leaves *)
Definition applyRecorded (state : LightState) (b : HistoryBlock) : LightState := foldl applyDraft state (hb_planned b).

Definition state_of (entities : entities_map) (h : history) : LightState :=
  foldl applyRecorded (emptyState entities) h.

(** The row the state holds under an entity and a bucket key. *)
Definition slot (state : LightState) (name key : string) : option Values :=
  state !! name ≫= fun rows => rows !! key.

Definition writes_to (name key : string) (p : Planned) : Prop :=
  entity_name (pl_entity p) = name /\ join SEPARATOR (pl_id p) = key.

#[export] Instance writes_to_dec name key p : Decision (writes_to name key p).
Proof. unfold writes_to. apply _. Defined.

Lemma emptyState_lookup entities name e :
  jm_get entities name = Some e -> emptyState entities !! name = Some ∅.
Proof.
  intros Hget. unfold emptyState.
  rewrite <- (jm_get_map ((fun p : string * NormalizedEntity => (p.1, ∅ : EntityRows)) <$> entities)).
  assert (name ∈ entities.*1) as Hin by (by eapply (list_elem_of_fmap_2 fst _ (name, e)), jm_get_elem).
  clear Hget. induction entities as [|[n e'] es IH]; [by apply not_elem_of_nil in Hin|]. csimpl in *.
  case_decide as Hd; [done|]. apply elem_of_cons in Hin as [->|Hin]; [done|by apply IH].
Qed.

Lemma applyDraft_some state p name : is_Some (state !! name) -> is_Some (applyDraft state p !! name).
Proof. unfold applyDraft. intros Hs. rewrite lookup_alter. case_decide; [by subst; apply fmap_is_Some|done]. Qed.

Lemma applyDraft_slot state p name key :
  is_Some (state !! name) ->
  slot (applyDraft state p) name key =
    if decide (writes_to name key p) then pl_stored_row p else slot state name key.
Proof.
  intros [rows Hrows]. unfold slot, applyDraft, pl_stored_row. rewrite lookup_alter.
  destruct (decide (entity_name (pl_entity p) = name)) as [<-|Hn].
  - rewrite Hrows. csimpl. destruct (decide (join SEPARATOR (pl_id p) = key)) as [<-|Hk].
    + rewrite (decide_True (P := writes_to _ _ p)) by done. destruct (pl_stored p) as [stored|]; csimpl.
      * by rewrite lookup_insert_eq.
      * destruct (keyIn rows _) eqn:Hin; [by rewrite lookup_delete_eq|].
        apply orb_false_iff in Hin as [Hin%bool_decide_eq_false _]. by apply eq_None_not_Some.
    + rewrite (decide_False (P := writes_to _ _ p)) by (intros [_ ?]; done). destruct (pl_stored p) as [stored|].
      * by rewrite lookup_insert_ne.
      * destruct (keyIn rows _); [by rewrite lookup_delete_ne|done].
  - by rewrite (decide_False (P := writes_to _ _ p)) by (intros [? _]; done).
Qed.

Lemma foldl_applyDraft_slot state ps name key :
  is_Some (state !! name) ->
  is_Some (foldl applyDraft state ps !! name)
  /\ slot (foldl applyDraft state ps) name key =
      match last (filter (writes_to name key) ps) with
      | Some p => pl_stored_row p
      | None => slot state name key
      end.
Proof.
  intros Hs. induction ps as [|p ps [IHs IH]] using rev_ind; [done|].
  rewrite foldl_app. split; [by apply applyDraft_some|]. cbn [foldl]. rewrite applyDraft_slot, IH by done.
  rewrite filter_app, filter_cons, filter_nil. case_decide; [by rewrite last_snoc|by rewrite app_nil_r].
Qed.

(** A recorded operation lands in the slot of its key. *)
Lemma slot_of_key entities m p e name id key :
  entities_wf entities -> plan entities m = Ok p ->
  jm_get entities name = Some e -> entityKey e id = Ok key ->
  forall values, idValues e id = Ok values ->
  writes_to name (join SEPARATOR values) p <-> pl_key p = key.
Proof.
  intros Hew Hp He Hkey values Hv. pose proof (plan_spec _ _ _ Hp) as (Hpe & Hpk & _).
  pose proof (plan_id _ _ _ Hp) as Hpi. pose proof (entities_names _ Hew _ _ He) as Hn.
  assert (entityKey e id = Ok (join SEPARATOR (entity_name e :: values))) as Hkey' by (unfold entityKey; by rewrite Hv).
  assert (entityKey (pl_entity p) (mutation_id m) = Ok (join SEPARATOR (entity_name (pl_entity p) :: pl_id p))) as Hpk'
    by (unfold entityKey; by rewrite Hpi).
  rewrite Hkey in Hkey'. injection Hkey' as ->. rewrite Hpk in Hpk'. injection Hpk' as Hpk'. split.
  - intros [Hname Hjoin]. pose proof (entities_names _ Hew _ _ Hpe) as Hpn.
    assert (pl_entity p = e) as Hee by congruence. rewrite Hpk', Hee. cbn [join].
    assert (length (pl_id p) = length values) as Hlen.
    { rewrite (mapR_length _ _ _ Hpi), (mapR_length _ _ _ Hv). by rewrite Hee. }
    destruct (pl_id p), values; try done. by rewrite Hjoin.
  - intros Hk. rewrite Hk in Hpk, Hpk'.
    pose proof (entity_of_key entities name _ e _ id _ _ Hew He Hpe Hkey Hpk) as Hee. rewrite Hee in Hpk, Hpi.
    split; [by rewrite Hee|]. assert (free_of SEPARATOR (entity_name e)) as Hfree
      by (rewrite Hn; by eapply entities_free).
    destruct (entityKey_inj e e id (mutation_id m) _ Hfree Hfree Hkey Hpk) as [_ Hids].
    rewrite Hv, Hpi in Hids. by injection Hids as ->.
Qed.

Lemma state_of_snoc entities h b : state_of entities (h ++ [b]) = applyRecorded (state_of entities h) b.
Proof. unfold state_of. by rewrite foldl_app. Qed.

(** The slot of a key holds the row of the last operation on it. *)
Lemma state_of_slot entities h name e id key values :
  entities_wf entities -> history_wf entities h ->
  jm_get entities name = Some e -> entityKey e id = Ok key -> idValues e id = Ok values ->
  is_Some (state_of entities h !! name)
  /\ slot (state_of entities h) name (join SEPARATOR values) = last (ops key h) ≫= fun p => pl_stored_row p.2.
Proof.
  intros Hew [_ _ Hp] He Hkey Hv. induction h as [|b h IH] using rev_ind.
  - unfold state_of, slot. cbn [foldl]. by rewrite (emptyState_lookup entities name e).
  - apply Forall_app in Hp as [Hp [Hb _]%Forall_cons]. destruct (IH Hp) as [Hs Hslot].
    rewrite state_of_snoc. destruct (foldl_applyDraft_slot _ (hb_planned b) name (join SEPARATOR values) Hs) as [Hs' Hslot'].
    split; [exact Hs'|]. unfold applyRecorded. rewrite Hslot', Hslot.
    rewrite ops_app. replace (ops key [b]) with (block_ops key b) by (unfold ops; csimpl; by rewrite app_nil_r).
    assert (block_ops key b = pair (hb_number b) <$> filter (writes_to name (join SEPARATOR values)) (hb_planned b)) as ->.
    { unfold block_ops. f_equal. apply filter_ext_in. intros p Hin. rewrite Forall_forall in Hb.
      destruct (Hb p Hin) as [m Hm]. symmetry. by apply (slot_of_key entities m p e name id key). }
    rewrite last_app, fmap_last. by destruct (last (filter _ _)).
Qed.

(** ** The store holds its history *)
Definition block_entries (h : history) : list (Z * BlockPointer) := (fun b => (hb_number b, hb_block b)) <$> h.
Definition hash_entries (h : history) : list (string * Z) := (fun b => (hb_hash b, hb_number b)) <$> h.

Lemma block_entries_set h b :
  hb_number b ∉ hb_number <$> h -> jm_set (block_entries h) (hb_number b) (hb_block b) = block_entries (h ++ [b]).
Proof.
  intros Hn. unfold block_entries. rewrite fmap_app. apply jm_set_new. by rewrite <- list_fmap_compose.
Qed.

Lemma hash_entries_set h b :
  hb_hash b ∉ hb_hash <$> h -> jm_set (hash_entries h) (hb_hash b) (hb_number b) = hash_entries (h ++ [b]).
Proof.
  intros Hn. unfold hash_entries. rewrite fmap_app. apply jm_set_new. by rewrite <- list_fmap_compose.
Qed.

(** ** Keys no object inherits *)
Lemma rowAt_plain rows key : key ∉ prototype_members -> rowAt rows key = rows !! key.
Proof. intros Hk. unfold rowAt. rewrite decide_False by done. by destruct (rows !! key). Qed.

Lemma plan_plain entities m p :
  plan entities m = Ok p -> plainKey entities (mutation_entity m) (mutation_id m) = true -> plain_planned p.
Proof.
  intros Hp. pose proof (plan_spec _ _ _ Hp) as (He & _ & _). pose proof (plan_id _ _ _ Hp) as Hid.
  unfold plainKey, entityValuesKey. rewrite He, Hid. cbn [fmap result_fmap]. by intros ?%bool_decide_eq_true.
Qed.

Lemma plans_plain entities ms ps :
  mapR (plan entities) ms = Ok ps ->
  Forall (fun m => plainKey entities (mutation_entity m) (mutation_id m) = true) ms -> Forall plain_planned ps.
Proof.
  intros Hps Hms. apply Forall_forall. intros p Hp.
  destruct (proj1 (mapR_elem_iff _ _ _ Hps p) Hp) as (m & Hm & Hpl). rewrite Forall_forall in Hms. by eapply plan_plain; [|apply Hms].
Qed.

(** An id of two columns or more has the separator in its key. *)
Definition composite (entities : entities_map) : Prop :=
  Forall (fun p => (2 <= length (entity_id p.2))%nat) entities.

Lemma join_separator vs : (2 <= length vs)%nat -> ~ free_of SEPARATOR (join SEPARATOR vs).
Proof.
  destruct vs as [|v [|v' vs]]; simpl; [lia..|]. intros _. induction v as [|c v IH]; simpl; tauto.
Qed.

Lemma prototype_members_free : Forall (free_of SEPARATOR) prototype_members.
Proof. apply (bool_decide_unpack _). vm_compute. exact I. Qed.

Lemma composite_plain entities entity id : composite entities -> plainKey entities entity id = true.
Proof.
  intros Hc. unfold plainKey, entityValuesKey. destruct (jm_get entities entity) as [e|] eqn:He; [|done].
  destruct (idValues e id) as [vs|] eqn:Hv; [|done]. cbn [fmap result_fmap]. apply bool_decide_eq_true_2. intros Hin.
  pose proof prototype_members_free as Hfree. rewrite Forall_forall in Hfree. apply Hfree in Hin.
  revert Hin. apply join_separator. rewrite (mapR_length _ _ _ Hv). unfold composite in Hc. rewrite Forall_forall in Hc.
  apply (Hc (entity, e)). by apply jm_get_elem.
Qed.

Section Laws.
Context `{ImmerLaws}.

(** [floor]: the reverse patches of every block above it are still held. *)
Record patch_repr (floor : Z) (s : PatchStateStore) (h : history) : Prop := {
  pr_entities : entities_wf (p_entities s);
  pr_history : history_wf (p_entities s) h;
  pr_state : p_state s = state_of (p_entities s) h;
  pr_blocks : p_blocks s = block_entries h;
  pr_hashes : p_hashes s = hash_entries h;
  pr_tip : p_tip s = hb_number <$> last h;
  pr_undo h1 b h2 r : h = h1 ++ b :: h2 -> jm_get (p_reversals s) (hb_number b) = Some r ->
    applyPatches (state_of (p_entities s) (h1 ++ [b])) r = state_of (p_entities s) h1;
  pr_held b : b ∈ h -> floor < hb_number b -> is_Some (jm_get (p_reversals s) (hb_number b))
}.

Lemma p_applyBlock_spec floor s h block mutations cursor s' :
  patch_repr floor s h ->
  p_applyBlock s block mutations cursor = Ok s' <->
  exists b, admits (p_entities s) h block mutations b
    /\ let '(next, _, reversal) := produceWithPatches (p_state s) (fun draft => foldl applyDraft draft (hb_planned b)) in
       s' = mkPatch (p_entities s) (p_finalityDepth s) (block_entries (h ++ [b])) (hash_entries (h ++ [b]))
              (jm_set (p_reversals s) (hb_number b) reversal)
              (match cursor with Some (key, value) => jm_set (p_cursors s) key value | None => p_cursors s end)
              (p_records s) next (Some (hb_number b)).
Proof.
  intros [He [Ha Hh Hp] _ Hb Hhs Ht _ _]. unfold p_applyBlock. rewrite Hb, Hhs, Ht.
  pose proof (above_tip h (bp_number block) Ha) as Htip.
  assert (forall n, jm_has (block_entries h) n = bool_decide (n ∈ hb_number <$> h)) as Hbn by (intros; apply jm_has_pairs).
  assert (forall x, jm_has (hash_entries h) x = bool_decide (x ∈ hb_hash <$> h)) as Hhn by (intros; apply jm_has_pairs).
  split.
  - intros (hash & Hn & ([] & Hnum & ([] & Hhash & ([] & Hcheck & Hrest)%bind_Ok)%bind_Ok)%bind_Ok)%bind_Ok.
    apply assert_or_Ok in Hnum, Hhash. apply Htip in Hcheck.
    apply bind_Ok in Hrest as (planned & Hplan & Hprod).
    rewrite negb_true_iff, Hbn, bool_decide_eq_false in Hnum. rewrite negb_true_iff, Hhn, bool_decide_eq_false in Hhash.
    set (b := mkHistoryBlock (mkPointer (bp_number block) hash (bp_timestamp block)) planned).
    exists b. split; [exists hash, planned; by split_and!|]. cbn [b hb_planned].
    destruct (produceWithPatches _ _) as [[next patches] reversal]. injection Hprod as <-.
    f_equal; [by apply (block_entries_set h b)|by apply (hash_entries_set h b)|by apply tip_advances].
  - intros (b & (hash & planned & Hn & Hnew & Hlow & Hplan & ->) & Hprod).
    assert (bp_number block ∉ hb_number <$> h) as Hnum.
    { intros (b' & Heq & Hb')%list_elem_of_fmap. rewrite Forall_forall in Hlow. specialize (Hlow b' Hb'). lia. }
    rewrite Hn. cbn [mbind result_bind].
    rewrite Hbn, Hhn, !bool_decide_false by done. cbn [negb assert_or mbind result_bind].
    rewrite (proj2 Htip Hlow). cbn [mbind result_bind]. rewrite Hplan. cbn [mbind result_bind hb_planned] in *.
    destruct (produceWithPatches _ _) as [[next patches] reversal]. subst s'.
    rewrite (tip_advances h _ Hlow).
    set (b := mkHistoryBlock (mkPointer (bp_number block) hash (bp_timestamp block)) planned).
    by rewrite <- (block_entries_set h b), <- (hash_entries_set h b).
Qed.

Lemma last_split_inv {A} (l l1 l2 : list A) x y :
  l ++ [x] = l1 ++ y :: l2 -> l2 = [] /\ y = x /\ l1 = l \/ exists l2', l2 = l2' ++ [x] /\ l = l1 ++ y :: l2'.
Proof.
  destruct l2 as [|z l2 _] using rev_ind.
  - intros [-> [= ->]]%app_inj_tail. by left.
  - rewrite app_comm_cons, app_assoc. intros [-> ->]%app_inj_tail. right. by exists l2.
Qed.

Lemma patch_repr_apply floor s h block mutations cursor b s' :
  patch_repr floor s h -> admits (p_entities s) h block mutations b -> Forall plain_planned (hb_planned b) ->
  (let '(next, _, reversal) := produceWithPatches (p_state s) (fun draft => foldl applyDraft draft (hb_planned b)) in
   s' = mkPatch (p_entities s) (p_finalityDepth s) (block_entries (h ++ [b])) (hash_entries (h ++ [b]))
          (jm_set (p_reversals s) (hb_number b) reversal) cursor (p_records s) next (Some (hb_number b))) ->
  patch_repr floor s' (h ++ [b]).
Proof.
  intros Hr Had Hplain Hs'. pose proof Hr as [He Hw Hst Hb Hhs Ht Hu Hheld].
  pose proof (produce_next (p_state s) (hb_planned b) Hplain) as Hnext.
  pose proof (produce_inverse (p_state s) (hb_planned b) Hplain) as Hinv.
  destruct (produceWithPatches _ _) as [[next patches] reversal]. simpl in Hnext, Hinv. subst next s'.
  assert (forall x, x ∈ h -> hb_number x < hb_number b) as Hlow.
  { destruct Had as (hash & ps & _ & _ & Hlow & _ & ->). by rewrite Forall_forall in Hlow. }
  split; cbn [p_entities p_state p_blocks p_hashes p_tip p_reversals]; try done.
  - by eapply history_wf_snoc.
  - rewrite state_of_snoc, Hst. done.
  - by rewrite last_snoc.
  - intros h1 b' h2 r [(-> & -> & ->)|(h2' & -> & ->)]%last_split_inv Hget.
    + rewrite jm_get_set_eq in Hget. injection Hget as <-. rewrite state_of_snoc, Hst in *. exact Hinv.
    + rewrite jm_get_set_ne in Hget; [by eapply Hu|].
      assert (b' ∈ h1 ++ b' :: h2') as Hin by (apply elem_of_app; right; left). specialize (Hlow b' Hin). lia.
  - intros b' [Hin| ->%list_elem_of_singleton]%elem_of_app Hfl.
    + rewrite jm_get_set_ne; [by apply Hheld|]. specialize (Hlow b' Hin). lia.
    + rewrite jm_get_set_eq. done.
Qed.

(** *** Reverting *)
Lemma replay_back entities h keep reversals :
  ascending hb_number h ->
  (forall h1 b h2 r, h = h1 ++ b :: h2 -> jm_get reversals (hb_number b) = Some r ->
     applyPatches (state_of entities (h1 ++ [b])) r = state_of entities h1) ->
  (forall b, b ∈ h -> keep < hb_number b -> is_Some (jm_get reversals (hb_number b))) ->
  foldl (fun state n => applyPatches state (default [] (jm_get reversals n))) (state_of entities h)
    (reverse (hb_number <$> filter (fun b => keep < hb_number b) h)) = state_of entities (history_upto keep h).
Proof.
  intros Ha. induction h as [|b h IH] using rev_ind; intros Hundo Hheld; [done|].
  pose proof Ha as (Hlt & Hlow & _)%ascending_app. unfold history_upto in *.
  rewrite !filter_app, !filter_cons, !filter_nil. destruct (decide (keep < hb_number b)) as [Hb|Hb].
  - rewrite decide_False, app_nil_r, fmap_app, reverse_app by lia. csimpl.
    destruct (Hheld b ltac:(apply elem_of_app; right; left) Hb) as [r Hr]. rewrite Hr. csimpl.
    rewrite (Hundo h b [] r) by done. apply IH; [done|..].
    + intros h1 b' h2 r' -> Hr'. apply (Hundo h1 b' (h2 ++ [b])); [by rewrite <- app_assoc|done].
    + intros b' Hb'. apply Hheld, elem_of_app. by left.
  - rewrite decide_True, app_nil_r by lia.
    assert (forall x, x ∈ h -> hb_number x < hb_number b) as Hall
      by (intros x Hx; apply Hlt; [done|apply list_elem_of_here]).
    rewrite filter_Forall_nil, filter_Forall_id; [done|..]; apply Forall_forall; intros x Hx; specialize (Hall x Hx); simpl; lia.
Qed.

Lemma forget_blocks ns reversals hashes blocks :
  NoDup ns ->
  foldl forgetBlock (reversals, hashes, blocks) ns =
    (filter (fun p => p.1 ∉ ns) reversals,
     foldl jm_delete hashes (omap (fun n => bp_hash <$> jm_get blocks n) ns),
     filter (fun p => p.1 ∉ ns) blocks).
Proof.
  rewrite <- !jm_delete_fold. revert reversals hashes blocks.
  induction ns as [|n ns IH]; intros reversals hashes blocks; [done|]. intros [Hn Hnd]%NoDup_cons.
  cbn [foldl forgetBlock omap list_omap]. rewrite IH by done.
  assert (omap (fun m => bp_hash <$> jm_get (jm_delete blocks n) m) ns = omap (fun m => bp_hash <$> jm_get blocks m) ns) as ->.
  { clear IH Hnd. induction ns as [|m ns IH]; [done|]. apply not_elem_of_cons in Hn as [Hne Hn].
    csimpl. rewrite jm_get_delete, decide_False by done. destruct (jm_get blocks m); csimpl; by rewrite IH. }
  by destruct (jm_get blocks n).
Qed.

Lemma above_heights h keep :
  ascending hb_number h ->
  sort_on Z.opp (filter (fun n => keep < n) (block_entries h).*1)
    = reverse (hb_number <$> filter (fun b => keep < hb_number b) h).
Proof.
  intros Ha. unfold block_entries. rewrite <- list_fmap_compose. unfold compose. cbn [fst].
  rewrite (filter_pairs (fun b => keep < hb_number b) (fun n => keep < n)) by done.
  apply sort_on_unique; [by rewrite reverse_Permutation|].
  assert (ascending hb_number (filter (fun b => keep < hb_number b) h)) as Hf by eauto using ascending_sublist, sublist_filter.
  clear Ha. induction Hf as [|b l Hl IH Hb]; [constructor|]. csimpl. rewrite reverse_cons.
  apply ascending_app. split_and!; [|done|repeat constructor].
  intros x y (x' & -> & Hx)%elem_of_reverse%list_elem_of_fmap ->%list_elem_of_singleton.
  rewrite Forall_forall in Hb. specialize (Hb x' Hx). lia.
Qed.

Lemma heights_above h keep n :
  n ∈ reverse (hb_number <$> filter (fun b => keep < hb_number b) h) <->
  exists b, b ∈ h /\ hb_number b = n /\ keep < n.
Proof.
  rewrite elem_of_reverse, list_elem_of_fmap. split.
  - intros (b & -> & [Hb Hin]%list_elem_of_filter). by exists b.
  - intros (b & Hin & <- & Hb). exists b. split; [done|]. by apply elem_of_filter_intro.
Qed.

Lemma block_entries_get h b : ascending hb_number h -> b ∈ h -> jm_get (block_entries h) (hb_number b) = Some (hb_block b).
Proof.
  intros Ha Hin. apply jm_get_Some.
  - unfold jm_wf, block_entries. rewrite <- list_fmap_compose. by apply (ascending_keys_NoDup hb_number).
  - unfold block_entries. by apply (list_elem_of_fmap_2 (fun b => (hb_number b, hb_block b))).
Qed.

(** Forgetting the heights above leaves the entries of what is kept. *)
Lemma forget_above entities h keep reversals :
  history_wf entities h ->
  let ns := reverse (hb_number <$> filter (fun b => keep < hb_number b) h) in
  foldl forgetBlock (reversals, hash_entries h, block_entries h) ns =
    (filter (fun p => p.1 ∉ ns) reversals, hash_entries (history_upto keep h), block_entries (history_upto keep h)).
Proof.
  intros [Ha Hh _] ns.
  assert (NoDup ns) as Hnd.
  { unfold ns. rewrite reverse_Permutation. apply ascending_keys_NoDup. eapply ascending_sublist; [apply sublist_filter|done]. }
  assert (forall b, b ∈ h -> hb_number b ∉ ns <-> hb_number b <= keep) as Hns.
  { intros b Hin. unfold ns. rewrite heights_above. split; [|intros ? (b' & _ & _ & ?); lia].
    intros Hno. destruct (decide (hb_number b <= keep)); [done|]. destruct Hno. exists b. split_and!; [done|done|lia]. }
  rewrite forget_blocks by done. f_equal; [f_equal|].
  - rewrite jm_delete_fold. unfold hash_entries, history_upto. apply filter_pairs. intros b Hin. cbn [fst].
    rewrite <- Hns by done. apply not_iff_compat. rewrite list_elem_of_omap. split.
    + intros (n & (b' & Hb' & <- & Hn)%heights_above & Hget).
      rewrite block_entries_get in Hget by done. injection Hget as Hget.
      assert (b = b') as <-; [|apply heights_above; by exists b].
      by apply (NoDup_fmap_inj_on hb_hash h).
    + intros Hn. exists (hb_number b). by rewrite block_entries_get.
  - unfold block_entries, history_upto. apply filter_pairs. intros b Hin. by apply Hns.
Qed.

(** A revert undoes every block above or refuses, naming the ones it cannot undo;
    it never stops in between. *)
Lemma patch_revert floor s h keep :
  patch_repr floor s h -> 0 <= keep ->
  let missing := filter (fun b => keep < hb_number b /\ jm_has (p_reversals s) (hb_number b) = false) h in
  match p_revertTo s keep with
  | Ok s' => missing = [] /\ patch_repr floor s' (history_upto keep h)
      /\ p_entities s' = p_entities s /\ p_cursors s' = p_cursors s
  | Err e => missing <> []
      /\ e = RevertBeyondPatchHistory keep (hb_number <$> missing) (deepestRevert s) (p_finalityDepth s)
  end.
Proof.
  intros Hr Hkeep missing. pose proof Hr as [He Hw Hst Hb Hhs Ht Hu Hheld].
  pose proof (history_ascending _ _ Hw) as Ha.
  unfold p_revertTo. rewrite decide_False by lia. cbv zeta. rewrite Hb, above_heights by done.
  set (above := reverse _).
  assert (sort_on id (filter (fun n => jm_has (p_reversals s) n = false) above) = hb_number <$> missing) as ->.
  { apply sort_on_unique.
    - unfold above. rewrite reverse_Permutation.
      rewrite (filter_pairs (fun b => jm_has (p_reversals s) (hb_number b) = false)
        (fun n => jm_has (p_reversals s) n = false)) by done.
      rewrite list_filter_filter. apply Permutation_refl', f_equal, filter_ext_in. intros b _. tauto.
    - assert (ascending hb_number missing) as Hm by (eapply ascending_sublist; [apply sublist_filter|done]).
      clear -Hm. induction Hm as [|b l Hl IH Hb]; [constructor|]. csimpl. constructor; [done|].
      by apply Forall_fmap. }
  destruct above as [|n ns] eqn:Habove.
  { assert (filter (fun b => keep < hb_number b) h = []) as Hnil.
    { apply (f_equal reverse) in Habove. unfold above in Habove. rewrite reverse_involutive in Habove.
      by apply fmap_nil_inv in Habove. }
    assert (forall b, b ∈ h -> hb_number b <= keep) as Hall.
    { intros b Hin. destruct (decide (hb_number b <= keep)); [done|].
      assert (b ∈ filter (fun b => keep < hb_number b) h) as Hf by (apply elem_of_filter_intro; [lia|done]).
      rewrite Hnil in Hf. by apply not_elem_of_nil in Hf. }
    assert (history_upto keep h = h) as -> by (by apply filter_Forall_id, Forall_forall). split_and!; [|done..].
    apply filter_Forall_nil, Forall_forall. intros b Hin [Hk _]. specialize (Hall b Hin). lia. }
  rewrite <- Habove. destruct missing as [|m ms] eqn:Hmiss; csimpl; [|done].
  rewrite Hst, Hhs. unfold above at 2. rewrite (forget_above (p_entities s) h keep) by done. fold above.
  assert (forall b, b ∈ h -> keep < hb_number b -> is_Some (jm_get (p_reversals s) (hb_number b))) as Hall.
  { intros b Hin Hk. destruct (jm_has (p_reversals s) (hb_number b)) eqn:Hhas; [by apply bool_decide_eq_true in Hhas|].
    assert (b ∈ missing) as Hm by (by apply elem_of_filter_intro). rewrite Hmiss in Hm. by apply not_elem_of_nil in Hm. }
  unfold above. rewrite replay_back by done. split_and!; [done| |done..].
  assert (history_upto keep h `sublist_of` h) as Hsub by apply sublist_filter.
  split; cbn [p_entities p_state p_blocks p_hashes p_tip p_reversals]; try done.
  - by apply history_wf_upto.
  - apply tipOf_ascending. by eapply ascending_sublist.
  - intros h1 b h2 r Heq Hget.
    rewrite jm_get_without in Hget. case_decide; [done|]. pose proof (history_split keep h ltac:(done)) as Hsplit. rewrite Heq in Hsplit.
    rewrite <- app_assoc in Hsplit. by apply (Hu h1 b _ r Hsplit).
  - intros b Hin Hfl. assert (b ∈ h /\ hb_number b <= keep) as [Hh Hle] by (apply list_elem_of_filter in Hin; tauto).
    rewrite jm_get_without, decide_False; [by apply Hheld|]. rewrite heights_above. intros (b' & _ & _ & ?). lia.
Qed.

(** *** Reading *)
Lemma p_getCurrent_answers floor s h entity e id key :
  patch_repr floor s h -> jm_get (p_entities s) entity = Some e -> entityKey e id = Ok key ->
  plainKey (p_entities s) entity id = true ->
  answers e (current h key) (p_getCurrent s entity id).
Proof.
  intros [He Hw Hst _ _ _ _ _] Hget Hkey Hplain. unfold plainKey in Hplain. rewrite Hget in Hplain. unfold p_getCurrent, mustGet, entityValuesKey. rewrite Hget.
  cbn [mbind result_bind]. pose proof Hkey as Hkey'. unfold entityKey in Hkey'.
  destruct (idValues e id) as [values|] eqn:Hv; [|done]. cbn [fmap result_fmap mbind result_bind].
  destruct (state_of_slot (p_entities s) h entity e id key values He Hw Hget Hkey Hv) as [[rows Hrows] Hslot].
  unfold bucket. rewrite (entities_names _ He _ _ Hget), Hst, Hrows. change (default ∅ (Some rows)) with rows.
  unfold slot in Hslot. rewrite Hrows in Hslot. csimpl in Hslot. unfold current, outcome.
  unfold entityValuesKey in Hplain. rewrite Hv in Hplain. cbn [fmap result_fmap] in Hplain. apply bool_decide_eq_true in Hplain.
  rewrite rowAt_plain, Hslot by done.
  destruct (last (ops key h)) as [q|] eqn:Hlast; csimpl; [|done].
  pose proof (last_Some_elem_of _ _ Hlast) as (Hk & b & Hb & Hin)%elem_of_ops.
  pose proof (history_planned _ _ Hw) as Hp. rewrite Forall_forall in Hp. specialize (Hp b Hb).
  rewrite Forall_forall in Hp. destruct (Hp _ Hin) as [m Hm].
  destruct (plan_spec _ _ _ Hm) as (Hpe & Hpk & Hvals). rewrite Hk in Hpk.
  pose proof (entity_of_key _ _ _ _ _ _ _ _ He Hget Hpe Hkey Hpk) as Hee.
  unfold pl_stored_row, pl_row. destruct (pl_values q.2) as [vals|]; csimpl; [|by rewrite Hvals].
  destruct Hvals as (stored & Henc & ->). csimpl. rewrite Hee in *.
  rewrite (row_roundtrip e (pl_id q.2) vals stored); [by eexists|by eapply entities_fields|done].
Qed.

(** An id of one column can name an inherited member, and the light store then
    answers a row nobody wrote. *)
Lemma inherited_row s entity e id key :
  jm_get (p_entities s) entity = Some e -> entityValuesKey e id = Ok key -> key ∈ prototype_members ->
  bucket s e !! key = None -> p_getCurrent s entity id = Some <$> decodeFieldValues e ∅.
Proof.
  intros He Hk Hin Hnone. unfold p_getCurrent, mustGet. rewrite He. cbn [mbind result_bind]. rewrite Hk. cbn [mbind result_bind].
  unfold rowAt. by rewrite Hnone, decide_True.
Qed.

(** *** Pruning drops patches and nothing else *)
Lemma patch_prune floor s h budget s' report :
  patch_repr floor s h -> p_prune s budget = Ok (s', report) ->
  patch_repr (Z.max floor (default floor (report_floor report))) s' h
  /\ p_entities s' = p_entities s /\ p_state s' = p_state s /\ p_cursors s' = p_cursors s.
Proof.
  intros Hr. unfold p_prune. intros (b & Hb & Hres)%bind_Ok.
  destruct (p_tip s ≫= _) as [fl|]; [|injection Hres as <- <-].
  2:{ cbn [report_floor default]. by rewrite Z.max_id. }
  injection Hres as <- <-. cbn [report_floor default]. split; [|done].
  destruct Hr as [He Hw Hst Hbl Hhs Ht Hu Hheld].
  set (doomed := match b with Some n => _ | None => _ end).
  assert (forall n, n ∈ doomed -> n <= fl) as Hdoomed.
  { intros n Hn. assert (n ∈ sort_on id (filter (fun n => n <= fl) (p_reversals s).*1)) as Hin.
    { unfold doomed in Hn. destruct b; [|done]. eapply elem_of_sublist; [exact Hn|apply sublist_take]. }
    apply elem_of_sort_on, list_elem_of_filter in Hin. tauto. }
  split; cbn [p_entities p_state p_blocks p_hashes p_tip p_reversals]; try done;
    setoid_rewrite jm_delete_fold; setoid_rewrite jm_get_without.
  - intros h1 b' h2 r Heq Hget. case_decide; [done|]. by eapply Hu.
  - intros b' Hin Hfl. simpl in Hfl. rewrite decide_False; [apply Hheld; [done|lia]|].
    intros Hn%Hdoomed. lia.
Qed.

Lemma patch_repr_empty floor s :
  entities_wf (p_entities s) -> p_state s = emptyState (p_entities s) -> p_blocks s = [] -> p_hashes s = [] ->
  p_tip s = None -> patch_repr floor s [].
Proof.
  intros Hew Hst Hb Hh Ht. split; try done.
  - split; constructor.
  - intros h1 b h2 r Heq. by destruct h1.
  - by intros b ?%not_elem_of_nil.
Qed.

Lemma patch_new entities retention depth s :
  entities_wf entities -> newPatchStore entities retention depth = Ok s -> p_entities s = entities /\ patch_repr (-1) s [].
Proof.
  intros Hew. unfold newPatchStore. intros ([] & _ & ([] & _ & [= <-])%bind_Ok)%bind_Ok. split; [done|].
  by apply patch_repr_empty.
Qed.

Lemma patch_wipe floor s h :
  patch_repr floor s h -> exists s', p_revertTo s (-1) = Ok s' /\ (forall fl, patch_repr fl s' [])
    /\ p_entities s' = p_entities s /\ p_cursors s' = p_cursors s.
Proof.
  intros [He _ _ _ _ _ _ _]. eexists. split; [done|]. split; [|done]. intros fl. by apply patch_repr_empty.
Qed.

Lemma p_with_cursors_repr floor s h cursors : patch_repr floor s h -> patch_repr floor (p_with_cursors s cursors) h.
Proof. by intros []. Qed.

(** ** The laws

    An instance of the seam where every id has two columns or more, so that no key is
    inherited; [Backends] states what a store of any declarations keeps. *)
Definition light_repr (floor : Z) (s : PatchStateStore) (h : history) : Prop :=
  patch_repr floor s h /\ composite (p_entities s).

Lemma composite_admits entities h block mutations b :
  composite entities -> admits entities h block mutations b -> Forall plain_planned (hb_planned b).
Proof.
  intros Hc (hash & ps & _ & _ & _ & Hps & ->). cbn [hb_planned]. apply (plans_plain _ _ _ Hps).
  apply Forall_forall. intros m _. by apply composite_plain.
Qed.

#[export] Program Instance patch_store_laws : StateStoreLaws PatchStateStore := {
  repr := light_repr
}.
Next Obligation. intros floor s h [Hr _]. split; apply Hr. Qed.
Next Obligation.
  intros floor s h block mutations cursor [Hr Hcomp]. split.
  - intros b Had. pose proof (p_applyBlock_spec floor s h block mutations cursor) as Hspec.
    pose proof (composite_admits _ _ _ _ _ Hcomp Had) as Hplain.
    destruct (produceWithPatches (p_state s) (fun draft => foldl applyDraft draft (hb_planned b)))
      as [[next patches] reversal] eqn:Hprod.
    eexists. split_and!.
    + apply (Hspec _ Hr). exists b. split; [done|]. by rewrite Hprod.
    + split; [|exact Hcomp]. eapply patch_repr_apply; [done..|]. by rewrite Hprod.
    + done.
    + intros key. unfold readCursor. simpl. unfold p_readCursor. simpl. unfold cursor_after.
      destruct cursor as [[k v]|]; [|done]. apply jm_get_set.
  - intros s' (b & Had & _)%(p_applyBlock_spec _ _ _ _ _ _ _ Hr). by exists b.
Qed.
Next Obligation.
  intros floor s h n [Hr Hcomp] Hle Hlow. destruct (decide (n < 0)) as [Hneg|Hpos].
  - destruct Hlow as [?| ->]; [lia|]. unfold revertTo. simpl. unfold p_revertTo. rewrite decide_True by done.
    eexists. split; [done|]. destruct (patch_wipe floor s h Hr) as (s' & [= <-] & Hrepr & _). done.
  - pose proof (patch_revert floor s h n Hr ltac:(lia)) as Hrev. simpl in *.
    destruct (p_revertTo s n) as [s'|e].
    + destruct Hrev as (_ & Hr' & Hd & Hc). exists s'. split_and!; [done|split; [done|by rewrite Hd]|done|].
      intros key. unfold p_readCursor. by rewrite Hc.
    + destruct Hrev as [Hne _]. destruct Hne. apply filter_Forall_nil, Forall_forall. intros b Hin [Hb Hno].
      destruct (pr_held _ _ _ Hr b Hin ltac:(lia)) as [r Hget]. unfold jm_has in Hno. by rewrite Hget in Hno.
Qed.
Next Obligation.
  intros floor s h entity id e key [Hr Hcomp] He Hkey.
  by apply (p_getCurrent_answers floor s h entity e id key); [..|apply composite_plain].
Qed.
Next Obligation.
  intros floor s h key value [Hr Hcomp]. split_and!; [split; [by apply p_with_cursors_repr|done]|done|].
  intros key'. unfold readCursor, writeCursor, cursor_after. simpl. apply jm_get_set.
Qed.
Next Obligation.
  intros floor s h [Hr Hcomp] _. destruct (patch_wipe floor s h Hr) as (s' & Hs' & Hrepr & Hd & Hc).
  exists s'. split_and!; [done|split; [apply Hrepr|by rewrite Hd]|done|]. intros key. simpl. unfold p_readCursor. by rewrite Hc.
Qed.
Next Obligation.
  intros floor s h key [Hr Hcomp]. split_and!; [split; [by apply p_with_cursors_repr|done]|done|].
  unfold readCursor, clearCursor. simpl. unfold p_readCursor. simpl. by rewrite jm_get_delete, decide_True.
Qed.
End Laws.
