(* ===== verification/Seam.v ===== *)
(** * The rest of the seam

    What [packages/state-store/src/store.ts] asks of a backend beyond [StateStore]: its
    capabilities, its historical reads and the records it keeps for others.  The two
    backends in memory keep it. *)
From S2P Require Import Prelude JsMap Entities Listing Retention StoreSpec Versions MemoryStore PatchStore.

(** [StateStoreBackend], beyond what [StateStore] names. *)
Class StateStoreBackend (S : Type) `{StateStore S} : Type := {
  migrate : S -> S;
  capabilities : S -> StateStoreCapabilities;
  getAsOf : S -> string -> EntityId -> Z -> result StoreError (option Values);
  listCurrent : S -> string -> EntityId -> Z -> result StoreError (Listing Values);
  listAsOf : S -> string -> EntityId -> Z -> Z -> result StoreError (Listing Values);
  prune : S -> option Z -> result StoreError (S * PruneReport);
  readRetentionEnforcement : S -> RetentionEnforcement;
  readSeamRecord : S -> string -> option SeamRecord;
  writeSeamRecord : S -> string -> SeamRecord -> S;
  clearSeamRecord : S -> string -> S
}.

(** A store whose seam records are its own: no other operation touches them, and they
    touch nothing else. *)
Class BackendLaws (S : Type) `{StateStoreLaws S} `{!StateStoreBackend S} : Type := {
  migrate_law floor s h : repr floor s h -> migrate s = s;
  writeSeamRecord_law floor s h key value :
    repr floor s h ->
    repr floor (writeSeamRecord s key value) h /\ declarations (writeSeamRecord s key value) = declarations s
    /\ (forall k, readCursor (writeSeamRecord s key value) k = readCursor s k)
    /\ forall k, readSeamRecord (writeSeamRecord s key value) k = if decide (key = k) then Some value else readSeamRecord s k;
  clearSeamRecord_law floor s h key :
    repr floor s h ->
    repr floor (clearSeamRecord s key) h /\ declarations (clearSeamRecord s key) = declarations s
    /\ (forall k, readCursor (clearSeamRecord s key) k = readCursor s k)
    /\ forall k, readSeamRecord (clearSeamRecord s key) k = if decide (key = k) then None else readSeamRecord s k;
  applyBlock_records floor s h block mutations cursor s' k :
    repr floor s h -> applyBlock s block mutations cursor = Ok s' -> readSeamRecord s' k = readSeamRecord s k;
  (** A historical read that is not refused answers what the history held then. *)
  getAsOf_law floor s h entity id e key at_ :
    repr floor s h -> jm_get (declarations s) entity = Some e -> entityKey e id = Ok key -> floor <= at_ ->
    match assertRetained (capabilities s) at_ (hb_number <$> last h) with
    | Ok _ => answers e (as_of h at_ key) (getAsOf s entity id at_)
    | Err error => getAsOf s entity id at_ = Err error
    end
}.

(** Where the store's history starts is a record of its own: nothing a backend does but
    writing or clearing that record touches it. *)
Class OriginLaws (S : Type) `{StateStoreBackend S} : Prop := {
  migrate_origin s : readSeamRecord (migrate s) "snapshotOrigin" = readSeamRecord s "snapshotOrigin";
  applyBlock_origin s block mutations cursor s' :
    applyBlock s block mutations cursor = Ok s' -> readSeamRecord s' "snapshotOrigin" = readSeamRecord s "snapshotOrigin";
  revertTo_origin s n s' : revertTo s n = Ok s' -> readSeamRecord s' "snapshotOrigin" = readSeamRecord s "snapshotOrigin";
  prune_origin s budget p : prune s budget = Ok p -> readSeamRecord p.1 "snapshotOrigin" = readSeamRecord s "snapshotOrigin";
  writeCursor_origin s key value : readSeamRecord (writeCursor s key value) "snapshotOrigin" = readSeamRecord s "snapshotOrigin";
  clearCursor_origin s key : readSeamRecord (clearCursor s key) "snapshotOrigin" = readSeamRecord s "snapshotOrigin"
}.

#[export] Instance memory_backend : StateStoreBackend MemoryStateStore := {
  migrate s := s;
  capabilities := m_capabilities;
  getAsOf := m_getAsOf;
  listCurrent := m_listCurrent;
  listAsOf := m_listAsOf;
  prune := m_prune;
  readRetentionEnforcement := m_readRetentionEnforcement;
  readSeamRecord := m_readSeamRecord;
  writeSeamRecord := m_writeSeamRecord;
  clearSeamRecord := m_clearSeamRecord
}.

Lemma with_records_repr floor s h records : memory_repr floor s h -> memory_repr floor (with_records s records) h.
Proof. by intros []. Qed.

#[export] Program Instance memory_backend_laws : BackendLaws MemoryStateStore.
Next Obligation. done. Qed.
Next Obligation. intros floor s h key value Hr. split; [by apply with_records_repr|]. split_and!; [done..|]. intros k. apply jm_get_set. Qed.
Next Obligation. intros floor s h key Hr. split; [by apply with_records_repr|]. split_and!; [done..|]. intros k. apply jm_get_delete. Qed.
Next Obligation.
  intros floor s h block mutations cursor s' k _. change (@applyBlock _ memory_store) with m_applyBlock. unfold m_applyBlock.
  intros (hash & _ & (? & _ & (? & _ & (? & _ & (planned & _ & [= <-])%bind_Ok)%bind_Ok)%bind_Ok)%bind_Ok)%bind_Ok. done.
Qed.
Next Obligation.
  intros floor s h entity id e key at_ Hr He Hkey Hle. change (getAsOf s) with (m_getAsOf s). unfold m_getAsOf. change (capabilities s) with (m_capabilities s).
  rewrite <- (mr_tip _ _ _ Hr). destruct (assertRetained _ _ _); [|done]. by apply (m_read_as_of floor s h entity e id key at_).
Qed.

#[export] Instance memory_origin : OriginLaws MemoryStateStore.
Proof.
  split; try done.
  - intros s block mutations cursor s' Happ. change (m_applyBlock s block mutations cursor = Ok s') in Happ. unfold m_applyBlock in Happ.
    by apply bind_Ok in Happ as (? & _ & (? & _ & (? & _ & (? & _ & (? & _ & [= <-])%bind_Ok)%bind_Ok)%bind_Ok)%bind_Ok).
  - intros s n s' [= <-]. change (m_readSeamRecord (m_revertTo s n) "snapshotOrigin" = m_readSeamRecord s "snapshotOrigin"). unfold m_revertTo. by repeat case_match.
  - intros s budget p Hp. change (m_prune s budget = Ok p) in Hp. unfold m_prune in Hp. apply bind_Ok in Hp as (b & _ & Hp).
    repeat case_match; injection Hp as <-; try done;
      by apply jm_get_set_ne.
Qed.

Section Light.
Context `{immer : ImmerLaws}.

#[export] Instance patch_backend : StateStoreBackend PatchStateStore := {
  migrate s := s;
  capabilities := p_capabilities;
  getAsOf := p_getAsOf;
  listCurrent := p_listCurrent;
  listAsOf := p_listAsOf;
  prune := p_prune;
  readRetentionEnforcement := p_readRetentionEnforcement;
  readSeamRecord := p_readSeamRecord;
  writeSeamRecord := p_writeSeamRecord;
  clearSeamRecord := p_clearSeamRecord
}.

Lemma p_with_records_repr floor s h records : patch_repr floor s h -> patch_repr floor (p_with_records s records) h.
Proof. by intros []. Qed.

#[export] Program Instance patch_backend_laws : BackendLaws PatchStateStore.
Next Obligation. done. Qed.
Next Obligation. intros floor s h key value [Hr Hc]. split; [split; [by apply p_with_records_repr|done]|]. split_and!; [done..|]. intros k. apply jm_get_set. Qed.
Next Obligation. intros floor s h key [Hr Hc]. split; [split; [by apply p_with_records_repr|done]|]. split_and!; [done..|]. intros k. apply jm_get_delete. Qed.
Next Obligation.
  intros floor s h block mutations cursor s' k _. change (@applyBlock _ patch_store) with p_applyBlock. unfold p_applyBlock.
  intros (hash & _ & (? & _ & (? & _ & (? & _ & (planned & _ & Hs)%bind_Ok)%bind_Ok)%bind_Ok)%bind_Ok)%bind_Ok.
  destruct (produceWithPatches _ _) as [[? ?] ?]. by injection Hs as <-.
Qed.
Next Obligation.
  intros floor s h entity id e key at_ Hr He Hkey Hle. change (getAsOf s) with (p_getAsOf s). unfold p_getAsOf. change (capabilities s) with (p_capabilities s).
  unfold assertRetained. by destruct (isBlockNumber at_).
Qed.

#[export] Instance patch_origin : OriginLaws PatchStateStore.
Proof.
  split; try done.
  - intros s block mutations cursor s' Happ. change (p_applyBlock s block mutations cursor = Ok s') in Happ. unfold p_applyBlock in Happ.
    apply bind_Ok in Happ as (? & _ & (? & _ & (? & _ & (? & _ & (? & _ & Hs)%bind_Ok)%bind_Ok)%bind_Ok)%bind_Ok).
    destruct (produceWithPatches _ _) as [[? ?] ?]. by injection Hs as <-.
  - intros s n s' Hs. change (p_revertTo s n = Ok s') in Hs. unfold p_revertTo in Hs. repeat case_match; by simplify_eq.
  - intros s budget p Hp. change (p_prune s budget = Ok p) in Hp. unfold p_prune in Hp. apply bind_Ok in Hp as (b & _ & Hp).
    case_match; injection Hp as <-; [|done]. by apply jm_get_set_ne.
Qed.
End Light.
