(* ===== verification/Backends.v ===== *)
(** * The light store answers as the reference store does

    [PatchStateStore] and [MemoryStateStore] driven by the same calls: what one
    admits the other admits, what one answers the other answers, and the one thing
    the light store may refuse is a revert its pruned patches can no longer undo.
    The rows of the light store are plain objects, so the ids a script names are ones
    no object inherits a member under. *)
From S2P Require Import Prelude JsMap Entities Retention StoreSpec MemoryStore PatchStore.

(** ** Scripts of calls *)
Inductive Call : Type :=
  | CallApply (block : BlockPointer) (mutations : list Mutation) (cursor : option (string * string))
  | CallRevert (keepUpTo : Z)
  | CallPrune (maxVersions : option Z)
  | CallCursor (key value : string).

Definition call_ok (entities : entities_map) (c : Call) : Prop :=
  match c with
  | CallApply block mutations _ =>
      0 <= bp_number block
      /\ Forall (fun m => plainKey entities (mutation_entity m) (mutation_id m) = true) mutations
  | CallRevert keepUpTo => -1 <= keepUpTo
  | CallPrune maxVersions => is_Ok (pruneBudget maxVersions)
  | CallCursor _ _ => True
  end.

Fixpoint run_calls {S} (step : S -> Call -> result StoreError S) (s : S) (calls : list Call) : result StoreError S :=
  match calls with
  | [] => Ok s
  | c :: calls => s' ← step s c; run_calls step s' calls
  end.

(** The reference store is never pruned: it is what the light one is measured by. *)
Definition m_call (s : MemoryStateStore) (c : Call) : result StoreError MemoryStateStore :=
  match c with
  | CallApply block mutations cursor => m_applyBlock s block mutations cursor
  | CallRevert keepUpTo => Ok (m_revertTo s keepUpTo)
  | CallPrune _ => Ok s
  | CallCursor key value => Ok (m_writeCursor s key value)
  end.

Section Agreement.
Context `{ImmerLaws}.

Definition p_call (s : PatchStateStore) (c : Call) : result StoreError PatchStateStore :=
  match c with
  | CallApply block mutations cursor => p_applyBlock s block mutations cursor
  | CallRevert keepUpTo => p_revertTo s keepUpTo
  | CallPrune maxVersions => fst <$> p_prune s maxVersions
  | CallCursor key value => Ok (p_writeCursor s key value)
  end.

Record paired (floor : Z) (p : PatchStateStore) (m : MemoryStateStore) (h : history) : Prop := {
  paired_patch : patch_repr floor p h;
  paired_memory : memory_repr (-1) m h;
  paired_entities : p_entities p = m_entities m;
  paired_cursors : p_cursors p = m_cursors m;
  paired_numbers : Forall (fun b => 0 <= hb_number b) h
}.

(** The two answers to one call. *)
Definition refused_alike (c : Call) (e : StoreError) (answer : result StoreError MemoryStateStore) : Prop :=
  answer = Err e
  \/ exists keepUpTo missing deepest depth,
       c = CallRevert keepUpTo /\ e = RevertBeyondPatchHistory keepUpTo missing deepest depth /\ missing <> [].

Lemma applyBlock_alike floor p m h block mutations cursor :
  paired floor p m h ->
  match p_applyBlock p block mutations cursor, m_applyBlock m block mutations cursor with
  | Ok _, Ok _ => True
  | Err e, Err e' => e = e'
  | _, _ => False
  end.
Proof.
  intros [Hp Hm He _ _]. unfold p_applyBlock, m_applyBlock.
  rewrite He, (pr_blocks _ _ _ Hp), (pr_hashes _ _ _ Hp), (pr_tip _ _ _ Hp), (mr_tip _ _ _ Hm).
  assert (m_blocks m = block_entries h) as -> by apply (mr_blocks _ _ _ Hm).
  assert (m_hashes m = hash_entries h) as -> by apply (mr_hashes _ _ _ Hm).
  destruct (normalizeBlockHash _) as [hash|]; [|done]. cbn [mbind result_bind].
  destruct (assert_or (negb (jm_has (block_entries h) _)) _); [cbn [mbind result_bind]|done].
  destruct (assert_or (negb (jm_has (hash_entries h) _)) _); [cbn [mbind result_bind]|done].
  destruct (match hb_number <$> last h with
    | Some tip => assert_or (bool_decide (tip < bp_number block)) (BlockNotAboveTip (bp_number block) tip)
    | None => Ok tt end); [cbn [mbind result_bind]|done].
  destruct (mapR _ mutations); [cbn [mbind result_bind]|done].
  by destruct (produceWithPatches _ _) as [[next patches] reversal].
Qed.

Lemma apply_paired floor p m h block mutations cursor p' m' :
  paired floor p m h -> call_ok (m_entities m) (CallApply block mutations cursor) ->
  p_applyBlock p block mutations cursor = Ok p' -> m_applyBlock m block mutations cursor = Ok m' ->
  exists h', paired floor p' m' h'.
Proof.
  intros [Hp Hm He Hc Hn] [Hnum Hplain] Hpa Hma.
  apply (p_applyBlock_spec _ _ _ _ _ _ _ Hp) in Hpa as (b & Had & Hp').
  apply (m_applyBlock_spec _ _ _ _ _ _ _ Hm) in Hma as (b' & Had' & Hm').
  assert (b' = b) as -> by (eapply admits_unique; [exact Had'|by rewrite <- He]).
  exists (h ++ [b]). split.
  - eapply patch_repr_apply; [done..| |done]. destruct Had as (hash & ps & _ & _ & _ & Hps & ->).
    rewrite He in Hps. by eapply plans_plain.
  - subst m'. by eapply memory_repr_apply.
  - destruct (produceWithPatches _ _) as [[next patches] reversal]. by subst.
  - destruct (produceWithPatches _ _) as [[next patches] reversal]. subst. cbn. by rewrite Hc.
  - apply Forall_app. split; [done|]. apply Forall_singleton.
    by destruct Had as (hash & ps & _ & _ & _ & _ & ->).
Qed.

Lemma revert_paired floor p m h keep :
  paired floor p m h -> -1 <= keep ->
  match p_revertTo p keep with
  | Ok p' => exists h', paired floor p' (m_revertTo m keep) h'
  | Err e => exists missing deepest depth, e = RevertBeyondPatchHistory keep missing deepest depth /\ missing <> []
  end.
Proof.
  intros [Hp Hm He Hc Hn] Hkeep. destruct (decide (keep < 0)) as [Hneg|Hpos].
  - assert (keep = -1) as -> by lia. destruct (patch_wipe floor p h Hp) as (p' & -> & Hp' & He' & Hc').
    exists []. split; [apply Hp'|by eapply memory_repr_wipe|(simpl; congruence)|(simpl; by rewrite Hc')|constructor].
  - pose proof (patch_revert floor p h keep Hp ltac:(lia)) as Hrev. simpl in Hrev.
    destruct (p_revertTo p keep) as [p'|e].
    + destruct Hrev as (_ & Hp' & He' & Hc'). exists (history_upto keep h).
      split; [done|by apply memory_repr_revert; [|lia]|(simpl; congruence)|(simpl; by rewrite Hc')|].
      eapply Forall_sublist; [apply sublist_filter|done].
    + destruct Hrev as [Hne ->]. eexists _, _, _. split; [done|]. by intros Hnil%fmap_nil_inv.
Qed.

Lemma call_paired floor p m h c :
  paired floor p m h -> call_ok (m_entities m) c ->
  match p_call p c with
  | Ok p' => exists m' floor' h', m_call m c = Ok m' /\ paired floor' p' m' h'
  | Err e => refused_alike c e (m_call m c)
  end.
Proof.
  intros Hpair Hok. destruct c as [block mutations cursor|keep|budget|key value]; simpl in *.
  - pose proof (applyBlock_alike floor p m h block mutations cursor Hpair) as Halike.
    destruct (p_applyBlock _ _ _ _) as [p'|e] eqn:Hpa, (m_applyBlock _ _ _ _) as [m'|e'] eqn:Hma; try done.
    + destruct (apply_paired floor p m h block mutations cursor p' m') as [h' Hh']; try done. by exists m', floor, h'.
    + left. by rewrite Halike.
  - pose proof (revert_paired floor p m h keep Hpair Hok) as Hrev. destruct (p_revertTo p keep) as [p'|e].
    + destruct Hrev as [h' Hh']. by exists (m_revertTo m keep), floor, h'.
    + destruct Hrev as (missing & deepest & depth & -> & Hne). right. by eexists keep, missing, deepest, depth.
  - destruct (p_prune p budget) as [[p' report]|e] eqn:Hprune; simpl.
    + destruct Hpair as [Hp Hm He Hc Hn].
      destruct (patch_prune _ _ _ _ _ _ Hp Hprune) as (Hp' & He' & _ & Hc'). eexists m, _, h. split; [done|].
      split; [exact Hp'|done|congruence|congruence|done].
    + unfold p_prune in Hprune. destruct (pruneBudget budget); [|done]. cbn [mbind result_bind] in Hprune.
      by destruct (p_tip p ≫= _).
  - destruct Hpair as [Hp Hm He Hc Hn]. exists (m_writeCursor m key value), floor, h. split; [done|].
    split; [by apply p_with_cursors_repr|by apply with_cursors_repr|done|simpl; by rewrite Hc|done].
Qed.

Lemma m_call_entities m c m' : m_call m c = Ok m' -> m_entities m' = m_entities m.
Proof.
  destruct c as [block mutations cursor|keep|budget|key value]; simpl; try by intros [= <-].
  unfold m_applyBlock. by intros (? & _ & (? & _ & (? & _ & (? & _ & (? & _ & [= <-])%bind_Ok)%bind_Ok)%bind_Ok)%bind_Ok)%bind_Ok.
Qed.

Lemma calls_paired floor p m h calls p' :
  paired floor p m h -> Forall (call_ok (m_entities m)) calls -> run_calls p_call p calls = Ok p' ->
  exists m' floor' h', run_calls m_call m calls = Ok m' /\ paired floor' p' m' h' /\ m_entities m' = m_entities m.
Proof.
  revert floor p m h. induction calls as [|c calls IH]; intros floor p m h Hpair Hok Hrun.
  - injection Hrun as <-. by exists m, floor, h.
  - apply Forall_cons in Hok as [Hc Hok].
    cbn [run_calls] in *. pose proof (call_paired floor p m h c Hpair Hc) as Hstep.
    apply bind_Ok in Hrun as (p1 & Hp1 & Hrun). rewrite Hp1 in Hstep. destruct Hstep as (m1 & floor1 & h1 & Hm1 & Hpair1).
    pose proof (m_call_entities m c m1 Hm1) as He. rewrite Hm1. cbn [mbind result_bind].
    destruct (IH floor1 p1 m1 h1 Hpair1 ltac:(by rewrite He) Hrun) as (m' & floor' & h' & Hm' & Hpair' & He').
    exists m', floor', h'. split_and!; [done..|congruence].
Qed.

Lemma reads_paired floor p m h entity id :
  paired floor p m h -> plainKey (m_entities m) entity id = true ->
  match p_getCurrent p entity id, m_getCurrent m entity id with
  | Ok a, Ok a' => exists e, jm_get (m_entities m) entity = Some e /\ same_answer e a a'
  | Err e, Err e' => e = e'
  | _, _ => False
  end.
Proof.
  intros [Hp Hm He _ _] Hplain. destruct (jm_get (m_entities m) entity) as [e|] eqn:Hget.
  2:{ unfold p_getCurrent, m_getCurrent, m_read, mustGet. by rewrite He, Hget. }
  destruct (entityKey e id) as [key|err] eqn:Hkey.
  - pose proof (p_getCurrent_answers floor p h entity e id key Hp ltac:(by rewrite He) Hkey ltac:(by rewrite He)) as Hpa.
    pose proof (m_getCurrent_answers (-1) m h entity e id key Hm Hget Hkey) as Hma. unfold answers in *.
    destruct (current h key) as [row|].
    + destruct Hpa as (a & -> & Ha), Hma as (a' & -> & Ha'). exists e. split; [done|].
      intros column Hcol. by rewrite Ha, Ha'.
    + rewrite Hpa, Hma. by exists e.
  - unfold p_getCurrent, m_getCurrent, m_read, mustGet, entityValuesKey. rewrite He, Hget. cbn [mbind result_bind].
    rewrite Hkey. unfold entityKey in Hkey. destruct (idValues e id); [done|]. by injection Hkey as ->.
Qed.

(** C13. The light store, pruned at any point and by any budget, is the reference
    store, over ids whose bucket key is no member of [Object.prototype]: a script it
    accepts the reference accepts, every current read of such an id and every cursor
    agree afterwards, and the next call is answered or refused alike, except a revert
    whose reverse patches are gone, which it refuses whole. *)
Theorem patch_follows_memory entities retention depth p0 m0 calls p :
  entities_wf entities -> newPatchStore entities retention depth = Ok p0 ->
  newMemoryStore entities None None = Ok m0 ->
  Forall (call_ok entities) calls -> run_calls p_call p0 calls = Ok p ->
  exists m, run_calls m_call m0 calls = Ok m
    /\ (forall entity id, plainKey entities entity id = true ->
          match p_getCurrent p entity id, m_getCurrent m entity id with
          | Ok a, Ok a' => exists e, jm_get entities entity = Some e /\ same_answer e a a'
          | Err e, Err e' => e = e'
          | _, _ => False
          end)
    /\ (forall key, p_readCursor p key = m_readCursor m key)
    /\ (forall c, call_ok entities c ->
          match p_call p c with
          | Ok _ => is_Ok (m_call m c)
          | Err e => refused_alike c e (m_call m c)
          end).
Proof.
  intros Hew Hp0 Hm0 Hok Hrun. destruct (patch_new entities retention depth p0 Hew Hp0) as [He0 Hr0].
  destruct (memory_run_repr entities m0 [] (-1) Hew) as [He0' Hr0']; [by eapply run_new|].
  assert (paired (-1) p0 m0 []) as Hpair.
  { split; [done|done|congruence| |constructor]. unfold newPatchStore in Hp0.
    apply bind_Ok in Hp0 as ([] & _ & ([] & _ & [= <-])%bind_Ok). by injection Hm0 as <-. }
  destruct (calls_paired _ _ _ _ calls p Hpair ltac:(by rewrite He0') Hrun) as (m & floor & h & Hm & Hpair' & He).
  rewrite He0' in He. exists m. split_and!; [done| | |].
  - intros entity id Hplain. rewrite <- He. apply (reads_paired floor p m h); [done|by rewrite He].
  - intros key. unfold p_readCursor, m_readCursor. by rewrite (paired_cursors _ _ _ _ Hpair').
  - intros c Hc. pose proof (call_paired floor p m h c Hpair' ltac:(by rewrite He)) as Hstep.
    destruct (p_call p c); [|done]. by destruct Hstep as (m' & _ & _ & -> & _).
Qed.
End Agreement.

(** ** The theorem at work

    An immer whose patches are whole states. *)
Definition snapshots : Immer :=
  Build_Immer LightState (fun state recipe => (recipe state, [recipe state], [state]))
    (fun state patches => default state (last patches)).

Lemma snapshots_laws : @ImmerLaws snapshots.
Proof. by split. Qed.

Definition sample_calls : list Call :=
  [CallApply (sample_pointer 1 "0xa1") [sample_upsert 7 100] (Some ("sync", "one"));
   CallApply (sample_pointer 5 "0xa5") [sample_upsert 7 200; sample_upsert 8 10] None;
   CallPrune None;
   CallApply (sample_pointer 10 "0xaa") [Delete "Item" (sample_id 7)] (Some ("sync", "ten"));
   CallPrune (Some 1);
   CallRevert 8].

Lemma patch_follows_memory_witness :
  match @newPatchStore snapshots sample_entities None (Some 2), newMemoryStore sample_entities None None with
  | Ok p0, Ok m0 =>
      match run_calls (@p_call snapshots) p0 sample_calls with
      | Ok p =>
          (exists m, run_calls m_call m0 sample_calls = Ok m
             /\ (forall key, p_readCursor p key = m_readCursor m key)
             /\ match @p_getCurrent snapshots p "Item" (sample_id 7), m_getCurrent m "Item" (sample_id 7) with
                | Ok a, Ok a' => exists e, jm_get sample_entities "Item" = Some e /\ same_answer e a a'
                | Err e, Err e' => e = e'
                | _, _ => False
                end)
          /\ p_revertTo p 2 = Err (RevertBeyondPatchHistory 2 [5] (Some 5) (Some 2))
      | Err _ => False
      end
  | _, _ => False
  end.
Proof.
  destruct (@newPatchStore snapshots sample_entities None (Some 2)) as [p0|e] eqn:Hp0; [|done].
  destruct (newMemoryStore sample_entities None None) as [m0|e] eqn:Hm0; [|done].
  destruct (run_calls (@p_call snapshots) p0 sample_calls) as [p|e] eqn:Hcalls.
  2:{ injection Hp0 as <-. not_error Hcalls. }
  split.
  - destruct (@patch_follows_memory snapshots snapshots_laws sample_entities None (Some 2) p0 m0 sample_calls p)
      as (m & Hm & Hread & Hcur & _); [apply sample_entities_wf|done|done| |done|].
    + repeat constructor; vm_compute; done.
    + exists m. split; [exact Hm|]. split; [exact Hcur|]. exact (Hread "Item" (sample_id 7) eq_refl).
  - assert ((fun p => p_revertTo p 2) <$> run_calls (@p_call snapshots) p0 sample_calls
      = Ok (Err (RevertBeyondPatchHistory 2 [5] (Some 5) (Some 2)))) as Hrev; [|rewrite Hcalls in Hrev; by injection Hrev].
    injection Hp0 as <-. by vm_compute.
Defined.

(** An id that names an inherited member: the light store answers a row nobody wrote,
    the reference store none. *)
Definition inherited_id : EntityId := {[ "id" := IdText "constructor" ]}.

Example inherited_row_answered :
  match @newPatchStore snapshots sample_entities None None, newMemoryStore sample_entities None None with
  | Ok p0, Ok m0 =>
      @p_getCurrent snapshots p0 "Item" inherited_id = Ok (Some ∅) /\ m_getCurrent m0 "Item" inherited_id = Ok None
      /\ plainKey sample_entities "Item" inherited_id = false
  | _, _ => False
  end.
Proof. by vm_compute. Qed.
