(* ===== verification/MutationContext.v ===== *)
(** * The staging area of one block

    [createMutationContext] of [packages/state-store/src/mutation-context.ts],
    over any store, and the programs an author's handlers run against it.  A
    handler is author code: here it is a tree of the calls it makes, whatever the
    answers.  The one call of the context that is not modelled is [list]. *)
From S2P Require Import Prelude JsMap Entities StoreSpec.

(** ** What a handler does *)
Inductive Handler : Type :=
  | Return
  | Throw
  | Get (entity : string) (id : EntityId) (k : option Values -> Handler)
  | Set_ (entity : string) (id : EntityId) (values : Values) (k : Handler)
  | Update (entity : string) (id : EntityId) (values : Values) (k : Handler)
  | Remove (entity : string) (id : EntityId) (k : Handler).

(** An error a fold may end in: the store's, or the author's own. *)
Inductive FoldError : Type :=
  | StoreFailed (error : StoreError)
  | HandlerThrew
  | NoTimestamp (number : Z) (hash : string)
  | InvalidTimestamp.

Definition lift {A} (r : result StoreError A) : result FoldError A :=
  match r with Ok a => Ok a | Err e => Err (StoreFailed e) end.

(** ** The context

    [read] is [store.getCurrent]; [pending] is the [Map] of staged mutations. *)
Section Context.
Context (entities : entities_map) (read : string -> EntityId -> result StoreError (option Values)).

Abbreviation staging := (list (string * Mutation)).

Definition keyOf (entity : string) (id : EntityId) : result StoreError string :=
  declaration ← mustGet entities entity;
  entityKey declaration id.

Definition mc_get (pending : staging) (entity : string) (id : EntityId)
    : result StoreError (option Values) :=
  declaration ← mustGet entities entity;
  key ← entityKey declaration id;
  match jm_get pending key with
  | Some (Delete _ _) => Ok None
  | Some (Upsert _ staged_id values) =>
      staged ← idValues declaration staged_id;
      Ok (Some (wholeRow declaration staged values))
  | None => read entity id
  end.

Definition mc_set (pending : staging) (entity : string) (id : EntityId) (values : Values)
    : result StoreError staging :=
  key ← keyOf entity id;
  Ok (jm_set pending key (Upsert entity id values)).

Definition mc_delete (pending : staging) (entity : string) (id : EntityId) : result StoreError staging :=
  key ← keyOf entity id;
  Ok (jm_set pending key (Delete entity id)).

(** Only the declared fields of the current row survive the spread. *)
Definition mergedFields (declaration : NormalizedEntity) (current : option Values) : Values :=
  match current with
  | None => ∅
  | Some row => filter (fun p => p.1 ∈ (entity_fields declaration).*1) row
  end.

Definition mc_update (pending : staging) (entity : string) (id : EntityId) (values : Values)
    : result StoreError staging :=
  declaration ← mustGet entities entity;
  current ← mc_get pending entity id;
  mc_set pending entity id (values ∪ mergedFields declaration current).

Fixpoint runHandler (pending : staging) (h : Handler) : result FoldError staging :=
  match h with
  | Return => Ok pending
  | Throw => Err HandlerThrew
  | Get entity id k =>
      match mc_get pending entity id with
      | Ok answer => runHandler pending (k answer)
      | Err e => Err (StoreFailed e)
      end
  | Set_ entity id values k =>
      match mc_set pending entity id values with
      | Ok pending' => runHandler pending' k
      | Err e => Err (StoreFailed e)
      end
  | Update entity id values k =>
      match mc_update pending entity id values with
      | Ok pending' => runHandler pending' k
      | Err e => Err (StoreFailed e)
      end
  | Remove entity id k =>
      match mc_delete pending entity id with
      | Ok pending' => runHandler pending' k
      | Err e => Err (StoreFailed e)
      end
  end.

(** [mutations()]: coalesced per business key, in first-touch order. *)
Definition stagedMutations (pending : staging) : list Mutation := pending.*2.
End Context.

(** ** A staged block is keyed *)
Definition staging_wf (entities : entities_map) (pending : list (string * Mutation)) : Prop :=
  jm_wf pending /\ forall key m, (key, m) ∈ pending -> keyOf entities (mutation_entity m) (mutation_id m) = Ok key.

Lemma staging_wf_nil entities : staging_wf entities [].
Proof. split; [constructor|]. by intros key m ?%not_elem_of_nil. Qed.

Lemma elem_of_jm_set {K A} `{Countable K} (m : list (K * A)) k a p :
  p ∈ jm_set m k a -> p = (k, a) \/ p ∈ m.
Proof.
  induction m as [|[k' a'] m IH]; simpl; [by intros ->%list_elem_of_singleton; left|].
  case_decide; intros [->|Hp]%elem_of_cons; auto; [right; by right|right; left|].
  destruct (IH Hp) as [->|]; [by left|right; by right].
Qed.

Lemma staging_wf_set entities pending key m :
  staging_wf entities pending -> keyOf entities (mutation_entity m) (mutation_id m) = Ok key ->
  staging_wf entities (jm_set pending key m).
Proof.
  intros [Hwf Hk] Hkey. split; [by apply jm_wf_set|].
  intros key' m' [[= -> ->]|Hin]%elem_of_jm_set; auto.
Qed.

Lemma mc_set_wf entities pending entity id values pending' :
  staging_wf entities pending -> mc_set entities pending entity id values = Ok pending' ->
  staging_wf entities pending'.
Proof. intros Hwf (key & Hk & [= <-])%bind_Ok. by apply staging_wf_set. Qed.

Lemma mc_delete_wf entities pending entity id pending' :
  staging_wf entities pending -> mc_delete entities pending entity id = Ok pending' ->
  staging_wf entities pending'.
Proof. intros Hwf (key & Hk & [= <-])%bind_Ok. by apply staging_wf_set. Qed.

Lemma runHandler_wf entities read pending h pending' :
  staging_wf entities pending -> runHandler entities read pending h = Ok pending' ->
  staging_wf entities pending'.
Proof.
  revert pending. induction h as [| |entity id k IH|entity id values k IH|entity id values k IH|entity id k IH];
    intros pending Hwf; cbn [runHandler].
  - by intros [= <-].
  - done.
  - destruct (mc_get _ _ _ _ _); [|done]. by apply IH.
  - destruct (mc_set _ _ _ _ _) eqn:Hs; [|done]. apply IH. by eapply mc_set_wf.
  - destruct (mc_update _ _ _ _ _ _) eqn:Hu; [|done]. apply IH. unfold mc_update in Hu.
    apply bind_Ok in Hu as (d & _ & (c & _ & Hu)%bind_Ok). by eapply mc_set_wf.
  - destruct (mc_delete _ _ _ _) eqn:Hd; [|done]. apply IH. by eapply mc_delete_wf.
Qed.

(** ** Handlers that read only what their entities declare

    An author's handler does not depend on the columns its entities do not
    declare. *)
Inductive declared_only (entities : entities_map) : Handler -> Handler -> Prop :=
  | declared_return : declared_only entities Return Return
  | declared_throw : declared_only entities Throw Throw
  | declared_get entity id k k' :
      (forall e a a', jm_get entities entity = Some e -> same_answer e a a' ->
         declared_only entities (k a) (k' a')) ->
      declared_only entities (Get entity id k) (Get entity id k')
  | declared_set entity id values k k' :
      declared_only entities k k' ->
      declared_only entities (Set_ entity id values k) (Set_ entity id values k')
  | declared_update entity id values k k' :
      declared_only entities k k' ->
      declared_only entities (Update entity id values k) (Update entity id values k')
  | declared_remove entity id k k' :
      declared_only entities k k' -> declared_only entities (Remove entity id k) (Remove entity id k').

(** Two ways of reading that agree on the declared columns. *)
Definition reads_agree (entities : entities_map)
    (read read' : string -> EntityId -> result StoreError (option Values)) : Prop :=
  forall entity e id key, jm_get entities entity = Some e -> entityKey e id = Ok key ->
    exists a a', read entity id = Ok a /\ read' entity id = Ok a' /\ same_answer e a a'.

Lemma mc_get_agree entities read read' pending entity id :
  reads_agree entities read read' ->
  match mc_get entities read pending entity id with
  | Ok a => exists e a', jm_get entities entity = Some e
      /\ mc_get entities read' pending entity id = Ok a' /\ same_answer e a a'
  | Err error => mc_get entities read' pending entity id = Err error
  end.
Proof.
  intros Hag. unfold mc_get, mustGet. destruct (jm_get entities entity) as [e|] eqn:He; [|done].
  cbn [mbind result_bind]. destruct (entityKey e id) as [key|] eqn:Hkey; [|done]. cbn [mbind result_bind].
  destruct (jm_get pending key) as [[n i values|n i]|].
  - destruct (idValues e i) as [vs|]; [|done]. cbn [mbind result_bind].
    eexists e, _. split_and!; [done..|apply same_answer_refl].
  - by eexists e, _.
  - destruct (Hag entity e id key He Hkey) as (a & a' & -> & -> & Hsame). by exists e, a'.
Qed.

Lemma mergedFields_agree e a a' : same_answer e a a' -> mergedFields e a = mergedFields e a'.
Proof.
  destruct a as [row|], a' as [row'|]; try done. intros Hsame. simpl. apply map_eq. intros f.
  destruct (decide (f ∈ (entity_fields e).*1)) as [Hf|Hf].
  - assert (row !! f = row' !! f) as Heq by (apply Hsame, elem_of_app; by right).
    rewrite !map_lookup_filter, Heq. destruct (row' !! f); [|done]. simpl. by rewrite !option_guard_True.
  - rewrite !map_lookup_filter. destruct (row !! f), (row' !! f); simpl; rewrite ?option_guard_False by done; done.
Qed.

(** Such a handler stages the same mutations over any two stores that agree on
    the declared columns, and fails the same way. *)
Lemma runHandler_agree entities read read' h h' :
  reads_agree entities read read' -> declared_only entities h h' ->
  forall pending, runHandler entities read pending h = runHandler entities read' pending h'.
Proof.
  intros Hag. induction 1 as [| |entity id k k' Hk IH|entity id values k k' Hk IH|entity id values k k' Hk IH
    |entity id k k' Hk IH]; intros pending; cbn [runHandler]; try done.
  - pose proof (mc_get_agree _ _ _ pending entity id Hag) as Hget.
    destruct (mc_get entities read pending entity id) as [a|]; [|by rewrite Hget].
    destruct Hget as (e & a' & He & -> & Hsame). by apply (IH e).
  - destruct (mc_set _ _ _ _ _); [apply IH|done].
  - unfold mc_update. unfold mustGet. destruct (jm_get entities entity) as [e|] eqn:He; [|done].
    cbn [mbind result_bind]. pose proof (mc_get_agree _ _ _ pending entity id Hag) as Hget.
    destruct (mc_get entities read pending entity id) as [a|]; [|by rewrite Hget].
    destruct Hget as (e' & a' & He' & -> & Hsame). cbn [mbind result_bind].
    rewrite He in He'. injection He' as <-. rewrite (mergedFields_agree _ _ _ Hsame).
    destruct (mc_set _ _ _ _ _); [apply IH|done].
  - destruct (mc_delete _ _ _ _); [apply IH|done].
Qed.

(** ** Reading inside the block is reading after it *)

Lemma plan_of_key entities key m p :
  keyOf entities (mutation_entity m) (mutation_id m) = Ok key -> plan entities m = Ok p -> pl_key p = key.
Proof.
  unfold keyOf, plan. destruct (mustGet _ _) as [e|]; [|done]. cbn [mbind result_bind].
  intros Hkey (id & _ & (st & _ & (key' & Hk' & [= <-])%bind_Ok)%bind_Ok)%bind_Ok. simpl. congruence.
Qed.

(** Planning a staged block gives one operation per staged key. *)
Lemma planned_for_key entities pending planned key :
  staging_wf entities pending -> mapR (plan entities) (stagedMutations pending) = Ok planned ->
  match jm_get pending key with
  | Some m => exists p, plan entities m = Ok p /\ filter (fun p => pl_key p = key) planned = [p]
  | None => filter (fun p => pl_key p = key) planned = []
  end.
Proof.
  unfold stagedMutations. revert planned.
  induction pending as [|[k m] pending IH]; intros planned [Hnd Hk]; csimpl; cbn [mapR jm_get].
  { by intros [= <-]. }
  destruct (plan entities m) as [p|] eqn:Hp; [|done].
  destruct (mapR (plan entities) (pending.*2)) as [ps|] eqn:Hps; [|done]. intros [= <-].
  unfold jm_wf in Hnd. csimpl in Hnd. apply NoDup_cons in Hnd as [Hfresh Hnd].
  assert (pl_key p = k) as Hpk by (eapply plan_of_key; [apply (Hk k m); left|done]).
  assert (staging_wf entities pending) as Hwf by (split; [done|intros key' m' Hin; apply Hk; by right]).
  specialize (IH ps Hwf eq_refl). rewrite filter_cons, Hpk. destruct (decide (k = key)) as [->|Hne].
  - exists p. split; [done|]. apply jm_get_None in Hfresh. rewrite Hfresh in IH. by rewrite IH.
  - done.
Qed.

Lemma current_snoc h b key :
  current (h ++ [b]) key =
    match last (filter (fun p => pl_key p = key) (hb_planned b)) with
    | Some p => pl_row p
    | None => current h key
    end.
Proof.
  unfold current, outcome. rewrite ops_app, last_app. unfold ops at 1. simpl. rewrite app_nil_r.
  unfold block_ops. rewrite fmap_last. by destruct (last _).
Qed.

Section ReadYourWrites.
Context {S : Type} `{StateStoreLaws S}.

(** A handler reads inside its block exactly what a reader is answered once the
    block is applied: the staged rows with every declared column, the deleted
    rows absent, the untouched rows as they were; and the block coalesces into
    one operation per business key. *)
Theorem read_your_writes floor (s : S) (h : history) (pending : list (string * Mutation))
    block cursor s' entity e id key answer :
  repr floor s h -> staging_wf (declarations s) pending ->
  applyBlock s block (stagedMutations pending) cursor = Ok s' ->
  jm_get (declarations s) entity = Some e -> entityKey e id = Ok key ->
  mc_get (declarations s) (getCurrent s) pending entity id = Ok answer ->
  exists answer', getCurrent s' entity id = Ok answer' /\ same_answer e answer answer'.
Proof.
  intros Hr Hst Happ He Hkey Hget.
  destruct (applyBlock_law floor s h block (stagedMutations pending) cursor Hr) as [Hadm Hconv].
  destruct (Hconv s' Happ) as [b Hb]. destruct (Hadm b Hb) as (s'' & Happ' & Hr' & Hdecl & _).
  rewrite Happ in Happ'. injection Happ' as <-.
  pose proof (getCurrent_law _ _ _ entity id e key Hr' (ltac:(by rewrite Hdecl)) Hkey) as Hafter.
  pose proof (getCurrent_law _ _ _ entity id e key Hr He Hkey) as Hbefore.
  destruct Hb as (hash & planned & _ & _ & _ & Hplan & ->). rewrite current_snoc in Hafter. simpl in Hafter.
  pose proof (planned_for_key _ _ _ key Hst Hplan) as Hone.
  unfold mc_get, mustGet in Hget. rewrite He in Hget. cbn [mbind result_bind] in Hget.
  rewrite Hkey in Hget. cbn [mbind result_bind] in Hget. destruct (jm_get pending key) as [m|] eqn:Hm.
  - destruct Hone as (p & Hp & Hfil). rewrite Hfil in Hafter. simpl in Hafter.
    pose proof (jm_get_elem _ _ _ Hm) as Hin. apply Hst in Hin.
    destruct (repr_wf _ _ _ Hr) as [_ Hew].
    unfold plan in Hp. apply bind_Ok in Hp as (e' & He' & (i & Hi & (st & _ & (k & Hk & [= <-])%bind_Ok)%bind_Ok)%bind_Ok).
    unfold keyOf in Hin. rewrite He' in Hin. cbn [mbind result_bind] in Hin.
    unfold mustGet in He'. destruct (jm_get (declarations s) (mutation_entity m)) as [e''|] eqn:Hem; [|done].
    injection He' as ->. assert (e' = e) as -> by (by eapply entity_of_key).
    destruct m as [n mi values|n mi]; unfold pl_row in Hafter; simpl in *.
    + rewrite Hi in Hget. cbn [mbind result_bind] in Hget. injection Hget as <-.
      destruct Hafter as (row & -> & Hsame). exists (Some row). split; [done|].
      simpl. intros c Hc. symmetry. by apply Hsame.
    + injection Hget as <-. by exists None.
  - rewrite Hone in Hafter. simpl in Hafter. destruct (current h key) as [row|].
    + destruct Hbefore as (r & Hr1 & Hs1), Hafter as (r' & Hr2 & Hs2). rewrite Hget in Hr1. injection Hr1 as ->.
      exists (Some r'). split; [done|]. simpl. intros c Hc. by rewrite Hs1, Hs2.
    + rewrite Hget in Hbefore. injection Hbefore as ->. by exists None.
Qed.
End ReadYourWrites.
