(* ===== verification/EntityProcessor.v ===== *)
(** * Folding a stream into a store

    [packages/processor-entities/src/stream.ts] and [apply.ts]: one revert at the
    fork point, one [applyBlock] per block, each with the cursor that is true of
    it.  The codec of the cursor ([serializeLastSync]) is a parameter of this
    file: the store keeps the text and never reads it. *)
From S2P Require Import Prelude JsMap Types Stream Entities StoreSpec MutationContext.

(** ** [stream.ts] *)
Definition forkPoint (eventStream : list LogEvent) : option Z :=
  let lowest := foldl (fun lowest event =>
    if removed event then
      match lowest with
      | None => Some (blockNumber event)
      | Some low => Some (Z.min low (blockNumber event))
      end
    else lowest) None eventStream in
  (fun low => low - 1) <$> lowest.

(** The same walk as the engine's [groupLogsPerBlock]: by hash, retractions skipped. *)
Definition groupByBlock (eventStream : list LogEvent) : list EventBlock :=
  foldl fetchStep [] eventStream.

(** [normalizeBlockTimestamp] of a number: a non-negative safe integer. *)
Definition normalizeBlockTimestamp (seconds : Z) : result FoldError Z :=
  if decide (0 <= seconds <= 2 ^ 53 - 1) then Ok seconds else Err InvalidTimestamp.

Definition blockPointer (block : EventBlock) : result FoldError BlockPointer :=
  match omap blockTimestamp (events block) with
  | [] => Err (NoTimestamp (number block) (hash block))
  | seconds :: _ =>
      timestamp ← normalizeBlockTimestamp seconds;
      Ok (mkPointer (number block) (hash block) timestamp)
  end.

(** ** [runBlockHandlers] *)

(** The author's object: a handler per event name, and the optional one for an
    event that did not decode.  The configuration is already applied. *)
Record Processor : Type := mkProcessor {
  onEvent : string -> option (LogEvent -> Handler);
  handleUnparsedEvent : option (LogEvent -> Handler)
}.

Definition handlerOf (processor : Processor) (event : LogEvent) : option (LogEvent -> Handler) :=
  match decoded event with
  | DecodeFailure _ => handleUnparsedEvent processor
  | Parsed eventName _ => onEvent processor eventName
  end.

Fixpoint runEvents (entities : entities_map) (read : string -> EntityId -> result StoreError (option Values))
    (processor : Processor) (pending : list (string * Mutation)) (events : list LogEvent)
    : result FoldError (list (string * Mutation)) :=
  match events with
  | [] => Ok pending
  | event :: rest =>
      match handlerOf processor event with
      | None => runEvents entities read processor pending rest
      | Some handler =>
          match runHandler entities read pending (handler event) with
          | Err e => Err e
          | Ok pending' => runEvents entities read processor pending' rest
          end
      end
  end.

Definition runBlockHandlers (entities : entities_map)
    (read : string -> EntityId -> result StoreError (option Values)) (processor : Processor)
    (events : list LogEvent) : result FoldError (list Mutation) :=
  pending ← runEvents entities read processor [] events;
  Ok (stagedMutations pending).

(** ** [applyEventStream] *)
Inductive FoldReport : Type :=
  | Retracted (forkPoint : Z)
  | Applied (block : Z) (hash : string) (entities : list string).

(** [[...new Set(names)].sort()], by code unit. *)
Fixpoint text_compare (a b : string) : comparison :=
  match a, b with
  | EmptyString, EmptyString => Eq
  | EmptyString, _ => Lt
  | _, EmptyString => Gt
  | String x a', String y b' =>
      match Nat.compare (nat_of_ascii x) (nat_of_ascii y) with Eq => text_compare a' b' | c => c end
  end.

Fixpoint insert_name (name : string) (names : list string) : list string :=
  match names with
  | [] => [name]
  | other :: rest =>
      match text_compare name other with
      | Lt => name :: names
      | Eq => names
      | Gt => other :: insert_name name rest
      end
  end.

Definition entitiesTouchedBy (mutations : list Mutation) : list string :=
  foldr insert_name [] (mutation_entity <$> mutations).

Section ApplyEventStream.
Context {S : Type} `{StateStore S} (serializeLastSync : LastSync -> string).

(** The cursor handed with block [index] of [total]. *)
Definition cursorOf (cursor : option (string * LastSync)) (isLast : bool) (block : EventBlock)
    : option (string * string) :=
  match cursor with
  | None => None
  | Some (key, lastSync) =>
      Some (key, serializeLastSync
        (if isLast then lastSync else cursorSyncedThrough lastSync (number block)))
  end.

(** The loop: the store as it stands where the loop stopped, what was reported,
    and whether it threw. *)
Fixpoint applyBlocks (store : S) (processor : Processor) (cursor : option (string * LastSync))
    (blocks : list EventBlock) (reports : list FoldReport) : S * list FoldReport * result FoldError unit :=
  match blocks with
  | [] => (store, reports, Ok tt)
  | block :: rest =>
      match runBlockHandlers (declarations store) (getCurrent store) processor (events block) with
      | Err e => (store, reports, Err e)
      | Ok mutations =>
          match blockPointer block with
          | Err e => (store, reports, Err e)
          | Ok pointer =>
              match applyBlock store pointer mutations
                      (cursorOf cursor (match rest with [] => true | _ => false end) block) with
              | Err e => (store, reports, Err (StoreFailed e))
              | Ok store' =>
                  match normalizeBlockHash (bp_hash pointer) with
                  | Err e => (store', reports, Err (StoreFailed e))
                  | Ok hash =>
                      applyBlocks store' processor cursor rest
                        (reports ++ [Applied (number block) hash (entitiesTouchedBy mutations)])
                  end
              end
          end
      end
  end.

Definition applyEventStream (store : S) (processor : Processor) (eventStream : list LogEvent)
    (cursor : option (string * LastSync)) : S * list FoldReport * result FoldError unit :=
  let apply store reports :=
    let blocks := groupByBlock eventStream in
    match blocks, cursor with
    | [], Some (key, lastSync) => (writeCursor store key (serializeLastSync lastSync), reports, Ok tt)
    | _, _ => applyBlocks store processor cursor blocks reports
    end in
  match forkPoint eventStream with
  | None => apply store []
  | Some fork =>
      match revertTo store fork with
      | Err e => (store, [], Err (StoreFailed e))
      | Ok store' => apply store' [Retracted fork]
      end
  end.

(** [reset]: revert everything, then forget the cursor. *)
Definition reset (store : S) (key : string) : result StoreError S :=
  store' ← revertTo store (-1);
  Ok (clearCursor store' key).
End ApplyEventStream.

(** ** The fold itself

    What a chain folds to, with no store at all: the handlers read the history
    built so far. *)
Definition spec_read (entities : entities_map) (h : history) (entity : string) (id : EntityId)
    : result StoreError (option Values) :=
  declaration ← mustGet entities entity;
  key ← entityKey declaration id;
  Ok (current h key).

Definition fold_block (entities : entities_map) (processor : Processor) (h : history) (block : EventBlock)
    : result FoldError HistoryBlock :=
  match runBlockHandlers entities (spec_read entities h) processor (events block) with
  | Err e => Err e
  | Ok mutations =>
      match blockPointer block with
      | Err e => Err e
      | Ok pointer =>
          match lift (normalizeBlockHash (bp_hash pointer)) with
          | Err e => Err e
          | Ok hash =>
              match lift (mapR (plan entities) mutations) with
              | Err e => Err e
              | Ok planned =>
                  Ok (mkHistoryBlock (mkPointer (bp_number pointer) hash (bp_timestamp pointer)) planned)
              end
          end
      end
  end.

Definition fold_step (entities : entities_map) (processor : Processor) (r : result FoldError history)
    (block : EventBlock) : result FoldError history :=
  match r with
  | Err e => Err e
  | Ok h => match fold_block entities processor h block with Err e => Err e | Ok b => Ok (h ++ [b]) end
  end.

Definition fold_chain (entities : entities_map) (processor : Processor) (chain : list EventBlock)
    : result FoldError history := foldl (fold_step entities processor) (Ok []) chain.

(** ** The fold over a chain *)
Definition lower_hash (b : EventBlock) : string := toLowerCase (hash b).

Lemma fold_chain_snoc entities processor c b :
  fold_chain entities processor (c ++ [b]) = fold_step entities processor (fold_chain entities processor c) b.
Proof. unfold fold_chain. by rewrite foldl_app. Qed.

Lemma normalizeBlockHash_lower h h' : normalizeBlockHash h = Ok h' -> h' = toLowerCase h.
Proof. destruct h; [done|]. by intros [= <-]. Qed.

Lemma blockPointer_spec b p :
  blockPointer b = Ok p -> bp_number p = number b /\ bp_hash p = hash b.
Proof.
  unfold blockPointer. destruct (omap blockTimestamp (events b)); [done|].
  by intros (t & _ & [= <-])%bind_Ok.
Qed.

Lemma fold_block_shape entities processor h b hb :
  fold_block entities processor h b = Ok hb -> hb_number hb = number b /\ hb_hash hb = lower_hash b.
Proof.
  unfold fold_block. destruct (runBlockHandlers _ _ _ _); [|done].
  destruct (blockPointer b) as [p|] eqn:Hp; [|done]. apply blockPointer_spec in Hp as [Hn Hh].
  destruct (normalizeBlockHash (bp_hash p)) as [h'|] eqn:Hh'; [|done]. simpl.
  destruct (mapR _ _); [|done]. intros [= <-]. simpl. apply normalizeBlockHash_lower in Hh' as ->.
  split; [done|]. unfold hb_hash, lower_hash. simpl. by rewrite Hh.
Qed.

Lemma fold_chain_shape entities processor c h :
  fold_chain entities processor c = Ok h ->
  hb_number <$> h = number <$> c /\ hb_hash <$> h = lower_hash <$> c.
Proof.
  revert h. induction c as [|b c IH] using rev_ind; intros h; [by intros [= <-]|].
  rewrite fold_chain_snoc. unfold fold_step. destruct (fold_chain _ _ c) as [h0|] eqn:Hc; [|done].
  destruct (fold_block _ _ h0 b) as [hb|] eqn:Hb; [|done]. intros [= <-].
  destruct (IH h0 eq_refl) as [Hn Hh]. apply fold_block_shape in Hb as [Hbn Hbh].
  rewrite !fmap_app. csimpl. by rewrite Hn, Hh, Hbn, Hbh.
Qed.

Lemma fold_chain_prefix entities processor c d h :
  fold_chain entities processor (c ++ d) = Ok h ->
  exists hc hd, fold_chain entities processor c = Ok hc /\ h = hc ++ hd /\ hb_number <$> hd = number <$> d.
Proof.
  revert h. induction d as [|b d IH] using rev_ind; intros h.
  - rewrite app_nil_r. intros Hc. exists h, []. by rewrite app_nil_r.
  - rewrite app_assoc, fold_chain_snoc. unfold fold_step.
    destruct (fold_chain _ _ (c ++ d)) as [h0|] eqn:Hcd; [|done].
    destruct (fold_block _ _ h0 b) as [hb|] eqn:Hb; [|done]. intros [= <-].
    destruct (IH h0 eq_refl) as (hc & hd & Hc & -> & Hd). apply fold_block_shape in Hb as [Hbn _].
    exists hc, (hd ++ [hb]). rewrite fmap_app, Hd. csimpl. by rewrite Hbn, fmap_app, app_assoc.
Qed.

(** ** What a generated stream says *)
Lemma foldl_forkPoint_applied acc evs :
  Forall (fun e => removed e = false) evs ->
  foldl (fun lowest event => if removed event then
      match lowest with None => Some (blockNumber event) | Some low => Some (Z.min low (blockNumber event)) end
    else lowest) acc evs = acc.
Proof. intros Hall. revert acc. induction Hall as [|e evs He Hall IH]; intros acc; [done|]. cbn [foldl]. by rewrite He. Qed.

Lemma foldl_forkPoint_retracted low evs :
  Forall (fun e => removed e = true /\ low <= blockNumber e) evs ->
  foldl (fun lowest event => if removed event then
      match lowest with None => Some (blockNumber event) | Some low => Some (Z.min low (blockNumber event)) end
    else lowest) (Some low) evs = Some low.
Proof.
  induction 1 as [|e evs [He Hle] Hall IH]; [done|]. cbn [foldl]. rewrite He.
  by replace (Z.min low (blockNumber e)) with low by lia.
Qed.

Lemma events_of_applied c : Forall block_wf c -> Forall (fun e => removed e = false) (events_of c).
Proof.
  induction 1 as [|b c [_ Hb] Hc IH]; [constructor|]. rewrite events_of_cons. apply Forall_app. split; [|done].
  eapply Forall_impl; [exact Hb|]. by intros e (_ & _ & ?).
Qed.

Lemma retractions_of_above low c :
  Forall block_wf c -> Forall (fun b => low <= number b) c ->
  Forall (fun e => removed e = true /\ low <= blockNumber e) (retractions_of c).
Proof.
  induction 1 as [|b c [_ Hb] Hc IH]; intros Hlow; [constructor|]. apply Forall_cons in Hlow as [Hl Hlow].
  unfold retractions_of. rewrite events_of_cons, fmap_app. apply Forall_app. split; [|by apply IH].
  apply Forall_fmap. eapply Forall_impl; [exact Hb|]. intros e (Hn & _ & _). simpl. split; [done|lia].
Qed.

(** The fork point of a generated stream is one below its lowest dead block. *)
Lemma forkPoint_stream D N :
  chain_wf D -> Forall block_wf N ->
  forkPoint (retractions_of D ++ events_of N) = (fun b => number b - 1) <$> head D.
Proof.
  intros [Ha _ Hwf] HN. unfold forkPoint. rewrite foldl_app.
  destruct D as [|d D]; simpl.
  - by rewrite foldl_forkPoint_applied by (by apply events_of_applied).
  - apply Forall_cons in Hwf as [[Hne Hd] Hwf]. apply StronglySorted_inv in Ha as [_ Hlt].
    assert (Forall (fun b => number d <= number b) D) as Hlow.
    { eapply Forall_impl; [exact Hlt|]. simpl. lia. }
    unfold retractions_of. rewrite events_of_cons, fmap_app, foldl_app.
    destruct (events d) as [|e es]; [done|]. apply Forall_cons in Hd as [(Hen & _ & _) Hd]. csimpl.
    rewrite Hen, foldl_forkPoint_retracted.
    2:{ apply Forall_fmap. eapply Forall_impl; [exact Hd|]. intros x (Hx & _ & _). simpl. split; [done|lia]. }
    rewrite foldl_forkPoint_retracted by (by apply retractions_of_above).
    by rewrite foldl_forkPoint_applied by (by apply events_of_applied).
Qed.

(** Its applied blocks are the new branch. *)
Lemma groupByBlock_stream D N :
  NoDup (hash <$> N) -> Forall block_wf N -> groupByBlock (retractions_of D ++ events_of N) = N.
Proof.
  intros Hnd Hwf. unfold groupByBlock. rewrite foldl_app.
  assert (forall gs evs, Forall (fun e => removed e = true) evs -> foldl fetchStep gs evs = gs) as Hskip.
  { intros gs evs. induction 1 as [|e evs He Hevs IH]; [done|]. cbn [foldl]. unfold fetchStep at 2. by rewrite He. }
  rewrite (Hskip [] (retractions_of D)); [by apply group_fetch|].
  unfold retractions_of. apply Forall_fmap, Forall_forall. done.
Qed.

(** ** Folding through a store *)

(** The author's handlers depend on nothing but what the entities declare. *)
Definition handlers_declared (entities : entities_map) (processor : Processor) : Prop :=
  forall event handler, handlerOf processor event = Some handler ->
    declared_only entities (handler event) (handler event).

Lemma runEvents_agree entities read read' processor pending evs :
  reads_agree entities read read' -> handlers_declared entities processor ->
  runEvents entities read processor pending evs = runEvents entities read' processor pending evs.
Proof.
  intros Hag Hdecl. revert pending. induction evs as [|e evs IH]; intros pending; [done|]. cbn [runEvents].
  destruct (handlerOf processor e) as [handler|] eqn:Hh; [|done].
  rewrite (runHandler_agree _ _ _ _ _ Hag (Hdecl e handler Hh)). by destruct (runHandler _ _ _ _).
Qed.

Section Folding.
Context {S : Type} `{StateStoreLaws S} (serializeLastSync : LastSync -> string) (processor : Processor).

Lemma store_reads_agree floor (s : S) h :
  repr floor s h -> reads_agree (declarations s) (getCurrent s) (spec_read (declarations s) h).
Proof.
  intros Hr entity e id key He Hkey. pose proof (getCurrent_law _ _ _ entity id e key Hr He Hkey) as Hget.
  unfold spec_read, mustGet. rewrite He. cbn [mbind result_bind]. rewrite Hkey. cbn [mbind result_bind].
  destruct (current h key) as [row|].
  - destruct Hget as (a & -> & Hsame). by exists (Some a), (Some row).
  - by exists None, None.
Qed.

(** One turn of the loop is one step of the fold. *)
Lemma block_step floor (s : S) h b cursor :
  repr floor s h -> handlers_declared (declarations s) processor ->
  Forall (fun x => hb_number x < number b) h -> lower_hash b ∉ hb_hash <$> h ->
  match runBlockHandlers (declarations s) (getCurrent s) processor (events b) with
  | Err _ => ~ is_Ok (fold_block (declarations s) processor h b)
  | Ok mutations =>
      match blockPointer b with
      | Err _ => ~ is_Ok (fold_block (declarations s) processor h b)
      | Ok pointer =>
          match applyBlock s pointer mutations cursor with
          | Err _ => ~ is_Ok (fold_block (declarations s) processor h b)
          | Ok s' => exists hb, fold_block (declarations s) processor h b = Ok hb
              /\ repr floor s' (h ++ [hb]) /\ declarations s' = declarations s
              /\ normalizeBlockHash (bp_hash pointer) = Ok (lower_hash b)
              /\ forall key, readCursor s' key = cursor_after (readCursor s) cursor key
          end
      end
  end.
Proof.
  intros Hr Hdecl Hlow Hfresh. pose proof (store_reads_agree floor s h Hr) as Hag.
  assert (runBlockHandlers (declarations s) (getCurrent s) processor (events b)
    = runBlockHandlers (declarations s) (spec_read (declarations s) h) processor (events b)) as ->.
  { unfold runBlockHandlers. by rewrite (runEvents_agree _ _ _ _ _ _ Hag Hdecl). }
  unfold fold_block. destruct (runBlockHandlers _ _ _ _) as [mutations|]; [|tauto].
  destruct (blockPointer b) as [p|] eqn:Hp; [|tauto]. apply blockPointer_spec in Hp as [Hpn Hph].
  destruct (applyBlock_law floor s h p mutations cursor Hr) as [Hadm Hconv].
  assert (forall hash planned, normalizeBlockHash (bp_hash p) = Ok hash ->
    mapR (plan (declarations s)) mutations = Ok planned ->
    hash = lower_hash b /\ admits (declarations s) h p mutations
      (mkHistoryBlock (mkPointer (bp_number p) hash (bp_timestamp p)) planned)) as Hok.
  { intros hash planned Hh Hps. apply normalizeBlockHash_lower in Hh as Hl. rewrite Hph in Hl.
    split; [done|]. exists hash, planned. rewrite Hpn. split_and!; try done. by rewrite Hl. }
  destruct (applyBlock s p mutations cursor) as [s'|err] eqn:Happ.
  - destruct (Hconv s' eq_refl) as (hb & hash & planned & Hh & Hnew & Hlow' & Hps & ->).
    destruct (Hok _ _ Hh Hps) as [-> Had]. destruct (Hadm _ Had) as (s'' & [= <-] & Hr' & Hd & Hcur).
    eexists. split_and!; [by rewrite Hh; simpl; rewrite Hps|done..].
  - destruct (normalizeBlockHash (bp_hash p)) as [hash|]; [|tauto]. simpl.
    destruct (mapR (plan (declarations s)) mutations) as [planned|]; [|tauto].
    destruct (Hok _ _ eq_refl eq_refl) as [_ Had]. by destruct (Hadm _ Had) as (s'' & ? & _).
Qed.

(** The cursor the store holds once [k] of the blocks [N] are applied. *)
Definition cursor_at (lastSync : LastSync) (N : list EventBlock) (k : nat) (before : option string)
    : option string :=
  match last (take k N) with
  | None => match N with [] => Some (serializeLastSync lastSync) | _ => before end
  | Some b =>
      Some (serializeLastSync
        (if decide (k = length N) then lastSync else cursorSyncedThrough lastSync (number b)))
  end.

(** Where a call that started on a store holding the fold of [C] stopped: the
    store holds the fold of [C] and the first [k] blocks of [N], its cursor is the
    one of the last of them, and it threw exactly when the next one has no fold. *)
Definition reached (floor : Z) (entities : entities_map) (C N : list EventBlock) (key : string)
    (lastSync : LastSync) (before : option string) (s' : S) (r : result FoldError unit) : Prop :=
  exists k h', (k <= length N)%nat /\ declarations s' = entities
    /\ fold_chain entities processor (C ++ take k N) = Ok h' /\ repr floor s' h'
    /\ readCursor s' key = cursor_at lastSync N k before
    /\ match r with
       | Ok _ => k = length N
       | Err _ => (k < length N)%nat
           /\ ~ is_Ok (fold_chain entities processor (C ++ take (Datatypes.S k) N))
       end.

Lemma reached_stop floor (s : S) h C b N key lastSync e :
  repr floor s h -> fold_chain (declarations s) processor C = Ok h ->
  ~ is_Ok (fold_block (declarations s) processor h b) ->
  reached floor (declarations s) C (b :: N) key lastSync (readCursor s key) s (Err e).
Proof.
  intros Hr Hfold Hno. exists 0%nat, h. cbn [take length]. rewrite app_nil_r.
  split_and!; try done; [lia|lia|]. rewrite take_0, fold_chain_snoc, Hfold. simpl.
  by destruct (fold_block _ _ _ _).
Qed.

Lemma reached_step floor (s s1 s' : S) C b N key lastSync r :
  readCursor s1 key = Some (serializeLastSync
    (match N with [] => lastSync | _ => cursorSyncedThrough lastSync (number b) end)) ->
  reached floor (declarations s) (C ++ [b]) N key lastSync (readCursor s1 key) s' r ->
  reached floor (declarations s) C (b :: N) key lastSync (readCursor s key) s' r.
Proof.
  intros Hcur (k & h' & Hk & Hd & Hfold & Hr & Hread & Hres).
  rewrite <- app_assoc in Hfold, Hres. exists (Datatypes.S k), h'. cbn [take length] in *.
  split_and!; try done; [lia| |].
  - rewrite Hread. unfold cursor_at. cbn [take length]. rewrite last_cons.
    destruct (last (take k N)) as [x|] eqn:Hlast.
    + destruct (decide (k = length N)), (decide (Datatypes.S k = Datatypes.S (length N))); done || lia.
    + destruct N as [|n N].
      * cbn [length] in *. by rewrite decide_True by lia.
      * destruct k as [|k]; [|apply last_None in Hlast; discriminate].
        rewrite Hcur. by rewrite decide_False by (cbn; lia).
  - destruct r; [lia|]. split; [lia|tauto].
Qed.

Lemma applyBlocks_folds floor (s : S) h C N key lastSync reports :
  repr floor s h -> handlers_declared (declarations s) processor ->
  fold_chain (declarations s) processor C = Ok h ->
  ascending number (C ++ N) -> NoDup (lower_hash <$> C ++ N) -> N <> [] ->
  let '(s', _, r) := applyBlocks serializeLastSync s processor (Some (key, lastSync)) N reports in
  reached floor (declarations s) C N key lastSync (readCursor s key) s' r.
Proof.
  revert s h C reports. induction N as [|b N IH]; intros s h C reports Hr Hdecl Hfold Ha Hnd Hne; [done|].
  cbn [applyBlocks]. pose proof (fold_chain_shape _ _ _ _ Hfold) as [Hnum Hhash].
  set (cur := cursorOf serializeLastSync (Some (key, lastSync)) (match N with [] => true | _ => false end) b).
  pose proof (block_step floor s h b cur Hr Hdecl) as Hstep.
  assert (Forall (fun x => hb_number x < number b) h) as Hlow.
  { apply ascending_app in Ha as (Hlt & _ & _).
    assert (Forall (fun n => n < number b) (hb_number <$> h)) as Hn; [|by apply Forall_fmap in Hn].
    rewrite Hnum. apply Forall_fmap, Forall_forall. intros x Hx. apply Hlt; [done|apply list_elem_of_here]. }
  assert (lower_hash b ∉ hb_hash <$> h) as Hfresh.
  { rewrite Hhash. rewrite fmap_app in Hnd. apply NoDup_app in Hnd as (_ & Hdis & _).
    intros Hin. apply (Hdis _ Hin). apply list_elem_of_here. }
  specialize (Hstep Hlow Hfresh).
  destruct (runBlockHandlers _ _ _ _) as [mutations|]; [|by apply (reached_stop floor s h)].
  destruct (blockPointer b) as [p|]; [|by apply (reached_stop floor s h)].
  destruct (applyBlock s p mutations cur) as [s1|]; [|by apply (reached_stop floor s h)].
  destruct Hstep as (hb & Hhb & Hr1 & Hd & -> & Hcur).
  assert (fold_chain (declarations s) processor (C ++ [b]) = Ok (h ++ [hb])) as Hfold'.
  { rewrite fold_chain_snoc, Hfold. simpl. by rewrite Hhb. }
  assert (readCursor s1 key = Some (serializeLastSync
    (match N with [] => lastSync | _ => cursorSyncedThrough lastSync (number b) end))) as Hread.
  { rewrite Hcur. unfold cur, cursorOf, cursor_after. rewrite decide_True by done. by destruct N. }
  destruct N as [|b' N].
  { cbn [applyBlocks]. apply (reached_step floor s s1); [done|].
    exists 0%nat, (h ++ [hb]). simpl. rewrite app_nil_r. split_and!; try done; lia || (by rewrite Hread). }
  specialize (IH s1 (h ++ [hb]) (C ++ [b])
    (reports ++ [Applied (number b) (lower_hash b) (entitiesTouchedBy mutations)])).
  rewrite Hd in IH. rewrite <- !app_assoc in IH.
  specialize (IH Hr1 Hdecl Hfold' Ha Hnd ltac:(done)).
  destruct (applyBlocks _ s1 _ _ _ _) as [[s' reports'] r]. by apply (reached_step floor s s1).
Qed.

(** Reverting to the fork keeps the fold of the common prefix.  [D1] is the part of
    the dead branch the store still holds, [D2] the part it no longer does. *)
Lemma fold_upto entities P D1 D2 d h :
  fold_chain entities processor (P ++ D1) = Ok h -> ascending number (P ++ D1 ++ D2) ->
  head (D1 ++ D2) = Some d -> fold_chain entities processor P = Ok (history_upto (number d - 1) h).
Proof.
  intros Hfold Ha Hd. destruct (fold_chain_prefix _ _ _ _ _ Hfold) as (hP & hD & HP & -> & HD).
  rewrite HP. f_equal. pose proof (fold_chain_shape _ _ _ _ HP) as [HPn _].
  apply ascending_app in Ha as (Hlt & _ & Hs).
  unfold history_upto. rewrite filter_app, (filter_Forall_id _ hP), (filter_Forall_nil _ hD); [by rewrite app_nil_r|..].
  - assert (Forall (fun n => ~ n <= number d - 1) (hb_number <$> hD)) as Hall; [|exact (proj1 (Forall_fmap _ _ _) Hall)].
    rewrite HD. apply Forall_fmap. destruct D1 as [|d' D1]; [constructor|]. injection Hd as ->.
    apply StronglySorted_inv in Hs as [_ [Hs _]%Forall_app].
    constructor; [simpl; lia|]. eapply Forall_impl; [exact Hs|]. intros x Hx. simpl in *. lia.
  - assert (Forall (fun n => n <= number d - 1) (hb_number <$> hP)) as Hall; [|exact (proj1 (Forall_fmap _ _ _) Hall)].
    rewrite HPn. apply Forall_fmap, Forall_forall. intros x Hx.
    assert (d ∈ D1 ++ D2) as Hin by (by apply head_Some_elem_of).
    specialize (Hlt x d Hx Hin). simpl. lia.
Qed.

(** A revert to the fork is a wipe only where nothing is left to keep. *)
Lemma revert_above_zero entities C D d h :
  fold_chain entities processor C = Ok h -> chain_wf (C ++ D) -> d ∈ C ++ D ->
  0 <= number d - 1 \/ history_upto (number d - 1) h = [].
Proof.
  intros Hfold Hwf Hd. pose proof (chain_wf_blocks _ Hwf) as Hblocks. rewrite Forall_forall in Hblocks.
  pose proof (fold_chain_shape _ _ _ _ Hfold) as [Hnum _].
  pose proof (block_wf_number d (Hblocks d Hd)).
  destruct (decide (0 <= number d - 1)); [by left|right]. apply filter_Forall_nil.
  apply (Forall_fmap hb_number (fun n => ~ n <= number d - 1)). rewrite Hnum. apply Forall_fmap, Forall_forall.
  intros x Hx. pose proof (block_wf_number x (Hblocks x ltac:(apply elem_of_app; by left))). simpl. lia.
Qed.

(** The loop, or the bare cursor write when the stream applies no block. *)
Lemma apply_part_folds floor (s : S) h C N key lastSync reports :
  repr floor s h -> handlers_declared (declarations s) processor ->
  fold_chain (declarations s) processor C = Ok h ->
  ascending number (C ++ N) -> NoDup (lower_hash <$> C ++ N) ->
  let '(s', _, r) :=
    match N, Some (key, lastSync) with
    | [], Some (key, lastSync) => (writeCursor s key (serializeLastSync lastSync), reports, Ok tt)
    | _, _ => applyBlocks serializeLastSync s processor (Some (key, lastSync)) N reports
    end in
  reached floor (declarations s) C N key lastSync (readCursor s key) s' r.
Proof.
  intros Hr Hdecl Hfold Ha Hnd. destruct N as [|b N]; [|by apply (applyBlocks_folds floor s h)].
  destruct (writeCursor_law floor s h key (serializeLastSync lastSync) Hr) as (Hr' & Hd & Hcur).
  exists 0%nat, h. cbn [take length]. rewrite app_nil_r. split_and!; try done.
  rewrite Hcur. unfold cursor_after. by rewrite decide_True.
Qed.

(** A stream that takes back [D1 ++ D2] and applies [N], in whatever order it takes
    the blocks back. *)
Lemma applyEventStream_parts floor (s : S) h P D1 D2 N stream key lastSync :
  groupByBlock stream = N -> forkPoint stream = (fun b => number b - 1) <$> head (D1 ++ D2) ->
  repr floor s h -> handlers_declared (declarations s) processor ->
  fold_chain (declarations s) processor (P ++ D1) = Ok h ->
  chain_wf (P ++ D1 ++ D2) -> chain_wf (P ++ N) -> NoDup (lower_hash <$> P ++ N) ->
  Forall (fun b => floor < number b) (D1 ++ D2) ->
  let '(s', _, r) := applyEventStream serializeLastSync s processor stream (Some (key, lastSync)) in
  reached floor (declarations s) P N key lastSync (readCursor s key) s' r.
Proof.
  intros HN Hfork Hr Hdecl Hfold HPD HPN Hnd Hfloor.
  pose proof (chain_wf_ascending _ HPN) as Ha. unfold applyEventStream. rewrite HN, Hfork.
  pose proof (fun d => fold_upto _ _ _ D2 d _ Hfold (chain_wf_ascending _ HPD)) as Hupto.
  destruct (D1 ++ D2) as [|d D] eqn:HDD; cbn [head fmap option_fmap option_map].
  - apply app_nil in HDD as [-> ->]. rewrite app_nil_r in Hfold. by apply (apply_part_folds floor s h).
  - apply Forall_cons in Hfloor as [Hd _]. specialize (Hupto d eq_refl).
    assert (0 <= number d - 1 \/ history_upto (number d - 1) h = []) as Hlow.
    { apply (revert_above_zero (declarations s) (P ++ D1) D2); [done|rewrite <- app_assoc, HDD; done|].
      rewrite <- app_assoc, HDD. apply elem_of_app. right. left. }
    destruct (revertTo_law floor s h (number d - 1) Hr ltac:(lia) Hlow) as (s1 & -> & Hr1 & Hd1 & Hcur1).
    rewrite <- Hd1, <- (Hcur1 key). apply (apply_part_folds floor s1 (history_upto (number d - 1) h)); by rewrite ?Hd1.
Qed.

Lemma applyEventStream_reached floor (s : S) h P D1 D2 N key lastSync :
  repr floor s h -> handlers_declared (declarations s) processor ->
  fold_chain (declarations s) processor (P ++ D1) = Ok h ->
  chain_wf (P ++ D1 ++ D2) -> chain_wf (P ++ N) -> NoDup (lower_hash <$> P ++ N) ->
  Forall (fun b => floor < number b) (D1 ++ D2) ->
  let '(s', _, r) := applyEventStream serializeLastSync s processor
      (retractions_of (D1 ++ D2) ++ events_of N) (Some (key, lastSync)) in
  reached floor (declarations s) P N key lastSync (readCursor s key) s' r.
Proof.
  intros Hr Hdecl Hfold HPD HPN Hnd Hfloor.
  assert (chain_wf (D1 ++ D2)) as HD by (eapply chain_wf_sublist; [|exact HPD]; by apply sublist_inserts_l).
  assert (chain_wf N) as HN by (eapply chain_wf_sublist; [|exact HPN]; by apply sublist_inserts_l).
  apply (applyEventStream_parts floor s h P D1 D2 N); try done.
  - apply groupByBlock_stream; apply HN.
  - apply forkPoint_stream; [done|apply HN].
Qed.

(** C11. Folding a stream of retractions and applied blocks into any store that keeps
    its promises: the store ends up holding the fold of the new branch over the
    common prefix, with the cursor of the stream, whether or not an earlier run
    stopped after reverting part of the dead branch; and where it stops, it holds
    the fold of the blocks it reached, with the cursor that is true of the last of
    them, and the next block is one no fold can take. *)
Theorem applyEventStream_folds floor (s : S) h P D1 D2 N key lastSync :
  repr floor s h -> handlers_declared (declarations s) processor ->
  fold_chain (declarations s) processor (P ++ D1) = Ok h ->
  chain_wf (P ++ D1 ++ D2) -> chain_wf (P ++ N) -> NoDup (lower_hash <$> P ++ N) ->
  Forall (fun b => floor < number b) (D1 ++ D2) ->
  let '(s', _, r) := applyEventStream serializeLastSync s processor
      (retractions_of (D1 ++ D2) ++ events_of N) (Some (key, lastSync)) in
  reached floor (declarations s) P N key lastSync (readCursor s key) s' r.
Proof. apply applyEventStream_reached. Qed.
End Folding.
