(* ===== verification/Json.v ===== *)
(** * JSON text

    The part of ECMAScript's [JSON] the persisted cursors and the wire batches go
    through: [JSON.stringify] of a value with no BigInt in it, and [JSON.parse] of
    a text with integer numerals.  Text is UTF-8 bytes, which [stringify] escapes
    only at the quote, the backslash and the control characters.  [JSON.parse]
    refuses fractions, exponents and escapes above [\u007f] here: nothing the
    program writes carries them. *)
From S2P Require Import Prelude JsMap.

#[local] Set Warnings "-register-all".

Inductive Json : Type :=
  | NNull
  | NBool (b : bool)
  | NNum (n : Z)
  | NStr (s : string)
  | NArr (items : list Json)
  | NObj (fields : list (string * Json)).

Section JsonInd.
Variable P : Json -> Prop.
Hypothesis PNull : P NNull.
Hypothesis PBool : forall b, P (NBool b).
Hypothesis PNum : forall n, P (NNum n).
Hypothesis PStr : forall s, P (NStr s).
Hypothesis PArr : forall items, Forall P items -> P (NArr items).
Hypothesis PObj : forall fields, Forall (fun p => P p.2) fields -> P (NObj fields).

Fixpoint Json_rect' (v : Json) : P v :=
  match v with
  | NNull => PNull
  | NBool b => PBool b
  | NNum n => PNum n
  | NStr s => PStr s
  | NArr items =>
      PArr items ((fix go l : Forall P l :=
        match l with [] => Forall_nil_2 P | x :: l' => Forall_cons_2 P x l' (Json_rect' x) (go l') end) items)
  | NObj fields =>
      PObj fields ((fix go l : Forall (fun p => P p.2) l :=
        match l with
        | [] => Forall_nil_2 (fun p => P p.2)
        | x :: l' => Forall_cons_2 (fun p => P p.2) x l' (Json_rect' x.2) (go l')
        end) fields)
  end.
End JsonInd.

(** ** [JSON.stringify] *)
Definition quote : ascii := "034"%char.
Definition backslash : ascii := "092"%char.

Definition hex_digit (n : nat) : ascii :=
  ascii_of_nat (if decide (n < 10)%nat then 48 + n else 87 + n).

Definition escape_char (c : ascii) : string :=
  let n := nat_of_ascii c in
  if decide (c = quote \/ c = backslash) then String backslash (String c "")
  else if decide (32 <= n)%nat then String c ""
  else if decide (n = 8)%nat then String backslash "b"
  else if decide (n = 9)%nat then String backslash "t"
  else if decide (n = 10)%nat then String backslash "n"
  else if decide (n = 12)%nat then String backslash "f"
  else if decide (n = 13)%nat then String backslash "r"
  else String backslash (String "u" (String "0" (String "0"
         (String (hex_digit (n / 16)) (String (hex_digit (n mod 16)) ""))))).

Fixpoint escape (s : string) : string :=
  match s with EmptyString => "" | String c s' => escape_char c +:+ escape s' end.

Definition quoted (s : string) : string := String quote (escape s +:+ String quote "").

Fixpoint json_text (v : Json) : string :=
  match v with
  | NNull => "null"
  | NBool true => "true"
  | NBool false => "false"
  | NNum n => pretty n
  | NStr s => quoted s
  | NArr items => "[" +:+ String.concat "," (json_text <$> items) +:+ "]"
  | NObj fields =>
      "{" +:+ String.concat "," ((fun p => quoted p.1 +:+ ":" +:+ json_text p.2) <$> fields) +:+ "}"
  end.

(** ** [JSON.parse] *)
Fixpoint skip_ws (s : string) : string :=
  match s with
  | EmptyString => ""
  | String c s' =>
      if decide (c = " "%char \/ c = "009"%char \/ c = "010"%char \/ c = "013"%char) then skip_ws s' else s
  end.

Definition hex_value (c : ascii) : option nat :=
  let n := nat_of_ascii c in
  if decide (48 <= n <= 57)%nat then Some (n - 48)%nat
  else if decide (97 <= n <= 102)%nat then Some (n - 87)%nat
  else if decide (65 <= n <= 70)%nat then Some (n - 55)%nat
  else None.

(** The character an escape names, [u] apart. *)
Definition unescape (c : ascii) : option ascii :=
  if decide (c = quote \/ c = backslash \/ c = "/"%char) then Some c
  else if decide (c = "b"%char) then Some "008"%char
  else if decide (c = "t"%char) then Some "009"%char
  else if decide (c = "n"%char) then Some "010"%char
  else if decide (c = "f"%char) then Some "012"%char
  else if decide (c = "r"%char) then Some "013"%char
  else None.

(** What follows an opening quote: the text, and what follows the closing one. *)
Fixpoint parse_chars (s : string) : option (string * string) :=
  match s with
  | EmptyString => None
  | String c r =>
      if decide (c = quote) then Some ("", r)
      else if decide (c = backslash) then
        match r with
        | String e r' =>
            if decide (e = "u"%char) then
              match r' with
              | String a (String b (String c2 (String d r''))) =>
                  match hex_value a, hex_value b, hex_value c2, hex_value d with
                  | Some 0%nat, Some 0%nat, Some hi, Some lo =>
                      if decide (hi < 8)%nat
                      then (fun p => (String (ascii_of_nat (16 * hi + lo)) p.1, p.2)) <$> parse_chars r''
                      else None
                  | _, _, _, _ => None
                  end
              | _ => None
              end
            else match unescape e with
                 | Some x => (fun p => (String x p.1, p.2)) <$> parse_chars r'
                 | None => None
                 end
        | EmptyString => None
        end
      else if decide (nat_of_ascii c < 32)%nat then None
      else (fun p => (String c p.1, p.2)) <$> parse_chars r
  end.

Definition digit_value (c : ascii) : option Z :=
  let n := nat_of_ascii c in if decide (48 <= n <= 57)%nat then Some (Z.of_nat n - 48) else None.

Fixpoint parse_digits (acc : Z) (s : string) : Z * string :=
  match s with
  | String c r => match digit_value c with Some d => parse_digits (10 * acc + d) r | None => (acc, s) end
  | EmptyString => (acc, s)
  end.

Definition starts_digit (s : string) : bool :=
  match s with String c _ => bool_decide (is_Some (digit_value c)) | EmptyString => false end.

Fixpoint strip (prefix s : string) : option string :=
  match prefix, s with
  | EmptyString, _ => Some s
  | String c p, String c' s' => if decide (c = c') then strip p s' else None
  | _, _ => None
  end.

Definition parse_number (s : string) : option (Json * string) :=
  match s with
  | String c r =>
      if decide (c = "-"%char) then
        if starts_digit r then let '(n, r') := parse_digits 0 r in Some (NNum (- n), r') else None
      else if starts_digit s then let '(n, r') := parse_digits 0 s in Some (NNum n, r') else None
  | EmptyString => None
  end.

(** The recursive descent; [fuel] bounds its depth, and the length of the text is
    always enough. *)
Fixpoint parse_value (fuel : nat) (s : string) {struct fuel} : option (Json * string) :=
  match fuel with
  | O => None
  | S fuel' =>
      match skip_ws s with
      | EmptyString => None
      | String c r =>
          if decide (c = quote) then (fun p => (NStr p.1, p.2)) <$> parse_chars r
          else if decide (c = "["%char) then
            match skip_ws r with
            | String "]" r' => Some (NArr [], r')
            | _ => (fun p => (NArr p.1, p.2)) <$> parse_items fuel' r
            end
          else if decide (c = "{"%char) then
            match skip_ws r with
            | String "}" r' => Some (NObj [], r')
            | _ => (fun p => (NObj (foldl (fun m q => jm_set m q.1 q.2) [] p.1), p.2)) <$> parse_members fuel' r
            end
          else if decide (c = "t"%char) then (fun r' => (NBool true, r')) <$> strip "true" (String c r)
          else if decide (c = "f"%char) then (fun r' => (NBool false, r')) <$> strip "false" (String c r)
          else if decide (c = "n"%char) then (fun r' => (NNull, r')) <$> strip "null" (String c r)
          else parse_number (String c r)
      end
  end
with parse_items (fuel : nat) (s : string) {struct fuel} : option (list Json * string) :=
  match fuel with
  | O => None
  | S fuel' =>
      match parse_value fuel' s with
      | None => None
      | Some (v, r) =>
          match skip_ws r with
          | String "," r' => (fun p => (v :: p.1, p.2)) <$> parse_items fuel' r'
          | String "]" r' => Some ([v], r')
          | _ => None
          end
      end
  end
with parse_members (fuel : nat) (s : string) {struct fuel} : option (list (string * Json) * string) :=
  match fuel with
  | O => None
  | S fuel' =>
      match skip_ws s with
      | String c r =>
          if decide (c = quote) then
            match parse_chars r with
            | None => None
            | Some (key, r1) =>
                match skip_ws r1 with
                | String ":" r2 =>
                    match parse_value fuel' r2 with
                    | None => None
                    | Some (v, r3) =>
                        match skip_ws r3 with
                        | String "," r4 => (fun p => ((key, v) :: p.1, p.2)) <$> parse_members fuel' r4
                        | String "}" r4 => Some ([(key, v)], r4)
                        | _ => None
                        end
                    end
                | _ => None
                end
            end
          else None
      | EmptyString => None
      end
  end.

Definition json_parse (text : string) : option Json :=
  match parse_value (S (String.length text)) text with
  | Some (v, rest) => if decide (skip_ws rest = "") then Some v else None
  | None => None
  end.

(** ** What the parser reads back *)
Lemma hex_value_digit n : (n < 16)%nat -> hex_value (hex_digit n) = Some n.
Proof. intros Hn. do 16 (destruct n as [|n]; [done|]). lia. Qed.

Lemma parse_chars_plain c t s r :
  c <> quote -> c <> backslash -> (32 <= nat_of_ascii c)%nat ->
  parse_chars t = Some (s, r) -> parse_chars (String c t) = Some (String c s, r).
Proof. intros Hq Hb Hn Ht. cbn [parse_chars]. rewrite !decide_False by (done || lia). by rewrite Ht. Qed.

Lemma parse_chars_short c x t s r :
  unescape c = Some x -> c <> "u"%char ->
  parse_chars t = Some (s, r) -> parse_chars (String backslash (String c t)) = Some (String x s, r).
Proof.
  intros Hx Hu Ht. cbn [parse_chars]. rewrite decide_False, decide_True, decide_False by done.
  by rewrite Hx, Ht.
Qed.

Lemma parse_chars_hex hi lo t s r :
  (hi < 8)%nat -> (lo < 16)%nat -> parse_chars t = Some (s, r) ->
  parse_chars (String backslash (String "u" (String "0" (String "0"
    (String (hex_digit hi) (String (hex_digit lo) t)))))) = Some (String (ascii_of_nat (16 * hi + lo)) s, r).
Proof.
  intros Hh Hl Ht. cbn [parse_chars]. rewrite decide_False, decide_True, decide_True by done.
  change (hex_value "0") with (Some 0%nat).
  rewrite !hex_value_digit by lia. rewrite decide_True by done. by rewrite Ht.
Qed.

Lemma parse_chars_escape_char c t s r :
  parse_chars t = Some (s, r) -> parse_chars (escape_char c +:+ t) = Some (String c s, r).
Proof.
  intros Ht. unfold escape_char. pose proof (ascii_nat_embedding c) as Hc.
  case_decide as Hq; [destruct Hq as [->| ->]; by apply parse_chars_short|].
  case_decide as Hn; [apply parse_chars_plain; tauto|].
  repeat (case_decide as Hk; [rewrite Hk in Hc; subst c; by apply parse_chars_short|clear Hk]).
  etrans; [apply (parse_chars_hex (nat_of_ascii c / 16) (nat_of_ascii c mod 16) t s r)|]; [| |done|].
  - apply Nat.Div0.div_lt_upper_bound. lia.
  - apply Nat.mod_upper_bound. lia.
  - by rewrite <- Nat.div_mod_eq, Hc.
Qed.

Lemma string_app_assoc (a b c : string) : (a +:+ b) +:+ c = a +:+ (b +:+ c).
Proof. induction a as [|x a IH]; [done|]. exact (f_equal (String x) IH). Qed.

Lemma parse_chars_escape s rest :
  parse_chars (escape s +:+ String quote rest) = Some (s, rest).
Proof.
  induction s as [|c s IH]; [done|]. cbn [escape]. rewrite string_app_assoc. by apply parse_chars_escape_char.
Qed.

Lemma digit_value_pretty d : (d < 10)%N -> digit_value (pretty_N_char d) = Some (Z.of_N d).
Proof.
  intros Hd. assert (d ∈ [0; 1; 2; 3; 4; 5; 6; 7; 8; 9]%N) as Hin.
  { rewrite !elem_of_cons. lia. }
  repeat (apply elem_of_cons in Hin as [->|Hin]; [done|]). by apply elem_of_nil in Hin.
Qed.

Lemma parse_digits_go x s : parse_digits 0 (pretty_N_go x s) = parse_digits (Z.of_N x) s.
Proof.
  revert s. induction (N.lt_wf_0 x) as [x _ IH]; intros s.
  destruct (decide (x = 0%N)) as [->|Hx]; [by rewrite pretty_N_go_0|].
  rewrite pretty_N_go_step, IH by (lia || (apply N.div_lt; lia)). cbn [parse_digits].
  rewrite digit_value_pretty by (apply N.mod_lt; lia). f_equal.
  pose proof (N.div_mod' x 10). lia.
Qed.

Lemma pretty_N_go_app x s t : pretty_N_go x s +:+ t = pretty_N_go x (s +:+ t).
Proof.
  revert s. induction (N.lt_wf_0 x) as [x _ IH]; intros s.
  destruct (decide (x = 0%N)) as [->|Hx]; [by rewrite !pretty_N_go_0|].
  rewrite !(pretty_N_go_step x) by lia. rewrite IH by (apply N.div_lt; lia). done.
Qed.

Lemma starts_digit_go x s : (0 < x)%N -> starts_digit (pretty_N_go x s) = true.
Proof.
  revert s. induction (N.lt_wf_0 x) as [x _ IH]; intros s Hx. rewrite pretty_N_go_step by lia.
  destruct (decide (x `div` 10 = 0)%N) as [->|Hd].
  - rewrite pretty_N_go_0. cbn [starts_digit]. rewrite digit_value_pretty by (apply N.mod_lt; lia). done.
  - apply IH; [apply N.div_lt; lia|by apply N.neq_0_lt_0].
Qed.

Lemma parse_digits_stop n rest : starts_digit rest = false -> parse_digits n rest = (n, rest).
Proof.
  destruct rest as [|c r]; [done|]. cbn [starts_digit parse_digits]. intros H%bool_decide_eq_false.
  destruct (digit_value c); [|done]. by destruct H.
Qed.

Lemma parse_number_pretty n rest :
  starts_digit rest = false -> parse_number (pretty n +:+ rest) = Some (NNum n, rest).
Proof.
  intros Hrest.
  assert (forall p, starts_digit (pretty (N.pos p) +:+ rest) = true
    /\ parse_digits 0 (pretty (N.pos p) +:+ rest) = (Z.pos p, rest)) as Hpos.
  { intros p. unfold pretty, pretty_N. rewrite decide_False by done. rewrite pretty_N_go_app.
    split; [by apply starts_digit_go|]. rewrite parse_digits_go. by apply parse_digits_stop. }
  destruct n as [|p|p].
  - change (pretty 0 +:+ rest) with (String "0" rest). unfold parse_number.
    change (starts_digit (String "0" rest)) with true. rewrite decide_False by done.
    change (parse_digits 0 (String "0" rest)) with (parse_digits 0 rest). by rewrite parse_digits_stop.
  - destruct (Hpos p) as [Hs Hd]. change (pretty (Z.pos p)) with (pretty (N.pos p)).
    destruct (pretty (N.pos p) +:+ rest) as [|c r] eqn:Ht; [done|]. unfold parse_number.
    rewrite Hs, Hd, decide_False; [done|]. intros ->. done.
  - destruct (Hpos p) as [Hs Hd].
    change (pretty (Z.neg p) +:+ rest) with (String "-" (pretty (N.pos p) +:+ rest)).
    cbn [parse_number]. rewrite decide_True by done. by rewrite Hs, Hd.
Qed.

(** The values an object literal can hold: no key twice. *)
Fixpoint json_wf (v : Json) : Prop :=
  match v with
  | NArr items => foldr (fun x acc => json_wf x /\ acc) True items
  | NObj fields => jm_wf fields /\ foldr (fun p acc => json_wf p.2 /\ acc) True fields
  | _ => True
  end.

Lemma json_wf_arr items : json_wf (NArr items) <-> Forall json_wf items.
Proof.
  simpl. induction items as [|x items IH]; simpl; [split; [constructor|done]|].
  by rewrite IH, Forall_cons.
Qed.

Lemma json_wf_obj fields : json_wf (NObj fields) <-> jm_wf fields /\ Forall (fun p => json_wf p.2) fields.
Proof.
  simpl. apply and_iff_compat_l. induction fields as [|x fields IH]; simpl; [split; [constructor|done]|].
  by rewrite IH, Forall_cons.
Qed.

(** The first character of a text: neither white space nor a closing bracket. *)
Definition opens (c : ascii) : Prop :=
  skip_ws (String c "") = String c "" /\ c <> "]"%char /\ c <> "}"%char /\ c <> ","%char.

Lemma skip_ws_opens c s : opens c -> skip_ws (String c s) = String c s.
Proof. intros [Hc _]. cbn [skip_ws] in *. by case_decide. Qed.

(** The first character of a numeral. *)
Definition numeral (c : ascii) : Prop := c = "-"%char \/ is_Some (digit_value c).

Lemma numeral_opens c :
  numeral c -> opens c /\ c <> quote /\ c <> "["%char /\ c <> "{"%char /\ c <> "t"%char
    /\ c <> "f"%char /\ c <> "n"%char.
Proof.
  intros [->|Hc]; [by split_and!|]. unfold digit_value in Hc.
  case_decide as Hn; [|by destruct Hc]. clear Hc. unfold opens. cbn [skip_ws].
  rewrite decide_False by (intros [->|[->|[->| ->]]]; vm_compute in Hn; lia).
  split_and!; [done|..]; intros ->; vm_compute in Hn; lia.
Qed.

Lemma pretty_numeral (n : Z) : exists c t, pretty n = String c t /\ numeral c.
Proof.
  assert (forall p, exists c t, pretty (N.pos p) = String c t /\ numeral c) as Hpos.
  { intros p. assert (starts_digit (pretty (N.pos p)) = true) as Hs.
    { unfold pretty, pretty_N. rewrite decide_False by done. by apply starts_digit_go. }
    destruct (pretty (N.pos p)) as [|c t]; [done|]. exists c, t. split; [done|].
    right. by apply bool_decide_eq_true in Hs. }
  destruct n as [|p|p]; [exists "0"%char, ""; split; [done|by right]|apply (Hpos p)|].
  exists "-"%char, (pretty (N.pos p)). split; [done|by left].
Qed.

Lemma json_text_opens v : exists c t, json_text v = String c t /\ opens c.
Proof.
  destruct v as [|[]|n|s|items|fields]; try (eexists _, _; by split).
  destruct (pretty_numeral n) as (c & t & Hn & Hc). exists c, t. split; [done|by apply numeral_opens].
Qed.

(** ** The round trip *)
Lemma string_length_app (a b : string) : String.length (a +:+ b) = (String.length a + String.length b)%nat.
Proof. induction a as [|x a IH]; [done|]. exact (f_equal S IH). Qed.

Definition reads_back (v : Json) : Prop :=
  forall rest fuel, starts_digit rest = false -> (String.length (json_text v) < fuel)%nat ->
    parse_value fuel (json_text v +:+ rest) = Some (v, rest).

Lemma concat_comma {A} (f : A -> string) x y l rest :
  String.concat "," (f <$> x :: y :: l) +:+ rest
  = f x +:+ String "," (String.concat "," (f <$> y :: l) +:+ rest).
Proof.
  change (String.concat "," (f <$> x :: y :: l)) with (f x +:+ ("," +:+ String.concat "," (f <$> y :: l))).
  by rewrite string_app_assoc.
Qed.

Lemma concat_comma_length {A} (f : A -> string) x y l :
  String.length (String.concat "," (f <$> x :: y :: l))
  = (String.length (f x) + S (String.length (String.concat "," (f <$> y :: l))))%nat.
Proof.
  change (String.concat "," (f <$> x :: y :: l)) with (f x +:+ ("," +:+ String.concat "," (f <$> y :: l))).
  by rewrite string_length_app.
Qed.

Lemma parse_items_text items rest fuel :
  Forall reads_back items -> items <> [] ->
  (S (String.length (String.concat "," (json_text <$> items))) < fuel)%nat ->
  parse_items fuel (String.concat "," (json_text <$> items) +:+ String "]" rest) = Some (items, rest).
Proof.
  intros Hall. revert fuel. induction Hall as [|x l Hx Hl IH]; intros fuel Hne Hf; [done|].
  destruct fuel as [|fuel]; [lia|]. destruct l as [|y l].
  - change (String.concat "," (json_text <$> [x])) with (json_text x) in *. cbn [parse_items].
    by rewrite Hx by (done || lia).
  - rewrite concat_comma. rewrite concat_comma_length in Hf. cbn [parse_items].
    rewrite Hx by (done || lia). cbn [skip_ws]. rewrite decide_False by (by intros [|[|[]]]).
    by rewrite IH by (done || lia).
Qed.

Definition member_text (p : string * Json) : string := quoted p.1 +:+ ":" +:+ json_text p.2.

Lemma member_text_app p rest :
  member_text p +:+ rest
  = String quote (escape p.1 +:+ String quote (String ":" (json_text p.2 +:+ rest))).
Proof.
  unfold member_text, quoted.
  change (String quote (escape p.1 +:+ String quote "") +:+ (":" +:+ json_text p.2))
    with (String quote ((escape p.1 +:+ String quote "") +:+ (":" +:+ json_text p.2))).
  change (String quote ((escape p.1 +:+ String quote "") +:+ (":" +:+ json_text p.2)) +:+ rest)
    with (String quote (((escape p.1 +:+ String quote "") +:+ (":" +:+ json_text p.2)) +:+ rest)).
  by rewrite !string_app_assoc.
Qed.

Lemma member_text_length p : (String.length (json_text p.2) < String.length (member_text p))%nat.
Proof. unfold member_text. rewrite !string_length_app. cbn. lia. Qed.

(** One member, up to the character after it. *)
Lemma parse_member_head fuel p rest c :
  reads_back p.2 -> (String.length (member_text p) <= fuel)%nat -> digit_value c = None -> skip_ws (String c rest) = String c rest ->
  parse_members (S fuel) (member_text p +:+ String c rest)
  = match String c rest with
    | String "," r4 => (fun q => (p :: q.1, q.2)) <$> parse_members fuel r4
    | String "}" r4 => Some ([p], r4)
    | _ => None
    end.
Proof.
  intros Hp Hf Hc Hs. pose proof (member_text_length p) as Hlen. rewrite member_text_app.
  cbn [parse_members]. rewrite skip_ws_opens by (by split_and!). cbn match. rewrite decide_True by done.
  rewrite parse_chars_escape. cbn [skip_ws]. rewrite decide_False by (by intros [|[|[]]]).
  rewrite Hp; [|cbn; by rewrite Hc|lia]. rewrite Hs. by destruct p.
Qed.

Lemma parse_members_text fields rest fuel :
  Forall (fun p => reads_back p.2) fields -> fields <> [] ->
  (S (String.length (String.concat "," (member_text <$> fields))) < fuel)%nat ->
  parse_members fuel (String.concat "," (member_text <$> fields) +:+ String "}" rest) = Some (fields, rest).
Proof.
  intros Hall. revert fuel. induction Hall as [|x l Hx Hl IH]; intros fuel Hne Hf; [done|].
  destruct fuel as [|fuel]; [lia|]. destruct l as [|y l].
  - change (String.concat "," (member_text <$> [x])) with (member_text x) in *.
    by rewrite parse_member_head by (done || lia).
  - rewrite concat_comma. rewrite concat_comma_length in Hf.
    rewrite parse_member_head by (done || lia). by rewrite IH by (done || lia).
Qed.

Lemma concat_opens {A} (f : A -> string) l rest :
  l <> [] -> (forall x, exists c t, f x = String c t /\ opens c) ->
  exists c t, String.concat "," (f <$> l) +:+ rest = String c t /\ opens c.
Proof.
  intros Hne Hf. destruct l as [|x [|y l]]; [done| |]; destruct (Hf x) as (c & t & Hx & Hc).
  - exists c, (t +:+ rest). change (String.concat "," (f <$> [x])) with (f x). by rewrite Hx.
  - rewrite concat_comma, Hx. by eexists c, _.
Qed.

Lemma member_text_opens p : exists c t, member_text p = String c t /\ opens c.
Proof. exists quote. eexists. split; [done|]. by split_and!. Qed.

Lemma parse_value_number fuel n rest :
  starts_digit rest = false -> parse_value (S fuel) (pretty n +:+ rest) = Some (NNum n, rest).
Proof.
  intros Hrest. pose proof (parse_number_pretty n rest Hrest) as Hp.
  destruct (pretty_numeral n) as (c & t & Hn & (Ho & ? & ? & ? & ? & ? & ?)%numeral_opens). rewrite Hn in *.
  change (String c t +:+ rest) with (String c (t +:+ rest)) in *.
  cbn [parse_value]. rewrite skip_ws_opens by done. by rewrite !decide_False by done.
Qed.

Lemma parse_value_items fuel x l rest :
  Forall reads_back (x :: l) -> (String.length (json_text (NArr (x :: l))) <= fuel)%nat ->
  parse_value (S fuel) (json_text (NArr (x :: l)) +:+ rest) = Some (NArr (x :: l), rest).
Proof.
  intros Hall Hf. cbn [json_text] in *. rewrite !string_length_app in Hf. cbn [String.length] in Hf.
  rewrite !string_app_assoc. set (body := String.concat "," (json_text <$> x :: l)) in *.
  pose proof (parse_items_text (x :: l) rest fuel Hall ltac:(done) ltac:(subst body; lia)) as Hp.
  destruct (concat_opens json_text (x :: l) (String "]" rest) ltac:(done) json_text_opens) as (c & t & Hc & Ho).
  change ("[" +:+ (body +:+ ("]" +:+ rest))) with (String "[" (body +:+ String "]" rest)).
  cbn [parse_value skip_ws]. rewrite decide_False by (by intros [|[|[]]]). cbn match.
  rewrite decide_False, decide_True by done. fold body in Hp, Hc. rewrite Hc in *.
  rewrite skip_ws_opens by done. destruct Ho as (_ & Hne & _).
  destruct c as [[] [] [] [] [] [] [] []]; try (by rewrite Hp); done.
Qed.

Lemma parse_value_members fuel x l rest :
  Forall (fun p => reads_back p.2) (x :: l) -> jm_wf (x :: l) ->
  (String.length (json_text (NObj (x :: l))) <= fuel)%nat ->
  parse_value (S fuel) (json_text (NObj (x :: l)) +:+ rest) = Some (NObj (x :: l), rest).
Proof.
  intros Hall Hwf Hf. cbn [json_text] in *. change (fun p => quoted p.1 +:+ _) with member_text in *.
  rewrite !string_length_app in Hf. cbn [String.length] in Hf.
  rewrite !string_app_assoc. set (body := String.concat "," (member_text <$> x :: l)) in *.
  pose proof (parse_members_text (x :: l) rest fuel Hall ltac:(done) ltac:(subst body; lia)) as Hp.
  destruct (concat_opens member_text (x :: l) (String "}" rest) ltac:(done) member_text_opens) as (c & t & Hc & Ho).
  change ("{" +:+ (body +:+ ("}" +:+ rest))) with (String "{" (body +:+ String "}" rest)).
  cbn [parse_value skip_ws]. rewrite decide_False by (by intros [|[|[]]]). cbn match.
  rewrite !decide_False, decide_True by done. fold body in Hp, Hc. rewrite Hc in *.
  rewrite skip_ws_opens by done. destruct Ho as (_ & _ & Hne & _).
  pose proof (foldl_jm_set_fresh (x :: l) [] Hwf) as Hfold.
  destruct c as [[] [] [] [] [] [] [] []]; try (rewrite Hp; cbn [fmap option_fmap option_map fst snd];
    by rewrite Hfold); done.
Qed.

Lemma json_reads_back v : json_wf v -> reads_back v.
Proof.
  induction v as [|b|n|s|items IH|fields IH] using Json_rect'; intros Hwf rest fuel Hrest Hf;
    (destruct fuel as [|fuel]; [lia|]).
  - done.
  - by destruct b.
  - by apply parse_value_number.
  - cbn [json_text]. unfold quoted.
    change (String quote (escape s +:+ String quote "") +:+ rest)
      with (String quote ((escape s +:+ String quote "") +:+ rest)). rewrite string_app_assoc.
    cbn [parse_value]. rewrite skip_ws_opens by (by split_and!). cbn match. rewrite decide_True by done.
    change (String quote "" +:+ rest) with (String quote rest). by rewrite parse_chars_escape.
  - apply json_wf_arr in Hwf. destruct items as [|x l]; [done|]. apply parse_value_items; [|lia].
    apply Forall_forall. intros y Hy. rewrite Forall_forall in IH, Hwf. by apply IH, Hwf.
  - apply json_wf_obj in Hwf as [Hwf Hall]. destruct fields as [|x l]; [done|].
    apply parse_value_members; [|done|lia].
    apply Forall_forall. intros y Hy. rewrite Forall_forall in IH, Hall. by apply IH, Hall.
Qed.

Lemma string_app_nil (s : string) : s +:+ "" = s.
Proof. induction s as [|c s IH]; [done|]. exact (f_equal (String c) IH). Qed.

Lemma json_parse_text v : json_wf v -> json_parse (json_text v) = Some v.
Proof.
  intros Hwf. unfold json_parse.
  pose proof (json_reads_back v Hwf "" (S (String.length (json_text v))) eq_refl ltac:(lia)) as Hp.
  rewrite string_app_nil in Hp. by rewrite Hp.
Qed.
