(* ===== verification/Canonical.v ===== *)
(** * The text a digest is taken of

    [packages/core/src/utils/hash.ts]: the key-sorted form of a value, its text without
    white space, and the short digest over the text's UTF-16 code units. *)
From S2P Require Import Prelude JsMap Hash Json.

#[local] Set Warnings "-register-all".

(** A JavaScript value as a digest reads it; numbers are integers. *)
Inductive HashVal : Type :=
  | HUndefined
  | HNull
  | HBool (b : bool)
  | HNum (n : Z)
  | HBigInt (n : Z)
  | HStr (s : string)
  | HArr (items : list HashVal)
  | HObj (fields : list (string * HashVal)).

Definition defined (v : HashVal) : bool := match v with HUndefined => false | _ => true end.

(** [Object.keys(obj).sort()] *)
Definition key_order {A} (p q : string * A) : Z := textOrder p.1 q.1.

Fixpoint normalizeAsArray (obj : HashVal) : HashVal :=
  match obj with
  | HArr items => HArr (map normalizeAsArray items)
  | HObj fields =>
      HArr (map (fun p => HArr [HStr p.1; p.2])
        (filter (fun p => defined p.2 = true) (sort_by key_order (map (fun p => (p.1, normalizeAsArray p.2)) fields))))
  | _ => obj
  end.

(** [JSON.stringify] with the replacer: an [undefined] is [null] in an array and no member
    of an object, a BigInt its digits and an [n]. *)
Fixpoint stringified (v : HashVal) : Json :=
  match v with
  | HUndefined | HNull => NNull
  | HBool b => NBool b
  | HNum n => NNum n
  | HBigInt n => NStr (pretty n +:+ "n")
  | HStr s => NStr s
  | HArr items => NArr (map stringified items)
  | HObj fields => NObj (omap (fun p => if defined p.2 then Some (p.1, stringified p.2) else None) fields)
  end.

(** [replace(/\s+/g, '')], over UTF-8: the spaces of one, two and three bytes. *)
Definition space1 (a : nat) : bool := bool_decide (9 <= a <= 13 \/ a = 32)%nat.
Definition space2 (a b : nat) : bool := bool_decide (a = 194 /\ b = 160)%nat.
Definition space3 (a b c : nat) : bool :=
  bool_decide ((a = 225 /\ b = 154 /\ c = 128) \/ (a = 226 /\ b = 128 /\ (128 <= c <= 138 \/ c = 168 \/ c = 169 \/ c = 175))
    \/ (a = 226 /\ b = 129 /\ c = 159) \/ (a = 227 /\ b = 128 /\ c = 128) \/ (a = 239 /\ b = 187 /\ c = 191))%nat.

Fixpoint withoutSpace (s : string) : string :=
  match s with
  | EmptyString => ""
  | String a s1 =>
      if space1 (nat_of_ascii a) then withoutSpace s1 else
      match s1 with
      | EmptyString => String a ""
      | String b s2 =>
          if space2 (nat_of_ascii a) (nat_of_ascii b) then withoutSpace s2 else
          match s2 with
          | EmptyString => String a (withoutSpace s1)
          | String c s3 =>
              if space3 (nat_of_ascii a) (nat_of_ascii b) (nat_of_ascii c) then withoutSpace s3 else String a (withoutSpace s1)
          end
      end
  end.

(** [undefined] has no text: the [replace] of it throws. *)
Definition canonical_form (obj : HashVal) : option string :=
  match obj with
  | HStr s => Some s
  | HUndefined => None
  | _ => Some (withoutSpace (json_text (stringified (normalizeAsArray obj))))
  end.

(** [charCodeAt] of every index: a character above the basic plane is two units. *)
Fixpoint utf16 (s : string) : list Z :=
  match s with
  | EmptyString => []
  | String c0 s0 =>
      let a := Z.of_nat (nat_of_ascii c0) in
      if decide (a < 128) then a :: utf16 s0 else
      match s0 with
      | EmptyString => [a]
      | String c1 s1 =>
          let b := Z.of_nat (nat_of_ascii c1) - 128 in
          if decide (a < 224) then (a - 192) * 64 + b :: utf16 s1 else
          match s1 with
          | EmptyString => [a]
          | String c2 s2 =>
              let c := Z.of_nat (nat_of_ascii c2) - 128 in
              if decide (a < 240) then (a - 224) * 4096 + b * 64 + c :: utf16 s2 else
              match s2 with
              | EmptyString => [a]
              | String c3 s3 =>
                  let n := (a - 240) * 262144 + b * 4096 + c * 64 + (Z.of_nat (nat_of_ascii c3) - 128) - 65536 in
                  55296 + n / 1024 :: 56320 + n mod 1024 :: utf16 s3
              end
          end
      end
  end.

Definition simple_hash (obj : HashVal) : option string := simple_hash_of ∘ utf16 <$> canonical_form obj.

Example sorted_text :
  canonical_form (HObj [("b", HNum 1); ("a", HBigInt 5); ("c", HUndefined)])
  = Some (json_text (NArr [NArr [NStr "a"; NStr "5n"]; NArr [NStr "b"; NNum 1]])).
Proof. vm_compute. reflexivity. Qed.

(** ** What the text says *)
Section HashValInd.
Variable P : HashVal -> Prop.
Hypothesis PAtom : forall v, match v with HArr _ | HObj _ => False | _ => True end -> P v.
Hypothesis PArr : forall items, Forall P items -> P (HArr items).
Hypothesis PObj : forall fields, Forall (fun p => P p.2) fields -> P (HObj fields).

Fixpoint HashVal_rect' (v : HashVal) : P v :=
  match v with
  | HArr items =>
      PArr items ((fix go l : Forall P l :=
        match l with [] => Forall_nil_2 P | x :: l' => Forall_cons_2 P x l' (HashVal_rect' x) (go l') end) items)
  | HObj fields =>
      PObj fields ((fix go l : Forall (fun p => P p.2) l :=
        match l with
        | [] => Forall_nil_2 (fun p => P p.2)
        | x :: l' => Forall_cons_2 (fun p => P p.2) x l' (HashVal_rect' x.2) (go l')
        end) fields)
  | v => PAtom v I
  end.
End HashValInd.

(** Text of visible ASCII characters: what identifiers, addresses and topics are. *)
Definition graphic (c : ascii) : Prop := (33 <= nat_of_ascii c < 127)%nat.
Fixpoint graphic_text (s : string) : Prop := match s with EmptyString => True | String c s' => graphic c /\ graphic_text s' end.

#[export] Instance graphic_dec c : Decision (graphic c).
Proof. unfold graphic. apply _. Defined.

#[export] Instance graphic_text_dec s : Decision (graphic_text s).
Proof. induction s; cbn [graphic_text]; apply _. Defined.

Lemma graphic_text_app s t : graphic_text (s +:+ t) <-> graphic_text s /\ graphic_text t.
Proof. induction s as [|c s IH]; [change ("" +:+ t) with t; cbn; tauto|]. change (String c s +:+ t) with (String c (s +:+ t)). cbn [graphic_text]. rewrite IH. tauto. Qed.

Lemma withoutSpace_graphic s : graphic_text s -> withoutSpace s = s.
Proof.
  induction s as [|a s IH]; [done|]. intros [Ha Hs]. specialize (IH Hs). unfold graphic in Ha. cbn [withoutSpace].
  unfold space1. rewrite bool_decide_false by lia. destruct s as [|b s]; [done|]. unfold space2. rewrite bool_decide_false by lia.
  destruct s as [|c s]; [by rewrite IH|]. unfold space3. rewrite bool_decide_false by lia. by rewrite IH.
Qed.

(** Values whose texts are all graphic. *)
Fixpoint graphic_json (v : Json) : Prop :=
  match v with
  | NStr s => graphic_text s
  | NArr items => foldr (fun x acc => graphic_json x /\ acc) True items
  | NObj fields => foldr (fun p acc => (graphic_text p.1 /\ graphic_json p.2) /\ acc) True fields
  | _ => True
  end.

Lemma graphic_escape s : graphic_text s -> graphic_text (escape s).
Proof.
  induction s as [|c s IH]; [done|]. intros [Hc Hs]. cbn [escape]. apply graphic_text_app. split; [|by apply IH].
  unfold escape_char. case_decide.
  - cbn [graphic_text]. split; [unfold graphic; vm_compute; lia|done].
  - rewrite decide_True by (unfold graphic in Hc; lia). done.
Qed.

Lemma graphic_quoted s : graphic_text s -> graphic_text (quoted s).
Proof.
  intros Hs. unfold quoted. cbn [graphic_text]. split; [unfold graphic; vm_compute; lia|]. apply graphic_text_app.
  split; [by apply graphic_escape|]. split; [unfold graphic; vm_compute; lia|done].
Qed.

Lemma graphic_concat l : Forall graphic_text l -> graphic_text (String.concat "," l).
Proof.
  induction 1 as [|s l Hs Hl IH]; [done|]. destruct l as [|t l]; [done|].
  change (String.concat "," (s :: t :: l)) with (s +:+ ("," +:+ String.concat "," (t :: l))).
  apply graphic_text_app. split; [done|]. apply graphic_text_app. split; [|done]. split; [unfold graphic; vm_compute; lia|done].
Qed.

Lemma graphic_pretty (n : Z) : graphic_text (pretty n).
Proof.
  assert (forall x acc, graphic_text acc -> graphic_text (pretty_N_go x acc)) as Hgo.
  { intros x. induction (N.lt_wf_0 x) as [x _ IH]. intros acc Hacc. destruct (decide (0 < x)%N) as [Hx|Hx].
    - rewrite pretty_N_go_step by done. apply IH; [by apply N.div_lt|]. split; [|done].
      assert (x `mod` 10 < 10)%N as Hm by (by apply N.mod_lt). revert Hm. generalize (x `mod` 10)%N. intros m Hm.
      assert (m = 0 \/ m = 1 \/ m = 2 \/ m = 3 \/ m = 4 \/ m = 5 \/ m = 6 \/ m = 7 \/ m = 8 \/ m = 9)%N as Hcases by lia.
      unfold graphic. repeat (destruct Hcases as [->|Hcases]; [vm_compute; lia|]). subst m. vm_compute; lia.
    - assert (x = 0%N) as -> by lia. by rewrite pretty_N_go_0. }
  assert (forall x : N, graphic_text (pretty x)) as HN.
  { intros x. unfold pretty, pretty_N. case_decide; [split; [unfold graphic; vm_compute; lia|done]|]. by apply Hgo. }
  destruct n as [|p|p]; unfold pretty, pretty_Z; [split; [unfold graphic; vm_compute; lia|done]|apply HN|].
  apply graphic_text_app. split; [split; [unfold graphic; vm_compute; lia|done]|apply HN].
Qed.

Lemma graphic_json_arr items : graphic_json (NArr items) <-> Forall graphic_json items.
Proof. cbn [graphic_json]. induction items as [|x items IH]; cbn [foldr]; [done|]. by rewrite IH, Forall_cons. Qed.

Lemma graphic_json_obj fields : graphic_json (NObj fields) <-> Forall (fun p => graphic_text p.1 /\ graphic_json p.2) fields.
Proof. cbn [graphic_json]. induction fields as [|x fields IH]; cbn [foldr]; [done|]. by rewrite IH, Forall_cons. Qed.

Lemma graphic_json_text v : graphic_json v -> graphic_text (json_text v).
Proof.
  induction v as [|[]|n|s|items IH|fields IH] using Json_rect'; intros Hv;
    try (cbn [json_text graphic_text]; unfold graphic; split_and!; done || (vm_compute; lia)).
  - apply graphic_pretty.
  - by apply graphic_quoted.
  - apply graphic_json_arr in Hv. cbn [json_text]. apply graphic_text_app. split; [split; [unfold graphic; vm_compute; lia|done]|].
    apply graphic_text_app. split; [|split; [unfold graphic; vm_compute; lia|done]]. apply graphic_concat, Forall_fmap.
    apply Forall_forall. intros x Hx. rewrite Forall_forall in IH, Hv. by apply IH, Hv.
  - apply graphic_json_obj in Hv. cbn [json_text]. apply graphic_text_app. split; [split; [unfold graphic; vm_compute; lia|done]|].
    apply graphic_text_app. split; [|split; [unfold graphic; vm_compute; lia|done]]. apply graphic_concat, Forall_fmap.
    apply Forall_forall. intros x Hx. rewrite Forall_forall in IH, Hv. destruct (Hv x Hx) as [Hk Hxv].
    cbn. apply graphic_text_app. split; [by apply graphic_quoted|]. split; [unfold graphic; vm_compute; lia|]. by apply IH.
Qed.

(** A value's Json after the keys were sorted: arrays, and nothing under a key twice. *)
Definition canonical_json (v : HashVal) : Json := stringified (normalizeAsArray v).

Lemma canonical_json_arr items : canonical_json (HArr items) = NArr (canonical_json <$> items).
Proof. unfold canonical_json. cbn [normalizeAsArray stringified]. by rewrite map_map. Qed.

Lemma canonical_json_wf v : json_wf (canonical_json v).
Proof.
  induction v as [v Hv|items IH|fields IH] using HashVal_rect'.
  - by destruct v.
  - rewrite canonical_json_arr. apply json_wf_arr, Forall_fmap. exact IH.
  - unfold canonical_json. cbn [normalizeAsArray stringified]. rewrite map_map. apply json_wf_arr, Forall_forall.
    intros j (p & -> & [_ Hp]%list_elem_of_filter)%list_elem_of_fmap. rewrite sort_by_perm in Hp.
    apply list_elem_of_fmap in Hp as (q & -> & Hq). cbn [stringified map fst snd]. apply json_wf_arr.
    rewrite Forall_forall in IH. repeat constructor. by apply (IH q).
Qed.

(** Two values that are not bare texts have the same text exactly when they have the same
    sorted form. *)
Definition structured (v : HashVal) : Prop := match v with HStr _ | HUndefined => False | _ => True end.

Lemma canonical_form_structured v : structured v -> canonical_form v = Some (withoutSpace (json_text (canonical_json v))).
Proof. by destruct v. Qed.

Lemma canonical_form_inj v w :
  structured v -> structured w -> graphic_json (canonical_json v) -> graphic_json (canonical_json w) ->
  canonical_form v = canonical_form w <-> canonical_json v = canonical_json w.
Proof.
  intros Hv Hw Gv Gw. rewrite !canonical_form_structured by done. split; [|by intros ->].
  rewrite !withoutSpace_graphic by (by apply graphic_json_text). intros [= Heq].
  pose proof (json_parse_text _ (canonical_json_wf v)) as Pv. rewrite Heq, (json_parse_text _ (canonical_json_wf w)) in Pv. by injection Pv.
Qed.

(** *** An object by its keys *)
Definition sorted_fields (fields : list (string * HashVal)) : list (string * HashVal) :=
  filter (fun p => defined p.2 = true) (sort_by key_order (map (fun p => (p.1, normalizeAsArray p.2)) fields)).

Definition json_fields (fields : list (string * HashVal)) : list (string * Json) := (fun p => (p.1, stringified p.2)) <$> sorted_fields fields.

Lemma canonical_json_obj fields : canonical_json (HObj fields) = NArr ((fun p => NArr [NStr p.1; p.2]) <$> json_fields fields).
Proof. unfold canonical_json, json_fields, sorted_fields. cbn [normalizeAsArray stringified]. rewrite map_map, <- list_fmap_compose. done. Qed.

(** What an object says under a key: nothing where the value is [undefined]. *)
Definition says (fields : list (string * HashVal)) (key : string) : option Json :=
  match jm_get fields key with Some v => if defined v then Some (canonical_json v) else None | None => None end.

Lemma defined_normalize v : defined (normalizeAsArray v) = defined v.
Proof. by destruct v. Qed.

Lemma json_fields_elem fields key j : jm_wf fields -> (key, j) ∈ json_fields fields <-> says fields key = Some j.
Proof.
  intros Hwf. unfold json_fields, sorted_fields, says. rewrite list_elem_of_fmap. split.
  - intros ([k v] & [= -> ->] & [Hd Hin]%list_elem_of_filter). rewrite sort_by_perm in Hin. apply list_elem_of_fmap in Hin as ([k' v'] & [= -> ->] & Hin).
    cbn [fst snd] in *. rewrite (proj2 (jm_get_Some fields k' v' Hwf) Hin). rewrite defined_normalize in Hd. by rewrite Hd.
  - destruct (jm_get fields key) as [v|] eqn:Hv; [|done]. destruct (defined v) eqn:Hd; [|done]. intros [= <-].
    exists (key, normalizeAsArray v). split; [done|]. apply list_elem_of_filter. cbn [snd]. rewrite defined_normalize. split; [done|].
    rewrite sort_by_perm. apply list_elem_of_fmap. exists (key, v). split; [done|]. by apply jm_get_elem.
Qed.

Lemma StronglySorted_filter {A} (R : relation A) (P : A -> Prop) `{!forall x, Decision (P x)} l : StronglySorted R l -> StronglySorted R (filter P l).
Proof. intros Hl. eapply StronglySorted_sublist; [apply sublist_filter|exact Hl]. Qed.

Lemma StronglySorted_fmap_key {A B} (R : relation A) (S : relation B) (f : A -> B) l :
  (forall x y, R x y -> S (f x) (f y)) -> StronglySorted R l -> StronglySorted S (f <$> l).
Proof. intros Hf. induction 1 as [|x l _ IH Hx]; csimpl; constructor; [done|]. apply Forall_fmap. eapply Forall_impl; [exact Hx|]. intros y Hy. by apply Hf. Qed.

#[export] Instance key_ordering {A} : Ordering (@key_order A).
Proof. unfold key_order. apply _. Qed.

Lemma json_fields_sorted fields : StronglySorted (fun p q => key_order p q <= 0) (json_fields fields).
Proof.
  unfold json_fields, sorted_fields. eapply StronglySorted_fmap_key; [|apply StronglySorted_filter, (sort_by_sorted key_order)].
  by intros [k v] [k' v'].
Qed.

Lemma json_fields_keys fields : jm_wf fields -> NoDup (json_fields fields).*1.
Proof.
  intros Hwf. unfold json_fields, sorted_fields. rewrite <- list_fmap_compose.
  assert ((fst ∘ (fun p : string * HashVal => (p.1, stringified p.2))) <$> filter (fun p => defined p.2 = true) (sort_by key_order (map (fun p => (p.1, normalizeAsArray p.2)) fields))
    = (filter (fun p => defined p.2 = true) (sort_by key_order (map (fun p => (p.1, normalizeAsArray p.2)) fields))).*1) as -> by done.
  eapply sublist_NoDup; [|apply sublist_fmap, sublist_filter].
  eapply (NoDup_Permutation_proper _ _ (fmap_Permutation fst _ _ (sort_by_perm _ _))). rewrite <- list_fmap_compose. exact Hwf.
Qed.

Lemma sorted_pairs_eq {A} (l k : list (string * A)) :
  StronglySorted (fun p q => key_order p q <= 0) l -> StronglySorted (fun p q => key_order p q <= 0) k -> NoDup l.*1 -> NoDup k.*1 ->
  (forall p, p ∈ l <-> p ∈ k) -> l = k.
Proof.
  intros Hl Hk Nl Nk Hin. apply (StronglySorted_unique_strong (fun p q => key_order p q <= 0)); [|done|done|].
  - intros [a x] [b y] Ha Hb Hab Hba. unfold key_order in Hab, Hba. cbn in Hab, Hba. assert (a = b) as <-.
    { apply textOrder_eq. destruct (Z.lt_trichotomy (textOrder a b) 0) as [Hlt|[?|?]]; [apply textOrder_flip in Hlt; lia|done|lia]. }
    apply Hin in Hb. by rewrite (NoDup_fmap_inj_on fst l (a, x) (a, y)).
  - apply NoDup_Permutation; [by eapply NoDup_fmap_1|by eapply NoDup_fmap_1|done].
Qed.

Lemma canonical_json_keys f g : jm_wf f -> jm_wf g -> canonical_json (HObj f) = canonical_json (HObj g) <-> forall key, says f key = says g key.
Proof.
  intros Hf Hg. rewrite !canonical_json_obj. split.
  - intros [= Heq] key. assert (json_fields f = json_fields g) as Hpairs.
    { revert Heq. apply list_fmap_eq_inj. by intros [k j] [k' j'] [= -> ->]. }
    apply option_eq. intros j. by rewrite <- !json_fields_elem, Hpairs.
  - intros Hsays. do 2 f_equal. apply sorted_pairs_eq; [apply json_fields_sorted..|by apply json_fields_keys|by apply json_fields_keys|].
    intros [key j]. by rewrite !json_fields_elem, Hsays.
Qed.

Lemma graphic_json_keys fields :
  jm_wf fields -> (forall key j, says fields key = Some j -> graphic_text key /\ graphic_json j) -> graphic_json (canonical_json (HObj fields)).
Proof.
  intros Hwf Hall. rewrite canonical_json_obj. apply graphic_json_arr, Forall_fmap, Forall_forall.
  intros [key j] Hj%json_fields_elem; [|done]. destruct (Hall key j Hj). cbn [fst snd graphic_json foldr]. done.
Qed.

(** Two objects have the same text exactly when they say the same under every key, in
    whatever order their keys were written and whatever is [undefined] in them. *)
Theorem canonical_form_same_object (f g : list (string * HashVal)) :
  jm_wf f -> jm_wf g -> graphic_json (canonical_json (HObj f)) -> graphic_json (canonical_json (HObj g)) ->
  canonical_form (HObj f) = canonical_form (HObj g) <-> forall key, says f key = says g key.
Proof. intros Hf Hg Gf Gg. rewrite canonical_form_inj by done. by apply canonical_json_keys. Qed.

(** Objects written with the same keys: what differs is under one of them. *)
Definition member (v : HashVal) : option Json := if defined v then Some (canonical_json v) else None.

Lemma says_member fields key : says fields key = jm_get fields key ≫= member.
Proof. unfold says, member. by destruct (jm_get fields key). Qed.

Lemma object_json_zip (f g : list (string * HashVal)) :
  jm_wf f -> f.*1 = g.*1 -> canonical_json (HObj f) = canonical_json (HObj g) <-> Forall2 (fun p q => member p.2 = member q.2) f g.
Proof.
  intros Hf Hk. assert (jm_wf g) as Hg by (unfold jm_wf in *; by rewrite <- Hk). rewrite canonical_json_keys by done. setoid_rewrite says_member.
  revert g Hf Hk Hg. induction f as [|[k v] f IH]; intros [|[k' v'] g] Hf Hk Hg; try done. injection Hk as <- Hk.
  apply NoDup_cons in Hf as [Hnf Hf], Hg as [Hng Hg]. specialize (IH g Hf Hk Hg). rewrite Forall2_cons, <- IH. cbn [fst snd]. split.
  - intros Hall. split; [specialize (Hall k); cbn [jm_get] in Hall; by rewrite !decide_True in Hall|]. intros key. specialize (Hall key). cbn [jm_get] in Hall.
    case_decide as Hkey; [|done]. subst key. by rewrite (proj2 (jm_get_None f k) Hnf), (proj2 (jm_get_None g k) Hng).
  - intros [Hv Hall] key. cbn [jm_get]. case_decide; [done|apply Hall].
Qed.
