(* ===== verification/StreamConfig.v ===== *)
(** * What a stream is identified by

    The stream configuration and the entries of a source, as
    [packages/core/src/internal/engine/utils.ts], [engine/eventRanges.ts] and
    [stream/identity.ts] hash them: two spellings of one filter are one stream. *)
From S2P Require Import Prelude JsMap Hash AbiEvents EventRanges FilterRules Requests Types Json Canonical.

(** A key of an object literal: not there, there and [undefined], or given. *)
Inductive Key (A : Type) : Type := Absent | Undefined | Given (a : A).
Arguments Absent {A}.
Arguments Undefined {A}.
Arguments Given {A} a.

Definition given {A} (k : Key A) : option A := match k with Given a => Some a | _ => None end.

Definition field {A} (name : string) (value : A -> HashVal) (k : Key A) : list (string * HashVal) :=
  match k with Absent => [] | Undefined => [(name, HUndefined)] | Given a => [(name, value a)] end.

(** [LogParseConfig], [ProvidedStreamConfig] and [UsedStreamConfig]. *)
Record ParseConfig : Type := mkParse { parse_all : Key bool; parse_rules : Key (list FilterRule) }.
Record ProvidedStreamConfig : Type := mkProvided { provided_finality : Key Z; provided_parse : Key ParseConfig }.
Record UsedStreamConfig : Type := mkUsed { used_finality : Z; used_parse : option ParseConfig }.

(** ** The values that are hashed *)
Definition slot_value (slot : ArgumentSlot) : HashVal :=
  match slot with AnyTopic => HNull | ThisTopic topic => HStr topic | OneOfTopics topics => HArr (HStr <$> topics) end.

Definition entry_value (entry : ArgumentFilter) : HashVal := HArr (slot_value <$> entry).

Definition rule_value (rule : FilterRule) : HashVal :=
  HObj (("event", HStr (rule_event rule))
    :: match rule_contracts rule with Some contracts => [("contracts", HArr (HStr <$> contracts))] | None => [] end
    ++ [("match", HArr (entry_value <$> rule_match rule))]).

Definition parse_value (parse : ParseConfig) : HashVal :=
  HObj (field "parseAllEventsIrrespectiveOfAddresses" HBool (parse_all parse)
    ++ field "filters" (fun rules => HArr (rule_value <$> rules)) (parse_rules parse)).

Definition config_value (config : UsedStreamConfig) : HashVal :=
  HObj (("finality", HNum (used_finality config))
    :: match used_parse config with Some parse => [("parse", parse_value parse)] | None => [] end).

(** ** [resolveStreamConfig] *)
Definition sorted_set (l : list string) : list string := sort_by textOrder (js_set l).

Definition canonicalSlot (slot : ArgumentSlot) : ArgumentSlot :=
  match slot with OneOfTopics topics => OneOfTopics (sorted_set topics) | slot => slot end.

(** The loop from the end is [withoutTrailingWildcards]. *)
Definition canonicalArgumentFilter (entry : ArgumentFilter) : ArgumentFilter := canonicalSlot <$> withoutTrailingWildcards entry.

(** [canonical_form(value)], of a value that has one. *)
Definition text_of {A} (value : A -> HashVal) (a : A) : string := default "" (canonical_form (value a)).

Definition firstPerText {A} (value : A -> HashVal) (values : list A) : list (string * A) :=
  foldl (fun seen a => if jm_has seen (text_of value a) then seen else jm_set seen (text_of value a) a) [] values.

Definition dedupeSorted {A} (value : A -> HashVal) (values : list A) : list A := (sort_by key_order (firstPerText value values)).*2.

Section Config.
Context `{lib : AbiLibrary}.

(** An address that is not one throws. *)
Inductive ConfigError : Type := InvalidAddress (address : string).

Definition canonicalRule (rule : FilterRule) : result ConfigError FilterRule :=
  contracts ← match rule_contracts rule with
    | None => Ok None
    | Some contracts => addresses ← mapR (normalizeAddress InvalidAddress) contracts; Ok (Some (sorted_set addresses))
    end;
  Ok (mkRule (rule_event rule) contracts (dedupeSorted entry_value (canonicalArgumentFilter <$> rule_match rule))).

Definition canonicalFilterRules (rules : list FilterRule) : result ConfigError (list FilterRule) :=
  canonical ← mapR canonicalRule rules; Ok (dedupeSorted rule_value canonical).

Definition resolveParseConfig (parse : option ParseConfig) : result ConfigError (option ParseConfig) :=
  match parse with
  | None => Ok None
  | Some parse =>
      match parse_rules parse with
      | Given [] => Ok (Some (mkParse (parse_all parse) Absent))
      | Given rules => rules ← canonicalFilterRules rules; Ok (Some (mkParse (parse_all parse) (Given rules)))
      | _ => Ok (Some parse)
      end
  end.

Definition resolveStreamConfig (stream : option ProvidedStreamConfig) : result ConfigError UsedStreamConfig :=
  let finality := default 17 (stream ≫= fun s => given (provided_finality s)) in
  parse ← resolveParseConfig (stream ≫= fun s => given (provided_parse s));
  Ok (mkUsed finality parse).

Definition streamConfigHashOf (stream : option ProvidedStreamConfig) : result ConfigError (option string) :=
  config ← resolveStreamConfig stream; Ok (simple_hash (config_value config)).

(** A used config is handed to the same function. *)
Definition provide (config : UsedStreamConfig) : ProvidedStreamConfig :=
  mkProvided (Given (used_finality config)) (match used_parse config with Some parse => Given parse | None => Absent end).

End Config.

(** ** Sets of texts *)

Lemma text_sorted_eq (l k : list string) :
  StronglySorted (fun a b => textOrder a b <= 0) l -> StronglySorted (fun a b => textOrder a b <= 0) k -> l ≡ₚ k -> l = k.
Proof.
  intros Hl Hk. apply (StronglySorted_unique_strong (fun a b => textOrder a b <= 0)); [|done..]. intros a b _ _ Hab Hba. apply textOrder_eq.
  destruct (Z.lt_trichotomy (textOrder a b) 0) as [Hlt|[?|?]]; [apply textOrder_flip in Hlt; lia|done|lia].
Qed.

Lemma sorted_set_elem l x : x ∈ sorted_set l <-> x ∈ l.
Proof. unfold sorted_set. rewrite sort_by_perm. apply js_set_spec. Qed.

Lemma sorted_set_sorted l : StronglySorted (fun a b => textOrder a b <= 0) (sorted_set l).
Proof. apply (sort_by_sorted textOrder (Ordering0 := text_ordering id)). Qed.

Lemma sorted_set_NoDup l : NoDup (sorted_set l).
Proof. unfold sorted_set. rewrite sort_by_perm. apply js_set_spec. Qed.

Lemma sorted_set_same l k : sorted_set l = sorted_set k <-> forall x, x ∈ l <-> x ∈ k.
Proof.
  split.
  - intros Heq x. by rewrite <- (sorted_set_elem l), Heq, sorted_set_elem.
  - intros Hin. apply text_sorted_eq; [apply sorted_set_sorted..|]. apply NoDup_Permutation; [apply sorted_set_NoDup..|].
    intros x. by rewrite !sorted_set_elem.
Qed.

Lemma sorted_set_again l : sorted_set (sorted_set l) = sorted_set l.
Proof. apply sorted_set_same. intros x. apply sorted_set_elem. Qed.

(** ** Lists kept as sets, by their text *)
Section Dedupe.
Context {A : Type} (value : A -> HashVal).

Lemma firstPerText_spec values :
  NoDup (firstPerText value values).*1
  /\ (forall t a, (t, a) ∈ firstPerText value values -> a ∈ values /\ t = text_of value a)
  /\ (forall a, a ∈ values -> text_of value a ∈ (firstPerText value values).*1).
Proof.
  unfold firstPerText. induction values as [|a values (Hnd & Hin & Hall)] using rev_ind.
  { split_and!; [constructor|by intros t a ?%not_elem_of_nil|by intros a ?%not_elem_of_nil]. }
  rewrite foldl_app. cbn [foldl]. unfold jm_has. case_bool_decide as Hhas.
  - split_and!; [done| |].
    + intros t b Hb. destruct (Hin t b Hb) as [? ->]. split; [|done]. apply elem_of_app. by left.
    + intros b [Hb| ->%list_elem_of_singleton]%elem_of_app; [by apply Hall|]. destruct Hhas as [x Hx]. apply jm_get_elem in Hx. apply list_elem_of_fmap. by exists (text_of value a, x).
  - rewrite jm_set_new by (apply jm_get_None; destruct (jm_get _ _); [by destruct Hhas|done]).
    rewrite fmap_app. split_and!.
    + apply NoDup_app. split_and!; [done| |apply NoDup_singleton]. intros t Ht ->%list_elem_of_singleton. apply Hhas. apply list_elem_of_fmap in Ht as ([t' x] & Heq & Hx). cbn in Heq. subst t'. apply (jm_get_Some _ _ _ Hnd) in Hx. by exists x.
    + intros t b [Hb|[= -> ->]%list_elem_of_singleton]%elem_of_app; [|split; [apply elem_of_app; right; by left|done]].
      destruct (Hin t b Hb) as [? ->]. split; [|done]. apply elem_of_app. by left.
    + intros b [Hb| ->%list_elem_of_singleton]%elem_of_app; apply elem_of_app; [left; by apply Hall|right; by left].
Qed.

Lemma firstPerText_distinct values : NoDup (text_of value <$> values) -> firstPerText value values = (fun a => (text_of value a, a)) <$> values.
Proof.
  unfold firstPerText. induction values as [|a values IH] using rev_ind; [done|]. rewrite fmap_app. intros (Hnd & Hnew & _)%NoDup_app.
  rewrite foldl_app, IH by done. cbn [foldl]. unfold jm_has. rewrite bool_decide_false.
  - rewrite jm_set_new, fmap_app; [done|]. intros (p & Hp & (b & -> & Hb)%list_elem_of_fmap)%list_elem_of_fmap. cbn in Hp.
    apply (Hnew (text_of value b)); [by apply list_elem_of_fmap_2|]. csimpl. rewrite Hp. by left.
  - intros [x (p & Hp & Hin)%jm_get_elem%list_elem_of_fmap]. injection Hp as Ht ->. apply (Hnew (text_of value p)); [by apply list_elem_of_fmap_2|]. csimpl. rewrite Ht. by left.
Qed.

Lemma dedupeSorted_texts values : NoDup (text_of value <$> dedupeSorted value values) /\ forall a, a ∈ dedupeSorted value values -> a ∈ values.
Proof.
  destruct (firstPerText_spec values) as (Hnd & Hin & _). unfold dedupeSorted.
  assert (text_of value <$> (sort_by key_order (firstPerText value values)).*2 = (sort_by key_order (firstPerText value values)).*1) as ->.
  { rewrite <- list_fmap_compose. apply list_fmap_ext. intros i [t a] Ha%list_elem_of_lookup_2. rewrite sort_by_perm in Ha. by destruct (Hin t a Ha) as [_ ->]. }
  split; [by rewrite sort_by_perm|]. intros a ([t b] & -> & Hb)%list_elem_of_fmap. rewrite sort_by_perm in Hb. apply (Hin _ _ Hb).
Qed.

Lemma dedupeSorted_sorted values : StronglySorted (fun a b => textOrder (text_of value a) (text_of value b) <= 0) (dedupeSorted value values).
Proof.
  destruct (firstPerText_spec values) as (_ & Hin & _). unfold dedupeSorted.
  assert (forall l : list (string * A), (forall p, p ∈ l -> p.1 = text_of value p.2) -> StronglySorted (fun p q => key_order p q <= 0) l ->
    StronglySorted (fun a b => textOrder (text_of value a) (text_of value b) <= 0) l.*2) as Hmap.
  { intros l Hl. induction 1 as [|p l _ IH Hp]; csimpl; constructor; [apply IH; intros q Hq; apply Hl; by right|]. apply Forall_fmap, Forall_forall.
    intros q Hq. rewrite Forall_forall in Hp. specialize (Hp q Hq). unfold key_order in Hp. cbn. rewrite <- (Hl p), <- (Hl q) by (by left || by right). done. }
  apply Hmap; [|apply (sort_by_sorted key_order)]. intros [t a] Ha. rewrite sort_by_perm in Ha. by destruct (Hin t a Ha).
Qed.

(** Once is enough. *)
Lemma dedupeSorted_again values : dedupeSorted value (dedupeSorted value values) = dedupeSorted value values.
Proof.
  destruct (dedupeSorted_texts values) as [Hnd _]. pose proof (dedupeSorted_sorted values) as Hs. set (l := dedupeSorted value values) in *.
  unfold dedupeSorted. rewrite firstPerText_distinct, sort_by_id; [|by eapply StronglySorted_fmap_key; [|exact Hs]|done].
  rewrite <- list_fmap_compose. apply list_fmap_id.
Qed.

(** Where the text tells the values apart, the list is a set. *)
Lemma dedupeSorted_elem values a :
  (forall x y, x ∈ values -> y ∈ values -> text_of value x = text_of value y -> x = y) -> a ∈ dedupeSorted value values <-> a ∈ values.
Proof.
  intros Hinj. split; [apply dedupeSorted_texts|]. intros Ha. destruct (firstPerText_spec values) as (_ & Hin & Hall).
  pose proof (Hall a Ha) as ([t b] & Heq & Hb)%list_elem_of_fmap. destruct (Hin t b Hb) as [Hbv ->]. cbn in Heq.
  rewrite (Hinj a b Ha Hbv Heq). unfold dedupeSorted. apply list_elem_of_fmap. exists (text_of value b, b). split; [done|]. by rewrite sort_by_perm.
Qed.

Lemma dedupeSorted_same l k :
  (forall x y, x ∈ l ++ k -> y ∈ l ++ k -> text_of value x = text_of value y -> x = y) ->
  dedupeSorted value l = dedupeSorted value k <-> forall a, a ∈ l <-> a ∈ k.
Proof.
  intros Hinj. assert (forall a, a ∈ dedupeSorted value l <-> a ∈ l) as Hl.
  { intros a. apply dedupeSorted_elem. intros x y Hx Hy. apply Hinj; apply elem_of_app; by left. }
  assert (forall a, a ∈ dedupeSorted value k <-> a ∈ k) as Hk.
  { intros a. apply dedupeSorted_elem. intros x y Hx Hy. apply Hinj; apply elem_of_app; by right. }
  split; [intros Heq a; by rewrite <- Hl, Heq, Hk|]. intros Hsame.
  apply (StronglySorted_unique_strong (fun a b => textOrder (text_of value a) (text_of value b) <= 0)); [|apply dedupeSorted_sorted..|].
  - intros a b Ha Hb Hab Hba. apply Hinj; [apply elem_of_app; left; by apply Hl|apply elem_of_app; right; by apply Hk|].
    apply textOrder_eq. destruct (Z.lt_trichotomy (textOrder (text_of value a) (text_of value b)) 0) as [Hlt|[?|?]]; [apply textOrder_flip in Hlt; lia|done|lia].
  - apply NoDup_Permutation; [eapply NoDup_fmap_1, dedupeSorted_texts..|]. intros a. by rewrite Hl, Hk.
Qed.
End Dedupe.

(** ** Match entries *)
Definition same_slot (a b : ArgumentSlot) : Prop :=
  match a, b with OneOfTopics l, OneOfTopics k => forall x, x ∈ l <-> x ∈ k | _, _ => a = b end.

Definition slot_at (entry : list ArgumentSlot) (i : nat) : ArgumentSlot := default AnyTopic (entry !! i).

(** Two entries that ask the same of every argument. *)
Definition same_entry (a b : ArgumentFilter) : Prop := forall i, same_slot (slot_at a i) (slot_at b i).

Lemma canonicalSlot_same a b : canonicalSlot a = canonicalSlot b <-> same_slot a b.
Proof.
  destruct a, b; cbn [canonicalSlot same_slot]; try done. rewrite <- sorted_set_same. split; [by intros [= ->]|by intros ->].
Qed.

Lemma canonicalSlot_any a : canonicalSlot a = AnyTopic <-> a = AnyTopic.
Proof. by destruct a. Qed.

Lemma slot_at_trimmed entry : forall i, slot_at (withoutTrailingWildcards entry) i = slot_at entry i.
Proof.
  induction entry as [|slot entry IH]; intros i; [done|]. cbn [withoutTrailingWildcards].
  assert (forall kept, (forall i, slot_at kept i = slot_at entry i) -> slot_at (slot :: kept) i = slot_at (slot :: entry) i) as Hcons.
  { intros kept Hk. unfold slot_at in *. destruct i; [done|]. cbn [lookup list_lookup]. apply Hk. }
  destruct slot; try (by destruct (withoutTrailingWildcards entry); apply Hcons, IH). destruct (withoutTrailingWildcards entry) eqn:Ht; [|by apply Hcons].
  unfold slot_at in *. destruct i; [done|]. cbn [lookup list_lookup]. rewrite <- IH. done.
Qed.

(** What trimming leaves ends in a slot that asks something. *)
Lemma trimmed_last entry slot : last (withoutTrailingWildcards entry) = Some slot -> slot <> AnyTopic.
Proof.
  induction entry as [|s entry IH]; [done|]. cbn [withoutTrailingWildcards]. destruct (withoutTrailingWildcards entry) as [|x l] eqn:Ht.
  - by destruct s; cbn; [|intros [= <-]..].
  - assert (last (s :: x :: l) = last (x :: l)) as Hlast by done. destruct s; rewrite Hlast; exact IH.
Qed.

Lemma canonicalArgumentFilter_same a b : canonicalArgumentFilter a = canonicalArgumentFilter b <-> same_entry a b.
Proof.
  unfold canonicalArgumentFilter, same_entry. setoid_rewrite <- (slot_at_trimmed a). setoid_rewrite <- (slot_at_trimmed b).
  pose proof (trimmed_last a) as La. pose proof (trimmed_last b) as Lb.
  set (l := withoutTrailingWildcards a : list ArgumentSlot) in *. set (k := withoutTrailingWildcards b : list ArgumentSlot) in *. clearbody l k. split.
  - intros Heq i. apply canonicalSlot_same. assert ((canonicalSlot <$> l) !! i = (canonicalSlot <$> k) !! i) as Hi by (by rewrite Heq).
    rewrite !list_lookup_fmap in Hi. unfold slot_at. revert Hi. destruct (l !! i), (k !! i); [intros [= Hi]; exact Hi|done|done|done].
  - intros Hsame. assert (length l = length k) as Hlen.
    { destruct (Nat.lt_trichotomy (length l) (length k)) as [Hlt|[?|Hlt]]; [|done|]; exfalso.
      - destruct (last k) as [s|] eqn:Hs; [|apply last_None in Hs; rewrite Hs in Hlt; cbn in Hlt; lia].
        apply (Lb s eq_refl). specialize (Hsame (pred (length k))). unfold slot_at in Hsame. rewrite <- (last_lookup k), Hs in Hsame.
        rewrite lookup_ge_None_2 in Hsame by lia. cbn in Hsame. by destruct s.
      - destruct (last l) as [s|] eqn:Hs; [|apply last_None in Hs; rewrite Hs in Hlt; cbn in Hlt; lia].
        apply (La s eq_refl). specialize (Hsame (pred (length l))). unfold slot_at in Hsame. rewrite <- (last_lookup l), Hs in Hsame.
        rewrite lookup_ge_None_2 in Hsame by lia. cbn in Hsame. by destruct s. }
    apply list_eq. intros i. rewrite !list_lookup_fmap. specialize (Hsame i). unfold slot_at in Hsame.
    destruct (l !! i) as [x|] eqn:Hx, (k !! i) as [y|] eqn:Hy; csimpl; [by f_equal; apply canonicalSlot_same| | |done].
    + apply lookup_lt_Some in Hx. apply lookup_ge_None in Hy. lia.
    + apply lookup_lt_Some in Hy. apply lookup_ge_None in Hx. lia.
Qed.

(** ** The texts tell entries and rules apart *)
Definition graphic_slot (slot : ArgumentSlot) : Prop :=
  match slot with AnyTopic => True | ThisTopic topic => graphic_text topic | OneOfTopics topics => Forall graphic_text topics end.
Definition graphic_entry (entry : list ArgumentSlot) : Prop := Forall graphic_slot entry.
Definition graphic_rule (rule : FilterRule) : Prop := graphic_text (rule_event rule) /\ Forall graphic_entry (rule_match rule).

Lemma canonical_json_strings l : canonical_json (HArr (HStr <$> l)) = NArr (NStr <$> l).
Proof. rewrite canonical_json_arr, <- list_fmap_compose. done. Qed.

Lemma NStr_list_inj (l k : list string) : NStr <$> l = NStr <$> k -> l = k.
Proof. apply list_fmap_eq_inj. by intros x y [= ->]. Qed.

Lemma slot_json_inj a b : canonical_json (slot_value a) = canonical_json (slot_value b) -> a = b.
Proof.
  destruct a, b; cbn [slot_value]; rewrite ?canonical_json_strings; try done.
  - by intros [= ->].
  - by intros [= ->%NStr_list_inj].
Qed.

Lemma slot_json_graphic a : graphic_slot a -> graphic_json (canonical_json (slot_value a)).
Proof.
  destruct a; cbn [slot_value graphic_slot]; [done|done|]. intros Hl. rewrite canonical_json_strings. apply graphic_json_arr, Forall_fmap. exact Hl.
Qed.

Lemma entry_json entry : canonical_json (entry_value entry) = NArr ((fun slot => canonical_json (slot_value slot)) <$> entry).
Proof. unfold entry_value. rewrite canonical_json_arr, <- list_fmap_compose. done. Qed.

Lemma entry_json_inj a b : canonical_json (entry_value a) = canonical_json (entry_value b) -> a = b.
Proof. rewrite !entry_json. intros [= Heq]. revert Heq. apply list_fmap_eq_inj. intros x y. apply slot_json_inj. Qed.

Lemma entry_json_graphic entry : graphic_entry entry -> graphic_json (canonical_json (entry_value entry)).
Proof. intros He. rewrite entry_json. apply graphic_json_arr, Forall_fmap. eapply Forall_impl; [exact He|]. intros x. apply slot_json_graphic. Qed.

Lemma entry_text_inj a b : graphic_entry a -> graphic_entry b -> text_of entry_value a = text_of entry_value b -> a = b.
Proof.
  intros Ga Gb Heq. apply entry_json_inj, (canonical_form_inj (entry_value a) (entry_value b)); [done|done|by apply entry_json_graphic..|].
  unfold text_of in Heq. rewrite !canonical_form_structured in * by done. by f_equal.
Qed.

Definition rule_fields (rule : FilterRule) : list (string * HashVal) :=
  ("event", HStr (rule_event rule))
    :: match rule_contracts rule with Some contracts => [("contracts", HArr (HStr <$> contracts))] | None => [] end
    ++ [("match", HArr (entry_value <$> rule_match rule))].

Lemma rule_fields_wf rule : jm_wf (rule_fields rule).
Proof. unfold jm_wf, rule_fields. destruct (rule_contracts rule); apply (bool_decide_unpack _); vm_compute; exact I. Qed.

Lemma rule_says rule :
  says (rule_fields rule) "event" = Some (NStr (rule_event rule))
  /\ says (rule_fields rule) "contracts" = (fun contracts => NArr (NStr <$> contracts)) <$> rule_contracts rule
  /\ says (rule_fields rule) "match" = Some (NArr ((fun entry => canonical_json (entry_value entry)) <$> rule_match rule)).
Proof.
  assert (jm_get (rule_fields rule) "event" = Some (HStr (rule_event rule))) as He by done.
  assert (jm_get (rule_fields rule) "contracts" = (fun contracts => HArr (HStr <$> contracts)) <$> rule_contracts rule) as Hc
    by (unfold rule_fields; by destruct (rule_contracts rule)).
  assert (jm_get (rule_fields rule) "match" = Some (HArr (entry_value <$> rule_match rule))) as Hm by (unfold rule_fields; by destruct (rule_contracts rule)).
  unfold says. rewrite He, Hc, Hm. split_and!; [done| |].
  - destruct (rule_contracts rule) as [contracts|]; [|done]. cbn [fmap option_fmap option_map defined]. by rewrite canonical_json_strings.
  - cbn [defined]. by rewrite canonical_json_arr, <- list_fmap_compose.
Qed.

Lemma rule_json_inj a b : canonical_json (rule_value a) = canonical_json (rule_value b) -> a = b.
Proof.
  change (canonical_json (HObj (rule_fields a)) = canonical_json (HObj (rule_fields b)) -> a = b).
  rewrite canonical_json_keys by apply rule_fields_wf. intros Hsays. destruct (rule_says a) as (Ea & Ca & Ma), (rule_says b) as (Eb & Cb & Mb).
  pose proof (Hsays "event") as He. pose proof (Hsays "contracts") as Hc. pose proof (Hsays "match") as Hm.
  rewrite Ea, Eb in He. rewrite Ca, Cb in Hc. rewrite Ma, Mb in Hm. destruct a as [ea ca ma], b as [eb cb mb]. cbn [rule_event rule_contracts rule_match] in *.
  injection He as ->. injection Hm as Hm. apply list_fmap_eq_inj in Hm; [|intros x y; apply entry_json_inj]. subst mb. f_equal.
  destruct ca, cb; try done. injection Hc as Hc. f_equal. by apply NStr_list_inj.
Qed.

Lemma rule_json_graphic rule :
  graphic_text (rule_event rule) -> match rule_contracts rule with Some contracts => Forall graphic_text contracts | None => True end ->
  Forall graphic_entry (rule_match rule) -> graphic_json (canonical_json (rule_value rule)).
Proof.
  intros He Hc Hm. apply (graphic_json_keys (rule_fields rule)); [apply rule_fields_wf|]. intros key j Hj.
  unfold says in Hj. destruct (jm_get (rule_fields rule) key) as [v|] eqn:Hv; [|done]. apply jm_get_elem in Hv. unfold rule_fields in Hv.
  apply elem_of_cons in Hv as [[= -> ->]|[Hv|[= -> ->]%list_elem_of_singleton]%elem_of_app].
  - injection Hj as <-. split; [by apply (bool_decide_unpack _)|done].
  - destruct (rule_contracts rule) as [contracts|]; [|by apply not_elem_of_nil in Hv]. apply list_elem_of_singleton in Hv as [= -> ->].
    cbn [defined] in Hj. rewrite canonical_json_strings in Hj. injection Hj as <-. split; [by apply (bool_decide_unpack _)|]. apply graphic_json_arr, Forall_fmap. exact Hc.
  - cbn [defined] in Hj. rewrite canonical_json_arr, <- list_fmap_compose in Hj. injection Hj as <-. split; [by apply (bool_decide_unpack _)|].
    apply graphic_json_arr, Forall_fmap. eapply Forall_impl; [exact Hm|]. intros e. apply entry_json_graphic.
Qed.

(** ** Rules *)
Section Rules.
Context `{lib : AbiLibrary}.

(** Two rules that restrict the same: the same event, the same addresses however they are
    written, entries that ask the same. *)
Definition addresses_of (contracts : list string) (a : string) : Prop := exists c, c ∈ contracts /\ getAddress c = Some a.

Definition same_rule (r r' : FilterRule) : Prop :=
  rule_event r = rule_event r'
  /\ match rule_contracts r, rule_contracts r' with
     | None, None => True
     | Some l, Some k => forall a, addresses_of l a <-> addresses_of k a
     | _, _ => False
     end
  /\ (forall e, e ∈ rule_match r -> exists e', e' ∈ rule_match r' /\ same_entry e e')
  /\ (forall e', e' ∈ rule_match r' -> exists e, e ∈ rule_match r /\ same_entry e e').

Definition same_rules (rs rs' : list FilterRule) : Prop :=
  (forall r, r ∈ rs -> exists r', r' ∈ rs' /\ same_rule r r') /\ (forall r', r' ∈ rs' -> exists r, r ∈ rs /\ same_rule r r').

Lemma graphic_canonicalSlot slot : graphic_slot slot -> graphic_slot (canonicalSlot slot).
Proof.
  destruct slot; try done. cbn [graphic_slot canonicalSlot]. rewrite !Forall_forall. intros Ht x Hx. apply Ht. by apply sorted_set_elem.
Qed.

Lemma trimmed_sublist entry : withoutTrailingWildcards entry `sublist_of` entry.
Proof.
  induction entry as [|slot entry IH]; [done|]. cbn [withoutTrailingWildcards].
  destruct slot, (withoutTrailingWildcards entry); try (by constructor); by apply sublist_skip.
Qed.

Lemma graphic_canonicalEntry entry : graphic_entry entry -> graphic_entry (canonicalArgumentFilter entry).
Proof.
  intros He. apply Forall_fmap. eapply Forall_impl; [eapply Forall_sublist; [apply trimmed_sublist|exact He]|]. intros slot. apply graphic_canonicalSlot.
Qed.

Lemma canonicalRule_Ok r c :
  canonicalRule r = Ok c ->
  rule_event c = rule_event r
  /\ match rule_contracts r with
     | None => rule_contracts c = None
     | Some contracts => exists addresses, rule_contracts c = Some (sorted_set addresses) /\ forall a, a ∈ addresses <-> addresses_of contracts a
     end
  /\ rule_match c = dedupeSorted entry_value (canonicalArgumentFilter <$> rule_match r).
Proof.
  unfold canonicalRule. intros (contracts & Hc & [= <-])%bind_Ok. split; [done|]. split; [|done]. cbn [rule_contracts].
  destruct (rule_contracts r) as [l|]; [|by injection Hc as <-]. apply bind_Ok in Hc as (addresses & Ha & [= <-]).
  exists addresses. split; [done|]. intros a. rewrite (mapR_elem_iff _ _ _ Ha). unfold addresses_of.
  split; intros (x & Hx & Hn); exists x; (split; [done|]); by apply (normalizeAddress_Ok InvalidAddress).
Qed.

Lemma entries_inj (l : list ArgumentFilter) :
  Forall graphic_entry l -> forall x y, x ∈ canonicalArgumentFilter <$> l -> y ∈ canonicalArgumentFilter <$> l -> text_of entry_value x = text_of entry_value y -> x = y.
Proof.
  rewrite Forall_forall. intros Hl x y (x' & -> & Hx)%list_elem_of_fmap (y' & -> & Hy)%list_elem_of_fmap. apply entry_text_inj; by apply graphic_canonicalEntry, Hl.
Qed.

(** The canonical entries are the entries' canonical forms. *)
Lemma canonical_entries r c e : graphic_rule r -> canonicalRule r = Ok c -> e ∈ rule_match c <-> exists e', e' ∈ rule_match r /\ canonicalArgumentFilter e' = e.
Proof.
  intros [_ Gm] (_ & _ & ->)%canonicalRule_Ok. rewrite dedupeSorted_elem by (by apply entries_inj). rewrite list_elem_of_fmap.
  split; intros (e' & ? & ?); by exists e'.
Qed.

Lemma canonicalRule_same r r' c c' : graphic_rule r -> graphic_rule r' -> canonicalRule r = Ok c -> canonicalRule r' = Ok c' -> c = c' <-> same_rule r r'.
Proof.
  intros Gr Gr' Hc Hc'. pose proof (canonicalRule_Ok r c Hc) as (He & Ha & Hm). pose proof (canonicalRule_Ok r' c' Hc') as (He' & Ha' & Hm').
  pose proof (fun e => canonical_entries r c e Gr Hc) as Hin. pose proof (fun e => canonical_entries r' c' e Gr' Hc') as Hin'. split.
  - intros <-. split; [congruence|]. split; [|split].
    + destruct (rule_contracts r) as [l|], (rule_contracts r') as [k|]; [|destruct Ha as (? & ? & _); congruence|destruct Ha' as (? & ? & _); congruence|done].
      destruct Ha as (x & Hx & Hxa), Ha' as (y & Hy & Hya). rewrite Hx in Hy. injection Hy as Hy. intros a. rewrite <- Hxa, <- Hya. by apply sorted_set_same.
    + intros e Hee. assert (canonicalArgumentFilter e ∈ rule_match c) as Hec by (apply Hin; by exists e). apply Hin' in Hec as (e' & He'' & Heq).
      exists e'. split; [done|]. by apply canonicalArgumentFilter_same.
    + intros e Hee. assert (canonicalArgumentFilter e ∈ rule_match c) as Hec by (apply Hin'; by exists e). apply Hin in Hec as (e' & He'' & Heq).
      exists e'. split; [done|]. by apply canonicalArgumentFilter_same.
  - intros (Hev & Haddr & Hfw & Hbw). destruct c as [ev con ma], c' as [ev' con' ma']. cbn [rule_event rule_contracts rule_match] in *.
    assert (ev = ev') as -> by congruence. assert (con = con') as ->.
    { destruct (rule_contracts r) as [l|], (rule_contracts r') as [k|]; try done; [|congruence].
      destruct Ha as (x & -> & Hxa), Ha' as (y & -> & Hya). f_equal. apply sorted_set_same. intros a. by rewrite Hxa, Hya. }
    f_equal. rewrite Hm, Hm'. apply dedupeSorted_same.
    + rewrite <- fmap_app. apply entries_inj, Forall_app. split; [apply Gr|apply Gr'].
    + intros e. rewrite !list_elem_of_fmap. split.
      * intros (x & -> & Hx). destruct (Hfw x Hx) as (y & Hy & Hs). exists y. split; [by apply canonicalArgumentFilter_same|done].
      * intros (y & -> & Hy). destruct (Hbw y Hy) as (x & Hx & Hs). exists x. split; [by symmetry; apply canonicalArgumentFilter_same|done].
Qed.

(** A checksummed address is [0x] and hex digits. *)
Context (checksummed : forall a b, getAddress a = Some b -> graphic_text b).

Lemma canonical_rule_graphic r c : graphic_rule r -> canonicalRule r = Ok c -> graphic_json (canonical_json (rule_value c)).
Proof.
  intros [Ge Gm] Hc. pose proof (canonicalRule_Ok r c Hc) as (He & Ha & Hm). apply rule_json_graphic.
  - by rewrite He.
  - destruct (rule_contracts r) as [l|]; [|by rewrite Ha]. destruct Ha as (x & -> & Hx). apply Forall_forall. intros a Hin.
    apply (proj1 (sorted_set_elem x a)), Hx in Hin as (y & _ & Hy). by eapply checksummed.
  - apply Forall_forall. intros e (e' & He' & <-)%(canonical_entries r c e (conj Ge Gm) Hc). rewrite Forall_forall in Gm. by apply graphic_canonicalEntry, Gm.
Qed.

Lemma rule_text_inj a b :
  graphic_json (canonical_json (rule_value a)) -> graphic_json (canonical_json (rule_value b)) -> text_of rule_value a = text_of rule_value b -> a = b.
Proof.
  intros Ga Gb Heq. apply rule_json_inj, (canonical_form_inj (rule_value a) (rule_value b)); [done|done|done|done|].
  unfold text_of in Heq. rewrite !canonical_form_structured in * by done. by f_equal.
Qed.

Lemma rules_inj rs cs : Forall graphic_rule rs -> mapR canonicalRule rs = Ok cs -> Forall (fun c => graphic_json (canonical_json (rule_value c))) cs.
Proof.
  intros Gr Hcs%mapR_Forall2. induction Hcs as [|r c rs cs Hc _ IH]; constructor; apply Forall_cons in Gr as [Hr Gr]; [by eapply canonical_rule_graphic|by apply IH].
Qed.

Lemma canonicalFilterRules_elem rs cs c :
  Forall graphic_rule rs -> canonicalFilterRules rs = Ok cs -> c ∈ cs <-> exists r, r ∈ rs /\ canonicalRule r = Ok c.
Proof.
  intros Gr. unfold canonicalFilterRules. intros (ks & Hks & [= <-])%bind_Ok. pose proof (rules_inj rs ks Gr Hks) as Gk. rewrite Forall_forall in Gk.
  rewrite dedupeSorted_elem by (intros x y Hx Hy; apply rule_text_inj; by apply Gk). by apply mapR_elem_iff.
Qed.

Lemma canonicalFilterRules_same rs rs' cs cs' :
  Forall graphic_rule rs -> Forall graphic_rule rs' -> canonicalFilterRules rs = Ok cs -> canonicalFilterRules rs' = Ok cs' -> cs = cs' <-> same_rules rs rs'.
Proof.
  intros Gr Gr' Hcs Hcs'. pose proof (fun c => canonicalFilterRules_elem rs cs c Gr Hcs) as Hin. pose proof (fun c => canonicalFilterRules_elem rs' cs' c Gr' Hcs') as Hin'.
  assert (forall r, r ∈ rs -> exists c, canonicalRule r = Ok c) as Hok.
  { unfold canonicalFilterRules in Hcs. apply bind_Ok in Hcs as (ks & Hks & _). intros r Hr. destruct (mapR_elem _ _ _ _ Hks Hr) as (c & _ & Hc). by exists c. }
  assert (forall r, r ∈ rs' -> exists c, canonicalRule r = Ok c) as Hok'.
  { unfold canonicalFilterRules in Hcs'. apply bind_Ok in Hcs' as (ks & Hks & _). intros r Hr. destruct (mapR_elem _ _ _ _ Hks Hr) as (c & _ & Hc). by exists c. }
  rewrite Forall_forall in Gr, Gr'. split.
  - intros <-. split; intros r Hr.
    + destruct (Hok r Hr) as [c Hc]. assert (c ∈ cs) as (r' & Hr' & Hc')%Hin' by (apply Hin; by exists r). exists r'. split; [done|].
      by apply (canonicalRule_same r r' c c); [apply Gr|apply Gr'|..].
    + destruct (Hok' r Hr) as [c Hc]. assert (c ∈ cs) as (r' & Hr' & Hc')%Hin by (apply Hin'; by exists r). exists r'. split; [done|].
      by apply (canonicalRule_same r' r c c); [apply Gr|apply Gr'|..].
  - intros [Hfw Hbw]. unfold canonicalFilterRules in Hcs, Hcs'. apply bind_Ok in Hcs as (ks & Hks & [= <-]). apply bind_Ok in Hcs' as (ks' & Hks' & [= <-]).
    assert (Forall (fun c => graphic_json (canonical_json (rule_value c))) ks) as Gk by (eapply rules_inj; [|exact Hks]; by apply Forall_forall).
    assert (Forall (fun c => graphic_json (canonical_json (rule_value c))) ks') as Gk' by (eapply rules_inj; [|exact Hks']; by apply Forall_forall).
    apply dedupeSorted_same.
    + intros x y Hx Hy. apply rule_text_inj; [revert x Hx|revert y Hy]; apply Forall_forall, Forall_app; done.
    + intros c. rewrite (mapR_elem_iff _ _ _ Hks), (mapR_elem_iff _ _ _ Hks'). split.
      * intros (r & Hr & Hc). destruct (Hfw r Hr) as (r' & Hr' & Hs). destruct (Hok' r' Hr') as [c' Hc']. exists r'. split; [done|].
        by rewrite (proj2 (canonicalRule_same r r' c c' (Gr r Hr) (Gr' r' Hr') Hc Hc') Hs).
      * intros (r' & Hr' & Hc'). destruct (Hbw r' Hr') as (r & Hr & Hs). destruct (Hok r Hr) as [c0 Hc]. exists r. split; [done|].
        by rewrite <- (proj2 (canonicalRule_same r r' c0 c (Gr r Hr) (Gr' r' Hr') Hc Hc') Hs).
Qed.

(** *** The canonical rules ask for the same *)
Lemma same_rule_governs declarations r c a t : canonicalRule r = Ok c -> governs declarations c a t <-> governs declarations r a t.
Proof.
  intros Hc. destruct (canonicalRule_Ok r c Hc) as (He & Ha & _).
  assert (forall d, wanted c d = wanted r d) as Hw by (intros d; unfold wanted; by rewrite He).
  assert (match rule_contracts c with None => True | Some contracts => exists x b, x ∈ contracts /\ getAddress x = Some b /\ a = Some b end
    <-> match rule_contracts r with None => True | Some contracts => exists x b, x ∈ contracts /\ getAddress x = Some b /\ a = Some b end) as Hscope.
  { destruct (rule_contracts r) as [l|]; [|by rewrite Ha]. destruct Ha as (x & -> & Hx). split; intros (y & b & Hy & Hg & ->).
    - apply (proj1 (sorted_set_elem x y)), Hx in Hy as (z & Hz & Hzy). exists z, y. split_and!; [done|done|]. apply getAddress_again in Hzy. congruence.
    - assert (b ∈ x) as Hbx by (apply Hx; by exists y). exists b, b. split_and!; [by apply sorted_set_elem|by eapply getAddress_again|done]. }
  unfold governs. split; intros (d & Hd & Hda & Ht & Hwd & Hs); exists d; (split_and!; [done..| |by apply Hscope]); congruence.
Qed.

Lemma trimmed_matches entry : forall args, entryMatches (withoutTrailingWildcards entry) args = entryMatches entry args.
Proof.
  induction entry as [|slot entry IH]; intros args; [done|]. cbn [withoutTrailingWildcards].
  destruct slot as [|topic|topics].
  - destruct (withoutTrailingWildcards entry) eqn:Ht; [|cbn [entryMatches]; apply IH]. cbn [entryMatches]. rewrite <- IH. done.
  - destruct (withoutTrailingWildcards entry) eqn:Ht; destruct args; cbn [entryMatches]; try done; by rewrite <- IH.
  - destruct (withoutTrailingWildcards entry) eqn:Ht; destruct args; cbn [entryMatches]; try done; by rewrite <- IH.
Qed.

Lemma canonicalSlot_holds slot arg : slotHolds (canonicalSlot slot) arg = slotHolds slot arg.
Proof.
  destruct slot; try done. unfold slotHolds, canonicalSlot. apply bool_decide_ext. apply sorted_set_elem.
Qed.

Lemma canonicalEntry_matches entry args : entryMatches (canonicalArgumentFilter entry) args = entryMatches entry args.
Proof.
  rewrite <- (trimmed_matches entry). unfold canonicalArgumentFilter. revert args. induction (withoutTrailingWildcards entry) as [|slot l IH]; intros args; [done|].
  csimpl. pose proof (canonicalSlot_holds slot) as Hs. destruct slot; cbn [canonicalSlot entryMatches] in *; [by rewrite IH|..]; (destruct args; [done|]); rewrite IH; [done|by rewrite Hs].
Qed.

(** C30. What governs a log, and what lets it through, is decided alike by the rules as they are
    written and by the rules that are hashed. *)
Theorem canonical_rules_ask_the_same (rules canonical : list FilterRule) :
  Forall graphic_rule rules -> canonicalFilterRules rules = Ok canonical ->
  forall declarations a t args,
    ((exists r, r ∈ canonical /\ governs declarations r a t) <-> (exists r, r ∈ rules /\ governs declarations r a t))
    /\ ((exists r entry, r ∈ canonical /\ governs declarations r a t /\ entry ∈ rule_match r /\ entryMatches entry args = true)
        <-> (exists r entry, r ∈ rules /\ governs declarations r a t /\ entry ∈ rule_match r /\ entryMatches entry args = true)).
Proof.
  intros Gr Hc declarations a t args. pose proof (fun c => canonicalFilterRules_elem rules canonical c Gr Hc) as Hin.
  assert (forall r, r ∈ rules -> exists c, c ∈ canonical /\ canonicalRule r = Ok c) as Hok.
  { intros r Hr. unfold canonicalFilterRules in Hc. apply bind_Ok in Hc as (ks & Hks & _). destruct (mapR_elem _ _ _ _ Hks Hr) as (c & _ & Hrc).
    exists c. split; [|done]. apply Hin. by exists r. }
  rewrite Forall_forall in Gr. split; split.
  - intros (c & (r & Hr & Hrc)%Hin & Hg). exists r. split; [done|]. by apply (same_rule_governs _ r c).
  - intros (r & Hr & Hg). destruct (Hok r Hr) as (c & Hcin & Hrc). exists c. split; [done|]. by apply (same_rule_governs _ r c).
  - intros (c & e & (r & Hr & Hrc)%Hin & Hg & He & Hm). apply (canonical_entries r c e (Gr r Hr) Hrc) in He as (e' & He' & <-). rewrite canonicalEntry_matches in Hm.
    exists r, e'. split_and!; [done|by apply (same_rule_governs _ r c)|done|done].
  - intros (r & e & Hr & Hg & He & Hm). destruct (Hok r Hr) as (c & Hcin & Hrc). exists c, (canonicalArgumentFilter e). split_and!; [done|by apply (same_rule_governs _ r c)| |by rewrite canonicalEntry_matches].
    apply (canonical_entries r c _ (Gr r Hr) Hrc). by exists e.
Qed.

(** ** Configurations *)
Definition rules_meant (parse : ParseConfig) : option (list FilterRule) :=
  match parse_rules parse with Given (rule :: rules) => Some (rule :: rules) | _ => None end.

Definition finality_meant (stream : option ProvidedStreamConfig) : Z := default 17 (stream ≫= fun s => given (provided_finality s)).
Definition parse_meant (stream : option ProvidedStreamConfig) : option ParseConfig := stream ≫= fun s => given (provided_parse s).

Definition graphic_config (stream : option ProvidedStreamConfig) : Prop :=
  match parse_meant stream ≫= rules_meant with Some rules => Forall graphic_rule rules | None => True end.

(** Two configurations that mean the same stream. *)
Definition same_parse (p p' : ParseConfig) : Prop :=
  given (parse_all p) = given (parse_all p')
  /\ match rules_meant p, rules_meant p' with None, None => True | Some rs, Some rs' => same_rules rs rs' | _, _ => False end.

Definition same_stream (c c' : option ProvidedStreamConfig) : Prop :=
  finality_meant c = finality_meant c'
  /\ match parse_meant c, parse_meant c' with None, None => True | Some p, Some p' => same_parse p p' | _, _ => False end.

Lemma says_field {A} name (value : A -> HashVal) k rest key :
  (forall a, defined (value a) = true) ->
  says (field name value k ++ rest) key = if decide (name = key) then match k with Absent => says rest key | Undefined => None | Given a => Some (canonical_json (value a)) end else says rest key.
Proof.
  intros Hd. unfold says. destruct k; cbn [field app jm_get]; [by case_decide|by case_decide|]. case_decide; [by rewrite Hd|done].
Qed.

Definition parse_fields (parse : ParseConfig) : list (string * HashVal) :=
  field "parseAllEventsIrrespectiveOfAddresses" HBool (parse_all parse) ++ field "filters" (fun rules => HArr (rule_value <$> rules)) (parse_rules parse) ++ [].

Lemma parse_fields_value parse : parse_value parse = HObj (parse_fields parse).
Proof. unfold parse_value, parse_fields. by rewrite app_nil_r. Qed.

Lemma parse_fields_wf parse : jm_wf (parse_fields parse).
Proof. unfold jm_wf, parse_fields. destruct (parse_all parse), (parse_rules parse); apply (bool_decide_unpack _); vm_compute; exact I. Qed.

Lemma parse_says parse key :
  says (parse_fields parse) key =
    if decide ("parseAllEventsIrrespectiveOfAddresses" = key) then NBool <$> given (parse_all parse)
    else if decide ("filters" = key) then (fun rules => NArr ((fun r => canonical_json (rule_value r)) <$> rules)) <$> given (parse_rules parse)
    else None.
Proof.
  unfold parse_fields. rewrite says_field by done. case_decide as H1.
  - subst key. destruct (parse_all parse); cbn [given fmap option_fmap option_map]; [|done|done]. rewrite says_field by done. by rewrite decide_False.
  - rewrite says_field by done. case_decide; [|done]. destruct (parse_rules parse); cbn [given fmap option_fmap option_map]; [done|done|].
    by rewrite canonical_json_arr, <- list_fmap_compose.
Qed.

Lemma rule_jsons_inj (l k : list FilterRule) : (fun r => canonical_json (rule_value r)) <$> l = (fun r => canonical_json (rule_value r)) <$> k -> l = k.
Proof. apply list_fmap_eq_inj. intros x y. apply rule_json_inj. Qed.

Lemma parse_json_same p q :
  canonical_json (parse_value p) = canonical_json (parse_value q) <-> given (parse_all p) = given (parse_all q) /\ given (parse_rules p) = given (parse_rules q).
Proof.
  rewrite !parse_fields_value, canonical_json_keys by apply parse_fields_wf. setoid_rewrite parse_says. split.
  - intros Hsays. split.
    + specialize (Hsays "parseAllEventsIrrespectiveOfAddresses"). rewrite !decide_True in Hsays by done. destruct (given (parse_all p)), (given (parse_all q)); try done. by injection Hsays as ->.
    + specialize (Hsays "filters"). rewrite !(decide_False (P := "parseAllEventsIrrespectiveOfAddresses" = "filters")), !decide_True in Hsays by done.
      destruct (given (parse_rules p)), (given (parse_rules q)); try done. injection Hsays as Hl. f_equal. by apply rule_jsons_inj.
  - by intros [-> ->] key.
Qed.

Lemma resolveParse_Ok p q :
  resolveParseConfig (Some p) = Ok (Some q) ->
  parse_all q = parse_all p /\ match rules_meant p with Some rules => exists canonical, canonicalFilterRules rules = Ok canonical /\ parse_rules q = Given canonical | None => given (parse_rules q) = None end.
Proof.
  unfold resolveParseConfig, rules_meant. destruct (parse_rules p) as [| |[|rule rules]] eqn:Hrules; try (by intros [= <-]; rewrite ?Hrules).
  intros (canonical & Hc & [= <-])%bind_Ok. split; [done|]. by exists canonical.
Qed.

Lemma resolveParse_None p : resolveParseConfig p = Ok None <-> p = None.
Proof.
  destruct p as [p|]; [|done]. split; [|done]. unfold resolveParseConfig. destruct (parse_rules p) as [| |[|rule rules]]; try done.
  by intros (canonical & _ & [=])%bind_Ok.
Qed.

(** Resolving again changes nothing: a stored digest does not move. *)
Lemma canonicalRule_again r c : canonicalRule r = Ok c -> canonicalRule c = Ok c.
Proof.
  intros Hc. destruct (canonicalRule_Ok r c Hc) as (He & Ha & Hm). unfold canonicalRule.
  assert (canonicalArgumentFilter <$> rule_match c = rule_match c) as Hsame.
  { rewrite Hm. assert (forall l : list ArgumentFilter, (forall e, e ∈ l -> canonicalArgumentFilter e = e) -> canonicalArgumentFilter <$> l = l) as Hid.
    { induction l as [|e l IH]; intros Hl; [done|]. csimpl. f_equal; [apply Hl; left|]. apply IH. intros x Hx. apply Hl. by right. }
    apply Hid. intros e Hee%dedupeSorted_texts. apply list_elem_of_fmap in Hee as (e' & -> & _).
    apply canonicalArgumentFilter_same. intros i. apply canonicalSlot_same. unfold canonicalArgumentFilter.
    rewrite <- (slot_at_trimmed e'). generalize (withoutTrailingWildcards e' : list ArgumentSlot). intros l.
    unfold slot_at. rewrite list_lookup_fmap. destruct (l !! i) as [slot|]; [|done]. cbn [fmap option_fmap option_map default from_option id].
    destruct slot; try done. cbn [canonicalSlot]. by rewrite sorted_set_again. }
  rewrite Hsame. assert (dedupeSorted entry_value (rule_match c) = rule_match c) as -> by (rewrite Hm; apply dedupeSorted_again).
  destruct (rule_contracts r) as [l|].
  - destruct Ha as (x & Hx & Hxa). rewrite Hx. assert (mapR (normalizeAddress InvalidAddress) (sorted_set x) = Ok (sorted_set x)) as ->.
    { apply mapR_Forall2. apply Forall2_same_length_lookup_2; [done|]. intros i a b Ha Hb. rewrite Ha in Hb. injection Hb as <-.
      apply (normalizeAddress_Ok InvalidAddress). apply list_elem_of_lookup_2, (proj1 (sorted_set_elem x a)), Hxa in Ha as (y & _ & Hy). by eapply getAddress_again. }
    cbn [mbind result_bind]. rewrite sorted_set_again. destruct c. cbn in *. by subst.
  - rewrite Ha. cbn [mbind result_bind]. destruct c. cbn in *. by subst.
Qed.

Lemma canonicalFilterRules_again rs cs : canonicalFilterRules rs = Ok cs -> canonicalFilterRules cs = Ok cs.
Proof.
  unfold canonicalFilterRules at 1. intros (ks & Hks & [= <-])%bind_Ok.
  assert (mapR canonicalRule (dedupeSorted rule_value ks) = Ok (dedupeSorted rule_value ks)) as Hmap.
  { apply mapR_Forall2. apply Forall2_same_length_lookup_2; [done|]. intros i a b Ha Hb. rewrite Ha in Hb. injection Hb as <-.
    apply list_elem_of_lookup_2, dedupeSorted_texts in Ha. apply (mapR_elem_iff _ _ _ Hks) in Ha as (r & _ & Hr). by eapply canonicalRule_again. }
  unfold canonicalFilterRules. rewrite Hmap. cbn [mbind result_bind]. by rewrite dedupeSorted_again.
Qed.

Theorem resolve_again (stream : option ProvidedStreamConfig) (config : UsedStreamConfig) :
  resolveStreamConfig stream = Ok config -> resolveStreamConfig (Some (provide config)) = Ok config.
Proof.
  unfold resolveStreamConfig. intros (parse & Hp & [= <-])%bind_Ok. cbn [mbind option_bind provide provided_finality provided_parse given used_finality used_parse].
  assert (resolveParseConfig parse = Ok parse) as Hagain.
  { destruct parse as [q|]; [|done]. destruct (stream ≫= _) as [p|]; [|done]. unfold resolveParseConfig in Hp |- *.
    destruct (parse_rules p) as [| |[|rule rules]] eqn:Hrules.
    - injection Hp as <-. by rewrite Hrules.
    - injection Hp as <-. by rewrite Hrules.
    - by injection Hp as <-.
    - apply bind_Ok in Hp as (canonical & Hc & [= <-]). cbn [parse_rules]. apply canonicalFilterRules_again in Hc as Hagain.
      destruct canonical as [|c cs]; [exfalso|by rewrite Hagain].
      unfold canonicalFilterRules in Hc. apply bind_Ok in Hc as (ks & Hks & [= Hnil]). assert (length ks = S (length rules)) as Hlen by (by rewrite (mapR_length _ _ _ Hks)).
      destruct ks as [|k ks]; [done|]. destruct (firstPerText_spec rule_value (k :: ks)) as (_ & _ & Hall). specialize (Hall k (list_elem_of_here _ _)).
      unfold dedupeSorted in Hnil. apply fmap_nil_inv in Hnil. pose proof (sort_by_perm key_order (firstPerText rule_value (k :: ks))) as Hperm. rewrite Hnil in Hperm.
      apply Permutation_nil in Hperm. rewrite Hperm in Hall. by apply not_elem_of_nil in Hall. }
  destruct parse as [q|]; cbn [given]; by rewrite Hagain.
Qed.

(** *** The text of a configuration *)
Definition config_fields (config : UsedStreamConfig) : list (string * HashVal) :=
  ("finality", HNum (used_finality config)) :: match used_parse config with Some parse => [("parse", parse_value parse)] | None => [] end.

Lemma config_fields_wf config : jm_wf (config_fields config).
Proof. unfold jm_wf, config_fields. destruct (used_parse config); apply (bool_decide_unpack _); vm_compute; exact I. Qed.

Lemma config_says config key :
  says (config_fields config) key =
    if decide ("finality" = key) then Some (NNum (used_finality config))
    else if decide ("parse" = key) then (fun parse => canonical_json (parse_value parse)) <$> used_parse config else None.
Proof.
  unfold says, config_fields. cbn [jm_get]. case_decide; [done|]. destruct (used_parse config) as [parse|]; cbn [jm_get]; case_decide; try done.
Qed.

Lemma resolve_Ok stream config :
  resolveStreamConfig stream = Ok config -> used_finality config = finality_meant stream /\ resolveParseConfig (parse_meant stream) = Ok (used_parse config).
Proof. unfold resolveStreamConfig. by intros (parse & Hp & [= <-])%bind_Ok. Qed.

Lemma parse_graphic p q :
  match rules_meant p with Some rules => Forall graphic_rule rules | None => True end -> resolveParseConfig (Some p) = Ok (Some q) ->
  graphic_json (canonical_json (parse_value q)).
Proof.
  intros Gr Hq. apply resolveParse_Ok in Hq as [Hall Hrules]. rewrite parse_fields_value. apply graphic_json_keys; [apply parse_fields_wf|].
  intros key j. rewrite parse_says. case_decide as H1; [|case_decide as H2; [|done]].
  - subst key. destruct (given (parse_all q)); [|done]. intros [= <-]. split; [by apply (bool_decide_unpack _)|done].
  - subst key. destruct (given (parse_rules q)) as [canonical|] eqn:Hg; [|done]. intros [= <-]. split; [by apply (bool_decide_unpack _)|].
    apply graphic_json_arr, Forall_fmap. destruct (rules_meant p) as [rules|]; [|by rewrite Hrules in Hg]. destruct Hrules as (cs & Hcs & Hq).
    rewrite Hq in Hg. injection Hg as ->. apply Forall_forall. intros c (r & Hr & Hrc)%(canonicalFilterRules_elem rules canonical c Gr Hcs).
    rewrite Forall_forall in Gr. cbn. by eapply canonical_rule_graphic; [apply Gr|].
Qed.

Lemma config_graphic stream config : graphic_config stream -> resolveStreamConfig stream = Ok config -> graphic_json (canonical_json (config_value config)).
Proof.
  intros Gr [_ Hp]%resolve_Ok. apply (graphic_json_keys (config_fields config)); [apply config_fields_wf|]. intros key j. rewrite config_says.
  case_decide as H1; [|case_decide as H2; [|done]].
  - subst key. intros [= <-]. split; [by apply (bool_decide_unpack _)|done].
  - subst key. destruct (used_parse config) as [q|]; [|done]. intros [= <-]. split; [by apply (bool_decide_unpack _)|].
    unfold graphic_config in Gr. destruct (parse_meant stream) as [p|]; [|done]. by apply (parse_graphic p).
Qed.

Lemma parse_same p p' q q' :
  match rules_meant p with Some rules => Forall graphic_rule rules | None => True end ->
  match rules_meant p' with Some rules => Forall graphic_rule rules | None => True end ->
  resolveParseConfig (Some p) = Ok (Some q) -> resolveParseConfig (Some p') = Ok (Some q') ->
  canonical_json (parse_value q) = canonical_json (parse_value q') <-> same_parse p p'.
Proof.
  intros Gr Gr' [Hall Hrules]%resolveParse_Ok [Hall' Hrules']%resolveParse_Ok. rewrite parse_json_same, Hall, Hall'. unfold same_parse. apply and_iff_compat_l.
  destruct (rules_meant p) as [rs|], (rules_meant p') as [rs'|].
  - destruct Hrules as (cs & Hcs & ->), Hrules' as (cs' & Hcs' & ->). cbn [given]. rewrite <- (canonicalFilterRules_same rs rs' cs cs' Gr Gr' Hcs Hcs').
    split; [by intros [= ->]|by intros ->].
  - destruct Hrules as (cs & Hcs & ->). rewrite Hrules'. done.
  - destruct Hrules' as (cs & Hcs & ->). rewrite Hrules. done.
  - by rewrite Hrules, Hrules'.
Qed.

Lemma config_json_same (c c' : option ProvidedStreamConfig) (u u' : UsedStreamConfig) :
  graphic_config c -> graphic_config c' -> resolveStreamConfig c = Ok u -> resolveStreamConfig c' = Ok u' ->
  canonical_json (config_value u) = canonical_json (config_value u') <-> same_stream c c'.
Proof.
  intros Gc Gc' Hu Hu'.
  change (canonical_json (HObj (config_fields u)) = canonical_json (HObj (config_fields u')) <-> same_stream c c').
  rewrite canonical_json_keys by apply config_fields_wf. setoid_rewrite config_says.
  apply resolve_Ok in Hu as [Hf Hp]. apply resolve_Ok in Hu' as [Hf' Hp']. unfold same_stream, graphic_config in *. rewrite Hf, Hf'.
  assert (((fun parse => canonical_json (parse_value parse)) <$> used_parse u = (fun parse => canonical_json (parse_value parse)) <$> used_parse u')
    <-> match parse_meant c, parse_meant c' with None, None => True | Some p, Some p' => same_parse p p' | _, _ => False end) as Hparse.
  { destruct (parse_meant c) as [p|], (parse_meant c') as [p'|].
    - destruct (used_parse u) as [q|]; [|by apply resolveParse_None in Hp]. destruct (used_parse u') as [q'|]; [|by apply resolveParse_None in Hp'].
      rewrite <- (parse_same p p' q q' Gc Gc' Hp Hp'). cbn [fmap option_fmap option_map]. split; [intros Hs; by apply (inj Some) in Hs|by intros ->].
    - destruct (used_parse u) as [q|]; [|by apply resolveParse_None in Hp]. injection Hp' as <-. done.
    - destruct (used_parse u') as [q'|]; [|by apply resolveParse_None in Hp']. injection Hp as <-. done.
    - injection Hp as <-. injection Hp' as <-. done. }
  rewrite <- Hparse. split.
  - intros Hsays. split; [specialize (Hsays "finality"); rewrite !decide_True in Hsays by done; by injection Hsays|].
    specialize (Hsays "parse"). by rewrite !(decide_False (P := "finality" = "parse")), !decide_True in Hsays by done.
  - by intros [-> ->] key.
Qed.

(** Two configurations are hashed over the same text exactly when they mean the same
    stream: the finality with its default, the flag, and the rules up to their order, their
    repeats, the spelling of their addresses, the order of what a slot lists and the
    wildcards an entry ends in. *)
Theorem stream_text_exact (c c' : option ProvidedStreamConfig) (u u' : UsedStreamConfig) :
  graphic_config c -> graphic_config c' -> resolveStreamConfig c = Ok u -> resolveStreamConfig c' = Ok u' ->
  canonical_form (config_value u) = canonical_form (config_value u') <-> same_stream c c'.
Proof.
  intros Gc Gc' Hu Hu'. rewrite canonical_form_inj; [|done|done|exact (config_graphic c u Gc Hu)|exact (config_graphic c' u' Gc' Hu')].
  by apply config_json_same.
Qed.
End Rules.
