(* ===== verification/SourceIdentity.v ===== *)
(** * The entries of a source and the digest of its stream

    [sourceHashesOf] ([packages/core/src/internal/engine/eventRanges.ts]) renders a source as
    one entry per event and block range; [packages/core/src/stream/identity.ts] names the
    stream those entries and a configuration ask for. *)
From S2P Require Import Prelude JsMap Hash AbiEvents EventRanges FilterRules Requests Types Json Invalidation Canonical StreamConfig.

(** [IndexingSource]; [source_written] is the object itself, every key it was written
    with, which only the entry of an older format hashes. *)
Record IndexingSource : Type := mkSource {
  source_chainId : string;
  source_genesisHash : option string;
  source_contracts : SourceContracts;
  source_written : list (string * HashVal)
}.

Definition optional {A} (value : A -> HashVal) (o : option A) : HashVal := match o with Some a => value a | None => HUndefined end.

(** [decodingShapeOf], as it is hashed. *)
Fixpoint parameter_value (shape : ParameterShape) : HashVal :=
  match shape with
  | mkShape name type indexed components =>
      HObj [("name", HStr name); ("type", HStr type); ("indexed", HBool indexed);
            ("components", match components with Some parts => HArr (map parameter_value parts) | None => HUndefined end)]
  end.

Definition shape_value (shape : DecodingShape) : HashVal :=
  HObj [("anonymous", HBool (shape_anonymous shape)); ("inputs", HArr (map parameter_value (shape_inputs shape)))].

(** [simple_hash] of an object, which always has a text. *)
Definition hash_of (fields : list (string * HashVal)) : string := default "" (simple_hash (HObj fields)).

(** [a.startBlock - b.startBlock || (a.hash < b.hash ? -1 : a.hash > b.hash ? 1 : 0)] *)
Definition entryOrder : SourceHashEntry -> SourceHashEntry -> Z :=
  lex (on startBlock) (fun a b => textOrder (entry_hash a) (entry_hash b)).

Definition STREAM_DIGEST_LENGTH : nat := 32.
Definition STREAM_DIGEST_RULE : string := "etherfold/stream/1".

Section Source.
Context `{lib : AbiLibrary}.

Definition state_fields (live : LiveEvent) (range : EventBlockRange) : list (string * HashVal) :=
  [("address", optional HStr (live_address live)); ("signature", HStr (live_signature live));
   ("shape", shape_value (decodingShapeOf (live_event live)));
   ("firstBlock", HNum (range_firstBlock range)); ("lastBlock", optional HNum (range_lastBlock range))].

Definition filter_fields (live : LiveEvent) (range : EventBlockRange) : list (string * HashVal) :=
  [("address", optional HStr (live_address live)); ("topic0", optional HStr (topic0Of (live_event live)));
   ("firstBlock", HNum (range_firstBlock range)); ("lastBlock", optional HNum (range_lastBlock range))].

Definition eventEntry (live : LiveEvent) (range : EventBlockRange) : SourceHashEntry :=
  mkEntry (range_firstBlock range) (hash_of (state_fields live range)) (Some (hash_of (filter_fields live range))) None.

Definition eventEntriesOf (lives : list LiveEvent) : list SourceHashEntry :=
  concat ((fun live => eventEntry live <$> live_ranges live) <$> lives).

Definition contracts_skeleton (contracts : SourceContracts) : HashVal :=
  match contracts with
  | ListedContracts listed =>
      HArr ((fun c => HObj [("address", HStr (source_address c)); ("startBlock", optional HNum (source_startBlock c))]) <$> listed)
  | MergedAbi _ start => HObj [("startBlock", optional HNum start)]
  end.

Definition sourceSkeletonOf (source : IndexingSource) : list (string * HashVal) :=
  [("chainId", HStr (source_chainId source)); ("genesisHash", optional HStr (source_genesisHash source));
   ("contracts", contracts_skeleton (source_contracts source))].

Definition sourceHashesOf (source : IndexingSource) : result RangeError (list SourceHashEntry) :=
  lives ← liveEventsOf (source_contracts source);
  let eventEntries := sort_by entryOrder (eventEntriesOf lives) in
  let skeleton := hash_of (sourceSkeletonOf source) in
  Ok (mkEntry 0 skeleton (Some skeleton) (Some (hash_of (source_written source))) :: eventEntries).

(** [wireContextOf]: the wire carries the whole source, not its entries. *)
Definition wireContextFor (source : IndexingSource) (config : UsedStreamConfig) : result ConfigError WireContext :=
  hash ← streamConfigHashOf (Some (provide config));
  Ok (mkWireContext [mkEntry 0 (hash_of (source_written source)) None None] (default "" hash)).

(** The text the digest is of: which logs, and under which configuration. *)
Definition digest_fields (entries : list SourceHashEntry) (config : UsedStreamConfig) : list (string * HashVal) :=
  [("rule", HStr STREAM_DIGEST_RULE); ("filter", HArr (HStr <$> sorted_set (omap streamHash entries)));
   ("config", config_value config)].

(** [sha256(stringToHex(text))] is viem's. *)
Section Digest.
Context (sha256_hex : string -> string).

Definition streamDigestOfSourceHashes (entries : list SourceHashEntry) (config : UsedStreamConfig) : string :=
  String.substring 2 STREAM_DIGEST_LENGTH (sha256_hex (default "" (canonical_form (HObj (digest_fields entries config))))).

Definition streamDigestOf (source : IndexingSource) (config : UsedStreamConfig) : result RangeError string :=
  entries ← sourceHashesOf source; Ok (streamDigestOfSourceHashes entries config).
End Digest.
End Source.

(** ** What an entry tells apart *)
Lemma base36digit_graphic n : 0 <= n < 36 -> graphic (base36digit n).
Proof. intros Hn. unfold graphic, base36digit. rewrite nat_ascii_embedding; repeat case_decide; lia. Qed.

Lemma base36_go_graphic fuel : forall n acc, 0 <= n -> graphic_text acc -> graphic_text (base36_go fuel n acc).
Proof.
  induction fuel as [|fuel IH]; intros n acc Hn Hacc; [done|]. cbn [base36_go]. pose proof (Z.mod_pos_bound n 36 ltac:(lia)) as Hm.
  pose proof (base36digit_graphic _ Hm) as Hd. case_decide; [by split|]. apply IH; [apply Z.div_pos; lia|by split].
Qed.

Lemma hash_of_graphic fields : graphic_text (hash_of fields).
Proof.
  unfold hash_of, simple_hash. change (canonical_form (HObj fields)) with (Some (withoutSpace (json_text (canonical_json (HObj fields))))).
  cbn [fmap option_fmap option_map default from_option]. unfold compose, simple_hash_of. apply graphic_text_app. split; [split; [unfold graphic; vm_compute; lia|done]|].
  apply base36_go_graphic; [|done]. unfold hash32, toUint32. apply Z.mod_pos_bound. lia.
Qed.

Section Entries.
Context `{lib : AbiLibrary}.

(** What asks a provider for one event over one range of blocks. *)
Definition asked (live : LiveEvent) (range : EventBlockRange) : option string * option string * EventBlockRange :=
  (live_address live, topic0Of (live_event live), range).

(** What of it the fold reads as well. *)
Definition decoded_as (live : LiveEvent) (range : EventBlockRange) : option string * string * DecodingShape * EventBlockRange :=
  (live_address live, live_signature live, decodingShapeOf (live_event live), range).

Lemma member_optional {A} (value : A -> HashVal) o : (forall a, defined (value a) = true) ->
  member (optional value o) = (fun a => canonical_json (value a)) <$> o.
Proof. intros Hd. unfold member. destruct o; cbn [optional]; [by rewrite Hd|done]. Qed.

Lemma member_str o : member (optional HStr o) = NStr <$> o.
Proof. by rewrite member_optional. Qed.

Lemma member_num o : member (optional HNum o) = NNum <$> o.
Proof. by rewrite member_optional. Qed.

#[local] Instance NStr_inj : Inj (=) (=) NStr.
Proof. by intros ?? [= ->]. Qed.

#[local] Instance NNum_inj : Inj (=) (=) NNum.
Proof. by intros ?? [= ->]. Qed.

Lemma wf_literal (fields : list (string * HashVal)) : bool_decide (NoDup fields.*1) = true -> jm_wf fields.
Proof. apply bool_decide_eq_true. Qed.

(** The value of a shape says all of it. *)
Definition parameter_fields (n t : string) (i : bool) (c : option (list ParameterShape)) : list (string * HashVal) :=
  [("name", HStr n); ("type", HStr t); ("indexed", HBool i); ("components", match c with Some parts => HArr (map parameter_value parts) | None => HUndefined end)].

Lemma parameter_value_fields n t i c : parameter_value (mkShape n t i c) = HObj (parameter_fields n t i c).
Proof. done. Qed.

Lemma parameters_json_inj (l k : list ParameterShape) :
  Forall (fun a => forall b, canonical_json (parameter_value a) = canonical_json (parameter_value b) -> a = b) l ->
  canonical_json (HArr (map parameter_value l)) = canonical_json (HArr (map parameter_value k)) -> l = k.
Proof.
  intros Hl. rewrite !canonical_json_arr. intros [= Heq]. revert k Heq. induction Hl as [|a l Ha _ IH]; intros [|b k] Heq; try done.
  injection Heq as Hab Hlk. f_equal; [by apply Ha|by apply IH].
Qed.

Lemma parameter_json_inj : forall a b, canonical_json (parameter_value a) = canonical_json (parameter_value b) -> a = b.
Proof.
  fix IH 1. intros [n t i c] [n' t' i' c'] Heq. rewrite !parameter_value_fields in Heq.
  apply object_json_zip in Heq; [|by apply wf_literal|done]. unfold parameter_fields in Heq. rewrite !Forall2_cons in Heq.
  destruct Heq as ([= ->] & [= ->] & [= ->] & Hc & _). f_equal. destruct c as [l|], c' as [k|]; try done. f_equal.
  cbn [snd member defined] in Hc. apply (inj Some) in Hc. revert Hc. apply parameters_json_inj. clear k. induction l as [|a l IHl]; constructor; [apply IH|exact IHl].
Qed.

Lemma shape_json_inj a b : canonical_json (shape_value a) = canonical_json (shape_value b) -> a = b.
Proof.
  destruct a as [an ins], b as [an' ins']. unfold shape_value. intros Heq. apply object_json_zip in Heq; [|by apply wf_literal|done].
  cbn [shape_anonymous shape_inputs] in Heq. rewrite !Forall2_cons in Heq. destruct Heq as ([= ->] & Hins & _). f_equal.
  cbn [snd member defined] in Hins. apply (inj Some) in Hins. revert Hins. apply parameters_json_inj, Forall_forall. intros a _. apply parameter_json_inj.
Qed.

(** The two texts of an entry: one tells what is asked of the provider apart, the other
    how it is read as well. *)
Lemma filter_json_exact live range live' range' :
  canonical_json (HObj (filter_fields live range)) = canonical_json (HObj (filter_fields live' range')) <-> asked live range = asked live' range'.
Proof.
  rewrite object_json_zip by (by apply wf_literal || done). unfold filter_fields, asked. rewrite !Forall2_cons. cbn [snd]. rewrite !member_str, !member_num.
  destruct range as [f l], range' as [f' l']. cbn [range_firstBlock range_lastBlock]. split.
  - intros (Ha & Ht & [= ->] & Hl & _). apply (inj (fmap NStr)) in Ha, Ht. apply (inj (fmap NNum)) in Hl. by rewrite Ha, Ht, Hl.
  - intros [= -> -> -> ->]. done.
Qed.

Lemma state_json_exact live range live' range' :
  canonical_json (HObj (state_fields live range)) = canonical_json (HObj (state_fields live' range')) <-> decoded_as live range = decoded_as live' range'.
Proof.
  rewrite object_json_zip by (by apply wf_literal || done). unfold state_fields, decoded_as. rewrite !Forall2_cons. cbn [snd]. rewrite !member_str, !member_num.
  generalize (decodingShapeOf (live_event live)) (decodingShapeOf (live_event live')). intros shape shape'.
  destruct range as [f l], range' as [f' l']. cbn [range_firstBlock range_lastBlock]. split.
  - intros (Ha & [= ->] & Hs & [= ->] & Hl & _). apply (inj (fmap NStr)) in Ha. apply (inj (fmap NNum)) in Hl. cbn [member defined shape_value] in Hs. apply (inj Some), shape_json_inj in Hs.
    by rewrite Ha, Hs, Hl.
  - by intros [= -> -> -> -> ->].
Qed.

(** ** The entries as sets *)
Definition declared (source : IndexingSource) (live : LiveEvent) (range : EventBlockRange) : Prop :=
  exists lives, liveEventsOf (source_contracts source) = Ok lives /\ live ∈ lives /\ range ∈ live_ranges live.

Definition skeletonEntry (source : IndexingSource) : SourceHashEntry :=
  mkEntry 0 (hash_of (sourceSkeletonOf source)) (Some (hash_of (sourceSkeletonOf source))) (Some (hash_of (source_written source))).

Lemma sourceHashes_elem source entries e :
  sourceHashesOf source = Ok entries ->
  e ∈ entries <-> e = skeletonEntry source \/ exists live range, declared source live range /\ e = eventEntry live range.
Proof.
  unfold sourceHashesOf. intros (lives & Hlives & [= <-])%bind_Ok. rewrite elem_of_cons, sort_by_perm. unfold skeletonEntry, declared. rewrite Hlives.
  apply or_iff_compat_l. unfold eventEntriesOf. rewrite elem_of_concat. split.
  - intros (l & He & (live & -> & Hlive)%list_elem_of_fmap). apply list_elem_of_fmap in He as (range & -> & Hrange). exists live, range. split; [by exists lives|done].
  - intros (live & range & (? & [= <-] & Hlive & Hrange) & ->). exists (eventEntry live <$> live_ranges live). split; [by apply list_elem_of_fmap_2|]. apply list_elem_of_fmap. by exists live.
Qed.

Lemma eventEntry_decoded live range live' range' : decoded_as live range = decoded_as live' range' -> entry_hash (eventEntry live range) = entry_hash (eventEntry live' range').
Proof.
  intros Heq%state_json_exact. cbn [eventEntry entry_hash]. unfold hash_of, simple_hash.
  by rewrite !canonical_form_structured, Heq by done.
Qed.

Lemma eventEntry_asked live range live' range' : asked live range = asked live' range' -> streamHash (eventEntry live range) = streamHash (eventEntry live' range').
Proof.
  intros Heq%filter_json_exact. cbn [eventEntry streamHash]. unfold hash_of, simple_hash.
  by rewrite !canonical_form_structured, Heq by done.
Qed.

(** ** The digest of a stream *)
Lemma digest_fields_wf entries config : jm_wf (digest_fields entries config).
Proof. by apply wf_literal. Qed.

Lemma source_hashes_graphic source entries h : sourceHashesOf source = Ok entries -> h ∈ omap streamHash entries -> graphic_text h.
Proof.
  intros He (e & Hin & Hh)%list_elem_of_omap. apply (sourceHashes_elem _ _ _ He) in Hin as [->|(live & range & _ & ->)]; injection Hh as <-; apply hash_of_graphic.
Qed.

Lemma digest_graphic source entries u :
  sourceHashesOf source = Ok entries -> graphic_json (canonical_json (config_value u)) -> graphic_json (canonical_json (HObj (digest_fields entries u))).
Proof.
  intros He Hu. apply graphic_json_keys; [apply digest_fields_wf|]. intros key j. rewrite says_member. unfold digest_fields. cbn [jm_get].
  repeat case_decide; cbn [mbind option_bind member defined]; [| | |done]; subst key.
  - intros [= <-]. split; [by apply (bool_decide_unpack _)|]. change (graphic_text STREAM_DIGEST_RULE). by apply (bool_decide_unpack _).
  - intros [= <-]. split; [by apply (bool_decide_unpack _)|]. rewrite canonical_json_strings. apply graphic_json_arr, Forall_fmap, Forall_forall.
    intros h Hh%(proj1 (sorted_set_elem _ _)). exact (source_hashes_graphic source entries h He Hh).
  - intros [= <-]. split; [by apply (bool_decide_unpack _)|exact Hu].
Qed.

Section Streams.
Context (checksummed : forall a b, getAddress a = Some b -> graphic_text b).

(** C29. Two streams have the same text to take the digest of exactly when their events have the
    same 32-bit [streamHash]es, whatever the order and the repeats, under configurations
    that mean the same: the filters asked for, up to a collision of that hash. *)
Theorem digest_text_exact (source source' : IndexingSource) (entries entries' : list SourceHashEntry) (c c' : option ProvidedStreamConfig) (u u' : UsedStreamConfig) :
  graphic_config c -> graphic_config c' -> resolveStreamConfig c = Ok u -> resolveStreamConfig c' = Ok u' ->
  sourceHashesOf source = Ok entries -> sourceHashesOf source' = Ok entries' ->
  canonical_form (HObj (digest_fields entries u)) = canonical_form (HObj (digest_fields entries' u'))
  <-> (forall h, h ∈ omap streamHash entries <-> h ∈ omap streamHash entries') /\ same_stream c c'.
Proof.
  intros Gc Gc' Hu Hu' He He'. pose proof (config_graphic checksummed c u Gc Hu) as Cu. pose proof (config_graphic checksummed c' u' Gc' Hu') as Cu'.
  rewrite canonical_form_inj; [|done|done|by apply (digest_graphic source)|by apply (digest_graphic source')].
  rewrite object_json_zip by (done || apply digest_fields_wf). unfold digest_fields. rewrite !Forall2_cons. cbn [snd member defined config_value].
  rewrite !canonical_json_strings, <- sorted_set_same, <- (config_json_same checksummed c c' u u' Gc Gc' Hu Hu'). split.
  - intros (_ & Hf & Hc & _). apply (inj Some) in Hf, Hc. injection Hf as Hf. split; [by apply NStr_list_inj|exact Hc].
  - intros [-> ->]. done.
Qed.

(** What is asked of the provider and a configuration name the stream: how events are
    named, declared or decoded does not. *)
Theorem same_asks_same_digest (sha256_hex : string -> string) (source source' : IndexingSource) (c c' : option ProvidedStreamConfig) (u u' : UsedStreamConfig) (d d' : string) :
  graphic_config c -> graphic_config c' -> resolveStreamConfig c = Ok u -> resolveStreamConfig c' = Ok u' -> same_stream c c' ->
  sourceSkeletonOf source = sourceSkeletonOf source' ->
  (forall live range, declared source live range -> exists live' range', declared source' live' range' /\ asked live range = asked live' range') ->
  (forall live range, declared source' live range -> exists live' range', declared source live' range' /\ asked live range = asked live' range') ->
  streamDigestOf sha256_hex source u = Ok d -> streamDigestOf sha256_hex source' u' = Ok d' -> d = d'.
Proof.
  intros Gc Gc' Hu Hu' Hsame Hskel Hto Hfrom (es & He & [= <-])%bind_Ok (es' & He' & [= <-])%bind_Ok.
  unfold streamDigestOfSourceHashes. assert (sorted_set (omap streamHash es) = sorted_set (omap streamHash es')) as Hfilter; cycle 1.
  { rewrite !canonical_form_structured by done. assert (canonical_json (HObj (digest_fields es u)) = canonical_json (HObj (digest_fields es' u'))) as ->; [|done].
    apply object_json_zip; [apply digest_fields_wf|done|]. unfold digest_fields. rewrite !Forall2_cons, Hfilter. cbn [snd member defined config_value].
    split; [done|]. split; [done|]. split; [|done]. f_equal. by apply (config_json_same checksummed c c'). }
  apply sorted_set_same. intros h. rewrite !list_elem_of_omap.
  setoid_rewrite (fun e => sourceHashes_elem _ _ e He). setoid_rewrite (fun e => sourceHashes_elem _ _ e He'). unfold skeletonEntry. rewrite Hskel. split.
  - intros (e & [->|(live & range & Hd & ->)] & Hh); [eexists; split; [by left|done]|].
    destruct (Hto _ _ Hd) as (live' & range' & Hd' & Heq). exists (eventEntry live' range'). split; [right; by exists live', range'|]. by rewrite <- (eventEntry_asked _ _ _ _ Heq).
  - intros (e & [->|(live & range & Hd & ->)] & Hh); [eexists; split; [by left|done]|].
    destruct (Hfrom _ _ Hd) as (live' & range' & Hd' & Heq). exists (eventEntry live' range'). split; [right; by exists live', range'|]. by rewrite <- (eventEntry_asked _ _ _ _ Heq).
Qed.
End Streams.

(** ** What a stored context outlives *)
Lemma missing_due_nil digestOf lastTo known entries :
  due lastTo (missingFrom digestOf known entries) = [] <-> forall e, e ∈ entries -> startBlock e <= lastTo -> exists e', e' ∈ known /\ digestOf e' = digestOf e.
Proof.
  split.
  - intros Hnil e He Hle. destruct (decide (digestOf e ∈ digestOf <$> known)) as [(e' & -> & Hin)%list_elem_of_fmap|Hno]; [by exists e'|].
    assert (e ∈ due lastTo (missingFrom digestOf known entries)) as Hd; [|rewrite Hnil in Hd; by apply not_elem_of_nil in Hd].
    apply elem_of_due. split; [done|]. apply elem_of_missingFrom. split; [done|]. intros e' He' Heq. apply Hno. rewrite <- Heq. by apply list_elem_of_fmap_2.
  - intros Hall. apply elem_of_nil_inv. intros e [Hle [He Hno]%elem_of_missingFrom]%elem_of_due. destruct (Hall e He Hle) as (e' & He' & Heq). by apply (Hno e').
Qed.

Definition known_to (source source' : IndexingSource) (lastTo : Z) : Prop :=
  forall live range, declared source live range -> range_firstBlock range <= lastTo -> exists live' range', declared source' live' range' /\ decoded_as live range = decoded_as live' range'.

Lemma signatureGroups_wf start abi : forall groups out, signatureGroups start abi groups = Ok out -> jm_wf groups -> jm_wf out.
Proof.
  induction abi as [|[item|] abi IH]; intros groups out; cbn [signatureGroups]; [by intros [= <-]| |by apply IH].
  intros (d & _ & Hrun)%bind_Ok Hwf. apply (IH _ _ Hrun). destruct (jm_get groups _) as [[e rs]|]; by apply jm_wf_set.
Qed.

Lemma declared_signature source live range : declared source live range -> canonicalSignatureOf (live_event live) = live_signature live.
Proof.
  intros (lives & Hlives & Hlive & _). apply fmap_Ok in Hlives as (per & Hper & <-). apply elem_of_concat in Hlive as (here & Hlive & Hhere).
  apply (mapR_elem_iff _ _ _ Hper) in Hhere as (contract & _ & Hc).
  revert Hc. intros (groups & Hgroups & Hlives)%bind_Ok.
  destruct (signatureGroups_ok _ _ _ _ Hgroups) as (Hok & _); [done|].
  pose proof (proj1 (mapR_elem_iff _ _ _ Hlives live) Hlive) as ([s [e rs]] & Hin & Hnormal). revert Hnormal. intros (normal & _ & <-)%fmap_Ok. cbn [live_event live_signature].
  destruct (Hok s e rs) as [Hs _]; [|exact Hs]. apply jm_get_Some; [|done]. eapply signatureGroups_wf; [exact Hgroups|apply NoDup_nil_2].
Qed.

Lemma asked_of_decoded live range live' range' :
  canonicalSignatureOf (live_event live) = live_signature live -> canonicalSignatureOf (live_event live') = live_signature live' ->
  decoded_as live range = decoded_as live' range' -> asked live range = asked live' range'.
Proof.
  intros Hs Hs' [= Ha Hsig Han Hin Hr]. unfold asked. rewrite Ha, Hr. do 2 f_equal.
  apply topic0Of_signature; [by rewrite Hs, Hs'|]. exact Han.
Qed.

Lemma missing_state source source' entries entries' lastTo :
  sourceHashesOf source = Ok entries -> sourceHashesOf source' = Ok entries' -> sourceSkeletonOf source = sourceSkeletonOf source' -> known_to source source' lastTo ->
  due lastTo (missingFrom entry_hash entries' entries) = [].
Proof.
  intros He He' Hskel Hknown. apply missing_due_nil. intros e Hin Hle. apply (sourceHashes_elem _ _ _ He) in Hin as [->|(live & range & Hd & ->)].
  - exists (skeletonEntry source'). split; [apply (sourceHashes_elem _ _ _ He'); by left|]. cbn [skeletonEntry entry_hash]. by rewrite Hskel.
  - destruct (Hknown live range Hd Hle) as (live' & range' & Hd' & Heq). exists (eventEntry live' range'). split; [|by rewrite (eventEntry_decoded _ _ _ _ Heq)].
    apply (sourceHashes_elem _ _ _ He'). right. by exists live', range'.
Qed.

Lemma missing_stream source source' entries entries' lastTo :
  sourceHashesOf source = Ok entries -> sourceHashesOf source' = Ok entries' -> sourceSkeletonOf source = sourceSkeletonOf source' ->
  (forall live range, declared source live range -> range_firstBlock range <= lastTo -> exists live' range', declared source' live' range' /\ asked live range = asked live' range') ->
  due lastTo (missingFrom streamHashOf entries' entries) = [].
Proof.
  intros He He' Hskel Hknown. apply missing_due_nil. intros e Hin Hle. apply (sourceHashes_elem _ _ _ He) in Hin as [->|(live & range & Hd & ->)].
  - exists (skeletonEntry source'). split; [apply (sourceHashes_elem _ _ _ He'); by left|]. unfold streamHashOf. cbn [skeletonEntry streamHash default from_option]. by rewrite Hskel.
  - destruct (Hknown live range Hd Hle) as (live' & range' & Hd' & Heq). exists (eventEntry live' range'). split; [|unfold streamHashOf; by rewrite (eventEntry_asked _ _ _ _ Heq)].
    apply (sourceHashes_elem _ _ _ He'). right. by exists live', range'.
Qed.

Lemma source_knows_filter source entries : sourceHashesOf source = Ok entries -> knowsTheFilter entries = true.
Proof.
  intros He. apply forallb_forall. intros e Hin%list_elem_of_In. apply bool_decide_eq_true.
  apply (sourceHashes_elem _ _ _ He) in Hin as [->|(live & range & _ & ->)]; by eexists.
Qed.

Lemma source_per_event source source' entries entries' config processor lastTo :
  sourceHashesOf source = Ok entries -> sourceHashesOf source' = Ok entries' ->
  sourceInvalidationOf entries' config lastTo (mkContext entries config processor)
  = mkInvalidation (verdictOn entries' entries entry_hash lastTo true) (verdictOn entries' entries streamHashOf lastTo false).
Proof.
  intros He He'. unfold sourceInvalidationOf. cbn [ctx_config ctx_source]. rewrite decide_False by tauto.
  rewrite (source_knows_filter source' entries'), (source_knows_filter source entries) by done. cbn [andb].
  assert (isWholeSourceContext entries = false) as ->.
  { unfold sourceHashesOf in He. apply bind_Ok in He as (lives & _ & [= <-]). cbn [isWholeSourceContext].
    destruct (sort_by _ _); [|done]. apply bool_decide_eq_false. by intros [_ ?]. }
  by destruct (head entries' ≫= legacyHash), entries.
Qed.

(** C31. A source may gain and lose events past the last block indexed: the context stored under
    the old source stays valid under the new one, for the state and for the stream. *)
Theorem later_events_stay_valid (source source' : IndexingSource) (entries entries' : list SourceHashEntry) (config processor : string) (lastTo : Z) :
  sourceHashesOf source = Ok entries -> sourceHashesOf source' = Ok entries' -> sourceSkeletonOf source = sourceSkeletonOf source' ->
  known_to source source' lastTo -> known_to source' source lastTo ->
  stateMatches entries' config lastTo (mkContext entries config processor) = true /\ streamMatches entries' config lastTo (mkContext entries config processor) = true.
Proof.
  intros He He' Hskel Hto Hfrom. unfold stateMatches, streamMatches. rewrite (source_per_event source source') by done. cbn [state_verdict stream_verdict].
  split; apply verdictOn_valid; (split; [|try done]).
  - by apply (missing_state source' source).
  - intros _. by apply (missing_state source source').
  - apply (missing_stream source' source); [done..|]. intros live range Hd Hle. destruct (Hfrom live range Hd Hle) as (live' & range' & Hd' & Heq).
    exists live', range'. split; [done|]. apply asked_of_decoded; [by eapply declared_signature..|done].
Qed.

(** Nor does the stream where an event below the last block indexed was renamed or given
    another shape, as long as what is asked of the provider was asked before. *)
Theorem reshaped_event_keeps_the_stream (source source' : IndexingSource) (entries entries' : list SourceHashEntry) (config processor : string) (lastTo : Z) :
  sourceHashesOf source = Ok entries -> sourceHashesOf source' = Ok entries' -> sourceSkeletonOf source = sourceSkeletonOf source' ->
  (forall live range, declared source' live range -> range_firstBlock range <= lastTo -> exists live' range', declared source live' range' /\ asked live range = asked live' range') ->
  streamMatches entries' config lastTo (mkContext entries config processor) = true.
Proof.
  intros He He' Hskel Hfrom. unfold streamMatches. rewrite (source_per_event source source') by done. apply verdictOn_valid. split; [|done].
  by apply (missing_stream source' source).
Qed.
End Entries.
