(* ===== verification/SnapshotDocument.v ===== *)
(** * The snapshot document

    [packages/state-store/src/snapshot-document.ts]: the entity rows live at a floor and the
    blocks above it, as lines of JSON.  The lines are written by [encodedLines] and read by
    [decodedBlocks]; [linesOf] cuts a body that arrives in chunks into lines again.  The
    compression of the platform is a parameter. *)
From S2P Require Import Prelude JsMap Quantities Entities StoreSpec Declarations Json.

(** The head of a document; its [format] is the constant. *)
Definition ENTITY_SNAPSHOT_FORMAT : Z := 2.

Record SnapshotHead : Type := mkHead {
  head_processor : string;
  head_savedAt : string;
  head_takenAt : BlockPointer;
  head_floor : Z;
  head_cursor : option (string * string)
}.

Record SnapshotBlock : Type := mkSnapshotBlock {
  sblock : BlockPointer;
  smutations : list Mutation;
  slast : bool
}.

Inductive SnapshotError : Type :=
  | SnapshotFormatError (found : option Json)
  | BadDeclarations (e : DeclarationError)
  | NoProcessor
  | NotABlockNumber (n : Z)
  | FloorAboveCut (floor cut : Z)
  | FirstNotFloor (expected got : Z)
  | NotAscending (previous got : Z)
  | AboveCut (got cut : Z)
  | LastNotCut (cut : Z) (last : option Z)
  | UndeclaredEntity (name : string)
  | DeleteAtFloor (entity : string)
  | ValueRefused (entity field : string)
  | RowOutsideSection
  | WrongColumns (entity : string)
  | DeleteOutsideSection
  | BadDelete (entity : string)
  | SectionOutsideBlock
  | DeclaredAfterBlocks
  | MalformedDeclaration
  | OtherDeclaration (entity : string)
  | UnknownRecord
  | NoBlockAtAll
  | NotJson.

(** ** Writing *)
Definition pointer_json (b : BlockPointer) : Json :=
  NObj [("number", NNum (bp_number b)); ("hash", NStr (bp_hash b)); ("timestamp", NNum (bp_timestamp b))].

Definition head_json (head : SnapshotHead) : Json :=
  NObj ([("format", NNum ENTITY_SNAPSHOT_FORMAT); ("processor", NStr (head_processor head)); ("savedAt", NStr (head_savedAt head));
         ("takenAt", pointer_json (head_takenAt head)); ("floor", NNum (head_floor head))]
        ++ match head_cursor head with Some (key, value) => [("cursor", NObj [("key", NStr key); ("value", NStr value)])] | None => [] end).

Definition type_text (type : FieldType) : string :=
  match type with text => "text" | integer => "integer" | real => "real" | blob => "blob" end.

Definition field_json (field : FieldDeclaration) : Json :=
  match field with
  | Storage type => NStr (type_text type)
  | EnumField values => NObj [("storage", NStr "text"); ("enum", NArr (NStr <$> values))]
  | U256Field storage => NObj [("storage", NStr (type_text storage)); ("type", NStr "u256")]
  end.

Definition declare_json (entity : NormalizedEntity) : Json :=
  NObj ([("declare", NStr (entity_name entity)); ("id", NArr (NStr <$> entity_id entity));
         ("fields", NArr ((fun p => NArr [NStr p.1; field_json p.2]) <$> entity_fields entity))]
        ++ match entity_parent entity with
           | Some (parent, as_) => [("parent", NObj [("entity", NStr parent); ("as", NStr as_)])]
           | None => []
           end).

Definition assertHead (head : SnapshotHead) : result SnapshotError unit :=
  if decide (head_processor head = "") then Err NoProcessor
  else if negb (bool_decide (0 <= bp_number (head_takenAt head))) then Err (NotABlockNumber (bp_number (head_takenAt head)))
  else if negb (bool_decide (0 <= head_floor head)) then Err (NotABlockNumber (head_floor head))
  else if decide (bp_number (head_takenAt head) < head_floor head) then Err (FloorAboveCut (head_floor head) (bp_number (head_takenAt head)))
  else Ok tt.

(** [byte.toString(16).padStart(2, '0')] *)
Definition byteHex (byte : Z) : string := if decide (byte < 16) then String "0" (toString16 byte) else toString16 byte.

Fixpoint bytesHex (bytes : list Z) : string :=
  match bytes with [] => "" | byte :: bytes => byteHex byte +:+ bytesHex bytes end.

(** What [JSON.stringify] makes of a stored value; it throws on a [bigint]. *)
Definition value_json (value : Value) : option Json :=
  match value with
  | VNull => Some NNull
  | VText s => Some (NStr s)
  | VNum n => Some (NNum n)
  | VBool b => Some (NBool b)
  | VBytes bytes => Some (NObj (imap (fun index byte => (pretty (Z.of_nat index), NNum byte)) bytes))
  | VBigInt _ => None
  end.

Definition encodeStored (value : Value) (type : FieldType) : option Json :=
  match type, value with
  | blob, VBytes bytes => Some (NStr ("0x" +:+ bytesHex bytes))
  | blob, _ => None
  | _, _ => value_json value
  end.

Definition encodeValue (value : Value) (field : FieldDeclaration) : option Json :=
  match value with
  | VNull => Some NNull
  | _ =>
      match field with
      | U256Field _ => match u256_encode value with Some stored => encodeStored stored (fieldStorage field) | None => None end
      | _ => encodeStored value (fieldStorage field)
      end
  end.

(** [String(id[column])] *)
Definition idString (id : EntityId) (column : string) : string :=
  match id !! column with Some v => idText v | None => "undefined" end.

Definition encodeRow (entity : NormalizedEntity) (id : EntityId) (values : Values) : result SnapshotError Json :=
  cells ← mapR (fun p => match encodeValue (default VNull (values !! p.1)) p.2 with Some v => Ok v | None => Err (ValueRefused (entity_name entity) p.1) end)
            (entity_fields entity);
  Ok (NArr ((NStr ∘ idString id <$> entity_id entity) ++ cells)).

Definition mutationLine (entity : NormalizedEntity) (atFloor : bool) (mutation : Mutation) : result SnapshotError Json :=
  match mutation with
  | Delete name id => if atFloor then Err (DeleteAtFloor name) else Ok (NObj [("delete", NArr (NStr ∘ idString id <$> entity_id entity))])
  | Upsert _ id values => encodeRow entity id values
  end.

(** The lines of a block's mutations, under the section open before them. *)
Fixpoint mutationLines (entities : entities_map) (atFloor : bool) (section : option string) (mutations : list Mutation)
    : result SnapshotError (list Json) :=
  match mutations with
  | [] => Ok []
  | mutation :: mutations =>
      match jm_get entities (mutation_entity mutation) with
      | None => Err (UndeclaredEntity (mutation_entity mutation))
      | Some entity =>
          line ← mutationLine entity atFloor mutation;
          lines ← mutationLines entities atFloor (Some (entity_name entity)) mutations;
          Ok ((if decide (section = Some (entity_name entity)) then [] else [NObj [("entity", NStr (entity_name entity))]]) ++ line :: lines)
      end
  end.

Definition checkBlock (head : SnapshotHead) (previous : option Z) (number : Z) : result SnapshotError unit :=
  if negb (bool_decide (0 <= number)) then Err (NotABlockNumber number)
  else
    match previous with
    | None => if decide (number <> head_floor head) then Err (FirstNotFloor (head_floor head) number)
              else if decide (bp_number (head_takenAt head) < number) then Err (AboveCut number (bp_number (head_takenAt head))) else Ok tt
    | Some previous =>
        if decide (number <= previous) then Err (NotAscending previous number)
        else if decide (bp_number (head_takenAt head) < number) then Err (AboveCut number (bp_number (head_takenAt head))) else Ok tt
    end.

Fixpoint blockLines (head : SnapshotHead) (entities : entities_map) (previous : option Z) (blocks : list (BlockPointer * list Mutation))
    : result SnapshotError (list Json) :=
  match blocks with
  | [] =>
      if decide (previous = Some (bp_number (head_takenAt head))) then Ok [] else Err (LastNotCut (bp_number (head_takenAt head)) previous)
  | (block, mutations) :: blocks =>
      _ ← checkBlock head previous (bp_number block);
      lines ← mutationLines entities (bool_decide (previous = None)) None mutations;
      rest ← blockLines head entities (Some (bp_number block)) blocks;
      Ok (NObj [("block", pointer_json block)] :: lines ++ rest)
  end.

Definition encodedLines (head : SnapshotHead) (entities : entities_map) (blocks : list (BlockPointer * list Mutation))
    : result SnapshotError (list Json) :=
  lines ← blockLines head entities None blocks;
  Ok (head_json head :: (declare_json <$> entities.*2) ++ lines).

Definition newline : ascii := "010"%char.

Fixpoint documentText (lines : list Json) : string :=
  match lines with [] => "" | line :: lines => json_text line +:+ String newline (documentText lines) end.

(** [encodeSnapshot], before the compression. *)
Definition encodeSnapshot (head : SnapshotHead) (declarations : list EntityDeclaration) (blocks : list (BlockPointer * list Mutation))
    : result SnapshotError string :=
  _ ← assertHead head;
  entities ← match normalizeEntities declarations with Ok entities => Ok entities | Err e => Err (BadDeclarations e) end;
  lines ← encodedLines head entities blocks;
  Ok (documentText lines).

(** ** Reading *)
Definition n_num (v : Json) : option Z := match v with NNum n => Some n | _ => None end.
Definition n_str (v : Json) : option string := match v with NStr s => Some s | _ => None end.
Definition n_obj (v : Json) : option (list (string * Json)) := match v with NObj fields => Some fields | _ => None end.
Definition n_list {A} (f : Json -> option A) (v : Json) : option (list A) := match v with NArr items => mapM f items | _ => None end.
Definition member {A} (f : Json -> option A) (fields : list (string * Json)) (key : string) : option A := jm_get fields key ≫= f.

(** [String(value)] of what is not a list or an object. *)
Definition n_text (v : Json) : option string :=
  match v with
  | NStr s => Some s
  | NNum n => Some (pretty n)
  | NNull => Some "null"
  | NBool b => Some (if b then "true" else "false")
  | _ => None
  end.

Definition pointerOf (v : Json) : option BlockPointer :=
  fields ← n_obj v; number ← member n_num fields "number"; hash ← member n_str fields "hash";
  timestamp ← member n_num fields "timestamp"; Some (mkPointer number hash timestamp).

Definition cursorOf (v : Json) : option (string * string) :=
  fields ← n_obj v; key ← member n_str fields "key"; value ← member n_str fields "value"; Some (key, value).

Definition isReadableSnapshotHead (v : Json) : bool :=
  match n_obj v with
  | None => false
  | Some fields =>
      bool_decide (member n_num fields "format" = Some ENTITY_SNAPSHOT_FORMAT)
      && bool_decide (is_Some (member n_str fields "processor"))
      && bool_decide (is_Some (member n_obj fields "takenAt" ≫= fun takenAt => member n_num takenAt "number"))
      && bool_decide (is_Some (member n_num fields "floor"))
  end.

(** [if (v)] *)
Definition truthy (v : Json) : bool :=
  match v with
  | NNull => false
  | NBool b => b
  | NNum n => negb (bool_decide (n = 0))
  | NStr s => negb (bool_decide (s = ""))
  | NArr _ | NObj _ => true
  end.

(** The head a readable value is then taken for.  The hash and the time of the cut and
    the time of writing are unchecked texts nothing reads; a cursor is used where it is
    truthy, and is then two texts. *)
Definition readHead (v : Json) : option SnapshotHead :=
  if isReadableSnapshotHead v then
    fields ← n_obj v;
    processor ← member n_str fields "processor"; takenAt ← member n_obj fields "takenAt";
    number ← member n_num takenAt "number"; floor ← member n_num fields "floor";
    cursor ← match jm_get fields "cursor" with
      | Some v => if truthy v then Some <$> cursorOf v else Some None
      | None => Some None
      end;
    Some (mkHead processor (default "" (member n_str fields "savedAt"))
            (mkPointer number (default "" (member n_str takenAt "hash")) (default 0 (member n_num takenAt "timestamp"))) floor cursor)
  else None.

Definition typeOf (type : string) : option FieldType := FIELD_TYPES type.

(** [isFieldShape], and the field it is then taken for: the bare types and the one
    semantic type are those this build knows. *)
Definition fieldOfJson (v : Json) : option FieldDeclaration :=
  match v with
  | NStr type => Storage <$> typeOf type
  | NObj fields =>
      storage ← member n_str fields "storage";
      match jm_get fields "type" with
      | Some type =>
          name ← n_str type;
          if jm_has fields "enum" then None
          else if decide (name = "u256") then U256Field <$> typeOf storage else None
      | None => EnumField <$> member (n_list n_str) fields "enum"
      end
  | _ => None
  end.

Definition pairOf (v : Json) : option (string * FieldDeclaration) :=
  match v with NArr [NStr field; declared] => pair field <$> fieldOfJson declared | _ => None end.

Definition relationOfJson (v : Json) : option (string * string) :=
  fields ← n_obj v; entity ← member n_str fields "entity"; as_ ← member n_str fields "as"; Some (entity, as_).

Definition declarationOf (fields : list (string * Json)) : option NormalizedEntity :=
  name ← member n_str fields "declare";
  id ← member (n_list n_str) fields "id";
  pairs ← member (n_list pairOf) fields "fields";
  parent ← match jm_get fields "parent" with None => Some None | Some v => Some <$> relationOfJson v end;
  Some (mkEntity name id (foldl (fun fields p => jm_set fields p.1 p.2) [] pairs) parent).

Definition describeField (field : FieldDeclaration) : string :=
  match field with
  | Storage type => type_text type
  | U256Field storage => type_text storage +:+ " u256"
  | EnumField values => "text enum(" +:+ String.concat ", " values +:+ ")"
  end.

Definition sameDeclaration (a b : NormalizedEntity) : bool :=
  bool_decide (entity_id a = entity_id b)
  && bool_decide (entity_parent a = entity_parent b)
  && bool_decide (length (entity_fields a) = length (entity_fields b))
  && forallb (fun p => match jm_get (entity_fields b) p.1 with Some field => bool_decide (describeField field = describeField p.2) | None => false end)
       (entity_fields a).

(** [/^0x([0-9a-fA-F]{2})*$/] and the bytes it spells. *)
Fixpoint hexBytes (s : string) : option (list Z) :=
  match s with
  | EmptyString => Some []
  | String hi (String lo s) => hi ← hexValue hi; lo ← hexValue lo; bytes ← hexBytes s; Some (16 * hi + lo :: bytes)
  | _ => None
  end.

Definition decodeStored (v : Json) (type : FieldType) : option Value :=
  match type, v with
  | blob, NStr (String "0" (String "x" digits)) => VBytes <$> hexBytes digits
  | blob, _ => None
  | _, NStr s => Some (VText s)
  | _, NNum n => Some (VNum n)
  | _, NBool b => Some (VBool b)
  | _, _ => None
  end.

Definition decodeValue (v : Json) (field : FieldDeclaration) : option Value :=
  match v with
  | NNull => Some VNull
  | _ => stored ← decodeStored v (fieldStorage field); match field with U256Field _ => u256_decode stored | _ => Some stored end
  end.

Definition idOf (columns : list string) (cells : list Json) : option EntityId :=
  texts ← mapM n_text cells; Some (list_to_map (zip columns (IdText <$> texts))).

(** The fields in declared order; [values[field] = ...] on an object. *)
Definition decodeRow (entity : NormalizedEntity) (cells : list Json) : result SnapshotError Mutation :=
  match idOf (entity_id entity) (take (length (entity_id entity)) cells) with
  | None => Err UnknownRecord
  | Some id =>
      values ← foldR (fun values p => match decodeValue p.2 p.1.2 with Some v => Ok (<[p.1.1 := v]> values) | None => Err (ValueRefused (entity_name entity) p.1.1) end)
                 ∅ (zip (entity_fields entity) (drop (length (entity_id entity)) cells));
      Ok (Upsert (entity_name entity) id values)
  end.

(** What the reader holds between lines: [blocksSeen] is zero, one or more. *)
Record Reading : Type := mkReading {
  rd_declared : list (string * NormalizedEntity);
  rd_current : option (BlockPointer * list Mutation);
  rd_section : option NormalizedEntity;
  rd_blocksSeen : nat;
  rd_yielded : list SnapshotBlock
}.

Definition withMutation (r : Reading) (block : BlockPointer) (mutations : list Mutation) (mutation : Mutation) : Reading :=
  mkReading (rd_declared r) (Some (block, mutations ++ [mutation])) (rd_section r) (rd_blocksSeen r) (rd_yielded r).

Definition readLine (head : SnapshotHead) (expected : option entities_map) (r : Reading) (line : Json) : result SnapshotError Reading :=
  match line with
  | NArr cells =>
      match rd_current r, rd_section r with
      | Some (block, mutations), Some entity =>
          if decide (length cells = (length (entity_id entity) + length (entity_fields entity))%nat)
          then mutation ← decodeRow entity cells; Ok (withMutation r block mutations mutation)
          else Err (WrongColumns (entity_name entity))
      | _, _ => Err RowOutsideSection
      end
  | NObj fields =>
      match jm_get fields "delete" with
      | Some cells =>
          match rd_current r, rd_section r with
          | Some (block, mutations), Some entity =>
              if decide (rd_blocksSeen r = 1%nat) then Err (DeleteAtFloor (entity_name entity))
              else
                match cells with
                | NArr cells =>
                    if decide (length cells = length (entity_id entity)) then
                      match idOf (entity_id entity) cells with
                      | Some id => Ok (withMutation r block mutations (Delete (entity_name entity) id))
                      | None => Err (BadDelete (entity_name entity))
                      end
                    else Err (BadDelete (entity_name entity))
                | _ => Err (BadDelete (entity_name entity))
                end
          | _, _ => Err DeleteOutsideSection
          end
      | None =>
      match jm_get fields "entity" with
      | Some name =>
          match rd_current r with
          | None => Err SectionOutsideBlock
          | Some _ =>
              match n_text name ≫= jm_get (rd_declared r) with
              | Some entity => Ok (mkReading (rd_declared r) (rd_current r) (Some entity) (rd_blocksSeen r) (rd_yielded r))
              | None => Err (UndeclaredEntity (default "" (n_text name)))
              end
          end
      | None =>
      match jm_get fields "block" with
      | Some block =>
          match pointerOf block with
          | None => Err UnknownRecord
          | Some block =>
              if negb (bool_decide (0 <= bp_number block)) then Err (NotABlockNumber (bp_number block))
              else if decide (rd_blocksSeen r = 0%nat /\ bp_number block <> head_floor head) then Err (FirstNotFloor (head_floor head) (bp_number block))
              else
                match rd_current r with
                | Some (current, mutations) =>
                    if decide (bp_number block <= bp_number current) then Err (NotAscending (bp_number current) (bp_number block))
                    else Ok (mkReading (rd_declared r) (Some (block, [])) None (S (rd_blocksSeen r)) (rd_yielded r ++ [mkSnapshotBlock current mutations false]))
                | None => Ok (mkReading (rd_declared r) (Some (block, [])) None (S (rd_blocksSeen r)) (rd_yielded r))
                end
          end
      | None =>
      if jm_has fields "declare" then
        match rd_current r with
        | Some _ => Err DeclaredAfterBlocks
        | None =>
            match declarationOf fields with
            | None => Err MalformedDeclaration
            | Some entity =>
                if match expected with
                   | None => true
                   | Some expected => match jm_get expected (entity_name entity) with Some local => sameDeclaration entity local | None => false end
                   end
                then Ok (mkReading (jm_set (rd_declared r) (entity_name entity) entity) (rd_current r) (rd_section r) (rd_blocksSeen r) (rd_yielded r))
                else Err (OtherDeclaration (entity_name entity))
            end
        end
      else Err UnknownRecord
      end end end
  | _ => Err UnknownRecord
  end.

(** Blocks one after the other, and what stopped them if anything did. *)
Record BlockStream : Type := mkStream { yielded : list SnapshotBlock; failure : option SnapshotError }.

Fixpoint readLines (head : SnapshotHead) (expected : option entities_map) (r : Reading) (lines : list string) : Reading * option SnapshotError :=
  match lines with
  | [] => (r, None)
  | line :: lines =>
      match json_parse line with
      | None => (r, Some NotJson)
      | Some v => match readLine head expected r v with Ok r => readLines head expected r lines | Err e => (r, Some e) end
      end
  end.

(** [lines] came to an end, or [broken] did them in. *)
Definition decodedBlocks (head : SnapshotHead) (expected : option entities_map) (lines : list string) (broken : option SnapshotError) : BlockStream :=
  match readLines head expected (mkReading [] None None 0 []) lines with
  | (r, Some e) => mkStream (rd_yielded r) (Some e)
  | (r, None) =>
      match broken, rd_current r with
      | Some e, _ => mkStream (rd_yielded r) (Some e)
      | None, None => mkStream (rd_yielded r) (Some NoBlockAtAll)
      | None, Some (block, mutations) =>
          if decide (bp_number block = bp_number (head_takenAt head)) then mkStream (rd_yielded r ++ [mkSnapshotBlock block mutations true]) None
          else mkStream (rd_yielded r) (Some (LastNotCut (bp_number (head_takenAt head)) (Some (bp_number block))))
      end
  end.

(** ** Lines of a body *)

(** A text cut at its newlines: the pieces, the last of them open. *)
Fixpoint pieces (s : string) : list string * string :=
  match s with
  | EmptyString => ([], "")
  | String c s =>
      let '(closed, open) := pieces s in
      if decide (c = newline) then ("" :: closed, open)
      else match closed with [] => ([], String c open) | piece :: closed => (String c piece :: closed, open) end
  end.

Fixpoint linesFrom (partial : string) (chunks : list string) : list string * string :=
  match chunks with
  | [] => ([], partial)
  | chunk :: chunks =>
      let '(closed, open) := pieces (partial +:+ chunk) in
      let '(lines, partial) := linesFrom open chunks in
      (filter (fun line => line <> "") closed ++ lines, partial)
  end.

(** [linesOf]: a body that broke off yields no partial line. *)
Definition linesOf (chunks : list string) (broken : option SnapshotError) : list string :=
  let '(lines, partial) := linesFrom "" chunks in
  match broken with
  | Some _ => lines
  | None => lines ++ if decide (partial = "") then [] else [partial]
  end.

(** [sniffGzip]: the magic [1f 8b]. *)
Definition gzipped (chunks : list string) : bool :=
  match foldr String.append "" chunks with
  | String a (String b _) => bool_decide (a = "031"%char /\ b = "139"%char)
  | _ => false
  end.

Section ReadSnapshot.
(** [DecompressionStream]: what came out before it broke, if it did. *)
Context (inflate : list string -> option SnapshotError -> list string * option SnapshotError).

(** [readSnapshot], and the blocks its reader then hands out. *)
Definition readSnapshot (chunks : list string) (broken : option SnapshotError)
    : result SnapshotError (SnapshotHead * (option entities_map -> BlockStream)) :=
  let '(chunks, broken) := if gzipped chunks then inflate chunks broken else (chunks, broken) in
  match linesOf chunks broken with
  | [] => Err (SnapshotFormatError None)
  | first :: lines =>
      match json_parse first with
      | None => Err (SnapshotFormatError None)
      | Some v =>
          match readHead v with
          | None => Err (SnapshotFormatError (n_obj v ≫= fun fields => jm_get fields "format"))
          | Some head => Ok (head, fun expected => decodedBlocks head expected lines broken)
          end
      end
  end.
End ReadSnapshot.
