(* ===== verification/SnapshotRoundTrip.v ===== *)
(** * A snapshot document reads back

    What [SnapshotDocument] writes, it reads: whatever chunks the body comes in, as text or
    compressed, the reader hands out the head and the blocks that were written, each
    mutation with the columns its entity declares. *)
From S2P Require Import Prelude JsMap Quantities Entities StoreSpec Declarations Json SnapshotDocument.

(** ** Lines *)
Lemma escape_free c : free_of newline (escape_char c).
Proof. destruct c as [[] [] [] [] [] [] [] []]; vm_compute; repeat split; discriminate. Qed.

Lemma json_text_free v : free_of newline (json_text v).
Proof.
  assert (forall s, free_of newline (quoted s)) as Hquoted.
  { intros s. unfold quoted. cbn [free_of]. split; [done|]. apply free_of_app. split; [|by vm_compute].
    induction s as [|c s IH]; [done|]. cbn [escape]. apply free_of_app. split; [apply escape_free|done]. }
  assert (forall l, Forall (free_of newline) l -> free_of newline (String.concat "," l)) as Hconcat.
  { induction l as [|x l IH]; [done|]. intros [Hx Hl]%Forall_cons. destruct l as [|y l]; [done|].
    change (String.concat "," (x :: y :: l)) with (x +:+ "," +:+ String.concat "," (y :: l)). rewrite !free_of_app. split_and!; [done|by vm_compute|by apply IH]. }
  induction v as [|b|n|s|items IH|fields IH] using Json_rect'; cbn [json_text].
  - by vm_compute.
  - by destruct b; vm_compute.
  - apply pretty_Z_free; [|done]. intros d. unfold pretty_N_char. by repeat case_match.
  - apply Hquoted.
  - rewrite !free_of_app. split_and!; [by vm_compute| |by vm_compute]. apply Hconcat, Forall_fmap. exact IH.
  - rewrite !free_of_app. split_and!; [by vm_compute| |by vm_compute]. apply Hconcat, Forall_fmap. eapply Forall_impl; [exact IH|].
    intros p Hp. cbn. rewrite !free_of_app. split_and!; [apply Hquoted|by vm_compute|done].
Qed.

Lemma pieces_free l : free_of newline l -> pieces l = ([], l).
Proof. induction l as [|c l IH]; [done|]. cbn [free_of pieces]. intros [Hc Hl]. rewrite (IH Hl). by rewrite decide_False. Qed.

Lemma pieces_app s t : pieces (s +:+ t) = ((pieces s).1 ++ (pieces ((pieces s).2 +:+ t)).1, (pieces ((pieces s).2 +:+ t)).2).
Proof.
  induction s as [|c s IH]; [cbn [pieces fst snd app]; by destruct (pieces ("" +:+ t))|].
  change (String c s +:+ t) with (String c (s +:+ t)). cbn [pieces]. rewrite IH. destruct (pieces s) as [closed open] eqn:Hs. cbn [fst snd].
  case_decide as Hc; [done|]. destruct closed as [|piece closed]; [|done]. cbn [fst snd app].
  change (String c open +:+ t) with (String c (open +:+ t)). cbn [pieces]. destruct (pieces (open +:+ t)) as [[|x closed1] open1]; by rewrite decide_False.
Qed.

Lemma pieces_open s : pieces (pieces s).2 = ([], (pieces s).2).
Proof.
  apply pieces_free. induction s as [|c s IH]; [done|]. cbn [pieces]. destruct (pieces s) as [closed open]. cbn [snd] in IH.
  case_decide as Hc; [done|]. destruct closed; [by split|done].
Qed.

Lemma linesFrom_pieces chunks : forall partial, pieces partial = ([], partial) ->
  linesFrom partial chunks = (filter (fun line => line <> "") (pieces (partial +:+ foldr String.append "" chunks)).1,
    (pieces (partial +:+ foldr String.append "" chunks)).2).
Proof.
  induction chunks as [|chunk chunks IH]; intros partial Hp; cbn [linesFrom foldr].
  - rewrite string_app_nil, Hp. done.
  - destruct (pieces (partial +:+ chunk)) as [closed open] eqn:Hcut. rewrite IH by (pose proof (pieces_open (partial +:+ chunk)) as Ho; by rewrite Hcut in Ho).
    rewrite <- string_app_assoc, (pieces_app (partial +:+ chunk)), Hcut. cbn [fst snd]. by rewrite filter_app.
Qed.

Lemma json_text_not_empty v : json_text v <> "".
Proof. destruct (json_text_opens v) as (c & t & -> & _). done. Qed.

Lemma pieces_line l s : free_of newline l -> pieces (l +:+ String newline s) = (l :: (pieces s).1, (pieces s).2).
Proof.
  induction l as [|c l IH]; [intros _; change ("" +:+ String newline s) with (String newline s); cbn [pieces]; by destruct (pieces s)|].
  cbn [free_of]. intros [Hc Hl]. change (String c l +:+ String newline s) with (String c (l +:+ String newline s)). cbn [pieces].
  rewrite (IH Hl). by rewrite decide_False.
Qed.

Lemma pieces_document lines : pieces (documentText lines) = (json_text <$> lines, "").
Proof.
  induction lines as [|line lines IH]; [done|]. cbn [documentText]. rewrite pieces_line by apply json_text_free. by rewrite IH.
Qed.

(** Whatever chunks a document's text comes in, its lines come out. *)
Lemma linesOf_document chunks lines :
  foldr String.append "" chunks = documentText lines -> linesOf chunks None = json_text <$> lines.
Proof.
  intros Hbody. unfold linesOf. rewrite linesFrom_pieces by done. change ("" +:+ ?s) with s. rewrite Hbody, pieces_document. cbn [fst snd].
  rewrite decide_True, app_nil_r by done. apply filter_Forall_id, Forall_fmap, Forall_forall. intros v _. apply json_text_not_empty.
Qed.

(** ** Values *)
Definition value_fits (field : FieldDeclaration) (value : Value) : Prop :=
  match field, value with
  | _, VNull => True
  | Storage blob, VBytes bytes => is_bytes bytes
  | U256Field blob, VBigInt n => 0 <= n < 2 ^ 256
  | (Storage (text | integer | real) | EnumField _), (VText _ | VNum _ | VBool _) => True
  | _, _ => False
  end.

Lemma byteHex_read byte s :
  0 <= byte < 256 -> exists hi lo, byteHex byte +:+ s = String hi (String lo s)
    /\ (h ← hexValue hi; l ← hexValue lo; Some (16 * h + l)) = Some byte.
Proof.
  intros Hb. assert (byte ∈ (Z.of_nat <$> seq 0 256)) as Hin.
  { apply list_elem_of_fmap. exists (Z.to_nat byte). split; [lia|]. apply elem_of_seq. lia. }
  assert (Forall (fun b => forallb (fun p => bool_decide (p.1 = p.2)) [((match byteHex b with
      | String hi (String lo EmptyString) => (h ← hexValue hi; l ← hexValue lo; Some (16 * h + l)) | _ => None end), Some b)] = true) (Z.of_nat <$> seq 0 256)) as Hall by evaluate.
  rewrite Forall_forall in Hall. specialize (Hall byte Hin). cbn [forallb fst snd] in Hall. rewrite andb_true_r in Hall. apply bool_decide_eq_true in Hall.
  destruct (byteHex byte) as [|hi [|lo [|]]]; try done. by exists hi, lo.
Qed.

Lemma bytesHex_read bytes : is_bytes bytes -> hexBytes (bytesHex bytes) = Some bytes.
Proof.
  induction 1 as [|byte bytes Hb Hbs IH]; [done|]. cbn [bytesHex]. destruct (byteHex_read byte (bytesHex bytes) Hb) as (hi & lo & -> & Hv).
  cbn [hexBytes]. destruct (hexValue hi) as [h|]; [|done]. cbn [mbind option_bind] in *. destruct (hexValue lo) as [l|]; [|done].
  cbn [mbind option_bind] in *. injection Hv as ->. by rewrite IH.
Qed.

Lemma value_roundtrip field value :
  value_fits field value -> exists v, encodeValue value field = Some v /\ json_wf v /\ decodeValue v field = Some value.
Proof.
  assert (forall bytes, is_bytes bytes -> decodeStored (NStr ("0x" +:+ bytesHex bytes)) blob = Some (VBytes bytes)) as Hblob.
  { intros bytes Hb. change (VBytes <$> hexBytes (bytesHex bytes) = Some (VBytes bytes)). by rewrite bytesHex_read. }
  destruct field as [type|values|storage].
  - destruct type, value; cbn [value_fits]; try done; try (by intros _; eexists). intros Hb. eexists. split_and!; [done|done|]. unfold decodeValue. cbn [fieldStorage]. by rewrite Hblob.
  - destruct value; cbn [value_fits]; try done; by intros _; eexists.
  - destruct storage, value as [| | | |n|]; cbn [value_fits]; try done; try (by intros _; eexists). intros Hn. destruct (u256_encode_spec n Hn) as (bytes & Henc & Hlen & Hb & Hv).
    eexists. unfold encodeValue, decodeValue. rewrite Henc. cbn [fieldStorage encodeStored]. split_and!; [done|done|].
    rewrite Hblob by done. cbn [mbind option_bind]. rewrite u256_decode_bytes by done. by rewrite Hv.
Qed.

(** ** Rows *)
Definition idTexts (e : NormalizedEntity) (id : EntityId) : EntityId :=
  list_to_map (zip (entity_id e) (IdText ∘ idString id <$> entity_id e)).

Definition wholeValues (e : NormalizedEntity) (values : Values) : Values :=
  foldl (fun row '(field, _) => <[field := default VNull (values !! field)]> row) ∅ (entity_fields e).

(** A mutation as it is read back: its id as text, every declared field, nothing else. *)
Definition whole (e : NormalizedEntity) (mutation : Mutation) : Mutation :=
  match mutation with
  | Upsert _ id values => Upsert (entity_name e) (idTexts e id) (wholeValues e values)
  | Delete _ id => Delete (entity_name e) (idTexts e id)
  end.

Definition mutation_fits (e : NormalizedEntity) (mutation : Mutation) : Prop :=
  match mutation with
  | Upsert _ _ values => Forall (fun p => value_fits p.2 (default VNull (values !! p.1))) (entity_fields e)
  | Delete _ _ => True
  end.

Lemma idOf_texts (e : NormalizedEntity) id : idOf (entity_id e) (NStr ∘ idString id <$> entity_id e) = Some (idTexts e id).
Proof.
  unfold idOf, idTexts. assert (mapM n_text (NStr ∘ idString id <$> entity_id e) = Some (idString id <$> entity_id e)) as ->.
  { apply mapM_Some. induction (entity_id e); constructor; done. }
  cbn [mbind option_bind]. by rewrite <- list_fmap_compose.
Qed.

Lemma row_cells (e : NormalizedEntity) values :
  Forall (fun p => value_fits p.2 (default VNull (values !! p.1))) (entity_fields e) ->
  exists cells, mapR (fun p => match encodeValue (default VNull (values !! p.1)) p.2 with Some v => Ok v | None => Err (ValueRefused (entity_name e) p.1) end)
      (entity_fields e) = Ok cells
    /\ Forall json_wf cells /\ length cells = length (entity_fields e)
    /\ foldR (fun values p => match decodeValue p.2 p.1.2 with Some v => Ok (<[p.1.1 := v]> values) | None => Err (ValueRefused (entity_name e) p.1.1) end)
         ∅ (zip (entity_fields e) cells) = Ok (wholeValues e values).
Proof.
  unfold wholeValues. generalize (∅ : Values). induction (entity_fields e) as [|p fields IH]; intros row Hfits; [by exists []|].
  apply Forall_cons in Hfits as [Hp Hfits]. destruct p as [f d]. cbn [fst snd] in *. destruct (value_roundtrip _ _ Hp) as (v & Henc & Hwf & Hdec).
  cbn [mapR fst snd]. rewrite Henc. destruct (IH (<[f := default VNull (values !! f)]> row) Hfits) as (cells & Hcells & Hall & Hlen & Hfold).
  exists (v :: cells). rewrite Hcells. split_and!; [done|by constructor|by cbn; rewrite Hlen|]. cbn [zip zip_with foldR fst snd foldl]. by rewrite Hdec.
Qed.

Lemma encodeRow_read (e : NormalizedEntity) name id values :
  mutation_fits e (Upsert name id values) ->
  exists cells, encodeRow e id values = Ok (NArr cells) /\ Forall json_wf cells
    /\ length cells = (length (entity_id e) + length (entity_fields e))%nat
    /\ decodeRow e cells = Ok (whole e (Upsert name id values)).
Proof.
  intros Hfits. destruct (row_cells e values Hfits) as (cells & Hcells & Hwf & Hlen & Hfold).
  unfold encodeRow. rewrite Hcells. cbn [mbind result_bind]. eexists. split; [done|]. split_and!.
  - apply Forall_app. split; [|done]. by apply Forall_fmap, Forall_forall.
  - by rewrite length_app, length_fmap, Hlen.
  - unfold decodeRow. rewrite <- (length_fmap (NStr ∘ idString id) (entity_id e)) at 1. rewrite take_app_length, idOf_texts.
    rewrite <- (length_fmap (NStr ∘ idString id) (entity_id e)). rewrite drop_app_length, Hfold. done.
Qed.

(** ** Lines of mutations *)
Definition wholeIn (entities : entities_map) (mutation : Mutation) : Mutation :=
  match jm_get entities (mutation_entity mutation) with Some e => whole e mutation | None => mutation end.

Definition fitsIn (entities : entities_map) (mutation : Mutation) : Prop :=
  forall e, jm_get entities (mutation_entity mutation) = Some e -> mutation_fits e mutation.

Section Read.
Context (head : SnapshotHead) (expected : option entities_map) (entities : entities_map).
Hypothesis Hnames : forall name e, jm_get entities name = Some e -> entity_name e = name.

#[local] Abbreviation read := (foldR (readLine head expected)).

(** Look the members of a written object up. *)
Ltac members := cbn [readLine jm_get]; repeat first [rewrite decide_False by discriminate | rewrite decide_True by reflexivity].

Lemma read_app r l l' r' : read r l = Ok r' -> read r (l ++ l') = read r' l'.
Proof.
  revert r. induction l as [|v l IH]; intros r; cbn [foldR app]; [by intros [= ->]|]. destruct (readLine head expected r v); [apply IH|done].
Qed.

Lemma readLines_read lines : forall r r', Forall json_wf lines -> read r lines = Ok r' -> readLines head expected r (json_text <$> lines) = (r', None).
Proof.
  induction lines as [|v lines IH]; intros r r' Hwf; cbn [foldR fmap list_fmap readLines]; [by intros [= ->]|].
  apply Forall_cons in Hwf as [Hv Hwf]. rewrite json_parse_text by done. destruct (readLine head expected r v) as [r1|]; [|done]. by apply IH.
Qed.

Lemma readLine_entity r block mutations e :
  rd_current r = Some (block, mutations) -> jm_get (rd_declared r) (entity_name e) = Some e ->
  readLine head expected r (NObj [("entity", NStr (entity_name e))])
  = Ok (mkReading (rd_declared r) (rd_current r) (Some e) (rd_blocksSeen r) (rd_yielded r)).
Proof. intros Hc He. members. rewrite Hc. cbn [n_text mbind option_bind]. by rewrite He. Qed.

Lemma readLine_delete r block mutations e id :
  rd_current r = Some (block, mutations) -> rd_section r = Some e -> rd_blocksSeen r <> 1%nat ->
  readLine head expected r (NObj [("delete", NArr (NStr ∘ idString id <$> entity_id e))])
  = Ok (withMutation r block mutations (Delete (entity_name e) (idTexts e id))).
Proof.
  intros Hc Hs Hseen. members. rewrite Hc, Hs, decide_False by done. rewrite decide_True by apply length_fmap.
  by rewrite idOf_texts.
Qed.

Lemma readLine_row r block mutations e cells mutation :
  rd_current r = Some (block, mutations) -> rd_section r = Some e ->
  length cells = (length (entity_id e) + length (entity_fields e))%nat -> decodeRow e cells = Ok mutation ->
  readLine head expected r (NArr cells) = Ok (withMutation r block mutations mutation).
Proof. intros Hc Hs Hlen Hrow. cbn. rewrite Hc, Hs, decide_True, Hrow by done. done. Qed.

(** One mutation under its own section. *)
Lemma mutationLine_read r block acc e mutation line :
  rd_current r = Some (block, acc) -> rd_section r = Some e -> mutation_fits e mutation ->
  mutationLine e (bool_decide (rd_blocksSeen r = 1%nat)) mutation = Ok line ->
  readLine head expected r line = Ok (withMutation r block acc (whole e mutation)) /\ json_wf line.
Proof.
  intros Hc Hs Hfits. destruct mutation as [name id values|name id]; cbn [mutationLine].
  - intros Hline. destruct (encodeRow_read e name id values Hfits) as (cells & Henc & Hwf & Hlen & Hrow). rewrite Henc in Hline. injection Hline as <-.
    split; [by apply readLine_row with e|by apply json_wf_arr].
  - case_bool_decide as Hseen; [done|]. intros [= <-]. split; [by apply readLine_delete|].
    split; [apply NoDup_singleton|]. split; [|done]. cbn. apply (json_wf_arr). by apply Forall_fmap, Forall_forall.
Qed.

Lemma mutationLines_read mutations : forall r block acc lines,
  rd_current r = Some (block, acc) -> rd_declared r = entities ->
  (forall e, rd_section r = Some e -> jm_get entities (entity_name e) = Some e) -> Forall (fitsIn entities) mutations ->
  mutationLines entities (bool_decide (rd_blocksSeen r = 1%nat)) (entity_name <$> rd_section r) mutations = Ok lines ->
  exists section, read r lines = Ok (mkReading entities (Some (block, acc ++ (wholeIn entities <$> mutations))) section (rd_blocksSeen r) (rd_yielded r))
    /\ Forall json_wf lines.
Proof.
  induction mutations as [|m mutations IH]; intros r block acc lines Hc Hd Hs Hfits; cbn [mutationLines].
  - intros [= <-]. exists (rd_section r). cbn [foldR fmap list_fmap]. rewrite app_nil_r, <- Hd, <- Hc. split; [by destruct r|constructor].
  - apply Forall_cons in Hfits as [Hm Hfits]. destruct (jm_get entities (mutation_entity m)) as [e|] eqn:He; [|done].
    rewrite bind_Ok. intros (line & Hline & Hrest). apply bind_Ok in Hrest as (rest & Hrest & [= <-]).
    pose proof (Hnames _ _ He) as Hname. assert (jm_get entities (entity_name e) = Some e) as Hget by (by rewrite Hname).
    set (opened := mkReading entities (Some (block, acc)) (Some e) (rd_blocksSeen r) (rd_yielded r)).
    assert (exists l0, (if decide (entity_name <$> rd_section r = Some (entity_name e)) then [] else [NObj [("entity", NStr (entity_name e))]]) = l0
      /\ read r l0 = Ok opened /\ Forall json_wf l0) as (l0 & -> & Hopen & Hwf0).
    { destruct (decide (entity_name <$> rd_section r = Some (entity_name e))) as [Hsame|_]; eexists; (split; [reflexivity|]).
      - split; [|constructor]. cbn [foldR]. unfold opened. destruct (rd_section r) as [e'|] eqn:Hsec; [|done]. injection Hsame as Hsame.
        specialize (Hs e' eq_refl). rewrite Hsame, Hget in Hs. injection Hs as <-. rewrite <- Hd, <- Hc, <- Hsec. by destruct r.
      - split; [|repeat constructor; try apply not_elem_of_nil; by vm_compute]. cbn [foldR]. rewrite (readLine_entity r block acc e) by (by rewrite ?Hd).
        unfold opened. by rewrite <- Hd, <- Hc. }
    destruct (mutationLine_read opened block acc e m line eq_refl eq_refl (Hm _ He) Hline) as [Hread Hwf].
    destruct (IH (withMutation opened block acc (whole e m)) block (acc ++ [whole e m]) rest eq_refl eq_refl) as (section & Hrun & Hwfr); [by intros ? [= <-]|done|exact Hrest|].
    exists section. rewrite (read_app _ _ _ _ Hopen). cbn [foldR]. rewrite Hread, Hrun. cbn [withMutation rd_blocksSeen rd_yielded opened].
    split; [|apply Forall_app; split; [done|by constructor]]. cbn [fmap list_fmap]. unfold wholeIn at 2. rewrite He. by rewrite <- app_assoc.
Qed.

(** ** Lines of blocks *)

(** What is read so far: the blocks handed out and the one still open. *)
Definition pending (r : Reading) : list (BlockPointer * list Mutation) :=
  ((fun b => (sblock b, smutations b)) <$> rd_yielded r) ++ match rd_current r with Some p => [p] | None => [] end.

Definition wholeBlocks (blocks : list (BlockPointer * list Mutation)) : list (BlockPointer * list Mutation) :=
  (fun p : BlockPointer * list Mutation => (p.1, wholeIn entities <$> p.2)) <$> blocks.

(** Between blocks. *)
Record between_blocks (r : Reading) (previous : option Z) : Prop := {
  bb_declared : rd_declared r = entities;
  bb_current : bp_number ∘ fst <$> rd_current r = previous;
  bb_seen : rd_blocksSeen r = 0%nat <-> previous = None;
  bb_open : Forall (fun b => slast b = false) (rd_yielded r)
}.

Lemma pointerOf_json b : pointerOf (pointer_json b) = Some b.
Proof. by destruct b. Qed.

Lemma readLine_block r previous block u :
  between_blocks r previous -> checkBlock head previous (bp_number block) = Ok u ->
  exists r', readLine head expected r (NObj [("block", pointer_json block)]) = Ok r'
    /\ rd_declared r' = entities /\ rd_current r' = Some (block, []) /\ rd_section r' = None
    /\ rd_blocksSeen r' = S (rd_blocksSeen r) /\ Forall (fun b => slast b = false) (rd_yielded r')
    /\ (fun b => (sblock b, smutations b)) <$> rd_yielded r' = pending r.
Proof.
  intros [Hd Hcur Hseen Hopen] Hcheck. members. rewrite pointerOf_json. unfold checkBlock in Hcheck. destruct (negb _); [done|].
  unfold pending. destruct (rd_current r) as [[current mutations]|]; cbn [fmap option_fmap option_map compose fst] in Hcur; subst previous.
  - rewrite decide_False by (intros [H1%Hseen _]; done). destruct (decide (bp_number block <= bp_number current)); [done|].
    eexists. split; [done|]. cbn [rd_declared rd_current rd_section rd_blocksSeen rd_yielded]. split_and!; try done.
    + apply Forall_app. by split; [|constructor].
    + by rewrite fmap_app.
  - destruct (decide (bp_number block <> head_floor head)); [done|]. rewrite decide_False by (by intros [_ ?]).
    eexists. split; [done|]. cbn [rd_declared rd_current rd_section rd_blocksSeen rd_yielded]. split_and!; try done. by rewrite app_nil_r.
Qed.

Lemma blockLines_read blocks : forall r previous lines,
  between_blocks r previous -> Forall (fun p => Forall (fitsIn entities) p.2) blocks -> blockLines head entities previous blocks = Ok lines ->
  exists r', read r lines = Ok r' /\ Forall json_wf lines /\ pending r' = pending r ++ wholeBlocks blocks
    /\ Forall (fun b => slast b = false) (rd_yielded r')
    /\ exists block mutations, rd_current r' = Some (block, mutations) /\ bp_number block = bp_number (head_takenAt head).
Proof.
  induction blocks as [|[block mutations] blocks IH]; intros r previous lines Hr Hfits; cbn [blockLines].
  - case_decide as Hend; [|done]. intros [= <-]. exists r. cbn [foldR wholeBlocks fmap list_fmap]. rewrite app_nil_r. split_and!; try done; [apply Hr|].
    pose proof (bb_current _ _ Hr) as Hcur. rewrite Hend in Hcur. destruct (rd_current r) as [[block mutations]|]; [|done]. injection Hcur as Hcur. by exists block, mutations.
  - apply Forall_cons in Hfits as [Hm Hfits]. rewrite bind_Ok. intros (u & Hcheck & Hrest). apply bind_Ok in Hrest as (mlines & Hmlines & Hrest).
    apply bind_Ok in Hrest as (rest & Hrest & [= <-]).
    destruct (readLine_block r previous block u Hr Hcheck) as (r1 & Hread & Hd1 & Hc1 & Hs1 & Hseen1 & Hopen1 & Hpend1).
    assert (bool_decide (previous = None) = bool_decide (rd_blocksSeen r1 = 1%nat)) as Hfloor.
    { apply bool_decide_ext. rewrite Hseen1, <- (bb_seen _ _ Hr). lia. }
    rewrite Hfloor in Hmlines. destruct (mutationLines_read mutations r1 block [] mlines Hc1 Hd1) as (section & Hread2 & Hwf2); [by rewrite Hs1|done|by rewrite Hs1|].
    set (r2 := mkReading entities (Some (block, [] ++ (wholeIn entities <$> mutations))) section (rd_blocksSeen r1) (rd_yielded r1)) in *.
    destruct (IH r2 (Some (bp_number block)) rest) as (r3 & Hread3 & Hwf3 & Hpend3 & Hopen3 & Hlast3); [|done|done|].
    { split; cbn [r2 rd_declared rd_current rd_blocksSeen rd_yielded]; try done. rewrite Hseen1. by split; [lia|]. }
    exists r3. split_and!; [| | |done|done].
    + cbn [foldR]. rewrite Hread. by rewrite (read_app _ _ _ _ Hread2).
    + constructor; [|by apply Forall_app]. cbn. split_and!; try done; [apply NoDup_singleton|]. apply (bool_decide_unpack _). by vm_compute.
    + rewrite Hpend3. unfold pending at 1. cbn [r2 rd_yielded rd_current]. rewrite Hpend1. unfold wholeBlocks. cbn [fmap list_fmap fst snd].
      by rewrite <- app_assoc.
Qed.

(** The last block carries the mark. *)
Fixpoint flagLast (blocks : list (BlockPointer * list Mutation)) : list SnapshotBlock :=
  match blocks with
  | [] => []
  | [(block, mutations)] => [mkSnapshotBlock block mutations true]
  | (block, mutations) :: blocks => mkSnapshotBlock block mutations false :: flagLast blocks
  end.

Lemma flagLast_pending r block mutations :
  rd_current r = Some (block, mutations) -> Forall (fun b => slast b = false) (rd_yielded r) ->
  rd_yielded r ++ [mkSnapshotBlock block mutations true] = flagLast (pending r).
Proof.
  intros Hc. unfold pending. rewrite Hc. induction 1 as [|b bs Hb Hbs IH]; [done|]. cbn [fmap list_fmap app]. destruct b as [p ms last]. cbn [slast] in Hb. subst last.
  cbn [sblock smutations]. rewrite IH. by destruct bs as [|b' bs]; [|destruct b'].
Qed.
End Read.

(** ** Declarations *)
Lemma n_list_strings l : n_list n_str (NArr (NStr <$> l)) = Some l.
Proof. cbn [n_list]. apply mapM_Some. induction l; constructor; done. Qed.

Lemma fieldOfJson_json field : fieldOfJson (field_json field) = Some field.
Proof.
  destruct field as [type|values|storage]; [by destruct type| |by destruct storage].
  change (EnumField <$> n_list n_str (NArr (NStr <$> values)) = Some (EnumField values)). by rewrite n_list_strings.
Qed.

Lemma declarationOf_json (e : NormalizedEntity) fields :
  NoDup (entity_fields e).*1 -> declare_json e = NObj fields -> declarationOf fields = Some e.
Proof.
  intros Hnd [= <-]. destruct e as [name id fields parent]. cbn [entity_fields entity_name entity_id entity_parent] in *.
  assert (n_list pairOf (NArr ((fun p => NArr [NStr p.1; field_json p.2]) <$> fields)) = Some fields) as Hpairs.
  { cbn [n_list]. apply mapM_Some. clear Hnd. induction fields as [|[f d] fields IH]; constructor; [|done]. cbn. by rewrite fieldOfJson_json. }
  pose proof (foldl_jm_set_fresh fields [] Hnd) as Hfold. cbn [app] in Hfold.
  unfold declarationOf, member. cbn [app jm_get]. repeat first [rewrite decide_False by discriminate | rewrite decide_True by reflexivity].
  cbn [mbind option_bind n_str]. rewrite n_list_strings, Hpairs. cbn [mbind option_bind]. rewrite Hfold.
  destruct parent as [[p as_]|]; cbn [jm_get]; repeat first [rewrite decide_False by discriminate | rewrite decide_True by reflexivity]; done.
Qed.

Lemma sameDeclaration_refl e : NoDup (entity_fields e).*1 -> sameDeclaration e e = true.
Proof.
  intros Hnd. unfold sameDeclaration. rewrite !bool_decide_true by done. cbn [andb]. apply forallb_forall. intros [f d] Hin%list_elem_of_In.
  cbn [fst snd]. apply jm_get_Some in Hin; [|done]. by rewrite Hin, bool_decide_true.
Qed.

Lemma declare_read head entities declared rest :
  declared_wf entities -> entities = declared ++ rest ->
  foldR (readLine head (Some entities)) (mkReading declared None None 0 []) (declare_json <$> rest.*2) = Ok (mkReading entities None None 0 [])
  /\ Forall json_wf (declare_json <$> rest.*2).
Proof.
  intros Hwf. revert declared. induction rest as [|[name e] rest IH]; intros declared Heq.
  { rewrite app_nil_r in Heq. subst. by split; [|constructor]. }
  assert (jm_get entities name = Some e) as Hget.
  { apply jm_get_Some; [apply Hwf|]. rewrite Heq. apply elem_of_app. right. left. }
  pose proof (dw_entity _ Hwf _ _ Hget) as [Hname _ _ _ _ Hnd]. destruct (IH (declared ++ [(name, e)])) as [Hread Hall]; [by rewrite <- app_assoc|].
  assert (jm_set declared (entity_name e) e = declared ++ [(name, e)]) as Hset.
  { rewrite Hname. apply jm_set_new. pose proof (dw_unique _ Hwf) as Hu. unfold jm_wf in Hu. rewrite Heq, fmap_app in Hu. apply NoDup_app in Hu as (_ & Hdis & _).
    intros Hin. apply (Hdis name Hin). csimpl. left. }
  split.
  - change (declare_json <$> (((name, e) :: rest).*2)) with (declare_json e :: (declare_json <$> rest.*2)). cbn [foldR].
    destruct (declare_json e) as [| | | | |fields] eqn:Hdecl; try done. pose proof (declarationOf_json e fields Hnd Hdecl) as Hof.
    assert (readLine head (Some entities) (mkReading declared None None 0 []) (NObj fields) = Ok (mkReading (declared ++ [(name, e)]) None None 0 [])) as ->; [|exact Hread].
    injection Hdecl as Hfs. cbn [readLine].
    assert (jm_get fields "delete" = None /\ jm_get fields "entity" = None /\ jm_get fields "block" = None /\ jm_has fields "declare" = true) as (-> & -> & -> & ->).
    { rewrite <- Hfs. destruct (entity_parent e) as [[p as_]|]; by split_and!. }
    cbn [rd_current]. rewrite Hof, Hname, Hget, sameDeclaration_refl by done. cbn [rd_declared rd_current rd_section rd_blocksSeen rd_yielded]. rewrite Hname in Hset. by rewrite Hset.
  - constructor; [|done]. apply json_wf_obj. cbn [fst snd]. split.
    + destruct (entity_parent e) as [[p as_]|]; apply (bool_decide_unpack _); by vm_compute.
    + assert (forall l, json_wf (NArr (NStr <$> l))) as Hstrs by (intros l; apply json_wf_arr; by apply Forall_fmap, Forall_forall).
      assert (json_wf (NArr ((fun p => NArr [NStr p.1; field_json p.2]) <$> entity_fields e))) as Hfields.
      { apply json_wf_arr, Forall_fmap, Forall_forall. intros [f d] _. apply json_wf_arr. repeat constructor. destruct d as [t|vs|t]; [done| |]; cbn [snd field_json];
          apply json_wf_obj; (split; [apply (bool_decide_unpack _); by vm_compute|]); repeat constructor; [apply Hstrs]. }
      destruct (entity_parent e) as [[p as_]|]; cbn [app]; repeat (apply Forall_cons_2; [try done; try apply Hstrs; try apply Hfields|]); try apply Forall_nil_2.
      cbn [snd]. apply json_wf_obj. split; [apply (bool_decide_unpack _); by vm_compute|by repeat constructor].
Qed.

(** ** The document *)
Lemma readHead_json head : readHead (head_json head) = Some head /\ json_wf (head_json head).
Proof.
  destruct head as [processor savedAt [number hash timestamp] floor cursor]. split; [by destruct cursor as [[key value]|]|].
  apply json_wf_obj. cbn [head_processor head_savedAt head_takenAt head_floor head_cursor].
  destruct cursor as [[key value]|]; (split; [apply (bool_decide_unpack _); by vm_compute|]); repeat constructor; try apply (bool_decide_unpack _); by vm_compute.
Qed.

Lemma decodedBlocks_document head entities blocks lines :
  declared_wf entities -> Forall (fun p => Forall (fitsIn entities) p.2) blocks -> encodedLines head entities blocks = Ok lines ->
  exists rest, lines = head_json head :: rest /\ Forall json_wf lines
    /\ decodedBlocks head (Some entities) (json_text <$> rest) None = mkStream (flagLast (wholeBlocks entities blocks)) None.
Proof.
  intros Hwf Hfits. unfold encodedLines. rewrite bind_Ok. intros (blines & Hblocks & [= <-]).
  assert (forall name e, jm_get entities name = Some e -> entity_name e = name) as Hnames by (intros name e He; by apply eo_name, (dw_entity _ Hwf)).
  destruct (declare_read head entities [] entities Hwf eq_refl) as [Hdecl Hdwf].
  destruct (blockLines_read head (Some entities) entities Hnames blocks (mkReading entities None None 0 []) None blines) as (r & Hread & Hbwf & Hpend & Hopen & block & mutations & Hcur & Hcut);
    [split; by constructor|done|done|].
  eexists. split; [reflexivity|]. split.
  - constructor; [apply readHead_json|]. apply Forall_app. by split.
  - unfold decodedBlocks. rewrite (readLines_read _ _ _ _ r); [|by apply Forall_app|by rewrite (read_app _ _ _ _ _ _ Hdecl)].
    rewrite Hcur, decide_True by done. by rewrite (flagLast_pending _ _ _ Hcur Hopen), Hpend.
Qed.

Section Document.
Context (inflate : list string -> option SnapshotError -> list string * option SnapshotError).

(** A body of a text: its own bytes, or compressed ones that inflate to it. *)
Definition body_of (chunks : list string) (content : string) : Prop :=
  if gzipped chunks
  then exists inflated, inflate chunks None = (inflated, None) /\ foldr String.append "" inflated = content
  else foldr String.append "" chunks = content.

Lemma document_reads_back head declarations entities blocks content chunks :
  normalizeEntities declarations = Ok entities -> encodeSnapshot head declarations blocks = Ok content ->
  Forall (fun p => Forall (fitsIn entities) p.2) blocks -> body_of chunks content ->
  exists stream, readSnapshot inflate chunks None = Ok (head, stream)
    /\ stream (Some entities) = mkStream (flagLast (wholeBlocks entities blocks)) None.
Proof.
  intros Hentities Hencode Hfits Hbody. unfold encodeSnapshot in Hencode. apply bind_Ok in Hencode as (u & _ & Hencode). rewrite Hentities in Hencode.
  cbn [mbind result_bind] in Hencode. apply bind_Ok in Hencode as (lines & Hlines & [= <-]).
  destruct (decodedBlocks_document head entities blocks lines (normalizeEntities_wf _ _ Hentities) Hfits Hlines) as (rest & -> & Hwf & Hdecode).
  unfold readSnapshot, body_of in *.
  assert (exists text_chunks, (if gzipped chunks then inflate chunks None else (chunks, None)) = (text_chunks, None)
    /\ foldr String.append "" text_chunks = documentText (head_json head :: rest)) as (text_chunks & -> & Htext).
  { destruct (gzipped chunks); [|by exists chunks]. destruct Hbody as (inflated & -> & Hinf). by exists inflated. }
  rewrite (linesOf_document _ _ Htext). cbn [fmap list_fmap]. apply Forall_cons in Hwf as [Hhead _].
  rewrite json_parse_text by done. destruct (readHead_json head) as [-> _]. by eexists.
Qed.

(** C20. A document reads back, whatever chunks its body comes in, compressed or not: the head,
    and every block in order, each mutation with its id as text and every field its entity
    declares. *)
Theorem snapshot_reads_back head declarations entities blocks content chunks :
  normalizeEntities declarations = Ok entities -> encodeSnapshot head declarations blocks = Ok content ->
  Forall (fun p => Forall (fitsIn entities) p.2) blocks -> body_of chunks content ->
  exists stream, readSnapshot inflate chunks None = Ok (head, stream)
    /\ stream (Some entities) = mkStream (flagLast (wholeBlocks entities blocks)) None.
Proof. apply document_reads_back. Qed.
End Document.

(** ** A body that breaks off *)
Lemma readLine_yields head expected r v r' : readLine head expected r v = Ok r' -> rd_yielded r `prefix_of` rd_yielded r'.
Proof.
  unfold readLine, withMutation. destruct v as [| | | |cells|fields]; try done.
  - destruct (rd_current r) as [[b ms]|], (rd_section r); try done. case_decide; [|done]. destruct (decodeRow _ _); [|done]. by intros [= <-].
  - destruct (jm_get fields "delete") as [cells|].
    { destruct (rd_current r) as [[b ms]|], (rd_section r); try done. case_decide; [done|]. destruct cells; try done. case_decide; [|done].
      destruct (idOf _ _); [|done]. by intros [= <-]. }
    destruct (jm_get fields "entity") as [name|].
    { destruct (rd_current r); [|done]. destruct (_ ≫= _); [|done]. by intros [= <-]. }
    destruct (jm_get fields "block") as [b|].
    { destruct (pointerOf b) as [b'|]; [|done]. destruct (negb _); [done|]. case_decide; [done|].
      destruct (rd_current r) as [[current ms]|]; [case_decide; [done|]|]; intros [= <-]; [by eexists|done]. }
    destruct (jm_has fields "declare"); [|done]. destruct (rd_current r); [done|]. destruct (declarationOf fields); [|done].
    destruct (match expected with Some _ => _ | None => _ end); [|done]. by intros [= <-].
Qed.

Lemma read_yields head expected lines : forall r r', foldR (readLine head expected) r lines = Ok r' -> rd_yielded r `prefix_of` rd_yielded r'.
Proof.
  induction lines as [|v lines IH]; intros r r'; cbn [foldR]; [by intros [= ->]|]. destruct (readLine head expected r v) as [r1|] eqn:Hv; [|done].
  intros Hrun. etrans; [by eapply readLine_yields|by apply IH].
Qed.

Lemma foldR_prefix {E St A} (f : St -> A -> result E St) s l k r : foldR f s (l ++ k) = Ok r -> exists r1, foldR f s l = Ok r1 /\ foldR f r1 k = Ok r.
Proof. revert s. induction l as [|a l IH]; intros s; cbn [foldR app]; [by exists s|]. destruct (f s a); [apply IH|done]. Qed.

(** The blocks of part of a document are whole ones, and never its last. *)
Lemma decodedBlocks_part head entities blocks lines part later e :
  declared_wf entities -> Forall (fun p => Forall (fitsIn entities) p.2) blocks -> encodedLines head entities blocks = Ok (head_json head :: lines) ->
  lines = part ++ later ->
  let stream := decodedBlocks head (Some entities) (json_text <$> part) (Some e) in
  failure stream = Some e /\ yielded stream `prefix_of` flagLast (wholeBlocks entities blocks) /\ Forall (fun b => slast b = false) (yielded stream).
Proof.
  intros Hwf Hfits Henc Hlines. unfold encodedLines in Henc. apply bind_Ok in Henc as (blines & Hblocks & [= Henc]).
  assert (forall name e, jm_get entities name = Some e -> entity_name e = name) as Hnames by (intros name e' He; by apply eo_name, (dw_entity _ Hwf)).
  destruct (declare_read head entities [] entities Hwf eq_refl) as [Hdecl Hdwf].
  destruct (blockLines_read head (Some entities) entities Hnames blocks (mkReading entities None None 0 []) None blines) as (r & Hread & Hbwf & Hpend & Hopen & block & mutations & Hcur & Hcut);
    [split; by constructor|done|done|].
  assert (foldR (readLine head (Some entities)) (mkReading [] None None 0 []) (part ++ later) = Ok r) as Hall
    by (rewrite <- Hlines, <- Henc; by rewrite (read_app _ _ _ _ _ _ Hdecl)).
  assert (Forall json_wf part) as Hpart.
  { assert (Forall json_wf (part ++ later)) as Hwhole by (rewrite <- Hlines, <- Henc; by apply Forall_app). by apply Forall_app in Hwhole as [? _]. }
  apply foldR_prefix in Hall as (r1 & Hr1 & Hrest). cbv zeta. unfold decodedBlocks. rewrite (readLines_read _ _ _ _ r1) by done. cbn [failure yielded].
  pose proof (read_yields _ _ _ _ _ Hrest) as Hpre. split; [done|]. split.
  - change (pending r = wholeBlocks entities blocks) in Hpend. rewrite <- Hpend, <- (flagLast_pending _ _ _ Hcur Hopen). etrans; [exact Hpre|]. by eexists.
  - destruct Hpre as [k Hk]. rewrite Hk in Hopen. by apply Forall_app in Hopen as [? _].
Qed.

(** The lines of the beginning of a document that broke off are its first lines. *)
Lemma linesOf_part chunks lines rest e :
  documentText lines = foldr String.append "" chunks +:+ rest -> exists part later, lines = part ++ later /\ linesOf chunks (Some e) = json_text <$> part.
Proof.
  intros Hbody. unfold linesOf. rewrite linesFrom_pieces by done. change ("" +:+ ?s) with s. set (body := foldr String.append "" chunks) in *.
  pose proof (pieces_document lines) as Hp. rewrite Hbody, pieces_app in Hp. injection Hp as Hp _.
  exists (take (length (pieces body).1) lines), (drop (length (pieces body).1) lines). rewrite take_drop. split; [done|].
  rewrite fmap_take, <- Hp, take_app_length. apply filter_Forall_id, Forall_forall. intros l Hl.
  assert (l ∈ json_text <$> lines) as (v & -> & _)%list_elem_of_fmap by (rewrite <- Hp; apply elem_of_app; by left). apply json_text_not_empty.
Qed.

(** C21. A download of an uncompressed document whose transport reports that it broke off is
    refused before its head, or hands out whole blocks only, never the last, and says that
    it failed.  A body that ends without an error at the end of a row is taken for whole
    ([cut_at_a_row_taken_for_whole]). *)
Theorem broken_download_hands_out_blocks inflate head declarations entities blocks content chunks rest e :
  normalizeEntities declarations = Ok entities -> encodeSnapshot head declarations blocks = Ok content ->
  Forall (fun p => Forall (fitsIn entities) p.2) blocks -> content = foldr String.append "" chunks +:+ rest -> gzipped chunks = false ->
  match readSnapshot inflate chunks (Some e) with
  | Err refusal => refusal = SnapshotFormatError None
  | Ok (head', stream) => head' = head /\ failure (stream (Some entities)) = Some e
      /\ yielded (stream (Some entities)) `prefix_of` flagLast (wholeBlocks entities blocks)
      /\ Forall (fun b => slast b = false) (yielded (stream (Some entities)))
  end.
Proof.
  intros Hentities Hencode Hfits Hbody Hplain. unfold encodeSnapshot in Hencode. apply bind_Ok in Hencode as (u & _ & Hencode). rewrite Hentities in Hencode.
  cbn [mbind result_bind] in Hencode. apply bind_Ok in Hencode as (lines & Hlines & [= <-]).
  pose proof (normalizeEntities_wf _ _ Hentities) as Hwf. destruct (decodedBlocks_document head entities blocks lines Hwf Hfits Hlines) as (tail & -> & Hjwf & _).
  unfold readSnapshot. rewrite Hplain. destruct (linesOf_part chunks _ rest e Hbody) as (part & later & Hcut & ->).
  destruct part as [|first part]; [done|]. cbn [fmap list_fmap]. injection Hcut as <- Hcut. apply Forall_cons in Hjwf as [Hhead _].
  rewrite json_parse_text by done. destruct (readHead_json head) as [-> _]. split; [done|]. by eapply decodedBlocks_part.
Qed.

(** ** The theorem at work, and where a body that broke off is taken for whole *)
Definition sample_cut : BlockPointer := mkPointer 9 "0xa9" 1009.
Definition sample_head : SnapshotHead := mkHead "proc" "2026-01-01T00:00:00.000Z" sample_cut 7 (Some ("sync", "{}")).
Definition sample_item (n amount : Z) : Mutation :=
  Upsert "Holder" {["id" := IdNum n; "account" := IdText "0xab"]} {["amount" := VBigInt amount]}.
Definition sample_snapshot : list (BlockPointer * list Mutation) :=
  [(mkPointer 7 "0xa7" 1007, [sample_item 1 100; sample_item 2 200]);
   (sample_cut, [Delete "Holder" {["id" := IdNum 1; "account" := IdText "0xab"]}; sample_item 2 300; sample_item 3 400])].

Definition sample_text : string := match encodeSnapshot sample_head sample_declarations sample_snapshot with Ok content => content | Err _ => "" end.

(** Bytes in chunks of seven. *)
Fixpoint chunked (fuel : nat) (s : string) : list string :=
  match fuel, s with
  | S fuel, String _ _ => String.substring 0 7 s :: chunked fuel (String.substring 7 (String.length s - 7) s)
  | _, _ => []
  end.

Lemma snapshot_reads_back_witness :
  exists entities stream, normalizeEntities sample_declarations = Ok entities
    /\ readSnapshot (fun chunks broken => (chunks, broken)) (chunked 200 sample_text) None = Ok (sample_head, stream)
    /\ yielded (stream (Some entities)) = flagLast (wholeBlocks entities sample_snapshot).
Proof.
  destruct (normalizeEntities sample_declarations) as [entities|] eqn:Hentities; [|discriminate Hentities].
  destruct (snapshot_reads_back (fun chunks broken => (chunks, broken)) sample_head sample_declarations entities sample_snapshot sample_text (chunked 200 sample_text))
    as (stream & Hread & Hstream); [exact Hentities|vm_compute; reflexivity| |vm_compute; reflexivity|].
  - rewrite sample_accepted in Hentities. injection Hentities as <-. repeat constructor; intros e [= <-]; cbn; repeat constructor; vm_compute; done.
  - exists entities, stream. split; [done|]. split; [exact Hread|by rewrite Hstream].
Defined.

(** A document has no last line of its own: cut at the end of a row of its last block, a
    body that ends there, though it broke off, reads as whole, and lacks the rows after. *)
Definition sample_cut_text : string := String.substring 0 (String.length sample_text - 82) sample_text.

Theorem cut_at_a_row_taken_for_whole :
  match normalizeEntities sample_declarations, readSnapshot (fun chunks broken => (chunks, broken)) [sample_cut_text] None with
  | Ok entities, Ok (head, stream) =>
      sample_text = sample_cut_text +:+ String.substring (String.length sample_cut_text) 82 sample_text
      /\ head = sample_head /\ failure (stream (Some entities)) = None
      /\ (length ∘ smutations <$> yielded (stream (Some entities))) = [2%nat; 2%nat]
      /\ (length ∘ snd <$> sample_snapshot) = [2%nat; 3%nat]
  | _, _ => False
  end.
Proof. vm_compute. done. Qed.

Lemma broken_download_hands_out_blocks_witness :
  exists entities, normalizeEntities sample_declarations = Ok entities
  /\ match readSnapshot (fun chunks broken => (chunks, broken)) [String.substring 0 600 sample_text] (Some NotJson) with
     | Err refusal => refusal = SnapshotFormatError None
     | Ok (head, stream) => head = sample_head /\ failure (stream (Some entities)) = Some NotJson
         /\ yielded (stream (Some entities)) `prefix_of` flagLast (wholeBlocks entities sample_snapshot)
         /\ Forall (fun b => slast b = false) (yielded (stream (Some entities)))
     end.
Proof.
  destruct (normalizeEntities sample_declarations) as [entities|] eqn:Hentities; [|discriminate Hentities]. exists entities. split; [done|].
  apply (broken_download_hands_out_blocks _ sample_head sample_declarations entities sample_snapshot sample_text [String.substring 0 600 sample_text]
    (String.substring 600 (String.length sample_text - 600) sample_text)); [exact Hentities|vm_compute; reflexivity| |vm_compute; reflexivity|vm_compute; reflexivity].
  rewrite sample_accepted in Hentities. injection Hentities as <-. repeat constructor; intros e [= <-]; cbn; repeat constructor; vm_compute; done.
Defined.
