(* ===== verification/Snapshots.v ===== *)
(** * A store that may have started from a snapshot

    [packages/state-store/src/snapshot.ts]: the wrapper around any state store that
    installs a snapshot document, remembers the block its history starts at, and refuses
    what lies below it.  What it wraps is an interface. *)
From S2P Require Import Prelude JsMap Entities Listing Retention StoreSpec Seam Json Declarations SnapshotDocument SnapshotRoundTrip.

(** ** The wrapper *)

(** What an install or an opening can be refused for. *)
Inductive InstallError : Type :=
  | SnapshotProcessorMismatch (expected found : string) (takenAt : Z)
  | DocumentRefused (e : SnapshotError)
  | StoreRefused (e : StoreError)
  | EndedBeforeFloor
  | UnreadableOrigin
  | OriginFormat (found : option Json).

Definition SNAPSHOT_ORIGIN_FORMAT : Z := 1.

(** [JSON.stringify(marker)] *)
Definition originMarker (block : Z) : SeamRecord :=
  RecordText (json_text (NObj [("format", NNum SNAPSHOT_ORIGIN_FORMAT); ("block", NNum block)])).

Section Wrapper.
Context {S : Type} `{backend : StateStoreBackend S}.

Record SnapshotAwareStateStore : Type := mkAware {
  inner : S;
  origin : option Z;
  knownTip : option Z
}.

Definition newAware (s : S) (origin : option Z) : SnapshotAwareStateStore := mkAware s origin origin.

(** Every inner operation leaves the two private fields alone. *)
Definition with_inner (w : SnapshotAwareStateStore) (s : S) : SnapshotAwareStateStore := mkAware s (origin w) (knownTip w).

(** What is claimed is narrowed to the history received. *)
Definition aw_capabilities (w : SnapshotAwareStateStore) : StateStoreCapabilities :=
  let caps := capabilities (inner w) in
  match origin w with
  | None => caps
  | Some origin =>
      match cap_asOf caps, cap_retention caps with
      | false, _ | _, RevertOnly => caps
      | true, retention =>
          let tip := default origin (knownTip w) in
          let fromSnapshot := Z.max 0 (tip - origin) in
          let blocks := match retention with Window blocks => Z.min blocks fromSnapshot | _ => fromSnapshot end in
          mkCapabilities (Window blocks) (cap_asOf caps) (cap_singleWriter caps)
      end
  end.

Definition aw_applyBlock (w : SnapshotAwareStateStore) (block : BlockPointer) (mutations : list Mutation)
    (cursor : option (string * string)) : result StoreError SnapshotAwareStateStore :=
  s ← applyBlock (inner w) block mutations cursor;
  Ok (mkAware s (origin w)
        (match knownTip w with
         | Some tip => if decide (tip < bp_number block) then Some (bp_number block) else Some tip
         | None => Some (bp_number block)
         end)).

Definition assertReadable (w : SnapshotAwareStateStore) (at_ : Z) : result StoreError unit :=
  match origin w with
  | None => Ok tt
  | Some _ => assertRetained (aw_capabilities w) at_ (knownTip w)
  end.

Definition aw_getAsOf (w : SnapshotAwareStateStore) (entity : string) (id : EntityId) (at_ : Z)
    : result StoreError (option Values) :=
  _ ← assertReadable w at_; getAsOf (inner w) entity id at_.

Definition aw_listAsOf (w : SnapshotAwareStateStore) (entity : string) (prefix : EntityId) (at_ limit : Z)
    : result StoreError (Listing Values) :=
  _ ← assertReadable w at_; listAsOf (inner w) entity prefix at_ limit.

Definition aw_revertTo (w : SnapshotAwareStateStore) (keepUpTo : Z) : result StoreError SnapshotAwareStateStore :=
  if decide (keepUpTo < 0) then
    s ← revertTo (inner w) keepUpTo; Ok (mkAware (clearSeamRecord s "snapshotOrigin") None None)
  else
    _ ← match origin w with
        | Some origin => assert_or (bool_decide (origin <= keepUpTo)) (RevertBeyondSnapshotError keepUpTo origin)
        | None => Ok tt
        end;
    s ← revertTo (inner w) keepUpTo;
    Ok (mkAware s (origin w)
          (match knownTip w with
           | Some tip => if decide (keepUpTo < tip) then Some keepUpTo else Some tip
           | None => None
           end)).

Definition aw_prune (w : SnapshotAwareStateStore) (maxVersions : option Z) : result StoreError (SnapshotAwareStateStore * PruneReport) :=
  p ← prune (inner w) maxVersions; Ok (with_inner w p.1, p.2).

(** ** Installing a document *)
Abbreviation reader := (SnapshotHead * (option entities_map -> BlockStream))%type.

(** The loop: a block a time, the cursor with the last, and where it ended. *)
Fixpoint installBlocks (w : SnapshotAwareStateStore) (head : SnapshotHead) (blocks : list SnapshotBlock)
    (failure : option SnapshotError) : SnapshotAwareStateStore * option InstallError :=
  match blocks with
  | [] => (w, DocumentRefused <$> failure)
  | b :: blocks =>
      match applyBlock (inner w) (sblock b) (smutations b) (if slast b then head_cursor head else None) with
      | Err e => (w, Some (StoreRefused e))
      | Ok s =>
          let w := mkAware s (origin w) (Some (bp_number (sblock b))) in
          if slast b then (w, None) else installBlocks w head blocks failure
      end
  end.

(** What is left of the store, and what was thrown. *)
Definition bootstrap (w : SnapshotAwareStateStore) (snapshot : reader) (processor : option string)
    : SnapshotAwareStateStore * option InstallError :=
  let '(head, stream) := snapshot in
  let refused e := (w, Some e) in
  let asked := default (head_processor head) processor in
  if decide (asked <> head_processor head)
  then refused (SnapshotProcessorMismatch asked (head_processor head) (bp_number (head_takenAt head)))
  else if negb (isBlockNumber (bp_number (head_takenAt head))) then refused (StoreRefused InvalidBlockNumber)
  else if negb (isBlockNumber (head_floor head)) then refused (StoreRefused InvalidBlockNumber)
  else
    let blocks := stream (Some (declarations (inner w))) in
    match yielded blocks, failure blocks with
    | [], Some e => refused (DocumentRefused e)
    | [], None => refused EndedBeforeFloor
    | _, failure =>
        let w := match head_cursor head with
          | Some (key, _) => with_inner w (clearCursor (inner w) key)
          | None => w
          end in
        match aw_revertTo w (-1) with
        | Err e => (w, Some (StoreRefused e))
        | Ok w =>
            let s := writeSeamRecord (inner w) "snapshotOrigin" (originMarker (head_floor head)) in
            installBlocks (mkAware s (Some (head_floor head)) (Some (head_floor head))) head (yielded blocks) failure
        end
    end.

(** [bootstrap] of a document rather than of a reader. *)
Definition bootstrapDocument (inflate : list string -> option SnapshotError -> list string * option SnapshotError)
    (w : SnapshotAwareStateStore) (chunks : list string) (broken : option SnapshotError) (processor : option string)
    : SnapshotAwareStateStore * option InstallError :=
  match readSnapshot inflate chunks broken with
  | Err e => (w, Some (DocumentRefused e))
  | Ok snapshot => bootstrap w snapshot processor
  end.

(** ** Opening *)
Definition openSnapshotAware (s : S) : result InstallError SnapshotAwareStateStore :=
  let s := migrate s in
  match readSeamRecord s "snapshotOrigin" with
  | None => Ok (newAware s None)
  | Some recorded =>
      match match recorded with
            | RecordText recorded => json_parse recorded
            | PruneRecord floor => Some (NObj [("format", NNum 1); ("floor", NNum floor)])
            end with
      | None => Err UnreadableOrigin
      | Some v =>
          let fields := default [] (n_obj v) in
          match member n_num fields "format", member n_num fields "block" with
          | Some format, Some block =>
              if decide (format = SNAPSHOT_ORIGIN_FORMAT) then Ok (newAware s (Some block))
              else Err (OriginFormat (jm_get fields "format"))
          | _, _ => Err (OriginFormat (jm_get fields "format"))
          end
      end
  end.
End Wrapper.
Arguments SnapshotAwareStateStore : clear implicits.

(** ** The wrapper is a state store *)
Section Laws.
Context {S : Type} `{laws : BackendLaws S}.

#[export] Instance aware_store : StateStore (SnapshotAwareStateStore S) := {
  declarations w := declarations (inner w);
  applyBlock := aw_applyBlock;
  revertTo := aw_revertTo;
  getCurrent w := getCurrent (inner w);
  readCursor w := readCursor (inner w);
  writeCursor w key value := with_inner w (writeCursor (inner w) key value);
  clearCursor w key := with_inner w (clearCursor (inner w) key)
}.

(** It holds what the store inside holds, from the block its history starts at. *)
Definition aware_repr (floor : Z) (w : SnapshotAwareStateStore S) (h : history) : Prop :=
  exists reached, reached <= floor /\ repr reached (inner w) h
    /\ match origin w with Some o => o <= floor | None => True end.

#[export] Program Instance aware_laws : StateStoreLaws (SnapshotAwareStateStore S) := { repr := aware_repr }.
Next Obligation. intros floor w h (reached & _ & Hr & _). exact (repr_wf reached (inner w) h Hr). Qed.
Next Obligation.
  intros floor w h block mutations cursor (reached & Hle & Hr & Ho).
  destruct (applyBlock_law reached _ _ block mutations cursor Hr) as [Hadm Honly]. split.
  - intros b Hb. destruct (Hadm b Hb) as (s & Happ & Hr' & Hd & Hc). change (@applyBlock _ aware_store) with (aw_applyBlock (S:=S)). unfold aw_applyBlock.
    rewrite Happ. eexists. split; [reflexivity|]. split; [|done]. by exists reached.
  - intros w' Happ. change (@applyBlock _ aware_store) with (aw_applyBlock (S:=S)) in Happ. unfold aw_applyBlock in Happ.
    apply bind_Ok in Happ as (s & Happ & _). by eapply Honly.
Qed.
Next Obligation.
  intros floor w h n (reached & Hle & Hr & Ho) Hn Hkept.
  destruct (revertTo_law reached _ _ n Hr) as (s & Hs & Hr' & Hd & Hc); [lia|done|]. change (@revertTo _ aware_store) with (aw_revertTo (S:=S)). unfold aw_revertTo.
  case_decide as Hneg; rewrite Hs; cbn [mbind result_bind].
  - destruct (clearSeamRecord_law reached _ _ "snapshotOrigin" Hr') as (Hr2 & Hd2 & Hc2 & _). eexists. split; [reflexivity|]. split_and!.
    + by exists reached.
    + exact (eq_trans Hd2 Hd).
    + intros key. exact (eq_trans (Hc2 key) (Hc key)).
  - assert (match origin w with Some origin => assert_or (bool_decide (origin <= n)) (RevertBeyondSnapshotError n origin) | None => Ok tt end = Ok tt) as ->.
    { destruct (origin w); [|done]. by rewrite bool_decide_true by lia. }
    eexists. split; [reflexivity|]. split; [|done]. by exists reached.
Qed.
Next Obligation. intros floor w h entity id e key (reached & Hle & Hr & Ho). exact (getCurrent_law reached (inner w) h entity id e key Hr). Qed.
Next Obligation.
  intros floor w h key value (reached & Hle & Hr & Ho). destruct (writeCursor_law reached _ _ key value Hr) as (Hr' & Hd & Hc).
  split; [|done]. by exists reached.
Qed.
Next Obligation.
  intros floor w h (reached & Hle & Hr & Ho) Hpos. destruct (wipe_law reached _ _ Hr Hpos) as (s & Hs & Hr' & Hd & Hc).
  destruct (clearSeamRecord_law _ _ _ "snapshotOrigin" Hr') as (Hr2 & Hd2 & Hc2 & _).
  change (@revertTo _ aware_store) with (aw_revertTo (S:=S)). unfold aw_revertTo. rewrite decide_True, Hs by lia. eexists. split; [reflexivity|]. split_and!.
  - by exists (-1).
  - exact (eq_trans Hd2 Hd).
  - intros key. exact (eq_trans (Hc2 key) (Hc key)).
Qed.
Next Obligation.
  intros floor w h key (reached & Hle & Hr & Ho). destruct (clearCursor_law reached _ _ key Hr) as (Hr' & Hd & Hc).
  split; [|done]. by exists reached.
Qed.
End Laws.

(** ** Installing *)

(** Blocks a history admits, one after the other. *)
Inductive records (entities : entities_map) : history -> list (BlockPointer * list Mutation) -> history -> Prop :=
  | records_nil h : records entities h [] h
  | records_cons h block mutations b blocks h' :
      admits entities h block mutations b -> records entities (h ++ [b]) blocks h' -> records entities h ((block, mutations) :: blocks) h'.

Definition carried (b : SnapshotBlock) : BlockPointer * list Mutation := (sblock b, smutations b).

Section Install.
Context {S : Type} `{laws : BackendLaws S}.
#[local] Abbreviation store := (SnapshotAwareStateStore S).

(** The cursor a key has once blocks of the document landed: the head's, with the last. *)
Definition cursor_installed (before : option string) (head : SnapshotHead) (blocks : list SnapshotBlock) (key : string) : option string :=
  if existsb slast blocks then cursor_after (fun _ => before) (head_cursor head) key else before.

(** What is installed is a beginning of the blocks, and nothing was thrown exactly when
    the last of them is in it, or the blocks came to an end without one. *)
Lemma installBlocks_spec head failure blocks : forall (w : store) hs,
  repr (-1) (inner w) hs ->
  let '(w', outcome) := installBlocks w head blocks failure in
  exists landed later hs',
    blocks = landed ++ later /\ records (declarations (inner w)) hs (carried <$> landed) hs' /\ repr (-1) (inner w') hs'
    /\ declarations (inner w') = declarations (inner w) /\ origin w' = origin w
    /\ knownTip w' = from_option (fun b => Some (bp_number (sblock b))) (knownTip w) (last landed)
    /\ (forall k, readSeamRecord (inner w') k = readSeamRecord (inner w) k)
    /\ (forall k, readCursor (inner w') k = cursor_installed (readCursor (inner w) k) head landed k)
    /\ (existsb slast landed = true -> outcome = None)
    /\ (outcome = None -> existsb slast landed = true \/ later = [] /\ failure = None)
    /\ (forall hs1, records (declarations (inner w)) hs (carried <$> blocks) hs1 -> existsb slast landed = true \/ later = [] /\ outcome = DocumentRefused <$> failure).
Proof.
  induction blocks as [|b blocks IH]; intros w hs Hr; cbn [installBlocks].
  - exists [], [], hs. split_and!; try done; [constructor|by destruct failure; [|right]|by right].
  - destruct (applyBlock_law (-1) _ _ (sblock b) (smutations b) (if slast b then head_cursor head else None) Hr) as [Hadm Honly].
    destruct (applyBlock (inner w) (sblock b) (smutations b) _) as [s|e] eqn:Happ.
    2:{ exists [], (b :: blocks), hs. split_and!; try done; [constructor|]. intros hs1 Hall. inversion Hall as [|? ? ? hb ? ? Hb Hrest]; subst.
        destruct (Hadm hb Hb) as (s & Hs & _). done. }
    destruct (Honly s eq_refl) as (hb & Hhb). destruct (Hadm hb Hhb) as (s1 & [= <-] & Hr' & Hd & Hc).
    pose proof (fun k => applyBlock_records _ _ _ _ _ _ _ k Hr Happ) as Hrec.
    destruct (slast b) eqn:Hlast.
    + exists [b], blocks, (hs ++ [hb]). cbn [existsb inner origin knownTip]. unfold cursor_installed. cbn [existsb]. rewrite Hlast. split_and!; try done.
      * by eapply records_cons; [|constructor].
      * by left.
      * by left.
    + specialize (IH (mkAware s (origin w) (Some (bp_number (sblock b)))) (hs ++ [hb]) Hr').
      destruct (installBlocks _ head blocks failure) as [w' outcome]. destruct IH as (landed & later & hs' & -> & Hin & Hr2 & Hd2 & Ho & Ht & Hrec2 & Hc2 & Hdone & Hnone & Htotal).
      cbn [inner origin knownTip] in *. exists (b :: landed), later, hs'. cbn [existsb]. unfold cursor_installed in *. cbn [existsb]. rewrite Hlast, Hd in *. split_and!; try done.
      * by eapply records_cons.
      * by rewrite Ht, last_cons; destruct (last landed).
      * intros k. by rewrite Hrec2, Hrec.
      * intros k. rewrite Hc2, Hc. by destruct (existsb slast landed).
      * intros hs1 Hall. inversion Hall as [|? ? ? hb1 ? ? Hb Hrest]; subst. apply (Htotal hs1).
        by rewrite (admits_unique _ _ _ _ _ _ Hhb Hb).
Qed.

(** The store an install writes into: wiped, without the document's cursor, its floor marked. *)
Lemma bootstrap_wiped (w : store) (head : SnapshotHead) floor h :
  repr floor (inner w) h -> Forall (fun b => 0 <= hb_number b) h ->
  exists w1, aw_revertTo (match head_cursor head with Some (key, _) => with_inner w (clearCursor (inner w) key) | None => w end) (-1) = Ok w1
    /\ forall block, let s := writeSeamRecord (inner w1) "snapshotOrigin" (originMarker block) in
       repr (-1) s [] /\ declarations s = declarations (inner w)
       /\ readSeamRecord s "snapshotOrigin" = Some (originMarker block)
       /\ (forall key, fst <$> head_cursor head = Some key -> readCursor s key = None).
Proof.
  intros Hr Hpos. set (w0 := match head_cursor head with Some (key, _) => with_inner w (clearCursor (inner w) key) | None => w end).
  assert (repr floor (inner w0) h /\ declarations (inner w0) = declarations (inner w)
    /\ forall key, fst <$> head_cursor head = Some key -> readCursor (inner w0) key = None) as (Hr0 & Hd0 & Hc0).
  { unfold w0. destruct (head_cursor head) as [[key value]|]; [|split_and!; done].
    destruct (clearCursor_law _ _ _ key Hr) as (Hr0 & Hd0 & Hc0). split_and!; [done..|]. by intros k [= ->]. }
  destruct (wipe_law _ _ _ Hr0 Hpos) as (s & Hs & Hr1 & Hd1 & Hc1).
  destruct (clearSeamRecord_law _ _ _ "snapshotOrigin" Hr1) as (Hr2 & Hd2 & Hc2 & _).
  unfold aw_revertTo. rewrite decide_True, Hs by lia. eexists. split; [reflexivity|]. intros block. cbn [inner].
  destruct (writeSeamRecord_law _ _ _ "snapshotOrigin" (originMarker block) Hr2) as (Hr3 & Hd3 & Hc3 & Hrec). split_and!; [done|congruence|..].
  - by rewrite Hrec, decide_True.
  - intros key Hkey. rewrite Hc3, Hc2, Hc1. by apply Hc0.
Qed.

(** A store that recorded where it starts opens there. *)
Lemma opens_marked (s : S) block :
  readSeamRecord (migrate s) "snapshotOrigin" = Some (originMarker block) -> openSnapshotAware s = Ok (newAware (migrate s) (Some block)).
Proof.
  intros Hmark. unfold openSnapshotAware. rewrite Hmark. unfold originMarker. rewrite json_parse_text; [done|].
  apply json_wf_obj. split; [apply (bool_decide_unpack _); by vm_compute|by repeat constructor].
Qed.

(** What an install that was not refused leaves. *)
Lemma bootstrap_installed (w : store) (head : SnapshotHead) (stream : option entities_map -> BlockStream) (processor : option string) floor h :
  repr floor (inner w) h -> Forall (fun b => 0 <= hb_number b) h ->
  let blocks := stream (Some (declarations (inner w))) in
  let '(w', outcome) := bootstrap w (head, stream) processor in
  (w' = w /\ outcome <> None)
  \/ exists landed later hs,
       0 <= head_floor head
       /\ yielded blocks = landed ++ later
       /\ records (declarations (inner w)) [] (carried <$> landed) hs /\ repr (-1) (inner w') hs
       /\ origin w' = Some (head_floor head) /\ readSeamRecord (inner w') "snapshotOrigin" = Some (originMarker (head_floor head))
       /\ knownTip w' = from_option (fun b => Some (bp_number (sblock b))) (Some (head_floor head)) (last landed)
       /\ (forall key value, head_cursor head = Some (key, value) ->
             readCursor (inner w') key = if existsb slast landed then Some value else None)
       /\ (existsb slast landed = true -> outcome = None)
       /\ (outcome = None -> existsb slast landed = true \/ later = [] /\ failure blocks = None).
Proof.
  intros Hr Hpos. cbv zeta. unfold bootstrap. case_decide; [by left|]. destruct (negb _); [by left|].
  destruct (isBlockNumber (head_floor head)) eqn:Hfloor; [cbn [negb]|by left]. apply bool_decide_eq_true in Hfloor.
  destruct (bootstrap_wiped w head floor h Hr Hpos) as (w1 & Hw1 & Hs). specialize (Hs (head_floor head)). cbv zeta in Hs. rewrite Hw1.
  set (s := writeSeamRecord _ _ _) in *. destruct Hs as (Hrs & Hds & Hmark & Hcur).
  destruct (yielded (stream (Some (declarations (inner w))))) as [|b bs] eqn:Hy; [destruct (failure _); by left|].
  pose proof (installBlocks_spec head (failure (stream (Some (declarations (inner w))))) (b :: bs) (mkAware s (Some (head_floor head)) (Some (head_floor head))) [] Hrs) as Hspec.
  destruct (installBlocks _ _ _ _) as [w' outcome]. right. destruct Hspec as (landed & later & hs & Heq & Hin & Hr' & Hd' & Ho & Ht & Hrec & Hc & Hdone & Hnone & _).
  cbn [inner origin knownTip] in *. exists landed, later, hs. rewrite Hds in Hin. split_and!; try done.
  - by rewrite Hrec.
  - intros key value Hk. rewrite Hc. unfold cursor_installed. rewrite Hcur by (by rewrite Hk). rewrite Hk. cbn [cursor_after]. by rewrite decide_True.
Qed.

(** C18. An install either changes nothing and says why, or leaves the store with the floor
    marked, holding the blocks of the document that landed and nothing it held before, and
    with the document's cursor only if the last of them is among them: so a store whose
    download was cut short, or whose process stopped at any block, has no cursor, and the
    next start installs again. *)
Theorem install_whole_or_cursorless (w : store) (head : SnapshotHead) (stream : option entities_map -> BlockStream)
    (processor : option string) floor h :
  repr floor (inner w) h -> Forall (fun b => 0 <= hb_number b) h ->
  let blocks := stream (Some (declarations (inner w))) in
  let '(w', outcome) := bootstrap w (head, stream) processor in
  (w' = w /\ outcome <> None)
  \/ exists landed later hs,
       yielded blocks = landed ++ later
       /\ records (declarations (inner w)) [] (carried <$> landed) hs /\ repr (-1) (inner w') hs
       /\ origin w' = Some (head_floor head) /\ openSnapshotAware (inner w') = Ok (newAware (inner w') (Some (head_floor head)))
       /\ (forall key value, head_cursor head = Some (key, value) ->
             readCursor (inner w') key = if existsb slast landed then Some value else None)
       /\ (existsb slast landed = true -> outcome = None)
       /\ (outcome = None -> existsb slast landed = true \/ later = [] /\ failure blocks = None).
Proof.
  intros Hr Hpos. pose proof (bootstrap_installed w head stream processor floor h Hr Hpos) as Hinstalled. cbv zeta in *.
  destruct (bootstrap w (head, stream) processor) as [w' outcome].
  destruct Hinstalled as [Hsame|(landed & later & hs & _ & Heq & Hin & Hr' & Ho & Hmark & _ & Hc & Hdone & Hnone)]; [by left|].
  right. exists landed, later, hs. split_and!; try done. pose proof (migrate_law _ _ _ Hr') as Hmig.
  rewrite <- Hmig at 2. apply opens_marked. by rewrite Hmig.
Qed.
End Install.
