(* ===== verification/Installed.v ===== *)
(** * What a store installed from a document answers

    A document is written from blocks, read back in whatever chunks it comes, and installed
    over whatever the store held: the store then answers as one that recorded the blocks
    themselves would, and nothing from before the document's floor. *)
From S2P Require Import Prelude JsMap Entities Retention StoreSpec Seam Json Versions MemoryStore Declarations SnapshotDocument SnapshotRoundTrip Snapshots.

(** ** A mutation as it is read back plans as the one written *)
Lemma wholeValues_lookup (e : NormalizedEntity) values f :
  NoDup (entity_fields e).*1 ->
  wholeValues e values !! f = if decide (f ∈ (entity_fields e).*1) then Some (default VNull (values !! f)) else None.
Proof. intros Hnd. unfold wholeValues. by rewrite declared_lookup. Qed.

Lemma wholeRow_whole (e : NormalizedEntity) id values :
  NoDup (entity_fields e).*1 -> wholeRow e id (wholeValues e values) = wholeRow e id values.
Proof.
  intros Hnd. apply map_eq. intros f. rewrite !wholeRow_lookup, wholeValues_lookup by done. by destruct (decide (f ∈ (entity_fields e).*1)).
Qed.

Lemma checkEnums_whole (e : NormalizedEntity) values :
  NoDup (entity_fields e).*1 ->
  checkEnums (entity_name e) (entity_fields e) (wholeValues e values) = checkEnums (entity_name e) (entity_fields e) values.
Proof.
  intros Hnd. assert (forall f, f ∈ (entity_fields e).*1 -> wholeValues e values !! f = Some (default VNull (values !! f))) as Hf.
  { intros f Hin. rewrite wholeValues_lookup by done. by rewrite decide_True. }
  clear Hnd. induction (entity_fields e) as [|[f d] fields IH]; [done|]. cbn [checkEnums]. rewrite IH by (intros g Hg; apply Hf; by right).
  destruct d as [|allowed|]; [done| |done]. rewrite Hf by left. by destruct (values !! f).
Qed.

Lemma encode_whole (e : NormalizedEntity) values stored :
  NoDup (entity_fields e).*1 -> encodeFieldValues e values = Ok stored -> exists stored', encodeFieldValues e (wholeValues e values) = Ok stored'.
Proof.
  intros Hnd. unfold encodeFieldValues. rewrite checkEnums_whole by done. destruct (checkEnums _ _ _); [|done]. intros Henc.
  apply semanticLoop_total. intros f d Hin. pose proof (semanticLoop_field _ _ _ _ _ _ f d Hnd (fun _ _ => eq_refl) Henc Hin) as Hf.
  assert (f ∈ (entity_fields e).*1) as Hmem by (by apply (list_elem_of_fmap_2 fst _ (f, d))).
  rewrite wholeValues_lookup, decide_True by done. destruct d as [t|vs|t]; [done..|]. by destruct (values !! f).
Qed.

Lemma idTexts_lookup (e : NormalizedEntity) id column :
  column ∈ entity_id e -> idTexts e id !! column = Some (IdText (idString id column)).
Proof.
  unfold idTexts. induction (entity_id e) as [|c columns IH]; intros Hc; [by apply not_elem_of_nil in Hc|].
  cbn [fmap list_fmap zip zip_with list_to_map foldr]. cbn. destruct (decide (c = column)) as [->|Hne].
  - by rewrite lookup_insert_eq.
  - rewrite lookup_insert_ne by done. apply elem_of_cons in Hc as [->|Hc]; [done|]. by apply IH.
Qed.

Lemma idValues_texts (e : NormalizedEntity) id vs : idValues e id = Ok vs -> idValues e (idTexts e id) = Ok vs.
Proof.
  unfold idValues. intros Hvs. rewrite <- Hvs. apply mapR_Forall2 in Hvs. apply mapR_ext. intros column Hin.
  unfold idColumn. rewrite idTexts_lookup by done. apply list_elem_of_lookup in Hin as (i & Hi).
  destruct (Forall2_lookup_l _ _ _ _ _ Hvs Hi) as (v & _ & Hv). unfold idColumn in Hv. unfold idString.
  by destruct (id !! column).
Qed.

(** The same key, the same entity, the same row. *)
Definition same_planned (p p' : Planned) : Prop := pl_key p = pl_key p' /\ pl_entity p = pl_entity p' /\ pl_row p = pl_row p'.

Lemma whole_planned entities m p :
  entities_wf entities -> plan entities m = Ok p -> exists p', plan entities (wholeIn entities m) = Ok p' /\ same_planned p p'.
Proof.
  intros Hwf Hp. destruct (plan_spec _ _ _ Hp) as (He & Hkey & Hvalues). pose proof (plan_id _ _ _ Hp) as Hid.
  pose proof (entities_names _ Hwf _ _ He) as Hname. pose proof (entities_fields _ Hwf _ _ He) as Hnd. unfold wholeIn. rewrite He.
  unfold plan in *. unfold mustGet in *. rewrite He in Hp. cbn [mbind result_bind] in Hp.
  set (e := pl_entity p) in *. apply idValues_texts in Hid as Hid'.
  assert (entityKey e (idTexts e (mutation_id m)) = Ok (pl_key p)) as Hkey'.
  { unfold entityKey in *. rewrite Hid' , Hid in *. done. }
  destruct m as [name id values|name id]; cbn [whole mutation_entity mutation_id] in *; rewrite Hname, He; cbn [mbind result_bind]; rewrite Hid'; cbn [mbind result_bind].
  - rewrite Hid in Hp. cbn [mbind result_bind] in Hp. destruct (encodeFieldValues e values) as [stored|] eqn:Henc; [|done].
    destruct (encode_whole _ _ _ Hnd Henc) as (stored' & ->). cbn [fmap result_fmap mbind result_bind] in *. rewrite Hkey', Hkey in *. cbn [mbind result_bind] in *.
    eexists. split; [reflexivity|]. injection Hp as Hp. split_and!; [done|done|]. rewrite <- Hp. unfold pl_row. cbn [pl_values pl_entity pl_id fmap option_fmap option_map].
    by rewrite wholeRow_whole.
  - rewrite Hid in Hp. cbn [mbind result_bind fmap result_fmap] in *. rewrite Hkey', Hkey in *. cbn [mbind result_bind] in *.
    eexists. split; [reflexivity|]. injection Hp as Hp. split_and!; [done|done|]. by rewrite <- Hp.
Qed.

(** ** Histories that answer alike *)
Definition same_block (b b' : HistoryBlock) : Prop := hb_block b = hb_block b' /\ Forall2 same_planned (hb_planned b) (hb_planned b').

#[local] Abbreviation same_history := (Forall2 same_block).

Lemma same_block_ops b b' key : same_block b b' -> Forall2 (fun q q' => q.1 = q'.1 /\ same_planned q.2 q'.2) (block_ops key b) (block_ops key b').
Proof.
  intros [Hb Hp]. unfold block_ops, hb_number. rewrite Hb. apply Forall2_fmap. induction Hp as [|p p' ps ps' Hpp Hps IH]; [constructor|].
  rewrite !filter_cons. pose proof Hpp as (Hk & _). rewrite Hk. case_decide; [by constructor|done].
Qed.

Lemma same_ops h h' key : same_history h h' -> Forall2 (fun q q' => q.1 = q'.1 /\ same_planned q.2 q'.2) (ops key h) (ops key h').
Proof.
  induction 1 as [|b b' h h' Hb Hh IH]; [constructor|]. rewrite !ops_cons. apply Forall2_app; [by apply same_block_ops|done].
Qed.

Lemma same_outcome (l l' : list (Z * Planned)) : Forall2 (fun q q' => q.1 = q'.1 /\ same_planned q.2 q'.2) l l' -> outcome l = outcome l'.
Proof.
  unfold outcome. induction 1 as [|q q' l l' (_ & _ & _ & Hrow) Hl IH]; [done|]. destruct Hl as [|r r' l l' Hr Hl]; [exact Hrow|]. exact IH.
Qed.

Lemma same_history_answers h h' key at_ : same_history h h' -> current h key = current h' key /\ as_of h at_ key = as_of h' at_ key.
Proof.
  intros Hh. pose proof (same_ops _ _ key Hh) as Hops. split; [by apply same_outcome|]. apply same_outcome.
  induction Hops as [|q q' l l' [Hn Hq] Hl IH]; [constructor|]. rewrite !filter_cons, Hn. case_decide; [by constructor|done].
Qed.

(** Blocks read back are admitted where the blocks written are, into such a history. *)
Lemma whole_recorded entities h blocks hs : entities_wf entities -> records entities h blocks hs ->
  forall h', same_history h h' -> exists hs', records entities h' (wholeBlocks entities blocks) hs' /\ same_history hs hs'.
Proof.
  intros Hwf. induction 1 as [h|h block mutations b blocks hs (hash & planned & Hn & Hnew & Hlow & Hplan & ->) Hrest IH]; intros h' Hsame.
  { exists h'. by split; [constructor|]. }
  assert (exists planned', mapR (plan entities) (wholeIn entities <$> mutations) = Ok planned' /\ Forall2 same_planned planned planned') as (planned' & Hplan' & Hps).
  { clear -Hplan Hwf. revert planned Hplan. induction mutations as [|m ms IH]; intros planned; cbn [mapR fmap list_fmap].
    - intros [= <-]. by exists [].
    - destruct (plan entities m) as [p|] eqn:Hm; [|done]. destruct (mapR (plan entities) ms) as [ps|]; [|done]. intros [= <-].
      destruct (whole_planned _ _ _ Hwf Hm) as (p' & -> & Hp). destruct (IH ps eq_refl) as (ps' & Hps' & Hall). rewrite Hps'.
      exists (p' :: ps'). by split; [|constructor]. }
  set (b' := mkHistoryBlock (mkPointer (bp_number block) hash (bp_timestamp block)) planned').
  destruct (IH (h' ++ [b'])) as (hs' & Hrec & Hhs); [by apply Forall2_app; [|repeat constructor]|]. exists hs'. split; [|done].
  cbn [wholeBlocks fmap list_fmap fst snd]. apply records_cons with b'; [|exact Hrec]. exists hash, planned'.
  assert (hb_block <$> h' = hb_block <$> h) as Hblocks by (clear -Hsame; induction Hsame as [|x y h h' [Hxy _] _ IH]; [done|]; csimpl; by rewrite Hxy, IH).
  split_and!; try done.
  - unfold hb_hash. change (fun b => bp_hash (hb_block b)) with (bp_hash ∘ hb_block). rewrite list_fmap_compose, Hblocks, <- list_fmap_compose. exact Hnew.
  - clear -Hlow Hsame. induction Hsame as [|x y h h' [Hxy _] _ IH]; [constructor|]. apply Forall_cons in Hlow as [Hx Hlow].
    constructor; [|by apply IH]. unfold hb_number in *. by rewrite <- Hxy.
Qed.

Lemma carried_flagLast blocks : carried <$> flagLast blocks = blocks.
Proof. induction blocks as [|[b ms] blocks IH]; [done|]. destruct blocks as [|p blocks]; [done|]. cbn [flagLast fmap list_fmap]. unfold carried at 1. cbn [sblock smutations]. f_equal. exact IH. Qed.

Lemma flagLast_flagged blocks : blocks <> [] -> existsb slast (flagLast blocks) = true.
Proof.
  induction blocks as [|[b ms] blocks IH]; [done|]. intros _. destruct blocks as [|p blocks]; [done|]. cbn [flagLast existsb slast orb]. by apply IH.
Qed.

Lemma flagLast_prefix blocks landed later :
  flagLast blocks = landed ++ later -> existsb slast landed = true -> later = [].
Proof.
  revert landed. induction blocks as [|[b ms] blocks IH]; intros landed; [by destruct landed|]. destruct landed as [|x landed]; [done|].
  destruct blocks as [|p blocks]; cbn [flagLast]; intros [= <- Heq]; [by destruct landed, later|]. cbn [existsb slast orb]. by apply IH.
Qed.

(** ** The floor *)
Section Floor.
Context {S : Type} `{laws : BackendLaws S}.
#[local] Abbreviation store := (SnapshotAwareStateStore S).

(** A block below the origin is refused; at or above it the store inside decides, on the
    tip the wrapper knows. *)
Lemma readable (w : store) start tip at_ :
  origin w = Some start -> knownTip w = Some tip -> 0 <= start <= tip -> 0 <= at_ ->
  if decide (at_ < start) then exists from, assertReadable w at_ = Err (NotRetained at_ from)
  else assertReadable w at_ = assertRetained (capabilities (inner w)) at_ (Some tip).
Proof.
  intros Ho Ht Hle Hat. unfold assertReadable, aw_capabilities, assertRetained. rewrite Ho, Ht. cbn [default]. unfold isBlockNumber. rewrite bool_decide_true by done.
  destruct (capabilities (inner w)) as [retention asOf singleWriter]. cbn [cap_asOf cap_retention cap_singleWriter].
  destruct asOf, retention as [| |blocks]; cbn [cap_asOf cap_retention]; unfold retainedRange; cbn [from_option]; change (id tip) with tip;
    repeat case_decide; try done; try (by eexists); try lia.
  do 3 f_equal. lia.
Qed.

(** What a document hands out starts at its floor. *)
Definition from_floor (head : SnapshotHead) (r : Reading) : Prop :=
  Forall (fun b => head_floor head <= bp_number (sblock b)) (rd_yielded r)
  /\ match rd_current r with Some p => head_floor head <= bp_number p.1 | None => rd_blocksSeen r = 0%nat end.

Lemma readLine_from_floor head expected r v r' : from_floor head r -> readLine head expected r v = Ok r' -> from_floor head r'.
Proof.
  intros [Hy Hc] Hread. unfold readLine, withMutation in Hread. destruct v as [| | | |cells|fields]; try done.
  - destruct (rd_current r) as [[b ms]|], (rd_section r); try done. case_decide; [|done]. destruct (decodeRow _ _); [|done]. by injection Hread as <-.
  - destruct (jm_get fields "delete") as [cells|].
    { destruct (rd_current r) as [[b ms]|], (rd_section r); try done. case_decide; [done|]. destruct cells; try done. case_decide; [|done].
      destruct (idOf _ _); [|done]. by injection Hread as <-. }
    destruct (jm_get fields "entity") as [name|].
    { destruct (rd_current r) as [[b ms]|] eqn:Hcur; [|done]. destruct (_ ≫= _); [|done]. injection Hread as <-. split; [done|]. cbn [rd_current]. done. }
    destruct (jm_get fields "block") as [b|].
    { destruct (pointerOf b) as [b'|]; [|done]. destruct (negb _); [done|]. destruct (decide (_ /\ _)) as [|Hfirst]; [done|].
      destruct (rd_current r) as [[current ms]|].
      - destruct (decide (bp_number b' <= bp_number current)); [done|]. injection Hread as <-. cbn [fst] in Hc.
        split; cbn [rd_yielded rd_current fst]; [|lia]. apply Forall_app. split; [done|by repeat constructor].
      - injection Hread as <-. split; [done|]. cbn [rd_current fst]. destruct (decide (bp_number b' = head_floor head)); [lia|]. by destruct Hfirst. }
    destruct (jm_has fields "declare"); [|done]. destruct (rd_current r) eqn:Hcur; [done|]. destruct (declarationOf fields); [|done].
    destruct (match expected with Some _ => _ | None => _ end); [|done]. injection Hread as <-. split; [done|]. cbn [rd_current rd_blocksSeen]. done.
Qed.

Lemma decodedBlocks_from_floor head expected lines broken :
  Forall (fun b => head_floor head <= bp_number (sblock b)) (yielded (decodedBlocks head expected lines broken)).
Proof.
  assert (forall r, from_floor head r -> from_floor head (readLines head expected r lines).1) as Hlines.
  { induction lines as [|line lines IH]; intros r Hr; [done|]. cbn [readLines]. destruct (json_parse line) as [v|]; [|done].
    destruct (readLine head expected r v) as [r1|] eqn:Hv; [|done]. apply IH. by eapply readLine_from_floor. }
  specialize (Hlines (mkReading [] None None 0 [])). unfold decodedBlocks. destruct (readLines _ _ _ _) as [r e]. cbn [fst] in Hlines.
  destruct Hlines as [Hy Hc]; [by split|]. destruct e; [done|]. destruct broken, (rd_current r) as [[b ms]|]; try done.
  case_decide; [|done]. apply Forall_app. split; [done|by repeat constructor].
Qed.

(** ** What an install marked *)
Record holds_floor (start : Z) (w : store) : Prop := {
  hf_start : 0 <= start;
  hf_origin : origin w = Some start;
  hf_tip : exists tip, knownTip w = Some tip /\ start <= tip;
  hf_record : readSeamRecord (inner w) "snapshotOrigin" = Some (originMarker start)
}.

Lemma readSnapshot_from_floor inflate chunks broken head stream expected :
  readSnapshot inflate chunks broken = Ok (head, stream) ->
  Forall (fun b => head_floor head <= bp_number (sblock b)) (yielded (stream expected)).
Proof.
  unfold readSnapshot. destruct (if gzipped chunks then _ else _) as [content stop]. destruct (linesOf _ _) as [|first lines]; [done|].
  destruct (json_parse first) as [v|]; [|done]. destruct (readHead v); [|done]. intros [= -> <-]. apply decodedBlocks_from_floor.
Qed.

Lemma install_holds inflate (w : store) chunks broken processor head stream floor h :
  repr floor (inner w) h -> Forall (fun b => 0 <= hb_number b) h -> readSnapshot inflate chunks broken = Ok (head, stream) ->
  let '(w', outcome) := bootstrapDocument inflate w chunks broken processor in
  outcome = None \/ w' <> w -> holds_floor (head_floor head) w'.
Proof.
  intros Hr Hpos Hread. unfold bootstrapDocument. rewrite Hread.
  pose proof (bootstrap_installed w head stream processor floor h Hr Hpos) as Hinstalled. cbv zeta in Hinstalled.
  destruct (bootstrap w (head, stream) processor) as [w' outcome].
  destruct Hinstalled as [[-> Hthrown]|(landed & later & hs & Hfloor & Hy & _ & _ & Ho & Hmark & Htip & _)]; [by intros [?|?]|]. intros _.
  pose proof (readSnapshot_from_floor _ _ _ _ _ (Some (declarations (inner w))) Hread) as Hall. rewrite Hy in Hall. apply Forall_app in Hall as [Hall _].
  split; [done..| |done]. rewrite Htip. destruct (last landed) as [b|] eqn:Hb; cbn [from_option]; [|by eexists].
  eexists. split; [done|]. rewrite Forall_forall in Hall. by apply Hall, last_Some_elem_of.
Qed.

Context `{!OriginLaws S}.

Lemma opened_holds start (w w' : store) : holds_floor start w -> openSnapshotAware (inner w) = Ok w' -> holds_floor start w'.
Proof.
  intros [Hs Ho Ht Hrec]. rewrite <- (migrate_origin (inner w)) in Hrec. rewrite (opens_marked _ _ Hrec). intros [= <-].
  split; [done..| |done]. exists start. split; [done|lia].
Qed.

Lemma reverted_holds start (w w' : store) n : holds_floor start w -> 0 <= n -> aw_revertTo w n = Ok w' -> holds_floor start w'.
Proof.
  intros [Hs Ho (tip & Ht & Hle) Hrec] Hn. unfold aw_revertTo. rewrite decide_False, Ho, Ht by lia.
  intros (u & Hcheck & (s & Hrev & [= <-])%bind_Ok)%bind_Ok. apply assert_or_Ok, bool_decide_eq_true in Hcheck.
  split; [done..| |]; cbn [inner knownTip]; [|by rewrite (revertTo_origin _ _ _ Hrev)]. case_decide; eexists; (split; [done|lia]).
Qed.

Lemma applied_holds start (w w' : store) block mutations cursor :
  holds_floor start w -> aw_applyBlock w block mutations cursor = Ok w' -> holds_floor start w'.
Proof.
  intros [Hs Ho (tip & Ht & Hle) Hrec] (s & Happ & [= <-])%bind_Ok.
  split; [done..| |]; cbn [inner knownTip]; [|by rewrite (applyBlock_origin _ _ _ _ _ Happ)]. rewrite Ht. case_decide; eexists; (split; [done|lia]).
Qed.

(** A wrapper some time after a document that starts at [start] was installed, whole or
    cut short: blocks, reverts, prunes and cursors later, in this process or in one that
    opened the same store again. *)
Inductive since_install (inflate : list string -> option SnapshotError -> list string * option SnapshotError) : Z -> store -> Prop :=
  | si_installed w0 chunks broken processor head stream floor h w outcome :
      repr floor (inner w0) h -> Forall (fun b => 0 <= hb_number b) h -> readSnapshot inflate chunks broken = Ok (head, stream) ->
      bootstrapDocument inflate w0 chunks broken processor = (w, outcome) -> outcome = None \/ w <> w0 ->
      since_install inflate (head_floor head) w
  | si_apply start w block mutations cursor w' :
      since_install inflate start w -> aw_applyBlock w block mutations cursor = Ok w' -> since_install inflate start w'
  | si_revert start w n w' :
      since_install inflate start w -> 0 <= n -> aw_revertTo w n = Ok w' -> since_install inflate start w'
  | si_prune start w budget p :
      since_install inflate start w -> aw_prune w budget = Ok p -> since_install inflate start p.1
  | si_cursor start w key value :
      since_install inflate start w -> since_install inflate start (with_inner w (writeCursor (inner w) key value))
  | si_clear start w key :
      since_install inflate start w -> since_install inflate start (with_inner w (clearCursor (inner w) key))
  | si_reopen start w w' :
      since_install inflate start w -> openSnapshotAware (inner w) = Ok w' -> since_install inflate start w'.

Lemma since_install_holds inflate start w : since_install inflate start w -> holds_floor start w.
Proof.
  induction 1 as [w0 chunks broken processor head stream floor h w outcome Hr Hpos Hread Hboot Hdone|start w block mutations cursor w' _ Hk Happ
    |start w n w' _ Hk Hn Hrev|start w budget p _ Hk Hprune|start w key value _ Hk|start w key _ Hk|start w w' _ Hk Hopen].
  - pose proof (install_holds inflate w0 chunks broken processor head stream floor h Hr Hpos Hread) as Hholds. rewrite Hboot in Hholds. by apply Hholds.
  - by eapply applied_holds.
  - by eapply reverted_holds.
  - destruct Hk as [Hs Ho Ht Hrec]. apply bind_Ok in Hprune as (q & Hq & [= <-]). split; try done. exact (eq_trans (prune_origin _ _ _ Hq) Hrec).
  - destruct Hk as [Hs Ho Ht Hrec]. split; try done. cbn [inner with_inner]. by rewrite writeCursor_origin.
  - destruct Hk as [Hs Ho Ht Hrec]. split; try done. cbn [inner with_inner]. by rewrite clearCursor_origin.
  - by eapply opened_holds.
Qed.

End Floor.

(** ** Installed blocks are recorded ones *)
Lemma records_unique entities h blocks hs hs' : records entities h blocks hs -> records entities h blocks hs' -> hs = hs'.
Proof.
  induction 1 as [h|h block mutations b blocks hs Hb Hrest IH]; intros Hother; inversion Hother as [|? ? ? b' ? ? Hb' Hrest']; subst; [done|].
  apply IH. by rewrite (admits_unique _ _ _ _ _ _ Hb Hb').
Qed.

Lemma records_numbers entities h blocks hs :
  records entities h blocks hs -> hb_number <$> hs = (hb_number <$> h) ++ (bp_number ∘ fst <$> blocks).
Proof.
  induction 1 as [h|h block mutations b blocks hs Hb Hrest IH]; [by rewrite app_nil_r|]. rewrite IH, fmap_app, <- app_assoc. csimpl.
  by destruct Hb as (hash & ps & _ & _ & _ & _ & ->).
Qed.

Lemma last_fmap {A B} (f : A -> B) (l : list A) : last (f <$> l) = f <$> last l.
Proof. induction l as [|a [|a' l] IH]; [done..|]. exact IH. Qed.

Section Whole.
Context {S : Type} `{laws : BackendLaws S}.
#[local] Abbreviation store := (SnapshotAwareStateStore S).

Lemma bootstrap_records (w : store) head stream processor floor h blocks hs :
  repr floor (inner w) h -> Forall (fun b => 0 <= hb_number b) h ->
  default (head_processor head) processor = head_processor head -> 0 <= bp_number (head_takenAt head) -> 0 <= head_floor head ->
  stream (Some (declarations (inner w))) = mkStream (flagLast blocks) None -> blocks <> [] -> records (declarations (inner w)) [] blocks hs ->
  exists w', bootstrap w (head, stream) processor = (w', None) /\ repr (-1) (inner w') hs /\ declarations (inner w') = declarations (inner w)
    /\ origin w' = Some (head_floor head) /\ knownTip w' = hb_number <$> last hs
    /\ forall key value, head_cursor head = Some (key, value) -> readCursor (inner w') key = Some value.
Proof.
  intros Hr Hpos Hproc Htaken Hfloor Hstream Hne Hrec. unfold bootstrap. cbv zeta. rewrite decide_False by (intros Hneq; by apply Hneq).
  unfold isBlockNumber. rewrite !bool_decide_true by done. cbn [negb]. rewrite Hstream. cbn [yielded failure].
  destruct (bootstrap_wiped w head floor h Hr Hpos) as (w1 & Hw1 & Hs). specialize (Hs (head_floor head)). cbv zeta in Hs.
  set (s := writeSeamRecord _ _ _) in *. destruct Hs as (Hrs & Hds & Hmark & Hcur).
  pose proof (installBlocks_spec head None (flagLast blocks) (mkAware s (Some (head_floor head)) (Some (head_floor head))) [] Hrs) as Hspec.
  destruct (flagLast blocks) as [|b0 bs] eqn:Hflag; [by destruct blocks as [|[b ms] [|]]|]. rewrite Hw1. fold s.
  destruct (installBlocks _ _ _ _) as [w' outcome]. destruct Hspec as (landed & later & hs' & Heq & Hin & Hr' & Hd' & Ho & Ht & _ & Hc & Hdone & Hnone & Htotal).
  cbn [inner origin knownTip] in *. rewrite Hds in *. rewrite <- Hflag, carried_flagLast in Htotal. specialize (Htotal hs Hrec).
  assert (later = [] /\ outcome = None) as [-> ->].
  { destruct Htotal as [Hl|[-> ->]]; [|done]. split; [|by apply Hdone]. eapply flagLast_prefix; [by rewrite Hflag|done]. }
  rewrite app_nil_r in Heq. subst landed. rewrite <- Hflag in *. rewrite carried_flagLast in Hin. pose proof (records_unique _ _ _ _ _ Hrec Hin) as ->.
  exists w'. split_and!; try done.
  - rewrite Ht. rewrite <- last_fmap. rewrite (records_numbers _ _ _ _ Hin). cbn [fmap list_fmap app]. rewrite <- (carried_flagLast blocks) at 2.
    rewrite <- list_fmap_compose, last_fmap. destruct (last (flagLast blocks)) as [b|] eqn:Hl; [done|]. apply last_None in Hl. congruence.
  - intros key value Hk. rewrite Hc. unfold cursor_installed. rewrite flagLast_flagged by done. rewrite Hk. cbn [cursor_after]. by rewrite decide_True.
Qed.
End Whole.

Section EndToEnd.
Context (inflate : list string -> option SnapshotError -> list string * option SnapshotError).
Context {S : Type} `{laws : BackendLaws S}.
#[local] Abbreviation store := (SnapshotAwareStateStore S).

Lemma blockLines_last head entities previous blocks lines :
  blockLines head entities previous blocks = Ok lines ->
  from_option (fun p => Some (bp_number p.1)) previous (last blocks) = Some (bp_number (head_takenAt head)).
Proof.
  revert previous lines. induction blocks as [|[b ms] blocks IH]; intros previous lines; cbn [blockLines].
  - by case_decide.
  - intros (u & _ & (l & _ & (rest & Hrest & _)%bind_Ok)%bind_Ok)%bind_Ok. specialize (IH _ _ Hrest). rewrite last_cons. by destruct (last blocks).
Qed.

Lemma encoded_head head declarations blocks content :
  encodeSnapshot head declarations blocks = Ok content ->
  0 <= head_floor head <= bp_number (head_takenAt head) /\ bp_number ∘ fst <$> last blocks = Some (bp_number (head_takenAt head)).
Proof.
  unfold encodeSnapshot. intros (u & Hhead & (entities & _ & (lines & Hlines & _)%bind_Ok)%bind_Ok)%bind_Ok.
  unfold assertHead in Hhead. case_decide; [done|]. do 2 (case_bool_decide; [cbn [negb] in Hhead|done]). case_decide; [done|]. split; [lia|].
  unfold encodedLines in Hlines. apply bind_Ok in Hlines as (blines & Hblocks%blockLines_last & _). by destruct (last blocks).
Qed.

(** C17. A document written from blocks, whatever chunks it arrives in, installed over whatever
    a store held: the store answers as one that recorded those blocks, has the cursor of the
    document, refuses what lies below its floor, and takes the next block as that one would. *)
Theorem installed_answers_as_recorded (w : store) head decls blocks content chunks processor floor h hs :
  repr floor (inner w) h -> Forall (fun b => 0 <= hb_number b) h ->
  normalizeEntities decls = Ok (declarations (inner w)) -> encodeSnapshot head decls blocks = Ok content ->
  Forall (fun p => Forall (fitsIn (declarations (inner w))) p.2) blocks -> body_of inflate chunks content ->
  default (head_processor head) processor = head_processor head -> records (declarations (inner w)) [] blocks hs ->
  exists w' hs', bootstrapDocument inflate w chunks None processor = (w', None)
    /\ repr (head_floor head) w' hs' /\ Forall2 same_block hs hs'
    /\ (forall key value, head_cursor head = Some (key, value) -> readCursor w' key = Some value)
    /\ forall entity e id key, jm_get (declarations (inner w)) entity = Some e -> entityKey e id = Ok key ->
         answers e (current hs key) (getCurrent w' entity id)
         /\ forall at_, 0 <= at_ ->
              if decide (at_ < head_floor head) then exists from, aw_getAsOf w' entity id at_ = Err (NotRetained at_ from)
              else match assertRetained (capabilities (inner w')) at_ (Some (bp_number (head_takenAt head))) with
                | Ok _ => answers e (as_of hs at_ key) (aw_getAsOf w' entity id at_)
                | Err error => aw_getAsOf w' entity id at_ = Err error
                end.
Proof.
  intros Hr Hpos Hentities Hencode Hfits Hbody Hproc Hrec. destruct (repr_wf _ _ _ Hr) as [_ Hwf]. destruct (encoded_head _ _ _ _ Hencode) as [Hle Hcut].
  destruct (document_reads_back inflate head decls _ blocks content chunks Hentities Hencode Hfits Hbody) as (stream & Hread & Hstream).
  destruct (whole_recorded _ _ _ _ Hwf Hrec []) as (hs' & Hrec' & Hsame); [constructor|].
  destruct (bootstrap_records w head stream processor floor h _ hs' Hr Hpos Hproc ltac:(lia) ltac:(lia) Hstream) as (w' & Hboot & Hr' & Hd & Ho & Ht & Hc);
    [by destruct blocks|done|].
  assert (hb_number <$> last hs' = hb_number <$> last hs) as Hlast.
  { clear -Hsame. induction Hsame as [|b b' hs hs' [Hb _] Hrest IH]; [done|]. destruct Hrest; [|exact IH]. csimpl. unfold hb_number. by rewrite Hb. }
  assert (hb_number <$> last hs = Some (bp_number (head_takenAt head))) as Htip.
  { rewrite <- last_fmap, (records_numbers _ _ _ _ Hrec). change (last ((bp_number ∘ fst) <$> blocks) = Some (bp_number (head_takenAt head))). by rewrite last_fmap. }
  exists w', hs'. unfold bootstrapDocument. rewrite Hread. split_and!; try done.
  - exists (-1). rewrite Ho. split_and!; [lia|done|lia].
  - intros entity e id key He Hkey. rewrite <- Hd in He. destruct (same_history_answers hs hs' key 0 Hsame) as [-> _].
    pose proof (getCurrent_law _ _ _ entity id e key Hr' He Hkey) as Hcur. split; [unfold answers; destruct (current hs' key); exact Hcur|].
    intros at_ Hat. pose proof (readable w' (head_floor head) (bp_number (head_takenAt head)) at_ Ho) as Hread'. rewrite Ht, Hlast, Htip in Hread'. specialize (Hread' eq_refl Hle Hat).
    unfold aw_getAsOf. case_decide; [destruct Hread' as (from & ->); by exists from|]. rewrite Hread'.
    destruct (same_history_answers hs hs' key at_ Hsame) as [_ ->].
    pose proof (getAsOf_law _ _ _ entity id e key at_ Hr' He Hkey) as Has. rewrite Hlast, Htip in Has. specialize (Has ltac:(lia)).
    destruct (assertRetained _ _ _); [exact Has|done].
Qed.
End EndToEnd.

(** ** The theorems at work *)
Definition plain (chunks : list string) (broken : option SnapshotError) : list string * option SnapshotError := (chunks, broken).

Definition accepted_entities : entities_map := match normalizeEntities sample_declarations with Ok entities => entities | Err _ => [] end.

(** A store that computed a row of its own, which the document knows nothing of. *)
Definition sample_before : result StoreError MemoryStateStore :=
  s ← newMemoryStore accepted_entities None None;
  m_applyBlock s (mkPointer 3 "0xb3" 1003) [sample_item 9 900] (Some ("sync", "old")).

Lemma sample_before_repr s : sample_before = Ok s -> exists h, repr (-1) s h /\ Forall (fun b => 0 <= hb_number b) h /\ declarations s = accepted_entities.
Proof.
  unfold sample_before. intros (s0 & H0 & Happ)%bind_Ok.
  assert (entities_wf accepted_entities) as Hwf by (apply (dw_wf _ (normalizeEntities_wf sample_declarations _ ltac:(vm_compute; reflexivity)))).
  destruct (memory_run_repr accepted_entities s0 [] (-1) Hwf (run_new _ _ _ _ H0)) as [He Hr].
  apply (m_applyBlock_spec _ _ _ _ _ _ _ Hr) in Happ as (b & Had & ->). exists [b]. split; [exact (memory_repr_apply _ _ _ _ _ _ _ _ Hr Had)|]. split; [|exact He].
  destruct Had as (hash & ps & _ & _ & _ & _ & ->). by repeat constructor.
Qed.

Ltac admitted hash := eexists hash, _; split_and!; [vm_compute; reflexivity|apply (bool_decide_unpack _); vm_compute; exact I|apply (bool_decide_unpack _); vm_compute; exact I|vm_compute; reflexivity|reflexivity].

Definition sample_key (n : string) : string := "Holder" +:+ String SEPARATOR (n +:+ String SEPARATOR "0xab").
Definition sample_id_of (n : Z) : EntityId := {["id" := IdNum n; "account" := IdText "0xab"]}.

Lemma sample_recorded :
  exists hs, records accepted_entities [] sample_snapshot hs
    /\ current hs (sample_key "1") = None /\ (current hs (sample_key "2") ≫= fun row => row !! "amount") = Some (VBigInt 300)
    /\ (as_of hs 8 (sample_key "1") ≫= fun row => row !! "amount") = Some (VBigInt 100) /\ current hs (sample_key "9") = None.
Proof.
  eexists. split.
  - eapply records_cons; [admitted "0xa7"|]. eapply records_cons; [admitted "0xa9"|]. constructor.
  - vm_compute. done.
Qed.

Lemma sample_fits : Forall (fun p => Forall (fitsIn accepted_entities) p.2) sample_snapshot.
Proof. repeat constructor; intros e [= <-]; cbn; repeat constructor; vm_compute; done. Qed.

Lemma sample_capabilities :
  match sample_before with
  | Ok s => capabilities (inner (bootstrapDocument plain (newAware s None) (chunked 200 sample_text) None None).1) = mkCapabilities Unbounded true false
  | Err _ => False
  end.
Proof. vm_compute. reflexivity. Qed.

Lemma installed_answers_as_recorded_witness :
  exists s w' answer, sample_before = Ok s /\ bootstrapDocument plain (newAware s None) (chunked 200 sample_text) None None = (w', None)
    /\ readCursor w' "sync" = Some "{}"
    /\ getCurrent w' "Holder" (sample_id_of 9) = Ok None /\ getCurrent w' "Holder" (sample_id_of 1) = Ok None
    /\ aw_getAsOf w' "Holder" (sample_id_of 1) 8 = Ok (Some answer) /\ answer !! "amount" = Some (VBigInt 100)
    /\ exists from, aw_getAsOf w' "Holder" (sample_id_of 1) 6 = Err (NotRetained 6 from).
Proof.
  pose proof sample_capabilities as Hc0. destruct sample_before as [s|e] eqn:Hs; [|done]. clear Hc0. destruct (sample_before_repr s Hs) as (h & Hr & Hpos & Hd).
  destruct sample_recorded as (hs & Hrec & Hcur1 & _ & Has1 & Hcur9). rewrite <- Hd in Hrec. pose proof sample_fits as Hfits. rewrite <- Hd in Hfits.
  destruct (installed_answers_as_recorded plain (newAware s None) sample_head sample_declarations sample_snapshot sample_text (chunked 200 sample_text) None (-1) h hs)
    as (w' & hs' & Hboot & _ & _ & Hcursor & Hreads);
    [exact Hr|exact Hpos|change (declarations (inner (newAware s None))) with (declarations s); rewrite Hd; vm_compute; reflexivity|vm_compute; reflexivity|exact Hfits|vm_compute; reflexivity|reflexivity|exact Hrec|].
  change (declarations (inner (newAware s None))) with (declarations s) in Hreads. rewrite Hd in Hreads.
  assert (exists e, jm_get accepted_entities "Holder" = Some e /\ e = mkEntity "Holder" ["id"; "account"] [("amount", U256Field blob)] (Some ("Token", "holders"))) as (e & He & Hedef)
    by (eexists; split; vm_compute; reflexivity).
  assert (forall n, n = 9 \/ n = 1 -> entityKey e (sample_id_of n) = Ok (sample_key (pretty n))) as Hkey
    by (rewrite Hedef; intros n [-> | ->]; vm_compute; reflexivity).
  destruct (Hreads "Holder" e (sample_id_of 9) _ He (Hkey 9 (or_introl eq_refl))) as [H9 _].
  destruct (Hreads "Holder" e (sample_id_of 1) _ He (Hkey 1 (or_intror eq_refl))) as [H1 Hat].
  pose proof (Hat 8 ltac:(lia)) as H8. pose proof (Hat 6 ltac:(lia)) as H6. rewrite decide_True in H6 by (vm_compute; reflexivity). rewrite decide_False in H8 by (vm_compute; discriminate).
  change (pretty 9) with "9" in *. change (pretty 1) with "1" in *.
  rewrite Hcur9 in H9. rewrite Hcur1 in H1.
  destruct (as_of hs 8 (sample_key "1")) as [row|] eqn:Hrow; [|discriminate Has1].
  assert (capabilities (inner w') = mkCapabilities Unbounded true false) as Hcaps.
  { pose proof sample_capabilities as Hc. rewrite Hs in Hc. by rewrite Hboot in Hc. }
  rewrite Hcaps in H8. destruct H8 as (a & Ha & Hsame). exists s, w', a.
  refine (conj eq_refl (conj Hboot (conj (Hcursor "sync" "{}" eq_refl) (conj H9 (conj H1 (conj Ha (conj _ H6))))))).
  rewrite Hsame; [exact Has1|]. rewrite Hedef. apply (bool_decide_unpack _). by vm_compute.
Defined.

(** The floor block, and then nothing. *)
Definition sample_broken (expected : option entities_map) : BlockStream :=
  mkStream [mkSnapshotBlock (mkPointer 7 "0xa7" 1007) [sample_item 1 100; sample_item 2 200] false] (Some NotJson).

Lemma sample_broken_floor :
  match sample_before with
  | Ok s => origin (bootstrap (newAware s None) (sample_head, sample_broken) None).1 = Some 7 /\ readCursor s "sync" = Some "old"
  | Err _ => False
  end.
Proof. vm_compute. done. Qed.

Lemma install_whole_or_cursorless_witness :
  exists s w' outcome, sample_before = Ok s /\ readCursor s "sync" = Some "old"
    /\ bootstrap (newAware s None) (sample_head, sample_broken) None = (w', outcome)
    /\ readCursor (inner w') "sync" = None /\ openSnapshotAware (inner w') = Ok (newAware (inner w') (Some 7)).
Proof.
  pose proof sample_broken_floor as Hfl. destruct sample_before as [s|e] eqn:Hs; [|done]. destruct Hfl as [Hfl Hold].
  destruct (sample_before_repr s Hs) as (h & Hr & Hpos & _).
  pose proof (install_whole_or_cursorless (newAware s None) sample_head sample_broken None (-1) h Hr Hpos) as Hinstall. cbv zeta in Hinstall.
  destruct (bootstrap (newAware s None) (sample_head, sample_broken) None) as [w' outcome] eqn:Hboot. cbn [fst] in Hfl.
  exists s, w', outcome. split; [reflexivity|]. split; [exact Hold|]. split; [exact Hboot|].
  destruct Hinstall as [[-> _]|(landed & later & hs & Hy & _ & _ & _ & Hopen & Hc & _)]; [discriminate Hfl|]. split; [|exact Hopen].
  rewrite (Hc "sync" "{}" eq_refl). destruct landed as [|b [|]]; [reflexivity| |discriminate Hy]. injection Hy as <- _. reflexivity.
Defined.

(** The document installed, a block recorded above it, a prune, and the store opened again. *)
Definition sample_reopened : option (SnapshotAwareStateStore MemoryStateStore) :=
  match sample_before with
  | Err _ => None
  | Ok s =>
      match aw_applyBlock (bootstrapDocument plain (newAware s None) (chunked 200 sample_text) None None).1
              (mkPointer 12 "0xc1" 1012) [sample_item 1 500] None with
      | Err _ => None
      | Ok w => match aw_prune w None with
                | Err _ => None
                | Ok p => match openSnapshotAware (inner p.1) with Ok w => Some w | Err _ => None end
                end
      end
  end.

Lemma sample_installs :
  match sample_before with
  | Ok s => (bootstrapDocument plain (newAware s None) (chunked 200 sample_text) None None).2 = None
  | Err _ => False
  end.
Proof. vm_compute. reflexivity. Qed.

