(* ===== verification/SqlTables.v ===== *)
(** * The tables of the SQL store

    [packages/state-store-sqlite]: the tables [ddl.ts] creates for one generation, the
    statements [statements.ts] builds, and what each of them does to the tables.  A batch is
    one transaction: a constraint that fails undoes all of it. *)
From S2P Require Import Prelude JsMap Entities Listing StoreSpec.

(** ** The tables *)

(** A row of an entity table, in the order of [ddlForEntity]'s columns. *)
Record VersionRow : Type := mkVersionRow {
  vr_rowid : Z;
  vr_id : list string;
  vr_cells : list Value;
  vr_lower : Z;
  vr_upper : option Z
}.

(** [tb_sequence]: the highest rowid an [AUTOINCREMENT] table ever gave. *)
Record Table : Type := mkTable { tb_sequence : Z; tb_rows : list VersionRow }.

Record Tables : Type := mkTables {
  tb_entities : list (string * Table);
  tb_blocks : list BlockPointer;
  tb_cursor : list (string * string);
  tb_seam : list (string * SeamRecord);
  tb_writer : option string
}.

Definition with_entities (t : Tables) (entities : list (string * Table)) : Tables :=
  mkTables entities (tb_blocks t) (tb_cursor t) (tb_seam t) (tb_writer t).
Definition with_blocks (t : Tables) (blocks : list BlockPointer) : Tables :=
  mkTables (tb_entities t) blocks (tb_cursor t) (tb_seam t) (tb_writer t).
Definition with_cursor (t : Tables) (cursor : list (string * string)) : Tables :=
  mkTables (tb_entities t) (tb_blocks t) cursor (tb_seam t) (tb_writer t).
Definition with_seam (t : Tables) (seam : list (string * SeamRecord)) : Tables :=
  mkTables (tb_entities t) (tb_blocks t) (tb_cursor t) seam (tb_writer t).
Definition with_writer (t : Tables) (writer : option string) : Tables :=
  mkTables (tb_entities t) (tb_blocks t) (tb_cursor t) (tb_seam t) writer.

(** ** Statements *)

(** A predicate a write is conditional on: the writer row holds the token, no block is
    recorded above the height. *)
Inductive Guard : Type :=
  | WriterGuard (token : string)
  | AboveTipGuard (height : Z).

Inductive Statement : Type :=
  (* INSERT INTO blocks (number, hash, timestamp) SELECT ?, ?, ? WHERE guards *)
  | InsertBlock (block : BlockPointer) (guards : list Guard)
  (* UPDATE entity SET _upper = ? WHERE id = ? AND _upper IS NULL AND guards *)
  | CloseVersion (entity : string) (block : Z) (id : list string) (guards : list Guard)
  (* INSERT INTO entity (id, fields, _lower) SELECT ?, ?, ? WHERE guards *)
  | InsertVersion (entity : string) (id : list string) (cells : list Value) (block : Z) (guards : list Guard)
  (* DELETE FROM entity WHERE _lower > ? AND guards *)
  | DeleteVersionsAbove (entity : string) (keepUpTo : Z) (guards : list Guard)
  (* UPDATE entity SET _upper = NULL WHERE _upper > ? AND guards *)
  | ReopenVersions (entity : string) (keepUpTo : Z) (guards : list Guard)
  (* DELETE FROM blocks WHERE number > ? AND guards *)
  | DeleteBlocksAbove (keepUpTo : Z) (guards : list Guard)
  (* INSERT INTO seam (key, value) SELECT 'revertSequence', '1' WHERE guards
     ON CONFLICT(key) DO UPDATE SET value = CAST(CAST(value AS INTEGER) + 1 AS TEXT) *)
  | BumpRevertSequence (guards : list Guard)
  (* DELETE FROM entity WHERE _rowid IN (?) AND guards *)
  | DropVersions (entity : string) (rowids : list Z) (guards : list Guard)
  (* INSERT INTO cursor (key, value) SELECT ?, ? WHERE guards ON CONFLICT(key) DO UPDATE SET value = excluded.value *)
  | WriteCursor (key value : string) (guards : list Guard)
  (* DELETE FROM cursor WHERE key = ? AND guards *)
  | ClearCursor (key : string) (guards : list Guard)
  | WriteSeamRecord (key : string) (value : SeamRecord) (guards : list Guard)
  | ClearSeamRecord (key : string) (guards : list Guard)
  (* INSERT INTO writer (id, token) VALUES (0, ?) ON CONFLICT(id) DO UPDATE SET token = excluded.token *)
  | ClaimWriter (token : string)
  (* SELECT token FROM writer WHERE id = 0 *)
  | HeldWriter
  (* SELECT number, hash, timestamp FROM blocks ORDER BY number DESC LIMIT 1 *)
  | LatestBlock.

(** What a statement answers. *)
Inductive Answer : Type :=
  | NoRows
  | BlockAnswer (found : option BlockPointer)
  | TokenAnswer (found : option string).

Inductive SqlError : Type :=
  | NoSuchTable (name : string)
  | PrimaryKeyTaken (number : Z)
  | HashTaken (hash : string)
  | OpenVersionTaken (entity : string).

(** [COALESCE((SELECT token FROM writer WHERE id = 0), '') = ?] and
    [NOT EXISTS (SELECT 1 FROM blocks WHERE number > ?)] *)
Definition guard_holds (t : Tables) (g : Guard) : bool :=
  match g with
  | WriterGuard token => bool_decide (default "" (tb_writer t) = token)
  | AboveTipGuard height => forallb (fun b => negb (bool_decide (height < bp_number b))) (tb_blocks t)
  end.

Definition latestBlock (blocks : list BlockPointer) : option BlockPointer :=
  foldl (fun tip b => match tip with
    | Some t => if decide (bp_number t < bp_number b) then Some b else Some t
    | None => Some b
    end) None blocks.

(** [CAST(? AS INTEGER)]: the longest run of leading digits; every value ever written
    under the key is one. *)
Fixpoint castDigits (acc : Z) (s : string) : Z :=
  match s with
  | String c s =>
      let d := Z.of_nat (nat_of_ascii c) - 48 in
      if decide (0 <= d <= 9) then castDigits (10 * acc + d) s else acc
  | EmptyString => acc
  end.

Definition castInteger (record : SeamRecord) : Z :=
  match record with RecordText value => castDigits 0 value | PruneRecord _ => 0 end.

(** ** What a statement does to a table *)
Definition is_open (r : VersionRow) : bool := match vr_upper r with None => true | Some _ => false end.

Definition set_upper (r : VersionRow) (upper : option Z) : VersionRow :=
  mkVersionRow (vr_rowid r) (vr_id r) (vr_cells r) (vr_lower r) upper.

Definition closeRows (block : Z) (id : list string) (rows : list VersionRow) : list VersionRow :=
  (fun r => if decide (vr_id r = id /\ is_open r = true) then set_upper r (Some block) else r) <$> rows.

Definition reopenRows (keepUpTo : Z) (rows : list VersionRow) : list VersionRow :=
  (fun r => match vr_upper r with
    | Some u => if decide (keepUpTo < u) then set_upper r None else r
    | None => r
    end) <$> rows.

(** The unique index over the ids of the open versions. *)
Definition open_unique (rows : list VersionRow) : bool := bool_decide (NoDup (vr_id <$> filter (fun r => is_open r = true) rows)).

(** A write to an entity's table, where the guards hold; a table that is not there is an
    error whether they do or not. *)
Definition on_table (t : Tables) (guards : list Guard) (entity : string) (f : Table -> result SqlError Table) : result SqlError Tables :=
  match jm_get (tb_entities t) entity with
  | None => Err (NoSuchTable entity)
  | Some table =>
      if forallb (guard_holds t) guards then table ← f table; Ok (with_entities t (jm_set (tb_entities t) entity table))
      else Ok t
  end.

Definition write_statement (t : Tables) (s : Statement) : result SqlError Tables :=
  let guarded guards t' := if forallb (guard_holds t) guards then t' else Ok t in
  match s with
  | InsertBlock block guards => guarded guards
      (_ ← assert_or (bool_decide (bp_number block ∉ bp_number <$> tb_blocks t)) (PrimaryKeyTaken (bp_number block));
       _ ← assert_or (bool_decide (bp_hash block ∉ bp_hash <$> tb_blocks t)) (HashTaken (bp_hash block));
       Ok (with_blocks t (tb_blocks t ++ [block])))
  | CloseVersion entity block id guards =>
      on_table t guards entity (fun table => Ok (mkTable (tb_sequence table) (closeRows block id (tb_rows table))))
  | InsertVersion entity id cells block guards =>
      on_table t guards entity (fun table =>
        let rowid := tb_sequence table + 1 in
        let rows := tb_rows table ++ [mkVersionRow rowid id cells block None] in
        _ ← assert_or (open_unique rows) (OpenVersionTaken entity); Ok (mkTable rowid rows))
  | DeleteVersionsAbove entity keepUpTo guards =>
      on_table t guards entity (fun table => Ok (mkTable (tb_sequence table) (filter (fun r => ~ keepUpTo < vr_lower r) (tb_rows table))))
  | ReopenVersions entity keepUpTo guards =>
      on_table t guards entity (fun table =>
        let rows := reopenRows keepUpTo (tb_rows table) in
        _ ← assert_or (open_unique rows) (OpenVersionTaken entity); Ok (mkTable (tb_sequence table) rows))
  | DeleteBlocksAbove keepUpTo guards => guarded guards
      (Ok (with_blocks t (filter (fun b => ~ keepUpTo < bp_number b) (tb_blocks t))))
  | BumpRevertSequence guards => guarded guards
      (let next := match jm_get (tb_seam t) "revertSequence" with Some record => castInteger record + 1 | None => 1 end in
       Ok (with_seam t (jm_set (tb_seam t) "revertSequence" (RecordText (pretty next)))))
  | DropVersions entity rowids guards =>
      on_table t guards entity (fun table => Ok (mkTable (tb_sequence table) (filter (fun r => vr_rowid r ∉ rowids) (tb_rows table))))
  | WriteCursor key value guards => guarded guards (Ok (with_cursor t (jm_set (tb_cursor t) key value)))
  | ClearCursor key guards => guarded guards (Ok (with_cursor t (jm_delete (tb_cursor t) key)))
  | WriteSeamRecord key value guards => guarded guards (Ok (with_seam t (jm_set (tb_seam t) key value)))
  | ClearSeamRecord key guards => guarded guards (Ok (with_seam t (jm_delete (tb_seam t) key)))
  | ClaimWriter token => Ok (with_writer t (Some token))
  | HeldWriter | LatestBlock => Ok t
  end.

Definition answer_of (t : Tables) (s : Statement) : Answer :=
  match s with
  | HeldWriter => TokenAnswer (tb_writer t)
  | LatestBlock => BlockAnswer (latestBlock (tb_blocks t))
  | _ => NoRows
  end.

(** A batch: every statement in order, and their answers, or nothing. *)
Fixpoint run_batch (t : Tables) (statements : list Statement) : result SqlError (Tables * list Answer) :=
  match statements with
  | [] => Ok (t, [])
  | s :: statements =>
      t' ← write_statement t s;
      '(last, answers) ← run_batch t' statements;
      Ok (last, answer_of t s :: answers)
  end.
