(* ===== verification/SqlStore.v ===== *)
(** * The SQL store

    [VersionedStateStore] of [packages/state-store-sqlite/src/store.ts], and the statements
    it sends ([statements.ts]), over the tables of one generation.  Every write is a batch
    that only happens while the store still holds the writer row. *)
From S2P Require Import Prelude JsMap Entities Listing Retention StoreSpec Declarations SqlTables.

(** ** Building the statements *)
Definition cells_of (entity : NormalizedEntity) (stored : Values) : list Value :=
  (fun p => default VNull (stored !! p.1)) <$> entity_fields entity.

(** The body of the loop over the mutations. *)
Definition mutationStatements (entities : entities_map) (block : Z) (guards : list Guard) (mutation : Mutation)
    : result StoreError (list Statement) :=
  entity ← mustGet entities (mutation_entity mutation);
  values ← idValues entity (mutation_id mutation);
  match mutation with
  | Upsert _ _ row =>
      stored ← encodeFieldValues entity row;
      Ok [CloseVersion (entity_name entity) block values guards;
          InsertVersion (entity_name entity) values (cells_of entity stored) block guards]
  | Delete _ _ => Ok [CloseVersion (entity_name entity) block values guards]
  end.

Definition applyBlockStatements (entities : entities_map) (block : BlockPointer) (mutations : list Mutation)
    (cursor : option (string * string)) (writer : Guard) : result StoreError (list Statement) :=
  let guards := [writer; AboveTipGuard (bp_number block)] in
  hash ← normalizeBlockHash (bp_hash block);
  statements ← mapR (mutationStatements entities (bp_number block) guards) mutations;
  Ok (InsertBlock (mkPointer (bp_number block) hash (bp_timestamp block)) guards :: concat statements
      ++ match cursor with Some (key, value) => [WriteCursor key value guards] | None => [] end).

Definition revertToStatements (entities : entities_map) (keepUpTo : Z) (writer : Guard) : list Statement :=
  concat ((fun e => [DeleteVersionsAbove (entity_name e) keepUpTo [writer]; ReopenVersions (entity_name e) keepUpTo [writer]]) <$> entities.*2)
  ++ [DeleteBlocksAbove keepUpTo [writer]; BumpRevertSequence [writer]].

Definition closedBy (floor : Z) (r : VersionRow) : bool := match vr_upper r with Some u => bool_decide (u <= floor) | None => false end.

(** [ORDER BY _upper LIMIT ?] over the closed versions at or below the floor. *)
Definition prunableVersions (table : Table) (floor : Z) (limit : nat) : list Z :=
  vr_rowid <$> take limit (sort_on (fun r => default 0 (vr_upper r))
    (filter (fun r => closedBy floor r = true) (tb_rows table))).

(** ** The store *)

(** The handle and the tables it writes.  The token is drawn once, before the first write. *)
Record SqlStore : Type := mkSqlStore {
  q_entities : entities_map;
  q_maxRows : Z;
  q_provided : Retention;
  q_finalityDepth : option Z;
  q_token : string;
  q_claimed : bool;
  q_tables : Tables
}.

Definition with_tables (s : SqlStore) (claimed : bool) (t : Tables) : SqlStore :=
  mkSqlStore (q_entities s) (q_maxRows s) (q_provided s) (q_finalityDepth s) (q_token s) claimed t.

Definition SQLITE_INTERNAL_PREFIX : string := "sqlite_".

Definition assertStorableEntityNames (entities : entities_map) : bool :=
  forallb (fun e => negb (String.prefix SQLITE_INTERNAL_PREFIX (toLowerCase (entity_name e)))) entities.*2.

(** What a constructor refuses: declarations, an entity named for the database's own use,
    a retention. *)
Inductive OpenError : Type :=
  | RefusedDeclarations (e : DeclarationError)
  | ReservedEntityName
  | RefusedRetention (e : StoreError).

(** [migrate]: a table for every entity that has none; the fixed tables are there. *)
Definition q_migrate (s : SqlStore) : SqlStore :=
  let t := q_tables s in
  with_tables s (q_claimed s)
    (with_entities t (foldl (fun tables e =>
       if jm_has tables (entity_name e) then tables else jm_set tables (entity_name e) (mkTable 0 [])) (tb_entities t) (q_entities s).*2)).

(** The constructor over a database, then [migrate]. *)
Definition openSqlStore (t : Tables) (declarations : list EntityDeclaration) (setting : option RetentionSetting)
    (finalityDepth : option Z) (maxRows : Z) (token : string) : result OpenError SqlStore :=
  entities ← match normalizeEntities declarations with Ok entities => Ok entities | Err e => Err (RefusedDeclarations e) end;
  _ ← assert_or (assertStorableEntityNames entities) ReservedEntityName;
  provided ← match resolveRetention setting finalityDepth with Ok r => Ok r | Err e => Err (RefusedRetention e) end;
  Ok (q_migrate (mkSqlStore entities maxRows provided finalityDepth token false t)).

Definition noTables : Tables := mkTables [] [] [] [] None.

Definition q_capabilities (s : SqlStore) : StateStoreCapabilities :=
  mkCapabilities (q_provided s) (match q_provided s with RevertOnly => false | _ => true end) true.

Definition q_tip (s : SqlStore) : option Z := bp_number <$> latestBlock (tb_blocks (q_tables s)).

Definition q_guard (s : SqlStore) : Guard := WriterGuard (q_token s).

(** A guarded write: claim if this store has not, the statements, and whether the row was
    held at the end.  The batch is committed even where it is then refused. *)
Definition sendGuarded (s : SqlStore) (operation : string) (statements : list Statement)
    : SqlStore * result StoreError (list Answer) :=
  let claim := if q_claimed s then [] else [ClaimWriter (q_token s)] in
  match run_batch (q_tables s) (claim ++ statements ++ [HeldWriter]) with
  | Err _ => (s, Err SqlRefused)
  | Ok (t, results) =>
      let held := match last results with Some (TokenAnswer held) => held | _ => None end in
      if decide (held = Some (q_token s))
      then (with_tables s true t, Ok (take (length statements) (drop (length claim) results)))
      else (with_tables s (q_claimed s) t, Err (StoreWriterChangedError operation))
  end.

(** ** Writing *)
Definition q_applyBlock (s : SqlStore) (block : BlockPointer) (mutations : list Mutation) (cursor : option (string * string))
    : SqlStore * result StoreError unit :=
  match applyBlockStatements (q_entities s) block mutations cursor (q_guard s) with
  | Err e => (s, Err e)
  | Ok statements =>
      let '(s, results) := sendGuarded s "applyBlock" (LatestBlock :: statements) in
      (s, results ← results;
          match results with
          | BlockAnswer (Some tip) :: _ =>
              if decide (bp_number block <= bp_number tip) then Err (BlockNotAboveTip (bp_number block) (bp_number tip)) else Ok tt
          | _ => Ok tt
          end)
  end.

Definition unit_of {A} (r : result StoreError A) : result StoreError unit := match r with Ok _ => Ok tt | Err e => Err e end.

Definition q_revertTo (s : SqlStore) (keepUpTo : Z) : SqlStore * result StoreError unit :=
  let '(s, results) := sendGuarded s "revertTo" (revertToStatements (q_entities s) keepUpTo (q_guard s)) in (s, unit_of results).

Definition q_writeCursor (s : SqlStore) (key value : string) : SqlStore * result StoreError unit :=
  let '(s, results) := sendGuarded s "writeCursor" [WriteCursor key value [q_guard s]] in (s, unit_of results).
Definition q_clearCursor (s : SqlStore) (key : string) : SqlStore * result StoreError unit :=
  let '(s, results) := sendGuarded s "clearCursor" [ClearCursor key [q_guard s]] in (s, unit_of results).
Definition q_writeSeamRecord (s : SqlStore) (key : string) (value : SeamRecord) : SqlStore * result StoreError unit :=
  let '(s, results) := sendGuarded s "writeSeamRecord" [WriteSeamRecord key value [q_guard s]] in (s, unit_of results).
Definition q_clearSeamRecord (s : SqlStore) (key : string) : SqlStore * result StoreError unit :=
  let '(s, results) := sendGuarded s "clearSeamRecord" [ClearSeamRecord key [q_guard s]] in (s, unit_of results).

Definition q_readCursor (s : SqlStore) (key : string) : option string := jm_get (tb_cursor (q_tables s)) key.
Definition q_readSeamRecord (s : SqlStore) (key : string) : option SeamRecord := jm_get (tb_seam (q_tables s)) key.

(** ** Reading *)

(** A row as [SELECT *] answers it. *)
Definition columns_of (entity : NormalizedEntity) (r : VersionRow) : Values :=
  list_to_map (zip (declared_columns entity) ((VText <$> vr_id r) ++ vr_cells r)).

Definition selected (entity : NormalizedEntity) (r : VersionRow) : Values :=
  <["_upper" := match vr_upper r with Some u => VNum u | None => VNull end]>
    (<["_lower" := VNum (vr_lower r)]> (<["_rowid" := VNum (vr_rowid r)]> (columns_of entity r))).

(** [CURRENT_PREDICATE] and [AS_OF_PREDICATE] *)
Definition coversAt (at_ : Z) (r : VersionRow) : bool :=
  bool_decide (vr_lower r <= at_) && match vr_upper r with None => true | Some u => bool_decide (at_ < u) end.

Definition rows_of (s : SqlStore) (entity : string) : list VersionRow :=
  from_option tb_rows [] (jm_get (tb_entities (q_tables s)) entity).

(** [SELECT * ... WHERE id AND predicate LIMIT 1], decoded. *)
Definition q_read (s : SqlStore) (declaration : NormalizedEntity) (id : EntityId) (predicate : VersionRow -> bool)
    : result StoreError (option Values) :=
  values ← idValues declaration id;
  match find (fun r => bool_decide (vr_id r = values) && predicate r) (rows_of s (entity_name declaration)) with
  | None => Ok None
  | Some found => Some <$> decodeFieldValues declaration (selected declaration found)
  end.

Definition q_getCurrent (s : SqlStore) (entity : string) (id : EntityId) : result StoreError (option Values) :=
  declaration ← mustGet (q_entities s) entity; q_read s declaration id is_open.

Definition q_getAsOf (s : SqlStore) (entity : string) (id : EntityId) (at_ : Z) : result StoreError (option Values) :=
  declaration ← mustGet (q_entities s) entity;
  _ ← assertRetained (q_capabilities s) at_ (q_tip s);
  q_read s declaration id (coversAt at_).

(** [listStatement]: [ORDER BY id LIMIT limit + 1]. *)
Definition q_list (s : SqlStore) (declaration : NormalizedEntity) (prefix : EntityId) (limit : Z) (predicate : VersionRow -> bool)
    : result StoreError (Listing Values) :=
  values ← prefixValues declaration prefix;
  _ ← assertListingLimit declaration limit;
  let found := filter (fun r => (hasIdPrefix (vr_id r) values && predicate r) = true) (rows_of s (entity_name declaration)) in
  rows ← mapR (fun r => decodeFieldValues declaration (selected declaration r)) (take (Z.to_nat (limit + 1)) (sort_ids vr_id found));
  Ok (boundedListing rows limit).

Definition q_listCurrent (s : SqlStore) (entity : string) (prefix : EntityId) (limit : Z) : result StoreError (Listing Values) :=
  declaration ← mustGet (q_entities s) entity; q_list s declaration prefix limit is_open.

Definition q_listAsOf (s : SqlStore) (entity : string) (prefix : EntityId) (at_ limit : Z) : result StoreError (Listing Values) :=
  declaration ← mustGet (q_entities s) entity;
  _ ← assertRetained (q_capabilities s) at_ (q_tip s);
  q_list s declaration prefix limit (coversAt at_).

(** ** Pruning *)
Section Prune.
Context (floor : Z) (budget : option nat).

Definition within (deleted : nat) : bool := match budget with Some n => bool_decide (deleted < n)%nat | None => true end.

Definition pruneLimit (s : SqlStore) (deleted : nat) : nat :=
  let page := Z.to_nat (Z.max 1 (q_maxRows s - 1)) in
  match budget with Some n => Nat.min page (n - deleted) | None => page end.

(** The inner loop: a page of prunable versions a turn. *)
Fixpoint pruneEntity (fuel : nat) (s : SqlStore) (entity : NormalizedEntity) (deleted : nat) : SqlStore * result StoreError nat :=
  match fuel with
  | O => (s, Ok deleted)
  | S fuel =>
      if within deleted then
        match prunableVersions (default (mkTable 0 []) (jm_get (tb_entities (q_tables s)) (entity_name entity))) floor (pruneLimit s deleted) with
        | [] => (s, Ok deleted)
        | found =>
            match sendGuarded s "prune" [DropVersions (entity_name entity) found [q_guard s]] with
            | (s, Err e) => (s, Err e)
            | (s, Ok _) => pruneEntity fuel s entity (deleted + length found)
            end
        end
      else (s, Ok deleted)
  end.

Fixpoint pruneEntities (s : SqlStore) (entities : list NormalizedEntity) (deleted : nat) : SqlStore * result StoreError nat :=
  match entities with
  | [] => (s, Ok deleted)
  | entity :: entities =>
      match pruneEntity (S (length (rows_of s (entity_name entity)))) s entity deleted with
      | (s, Err e) => (s, Err e)
      | (s, Ok deleted) => pruneEntities s entities deleted
      end
  end.
End Prune.

Definition hasPrunableVersions (s : SqlStore) (floor : Z) : bool :=
  existsb (fun e => negb (bool_decide (prunableVersions (default (mkTable 0 []) (jm_get (tb_entities (q_tables s)) (entity_name e))) floor 1 = [])))
    (q_entities s).*2.

Definition q_prune (s : SqlStore) (maxVersions : option Z) : SqlStore * result StoreError PruneReport :=
  match pruneBudget maxVersions with
  | Err e => (s, Err e)
  | Ok budget =>
      match sendGuarded s "prune" [LatestBlock] with
      | (s, Err e) => (s, Err e)
      | (s, Ok results) =>
          let tip := match results with BlockAnswer (Some tip) :: _ => Some (bp_number tip) | _ => None end in
          match tip ≫= fun tip => retentionFloor (q_provided s) tip (q_finalityDepth s) with
          | None => (s, Ok (mkReport tip None 0 true))
          | Some floor =>
              match pruneEntities floor budget s (q_entities s).*2 0 with
              | (s, Err e) => (s, Err e)
              | (s, Ok deleted) =>
                  match sendGuarded s "prune" [WriteSeamRecord "retentionEnforcement" (PruneRecord floor) [q_guard s]] with
                  | (s, Err e) => (s, Err e)
                  | (s, Ok _) => (s, Ok (mkReport tip (Some floor) deleted (within budget deleted || negb (hasPrunableVersions s floor))))
                  end
              end
          end
      end
  end.

Definition q_readRetentionEnforcement (s : SqlStore) : RetentionEnforcement :=
  retentionEnforcementOf (q_provided s) (q_finalityDepth s) (q_tip s)
    (match q_readSeamRecord s "retentionEnforcement" with Some (PruneRecord floor) => Some floor | _ => None end).
