(* ===== verification/SqlLaws.v ===== *)
(** * The SQL store keeps the laws

    The tables of [SqlTables] under the statements of [SqlStore], as the history of the
    blocks recorded: what [StateStoreLaws] asks of a backend, and what the writer row is for. *)
From S2P Require Import Prelude JsMap Entities Listing Retention StoreSpec Seam Declarations Versions MemoryStore SqlTables SqlStore.

(** ** Batches *)
Lemma run_batch_app t l k :
  run_batch t (l ++ k) = '(t1, a) ← run_batch t l; '(t2, b) ← run_batch t1 k; Ok (t2, a ++ b).
Proof.
  revert t. induction l as [|s l IH]; intros t; cbn [app run_batch]; cbn [mbind result_bind].
  - by destruct (run_batch t k) as [[t2 b]|].
  - destruct (write_statement t s) as [t'|]; [|done]. cbn [mbind result_bind]. rewrite IH.
    destruct (run_batch t' l) as [[t1 a]|]; [|done]. cbn [mbind result_bind]. by destruct (run_batch t1 k) as [[t2 b]|].
Qed.

Lemma run_batch_length t l t' answers : run_batch t l = Ok (t', answers) -> length answers = length l.
Proof.
  revert t answers. induction l as [|s l IH]; intros t answers; cbn [run_batch]; [by intros [= <- <-]|].
  intros (t1 & _ & ([t2 a] & Hrun & [= <- <-])%bind_Ok)%bind_Ok. cbn [length]. f_equal. by eapply IH.
Qed.

(** Who holds the writer row is changed by a claim and nothing else. *)
Definition claims (s : Statement) : bool := match s with ClaimWriter _ => true | _ => false end.

Lemma on_table_writer t guards entity f t' : on_table t guards entity f = Ok t' -> tb_writer t' = tb_writer t.
Proof.
  unfold on_table. destruct (jm_get _ _); [|done]. destruct (forallb _ _); [|by intros [= <-]]. by intros (table & _ & [= <-])%bind_Ok.
Qed.

Lemma write_statement_writer t s t' : write_statement t s = Ok t' -> claims s = false -> tb_writer t' = tb_writer t.
Proof.
  unfold write_statement. intros Hw Hs. destruct s; try done; try (by eapply on_table_writer);
    try (destruct (forallb _ _); [|by injection Hw as <-]); try (by injection Hw as <-).
  by apply bind_Ok in Hw as (? & _ & (? & _ & [= <-])%bind_Ok).
Qed.

Lemma run_batch_writer t l t' answers : run_batch t l = Ok (t', answers) -> forallb (negb ∘ claims) l = true -> tb_writer t' = tb_writer t.
Proof.
  revert t answers. induction l as [|s l IH]; intros t answers; cbn [run_batch forallb]; [by intros [= <- <-]|].
  intros (t1 & Hw & ([t2 a] & Hrun & [= <- <-])%bind_Ok)%bind_Ok [Hs Hl]%andb_true_iff. rewrite (IH _ _ Hrun Hl).
  eapply write_statement_writer; [exact Hw|]. unfold compose in Hs. by destruct (claims s).
Qed.

(** ** A guarded batch of the store that holds the row *)
Definition held_tables (s : SqlStore) : Tables := with_writer (q_tables s) (Some (q_token s)).

Definition holds_writer (s : SqlStore) : Prop := q_claimed s = true -> tb_writer (q_tables s) = Some (q_token s).

Lemma claimed_batch s statements :
  holds_writer s ->
  exists claimed, run_batch (q_tables s) ((if q_claimed s then [] else [ClaimWriter (q_token s)]) ++ statements)
      = ('(t, answers) ← run_batch (held_tables s) statements; Ok (t, claimed ++ answers))
    /\ length claimed = length (if q_claimed s then [] else [ClaimWriter (q_token s)]).
Proof.
  intros Hheld. unfold holds_writer in Hheld. destruct (q_claimed s).
  - exists []. split; [|done]. cbn [app]. replace (held_tables s) with (q_tables s); [by destruct (run_batch (q_tables s) statements) as [[t a]|]|].
    unfold held_tables, with_writer. rewrite <- (Hheld eq_refl). by destruct (q_tables s).
  - exists [NoRows]. split; [|done]. done.
Qed.

Lemma sendGuarded_held s operation statements :
  holds_writer s -> forallb (negb ∘ claims) statements = true ->
  sendGuarded s operation statements = match run_batch (held_tables s) statements with
    | Ok (t, answers) => (with_tables s true t, Ok answers)
    | Err _ => (s, Err SqlRefused)
    end.
Proof.
  intros Hheld Hclaims. destruct (claimed_batch s (statements ++ [HeldWriter]) Hheld) as (claimed & Hrun & Hlen).
  unfold sendGuarded. rewrite Hrun, run_batch_app. destruct (run_batch (held_tables s) statements) as [[t answers]|] eqn:Hbatch; [|done].
  cbn [mbind result_bind run_batch write_statement answer_of]. rewrite app_assoc, last_snoc.
  rewrite (run_batch_writer _ _ _ _ Hbatch Hclaims). cbn [held_tables with_writer tb_writer]. rewrite decide_True by done.
  f_equal. f_equal. rewrite <- Hlen, <- app_assoc, drop_app_length. rewrite <- (run_batch_length _ _ _ _ Hbatch). by rewrite take_app_length.
Qed.

(** ** A store that lost the writer row *)
Definition statement_guards (s : Statement) : option (list Guard) :=
  match s with
  | InsertBlock _ guards | CloseVersion _ _ _ guards | InsertVersion _ _ _ _ guards | DeleteVersionsAbove _ _ guards
  | ReopenVersions _ _ guards | DeleteBlocksAbove _ guards | BumpRevertSequence guards | DropVersions _ _ guards
  | WriteCursor _ _ guards | ClearCursor _ guards | WriteSeamRecord _ _ guards | ClearSeamRecord _ guards => Some guards
  | ClaimWriter _ => Some []
  | HeldWriter | LatestBlock => None
  end.

Definition guarded_by (token : string) (s : Statement) : Prop :=
  match statement_guards s with Some guards => WriterGuard token ∈ guards | None => True end.

Lemma refused_guard t token guards :
  default "" (tb_writer t) <> token -> WriterGuard token ∈ guards -> forallb (guard_holds t) guards = false.
Proof.
  intros Hw Hin. destruct (forallb _ _) eqn:Hall; [|done]. rewrite forallb_forall in Hall.
  specialize (Hall _ (proj1 (list_elem_of_In _ _) Hin)). cbn [guard_holds] in Hall. by apply bool_decide_eq_true in Hall.
Qed.

Lemma refused_batch t token statements :
  default "" (tb_writer t) <> token -> Forall (guarded_by token) statements ->
  match run_batch t statements with Ok (t', _) => t' = t | Err _ => True end.
Proof.
  intros Hw. induction 1 as [|s statements Hs Hall IH]; [done|]. cbn [run_batch].
  assert (match write_statement t s with Ok t' => t' = t | Err _ => True end) as Hone.
  { assert (forall guards entity f, WriterGuard token ∈ guards -> match on_table t guards entity f with Ok t' => t' = t | Err _ => True end) as Htable.
    { intros guards entity f Hg. unfold on_table. destruct (jm_get _ _); [|done]. by rewrite (refused_guard t token). }
    unfold guarded_by in Hs. destruct s; cbn [statement_guards] in Hs; cbn [write_statement]; try (by apply Htable); try done;
      try (by rewrite (refused_guard t token)). by apply not_elem_of_nil in Hs. }
  destruct (write_statement t s) as [t'|]; [|done]. subst t'. cbn [mbind result_bind].
  destruct (run_batch t statements) as [[t2 a]|]; [|done]. exact IH.
Qed.

Definition superseded (s : SqlStore) : Prop := q_claimed s = true /\ default "" (tb_writer (q_tables s)) <> q_token s.

#[export] Instance superseded_dec s : Decision (superseded s).
Proof. unfold superseded. apply _. Defined.

Lemma superseded_send s operation statements :
  superseded s -> Forall (guarded_by (q_token s)) statements ->
  exists e, sendGuarded s operation statements = (s, Err e).
Proof.
  intros [Hc Hw] Hall. unfold sendGuarded. rewrite Hc. cbn [app]. rewrite run_batch_app. pose proof (refused_batch _ _ _ Hw Hall) as Hrun.
  destruct (run_batch (q_tables s) statements) as [[t answers]|]; [|by eexists]. subst t. cbn [mbind result_bind run_batch write_statement answer_of].
  rewrite last_snoc, decide_False by (intros Hh; by rewrite Hh in Hw). rewrite <- Hc. exists (StoreWriterChangedError operation). f_equal. unfold with_tables. by destruct s.
Qed.

Lemma mutationStatements_guarded entities block guards m statements token :
  WriterGuard token ∈ guards -> mutationStatements entities block guards m = Ok statements -> Forall (guarded_by token) statements.
Proof.
  intros Hg. unfold mutationStatements. intros (e & _ & (vs & _ & Hrest)%bind_Ok)%bind_Ok. destruct m.
  - apply bind_Ok in Hrest as (stored & _ & [= <-]). by repeat constructor.
  - injection Hrest as <-. by repeat constructor.
Qed.

Lemma applyBlockStatements_guarded entities block mutations cursor token statements :
  applyBlockStatements entities block mutations cursor (WriterGuard token) = Ok statements -> Forall (guarded_by token) statements.
Proof.
  unfold applyBlockStatements. intros (hash & _ & (ls & Hls & [= <-])%bind_Ok)%bind_Ok.
  constructor; [apply list_elem_of_here|]. apply Forall_app. split.
  - apply Forall_concat. apply mapR_Forall2 in Hls. induction Hls as [|m l ms ls Hm _ IH]; constructor; [|done].
    eapply mutationStatements_guarded; [|exact Hm]. apply list_elem_of_here.
  - destruct cursor as [[k v]|]; repeat constructor.
Qed.

Lemma revertToStatements_guarded entities keepUpTo token : Forall (guarded_by token) (revertToStatements entities keepUpTo (WriterGuard token)).
Proof.
  apply Forall_app. split; [|repeat constructor]. apply Forall_concat, Forall_fmap, Forall_forall. intros e _. repeat constructor.
Qed.

(** A store another handle took the writer row from changes nothing: whatever it tries to
    write, it throws and every table is as it was. *)
Theorem superseded_writes_nothing (s : SqlStore) :
  superseded s ->
  (forall block mutations cursor, exists e, q_applyBlock s block mutations cursor = (s, Err e))
  /\ (forall keepUpTo, exists e, q_revertTo s keepUpTo = (s, Err e))
  /\ (forall maxVersions, exists e, q_prune s maxVersions = (s, Err e))
  /\ (forall key value, exists e, q_writeCursor s key value = (s, Err e))
  /\ (forall key, exists e, q_clearCursor s key = (s, Err e))
  /\ (forall key value, exists e, q_writeSeamRecord s key value = (s, Err e))
  /\ (forall key, exists e, q_clearSeamRecord s key = (s, Err e)).
Proof.
  intros Hs. split_and!.
  - intros block mutations cursor. unfold q_applyBlock, q_guard. destruct (applyBlockStatements _ _ _ _ _) as [statements|e] eqn:Hst; [|by eexists].
    destruct (superseded_send s "applyBlock" (LatestBlock :: statements) Hs) as (e & ->); [|by exists e].
    constructor; [done|]. by eapply applyBlockStatements_guarded.
  - intros keepUpTo. unfold q_revertTo, q_guard. destruct (superseded_send s "revertTo" _ Hs (revertToStatements_guarded (q_entities s) keepUpTo _)) as (e & ->). by exists e.
  - intros maxVersions. unfold q_prune. destruct (pruneBudget maxVersions); [|by eexists].
    destruct (superseded_send s "prune" [LatestBlock] Hs) as (e & ->); [by repeat constructor|by exists e].
  - intros key value. unfold q_writeCursor, q_guard. edestruct superseded_send as (e & ->); [done|repeat constructor|by exists e].
  - intros key. unfold q_clearCursor, q_guard. edestruct superseded_send as (e & ->); [done|repeat constructor|by exists e].
  - intros key value. unfold q_writeSeamRecord, q_guard. edestruct superseded_send as (e & ->); [done|repeat constructor|by exists e].
  - intros key. unfold q_clearSeamRecord, q_guard. edestruct superseded_send as (e & ->); [done|repeat constructor|by exists e].
Qed.

(** ** The versions of one id *)
Definition version_of (e : NormalizedEntity) (r : VersionRow) : Version := mkVersion (columns_of e r) (vr_lower r) (vr_upper r).

Definition versions_in (e : NormalizedEntity) (vs : list string) (rows : list VersionRow) : list Version :=
  version_of e <$> filter (fun r => vr_id r = vs) rows.

Lemma NoDup_key_filter {A B} `{EqDecision B} (f : A -> B) (l : list A) b :
  NoDup (f <$> l) -> (length (filter (fun x => f x = b) l) <= 1)%nat.
Proof.
  induction l as [|a l IH]; [cbn; lia|]. csimpl. intros [Ha Hl]%NoDup_cons. rewrite filter_cons. case_decide as Hab; [|by apply IH].
  rewrite filter_Forall_nil; [cbn; lia|]. apply Forall_forall. intros x Hx Hxb. apply Ha. apply list_elem_of_fmap. exists x. split; [congruence|done].
Qed.

Lemma NoDup_key_counts {A B} `{EqDecision B} (f : A -> B) (l : list A) :
  (forall x, x ∈ l -> (length (filter (fun y => f y = f x) l) <= 1)%nat) -> NoDup (f <$> l).
Proof.
  induction l as [|a l IH]; intros Hall; [constructor|]. csimpl. apply NoDup_cons. split.
  - intros (x & Hx & Hin)%list_elem_of_fmap. specialize (Hall a (list_elem_of_here _ _)). rewrite filter_cons_True in Hall by done. cbn [length] in Hall.
    assert (x ∈ filter (fun y => f y = f a) l) as Hf by (by apply elem_of_filter_intro). destruct (filter _ l); [by apply not_elem_of_nil in Hf|cbn in Hall; lia].
  - apply IH. intros x Hx. specialize (Hall x ltac:(by right)). rewrite filter_cons in Hall. case_decide; [cbn in Hall; lia|done].
Qed.

Lemma filter_comm {A} (P Q : A -> Prop) `{!forall x, Decision (P x), !forall x, Decision (Q x)} (l : list A) : filter P (filter Q l) = filter Q (filter P l).
Proof. induction l as [|a l IH]; [done|]. rewrite !filter_cons. repeat case_decide; rewrite ?filter_cons; repeat case_decide; try done; by rewrite IH. Qed.

Lemma live_versions_in e vs rows :
  length (filter (fun v => is_live v = true) (versions_in e vs rows)) = length (filter (fun r => vr_id r = vs) (filter (fun r => is_open r = true) rows)).
Proof.
  unfold versions_in. rewrite filter_comm. induction (filter (fun r => vr_id r = vs) rows) as [|r l IH]; [done|]. csimpl. rewrite !filter_cons.
  change (is_live (version_of e r)) with (is_open r). destruct (is_open r); repeat case_decide; try done. cbn [length]. by rewrite IH.
Qed.

Lemma closeLive_map n vs :
  (length (filter (fun v => is_live v = true) vs) <= 1)%nat ->
  (fun v => if is_live v then mkVersion (v_values v) (v_lower v) (Some n) else v) <$> vs = closeLive n vs.
Proof.
  induction vs as [|v vs IH]; [done|]. rewrite filter_cons. csimpl. cbn [closeLive]. destruct (is_live v) eqn:Hv; case_decide; try done.
  - cbn [length]. intros Hlen. f_equal. assert (Forall (fun v => is_live v = false) vs) as Hall.
    { apply Forall_forall. intros x Hx. destruct (is_live x) eqn:Hl; [|done].
      assert (x ∈ filter (fun v => is_live v = true) vs) as Hf by (by apply elem_of_filter_intro).
      destruct (filter _ vs); [by apply not_elem_of_nil in Hf|cbn in Hlen; lia]. }
    clear -Hall. induction Hall as [|x l Hx _ IH]; [done|]. csimpl. by rewrite Hx, IH.
  - intros Hlen. f_equal. by apply IH.
Qed.

Lemma versions_close e n vs vs' rows :
  open_unique rows = true ->
  versions_in e vs' (closeRows n vs rows) = if decide (vs = vs') then closeLive n (versions_in e vs' rows) else versions_in e vs' rows.
Proof.
  intros Hu. apply bool_decide_eq_true in Hu. pose proof (NoDup_key_filter _ _ vs' Hu) as Hone. rewrite <- (live_versions_in e) in Hone.
  case_decide as Hvs.
  - subst vs'. rewrite <- closeLive_map by done. clear. unfold versions_in, closeRows. induction rows as [|r rows IH]; [done|]. csimpl. rewrite !filter_cons.
    destruct (decide (vr_id r = vs)) as [Hr|Hr].
    + assert (vr_id (if decide (vr_id r = vs /\ is_open r = true) then set_upper r (Some n) else r) = vs) as Hid by (by case_decide).
      rewrite decide_True by done. csimpl. rewrite IH. f_equal. change (is_live (version_of e r)) with (is_open r).
      destruct (is_open r); [by rewrite decide_True|by rewrite decide_False by (by intros [_ ?])].
    + rewrite (decide_False (P := vr_id r = vs /\ _)) by (by intros [? _]). by rewrite decide_False.
  - clear Hone Hu. unfold versions_in, closeRows. induction rows as [|r rows IH]; [done|]. csimpl. rewrite !filter_cons.
    destruct (decide (vr_id r = vs')) as [Hr|Hr].
    + rewrite (decide_False (P := vr_id r = vs /\ _)) by (intros [? _]; congruence). rewrite decide_True by done. csimpl. by rewrite IH.
    + rewrite decide_False; [done|]. case_decide; done.
Qed.

Lemma versions_app e vs rows rows' : versions_in e vs (rows ++ rows') = versions_in e vs rows ++ versions_in e vs rows'.
Proof. unfold versions_in. by rewrite filter_app, fmap_app. Qed.

Lemma open_close n vs rows :
  filter (fun r => is_open r = true) (closeRows n vs rows) = filter (fun r => vr_id r <> vs) (filter (fun r => is_open r = true) rows).
Proof.
  unfold closeRows. induction rows as [|r rows IH]; [done|]. csimpl. rewrite !filter_cons.
  destruct (decide (vr_id r = vs /\ is_open r = true)) as [[Hr Ho]|Hno].
  - rewrite decide_False by done. rewrite decide_True by done. rewrite filter_cons_False by (by intros ?). exact IH.
  - destruct (decide (is_open r = true)) as [Ho|Ho]; [|exact IH]. rewrite filter_cons_True by (intros ?; by apply Hno). by rewrite IH.
Qed.

(** After an id's version is closed, another may be opened. *)
Lemma open_unique_close n vs rows : open_unique rows = true -> open_unique (closeRows n vs rows) = true.
Proof.
  intros Hu. apply bool_decide_eq_true in Hu. apply bool_decide_eq_true. rewrite open_close. eapply sublist_NoDup; [exact Hu|]. apply sublist_fmap, sublist_filter.
Qed.

Lemma open_unique_insert n vs rows rowid cells :
  open_unique rows = true -> open_unique (closeRows n vs rows ++ [mkVersionRow rowid vs cells n None]) = true.
Proof.
  intros Hu. pose proof (open_unique_close n vs rows Hu) as Hc. apply bool_decide_eq_true in Hc. apply bool_decide_eq_true.
  rewrite filter_app, fmap_app. apply NoDup_app. split_and!; [done| |apply NoDup_singleton].
  intros x Hx ->%list_elem_of_singleton. rewrite open_close in Hx. apply list_elem_of_fmap in Hx as (r & Hr & [Hne _]%list_elem_of_filter). by apply Hne.
Qed.

(** ** A stored row *)
Lemma cells_lookup (e : NormalizedEntity) stored c :
  NoDup (entity_fields e).*1 ->
  (list_to_map (zip (entity_fields e).*1 (cells_of e stored)) : Values) !! c = if decide (c ∈ (entity_fields e).*1) then Some (default VNull (stored !! c)) else None.
Proof.
  unfold cells_of. intros _. induction (entity_fields e) as [|[f d] fields IH].
  { rewrite decide_False by apply not_elem_of_nil. done. }
  csimpl. destruct (decide (f = c)) as [->|Hne].
  - rewrite lookup_insert_eq, decide_True by left. done.
  - rewrite lookup_insert_ne by done. etrans; [exact IH|]. destruct (decide (c ∈ fields.*1)) as [Hin|Hin].
    + by rewrite decide_True by (by right).
    + rewrite decide_False; [done|]. by intros [->|?]%elem_of_cons.
Qed.

(** The columns an insert names, as [SELECT *] answers them, are the whole row. *)
Lemma columns_whole (e : NormalizedEntity) id stored rowid lower upper :
  NoDup (declared_columns e) -> length id = length (entity_id e) ->
  columns_of e (mkVersionRow rowid id (cells_of e stored) lower upper) = wholeRow e id stored.
Proof.
  intros Hnd Hlen. unfold columns_of. cbn [vr_id vr_cells]. unfold declared_columns in *. apply NoDup_app in Hnd as (Hids & Hdis & Hfields).
  rewrite zip_with_app by (by rewrite length_fmap). apply map_eq. intros c. rewrite list_to_map_app, lookup_union, cells_lookup, wholeRow_lookup by done.
  assert ((list_to_map (zip (entity_id e) (VText <$> id)) : Values) !! c = (list_to_map (reverse (zip (entity_id e) (VText <$> id))) : Values) !! c) as Hrev.
  { f_equal. apply list_to_map_proper; [|by rewrite reverse_Permutation]. assert ((zip (entity_id e) (VText <$> id)).*1 = entity_id e) as ->; [|done].
    apply fst_zip. rewrite length_fmap. lia. }
  rewrite Hrev. destruct (decide (c ∈ (entity_fields e).*1)) as [Hin|Hin].
  - assert ((list_to_map (reverse (zip_with pair (entity_id e) (VText <$> id))) : Values) !! c = None) as ->; [|done].
    rewrite <- Hrev. apply not_elem_of_list_to_map. intros Hc. apply (Hdis c); [|done].
    rewrite fst_zip in Hc by (rewrite length_fmap; lia). done.
  - apply (right_id_L None union).
Qed.

(** ** What a mutation's statements do *)
Definition planned_table (n : Z) (p : Planned) (table : Table) : Table :=
  let rows := closeRows n (pl_id p) (tb_rows table) in
  match pl_stored p with
  | Some stored => mkTable (tb_sequence table + 1) (rows ++ [mkVersionRow (tb_sequence table + 1) (pl_id p) (cells_of (pl_entity p) stored) n None])
  | None => mkTable (tb_sequence table) rows
  end.

Definition apply_table (n : Z) (tables : list (string * Table)) (p : Planned) : list (string * Table) :=
  match jm_get tables (entity_name (pl_entity p)) with
  | Some table => jm_set tables (entity_name (pl_entity p)) (planned_table n p table)
  | None => tables
  end.

Definition statements_of (n : Z) (guards : list Guard) (p : Planned) : list Statement :=
  CloseVersion (entity_name (pl_entity p)) n (pl_id p) guards
  :: match pl_stored p with Some stored => [InsertVersion (entity_name (pl_entity p)) (pl_id p) (cells_of (pl_entity p) stored) n guards] | None => [] end.

(** Building the statements of a mutation is planning it. *)
Lemma mutationStatements_plan entities n guards m :
  mutationStatements entities n guards m = (fun p => statements_of n guards p) <$> plan entities m.
Proof.
  unfold mutationStatements, plan. destruct (mustGet entities (mutation_entity m)) as [e|]; [|done]. cbn [mbind result_bind].
  destruct (idValues e (mutation_id m)) as [vs|] eqn:Hid; [|done]. cbn [mbind result_bind].
  assert (entityKey e (mutation_id m) = Ok (join SEPARATOR (entity_name e :: vs))) as Hkey by (unfold entityKey; by rewrite Hid).
  destruct m as [name id row|name id]; cbn [mutation_id] in *.
  - destruct (encodeFieldValues e row) as [stored|]; [|done]. cbn [fmap result_fmap mbind result_bind]. rewrite Hkey. done.
  - cbn [fmap result_fmap mbind result_bind]. rewrite Hkey. done.
Qed.

Lemma mapR_fmap {E A B C} (f : A -> result E B) (g : B -> C) (l : list A) :
  mapR (fun a => result_fmap _ _ g (f a)) l = result_fmap _ _ (list_fmap _ _ g) (mapR f l).
Proof. induction l as [|a l IH]; [done|]. cbn [mapR]. rewrite IH. destruct (f a); [|done]. by destruct (mapR f l). Qed.

Lemma applyBlockStatements_plan entities block mutations cursor writer :
  applyBlockStatements entities block mutations cursor writer =
    (hash ← normalizeBlockHash (bp_hash block); planned ← mapR (plan entities) mutations;
     let guards := [writer; AboveTipGuard (bp_number block)] in
     Ok (InsertBlock (mkPointer (bp_number block) hash (bp_timestamp block)) guards
         :: concat (statements_of (bp_number block) guards <$> planned)
         ++ match cursor with Some (key, value) => [WriteCursor key value guards] | None => [] end)).
Proof.
  unfold applyBlockStatements. destruct (normalizeBlockHash _); [|done]. cbn [mbind result_bind].
  set (build := statements_of (bp_number block) [writer; AboveTipGuard (bp_number block)]).
  assert (mapR (mutationStatements entities (bp_number block) [writer; AboveTipGuard (bp_number block)]) mutations
    = result_fmap _ _ (list_fmap _ _ build) (mapR (plan entities) mutations)) as ->; [|by destruct (mapR (plan entities) mutations)].
  rewrite <- (mapR_fmap (plan entities) build). apply mapR_ext. intros m _. apply mutationStatements_plan.
Qed.

(** The guards of a block hold until the end of its batch. *)
Definition admits_batch (t : Tables) (token : string) (n : Z) : Prop :=
  tb_writer t = Some token /\ Forall (fun b => bp_number b <= n) (tb_blocks t).

Lemma guards_hold t token n : admits_batch t token n -> forallb (guard_holds t) [WriterGuard token; AboveTipGuard n] = true.
Proof.
  intros [Hw Hb]. cbn [forallb guard_holds]. rewrite Hw, bool_decide_true by done. cbn [andb]. rewrite andb_true_r. apply forallb_forall.
  intros b Hin%list_elem_of_In. rewrite Forall_forall in Hb. specialize (Hb b Hin). by rewrite bool_decide_false by lia.
Qed.

(** What the database keeps of a table by itself: one open version an id, rowids given out
    in order. *)
Record table_ok (table : Table) : Prop := {
  to_open : open_unique (tb_rows table) = true;
  to_order : ascending vr_rowid (tb_rows table);
  to_given : Forall (fun r => 0 < vr_rowid r <= tb_sequence table) (tb_rows table);
  to_sequence : 0 <= tb_sequence table
}.

Lemma ascending_rowids (f : VersionRow -> VersionRow) rows :
  (forall r, vr_rowid (f r) = vr_rowid r) -> ascending vr_rowid rows -> ascending vr_rowid (f <$> rows).
Proof.
  intros Hf. unfold ascending. induction 1 as [|r rows Hrows IH Hr]; constructor; [done|]. apply Forall_fmap. eapply Forall_impl; [exact Hr|].
  intros x. cbn. by rewrite !Hf.
Qed.

Lemma given_rowids (f : VersionRow -> VersionRow) (P : Z -> Prop) rows :
  (forall r, vr_rowid (f r) = vr_rowid r) -> Forall (fun r => P (vr_rowid r)) rows -> Forall (fun r => P (vr_rowid r)) (f <$> rows).
Proof. intros Hf Hall. apply Forall_fmap. eapply Forall_impl; [exact Hall|]. intros r. cbn. by rewrite Hf. Qed.

Lemma planned_table_ok n p table : table_ok table -> table_ok (planned_table n p table).
Proof.
  intros [Ho Ha Hg Hs].
  assert (forall r, vr_rowid (if decide (vr_id r = pl_id p /\ is_open r = true) then set_upper r (Some n) else r) = vr_rowid r) as Hf by (intros r; by case_decide).
  pose proof (ascending_rowids _ _ Hf Ha) as Ha'. pose proof (given_rowids _ (fun n => 0 < n <= tb_sequence table) _ Hf Hg) as Hg'. unfold planned_table.
  destruct (pl_stored p); split; cbn [tb_rows tb_sequence]; try done; [by apply open_unique_insert| | |lia|by apply open_unique_close].
  - apply ascending_app. split_and!; [|exact Ha'|repeat constructor]. intros x y Hx ->%list_elem_of_singleton. cbn [vr_rowid].
    change (x ∈ closeRows n (pl_id p) (tb_rows table)) in Hx. unfold closeRows in Hx. rewrite Forall_forall in Hg'. specialize (Hg' x Hx). cbn in Hg'. lia.
  - apply Forall_app. split; [|repeat constructor; cbn; lia]. eapply Forall_impl; [exact Hg'|]. intros r. cbn. lia.
Qed.

Lemma revert_table_ok keep table :
  table_ok table -> open_unique (reopenRows keep (filter (fun r => ~ keep < vr_lower r) (tb_rows table))) = true ->
  table_ok (mkTable (tb_sequence table) (reopenRows keep (filter (fun r => ~ keep < vr_lower r) (tb_rows table)))).
Proof.
  intros [Ho Ha Hg Hs] Hu.
  assert (forall r, vr_rowid (match vr_upper r with Some u => if decide (keep < u) then set_upper r None else r | None => r end) = vr_rowid r) as Hf
    by (intros r; destruct (vr_upper r); [case_decide|]; done).
  split; cbn [tb_rows tb_sequence]; try done.
  - apply (ascending_rowids _ _ Hf). eapply ascending_sublist; [apply sublist_filter|done].
  - apply (given_rowids _ (fun n => 0 < n <= tb_sequence table) _ Hf). eapply Forall_sublist; [apply sublist_filter|done].
Qed.

Definition unique_tables (tables : list (string * Table)) : Prop := forall name table, jm_get tables name = Some table -> table_ok table.

Lemma unique_tables_set tables name table : unique_tables tables -> table_ok table -> unique_tables (jm_set tables name table).
Proof. intros Hu Ht name' table'. rewrite jm_get_set. case_decide; [by intros [= <-]|apply Hu]. Qed.

Lemma run_planned t token n p :
  admits_batch t token n -> unique_tables (tb_entities t) -> is_Some (jm_get (tb_entities t) (entity_name (pl_entity p))) ->
  exists answers, run_batch t (statements_of n [WriterGuard token; AboveTipGuard n] p) = Ok (with_entities t (apply_table n (tb_entities t) p), answers)
    /\ unique_tables (apply_table n (tb_entities t) p).
Proof.
  intros Hadm Hu [table Htable]. pose proof (Hu _ _ Htable) as Hok. pose proof (to_open _ Hok) as Hopen. unfold statements_of, apply_table. rewrite Htable. pose proof (planned_table_ok n p table Hok) as Hok'. unfold planned_table in *.
  cbn [run_batch write_statement]. unfold on_table at 1. rewrite Htable, (guards_hold t) by done. cbn [mbind result_bind].
  destruct (pl_stored p) as [stored|].
  - cbn [run_batch write_statement]. unfold on_table. cbn [with_entities tb_entities]. rewrite jm_get_set, decide_True by done.
    rewrite (guards_hold (with_entities t _)) by exact Hadm. cbn [mbind result_bind tb_rows tb_sequence].
    rewrite open_unique_insert by done. cbn [assert_or mbind result_bind]. eexists. split.
    + unfold with_entities. cbn [tb_entities tb_blocks tb_cursor tb_seam tb_writer]. by rewrite jm_set_set.
    + by apply unique_tables_set.
  - eexists. split; [done|]. by apply unique_tables_set.
Qed.

Lemma apply_table_keys n tables p name : is_Some (jm_get (apply_table n tables p) name) <-> is_Some (jm_get tables name).
Proof.
  unfold apply_table. destruct (jm_get tables (entity_name (pl_entity p))) as [table|] eqn:Ht; [|done]. rewrite jm_get_set. case_decide as Hn; [|done].
  subst name. rewrite Ht. done.
Qed.

Lemma run_planned_all token n planned : forall t,
  admits_batch t token n -> unique_tables (tb_entities t) -> Forall (fun p => is_Some (jm_get (tb_entities t) (entity_name (pl_entity p)))) planned ->
  exists answers, run_batch t (concat (statements_of n [WriterGuard token; AboveTipGuard n] <$> planned))
      = Ok (with_entities t (foldl (apply_table n) (tb_entities t) planned), answers)
    /\ unique_tables (foldl (apply_table n) (tb_entities t) planned).
Proof.
  induction planned as [|p planned IH]; intros t Hadm Hu Hall.
  - exists []. split; [|done]. cbn. f_equal. f_equal. by destruct t.
  - apply Forall_cons in Hall as [Hp Hall]. destruct (run_planned t token n p Hadm Hu Hp) as (answers & Hrun & Hu').
    destruct (IH (with_entities t (apply_table n (tb_entities t) p))) as (rest & Hrest & Hu''); [exact Hadm|exact Hu'| |].
    + eapply Forall_impl; [exact Hall|]. intros q Hq. by apply apply_table_keys.
    + cbn [fmap list_fmap concat]. rewrite run_batch_app, Hrun. cbn [mbind result_bind]. rewrite Hrest. cbn [mbind result_bind].
      eexists. split; [done|exact Hu''].
Qed.

(** ** The tables hold the history *)
Definition key_of (e : NormalizedEntity) (vs : list string) : string := join SEPARATOR (entity_name e :: vs).

Record planned_ok (entities : entities_map) (p : Planned) : Prop := {
  po_entity : jm_get entities (entity_name (pl_entity p)) = Some (pl_entity p);
  po_key : pl_key p = key_of (pl_entity p) (pl_id p);
  po_free : Forall (free_of SEPARATOR) (pl_id p);
  po_length : length (pl_id p) = length (entity_id (pl_entity p))
}.

Lemma plan_ok entities m p : entities_wf entities -> plan entities m = Ok p -> planned_ok entities p.
Proof.
  intros Hwf Hp. pose proof (plan_spec _ _ _ Hp) as (He & Hkey & _). pose proof (plan_id _ _ _ Hp) as Hid.
  pose proof (entities_names _ Hwf _ _ He) as Hname. split.
  - by rewrite Hname.
  - unfold entityKey in Hkey. rewrite Hid in Hkey. by injection Hkey as <-.
  - by eapply idValues_free.
  - by apply mapR_length in Hid.
Qed.

Lemma key_of_inj entities name e vs p :
  entities_wf entities -> jm_get entities name = Some e -> Forall (free_of SEPARATOR) vs -> planned_ok entities p ->
  pl_key p = key_of e vs <-> pl_entity p = e /\ pl_id p = vs.
Proof.
  intros Hwf He Hvs [Hpe Hpk Hpf Hpl]. pose proof (entities_names _ Hwf _ _ He) as Hname. rewrite Hpk. split; [|by intros [-> ->]].
  intros Heq. apply join_inj in Heq; try done.
  - injection Heq as Hn ->. split; [|done]. rewrite Hname in Hn. rewrite Hn in Hpe. congruence.
  - constructor; [by eapply entities_free|done].
  - constructor; [rewrite Hname; by eapply entities_free|done].
Qed.

Definition rows_in (tables : list (string * Table)) (name : string) : list VersionRow := from_option tb_rows [] (jm_get tables name).

Lemma apply_table_versions entities n tables p name e vs :
  declared_wf entities -> unique_tables tables -> jm_get entities name = Some e -> is_Some (jm_get tables name) ->
  Forall (free_of SEPARATOR) vs -> planned_ok entities p ->
  versions_in e vs (rows_in (apply_table n tables p) name) =
    if decide (pl_key p = key_of e vs) then applyVersion (versions_in e vs (rows_in tables name)) (n, pl_stored_row p)
    else versions_in e vs (rows_in tables name).
Proof.
  intros Hwf Hu He [table Ht] Hvs Hok. pose proof (dw_entity _ Hwf _ _ He) as [Hname _ _ _ Hdist _]. pose proof (key_of_inj entities name e vs p (dw_wf _ Hwf) He Hvs Hok) as Hkey.
  unfold apply_table. pose proof (to_open _ (Hu _ _ Ht)) as Hopen. unfold rows_in.
  assert (entity_name (pl_entity p) = name -> pl_entity p = e) as Hsame by (intros Heq; pose proof (po_entity _ _ Hok) as Hpe; rewrite Heq in Hpe; congruence).
  destruct (decide (entity_name (pl_entity p) = name)) as [Hn|Hn].
  - pose proof (Hsame Hn) as Hpe. rewrite Hn, Ht, jm_get_set, decide_True by done. cbn [from_option]. unfold planned_table, applyVersion, pl_stored_row. cbn [fst snd].
    destruct (decide (pl_id p = vs)) as [Hid|Hid].
    + rewrite decide_True by (by apply Hkey). destruct (pl_stored p) as [stored|]; cbn [tb_rows fmap option_fmap option_map].
      * rewrite versions_app, versions_close, decide_True by done. f_equal. unfold versions_in. rewrite filter_cons_True by done. csimpl. f_equal.
        unfold version_of. cbn [vr_lower vr_upper]. rewrite Hpe, columns_whole; [done|by eapply NoDup_fmap_1|]. rewrite <- Hpe. apply Hok.
      * by rewrite versions_close, decide_True, app_nil_r.
    + rewrite decide_False by (intros [_ ?]%Hkey; done). destruct (pl_stored p) as [stored|]; cbn [tb_rows].
      * rewrite versions_app, versions_close, decide_False by done. unfold versions_in at 2. rewrite filter_cons_False by done. apply app_nil_r.
      * by rewrite versions_close, decide_False.
  - rewrite decide_False by (intros [Hpe _]%Hkey; apply Hn; by rewrite Hpe). destruct (jm_get tables (entity_name (pl_entity p))) as [other|] eqn:Hother; [|done].
    by rewrite jm_get_set, decide_False.
Qed.

Lemma apply_tables_versions entities n name e vs planned : forall tables,
  declared_wf entities -> unique_tables tables -> jm_get entities name = Some e -> is_Some (jm_get tables name) ->
  Forall (free_of SEPARATOR) vs -> Forall (planned_ok entities) planned ->
  versions_in e vs (rows_in (foldl (apply_table n) tables planned) name) =
    foldl applyVersion (versions_in e vs (rows_in tables name)) ((fun p => (n, pl_stored_row p)) <$> filter (fun p => pl_key p = key_of e vs) planned).
Proof.
  induction planned as [|p planned IH]; intros tables Hwf Hu He Ht Hvs Hall; [done|]. apply Forall_cons in Hall as [Hp Hall]. cbn [foldl].
  assert (unique_tables (apply_table n tables p)) as Hu'.
  { unfold apply_table. destruct (jm_get tables (entity_name (pl_entity p))) as [table|] eqn:Htable; [|done]. apply unique_tables_set; [done|].
    apply planned_table_ok. by eapply Hu. }
  rewrite IH; [|done|exact Hu'|done|by apply apply_table_keys|done|done]. rewrite (apply_table_versions entities) by done. rewrite filter_cons. by case_decide.
Qed.

(** [floor]: what a prune may have dropped is unreachable from it up. *)
Record sql_repr (floor : Z) (s : SqlStore) (h : history) : Prop := {
  sr_declared : declared_wf (q_entities s);
  sr_history : history_wf (q_entities s) h;
  sr_token : q_token s <> "";
  sr_held : holds_writer s;
  sr_blocks : tb_blocks (q_tables s) = hb_block <$> h;
  sr_tables name e : jm_get (q_entities s) name = Some e -> is_Some (jm_get (tb_entities (q_tables s)) name);
  sr_open : unique_tables (tb_entities (q_tables s));
  sr_versions name e vs : jm_get (q_entities s) name = Some e -> Forall (free_of SEPARATOR) vs ->
    reachable floor (versions_in e vs (rows_in (tb_entities (q_tables s)) name)) = reachable floor (versions_of (stored_ops (key_of e vs) h));
  sr_rows name e : jm_get (q_entities s) name = Some e ->
    Forall (fun r => vr_lower r ∈ hb_number <$> h /\ Forall (free_of SEPARATOR) (vr_id r)) (rows_in (tb_entities (q_tables s)) name)
}.

Lemma latestBlock_ascending (h : history) : ascending hb_number h -> latestBlock (hb_block <$> h) = hb_block <$> last h.
Proof.
  induction h as [|b h IH] using rev_ind; intros Ha; [done|]. pose proof Ha as (Hlt & Hh & _)%ascending_app.
  unfold latestBlock in *. rewrite fmap_app, foldl_app, IH, last_snoc by done. csimpl. destruct (last h) as [b'|] eqn:Hl; [|done]. cbn [fmap option_fmap option_map].
  rewrite decide_True; [done|]. apply (Hlt b' b); [by apply last_Some_elem_of|left].
Qed.

Lemma apply_table_rows entities n planned name e : forall tables,
  jm_get entities name = Some e -> Forall (planned_ok entities) planned ->
  forall r, r ∈ rows_in (foldl (apply_table n) tables planned) name ->
    (exists r', r' ∈ rows_in tables name /\ vr_id r = vr_id r' /\ vr_lower r = vr_lower r') \/ (vr_lower r = n /\ Forall (free_of SEPARATOR) (vr_id r)).
Proof.
  induction planned as [|p planned IH]; intros tables He Hall r Hr; [left; by exists r|]. apply Forall_cons in Hall as [Hp Hall]. cbn [foldl] in Hr.
  destruct (IH _ He Hall r Hr) as [(r' & Hr' & Hid & Hlow)|Hnew]; [|by right].
  unfold apply_table in Hr'. destruct (jm_get tables (entity_name (pl_entity p))) as [table|] eqn:Ht; [|left; by exists r'].
  unfold rows_in in *. rewrite jm_get_set in Hr'. destruct (decide (entity_name (pl_entity p) = name)) as [Hn|Hn]; [|left; by exists r'].
  rewrite <- Hn, Ht. cbn [from_option] in *. unfold planned_table in Hr'.
  assert (forall r0, r0 ∈ closeRows n (pl_id p) (tb_rows table) -> exists r1, r1 ∈ tb_rows table /\ vr_id r0 = vr_id r1 /\ vr_lower r0 = vr_lower r1) as Hclose.
  { intros r0 (r1 & -> & Hr1)%list_elem_of_fmap. exists r1. split; [done|]. by case_decide. }
  destruct (pl_stored p); cbn [tb_rows] in Hr'; [apply elem_of_app in Hr' as [Hr'|Hr']|].
  - left. destruct (Hclose _ Hr') as (r1 & Hr1 & Hid1 & Hlow1). exists r1. by rewrite Hid, Hlow.
  - apply list_elem_of_singleton in Hr' as ->. right. cbn [vr_id vr_lower] in *. rewrite Hid, Hlow. split; [done|apply Hp].
  - left. destruct (Hclose _ Hr') as (r1 & Hr1 & Hid1 & Hlow1). exists r1. by rewrite Hid, Hlow.
Qed.

(** The tables after a block. *)
Definition block_tables (t : Tables) (b : HistoryBlock) (cursor : option (string * string)) : Tables :=
  mkTables (foldl (apply_table (hb_number b)) (tb_entities t) (hb_planned b)) (tb_blocks t ++ [hb_block b])
    (match cursor with Some (key, value) => jm_set (tb_cursor t) key value | None => tb_cursor t end) (tb_seam t) (tb_writer t).

Lemma planned_all_ok entities mutations planned : entities_wf entities -> mapR (plan entities) mutations = Ok planned -> Forall (planned_ok entities) planned.
Proof.
  intros Hwf Hplan. apply mapR_Forall2 in Hplan. induction Hplan as [|m p ms ps Hm _ IH]; constructor; [|done]. by eapply plan_ok.
Qed.

Lemma run_block floor s h block mutations cursor b statements :
  sql_repr floor s h -> admits (q_entities s) h block mutations b ->
  applyBlockStatements (q_entities s) block mutations cursor (q_guard s) = Ok statements ->
  exists answers, run_batch (held_tables s) statements = Ok (block_tables (held_tables s) b cursor, answers)
    /\ unique_tables (tb_entities (block_tables (held_tables s) b cursor)).
Proof.
  intros [Hdecl Hhist Htok Hheld Hblocks Htables Hopen Hversions Hrows] (hash & planned & Hn & Hnew & Hlow & Hplan & ->).
  rewrite applyBlockStatements_plan, Hn. cbn [mbind result_bind]. rewrite Hplan. cbn [mbind result_bind]. intros [= <-].
  set (t := held_tables s). set (n := bp_number block). set (recorded := mkPointer n hash (bp_timestamp block)).
  pose proof (planned_all_ok _ _ _ (dw_wf _ Hdecl) Hplan) as Hok.
  assert (admits_batch t (q_token s) n) as Hadm.
  { split; [done|]. cbn [t held_tables with_writer tb_blocks]. rewrite Hblocks. apply Forall_fmap. eapply Forall_impl; [exact Hlow|]. intros x. unfold hb_number, n. cbn. lia. }
  assert (admits_batch (with_blocks t (tb_blocks t ++ [recorded])) (q_token s) n) as Hadm'.
  { destruct Hadm as [Hw Hb]. split; [done|]. cbn [with_blocks tb_blocks]. apply Forall_app. split; [done|]. repeat constructor. cbn. lia. }
  unfold q_guard. cbn [run_batch write_statement]. rewrite (guards_hold t) by done.
  assert ((bp_number recorded ∉ bp_number <$> tb_blocks t) /\ (bp_hash recorded ∉ bp_hash <$> tb_blocks t)) as [Hnumber Hhash].
  { cbn [t held_tables with_writer tb_blocks]. rewrite Hblocks, <- !list_fmap_compose. split; [|exact Hnew]. intros (x & Heq & Hx)%list_elem_of_fmap.
    rewrite Forall_forall in Hlow. specialize (Hlow x Hx). unfold hb_number in Hlow. cbn in Heq. unfold n in Heq. lia. }
  rewrite !bool_decide_true by done.
  cbn [assert_or mbind result_bind]. rewrite run_batch_app.
  destruct (run_planned_all (q_token s) n planned (with_blocks t (tb_blocks t ++ [recorded])) Hadm') as (answers & Hrun & Hu); [exact Hopen| |].
  { eapply Forall_impl; [exact Hok|]. intros p Hp. eapply Htables, Hp. }
  rewrite Hrun. cbn [mbind result_bind]. destruct cursor as [[key value]|].
  - cbn [run_batch write_statement]. rewrite (guards_hold (with_entities _ _)) by exact Hadm'. cbn [mbind result_bind]. eexists. split; [reflexivity|exact Hu].
  - cbn [run_batch mbind result_bind]. eexists. split; [reflexivity|exact Hu].
Qed.

Lemma sql_repr_block floor s h block mutations cursor b claimed :
  sql_repr floor s h -> admits (q_entities s) h block mutations b ->
  unique_tables (tb_entities (block_tables (held_tables s) b cursor)) ->
  sql_repr floor (with_tables s claimed (block_tables (held_tables s) b cursor)) (h ++ [b]).
Proof.
  intros [Hdecl Hhist Htok Hheld Hblocks Htables Hopen Hversions Hrows] Had Hu. pose proof Had as (hash & planned & Hn & Hnew & Hlow & Hplan & ->).
  pose proof (planned_all_ok _ _ _ (dw_wf _ Hdecl) Hplan) as Hok. split; cbn [with_tables q_entities q_token q_tables]; try done.
  - by eapply history_wf_snoc.
  - cbn [block_tables tb_blocks held_tables with_writer]. by rewrite fmap_app, Hblocks.
  - intros name e He. specialize (Htables name e He). cbn [block_tables tb_entities held_tables with_writer]. clear -Htables. revert Htables.
    generalize (tb_entities (q_tables s)). induction planned as [|p ps IH]; intros tables Ht; [done|]. cbn [hb_planned foldl]. apply IH. by apply apply_table_keys.
  - intros name e vs He Hvs. cbn [block_tables tb_entities held_tables with_writer hb_planned]. rewrite (apply_tables_versions (q_entities s)) by (done || by eapply Htables).
    rewrite stored_ops_app, stored_ops_block. unfold versions_of. rewrite foldl_app. apply reachable_foldl. by apply Hversions.
  - intros name e He. apply Forall_forall. intros r Hr. rewrite fmap_app, elem_of_app.
    destruct (apply_table_rows (q_entities s) _ _ name e _ He Hok r Hr) as [(r' & Hr' & Hid & Hlower)|[Hlower Hfree]].
    + specialize (Hrows name e He). rewrite Forall_forall in Hrows. destruct (Hrows r' Hr') as [Hin Hf]. rewrite Hid, Hlower. split; [by left|done].
    + split; [|done]. right. rewrite Hlower. apply list_elem_of_here.
Qed.

Lemma guarded_no_claim token statements : Forall (guarded_by token) statements -> forallb (negb ∘ claims) statements = true.
Proof.
  intros Hall. apply forallb_forall. intros s Hs%list_elem_of_In. rewrite Forall_forall in Hall. specialize (Hall s Hs). unfold guarded_by in Hall.
  destruct s; try done. by apply not_elem_of_nil in Hall.
Qed.

Lemma sql_apply floor s h block mutations cursor :
  sql_repr floor s h ->
  (forall b, admits (q_entities s) h block mutations b ->
    exists s', q_applyBlock s block mutations cursor = (s', Ok tt) /\ sql_repr floor s' (h ++ [b]) /\ q_entities s' = q_entities s
      /\ tb_seam (q_tables s') = tb_seam (q_tables s) /\ forall key, q_readCursor s' key = cursor_after (q_readCursor s) cursor key)
  /\ (forall s', q_applyBlock s block mutations cursor = (s', Ok tt) -> exists b, admits (q_entities s) h block mutations b).
Proof.
  intros Hr. pose proof Hr as [Hdecl [Hasc Hhashes Hpl] Htok Hheld Hblocks Htables Hopen Hversions Hrows].
  assert (tb_blocks (held_tables s) = hb_block <$> h) as Hbl by done. split.
  - intros b Had. pose proof Had as (hash & planned & Hn & Hnew & Hlow & Hplan & Hb).
    destruct (applyBlockStatements (q_entities s) block mutations cursor (q_guard s)) as [statements|e] eqn:Hst.
    2:{ rewrite applyBlockStatements_plan, Hn in Hst. cbn [mbind result_bind] in Hst. rewrite Hplan in Hst. done. }
    destruct (run_block floor s h block mutations cursor b statements Hr Had Hst) as (answers & Hrun & Hu).
    unfold q_applyBlock. rewrite Hst, sendGuarded_held; [|done|apply (guarded_no_claim (q_token s)); constructor; [done|by eapply applyBlockStatements_guarded]].
    cbn [run_batch write_statement answer_of]. cbn [mbind result_bind]. rewrite Hrun. cbn [mbind result_bind]. rewrite Hbl, latestBlock_ascending by done.
    exists (with_tables s true (block_tables (held_tables s) b cursor)). split_and!; try done.
    + f_equal. destruct (last h) as [b'|] eqn:Hlast; [|done]. cbn [fmap option_fmap option_map]. rewrite decide_False; [done|].
      rewrite Forall_forall in Hlow. specialize (Hlow b' (last_Some_elem_of _ _ Hlast)). unfold hb_number in Hlow. lia.
    + by eapply sql_repr_block.
    + intros key. unfold q_readCursor, cursor_after. cbn [with_tables q_tables block_tables tb_cursor held_tables with_writer].
      destruct cursor as [[k v]|]; [|done]. by rewrite jm_get_set.
  - intros s' Happ. unfold q_applyBlock in Happ. destruct (applyBlockStatements (q_entities s) block mutations cursor (q_guard s)) as [statements|e] eqn:Hst; [|done].
    rewrite sendGuarded_held in Happ; [|done|apply (guarded_no_claim (q_token s)); constructor; [done|by eapply applyBlockStatements_guarded]].
    rewrite applyBlockStatements_plan in Hst. apply bind_Ok in Hst as (hash & Hn & (planned & Hplan & [= <-])%bind_Ok).
    cbn [run_batch] in Happ. cbn [write_statement answer_of] in Happ. cbn [mbind result_bind] in Happ.
    set (guards := [q_guard s; AboveTipGuard (bp_number block)]) in *. set (recorded := mkPointer (bp_number block) hash (bp_timestamp block)) in *.
    destruct (if forallb (guard_holds (held_tables s)) guards then _ else Ok (held_tables s)) as [t1|] eqn:Hins; [|done]. cbn [mbind result_bind] in Happ.
    destruct (run_batch t1 _) as [[t2 rest]|]; [|done]. cbn [mbind result_bind] in Happ. rewrite Hbl, latestBlock_ascending in Happ by done.
    assert (Forall (fun b => hb_number b < bp_number block) h) as Hlow.
    { destruct (last h) as [b'|] eqn:Hlast; [|apply last_None in Hlast as ->; constructor]. cbn [fmap option_fmap option_map] in Happ.
      destruct (decide (bp_number block <= bp_number (hb_block b'))) as [|Hgt]; [done|]. eapply Forall_impl; [by apply ascending_last_max|]. unfold hb_number. cbn. lia. }
    assert (forallb (guard_holds (held_tables s)) guards = true) as Hg.
    { apply guards_hold. split; [done|]. rewrite Hbl. apply Forall_fmap. eapply Forall_impl; [exact Hlow|]. unfold hb_number. cbn. lia. }
    rewrite Hg in Hins. apply bind_Ok in Hins as (u1 & _ & (u2 & Hnew%assert_or_Ok%bool_decide_eq_true & _)%bind_Ok).
    eexists. exists hash, planned. split_and!; try done. rewrite Hbl, <- list_fmap_compose in Hnew. exact Hnew.
Qed.

(** ** Reverting *)
Lemma on_table_held t guards entity f table :
  jm_get (tb_entities t) entity = Some table -> forallb (guard_holds t) guards = true ->
  on_table t guards entity f = (table ← f table; Ok (with_entities t (jm_set (tb_entities t) entity table))).
Proof. intros Ht Hg. unfold on_table. by rewrite Ht, Hg. Qed.

Definition revert_table (keep : Z) (table : Table) : Table :=
  mkTable (tb_sequence table) (reopenRows keep (filter (fun r => ~ keep < vr_lower r) (tb_rows table))).

Definition revert_tables (keep : Z) (tables : list (string * Table)) (names : list string) : list (string * Table) :=
  foldl (fun tables name => match jm_get tables name with Some table => jm_set tables name (revert_table keep table) | None => tables end) tables names.

Lemma revert_tables_get keep names : forall tables name, NoDup names ->
  jm_get (revert_tables keep tables names) name = if decide (name ∈ names) then revert_table keep <$> jm_get tables name else jm_get tables name.
Proof.
  unfold revert_tables. induction names as [|x names IH]; intros tables name Hnd; [by rewrite decide_False by apply not_elem_of_nil|].
  apply NoDup_cons in Hnd as [Hx Hnd]. cbn [foldl]. rewrite IH by done. destruct (decide (name ∈ names)) as [Hin|Hin].
  - rewrite (decide_True (P := name ∈ x :: names)) by (by right). assert (x <> name) by (by intros ->). destruct (jm_get tables x); [|done].
    by rewrite jm_get_set_ne.
  - destruct (decide (x = name)) as [->|Hne].
    + rewrite decide_True by left. destruct (jm_get tables name) as [table|] eqn:Ht; [|by rewrite Ht]. by rewrite jm_get_set_eq.
    + rewrite decide_False by (by intros [->|?]%elem_of_cons). destruct (jm_get tables x); [|done]. by rewrite jm_get_set_ne.
Qed.

Lemma writer_holds t token : tb_writer t = Some token -> forallb (guard_holds t) [WriterGuard token] = true.
Proof. intros Hw. cbn [forallb guard_holds]. by rewrite Hw, bool_decide_true. Qed.

Lemma run_reverts token keep names : forall t,
  tb_writer t = Some token -> NoDup names ->
  (forall name, name ∈ names -> exists table, jm_get (tb_entities t) name = Some table /\ open_unique (tb_rows (revert_table keep table)) = true) ->
  exists answers, run_batch t (concat ((fun name => [DeleteVersionsAbove name keep [WriterGuard token]; ReopenVersions name keep [WriterGuard token]]) <$> names))
    = Ok (with_entities t (revert_tables keep (tb_entities t) names), answers).
Proof.
  induction names as [|x names IH]; intros t Hw Hnd Hall.
  { exists []. cbn. by destruct t. }
  apply NoDup_cons in Hnd as [Hx Hnd]. destruct (Hall x) as (table & Ht & Hu); [left|].
  pose proof (fun t' => writer_holds t' token) as Hg.
  cbn [fmap list_fmap concat]. cbn [app run_batch write_statement]. rewrite (on_table_held t _ _ _ table) by (done || by apply Hg). cbn [mbind result_bind].
  rewrite (on_table_held (with_entities _ _) _ _ _ (mkTable (tb_sequence table) (filter (fun r => ~ keep < vr_lower r) (tb_rows table))))
    by (cbn [with_entities tb_entities]; (by rewrite jm_get_set_eq) || by apply Hg). cbn [mbind result_bind tb_rows tb_sequence].
  cbn [revert_table tb_rows] in Hu. rewrite Hu. cbn [assert_or mbind result_bind]. unfold with_entities. cbn [tb_entities tb_blocks tb_cursor tb_seam tb_writer]. rewrite jm_set_set.
  destruct (IH (with_entities t (jm_set (tb_entities t) x (revert_table keep table)))) as (answers & Hrun); [done|done| |].
  { intros name Hname. destruct (Hall name) as (table' & Ht' & Hu'); [by right|]. exists table'. split; [|done]. cbn [with_entities tb_entities].
    rewrite jm_get_set_ne; [done|]. by intros ->. }
  unfold with_entities, revert_table in Hrun. cbn [tb_entities tb_blocks tb_cursor tb_seam tb_writer] in Hrun. rewrite Hrun. cbn [mbind result_bind].
  eexists. do 3 f_equal. unfold revert_tables. cbn [foldl]. by rewrite Ht.
Qed.

Lemma versions_revert e vs keep rows :
  versions_in e vs (reopenRows keep (filter (fun r => ~ keep < vr_lower r) rows)) = revertVersions keep (versions_in e vs rows).
Proof.
  unfold versions_in, revertVersions, reopenRows. induction rows as [|r rows IH]; [done|]. rewrite !filter_cons.
  assert (vr_lower r <= keep <-> ~ keep < vr_lower r) as Hiff by lia.
  destruct (decide (keep < vr_lower r)) as [Hlow|Hlow].
  - rewrite (decide_False (P := ~ keep < vr_lower r)) by lia. rewrite IH. destruct (decide (vr_id r = vs)); [|done]. csimpl. rewrite filter_cons_False by (cbn; lia). done.
  - rewrite (decide_True (P := ~ keep < vr_lower r)) by lia. csimpl. rewrite filter_cons.
    assert (vr_id (match vr_upper r with Some u => if decide (keep < u) then set_upper r None else r | None => r end) = vr_id r) as Hid
      by (destruct (vr_upper r); [case_decide|]; done).
    rewrite Hid. destruct (decide (vr_id r = vs)) as [Hr|Hr]; [|exact IH]. csimpl. rewrite filter_cons_True by (cbn; lia). csimpl. rewrite IH. f_equal.
    unfold reopen, version_of. cbn [v_upper v_values v_lower]. destruct (vr_upper r) as [u|] eqn:Hu; [case_decide; [done|]|]; by rewrite Hu.
Qed.

Lemma live_last_count vs : live_last vs -> (length (filter (fun v => is_live v = true) vs) <= 1)%nat.
Proof.
  assert (forall l, Forall (fun v => is_live v = false) l -> filter (fun v => is_live v = true) l = []) as Hclosed.
  { intros l Hl. apply filter_Forall_nil. eapply Forall_impl; [exact Hl|]. intros v Hv. cbn. by rewrite Hv. }
  intros [l Hl|l v Hl Hv]; [by rewrite Hclosed; [cbn; lia|]|]. rewrite filter_app, Hclosed by done. rewrite filter_cons_True by done. cbn. lia.
Qed.

Lemma live_of_reachable floor vs : filter (fun v => is_live v = true) (reachable floor vs) = filter (fun v => is_live v = true) vs.
Proof.
  induction vs as [|v vs IH]; [done|]. rewrite reachable_cons. rewrite (filter_cons _ v vs). case_decide as Hv.
  - rewrite (live_reachable floor v Hv). rewrite filter_cons_True by done. by rewrite IH.
  - destruct (unreachable floor v); [done|]. by rewrite filter_cons_False.
Qed.

Lemma open_unique_versions e rows :
  (forall r, r ∈ rows -> (length (filter (fun v => is_live v = true) (versions_in e (vr_id r) rows)) <= 1)%nat) -> open_unique rows = true.
Proof.
  intros Hall. apply bool_decide_eq_true, NoDup_key_counts. intros r [_ Hr]%list_elem_of_filter. rewrite <- (live_versions_in e). by apply Hall.
Qed.

Lemma declared_names entities : declared_wf entities -> entity_name <$> entities.*2 = entities.*1 /\ NoDup (entities.*1).
Proof.
  intros Hwf. split; [|apply Hwf]. rewrite <- list_fmap_compose. apply list_fmap_ext. intros i [name e] Hi. cbn.
  apply (eo_name name), (dw_entity _ Hwf), jm_get_Some; [apply Hwf|by eapply list_elem_of_lookup_2].
Qed.

Definition revert_all (entities : entities_map) (keep : Z) (t : Tables) : Tables :=
  mkTables (revert_tables keep (tb_entities t) entities.*1) (filter (fun b => ~ keep < bp_number b) (tb_blocks t)) (tb_cursor t)
    (jm_set (tb_seam t) "revertSequence"
       (RecordText (pretty (match jm_get (tb_seam t) "revertSequence" with Some record => castInteger record + 1 | None => 1 end)))) (tb_writer t).

Lemma run_revert floor s h keep :
  sql_repr floor s h ->
  (forall name e table, jm_get (q_entities s) name = Some e -> jm_get (tb_entities (q_tables s)) name = Some table -> open_unique (tb_rows (revert_table keep table)) = true) ->
  q_revertTo s keep = (with_tables s true (revert_all (q_entities s) keep (held_tables s)), Ok tt).
Proof.
  intros [Hdecl Hhist Htok Hheld Hblocks Htables Hopen Hversions Hrows] Hu. destruct (declared_names _ Hdecl) as [Hnames Hnd].
  unfold q_revertTo, q_guard. rewrite sendGuarded_held; [|done|apply (guarded_no_claim (q_token s)), revertToStatements_guarded].
  unfold revertToStatements. rewrite run_batch_app.
  assert (concat ((fun e => [DeleteVersionsAbove (entity_name e) keep [WriterGuard (q_token s)]; ReopenVersions (entity_name e) keep [WriterGuard (q_token s)]]) <$> (q_entities s).*2)
    = concat ((fun name => [DeleteVersionsAbove name keep [WriterGuard (q_token s)]; ReopenVersions name keep [WriterGuard (q_token s)]]) <$> (q_entities s).*1)) as ->.
  { rewrite <- Hnames, <- (list_fmap_compose entity_name). done. }
  destruct (run_reverts (q_token s) keep (q_entities s).*1 (held_tables s)) as (answers & ->); [done|done| |].
  - intros name Hname. destruct (jm_get (q_entities s) name) as [e|] eqn:He; [|by apply jm_get_None in He].
    destruct (Htables name e He) as [table Ht]. exists table. split; [exact Ht|by eapply Hu].
  - cbn [mbind result_bind run_batch write_statement]. rewrite (writer_holds (with_entities _ _)) by done. cbn [mbind result_bind].
    by rewrite (writer_holds (with_blocks _ _)).
Qed.

Lemma revert_all_rows s keep name e :
  declared_wf (q_entities s) -> jm_get (q_entities s) name = Some e ->
  rows_in (tb_entities (revert_all (q_entities s) keep (held_tables s))) name = reopenRows keep (filter (fun r => ~ keep < vr_lower r) (rows_in (tb_entities (q_tables s)) name)).
Proof.
  intros Hdecl He. cbn [revert_all tb_entities held_tables with_writer]. unfold rows_in. rewrite revert_tables_get by apply Hdecl.
  rewrite decide_True. { by destruct (jm_get (tb_entities (q_tables s)) name). }
  apply jm_get_elem in He. by apply (list_elem_of_fmap_2 fst _ (name, e)).
Qed.

(** A revert no prune went above, or below every block. *)
Lemma sql_revert floor floor' s h keep :
  sql_repr floor s h -> (floor' = floor /\ floor <= keep) \/ Forall (fun b => keep < hb_number b) h ->
  exists s', q_revertTo s keep = (s', Ok tt) /\ sql_repr floor' s' (history_upto keep h) /\ q_entities s' = q_entities s /\ tb_cursor (q_tables s') = tb_cursor (q_tables s).
Proof.
  intros Hr Hcase. pose proof Hr as [Hdecl Hhist Htok Hheld Hblocks Htables Hopen Hversions Hrows].
  assert (forall name e vs, jm_get (q_entities s) name = Some e -> Forall (free_of SEPARATOR) vs ->
    reachable floor' (versions_in e vs (reopenRows keep (filter (fun r => ~ keep < vr_lower r) (rows_in (tb_entities (q_tables s)) name))))
    = reachable floor' (versions_of (stored_ops (key_of e vs) (history_upto keep h)))) as Hafter.
  { intros name e vs He Hvs. destruct Hcase as [[-> Hle]|Habove].
    - rewrite versions_revert, stored_ops_upto, <- revert_versions_of by (by eapply stored_ops_ascending). apply reachable_revert; [done|]. by apply Hversions.
    - assert (history_upto keep h = []) as ->.
      { apply filter_Forall_nil. eapply Forall_impl; [exact Habove|]. cbn. lia. }
      rewrite filter_Forall_nil; [done|]. eapply Forall_impl; [exact (Hrows name e He)|]. intros r [(b & Hlow & Hb)%list_elem_of_fmap _].
      rewrite Forall_forall in Habove. specialize (Habove b Hb). lia. }
  assert (forall name e table, jm_get (q_entities s) name = Some e -> jm_get (tb_entities (q_tables s)) name = Some table -> open_unique (tb_rows (revert_table keep table)) = true) as Huniq.
  { intros name e table He Ht. apply (open_unique_versions e). intros r Hin. cbn [revert_table tb_rows] in Hin |- *.
    assert (rows_in (tb_entities (q_tables s)) name = tb_rows table) as Hrt by (unfold rows_in; by rewrite Ht).
    assert (Forall (free_of SEPARATOR) (vr_id r)) as Hfree.
    { apply list_elem_of_fmap in Hin as (r' & -> & [_ Hr']%list_elem_of_filter). specialize (Hrows name e He). rewrite Hrt, Forall_forall in Hrows.
      destruct (Hrows r' Hr') as [_ Hf]. by destruct (vr_upper r'); [case_decide|]. }
    rewrite <- (live_of_reachable floor'), <- Hrt. rewrite (Hafter name e) by done. rewrite live_of_reachable. apply live_last_count, versions_of_live_last. }
  eexists. split; [by apply (run_revert floor s h keep Hr)|].
  split; [|done]. split; cbn [with_tables q_entities q_token q_tables]; try done.
    + by apply history_wf_upto.
    + cbn [revert_all tb_blocks held_tables with_writer]. rewrite Hblocks. unfold history_upto. apply filter_pairs. intros b _. unfold hb_number. lia.
    + intros name e He. cbn [revert_all tb_entities held_tables with_writer]. rewrite revert_tables_get by apply Hdecl. destruct (Htables name e He) as [table ->]. by case_decide.
    + intros name table. cbn [revert_all tb_entities held_tables with_writer]. rewrite revert_tables_get by apply Hdecl.
      case_decide as Hname; [|apply Hopen]. destruct (jm_get (tb_entities (q_tables s)) name) as [old|] eqn:Hold; [|done]. intros [= <-].
      apply list_elem_of_fmap in Hname as ([name' e] & Hn & Hin). cbn in Hn. subst name. apply jm_get_Some in Hin; [|apply Hdecl].
      apply revert_table_ok; [by eapply Hopen|by apply (Huniq name' e)].
    + intros name e vs He Hvs. rewrite (revert_all_rows s keep name e) by done. by apply Hafter.
    + intros name e He. rewrite (revert_all_rows s keep name e) by done. apply Forall_forall. intros r (r' & -> & [Hlow Hin]%list_elem_of_filter)%list_elem_of_fmap.
      specialize (Hrows name e He). rewrite Forall_forall in Hrows. destruct (Hrows r' Hin) as [(b & Hb & Hbh)%list_elem_of_fmap Hf].
      assert (vr_lower (match vr_upper r' with Some u => if decide (keep < u) then set_upper r' None else r' | None => r' end) = vr_lower r'
        /\ vr_id (match vr_upper r' with Some u => if decide (keep < u) then set_upper r' None else r' | None => r' end) = vr_id r') as [-> ->]
        by (destruct (vr_upper r'); [case_decide|]; done).
      split; [|done]. apply list_elem_of_fmap. exists b. split; [done|]. apply elem_of_filter_intro; [lia|done].
Qed.

(** ** Writes beside the history *)
Lemma sql_repr_tables floor s h t claimed :
  sql_repr floor s h -> tb_entities t = tb_entities (q_tables s) -> tb_blocks t = tb_blocks (q_tables s) -> tb_writer t = Some (q_token s) ->
  sql_repr floor (with_tables s claimed t) h.
Proof.
  intros [Hdecl Hhist Htok Hheld Hblocks Htables Hopen Hversions Hrows] He Hb Hw. split; cbn [with_tables q_entities q_token q_tables]; rewrite ?He, ?Hb; try done.
  by intros _.
Qed.

(** A guarded write of the cursor or the records. *)
Lemma sql_send floor s h operation statement t :
  sql_repr floor s h -> claims statement = false -> write_statement (held_tables s) statement = Ok t ->
  tb_entities t = tb_entities (q_tables s) -> tb_blocks t = tb_blocks (q_tables s) ->
  exists answers, sendGuarded s operation [statement] = (with_tables s true t, Ok answers) /\ sql_repr floor (with_tables s true t) h.
Proof.
  intros Hr Hc Hw He Hb. rewrite sendGuarded_held; [|apply Hr|cbn [forallb]; unfold compose; by rewrite Hc].
  cbn [run_batch]. rewrite Hw. cbn [mbind result_bind]. eexists. split; [done|]. apply sql_repr_tables; [done..|].
  by rewrite (write_statement_writer _ _ _ Hw Hc).
Qed.

Lemma sql_keyed floor s h operation statement t :
  sql_repr floor s h -> claims statement = false -> write_statement (held_tables s) statement = Ok t ->
  tb_entities t = tb_entities (q_tables s) -> tb_blocks t = tb_blocks (q_tables s) ->
  (let '(s', results) := sendGuarded s operation [statement] in (s', unit_of results)) = (with_tables s true t, Ok tt) /\ sql_repr floor (with_tables s true t) h.
Proof. intros Hr Hc Hw He Hb. destruct (sql_send floor s h operation statement t Hr Hc Hw He Hb) as (answers & -> & Hr'). done. Qed.

Lemma held_guard s : forallb (guard_holds (held_tables s)) [q_guard s] = true.
Proof. by apply writer_holds. Qed.

Lemma sql_writeCursor floor s h key value :
  sql_repr floor s h -> let t := with_cursor (held_tables s) (jm_set (tb_cursor (q_tables s)) key value) in
  q_writeCursor s key value = (with_tables s true t, Ok tt) /\ sql_repr floor (with_tables s true t) h.
Proof. intros Hr. by apply (sql_keyed floor s h); [done|done|cbn [write_statement]; by rewrite held_guard|..]. Qed.

Lemma sql_clearCursor floor s h key :
  sql_repr floor s h -> let t := with_cursor (held_tables s) (jm_delete (tb_cursor (q_tables s)) key) in
  q_clearCursor s key = (with_tables s true t, Ok tt) /\ sql_repr floor (with_tables s true t) h.
Proof. intros Hr. by apply (sql_keyed floor s h); [done|done|cbn [write_statement]; by rewrite held_guard|..]. Qed.

Lemma sql_writeSeamRecord floor s h key value :
  sql_repr floor s h -> let t := with_seam (held_tables s) (jm_set (tb_seam (q_tables s)) key value) in
  q_writeSeamRecord s key value = (with_tables s true t, Ok tt) /\ sql_repr floor (with_tables s true t) h.
Proof. intros Hr. by apply (sql_keyed floor s h); [done|done|cbn [write_statement]; by rewrite held_guard|..]. Qed.

Lemma sql_clearSeamRecord floor s h key :
  sql_repr floor s h -> let t := with_seam (held_tables s) (jm_delete (tb_seam (q_tables s)) key) in
  q_clearSeamRecord s key = (with_tables s true t, Ok tt) /\ sql_repr floor (with_tables s true t) h.
Proof. intros Hr. by apply (sql_keyed floor s h); [done|done|cbn [write_statement]; by rewrite held_guard|..]. Qed.

(** ** Reads *)
Lemma find_versions e vs (f : Version -> bool) (p : VersionRow -> bool) rows :
  (forall r, f (version_of e r) = p r) ->
  find f (versions_in e vs rows) = version_of e <$> find (fun r => bool_decide (vr_id r = vs) && p r) rows.
Proof.
  intros Hf. unfold versions_in. induction rows as [|r rows IH]; [done|]. rewrite filter_cons. cbn [find]. case_bool_decide as Hr.
  - rewrite decide_True by done. csimpl. rewrite Hf. cbn [andb]. by destruct (p r).
  - rewrite decide_False by done. exact IH.
Qed.

Lemma q_read_answers floor s h entity e id key (f : Version -> bool) (p : VersionRow -> bool) l :
  sql_repr floor s h -> jm_get (q_entities s) entity = Some e -> entityKey e id = Ok key ->
  (forall r, f (version_of e r) = p r) -> l `sublist_of` ops key h ->
  (forall vs, key = key_of e vs -> Forall (free_of SEPARATOR) vs ->
     v_values <$> find f (versions_in e vs (rows_in (tb_entities (q_tables s)) entity)) = op_outcome (prod_map Datatypes.id pl_stored_row <$> l)) ->
  answers e (outcome l) (q_read s e id p).
Proof.
  intros [Hdecl Hhist Htok Hheld Hblocks Htables Hopen Hversions Hrows] He Hkey Hfp Hl Hfind.
  pose proof (dw_entity _ Hdecl _ _ He) as [Hname _ _ Hidents _ _].
  unfold q_read. pose proof Hkey as Hkey'. unfold entityKey in Hkey'. destruct (idValues e id) as [vs|] eqn:Hid; [|done]. injection Hkey' as Hkey'. cbn [mbind result_bind].
  specialize (Hfind vs (eq_sym Hkey') (idValues_free _ _ _ Hid)). rewrite (find_versions e vs f p) in Hfind by done.
  change (rows_of s (entity_name e)) with (rows_in (tb_entities (q_tables s)) (entity_name e)). rewrite Hname.
  refine (found_answers _ _ _ _ _ _ _ _ _ (dw_wf _ Hdecl) Hhist He Hkey Hl Hfind _ _);
    destruct (find (fun r => bool_decide (vr_id r = vs) && p r) _) as [r|]; try done.
  intros row [= <-]. exists (selected e r). split; [done|]. intros c Hc. destruct (entities_columns _ (dw_wf _ Hdecl) _ _ c He Hc) as [Hlo Hup].
  unfold selected. rewrite !lookup_insert_ne; [done|..]; try done. intros <-. rewrite Forall_forall in Hidents. destruct (Hidents _ Hc) as [Hres _]. done.
Qed.

Lemma sql_getCurrent floor s h entity e id key :
  sql_repr floor s h -> jm_get (q_entities s) entity = Some e -> entityKey e id = Ok key -> answers e (current h key) (q_getCurrent s entity id).
Proof.
  intros Hr He Hkey. unfold q_getCurrent, mustGet. rewrite He. cbn [mbind result_bind].
  apply (q_read_answers floor s h entity e id key is_live is_open (ops key h)); try done.
  intros vs -> Hvs. rewrite (find_live_reachable floor _ _ (sr_versions _ _ _ Hr entity e vs He Hvs)). apply find_live.
Qed.

Lemma sql_getAsOf floor s h entity e id key at_ :
  sql_repr floor s h -> jm_get (q_entities s) entity = Some e -> entityKey e id = Ok key -> floor <= at_ ->
  match assertRetained (q_capabilities s) at_ (hb_number <$> last h) with
  | Ok _ => answers e (as_of h at_ key) (q_getAsOf s entity id at_)
  | Err error => q_getAsOf s entity id at_ = Err error
  end.
Proof.
  intros Hr He Hkey Hle. unfold q_getAsOf, mustGet. rewrite He. cbn [mbind result_bind].
  assert (q_tip s = hb_number <$> last h) as ->.
  { unfold q_tip. rewrite (sr_blocks _ _ _ Hr), latestBlock_ascending by apply (sr_history _ _ _ Hr). by destruct (last h). }
  destruct (assertRetained _ _ _); [|done]. cbn [mbind result_bind].
  apply (q_read_answers floor s h entity e id key (covers at_) (coversAt at_) (filter (fun q => q.1 <= at_) (ops key h))); try done; [apply sublist_filter|].
  intros vs -> Hvs. rewrite (find_covers_reachable floor at_ _ _ Hle (sr_versions _ _ _ Hr entity e vs He Hvs)), find_covers.
  - rewrite <- ops_upto. by rewrite <- stored_ops_upto.
  - eapply stored_ops_ascending, Hr.
Qed.

(** ** The SQL store is a state store *)

(** What is left of a write that threw is lost to its caller, who sees the error. *)
Definition thrown {A B} (answer : A * result StoreError B) : result StoreError A :=
  match answer with (s, Ok _) => Ok s | (_, Err e) => Err e end.

#[export] Instance sql_store : StateStore SqlStore := {
  declarations := q_entities;
  applyBlock s block mutations cursor := thrown (q_applyBlock s block mutations cursor);
  revertTo s keepUpTo := thrown (q_revertTo s keepUpTo);
  getCurrent := q_getCurrent;
  readCursor := q_readCursor;
  writeCursor s key value := (q_writeCursor s key value).1;
  clearCursor s key := (q_clearCursor s key).1
}.

Lemma thrown_Ok {A} (answer : A * result StoreError unit) s : thrown answer = Ok s -> answer = (s, Ok tt).
Proof. destruct answer as [s' [[]|]]; [by intros [= <-]|done]. Qed.

#[export] Program Instance sql_store_laws : StateStoreLaws SqlStore := { repr := sql_repr }.
Next Obligation. intros floor s h Hr. split; [apply Hr|apply (dw_wf _ (sr_declared _ _ _ Hr))]. Qed.
Next Obligation.
  intros floor s h block mutations cursor Hr. destruct (sql_apply floor s h block mutations cursor Hr) as [Hadm Honly]. split.
  - intros b Hb. destruct (Hadm b Hb) as (s' & Happ & Hr' & He & _ & Hc). exists s'. change (applyBlock s block mutations cursor) with (thrown (q_applyBlock s block mutations cursor)).
    rewrite Happ. done.
  - intros s' Happ%thrown_Ok. by eapply Honly.
Qed.
Next Obligation.
  intros floor s h n Hr Hle _. destruct (sql_revert floor floor s h n Hr) as (s' & Hrev & Hr' & He & Hc); [by left|].
  exists s'. change (revertTo s n) with (thrown (q_revertTo s n)). rewrite Hrev. split_and!; [done..|]. intros key. change (q_readCursor s' key = q_readCursor s key). unfold q_readCursor. by rewrite Hc.
Qed.
Next Obligation.
  intros floor s h entity id e key Hr He Hkey. exact (sql_getCurrent floor s h entity e id key Hr He Hkey).
Qed.
Next Obligation.
  intros floor s h key value Hr. destruct (sql_writeCursor floor s h key value Hr) as [Hw Hr'].
  change (writeCursor s key value) with (q_writeCursor s key value).1. rewrite Hw. split_and!; [done..|]. intros key'. apply jm_get_set.
Qed.
Next Obligation.
  intros floor s h Hr Hpos. destruct (sql_revert floor (-1) s h (-1) Hr) as (s' & Hrev & Hr' & He & Hc).
  { right. eapply Forall_impl; [exact Hpos|]. cbn. lia. }
  exists s'. change (revertTo s (-1)) with (thrown (q_revertTo s (-1))). rewrite Hrev. split_and!; try done.
  - assert (history_upto (-1) h = []) as <-; [|done]. apply filter_Forall_nil. eapply Forall_impl; [exact Hpos|]. cbn. lia.
  - intros key. change (q_readCursor s' key = q_readCursor s key). unfold q_readCursor. by rewrite Hc.
Qed.
Next Obligation.
  intros floor s h key Hr. destruct (sql_clearCursor floor s h key Hr) as [Hw Hr'].
  change (clearCursor s key) with (q_clearCursor s key).1. rewrite Hw. split_and!; [done..|]. change (jm_get (jm_delete (tb_cursor (q_tables s)) key) key = None). by rewrite jm_get_delete, decide_True.
Qed.

#[export] Instance sql_backend : StateStoreBackend SqlStore := {
  migrate := q_migrate;
  capabilities := q_capabilities;
  getAsOf := q_getAsOf;
  listCurrent := q_listCurrent;
  listAsOf := q_listAsOf;
  prune s maxVersions := match q_prune s maxVersions with (s, Ok report) => Ok (s, report) | (_, Err e) => Err e end;
  readRetentionEnforcement := q_readRetentionEnforcement;
  readSeamRecord := q_readSeamRecord;
  writeSeamRecord s key value := (q_writeSeamRecord s key value).1;
  clearSeamRecord s key := (q_clearSeamRecord s key).1
}.

Lemma migrate_done floor s h : sql_repr floor s h -> q_migrate s = s.
Proof.
  intros Hr. unfold q_migrate. pose proof (sr_tables _ _ _ Hr) as Htables. pose proof (sr_declared _ _ _ Hr) as Hdecl.
  assert (forall es, (forall e, e ∈ es -> is_Some (jm_get (tb_entities (q_tables s)) (entity_name e))) ->
    foldl (fun tables e => if jm_has tables (entity_name e) then tables else jm_set tables (entity_name e) (mkTable 0 [])) (tb_entities (q_tables s)) es = tb_entities (q_tables s)) as Hfold.
  { induction es as [|e es IH]; intros Hall; [done|]. cbn [foldl]. unfold jm_has at 2. rewrite bool_decide_true by (apply Hall; left). apply IH. intros e' He'. apply Hall. by right. }
  rewrite Hfold. { unfold with_tables, with_entities. destruct s as [? ? ? ? ? ? t]. by destruct t. }
  intros e ([name e'] & -> & Hin)%list_elem_of_fmap. apply jm_get_Some in Hin; [|apply Hdecl]. cbn. rewrite (entities_names _ (dw_wf _ Hdecl) _ _ Hin). by eapply Htables.
Qed.

#[export] Program Instance sql_backend_laws : BackendLaws SqlStore.
Next Obligation. intros floor s h Hr. by apply (migrate_done floor s h). Qed.
Next Obligation.
  intros floor s h key value Hr. destruct (sql_writeSeamRecord floor s h key value Hr) as [Hw Hr'].
  change (writeSeamRecord s key value) with (q_writeSeamRecord s key value).1. rewrite Hw. split_and!; [done..|]. intros k. apply jm_get_set.
Qed.
Next Obligation.
  intros floor s h key Hr. destruct (sql_clearSeamRecord floor s h key Hr) as [Hw Hr'].
  change (clearSeamRecord s key) with (q_clearSeamRecord s key).1. rewrite Hw. split_and!; [done..|]. intros k. apply jm_get_delete.
Qed.
Next Obligation.
  intros floor s h block mutations cursor s' k Hr Happ%thrown_Ok. destruct (sql_apply floor s h block mutations cursor Hr) as [Hadm Honly].
  destruct (Honly s' Happ) as [b Hb]. destruct (Hadm b Hb) as (s1 & Happ1 & _ & _ & Hseam & _). rewrite Happ in Happ1. injection Happ1 as <-.
  change (q_readSeamRecord s' k = q_readSeamRecord s k). unfold q_readSeamRecord. by rewrite Hseam.
Qed.
Next Obligation. intros floor s h entity id e key at_ Hr He Hkey Hle. by apply (sql_getAsOf floor s h entity e id key at_). Qed.

(** ** The record of where the history starts *)
Definition originless (st : Statement) : Prop :=
  match st with WriteSeamRecord key _ _ | ClearSeamRecord key _ => key <> "snapshotOrigin" | _ => True end.

#[local] Abbreviation origin_of t := (jm_get (tb_seam t) "snapshotOrigin").

Lemma write_statement_origin t st t' : originless st -> write_statement t st = Ok t' -> origin_of t' = origin_of t.
Proof.
  assert (forall guards (r : result SqlError Tables) t', (forall t1, r = Ok t1 -> origin_of t1 = origin_of t) ->
    (if forallb (guard_holds t) guards then r else Ok t) = Ok t' -> origin_of t' = origin_of t) as Hguarded
    by (intros guards r t1 Hr; destruct (forallb _ guards); [apply Hr|by intros [= <-]]).
  assert (forall guards entity f t', on_table t guards entity f = Ok t' -> origin_of t' = origin_of t) as Htable.
  { intros guards entity f t1. unfold on_table. destruct (jm_get _ entity); [|done]. apply Hguarded. by intros t2 (table & _ & [= <-])%bind_Ok. }
  intros Hst. destruct st; cbn [write_statement originless] in *; try apply Htable; try (apply Hguarded; intros t1).
  - by intros (? & _ & (? & _ & [= <-])%bind_Ok)%bind_Ok.
  - by intros [= <-].
  - intros [= <-]. by apply jm_get_set_ne.
  - by intros [= <-].
  - by intros [= <-].
  - intros [= <-]. by apply jm_get_set_ne.
  - intros [= <-]. cbn [with_seam tb_seam]. rewrite jm_get_delete. by rewrite decide_False.
  - by intros [= <-].
  - by intros [= <-].
  - by intros [= <-].
Qed.

Lemma run_batch_origin statements : forall t r, Forall originless statements -> run_batch t statements = Ok r -> origin_of r.1 = origin_of t.
Proof.
  induction statements as [|st statements IH]; intros t r Hall; cbn [run_batch]; [by intros [= <-]|].
  apply Forall_cons in Hall as [Hst Hall]. intros (t1 & Ht1 & ([last answers] & Hrest & [= <-])%bind_Ok)%bind_Ok.
  apply (eq_trans (IH t1 (last, answers) Hall Hrest)). by eapply write_statement_origin.
Qed.

Lemma sendGuarded_origin s operation statements :
  Forall originless statements -> q_readSeamRecord (sendGuarded s operation statements).1 "snapshotOrigin" = q_readSeamRecord s "snapshotOrigin".
Proof.
  intros Hall. unfold sendGuarded. destruct (run_batch _ _) as [[t results]|] eqn:Hrun; [|done].
  assert (origin_of t = origin_of (q_tables s)) as Ht.
  { apply (run_batch_origin _ _ (t, results)) in Hrun; [exact Hrun|]. destruct (q_claimed s); cbn [app];
      [|constructor; [exact I|]]; (apply Forall_app; split; [exact Hall|by repeat constructor]). }
  by case_decide.
Qed.

Lemma pruneEntities_origin floor budget entities : forall s deleted,
  q_readSeamRecord (pruneEntities floor budget s entities deleted).1 "snapshotOrigin" = q_readSeamRecord s "snapshotOrigin".
Proof.
  assert (forall fuel s entity deleted,
    q_readSeamRecord (pruneEntity floor budget fuel s entity deleted).1 "snapshotOrigin" = q_readSeamRecord s "snapshotOrigin") as Hone.
  { induction fuel as [|fuel IH]; intros s entity deleted; [done|]. cbn [pruneEntity]. destruct (within _ _); [|done].
    destruct (prunableVersions _ _ _) as [|id ids]; [done|].
    pose proof (sendGuarded_origin s "prune" [DropVersions (entity_name entity) (id :: ids) [q_guard s]] ltac:(by repeat constructor)) as Hsend.
    destruct (sendGuarded _ _ _) as [s1 [r|e]]; [|exact Hsend]. rewrite IH. exact Hsend. }
  induction entities as [|entity entities IH]; intros s deleted; [done|]. cbn [pruneEntities].
  pose proof (Hone (S (length (rows_of s (entity_name entity)))) s entity deleted) as Hs.
  destruct (pruneEntity _ _ _ _ _ _) as [s1 [n|e]]; [|exact Hs]. rewrite IH. exact Hs.
Qed.

Lemma applyBlockStatements_originless entities block mutations cursor writer statements :
  applyBlockStatements entities block mutations cursor writer = Ok statements -> Forall originless statements.
Proof.
  unfold applyBlockStatements. intros (hash & _ & (lists & Hlists & [= <-])%bind_Ok)%bind_Ok.
  constructor; [exact I|]. apply Forall_app. split; [|destruct cursor as [[key value]|]; by repeat constructor].
  apply Forall_concat, Forall_forall. intros l Hl. apply (mapR_elem_iff _ _ _ Hlists) in Hl as (m & _ & Hm).
  unfold mutationStatements in Hm. apply bind_Ok in Hm as (entity & _ & (values & _ & Hm)%bind_Ok).
  destruct m; [apply bind_Ok in Hm as (stored & _ & Hm)|]; injection Hm as <-; by repeat constructor.
Qed.

Lemma revertToStatements_originless entities keepUpTo writer : Forall originless (revertToStatements entities keepUpTo writer).
Proof.
  unfold revertToStatements. apply Forall_app. split; [|by repeat constructor].
  apply Forall_concat, Forall_fmap, Forall_forall. intros e _. by repeat constructor.
Qed.

#[export] Instance sql_origin : OriginLaws SqlStore.
Proof.
  split.
  - done.
  - intros s block mutations cursor s' Happ%thrown_Ok. unfold q_applyBlock in Happ.
    destruct (applyBlockStatements _ _ _ _ _) as [statements|] eqn:Hst; [|done].
    pose proof (sendGuarded_origin s "applyBlock" (LatestBlock :: statements)) as Hsend.
    destruct (sendGuarded _ _ _) as [s1 r]. injection Happ as -> _. apply Hsend. constructor; [exact I|]. by eapply applyBlockStatements_originless.
  - intros s n s' Hrev%thrown_Ok. unfold q_revertTo in Hrev.
    pose proof (sendGuarded_origin s "revertTo" _ (revertToStatements_originless (q_entities s) n (q_guard s))) as Hsend.
    destruct (sendGuarded _ _ _) as [s1 r]. injection Hrev as -> _. exact Hsend.
  - intros s budget p. change (prune s budget) with (match q_prune s budget with (s, Ok report) => Ok (s, report) | (_, Err e) => Err e end).
    unfold q_prune. destruct (pruneBudget budget) as [b|]; [|done].
    pose proof (sendGuarded_origin s "prune" [LatestBlock] ltac:(by repeat constructor)) as H1. destruct (sendGuarded s _ _) as [s1 [results|]]; [|done]. cbn [fst] in H1.
    destruct (_ ≫= _) as [floor|]; [|by intros [= <-]].
    pose proof (pruneEntities_origin floor b (q_entities s1).*2 s1 0) as H2. destruct (pruneEntities _ _ _ _ _) as [s2 [deleted|]]; [|done]. cbn [fst] in H2.
    pose proof (sendGuarded_origin s2 "prune" [WriteSeamRecord "retentionEnforcement" (PruneRecord floor) [q_guard s2]] ltac:(by repeat constructor)) as H3.
    destruct (sendGuarded s2 _ _) as [s3 [r|]]; [|done]. intros [= <-]. cbn [fst] in *. exact (eq_trans H3 (eq_trans H2 H1)).
  - intros s key value. pose proof (sendGuarded_origin s "writeCursor" [WriteCursor key value [q_guard s]] ltac:(by repeat constructor)) as H1.
    change (q_readSeamRecord (q_writeCursor s key value).1 "snapshotOrigin" = q_readSeamRecord s "snapshotOrigin"). unfold q_writeCursor.
    by destruct (sendGuarded _ _ _).
  - intros s key. pose proof (sendGuarded_origin s "clearCursor" [ClearCursor key [q_guard s]] ltac:(by repeat constructor)) as H1.
    change (q_readSeamRecord (q_clearCursor s key).1 "snapshotOrigin" = q_readSeamRecord s "snapshotOrigin"). unfold q_clearCursor.
    by destruct (sendGuarded _ _ _).
Qed.
