(* ===== verification/SqlPrune.v ===== *)
(** * Pruning the SQL store

    [prune] of [packages/state-store-sqlite/src/store.ts] deletes versions a page at a
    time: it ends, it loses no answer above its floor, and when it says it is complete
    nothing is left to delete. *)
From S2P Require Import Prelude JsMap Entities Listing Retention StoreSpec Seam Declarations Versions MemoryStore SqlTables SqlStore SqlLaws.

Definition prunable (floor : Z) (rows : list VersionRow) : Prop := exists r, r ∈ rows /\ closedBy floor r = true.

Lemma prunableVersions_spec table floor limit rowid :
  rowid ∈ prunableVersions table floor limit -> exists r, r ∈ tb_rows table /\ closedBy floor r = true /\ vr_rowid r = rowid.
Proof.
  unfold prunableVersions. intros (r & -> & Hr)%list_elem_of_fmap. assert (r ∈ sort_on (fun r => default 0 (vr_upper r)) (filter (fun r => closedBy floor r = true) (tb_rows table))) as Hin.
  { eapply elem_of_sublist; [exact Hr|apply sublist_take]. }
  apply elem_of_sort_on, list_elem_of_filter in Hin as [Hc Hin]. by exists r.
Qed.

Lemma prunableVersions_nil table floor limit : (0 < limit)%nat -> prunableVersions table floor limit = [] -> ~ prunable floor (tb_rows table).
Proof.
  unfold prunableVersions. intros Hl Hnil (r & Hin & Hc).
  assert (r ∈ sort_on (fun r => default 0 (vr_upper r)) (filter (fun r => closedBy floor r = true) (tb_rows table))) as Hr by (by apply elem_of_sort_on, elem_of_filter_intro).
  destruct (sort_on _ _) as [|x l]; [by apply not_elem_of_nil in Hr|]. destruct limit; [lia|]. done.
Qed.

Lemma sql_repr_weaken floor floor' s h : floor <= floor' -> sql_repr floor s h -> sql_repr floor' s h.
Proof.
  intros Hle [Hdecl Hhist Htok Hheld Hblocks Htables Hopen Hversions Hrows]. split; try done.
  intros name e vs He Hvs. apply (reachable_weaken floor); [done|]. by apply Hversions.
Qed.

(** Deleting rows that are closed at or below the floor. *)
Definition drop_table (rowids : list Z) (table : Table) : Table := mkTable (tb_sequence table) (filter (fun r => vr_rowid r ∉ rowids) (tb_rows table)).

Lemma drop_table_ok rowids table : table_ok table -> table_ok (drop_table rowids table).
Proof.
  intros [Ho Ha Hg Hs]. split; cbn [drop_table tb_rows tb_sequence]; [|by eapply ascending_sublist; [apply sublist_filter|]|by eapply Forall_sublist; [apply sublist_filter|]|done].
  apply bool_decide_eq_true in Ho. apply bool_decide_eq_true. eapply sublist_NoDup; [exact Ho|]. apply sublist_fmap.
  rewrite filter_comm. apply sublist_filter.
Qed.

Lemma dropped_closed floor (rowids : list Z) table r :
  table_ok table -> (forall rowid, rowid ∈ rowids -> exists r, r ∈ tb_rows table /\ closedBy floor r = true /\ vr_rowid r = rowid) ->
  r ∈ tb_rows table -> vr_rowid r ∈ rowids -> closedBy floor r = true.
Proof.
  intros Hok Hfound Hr Hin. destruct (Hfound _ Hin) as (r' & Hr' & Hc & Heq). by rewrite <- (ascending_key_inj vr_rowid _ r' r (to_order _ Hok) Hr' Hr Heq).
Qed.

Lemma drop_versions floor e vs (rowids : list Z) table :
  (forall r, r ∈ tb_rows table -> vr_rowid r ∈ rowids -> closedBy floor r = true) ->
  reachable floor (versions_in e vs (tb_rows (drop_table rowids table))) = reachable floor (versions_in e vs (tb_rows table)).
Proof.
  unfold versions_in, drop_table. cbn [tb_rows]. induction (tb_rows table) as [|r rows IH]; intros Hc; [done|].
  assert (forall r0, r0 ∈ rows -> vr_rowid r0 ∈ rowids -> closedBy floor r0 = true) as Hc' by (intros r0 H0; apply Hc; by right).
  rewrite (filter_cons _ r rows). case_decide as Hin.
  - rewrite !filter_cons. destruct (decide (vr_id r = vs)); [|by apply IH]. csimpl. rewrite !reachable_cons, IH by done. done.
  - rewrite IH by done. rewrite filter_cons. destruct (decide (vr_id r = vs)); [|done]. csimpl. rewrite reachable_cons.
    assert (unreachable floor (version_of e r) = true) as ->; [|done]. specialize (Hc r (list_elem_of_here _ _)).
    unfold unreachable, version_of, closedBy in *. cbn [v_upper]. apply Hc. destruct (decide (vr_rowid r ∈ rowids)); done.
Qed.

Lemma sql_drop floor s h name e table (rowids : list Z) :
  sql_repr floor s h -> jm_get (q_entities s) name = Some e -> jm_get (tb_entities (q_tables s)) name = Some table ->
  (forall rowid, rowid ∈ rowids -> exists r, r ∈ tb_rows table /\ closedBy floor r = true /\ vr_rowid r = rowid) ->
  let t := with_entities (held_tables s) (jm_set (tb_entities (q_tables s)) name (drop_table rowids table)) in
  exists answers, sendGuarded s "prune" [DropVersions name rowids [q_guard s]] = (with_tables s true t, Ok answers) /\ sql_repr floor (with_tables s true t) h.
Proof.
  intros Hr He Ht Hfound. pose proof Hr as [Hdecl Hhist Htok Hheld Hblocks Htables Hopen Hversions Hrows]. pose proof (Hopen _ _ Ht) as Hok.
  cbv zeta. rewrite sendGuarded_held by done. cbn [run_batch write_statement]. rewrite (on_table_held (held_tables s) _ _ _ table) by (done || apply held_guard).
  cbn [mbind result_bind]. eexists. split; [done|]. split; cbn [with_tables q_entities q_token q_tables with_entities tb_entities tb_blocks]; try done.
  - intros name' e' He'. rewrite jm_get_set. case_decide; [done|by eapply Htables].
  - apply unique_tables_set; [done|]. by apply drop_table_ok.
  - intros name' e' vs He' Hvs. unfold rows_in. rewrite jm_get_set. case_decide as Hn; [|by apply Hversions]. subst name'. cbn [from_option].
    rewrite drop_versions by (intros r; by eapply dropped_closed). specialize (Hversions name e' vs He' Hvs). unfold rows_in in Hversions. by rewrite Ht in Hversions.
  - intros name' e' He'. unfold rows_in. rewrite jm_get_set. case_decide as Hn; [|by apply (Hrows name' e')]. subst name'. cbn [from_option drop_table tb_rows].
    eapply Forall_sublist; [apply sublist_filter|]. specialize (Hrows name e' He'). unfold rows_in in Hrows. by rewrite Ht in Hrows.
Qed.

(** ** A page at a time *)

(** Rows were deleted, and nothing else. *)
Record pruned (s s' : SqlStore) : Prop := {
  pd_entities : q_entities s' = q_entities s;
  pd_settings : q_maxRows s' = q_maxRows s /\ q_provided s' = q_provided s /\ q_finalityDepth s' = q_finalityDepth s;
  pd_blocks : tb_blocks (q_tables s') = tb_blocks (q_tables s);
  pd_cursor : tb_cursor (q_tables s') = tb_cursor (q_tables s);
  pd_seam : tb_seam (q_tables s') = tb_seam (q_tables s);
  pd_rows name : rows_of s' name `sublist_of` rows_of s name
}.

#[export] Instance pruned_preorder : PreOrder pruned.
Proof.
  split; [by split|]. intros s1 s2 s3 [He (Hm & Hp & Hd) Hb Hc Hs Hr] [He' (Hm' & Hp' & Hd') Hb' Hc' Hs' Hr'].
  split; [congruence|repeat split; congruence|congruence..|]. intros name. by transitivity (rows_of s2 name).
Qed.

Lemma length_keys_in {A} (key : A -> Z) (keys : list Z) (l : list A) :
  NoDup (key <$> l) -> NoDup keys -> (forall k, k ∈ keys -> k ∈ key <$> l) ->
  (length (filter (fun x => key x ∉ keys) l) + length keys = length l)%nat.
Proof.
  intros Hl Hk Hin. assert (length (filter (fun x => key x ∈ keys) l) = length keys) as <-.
  { rewrite <- (length_fmap key). apply Permutation_length, NoDup_Permutation; [|done|].
    - eapply sublist_NoDup; [exact Hl|]. apply sublist_fmap, sublist_filter.
    - intros k. split; [by intros (x & -> & [Hx _]%list_elem_of_filter)%list_elem_of_fmap|]. intros Hkk. pose proof (Hin k Hkk) as (x & -> & Hx)%list_elem_of_fmap.
      apply list_elem_of_fmap. exists x. split; [done|]. apply list_elem_of_filter. by split. }
  clear. induction l as [|x l IH]; [done|]. rewrite !filter_cons. destruct (decide (key x ∈ keys)), (decide (key x ∉ keys)); try done; cbn [length]; lia.
Qed.

Lemma prunableVersions_NoDup table floor limit : table_ok table -> NoDup (prunableVersions table floor limit).
Proof.
  intros Hok. unfold prunableVersions. eapply sublist_NoDup; [|apply sublist_fmap, sublist_take].
  eapply (NoDup_Permutation_proper _ _ (fmap_Permutation vr_rowid _ _ (sort_on_perm _ _))).
  eapply sublist_NoDup; [apply (ascending_keys_NoDup vr_rowid), Hok|]. apply sublist_fmap, sublist_filter.
Qed.

Lemma prunableVersions_length table floor limit : (length (prunableVersions table floor limit) <= limit)%nat.
Proof. unfold prunableVersions. rewrite length_fmap, length_take. lia. Qed.

Lemma prunableVersions_weaken floor floor' table limit rowid :
  floor <= floor' -> rowid ∈ prunableVersions table floor limit -> exists r, r ∈ tb_rows table /\ closedBy floor' r = true /\ vr_rowid r = rowid.
Proof.
  intros Hle (r & Hr & Hc & Heq)%prunableVersions_spec. exists r. split_and!; [done| |done]. unfold closedBy in *.
  destruct (vr_upper r); [|done]. apply bool_decide_eq_true in Hc. apply bool_decide_eq_true. lia.
Qed.

(** One page: its rows are gone, as many as it names. *)
Lemma prune_page floor fl limit s h name e :
  sql_repr floor s h -> jm_get (q_entities s) name = Some e -> fl <= floor ->
  let table := default (mkTable 0 []) (jm_get (tb_entities (q_tables s)) name) in
  let found := prunableVersions table fl limit in
  exists s' answers, sendGuarded s "prune" [DropVersions name found [q_guard s]] = (s', Ok answers)
    /\ sql_repr floor s' h /\ pruned s s'
    /\ (length (rows_of s' name) + length found = length (rows_of s name))%nat
    /\ forall name', name' <> name -> rows_of s' name' = rows_of s name'.
Proof.
  intros Hr He Hle. destruct (sr_tables _ _ _ Hr name e He) as [table Ht]. pose proof (sr_open _ _ _ Hr _ _ Ht) as Hok. rewrite Ht. cbn [default].
  set (found := prunableVersions table fl limit).
  destruct (sql_drop floor s h name e table found Hr He Ht) as (answers & Hsend & Hr').
  { intros rowid Hin. by apply (prunableVersions_weaken fl floor table limit). }
  eexists _, answers. split_and!; [exact Hsend|exact Hr'| | |].
  - split; try done. intros name'. unfold rows_of. cbn [with_tables q_tables with_entities tb_entities held_tables with_writer].
    rewrite jm_get_set. case_decide as Hn; [|done]. subst name'. rewrite Ht. cbn [from_option drop_table tb_rows]. apply sublist_filter.
  - unfold rows_of. cbn [with_tables q_tables with_entities tb_entities held_tables with_writer]. rewrite jm_get_set, decide_True, Ht by done.
    cbn [from_option drop_table tb_rows]. apply length_keys_in; [apply ascending_keys_NoDup, Hok|by apply prunableVersions_NoDup|].
    intros k (r & Hin & _ & <-)%prunableVersions_spec. apply list_elem_of_fmap. by exists r.
  - intros name' Hn. unfold rows_of. cbn [with_tables q_tables with_entities tb_entities held_tables with_writer]. by rewrite jm_get_set, decide_False.
Qed.

Section Pages.
Context (floor fl : Z) (Hle : fl <= floor) (budget : option nat).

Lemma pruneLimit_within s deleted : within budget deleted = true -> (0 < pruneLimit budget s deleted)%nat.
Proof. unfold within, pruneLimit. destruct budget as [n|]; [|lia]. intros Hn%bool_decide_eq_true. lia. Qed.

Definition in_budget (deleted : nat) : Prop := match budget with Some n => (deleted <= n)%nat | None => True end.

Lemma pruneLimit_budget s deleted n : in_budget deleted -> (n <= pruneLimit budget s deleted)%nat -> in_budget (deleted + n).
Proof. unfold in_budget, pruneLimit. destruct budget; [|done]. lia. Qed.

(** The loop over one entity's pages ends with the rows counted, and where the budget is
    not spent no row of the entity is left to delete. *)
Lemma pruneEntity_spec name e h : forall fuel s deleted,
  sql_repr floor s h -> jm_get (q_entities s) name = Some e -> in_budget deleted -> (length (rows_of s name) < fuel)%nat ->
  exists s' deleted', pruneEntity fl budget fuel s e deleted = (s', Ok deleted')
    /\ sql_repr floor s' h /\ pruned s s' /\ in_budget deleted' /\ (deleted <= deleted')%nat
    /\ (deleted' + length (rows_of s' name) = deleted + length (rows_of s name))%nat
    /\ (forall name', name' <> name -> rows_of s' name' = rows_of s name')
    /\ (within budget deleted' = true -> ~ prunable fl (rows_of s' name)).
Proof.
  induction fuel as [|fuel IH]; intros s deleted Hr He Hb Hfuel; [lia|]. cbn [pruneEntity].
  destruct (within budget deleted) eqn:Hw.
  2:{ exists s, deleted. split_and!; try done. by rewrite Hw. }
  pose proof (entities_names _ (dw_wf _ (sr_declared _ _ _ Hr)) _ _ He) as Hname. rewrite Hname.
  destruct (prune_page floor fl (pruneLimit budget s deleted) s h name e Hr He Hle) as (s1 & answers & Hsend & Hr1 & Hp1 & Hlen & Hother). cbv zeta in *.
  pose proof (prunableVersions_length (default (mkTable 0 []) (jm_get (tb_entities (q_tables s)) name)) fl (pruneLimit budget s deleted)) as Hlim.
  destruct (prunableVersions _ _ _) as [|rowid found] eqn:Hfound.
  - exists s, deleted. split_and!; try done. intros _. unfold rows_of. apply prunableVersions_nil in Hfound; [|by apply pruneLimit_within].
    by destruct (jm_get (tb_entities (q_tables s)) name).
  - rewrite Hsend. cbn [length] in *.
    destruct (IH s1 (deleted + S (length found))%nat) as (s2 & deleted2 & Hrun & Hr2 & Hp2 & Hb2 & Hgrow2 & Hlen2 & Hother2 & Hdone); [done|by rewrite (pd_entities _ _ Hp1)|by eapply pruneLimit_budget|lia|].
    exists s2, deleted2. split_and!; [exact Hrun|done|by etrans|done|lia|lia| |done]. intros name' Hn. by rewrite Hother2, Hother.
Qed.

Definition row_count (s : SqlStore) (names : list string) : nat := sum_list ((fun name => length (rows_of s name)) <$> names).

Lemma row_count_ext s s' names : (forall name, name ∈ names -> rows_of s' name = rows_of s name) -> row_count s' names = row_count s names.
Proof.
  intros Hsame. unfold row_count. f_equal. apply list_fmap_ext. intros i name Hn. rewrite Hsame; [done|]. by eapply list_elem_of_lookup_2.
Qed.

Lemma pruneEntities_spec h : forall entities s deleted,
  sql_repr floor s h -> (forall p, p ∈ entities -> jm_get (q_entities s) p.1 = Some p.2) -> NoDup entities.*1 -> in_budget deleted ->
  exists s' deleted', pruneEntities fl budget s entities.*2 deleted = (s', Ok deleted')
    /\ sql_repr floor s' h /\ pruned s s' /\ in_budget deleted' /\ (deleted <= deleted')%nat
    /\ (deleted' + row_count s' entities.*1 = deleted + row_count s entities.*1)%nat
    /\ (forall name, name ∉ entities.*1 -> rows_of s' name = rows_of s name)
    /\ (within budget deleted' = true -> forall name, name ∈ entities.*1 -> ~ prunable fl (rows_of s' name)).
Proof.
  induction entities as [|[name e] entities IH]; intros s deleted Hr Hin Hnd Hb.
  { exists s, deleted. split_and!; try done. intros _ name Hn. by apply not_elem_of_nil in Hn. }
  change (((name, e) :: entities).*2) with (e :: entities.*2). change (((name, e) :: entities).*1) with (name :: entities.*1) in *. apply NoDup_cons in Hnd as [Hnot Hnd]. cbn [pruneEntities].
  assert (jm_get (q_entities s) name = Some e) as He by (apply (Hin (name, e)); left).
  pose proof (entities_names _ (dw_wf _ (sr_declared _ _ _ Hr)) _ _ He) as Hname.
  destruct (pruneEntity_spec name e h (S (length (rows_of s (entity_name e)))) s deleted) as (s1 & d1 & Hrun & Hr1 & Hp1 & Hb1 & Hgrow1 & Hlen1 & Hother1 & Hdone1); try done; [rewrite Hname; lia|].
  rewrite Hrun. destruct (IH s1 d1) as (s2 & d2 & Hrun2 & Hr2 & Hp2 & Hb2 & Hgrow2 & Hlen2 & Hother2 & Hdone2); try done.
  { intros p Hp. rewrite (pd_entities _ _ Hp1). apply Hin. by right. }
  exists s2, d2. split_and!; [done|done|by etrans|done|lia| | |].
  - unfold row_count in *. csimpl. rewrite (Hother2 name Hnot).
    assert (row_count s1 entities.*1 = row_count s entities.*1) as Hsame by (apply row_count_ext; intros n Hn; apply Hother1; intros ->; done).
    unfold row_count in Hsame. cbn [sum_list]. lia.
  - intros n Hn. rewrite not_elem_of_cons in Hn. destruct Hn as [Hn Hns]. by rewrite Hother2, Hother1.
  - intros Hw n [->|Hn]%elem_of_cons; [|by apply Hdone2]. rewrite (Hother2 name Hnot). apply Hdone1.
    unfold within, in_budget in *. destruct budget as [m|]; [|done]. apply bool_decide_eq_true in Hw. apply bool_decide_eq_true. lia.
Qed.
End Pages.

Lemma hasPrunable_spec floor s h fl :
  sql_repr floor s h -> (hasPrunableVersions s fl = true <-> exists name, name ∈ (q_entities s).*1 /\ prunable fl (rows_of s name)).
Proof.
  intros Hr. unfold hasPrunableVersions. rewrite existsb_exists. pose proof (sr_declared _ _ _ Hr) as Hdecl.
  assert (forall name e, (name, e) ∈ q_entities s -> jm_get (q_entities s) name = Some e) as Hget by (intros name e Hin; apply jm_get_Some; [apply Hdecl|done]).
  split.
  - intros (e & Hin & Hp). apply list_elem_of_In, list_elem_of_fmap in Hin as ([name e'] & -> & Hin). cbn in Hp. exists name.
    rewrite (entities_names _ (dw_wf _ Hdecl) _ _ (Hget _ _ Hin)) in Hp. split; [apply list_elem_of_fmap; by exists (name, e')|].
    apply negb_true_iff, bool_decide_eq_false in Hp. destruct (prunableVersions _ _ _) as [|rowid l] eqn:Hl; [done|].
    assert (rowid ∈ rowid :: l) as Hrow by left. rewrite <- Hl in Hrow. apply prunableVersions_spec in Hrow as (r & Hrr & Hc & _).
    exists r. split; [|done]. unfold rows_of. by destruct (jm_get _ _).
  - intros (name & ([name' e] & Hn & Hin)%list_elem_of_fmap & Hp). cbn in Hn. subst name'. exists e. split; [apply list_elem_of_In, list_elem_of_fmap; by exists (name, e)|].
    apply negb_true_iff, bool_decide_eq_false. rewrite (entities_names _ (dw_wf _ Hdecl) _ _ (Hget _ _ Hin)). intros Hnil.
    apply prunableVersions_nil in Hnil; [|lia]. apply Hnil. unfold rows_of in Hp. by destruct (jm_get _ _).
Qed.

Lemma latestBlock_repr floor s h : sql_repr floor s h -> latestBlock (tb_blocks (q_tables s)) = hb_block <$> last h.
Proof. intros Hr. rewrite (sr_blocks _ _ _ Hr). apply latestBlock_ascending, Hr. Qed.

Lemma sql_claim floor s h operation :
  sql_repr floor s h ->
  sendGuarded s operation [LatestBlock] = (with_tables s true (held_tables s), Ok [BlockAnswer (hb_block <$> last h)])
  /\ sql_repr floor (with_tables s true (held_tables s)) h.
Proof.
  intros Hr. rewrite sendGuarded_held by (apply Hr || done). cbn [run_batch write_statement mbind result_bind answer_of held_tables with_writer tb_blocks].
  rewrite (latestBlock_repr floor s h) by done. split; [done|]. by apply sql_repr_tables.
Qed.

(** Nothing is left at or below the floor in any table. *)
Definition nothing_prunable (s : SqlStore) (floor : option Z) : Prop :=
  match floor with Some fl => forall name, name ∈ (q_entities s).*1 -> ~ prunable fl (rows_of s name) | None => True end.

Lemma within_complete budget deleted s fl floor h :
  sql_repr floor s h -> (within budget deleted = true -> nothing_prunable s (Some fl)) ->
  (within budget deleted || negb (hasPrunableVersions s fl) = true <-> nothing_prunable s (Some fl)).
Proof.
  intros Hr Hdone. pose proof (hasPrunable_spec floor s h fl Hr) as Hspec. split.
  - intros [Hw|Hn%negb_true_iff]%orb_true_iff; [by apply Hdone|]. intros name Hname Hp.
    assert (hasPrunableVersions s fl = true) as Ht by (apply Hspec; by exists name). congruence.
  - intros Hnothing. apply orb_true_iff. right. apply negb_true_iff. destruct (hasPrunableVersions s fl); [|done].
    destruct (proj1 Hspec eq_refl) as (name & Hname & Hp). by destruct (Hnothing name Hname).
Qed.

(** The floor recorded, and nothing else written. *)
Lemma record_floor floor s h fl :
  sql_repr floor s h ->
  exists s' answers, sendGuarded s "prune" [WriteSeamRecord "retentionEnforcement" (PruneRecord fl) [q_guard s]] = (s', Ok answers)
    /\ sql_repr floor s' h /\ q_entities s' = q_entities s /\ (forall name, rows_of s' name = rows_of s name)
    /\ q_readSeamRecord s' "retentionEnforcement" = Some (PruneRecord fl).
Proof.
  intros Hr. pose proof (sql_send floor s h "prune" (WriteSeamRecord "retentionEnforcement" (PruneRecord fl) [q_guard s])
    (with_seam (held_tables s) (jm_set (tb_seam (q_tables s)) "retentionEnforcement" (PruneRecord fl))) Hr eq_refl) as Hsend.
  destruct Hsend as (answers & Hsend & Hr'); [cbn [write_statement]; by rewrite held_guard|done..|].
  eexists _, answers. split_and!; [exact Hsend|exact Hr'|done|done|]. apply jm_get_set_eq.
Qed.

(** A prune with a budget ends: the history is kept above the floor it ran at, the report
    counts the rows that are gone. *)
Lemma sql_prune floor s h maxVersions budget :
  sql_repr floor s h -> pruneBudget maxVersions = Ok budget ->
  exists s' report, q_prune s maxVersions = (s', Ok report)
    /\ report_floor report = ((hb_number <$> last h) ≫= fun tip => retentionFloor (q_provided s) tip (q_finalityDepth s))
    /\ sql_repr (Z.max floor (default floor (report_floor report))) s' h
    /\ in_budget budget (report_deleted report)
    /\ (report_deleted report + row_count s' (q_entities s).*1 = row_count s (q_entities s).*1)%nat
    /\ (forall name, rows_of s' name `sublist_of` rows_of s name)
    /\ (within budget (report_deleted report) = true -> nothing_prunable s' (report_floor report))
    /\ report_complete report = match report_floor report with Some fl => within budget (report_deleted report) || negb (hasPrunableVersions s' fl) | None => true end.
Proof.
  intros Hr Hbudget. unfold q_prune. rewrite Hbudget.
  destruct (sql_claim floor s h "prune" Hr) as [-> Hr0]. set (s0 := with_tables s true (held_tables s)) in *. cbv beta iota.
  assert (in_budget budget 0) as Hb by (unfold in_budget; destruct budget; [lia|done]).
  assert (match hb_block <$> last h with Some tip => Some (bp_number tip) | None => None end = hb_number <$> last h) as -> by (by destruct (last h)).
  change (q_provided s0) with (q_provided s). change (q_finalityDepth s0) with (q_finalityDepth s).
  destruct ((hb_number <$> last h) ≫= _) as [fl|].
  2:{ exists s0. eexists. split; [done|]. cbn [report_floor report_deleted report_complete default nothing_prunable]. by rewrite Z.max_id. }
  destruct (pruneEntities_spec (Z.max floor fl) fl ltac:(lia) budget h (q_entities s0) s0 0) as (s1 & deleted & -> & Hr1 & Hp1 & Hb1 & _ & Hlen1 & _ & Hdone1); try done.
  { by apply (sql_repr_weaken floor); [lia|]. }
  { intros [name e] Hin. cbn. apply jm_get_Some; [apply Hr|done]. }
  { apply Hr. }
  destruct (record_floor _ s1 h fl Hr1) as (s2 & answers & -> & Hr2 & He2 & Hrows2 & _).
  exists s2. eexists. split; [done|]. cbn [report_floor report_deleted report_complete default].
  split_and!; [done|done|done| | | |done].
  - rewrite (row_count_ext s1 s2) by (intros; apply Hrows2). exact Hlen1.
  - intros name. rewrite Hrows2. apply Hp1.
  - intros Hw name. rewrite He2, (pd_entities _ _ Hp1), Hrows2. by apply Hdone1.
Qed.

(** C16. A prune of a store that holds its history refuses a budget under one, and nothing else.
    The history is kept above the floor it ran at; it deletes no more rows than the budget
    and reports how many; it says it is complete exactly where no row closed at or below
    the floor is left, which a prune without a budget always is. *)
Theorem sql_prune_exact (floor : Z) (s : SqlStore) (h : history) (maxVersions : option Z) :
  sql_repr floor s h ->
  match pruneBudget maxVersions with
  | Err e => q_prune s maxVersions = (s, Err e)
  | Ok budget =>
      exists s' report, q_prune s maxVersions = (s', Ok report)
        /\ sql_repr (Z.max floor (default floor (report_floor report))) s' h
        /\ in_budget budget (report_deleted report)
        /\ (report_deleted report + row_count s' (q_entities s).*1 = row_count s (q_entities s).*1)%nat
        /\ (report_complete report = true <-> nothing_prunable s' (report_floor report))
        /\ (budget = None -> report_complete report = true)
  end.
Proof.
  intros Hr. destruct (pruneBudget maxVersions) as [budget|e] eqn:Hb; [|unfold q_prune; by rewrite Hb].
  destruct (sql_prune floor s h maxVersions budget Hr Hb) as (s' & report & Hrun & _ & Hr' & Hin & Hcount & _ & Hdone & Hcomplete).
  exists s', report. split_and!; [done..| |].
  - rewrite Hcomplete. destruct (report_floor report) as [fl|]; [|done]. by eapply within_complete.
  - intros ->. rewrite Hcomplete. by destruct (report_floor report).
Qed.
