(* ===== verification/SqlRuns.v ===== *)
(** * Handles over one database

    Several [VersionedStateStore]s of [packages/state-store-sqlite/src/store.ts] may be open
    on one generation's tables, a process that was replaced and the one that replaced it.
    Their calls interleave; the tables hold one history all the same. *)
From S2P Require Import Prelude JsMap Entities Listing Retention StoreSpec Seam Declarations Versions MemoryStore SnapshotRoundTrip Installed SqlTables SqlStore SqlLaws SqlPrune.

(** ** A new database *)
Definition add_tables (tables : list (string * Table)) (es : list NormalizedEntity) : list (string * Table) :=
  foldl (fun tables e => if jm_has tables (entity_name e) then tables else jm_set tables (entity_name e) (mkTable 0 [])) tables es.

Lemma add_tables_get es name : forall tables,
  jm_get (add_tables tables es) name = match jm_get tables name with
    | Some table => Some table
    | None => if decide (name ∈ entity_name <$> es) then Some (mkTable 0 []) else None
    end.
Proof.
  induction es as [|e es IH]; intros tables.
  - cbn [add_tables foldl]. destruct (jm_get tables name); [done|]. rewrite decide_False; [done|apply not_elem_of_nil].
  - unfold add_tables in *. cbn [foldl]. rewrite IH. unfold jm_has. case_bool_decide as Hhas.
    + destruct (jm_get tables name) eqn:Hn; [done|]. csimpl.
      assert (name <> entity_name e) by (intros ->; rewrite Hn in Hhas; by destruct Hhas).
      destruct (decide (name ∈ entity_name <$> es)) as [Hin|Hin]; [rewrite decide_True; [done|by right]|].
      rewrite decide_False; [done|]. by intros [?|?]%elem_of_cons.
    + rewrite jm_get_set. csimpl. destruct (decide (entity_name e = name)) as [Hn|Hn].
      * subst name. destruct (jm_get tables (entity_name e)) eqn:Hsome; [by destruct Hhas|]. by rewrite decide_True by left.
      * destruct (jm_get tables name); [done|]. destruct (decide (name ∈ entity_name <$> es)) as [Hin|Hin]; [rewrite decide_True; [done|by right]|].
        rewrite decide_False; [done|]. intros [?|?]%elem_of_cons; [congruence|done].
Qed.

(** What the constructor decides. *)
Lemma openSqlStore_Ok t declarations setting depth maxRows token s :
  openSqlStore t declarations setting depth maxRows token = Ok s ->
  exists entities provided, normalizeEntities declarations = Ok entities /\ resolveRetention setting depth = Ok provided
    /\ s = q_migrate (mkSqlStore entities maxRows provided depth token false t).
Proof.
  unfold openSqlStore. intros (entities & Hn & (u & _ & (provided & Hp & [= <-])%bind_Ok)%bind_Ok)%bind_Ok.
  exists entities, provided. destruct (normalizeEntities declarations); [|done]. destruct (resolveRetention setting depth); [|done]. by injection Hn as ->; injection Hp as ->.
Qed.

Lemma open_new_repr declarations setting depth maxRows token s :
  token <> "" -> openSqlStore noTables declarations setting depth maxRows token = Ok s -> sql_repr (-1) s [].
Proof.
  intros Htok (entities & provided & Hn & Hp & ->)%openSqlStore_Ok. pose proof (normalizeEntities_wf _ _ Hn) as Hdecl.
  assert (forall name, jm_get (add_tables [] entities.*2) name = if decide (name ∈ entity_name <$> entities.*2) then Some (mkTable 0 []) else None) as Hget by (intros name; by rewrite add_tables_get).
  assert (forall name, rows_in (add_tables [] entities.*2) name = []) as Hrows by (intros name; unfold rows_in; rewrite Hget; by case_decide).
  split; cbn [q_migrate with_tables with_entities q_entities q_token q_tables q_claimed noTables tb_blocks tb_entities]; try fold (add_tables [] entities.*2); try done.
  - repeat constructor.
  - intros name e He. rewrite Hget, decide_True; [done|]. rewrite <- (entities_names _ (dw_wf _ Hdecl) _ _ He). apply list_elem_of_fmap_2.
    apply list_elem_of_fmap. exists (name, e). split; [done|]. apply jm_get_Some; [apply Hdecl|done].
  - intros name table. rewrite Hget. case_decide; [|done]. intros [= <-]. split; cbn [tb_rows tb_sequence]; [done|constructor|constructor|done].
  - intros name e vs He Hvs. by rewrite Hrows.
  - intros name e He. by rewrite Hrows.
Qed.

(** A handle opened on tables that hold a history: they are not changed. *)
Lemma reopen_repr floor s h declarations setting depth maxRows token s' :
  sql_repr floor s h -> token <> "" -> normalizeEntities declarations = Ok (q_entities s) ->
  openSqlStore (q_tables s) declarations setting depth maxRows token = Ok s' ->
  q_tables s' = q_tables s /\ sql_repr floor s' h.
Proof.
  intros [Hdecl Hhist Htok Hheld Hblocks Htables Hopen Hversions Hrows] Ht Hnorm (entities & provided & Hn & Hp & ->)%openSqlStore_Ok.
  rewrite Hnorm in Hn. injection Hn as <-. set (fresh := mkSqlStore (q_entities s) maxRows provided depth token false (q_tables s)).
  assert (sql_repr floor fresh h) as Hr by (split; try done; by intros [=]).
  rewrite (migrate_done floor fresh h Hr). done.
Qed.

(** ** A write that throws *)
Lemma false_guards_batch t guards statements :
  forallb (guard_holds t) guards = false ->
  Forall (fun s => statement_guards s = Some guards \/ statement_guards s = None) statements ->
  match run_batch t statements with Ok (t', _) => t' = t | Err _ => True end.
Proof.
  intros Hg. induction 1 as [|s statements Hs Hall IH]; [done|]. cbn [run_batch].
  assert (match write_statement t s with Ok t' => t' = t | Err _ => True end) as Hone.
  { assert (forall entity f, match on_table t guards entity f with Ok t' => t' = t | Err _ => True end) as Htable.
    { intros entity f. unfold on_table. destruct (jm_get _ _); [|done]. by rewrite Hg. }
    destruct s; cbn [statement_guards] in Hs; destruct Hs as [Hs|Hs]; try done; injection Hs as Hs; subst; try done; cbn [write_statement]; try (by apply Htable); try done; by rewrite Hg. }
  destruct (write_statement t s) as [t'|]; [|done]. subst t'. cbn [mbind result_bind].
  by destruct (run_batch t statements) as [[t2 a]|].
Qed.

Lemma mutationStatements_guards entities block guards m statements :
  mutationStatements entities block guards m = Ok statements -> Forall (fun s => statement_guards s = Some guards \/ statement_guards s = None) statements.
Proof.
  unfold mutationStatements. intros (e & _ & (vs & _ & Hrest)%bind_Ok)%bind_Ok. destruct m.
  - apply bind_Ok in Hrest as (stored & _ & [= <-]). repeat constructor.
  - injection Hrest as <-. repeat constructor.
Qed.

Lemma applyBlockStatements_guards entities block mutations cursor writer statements :
  applyBlockStatements entities block mutations cursor writer = Ok statements ->
  Forall (fun s => statement_guards s = Some [writer; AboveTipGuard (bp_number block)] \/ statement_guards s = None) statements.
Proof.
  unfold applyBlockStatements. intros (hash & _ & (ls & Hls & [= <-])%bind_Ok)%bind_Ok.
  constructor; [by left|]. apply Forall_app. split.
  - apply Forall_concat. apply mapR_Forall2 in Hls. induction Hls as [|m l ms ls Hm _ IH]; constructor; [|done].
    by eapply mutationStatements_guards.
  - destruct cursor as [[k v]|]; repeat constructor.
Qed.

(** A block that is refused leaves the history as it was; the store may have taken the
    writer row. *)
Lemma sql_refused floor s h block mutations cursor s' e :
  sql_repr floor s h -> q_applyBlock s block mutations cursor = (s', Err e) -> s' = s \/ s' = with_tables s true (held_tables s).
Proof.
  intros Hr. unfold q_applyBlock. destruct (applyBlockStatements _ _ _ _ _) as [statements|] eqn:Hst; [|intros [= <-]; by left].
  rewrite sendGuarded_held; [|apply Hr|apply (guarded_no_claim (q_token s)); constructor; [done|by eapply applyBlockStatements_guarded]].
  cbn [run_batch write_statement answer_of mbind result_bind].
  destruct (run_batch (held_tables s) statements) as [[t answers]|] eqn:Hrun; [|intros [= <-]; by left]. cbn [mbind result_bind].
  cbn [held_tables with_writer tb_blocks]. rewrite (latestBlock_repr floor s h) by done. destruct (last h) as [b|] eqn:Hlast; [|done]. cbn [fmap option_fmap option_map].
  case_decide as Hle; [|done]. intros [= <- _]. right. f_equal.
  destruct (forallb (guard_holds (held_tables s)) [q_guard s; AboveTipGuard (bp_number block)]) eqn:Hg.
  - apply forallb_forall with (x := AboveTipGuard (bp_number block)) in Hg as Habove; [|by right; left].
    cbn [guard_holds held_tables with_writer tb_blocks] in Habove. rewrite (sr_blocks _ _ _ Hr) in Habove. rewrite forallb_forall in Habove.
    specialize (Habove (hb_block b)). rewrite negb_true_iff, bool_decide_eq_false in Habove.
    assert (bp_number block = hb_number b) as Heq.
    { unfold hb_number in *. assert (¬ bp_number block < bp_number (hb_block b)); [|lia]. apply Habove, list_elem_of_In, list_elem_of_fmap_2. by apply last_Some_elem_of. }
    unfold applyBlockStatements in Hst. apply bind_Ok in Hst as (hash & _ & (ls & _ & [= <-])%bind_Ok).
    cbn [run_batch write_statement] in Hrun. rewrite Hg in Hrun. rewrite (bool_decide_false (bp_number _ ∉ _)) in Hrun; [done|]. intros Hnot. apply Hnot.
    cbn [bp_number held_tables with_writer tb_blocks]. rewrite (sr_blocks _ _ _ Hr), <- list_fmap_compose, Heq. apply list_elem_of_fmap. exists b. split; [done|]. by apply last_Some_elem_of.
  - pose proof (false_guards_batch _ _ _ Hg (applyBlockStatements_guards _ _ _ _ _ _ Hst)) as Hsame. by rewrite Hrun in Hsame.
Qed.

(** ** Interleaved handles *)

(** A handle's call that writes, and the floor of a prune's report. *)
Inductive Write : Type :=
  | WriteBlock (block : BlockPointer) (mutations : list Mutation) (cursor : option (string * string))
  | WriteRevert (keepUpTo : Z)
  | WritePrune (maxVersions : option Z)
  | WriteKey (key value : string)
  | WriteNoKey (key : string)
  | WriteRecord (key : string) (record : SeamRecord)
  | WriteNoRecord (key : string).

Definition floorless {A} (answer : SqlStore * result StoreError A) : SqlStore * result StoreError (option Z) :=
  match answer with (s, Ok _) => (s, Ok None) | (s, Err e) => (s, Err e) end.

Definition run_write (s : SqlStore) (w : Write) : SqlStore * result StoreError (option Z) :=
  match w with
  | WriteBlock block mutations cursor => floorless (q_applyBlock s block mutations cursor)
  | WriteRevert keepUpTo => floorless (q_revertTo s keepUpTo)
  | WritePrune maxVersions => match q_prune s maxVersions with (s, Ok report) => (s, Ok (report_floor report)) | (s, Err e) => (s, Err e) end
  | WriteKey key value => floorless (q_writeCursor s key value)
  | WriteNoKey key => floorless (q_clearCursor s key)
  | WriteRecord key record => floorless (q_writeSeamRecord s key record)
  | WriteNoRecord key => floorless (q_clearSeamRecord s key)
  end.

Section Shared.
Context (entities : entities_map).

(** What a call that was answered did to the history and to the floor its reads keep. *)
Inductive after_write (h : history) (floor : Z) : Write -> result StoreError (option Z) -> history -> Z -> Prop :=
  | after_refused w e : after_write h floor w (Err e) h floor
  | after_block block mutations cursor b pruned :
      admits entities h block mutations b -> after_write h floor (WriteBlock block mutations cursor) (Ok pruned) (h ++ [b]) floor
  | after_revert keepUpTo pruned : after_write h floor (WriteRevert keepUpTo) (Ok pruned) (history_upto keepUpTo h) floor
  | after_prune maxVersions pruned : after_write h floor (WritePrune maxVersions) (Ok pruned) h (Z.max floor (default floor pruned))
  | after_key key value pruned : after_write h floor (WriteKey key value) (Ok pruned) h floor
  | after_no_key key pruned : after_write h floor (WriteNoKey key) (Ok pruned) h floor
  | after_record key record pruned : after_write h floor (WriteRecord key record) (Ok pruned) h floor
  | after_no_record key pruned : after_write h floor (WriteNoRecord key) (Ok pruned) h floor.

(** A revert below the floor a prune ran at is not one a receiver asks for. *)
Definition above_floor (floor : Z) (w : Write) : Prop := match w with WriteRevert keepUpTo => floor <= keepUpTo | _ => True end.

(** A handle as it sees the tables now. *)
Definition seen (s : SqlStore) (t : Tables) : SqlStore := with_tables s (q_claimed s) t.

(** The handles opened so far, the tables they share, the history the answered calls made. *)
Inductive shared_run : list SqlStore -> Tables -> history -> Z -> Prop :=
  | run_first declarations setting depth maxRows token s :
      normalizeEntities declarations = Ok entities -> token <> "" ->
      openSqlStore noTables declarations setting depth maxRows token = Ok s -> shared_run [s] (q_tables s) [] (-1)
  | run_opened handles t h floor declarations setting depth maxRows token s :
      shared_run handles t h floor -> normalizeEntities declarations = Ok entities -> token <> "" ->
      openSqlStore t declarations setting depth maxRows token = Ok s -> shared_run (handles ++ [s]) (q_tables s) h floor
  | run_wrote handles t h floor i s w s' answer h' floor' :
      shared_run handles t h floor -> handles !! i = Some s -> above_floor floor w ->
      run_write (seen s t) w = (s', answer) -> after_write h floor w answer h' floor' ->
      shared_run (<[i := s']> handles) (q_tables s') h' floor'.

(** A handle that has not taken the row, holds it, or lost it. *)
Definition fits (t : Tables) (h : history) (floor : Z) (s : SqlStore) : Prop :=
  q_entities s = entities /\ sql_repr floor (with_tables s false t) h.

Lemma fits_repr t h floor s : fits t h floor s -> superseded (seen s t) \/ sql_repr floor (seen s t) h.
Proof.
  intros [He Hr]. destruct (decide (superseded (seen s t))) as [Hs|Hs]; [by left|]. right. destruct Hr as [Hdecl Hhist Htok Hheld Hblocks Htables Hopen Hversions Hrows]. split; try done.
  intros Hc. change (q_claimed (seen s t)) with (q_claimed s) in Hc. change (q_tables (seen s t)) with t. change (q_token (seen s t)) with (q_token s).
  change (q_token (with_tables s false t)) with (q_token s) in *.
  destruct (decide (default "" (tb_writer t) = q_token s)) as [Hw|Hw]; [|by destruct Hs].
  destruct (tb_writer t) as [token|]; [|by destruct Htok]. change (token = q_token s) in Hw. by rewrite Hw.
Qed.

(** A handle that lost the row is refused whatever it writes. *)
Lemma superseded_write s w : superseded s -> exists e, run_write s w = (s, Err e).
Proof.
  intros Hs. destruct (superseded_writes_nothing s Hs) as (Happly & Hrevert & Hprune & Hkey & Hno & Hrec & Hnorec).
  destruct w; cbn [run_write].
  - destruct (Happly block mutations cursor) as [e ->]. by exists e.
  - destruct (Hrevert keepUpTo) as [e ->]. by exists e.
  - destruct (Hprune maxVersions) as [e ->]. by exists e.
  - destruct (Hkey key value) as [e ->]. by exists e.
  - destruct (Hno key) as [e ->]. by exists e.
  - destruct (Hrec key record) as [e ->]. by exists e.
  - destruct (Hnorec key) as [e ->]. by exists e.
Qed.

End Shared.

(** *** A call changes the tables and whether the row was taken, and nothing else of its handle *)
Definition of_handle (s s' : SqlStore) : Prop := exists claimed t, s' = with_tables s claimed t.

#[export] Instance of_handle_preorder : PreOrder of_handle.
Proof.
  split.
  - intros s. exists (q_claimed s), (q_tables s). by destruct s.
  - intros s1 s2 s3 (c & t & ->) (c' & t' & ->). by exists c', t'.
Qed.

Lemma sendGuarded_handle s operation statements : of_handle s (sendGuarded s operation statements).1.
Proof.
  unfold sendGuarded. destruct (run_batch _ _) as [[t results]|]; [|done]. case_decide; by eexists _, _.
Qed.

Lemma pruneEntity_handle fl budget fuel e : forall s deleted, of_handle s (pruneEntity fl budget fuel s e deleted).1.
Proof.
  induction fuel as [|fuel IH]; intros s deleted; cbn [pruneEntity]; [done|]. destruct (within budget deleted); [|done].
  destruct (prunableVersions _ _ _) as [|r l]; [done|]. pose proof (sendGuarded_handle s "prune" [DropVersions (entity_name e) (r :: l) [q_guard s]]) as Hs.
  destruct (sendGuarded s _ _) as [s1 [answers|]]; [|done]. by etrans; [exact Hs|].
Qed.

Lemma pruneEntities_handle fl budget es : forall s deleted, of_handle s (pruneEntities fl budget s es deleted).1.
Proof.
  induction es as [|e es IH]; intros s deleted; cbn [pruneEntities]; [done|].
  pose proof (pruneEntity_handle fl budget (S (length (rows_of s (entity_name e)))) e s deleted) as Hs.
  destruct (pruneEntity _ _ _ _ _ _) as [s1 [d|]]; [|done]. by etrans; [exact Hs|].
Qed.

Lemma q_prune_handle s maxVersions : of_handle s (q_prune s maxVersions).1.
Proof.
  unfold q_prune. destruct (pruneBudget maxVersions) as [budget|]; [|done].
  pose proof (sendGuarded_handle s "prune" [LatestBlock]) as H0. destruct (sendGuarded s "prune" _) as [s0 [results|]]; [|done]. cbn [fst] in H0.
  destruct (_ ≫= _) as [fl|]; [|done].
  pose proof (pruneEntities_handle fl budget (q_entities s0).*2 s0 0) as Hp. destruct (pruneEntities _ _ _ _ _) as [s1 [d|]]; [|by etrans]. cbn [fst] in Hp.
  pose proof (sendGuarded_handle s1 "prune" [WriteSeamRecord "retentionEnforcement" (PruneRecord fl) [q_guard s1]]) as Hw.
  destruct (sendGuarded s1 "prune" _) as [s2 [answers|]]; cbn [fst] in *; by etrans; [exact H0|etrans].
Qed.

Lemma run_write_handle s w : of_handle s (run_write s w).1.
Proof.
  assert (forall A (answer : SqlStore * result StoreError A), (floorless answer).1 = answer.1) as Hf by (by intros A [s' []]).
  destruct w; cbn [run_write]; rewrite ?Hf.
  - unfold q_applyBlock. destruct (applyBlockStatements _ _ _ _ _) as [statements|]; [|done].
    pose proof (sendGuarded_handle s "applyBlock" (LatestBlock :: statements)) as Hs. by destruct (sendGuarded s _ _).
  - pose proof (sendGuarded_handle s "revertTo" (revertToStatements (q_entities s) keepUpTo (q_guard s))) as Hs. unfold q_revertTo. by destruct (sendGuarded s _ _).
  - pose proof (q_prune_handle s maxVersions) as Hs. by destruct (q_prune s maxVersions) as [s' [report|]].
  - pose proof (sendGuarded_handle s "writeCursor" [WriteCursor key value [q_guard s]]) as Hs. unfold q_writeCursor. by destruct (sendGuarded s _ _).
  - pose proof (sendGuarded_handle s "clearCursor" [ClearCursor key [q_guard s]]) as Hs. unfold q_clearCursor. by destruct (sendGuarded s _ _).
  - pose proof (sendGuarded_handle s "writeSeamRecord" [WriteSeamRecord key record [q_guard s]]) as Hs. unfold q_writeSeamRecord. by destruct (sendGuarded s _ _).
  - pose proof (sendGuarded_handle s "clearSeamRecord" [ClearSeamRecord key [q_guard s]]) as Hs. unfold q_clearSeamRecord. by destruct (sendGuarded s _ _).
Qed.

(** A handle that has not lost the row changes the history as its answer says. *)
Lemma claim_repr floor s h : sql_repr floor s h -> sql_repr floor (with_tables s true (held_tables s)) h.
Proof. intros Hr. by apply sql_repr_tables. Qed.

Lemma held_write floor s h w s' answer h' floor' :
  sql_repr floor s h -> above_floor floor w -> run_write s w = (s', answer) -> after_write (q_entities s) h floor w answer h' floor' ->
  sql_repr floor' s' h'.
Proof.
  intros Hr Habove Hrun Hafter. destruct w; cbn [run_write above_floor] in *.
  - destruct (q_applyBlock s block mutations cursor) as [s1 [[]|e]] eqn:Happ; injection Hrun as <- <-; inversion Hafter; subst.
    + match goal with Had : admits _ _ _ _ _ |- _ => destruct (proj1 (sql_apply _ _ _ block mutations cursor Hr) _ Had) as (s2 & Happ2 & Hr2 & _) end.
      rewrite Happ in Happ2. by injection Happ2 as <-.
    + destruct (sql_refused _ _ _ _ _ _ _ _ Hr Happ) as [->| ->]; [done|by apply claim_repr].
  - destruct (sql_revert floor floor s h keepUpTo Hr) as (s1 & Hrev & Hr1 & _); [by left|]. rewrite Hrev in Hrun. injection Hrun as <- <-. by inversion Hafter; subst.
  - destruct (pruneBudget maxVersions) as [budget|] eqn:Hb.
    + destruct (sql_prune floor s h maxVersions budget Hr Hb) as (s1 & report & Hp & _ & Hr1 & _). rewrite Hp in Hrun. injection Hrun as <- <-. by inversion Hafter; subst.
    + unfold q_prune in Hrun. rewrite Hb in Hrun. injection Hrun as <- <-. by inversion Hafter; subst.
  - destruct (sql_writeCursor floor s h key value Hr) as [Hw Hr1]. rewrite Hw in Hrun. injection Hrun as <- <-. by inversion Hafter; subst.
  - destruct (sql_clearCursor floor s h key Hr) as [Hw Hr1]. rewrite Hw in Hrun. injection Hrun as <- <-. by inversion Hafter; subst.
  - destruct (sql_writeSeamRecord floor s h key record Hr) as [Hw Hr1]. rewrite Hw in Hrun. injection Hrun as <- <-. by inversion Hafter; subst.
  - destruct (sql_clearSeamRecord floor s h key Hr) as [Hw Hr1]. rewrite Hw in Hrun. injection Hrun as <- <-. by inversion Hafter; subst.
Qed.

(** *** Every run *)
Lemma fits_tables entities floor s s' h :
  sql_repr floor s h -> q_entities s = entities -> q_entities s' = entities -> q_token s' <> "" -> fits entities (q_tables s) h floor s'.
Proof.
  intros [Hdecl Hhist Htok Hheld Hblocks Htables Hopen Hversions Hrows] He He' Ht. split; [done|].
  split; cbn [with_tables q_entities q_tables q_token]; rewrite ?He'; try (by rewrite <- He); try done; rewrite <- He; done.
Qed.

Lemma fits_all entities floor s h handles :
  sql_repr floor s h -> q_entities s = entities -> (forall s', s' ∈ handles -> q_entities s' = entities /\ q_token s' <> "") ->
  Forall (fits entities (q_tables s) h floor) handles.
Proof. intros Hr He Hall. apply Forall_forall. intros s' Hs'. destruct (Hall s' Hs') as [He' Ht]. by apply fits_tables. Qed.

Lemma shared_run_fits entities handles t h floor :
  shared_run entities handles t h floor -> Forall (fits entities t h floor) handles /\ exists s, s ∈ handles.
Proof.
  induction 1 as [declarations setting depth maxRows token s Hn Ht Hopen|handles t h floor declarations setting depth maxRows token s Hrun [IH (s0 & Hs0)] Hn Ht Hopen
    |handles t h floor i s w s' answer h' floor' Hrun [IH _] Hi Habove Hw Hafter].
  - pose proof (open_new_repr _ _ _ _ _ _ Ht Hopen) as Hr. apply openSqlStore_Ok in Hopen as Hfields. destruct Hfields as (es & provided & Hes & _ & Hs). rewrite Hn in Hes. injection Hes as <-.
    split; [|exists s; by left]. apply fits_all; [done|by subst s|]. intros s' ->%list_elem_of_singleton. by subst s.
  - rewrite Forall_forall in IH. destruct (IH s0 Hs0) as [He0 Hr0]. apply openSqlStore_Ok in Hopen as Hfields. destruct Hfields as (es & provided & Hes & _ & Hs). rewrite Hn in Hes. injection Hes as <-.
    destruct (reopen_repr floor (with_tables s0 false t) h declarations setting depth maxRows token s Hr0 Ht) as [Htables Hr]; [by rewrite Hn, <- He0|done|].
    split; [|exists s; apply elem_of_app; right; by left]. apply fits_all; [done|by subst s|]. intros s' [Hs'|Hs'%list_elem_of_singleton]%elem_of_app; [|by subst s' s].
    destruct (IH s' Hs') as [He' Hr']. split; [done|]. apply (sr_token _ _ _ Hr').
  - split; [|exists s'; eapply list_elem_of_lookup_2; apply list_lookup_insert_eq; by eapply lookup_lt_Some].
    rewrite Forall_forall in IH. pose proof (IH s (list_elem_of_lookup_2 _ _ _ Hi)) as [He Hr].
    pose proof (run_write_handle (seen s t) w) as Hhandle. rewrite Hw in Hhandle. destruct Hhandle as (c & t' & Hs'). cbn [fst] in Hs'.
    assert (forall s2, s2 ∈ <[i:=s']> handles -> q_entities s2 = entities /\ q_token s2 <> "") as Hall.
    { intros s2 (j & Hj)%list_elem_of_lookup. destruct (decide (i = j)) as [<-|Hne].
      - rewrite list_lookup_insert_eq in Hj by (by eapply lookup_lt_Some). injection Hj as <-. rewrite Hs'. split; [exact He|apply (sr_token _ _ _ Hr)].
      - rewrite list_lookup_insert_ne in Hj by done. destruct (IH s2 (list_elem_of_lookup_2 _ _ _ Hj)) as [He2 Hr2]. split; [done|apply (sr_token _ _ _ Hr2)]. }
    destruct (fits_repr entities t h floor s (conj He Hr)) as [Hsup|Hheld].
    + destruct (superseded_write (seen s t) w Hsup) as [e Hsame]. rewrite Hw in Hsame. injection Hsame as Hsame ->. inversion Hafter; subst h' floor'.
      rewrite Hsame in Hall |- *. by apply (fits_all entities floor (with_tables s false t) h).
    + assert (sql_repr floor' s' h') as Hr' by (rewrite <- He in Hafter; by eapply held_write).
      apply fits_all; [done|by rewrite Hs'|done].
Qed.

(** C14. However the calls of the handles opened on one database, under one set of declarations,
    follow one another, each call a transaction of its own and no revert asking for a block
    below one a prune ran at, its tables hold one history: the blocks recorded and reverted
    by the calls that were answered, in their order.  Every handle reads that history,
    whether it may still write or not; one that took the row and lost it is refused whatever
    it writes and changes nothing; any other records exactly the blocks the history admits,
    and may revert to any block no prune has passed. *)
Theorem handles_share_history (entities : entities_map) (handles : list SqlStore) (t : Tables) (h : history) (floor : Z) (i : nat) (s : SqlStore) :
  shared_run entities handles t h floor -> handles !! i = Some s ->
  (forall entity e id key, jm_get entities entity = Some e -> entityKey e id = Ok key ->
     answers e (current h key) (q_getCurrent (seen s t) entity id))
  /\ (forall entity e id key at_, jm_get entities entity = Some e -> entityKey e id = Ok key -> floor <= at_ ->
     match assertRetained (q_capabilities s) at_ (hb_number <$> last h) with
     | Ok _ => answers e (as_of h at_ key) (q_getAsOf (seen s t) entity id at_)
     | Err error => q_getAsOf (seen s t) entity id at_ = Err error
     end)
  /\ if decide (superseded (seen s t)) then forall w, exists e, run_write (seen s t) w = (seen s t, Err e)
     else (forall block mutations cursor,
             is_Ok (q_applyBlock (seen s t) block mutations cursor).2 <-> exists b, admits entities h block mutations b)
          /\ forall keepUpTo, floor <= keepUpTo -> is_Ok (q_revertTo (seen s t) keepUpTo).2.
Proof.
  intros Hrun Hi. destruct (shared_run_fits _ _ _ _ _ Hrun) as [Hall _]. rewrite Forall_forall in Hall.
  pose proof (Hall s (list_elem_of_lookup_2 _ _ _ Hi)) as [He Hr]. split_and!.
  - intros entity e id key Hent Hkey. by apply (sql_getCurrent floor (with_tables s false t) h entity e id key); [|cbn; rewrite He|].
  - intros entity e id key at_ Hent Hkey Hle. by apply (sql_getAsOf floor (with_tables s false t) h entity e id key at_); [|cbn; rewrite He| |].
  - destruct (decide (superseded (seen s t))) as [Hsup|Hsup]; [intros w; by apply superseded_write|].
    destruct (fits_repr entities t h floor s (conj He Hr)) as [?|Hheld]; [done|]. split.
    + intros block mutations cursor. destruct (sql_apply floor (seen s t) h block mutations cursor Hheld) as [Hadm Honly].
      change (q_entities (seen s t)) with (q_entities s) in *. rewrite He in *. split.
      * destruct (q_applyBlock (seen s t) block mutations cursor) as [s' [[]|]] eqn:Happ; [|done]. intros _. by eapply Honly.
      * intros [b Had]. by destruct (Hadm b Had) as (s' & -> & _).
    + intros keepUpTo Hle. by destruct (sql_revert floor floor (seen s t) h keepUpTo Hheld) as (s' & -> & _); [left|].
Qed.

(** *** Taking the row over *)
Lemma sendGuarded_takes s operation statements s' answers :
  sendGuarded s operation statements = (s', Ok answers) -> tb_writer (q_tables s') = Some (q_token s) /\ q_token s' = q_token s.
Proof.
  unfold sendGuarded. rewrite app_assoc, run_batch_app. destruct (run_batch _ _) as [[t a]|]; [|done].
  cbn [mbind result_bind run_batch write_statement answer_of]. rewrite last_snoc. case_decide as Hheld; [|done]. by intros [= <- _].
Qed.

Lemma run_write_takes s w s' answer : run_write s w = (s', Ok answer) -> tb_writer (q_tables s') = Some (q_token s).
Proof.
  assert (forall A (r : SqlStore * result StoreError A), floorless r = (s', Ok answer) -> exists a, r = (s', Ok a)) as Hf by (intros A [s1 [a|]] [= -> _]; by exists a).
  assert (forall operation statements a, (let '(s, results) := sendGuarded s operation statements in (s, unit_of results)) = (s', Ok a) -> tb_writer (q_tables s') = Some (q_token s)) as Hsend.
  { intros operation statements a. destruct (sendGuarded _ _ _) as [s1 [answers|]] eqn:Hs; [|done]. intros [= -> _]. by eapply sendGuarded_takes. }
  destruct w; cbn [run_write]; try (intros [a Ha]%Hf; by eapply Hsend).
  - intros [a Ha]%Hf. unfold q_applyBlock in Ha. destruct (applyBlockStatements _ _ _ _ _) as [statements|]; [|done].
    destruct (sendGuarded _ _ _) as [s1 [answers|]] eqn:Hs; [|done]. injection Ha as -> _. by eapply sendGuarded_takes.
  - pose proof (q_prune_handle s maxVersions) as Hh. destruct (q_prune s maxVersions) as [s1 [report|]] eqn:Hp; [|done]. intros [= -> _]. unfold q_prune in Hp.
    destruct (pruneBudget maxVersions) as [budget|]; [|done]. destruct (sendGuarded s "prune" _) as [s0 [results|]] eqn:H0; [|done].
    apply sendGuarded_takes in H0 as [H0 Htok0]. destruct (_ ≫= _) as [fl|]; [|by injection Hp as -> _].
    pose proof (pruneEntities_handle fl budget (q_entities s0).*2 s0 0) as (c & t & Ht). destruct (pruneEntities _ _ _ _ _) as [s2 [d|]]; [|done]. cbn [fst] in Ht.
    destruct (sendGuarded s2 "prune" _) as [s3 [answers|]] eqn:H3; [|done]. apply sendGuarded_takes in H3 as [H3 _]. injection Hp as -> _.
    rewrite H3, Ht. by rewrite <- Htok0.
Qed.

(** C15. A write that is answered takes the database over: from then on a handle that had taken
    the row under another token is refused whatever it writes, and changes nothing. *)
Theorem answered_write_takes_over (first second second' : SqlStore) (t : Tables) (w : Write) (answer : option Z) :
  q_claimed first = true -> q_token first <> q_token second ->
  run_write (seen second t) w = (second', Ok answer) ->
  forall w', exists e, run_write (seen first (q_tables second')) w' = (seen first (q_tables second'), Err e).
Proof.
  intros Hc Hne Hrun w'. apply superseded_write. split; [done|]. apply run_write_takes in Hrun.
  cbn [seen with_tables q_tables q_token] in *. rewrite Hrun. exact (not_eq_sym Hne).
Qed.

(** ** The theorems at work *)
Definition sample_handle (t : Tables) (token : string) : SqlStore :=
  match openSqlStore t sample_declarations None None 500 token with
  | Ok s => s
  | Err _ => mkSqlStore [] 500 Unbounded None token false t
  end.

Lemma sample_handle_opened t token : openSqlStore t sample_declarations None None 500 token = Ok (sample_handle t token).
Proof. unfold sample_handle, openSqlStore. rewrite sample_accepted. reflexivity. Qed.

Lemma sample_normalized : normalizeEntities sample_declarations = Ok accepted_entities.
Proof. unfold accepted_entities. by rewrite sample_accepted. Qed.

(** One process writes a block; its successor opens the same tables and writes the next. *)
Definition sample_write (n amount : Z) (hash : string) : Write := WriteBlock (mkPointer n hash (1000 + n)) [sample_item 1 amount] None.
Definition sample_before_handover : SqlStore := sample_handle noTables "first".
Definition sample_first : SqlStore := (run_write (seen sample_before_handover (q_tables sample_before_handover)) (sample_write 7 100 "0xa7")).1.
Definition sample_successor : SqlStore := sample_handle (q_tables sample_first) "second".
Definition sample_second : SqlStore := (run_write (seen sample_successor (q_tables sample_successor)) (sample_write 8 200 "0xa8")).1.

Lemma sample_answers :
  (run_write (seen sample_before_handover (q_tables sample_before_handover)) (sample_write 7 100 "0xa7")).2 = Ok None
  /\ (run_write (seen sample_successor (q_tables sample_successor)) (sample_write 8 200 "0xa8")).2 = Ok None.
Proof. split; vm_compute; reflexivity. Qed.

Lemma sample_handover :
  exists b1 b2, shared_run accepted_entities [sample_first; sample_second] (q_tables sample_second) ([b1] ++ [b2]) (-1)
    /\ (current ([b1] ++ [b2]) (sample_key "1") ≫= fun row => row !! "amount") = Some (VBigInt 200).
Proof.
  assert (exists b1 b2, admits accepted_entities [] (mkPointer 7 "0xa7" 1007) [sample_item 1 100] b1
    /\ admits accepted_entities [b1] (mkPointer 8 "0xa8" 1008) [sample_item 1 200] b2
    /\ (current ([b1] ++ [b2]) (sample_key "1") ≫= fun row => row !! "amount") = Some (VBigInt 200)) as (b1 & b2 & H1 & H2 & Hcur).
  { eexists _, _. split; [admitted "0xa7"|]. split; [admitted "0xa8"|]. vm_compute. reflexivity. }
  exists b1, b2. split; [|exact Hcur]. destruct sample_answers as [A1 A2].
  assert (shared_run accepted_entities [sample_first] (q_tables sample_first) ([] ++ [b1]) (-1)) as Hfirst.
  { apply (run_wrote accepted_entities [sample_before_handover] (q_tables sample_before_handover) [] (-1) 0 sample_before_handover (sample_write 7 100 "0xa7") sample_first (Ok None)).
    - by eapply run_first; [apply sample_normalized| |apply sample_handle_opened].
    - done.
    - done.
    - rewrite <- A1. apply surjective_pairing.
    - by constructor. }
  apply (run_wrote accepted_entities [sample_first; sample_successor] (q_tables sample_successor) [b1] (-1) 1 sample_successor (sample_write 8 200 "0xa8") sample_second (Ok None)).
  - by eapply (run_opened accepted_entities [sample_first]); [exact Hfirst|apply sample_normalized| |apply sample_handle_opened].
  - done.
  - done.
  - rewrite <- A2. apply surjective_pairing.
  - by constructor.
Qed.

Lemma handles_share_history_witness :
  exists h, shared_run accepted_entities [sample_first; sample_second] (q_tables sample_second) h (-1)
    /\ superseded (seen sample_first (q_tables sample_second)) /\ ~ superseded (seen sample_second (q_tables sample_second))
    /\ (exists answer, q_getCurrent (seen sample_first (q_tables sample_second)) "Holder" (sample_id_of 1) = Ok (Some answer) /\ answer !! "amount" = Some (VBigInt 200))
    /\ forall w, exists e, run_write (seen sample_first (q_tables sample_second)) w = (seen sample_first (q_tables sample_second), Err e).
Proof.
  destruct sample_handover as (b1 & b2 & Hrun & Hcur). exists ([b1] ++ [b2]). split; [exact Hrun|].
  assert (superseded (seen sample_first (q_tables sample_second))) as Hsup by (apply (bool_decide_unpack _); vm_compute; exact I).
  split; [exact Hsup|]. split; [apply (bool_decide_unpack _); vm_compute; exact I|].
  destruct (handles_share_history accepted_entities _ _ _ _ 0 sample_first Hrun eq_refl) as (Hread & _ & Hrefused). rewrite decide_True in Hrefused by exact Hsup.
  split; [|exact Hrefused].
  assert (exists e, jm_get accepted_entities "Holder" = Some e /\ e = mkEntity "Holder" ["id"; "account"] [("amount", U256Field blob)] (Some ("Token", "holders"))) as (e & He & Hedef)
    by (eexists; split; vm_compute; reflexivity).
  pose proof (Hread "Holder" e (sample_id_of 1) (sample_key "1") He) as H1. destruct (current ([b1] ++ [b2]) (sample_key "1")) as [row|] eqn:Hrow; [|discriminate Hcur].
  destruct H1 as (a & Ha & Hsame); [rewrite Hedef; vm_compute; reflexivity|]. exists a. split; [exact Ha|].
  rewrite Hsame; [exact Hcur|]. rewrite Hedef. apply (bool_decide_unpack _). by vm_compute.
Defined.

Lemma answered_write_takes_over_witness :
  q_claimed sample_first = true
  /\ exists e, q_revertTo (seen sample_first (q_tables sample_second)) 7 = (seen sample_first (q_tables sample_second), Err e).
Proof.
  split; [vm_compute; reflexivity|]. destruct (answered_write_takes_over sample_first sample_successor sample_second (q_tables sample_successor) (sample_write 8 200 "0xa8") None) with (w' := WriteRevert 7) as [e He].
  - vm_compute. reflexivity.
  - vm_compute. discriminate.
  - rewrite <- (proj2 sample_answers). apply surjective_pairing.
  - cbn [run_write] in He. destruct (q_revertTo _ 7) as [s [[]|e']]; [discriminate He|]. cbn [floorless] in He. injection He as -> ->. by exists e.
Defined.

(** A window of one block over three writes of one row: the first version may go. *)
Definition sample_window : result OpenError SqlStore := openSqlStore noTables sample_declarations (Some (SetBlocks 1)) (Some 1) 500 "first".

Definition sample_blocks : list (Z * Z * string) := [(7, 100, "0xa7"); (8, 200, "0xa8"); (9, 300, "0xa9")].

Lemma sample_window_repr :
  match sample_window with
  | Ok s0 => exists s h, sql_repr (-1) s h /\ (q_prune s None).2 = Ok (mkReport (Some 9) (Some 8) 1 true)
  | Err _ => False
  end.
Proof.
  destruct sample_window as [s0|] eqn:Hopen; [|by vm_compute in Hopen].
  assert (sql_repr (-1) s0 []) as H0 by (by apply (open_new_repr sample_declarations (Some (SetBlocks 1)) (Some 1) 500 "first")).
  set (write s (x : Z * Z * string) := (q_applyBlock s (mkPointer x.1.1 x.2 (1000 + x.1.1)) [sample_item 1 x.1.2] None).1).
  assert (forall s h x b, sql_repr (-1) s h -> admits (q_entities s) h (mkPointer x.1.1 x.2 (1000 + x.1.1)) [sample_item 1 x.1.2] b -> q_entities (write s x) = q_entities s /\ sql_repr (-1) (write s x) (h ++ [b])) as Hstep.
  { intros s h x b Hs Hb. destruct (proj1 (sql_apply _ _ _ _ _ None Hs) b Hb) as (s' & Happ & Hr' & He & _). unfold write. by rewrite Happ. }
  assert (q_entities s0 = accepted_entities) as He0 by (vm_compute in Hopen; injection Hopen as <-; vm_compute; reflexivity).
  assert (exists b1 b2 b3, admits accepted_entities [] (mkPointer 7 "0xa7" 1007) [sample_item 1 100] b1
    /\ admits accepted_entities [b1] (mkPointer 8 "0xa8" 1008) [sample_item 1 200] b2
    /\ admits accepted_entities [b1; b2] (mkPointer 9 "0xa9" 1009) [sample_item 1 300] b3) as (b1 & b2 & b3 & B1 & B2 & B3).
  { eexists _, _, _. split; [admitted "0xa7"|]. split; [admitted "0xa8"|admitted "0xa9"]. }
  destruct (Hstep s0 [] (7, 100, "0xa7") b1 H0) as [He1 H1]; [by rewrite He0|].
  destruct (Hstep _ _ (8, 200, "0xa8") b2 H1) as [He2 H2]; [by rewrite He1, He0|].
  destruct (Hstep _ _ (9, 300, "0xa9") b3 H2) as [He3 H3]; [by rewrite He2, He1, He0|].
  eexists _, _. split; [exact H3|]. vm_compute in Hopen. injection Hopen as <-. vm_compute. reflexivity.
Qed.

Lemma sql_prune_exact_witness :
  exists s s' h report, sql_repr (-1) s h /\ q_prune s None = (s', Ok report)
    /\ report_deleted report = 1%nat /\ sql_repr 8 s' h /\ nothing_prunable s' (Some 8).
Proof.
  pose proof sample_window_repr as Hw. destruct sample_window as [s0|]; [|done]. destruct Hw as (s & h & Hr & Hreport).
  destruct (sql_prune_exact (-1) s h None Hr) as (s' & report & Hrun & Hr' & _ & _ & Hcomplete & _).
  rewrite Hrun in Hreport. cbn [snd] in Hreport. injection Hreport as Hreport. exists s, s', h, report. rewrite Hreport in *.
  split; [exact Hr|]. split; [exact Hrun|]. split; [reflexivity|]. split; [exact Hr'|]. by apply Hcomplete.
Defined.
