(* ===== verification/Cursor.v ===== *)
(** * The codec of what is persisted and shipped

    [packages/core/src/utils/bigint.ts] (the one BigInt convention),
    [packages/processor-entities/src/cursor.ts] (the sync cursor as a string) and
    the wire codec of [packages/core/src/streamBuilder.ts].  A TypeScript cast
    ([as LastSync]) is the reader of the shape here: a text of another shape is no
    cursor. *)
From S2P Require Import Prelude JsMap Types Json.

#[local] Set Warnings "-register-all".

Section JsValInd.
Variable P : JsVal -> Prop.
Hypothesis PNull : P JNull.
Hypothesis PBool : forall b, P (JBool b).
Hypothesis PNum : forall n, P (JNum n).
Hypothesis PBigInt : forall n, P (JBigInt n).
Hypothesis PStr : forall s, P (JStr s).
Hypothesis PArr : forall items, Forall P items -> P (JArr items).
Hypothesis PObj : forall fields, Forall (fun p => P p.2) fields -> P (JObj fields).

Fixpoint JsVal_rect' (v : JsVal) : P v :=
  match v with
  | JNull => PNull
  | JBool b => PBool b
  | JNum n => PNum n
  | JBigInt n => PBigInt n
  | JStr s => PStr s
  | JArr items =>
      PArr items ((fix go l : Forall P l :=
        match l with [] => Forall_nil_2 P | x :: l' => Forall_cons_2 P x l' (JsVal_rect' x) (go l') end) items)
  | JObj fields =>
      PObj fields ((fix go l : Forall (fun p => P p.2) l :=
        match l with
        | [] => Forall_nil_2 (fun p => P p.2)
        | x :: l' => Forall_cons_2 (fun p => P p.2) x l' (JsVal_rect' x.2) (go l')
        end) fields)
  end.
End JsValInd.

(** ** The tag *)
Definition BIGINT_TAG : string := "__bigint__".

(** [taggedBnReplacer], as [JSON.stringify] applies it at every depth. *)
Fixpoint taggedBnReplacer (v : JsVal) : Json :=
  match v with
  | JNull => NNull
  | JBool b => NBool b
  | JNum n => NNum n
  | JBigInt n => NObj [(BIGINT_TAG, NStr (pretty n))]
  | JStr s => NStr s
  | JArr items => NArr (taggedBnReplacer <$> items)
  | JObj fields => NObj ((fun p => (p.1, taggedBnReplacer p.2)) <$> fields)
  end.

(** [BigInt(text)] of a decimal numeral; it throws on anything else. *)
Definition BigInt (text : string) : option Z :=
  match parse_number text with
  | Some (NNum n, rest) => if decide (rest = "") then Some n else None
  | _ => None
  end.

(** What the reviver does with an object whose members are revived already. *)
Definition reviveObject (fields : list (string * JsVal)) : option JsVal :=
  match fields with
  | [(key, JStr text)] => if decide (key = BIGINT_TAG) then JBigInt <$> BigInt text else Some (JObj fields)
  | _ => Some (JObj fields)
  end.

(** [taggedBnReviver], as [JSON.parse] applies it, members first. *)
Fixpoint taggedBnReviver (v : Json) : option JsVal :=
  match v with
  | NNull => Some JNull
  | NBool b => Some (JBool b)
  | NNum n => Some (JNum n)
  | NStr s => Some (JStr s)
  | NArr items =>
      JArr <$> (fix go l :=
        match l with
        | [] => Some []
        | x :: l' => match taggedBnReviver x, go l' with Some y, Some ys => Some (y :: ys) | _, _ => None end
        end) items
  | NObj fields =>
      match (fix go l :=
        match l with
        | [] => Some []
        | (k, x) :: l' =>
            match taggedBnReviver x, go l' with Some y, Some ys => Some ((k, y) :: ys) | _, _ => None end
        end) fields with
      | Some fields' => reviveObject fields'
      | None => None
      end
  end.

Definition stringify (v : JsVal) : string := json_text (taggedBnReplacer v).
Definition parse (text : string) : option JsVal := json_parse text ≫= taggedBnReviver.

(** ** Values as their JavaScript objects *)
Definition strings_js (l : list string) : JsVal := JArr (JStr <$> l).

Definition optional {A} (key : string) (f : A -> JsVal) (a : option A) : list (string * JsVal) :=
  match a with Some a => [(key, f a)] | None => [] end.

Definition entry_js (e : SourceHashEntry) : JsVal :=
  JObj ([("startBlock", JNum (startBlock e)); ("hash", JStr (entry_hash e))]
        ++ optional "streamHash" JStr (streamHash e) ++ optional "legacyHash" JStr (legacyHash e)).

Definition context_js (c : ContextIdentifier) : JsVal :=
  JObj [("source", JArr (entry_js <$> ctx_source c)); ("config", JStr (ctx_config c));
        ("processor", JStr (ctx_processor c))].

Definition decoded_js (d : Decoded) : list (string * JsVal) :=
  match d with
  | Parsed eventName args => [("eventName", JStr eventName); ("args", args)]
  | DecodeFailure decodeError => [("decodeError", JStr decodeError)]
  end.

Definition log_js (e : LogEvent) : JsVal :=
  JObj ([("blockNumber", JNum (blockNumber e)); ("blockHash", JStr (blockHash e));
         ("transactionIndex", JNum (transactionIndex e)); ("removed", JBool (removed e));
         ("address", JStr (address e)); ("data", JStr (data e)); ("topics", strings_js (topics e));
         ("transactionHash", JStr (transactionHash e)); ("logIndex", JNum (logIndex e))]
        ++ optional "blockTimestamp" JNum (blockTimestamp e) ++ decoded_js (decoded e)).

Definition block_js (b : EventBlock) : JsVal :=
  JObj [("hash", JStr (hash b)); ("number", JNum (number b)); ("events", JArr (log_js <$> events b))].

Definition lastSync_js (s : LastSync) : JsVal :=
  JObj [("context", context_js (context s)); ("lastToBlock", JNum (lastToBlock s));
        ("lastFromBlock", JNum (lastFromBlock s)); ("latestBlock", JNum (latestBlock s));
        ("unconfirmedBlocks", JArr (block_js <$> unconfirmedBlocks s))].

(** ** Reading the shapes back *)
Definition as_num (v : JsVal) : option Z := match v with JNum n => Some n | _ => None end.
Definition as_str (v : JsVal) : option string := match v with JStr s => Some s | _ => None end.
Definition as_bool (v : JsVal) : option bool := match v with JBool b => Some b | _ => None end.
Definition as_obj (v : JsVal) : option (list (string * JsVal)) := match v with JObj fs => Some fs | _ => None end.
Definition as_list {A} (f : JsVal -> option A) (v : JsVal) : option (list A) :=
  match v with JArr items => mapM f items | _ => None end.

(** A member that must be there, and one that may be absent. *)
Definition need {A} (f : JsVal -> option A) (fs : list (string * JsVal)) (key : string) : option A :=
  jm_get fs key ≫= f.
Definition may {A} (f : JsVal -> option A) (fs : list (string * JsVal)) (key : string) : option (option A) :=
  match jm_get fs key with None => Some None | Some v => Some <$> f v end.

Definition as_entry (v : JsVal) : option SourceHashEntry :=
  fs ← as_obj v; b ← need as_num fs "startBlock"; h ← need as_str fs "hash";
  sh ← may as_str fs "streamHash"; lh ← may as_str fs "legacyHash"; Some (mkEntry b h sh lh).

Definition as_context (v : JsVal) : option ContextIdentifier :=
  fs ← as_obj v; src ← need (as_list as_entry) fs "source"; c ← need as_str fs "config";
  p ← need as_str fs "processor"; Some (mkContext src c p).

(** ['decodeError' in event] *)
Definition as_decoded (fs : list (string * JsVal)) : option Decoded :=
  match jm_get fs "decodeError" with
  | Some e => DecodeFailure <$> as_str e
  | None => n ← need as_str fs "eventName"; a ← need Some fs "args"; Some (Parsed n a)
  end.

Definition as_log (v : JsVal) : option LogEvent :=
  fs ← as_obj v; bn ← need as_num fs "blockNumber"; bh ← need as_str fs "blockHash";
  ti ← need as_num fs "transactionIndex"; rm ← need as_bool fs "removed"; ad ← need as_str fs "address";
  da ← need as_str fs "data"; tp ← need (as_list as_str) fs "topics"; th ← need as_str fs "transactionHash";
  li ← need as_num fs "logIndex"; ts ← may as_num fs "blockTimestamp"; d ← as_decoded fs;
  Some (mkLog bn bh ti rm ad da tp th li ts d).

Definition as_block (v : JsVal) : option EventBlock :=
  fs ← as_obj v; h ← need as_str fs "hash"; n ← need as_num fs "number";
  es ← need (as_list as_log) fs "events"; Some (mkBlock h n es).

Definition as_lastSync (v : JsVal) : option LastSync :=
  fs ← as_obj v; c ← need as_context fs "context"; to ← need as_num fs "lastToBlock";
  from ← need as_num fs "lastFromBlock"; tip ← need as_num fs "latestBlock";
  w ← need (as_list as_block) fs "unconfirmedBlocks"; Some (mkSync c tip from to w).

(** ** [cursor.ts] *)
Definition SYNC_CURSOR_KEY : string := "lastSync".

Definition serializeLastSync (lastSync : LastSync) : string := stringify (lastSync_js lastSync).
Definition deserializeLastSync (text : string) : option LastSync := parse text ≫= as_lastSync.

Definition parseStoredCursor (stored : option string) : option LastSync :=
  match stored with None => None | Some text => deserializeLastSync text end.

(** ** The tag is undone exactly *)

(** The one shape the convention takes for itself: an object whose only member is
    the tag, holding a string. *)
Definition lookalike (fields : list (string * JsVal)) : bool :=
  match fields with
  | [(key, JStr _)] => bool_decide (key = BIGINT_TAG)
  | _ => false
  end.

(** A value some object literal builds, none of whose objects is the reserved shape. *)
Fixpoint plain (v : JsVal) : Prop :=
  match v with
  | JArr items => foldr (fun x acc => plain x /\ acc) True items
  | JObj fields => jm_wf fields /\ lookalike fields = false /\ foldr (fun p acc => plain p.2 /\ acc) True fields
  | _ => True
  end.

Lemma plain_arr items : plain (JArr items) <-> Forall plain items.
Proof.
  simpl. induction items as [|x items IH]; simpl; [split; [constructor|done]|]. by rewrite IH, Forall_cons.
Qed.

Lemma plain_obj fields :
  plain (JObj fields) <-> jm_wf fields /\ lookalike fields = false /\ Forall (fun p => plain p.2) fields.
Proof.
  simpl. do 2 apply and_iff_compat_l.
  induction fields as [|x fields IH]; simpl; [split; [constructor|done]|]. by rewrite IH, Forall_cons.
Qed.

Lemma BigInt_pretty n : BigInt (pretty n) = Some n.
Proof.
  unfold BigInt. pose proof (parse_number_pretty n "" eq_refl) as Hp. rewrite string_app_nil in Hp.
  by rewrite Hp.
Qed.

Lemma reviveObject_plain fields : lookalike fields = false -> reviveObject fields = Some (JObj fields).
Proof.
  unfold lookalike, reviveObject. destruct fields as [|[k []] []]; try done.
  intros Hk%bool_decide_eq_false. by rewrite decide_False.
Qed.

Lemma revive_tag v : plain v -> taggedBnReviver (taggedBnReplacer v) = Some v.
Proof.
  induction v as [|b|n|n|s|items IH|fields IH] using JsVal_rect'; intros Hp; try done.
  - cbn [taggedBnReplacer taggedBnReviver reviveObject]. rewrite decide_True by done. by rewrite BigInt_pretty.
  - apply plain_arr in Hp. cbn [taggedBnReplacer taggedBnReviver].
    match goal with |- _ <$> ?f _ = _ => set (go := f) end.
    assert (go (taggedBnReplacer <$> items) = Some items) as ->; [|done].
    induction Hp as [|x l Hx Hl IHl]; [done|]. apply Forall_cons in IH as [IHx IH]. csimpl.
    by rewrite IHx, IHl.
  - apply plain_obj in Hp as (_ & Hlook & Hp). cbn [taggedBnReplacer taggedBnReviver].
    match goal with |- match ?f _ with _ => _ end = _ => set (go := f) end.
    assert (go ((fun p => (p.1, taggedBnReplacer p.2)) <$> fields) = Some fields) as ->;
      [|by apply reviveObject_plain].
    clear Hlook. induction Hp as [|[k x] l Hx Hl IHl]; [done|]. apply Forall_cons in IH as [IHx IH]. csimpl.
    simpl in Hx, IHx. by rewrite IHx, IHl.
Qed.

Lemma tag_wf v : plain v -> json_wf (taggedBnReplacer v).
Proof.
  induction v as [|b|n|n|s|items IH|fields IH] using JsVal_rect'; intros Hp; try done.
  - apply json_wf_obj. split; [apply NoDup_singleton|]. by constructor.
  - apply plain_arr in Hp. cbn [taggedBnReplacer]. apply json_wf_arr, Forall_fmap.
    rewrite Forall_forall in *. intros x Hx. by apply IH, Hp.
  - apply plain_obj in Hp as (Hwf & _ & Hp). cbn [taggedBnReplacer]. apply json_wf_obj. split.
    + unfold jm_wf. by rewrite <- list_fmap_compose.
    + apply Forall_fmap. rewrite Forall_forall in *. intros x Hx. by apply IH, Hp.
Qed.

Lemma parse_stringify v : plain v -> parse (stringify v) = Some v.
Proof.
  intros Hp. unfold parse, stringify. rewrite json_parse_text by (by apply tag_wf). by apply revive_tag.
Qed.

(** ** The shapes are read back *)
Lemma as_list_map {A} (f : JsVal -> option A) (g : A -> JsVal) l :
  (forall x, f (g x) = Some x) -> as_list f (JArr (g <$> l)) = Some l.
Proof. intros Hfg. cbn [as_list]. by apply mapM_fmap_Some. Qed.

Lemma need_found {A} (f : JsVal -> option A) fs key v a :
  jm_get fs key = Some v -> f v = Some a -> need f fs key = Some a.
Proof. intros Hk Hv. unfold need. by rewrite Hk. Qed.

Lemma may_found {A} (f : JsVal -> option A) fs key v a :
  jm_get fs key = Some v -> f v = Some a -> may f fs key = Some (Some a).
Proof. intros Hk Hv. unfold may. rewrite Hk. cbn. by rewrite Hv. Qed.

Lemma may_absent {A} (f : JsVal -> option A) fs key : jm_get fs key = None -> may f fs key = Some None.
Proof. intros Hk. unfold may. by rewrite Hk. Qed.

Create HintDb shapes.

(** Read the members of an object with known keys, in the order the reader asks. *)
Ltac read_members :=
  cbn [as_obj mbind option_bind];
  repeat (first
    [ erewrite need_found; [|reflexivity|solve [reflexivity | auto with shapes]]
    | erewrite may_found; [|reflexivity|reflexivity]
    | rewrite may_absent by reflexivity ]; cbn [mbind option_bind]);
  try reflexivity.

Lemma as_entry_js e : as_entry (entry_js e) = Some e.
Proof. destruct e as [b h [sh|] [lh|]]; unfold as_entry, entry_js; read_members. Qed.

Lemma as_strings_js l : as_list as_str (strings_js l) = Some l.
Proof. by apply as_list_map. Qed.

Lemma as_entries_js l : as_list as_entry (JArr (entry_js <$> l)) = Some l.
Proof. apply as_list_map, as_entry_js. Qed.

#[local] Hint Resolve as_strings_js as_entries_js : shapes.

Lemma as_context_js c : as_context (context_js c) = Some c.
Proof. destruct c. unfold as_context, context_js. read_members. Qed.

Lemma as_log_js e : as_log (log_js e) = Some e.
Proof.
  destruct e as [bn bh ti rm ad da tp th li ts d]. unfold as_log, log_js.
  destruct ts, d; read_members.
Qed.

Lemma as_logs_js l : as_list as_log (JArr (log_js <$> l)) = Some l.
Proof. apply as_list_map, as_log_js. Qed.

#[local] Hint Resolve as_context_js as_logs_js : shapes.

Lemma as_block_js b : as_block (block_js b) = Some b.
Proof. destruct b. unfold as_block, block_js. read_members. Qed.

Lemma as_blocks_js l : as_list as_block (JArr (block_js <$> l)) = Some l.
Proof. apply as_list_map, as_block_js. Qed.

#[local] Hint Resolve as_blocks_js : shapes.

Lemma as_lastSync_js s : as_lastSync (lastSync_js s) = Some s.
Proof. destruct s. unfold as_lastSync, lastSync_js. read_members. Qed.

(** ** The cursor round trip *)

(** Every decoded argument of the window is a plain value. *)
Definition log_plain (e : LogEvent) : Prop :=
  match decoded e with Parsed _ args => plain args | DecodeFailure _ => True end.
Definition block_plain (b : EventBlock) : Prop := Forall log_plain (events b).
Definition sync_plain (s : LastSync) : Prop := Forall block_plain (unconfirmedBlocks s).

(** An object with known keys is plain when its members are. *)
Ltac plain_object :=
  apply plain_obj; split_and!;
  [apply (bool_decide_unpack _); by vm_compute|done|repeat (apply Forall_cons_2; [try done|]); try done].

Lemma Forall_plain {A} (f : A -> JsVal) l : Forall (fun x => plain (f x)) l -> plain (JArr (f <$> l)).
Proof. intros Hl. by apply plain_arr, Forall_fmap. Qed.

Lemma entry_plain e : plain (entry_js e).
Proof. destruct e as [b h [sh|] [lh|]]; plain_object. Qed.

Lemma context_plain c : plain (context_js c).
Proof.
  destruct c as [src cfg p]. plain_object. simpl. apply (Forall_plain entry_js), Forall_forall.
  intros e _. apply entry_plain.
Qed.

Lemma log_js_plain e : log_plain e -> plain (log_js e).
Proof.
  destruct e as [bn bh ti rm ad da tp th li ts d]. intros Hd.
  assert (plain (strings_js tp)) as Htp by (by apply (Forall_plain JStr), Forall_forall).
  destruct ts, d; plain_object.
Qed.

Lemma block_js_plain b : block_plain b -> plain (block_js b).
Proof.
  intros Hb. plain_object. simpl. apply (Forall_plain log_js). eapply Forall_impl; [exact Hb|].
  apply log_js_plain.
Qed.

Lemma lastSync_js_plain s : sync_plain s -> plain (lastSync_js s).
Proof.
  intros Hs. plain_object; simpl; [apply context_plain|]. apply (Forall_plain block_js).
  eapply Forall_impl; [exact Hs|]. apply block_js_plain.
Qed.

Lemma parseStoredCursor_serialized s :
  sync_plain s -> parseStoredCursor (Some (serializeLastSync s)) = Some s.
Proof.
  intros Hs. unfold parseStoredCursor, deserializeLastSync, serializeLastSync.
  rewrite parse_stringify by (by apply lastSync_js_plain). apply as_lastSync_js.
Qed.

(** What the convention takes for itself reads back as a number, and nothing else
    changes: a lookalike holding a numeral is the one value that comes back
    different. *)
Lemma parse_lookalike n : parse (stringify (JObj [(BIGINT_TAG, JStr (pretty n))])) = Some (JBigInt n).
Proof.
  unfold parse, stringify. rewrite json_parse_text.
  - cbn [mbind option_bind taggedBnReplacer taggedBnReviver]. csimpl. rewrite BigInt_pretty. done.
  - apply json_wf_obj. split; [apply NoDup_singleton|by constructor].
Qed.

(** The sync cursor survives storage: whatever BigInts, strings and control
    characters the decoded events of its window carry, the stored text parses back
    to the cursor it was written from. *)
Theorem cursor_roundtrip (lastSync : LastSync) :
  sync_plain lastSync -> parseStoredCursor (Some (serializeLastSync lastSync)) = Some lastSync.
Proof. apply parseStoredCursor_serialized. Qed.

(** The BigInt convention is exact: every value none of whose objects is the
    reserved shape comes back as it was, a string of digits ending in [n]
    included, and the reserved shape itself reads back as the BigInt it spells. *)
Theorem tagged_bigint_exact :
  (forall v, plain v -> parse (stringify v) = Some v)
  /\ (forall n : Z, parse (stringify (JStr (pretty n +:+ "n"))) = Some (JStr (pretty n +:+ "n")))
  /\ (forall n : Z, parse (stringify (JObj [(BIGINT_TAG, JStr (pretty n))])) = Some (JBigInt n)).
Proof.
  split_and!; [apply parse_stringify| |apply parse_lookalike]. intros n. by apply parse_stringify.
Qed.

(** A window whose event carries a BigInt, a digit string ending in [n], a quote
    and a control character. *)
Definition sample_args : JsVal :=
  JObj [("value", JBigInt 340282366920938463463374607431768211456); ("note", JStr "123n");
        ("odd", JStr (String quote (String "001" (String backslash ""))))].

Definition sample_cursor : LastSync :=
  mkSync (mkContext [mkEntry 0 "h1" None None] "cfg" "proc") 9 3 7
    [mkBlock "0xa7" 7 [mkLog 7 "0xa7" 0 false "0xc0" "0x" ["0x01"] "0xt" 2 None (Parsed "Transfer" sample_args)]].

Lemma cursor_roundtrip_witness :
  sync_plain sample_cursor /\ parseStoredCursor (Some (serializeLastSync sample_cursor)) = Some sample_cursor.
Proof.
  assert (sync_plain sample_cursor) as Hp.
  { repeat (apply Forall_cons_2; [|by constructor]). repeat split; evaluate. }
  split; [exact Hp|]. apply cursor_roundtrip. exact Hp.
Defined.
