(* ===== verification/StreamBuilder.v ===== *)
(** * The receiver

    [packages/core/src/streamBuilder.ts] over the entity processor of
    [packages/processor-entities/src/EntityEventProcessor.ts]: a pushed batch is
    checked, shaped into the stream, stored, folded and counted.  The second half
    is the fold's whole contract: what the store holds after any run of accepted
    batches, and after one that stopped in the middle.

    What a deployment supplies is a port: [world] is whatever lies behind it, and
    a port answers the world it leaves and whether it returned. *)
From S2P Require Import Prelude JsMap Types Stream Reorg Invalidation Entities StoreSpec.
From S2P Require Import MutationContext EntityProcessor Cursor.

(** ** The envelope *)
Fixpoint assertLogsInRange (from to : Z) (logs : list LogEvent) : result EngineError unit :=
  match logs with
  | [] => Ok tt
  | log :: rest =>
      if decide (blockNumber log < 0 \/ blockNumber log < from \/ to < blockNumber log)
      then Err (InvalidBatchError (LogOutsideRange (blockNumber log)))
      else if removed log then Err (InvalidBatchError (LogMarkedRemoved (blockNumber log)))
      else assertLogsInRange from to rest
  end.

Definition assertWellFormed (batch : WireBatch) : result EngineError unit :=
  if decide (batch_fromBlock batch < 0 \/ batch_toBlock batch < 0 \/ batch_latestBlock batch < 0)
  then Err (InvalidBatchError NotBlockNumbers)
  else if decide (batch_toBlock batch < batch_fromBlock batch) then Err (InvalidBatchError RangeInverted)
  else if decide (batch_latestBlock batch < batch_toBlock batch) then Err (InvalidBatchError RangeAboveTip)
  else
    match assertAscendingByBlock (batch_logs batch) with
    | Err e => Err e
    | Ok _ => assertLogsInRange (batch_fromBlock batch) (batch_toBlock batch) (batch_logs batch)
    end.

(** ** The receiver's configuration *)
Record StreamCoverage : Type := mkCoverage {
  coverage_source : list SourceHashEntry;
  coverage_config : string;
  coverage_latestBlock : Z;
  coverage_lastFromBlock : Z;
  coverage_lastToBlock : Z
}.

Record EmissionWrite : Type := mkEmissionWrite {
  write_stream : string;
  write_coverage : StreamCoverage;
  write_emissions : list LogEvent
}.

Definition port (world A : Type) : Type := A -> world -> world * bool.

Record StreamBuilder (world : Type) : Type := mkBuilder {
  sb_context : WireContext;
  sb_defaultFromBlock : Z;
  sb_finality : Z;
  sb_streamDigest : string;
  sb_sourceHashes : list SourceHashEntry;
  suppliedProcessorIdentity : string;
  declaredFinalityDepth : option Z;
  appendEmissions : option (port world EmissionWrite);
  recordReorg : option (port world ReorgDetection);
  container : option (port world GenerationId)
}.
Arguments sb_context {_}. Arguments sb_defaultFromBlock {_}. Arguments sb_finality {_}.
Arguments sb_streamDigest {_}. Arguments sb_sourceHashes {_}. Arguments suppliedProcessorIdentity {_}.
Arguments declaredFinalityDepth {_}. Arguments appendEmissions {_}. Arguments recordReorg {_}.
Arguments container {_}.

(** [wireContextOf], of the two hashes it renders. *)
Definition wireContextOf (sourceHash configHash : string) : WireContext :=
  mkWireContext [mkEntry 0 sourceHash None None] configHash.

Inductive IngestError : Type :=
  | Refused (e : EngineError)
  | GenerationRefused
  | RetentionTooShallow (declared streamFinality : Z)
  | NotCleared (e : StoreError)
  | NotAppended
  | NotFolded (e : FoldError).

Record IngestionResult : Type := mkIngestion {
  applied : nat;
  retracted : nat;
  ingestion_emissions : list LogEvent;
  ingestion_lastSync : LastSync;
  ingestion_expectedFromBlock : Z;
  ingestion_reorg : option ReorgDetection
}.

Section Receiver.
Context {world S : Type} `{StateStore S} (processor : Processor) (sb : StreamBuilder world).

Definition processorIdentity : string := suppliedProcessorIdentity sb.

(** The cursor of a fold that never ran. *)
Definition freshSync : LastSync :=
  mkSync (mkContext (wire_source (sb_context sb)) (wire_config (sb_context sb)) processorIdentity) 0 0 0 [].

(** [EntityEventProcessor.load]: the retention check, then the stored cursor. *)
Definition load (store : S) : result IngestError (option LastSync) :=
  match declaredFinalityDepth sb with
  | Some declared =>
      if decide (declared < sb_finality sb) then Err (RetentionTooShallow declared (sb_finality sb))
      else Ok (parseStoredCursor (readCursor store SYNC_CURSOR_KEY))
  | None => Ok (parseStoredCursor (readCursor store SYNC_CURSOR_KEY))
  end.

Definition ownCursor (lastSync : LastSync) : bool :=
  bool_decide (processorIdentity = ctx_processor (context lastSync))
  && stateMatches (wire_source (sb_context sb)) (wire_config (sb_context sb)) (lastToBlock lastSync)
       (context lastSync).

(** [currentLastSync]: with a container the generation is resolved first and no
    state is discarded; without one, a cursor that is not this fold's is cleared
    with the state it described. *)
Definition currentLastSync (store : S) (w : world) : S * world * result IngestError LastSync :=
  let '(w, resolved) :=
    match container sb with
    | Some resolveGeneration => resolveGeneration (mkGeneration (sb_streamDigest sb) processorIdentity) w
    | None => (w, true)
    end in
  if resolved then
    match load store with
    | Err e => (store, w, Err e)
    | Ok None => (store, w, Ok freshSync)
    | Ok (Some lastSync) =>
        if ownCursor lastSync then (store, w, Ok lastSync)
        else
          match container sb with
          | Some _ => (store, w, Ok freshSync)
          | None =>
              match reset store SYNC_CURSOR_KEY with
              | Err e => (store, w, Err (NotCleared e))
              | Ok store' => (store', w, Ok freshSync)
              end
          end
    end
  else (store, w, Err GenerationRefused).

Definition expectedFromBlock (store : S) (w : world) : S * world * result IngestError Z :=
  let '(store, w, r) := currentLastSync store w in
  (store, w, (fun lastSync => getFromBlock lastSync (sb_defaultFromBlock sb) (sb_finality sb)) <$> r).

Definition storeStream (emissions : list LogEvent) (newLastSync : LastSync) (w : world) : world * bool :=
  match appendEmissions sb with
  | None => (w, true)
  | Some append =>
      append (mkEmissionWrite (sb_streamDigest sb)
        (mkCoverage (sb_sourceHashes sb) (wire_config (sb_context sb)) (latestBlock newLastSync)
           (lastFromBlock newLastSync) (lastToBlock newLastSync)) emissions) w
  end.

(** Best effort: what the recorder throws is logged. *)
Definition noteReorg (reorg : ReorgDetection) (w : world) : world :=
  match recordReorg sb with None => w | Some record => (record reorg w).1 end.

Definition assertContext (received : option WireContext) : result EngineError unit :=
  if sameWireContext (Some (sb_context sb)) received then Ok tt
  else Err (WireContextMismatchError (sb_context sb) received).

Definition receive (store : S) (w : world) (batch : WireBatch)
    : S * world * result IngestError IngestionResult :=
  match assertContext (batch_context batch) with
  | Err e => (store, w, Err (Refused e))
  | Ok _ =>
  match assertWellFormed batch with
  | Err e => (store, w, Err (Refused e))
  | Ok _ =>
  match currentLastSync store w with
  | (store, w, Err e) => (store, w, Err e)
  | (store, w, Ok lastSync) =>
  match generateStreamToAppend lastSync (sb_defaultFromBlock sb) (batch_logs batch)
      (mkBounds (batch_latestBlock batch) (batch_fromBlock batch) (batch_toBlock batch) (sb_finality sb)) with
  | Err e => (store, w, Err (Refused e))
  | Ok a =>
  match storeStream (eventStream a) (newLastSync a) w with
  | (w, false) => (store, w, Err NotAppended)
  | (w, true) =>
  match applyEventStream serializeLastSync store processor (eventStream a)
      (Some (SYNC_CURSOR_KEY, newLastSync a)) with
  | (store, _, Err e) => (store, w, Err (NotFolded e))
  | (store, _, Ok _) =>
      let w := match reorg a with Some r => noteReorg r w | None => w end in
      (store, w, Ok (mkIngestion
        (length (filter (fun e => removed e = false) (eventStream a)))
        (length (filter (fun e => removed e = true) (eventStream a)))
        (eventStream a) (newLastSync a)
        (getFromBlock (newLastSync a) (sb_defaultFromBlock sb) (sb_finality sb)) (reorg a)))
  end end end end end end.
End Receiver.

(** ** The envelope checks *)
Lemma assertLogsInRange_ok from to logs :
  assertLogsInRange from to logs = Ok tt <->
  Forall (fun e => 0 <= blockNumber e /\ from <= blockNumber e <= to /\ removed e = false) logs.
Proof.
  induction logs as [|e logs IH]; cbn [assertLogsInRange]; [split; [constructor|done]|].
  rewrite Forall_cons. case_decide as Hr; [split; [done|lia]|].
  destruct (removed e); [split; [done|by intros [(_ & _ & ?) _]]|]. rewrite IH. split; [|tauto].
  intros Hall. split_and!; done || lia.
Qed.

Lemma assertWellFormed_ok batch :
  assertWellFormed batch = Ok tt <->
  0 <= batch_fromBlock batch <= batch_toBlock batch /\ batch_toBlock batch <= batch_latestBlock batch
  /\ StronglySorted (fun a b => blockNumber a <= blockNumber b) (batch_logs batch)
  /\ Forall (fun e => batch_fromBlock batch <= blockNumber e <= batch_toBlock batch /\ removed e = false)
       (batch_logs batch).
Proof.
  unfold assertWellFormed. case_decide; [split; [done|lia]|]. case_decide; [split; [done|lia]|].
  case_decide; [split; [done|lia]|].
  pose proof (assertAscendingByBlock_ok (batch_logs batch)) as Hasc.
  destruct (assertAscendingByBlock (batch_logs batch)) as [[]|e].
  - rewrite assertLogsInRange_ok. rewrite !Forall_forall. split.
    + intros Hall. split_and!; [lia..|by apply Hasc|]. intros x Hx. specialize (Hall x Hx). tauto.
    + intros (_ & _ & _ & Hall) x Hx. specialize (Hall x Hx). split_and!; tauto || lia.
  - split; [done|]. intros (_ & _ & Hs & _). by apply Hasc in Hs.
Qed.

(** The logs of an ascending chain come in block order. *)
Lemma events_of_sorted c :
  chain_wf c -> StronglySorted (fun a b => blockNumber a <= blockNumber b) (events_of c).
Proof.
  intros [Ha _ Hwf]. induction Ha as [|b c Hc IH Hb]; [constructor|]. rewrite events_of_cons.
  apply Forall_cons in Hwf as [[_ Hev] Hwf]. apply StronglySorted_app. split_and!; [|..|by apply IH].
  - intros x y Hx Hy. rewrite Forall_forall in Hev. destruct (Hev x Hx) as (Hn & _).
    apply elem_of_concat in Hy as (l & Hy & (b' & -> & Hb')%list_elem_of_fmap).
    rewrite Forall_forall in Hb, Hwf. specialize (Hb b' Hb'). destruct (Hwf b' Hb') as [_ Hev'].
    rewrite Forall_forall in Hev'. destruct (Hev' y Hy) as (Hn' & _). lia.
  - clear IH Hb. induction Hev as [|e es (He & _) Hev IH]; constructor; [done|].
    eapply Forall_impl; [exact Hev|]. intros x (Hx & _). lia.
Qed.

Lemma events_of_Forall (P : LogEvent -> Prop) c :
  (forall b, b ∈ c -> Forall P (events b)) -> Forall P (events_of c).
Proof.
  intros Hall. apply Forall_concat. apply Forall_fmap, Forall_forall. intros b Hb. by apply Hall.
Qed.

Lemma fetched_logs_well_formed ctx bounds chain :
  chain_wf chain -> 0 <= newLastFromBlock bounds <= newLastToBlock bounds ->
  newLastToBlock bounds <= newLatestBlock bounds ->
  assertWellFormed (mkBatch (Some ctx) (newLastFromBlock bounds) (newLastToBlock bounds)
    (newLatestBlock bounds) (fetched_logs bounds chain)) = Ok tt.
Proof.
  intros Hc Hft Htl. apply assertWellFormed_ok. cbn [batch_fromBlock batch_toBlock batch_latestBlock batch_logs].
  assert (chain_wf (blocks_in (newLastFromBlock bounds) (newLastToBlock bounds) chain)) as Hin.
  { eapply chain_wf_sublist; [apply sublist_filter|done]. }
  split; [done|]. split; [done|]. split; [by apply events_of_sorted|]. apply events_of_Forall.
  intros b [Hr Hb]%elem_of_blocks_in. destruct Hc as [_ _ Hwf]. rewrite Forall_forall in Hwf.
  destruct (Hwf b Hb) as [_ Hev]. eapply Forall_impl; [exact Hev|]. intros e (-> & _ & ?). by split.
Qed.

Lemma sameWireContext_refl c : sameWireContext (Some c) (Some c) = true.
Proof.
  unfold sameWireContext. rewrite !bool_decide_true by done. cbn [andb]. apply forallb_forall.
  intros [i e] Hin%list_elem_of_In. apply elem_of_lookup_imap in Hin as (j & x & [= -> ->] & Hx).
  apply bool_decide_eq_true. cbn [fst snd]. by rewrite Hx.
Qed.

(** ** A receiver's own cursor is never discarded *)
Lemma missingFrom_self digestOf es : missingFrom digestOf es es = [].
Proof.
  apply filter_Forall_nil, Forall_forall. intros e He Hn. apply Hn. apply elem_of_list_to_set.
  by apply list_elem_of_fmap_2.
Qed.

Lemma stateMatches_own sourceHash configHash processor lastTo :
  let ctx := wireContextOf sourceHash configHash in
  stateMatches (wire_source ctx) (wire_config ctx) lastTo
    (mkContext (wire_source ctx) (wire_config ctx) processor) = true.
Proof.
  cbn [wireContextOf wire_source wire_config]. unfold stateMatches, sourceInvalidationOf.
  cbn [ctx_config ctx_source]. rewrite decide_False by (by intros []). cbn [head mbind option_bind legacyHash].
  cbn [state_verdict]. apply verdictOn_valid. by rewrite !missingFrom_self.
Qed.

(** ** The fold's contract *)
Section Contract.
Context {world S : Type} `{StateStoreLaws S} (processor : Processor) (sb : StreamBuilder world) (floor : Z).
Context (sourceHash configHash : string).
Hypothesis Hcontext : sb_context sb = wireContextOf sourceHash configHash.
Hypothesis Hretention : forall declared, declaredFinalityDepth sb = Some declared -> sb_finality sb <= declared.
Hypothesis Hstart : 0 <= sb_defaultFromBlock sb.
Hypothesis Hresolves : forall resolve g w, container sb = Some resolve -> (resolve g w).2 = true.

Let d := sb_defaultFromBlock sb.
Let f := sb_finality sb.

(** The cursor the receiver takes up: its own stored one, or a fresh one. *)
Definition resumes (store : S) (lastSync : LastSync) : Prop :=
  context lastSync = context (freshSync sb)
  /\ (parseStoredCursor (readCursor store SYNC_CURSOR_KEY) = Some lastSync
      \/ parseStoredCursor (readCursor store SYNC_CURSOR_KEY) = None /\ lastSync = freshSync sb).

(** The store holds the fold of [C]; the cursor also still claims [L], blocks a
    retraction took out of the store without the cursor moving ([L] is empty
    unless a run stopped between a revert and its first block). *)
Record tracks (store : S) (lastSync : LastSync) (C L : list EventBlock) : Prop := {
  tracks_handlers : handlers_declared (declarations store) processor;
  tracks_fold : exists h, repr floor store h /\ fold_chain (declarations store) processor C = Ok h;
  tracks_cursor : resumes store lastSync;
  tracks_holds : holds d f lastSync (C ++ L)
}.

(** The world once the generation was resolved. *)
Definition resolved (w : world) : world :=
  match container sb with
  | Some resolve => (resolve (mkGeneration (sb_streamDigest sb) (processorIdentity sb)) w).1
  | None => w
  end.

Lemma currentLastSync_resumes store w lastSync :
  resumes store lastSync -> currentLastSync sb store w = (store, resolved w, Ok lastSync).
Proof.
  intros [Hown Hcur]. unfold currentLastSync, resolved.
  assert (load sb store = Ok (parseStoredCursor (readCursor store SYNC_CURSOR_KEY))) as ->.
  { unfold load. destruct (declaredFinalityDepth sb) as [declared|] eqn:Hdec; [|done].
    rewrite decide_False; [done|]. specialize (Hretention declared eq_refl). lia. }
  assert (ownCursor sb lastSync = true) as Hmine.
  { unfold ownCursor. rewrite Hown. unfold freshSync. cbn [context ctx_processor].
    rewrite bool_decide_true by done. cbn [andb]. rewrite Hcontext. apply stateMatches_own. }
  destruct (container sb) as [resolve|] eqn:Hc.
  - pose proof (Hresolves resolve (mkGeneration (sb_streamDigest sb) (processorIdentity sb)) w eq_refl) as Hok.
    destruct (resolve _ w) as [w' ok]. simpl in Hok. subst ok.
    destruct Hcur as [->|[-> ->]]; [by rewrite Hmine|done].
  - destruct Hcur as [->|[-> ->]]; [by rewrite Hmine|done].
Qed.

Lemma getFromBlock_start s : d <= getFromBlock s d f.
Proof. unfold getFromBlock. case_decide; lia. Qed.

(** A batch pushed by a sender that read the whole range off its node's chain. *)
Definition honest_batch (bounds : FetchBounds) (chain : list EventBlock) : WireBatch :=
  mkBatch (Some (sb_context sb)) (newLastFromBlock bounds) (newLastToBlock bounds) (newLatestBlock bounds)
    (fetched_logs bounds chain).

Lemma stream_counts D N :
  Forall block_wf N ->
  filter (fun e => removed e = false) (retractions_of D ++ events_of N) = events_of N
  /\ filter (fun e => removed e = true) (retractions_of D ++ events_of N) = retractions_of D.
Proof.
  intros HN. apply events_of_applied in HN.
  assert (Forall (fun e => removed e = true) (retractions_of D)) as HD by (by apply Forall_fmap, Forall_forall).
  rewrite !filter_app. split.
  - rewrite filter_Forall_nil, filter_Forall_id by (done || (eapply Forall_impl; [exact HD|]; by intros e ->)).
    done.
  - rewrite filter_Forall_id, filter_Forall_nil by (done || (eapply Forall_impl; [exact HN|]; by intros e ->)).
    apply app_nil_r.
Qed.

Lemma sync_plain_of s C : holds d f s C -> Forall block_plain C -> sync_plain s.
Proof. intros [_ Hw _] Hp. by eapply Forall_sublist. Qed.

(** The block a stream stopped after, and the ones below it. *)
Lemma upto_take P N k b :
  ascending number (P ++ N) -> last (take k N) = Some b -> upto (number b) (P ++ N) = P ++ take k N.
Proof.
  intros Ha Hlast. assert (b ∈ take k N) as Hb by (by apply last_Some_elem_of).
  assert (P ++ N = (P ++ take k N) ++ drop k N) as Hsplit by (by rewrite <- app_assoc, take_drop).
  rewrite Hsplit in Ha |- *. apply ascending_app in Ha as (Hlt & Hlow & _). unfold upto.
  rewrite filter_app, filter_Forall_id, filter_Forall_nil; [apply app_nil_r|..].
  - apply Forall_forall. intros x Hx. specialize (Hlt b x ltac:(apply elem_of_app; by right) Hx). simpl. lia.
  - apply Forall_forall. intros x Hx. simpl. apply last_Some in Hlast as [l Hl]. rewrite Hl in *.
    rewrite app_assoc in Hlow, Hx. apply ascending_app in Hlow as (Hlt' & _ & _).
    apply elem_of_app in Hx as [Hx| ->%list_elem_of_singleton]; [|lia].
    specialize (Hlt' x b Hx ltac:(apply list_elem_of_here)). lia.
Qed.

(** The cursor of a run over [N] that stopped once [k] blocks were applied. *)
Inductive stopped_at (newSync lastSync : LastSync) (N : list EventBlock) (k : nat) : LastSync -> Prop :=
  | stopped_end : k = length N -> stopped_at newSync lastSync N k newSync
  | stopped_block b : (k < length N)%nat -> last (take k N) = Some b -> stopped_at newSync lastSync N k (cursorSyncedThrough newSync (number b))
  | stopped_before : (k < length N)%nat -> k = 0%nat -> stopped_at newSync lastSync N k lastSync.

(** It resumes at or below every block that is left, those above the run included. *)
Lemma stopped_at_low newSync lastSync N k s' rest :
  stopped_at newSync lastSync N k s' -> ascending number (N ++ rest) -> latestBlock newSync <> 0 ->
  Forall (fun b => lastToBlock newSync < number b) rest ->
  Forall (fun b => d <= number b) (N ++ rest) -> Forall (fun b => getFromBlock lastSync d f <= number b) (N ++ rest) ->
  Forall (fun b => getFromBlock s' d f <= number b) (drop k N ++ rest).
Proof.
  intros Hstop Ha Htip Hrest Hd Hlow. destruct Hstop as [->|b Hk Hlast|Hk ->]; [|..|done].
  - rewrite drop_all. apply Forall_app in Hd as [_ Hd]. rewrite Forall_forall in Hrest, Hd |- *. intros x Hx.
    specialize (Hrest x Hx). specialize (Hd x Hx). unfold getFromBlock. rewrite decide_False by done. lia.
  - assert (b ∈ take k N) as Hb by (by apply last_Some_elem_of). rewrite <- (take_drop k N), <- app_assoc in Ha, Hd.
    apply ascending_app in Ha as (Hlt & _ & _). apply Forall_app in Hd as [_ Hd]. rewrite Forall_forall in Hd |- *.
    intros x Hx. specialize (Hlt b x Hb Hx). specialize (Hd x Hx). unfold getFromBlock.
    cbn [cursorSyncedThrough latestBlock lastToBlock]. rewrite decide_False by done. lia.
Qed.

(** Where the next cycle takes up what is left of [N] once [k] of its blocks are held. *)
Record lands (bounds : FetchBounds) (N : list EventBlock) (k : nat) (s' : LastSync) : Prop := {
  lands_tip : latestBlock s' <= newLatestBlock bounds;
  lands_low : Forall (fun b => getFromBlock s' d f <= number b) (drop k N)
}.

(** The cursor read back after a run that stopped once [k] blocks were applied. *)
Lemma cursor_at_resumes store' P D N k before newSync lastSync :
  context newSync = context (freshSync sb) -> latestBlock newSync <> 0 ->
  holds d f newSync (P ++ N) -> holds d f lastSync (P ++ D) -> Forall block_plain (P ++ N) ->
  (k <= length N)%nat -> resumes before lastSync ->
  readCursor store' SYNC_CURSOR_KEY
    = cursor_at serializeLastSync newSync N k (readCursor before SYNC_CURSOR_KEY) ->
  exists s', resumes store' s' /\ stopped_at newSync lastSync N k s'
    /\ holds d f s' ((P ++ take k N) ++ if decide (k = length N) then [] else if decide (k = 0)%nat then D else []).
Proof.
  intros Hctx Htip Hnew Hold Hplain Hk [Hown Hres] Hcur. unfold cursor_at in Hcur.
  assert (forall s', context s' = context (freshSync sb) -> sync_plain s' ->
    readCursor store' SYNC_CURSOR_KEY = Some (serializeLastSync s') -> resumes store' s') as Hstored.
  { intros s' Hc Hp Hr. split; [done|]. left. rewrite Hr. by apply parseStoredCursor_serialized. }
  assert (sync_plain newSync) as Hnp by (by eapply sync_plain_of).
  destruct (last (take k N)) as [b|] eqn:Hlast.
  - destruct (decide (k = length N)) as [->|Hne].
    + exists newSync. split_and!; [by apply Hstored|by constructor|]. by rewrite firstn_all, app_nil_r.
    + rewrite decide_False by (intros ->; by rewrite take_0 in Hlast). rewrite app_nil_r.
      exists (cursorSyncedThrough newSync (number b)).
      pose proof (holds_through d f newSync _ (number b) Hnew Htip) as Hthrough.
      rewrite (upto_take P N k b) in Hthrough by (done || apply (holds_chain _ _ _ _ Hnew)).
      split_and!; [|constructor; [lia|done]|done]. apply Hstored; [done| |done].
      eapply Forall_sublist; [|exact Hnp]. apply sublist_filter.
  - apply last_None in Hlast. destruct N as [|x N].
    + destruct k; [|cbn in Hk; lia]. exists newSync. split_and!; [by apply Hstored|by constructor|].
      rewrite decide_True by done. by rewrite app_nil_r.
    + destruct k as [|k]; [|done]. exists lastSync. cbn [take length].
      rewrite (decide_False (P := 0%nat = Datatypes.S (length N))), decide_True, app_nil_r by done.
      split_and!; [|by constructor; [cbn; lia|]|done]. split; [done|]. by rewrite Hcur.
Qed.

(** One honest cycle, and where the next one takes up. *)
Lemma receive_step store w lastSync bounds P D1 D2 N :
  finality bounds = f -> tracks store lastSync (P ++ D1) D2 ->
  honest_fetch d lastSync bounds P (D1 ++ D2) N ->
  Forall block_plain (P ++ N) -> NoDup (lower_hash <$> P ++ N) ->
  Forall (fun b => floor < number b) (D1 ++ D2) ->
  let new := upto (newLastToBlock bounds) N in
  let '(store', w', r) := receive processor sb store w (honest_batch bounds (P ++ N)) in
  match r with
  | Ok res =>
      (ingestion_emissions res = retractions_of (D1 ++ D2) ++ events_of new
      /\ applied res = length (events_of new) /\ retracted res = length (events_of (D1 ++ D2))
      /\ ingestion_expectedFromBlock res = getFromBlock (ingestion_lastSync res) d f
      /\ ingestion_reorg res = (fun x => mkReorg (causeIn N x) (number x) (hash x)) <$> head (D1 ++ D2)
      /\ tracks store' (ingestion_lastSync res) (P ++ new) [])
      /\ lands bounds N (length new) (ingestion_lastSync res)
  | Err NotAppended => store' = store
      /\ exists append write, appendEmissions sb = Some append /\ (append write (resolved w)).2 = false
  | Err (NotFolded _) =>
      exists k s', ((k < length new)%nat
        /\ ~ is_Ok (fold_chain (declarations store) processor (P ++ take (Datatypes.S k) new))
        /\ tracks store' s' (P ++ take k new) (if decide (k = 0)%nat then D1 ++ D2 else []))
        /\ lands bounds N k s' /\ (k = 0%nat -> s' = lastSync)
  | Err _ => False
  end.
Proof.
  intros Hfin [Hdecl (h & Hr & Hfold) Hres Hholds] Hfetch Hplain Hnd Hfloor new.
  rewrite <- app_assoc in Hholds. pose proof (honest_advancing _ _ _ _ _ _ Hfetch) as [Hfrom Hrange Htip Hf0].
  pose proof (getFromBlock_start lastSync) as Hst. rewrite Hfin in Hfrom.
  unfold receive, honest_batch. cbn [batch_context batch_logs batch_latestBlock batch_fromBlock batch_toBlock].
  unfold assertContext. rewrite sameWireContext_refl.
  rewrite fetched_logs_well_formed by (apply (honest_chain _ _ _ _ _ _ Hfetch) || lia).
  rewrite (currentLastSync_resumes _ _ _ Hres).
  replace (mkBounds (newLatestBlock bounds) (newLastFromBlock bounds) (newLastToBlock bounds) (sb_finality sb))
    with bounds by (by destruct bounds; cbn in *; subst).
  assert (finality bounds = f) as Hfin' by done. fold d f.
  rewrite <- Hfin' in Hholds.
  destruct (append_honest d lastSync bounds P (D1 ++ D2) N Hholds Hfetch)
    as (a & -> & Hstream & Hreorg & Hlatest & Hto & Hctx & Hnew).
  rewrite Hfin' in Hholds, Hnew. fold new in Hstream, Hnew.
  destruct (storeStream sb (eventStream a) (newLastSync a) (resolved w)) as [w1 []] eqn:Hstore.
  2:{ split; [done|]. unfold storeStream in Hstore. destruct (appendEmissions sb) as [append|]; [|done].
      eexists append, _. split; [done|]. by rewrite Hstore. }
  pose proof (applyEventStream_reached serializeLastSync processor floor store h P D1 D2 new
    SYNC_CURSOR_KEY (newLastSync a) Hr Hdecl Hfold (holds_chain _ _ _ _ Hholds) (holds_chain _ _ _ _ Hnew)) as Happ.
  assert (new `sublist_of` N) as Hsub by apply upto_sublist.
  rewrite <- Hstream in Happ.
  destruct (applyEventStream _ store processor (eventStream a) _) as [[store' reports] r].
  destruct Happ as (k & h' & Hk & Hd & Hf' & Hr' & Hcur & Hend); [|done|].
  { eapply sublist_NoDup; [exact Hnd|]. apply sublist_fmap. by apply sublist_app. }
  destruct (cursor_at_resumes store' P (D1 ++ D2) new k store (newLastSync a) lastSync) as (s' & Hs' & Hstop & Hh');
    try done; [by destruct Hres as [<- _]|lia| |].
  { eapply Forall_sublist; [|exact Hplain]. by apply sublist_app. }
  assert (tracks store' s' (P ++ take k new)
    (if decide (k = length new) then [] else if decide (k = 0)%nat then D1 ++ D2 else [])) as Htr.
  { split; [by rewrite Hd|exists h'; by rewrite Hd|done|done]. }
  assert (lands bounds N k s') as Hlands.
  { pose proof (honest_chain _ _ _ _ _ _ Hfetch) as [Ha _ _]. apply ascending_app in Ha as (_ & _ & Ha).
    pose proof (honest_depth _ _ _ _ _ _ Hfetch) as Hdepth. apply Forall_app in Hdepth as [_ Hdepth]. rewrite Hfrom in Hdepth. fold d f in Hdepth.
    pose proof (upto_over (newLastToBlock bounds) N Ha) as HN. fold new in HN. split.
    - destruct Hstop; cbn [cursorSyncedThrough latestBlock]; lia.
    - rewrite <- HN, drop_app_le by lia. eapply stopped_at_low; rewrite ?HN; [exact Hstop|done|lia| | |done].
      + rewrite Hto. apply Forall_forall. intros x [Hx _]%list_elem_of_filter. exact Hx.
      + eapply Forall_impl; [exact Hdepth|]. cbv beta. intros x Hx. fold d in Hst. lia. }
  destruct r as [[]|e].
  - assert (s' = newLastSync a) as -> by (destruct Hstop; [done|lia..]). subst k. rewrite decide_True, firstn_all in Htr by done.
    cbn [ingestion_emissions applied retracted ingestion_expectedFromBlock ingestion_lastSync ingestion_reorg].
    assert (Forall block_wf new) as Hwf.
    { pose proof (chain_wf_blocks _ (holds_chain _ _ _ _ Hnew)) as Hw. by apply Forall_app in Hw as [_ Hw]. }
    destruct (stream_counts (D1 ++ D2) new Hwf) as [Happlied Hretracted].
    rewrite Hstream, Happlied, Hretracted. split_and!; try done. apply length_fmap.
  - destruct Hend as [Hlt Hno]. exists k, s'. rewrite decide_False in Htr by lia. split_and!; [done..|].
    intros ->. destruct Hstop as [Hk0|b _ Hlast|]; [lia|done|done].
Qed.

(** One honest cycle. *)
Lemma receive_cycle store w lastSync bounds P D1 D2 N :
  finality bounds = f -> tracks store lastSync (P ++ D1) D2 ->
  honest_fetch d lastSync bounds P (D1 ++ D2) N ->
  Forall block_plain (P ++ N) -> NoDup (lower_hash <$> P ++ N) ->
  Forall (fun b => floor < number b) (D1 ++ D2) ->
  let new := upto (newLastToBlock bounds) N in
  let '(store', w', r) := receive processor sb store w (honest_batch bounds (P ++ N)) in
  match r with
  | Ok res =>
      ingestion_emissions res = retractions_of (D1 ++ D2) ++ events_of new
      /\ applied res = length (events_of new) /\ retracted res = length (events_of (D1 ++ D2))
      /\ ingestion_expectedFromBlock res = getFromBlock (ingestion_lastSync res) d f
      /\ ingestion_reorg res = (fun x => mkReorg (causeIn N x) (number x) (hash x)) <$> head (D1 ++ D2)
      /\ tracks store' (ingestion_lastSync res) (P ++ new) []
  | Err NotAppended => store' = store
      /\ exists append write, appendEmissions sb = Some append /\ (append write (resolved w)).2 = false
  | Err (NotFolded _) =>
      exists k s', (k < length new)%nat
        /\ ~ is_Ok (fold_chain (declarations store) processor (P ++ take (Datatypes.S k) new))
        /\ tracks store' s' (P ++ take k new) (if decide (k = 0)%nat then D1 ++ D2 else [])
  | Err _ => False
  end.
Proof.
  intros Hfin Htr Hfetch Hplain Hnd Hfloor. pose proof (receive_step store w lastSync bounds P D1 D2 N Hfin Htr Hfetch Hplain Hnd Hfloor) as Hstep.
  cbv zeta in *. destruct (receive _ _ _ _ _) as [[store' w'] [res|[]]]; try done; [apply Hstep|].
  destruct Hstep as (k & s' & Hend & _). by exists k, s'.
Qed.

(** The states a receiver reaches by accepting honest batches, the chain they
    track and the cursor it resumes from. *)
Inductive accepted_run : S -> LastSync -> list EventBlock -> Prop :=
  | run_start store :
      tracks store (freshSync sb) [] [] -> accepted_run store (freshSync sb) []
  | run_batch store lastSync P D N bounds w store' w' res :
      accepted_run store lastSync (P ++ D) ->
      finality bounds = f -> honest_fetch d lastSync bounds P D N ->
      Forall block_plain (P ++ N) -> NoDup (lower_hash <$> P ++ N) ->
      Forall (fun b => floor < number b) D ->
      receive processor sb store w (honest_batch bounds (P ++ N)) = (store', w', Ok res) ->
      accepted_run store' (ingestion_lastSync res) (P ++ upto (newLastToBlock bounds) N).

Lemma accepted_run_tracks store lastSync C : accepted_run store lastSync C -> tracks store lastSync C [].
Proof.
  induction 1 as [store Htr|store lastSync P D N bounds w store' w' res Hrun IH Hfin Hfetch Hplain Hnd Hfl Hrec];
    [done|].
  rewrite <- (app_nil_r (P ++ D)) in IH.
  assert (tracks store lastSync (P ++ D) []) as Htr by (by rewrite app_nil_r in IH).
  pose proof (receive_cycle store w lastSync bounds P D [] N Hfin Htr) as Hcycle.
  rewrite !app_nil_r in Hcycle. specialize (Hcycle Hfetch Hplain Hnd Hfl). rewrite Hrec in Hcycle.
  by destruct Hcycle as (_ & _ & _ & _ & _ & ?).
Qed.

(** What the reads answer over a store that tracks a chain. *)
Lemma tracks_reads store lastSync C L :
  tracks store lastSync C L ->
  exists h, fold_chain (declarations store) processor C = Ok h
    /\ forall entity e id key, jm_get (declarations store) entity = Some e -> entityKey e id = Ok key ->
       match current h key with
       | None => getCurrent store entity id = Ok None
       | Some row => exists answer, getCurrent store entity id = Ok (Some answer) /\ same_row e answer row
       end.
Proof.
  intros [_ (h & Hr & Hfold) _ _]. exists h. split; [done|]. intros entity e id key He Hk.
  by apply (getCurrent_law floor).
Qed.

Lemma engine_refusal batch e :
  assertWellFormed batch = Err e -> exists reason, e = InvalidBatchError reason.
Proof.
  assert (forall p l e', assertAscendingFrom p l = Err e' -> exists reason, e' = InvalidBatchError reason) as Hasc.
  { intros p l. revert p. induction l as [|x l IH]; intros p e' He; [done|]. cbn [assertAscendingFrom] in He.
    case_decide; [injection He as <-; by eexists|by apply IH in He]. }
  unfold assertWellFormed. repeat (case_decide; [intros [= <-]; by eexists|]).
  destruct (assertAscendingByBlock (batch_logs batch)) as [[]|e'] eqn:Ha.
  - induction (batch_logs batch) as [|x l IH]; [done|]. cbn [assertLogsInRange].
    case_decide; [intros [= <-]; by eexists|]. destruct (removed x); [intros [= <-]; by eexists|].
    apply IH. apply assertAscendingByBlock_ok, StronglySorted_inv in Ha as [Ha _].
    by apply assertAscendingByBlock_ok.
  - intros [= <-]. unfold assertAscendingByBlock in Ha. destruct (batch_logs batch); [done|]. by eapply Hasc.
Qed.

Lemma receive_refusal store w batch :
  let r := receive processor sb store w batch in
  if sameWireContext (Some (sb_context sb)) (batch_context batch) then
    match assertWellFormed batch with
    | Err e => r = (store, w, Err (Refused e)) /\ exists reason, e = InvalidBatchError reason
    | Ok _ => forall lastSync, resumes store lastSync ->
        let expected := getFromBlock lastSync d f in
        batch_fromBlock batch <> expected ->
        r = (store, resolved w, Err (Refused (UnexpectedFromBlockError expected (batch_fromBlock batch))))
    end
  else r = (store, w, Err (Refused (WireContextMismatchError (sb_context sb) (batch_context batch)))).
Proof.
  cbn zeta. unfold receive, assertContext.
  destruct (sameWireContext (Some (sb_context sb)) (batch_context batch)); [|done].
  destruct (assertWellFormed batch) as [u|e] eqn:Hwf; [|split; [done|by eapply engine_refusal]].
  intros lastSync Hres Hne. rewrite (currentLastSync_resumes _ _ _ Hres).
  unfold generateStreamToAppend. cbn [newLastFromBlock finality]. fold d f. by rewrite decide_True.
Qed.

(** A cursor of another fold: the receiver that owns the store wipes it with the
    cursor; the one that sits under a container keeps both. *)
Lemma currentLastSync_foreign store w lastSync h :
  repr floor store h -> Forall (fun b => 0 <= hb_number b) h ->
  parseStoredCursor (readCursor store SYNC_CURSOR_KEY) = Some lastSync -> ownCursor sb lastSync = false ->
  match container sb with
  | Some _ => currentLastSync sb store w = (store, resolved w, Ok (freshSync sb))
  | None => exists store', currentLastSync sb store w = (store', w, Ok (freshSync sb))
      /\ repr (-1) store' [] /\ readCursor store' SYNC_CURSOR_KEY = None
      /\ declarations store' = declarations store
  end.
Proof.
  intros Hr Hpos Hcur Hown.
  assert (load sb store = Ok (Some lastSync)) as Hload.
  { unfold load. rewrite Hcur. destruct (declaredFinalityDepth sb) as [declared|]; [|done].
    rewrite decide_False; [done|]. specialize (Hretention declared eq_refl). lia. }
  unfold currentLastSync, resolved. destruct (container sb) as [resolve|].
  - pose proof (Hresolves resolve (mkGeneration (sb_streamDigest sb) (processorIdentity sb)) w eq_refl) as Hok.
    destruct (resolve _ w) as [w' ok]. simpl in Hok. subst ok. by rewrite Hload, Hown.
  - rewrite Hload, Hown. unfold reset. destruct (wipe_law floor store h Hr Hpos) as (s1 & -> & Hr1 & Hd1 & _).
    cbn [mbind result_bind]. destruct (clearCursor_law (-1) s1 [] SYNC_CURSOR_KEY Hr1) as (Hr2 & Hd2 & Hnone).
    eexists. split_and!; [done|done|done|congruence].
Qed.

(** C1. One honest cycle, end to end: the emitted stream retracts exactly the dead
    branch and applies exactly the new one, the counts and the reorg reported are
    the real ones, and the receiver tracks the node's chain again; a stream that
    could not be stored folds nothing; and a handler that throws leaves the store
    at the blocks before it, with a cursor the next cycle can take up. *)
Theorem receive_folds store w lastSync bounds P D1 D2 N :
  finality bounds = f -> tracks store lastSync (P ++ D1) D2 ->
  honest_fetch d lastSync bounds P (D1 ++ D2) N ->
  Forall block_plain (P ++ N) -> NoDup (lower_hash <$> P ++ N) ->
  Forall (fun b => floor < number b) (D1 ++ D2) ->
  let new := upto (newLastToBlock bounds) N in
  let '(store', w', r) := receive processor sb store w (honest_batch bounds (P ++ N)) in
  match r with
  | Ok res =>
      ingestion_emissions res = retractions_of (D1 ++ D2) ++ events_of new
      /\ applied res = length (events_of new) /\ retracted res = length (events_of (D1 ++ D2))
      /\ ingestion_expectedFromBlock res = getFromBlock (ingestion_lastSync res) d f
      /\ ingestion_reorg res = (fun x => mkReorg (causeIn N x) (number x) (hash x)) <$> head (D1 ++ D2)
      /\ tracks store' (ingestion_lastSync res) (P ++ new) []
  | Err NotAppended => store' = store
      /\ exists append write, appendEmissions sb = Some append /\ (append write (resolved w)).2 = false
  | Err (NotFolded _) =>
      exists k s', (k < length new)%nat
        /\ ~ is_Ok (fold_chain (declarations store) processor (P ++ take (Datatypes.S k) new))
        /\ tracks store' s' (P ++ take k new) (if decide (k = 0)%nat then D1 ++ D2 else [])
  | Err _ => False
  end.
Proof. apply receive_cycle. Qed.

(** C2. After any run of accepted honest batches, whatever reorganisations the node
    went through, the chain the receiver tracks has a fold, every read answers
    what that fold from scratch answers, and the receiver asks next for the block
    its cursor says. *)
Theorem receiver_follows_chain store lastSync C :
  accepted_run store lastSync C ->
  (exists h, fold_chain (declarations store) processor C = Ok h
    /\ forall entity e id key, jm_get (declarations store) entity = Some e -> entityKey e id = Ok key ->
       match current h key with
       | None => getCurrent store entity id = Ok None
       | Some row => exists answer, getCurrent store entity id = Ok (Some answer) /\ same_row e answer row
       end)
  /\ forall w, expectedFromBlock sb store w = (store, resolved w, Ok (getFromBlock lastSync d f)).
Proof.
  intros Hrun%accepted_run_tracks. split; [by eapply tracks_reads|]. intros w. unfold expectedFromBlock.
  by rewrite (currentLastSync_resumes _ _ _ (tracks_cursor _ _ _ _ Hrun)).
Qed.

(** The three refusals, in the code's order, each before anything is stored or
    folded: another source's batch, a malformed one, and one that does not start
    where the receiver resumes, which is told the block to start from. *)
Theorem receive_refuses store w batch :
  let r := receive processor sb store w batch in
  if sameWireContext (Some (sb_context sb)) (batch_context batch) then
    match assertWellFormed batch with
    | Err e => r = (store, w, Err (Refused e)) /\ exists reason, e = InvalidBatchError reason
    | Ok _ => forall lastSync, resumes store lastSync ->
        let expected := getFromBlock lastSync d f in
        batch_fromBlock batch <> expected ->
        r = (store, resolved w, Err (Refused (UnexpectedFromBlockError expected (batch_fromBlock batch))))
    end
  else r = (store, w, Err (Refused (WireContextMismatchError (sb_context sb) (batch_context batch)))).
Proof. apply receive_refusal. Qed.

(** A stored cursor of another source, configuration or processor is never
    resumed from: without a container the state is wiped and the cursor with it,
    with one both are left to the generation that wrote them. *)
Theorem currentLastSync_discards store w lastSync h :
  repr floor store h -> Forall (fun b => 0 <= hb_number b) h ->
  parseStoredCursor (readCursor store SYNC_CURSOR_KEY) = Some lastSync -> ownCursor sb lastSync = false ->
  match container sb with
  | Some _ => currentLastSync sb store w = (store, resolved w, Ok (freshSync sb))
  | None => exists store', currentLastSync sb store w = (store', w, Ok (freshSync sb))
      /\ repr (-1) store' [] /\ readCursor store' SYNC_CURSOR_KEY = None
      /\ declarations store' = declarations store
  end.
Proof. apply currentLastSync_foreign. Qed.
End Contract.
