(* ===== verification/Emissions.v ===== *)
(** * The stored emission stream

    [packages/server/src/emissions.ts] and [feed/entries.ts] over the two tables of
    [schema/sql/db.sql]: appending what a fold concluded, flagging what a retraction
    supersedes, and the claim of how far a stream reaches.

    A table is the list of its rows.  A statement is what its SQL does to the tables:
    [INSERT] fails on a taken primary key, and [batch] runs all of its statements or none.
    The integer columns that hold 0 or 1 are booleans. *)
From S2P Require Import Prelude JsMap Types Stream StreamBuilder.

(** ** The tables *)
Record EmissionRow : Type := mkRow {
  row_indexer : string;
  row_stream : string;
  row_seq : Z;
  row_removed : bool;
  row_alive : bool;
  row_blockNumber : Z;
  row_blockHash : string;
  row_logIndex : Z;
  row_transactionHash : string;
  row_transactionIndex : Z;
  row_blockTimestamp : option Z;
  row_address : string;
  topic0 : option string;
  topic1 : option string;
  topic2 : option string;
  topic3 : option string;
  row_data : string
}.

#[export] Instance EmissionRow_eq_dec : EqDecision EmissionRow.
Proof. solve_decision. Defined.

Record CoverageRow : Type := mkCoverageRow {
  cov_indexer : string;
  cov_stream : string;
  cov_source : list SourceHashEntry;
  cov_config : string;
  cov_startBlock : Z;
  cov_latestBlock : Z;
  cov_lastFromBlock : Z;
  cov_lastToBlock : Z
}.

Record EmissionDb : Type := mkDb {
  emissions_table : list EmissionRow;
  coverage_table : list CoverageRow
}.

Definition emptyDb : EmissionDb := mkDb [] [].

(** [WHERE indexer = ?1 AND stream = ?2] *)
Definition of_stream (indexer stream : string) (row : EmissionRow) : Prop :=
  row_indexer row = indexer /\ row_stream row = stream.

#[export] Instance of_stream_dec indexer stream row : Decision (of_stream indexer stream row).
Proof. unfold of_stream. apply _. Defined.

Definition rows_of (db : EmissionDb) (indexer stream : string) : list EmissionRow :=
  filter (of_stream indexer stream) (emissions_table db).

(** ** Statements *)
Inductive Statement : Type :=
  | UpsertCoverage (claim : CoverageRow)
  | FlagSuperseded (indexer stream hash : string) (index : Z)
  | InsertEmission (row : EmissionRow)
  | DeleteSeqs (indexer stream : string) (seqs : list Z).

Definition same_claim (claim row : CoverageRow) : bool :=
  bool_decide (cov_indexer row = cov_indexer claim) && bool_decide (cov_stream row = cov_stream claim).

(** [ON CONFLICT (indexer, stream) DO UPDATE SET ...]: [startBlock] is the one column
    the update leaves. *)
Definition upsert (claims : list CoverageRow) (claim : CoverageRow) : list CoverageRow :=
  if existsb (same_claim claim) claims
  then (fun row =>
    if same_claim claim row
    then mkCoverageRow (cov_indexer row) (cov_stream row) (cov_source claim) (cov_config claim)
           (cov_startBlock row) (cov_latestBlock claim) (cov_lastFromBlock claim) (cov_lastToBlock claim)
    else row) <$> claims
  else claims ++ [claim].

Definition superseded (indexer stream hash : string) (index : Z) (row : EmissionRow) : Prop :=
  of_stream indexer stream row /\ row_blockHash row = hash /\ row_logIndex row = index
  /\ row_removed row = false /\ row_alive row = true.

#[export] Instance superseded_dec indexer stream hash index row : Decision (superseded indexer stream hash index row).
Proof. unfold superseded. apply _. Defined.

(** [SET alive = 0] *)
Definition dead (row : EmissionRow) : EmissionRow :=
  mkRow (row_indexer row) (row_stream row) (row_seq row) (row_removed row) false (row_blockNumber row) (row_blockHash row)
    (row_logIndex row) (row_transactionHash row) (row_transactionIndex row) (row_blockTimestamp row) (row_address row)
    (topic0 row) (topic1 row) (topic2 row) (topic3 row) (row_data row).

Definition primary_key (row : EmissionRow) : string * string * Z := (row_indexer row, row_stream row, row_seq row).

Definition runStatement (db : EmissionDb) (statement : Statement) : option EmissionDb :=
  match statement with
  | UpsertCoverage claim => Some (mkDb (emissions_table db) (upsert (coverage_table db) claim))
  | FlagSuperseded indexer stream hash index =>
      Some (mkDb ((fun row => if decide (superseded indexer stream hash index row) then dead row else row)
                    <$> emissions_table db) (coverage_table db))
  | InsertEmission row =>
      if decide (primary_key row ∈ primary_key <$> emissions_table db) then None
      else Some (mkDb (emissions_table db ++ [row]) (coverage_table db))
  | DeleteSeqs indexer stream seqs =>
      Some (mkDb (filter (fun row => ~ (of_stream indexer stream row /\ row_seq row ∈ seqs)) (emissions_table db))
              (coverage_table db))
  end.

Fixpoint runStatements (db : EmissionDb) (statements : list Statement) : option EmissionDb :=
  match statements with
  | [] => Some db
  | statement :: rest => runStatement db statement ≫= fun db' => runStatements db' rest
  end.

(** [db.batch] *)
Definition batch (db : EmissionDb) (statements : list Statement) : option EmissionDb := runStatements db statements.

(** ** Appending *)
Record EmissionAppend : Type := mkAppend {
  append_indexer : string;
  append_stream : string;
  append_coverage : StreamCoverage;
  append_emissions : list LogEvent
}.

(** [COALESCE(MAX(seq), 0)] *)
Definition readStreamHighWaterMark (db : EmissionDb) (indexer stream : string) : Z :=
  match row_seq <$> rows_of db indexer stream with
  | [] => 0
  | s :: rest => foldl Z.max s rest
  end.

Definition coverageUpsertOf (indexer stream : string) (coverage : StreamCoverage) : Statement :=
  UpsertCoverage (mkCoverageRow indexer stream (coverage_source coverage) (coverage_config coverage)
    (coverage_lastFromBlock coverage) (coverage_latestBlock coverage) (coverage_lastFromBlock coverage)
    (coverage_lastToBlock coverage)).

Definition rowOf (indexer stream : string) (at_seq : Z) (emission : LogEvent) : EmissionRow :=
  mkRow indexer stream at_seq (removed emission) (negb (removed emission)) (blockNumber emission) (blockHash emission)
    (logIndex emission) (transactionHash emission) (transactionIndex emission) (blockTimestamp emission)
    (address emission) (topics emission !! 0%nat) (topics emission !! 1%nat) (topics emission !! 2%nat)
    (topics emission !! 3%nat) (data emission).

Definition insertOf (indexer stream : string) (at_seq : Z) (emission : LogEvent) : Statement :=
  InsertEmission (rowOf indexer stream at_seq emission).

(** The statements of the loop, the next [seq] threaded through. *)
Fixpoint emissionStatements (indexer stream : string) (at_seq : Z) (emissions : list LogEvent) : list Statement :=
  match emissions with
  | [] => []
  | emission :: rest =>
      (if removed emission then [FlagSuperseded indexer stream (blockHash emission) (logIndex emission)] else [])
      ++ insertOf indexer stream (at_seq + 1) emission :: emissionStatements indexer stream (at_seq + 1) rest
  end.

Definition appendEmissions (db : EmissionDb) (append : EmissionAppend) : option EmissionDb :=
  let '(mkAppend indexer stream coverage emissions) := append in
  let at_seq := if decide (0 < length emissions)%nat then readStreamHighWaterMark db indexer stream else 0 in
  batch db (coverageUpsertOf indexer stream coverage :: emissionStatements indexer stream at_seq emissions).

(** The appender a receiver is built with: it throws when the batch did. *)
Definition emissionAppenderFor (indexer : string) : port EmissionDb EmissionWrite :=
  fun write db =>
    match appendEmissions db (mkAppend indexer (write_stream write) (write_coverage write) (write_emissions write)) with
    | Some db' => (db', true)
    | None => (db, false)
    end.

Definition readStreamCoverage (db : EmissionDb) (indexer stream : string) : option CoverageRow :=
  head (filter (fun row => cov_indexer row = indexer /\ cov_stream row = stream) (coverage_table db)).

(** ** One row, as the views hand it back *)
Record CanonicalEntry : Type := mkCanonicalEntry {
  entry_blockNumber : Z;
  entry_blockHash : string;
  entry_logIndex : Z;
  entry_transactionHash : string;
  entry_transactionIndex : Z;
  entry_blockTimestamp : option Z;
  entry_address : string;
  entry_topics : list string;
  entry_data : string
}.

#[export] Instance CanonicalEntry_eq_dec : EqDecision CanonicalEntry.
Proof. solve_decision. Defined.

(** The topics up to the first [NULL]. *)
Fixpoint leading {A} (l : list (option A)) : list A :=
  match l with
  | Some a :: rest => a :: leading rest
  | _ => []
  end.

Definition entryOf (row : EmissionRow) : CanonicalEntry :=
  mkCanonicalEntry (row_blockNumber row) (row_blockHash row) (row_logIndex row) (row_transactionHash row)
    (row_transactionIndex row) (row_blockTimestamp row) (row_address row)
    (leading [topic0 row; topic1 row; topic2 row; topic3 row]) (row_data row).

(** [FeedEntry], and the [StoredLogEvent] a replay reads: the log and its verdict. *)
Record FeedEntry : Type := mkFeedEntry {
  feed_entry : CanonicalEntry;
  feed_removed : bool
}.

Definition feedEntryOf (row : EmissionRow) : FeedEntry := mkFeedEntry (entryOf row) (row_removed row).
Definition storedLogOf (row : EmissionRow) : FeedEntry := mkFeedEntry (entryOf row) (row_removed row).

(** ** What an append leaves

    [stored rows at_seq emissions]: the rows of one stream once the emissions are in. *)
Definition flagged (indexer stream : string) (emission : LogEvent) (rows : list EmissionRow) : list EmissionRow :=
  if removed emission
  then (fun row => if decide (superseded indexer stream (blockHash emission) (logIndex emission) row) then dead row else row)
         <$> rows
  else rows.

Fixpoint stored (indexer stream : string) (rows : list EmissionRow) (at_seq : Z) (emissions : list LogEvent)
    : list EmissionRow :=
  match emissions with
  | [] => rows
  | emission :: rest =>
      stored indexer stream (flagged indexer stream emission rows ++ [rowOf indexer stream (at_seq + 1) emission])
        (at_seq + 1) rest
  end.

(** The rows of a stream: numbered in order, and none of them both a retraction and live. *)
Record rows_wf (rows : list EmissionRow) : Prop := {
  rows_ascending : ascending row_seq rows;
  rows_live : Forall (fun row => row_alive row = true -> row_removed row = false) rows
}.

Definition at_most (at_seq : Z) (rows : list EmissionRow) : Prop := Forall (fun row => row_seq row <= at_seq) rows.

Lemma high_water_bounds db indexer stream :
  at_most (readStreamHighWaterMark db indexer stream) (rows_of db indexer stream).
Proof.
  unfold at_most, readStreamHighWaterMark. apply (Forall_fmap row_seq (fun s => s <= _)).
  destruct (row_seq <$> rows_of db indexer stream) as [|s l]; [constructor|].
  assert (s <= foldl Z.max s l /\ Forall (fun x => x <= foldl Z.max s l) l) as [? ?]; [|by constructor].
  revert s. induction l as [|x l IH]; intros s; simpl; [split; [lia|constructor]|].
  destruct (IH (s `max` x)) as [Hs Hl]. split; [lia|]. constructor; [lia|done].
Qed.

Lemma flagged_spec indexer stream e rows :
  row_seq <$> flagged indexer stream e rows = row_seq <$> rows
  /\ feedEntryOf <$> flagged indexer stream e rows = feedEntryOf <$> rows
  /\ (Forall (of_stream indexer stream) rows -> Forall (of_stream indexer stream) (flagged indexer stream e rows)).
Proof.
  unfold flagged. destruct (removed e); [|done]. rewrite <- !list_fmap_compose. split_and!.
  - apply list_fmap_ext. intros i row _. simpl. by case_decide.
  - apply list_fmap_ext. intros i row _. simpl. by case_decide.
  - intros Hr. apply Forall_fmap. eapply Forall_impl; [exact Hr|]. intros row Hrow. simpl. by case_decide.
Qed.

Lemma ascending_by_fmap {A} (key : A -> Z) (l k : list A) : key <$> l = key <$> k -> ascending key k -> ascending key l.
Proof.
  intros Heq Hk. revert l Heq. induction Hk as [|x k Hk IH Hx]; intros [|y l]; csimpl; try done; [constructor|].
  intros [= Hy Hl]. constructor; [by apply IH|].
  apply (Forall_fmap key (fun n => key y < n)). rewrite Hl, Hy. by apply Forall_fmap.
Qed.

Lemma at_most_flagged indexer stream e at_seq rows : at_most at_seq rows -> at_most at_seq (flagged indexer stream e rows).
Proof.
  unfold at_most. intros Hr. apply (Forall_fmap row_seq (fun s => s <= at_seq)).
  rewrite (proj1 (flagged_spec _ _ _ _)). by apply Forall_fmap.
Qed.

Lemma stored_wf indexer stream rows at_seq emissions :
  rows_wf rows -> at_most at_seq rows -> rows_wf (stored indexer stream rows at_seq emissions).
Proof.
  revert rows at_seq. induction emissions as [|e rest IH]; intros rows at_seq [Ha Hl] Hm; [done|]. simpl.
  pose proof (at_most_flagged indexer stream e _ _ Hm) as Hm'. unfold at_most in *. apply IH.
  - split.
    + apply ascending_app. split_and!; [|by eapply ascending_by_fmap; [apply flagged_spec|]|repeat constructor].
      intros x y Hx ->%list_elem_of_singleton. rewrite Forall_forall in Hm'. specialize (Hm' x Hx). simpl. lia.
    + apply Forall_app. split; [|constructor; [|constructor]].
      * unfold flagged. destruct (removed e); [|done]. apply Forall_fmap. eapply Forall_impl; [exact Hl|].
        intros row Hrow. simpl. by case_decide.
      * simpl. by destruct (removed e).
  - apply Forall_app. split; [eapply Forall_impl; [exact Hm'|]; simpl; lia|]. constructor; [simpl; lia|constructor].
Qed.

(** *** The statements, one table at a time *)
Lemma rows_of_flag db indexer stream e indexer' stream' db' :
  runStatement db (FlagSuperseded indexer stream (blockHash e) (logIndex e)) = Some db' -> removed e = true ->
  coverage_table db' = coverage_table db
  /\ rows_of db' indexer stream = flagged indexer stream e (rows_of db indexer stream)
  /\ ((indexer', stream') <> (indexer, stream) -> rows_of db' indexer' stream' = rows_of db indexer' stream').
Proof.
  cbn [runStatement]. intros [= <-] He. split; [done|]. unfold rows_of, flagged. cbn [emissions_table]. rewrite He.
  assert (forall i s, filter (of_stream i s)
      ((fun row => if decide (superseded indexer stream (blockHash e) (logIndex e) row) then dead row else row)
         <$> emissions_table db)
    = (fun row => if decide (superseded indexer stream (blockHash e) (logIndex e) row) then dead row else row)
         <$> filter (of_stream i s) (emissions_table db)) as Hf.
  { intros i s. apply filter_pairs. intros row _. by case_decide. }
  split; [apply Hf|]. intros Hne. rewrite Hf. rewrite <- (list_fmap_id (filter _ _)) at 2. apply list_fmap_ext.
  intros k row Hrow%list_elem_of_lookup_2. apply list_elem_of_filter in Hrow as [[H1 H2] _].
  rewrite decide_False; [done|]. intros ([H3 H4] & _). congruence.
Qed.

Lemma rows_of_insert db indexer stream at_seq e indexer' stream' :
  at_most at_seq (rows_of db indexer stream) ->
  exists db', runStatement db (insertOf indexer stream (at_seq + 1) e) = Some db'
  /\ coverage_table db' = coverage_table db
  /\ rows_of db' indexer stream = rows_of db indexer stream ++ [rowOf indexer stream (at_seq + 1) e]
  /\ ((indexer', stream') <> (indexer, stream) -> rows_of db' indexer' stream' = rows_of db indexer' stream').
Proof.
  intros Hm. cbn [runStatement insertOf]. rewrite decide_False.
  2:{ intros (row & Heq & Hin)%list_elem_of_fmap. injection Heq as Hi Hs Hq.
      unfold at_most in Hm. rewrite Forall_forall in Hm.
      assert (row ∈ rows_of db indexer stream) as Hrow by (by apply elem_of_filter_intro).
      specialize (Hm row Hrow). simpl in Hq. lia. }
  eexists. split; [done|]. split; [done|]. unfold rows_of. cbn [emissions_table]. rewrite !filter_app. split.
  - f_equal. by rewrite filter_cons_True.
  - intros Hne. rewrite (filter_cons_False (of_stream indexer' stream')), filter_nil, app_nil_r; [done|].
    intros [H1 H2]. simpl in H1, H2. congruence.
Qed.

Lemma emissionStatements_run db indexer stream at_seq emissions :
  at_most at_seq (rows_of db indexer stream) ->
  exists db', runStatements db (emissionStatements indexer stream at_seq emissions) = Some db'
  /\ coverage_table db' = coverage_table db
  /\ rows_of db' indexer stream = stored indexer stream (rows_of db indexer stream) at_seq emissions
  /\ (forall indexer' stream', (indexer', stream') <> (indexer, stream) ->
        rows_of db' indexer' stream' = rows_of db indexer' stream').
Proof.
  revert db at_seq. induction emissions as [|e rest IH]; intros db at_seq Hm; [by exists db|].
  cbn [emissionStatements stored].
  assert (exists db1, runStatements db ((if removed e then [FlagSuperseded indexer stream (blockHash e) (logIndex e)] else [])
      ++ insertOf indexer stream (at_seq + 1) e :: emissionStatements indexer stream (at_seq + 1) rest)
      = runStatements db1 (insertOf indexer stream (at_seq + 1) e :: emissionStatements indexer stream (at_seq + 1) rest)
    /\ coverage_table db1 = coverage_table db /\ rows_of db1 indexer stream = flagged indexer stream e (rows_of db indexer stream)
    /\ forall indexer' stream', (indexer', stream') <> (indexer, stream) ->
         rows_of db1 indexer' stream' = rows_of db indexer' stream') as (db1 & -> & Hc1 & Hr1 & Ho1).
  { destruct (removed e) eqn:He; [|exists db; unfold flagged; by rewrite He].
    destruct (runStatement db (FlagSuperseded indexer stream (blockHash e) (logIndex e))) as [db1|] eqn:Hdb1; [|done].
    exists db1. cbn [app runStatements]. rewrite Hdb1. cbn [mbind option_bind]. split; [done|].
    destruct (rows_of_flag _ _ _ _ indexer stream _ Hdb1 He) as (? & ? & _). split_and!; try done.
    intros i' s' Hne. by apply (rows_of_flag _ _ _ _ i' s' _ Hdb1 He). }
  pose proof (at_most_flagged indexer stream e _ _ Hm) as Hm1. rewrite <- Hr1 in Hm1.
  destruct (rows_of_insert db1 indexer stream at_seq e indexer stream Hm1) as (db2 & Hrun & Hc2 & Hr2 & _).
  cbn [runStatements]. rewrite Hrun. cbn [mbind option_bind].
  destruct (IH db2 (at_seq + 1)) as (db3 & -> & Hc3 & Hr3 & Ho3).
  { rewrite Hr2. unfold at_most in *. apply Forall_app. split; [eapply Forall_impl; [exact Hm1|]; simpl; lia|].
    constructor; [simpl; lia|constructor]. }
  exists db3. split_and!; [done|congruence|by rewrite Hr3, Hr2, Hr1|].
  intros i' s' Hne. rewrite (Ho3 _ _ Hne), <- (Ho1 _ _ Hne).
  destruct (rows_of_insert db1 indexer stream at_seq e i' s' Hm1) as (db2' & Hrun' & _ & _ & Ho2).
  rewrite Hrun in Hrun'. injection Hrun' as <-. by apply Ho2.
Qed.

(** The claim a stream carries after an append. *)
Definition claimed (before : option CoverageRow) (indexer stream : string) (coverage : StreamCoverage) : CoverageRow :=
  mkCoverageRow indexer stream (coverage_source coverage) (coverage_config coverage)
    (match before with Some row => cov_startBlock row | None => coverage_lastFromBlock coverage end)
    (coverage_latestBlock coverage) (coverage_lastFromBlock coverage) (coverage_lastToBlock coverage).

Lemma coverage_upserted claims table indexer stream coverage indexer' stream' :
  let claim := mkCoverageRow indexer stream (coverage_source coverage) (coverage_config coverage)
    (coverage_lastFromBlock coverage) (coverage_latestBlock coverage) (coverage_lastFromBlock coverage)
    (coverage_lastToBlock coverage) in
  let before := head (filter (fun row => cov_indexer row = indexer /\ cov_stream row = stream) claims) in
  readStreamCoverage (mkDb table (upsert claims claim)) indexer' stream'
  = if decide ((indexer', stream') = (indexer, stream)) then Some (claimed before indexer stream coverage)
    else head (filter (fun row => cov_indexer row = indexer' /\ cov_stream row = stream') claims).
Proof.
  intros claim before. unfold readStreamCoverage. cbn [coverage_table].
  assert (forall row, same_claim claim row = true <-> cov_indexer row = indexer /\ cov_stream row = stream) as Hsame.
  { intros row. unfold same_claim. by rewrite andb_true_iff, !bool_decide_eq_true. }
  unfold upsert. destruct (existsb (same_claim claim) claims) eqn:Hex.
  - rewrite (filter_pairs (fun row => cov_indexer row = indexer' /\ cov_stream row = stream')
      (fun row => cov_indexer row = indexer' /\ cov_stream row = stream')).

    2:{ intros row _. by destruct (same_claim claim row). }
    rewrite head_fmap. case_decide as Heq.
    + injection Heq as -> ->. unfold before.
      destruct (filter _ claims) as [|row l] eqn:Hf.
      * apply existsb_exists in Hex as (row & Hin & Hrow). apply Hsame in Hrow.
        assert (row ∈ filter (fun row => cov_indexer row = indexer /\ cov_stream row = stream) claims) as Hrow'
          by (by apply elem_of_filter_intro, list_elem_of_In). rewrite Hf in Hrow'. by apply not_elem_of_nil in Hrow'.
      * assert (cov_indexer row = indexer /\ cov_stream row = stream) as Hrow.
        { assert (row ∈ row :: l) as Hin by left. rewrite <- Hf in Hin. by apply list_elem_of_filter in Hin as [? _]. }
        simpl. f_equal. rewrite (proj2 (Hsame row) Hrow). destruct Hrow as [H1 H2]. unfold claimed. by rewrite H1, H2.
    + clear before. destruct (filter _ claims) as [|row l] eqn:Hf; [done|].
      assert (cov_indexer row = indexer' /\ cov_stream row = stream') as [H1 H2].
      { assert (row ∈ row :: l) as Hin by left. rewrite <- Hf in Hin. by apply list_elem_of_filter in Hin as [? _]. }
      assert (same_claim claim row = false) as Hs by (apply not_true_is_false; intros [H3 H4]%Hsame; congruence).
      cbn [fmap option_fmap option_map head]. by rewrite Hs.
  - rewrite filter_app, filter_cons. cbn [cov_indexer cov_stream claim].
    assert (filter (fun row => cov_indexer row = indexer /\ cov_stream row = stream) claims = []) as Hnone.
    { apply filter_Forall_nil, Forall_forall. intros row Hin Hrow%Hsame.
      assert (existsb (same_claim claim) claims = true) by (apply existsb_exists; exists row; by rewrite <- list_elem_of_In).
      congruence. }
    destruct (decide ((indexer', stream') = (indexer, stream))) as [[= -> ->]|Hne].
    + rewrite decide_True by done. unfold before. by rewrite Hnone.
    + rewrite decide_False by (intros [-> ->]; done). by rewrite filter_nil, app_nil_r.
Qed.

(** Everything an append does: it always succeeds, numbers the rows from the high-water
    mark, moves this stream's claim and touches no other stream. *)
Lemma append_spec db indexer stream coverage emissions :
  exists db', appendEmissions db (mkAppend indexer stream coverage emissions) = Some db'
  /\ rows_of db' indexer stream
       = stored indexer stream (rows_of db indexer stream) (readStreamHighWaterMark db indexer stream) emissions
  /\ readStreamCoverage db' indexer stream = Some (claimed (readStreamCoverage db indexer stream) indexer stream coverage)
  /\ forall indexer' stream', (indexer', stream') <> (indexer, stream) ->
       rows_of db' indexer' stream' = rows_of db indexer' stream'
       /\ readStreamCoverage db' indexer' stream' = readStreamCoverage db indexer' stream'.
Proof.
  unfold appendEmissions, batch. cbn [runStatements runStatement coverageUpsertOf mbind option_bind].
  set (db1 := mkDb _ _).
  assert (forall i s, rows_of db1 i s = rows_of db i s) as Hsame by done.
  pose proof (high_water_bounds db indexer stream) as Hm.
  assert (exists db', runStatements db1 (emissionStatements indexer stream
      (if decide (0 < length emissions)%nat then readStreamHighWaterMark db indexer stream else 0) emissions) = Some db'
    /\ coverage_table db' = coverage_table db1
    /\ rows_of db' indexer stream
         = stored indexer stream (rows_of db indexer stream) (readStreamHighWaterMark db indexer stream) emissions
    /\ forall i' s', (i', s') <> (indexer, stream) -> rows_of db' i' s' = rows_of db i' s') as (db' & -> & Hc & Hr & Ho).
  { destruct emissions as [|e rest]; [by exists db1|]. rewrite decide_True by (simpl; lia).
    destruct (emissionStatements_run db1 indexer stream (readStreamHighWaterMark db indexer stream) (e :: rest)) as (db' & ? & ? & ? & ?);
      [done|by exists db']. }
  exists db'. split_and!; [done|done|..].
  - pose proof (coverage_upserted (coverage_table db) (emissions_table db') indexer stream coverage indexer stream) as Hcov.
    cbv zeta in Hcov. rewrite decide_True in Hcov by done. etrans; [|exact Hcov]. unfold readStreamCoverage. by rewrite Hc.
  - intros i' s' Hne. split; [by apply Ho|].
    pose proof (coverage_upserted (coverage_table db) (emissions_table db') indexer stream coverage i' s') as Hcov.
    cbv zeta in Hcov. rewrite decide_False in Hcov by done. etrans; [|exact Hcov]. unfold readStreamCoverage. by rewrite Hc.
Qed.

(** ** The live rows

    What the rows that are still canonical say, in the order they were appended. *)
Definition live_entries (rows : list EmissionRow) : list CanonicalEntry :=
  entryOf <$> filter (fun row => row_alive row = true) rows.

Definition entry_of_log (e : LogEvent) : CanonicalEntry :=
  mkCanonicalEntry (blockNumber e) (blockHash e) (logIndex e) (transactionHash e) (transactionIndex e) (blockTimestamp e)
    (address e) (take 4 (topics e)) (data e).

Lemma entryOf_row indexer stream at_seq e : entryOf (rowOf indexer stream at_seq e) = entry_of_log e.
Proof. unfold entryOf, entry_of_log. simpl. f_equal. by destruct (topics e) as [|a [|b [|c [|d l]]]]. Qed.

Definition log_key (e : LogEvent) : string * Z := (blockHash e, logIndex e).
Definition entry_key (c : CanonicalEntry) : string * Z := (entry_blockHash c, entry_logIndex c).

(** One emission, seen from the live rows. *)
Definition live_step (live : list CanonicalEntry) (e : LogEvent) : list CanonicalEntry :=
  if removed e then filter (fun c => entry_key c <> log_key e) live else live ++ [entry_of_log e].

Lemma flagged_live indexer stream e rows :
  rows_wf rows -> Forall (of_stream indexer stream) rows -> removed e = true ->
  live_entries (flagged indexer stream e rows) = filter (fun c => entry_key c <> log_key e) (live_entries rows).
Proof.
  intros [_ Hl] Hof He. unfold live_entries, flagged. rewrite He.
  induction rows as [|row rows IH]; [done|]. apply Forall_cons in Hl as [Hrow Hl], Hof as [Ho Hof].
  rewrite fmap_cons. destruct (decide (superseded indexer stream (blockHash e) (logIndex e) row)) as [Hs|Hs].
  - rewrite filter_cons_False by done. destruct Hs as (_ & Hh & Hi & _ & Ha).
    rewrite (filter_cons_True (fun row => row_alive row = true)) by done. csimpl. rewrite filter_cons_False.
    + by apply IH.
    + intros Hne. apply Hne. unfold entry_key, log_key. simpl. congruence.
  - destruct (decide (row_alive row = true)) as [Ha|Ha].
    + rewrite !(filter_cons_True (fun row => row_alive row = true)) by done. csimpl. rewrite filter_cons_True.
      * f_equal. by apply IH.
      * unfold entry_key, log_key. simpl. intros [= Hh Hi]. apply Hs. split_and!; try done. by apply Hrow.
    + rewrite !(filter_cons_False (fun row => row_alive row = true)) by done. by apply IH.
Qed.

Lemma stored_live indexer stream rows at_seq emissions :
  rows_wf rows -> at_most at_seq rows -> Forall (of_stream indexer stream) rows ->
  live_entries (stored indexer stream rows at_seq emissions) = foldl live_step (live_entries rows) emissions.
Proof.
  revert rows at_seq. induction emissions as [|e rest IH]; intros rows at_seq Hwf Hm Hof; [done|]. simpl.
  pose proof (stored_wf indexer stream rows at_seq [e] Hwf Hm) as Hwf1. simpl in Hwf1.
  rewrite IH; [|done|..].
  - f_equal. unfold live_step. unfold live_entries at 1. rewrite filter_app, fmap_app.
    fold (live_entries (flagged indexer stream e rows)). destruct (removed e) eqn:He.
    + rewrite (filter_Forall_nil _ [_]); [|constructor; [simpl; by rewrite He|constructor]].
      rewrite app_nil_r. by apply flagged_live.
    + rewrite filter_cons_True by (simpl; by rewrite He). csimpl. rewrite entryOf_row. unfold flagged. by rewrite He.
  - apply (at_most_flagged indexer stream e) in Hm. unfold at_most in *. apply Forall_app.
    split; [eapply Forall_impl; [exact Hm|]; simpl; lia|]. constructor; [simpl; lia|constructor].
  - apply Forall_app. split; [by apply flagged_spec|]. by repeat constructor.
Qed.

(** The whole stream, retractions included, as the feed and a replay read it. *)
Definition feed_of_log (e : LogEvent) : FeedEntry := mkFeedEntry (entry_of_log e) (removed e).

Lemma stored_feed indexer stream rows at_seq emissions :
  feedEntryOf <$> stored indexer stream rows at_seq emissions = (feedEntryOf <$> rows) ++ (feed_of_log <$> emissions).
Proof.
  revert rows at_seq. induction emissions as [|e rest IH]; intros rows at_seq; simpl; [by rewrite app_nil_r|].
  rewrite IH, fmap_app. csimpl. rewrite (proj1 (proj2 (flagged_spec _ _ _ _))), <- app_assoc. simpl.
  unfold feedEntryOf at 2. by rewrite entryOf_row.
Qed.
