(* ===== verification/Keeper.v ===== *)
(** * The keeper of a stream

    [packages/core/src/stream/segments.ts]: the stored stream of one digest as numbered
    segments and a cursor record, over the five operations a substrate supplies.
    [SegmentPortLaws] states what a substrate promises; [KeeperOnIndexedDB] is one. *)
From S2P Require Import Prelude JsMap Types Emissions.

(** [StreamCursorRecord] *)
Record StreamCursorRecord : Type := mkCursorRecord {
  cursor_context : ContextIdentifier;
  cursor_latestBlock : Z;
  cursor_lastFromBlock : Z;
  cursor_lastToBlock : Z;
  cursor_startBlock : Z;
  cursor_nextOrdinal : Z
}.

(** A stored value as [isSegment] sees it. *)
Inductive StoredValue : Type :=
  | Segment (events : list FeedEntry)
  | NotASegment.

Record SegmentCommit : Type := mkCommit {
  commit_ordinal : Z;
  commit_segment : list FeedEntry;
  commit_cursor : StreamCursorRecord
}.

Record StoredSegment : Type := mkStoredSegment { stored_ordinal : Z; stored_value : StoredValue }.

(** What a keeper supplies.  A decision function also notes something for its caller; an
    operation that answers nothing has thrown. *)
Class StreamSegmentPort (Source K : Type) : Type := {
  readCursor : Source -> K -> option (option StreamCursorRecord);
  commitSegmentWithCursor {A} : Source -> (option StreamCursorRecord -> option SegmentCommit * A) -> K -> K * option A;
  writeCursorOnly {A} : Source -> (option StreamCursorRecord -> option StreamCursorRecord * A) -> K -> K * option A;
  readSegments : Source -> K -> option (list StoredSegment);
  clearSubtree : Source -> K -> K * option nat
}.

(** [StreamRead] *)
Inductive Damage : Type :=
  | SegmentsWithoutCursor (count : nat)
  | OrdinalGap (at_ordinal : Z)
  | DoesNotParse (ordinal : Z)
  | CursorClaims (claimed : Z) (stored : nat).

Inductive StreamRead : Type :=
  | StreamOf (lastSync : LastSync) (eventStream : list FeedEntry)
  | StreamAbsent
  | StreamDamaged (reason : Damage)
  | StreamStarts (startBlock : Z).

Inductive SaveOutcome : Type := Saved | Declined | SaveThrew.

#[export] Instance SaveOutcome_eq_dec : EqDecision SaveOutcome.
Proof. solve_decision. Defined.

(** ** [createSegmentedStream] *)
Definition carryForward (current : option StreamCursorRecord) (sync : LastSync) : option (Z * Z) :=
  match current with
  | None => Some (lastFromBlock sync, 0)
  | Some current =>
      if decide (cursor_lastToBlock current + 1 < lastFromBlock sync) then None
      else Some (cursor_startBlock current, cursor_nextOrdinal current)
  end.

Definition cursorRecord (sync : LastSync) (carried : Z * Z) : StreamCursorRecord :=
  mkCursorRecord (context sync) (latestBlock sync) (lastFromBlock sync) (lastToBlock sync) carried.1 carried.2.

(** The scan over the stored segments. *)
Fixpoint scanSegments (i : Z) (stored : list StoredSegment) (eventStream : list FeedEntry) : result Damage (list FeedEntry) :=
  match stored with
  | [] => Ok eventStream
  | segment :: stored =>
      if decide (stored_ordinal segment <> i) then Err (OrdinalGap i)
      else match stored_value segment with
           | NotASegment => Err (DoesNotParse i)
           | Segment events => scanSegments (i + 1) stored (eventStream ++ events)
           end
  end.

Definition entryAt (e : FeedEntry) : Z := entry_blockNumber (feed_entry e).

Definition readOf (cursor : StreamCursorRecord) (stored : list StoredSegment) (fromBlock : Z) : StreamRead :=
  match scanSegments 0 stored [] with
  | Err reason => StreamDamaged reason
  | Ok eventStream =>
      if decide (Z.of_nat (length stored) <> cursor_nextOrdinal cursor) then StreamDamaged (CursorClaims (cursor_nextOrdinal cursor) (length stored))
      else if decide (fromBlock < cursor_startBlock cursor) then StreamStarts (cursor_startBlock cursor)
      else StreamOf (mkSync (cursor_context cursor) (cursor_latestBlock cursor) (cursor_lastFromBlock cursor) (cursor_lastToBlock cursor) [])
             (filter (fun e => fromBlock <= entryAt e) eventStream)
  end.

(** What the decision functions of a save note: whether the batch was declined. *)
Definition onlyCursor (sync : LastSync) (current : option StreamCursorRecord) : option StreamCursorRecord * bool :=
  match carryForward current sync with
  | None => (None, true)
  | Some carried => (Some (cursorRecord sync carried), false)
  end.

Definition allocate (sync : LastSync) (eventStream : list FeedEntry) (current : option StreamCursorRecord) : option SegmentCommit * bool :=
  match carryForward current sync with
  | None => (None, true)
  | Some (start, next) => (Some (mkCommit next eventStream (cursorRecord sync (start, next + 1))), false)
  end.

Section Keeper.
Context `{port : StreamSegmentPort Source K}.

(** The cursor and the segments are two reads: the substrate may move between them. *)
Definition fetchAcross (source : Source) (fromBlock : Z) (k later : K) : option StreamRead :=
  cursor ← readCursor source k;
  match cursor with
  | None =>
      stored ← readSegments source later;
      Some (match stored with [] => StreamAbsent | _ => StreamDamaged (SegmentsWithoutCursor (length stored)) end)
  | Some cursor =>
      stored ← readSegments source later;
      Some (readOf cursor stored fromBlock)
  end.

(** The read nothing comes between. *)
Definition fetchFrom (source : Source) (fromBlock : Z) (k : K) : option StreamRead := fetchAcross source fromBlock k k.

(** The second component is [declineReported]. *)
Definition saveNewEvents (source : Source) (sync : LastSync) (eventStream : list FeedEntry) (k : K * bool) : (K * bool) * SaveOutcome :=
  let '(k', noted) := match eventStream with
    | [] => writeCursorOnly source (onlyCursor sync) k.1
    | _ => commitSegmentWithCursor source (allocate sync eventStream) k.1
    end in
  match noted with
  | None => ((k', k.2), SaveThrew)
  | Some true => ((k', true), Declined)
  | Some false => ((k', false), Saved)
  end.

Definition clear (source : Source) (k : K) : K * bool :=
  let '(k', removed) := clearSubtree source k in (k', bool_decide (is_Some removed)).
End Keeper.

(** ** What a substrate promises

    The records of one address, and what each operation does to them. *)
Record Subtree : Type := mkSubtree {
  tree_cursor : option StreamCursorRecord;
  tree_segments : gmap Z StoredValue
}.

Definition emptyTree : Subtree := mkSubtree None ∅.

Definition lists (segments : gmap Z StoredValue) (stored : list StoredSegment) : Prop :=
  ascending stored_ordinal stored /\ forall n v, mkStoredSegment n v ∈ stored <-> segments !! n = Some v.

Definition committed (commit : option SegmentCommit) (tree : Subtree) : Subtree :=
  match commit with
  | None => tree
  | Some c => mkSubtree (Some (commit_cursor c)) (<[commit_ordinal c := Segment (commit_segment c)]> (tree_segments tree))
  end.

Definition moved (cursor : option StreamCursorRecord) (tree : Subtree) : Subtree :=
  match cursor with None => tree | Some c => mkSubtree (Some c) (tree_segments tree) end.

Class SegmentPortLaws (Source K : Type) `{port : StreamSegmentPort Source K} : Type := {
  Address : Type;
  address_dec :: EqDecision Address;
  addressOf : K -> Source -> option Address;
  subtree : K -> Address -> Subtree;

  read_cursor source k c : readCursor source k = Some c -> exists a, addressOf k source = Some a /\ c = tree_cursor (subtree k a);
  read_segments source k l : readSegments source k = Some l -> exists a, addressOf k source = Some a /\ lists (tree_segments (subtree k a)) l;

  committing {A} source (f : option StreamCursorRecord -> option SegmentCommit * A) k k' noted :
    commitSegmentWithCursor source f k = (k', noted) ->
    (forall s, addressOf k' s = addressOf k s)
    /\ match noted with
       | None => forall b, subtree k' b = subtree k b
       | Some x => exists a, addressOf k source = Some a /\ (f (tree_cursor (subtree k a))).2 = x
           /\ (forall b, b <> a -> subtree k' b = subtree k b)
           /\ ((forall c, (f (tree_cursor (subtree k a))).1 = Some c -> 0 <= commit_ordinal c) ->
                subtree k' a = committed (f (tree_cursor (subtree k a))).1 (subtree k a))
       end;

  moving {A} source (f : option StreamCursorRecord -> option StreamCursorRecord * A) k k' noted :
    writeCursorOnly source f k = (k', noted) ->
    (forall s, addressOf k' s = addressOf k s)
    /\ match noted with
       | None => forall b, subtree k' b = subtree k b
       | Some x => exists a, addressOf k source = Some a /\ (f (tree_cursor (subtree k a))).2 = x
           /\ (forall b, b <> a -> subtree k' b = subtree k b)
           /\ subtree k' a = moved (f (tree_cursor (subtree k a))).1 (subtree k a)
       end;

  clearing source k k' removed :
    clearSubtree source k = (k', removed) ->
    (forall s, addressOf k' s = addressOf k s)
    /\ match removed with
       | None => forall b, subtree k' b = subtree k b
       | Some _ => exists a, addressOf k source = Some a /\ forall b, subtree k' b = if decide (b = a) then emptyTree else subtree k b
       end
}.

(** ** What is kept

    The batches a keeper accepted, and the numbers of the last one. *)
Record Kept : Type := mkKept {
  kept_sync : LastSync;
  kept_start : Z;
  kept_batches : list (list FeedEntry)
}.

Definition numbered (batches : list (list FeedEntry)) : gmap Z StoredValue := list_to_map (imap (fun i batch => (Z.of_nat i, Segment batch)) batches).

Definition represents (kept : option Kept) (tree : Subtree) : Prop :=
  match kept with
  | None => tree = emptyTree
  | Some t => tree = mkSubtree (Some (cursorRecord (kept_sync t) (kept_start t, Z.of_nat (length (kept_batches t))))) (numbered (kept_batches t))
  end.

Definition accept (kept : option Kept) (sync : LastSync) (eventStream : list FeedEntry) : option Kept :=
  let batch := match eventStream with [] => [] | _ => [eventStream] end in
  match kept with
  | None => Some (mkKept sync (lastFromBlock sync) batch)
  | Some t => if decide (lastToBlock (kept_sync t) + 1 < lastFromBlock sync) then None else Some (mkKept sync (kept_start t) (kept_batches t ++ batch))
  end.

Definition withoutWindow (sync : LastSync) : LastSync := mkSync (context sync) (latestBlock sync) (lastFromBlock sync) (lastToBlock sync) [].

Definition readKept (kept : option Kept) (fromBlock : Z) : StreamRead :=
  match kept with
  | None => StreamAbsent
  | Some t =>
      if decide (fromBlock < kept_start t) then StreamStarts (kept_start t)
      else StreamOf (withoutWindow (kept_sync t)) (filter (fun e => fromBlock <= entryAt e) (concat (kept_batches t)))
  end.

(** The cursor of what was kept, over the batches kept by the time they are read. *)
Definition batchesKept (kept : option Kept) : list (list FeedEntry) := from_option kept_batches [] kept.

Definition readAcross (kept : option Kept) (batches : list (list FeedEntry)) (fromBlock : Z) : StreamRead :=
  match kept with
  | None => match batches with [] => StreamAbsent | _ => StreamDamaged (SegmentsWithoutCursor (length batches)) end
  | Some t =>
      if decide (length batches = length (kept_batches t)) then readKept (Some (mkKept (kept_sync t) (kept_start t) batches)) fromBlock
      else StreamDamaged (CursorClaims (Z.of_nat (length (kept_batches t))) (length batches))
  end.

(** *** Numbered segments *)
Lemma numbered_lookup batches n : numbered batches !! n = if decide (0 <= n) then Segment <$> batches !! Z.to_nat n else None.
Proof.
  unfold numbered. apply option_eq. intros v. rewrite <- elem_of_list_to_map.
  - rewrite elem_of_lookup_imap. split.
    + intros (i & batch & [= -> ->] & Hi). rewrite decide_True by lia. by rewrite Nat2Z.id, Hi.
    + case_decide; [|done]. destruct (batches !! Z.to_nat n) as [batch|] eqn:Hb; [|done]. intros [= <-]. exists (Z.to_nat n), batch. split; [|done]. by rewrite Z2Nat.id.
  - rewrite fmap_imap. apply NoDup_alt. intros i j x Hi Hj. rewrite !list_lookup_imap in Hi, Hj.
    destruct (batches !! i); [|done]. destruct (batches !! j); [|done]. injection Hi as <-. injection Hj as Hij. cbn in Hij. lia.
Qed.

Lemma numbered_snoc batches batch : numbered (batches ++ [batch]) = <[Z.of_nat (length batches) := Segment batch]> (numbered batches).
Proof.
  apply map_eq. intros n. destruct (decide (n = Z.of_nat (length batches))) as [->|Hne].
  - rewrite lookup_insert_eq, numbered_lookup, decide_True, Nat2Z.id by lia. by rewrite list_lookup_middle.
  - rewrite lookup_insert_ne, !numbered_lookup by done. case_decide; [|done]. destruct (decide (Z.to_nat n < length batches)%nat).
    + by rewrite lookup_app_l.
    + rewrite !lookup_ge_None_2; [done|lia|rewrite length_app; simpl; lia].
Qed.

Lemma numbered_empty batches : numbered batches = ∅ -> batches = [].
Proof.
  intros Hempty. destruct batches as [|batch batches]; [done|]. pose proof (numbered_lookup (batch :: batches) 0) as Hl. rewrite Hempty in Hl. done.
Qed.

Lemma ascending_ordinals (batches : list (list FeedEntry)) : forall i,
  ascending stored_ordinal (imap (fun j batch => mkStoredSegment (i + Z.of_nat j) (Segment batch)) batches).
Proof.
  induction batches as [|batch batches IH]; intros i; cbn [imap]; constructor.
  - rewrite (imap_ext _ (fun j b => mkStoredSegment (i + 1 + Z.of_nat j) (Segment b))) by (intros j b _; unfold compose; f_equal; lia). apply IH.
  - apply Forall_forall. intros x (j & b & -> & _)%elem_of_lookup_imap. unfold compose. cbn. lia.
Qed.

(** The list a substrate hands back is the segments in order. *)
Lemma lists_numbered batches stored :
  lists (numbered batches) stored -> stored = imap (fun i batch => mkStoredSegment (0 + Z.of_nat i) (Segment batch)) batches.
Proof.
  intros [Ha Hin]. apply (ascending_ext stored_ordinal); [done| |].
  - apply (ascending_ordinals batches 0).
  - intros [n v]. rewrite Hin, numbered_lookup, elem_of_lookup_imap. split.
    + case_decide; [|done]. destruct (batches !! Z.to_nat n) as [batch|] eqn:Hb; [|done]. intros [= <-]. exists (Z.to_nat n), batch. split; [|done]. by rewrite Z2Nat.id.
    + intros (i & batch & [= -> ->] & Hi). change (0 + Z.of_nat i) with (Z.of_nat i). rewrite decide_True by lia. by rewrite Nat2Z.id, Hi.
Qed.

Lemma scan_numbered batches : forall i acc,
  scanSegments i (imap (fun j batch => mkStoredSegment (i + Z.of_nat j) (Segment batch)) batches) acc = Ok (acc ++ concat batches).
Proof.
  induction batches as [|batch batches IH]; intros i acc; [by rewrite app_nil_r|]. cbn [imap scanSegments stored_ordinal stored_value].
  rewrite Z.add_0_r, decide_False by tauto.
  rewrite (imap_ext _ (fun j b => mkStoredSegment (i + 1 + Z.of_nat j) (Segment b))) by (intros j b _; unfold compose; f_equal; lia).
  rewrite IH. cbn [concat]. by rewrite app_assoc.
Qed.

Section Keeping.
Context `{laws : SegmentPortLaws Source K}.
#[local] Existing Instance address_dec.

Lemma represents_segments kept tree : represents kept tree -> tree_segments tree = numbered (batchesKept kept).
Proof. destruct kept as [t|]; by intros ->. Qed.

(** A read that answers says exactly what its two transactions saw. *)
Lemma fetch_across source from k later a kept kept' r :
  addressOf k source = Some a -> addressOf later source = Some a ->
  represents kept (subtree k a) -> represents kept' (subtree later a) ->
  fetchAcross source from k later = Some r -> r = readAcross kept (batchesKept kept') from.
Proof.
  intros Ha Ha' Hrep Hrep'%represents_segments. unfold fetchAcross. intros (cursor & (b & Hb & ->)%read_cursor & Hr)%bind_Some.
  rewrite Ha in Hb. injection Hb as <-.
  assert (forall stored, readSegments source later = Some stored ->
    stored = imap (fun i batch => mkStoredSegment (0 + Z.of_nat i) (Segment batch)) (batchesKept kept')) as Hread.
  { intros stored (b & Hb & Hl)%read_segments. rewrite Ha' in Hb. injection Hb as <-. rewrite Hrep' in Hl. by apply lists_numbered. }
  destruct kept as [t|]; cbn [represents] in Hrep; rewrite Hrep in Hr; cbn [tree_cursor emptyTree] in Hr;
    apply bind_Some in Hr as (stored & ->%Hread & [= <-]); unfold readAcross.
  - unfold readOf. rewrite (scan_numbered (batchesKept kept') 0 []), length_imap. cbn [cursorRecord cursor_nextOrdinal cursor_startBlock fst snd app].
    destruct (decide (length (batchesKept kept') = length (kept_batches t))) as [Hlen|Hlen].
    + rewrite decide_False by lia. done.
    + by rewrite decide_True by lia.
  - destruct (batchesKept kept') as [|batch batches]; [done|]. cbn [imap]. by rewrite <- (length_imap (fun i batch => mkStoredSegment (0 + Z.of_nat i) (Segment batch)) (batch :: batches)).
Qed.

Lemma readAcross_kept kept from : readAcross kept (batchesKept kept) from = readKept kept from.
Proof. destruct kept as [t|]; [|done]. cbn [batchesKept from_option readAcross]. by rewrite decide_True. Qed.

(** A read of what is kept, if it answers, says exactly that. *)
Lemma fetch_kept source from k a kept r :
  addressOf k source = Some a -> represents kept (subtree k a) -> fetchFrom source from k = Some r -> r = readKept kept from.
Proof. intros Ha Hrep Hr. rewrite <- readAcross_kept. by apply (fetch_across source from k k a kept kept r). Qed.

(** An absent stream is an empty subtree: nothing written over, nothing left behind. *)
Lemma fetch_absent source from k : fetchFrom source from k = Some StreamAbsent -> exists a, addressOf k source = Some a /\ subtree k a = emptyTree.
Proof.
  unfold fetchFrom, fetchAcross. intros (cursor & (a & Ha & ->)%read_cursor & Hr)%bind_Some. exists a. split; [done|].
  destruct (subtree k a) as [[c|] segments] eqn:Ht; cbn [tree_cursor] in Hr; apply bind_Some in Hr as (stored & (a' & Ha' & [_ Hl])%read_segments & [= Hr]).
  - unfold readOf in Hr. destruct (scanSegments _ _ _); [|done]. by repeat case_decide.
  - rewrite Ha in Ha'. injection Ha' as <-. destruct stored; [|done]. unfold emptyTree. f_equal. apply map_empty. intros n.
    apply eq_None_not_Some. intros [v Hv]. rewrite Ht in Hl. apply Hl in Hv. by apply not_elem_of_nil in Hv.
Qed.

(** A save that answers did exactly what is accepted of it; nothing else moved. *)
Lemma save_kept source sync es k reported k' reported' out a kept :
  saveNewEvents source sync es (k, reported) = ((k', reported'), out) -> addressOf k source = Some a -> represents kept (subtree k a) ->
  (forall s, addressOf k' s = addressOf k s) /\ (forall b, b <> a -> subtree k' b = subtree k b)
  /\ match out with
     | Saved => exists t, accept kept sync es = Some t /\ represents (Some t) (subtree k' a)
     | Declined => accept kept sync es = None /\ represents kept (subtree k' a)
     | SaveThrew => represents kept (subtree k' a)
     end.
Proof.
  intros Hsave Ha Hrep. unfold saveNewEvents in Hsave. cbn [fst snd] in Hsave.
  assert (exists noted, (forall s, addressOf k' s = addressOf k s)
    /\ match noted with
       | None => forall b, subtree k' b = subtree k b
       | Some x => x = bool_decide (accept kept sync es = None) /\ (forall b, b <> a -> subtree k' b = subtree k b)
         /\ subtree k' a = match accept kept sync es with
             | None => subtree k a
             | Some t => mkSubtree (Some (cursorRecord (kept_sync t) (kept_start t, Z.of_nat (length (kept_batches t))))) (numbered (kept_batches t))
             end
       end /\ out = match noted with None => SaveThrew | Some true => Declined | Some false => Saved end) as (noted & Haddr & Hnoted & ->).
  { destruct es as [|e es].
    - destruct (writeCursorOnly source (onlyCursor sync) k) as [k1 noted] eqn:Hw. exists noted.
      apply moving in Hw as [Haddr Hnoted]. destruct noted as [[]|]; injection Hsave as <- <- <-; (split; [done|split; [|done]]); try done;
        destruct Hnoted as (a' & Ha' & Hx & Helse & Hsub); rewrite Ha in Ha'; injection Ha' as <-; revert Hx Hsub; unfold onlyCursor, carryForward, accept;
        (destruct kept as [t|]; cbn [represents] in Hrep; rewrite Hrep; cbn [tree_cursor emptyTree cursorRecord cursor_lastToBlock cursor_startBlock cursor_nextOrdinal fst snd];
          [case_decide|]; cbn [fst snd moved tree_segments]; intros [=] Hsub; split_and!; try done; rewrite ?app_nil_r; try done).
    - destruct (commitSegmentWithCursor source (allocate sync (e :: es)) k) as [k1 noted] eqn:Hw. exists noted.
      apply committing in Hw as [Haddr Hnoted]. destruct noted as [[]|]; injection Hsave as <- <- <-; (split; [done|split; [|done]]); try done;
        destruct Hnoted as (a' & Ha' & Hx & Helse & Hsub); rewrite Ha in Ha'; injection Ha' as <-; revert Hx Hsub; unfold allocate, carryForward, accept;
        (destruct kept as [t|]; cbn [represents] in Hrep; rewrite Hrep; cbn [tree_cursor emptyTree cursorRecord cursor_lastToBlock cursor_startBlock cursor_nextOrdinal fst snd];
          [case_decide|]; cbn [fst snd committed tree_segments commit_cursor commit_ordinal commit_segment kept_sync kept_start kept_batches]; intros [=] Hsub; split_and!; try done;
          (rewrite Hsub by (intros c [= <-] || intros c [=]; cbn; lia)); rewrite ?numbered_snoc, ?length_app; cbn [length]; rewrite ?Nat2Z.inj_add; try done). }
  split; [done|]. destruct noted as [x|]; [|split; [by intros b _|by rewrite Hnoted]].
  destruct Hnoted as (-> & Helse & Hsub). split; [done|]. rewrite Hsub.
  destruct (accept kept sync es) as [t|]; [|done]. by exists t.
Qed.

(** A save under one address leaves the others alone. *)
Lemma save_elsewhere source sync es k reported k' reported' out :
  saveNewEvents source sync es (k, reported) = ((k', reported'), out) -> is_Some (addressOf k source) ->
  exists a, addressOf k source = Some a /\ forall b, b <> a -> subtree k' b = subtree k b.
Proof.
  intros Hsave [a Ha]. exists a. split; [done|]. intros b Hb. unfold saveNewEvents in Hsave. cbn [fst snd] in Hsave.
  assert (exists noted : option bool, match noted with
    | None => forall b, subtree k' b = subtree k b
    | Some x => exists a, addressOf k source = Some a /\ forall b, b <> a -> subtree k' b = subtree k b end) as (noted & Hsub).
  { destruct es as [|e es].
    - destruct (writeCursorOnly source (onlyCursor sync) k) as [k1 noted] eqn:Hw. exists noted. apply moving in Hw as [_ Hnoted].
      destruct noted as [[]|]; injection Hsave as <- <- <-; try done; destruct Hnoted as (a' & Ha' & _ & Hsub & _); by exists a'.
    - destruct (commitSegmentWithCursor source (allocate sync (e :: es)) k) as [k1 noted] eqn:Hw. exists noted. apply committing in Hw as [_ Hnoted].
      destruct noted as [[]|]; injection Hsave as <- <- <-; try done; destruct Hnoted as (a' & Ha' & _ & Hsub & _); by exists a'. }
  destruct noted; [|apply Hsub]. destruct Hsub as (a' & Ha' & Hsub). rewrite Ha in Ha'. injection Ha' as <-. by rewrite Hsub.
Qed.

Lemma clear_kept source k k' ok a :
  clear source k = (k', ok) -> addressOf k source = Some a ->
  (forall s, addressOf k' s = addressOf k s) /\ (forall b, b <> a -> subtree k' b = subtree k b)
  /\ subtree k' a = if ok then emptyTree else subtree k a.
Proof.
  unfold clear. destruct (clearSubtree source k) as [k1 removed] eqn:Hc. intros [= <- <-] Ha. apply clearing in Hc as [Haddr Hc]. split; [done|].
  destruct removed as [n|]; cbn [bool_decide].
  - destruct Hc as (a' & Ha' & Hsub). rewrite Ha in Ha'. injection Ha' as <-. split; [intros b Hb; by rewrite Hsub, decide_False|].
    by rewrite Hsub, decide_True.
  - split; [by intros b _|]. by rewrite Hc.
Qed.

(** ** Any run of keepers over one substrate

    Several tabs keep the stream of one address, and others beside it; [saves] are the
    batches accepted since it was last cleared. *)
Definition Save : Type := LastSync * list FeedEntry.

Inductive keeper_step (a : Address) : K * list Save -> K * list Save -> Prop :=
  | step_save k saves source sync es reported k' reported' out :
      saveNewEvents source sync es (k, reported) = ((k', reported'), out) -> is_Some (addressOf k source) ->
      keeper_step a (k, saves) (k', if decide (addressOf k source = Some a /\ out = Saved) then saves ++ [(sync, es)] else saves)
  | step_clear k saves source k' ok :
      clear source k = (k', ok) -> is_Some (addressOf k source) ->
      keeper_step a (k, saves) (k', if decide (addressOf k source = Some a /\ ok = true) then [] else saves).

Definition kept_by (a : Address) (k : K) (saves : list Save) : Prop :=
  exists k0, subtree k0 a = emptyTree /\ rtc (keeper_step a) (k0, []) (k, saves).

Lemma kept_nothing a k : subtree k a = emptyTree -> kept_by a k [].
Proof. intros He. by exists k. Qed.

Lemma kept_save a k saves source sync es reported k' reported' out :
  kept_by a k saves -> saveNewEvents source sync es (k, reported) = ((k', reported'), out) -> is_Some (addressOf k source) ->
  kept_by a k' (if decide (addressOf k source = Some a /\ out = Saved) then saves ++ [(sync, es)] else saves).
Proof. intros (k0 & He & Hrun) Hsave Ha. exists k0. split; [done|]. eapply rtc_r; [exact Hrun|]. by eapply step_save. Qed.

Lemma step_addresses a p q : keeper_step a p q -> forall s, addressOf q.1 s = addressOf p.1 s.
Proof.
  destruct 1 as [k saves source sync es reported k' reported' out Hsave _|k saves source k' ok Hclear _]; cbn [fst].
  - unfold saveNewEvents in Hsave. cbn [fst snd] in Hsave. destruct es as [|e es].
    + destruct (writeCursorOnly _ _ _) as [k1 noted] eqn:Hw. apply moving in Hw as [Haddr _]. by destruct noted as [[]|]; injection Hsave as <- _ _.
    + destruct (commitSegmentWithCursor _ _ _) as [k1 noted] eqn:Hw. apply committing in Hw as [Haddr _]. by destruct noted as [[]|]; injection Hsave as <- _ _.
  - unfold clear in Hclear. destruct (clearSubtree source k) as [k1 removed] eqn:Hc. apply clearing in Hc as [Haddr _]. by injection Hclear as <- _.
Qed.

Lemma run_addresses a p q : rtc (keeper_step a) p q -> forall s, addressOf q.1 s = addressOf p.1 s.
Proof. induction 1 as [|p p' q Hstep _ IH]; intros s; [done|]. rewrite IH. by apply (step_addresses a). Qed.

Definition kept_of (saves : list Save) : option Kept :=
  match head saves, last saves with
  | Some first, Some latest => Some (mkKept latest.1 (lastFromBlock first.1) (filter (fun batch => batch <> []) saves.*2))
  | _, _ => None
  end.

Lemma kept_of_snoc saves sync es t : accept (kept_of saves) sync es = Some t -> kept_of (saves ++ [(sync, es)]) = Some t.
Proof.
  unfold kept_of. rewrite last_snoc. destruct saves as [|[first batch] saves]; cbn [head app accept].
  { intros [= <-]. cbn [fst snd list_fmap fmap]. by destruct es. }
  pose proof (last_is_Some ((first, batch) :: saves)) as [_ Hsome]. destruct (Hsome ltac:(done)) as [[latest b'] Hl]. unfold Save in *. rewrite Hl. cbn [fst accept kept_sync kept_start kept_batches].
  case_decide; [done|]. intros [= <-]. do 2 f_equal. change ((first, batch) :: saves ++ [(sync, es)]) with (((first, batch) :: saves) ++ [(sync, es)]).
  rewrite fmap_app, filter_app. f_equal. by destruct es.
Qed.

Definition no_hole (saves : list Save) : Prop :=
  forall first latest n, head saves = Some first -> last saves = Some latest -> lastFromBlock first.1 <= n <= lastToBlock latest.1 ->
    exists save, save ∈ saves /\ lastFromBlock save.1 <= n <= lastToBlock save.1.

Lemma no_hole_snoc saves sync es : accept (kept_of saves) sync es <> None -> no_hole saves -> no_hole (saves ++ [(sync, es)]).
Proof.
  intros Hacc Hno first latest n Hf Hl Hn. rewrite last_snoc in Hl. injection Hl as <-. cbn [fst] in Hn.
  destruct (decide (lastFromBlock sync <= n)) as [Hge|Hlt]; [exists (sync, es); split; [apply elem_of_app; right; left|cbn; lia]|].
  destruct saves as [|first' saves]; [cbn in Hf; injection Hf as <-; cbn in Hn; lia|]. cbn [head app] in Hf. injection Hf as ->.
  unfold kept_of, accept in Hacc. cbn [head] in Hacc. destruct (last (first :: saves)) as [before|] eqn:Hb; [|by apply last_None in Hb].
  cbn [kept_sync] in Hacc. case_decide; [done|]. destruct (Hno first before n) as (save & Hin & Hs); [done|done|lia|].
  exists save. split; [apply elem_of_app; by left|done].
Qed.

Definition holds_kept (a : Address) (p : K * list Save) : Prop := represents (kept_of p.2) (subtree p.1 a) /\ no_hole p.2.

Lemma step_holds a p q : keeper_step a p q -> holds_kept a p -> holds_kept a q.
Proof.
  destruct 1 as [k saves source sync es reported k' reported' out Hsave [b Hb]|k saves source k' ok Hclear [b Hb]]; intros [Hrep Hno];
    unfold holds_kept; cbn [fst snd] in *.
  - destruct (decide (b = a)) as [->|Hne].
    + destruct (save_kept _ _ _ _ _ _ _ _ _ _ Hsave Hb Hrep) as (_ & _ & Hout). destruct out.
      * rewrite decide_True by done. destruct Hout as (t & Hacc & Hrep'). rewrite (kept_of_snoc _ _ _ _ Hacc). split; [done|].
        apply no_hole_snoc; [by rewrite Hacc|done].
      * rewrite decide_False by (by intros [_ ?]). by destruct Hout.
      * rewrite decide_False by (by intros [_ ?]). done.
    + rewrite decide_False by (intros [Heq _]; congruence). destruct (save_elsewhere _ _ _ _ _ _ _ _ Hsave) as (b' & Hb' & Hsub); [by eexists|].
      rewrite Hb in Hb'. injection Hb' as <-. by rewrite Hsub.
  - destruct (decide (b = a)) as [->|Hne].
    + destruct (clear_kept _ _ _ _ _ Hclear Hb) as (_ & _ & Hsub). destruct ok.
      * rewrite decide_True by done. split; [done|]. by intros ??? [=].
      * rewrite decide_False by (by intros [_ ?]). by rewrite Hsub.
    + rewrite decide_False by (intros [Heq _]; congruence). destruct (clear_kept _ _ _ _ _ Hclear Hb) as (_ & Hsub & _). by rewrite Hsub.
Qed.

Lemma run_holds a p q : rtc (keeper_step a) p q -> holds_kept a p -> holds_kept a q.
Proof. induction 1 as [|p p' q Hstep _ IH]; [done|]. intros Hp. by apply IH, (step_holds a p). Qed.

Lemma kept_by_represents a k saves : kept_by a k saves -> represents (kept_of saves) (subtree k a) /\ no_hole saves.
Proof.
  intros (k0 & He & Hrun). apply (run_holds a _ _ Hrun). split; [exact He|]. by intros ??? [=].
Qed.

(** What a read says when batches were accepted between its two transactions. *)
Lemma batchesKept_kept saves : batchesKept (kept_of saves) = filter (fun batch => batch <> []) saves.*2.
Proof.
  unfold kept_of. destruct saves as [|first saves]; [done|]. cbn [head].
  destruct (last (first :: saves)) as [latest|] eqn:Hl; [done|]. by apply last_None in Hl.
Qed.

Definition eventful (saves : list Save) : nat := length (filter (fun batch => batch <> []) saves.*2).

Lemma readAcross_saves saves more from :
  if decide (eventful more = 0%nat) then readAcross (kept_of saves) (batchesKept (kept_of (saves ++ more))) from = readKept (kept_of saves) from
  else exists reason, readAcross (kept_of saves) (batchesKept (kept_of (saves ++ more))) from = StreamDamaged reason.
Proof.
  rewrite batchesKept_kept, fmap_app, filter_app, <- (batchesKept_kept saves). unfold eventful. case_decide as Hmore.
  - apply nil_length_inv in Hmore. rewrite Hmore, app_nil_r. apply readAcross_kept.
  - destruct (kept_of saves) as [t|] eqn:Ht; cbn [batchesKept from_option readAcross].
    + rewrite decide_False; [by eexists|]. rewrite length_app. lia.
    + destruct (filter _ more.*2); [done|]. by eexists.
Qed.

(** C27. However the saves, the clears and the failures of several tabs follow one another, what
    is kept under an address is exactly the batches accepted since it was last cleared: no
    block between its start and its cursor was never scanned, and a batch is declined
    exactly when it would leave such a block.  A read takes two transactions, and other tabs
    may act between them: it says what its cursor and its segments were when each was read,
    so that when nothing was cleared in between it serves exactly the events of the batches
    accepted by the time of the first, in order, unless a batch with events was accepted in
    between, which it reports as damage. *)
Theorem keeper_keeps a k saves later saves' source :
  kept_by a k saves -> rtc (keeper_step a) (k, saves) (later, saves') -> addressOf k source = Some a ->
  (forall from r, fetchAcross source from k later = Some r ->
     r = readAcross (kept_of saves) (batchesKept (kept_of saves')) from
     /\ forall more, saves' = saves ++ more ->
          if decide (eventful more = 0%nat) then r = readKept (kept_of saves) from else exists reason, r = StreamDamaged reason)
  /\ no_hole saves
  /\ forall sync es reported k' reported' out,
       saveNewEvents source sync es (k, reported) = ((k', reported'), out) -> out <> SaveThrew ->
       out = Declined <-> exists latest, last saves = Some latest /\ lastToBlock latest.1 + 1 < lastFromBlock sync.
Proof.
  intros Hk Hrun Ha. destruct (kept_by_represents a k saves Hk) as [Hrep Hno]. split; [|split; [done|]].
  - intros from r Hr. pose proof (run_holds a _ _ Hrun (conj Hrep Hno)) as [Hrep' _].
    pose proof (fetch_across source from k later a _ _ r Ha (eq_trans (run_addresses a _ _ Hrun source) Ha) Hrep Hrep' Hr) as ->.
    cbn [fst snd]. split; [done|]. intros more ->. apply readAcross_saves.
  - intros sync es reported k' reported' out Hsave Hthrew. destruct (save_kept _ _ _ _ _ _ _ _ _ _ Hsave Ha Hrep) as (_ & _ & Hout).
    assert (accept (kept_of saves) sync es = None <-> exists latest, last saves = Some latest /\ lastToBlock latest.1 + 1 < lastFromBlock sync) as <-.
    { unfold kept_of, accept. destruct saves as [|first saves]; cbn [head].
      - split; [done|]. by intros (latest & [=] & _).
      - destruct (last (first :: saves)) as [latest|] eqn:Hl; [|by apply last_None in Hl]. cbn [kept_sync]. case_decide; split; try done.
        + intros _. by exists latest.
        + intros (l & [= <-] & ?). lia. }
    destruct out; [|tauto|done]. destruct Hout as (t & -> & _). done.
Qed.
End Keeping.

(** ** A keeper as its callers see it

    [ExistingStream]: what is kept for a source is a [Kept], or nothing. *)
Class ExistingStream (Source Config S : Type) : Type := {
  es_setStreamConfig : Config -> S -> S;
  es_fetchFrom : Source -> Z -> S -> option StreamRead;
  es_saveNewEvents : Source -> LastSync -> list FeedEntry -> S -> S * SaveOutcome
}.

Class ExistingStreamLaws (Source Config S : Type) `{es : ExistingStream Source Config S} : Type := {
  es_kept : S -> Source -> option Kept -> Prop;
  es_answers : S -> Prop;
  es_absent s source from : es_fetchFrom source from s = Some StreamAbsent -> es_kept s source None;
  es_read s source from kept r : es_kept s source kept -> es_fetchFrom source from s = Some r -> r = readKept kept from;
  es_reads s source from kept : es_kept s source kept -> es_answers s -> is_Some (es_fetchFrom source from s);
  es_save s source kept sync events s' out :
    es_kept s source kept -> es_saveNewEvents source sync events s = (s', out) ->
    (es_answers s -> es_answers s' /\ out <> SaveThrew)
    /\ match out with
       | Saved => exists t, accept kept sync events = Some t /\ es_kept s' source (Some t)
       | Declined => accept kept sync events = None /\ es_kept s' source kept
       | SaveThrew => es_kept s' source kept
       end
}.
