(* ===== verification/KeeperOnIndexedDB.v ===== *)
(** * The keeper's records in IndexedDB

    [packages/browser/src/storage/stream/OnIndexedDB.ts]: the five operations of a keeper
    over one object store, addressed by the digest of the stream the source and the
    configuration ask for.  [keepStreamOnIndexedDB] is [Keeper] over this port. *)
From S2P Require Import Prelude JsMap Types AbiEvents EventRanges Emissions StreamConfig SourceIdentity Keeper.

(** The object store, by the array keys [["stream", name, digest, ordinal]] and
    [["stream", name, digest, "cursor"]]; a key of another shape is nobody's here. *)
Record KeyvalStore : Type := mkKeyval {
  keyval_segments : gmap (string * string) (gmap Z StoredValue);
  keyval_cursors : gmap (string * string) StreamCursorRecord;
  keyval_available : bool
}.

Record IDBKeeper : Type := mkIDBKeeper { keeper_store : KeyvalStore; keeper_streamConfig : UsedStreamConfig }.

Section Port.
Context `{lib : AbiLibrary} (sha256_hex : string -> string) (name : string).

(** [streamAddress]; a source whose ranges are refused has none. *)
Definition streamAddress (source : IndexingSource) (config : UsedStreamConfig) : option string :=
  match streamDigestOf sha256_hex source config with Ok digest => Some digest | Err _ => None end.

Definition addressHere (k : IDBKeeper) (source : IndexingSource) : option string := streamAddress source (keeper_streamConfig k).

(** A transaction over an address: it answers, or throws and leaves the store. *)
Definition transaction {A} (source : IndexingSource) (body : string * string -> KeyvalStore -> KeyvalStore * A) (k : IDBKeeper) : IDBKeeper * option A :=
  match addressHere k source with
  | Some digest =>
      if keyval_available (keeper_store k)
      then let '(store, answer) := body (name, digest) (keeper_store k) in (mkIDBKeeper store (keeper_streamConfig k), Some answer)
      else (k, None)
  | None => (k, None)
  end.

Definition cursorAt (address : string * string) (store : KeyvalStore) : option StreamCursorRecord := keyval_cursors store !! address.

(** The range from ordinal [0], exclusive of the cursor's key, in key order. *)
Definition segmentsAt (address : string * string) (store : KeyvalStore) : list StoredSegment :=
  (fun p => mkStoredSegment p.1 p.2) <$> sort_on fst (filter (fun p => 0 <= p.1) (map_to_list (default ∅ (keyval_segments store !! address)))).

Definition putCursor (address : string * string) (cursor : StreamCursorRecord) (store : KeyvalStore) : KeyvalStore :=
  mkKeyval (keyval_segments store) (<[address := cursor]> (keyval_cursors store)) (keyval_available store).

Definition putSegment (address : string * string) (ordinal : Z) (events : list FeedEntry) (store : KeyvalStore) : KeyvalStore :=
  mkKeyval (<[address := <[ordinal := Segment events]> (default ∅ (keyval_segments store !! address))]> (keyval_segments store))
    (keyval_cursors store) (keyval_available store).

(** Every key of the subtree, the cursor's with the segments'. *)
Definition deleteSubtree (address : string * string) (store : KeyvalStore) : KeyvalStore * nat :=
  (mkKeyval (delete address (keyval_segments store)) (delete address (keyval_cursors store)) (keyval_available store),
   size (default ∅ (keyval_segments store !! address)) + match cursorAt address store with Some _ => 1 | None => 0 end)%nat.

#[export] Instance portOver : StreamSegmentPort IndexingSource IDBKeeper := {
  readCursor source k := (transaction source (fun address store => (store, cursorAt address store)) k).2;
  readSegments source k := (transaction source (fun address store => (store, segmentsAt address store)) k).2;
  commitSegmentWithCursor A source f := transaction source (fun address store =>
    let '(commit, note) := f (cursorAt address store) in
    (match commit with
     | None => store
     | Some c => putCursor address (commit_cursor c) (putSegment address (commit_ordinal c) (commit_segment c) store)
     end, note));
  writeCursorOnly A source f := transaction source (fun address store =>
    let '(record, note) := f (cursorAt address store) in
    (match record with None => store | Some c => putCursor address c store end, note));
  clearSubtree source := transaction source deleteSubtree
}.

(** [setStreamConfig] *)
Definition setStreamConfig (config : UsedStreamConfig) (k : IDBKeeper) : IDBKeeper := mkIDBKeeper (keeper_store k) config.

(** ** What the port promises *)
Definition subtreeIn (k : IDBKeeper) (digest : string) : Subtree :=
  mkSubtree (cursorAt (name, digest) (keeper_store k)) (filter (fun p => 0 <= p.1) (default ∅ (keyval_segments (keeper_store k) !! (name, digest)))).

Lemma transaction_Some {A} source (body : string * string -> KeyvalStore -> KeyvalStore * A) k k' answer :
  transaction source body k = (k', Some answer) ->
  exists digest, addressHere k source = Some digest /\ body (name, digest) (keeper_store k) = (keeper_store k', answer)
    /\ keeper_streamConfig k' = keeper_streamConfig k.
Proof.
  unfold transaction. destruct (addressHere k source) as [digest|]; [|done]. destruct (keyval_available _); [|done].
  destruct (body (name, digest) (keeper_store k)) as [store x] eqn:Hbody. intros [= <- <-]. by exists digest.
Qed.

Lemma transaction_None {A} source (body : string * string -> KeyvalStore -> KeyvalStore * A) k k' : transaction source body k = (k', None) -> k' = k.
Proof.
  unfold transaction. destruct (addressHere k source) as [digest|]; [|by intros [= <-]]. destruct (keyval_available _); [|by intros [= <-]].
  by destruct (body (name, digest) (keeper_store k)).
Qed.

Lemma transaction_address {A} source (body : string * string -> KeyvalStore -> KeyvalStore * A) k k' answer s :
  transaction source body k = (k', answer) -> addressHere k' s = addressHere k s.
Proof.
  destruct answer; [|by intros ->%transaction_None]. intros (_ & _ & _ & Hc)%transaction_Some. unfold addressHere. by rewrite Hc.
Qed.

Lemma subtree_elsewhere k k' digest :
  keyval_segments (keeper_store k') !! (name, digest) = keyval_segments (keeper_store k) !! (name, digest) ->
  keyval_cursors (keeper_store k') !! (name, digest) = keyval_cursors (keeper_store k) !! (name, digest) -> subtreeIn k' digest = subtreeIn k digest.
Proof. unfold subtreeIn, cursorAt. by intros -> ->. Qed.

Lemma sorted_keys_ascending (l : list (Z * StoredValue)) : NoDup l.*1 -> ascending_weak fst l -> ascending fst l.
Proof.
  intros Hnd. induction 1 as [|p l Hl IH Hp]; [constructor|]. cbn [fmap list_fmap] in Hnd. apply NoDup_cons in Hnd as [Hnew Hnd].
  constructor; [by apply IH|]. apply Forall_forall. intros q Hq. rewrite Forall_forall in Hp. specialize (Hp q Hq). cbn in Hp.
  assert (p.1 <> q.1); [|lia]. intros Heq. apply Hnew. rewrite Heq. by apply list_elem_of_fmap_2.
Qed.

Lemma segmentsAt_lists k digest : lists (tree_segments (subtreeIn k digest)) (segmentsAt (name, digest) (keeper_store k)).
Proof.
  unfold segmentsAt, subtreeIn. cbn [tree_segments]. set (m := default ∅ _). set (l := filter _ (map_to_list m)).
  assert (NoDup l.*1) as Hnd by (eapply sublist_NoDup; [apply (NoDup_fst_map_to_list m)|apply sublist_fmap, sublist_filter]). split.
  - assert (ascending fst (sort_on fst l)) as Ha.
    { apply sorted_keys_ascending; [|apply sort_on_sorted]. eapply (NoDup_Permutation_proper _ _ (fmap_Permutation fst _ _ (sort_on_perm fst l))). done. }
    clear Hnd. induction Ha as [|p q Hq IH Hp]; csimpl; constructor; [done|]. apply Forall_fmap. exact Hp.
  - intros n v. rewrite list_elem_of_fmap, map_lookup_filter_Some, <- elem_of_map_to_list. split.
    + intros ([n' v'] & [= -> ->] & Hin). rewrite sort_on_perm in Hin. apply list_elem_of_filter in Hin as [? ?]. done.
    + intros [Hin Hn]. exists (n, v). split; [done|]. rewrite sort_on_perm. by apply list_elem_of_filter.
Qed.

#[export] Instance port_laws : SegmentPortLaws IndexingSource IDBKeeper.
Proof.
  refine {| Address := string; addressOf := addressHere; subtree := subtreeIn |}.
  - intros source k c Hc. cbn [readCursor portOver] in Hc. destruct (transaction _ _ k) as [k' [x|]] eqn:Ht; [|done]. injection Hc as ->.
    apply transaction_Some in Ht as (digest & Ha & [= _ Hx] & _). exists digest. split; [done|]. by rewrite <- Hx.
  - intros source k l Hl. cbn [readSegments portOver] in Hl. destruct (transaction _ _ k) as [k' [x|]] eqn:Ht; [|done]. injection Hl as ->.
    apply transaction_Some in Ht as (digest & Ha & [= _ Hx] & _). exists digest. split; [done|]. rewrite <- Hx. apply segmentsAt_lists.
  - intros A source f k k' noted Ht. cbn [commitSegmentWithCursor portOver] in Ht. split; [intros s; by eapply transaction_address|].
    destruct noted as [x|]; [|by apply transaction_None in Ht as ->]. apply transaction_Some in Ht as (digest & Ha & Hbody & _). exists digest. split; [done|].
    change (tree_cursor (subtreeIn k digest)) with (cursorAt (name, digest) (keeper_store k)).
    destruct (f _) as [commit note]. injection Hbody as Hstore ->. cbn [fst snd]. split; [done|]. split.
    + intros b Hb. apply subtree_elsewhere; rewrite <- Hstore; destruct commit; cbn; try done; by rewrite lookup_insert_ne by congruence.
    + intros Hpos. destruct commit as [c|]; cbn [committed]; [|by apply subtree_elsewhere; rewrite <- Hstore].
      unfold subtreeIn, cursorAt. rewrite <- Hstore. cbn [putCursor putSegment keyval_segments keyval_cursors tree_segments]. rewrite !lookup_insert_eq. f_equal.
      cbn [default from_option id]. rewrite map_filter_insert_True; [done|]. by apply Hpos.
  - intros A source f k k' noted Ht. cbn [writeCursorOnly portOver] in Ht. split; [intros s; by eapply transaction_address|].
    destruct noted as [x|]; [|by apply transaction_None in Ht as ->]. apply transaction_Some in Ht as (digest & Ha & Hbody & _). exists digest. split; [done|].
    change (tree_cursor (subtreeIn k digest)) with (cursorAt (name, digest) (keeper_store k)).
    destruct (f _) as [record note]. injection Hbody as Hstore ->. cbn [fst snd]. split; [done|]. split.
    + intros b Hb. apply subtree_elsewhere; rewrite <- Hstore; destruct record; cbn; try done; by rewrite lookup_insert_ne by congruence.
    + destruct record as [c|]; cbn [moved]; [|by apply subtree_elsewhere; rewrite <- Hstore].
      unfold subtreeIn, cursorAt. rewrite <- Hstore. cbn [putCursor keyval_segments keyval_cursors tree_segments]. by rewrite lookup_insert_eq.
  - intros source k k' removed Ht. cbn [clearSubtree portOver] in Ht. split; [intros s; by eapply transaction_address|].
    destruct removed as [x|]; [|by apply transaction_None in Ht as ->]. apply transaction_Some in Ht as (digest & Ha & Hbody & _). exists digest. split; [done|].
    injection Hbody as Hstore _. intros b. case_decide as Hb.
    + subst b. unfold subtreeIn, cursorAt. rewrite <- Hstore. cbn [keyval_segments keyval_cursors]. rewrite !lookup_delete_eq.
      unfold emptyTree. by f_equal.
    + apply subtree_elsewhere; rewrite <- Hstore; cbn; by rewrite lookup_delete_ne by congruence.
Defined.

(** ** [keepStreamOnIndexedDB] *)
#[export] Instance keepStreamOnIndexedDB : ExistingStream IndexingSource UsedStreamConfig (IDBKeeper * bool) := {
  es_setStreamConfig config s := (setStreamConfig config s.1, s.2);
  es_fetchFrom source from s := fetchFrom source from s.1;
  es_saveNewEvents source sync events s := saveNewEvents source sync events s
}.

Lemma transaction_answers {A} source (body : string * string -> KeyvalStore -> KeyvalStore * A) k :
  keyval_available (keeper_store k) = true -> is_Some (addressHere k source) ->
  (forall address, keyval_available (body address (keeper_store k)).1 = true) ->
  exists k' answer, transaction source body k = (k', Some answer) /\ keyval_available (keeper_store k') = true.
Proof.
  intros Hup [digest Ha] Hbody. unfold transaction. rewrite Ha, Hup. specialize (Hbody (name, digest)).
  destruct (body (name, digest) (keeper_store k)) as [store answer]. by exists (mkIDBKeeper store (keeper_streamConfig k)), answer.
Qed.

Lemma save_answers source sync events k reported k' out :
  keyval_available (keeper_store k) = true -> is_Some (addressHere k source) -> saveNewEvents source sync events (k, reported) = (k', out) ->
  keyval_available (keeper_store k'.1) = true /\ out <> SaveThrew.
Proof.
  intros Hup Ha. unfold saveNewEvents. cbn [fst snd].
  assert (exists k1 note, match events with
    | [] => writeCursorOnly source (onlyCursor sync) k
    | _ :: _ => commitSegmentWithCursor source (allocate sync events) k
    end = (k1, Some note) /\ keyval_available (keeper_store k1) = true) as (k1 & note & -> & Hup1).
  { destruct events; cbn [writeCursorOnly commitSegmentWithCursor portOver]; apply transaction_answers; try done;
      intros address; [destruct (onlyCursor sync (cursorAt address (keeper_store k))) as [[c|] note]|
        destruct (allocate sync (f :: events) (cursorAt address (keeper_store k))) as [[c|] note]]; done. }
  destruct note; intros [= <- <-]; by split.
Qed.

#[export] Instance keepStreamOnIndexedDB_laws : ExistingStreamLaws IndexingSource UsedStreamConfig (IDBKeeper * bool).
Proof.
  refine {| es_kept s source kept := exists digest, addressHere s.1 source = Some digest /\ represents kept (subtreeIn s.1 digest);
            es_answers s := keyval_available (keeper_store s.1) = true |}.
  - intros s source from (digest & Ha & Hsub)%fetch_absent. by exists digest.
  - intros s source from kept r (digest & Ha & Hrep) Hr. exact (fetch_kept (laws := port_laws) source from s.1 digest kept r Ha Hrep Hr).
  - intros [k reported] source from kept (digest & Ha & Hrep) Hup. cbn [es_fetchFrom keepStreamOnIndexedDB fst] in *. unfold fetchFrom, fetchAcross.
    cbn [readCursor readSegments portOver]. unfold transaction. rewrite Ha, Hup. cbn [snd mbind option_bind].
    destruct (cursorAt _ _); by eexists.
  - intros [k reported] source kept sync events [k' reported'] out (digest & Ha & Hrep) Hsave. cbn [es_saveNewEvents keepStreamOnIndexedDB fst] in *. split.
    + intros Hup. by eapply (save_answers source sync events k reported (k', reported')).
    + destruct (save_kept (laws := port_laws) _ _ _ _ _ _ _ _ digest kept Hsave Ha Hrep) as (Haddr & _ & Hout).
      assert (addressHere k' source = Some digest) as Ha' by (rewrite <- Ha; apply Haddr).
      destruct out.
      * destruct Hout as (t & Hacc & Hrep'). exists t. split; [done|]. by exists digest.
      * destruct Hout as [Hacc Hrep']. split; [done|]. by exists digest.
      * by exists digest.
Defined.
End Port.
