(* ===== verification/SeedDocument.v ===== *)
(** * A published stream

    [packages/core/src/stream/seed.ts]: the document a stream is published as, written with
    [JSON.stringify] and read by [parseStreamSeed].  The reader checks little and casts.
    The checks are the code's, in its order; [castSeed] reads what passed them at the types
    it is cast to.  A document that passes them and has a part of another type, an event
    with no topics for one, is [Mistyped]: not a refusal of the code's but the end of what
    this model says of it. *)
From S2P Require Import Prelude JsMap Types FilterRules Requests Json StreamConfig SourceIdentity Emissions.

Definition STREAM_SEED_FORMAT : Z := 1.

Record StreamSeedProducer : Type := mkProducer { producer_kind : string; producer_name : string; producer_at : string }.

(** An entry of [eventStream]: it carries a numeric block and log index and a block hash, or
    it is not an event. *)
Inductive SeedEvent : Type :=
  | AnEvent (event : FeedEntry)
  | NotAnEvent.

Record StreamSeed : Type := mkSeed {
  seed_producer : StreamSeedProducer;
  seed_chainHeadAtCapture : Z;
  seed_streamConfig : UsedStreamConfig;
  seed_chain : option (string * option string);
  seed_streamDigest : string;
  seed_fromBlock : Z;
  seed_toBlock : Z;
  seed_context : ContextIdentifier;
  seed_eventStream : list SeedEvent
}.

Inductive SeedError : Type :=
  | SeedNotJson
  | SeedNotAnObject
  | UnsupportedSeedFormat (found : option Json)
  | MissingSeedParts
  | MissingEventStream
  | HeadNotANumber
  | CoverageNotNumbers
  | SourceNotAList
  | Mistyped.

(** ** Writing *)
Definition member_if {A} (key : string) (value : A -> Json) (o : option A) : list (string * Json) :=
  match o with Some a => [(key, value a)] | None => [] end.

Definition producer_json (p : StreamSeedProducer) : Json :=
  NObj [("kind", NStr (producer_kind p)); ("name", NStr (producer_name p)); ("at", NStr (producer_at p))].

Definition slot_json (slot : ArgumentSlot) : Json :=
  match slot with AnyTopic => NNull | ThisTopic topic => NStr topic | OneOfTopics topics => NArr (NStr <$> topics) end.

Definition rule_json (rule : FilterRule) : Json :=
  NObj (("event", NStr (rule_event rule)) :: member_if "contracts" (fun l => NArr (NStr <$> l)) (rule_contracts rule)
    ++ [("match", NArr ((fun entry => NArr (slot_json <$> entry)) <$> (rule_match rule : list (list ArgumentSlot))))]).

Definition parse_json (parse : ParseConfig) : Json :=
  NObj (member_if "parseAllEventsIrrespectiveOfAddresses" NBool (given (parse_all parse))
    ++ member_if "filters" (fun rules => NArr (rule_json <$> rules)) (given (parse_rules parse))).

Definition config_json (config : UsedStreamConfig) : Json :=
  NObj (("finality", NNum (used_finality config)) :: member_if "parse" parse_json (used_parse config)).

Definition chain_json (chain : string * option string) : Json :=
  NObj (("chainId", NStr chain.1) :: member_if "genesisHash" NStr chain.2).

Definition entry_json (e : SourceHashEntry) : Json :=
  NObj ([("startBlock", NNum (startBlock e)); ("hash", NStr (entry_hash e))]
    ++ member_if "streamHash" NStr (streamHash e) ++ member_if "legacyHash" NStr (legacyHash e)).

Definition context_json (c : ContextIdentifier) : Json :=
  NObj [("source", NArr (entry_json <$> ctx_source c)); ("config", NStr (ctx_config c)); ("processor", NStr (ctx_processor c))].

Definition event_json (event : FeedEntry) : Json :=
  let e := feed_entry event in
  NObj ([("blockNumber", NNum (entry_blockNumber e)); ("blockHash", NStr (entry_blockHash e)); ("transactionIndex", NNum (entry_transactionIndex e));
         ("removed", NBool (feed_removed event)); ("address", NStr (entry_address e)); ("data", NStr (entry_data e));
         ("topics", NArr (NStr <$> entry_topics e)); ("transactionHash", NStr (entry_transactionHash e)); ("logIndex", NNum (entry_logIndex e))]
        ++ member_if "blockTimestamp" NNum (entry_blockTimestamp e)).

(** A producer writes events. *)
Definition seedEvent_json (event : SeedEvent) : Json := match event with AnEvent e => event_json e | NotAnEvent => NNull end.

Definition seed_fields (seed : StreamSeed) : list (string * Json) :=
  [("format", NNum STREAM_SEED_FORMAT); ("producer", producer_json (seed_producer seed)); ("chainHeadAtCapture", NNum (seed_chainHeadAtCapture seed));
   ("streamConfig", config_json (seed_streamConfig seed))]
  ++ member_if "chain" chain_json (seed_chain seed)
  ++ [("streamDigest", NStr (seed_streamDigest seed)); ("coverage", NObj [("fromBlock", NNum (seed_fromBlock seed)); ("toBlock", NNum (seed_toBlock seed))]);
      ("context", context_json (seed_context seed)); ("eventStream", NArr (seedEvent_json <$> seed_eventStream seed))].

Definition serializeStreamSeed (seed : StreamSeed) : string := json_text (NObj (seed_fields seed)).

(** ** Reading *)
Definition numOf (v : Json) : option Z := match v with NNum n => Some n | _ => None end.
Definition strOf (v : Json) : option string := match v with NStr s => Some s | _ => None end.
Definition boolOf (v : Json) : option bool := match v with NBool b => Some b | _ => None end.
Definition objOf (v : Json) : option (list (string * Json)) := match v with NObj fields => Some fields | _ => None end.
Definition listOf {A} (read : Json -> option A) (v : Json) : option (list A) := match v with NArr items => mapM read items | _ => None end.

Definition must {A} (read : Json -> option A) (fields : list (string * Json)) (key : string) : option A := jm_get fields key ≫= read.
Definition might {A} (read : Json -> option A) (fields : list (string * Json)) (key : string) : option (option A) :=
  match jm_get fields key with None => Some None | Some v => Some <$> read v end.

(** The producer is provenance: nothing checks it, and nothing is decided by it. *)
Definition producerOf (v : Json) : option StreamSeedProducer :=
  let fields := default [] (objOf v) in
  let label key := default "" (must strOf fields key) in
  Some (mkProducer (label "kind") (label "name") (label "at")).

Definition slotOf (v : Json) : option ArgumentSlot :=
  match v with
  | NNull => Some AnyTopic
  | NStr topic => Some (ThisTopic topic)
  | NArr _ => OneOfTopics <$> listOf strOf v
  | _ => None
  end.

Definition ruleOf (v : Json) : option FilterRule :=
  fields ← objOf v; event ← must strOf fields "event"; contracts ← might (listOf strOf) fields "contracts";
  entries ← must (listOf (listOf slotOf)) fields "match"; Some (mkRule event contracts entries).

Definition keyOf {A} (o : option A) : Key A := match o with Some a => Given a | None => Absent end.

Definition parseOf (v : Json) : option ParseConfig :=
  fields ← objOf v; all ← might boolOf fields "parseAllEventsIrrespectiveOfAddresses"; rules ← might (listOf ruleOf) fields "filters";
  Some (mkParse (keyOf all) (keyOf rules)).

Definition configOf (v : Json) : option UsedStreamConfig :=
  fields ← objOf v; finality ← must numOf fields "finality"; parse ← might parseOf fields "parse"; Some (mkUsed finality parse).

Definition chainOf (v : Json) : option (string * option string) :=
  fields ← objOf v; chainId ← must strOf fields "chainId"; genesis ← might strOf fields "genesisHash"; Some (chainId, genesis).

Definition entryOfJson (v : Json) : option SourceHashEntry :=
  fields ← objOf v; start ← must numOf fields "startBlock"; h ← must strOf fields "hash"; sh ← might strOf fields "streamHash";
  lh ← might strOf fields "legacyHash"; Some (mkEntry start h sh lh).

Definition contextOf (v : Json) : option ContextIdentifier :=
  fields ← objOf v; source ← must (listOf entryOfJson) fields "source"; config ← must strOf fields "config"; processor ← must strOf fields "processor";
  Some (mkContext source config processor).

Definition eventOf (v : Json) : option SeedEvent :=
  match (fields ← objOf v; n ← must numOf fields "blockNumber"; i ← must numOf fields "logIndex"; h ← must strOf fields "blockHash"; Some (fields, n, i, h)) with
  | None => Some NotAnEvent
  | Some (fields, n, i, h) =>
      ti ← must numOf fields "transactionIndex"; rm ← must boolOf fields "removed"; ad ← must strOf fields "address"; da ← must strOf fields "data";
      tp ← must (listOf strOf) fields "topics"; th ← must strOf fields "transactionHash"; ts ← might numOf fields "blockTimestamp";
      Some (AnEvent (mkFeedEntry (mkCanonicalEntry n h i th ti ts ad tp da) rm))
  end.

(** [!value] *)
Definition falsy (v : option Json) : bool :=
  match v with
  | None | Some NNull | Some (NBool false) => true
  | Some (NNum n) => bool_decide (n = 0)
  | Some (NStr s) => bool_decide (s = "")
  | _ => false
  end.

(** A member of what may not be an object. *)
Definition memberIn (v : option Json) (key : string) : option Json :=
  match v with Some (NObj fields) => jm_get fields key | _ => None end.

Definition isNumber (v : option Json) : bool := match v with Some (NNum _) => true | _ => false end.

(** The document, as it is cast. *)
Definition castSeed (fields : list (string * Json)) : option StreamSeed :=
  producer ← must producerOf fields "producer"; head_ ← must numOf fields "chainHeadAtCapture"; config ← must configOf fields "streamConfig";
  chain ← might chainOf fields "chain"; digest ← must strOf fields "streamDigest";
  from ← memberIn (jm_get fields "coverage") "fromBlock" ≫= numOf; to ← memberIn (jm_get fields "coverage") "toBlock" ≫= numOf;
  context ← must contextOf fields "context"; events ← must (listOf eventOf) fields "eventStream";
  Some (mkSeed producer head_ config chain digest from to context events).

Definition parseStreamSeed (text : string) : result SeedError StreamSeed :=
  match json_parse text with
  | None => Err SeedNotJson
  | Some (NObj fields) =>
      if decide (jm_get fields "format" ≫= numOf <> Some STREAM_SEED_FORMAT) then Err (UnsupportedSeedFormat (jm_get fields "format"))
      else if existsb (fun key => falsy (jm_get fields key)) ["producer"; "streamConfig"; "streamDigest"; "coverage"; "context"] then Err MissingSeedParts
      else match jm_get fields "eventStream" with
           | Some (NArr _) =>
               if negb (isNumber (jm_get fields "chainHeadAtCapture")) then Err HeadNotANumber
               else if negb (isNumber (memberIn (jm_get fields "coverage") "fromBlock") && isNumber (memberIn (jm_get fields "coverage") "toBlock"))
               then Err CoverageNotNumbers
               else match memberIn (jm_get fields "context") "source" with
                    | Some (NArr _) => match castSeed fields with Some seed => Ok seed | None => Err Mistyped end
                    | _ => Err SourceNotAList
                    end
           | _ => Err MissingEventStream
           end
  | Some _ => Err SeedNotAnObject
  end.

(** ** A written document reads back *)
Lemma listOf_map {A} (read : Json -> option A) (write : A -> Json) l : (forall a, read (write a) = Some a) -> listOf read (NArr (write <$> l)) = Some l.
Proof. intros Hrw. cbn [listOf]. by apply mapM_fmap_Some. Qed.

Lemma must_found {A} (read : Json -> option A) fields key v a : jm_get fields key = Some v -> read v = Some a -> must read fields key = Some a.
Proof. intros Hk Hv. unfold must. by rewrite Hk. Qed.

Lemma might_found {A} (read : Json -> option A) fields key v a : jm_get fields key = Some v -> read v = Some a -> might read fields key = Some (Some a).
Proof. intros Hk Hv. unfold might. rewrite Hk. cbn. by rewrite Hv. Qed.

Lemma might_absent {A} (read : Json -> option A) fields key : jm_get fields key = None -> might read fields key = Some None.
Proof. intros Hk. unfold might. by rewrite Hk. Qed.

Create HintDb seeds.

(** Read the members of an object with known keys, in the order the reader asks. *)
Ltac read_object :=
  cbn [objOf mbind option_bind];
  repeat (first
    [ erewrite must_found; [|reflexivity|solve [reflexivity | auto with seeds]]
    | erewrite might_found; [|reflexivity|solve [reflexivity | auto with seeds]]
    | rewrite might_absent by reflexivity ]; cbn [mbind option_bind]);
  try reflexivity.

Lemma strings_read l : listOf strOf (NArr (NStr <$> l)) = Some l.
Proof. by apply listOf_map. Qed.

Lemma producer_read p : producerOf (producer_json p) = Some p.
Proof. by destruct p. Qed.

Lemma slot_read slot : slotOf (slot_json slot) = Some slot.
Proof. destruct slot; try done. cbn [slotOf slot_json]. by rewrite strings_read. Qed.

#[local] Hint Resolve strings_read producer_read : seeds.

Lemma entries_read (l : list ArgumentFilter) :
  listOf (listOf slotOf) (NArr ((fun entry => NArr (slot_json <$> entry)) <$> (l : list (list ArgumentSlot)))) = Some l.
Proof. apply (listOf_map _ (fun entry : list ArgumentSlot => NArr (slot_json <$> entry))). intros entry. by apply listOf_map, slot_read. Qed.

#[local] Hint Resolve entries_read : seeds.

Lemma rule_read rule : ruleOf (rule_json rule) = Some rule.
Proof. destruct rule as [event [contracts|] entries]; unfold ruleOf, rule_json; cbn [rule_event rule_contracts rule_match member_if app]; read_object. Qed.

Lemma rules_read l : listOf ruleOf (NArr (rule_json <$> l)) = Some l.
Proof. apply listOf_map, rule_read. Qed.

#[local] Hint Resolve rules_read : seeds.

(** [JSON.stringify] drops a key that holds [undefined]. *)
Definition settledParse (parse : ParseConfig) : ParseConfig := mkParse (keyOf (given (parse_all parse))) (keyOf (given (parse_rules parse))).
Definition settledConfig (config : UsedStreamConfig) : UsedStreamConfig := mkUsed (used_finality config) (settledParse <$> used_parse config).

Lemma parse_read parse : parseOf (parse_json parse) = Some (settledParse parse).
Proof. destruct parse as [[| |all] [| |rules]]; unfold parseOf, parse_json; cbn [parse_all parse_rules given member_if app]; read_object. Qed.

#[local] Hint Resolve parse_read : seeds.

Lemma config_read config : configOf (config_json config) = Some (settledConfig config).
Proof. destruct config as [finality [parse|]]; unfold configOf, config_json; cbn [used_finality used_parse member_if]; read_object. Qed.

Lemma chain_read chain : chainOf (chain_json chain) = Some chain.
Proof. destruct chain as [id [genesis|]]; unfold chainOf, chain_json; cbn [fst snd member_if]; read_object. Qed.

Lemma entry_read e : entryOfJson (entry_json e) = Some e.
Proof. destruct e as [b h [sh|] [lh|]]; unfold entryOfJson, entry_json; cbn [startBlock entry_hash streamHash legacyHash member_if app]; read_object. Qed.

Lemma source_read l : listOf entryOfJson (NArr (entry_json <$> l)) = Some l.
Proof. apply listOf_map, entry_read. Qed.

#[local] Hint Resolve config_read chain_read source_read : seeds.

Lemma context_read c : contextOf (context_json c) = Some c.
Proof. destruct c as [source config processor]. unfold contextOf, context_json. cbn [ctx_source ctx_config ctx_processor]. read_object. Qed.

Lemma event_read event : eventOf (event_json event) = Some (AnEvent event).
Proof.
  destruct event as [[n h i th ti ts ad tp da] rm]. unfold event_json.
  cbn [feed_entry feed_removed entry_blockNumber entry_blockHash entry_logIndex entry_transactionHash entry_transactionIndex entry_blockTimestamp entry_address entry_topics entry_data].
  unfold eventOf. destruct ts; cbn [member_if app]; read_object.
Qed.

Lemma seedEvent_read event : eventOf (seedEvent_json event) = Some event.
Proof. destruct event; [apply event_read|done]. Qed.

Lemma events_read l : listOf eventOf (NArr (seedEvent_json <$> l)) = Some l.
Proof. apply listOf_map, seedEvent_read. Qed.

#[local] Hint Resolve context_read events_read : seeds.

Definition settled (seed : StreamSeed) : StreamSeed :=
  mkSeed (seed_producer seed) (seed_chainHeadAtCapture seed) (settledConfig (seed_streamConfig seed)) (seed_chain seed) (seed_streamDigest seed)
    (seed_fromBlock seed) (seed_toBlock seed) (seed_context seed) (seed_eventStream seed).

Lemma cast_read seed : castSeed (seed_fields seed) = Some (settled seed).
Proof.
  destruct seed as [[kind name at_] head_ config [chain|] digest from to context events]; unfold castSeed, seed_fields;
    cbn [seed_producer seed_chainHeadAtCapture seed_streamConfig seed_chain seed_streamDigest seed_fromBlock seed_toBlock seed_context seed_eventStream member_if app];
    read_object.
Qed.

(** Every value written is one an object literal can hold. *)
Lemma wf_strings (l : list string) : json_wf (NArr (NStr <$> l)).
Proof. apply json_wf_arr, Forall_fmap, Forall_forall. done. Qed.

Lemma wf_list {A} (write : A -> Json) l : (forall a, json_wf (write a)) -> json_wf (NArr (write <$> l)).
Proof. intros Hw. apply json_wf_arr, Forall_fmap, Forall_forall. intros a _. apply Hw. Qed.

Ltac wf_object :=
  apply json_wf_obj; split; [apply (bool_decide_unpack _); vm_compute; exact I|];
  repeat (apply Forall_cons_2; [cbn [snd]; try (exact I); auto with wf_seeds|]); try apply Forall_nil_2.

Create HintDb wf_seeds.
#[local] Hint Resolve wf_strings : wf_seeds.

Lemma wf_producer p : json_wf (producer_json p).
Proof. unfold producer_json. wf_object. Qed.

Lemma wf_entries (l : list ArgumentFilter) : json_wf (NArr ((fun entry => NArr (slot_json <$> entry)) <$> (l : list (list ArgumentSlot)))).
Proof.
  apply (wf_list (fun entry : list ArgumentSlot => NArr (slot_json <$> entry))). intros entry. apply wf_list. intros []; try done. apply wf_strings.
Qed.

#[local] Hint Resolve wf_producer wf_entries : wf_seeds.

Lemma wf_rule rule : json_wf (rule_json rule).
Proof. destruct rule as [event [contracts|] entries]; unfold rule_json; cbn [rule_event rule_contracts rule_match member_if app]; wf_object. Qed.

Lemma wf_rules l : json_wf (NArr (rule_json <$> l)).
Proof. apply wf_list, wf_rule. Qed.

#[local] Hint Resolve wf_rules : wf_seeds.

Lemma wf_parse parse : json_wf (parse_json parse).
Proof. destruct parse as [[| |all] [| |rules]]; unfold parse_json; cbn [parse_all parse_rules given member_if app]; wf_object. Qed.

#[local] Hint Resolve wf_parse : wf_seeds.

Lemma wf_config config : json_wf (config_json config).
Proof. destruct config as [finality [parse|]]; unfold config_json; cbn [used_finality used_parse member_if]; wf_object. Qed.

Lemma wf_chain chain : json_wf (chain_json chain).
Proof. destruct chain as [id [genesis|]]; unfold chain_json; cbn [fst snd member_if]; wf_object. Qed.

Lemma wf_entry e : json_wf (entry_json e).
Proof. destruct e as [b h [sh|] [lh|]]; unfold entry_json; cbn [startBlock entry_hash streamHash legacyHash member_if app]; wf_object. Qed.

Lemma wf_source l : json_wf (NArr (entry_json <$> l)).
Proof. apply wf_list, wf_entry. Qed.

#[local] Hint Resolve wf_config wf_chain wf_source : wf_seeds.

Lemma wf_context c : json_wf (context_json c).
Proof. unfold context_json. wf_object. Qed.

Lemma wf_events l : json_wf (NArr (seedEvent_json <$> l)).
Proof.
  apply wf_list. intros [event|]; [|done]. cbn [seedEvent_json]. unfold event_json. destruct (entry_blockTimestamp _); cbn [member_if app]; wf_object.
Qed.

Lemma wf_coverage from to : json_wf (NObj [("fromBlock", NNum from); ("toBlock", NNum to)]).
Proof. wf_object. Qed.

#[local] Hint Resolve wf_context wf_events wf_coverage : wf_seeds.

Lemma wf_seed seed : json_wf (NObj (seed_fields seed)).
Proof. unfold seed_fields. destruct (seed_chain seed); cbn [member_if app]; wf_object. Qed.

Lemma seed_read (seed : StreamSeed) : seed_streamDigest seed <> "" -> parseStreamSeed (serializeStreamSeed seed) = Ok (settled seed).
Proof.
  intros Hd. unfold parseStreamSeed, serializeStreamSeed. rewrite json_parse_text by apply wf_seed.
  assert (jm_get (seed_fields seed) "format" = Some (NNum STREAM_SEED_FORMAT) /\ jm_get (seed_fields seed) "producer" = Some (producer_json (seed_producer seed))
    /\ jm_get (seed_fields seed) "streamConfig" = Some (config_json (seed_streamConfig seed)) /\ jm_get (seed_fields seed) "streamDigest" = Some (NStr (seed_streamDigest seed))
    /\ jm_get (seed_fields seed) "coverage" = Some (NObj [("fromBlock", NNum (seed_fromBlock seed)); ("toBlock", NNum (seed_toBlock seed))])
    /\ jm_get (seed_fields seed) "context" = Some (context_json (seed_context seed)) /\ jm_get (seed_fields seed) "eventStream" = Some (NArr (seedEvent_json <$> seed_eventStream seed))
    /\ jm_get (seed_fields seed) "chainHeadAtCapture" = Some (NNum (seed_chainHeadAtCapture seed))) as (H1 & H2 & H3 & H4 & H5 & H6 & H7 & H8)
    by (unfold seed_fields; destruct (seed_chain seed); done).
  cbn [existsb]. rewrite H1, H2, H3, H4, H5, H6, H7, H8, cast_read. rewrite decide_False by (intros Hno; by apply Hno).
  assert (falsy (Some (NStr (seed_streamDigest seed))) = false) as -> by (by apply bool_decide_eq_false). done.
Qed.

(** What is read was checked: the three numbers the later checks compute with are there. *)
Lemma parse_checked text seed : parseStreamSeed text = Ok seed -> exists fields, json_parse text = Some (NObj fields) /\ castSeed fields = Some seed.
Proof.
  unfold parseStreamSeed. destruct (json_parse text) as [[| | | | |fields]|]; try done. case_decide; [done|]. destruct (existsb _ _); [done|].
  destruct (jm_get fields "eventStream") as [[]|]; try done. destruct (negb (isNumber _)); [done|]. destruct (negb _); [done|].
  destruct (memberIn _ "source") as [[]|]; try done. destruct (castSeed fields) eqn:Hcast; [|done]. intros [= <-]. by exists fields.
Qed.

(** C28. A document a producer wrote under a digest reads back as the seed it was written from,
    with the keys of its configuration that held [undefined] left out. *)
Theorem seed_reads_back (seed : StreamSeed) : seed_streamDigest seed <> "" -> parseStreamSeed (serializeStreamSeed seed) = Ok (settled seed).
Proof. apply seed_read. Qed.
