(* ===== verification/SeedInstall.v ===== *)
(** * Installing a published stream

    [packages/core/src/stream/seedInstall.ts]: a client fetches a seed from the locations it
    was given, checks it, and writes it through its own keeper, which must be empty. *)
From S2P Require Import Prelude JsMap Types Stream AbiEvents EventRanges Invalidation Json Canonical StreamConfig SourceIdentity Emissions Keeper SeedDocument.

Inductive NotInstalledReason : Type :=
  | no_locations | unreachable | unreadable_format | does_not_reach_back | subtree_not_empty | subtree_unreadable | chain_mismatch
  | stream_config | seed_covers_more | seed_covers_less | integrity_mismatch | incoherent | inside_reorg_window.

#[export] Instance NotInstalledReason_eq_dec : EqDecision NotInstalledReason.
Proof. solve_decision. Defined.

Inductive StreamSeedInstallOutcome : Type :=
  | Installed (from : string) (at_block reachesBackTo : Z) (event_count segments : nat)
  | NotInstalled (reason : NotInstalledReason).

(** What comes out as a throw. *)
Inductive InstallThrow : Type :=
  | NotAContentHash (expected : string)
  | SourceThrew (e : RangeError)
  | ConfigThrew (e : ConfigError)
  | KeeperThrew
  | KeeperDeclined.

Record StreamSeedInstallOptions : Type := mkInstallOptions {
  opt_source : IndexingSource;
  opt_streamConfig : UsedStreamConfig;
  opt_reachBackTo : option Z;
  opt_maxEventsPerBatch : option Z;
  opt_expectedContentHash : option string
}.

Definition DEFAULT_MAX_EVENTS_PER_BATCH : Z := 1000.
(** [Number.MAX_SAFE_INTEGER] *)
Definition PROBE_FROM_BLOCK : Z := 2 ^ 53 - 1.

(** ** Content hashes *)
Definition isLowerHex (c : ascii) : bool := let n := nat_of_ascii c in bool_decide (48 <= n <= 57 \/ 97 <= n <= 102)%nat.

Fixpoint allLowerHex (s : string) : bool := match s with EmptyString => true | String c s' => isLowerHex c && allLowerHex s' end.

(** [/^sha256:[0-9a-f]{64}$/] *)
Definition renderedContentHash (expected : string) : bool :=
  match strip "sha256:" expected with
  | Some digits => bool_decide (String.length digits = 64%nat) && allLowerHex digits
  | None => false
  end.

(** ** Batches *)
Fixpoint batchesFrom (maxEvents : Z) (previous : option FeedEntry) (current : list FeedEntry) (events : list FeedEntry) : list (list FeedEntry) :=
  match events with
  | [] => match current with [] => [] | _ => [current] end
  | event :: events =>
      let boundary := match previous with Some previous => bool_decide (entryAt previous <> entryAt event) | None => false end in
      if boundary && bool_decide (maxEvents <= Z.of_nat (length current))
      then current :: batchesFrom maxEvents (Some event) [event] events
      else batchesFrom maxEvents (Some event) (current ++ [event]) events
  end.

Definition batchesOf (eventStream : list FeedEntry) (maxEvents : Z) : list (list FeedEntry) := batchesFrom maxEvents None [] eventStream.

(** ** Coherence *)
Inductive Incoherence : Type :=
  | EventNotOne
  | OutsideCoverage (block : Z)
  | TwoHashes (block : Z)
  | HoldsRetraction (block : Z)
  | DuplicateLog (block logIndex : Z)
  | OutOfOrder (block logIndex : Z).

Definition coordinate (e : CanonicalEntry) : string := entry_blockHash e +:+ ":" +:+ pretty (entry_logIndex e).

Record Scan : Type := mkScan { hashAtBlock : gmap Z string; scan_seen : gset string; previousBlock : Z; previousLogIndex : Z }.

Definition scanStart : Scan := mkScan ∅ ∅ (-1) (-1).

Definition scanEvent (from to : Z) (scan : Scan) (event : FeedEntry) : result Incoherence Scan :=
  let e := feed_entry event in
  let n := entry_blockNumber e in
  if decide (n < from \/ to < n) then Err (OutsideCoverage n)
  else if match hashAtBlock scan !! n with Some known => bool_decide (known <> entry_blockHash e) | None => false end then Err (TwoHashes n)
  else if feed_removed event then Err (HoldsRetraction n)
  else if decide (coordinate e ∈ scan_seen scan) then Err (DuplicateLog n (entry_logIndex e))
  else if decide (n < previousBlock scan \/ n = previousBlock scan /\ entry_logIndex e <= previousLogIndex scan) then Err (OutOfOrder n (entry_logIndex e))
  else Ok (mkScan (<[n := entry_blockHash e]> (hashAtBlock scan)) ({[coordinate e]} ∪ scan_seen scan) n (entry_logIndex e)).

Fixpoint scanEvents (from to : Z) (scan : Scan) (events : list SeedEvent) : option Incoherence :=
  match events with
  | [] => None
  | NotAnEvent :: _ => Some EventNotOne
  | AnEvent event :: events =>
      match scanEvent from to scan event with Err why => Some why | Ok scan => scanEvents from to scan events end
  end.

Definition incoherenceOf (seed : StreamSeed) : option Incoherence := scanEvents (seed_fromBlock seed) (seed_toBlock seed) scanStart (seed_eventStream seed).

Definition eventsOf (events : list SeedEvent) : list FeedEntry := omap (fun event => match event with AnEvent e => Some e | NotAnEvent => None end) events.

(** The most telling of the reasons the locations gave. *)
Definition REASON_ORDER : list NotInstalledReason :=
  [chain_mismatch; stream_config; seed_covers_less; seed_covers_more; does_not_reach_back; inside_reorg_window; incoherent; integrity_mismatch; unreadable_format; unreachable].

Definition pickReason (reasons : list NotInstalledReason) : NotInstalledReason :=
  default unreachable (head (filter (fun reason => reason ∈ reasons) REASON_ORDER)).

Record ClientIdentity : Type := mkClient { client_sourceHashes : list SourceHashEntry; client_configHash : string; client_digest : string }.

Definition contractsOf (contracts : SourceContracts) : Contracts :=
  match contracts with
  | ListedContracts listed => ContractList ((fun c => mkContract (source_address c) (source_startBlock c)) <$> listed)
  | MergedAbi _ start => AllContracts start
  end.

Definition genesisDiffers (declared : option string) (source : IndexingSource) : bool :=
  match declared, source_genesisHash source with Some d, Some g => bool_decide (d <> g) | _, _ => false end.

Section Install.
Context `{lib : AbiLibrary}.
(** viem's [sha256] of some octets, the network, and the platform's decompression. *)
Context (sha256_hex : string -> string) (get : string -> option (bool * string)) (inflate : string -> option string).

Definition streamSeedContentHash (payload : string) : string := "sha256:" +:+ String.substring 2 (String.length (sha256_hex payload)) (sha256_hex payload).

Definition streamSeedPayloadFrom (received : string) : option string :=
  match received with
  | String a (String b _) => if decide (a = "031"%char /\ b = "139"%char) then inflate received else Some received
  | _ => Some received
  end.

(** A response that is not [ok] throws, as a request that fails does. *)
Definition fetchSeedBody (location : string) : option string :=
  match get location with Some (true, body) => Some body | _ => None end.

(** [streamConfigHashOf] of a configuration that was resolved. *)
Definition hashOfConfig (config : UsedStreamConfig) : result InstallThrow string :=
  match streamConfigHashOf (Some (provide config)) with Ok hash => Ok (default "" hash) | Err e => Err (ConfigThrew e) end.

Definition clientIdentityOf (source : IndexingSource) (config : UsedStreamConfig) : result InstallThrow ClientIdentity :=
  match sourceHashesOf source with
  | Err e => Err (SourceThrew e)
  | Ok sourceHashes =>
      configHash ← hashOfConfig config;
      Ok (mkClient sourceHashes configHash (streamDigestOfSourceHashes sha256_hex sourceHashes config))
  end.

Definition identityRefusalOf (seed : StreamSeed) (source : IndexingSource) (client : ClientIdentity) : result InstallThrow (option NotInstalledReason) :=
  let published := streamDigestOfSourceHashes sha256_hex (ctx_source (seed_context seed)) (seed_streamConfig seed) in
  if decide (seed_streamDigest seed <> published) then Ok (Some incoherent)
  else
    publishedConfigHash ← hashOfConfig (seed_streamConfig seed);
    if decide (ctx_config (seed_context seed) <> publishedConfigHash) then Ok (Some incoherent)
    else if decide (published = client_digest client) then Ok None
    else if match seed_chain seed with
            | Some (chainId, genesis) => bool_decide (chainId <> source_chainId source) || genesisDiffers genesis source
            | None => false
            end then Ok (Some chain_mismatch)
    else if decide (publishedConfigHash <> client_configHash client) then Ok (Some stream_config)
    else match stream_verdict (sourceInvalidationOf (client_sourceHashes client) (client_configHash client) (seed_toBlock seed) (seed_context seed)) with
         | ValidVerdict => Ok (Some seed_covers_more)
         | InvalidVerdict _ _ => Ok (Some seed_covers_less)
         end.

(** Everything about one location, up to the first write: a seed to install, or why not. *)
Definition admitSeed (options : StreamSeedInstallOptions) (reachBackTo : Z) (client : ClientIdentity) (location : string)
    : result InstallThrow (NotInstalledReason + StreamSeed) :=
  match fetchSeedBody location with
  | None => Ok (inl unreachable)
  | Some body =>
      match streamSeedPayloadFrom body with
      | None => Ok (inl unreadable_format)
      | Some payload =>
          if match opt_expectedContentHash options with Some expected => bool_decide (streamSeedContentHash payload <> expected) | None => false end
          then Ok (inl integrity_mismatch)
          else match parseStreamSeed payload with
               | Err _ => Ok (inl unreadable_format)
               | Ok seed =>
                   refusal ← identityRefusalOf seed (opt_source options) client;
                   match refusal with
                   | Some reason => Ok (inl reason)
                   | None =>
                       if decide (reachBackTo < seed_fromBlock seed) then Ok (inl does_not_reach_back)
                       else match incoherenceOf seed with
                            | Some _ => Ok (inl incoherent)
                            | None =>
                                if decide (seed_chainHeadAtCapture seed - seed_toBlock seed < used_finality (opt_streamConfig options))
                                then Ok (inl inside_reorg_window)
                                else Ok (inr seed)
                            end
                   end
               end
      end
  end.

Section Keeper.
Context `{keeper : ExistingStream IndexingSource UsedStreamConfig K}.

(** [subtreeStateOf]: nothing where the read threw. *)
Definition subtreeStateOf (source : IndexingSource) (k : K) : option bool :=
  match es_fetchFrom source PROBE_FROM_BLOCK k with
  | Some StreamAbsent => Some true
  | Some _ => Some false
  | None => None
  end.

Definition seedSync (seed : StreamSeed) (lastFrom lastTo : Z) : LastSync := mkSync (seed_context seed) (seed_chainHeadAtCapture seed) lastFrom lastTo [].

(** The saves, from the block after the last one. *)
Fixpoint writeBatches (source : IndexingSource) (seed : StreamSeed) (from : Z) (batches : list (list FeedEntry)) (k : K) : K * result InstallThrow unit :=
  match batches with
  | [] => (k, Ok tt)
  | batch :: batches =>
      let to := match batches with [] => seed_toBlock seed | _ => default (seed_toBlock seed) (entryAt <$> last batch) end in
      let '(k', outcome) := es_saveNewEvents source (seedSync seed from to) batch k in
      match outcome with
      | Saved => writeBatches source seed (to + 1) batches k'
      | Declined => (k', Err KeeperDeclined)
      | SaveThrew => (k', Err KeeperThrew)
      end
  end.

Definition seedBatches (seed : StreamSeed) (maxEvents : option Z) : list (list FeedEntry) :=
  match eventsOf (seed_eventStream seed) with [] => [[]] | events => batchesOf events (default DEFAULT_MAX_EVENTS_PER_BATCH maxEvents) end.

Definition writeSeed (source : IndexingSource) (seed : StreamSeed) (maxEvents : option Z) (k : K) : K * result InstallThrow nat :=
  let batches := seedBatches seed maxEvents in
  match writeBatches source seed (seed_fromBlock seed) batches k with
  | (k', Ok _) => (k', Ok (length batches))
  | (k', Err e) => (k', Err e)
  end.

Fixpoint tryLocations (options : StreamSeedInstallOptions) (reachBackTo : Z) (client : ClientIdentity) (locations : list string)
    (reasons : list NotInstalledReason) (k : K) : K * result InstallThrow StreamSeedInstallOutcome :=
  match locations with
  | [] => (k, Ok (NotInstalled (pickReason reasons)))
  | location :: locations =>
      match admitSeed options reachBackTo client location with
      | Err e => (k, Err e)
      | Ok (inl reason) => tryLocations options reachBackTo client locations (reason :: reasons) k
      | Ok (inr seed) =>
          match writeSeed (opt_source options) seed (opt_maxEventsPerBatch options) k with
          | (k', Err e) => (k', Err e)
          | (k', Ok segments) => (k', Ok (Installed location (seed_toBlock seed) (seed_fromBlock seed) (length (seed_eventStream seed)) segments))
          end
      end
  end.

Definition installPinned (locations : list string) (options : StreamSeedInstallOptions) (k : K) : K * result InstallThrow StreamSeedInstallOutcome :=
  match locations with
  | [] => (k, Ok (NotInstalled no_locations))
  | _ =>
      let k := es_setStreamConfig (opt_streamConfig options) k in
      match subtreeStateOf (opt_source options) k with
      | None => (k, Ok (NotInstalled subtree_unreadable))
      | Some false => (k, Ok (NotInstalled subtree_not_empty))
      | Some true =>
          let reachBackTo := default (defaultFromBlockOf (contractsOf (source_contracts (opt_source options)))) (opt_reachBackTo options) in
          match clientIdentityOf (opt_source options) (opt_streamConfig options) with
          | Err e => (k, Err e)
          | Ok client => tryLocations options reachBackTo client locations [] k
          end
      end
  end.

(** The pin is checked before anything else. *)
Definition installStreamSeed (locations : list string) (options : StreamSeedInstallOptions) (k : K) : K * result InstallThrow StreamSeedInstallOutcome :=
  match opt_expectedContentHash options with
  | Some expected => if renderedContentHash expected then installPinned locations options k else (k, Err (NotAContentHash expected))
  | None => installPinned locations options k
  end.
End Keeper.
End Install.

(** ** The batches of a seed *)
Lemma batchesFrom_concat maxEvents events : forall previous current, concat (batchesFrom maxEvents previous current events) = current ++ events.
Proof.
  induction events as [|event events IH]; intros previous current; cbn [batchesFrom].
  - destruct current; [done|]. cbn. by rewrite !app_nil_r.
  - destruct (_ && _); [cbn [concat]; by rewrite IH|]. rewrite IH. by rewrite <- app_assoc.
Qed.

Lemma batchesFrom_nonempty maxEvents events : forall previous current, (previous = None \/ current <> []) -> Forall (fun batch => batch <> []) (batchesFrom maxEvents previous current events).
Proof.
  induction events as [|event events IH]; intros previous current Hc; cbn [batchesFrom].
  - destruct current; [constructor|]. by repeat constructor.
  - destruct (_ && _) eqn:Hcut; [|apply IH; right; by destruct current]. constructor; [|apply IH; by right].
    destruct Hc as [->|]; [|done]. done.
Qed.

Lemma batchesOf_spec events maxEvents : concat (batchesOf events maxEvents) = events /\ Forall (fun batch => batch <> []) (batchesOf events maxEvents).
Proof. split; [apply (batchesFrom_concat maxEvents events None [])|apply batchesFrom_nonempty; by left]. Qed.

Lemma seedBatches_spec seed maxEvents : concat (seedBatches seed maxEvents) = eventsOf (seed_eventStream seed) /\ seedBatches seed maxEvents <> [].
Proof.
  unfold seedBatches. destruct (eventsOf (seed_eventStream seed)) as [|event events]; [done|]. destruct (batchesOf_spec (event :: events) (default DEFAULT_MAX_EVENTS_PER_BATCH maxEvents)) as [Hc _].
  split; [done|]. intros Hnil. by rewrite Hnil in Hc.
Qed.

(** ** Coherence, as a condition on the events *)
Definition comesAfter (a b : Z * Z) : Prop := a.1 < b.1 \/ a.1 = b.1 /\ a.2 < b.2.

Definition placeOf (event : FeedEntry) : Z * Z := (entryAt event, entry_logIndex (feed_entry event)).

Record coherent (from to : Z) (events : list FeedEntry) : Prop := {
  coherent_covered : Forall (fun event => from <= entryAt event <= to) events;
  coherent_applied : Forall (fun event => feed_removed event = false) events;
  coherent_hashes a b : a ∈ events -> b ∈ events -> entryAt a = entryAt b -> entry_blockHash (feed_entry a) = entry_blockHash (feed_entry b);
  coherent_distinct : NoDup ((fun event => coordinate (feed_entry event)) <$> events);
  coherent_ordered : StronglySorted comesAfter ((-1, -1) :: (placeOf <$> events))
}.

(** What the scan holds once it is past some events. *)
Record scanned (passed : list FeedEntry) (scan : Scan) : Prop := {
  scanned_hash n h : hashAtBlock scan !! n = Some h <-> exists event, event ∈ passed /\ entryAt event = n /\ entry_blockHash (feed_entry event) = h;
  scanned_seen c : c ∈ scan_seen scan <-> c ∈ (fun event => coordinate (feed_entry event)) <$> passed;
  scanned_last : last ((-1, -1) :: (placeOf <$> passed)) = Some (previousBlock scan, previousLogIndex scan)
}.

Lemma comesAfter_trans a b c : comesAfter a b -> comesAfter b c -> comesAfter a c.
Proof. unfold comesAfter. lia. Qed.

Lemma sorted_snoc (l : list (Z * Z)) x y : StronglySorted comesAfter l -> last l = Some x -> StronglySorted comesAfter (l ++ [y]) <-> comesAfter x y.
Proof.
  intros Hl Hx. apply last_Some in Hx as [l' ->]. split.
  - intros Hs. rewrite <- app_assoc in Hs. apply StronglySorted_app_1_r in Hs. by apply StronglySorted_inv in Hs as [_ [? _]%Forall_cons].
  - intros Hxy. induction l' as [|z l' IH]; cbn in *.
    + constructor; [repeat constructor|by repeat apply Forall_cons_2].
    + apply StronglySorted_inv in Hl as [Hl Hz]. constructor; [by apply IH|]. apply Forall_app. split; [done|]. constructor; [|done].
      apply Forall_app in Hz as [_ [Hzx _]%Forall_cons]. by eapply comesAfter_trans.
Qed.

Lemma scan_step from to passed scan event :
  coherent from to passed -> scanned passed scan ->
  match scanEvent from to scan event with
  | Ok scan' => coherent from to (passed ++ [event]) /\ scanned (passed ++ [event]) scan'
  | Err _ => ~ coherent from to (passed ++ [event])
  end.
Proof.
  intros [Hcov Happ Hhash Hdis Hord] [Sh Ss Sl]. unfold scanEvent. set (e := feed_entry event).
  assert (entryAt event = entry_blockNumber e) as Hat by done.
  assert (event ∈ passed ++ [event]) as Hin by (apply elem_of_app; right; left).
  case_decide as Hout.
  { intros [Hc _ _ _ _]. rewrite Forall_forall in Hc. specialize (Hc _ Hin). lia. }
  destruct (match hashAtBlock scan !! entry_blockNumber e with Some known => bool_decide (known <> entry_blockHash e) | None => false end) eqn:Htwo.
  { destruct (hashAtBlock scan !! entry_blockNumber e) as [known|] eqn:Hk; [|done]. apply bool_decide_eq_true in Htwo.
    apply Sh in Hk as (x & Hx & Hn & Hh). intros [_ _ Hc _ _]. apply Htwo. rewrite <- Hh. apply Hc; [apply elem_of_app; by left|done|done]. }
  destruct (feed_removed event) eqn:Hrem.
  { intros [_ Hc _ _ _]. rewrite Forall_forall in Hc. specialize (Hc _ Hin). congruence. }
  destruct (decide (coordinate e ∈ scan_seen scan)) as [Hseen|Hnew].
  { intros [_ _ _ Hc _]. rewrite fmap_app in Hc. apply NoDup_app in Hc as (_ & Hc & _). apply Ss in Hseen. apply (Hc _ Hseen). left. }
  destruct (decide (entry_blockNumber e < previousBlock scan \/ entry_blockNumber e = previousBlock scan /\ entry_logIndex e <= previousLogIndex scan)) as [Hord'|Hord'].
  { intros [_ _ _ _ Hc]. rewrite fmap_app, app_comm_cons in Hc. apply (sorted_snoc _ _ _ Hord Sl) in Hc. unfold comesAfter, placeOf in Hc. cbn in Hc. rewrite Hat in Hc. fold e in Hc. lia. }
  split; split.
  - apply Forall_app. split; [done|]. constructor; [lia|done].
  - apply Forall_app. by split; [|constructor].
  - assert (forall x, x ∈ passed -> entryAt x = entryAt event -> entry_blockHash (feed_entry x) = entry_blockHash e) as Hone.
    { intros x Hx Hn. assert (hashAtBlock scan !! entry_blockNumber e = Some (entry_blockHash (feed_entry x))) as Hk by (apply Sh; exists x; by rewrite <- Hat).
      rewrite Hk in Htwo. apply bool_decide_eq_false in Htwo. by apply dec_stable. }
    intros a b [Ha| ->%list_elem_of_singleton]%elem_of_app [Hb| ->%list_elem_of_singleton]%elem_of_app Hn; [by apply Hhash|by apply Hone|symmetry; by apply Hone|done].
  - rewrite fmap_app. apply NoDup_app. split_and!; [done| |apply NoDup_singleton]. intros c Hc ->%list_elem_of_singleton. apply Hnew, Ss. exact Hc.
  - rewrite fmap_app, app_comm_cons. apply (sorted_snoc _ _ _ Hord Sl). unfold comesAfter, placeOf. cbn. rewrite Hat. fold e. lia.
  - intros n h. cbn [hashAtBlock]. destruct (decide (n = entry_blockNumber e)) as [->|Hne].
    + rewrite lookup_insert_eq. split.
      * intros [= <-]. by exists event.
      * intros (x & [Hx| ->%list_elem_of_singleton]%elem_of_app & Hn & <-); [|done]. f_equal.
        assert (hashAtBlock scan !! entry_blockNumber e = Some (entry_blockHash (feed_entry x))) as Hk by (apply Sh; by exists x).
        rewrite Hk in Htwo. apply bool_decide_eq_false in Htwo. symmetry. by apply dec_stable.
    + rewrite lookup_insert_ne, Sh by done. split; intros (x & Hx & Hn & Hh); exists x; (split; [|done]); [apply elem_of_app; by left|].
      apply elem_of_app in Hx as [Hx| ->%list_elem_of_singleton]; [done|]. rewrite Hat in Hn. congruence.
  - intros c. cbn [scan_seen]. rewrite elem_of_union, elem_of_singleton, Ss, fmap_app, elem_of_app.
    change ((fun x => coordinate (feed_entry x)) <$> [event]) with [coordinate e]. rewrite list_elem_of_singleton. tauto.
  - rewrite fmap_app, app_comm_cons. change (placeOf <$> [event]) with [placeOf event]. by rewrite last_snoc.
Qed.

Lemma coherent_prefix from to passed rest : coherent from to (passed ++ rest) -> coherent from to passed.
Proof.
  intros [Hcov Happ Hhash Hdis Hord]. split.
  - by apply Forall_app in Hcov as [? _].
  - by apply Forall_app in Happ as [? _].
  - intros a b Ha Hb. apply Hhash; apply elem_of_app; by left.
  - rewrite fmap_app in Hdis. by apply NoDup_app in Hdis as [? _].
  - rewrite fmap_app, app_comm_cons in Hord. by apply StronglySorted_app_1_l in Hord.
Qed.

Lemma scanEvents_exact from to events : forall passed scan,
  coherent from to passed -> scanned passed scan ->
  scanEvents from to scan events = None <-> exists es, events = AnEvent <$> es /\ coherent from to (passed ++ es).
Proof.
  induction events as [|[event|] events IH]; intros passed scan Hc Hs; cbn [scanEvents].
  - split; [|done]. intros _. exists []. by rewrite app_nil_r.
  - pose proof (scan_step from to passed scan event Hc Hs) as Hstep. destruct (scanEvent from to scan event) as [scan'|why].
    + destruct Hstep as [Hc' Hs']. rewrite (IH _ _ Hc' Hs'). split.
      * intros (es & -> & He). exists (event :: es). split; [done|]. by rewrite <- app_assoc in He.
      * intros ([|e es] & [=] & He). subst. exists es. split; [done|]. by rewrite <- app_assoc.
    + split; [done|]. intros ([|e es] & [=] & He). subst. destruct Hstep. apply (coherent_prefix _ _ _ es). by rewrite <- app_assoc.
  - split; [done|]. by intros ([|e es] & [=] & _).
Qed.

Lemma coherent_nil from to : coherent from to [].
Proof. split; try constructor; [by intros ?? ?%not_elem_of_nil|constructor|constructor]. Qed.

(** A seed passes the coherence check exactly when every entry is an event, each inside the
    coverage and none a retraction, every block has one hash, no log comes twice, and the
    events ascend by block and log index from block 0 on. *)
Theorem incoherence_exact (seed : StreamSeed) :
  incoherenceOf seed = None <-> exists es, seed_eventStream seed = AnEvent <$> es /\ coherent (seed_fromBlock seed) (seed_toBlock seed) es.
Proof.
  unfold incoherenceOf. rewrite (scanEvents_exact _ _ _ [] scanStart); [done|apply coherent_nil|]. split.
  - intros n h. cbn. rewrite lookup_empty. split; [done|]. by intros (x & ?%not_elem_of_nil & _).
  - intros c. cbn. split; [by intros ?%elem_of_empty|by intros ?%not_elem_of_nil].
  - done.
Qed.

Lemma eventsOf_events es : eventsOf (AnEvent <$> es) = es.
Proof. unfold eventsOf. induction es as [|e es IH]; [done|]. cbn. by f_equal. Qed.

(** ** What an install leaves *)
Section Installing.
Context `{lib : AbiLibrary} (sha256_hex : string -> string) (get : string -> option (bool * string)) (inflate : string -> option string).
Context `{laws : ExistingStreamLaws IndexingSource UsedStreamConfig K}.

Definition eventsKept (kept : option Kept) : list FeedEntry := match kept with None => [] | Some t => concat (kept_batches t) end.

Lemma accept_spec kept sync batch t : accept kept sync batch = Some t ->
  kept_sync t = sync /\ kept_start t = match kept with None => lastFromBlock sync | Some t0 => kept_start t0 end /\ concat (kept_batches t) = eventsKept kept ++ batch.
Proof.
  assert (concat (match batch with [] => [] | _ => [batch] end) = batch) as Hone by (destruct batch; [done|cbn; by rewrite app_nil_r]).
  unfold accept. destruct kept as [t0|]; [case_decide; [done|]|]; intros [= <-]; cbn [kept_sync kept_start kept_batches eventsKept app].
  - by rewrite concat_app, Hone.
  - by rewrite Hone.
Qed.

Lemma writeBatches_spec source seed batches : forall from k kept,
  es_kept k source kept -> batches <> [] -> (forall t, kept = Some t -> lastToBlock (kept_sync t) + 1 = from) ->
  let '(k', r) := writeBatches source seed from batches k in
  (es_answers k -> es_answers k' /\ r = Ok tt)
  /\ match r with
     | Ok _ => exists t to, es_kept k' source (Some t) /\ kept_start t = match kept with None => from | Some t0 => kept_start t0 end
         /\ eventsKept (Some t) = eventsKept kept ++ concat batches /\ exists from', kept_sync t = seedSync seed from' to /\ to = seed_toBlock seed
     | Err e => e = KeeperThrew /\ exists written kept', written `prefix_of` batches /\ es_kept k' source kept' /\ eventsKept kept' = eventsKept kept ++ concat written
     end.
Proof.
  induction batches as [|batch batches IH]; intros from k kept Hk Hne Hfrom; [done|]. cbn [writeBatches].
  set (to := match batches with [] => seed_toBlock seed | _ => _ end).
  destruct (es_saveNewEvents source (seedSync seed from to) batch k) as [k1 out] eqn:Hsave. pose proof (es_save _ _ _ _ _ _ _ Hk Hsave) as [Hans Hout]. destruct out.
  - destruct Hout as (t & Hacc & Hk1). destruct (accept_spec _ _ _ _ Hacc) as (Hsync & Hstart & Hev). cbn [seedSync lastFromBlock] in Hstart. destruct batches as [|next batches].
    + cbn [writeBatches]. split; [by intros [? _]%Hans|]. exists t, to. split_and!; [done|done|cbn [eventsKept concat]; by rewrite app_nil_r|]. by exists from.
    + specialize (IH (to + 1) k1 (Some t) Hk1 ltac:(done)). destruct (writeBatches source seed (to + 1) (next :: batches) k1) as [k' r].
      destruct IH as [Hans' Hr]; [intros t' [= <-]; by rewrite Hsync|]. split; [intros [Ha1 _]%Hans; by apply Hans'|]. destruct r as [[]|e].
      * destruct Hr as (t' & to' & Hk' & Hs' & He' & Hsync'). exists t', to'. split_and!; [done|by rewrite Hs', Hstart| |done].
        rewrite He'. cbn [eventsKept concat]. rewrite Hev. by rewrite <- !app_assoc.
      * destruct Hr as (-> & written & kept' & Hpre & Hk' & He'). split; [done|]. exists (batch :: written), kept'. split_and!; [by apply prefix_cons|done|].
        rewrite He'. cbn [eventsKept concat]. rewrite Hev. by rewrite <- !app_assoc.
  - destruct Hout as [Hacc _]. exfalso. unfold accept in Hacc. destruct kept as [t|]; [|done]. case_decide as Hlt; [|done]. cbn [seedSync lastFromBlock] in Hlt.
    specialize (Hfrom t eq_refl). lia.
  - split; [by intros [_ ?]%Hans|]. split; [done|]. exists [], kept. split_and!; [apply prefix_nil|done|]. cbn. by rewrite app_nil_r.
Qed.

(** What a seed passed, whichever location served it. *)
Record admitted (options : StreamSeedInstallOptions) (reachBackTo : Z) (location : string) (seed : StreamSeed) : Prop := {
  admitted_served : exists body payload, fetchSeedBody get location = Some body /\ streamSeedPayloadFrom inflate body = Some payload
    /\ (forall expected, opt_expectedContentHash options = Some expected -> streamSeedContentHash sha256_hex payload = expected) /\ parseStreamSeed payload = Ok seed;
  admitted_digest : streamDigestOf sha256_hex (opt_source options) (opt_streamConfig options) = Ok (seed_streamDigest seed);
  admitted_reach : seed_fromBlock seed <= reachBackTo;
  admitted_coherent : exists es, seed_eventStream seed = AnEvent <$> es /\ coherent (seed_fromBlock seed) (seed_toBlock seed) es;
  admitted_margin : seed_toBlock seed + used_finality (opt_streamConfig options) <= seed_chainHeadAtCapture seed
}.

Lemma admit_admitted options reachBackTo client location seed :
  clientIdentityOf sha256_hex (opt_source options) (opt_streamConfig options) = Ok client ->
  admitSeed sha256_hex get inflate options reachBackTo client location = Ok (inr seed) -> admitted options reachBackTo location seed.
Proof.
  intros Hclient. unfold admitSeed. destruct (fetchSeedBody get location) as [body|] eqn:Hbody; [|done]. destruct (streamSeedPayloadFrom inflate body) as [payload|] eqn:Hpay; [|done].
  destruct (match opt_expectedContentHash options with Some _ => _ | None => _ end) eqn:Hpin; [done|]. destruct (parseStreamSeed payload) as [seed'|] eqn:Hparse; [|done].
  intros ([reason|] & Hid & Hrest)%bind_Ok; [done|]. case_decide as Hreach; [done|]. destruct (incoherenceOf seed') eqn:Hinc; [done|]. case_decide as Hmargin; [done|]. injection Hrest as <-.
  apply incoherence_exact in Hinc. split; [| |lia|done|lia].
  - exists body, payload. split_and!; try done. intros expected He. rewrite He in Hpin. apply bool_decide_eq_false in Hpin. by apply dec_stable.
  - unfold clientIdentityOf in Hclient. unfold streamDigestOf. destruct (sourceHashesOf (opt_source options)) as [hashes|] eqn:Hh; [|done]. apply bind_Ok in Hclient as (h & _ & [= <-]).
    cbn [mbind result_bind]. unfold identityRefusalOf in Hid. case_decide as Hlabel; [done|]. apply bind_Ok in Hid as (ph & _ & Hid). case_decide; [done|].
    case_decide as Hdig; [|destruct (match seed_chain seed' with Some _ => _ | None => _ end); [done|]; case_decide; [done|]; by destruct (stream_verdict _)].
    cbn [client_digest] in Hdig. by rewrite Hlabel, Hdig.
Qed.

Definition untouched (options : StreamSeedInstallOptions) (k k' : K) : Prop := k' = k \/ k' = es_setStreamConfig (opt_streamConfig options) k.

(** What came of the locations: a seed kept whole, a write that broke off, or nothing. *)
Definition install_result (options : StreamSeedInstallOptions) (reachBackTo : Z) (locations : list string) (unchanged : Prop) (k' : K) (r : result InstallThrow StreamSeedInstallOutcome) : Prop :=
  match r with
  | Ok (Installed location at_block reachesBackTo event_count segments) =>
      location ∈ locations /\ exists seed kept from', admitted options reachBackTo location seed
        /\ es_kept k' (opt_source options) (Some kept) /\ seed_eventStream seed = AnEvent <$> eventsKept (Some kept)
        /\ kept_start kept = seed_fromBlock seed /\ kept_sync kept = seedSync seed from' (seed_toBlock seed)
        /\ at_block = seed_toBlock seed /\ reachesBackTo = seed_fromBlock seed /\ event_count = length (seed_eventStream seed)
  | Err KeeperThrew =>
      exists location seed kept, location ∈ locations /\ admitted options reachBackTo location seed /\ es_kept k' (opt_source options) kept
        /\ exists rest, seed_eventStream seed = AnEvent <$> (eventsKept kept ++ rest)
  | Err KeeperDeclined => False
  | _ => unchanged
  end.

Lemma tryLocations_spec options reachBackTo client locations : forall reasons k,
  clientIdentityOf sha256_hex (opt_source options) (opt_streamConfig options) = Ok client -> es_kept k (opt_source options) None ->
  let '(k', r) := tryLocations sha256_hex get inflate options reachBackTo client locations reasons k in install_result options reachBackTo locations (k' = k) k' r.
Proof.
  induction locations as [|location locations IH]; intros reasons k Hclient Hk; cbn [tryLocations]; [done|].
  destruct (admitSeed sha256_hex get inflate options reachBackTo client location) as [[reason|seed]|e] eqn:Hadmit.
  - specialize (IH (reason :: reasons) k Hclient Hk). destruct (tryLocations _ _ _ _ _ _ _ _ _) as [k' r]. destruct r as [[]|[]]; try done; cbn [install_result] in *.
    + destruct IH as [Hl IH]. split; [by right|done].
    + destruct IH as (l & s & kept & Hl & IH). exists l, s, kept. split; [by right|done].
  - pose proof (admit_admitted _ _ _ _ _ Hclient Hadmit) as Hadm. destruct (admitted_coherent _ _ _ _ Hadm) as (events & Hes & _).
    destruct (seedBatches_spec seed (opt_maxEventsPerBatch options)) as [Hcat Hne]. rewrite Hes, eventsOf_events in Hcat.
    pose proof (writeBatches_spec (opt_source options) seed _ (seed_fromBlock seed) k None Hk Hne ltac:(done)) as Hw. unfold writeSeed.
    destruct (writeBatches _ _ _ _ k) as [k' [[]|e]]; destruct Hw as [_ Hw]; cbn [install_result].
    + destruct Hw as (t & to & Hk' & Hst & Hev & from' & Hsync & ->). split; [left|]. exists seed, t, from'. cbn [eventsKept app] in Hev. rewrite Hcat in Hev. cbn [eventsKept]. rewrite Hev.
      by split_and!.
    + destruct Hw as (-> & written & kept' & [rest Hrest] & Hk' & Hev). exists location, seed, kept'. split; [left|]. split; [done|]. split; [done|].
      exists (concat rest). rewrite Hev, Hes. cbn [eventsKept app]. by rewrite <- concat_app, <- Hrest, Hcat.
  - assert (e <> KeeperThrew /\ e <> KeeperDeclined) as [? ?]; [|by destruct e].
    unfold admitSeed in Hadmit. destruct (fetchSeedBody get location); [|done]. destruct (streamSeedPayloadFrom inflate _); [|done].
    destruct (match opt_expectedContentHash options with Some _ => _ | None => _ end); [done|]. destruct (parseStreamSeed _); [|done].
    apply bind_Err in Hadmit as [Hid|(x & _ & Hrest)]; [|destruct x; [done|]; case_decide; [done|]; destruct (incoherenceOf _); [done|]; by case_decide].
    unfold identityRefusalOf in Hid. case_decide; [done|]. apply bind_Err in Hid as [Hid|(x & _ & Hrest)].
    + unfold hashOfConfig in Hid. destruct (streamConfigHashOf _); [done|]. by injection Hid as <-.
    + case_decide; [done|]. case_decide; [done|]. destruct (match seed_chain _ with Some _ => _ | None => _ end); [done|]. case_decide; [done|]. by destruct (stream_verdict _).
Qed.

(** The keeper under the configuration of the install: what it reads and writes. *)
Definition configuredFor (options : StreamSeedInstallOptions) (k : K) : K := es_setStreamConfig (opt_streamConfig options) k.

Definition reachOf (options : StreamSeedInstallOptions) : Z :=
  default (defaultFromBlockOf (contractsOf (source_contracts (opt_source options)))) (opt_reachBackTo options).

Lemma install_spec (options : StreamSeedInstallOptions) (locations : list string) (k : K) :
  let '(k', r) := installStreamSeed sha256_hex get inflate locations options k in
  install_result options (reachOf options) locations (untouched options k k') k' r
  /\ (untouched options k k' \/ es_kept (configuredFor options k) (opt_source options) None).
Proof.
  assert (let '(k', r) := installPinned sha256_hex get inflate locations options k in
    install_result options (reachOf options) locations (untouched options k k') k' r
    /\ (untouched options k k' \/ es_kept (configuredFor options k) (opt_source options) None)) as Hpinned.
  { unfold installPinned. assert (untouched options k k) as Hsame by (by left). destruct locations as [|location locations]; [split; [exact Hsame|by left]|]. fold (configuredFor options k).
    assert (untouched options k (configuredFor options k)) as Hun by (by right). unfold subtreeStateOf.
    destruct (es_fetchFrom (opt_source options) PROBE_FROM_BLOCK (configuredFor options k)) as [[]|] eqn:Hfetch; try (split; [exact Hun|by left]).
    apply es_absent in Hfetch. destruct (clientIdentityOf _ _ _) as [client|e] eqn:Hclient.
    - pose proof (tryLocations_spec options (reachOf options) client (location :: locations) [] (configuredFor options k) Hclient Hfetch) as Htry.
      unfold reachOf in Htry. destruct (tryLocations _ _ _ _ _ _ _ _ _) as [k' r]. split; [|by right].
      destruct r as [[]|[]]; cbn [install_result] in *; try done; by rewrite Htry.
    - split; [|by left]. unfold clientIdentityOf in Hclient. destruct (sourceHashesOf _); [|injection Hclient as <-; exact Hun].
      apply bind_Err in Hclient as [Hh|(x & _ & [=])]. unfold hashOfConfig in Hh. destruct (streamConfigHashOf _); [done|]. injection Hh as <-. exact Hun. }
  unfold installStreamSeed. destruct (opt_expectedContentHash options) as [expected|]; [|exact Hpinned].
  destruct (renderedContentHash expected); [exact Hpinned|]. assert (untouched options k k) as Hsame by (by left). split; [exact Hsame|by left].
Qed.

(** C26. An install writes only where nothing was kept, and only a seed that passed every check:
    of the client's own stream, reaching back far enough, coherent, and taken the client's
    finality below the head its producer saw.  It then holds the seed whole, under the
    seed's coverage and context; a keeper that fails leaves a first part of it; and no other
    answer, refusal or throw, changes anything. *)
Theorem install_exact (options : StreamSeedInstallOptions) (locations : list string) (k : K) :
  let '(k', r) := installStreamSeed sha256_hex get inflate locations options k in
  install_result options (reachOf options) locations (untouched options k k') k' r
  /\ (untouched options k k' \/ es_kept (configuredFor options k) (opt_source options) None).
Proof. apply install_spec. Qed.

(** A keeper that answers takes the first seed that is admitted. *)
Lemma install_takes options client before location after seed k :
  opt_expectedContentHash options = None -> es_kept (configuredFor options k) (opt_source options) None -> es_answers (configuredFor options k) ->
  clientIdentityOf sha256_hex (opt_source options) (opt_streamConfig options) = Ok client ->
  Forall (fun l => exists reason, admitSeed sha256_hex get inflate options (reachOf options) client l = Ok (inl reason)) before ->
  admitSeed sha256_hex get inflate options (reachOf options) client location = Ok (inr seed) ->
  exists k' segments, installStreamSeed sha256_hex get inflate (before ++ location :: after) options k
    = (k', Ok (Installed location (seed_toBlock seed) (seed_fromBlock seed) (length (seed_eventStream seed)) segments)).
Proof.
  intros Hpin Hk Hans Hclient Hbefore Hadmit. unfold installStreamSeed. rewrite Hpin. unfold installPinned. destruct (before ++ location :: after) as [|l0 ls] eqn:Hls; [by destruct before|].
  rewrite <- Hls. clear Hls. fold (configuredFor options k). unfold subtreeStateOf. destruct (es_reads _ _ PROBE_FROM_BLOCK _ Hk Hans) as [r Hr]. rewrite Hr, (es_read _ _ _ _ _ Hk Hr). cbn [readKept].
  rewrite Hclient. fold (reachOf options). generalize (@nil NotInstalledReason). induction Hbefore as [|l before (reason & Hl) Hbefore IH]; intros reasons; cbn [app tryLocations].
  - rewrite Hadmit. destruct (seedBatches_spec seed (opt_maxEventsPerBatch options)) as [_ Hne]. unfold writeSeed.
    pose proof (writeBatches_spec (opt_source options) seed _ (seed_fromBlock seed) _ None Hk Hne ltac:(done)) as Hw.
    destruct (writeBatches _ _ _ _ (configuredFor options k)) as [k' r']. destruct Hw as [Hw _]. destruct (Hw Hans) as [_ ->]. by eexists _, _.
  - rewrite Hl. apply IH.
Qed.
End Installing.
