(* ===== verification/Feed.v ===== *)
(** * The two feeds

    [packages/server/src/feed/stream.ts], [feed/canonical.ts] and the two routes of
    [api/feed.ts] over the stored emission stream: the retraction-aware feed in [seq]
    order, and the canonical view with its rewind.  The cursor is the position its
    opaque encoding carries. *)
From S2P Require Import Prelude JsMap Types Stream Reorg Replay EntityProcessor StreamBuilder Emissions.

(** ** The retraction-aware view *)
Record FeedPage : Type := mkFeedPage {
  feed_entries : list FeedEntry;
  feed_position : Z;
  feed_hasMore : bool
}.

Definition FEED_START_POSITION : Z := 0.

Definition readStreamFeed (db : EmissionDb) (indexer stream : string) (after : Z) (limit : nat) : FeedPage :=
  let rows := take (limit + 1) (sort_on row_seq (filter (fun row => after < row_seq row) (rows_of db indexer stream))) in
  let hasMore := bool_decide (limit < length rows)%nat in
  let page := if hasMore then take limit rows else rows in
  mkFeedPage (feedEntryOf <$> page) (match last page with Some row => row_seq row | None => after end) hasMore.

(** ** The canonical view *)
Record CanonicalPosition : Type := mkPosition { at_blockNumber : Z; at_logIndex : Z }.

#[export] Instance CanonicalPosition_eq_dec : EqDecision CanonicalPosition.
Proof. solve_decision. Defined.

Definition CANONICAL_START_POSITION : CanonicalPosition := mkPosition 0 (-1).

Record CanonicalPage : Type := mkCanonicalPage {
  page_entries : list CanonicalEntry;
  page_last : option (CanonicalPosition * string);
  page_hasMore : bool
}.

Definition past (after : CanonicalPosition) (row : EmissionRow) : Prop :=
  at_blockNumber after < row_blockNumber row
  \/ row_blockNumber row = at_blockNumber after /\ at_logIndex after < row_logIndex row.

#[export] Instance past_dec after row : Decision (past after row).
Proof. unfold past. apply _. Defined.

(** [ORDER BY blockNumber, logIndex] *)
Definition chain_order (a b : EmissionRow) : Z :=
  if decide (row_blockNumber a <> row_blockNumber b) then row_blockNumber a - row_blockNumber b
  else row_logIndex a - row_logIndex b.

Definition readCanonicalView (db : EmissionDb) (indexer stream : string) (gate : Z) (after : CanonicalPosition)
    (limit : nat) : CanonicalPage :=
  let rows := take (limit + 1) (sort_by chain_order
    (filter (fun row => row_alive row = true /\ row_blockNumber row <= gate /\ past after row)
       (rows_of db indexer stream))) in
  let hasMore := bool_decide (limit < length rows)%nat in
  let page := if hasMore then take limit rows else rows in
  mkCanonicalPage (entryOf <$> page)
    ((fun row => (mkPosition (row_blockNumber row) (row_logIndex row), row_blockHash row)) <$> last page) hasMore.

Definition isStillCanonical (db : EmissionDb) (indexer stream : string) (position : CanonicalPosition) (hash : string)
    : bool :=
  bool_decide (0 < length (filter (fun row =>
    row_blockNumber row = at_blockNumber position /\ row_logIndex row = at_logIndex position
    /\ row_blockHash row = hash /\ row_alive row = true) (rows_of db indexer stream)))%nat.

(** [SELECT MIN(blockNumber) ... WHERE removed = 1 AND seq > ?3] *)
Definition forkBlockSince (db : EmissionDb) (indexer stream : string) (since : Z) : option Z :=
  match row_blockNumber <$> filter (fun row => row_removed row = true /\ since < row_seq row) (rows_of db indexer stream) with
  | [] => None
  | n :: rest => Some (foldl Z.min n rest)
  end.

(** ** The route

    What a canonical cursor carries: where the consumer is, the stream's high-water
    mark when it was handed out, and the hash of the block it names, when it names one. *)
Record CanonicalCursor : Type := mkCanonicalCursor {
  cursor_position : CanonicalPosition;
  cursor_since : Z;
  cursor_blockHash : option string
}.

Inductive CanonicalAnswer : Type :=
  | Page (entries : list CanonicalEntry) (cursor : CanonicalCursor) (hasMore : bool)
  | RewindRequired (forkBlock : Z) (rewindCursor : CanonicalCursor).

Definition rewind (forkBlock mark : Z) : CanonicalAnswer :=
  RewindRequired forkBlock (mkCanonicalCursor (mkPosition forkBlock (-1)) mark None).

Definition servePage (db : EmissionDb) (indexer stream : string) (gate : Z) (limit : nat) (mark : Z)
    (after : CanonicalPosition) (seenBlockHash : option string) : CanonicalAnswer :=
  let page := readCanonicalView db indexer stream gate after limit in
  let position := match page_last page with Some (p, _) => p | None => after end in
  let blockHash := match page_last page with Some (_, h) => Some h | None => seenBlockHash end in
  Page (page_entries page) (mkCanonicalCursor position mark blockHash) (page_hasMore page).

Definition canonicalRequest (db : EmissionDb) (indexer stream : string) (gate : Z) (limit : nat)
    (presented : option CanonicalCursor) : CanonicalAnswer :=
  let mark := readStreamHighWaterMark db indexer stream in
  match presented with
  | None => servePage db indexer stream gate limit mark CANONICAL_START_POSITION None
  | Some c =>
      match cursor_blockHash c with
      | Some h =>
          if isStillCanonical db indexer stream (cursor_position c) h
          then servePage db indexer stream gate limit mark (cursor_position c) (Some h)
          else rewind (default (at_blockNumber (cursor_position c)) (forkBlockSince db indexer stream (cursor_since c))) mark
      | None => servePage db indexer stream gate limit mark (cursor_position c) None
      end
  end.

(** What a consumer of the view keeps: what it was served, and on a rewind only what
    lies below the fork block. *)
Definition consume (seen : list CanonicalEntry) (answer : CanonicalAnswer) : list CanonicalEntry * CanonicalCursor :=
  match answer with
  | Page entries cursor _ => (seen ++ entries, cursor)
  | RewindRequired forkBlock cursor => (filter (fun c => entry_blockNumber c < forkBlock) seen, cursor)
  end.

(** ** The live rows of a stream of cycles *)
Lemma live_retract live D :
  foldl live_step live (retractions_of D) = filter (fun c => entry_key c ∉ log_key <$> events_of D) live.
Proof.
  unfold retractions_of. induction (events_of D) as [|e l IH] using rev_ind.
  { simpl. rewrite filter_Forall_id; [done|]. apply Forall_forall. intros c _. apply not_elem_of_nil. }
  rewrite fmap_app, foldl_app, IH. cbn [foldl fmap list_fmap].
  unfold live_step. cbn [removed asRemoved]. rewrite list_filter_filter. apply filter_ext_in. intros c _.
  rewrite fmap_app, not_elem_of_app. csimpl. rewrite list_elem_of_singleton. unfold log_key at 1. simpl. unfold log_key. tauto.
Qed.

Lemma live_apply live N : Forall block_wf N -> foldl live_step live (events_of N) = live ++ (entry_of_log <$> events_of N).
Proof.
  intros HN%events_of_applied. induction (events_of N) as [|e l IH] using rev_ind; [by rewrite app_nil_r|].
  apply Forall_app in HN as [Hl [He _]%Forall_cons]. rewrite foldl_app, IH, fmap_app by done. simpl.
  unfold live_step. by rewrite He, app_assoc.
Qed.

Lemma live_turn P D N :
  chain_wf (P ++ D) -> Forall block_wf N ->
  foldl live_step (entry_of_log <$> events_of (P ++ D)) (retractions_of D ++ events_of N)
  = entry_of_log <$> events_of (P ++ N).
Proof.
  intros Hwf HN. rewrite foldl_app, live_retract, live_apply by done. rewrite !events_of_app, !fmap_app. f_equal.
  pose proof (chain_wf_blocks _ Hwf) as Hb. apply Forall_app in Hb as [HP HD].
  assert (forall C b, Forall block_wf C -> b ∈ events_of C -> blockHash b ∈ hash <$> C) as Hhash.
  { intros C e HC (l & He & (x & -> & Hx)%list_elem_of_fmap)%elem_of_concat.
    rewrite Forall_forall in HC. pose proof (block_wf_events x (HC x Hx)) as Hev. rewrite Forall_forall in Hev.
    destruct (Hev e He) as (_ & -> & _). by apply list_elem_of_fmap_2. }
  pose proof (chain_wf_hashes _ Hwf) as Hnd. rewrite fmap_app in Hnd. apply NoDup_app in Hnd as (_ & Hdis & _).
  rewrite filter_app, filter_Forall_id, filter_Forall_nil; [apply app_nil_r|..].
  - apply Forall_forall. intros c (e & -> & He)%list_elem_of_fmap Hno. apply Hno.
    apply list_elem_of_fmap. exists e. done.
  - apply Forall_forall. intros c (e & -> & He)%list_elem_of_fmap (e' & Hk & He')%list_elem_of_fmap.
    injection Hk as Hk _. apply (Hdis (blockHash e)); [by apply Hhash|]. rewrite Hk. by apply Hhash.
Qed.

Lemma live_cycles from gs H :
  cycles from [] gs H -> foldl live_step [] (group_events gs) = entry_of_log <$> events_of H.
Proof.
  induction 1 as [|gs P D N Hc IH Hwf Hdis Hlow]; [done|].
  rewrite group_events_app, foldl_app, IH, group_events_app, group_events_retracted, group_events_applied.
  apply live_turn; [by eapply cycles_chain, Hc; apply chain_wf_nil|].
  pose proof (chain_wf_blocks _ Hwf) as Hb. by apply Forall_app in Hb as [_ ?].
Qed.

(** ** Chain order *)
Definition before_eq (p : CanonicalPosition) (c : CanonicalEntry) : Prop :=
  entry_blockNumber c < at_blockNumber p
  \/ entry_blockNumber c = at_blockNumber p /\ entry_logIndex c <= at_logIndex p.

#[export] Instance before_eq_dec p c : Decision (before_eq p c).
Proof. unfold before_eq. apply _. Defined.

Definition entry_lt (a b : CanonicalEntry) : Prop :=
  entry_blockNumber a < entry_blockNumber b
  \/ entry_blockNumber a = entry_blockNumber b /\ entry_logIndex a < entry_logIndex b.

Definition position_of (c : CanonicalEntry) : CanonicalPosition := mkPosition (entry_blockNumber c) (entry_logIndex c).

(** The logs of each block are in the order of their index, as a node answers them. *)
Definition logs_ordered (H : list EventBlock) : Prop :=
  Forall (fun b => ascending logIndex (events b) /\ Forall (fun e => 0 <= logIndex e) (events b)) H.

Definition entries_of (H : list EventBlock) : list CanonicalEntry := entry_of_log <$> events_of H.

Lemma entries_of_app H H' : entries_of (H ++ H') = entries_of H ++ entries_of H'.
Proof. unfold entries_of. by rewrite events_of_app, fmap_app. Qed.

Lemma entries_of_block H c :
  Forall block_wf H -> c ∈ entries_of H -> exists b, b ∈ H /\ entry_blockNumber c = number b /\ entry_blockHash c = hash b
    /\ c ∈ entry_of_log <$> events b.
Proof.
  intros HH (e & -> & (l & He & (b & -> & Hb)%list_elem_of_fmap)%elem_of_concat)%list_elem_of_fmap.
  rewrite Forall_forall in HH. pose proof (block_wf_events b (HH b Hb)) as Hev. rewrite Forall_forall in Hev.
  destruct (Hev e He) as (Hn & Hh & _). exists b. split_and!; try done. by apply list_elem_of_fmap_2.
Qed.

Lemma entries_sorted H : chain_wf H -> logs_ordered H -> StronglySorted entry_lt (entries_of H).
Proof.
  intros [Ha _ Hb]. induction H as [|b H IH]; intros Hord; [constructor|].
  apply Forall_cons in Hord as [[Hlog _] Hord], Hb as [Hb HH]. apply StronglySorted_inv in Ha as [Ha Hlt].
  unfold entries_of. rewrite events_of_cons, fmap_app. fold (entries_of H). apply StronglySorted_app. split_and!.
  - intros x y (e & -> & He)%list_elem_of_fmap Hy. apply entries_of_block in Hy as (b' & Hin & Hn & _); [|done].
    pose proof (block_wf_events b Hb) as Hev. rewrite Forall_forall in Hev. rewrite Forall_forall in Hlt. destruct (Hev e He) as (He' & _).
    specialize (Hlt b' Hin). left. simpl in *. lia.
  - pose proof (block_wf_events b Hb) as Hev. clear -Hlog Hev. induction Hlog as [|e l Hl IH He]; csimpl; constructor.
    + apply IH. by apply Forall_cons in Hev as [_ ?].
    + apply Forall_cons in Hev as [(Hn & _) Hev]. apply Forall_fmap. rewrite Forall_forall in *. intros x Hx.
      destruct (Hev x Hx) as (Hn' & _). specialize (He x Hx). right. simpl. lia.
  - by apply IH.
Qed.

(** A page taken after a position continues what lies up to it. *)
Lemma page_continues E p gate k :
  StronglySorted entry_lt E ->
  let next := take k (filter (fun c => entry_blockNumber c <= gate /\ ~ before_eq p c) E) in
  filter (before_eq p) E ++ next = filter (before_eq (match last next with Some c => position_of c | None => p end)) E.
Proof.
  intros Hs next.
  assert (exists A B, E = A ++ B /\ Forall (before_eq p) A /\ Forall (fun c => ~ before_eq p c) B) as (A & B & -> & HA & HB).
  { clear next. induction Hs as [|x E Hs IH Hx]; [by exists [], []|]. destruct IH as (A & B & -> & HA & HB).
    destruct (decide (before_eq p x)) as [Hp|Hp]; [exists (x :: A), B; split_and!; [done|by constructor|done]|].
    assert (A = []) as ->; [|exists [], (x :: B); split_and!; [done|constructor|by constructor]].
    destruct A as [|a A]; [done|]. apply Forall_cons in HA as [Ha _], Hx as [Hx _]. exfalso. apply Hp.
    unfold before_eq, entry_lt in *. lia. }
  apply StronglySorted_app in Hs as (Hlt & HsA & HsB).
  unfold next. rewrite !filter_app, (filter_Forall_id (before_eq p) A), (filter_Forall_nil (before_eq p) B), app_nil_r by done.
  rewrite (filter_Forall_nil _ A) by (eapply Forall_impl; [exact HA|]; simpl; tauto). simpl.
  rewrite (filter_ext_in _ (fun c => entry_blockNumber c <= gate) B)
    by (intros c Hc; rewrite Forall_forall in HB; specialize (HB c Hc); tauto).
  assert (exists B1 B2, B = B1 ++ B2 /\ filter (fun c => entry_blockNumber c <= gate) B = B1) as (B1 & B2 & -> & ->).
  { clear -HsB. induction HsB as [|x B Hs IH Hx]; [by exists [], []|]. destruct IH as (B1 & B2 & -> & HB1).
    rewrite filter_cons. case_decide as Hg; [exists (x :: B1), B2; by rewrite HB1|].
    exists [], (x :: B1 ++ B2). split; [done|]. rewrite HB1. destruct B1 as [|y B1]; [done|].
    apply Forall_cons in Hx as [Hx _].
    assert (y ∈ filter (fun c => entry_blockNumber c <= gate) ((y :: B1) ++ B2)) as [Hy _]%list_elem_of_filter
      by (rewrite HB1; left). unfold entry_lt in Hx. lia. }
  set (T := take k B1). assert (exists R, B1 ++ B2 = T ++ R) as [R HR].
  { exists (drop k B1 ++ B2). unfold T. by rewrite app_assoc, take_drop. }
  rewrite HR in HsB, HB, Hlt |- *. apply StronglySorted_app in HsB as (HltT & HsT & _).
  destruct (last T) as [c|] eqn:HlastT.
  - apply last_Some in HlastT as [T' ->]. rewrite filter_app, (filter_Forall_id _ A), (filter_Forall_id _ (T' ++ [c])), (filter_Forall_nil _ R).
    + by rewrite app_nil_r.
    + apply Forall_forall. intros x Hx. specialize (HltT c x ltac:(apply elem_of_app; right; left) Hx).
      unfold before_eq, entry_lt, position_of in *. simpl. lia.
    + apply Forall_forall. intros x [Hx| ->%list_elem_of_singleton]%elem_of_app; [|unfold before_eq, position_of; simpl; lia].
      apply StronglySorted_app in HsT as (HT & _). specialize (HT x c Hx ltac:(left)).
      unfold before_eq, entry_lt, position_of in *. simpl. lia.
    + apply Forall_forall. intros x Hx. specialize (Hlt x c Hx ltac:(apply elem_of_app; left; apply elem_of_app; right; left)).
      unfold before_eq, entry_lt, position_of in *. simpl. lia.
  - apply last_None in HlastT. rewrite HlastT. rewrite HlastT in HR. simpl in HR. subst R.
    rewrite HlastT in HB. by rewrite (filter_Forall_id _ A), (filter_Forall_nil _ (B1 ++ B2)).
Qed.

(** ** The canonical view of a stream

    [shows db H]: the live rows of the stream are the logs of [H]. *)
Section Consumer.
Context (indexer stream : string).

Record shows (db : EmissionDb) (H : list EventBlock) : Prop := {
  shows_wf : rows_wf (rows_of db indexer stream);
  shows_live : live_entries (rows_of db indexer stream) = entries_of H;
  shows_chain : chain_wf H;
  shows_ordered : logs_ordered H
}.

Definition row_position (row : EmissionRow) : CanonicalPosition := mkPosition (row_blockNumber row) (row_logIndex row).

(** The rows a canonical read selects are the entries it answers. *)
Lemma canonical_rows db H gate p :
  shows db H ->
  entryOf <$> sort_by chain_order
    (filter (fun row => row_alive row = true /\ row_blockNumber row <= gate /\ past p row) (rows_of db indexer stream))
  = filter (fun c => entry_blockNumber c <= gate /\ ~ before_eq p c) (entries_of H).
Proof.
  intros [_ Hlive Hwf Hord]. pose proof (entries_sorted H Hwf Hord) as Hs. rewrite <- Hlive in Hs |- *.
  unfold live_entries in *.
  rewrite (filter_pairs (fun row => row_blockNumber row <= gate /\ past p row)
    (fun c => entry_blockNumber c <= gate /\ ~ before_eq p c)).
  2:{ intros row _. unfold before_eq, past. simpl. lia. }
  rewrite list_filter_filter. f_equal.
  rewrite (filter_ext_in _ (fun row => (row_blockNumber row <= gate /\ past p row) /\ row_alive row = true)) by (intros; tauto).
  apply sort_by_id. rewrite <- list_filter_filter. apply StronglySorted_sublist with (l := filter (fun row => row_alive row = true) (rows_of db indexer stream)).
  { apply sublist_filter. }
  clear Hlive. induction (filter _ (rows_of db indexer stream)) as [|row l IH]; [constructor|].
  apply StronglySorted_inv in Hs as [Hs Hrow]. constructor; [by apply IH|].
  apply (Forall_fmap entryOf (fun c => entry_lt (entryOf row) c)) in Hrow. eapply Forall_impl; [exact Hrow|].
  intros row' Hlt. unfold entry_lt, chain_order in *. simpl in *. case_decide; lia.
Qed.

Lemma last_take_fmap {A B} (f : A -> B) k (l : list A) : last (take k (f <$> l)) = f <$> last (take k l).
Proof. by rewrite <- fmap_take, fmap_last. Qed.

(** A page is the canonical entries past the position, up to the gate. *)
Lemma canonical_page db H gate p limit :
  shows db H ->
  let page := readCanonicalView db indexer stream gate p limit in
  let wanted := filter (fun c => entry_blockNumber c <= gate /\ ~ before_eq p c) (entries_of H) in
  page_entries page = take limit wanted
  /\ page_last page = (fun c => (position_of c, entry_blockHash c)) <$> last (take limit wanted)
  /\ page_hasMore page = bool_decide (limit < length wanted)%nat.
Proof.
  intros Hsh page wanted. pose proof (canonical_rows db H gate p Hsh) as Hrows. fold wanted in Hrows.
  unfold page, readCanonicalView. set (rows := sort_by chain_order _) in *. cbn [page_entries page_last page_hasMore].
  assert (length wanted = length rows) as Hlen by (by rewrite <- Hrows, length_fmap).
  assert ((if bool_decide (limit < length (take (limit + 1) rows))%nat then take limit (take (limit + 1) rows)
           else take (limit + 1) rows) = take limit rows) as ->.
  { rewrite length_take. case_bool_decide as Hlt.
    - rewrite take_take. f_equal. lia.
    - rewrite !take_ge by lia. done. }
  rewrite <- Hrows, <- fmap_take. split_and!; [done| |].
  - rewrite fmap_last, <- option_fmap_compose. done.
  - rewrite length_fmap, length_take. apply bool_decide_ext. lia.
Qed.
End Consumer.

(** ** One stream, and a consumer of it *)
Definition claim_to (to tip : Z) : StreamCoverage := mkCoverage [] "cfg" tip 1 to.

(** A cycle stored by one indexer: [D] retracted, [N] applied. *)
Definition append_turn (db : EmissionDb) (to : Z) (D N : list EventBlock) : EmissionDb :=
  match appendEmissions db (mkAppend "main" "stream1" (claim_to to to) (retractions_of D ++ events_of N)) with
  | Some db' => db'
  | None => db
  end.

Definition ask (db : EmissionDb) (consumer : list CanonicalEntry * option CanonicalCursor)
    : list CanonicalEntry * option CanonicalCursor :=
  let '(seen, cursor) := consume consumer.1 (canonicalRequest db "main" "stream1" 100 10 consumer.2) in
  (seen, Some cursor).

Definition heights (entries : list CanonicalEntry) : list (Z * string) :=
  (fun c => (entry_blockNumber c, entry_blockHash c)) <$> entries.

(** The new branch has a log below the block the old one retracts: the fork named is the
    retracted block, and the consumer never sees the log below it. *)
Definition skipped_before : EmissionDb := append_turn emptyDb 6 [] [sample_block 1 "a1"; sample_block 5 "a5"].
Definition skipped_after : EmissionDb := append_turn skipped_before 6 [sample_block 5 "a5"] [sample_block 3 "b3"; sample_block 6 "b6"].

(** What the receiver makes of the node's new branch. *)
Definition skipped_stream : option (list LogEvent) :=
  match generateStreamToAppend
      (mkSync (mkContext [] "cfg" "proc") 6 1 6 [sample_block 1 "a1"; sample_block 5 "a5"]) 1
      (events_of [sample_block 1 "a1"; sample_block 3 "b3"; sample_block 6 "b6"]) (mkBounds 7 1 7 10) with
  | Ok a => Some (eventStream a)
  | Err _ => None
  end.

Lemma rewind_skips_lower_block :
  skipped_stream = Some (retractions_of [sample_block 5 "a5"] ++ events_of [sample_block 3 "b3"; sample_block 6 "b6"])
  /\ let held := ask skipped_before ([], None) in
  let asked := ask skipped_after held in
  let caught_up := ask skipped_after (ask skipped_after asked) in
  heights (live_entries (rows_of skipped_after "main" "stream1")) = [(1, "a1"); (3, "b3"); (6, "b6")]
  /\ canonicalRequest skipped_after "main" "stream1" 100 10 held.2 = rewind 5 5
  /\ heights caught_up.1 = [(1, "a1"); (6, "b6")].
Proof. vm_compute. done. Qed.

(** A deeper reorganisation between a rewind and the request that follows it. *)
Definition deeper_before : EmissionDb :=
  append_turn emptyDb 6 [] [sample_block 1 "a1"; sample_block 2 "a2"; sample_block 3 "a3"].
Definition deeper_once : EmissionDb := append_turn deeper_before 6 [sample_block 3 "a3"] [sample_block 3 "b3"].
Definition deeper_twice : EmissionDb :=
  append_turn deeper_once 6 [sample_block 2 "a2"; sample_block 3 "b3"] [sample_block 2 "c2"; sample_block 3 "c3"].

Lemma rewind_cursor_unvalidated :
  let rewound := ask deeper_once (ask deeper_before ([], None)) in
  let caught_up := ask deeper_twice (ask deeper_twice rewound) in
  heights (live_entries (rows_of deeper_twice "main" "stream1")) = [(1, "a1"); (2, "c2"); (3, "c3")]
  /\ heights caught_up.1 = [(1, "a1"); (2, "a2"); (3, "c3")].
Proof. vm_compute. done. Qed.
