(* ===== verification/Consumer.v ===== *)
(** * A consumer of the canonical view

    [feed/canonical.ts] and the canonical route of [api/feed.ts] against a stream that
    is appended to between requests: what a consumer that keeps what it is served, and
    rewinds when it is told to, holds after any run. *)
From S2P Require Import Prelude JsMap Types Stream Reorg Replay EntityProcessor StreamBuilder Emissions Feed.

(** ** The high-water mark and the retractions since a mark *)
Definition retracted_since (rows : list EmissionRow) (since : Z) : list Z :=
  row_blockNumber <$> filter (fun row => row_removed row = true /\ since < row_seq row) rows.

Definition lowest (numbers : list Z) : option Z :=
  match numbers with [] => None | n :: rest => Some (foldl Z.min n rest) end.

Lemma lowest_None numbers : lowest numbers = None <-> numbers = [].
Proof. by destruct numbers. Qed.

Lemma lowest_Some numbers f : lowest numbers = Some f -> f ∈ numbers /\ Forall (fun n => f <= n) numbers.
Proof.
  destruct numbers as [|n rest]; [done|]. intros [= <-]. revert n. induction rest as [|m rest IH]; intros n; simpl.
  - split; [left|repeat constructor; lia].
  - destruct (IH (n `min` m)) as [Hin Hall%Forall_cons]. destruct Hall as [Hle Hall]. split.
    + apply elem_of_cons in Hin as [Heq|Hin]; [|right; by right]. rewrite Heq.
      destruct (Z.min_spec n m) as [[_ ->]|[_ ->]]; [left|right; left].
    + repeat constructor; try lia. done.
Qed.

Lemma fork_lowest db indexer stream since :
  forkBlockSince db indexer stream since = lowest (retracted_since (rows_of db indexer stream) since).
Proof. done. Qed.

Lemma retracted_stored indexer stream rows at_seq since emissions :
  since <= at_seq ->
  retracted_since (stored indexer stream rows at_seq emissions) since
  = retracted_since rows since ++ (blockNumber <$> filter (fun e => removed e = true) emissions).
Proof.
  unfold retracted_since. revert rows at_seq. induction emissions as [|e rest IH]; intros rows at_seq Hle; simpl; [by rewrite app_nil_r|].
  rewrite IH by lia. rewrite filter_app, fmap_app, <- app_assoc. f_equal.
  - unfold flagged. destruct (removed e); [|done].
    rewrite (filter_pairs (fun row => row_removed row = true /\ since < row_seq row)
      (fun row => row_removed row = true /\ since < row_seq row)) by (intros row _; by case_decide).
    rewrite <- list_fmap_compose. apply list_fmap_ext. intros i row _. simpl. by case_decide.
  - rewrite !filter_cons, filter_nil. simpl. destruct (removed e) eqn:He.
    + by rewrite !decide_True by (try done; split; [done|lia]).
    + by rewrite !decide_False by (done || by intros [? _]).
Qed.

(** What an append leaves of the rows, through anything but the [alive] column. *)
Lemma stored_rows {B} (f : EmissionRow -> B) indexer stream rows at_seq emissions :
  (forall row, f (dead row) = f row) ->
  exists new, f <$> stored indexer stream rows at_seq emissions = (f <$> rows) ++ (f <$> new)
    /\ Forall (fun row => at_seq < row_seq row) new.
Proof.
  intros Hf. revert rows at_seq. induction emissions as [|e rest IH]; intros rows at_seq; simpl; [exists []; by rewrite app_nil_r|].
  destruct (IH (flagged indexer stream e rows ++ [rowOf indexer stream (at_seq + 1) e]) (at_seq + 1)) as (new & -> & Hs).
  exists (rowOf indexer stream (at_seq + 1) e :: new). split.
  - rewrite fmap_app, <- app_assoc. f_equal. unfold flagged. destruct (removed e); [|done].
    rewrite <- list_fmap_compose. apply list_fmap_ext. intros i row _. simpl. by case_decide.
  - constructor; [simpl; lia|]. eapply Forall_impl; [exact Hs|]. simpl. lia.
Qed.

Lemma max_grows s l : s <= foldl Z.max s l.
Proof. revert s. induction l as [|x l IH]; intros s; simpl; [lia|]. specialize (IH (s `max` x)). lia. Qed.

Lemma high_water_grows db db' indexer stream emissions :
  rows_of db' indexer stream
    = stored indexer stream (rows_of db indexer stream) (readStreamHighWaterMark db indexer stream) emissions ->
  readStreamHighWaterMark db indexer stream <= readStreamHighWaterMark db' indexer stream.
Proof.
  intros Hrows. unfold readStreamHighWaterMark at 2. rewrite Hrows.
  destruct (stored_rows row_seq indexer stream (rows_of db indexer stream) (readStreamHighWaterMark db indexer stream) emissions)
    as (new & -> & Hs); [done|]. apply (Forall_fmap row_seq (fun n => readStreamHighWaterMark db indexer stream < n)) in Hs.
  remember (row_seq <$> new) as seqs eqn:Hseqs. clear Hseqs.
  unfold readStreamHighWaterMark in *. destruct (row_seq <$> rows_of db indexer stream) as [|s l]; simpl in *.
  - destruct Hs as [|s seqs Hs _]; [lia|]. pose proof (max_grows s seqs). lia.
  - rewrite foldl_app. apply max_grows.
Qed.

Lemma nothing_retracted_since_mark db indexer stream :
  forkBlockSince db indexer stream (readStreamHighWaterMark db indexer stream) = None.
Proof.
  rewrite fork_lowest. apply lowest_None. unfold retracted_since. rewrite filter_Forall_nil; [done|].
  eapply Forall_impl; [apply high_water_bounds|]. simpl. lia.
Qed.

(** What a turn retracts, by number. *)
Lemma turn_retracts D N :
  Forall block_wf D -> Forall block_wf N ->
  forall n, n ∈ blockNumber <$> filter (fun e => removed e = true) (retractions_of D ++ events_of N)
    <-> n ∈ number <$> D.
Proof.
  intros HD HN n. rewrite filter_app, fmap_app. rewrite (filter_Forall_nil _ (events_of N)).
  2:{ apply Forall_forall. intros e He. pose proof (events_of_applied N HN) as Hap. rewrite Forall_forall in Hap.
      by rewrite (Hap e He). }
  rewrite app_nil_r, filter_Forall_id.
  2:{ unfold retractions_of. apply Forall_fmap, Forall_forall. done. }
  unfold retractions_of. rewrite <- list_fmap_compose. clear HN. split.
  - intros (e & -> & (l & He & (b & -> & Hb)%list_elem_of_fmap)%elem_of_concat)%list_elem_of_fmap.
    rewrite Forall_forall in HD. pose proof (block_wf_events b (HD b Hb)) as Hev. rewrite Forall_forall in Hev.
    destruct (Hev e He) as (Hn & _). simpl. rewrite Hn. by apply list_elem_of_fmap_2.
  - intros (b & -> & Hb)%list_elem_of_fmap. rewrite Forall_forall in HD. destruct (HD b Hb) as [Hne Hev _].
    destruct (events b) as [|e l] eqn:He; [done|]. apply Forall_cons in Hev as [(Hn & _) _].
    apply list_elem_of_fmap. exists e. split; [done|]. apply elem_of_concat. exists (events b).
    split; [rewrite He; left|by apply list_elem_of_fmap_2].
Qed.

(** ** Runs

    [ancestry h] is the chain of event-bearing blocks up to the block hashing to [h]: a
    hash names a block and everything below it. *)
Section Run.
Context (ancestry : string -> list EventBlock) (indexer stream : string).

Definition rooted (H : list EventBlock) : Prop :=
  forall C b X, H = C ++ b :: X -> ancestry (hash b) = C ++ [b].

(** What a turn may do under an outstanding cursor.  Nothing validates a cursor with no
    hash, so nothing may change below its position; and a rewind goes to the lowest
    retraction since the cursor's mark, so no replacement may lie below it. *)
Definition undisturbed (db' : EmissionDb) (cursor : option CanonicalCursor) (D N : list EventBlock) : Prop :=
  match cursor with
  | None => True
  | Some c =>
      match cursor_blockHash c with
      | None => Forall (fun b => at_blockNumber (cursor_position c) <= number b) (D ++ N)
      | Some _ => forall f, forkBlockSince db' indexer stream (cursor_since c) = Some f -> Forall (fun b => f <= number b) N
      end
  end.

Inductive consuming : EmissionDb -> list EventBlock -> list CanonicalEntry -> option CanonicalCursor -> Prop :=
  | consuming_start : consuming emptyDb [] [] None
  | consuming_append db db' P D N coverage seen cursor :
      consuming db (P ++ D) seen cursor ->
      appendEmissions db (mkAppend indexer stream coverage (retractions_of D ++ events_of N)) = Some db' ->
      chain_wf (P ++ N) -> logs_ordered N -> rooted (P ++ N) -> undisturbed db' cursor D N ->
      consuming db' (P ++ N) seen cursor
  | consuming_other db db' H indexer' stream' coverage emissions seen cursor :
      consuming db H seen cursor -> (indexer', stream') <> (indexer, stream) ->
      appendEmissions db (mkAppend indexer' stream' coverage emissions) = Some db' ->
      consuming db' H seen cursor
  | consuming_ask db H seen cursor gate limit seen' cursor' :
      consuming db H seen cursor ->
      consume seen (canonicalRequest db indexer stream gate limit cursor) = (seen', cursor') ->
      consuming db H seen' (Some cursor').

(** How the canonical chain [H] stands to the chain [H0] there was at the mark, given the
    lowest retraction since: they share [C], and what follows it was either only appended
    or lies at or above the fork. *)
Inductive since_mark (fork : option Z) (H0 H : list EventBlock) : Prop :=
  since_mark_intro C X Y :
    H0 = C ++ X -> H = C ++ Y ->
    (X = [] \/ exists f, fork = Some f /\ Forall (fun b => f <= number b) (X ++ Y)) ->
    (forall f, fork = Some f -> Forall (fun b => number b < f) C) ->
    since_mark fork H0 H.

Definition held (db : EmissionDb) (H : list EventBlock) (seen : list CanonicalEntry) (cursor : option CanonicalCursor)
    : Prop :=
  match cursor with
  | None => seen = []
  | Some c =>
      cursor_since c <= readStreamHighWaterMark db indexer stream
      /\ match cursor_blockHash c with
         | None => at_logIndex (cursor_position c) = -1 /\ seen = filter (before_eq (cursor_position c)) (entries_of H)
         | Some h => exists H0, seen = filter (before_eq (cursor_position c)) (entries_of H0)
             /\ (exists e, e ∈ entries_of H0 /\ position_of e = cursor_position c /\ entry_blockHash e = h)
             /\ chain_wf H0 /\ logs_ordered H0 /\ rooted H0
             /\ since_mark (forkBlockSince db indexer stream (cursor_since c)) H0 H
         end
  end.

Lemma since_mark_turn fork fork' H0 P D N :
  since_mark fork H0 (P ++ D) -> chain_wf H0 -> chain_wf (P ++ D) ->
  (forall n, fork' = Some n -> (fork = Some n \/ n ∈ number <$> D) /\ Forall (fun b => n <= number b) D
     /\ forall f, fork = Some f -> n <= f) ->
  (fork' = None -> fork = None /\ D = []) ->
  (forall f, fork' = Some f -> Forall (fun b => f <= number b) N) ->
  since_mark fork' H0 (P ++ N).
Proof.
  intros [C X Y -> HPD Hrest HC] [Ha0 _ _] [Ha _ _] Hfork Hnone HN.
  apply ascending_app in Ha as (HltPD & _ & HaD). apply ascending_app in Ha0 as (Hlt0 & _ & _).
  assert ((exists Y1, P = C ++ Y1 /\ Y = Y1 ++ D) \/ exists b C2, C = P ++ b :: C2 /\ D = (b :: C2) ++ Y) as [(Y1 & -> & ->)|(b & C2 & -> & ->)].
  { clear -HPD. apply app_eq_app in HPD as (l & [[-> ->]|[-> ->]]); [left; by exists l|].
    destruct l as [|b l]; [left; exists []; by rewrite !app_nil_r|right; by exists b, l]. }
  - apply since_mark_intro with (C := C) (X := X) (Y := Y1 ++ N); [done|by rewrite app_assoc|..].
    + destruct Hrest as [->|(f & -> & Hall)]; [by left|right].
      destruct fork' as [f'|]; [|by destruct (Hnone eq_refl)].
      destruct (Hfork f' eq_refl) as (Hin & _ & Hle). specialize (Hle f eq_refl). exists f'. split; [done|].
      apply Forall_app in Hall as [HX [HY _]%Forall_app]. rewrite !Forall_app. split_and!; [..|by apply HN].
      * eapply Forall_impl; [exact HX|]. simpl. lia.
      * eapply Forall_impl; [exact HY|]. simpl. lia.
    + intros f' ->. destruct (Hfork f' eq_refl) as ([->|(d & -> & Hd)%list_elem_of_fmap] & _ & _); [by apply HC|].
      apply Forall_forall. intros c Hc. apply HltPD; [apply elem_of_app; by left|done].
  - destruct fork' as [f'|]; [|by destruct (Hnone eq_refl)].
    destruct (Hfork f' eq_refl) as (Hin & HD & Hle).
    assert (f' = number b) as ->.
    { assert (number b ∈ number <$> (b :: C2) ++ Y) as Hb by left. rewrite Forall_forall in HD.
      specialize (HD b ltac:(left)). destruct Hin as [->|(d & -> & Hd)%list_elem_of_fmap].
      - specialize (HC f' eq_refl). apply Forall_app in HC as [_ [HC _]%Forall_cons]. lia.
      - apply StronglySorted_inv in HaD as [_ HaD]. rewrite Forall_forall in HaD.
        apply elem_of_cons in Hd as [->|Hd]; [lia|]. specialize (HaD d Hd). lia. }
    apply since_mark_intro with (C := P) (X := (b :: C2) ++ X) (Y := N); [by rewrite <- app_assoc|done|..].
    + right. exists (number b). split; [done|]. rewrite !Forall_app. apply Forall_app in HD as [HC2 _]. split_and!; [done| |by apply HN].
      apply Forall_forall. intros x Hx. specialize (Hlt0 b x ltac:(apply elem_of_app; right; left) Hx). lia.
    + intros f [= <-]. apply Forall_forall. intros c Hc. apply HltPD; [done|left].
Qed.

Lemma fork_turn db db' D N since coverage :
  Forall block_wf D -> Forall block_wf N -> since <= readStreamHighWaterMark db indexer stream ->
  appendEmissions db (mkAppend indexer stream coverage (retractions_of D ++ events_of N)) = Some db' ->
  let fork := forkBlockSince db indexer stream since in
  let fork' := forkBlockSince db' indexer stream since in
  (forall n, fork' = Some n -> (fork = Some n \/ n ∈ number <$> D) /\ Forall (fun b => n <= number b) D
     /\ forall f, fork = Some f -> n <= f)
  /\ (fork' = None -> fork = None /\ D = []).
Proof.
  intros HD HN Hle Happ fork fork'. destruct (append_spec db indexer stream coverage (retractions_of D ++ events_of N))
    as (db1 & Happ1 & Hrows & _). rewrite Happ in Happ1. injection Happ1 as <-.
  pose proof (turn_retracts D N HD HN) as Hin.
  unfold fork', fork. rewrite !fork_lowest, Hrows, retracted_stored by done.
  set (before := retracted_since (rows_of db indexer stream) since) in *. set (new := blockNumber <$> _) in *. split.
  - intros n [Hn Hall]%lowest_Some. apply Forall_app in Hall as [Hb Hnew]. split_and!.
    + apply elem_of_app in Hn as [Hn|Hn]; [|right; by apply Hin].
      destruct (lowest before) as [f|] eqn:Hf; [|apply lowest_None in Hf; rewrite Hf in Hn; by apply not_elem_of_nil in Hn].
      left. apply lowest_Some in Hf as [Hf Hmin]. rewrite Forall_forall in Hb, Hmin. f_equal.
      specialize (Hb f Hf). specialize (Hmin n Hn). lia.
    + apply Forall_forall. intros b Hb'. rewrite Forall_forall in Hnew. apply Hnew, Hin. by apply list_elem_of_fmap_2.
    + intros f [Hf _]%lowest_Some. rewrite Forall_forall in Hb. by apply Hb.
  - intros [Hb Hnew]%lowest_None%app_eq_nil. split; [by apply lowest_None|]. destruct D as [|d D]; [done|].
    assert (number d ∈ new) as Hd by (apply Hin; left). rewrite Hnew in Hd. by apply not_elem_of_nil in Hd.
Qed.

(** *** A turn *)
Lemma shows_append db db' P D N coverage :
  shows indexer stream db (P ++ D) -> chain_wf (P ++ N) -> logs_ordered N ->
  appendEmissions db (mkAppend indexer stream coverage (retractions_of D ++ events_of N)) = Some db' ->
  shows indexer stream db' (P ++ N).
Proof.
  intros [Hwf Hlive Hchain Hord] Hchain' HordN Happ.
  destruct (append_spec db indexer stream coverage (retractions_of D ++ events_of N)) as (db1 & Happ1 & Hrows & _).
  rewrite Happ in Happ1. injection Happ1 as <-. pose proof (high_water_bounds db indexer stream) as Hm.
  pose proof (chain_wf_blocks _ Hchain') as HN. apply Forall_app in HN as [_ HN].
  split; [rewrite Hrows; by apply stored_wf| |done|].
  - rewrite Hrows, stored_live, Hlive; [by apply live_turn|done|done|]. apply Forall_forall. by intros row [? _]%list_elem_of_filter.
  - apply Forall_app. split; [by apply Forall_app in Hord as [? _]|done].
Qed.

Lemma filter_below_start H p :
  Forall block_wf H -> logs_ordered H -> Forall (fun b => at_blockNumber p <= number b) H -> at_logIndex p = -1 ->
  filter (before_eq p) (entries_of H) = [].
Proof.
  intros HH Hord Hge Hlog. apply filter_Forall_nil, Forall_forall. intros c Hc.
  destruct (entries_of_block H c HH Hc) as (b & Hb & Hn & _ & (e & -> & He)%list_elem_of_fmap).
  rewrite Forall_forall in Hge. specialize (Hge b Hb). unfold logs_ordered in Hord. rewrite Forall_forall in Hord.
  destruct (Hord b Hb) as [_ Hpos]. rewrite Forall_forall in Hpos. specialize (Hpos e He). unfold before_eq. simpl in *. lia.
Qed.

Lemma held_append db db' P D N coverage seen cursor :
  shows indexer stream db (P ++ D) -> held db (P ++ D) seen cursor ->
  appendEmissions db (mkAppend indexer stream coverage (retractions_of D ++ events_of N)) = Some db' ->
  chain_wf (P ++ N) -> logs_ordered N -> undisturbed db' cursor D N ->
  held db' (P ++ N) seen cursor.
Proof.
  intros [_ _ Hchain Hord] Hheld Happ Hchain' HordN Hun. destruct cursor as [c|]; [|done].
  destruct Hheld as [Hle Hheld].
  assert (readStreamHighWaterMark db indexer stream <= readStreamHighWaterMark db' indexer stream) as Hgrow.
  { destruct (append_spec db indexer stream coverage (retractions_of D ++ events_of N)) as (db1 & Happ1 & Hrows & _).
    rewrite Happ in Happ1. injection Happ1 as <-. by eapply high_water_grows. }
  split; [lia|]. cbn [undisturbed] in Hun. pose proof (chain_wf_blocks _ Hchain) as HD. apply Forall_app in HD as [_ HD].
  pose proof (chain_wf_blocks _ Hchain') as HN. apply Forall_app in HN as [_ HN].
  destruct (cursor_blockHash c) as [h|].
  - destruct Hheld as (H0 & Hseen & Hat & Hwf0 & Hord0 & Hroot0 & Hsince). exists H0. split_and!; try done.
    destruct (fork_turn db db' D N (cursor_since c) coverage HD HN Hle Happ) as [Hfork Hnone].
    eapply since_mark_turn; [exact Hsince|done|done|exact Hfork|exact Hnone|exact Hun].
  - destruct Hheld as [Hlog ->]. split; [done|]. apply Forall_app in Hun as [HunD HunN], Hord as [_ HordD].
    by rewrite !entries_of_app, !filter_app, (filter_below_start D), (filter_below_start N).
Qed.

(** *** A request *)
Lemma shared_prefix C C' b b' X X' :
  rooted (C ++ b :: X) -> rooted (C' ++ b' :: X') -> hash b = hash b' -> C ++ [b] = C' ++ [b'].
Proof. intros Hr Hr' Heq. rewrite <- (Hr C b X), <- (Hr' C' b' X') by done. by rewrite Heq. Qed.

Lemma entry_split H e :
  Forall block_wf H -> e ∈ entries_of H ->
  exists C b X, H = C ++ b :: X /\ entry_blockNumber e = number b /\ entry_blockHash e = hash b.
Proof.
  intros HH He. destruct (entries_of_block H e HH He) as (b & [C [X ->]]%list_elem_of_split & Hn & Hh & _).
  by exists C, b, X.
Qed.

Lemma above_block C b X p :
  chain_wf (C ++ b :: X) -> at_blockNumber p = number b ->
  filter (before_eq p) (entries_of (C ++ b :: X)) = filter (before_eq p) (entries_of (C ++ [b])).
Proof.
  intros Hwf Hp. replace (C ++ b :: X) with ((C ++ [b]) ++ X) in * by (by rewrite <- app_assoc).
  rewrite entries_of_app, filter_app, (filter_Forall_nil _ (entries_of X)); [by rewrite app_nil_r|].
  destruct Hwf as [Ha _ HX]. apply Forall_app in HX as [_ HX]. apply ascending_app in Ha as (Hlt & _ & _).
  apply Forall_forall. intros e He. destruct (entries_of_block X e HX He) as (x & Hx & Hn & _).
  specialize (Hlt b x ltac:(apply elem_of_app; right; left) Hx). unfold before_eq. lia.
Qed.

Lemma still_canonical db H p h :
  shows indexer stream db H ->
  isStillCanonical db indexer stream p h = true <-> exists e, e ∈ entries_of H /\ position_of e = p /\ entry_blockHash e = h.
Proof.
  intros [_ Hlive _ _]. rewrite <- Hlive. unfold isStillCanonical, live_entries. rewrite bool_decide_eq_true. split.
  - intros Hlen. destruct (filter _ _) as [|row l] eqn:Hf in Hlen; [simpl in Hlen; lia|].
    assert (row ∈ row :: l) as Hrow by left. rewrite <- Hf in Hrow. apply list_elem_of_filter in Hrow as [(Hn & Hi & Hh & Ha) Hin].
    exists (entryOf row). split_and!; [by apply list_elem_of_fmap_2, elem_of_filter_intro| |done].
    destruct p. unfold position_of. simpl in *. by subst.
  - intros (e & (row & -> & [Ha Hin]%list_elem_of_filter)%list_elem_of_fmap & <- & <-).
    assert (row ∈ filter (fun row' => row_blockNumber row' = at_blockNumber (position_of (entryOf row))
      /\ row_logIndex row' = at_logIndex (position_of (entryOf row)) /\ row_blockHash row' = entry_blockHash (entryOf row)
      /\ row_alive row' = true) (rows_of db indexer stream)) as Hf by (by apply elem_of_filter_intro).
    destruct (filter _ _); [by apply not_elem_of_nil in Hf|]. simpl. lia.
Qed.

(** The chain a validated cursor stands on is the one its consumer was served from. *)
Lemma validated db H H0 p h :
  shows indexer stream db H -> rooted H -> chain_wf H0 -> rooted H0 ->
  (exists e, e ∈ entries_of H0 /\ position_of e = p /\ entry_blockHash e = h) ->
  isStillCanonical db indexer stream p h = true ->
  filter (before_eq p) (entries_of H0) = filter (before_eq p) (entries_of H).
Proof.
  intros Hsh Hroot Hwf0 Hroot0 (e0 & He0 & Hp0 & Hh0) (e & He & Hp & Hh)%(still_canonical db H p h Hsh).
  destruct (entry_split H0 e0 (chain_wf_blocks _ Hwf0) He0) as (C0 & b0 & X0 & -> & Hn0 & Hb0).
  destruct (entry_split H e (chain_wf_blocks _ (shows_chain _ _ _ _ Hsh)) He) as (C & b & X & -> & Hn & Hb).
  rewrite (above_block C0 b0), (above_block C b); [|apply (shows_chain _ _ _ _ Hsh)|by rewrite <- Hp|done|by rewrite <- Hp0].
  f_equal. f_equal. eapply shared_prefix; [exact Hroot0|exact Hroot|congruence].
Qed.

(** What an answer is to a consumer: it keeps holding what the chain has up to where it
    is, and a last page leaves out nothing the gate lets through. *)
Definition answer_ok (db : EmissionDb) (H : list EventBlock) (gate : Z) (limit : nat) (seen : list CanonicalEntry)
    (answer : CanonicalAnswer) : Prop :=
  match answer with
  | Page entries c more =>
      seen ++ entries = filter (before_eq (cursor_position c)) (entries_of H)
      /\ (more = true -> length entries = limit)
      /\ (more = false -> forall e, e ∈ entries_of H -> entry_blockNumber e <= gate -> e ∈ seen ++ entries)
  | RewindRequired f c =>
      cursor_position c = mkPosition f (-1) /\ cursor_blockHash c = None
      /\ filter (fun e => entry_blockNumber e < f) seen = filter (fun e => entry_blockNumber e < f) (entries_of H)
  end.

(** The block a cursor names is on the chain. *)
Definition stands (H : list EventBlock) (p : CanonicalPosition) (blockHash : option string) : Prop :=
  match blockHash with
  | Some h => exists e, e ∈ entries_of H /\ position_of e = p /\ entry_blockHash e = h
  | None => at_logIndex p = -1
  end.

(** A consumer that is where the chain is. *)
Definition settled (db : EmissionDb) (H : list EventBlock) (answered : list CanonicalEntry * CanonicalCursor) : Prop :=
  let '(seen, c) := answered in
  seen = filter (before_eq (cursor_position c)) (entries_of H)
  /\ stands H (cursor_position c) (cursor_blockHash c)
  /\ cursor_since c = readStreamHighWaterMark db indexer stream.

Lemma settled_held db H seen c :
  shows indexer stream db H -> rooted H -> settled db H (seen, c) -> held db H seen (Some c).
Proof.
  intros Hsh Hroot (-> & Hst & Hmark). split; [lia|]. unfold stands in Hst. destruct (cursor_blockHash c) as [h|]; [|done].
  exists H. split_and!; try done; try apply Hsh. rewrite Hmark.
  apply since_mark_intro with (C := H) (X := []) (Y := []); try (by rewrite app_nil_r); [by left|].
  by rewrite nothing_retracted_since_mark.
Qed.

Lemma page_answered db H gate limit after seenBlockHash :
  shows indexer stream db H -> stands H after seenBlockHash ->
  let seen := filter (before_eq after) (entries_of H) in
  exists entries c more,
    servePage db indexer stream gate limit (readStreamHighWaterMark db indexer stream) after seenBlockHash = Page entries c more
    /\ answer_ok db H gate limit seen (Page entries c more)
    /\ settled db H (seen ++ entries, c).
Proof.
  intros Hsh Hat seen. destruct (canonical_page indexer stream db H gate after limit Hsh) as (Hentries & Hlast & Hmore).
  unfold servePage. rewrite Hentries, Hlast, Hmore.
  pose proof (page_continues (entries_of H) after gate limit (entries_sorted H (shows_chain _ _ _ _ Hsh) (shows_ordered _ _ _ _ Hsh))) as Hcont.
  cbv zeta in Hcont. set (wanted := filter (fun c => entry_blockNumber c <= gate /\ ~ before_eq after c) (entries_of H)) in *.
  do 3 eexists. split; [done|]. cbn [answer_ok settled cursor_position cursor_since cursor_blockHash].
  assert (match ((fun c => (position_of c, entry_blockHash c)) <$> last (take limit wanted)) with Some (p, _) => p | None => after end
    = match last (take limit wanted) with Some c => position_of c | None => after end) as -> by (by destruct (last _)).
  split_and!; [exact Hcont|..|exact Hcont| |done].
  - intros Hlt%bool_decide_eq_true. rewrite length_take. lia.
  - intros Hge%bool_decide_eq_false e He Hgate. rewrite take_ge by lia. rewrite elem_of_app.
    destruct (decide (before_eq after e)); [left|right]; by apply elem_of_filter_intro.
  - destruct (last (take limit wanted)) as [c|] eqn:Hc; simpl; [|done]. exists c. split; [|done].
    apply last_Some in Hc as [l Hl]. assert (c ∈ take limit wanted) as Hc by (rewrite Hl; apply elem_of_app; right; left).
    apply elem_of_take in Hc as (i & Hi & _). apply list_elem_of_lookup_2 in Hi. by apply list_elem_of_filter in Hi as [_ ?].
Qed.

Lemma rewind_answered db H seen p h H0 since gate limit :
  shows indexer stream db H ->
  seen = filter (before_eq p) (entries_of H0) ->
  (exists e, e ∈ entries_of H0 /\ position_of e = p /\ entry_blockHash e = h) ->
  chain_wf H0 -> since_mark (forkBlockSince db indexer stream since) H0 H ->
  isStillCanonical db indexer stream p h = false ->
  let answer := rewind (default (at_blockNumber p) (forkBlockSince db indexer stream since)) (readStreamHighWaterMark db indexer stream) in
  answer_ok db H gate limit seen answer /\ settled db H (consume seen answer).
Proof.
  intros Hsh -> (e & He & <- & <-) Hwf0 [C X Y -> -> Hrest HC] Hnot.
  assert (e ∉ entries_of C) as Hno.
  { intros Hin. apply not_true_iff_false in Hnot. apply Hnot, (still_canonical db (C ++ Y)); [done|].
    exists e. by rewrite entries_of_app, elem_of_app; auto. }
  rewrite entries_of_app in He. apply elem_of_app in He as [He|He]; [done|].
  pose proof (chain_wf_blocks _ Hwf0) as HX. apply Forall_app in HX as [HCb HX].
  pose proof (chain_wf_blocks _ (shows_chain _ _ _ _ Hsh)) as HY. apply Forall_app in HY as [_ HY].
  destruct Hrest as [->|(f & Hf & Hall)]; [by apply not_elem_of_nil in He|]. rewrite Hf. specialize (HC f Hf).
  apply Forall_app in Hall as [HfX HfY].
  assert (forall Z0, Forall block_wf Z0 -> Forall (fun b => f <= number b) Z0 -> Forall (fun c => ~ entry_blockNumber c < f) (entries_of Z0)) as Habove.
  { intros Z0 HZ Hge. apply Forall_forall. intros c Hc. destruct (entries_of_block Z0 c HZ Hc) as (b & Hb & Hn & _).
    rewrite Forall_forall in Hge. specialize (Hge b Hb). lia. }
  assert (Forall (fun c => entry_blockNumber c < f) (entries_of C)) as Hbelow.
  { apply Forall_forall. intros c Hc. destruct (entries_of_block C c HCb Hc) as (b & Hb & Hn & _).
    rewrite Forall_forall in HC. specialize (HC b Hb). lia. }
  pose proof (Habove X HX HfX) as HX'. rewrite Forall_forall in HX'. pose proof (HX' e He) as Hef. apply Forall_forall in HX'.
  assert (filter (fun c => entry_blockNumber c < f) (filter (before_eq (position_of e)) (entries_of (C ++ X))) = entries_of C) as Hseen.
  { rewrite entries_of_app, !filter_app, (filter_Forall_id (before_eq _) (entries_of C)), (filter_Forall_id _ (entries_of C)); [|done|].
    - rewrite (filter_Forall_nil _ (filter _ (entries_of X))); [apply app_nil_r|]. by eapply Forall_sublist; [apply sublist_filter|].
    - eapply Forall_impl; [exact Hbelow|]. intros c Hc. unfold before_eq. simpl in *. lia. }
  cbn [rewind default id consume answer_ok cursor_position cursor_since cursor_blockHash settled]. rewrite Hseen. split; [split_and!; try done|split; [|done]].
  - by rewrite entries_of_app, filter_app, (filter_Forall_id _ (entries_of C)), (filter_Forall_nil _ (entries_of Y)), app_nil_r by auto.
  - rewrite entries_of_app, filter_app, (filter_below_start Y); try done.
    + rewrite app_nil_r. symmetry. apply filter_Forall_id. eapply Forall_impl; [exact Hbelow|]. intros c Hc. left. simpl in *. lia.
    + pose proof (shows_ordered _ _ _ _ Hsh) as Hord. by apply Forall_app in Hord as [_ ?].
Qed.

(** A request answers with a page exactly when the cursor's block is still canonical, or
    it names none. *)
Lemma request_answered db H gate limit seen cursor :
  shows indexer stream db H -> rooted H -> held db H seen cursor ->
  let answer := canonicalRequest db indexer stream gate limit cursor in
  answer_ok db H gate limit seen answer /\ settled db H (consume seen answer).
Proof.
  intros Hsh Hroot Hheld answer.
  assert (forall after seenBlockHash, seen = filter (before_eq after) (entries_of H) -> stands H after seenBlockHash ->
    let page := servePage db indexer stream gate limit (readStreamHighWaterMark db indexer stream) after seenBlockHash in
    answer_ok db H gate limit seen page /\ settled db H (consume seen page)) as Hpage.
  { intros after seenBlockHash -> Hst. destruct (page_answered db H gate limit after seenBlockHash Hsh Hst)
      as (entries & c & more & -> & Hok & Hset). done. }
  unfold answer, canonicalRequest. destruct cursor as [c|]; simpl in Hheld.
  - destruct Hheld as [_ Hheld]. destruct (cursor_blockHash c) as [h|].
    + destruct Hheld as (H0 & Hseen & Hat & Hwf0 & _ & Hroot0 & Hsince).
      destruct (isStillCanonical db indexer stream (cursor_position c) h) eqn:Hstill.
      * apply Hpage; [|by apply (still_canonical db H) in Hstill]. rewrite Hseen. by eapply validated.
      * by eapply rewind_answered.
    + destruct Hheld as [Hlog Hseen]. by apply Hpage.
  - subst seen. apply Hpage; [|done]. symmetry. apply filter_below_start; [apply Hsh|apply Hsh| |done].
    eapply Forall_impl; [apply (chain_wf_blocks _ (shows_chain _ _ _ _ Hsh))|]. intros b Hb. by apply block_wf_number.
Qed.

Lemma consuming_held db H seen cursor :
  consuming db H seen cursor -> shows indexer stream db H /\ rooted H /\ held db H seen cursor.
Proof.
  induction 1 as [|db db' P D N coverage seen cursor Hrun (Hsh & _ & Hheld) Happ Hchain HordN Hroot Hun
    |db db' H indexer' stream' coverage emissions seen cursor Hrun (Hsh & Hroot & Hheld) Hne Happ
    |db H seen cursor gate limit seen' cursor' Hrun (Hsh & Hroot & Hheld) Hask].
  - split; [|split; [|done]].
    + split; [by split; constructor|done|apply chain_wf_nil|constructor].
    + intros C b X HX. by destruct C.
  - split_and!; [by eapply shows_append|done|by eapply held_append].
  - destruct (append_spec db indexer' stream' coverage emissions) as (db1 & Happ1 & _ & _ & Hother).
    rewrite Happ in Happ1. injection Happ1 as <-. destruct (Hother indexer stream) as [Hrows _]; [congruence|].
    split_and!; [destruct Hsh; by split; rewrite ?Hrows|done|].
    unfold held, readStreamHighWaterMark, forkBlockSince in *. by rewrite Hrows.
  - split_and!; [done|done|].
    destruct (request_answered db H gate limit seen cursor Hsh Hroot Hheld) as [_ Hset]. rewrite Hask in Hset. by apply settled_held.
Qed.

(** *** Catching up *)
Fixpoint asks (db : EmissionDb) (gate : Z) (limit n : nat) (seen : list CanonicalEntry) (cursor : option CanonicalCursor)
    : list CanonicalEntry :=
  match n with
  | O => seen
  | S n' =>
      let '(seen', cursor') := consume seen (canonicalRequest db indexer stream gate limit cursor) in
      asks db gate limit n' seen' (Some cursor')
  end.

Lemma pages_catch_up db H gate limit c :
  shows indexer stream db H -> stands H (cursor_position c) (cursor_blockHash c) ->
  Forall (fun b => number b <= gate) H -> (0 < limit)%nat ->
  let seen := filter (before_eq (cursor_position c)) (entries_of H) in
  exists n, (n <= length (entries_of H) - length seen + 1)%nat /\ asks db gate limit n seen (Some c) = entries_of H.
Proof.
  intros Hsh Hst Hgate Hlim. remember (length (entries_of H) - length (filter (before_eq (cursor_position c)) (entries_of H)))%nat as k eqn:Hk.
  revert c Hst Hk. induction (lt_wf k) as [k _ IH]. intros c Hst Hk seen.
  destruct (page_answered db H gate limit (cursor_position c) (cursor_blockHash c) Hsh Hst) as (entries & c' & more & Hpage & (Heq & Hmore & Hall) & (_ & Hst' & _)).
  fold seen in Heq, Hall.
  assert (canonicalRequest db indexer stream gate limit (Some c) = Page entries c' more) as Hreq.
  { unfold canonicalRequest. destruct (cursor_blockHash c) as [h|]; [|done]. by rewrite (proj2 (still_canonical db H _ _ Hsh) Hst). }
  destruct more.
  - specialize (Hmore eq_refl). assert (length (seen ++ entries) <= length (entries_of H))%nat as Hle by (rewrite Heq; apply length_filter).
    rewrite length_app in Hle. fold seen in Hk.
    destruct (IH (length (entries_of H) - length (filter (before_eq (cursor_position c')) (entries_of H)))%nat) with (c := c') as (n & Hn & Hasks);
      [rewrite <- Heq, length_app; lia|done|done|].
    exists (S n). rewrite <- Heq, length_app in Hn. split; [lia|]. cbn [asks]. rewrite Hreq. cbn [consume]. by rewrite Heq.
  - exists 1%nat. split; [lia|]. cbn [asks]. rewrite Hreq. cbn [consume asks]. rewrite Heq. apply filter_Forall_id, Forall_forall.
    intros e He. specialize (Hall eq_refl e He). rewrite Heq in Hall.
    destruct (entries_of_block H e (chain_wf_blocks _ (shows_chain _ _ _ _ Hsh)) He) as (b & Hb & Hn & _).
    rewrite Forall_forall in Hgate. specialize (Hgate b Hb).
    assert (e ∈ filter (before_eq (cursor_position c')) (entries_of H)) as [? _]%list_elem_of_filter by (apply Hall; lia). done.
Qed.

Lemma consumer_settles db H gate limit seen cursor :
  consuming db H seen cursor -> Forall (fun b => number b <= gate) H -> (0 < limit)%nat ->
  exists n, (n <= length (entries_of H) + 2)%nat /\ asks db gate limit n seen cursor = entries_of H.
Proof.
  intros (Hsh & Hroot & Hheld)%consuming_held Hgate Hlim.
  destruct (request_answered db H gate limit seen cursor Hsh Hroot Hheld) as [_ Hset].
  destruct (consume seen (canonicalRequest db indexer stream gate limit cursor)) as [seen' c] eqn:Hask.
  destruct Hset as (-> & Hst & _). destruct (pages_catch_up db H gate limit c Hsh Hst Hgate Hlim) as (n & Hn & Hasks).
  exists (S n). split; [lia|]. cbn [asks]. by rewrite Hask.
Qed.
End Run.

(** ** The retraction-aware feed

    A consumer of the [seq] order keeps its position; the stream is appended to. *)
Section Feeding.
Context (indexer stream : string).

Inductive feeding : EmissionDb -> list FeedEntry -> Z -> Prop :=
  | feeding_start : feeding emptyDb [] FEED_START_POSITION
  | feeding_append db db' seen position indexer' stream' coverage emissions :
      feeding db seen position ->
      appendEmissions db (mkAppend indexer' stream' coverage emissions) = Some db' ->
      feeding db' seen position
  | feeding_ask db seen position limit :
      feeding db seen position ->
      let page := readStreamFeed db indexer stream position limit in
      feeding db (seen ++ feed_entries page) (feed_position page).

(** The rows up to a position are the ones served. *)
Definition fed (db : EmissionDb) (seen : list FeedEntry) (position : Z) : Prop :=
  rows_wf (rows_of db indexer stream)
  /\ position <= readStreamHighWaterMark db indexer stream
  /\ seen = feedEntryOf <$> filter (fun row => row_seq row <= position) (rows_of db indexer stream).

Lemma ascending_cut (rows : list EmissionRow) (position : Z) :
  ascending row_seq rows ->
  exists A B, rows = A ++ B /\ filter (fun row => row_seq row <= position) rows = A
    /\ filter (fun row => position < row_seq row) rows = B.
Proof.
  induction 1 as [|row rows Hs IH Hrow]; [by exists [], []|]. destruct IH as (A & B & -> & HA & HB).
  rewrite !filter_cons, HA, HB. destruct (decide (row_seq row <= position)) as [Hle|Hgt].
  - exists (row :: A), B. split_and!; [done|done|]. by rewrite decide_False by lia.
  - assert (A = []) as ->.
    { destruct A as [|a A]; [done|]. apply Forall_cons in Hrow as [Ha _].
      assert (a ∈ filter (fun row => row_seq row <= position) ((a :: A) ++ B)) as [? _]%list_elem_of_filter by (rewrite HA; left). lia. }
    exists [], (row :: B). split_and!; [done|done|]. by rewrite decide_True by lia.
Qed.

Lemma feed_page db position limit :
  rows_wf (rows_of db indexer stream) -> position <= readStreamHighWaterMark db indexer stream ->
  let page := readStreamFeed db indexer stream position limit in
  let rows := rows_of db indexer stream in
  (feedEntryOf <$> filter (fun row => row_seq row <= position) rows) ++ feed_entries page
    = feedEntryOf <$> filter (fun row => row_seq row <= feed_position page) rows
  /\ feed_position page <= readStreamHighWaterMark db indexer stream
  /\ (feed_hasMore page = true -> length (feed_entries page) = limit)
  /\ (feed_hasMore page = false -> filter (fun row => row_seq row <= feed_position page) rows = rows).
Proof.
  intros [Ha _] Hpos page rows. fold rows in Ha. unfold page, readStreamFeed. fold rows.
  destruct (ascending_cut rows position Ha) as (A & B & Hrows & HA & HB). rewrite HB.
  pose proof Ha as Ha'. rewrite Hrows in Ha'. apply ascending_app in Ha' as (Hlt & _ & HaB).
  rewrite sort_on_id by (by apply ascending_weaken).
  assert ((if bool_decide (limit < length (take (limit + 1) B))%nat then take limit (take (limit + 1) B) else take (limit + 1) B)
    = take limit B) as ->.
  { rewrite length_take. case_bool_decide; [rewrite take_take; f_equal; lia|]. by rewrite !take_ge by lia. }
  cbn [feed_entries feed_position feed_hasMore]. rewrite HA, <- fmap_app.
  assert (filter (fun row => row_seq row <= match last (take limit B) with Some row => row_seq row | None => position end) rows
    = A ++ take limit B) as Hnext.
  { rewrite Hrows. assert (B = take limit B ++ drop limit B) as Hcut by (by rewrite take_drop).
    destruct (last (take limit B)) as [row|] eqn:Hlast.
    - apply last_Some in Hlast as [T HT]. rewrite Hcut in HaB |- * at 1. apply ascending_app in HaB as (Hcross & HaT & _).
      rewrite HT in Hcross, HaT |- *. apply ascending_app in HaT as (HT' & _ & _).
      assert (row ∈ B) as HrowB by (rewrite Hcut, HT; rewrite !elem_of_app; left; right; left).
      rewrite !filter_app, (filter_Forall_id _ A), (filter_Forall_id _ T), (filter_Forall_nil _ (drop limit B)), app_nil_r.
      + rewrite filter_cons_True, filter_nil by lia. done.
      + apply Forall_forall. intros x Hx. specialize (Hcross row x ltac:(apply elem_of_app; right; left) Hx). lia.
      + apply Forall_forall. intros x Hx. specialize (HT' x row Hx ltac:(left)). lia.
      + apply Forall_forall. intros x Hx. specialize (Hlt x row Hx HrowB). lia.
    - apply last_None in Hlast. rewrite Hlast, app_nil_r, <- Hrows. done. }
  rewrite Hnext. split_and!; [done|..].
  - destruct (last (take limit B)) as [row|] eqn:Hlast; [|done]. apply last_Some in Hlast as [T HT].
    pose proof (high_water_bounds db indexer stream) as Hm. unfold at_most in Hm. rewrite Forall_forall in Hm. apply Hm.
    fold rows. rewrite Hrows, <- (take_drop limit B), HT, !elem_of_app. right. left. right. left.
  - intros Hlim%bool_decide_eq_true. rewrite length_fmap. rewrite length_take in *. lia.
  - intros Hlim%bool_decide_eq_false. rewrite length_take in Hlim. rewrite Hrows. by rewrite take_ge by lia.
Qed.

Lemma feeding_fed db seen position : feeding db seen position -> fed db seen position.
Proof.
  induction 1 as [|db db' seen position indexer' stream' coverage emissions Hf (Hwf & Hpos & Hseen) Happ
    |db seen position limit Hf (Hwf & Hpos & Hseen) page].
  - split_and!; [by split; constructor|done|done].
  - destruct (append_spec db indexer' stream' coverage emissions) as (db1 & Happ1 & Hrows & _ & Hother).
    rewrite Happ in Happ1. injection Happ1 as Happ1. subst db1. destruct (decide ((indexer, stream) = (indexer', stream'))) as [[= <- <-]|Hne].
    + pose proof (high_water_bounds db indexer stream) as Hm. pose proof (high_water_grows db db' indexer stream emissions Hrows) as Hgrow.
      split_and!; [rewrite Hrows; by apply stored_wf|lia|]. rewrite Hseen.
      destruct (stored_rows (fun row => (row_seq row, feedEntryOf row)) indexer stream (rows_of db indexer stream)
        (readStreamHighWaterMark db indexer stream) emissions) as (new & Hnew & Hgt); [done|]. rewrite <- Hrows, <- fmap_app in Hnew.
      assert (forall rows : list EmissionRow, feedEntryOf <$> filter (fun row => row_seq row <= position) rows
        = snd <$> filter (fun r => r.1 <= position) ((fun row => (row_seq row, feedEntryOf row)) <$> rows)) as Hpairs.
      { intros rows. rewrite (filter_pairs (fun row => row_seq row <= position) (fun r => r.1 <= position)) by done.
        by rewrite <- list_fmap_compose. }
      rewrite !Hpairs, Hnew, fmap_app, filter_app, fmap_app, <- !Hpairs, (filter_Forall_nil _ new), app_nil_r; [done|].
      eapply Forall_impl; [exact Hgt|]. simpl. lia.
    + destruct (Hother indexer stream Hne) as [Hr _]. split_and!; rewrite ?Hr; [done| |done].
      unfold readStreamHighWaterMark. rewrite Hr. exact Hpos.
  - destruct (feed_page db position limit Hwf Hpos) as (Heq & Hle & _). split_and!; [done|exact Hle|]. rewrite Hseen. exact Heq.
Qed.
End Feeding.

(** ** What a consumer is promised *)

(** C23. After any run of appends, other tenants' appends and answered requests under which
    [undisturbed] holds, a page continues what the consumer holds to exactly the
    canonical entries up to the new cursor, a last page leaves out nothing the gate lets
    through, and a rewind names a block below which what the consumer holds is exactly
    the canonical entries. *)
Theorem canonical_consumer ancestry indexer stream db H gate limit seen cursor :
  consuming ancestry indexer stream db H seen cursor ->
  match canonicalRequest db indexer stream gate limit cursor with
  | Page entries c more =>
      seen ++ entries = filter (before_eq (cursor_position c)) (entries_of H)
      /\ (more = true -> length entries = limit)
      /\ (more = false -> forall e, e ∈ entries_of H -> entry_blockNumber e <= gate -> e ∈ seen ++ entries)
  | RewindRequired f c =>
      cursor_position c = mkPosition f (-1) /\ cursor_blockHash c = None
      /\ filter (fun e => entry_blockNumber e < f) seen = filter (fun e => entry_blockNumber e < f) (entries_of H)
  end.
Proof.
  intros (Hsh & Hroot & Hheld)%consuming_held.
  by destruct (request_answered ancestry indexer stream db H gate limit seen cursor Hsh Hroot Hheld) as [? _].
Qed.

(** C24. From any state a run of undisturbed turns leads to ([consuming]: what a turn takes back or
    adds lies at or above the fork the outstanding cursor can see), a consumer that keeps
    asking while the stream stands still, a positive number of entries at a time and under
    a gate that covers the chain, holds exactly the canonical entries after at most one
    request per entry and two more.  Without that a rewind may skip a block
    ([rewind_skips_lower_block]). *)
Theorem consumer_catches_up ancestry indexer stream db H gate limit seen cursor :
  consuming ancestry indexer stream db H seen cursor -> Forall (fun b => number b <= gate) H -> (0 < limit)%nat ->
  exists n, (n <= length (entries_of H) + 2)%nat /\ asks indexer stream db gate limit n seen cursor = entries_of H.
Proof. apply consumer_settles. Qed.

(** *** A run with a rewind: two blocks served, the second replaced under the cursor. *)
Definition family (h : string) : list EventBlock :=
  if bool_decide (h = "a1") then [sample_block 1 "a1"]
  else if bool_decide (h = "a2") then [sample_block 1 "a1"; sample_block 2 "a2"]
  else [sample_block 1 "a1"; sample_block 2 "b2"].

Definition run_before : EmissionDb := append_turn emptyDb 2 [] [sample_block 1 "a1"; sample_block 2 "a2"].
Definition run_after : EmissionDb := append_turn run_before 2 [sample_block 2 "a2"] [sample_block 2 "b2"].
Definition run_held : list CanonicalEntry * option CanonicalCursor := ask run_before ([], None).

Lemma sample_rooted b2 :
  family b2 = [sample_block 1 "a1"; sample_block 2 b2] -> rooted family [sample_block 1 "a1"; sample_block 2 b2].
Proof.
  intros Hb C b X HX. destruct C as [|c [|c' C]]; simplify_eq/=; [done|done|]. by destruct C.
Qed.

Lemma run_consumes : consuming family "main" "stream1" run_after [sample_block 1 "a1"; sample_block 2 "b2"] run_held.1 run_held.2.
Proof.
  apply (consuming_append family "main" "stream1" run_before run_after [sample_block 1 "a1"] [sample_block 2 "a2"]
    [sample_block 2 "b2"] (claim_to 2 2)).
  - apply (consuming_ask family "main" "stream1" run_before _ [] None 100 10); [|by vm_compute].
    apply (consuming_append family "main" "stream1" emptyDb run_before [] [] [sample_block 1 "a1"; sample_block 2 "a2"] (claim_to 2 2));
      [constructor|by vm_compute|evaluate| |by apply sample_rooted|done].
    by repeat constructor.
  - by vm_compute.
  - evaluate.
  - by repeat constructor.
  - by apply sample_rooted.
  - intros f Hf. vm_compute in Hf. injection Hf as <-. by repeat constructor.
Qed.

Lemma canonical_consumer_witness :
  match canonicalRequest run_after "main" "stream1" 100 10 run_held.2 with
  | RewindRequired f c => f = 2 /\ filter (fun e => entry_blockNumber e < 2) run_held.1 = entries_of [sample_block 1 "a1"]
  | Page _ _ _ => False
  end.
Proof.
  pose proof (canonical_consumer family "main" "stream1" run_after [sample_block 1 "a1"; sample_block 2 "b2"] 100 10
    run_held.1 run_held.2 run_consumes) as Hok.
  destruct (canonicalRequest run_after "main" "stream1" 100 10 run_held.2) as [entries c more|f c] eqn:Hreq; [by vm_compute in Hreq|].
  assert (f = 2) as ->. { vm_compute in Hreq. by injection Hreq as <-. }
  destruct Hok as (_ & _ & ->). split; [done|]. by vm_compute.
Defined.

Lemma consumer_catches_up_witness :
  exists n, (n <= 4)%nat /\ asks "main" "stream1" run_after 100 10 n run_held.1 run_held.2
    = entries_of [sample_block 1 "a1"; sample_block 2 "b2"].
Proof.
  apply (consumer_catches_up family "main" "stream1" run_after [sample_block 1 "a1"; sample_block 2 "b2"] 100 10 run_held.1 run_held.2 run_consumes);
    [repeat constructor; simpl; lia|lia].
Defined.

(** A consumer of the retraction-aware feed is served every stored row once, in order,
    however appends to this stream and others fall between its requests: what it holds
    is the stream up to its position, and a page that says nothing is left ends it. *)
Theorem feed_follows indexer stream db seen position limit :
  feeding indexer stream db seen position ->
  let page := readStreamFeed db indexer stream position limit in
  let rows := rows_of db indexer stream in
  seen ++ feed_entries page = feedEntryOf <$> filter (fun row => row_seq row <= feed_position page) rows
  /\ (feed_hasMore page = true -> length (feed_entries page) = limit)
  /\ (feed_hasMore page = false -> seen ++ feed_entries page = feedEntryOf <$> rows).
Proof.
  intros (Hwf & Hpos & ->)%feeding_fed page rows.
  destruct (feed_page indexer stream db position limit Hwf Hpos) as (Heq & _ & Hmore & Hlast). fold page rows in Heq, Hlast.
  split_and!; [exact Heq|done|]. intros Hnone. etrans; [exact Heq|]. by rewrite Hlast.
Qed.

Lemma feed_follows_witness :
  let page := readStreamFeed run_after "main" "stream1" 2 10 in
  feed_removed <$> feed_entries page = [true; false].
Proof.
  intros page.
  assert (feeding "main" "stream1" run_after (feed_entries (readStreamFeed run_before "main" "stream1" 0 10)) 2) as Hf.
  { apply (feeding_append "main" "stream1" run_before run_after _ _ "main" "stream1" (claim_to 2 2)
      (retractions_of [sample_block 2 "a2"] ++ events_of [sample_block 2 "b2"])); [|by vm_compute].
    apply (feeding_ask "main" "stream1" run_before [] 0 10).
    apply (feeding_append "main" "stream1" emptyDb run_before [] 0 "main" "stream1" (claim_to 2 2)
      (events_of [sample_block 1 "a1"; sample_block 2 "a2"])); [constructor|by vm_compute]. }
  destruct (feed_follows "main" "stream1" run_after _ 2 10 Hf) as (_ & _ & Hall).
  assert (feed_hasMore page = false) as Hnone by reflexivity. specialize (Hall Hnone).
  apply (f_equal (fun l => feed_removed <$> drop 2 l)) in Hall. exact Hall.
Defined.
