(* ===== verification/Compaction.v ===== *)
(** * Pair-compaction

    [packages/server/src/compaction.ts] over the stored stream: the setting and its
    floor, the scan, the pairing of dead entries with their retractions, and the
    deletion; then what a sweep removes and what it leaves. *)
From S2P Require Import Prelude JsMap Types Stream Reorg Replay EntityProcessor StreamBuilder Emissions Feed Consumer.

(** ** The setting *)
Inductive PairCompactionSetting : Type :=
  | CompactOff
  | CompactBlocks (blocks : Z)
  | MalformedCompaction.

Inductive PairCompaction : Type :=
  | NoCompaction
  | CompactionWindow (blocks : Z).

Inductive CompactionError : Type :=
  | InvalidDepth
  | NoFinality
  | InvalidFinality
  | BelowFinality (blocks finality : Z)
  | InvalidLatestBlock
  | InvalidBudget.

Definition COMPACTION_OFF : PairCompaction := NoCompaction.
Definition DEFAULT_MAX_PAIRS : nat := 490.
Definition PAIRS_PER_STATEMENT : nat := 49.

Definition resolvePairCompaction (setting : option PairCompactionSetting) (finality : option Z)
    : result CompactionError PairCompaction :=
  match setting with
  | None | Some CompactOff => Ok COMPACTION_OFF
  | Some MalformedCompaction => Err InvalidDepth
  | Some (CompactBlocks blocks) =>
      if decide (blocks < 0) then Err InvalidDepth
      else
        match finality with
        | None => Err NoFinality
        | Some finality =>
            if decide (finality < 0) then Err InvalidFinality
            else if decide (blocks < finality) then Err (BelowFinality blocks finality)
            else Ok (CompactionWindow blocks)
        end
  end.

Definition budgetOf (maxPairs : option Z) : result CompactionError nat :=
  match maxPairs with
  | None => Ok DEFAULT_MAX_PAIRS
  | Some maxPairs => if decide (maxPairs < 1) then Err InvalidBudget else Ok (Z.to_nat maxPairs)
  end.

(** ** Pairing *)
Record Pair : Type := mkPair { pair_dead : Z; pair_retraction : Z }.

Definition groupKey (row : EmissionRow) : string :=
  pretty (row_blockNumber row) +:+ ":" +:+ pretty (row_logIndex row) +:+ ":" +:+ row_blockHash row.

Record PairWalk : Type := mkWalk {
  walk_pairs : list Pair;
  walk_group : option string;
  walk_dead : list Z;
  walk_retractions : list Z
}.

(** [close]: pair the k-th dead entry with the k-th retraction, up to the budget. *)
Definition close (maxPairs : nat) (walk : PairWalk) : list Pair :=
  walk_pairs walk
  ++ take (maxPairs - length (walk_pairs walk)) (zip_with mkPair (walk_dead walk) (walk_retractions walk)).

Definition pairStep (maxPairs : nat) (walk : PairWalk) (row : EmissionRow) : PairWalk :=
  let walk :=
    if decide (Some (groupKey row) <> walk_group walk)
    then mkWalk (close maxPairs walk) (Some (groupKey row)) [] []
    else walk in
  if row_removed row
  then mkWalk (walk_pairs walk) (walk_group walk) (walk_dead walk) (walk_retractions walk ++ [row_seq row])
  else mkWalk (walk_pairs walk) (walk_group walk) (walk_dead walk ++ [row_seq row]) (walk_retractions walk).

Definition pairsIn (rows : list EmissionRow) (maxPairs : nat) : list Pair :=
  close maxPairs (foldl (pairStep maxPairs) (mkWalk [] None [] []) rows).

(** ** Deleting *)
Definition seqs_of (pairs : list Pair) : list Z := pairs ≫= fun pair => [pair_dead pair; pair_retraction pair].

(** The loop in steps of [PAIRS_PER_STATEMENT], by fuel: every step consumes a pair. *)
Fixpoint deletionChunks (indexer stream : string) (fuel : nat) (pairs : list Pair) : list Statement :=
  match fuel with
  | O => []
  | S fuel =>
      match pairs with
      | [] => []
      | _ => DeleteSeqs indexer stream (seqs_of (take PAIRS_PER_STATEMENT pairs))
               :: deletionChunks indexer stream fuel (drop PAIRS_PER_STATEMENT pairs)
      end
  end.

Definition deletionsOf (indexer stream : string) (pairs : list Pair) : list Statement :=
  deletionChunks indexer stream (length pairs) pairs.

(** [ORDER BY blockNumber, logIndex, blockHash, seq]; text collates by its bytes. *)
Definition groupOrder : EmissionRow -> EmissionRow -> Z :=
  lex (on row_blockNumber) (lex (on row_logIndex) (fun a b => textOrder (row_blockHash a) (row_blockHash b))).

Definition scanOrder : EmissionRow -> EmissionRow -> Z := lex groupOrder (on row_seq).

Record PairCompactionQuery : Type := mkCompactionQuery {
  query_indexer : string;
  query_stream : string;
  query_compaction : option PairCompactionSetting;
  query_finality : Z;
  query_latestBlock : Z;
  query_maxPairs : option Z
}.

Record PairCompactionReport : Type := mkReport {
  report_floor : option Z;
  report_pairsCompacted : nat;
  report_rowsDeleted : nat;
  report_scanned : nat;
  report_complete : bool
}.

(** The candidate rows, before [LIMIT]. *)
Definition candidatesBelow (floor : Z) (rows : list EmissionRow) : list EmissionRow :=
  filter (fun row => row_alive row = false /\ row_blockNumber row < floor) rows.

Definition compactionFloor (latestBlock blocks : Z) : Z := Z.max 0 (latestBlock - blocks).

Definition compactEmissionPairs (db : EmissionDb) (query : PairCompactionQuery)
    : result CompactionError (option (EmissionDb * PairCompactionReport)) :=
  compaction ← resolvePairCompaction (query_compaction query) (Some (query_finality query));
  match compaction with
  | NoCompaction => Ok (Some (db, mkReport None 0 0 0 true))
  | CompactionWindow blocks =>
      if decide (query_latestBlock query < 0) then Err InvalidLatestBlock
      else
        maxPairs ← budgetOf (query_maxPairs query);
        let floor := compactionFloor (query_latestBlock query) blocks in
        let scanLimit := (maxPairs * 2)%nat in
        let candidates := take scanLimit (sort_by scanOrder
          (candidatesBelow floor (rows_of db (query_indexer query) (query_stream query)))) in
        let pairs := pairsIn candidates maxPairs in
        let report := mkReport (Some floor) (length pairs) (length pairs * 2) (length candidates)
          (bool_decide (length candidates < scanLimit)%nat) in
        let written := if decide (0 < length pairs)%nat
          then batch db (deletionsOf (query_indexer query) (query_stream query) pairs)
          else Some db in
        Ok ((fun db' => (db', report)) <$> written)
  end.

(** ** What the deletion removes *)
Definition without (indexer stream : string) (seqs : list Z) (db : EmissionDb) : EmissionDb :=
  mkDb (filter (fun row => ~ (of_stream indexer stream row /\ row_seq row ∈ seqs)) (emissions_table db)) (coverage_table db).

Lemma seqs_of_app l k : seqs_of (l ++ k) = seqs_of l ++ seqs_of k.
Proof. apply bind_app. Qed.

Lemma deletion_run indexer stream db pairs :
  batch db (deletionsOf indexer stream pairs) = Some (without indexer stream (seqs_of pairs) db).
Proof.
  unfold batch, deletionsOf. assert (forall fuel pairs db, (length pairs <= fuel)%nat ->
    runStatements db (deletionChunks indexer stream fuel pairs) = Some (without indexer stream (seqs_of pairs) db)) as Hrun.
  2:{ by apply Hrun. }
  clear. induction fuel as [|fuel IH]; intros pairs db Hlen.
  - destruct pairs; [|simpl in Hlen; lia]. cbn. destruct db as [t c]. unfold without. cbn. do 2 f_equal. symmetry.
    apply filter_Forall_id, Forall_forall. intros row _ [_ Hin]. by apply not_elem_of_nil in Hin.
  - destruct pairs as [|p rest]; [destruct db as [t c]; cbn; unfold without; cbn; do 2 f_equal; symmetry;
      apply filter_Forall_id, Forall_forall; intros row _ [_ Hin]; by apply not_elem_of_nil in Hin|].
    cbn [deletionChunks]. set (pairs := p :: rest) in *. cbn [runStatements runStatement mbind option_bind].
    rewrite IH by (rewrite length_drop; unfold PAIRS_PER_STATEMENT; simpl in *; lia).
    unfold without. cbn [emissions_table coverage_table]. do 2 f_equal. rewrite list_filter_filter. apply filter_ext_in. intros row _.
    rewrite <- (take_drop PAIRS_PER_STATEMENT pairs) at 3. rewrite seqs_of_app, elem_of_app. tauto.
Qed.

Lemma without_rows indexer stream seqs db indexer' stream' :
  rows_of (without indexer stream seqs db) indexer' stream'
  = if decide ((indexer', stream') = (indexer, stream))
    then filter (fun row => row_seq row ∉ seqs) (rows_of db indexer stream) else rows_of db indexer' stream'.
Proof.
  unfold rows_of, without. cbn [emissions_table]. rewrite list_filter_filter. case_decide as Heq.
  - injection Heq as -> ->. rewrite list_filter_filter. apply filter_ext_in. intros row _. tauto.
  - apply filter_ext_in. intros row _. unfold of_stream. split; [tauto|]. intros [H1 H2]. split; [done|]. intros [[H3 H4] _]. congruence.
Qed.

(** ** The pairing of a page made of pairs *)
Definition flat (pairs : list (EmissionRow * EmissionRow)) : list EmissionRow := pairs ≫= fun p => [p.1; p.2].

(** A dead entry and the retraction of it. *)
Definition matched (p : EmissionRow * EmissionRow) : Prop :=
  groupOrder p.1 p.2 = 0 /\ row_removed p.1 = false /\ row_removed p.2 = true
  /\ row_alive p.1 = false /\ row_alive p.2 = false.

Definition pair_of (p : EmissionRow * EmissionRow) : Pair := mkPair (row_seq p.1) (row_seq p.2).

Lemma seqs_of_pairs ps : seqs_of (pair_of <$> ps) = row_seq <$> flat ps.
Proof. induction ps as [|p ps IH]; [done|]. csimpl. unfold seqs_of, flat in *. csimpl. by rewrite <- IH. Qed.

Lemma take_flat m ps : take (m * 2) (flat ps) = flat (take m ps).
Proof.
  revert ps. induction m as [|m IH]; intros ps; [done|]. destruct ps as [|p ps]; [done|].
  cbn [Nat.mul Nat.add]. unfold flat. csimpl. do 2 f_equal. apply IH.
Qed.

Lemma length_flat ps : length (flat ps) = (length ps * 2)%nat.
Proof. induction ps as [|p ps IH]; [done|]. unfold flat in *. csimpl. lia. Qed.

Lemma groupOrder_eq a b :
  groupOrder a b = 0 <-> row_blockNumber a = row_blockNumber b /\ row_logIndex a = row_logIndex b /\ row_blockHash a = row_blockHash b.
Proof.
  unfold groupOrder, lex, on. split.
  - intros Ho. repeat case_decide; try lia. split_and!; [lia..|by apply textOrder_eq].
  - intros (-> & -> & ->). rewrite !Z.sub_diag. cbn. by rewrite textOrder_refl.
Qed.

(** Rows of one group have the key the walk compares. *)
Lemma groupKey_eq a b : groupOrder a b = 0 -> groupKey a = groupKey b.
Proof. intros (H1 & H2 & H3)%groupOrder_eq. unfold groupKey. by rewrite H1, H2, H3. Qed.

Lemma pairsIn_flat ps maxPairs :
  Forall matched ps -> (length ps <= maxPairs)%nat -> pairsIn (flat ps) maxPairs = pair_of <$> ps.
Proof.
  intros Hps Hlen. unfold pairsIn.
  assert (forall walk, length (walk_dead walk) = length (walk_retractions walk) ->
    (length (walk_pairs walk) + length (walk_dead walk) + length ps <= maxPairs)%nat ->
    close maxPairs (foldl (pairStep maxPairs) walk (flat ps)) = close maxPairs walk ++ (pair_of <$> ps)) as Hwalk.
  2:{ rewrite Hwalk by (simpl; lia). unfold close. simpl. by rewrite take_nil. }
  clear Hlen. induction Hps as [|[a r] ps (Hkey & Ha & Hr & _) Hps IH]; intros walk Heq Hle; [by rewrite app_nil_r|].
  unfold flat. cbn [mbind list_bind app foldl fst snd] in *. fold (flat ps).
  assert (forall walk, length (walk_dead walk) = length (walk_retractions walk) ->
    (length (walk_pairs walk) + length (walk_dead walk) <= maxPairs)%nat ->
    close maxPairs walk = walk_pairs walk ++ zip_with mkPair (walk_dead walk) (walk_retractions walk)) as Hclose.
  { intros w Hw Hwle. unfold close. f_equal. apply take_ge. rewrite length_zip_with. lia. }
  assert (exists w, pairStep maxPairs walk a = w /\ walk_group w = Some (groupKey a)
    /\ length (walk_dead w) = S (length (walk_retractions w))
    /\ (length (walk_pairs w) + length (walk_dead w) + length ps <= maxPairs)%nat
    /\ exists dead, walk_dead w = dead ++ [row_seq a] /\ length dead = length (walk_retractions w)
       /\ walk_pairs w ++ zip_with mkPair dead (walk_retractions w) = close maxPairs walk) as (w & -> & Hg & Hd & Hwle & dead & Hdead & Hdl & Hw).
  { eexists. split; [done|]. unfold pairStep. rewrite Ha. simpl in Hle. case_decide as Hgrp; cbn [walk_pairs walk_group walk_dead walk_retractions].
    - split; [done|]. split; [done|]. rewrite Hclose by (simpl; lia). rewrite length_app, length_zip_with. split; [simpl; lia|].
      exists []. split; [done|]. split; [done|]. by rewrite app_nil_r.
    - rewrite length_app. simpl. split; [done|]. split; [lia|]. split; [lia|].
      exists (walk_dead walk). rewrite Hclose by lia. done. }
  unfold pairStep at 2. rewrite Hr. cbv zeta. rewrite decide_False.
  2:{ rewrite Hg, (groupKey_eq _ _ Hkey). tauto. }
  rewrite IH; cbn [walk_pairs walk_group walk_dead walk_retractions]; [|rewrite length_app; simpl; lia|lia].
  csimpl. rewrite (cons_middle (pair_of (a, r))), app_assoc. f_equal.
  rewrite Hclose; cbn [walk_pairs walk_group walk_dead walk_retractions]; [|rewrite length_app; simpl; lia|lia].
  rewrite Hdead, zip_with_app by done. by rewrite app_assoc, Hw.
Qed.

(** ** Sorting puts the two rows of a pair next to each other

    [pairing l]: the rows of one group, dead entry and retraction in turn. *)
Inductive pairing : list EmissionRow -> Prop :=
  | pairing_nil : pairing []
  | pairing_cons a r l :
      row_removed a = false -> row_removed r = true -> pairing l -> pairing (a :: r :: l).

Definition group_of (k row : EmissionRow) : Prop := groupOrder k row = 0.

#[export] Instance group_of_dec k row : Decision (group_of k row).
Proof. unfold group_of. apply _. Defined.

Lemma groupOrder_refl a : groupOrder a a = 0.
Proof. by apply groupOrder_eq. Qed.

Lemma group_of_class a b c : group_of a b -> (group_of a c <-> group_of b c).
Proof. unfold group_of. rewrite !groupOrder_eq. intros (-> & -> & ->). done. Qed.

Lemma sorted_pairs L :
  StronglySorted (fun a b => groupOrder a b <= 0) L -> (forall k, pairing (filter (group_of k) L)) ->
  Forall (fun row => row_alive row = false) L ->
  exists ps, L = flat ps /\ Forall matched ps.
Proof.
  remember (length L) as n eqn:Hn. revert L Hn. induction (lt_wf n) as [n _ IH]. intros L -> Hs Hg Hd.
  destruct L as [|a L]; [by exists []|].
  pose proof (Hg a) as Ha. rewrite filter_cons_True in Ha by apply groupOrder_refl.
  destruct (filter (group_of a) L) as [|r l] eqn:Hf; [by inversion Ha|].
  assert (row_removed a = false /\ row_removed r = true) as [Hra Hrr] by (by inversion Ha).
  destruct L as [|x L]; [done|]. apply StronglySorted_inv in Hs as [Hs Hax]. pose proof Hs as [_ Hxr]%StronglySorted_inv.
  assert (group_of a x) as Hx.
  { assert (r ∈ filter (group_of a) (x :: L)) as [Hr Hin]%list_elem_of_filter by (rewrite Hf; left).
    apply Forall_cons in Hax as [Hax _]. apply elem_of_cons in Hin as [->|Hin]; [done|].
    rewrite Forall_forall in Hxr. specialize (Hxr r Hin). unfold group_of in *.
    pose proof (ord_flip (compare := groupOrder) a x). pose proof (ord_flip (compare := groupOrder) r a).
    pose proof (ord_trans (compare := groupOrder) x r a). pose proof (ord_flip (compare := groupOrder) a r).
    pose proof (ord_flip (compare := groupOrder) x a). lia. }
  rewrite filter_cons_True in Hf by done. injection Hf as <- <-.
  apply Forall_cons in Hd as [Hda Hd], Hd as [Hdx Hd]. apply StronglySorted_inv in Hs as [Hs _].
  destruct (IH (length L)) with (L := L) as (ps & -> & Hps); [simpl; lia|done|done| |done|].
  - intros k. specialize (Hg k). rewrite !filter_cons in Hg.
    assert (group_of k a <-> group_of k x) as Hkax.
    { unfold group_of in *. rewrite !groupOrder_eq in *. destruct Hx as (-> & -> & ->). done. }
    destruct (decide (group_of k a)), (decide (group_of k x)); [by inversion Hg|tauto|tauto|done].
  - exists ((a, x) :: ps). split; [done|]. constructor; [|done]. done.
Qed.

(** ** Streams whose dead rows come in pairs *)
Definition balanced (rows : list EmissionRow) : Prop :=
  forall k, exists dead_rows live,
    filter (group_of k) rows = dead_rows ++ live
    /\ pairing dead_rows /\ Forall (fun row => row_alive row = false) dead_rows
    /\ (live = [] \/ exists row, live = [row] /\ row_alive row = true).

Lemma scan_group k rows :
  ascending row_seq rows -> filter (group_of k) (sort_by scanOrder rows) = filter (group_of k) rows.
Proof.
  intros Ha. apply (StronglySorted_unique_strong (fun a b => row_seq a <= row_seq b)).
  - intros x y [_ Hx]%list_elem_of_filter [_ Hy]%list_elem_of_filter Hxy Hyx. rewrite sort_by_perm in Hx.
    eapply (ascending_key_inj row_seq); eauto. lia.
  - assert (forall L, StronglySorted (fun a b => scanOrder a b <= 0) L ->
      StronglySorted (fun a b => row_seq a <= row_seq b) (filter (group_of k) L)) as Hs; [|apply Hs, sort_by_sorted; apply _].
    clear. induction 1 as [|x L Hs IH Hx]; [constructor|]. rewrite filter_cons. case_decide as Hk; [|done]. constructor; [done|].
    apply Forall_forall. intros y [Hy Hin]%list_elem_of_filter. rewrite Forall_forall in Hx. specialize (Hx y Hin).
    assert (groupOrder x y = 0) as Hxy by (unfold group_of in *; rewrite groupOrder_eq in *; intuition congruence).
    unfold scanOrder, lex, on in Hx. rewrite Hxy, decide_False in Hx by tauto. lia.
  - apply ascending_weaken. by eapply ascending_sublist; [apply sublist_filter|].
  - by rewrite sort_by_perm.
Qed.

Lemma group_below k floor rows :
  filter (group_of k) (candidatesBelow floor rows)
  = if decide (row_blockNumber k < floor) then filter (fun row => row_alive row = false) (filter (group_of k) rows) else [].
Proof.
  unfold candidatesBelow. rewrite list_filter_filter. case_decide as Hk.
  - rewrite list_filter_filter. apply filter_ext_in. intros row _. unfold group_of. rewrite groupOrder_eq. intuition lia.
  - apply filter_Forall_nil, Forall_forall. intros row _. unfold group_of. rewrite groupOrder_eq. intuition lia.
Qed.

Lemma scan_pairs floor rows :
  ascending row_seq rows -> balanced rows ->
  exists ps, sort_by scanOrder (candidatesBelow floor rows) = flat ps /\ Forall matched ps.
Proof.
  intros Ha Hb.
  assert (ascending row_seq (candidatesBelow floor rows)) as Hc by (eapply ascending_sublist; [apply sublist_filter|done]).
  apply sorted_pairs.
  - eapply StronglySorted_impl; [|apply sort_by_sorted; apply _]. intros x y Hxy. unfold scanOrder, lex in Hxy. case_decide; lia.
  - intros k. rewrite scan_group, group_below by done. case_decide; [|constructor].
    destruct (Hb k) as (d & live & -> & Hp & Hd & Hlive). rewrite filter_app, filter_Forall_id by done.
    destruct Hlive as [->|(row & -> & Hrow)]; [by rewrite filter_nil, app_nil_r|].
    rewrite filter_cons_False, filter_nil, app_nil_r by congruence. done.
  - rewrite sort_by_perm. apply Forall_forall. by intros row [[? _] _]%list_elem_of_filter.
Qed.

Lemma pairing_flat k ps : Forall matched ps -> pairing (filter (group_of k) (flat ps)).
Proof.
  induction 1 as [|[a r] ps (Hkey & Ha & Hr & _) Hps IH]; [constructor|].
  unfold flat. cbn [mbind list_bind app fst snd]. fold (flat ps). rewrite !filter_cons.
  assert (group_of k a <-> group_of k r) as Hk.
  { unfold group_of in *. simpl in Hkey. rewrite !groupOrder_eq in *. destruct Hkey as (-> & -> & ->). done. }
  destruct (decide (group_of k a)), (decide (group_of k r)); [by constructor|tauto|tauto|done].
Qed.

Lemma flat_app ps qs : flat (ps ++ qs) = flat ps ++ flat qs.
Proof. apply bind_app. Qed.

Lemma flat_cut m ps : flat ps = flat (take m ps) ++ flat (drop m ps).
Proof. by rewrite <- flat_app, take_drop. Qed.

(** A sweep's rows, once the pairs of one call are gone. *)
Section Swept.
Context (floor : Z) (rows : list EmissionRow) (ps : list (EmissionRow * EmissionRow)) (m : nat).
Context (Ha : ascending row_seq rows) (Hb : balanced rows).
Context (Hscan : sort_by scanOrder (candidatesBelow floor rows) = flat ps) (Hps : Forall matched ps).

Definition swept : list EmissionRow := filter (fun row => row_seq row ∉ row_seq <$> flat (take m ps)) rows.

Lemma swept_in row : row ∈ flat ps <-> row ∈ rows /\ row_alive row = false /\ row_blockNumber row < floor.
Proof. rewrite <- Hscan, sort_by_perm. unfold candidatesBelow. rewrite list_elem_of_filter. tauto. Qed.

Lemma flat_seqs : NoDup (row_seq <$> flat ps).
Proof.
  rewrite <- Hscan, sort_by_perm. apply (ascending_keys_NoDup row_seq). by eapply ascending_sublist; [apply sublist_filter|].
Qed.

Lemma swept_keeps row : row ∈ rows -> row_seq row ∈ row_seq <$> flat (take m ps) -> row ∈ flat (take m ps).
Proof.
  intros Hrow (row' & Heq & Hin)%list_elem_of_fmap. assert (row' ∈ rows) as Hrow'.
  { apply swept_in. rewrite (flat_cut m ps). apply elem_of_app. by left. }
  by rewrite (ascending_key_inj row_seq rows row row').
Qed.

Lemma swept_live : filter (fun row => row_alive row = true) swept = filter (fun row => row_alive row = true) rows.
Proof.
  unfold swept. rewrite list_filter_filter. apply filter_ext_in. intros row Hrow. split; [tauto|]. intros Hal. split; [done|].
  intros Hin%swept_keeps; [|done]. assert (row ∈ flat ps) as (_ & Hd & _)%swept_in; [|congruence].
  rewrite (flat_cut m ps). apply elem_of_app. by left.
Qed.

Lemma flat_kept : filter (fun row => row_seq row ∉ row_seq <$> flat (take m ps)) (flat ps) = flat (drop m ps).
Proof.
  pose proof flat_seqs as Hnd. rewrite (flat_cut m ps), fmap_app in Hnd. apply NoDup_app in Hnd as (_ & Hdis & _).
  rewrite (flat_cut m ps), filter_app, filter_Forall_nil, filter_Forall_id; [done|..].
  - apply Forall_forall. intros row Hrow Hin. apply (Hdis _ Hin). by apply list_elem_of_fmap_2.
  - apply Forall_forall. intros row Hrow Hno. apply Hno. by apply list_elem_of_fmap_2.
Qed.

Lemma swept_candidates : candidatesBelow floor swept ≡ₚ flat (drop m ps).
Proof.
  rewrite <- flat_kept, <- Hscan, sort_by_perm. unfold candidatesBelow, swept. rewrite !list_filter_filter.
  erewrite filter_ext_in; [done|]. intros row _. tauto.
Qed.

Lemma swept_balanced : balanced swept.
Proof.
  intros k. destruct (Hb k) as (d & live & Hk & Hp & Hd & Hlive).
  assert (filter (group_of k) swept = filter (fun row => row_seq row ∉ row_seq <$> flat (take m ps)) (d ++ live)) as ->.
  { rewrite <- Hk. unfold swept. rewrite !list_filter_filter. apply filter_ext_in. intros row _. tauto. }
  assert (forall row, row ∈ d ++ live -> row ∈ rows /\ group_of k row) as Hin.
  { intros row. rewrite <- Hk, list_elem_of_filter. tauto. }
  rewrite filter_app. exists (filter (fun row => row_seq row ∉ row_seq <$> flat (take m ps)) d), live. split_and!; [f_equal| |by eapply Forall_sublist; [apply sublist_filter|]|done].
  - apply filter_Forall_id, Forall_forall. intros row Hrow Hno.
    apply swept_keeps in Hno; [|by apply Hin, elem_of_app; right].
    assert (row ∈ flat ps) as (_ & Hdead & _)%swept_in by (rewrite (flat_cut m ps); apply elem_of_app; by left).
    destruct Hlive as [->|(row' & -> & Hal)]; [by apply not_elem_of_nil in Hrow|]. apply list_elem_of_singleton in Hrow as ->. congruence.
  - pose proof (scan_group k (candidatesBelow floor rows) ltac:(by eapply ascending_sublist; [apply sublist_filter|])) as Hg.
    rewrite group_below, Hscan, Hk in Hg. case_decide as Hbelow.
    + rewrite filter_app, (filter_Forall_id _ d), (filter_Forall_nil _ live), app_nil_r in Hg; [|by destruct Hlive as [->|(row & -> & Hal)]; repeat constructor; congruence|done].
      rewrite <- Hg.
      assert (filter (fun row => row_seq row ∉ row_seq <$> flat (take m ps)) (filter (group_of k) (flat ps))
        = filter (group_of k) (flat (drop m ps))) as ->.
      { rewrite <- flat_kept, !list_filter_filter. apply filter_ext_in. intros row _. tauto. }
      by apply pairing_flat, Forall_drop.
    + rewrite filter_Forall_id; [done|]. apply Forall_forall. intros row Hrow Hno.
      destruct (Hin row ltac:(apply elem_of_app; by left)) as [Hr Hgr]. apply swept_keeps in Hno; [|done].
      assert (row ∈ flat ps) as (_ & _ & Hlt)%swept_in by (rewrite (flat_cut m ps); apply elem_of_app; by left).
      unfold group_of in Hgr. apply groupOrder_eq in Hgr as (? & _). lia.
Qed.
End Swept.

(** ** One call *)
Record tidy (rows : list EmissionRow) : Prop := {
  tidy_ascending : ascending row_seq rows;
  tidy_balanced : balanced rows
}.

(** The setting is one a deployment may run with. *)
Record configured (query : PairCompactionQuery) (blocks : Z) (m : nat) : Prop := {
  configured_blocks : query_compaction query = Some (CompactBlocks blocks);
  configured_finality : 0 <= query_finality query <= blocks;
  configured_tip : 0 <= query_latestBlock query;
  configured_budget : budgetOf (query_maxPairs query) = Ok m
}.

Lemma budget_positive maxPairs m : budgetOf maxPairs = Ok m -> (0 < m)%nat.
Proof.
  unfold budgetOf, DEFAULT_MAX_PAIRS. destruct maxPairs as [n|]; [|intros [= <-]; lia]. case_decide; [done|]. intros [= <-]. lia.
Qed.

Lemma without_nil indexer stream db : without indexer stream [] db = db.
Proof.
  destruct db as [t c]. unfold without. cbn. f_equal. apply filter_Forall_id, Forall_forall. intros row _ [_ Hin].
  by apply not_elem_of_nil in Hin.
Qed.

Lemma compaction_call db query blocks m :
  configured query blocks m -> tidy (rows_of db (query_indexer query) (query_stream query)) ->
  let floor := compactionFloor (query_latestBlock query) blocks in
  exists ps, sort_by scanOrder (candidatesBelow floor (rows_of db (query_indexer query) (query_stream query))) = flat ps
    /\ Forall matched ps
    /\ compactEmissionPairs db query
      = Ok (Some (without (query_indexer query) (query_stream query) (row_seq <$> flat (take m ps)) db,
          mkReport (Some floor) (length (take m ps)) (length (take m ps) * 2) (length (take m ps) * 2) (bool_decide (length ps < m)%nat))).
Proof.
  intros [Hc [Hf0 Hf] Htip Hm] [Ha Hb] floor. destruct (scan_pairs floor _ Ha Hb) as (ps & Hscan & Hps). exists ps. split_and!; [done..|].
  unfold compactEmissionPairs, resolvePairCompaction. rewrite Hc, (decide_False (P := blocks < 0)) by lia.
  rewrite (decide_False (P := query_finality query < 0)), (decide_False (P := blocks < query_finality query)) by lia.
  cbn [mbind result_bind]. rewrite (decide_False (P := query_latestBlock query < 0)), Hm by lia. cbn [mbind result_bind]. fold floor.
  rewrite Hscan, take_flat, pairsIn_flat by (try apply Forall_take, Hps; rewrite length_take; lia).
  rewrite !length_fmap, !length_flat, deletion_run, seqs_of_pairs. pose proof (budget_positive _ _ Hm) as Hpos.
  assert (bool_decide (length (take m ps) * 2 < m * 2)%nat = bool_decide (length ps < m)%nat) as ->
    by (apply bool_decide_ext; rewrite length_take; lia).
  destruct (take m ps) as [|p l]; [|done]. rewrite decide_False by (simpl; lia). simpl. by rewrite without_nil.
Qed.

(** Everything one call does to a tidy stream. *)
Lemma compaction_spec db query blocks m :
  configured query blocks m ->
  let indexer := query_indexer query in
  let stream := query_stream query in
  let floor := compactionFloor (query_latestBlock query) blocks in
  let before := rows_of db indexer stream in
  tidy before ->
  exists db' report, compactEmissionPairs db query = Ok (Some (db', report))
  /\ tidy (rows_of db' indexer stream)
  /\ live_entries (rows_of db' indexer stream) = live_entries before
  /\ rows_of db' indexer stream `sublist_of` before
  /\ (forall row, row ∈ before -> row ∉ rows_of db' indexer stream -> row_alive row = false /\ row_blockNumber row < floor)
  /\ (length (candidatesBelow floor (rows_of db' indexer stream)) + report_rowsDeleted report
       = length (candidatesBelow floor before))%nat
  /\ report_rowsDeleted report = (report_pairsCompacted report * 2)%nat
  /\ report_complete report = bool_decide (length (candidatesBelow floor before) < m * 2)%nat
  /\ report_pairsCompacted report = (m `min` (length (candidatesBelow floor before) / 2))%nat
  /\ coverage_table db' = coverage_table db
  /\ forall indexer' stream', (indexer', stream') <> (indexer, stream) -> rows_of db' indexer' stream' = rows_of db indexer' stream'.
Proof.
  intros Hcfg indexer stream floor before Htidy.
  destruct (compaction_call db query blocks m Hcfg Htidy) as (ps & Hscan & Hps & Hcall).
  fold indexer stream before floor in Hscan, Hcall.
  exists (without indexer stream (row_seq <$> flat (take m ps)) db). eexists. split; [exact Hcall|].
  destruct Htidy as [Ha Hb].
  assert (rows_of (without indexer stream (row_seq <$> flat (take m ps)) db) indexer stream = swept before ps m) as Hrows
    by (rewrite without_rows, decide_True by done; done).
  rewrite !Hrows. cbn [report_rowsDeleted report_pairsCompacted report_complete coverage_table without].
  pose proof (swept_candidates floor before ps m Ha Hscan) as Hcand. apply Permutation_length in Hcand.
  assert (length (candidatesBelow floor before) = length ps * 2)%nat as Hlen by (by rewrite <- length_flat, <- Hscan, sort_by_perm).
  rewrite Hcand, Hlen, length_flat, length_drop, length_take, Nat.div_mul by lia. split_and!; try done.
  - split; [eapply ascending_sublist; [apply sublist_filter|done]|]. by apply (swept_balanced floor before ps m Ha Hb Hscan Hps).
  - unfold live_entries. f_equal. by apply (swept_live floor).
  - apply sublist_filter.
  - intros row Hrow Hno. assert (row ∈ flat (take m ps)) as Hin.
    { apply (swept_keeps floor before ps m Ha Hscan); [done|]. apply dec_stable. intros Hkeep. apply Hno. by apply elem_of_filter_intro. }
    assert (row ∈ flat ps) as (_ & ? & ?)%(swept_in floor before ps Hscan); [|done]. rewrite (flat_cut m ps). apply elem_of_app. by left.
  - lia.
  - apply bool_decide_ext. lia.
  - intros i s Hne. by rewrite without_rows, decide_False.
Qed.

(** ** A whole sweep: call until the report says complete *)
Fixpoint sweepAll (fuel : nat) (db : EmissionDb) (query : PairCompactionQuery) : option EmissionDb :=
  match fuel with
  | O => None
  | S fuel =>
      match compactEmissionPairs db query with
      | Ok (Some (db', report)) => if report_complete report then Some db' else sweepAll fuel db' query
      | _ => None
      end
  end.

Lemma sweep_ends db query blocks m :
  configured query blocks m ->
  let indexer := query_indexer query in
  let stream := query_stream query in
  let floor := compactionFloor (query_latestBlock query) blocks in
  tidy (rows_of db indexer stream) ->
  exists db', sweepAll (length (candidatesBelow floor (rows_of db indexer stream)) + 1) db query = Some db'
  /\ rows_of db' indexer stream
     = filter (fun row => ~ (row_alive row = false /\ row_blockNumber row < floor)) (rows_of db indexer stream)
  /\ tidy (rows_of db' indexer stream).
Proof.
  intros Hcfg indexer stream floor. pose proof (budget_positive _ _ (configured_budget _ _ _ Hcfg)) as Hpos.
  remember (length (candidatesBelow floor (rows_of db indexer stream))) as n eqn:Hn.
  revert db Hn. induction (lt_wf n) as [n _ IH]. intros db Hn Htidy.
  destruct (compaction_spec db query blocks m Hcfg Htidy) as (db' & report & Hcall & Htidy' & _ & Hsub & Hgone & Hleft & Hdel & Hcomplete & Hpairs & _).
  fold indexer stream floor in Htidy', Hsub, Hgone, Hleft, Hdel, Hcomplete, Hpairs. rewrite <- Hn in Hleft, Hcomplete, Hpairs.
  replace (n + 1)%nat with (S n) by lia. cbn [sweepAll]. rewrite Hcall, Hcomplete.
  assert (filter (fun row => ~ (row_alive row = false /\ row_blockNumber row < floor)) (rows_of db' indexer stream)
    = filter (fun row => ~ (row_alive row = false /\ row_blockNumber row < floor)) (rows_of db indexer stream)) as Hkept.
  { apply sublist_all_eq; [by apply sublist_filter_mono| |].
    - eapply sublist_NoDup; [|apply sublist_filter]. apply (ascending_NoDup row_seq), Htidy.
    - intros row [Hrow Hin]%list_elem_of_filter. apply elem_of_filter_intro; [done|]. apply dec_stable. intros Hno. apply Hrow. by apply Hgone. }
  case_bool_decide as Hdone.
  - exists db'. split; [done|]. split; [|done]. rewrite <- Hkept. symmetry. apply filter_Forall_id.
    destruct (scan_pairs floor _ (tidy_ascending _ Htidy) (tidy_balanced _ Htidy)) as (ps & Hscan & _).
    assert (n = length ps * 2)%nat as Hps by (rewrite Hn, <- length_flat, <- Hscan; by rewrite sort_by_perm).
    assert (length (candidatesBelow floor (rows_of db' indexer stream)) = 0)%nat as Hnone%nil_length_inv.
    { rewrite Hps, Nat.div_mul in Hpairs by lia. lia. }
    apply Forall_forall. intros row Hin Hc. assert (row ∈ candidatesBelow floor (rows_of db' indexer stream)) as Hrow by (by apply elem_of_filter_intro).
    rewrite Hnone in Hrow. by apply not_elem_of_nil in Hrow.
  - destruct (IH (length (candidatesBelow floor (rows_of db' indexer stream)))) with (db := db') as (db2 & Hsweep & Hrows & Htidy2); [|done|done|].
    { assert (1 <= n / 2)%nat by (apply Nat.div_le_lower_bound; lia). lia. }
    exists db2. split_and!; [|by rewrite Hrows|done].
    assert (forall k fuel db, sweepAll fuel db query = Some db2 -> sweepAll (fuel + k) db query = Some db2) as Hmore.
    { clear. intros k. induction fuel as [|fuel IHf]; intros db; [done|]. cbn [sweepAll Nat.add].
      destruct (compactEmissionPairs db query) as [[[db1 r]|]|]; try done. destruct (report_complete r); [done|]. apply IHf. }
    assert (1 <= n / 2)%nat by (apply Nat.div_le_lower_bound; lia).
    replace n with (length (candidatesBelow floor (rows_of db' indexer stream)) + 1 + (report_rowsDeleted report - 1))%nat by lia.
    by apply Hmore.
Qed.

(** ** An append keeps a stream tidy

    [fits live e]: an emission retracts a log that is live, or applies one that is not. *)
Definition fits (live : list CanonicalEntry) (e : LogEvent) : Prop :=
  if removed e
  then (exists c, c ∈ live /\ entry_key c = log_key e)
       /\ (forall c, c ∈ live -> entry_key c = log_key e -> entry_blockNumber c = blockNumber e)
  else forall c, c ∈ live -> entry_key c <> log_key e.

Fixpoint fits_all (live : list CanonicalEntry) (emissions : list LogEvent) : Prop :=
  match emissions with
  | [] => True
  | e :: rest => fits live e /\ fits_all (live_step live e) rest
  end.

Lemma pairing_snoc l a r :
  pairing l -> row_removed a = false -> row_removed r = true -> pairing (l ++ [a; r]).
Proof. induction 1; intros; simpl; by repeat constructor; auto. Qed.

Lemma balanced_step indexer stream e rows at_seq :
  Forall (of_stream indexer stream) rows -> rows_wf rows -> balanced rows -> fits (live_entries rows) e ->
  balanced (flagged indexer stream e rows ++ [rowOf indexer stream (at_seq + 1) e]).
Proof.
  intros Hof [_ Hlv] Hb Hfit k. destruct (Hb k) as (d & live & Hk & Hp & Hd & Hlive).
  set (new := rowOf indexer stream (at_seq + 1) e).
  assert (forall row, row ∈ d ++ live -> row ∈ rows /\ group_of k row) as Hin.
  { intros row. rewrite <- Hk, list_elem_of_filter. tauto. }
  assert (forall row, row ∈ rows -> row_alive row = true -> entryOf row ∈ live_entries rows) as Hentry.
  { intros row Hrow Hal. unfold live_entries. by apply list_elem_of_fmap_2, elem_of_filter_intro. }
  assert (row_removed new = removed e /\ row_alive new = negb (removed e) /\ groupOrder k new = groupOrder k new) as (Hnr & Hna & _) by done.
  assert (forall row, group_of k row -> group_of k new -> entry_key (entryOf row) = log_key e) as Hkey.
  { unfold group_of. intros row (_ & Hi & Hh)%groupOrder_eq (_ & Hi' & Hh')%groupOrder_eq. unfold entry_key, log_key. simpl in *. congruence. }
  rewrite filter_app. unfold fits in Hfit. unfold flagged. destruct (removed e) eqn:He.
  - destruct Hfit as [Hsome Hsame]. rewrite (filter_pairs (group_of k) (group_of k)).
    2:{ intros row _. case_decide; [|done]. unfold group_of. by rewrite !groupOrder_eq. }
    rewrite Hk, fmap_app. set (flag := fun row => if decide (superseded indexer stream (blockHash e) (logIndex e) row) then dead row else row).
    assert (flag <$> d = d) as ->.
    { rewrite <- (list_fmap_id d) at 2. apply list_fmap_ext. intros i row Hrow%list_elem_of_lookup_2. rewrite Forall_forall in Hd.
      specialize (Hd row Hrow). unfold flag. rewrite decide_False; [done|]. intros (_ & _ & _ & _ & Hal). congruence. }
    destruct (decide (group_of k new)) as [Hnew|Hnew].
    + rewrite filter_cons_True by done. destruct Hsome as (c & Hc & Hck). unfold live_entries in Hc.
      apply list_elem_of_fmap in Hc as (row & -> & [Hal Hrow]%list_elem_of_filter).
      assert (group_of k row) as Hgr.
      { pose proof (Hsame _ (Hentry row Hrow Hal) Hck) as Hn. unfold group_of in *. rewrite groupOrder_eq in *.
        unfold entry_key, log_key in Hck. simpl in *. destruct Hnew as (? & ? & ?). split_and!; congruence. }
      assert (row ∈ d ++ live) as Hrl by (rewrite <- Hk; by apply elem_of_filter_intro).
      apply elem_of_app in Hrl as [Hrd|Hrl]; [rewrite Forall_forall in Hd; specialize (Hd row Hrd); congruence|].
      destruct Hlive as [->|(row' & -> & _)]; [by apply not_elem_of_nil in Hrl|]. apply list_elem_of_singleton in Hrl as <-.
      exists (d ++ [dead row; new]), []. rewrite filter_nil, app_nil_r. csimpl.
      assert (flag row = dead row) as ->.
      { unfold flag. rewrite decide_True; [done|]. rewrite Forall_forall in Hof, Hlv. unfold entry_key, log_key in Hck. simpl in Hck.
        split_and!; [by apply Hof|congruence|congruence|by apply Hlv|done]. }
      split_and!; [by rewrite <- app_assoc| | |by left].
      * apply pairing_snoc; [done| |by rewrite Hnr]. rewrite Forall_forall in Hlv. by apply (Hlv row).
      * apply Forall_app. split; [done|]. constructor; [done|]. constructor; [by rewrite Hna|constructor].
    + rewrite filter_cons_False, filter_nil, app_nil_r by done. exists d, live. split_and!; try done. f_equal.
      destruct Hlive as [->|(row & -> & Hal)]; [done|]. csimpl. f_equal. unfold flag. case_decide as Hs; [|done].
      destruct (Hin row) as [Hrow Hgr]; [apply elem_of_app; right; left|]. destruct Hs as (_ & Hh & Hi & _).
      exfalso. apply Hnew. pose proof (Hsame _ (Hentry row Hrow Hal)) as Hn. unfold entry_key, log_key in Hn. simpl in Hn.
      unfold group_of in *. rewrite groupOrder_eq in *. simpl. destruct Hgr as (? & ? & ?). rewrite Hh, Hi in Hn. specialize (Hn eq_refl).
      split_and!; congruence.
  - rewrite Hk. destruct (decide (group_of k new)) as [Hnew|Hnew].
    + assert (live = []) as ->.
      { destruct Hlive as [->|(row & -> & Hal)]; [done|]. destruct (Hin row) as [Hrow Hgr]; [apply elem_of_app; right; left|].
        destruct (Hfit _ (Hentry row Hrow Hal)). by apply Hkey. }
      rewrite filter_cons_True, filter_nil, app_nil_r by done. exists d, [new]. split_and!; try done. right. exists new. by rewrite Hna.
    + rewrite filter_cons_False, filter_nil, app_nil_r by done. by exists d, live.
Qed.

Lemma stored_balanced indexer stream rows at_seq emissions :
  Forall (of_stream indexer stream) rows -> rows_wf rows -> at_most at_seq rows -> balanced rows ->
  fits_all (live_entries rows) emissions -> balanced (stored indexer stream rows at_seq emissions).
Proof.
  revert rows at_seq. induction emissions as [|e rest IH]; intros rows at_seq Hof Hwf Hm Hb Hfit; [done|].
  destruct Hfit as [Hfit Hrest]. cbn [stored].
  pose proof (stored_wf indexer stream rows at_seq [e] Hwf Hm) as Hwf1. pose proof (stored_live indexer stream rows at_seq [e] Hwf Hm Hof) as Hlive1.
  cbn [stored foldl] in Hwf1, Hlive1. apply IH; [..|by apply balanced_step|by rewrite Hlive1]; [|done|].
  - apply Forall_app. split; [by apply flagged_spec|]. by repeat constructor.
  - apply (at_most_flagged indexer stream e) in Hm. unfold at_most in *. apply Forall_app.
    split; [eapply Forall_impl; [exact Hm|]; simpl; lia|]. constructor; [simpl; lia|constructor].
Qed.

(** *** The emissions of a turn fit *)
Lemma fits_app live l k : fits_all live (l ++ k) <-> fits_all live l /\ fits_all (foldl live_step live l) k.
Proof. revert live. induction l as [|e l IH]; intros live; simpl; [tauto|]. rewrite IH. tauto. Qed.

Lemma chain_keys_NoDup H : chain_wf H -> logs_ordered H -> NoDup (log_key <$> events_of H).
Proof.
  intros Hwf Hord. assert (log_key <$> events_of H = entry_key <$> entries_of H) as ->
    by (unfold entries_of; by rewrite <- list_fmap_compose).
  pose proof (entries_sorted H Hwf Hord) as Hs. pose proof (chain_wf_blocks _ Hwf) as Hb.
  assert (forall x y, x ∈ entries_of H -> y ∈ entries_of H -> entry_lt x y -> entry_key x <> entry_key y) as Hne.
  { intros x y Hx Hy Hlt Heq. destruct (entries_of_block H x Hb Hx) as (b & Hbin & Hn & Hh & _).
    destruct (entries_of_block H y Hb Hy) as (b' & Hbin' & Hn' & Hh' & _). injection Heq as Hhash Hidx.
    assert (b = b') as -> by (eapply chain_hash_inj; eauto; congruence). unfold entry_lt in Hlt. lia. }
  induction Hs as [|x l Hs IH Hx]; csimpl; constructor.
  - intros (y & Heq & Hy)%list_elem_of_fmap. rewrite Forall_forall in Hx. by apply (Hne x y); [left|right|apply Hx|].
  - apply IH. intros y z Hy Hz. apply Hne; by right.
Qed.

Lemma fits_retracted live l :
  NoDup (log_key <$> l) -> (forall e, e ∈ l -> entry_of_log e ∈ live) ->
  (forall c e, c ∈ live -> e ∈ l -> entry_key c = log_key e -> entry_blockNumber c = blockNumber e) ->
  fits_all live (asRemoved <$> l).
Proof.
  revert live. induction l as [|e l IH]; intros live Hnd Hin Hsame; csimpl; [done|]. apply NoDup_cons in Hnd as [Hno Hnd].
  split.
  - split; [exists (entry_of_log e); split; [apply Hin; left|done]|]. intros c Hc Heq. apply (Hsame c e); [done|left|done].
  - unfold live_step. cbn [removed asRemoved]. apply IH; [done|..].
    + intros e' He'. apply elem_of_filter_intro; [|apply Hin; by right]. intros Heq. apply Hno. apply list_elem_of_fmap.
      exists e'. split; [|done]. symmetry. exact Heq.
    + intros c e' [_ Hc]%list_elem_of_filter He'. apply Hsame; [done|by right].
Qed.

Lemma fits_applied live l :
  NoDup (log_key <$> l) -> Forall (fun e => removed e = false) l -> (forall c e, c ∈ live -> e ∈ l -> entry_key c <> log_key e) ->
  fits_all live l.
Proof.
  revert live. induction l as [|e l IH]; intros live Hnd Hap Hno; csimpl; [done|].
  apply NoDup_cons in Hnd as [He Hnd]. apply Forall_cons in Hap as [Hre Hap]. split.
  - unfold fits. rewrite Hre. intros c Hc. apply Hno; [done|left].
  - unfold live_step. rewrite Hre. apply IH; [done|done|]. intros c e' [Hc| ->%list_elem_of_singleton]%elem_of_app He'.
    + apply Hno; [done|by right].
    + intros Heq. apply He. apply list_elem_of_fmap. by exists e'.
Qed.

Lemma turn_fits P D N :
  chain_wf (P ++ D) -> logs_ordered (P ++ D) -> chain_wf (P ++ N) -> logs_ordered N ->
  fits_all (entries_of (P ++ D)) (retractions_of D ++ events_of N).
Proof.
  intros Hwf Hord Hwf' HordN. pose proof (chain_wf_blocks _ Hwf') as HN. apply Forall_app in HN as [_ HN].
  assert (logs_ordered (P ++ N)) as Hord' by (apply Forall_app; split; [by apply Forall_app in Hord as [? _]|done]).
  pose proof (chain_keys_NoDup _ Hwf Hord) as Hnd. pose proof (chain_keys_NoDup _ Hwf' Hord') as Hnd'.
  rewrite events_of_app, fmap_app in Hnd, Hnd'. apply NoDup_app in Hnd as (_ & HdisD & HndD), Hnd' as (_ & HdisN & HndN).
  assert (forall c H, c ∈ entries_of H -> entry_key c ∈ log_key <$> events_of H) as Hentry.
  { intros c H (e & -> & He)%list_elem_of_fmap. by apply (list_elem_of_fmap_2 log_key). }
  apply fits_app. split.
  - apply fits_retracted; [done|..].
    + intros e He. rewrite entries_of_app. apply elem_of_app. right. by apply list_elem_of_fmap_2.
    + intros c e Hc He Heq. rewrite entries_of_app in Hc. apply elem_of_app in Hc as [Hc|(e' & -> & He')%list_elem_of_fmap].
      * apply Hentry in Hc. rewrite Heq in Hc. destruct (HdisD _ Hc). by apply list_elem_of_fmap_2.
      * by rewrite (NoDup_fmap_inj_on log_key (events_of D) e e').
  - assert (foldl live_step (entries_of (P ++ D)) (retractions_of D) = entries_of P) as ->.
    { pose proof (live_turn P D [] Hwf (Forall_nil_2 _)) as Ht. change (events_of []) with (@nil LogEvent) in Ht.
      by rewrite !app_nil_r in Ht. }
    apply fits_applied; [done|by apply events_of_applied|].
    intros c e Hc He Heq. apply Hentry in Hc. rewrite Heq in Hc. destruct (HdisN _ Hc). by apply list_elem_of_fmap_2.
Qed.

(** ** Replaying a stored stream

    [storedLogOf] hands a replay the log and its verdict; a retraction takes back the
    application of the same log. *)
Definition same_log (a b : CanonicalEntry) : Prop :=
  entry_blockNumber a = entry_blockNumber b /\ entry_logIndex a = entry_logIndex b /\ entry_blockHash a = entry_blockHash b.

#[export] Instance same_log_dec a b : Decision (same_log a b).
Proof. unfold same_log. apply _. Defined.

Definition replay_step (live : list CanonicalEntry) (e : FeedEntry) : list CanonicalEntry :=
  if feed_removed e then filter (fun c => ~ same_log c (feed_entry e)) live else live ++ [feed_entry e].

Definition replayed (rows : list EmissionRow) : list CanonicalEntry := foldl replay_step [] (storedLogOf <$> rows).

(** No later retraction takes the row back. *)
Definition retracted_in (row : EmissionRow) (rows : list EmissionRow) : Prop :=
  Exists (fun r => group_of row r /\ row_removed r = true) rows.

#[export] Instance retracted_in_dec row rows : Decision (retracted_in row rows).
Proof. unfold retracted_in. apply _. Defined.

Fixpoint standing (rows : list EmissionRow) : list EmissionRow :=
  match rows with
  | [] => []
  | row :: rest =>
      (if decide (row_removed row = true \/ retracted_in row rest) then [] else [row]) ++ standing rest
  end.

Lemma same_log_group a b : same_log (entryOf a) (entryOf b) <-> group_of a b.
Proof. unfold same_log, group_of. by rewrite groupOrder_eq. Qed.

Lemma replay_standing before rows :
  foldl replay_step (entryOf <$> before) (storedLogOf <$> rows)
  = entryOf <$> (filter (fun row => ~ retracted_in row rows) before ++ standing rows).
Proof.
  revert before. induction rows as [|row rest IH]; intros before; csimpl.
  { rewrite app_nil_r, filter_Forall_id; [done|]. apply Forall_forall. intros row _ Hr. by apply Exists_nil in Hr. }
  unfold replay_step at 2. cbn [feed_removed feed_entry storedLogOf]. destruct (row_removed row) eqn:Hrow.
  - rewrite (filter_pairs (fun r => ~ group_of r row) (fun c => ~ same_log c (entryOf row))) by (intros r _; by rewrite same_log_group).
    rewrite IH, decide_True by (by left). f_equal. simpl. f_equal. rewrite list_filter_filter. apply filter_ext_in. intros r _.
    unfold retracted_in. rewrite Exists_cons. tauto.
  - change [entryOf row] with (entryOf <$> [row]). rewrite <- fmap_app, IH. f_equal. rewrite filter_app, <- app_assoc. f_equal.
    + apply filter_ext_in. intros r _. unfold retracted_in. rewrite Exists_cons, Hrow. intuition congruence.
    + rewrite filter_cons, filter_nil. f_equal. repeat case_decide; intuition congruence.
Qed.

Lemma pairing_retracted l a row b :
  pairing l -> l = a ++ row :: b -> row_removed row = true \/ Exists (fun r => row_removed r = true) b.
Proof.
  intros Hp. revert a. induction Hp as [|x r l Hx Hr Hp IH]; intros a Heq; [by destruct a|].
  destruct a as [|a1 [|a2 a]]; simplify_eq/=; [right; by constructor|by left|by eapply IH].
Qed.

Lemma balanced_alive rows pre row rest :
  balanced rows -> Forall (fun r => row_alive r = true -> row_removed r = false) rows -> rows = pre ++ row :: rest ->
  row_alive row = true <-> ~ (row_removed row = true \/ retracted_in row rest).
Proof.
  intros Hb Hl Heq. destruct (Hb row) as (d & live & Hk & Hp & Hd & Hlive).
  rewrite Heq, filter_app, filter_cons_True in Hk by apply groupOrder_refl.
  assert (retracted_in row rest <-> Exists (fun r => row_removed r = true) (filter (group_of row) rest)) as Hret.
  { unfold retracted_in. rewrite !Exists_exists. split; intros (r & Hr).
    - exists r. rewrite list_elem_of_filter. tauto.
    - exists r. rewrite list_elem_of_filter in Hr. tauto. }
  apply app_eq_app in Hk as (l & [[Hpre Hl']|[Hd' Hl']]).
  - (* the row is in the live part *)
    destruct Hlive as [->|(r & -> & Hr)]; [by destruct l|]. destruct l as [|y l]; [|by destruct l].
    injection Hl' as -> Hnone. split; [|done]. intros _ [Hrm|Hrt].
    + rewrite Forall_forall in Hl. rewrite (Hl row) in Hrm; [done| |done]. rewrite Heq. apply elem_of_app. right. left.
    + apply Hret in Hrt. rewrite <- Hnone in Hrt. by apply Exists_nil in Hrt.
  - destruct l as [|y l].
    + destruct Hlive as [->|(r & -> & Hr)]; [done|]. simpl in Hl'. injection Hl' as -> Hnone. split; [|done]. intros _ [Hrm|Hrt].
      * rewrite Forall_forall in Hl. rewrite (Hl r) in Hrm; [done| |done]. rewrite Heq. apply elem_of_app. right. left.
      * apply Hret in Hrt. rewrite Hnone in Hrt. by apply Exists_nil in Hrt.
    + simpl in Hl'. injection Hl' as <- Hrest. rewrite Forall_forall in Hd. rewrite (Hd row) by (rewrite Hd'; apply elem_of_app; right; left).
      split; [done|]. intros Hno. exfalso. apply Hno. destruct (pairing_retracted _ _ _ _ Hp Hd') as [?|Hex]; [by left|].
      right. apply Hret. rewrite Hrest, Exists_app. by left.
Qed.

Lemma replayed_live rows : balanced rows -> Forall (fun r => row_alive r = true -> row_removed r = false) rows ->
  replayed rows = live_entries rows.
Proof.
  intros Hb Hl. unfold replayed. change [] with (entryOf <$> @nil EmissionRow). rewrite replay_standing, filter_nil. unfold live_entries. f_equal. simpl.
  assert (forall pre rest, rows = pre ++ rest -> standing rest = filter (fun row => row_alive row = true) rest) as Hgen; [|by apply (Hgen [])].
  intros pre rest. revert pre. induction rest as [|row rest IH]; intros pre Heq; [done|]. cbn [standing].
  rewrite (IH (pre ++ [row])) by (by rewrite <- app_assoc). rewrite filter_cons.
  pose proof (balanced_alive rows pre row rest Hb Hl Heq) as Hal. repeat case_decide; tauto || done.
Qed.

(** ** A stream under appends and compaction *)
Section Stored.
Context (indexer stream : string).

Inductive stored_by : EmissionDb -> list EventBlock -> Prop :=
  | stored_start : stored_by emptyDb []
  | stored_append db db' P D N coverage :
      stored_by db (P ++ D) ->
      appendEmissions db (mkAppend indexer stream coverage (retractions_of D ++ events_of N)) = Some db' ->
      chain_wf (P ++ N) -> logs_ordered N -> stored_by db' (P ++ N)
  | stored_other db db' H indexer' stream' coverage emissions :
      stored_by db H -> (indexer', stream') <> (indexer, stream) ->
      appendEmissions db (mkAppend indexer' stream' coverage emissions) = Some db' -> stored_by db' H
  | stored_compact db db' H query report :
      stored_by db H -> compactEmissionPairs db query = Ok (Some (db', report)) -> stored_by db' H.

(** What any call deletes, whatever the stream looks like. *)
Lemma compaction_deletes db query db' report :
  compactEmissionPairs db query = Ok (Some (db', report)) ->
  db' = db \/ (exists blocks m, configured query blocks m) /\ exists seqs, db' = without (query_indexer query) (query_stream query) seqs db.
Proof.
  unfold compactEmissionPairs, resolvePairCompaction. destruct (query_compaction query) as [[|blocks|]|] eqn:Hc; cbn [mbind result_bind COMPACTION_OFF];
    try (intros [= <- _]; by left).
  destruct (decide (blocks < 0)); [done|]. destruct (decide (query_finality query < 0)); [done|].
  destruct (decide (blocks < query_finality query)); [done|]. cbn [mbind result_bind].
  destruct (decide (query_latestBlock query < 0)); [done|]. destruct (budgetOf (query_maxPairs query)) as [m|] eqn:Hm; [|done].
  cbn [mbind result_bind]. case_decide; [rewrite deletion_run|]; intros [= <- _]; [right|by left].
  split; [|by eexists]. exists blocks, m. split; try done; lia.
Qed.

Lemma stored_invariant db H :
  stored_by db H -> shows indexer stream db H /\ tidy (rows_of db indexer stream).
Proof.
  induction 1 as [|db db' P D N coverage Hst [Hsh [Ha Hb]] Happ Hchain HordN
    |db db' H indexer' stream' coverage emissions Hst [Hsh Htidy] Hne Happ
    |db db' H query report Hst [Hsh Htidy] Hcall].
  - split; [split; [by split; constructor|done|apply chain_wf_nil|constructor]|]. split; [constructor|]. intros k.
    exists [], []. split_and!; [done|constructor|constructor|by left].
  - split; [by eapply shows_append|]. destruct Hsh as [Hwf Hlive Hc Hord].
    destruct (append_spec db indexer stream coverage (retractions_of D ++ events_of N)) as (db1 & Happ1 & Hrows & _).
    rewrite Happ in Happ1. injection Happ1 as <-. rewrite Hrows. pose proof (high_water_bounds db indexer stream) as Hm. split.
    + by apply stored_wf.
    + apply stored_balanced; [|done|done|done|rewrite Hlive; by apply turn_fits].
      apply Forall_forall. by intros row [? _]%list_elem_of_filter.
  - destruct (append_spec db indexer' stream' coverage emissions) as (db1 & Happ1 & _ & _ & Hother).
    rewrite Happ in Happ1. injection Happ1 as <-. destruct (Hother indexer stream) as [Hrows _]; [congruence|].
    rewrite Hrows. split; [destruct Hsh; by split; rewrite ?Hrows|done].
  - destruct (compaction_deletes db query db' report Hcall) as [->|[(blocks & m & Hcfg) (seqs & ->)]]; [done|].
    destruct (decide ((indexer, stream) = (query_indexer query, query_stream query))) as [[= Hi Hs]|Hne].
    + rewrite Hi, Hs in *. destruct (compaction_spec db query blocks m Hcfg Htidy) as (db1 & report1 & Hcall1 & Htidy1 & Hlive & Hsub & _).
      rewrite Hcall in Hcall1. injection Hcall1 as <- <-. split; [|done]. destruct Hsh as [[Hasc Hlv] Hle Hc Hord]. split; [|by rewrite Hlive|done|done].
      split; [by eapply ascending_sublist|by eapply Forall_sublist].
    + assert (rows_of (without (query_indexer query) (query_stream query) seqs db) indexer stream = rows_of db indexer stream) as Hrows
        by (rewrite without_rows, decide_False; [done|]; intros Heq; by apply Hne).
      rewrite Hrows. split; [destruct Hsh; by split; rewrite ?Hrows|done].
Qed.
End Stored.

(** ** What compaction promises *)

(** C32. Whatever appends and compactions a stored stream went through, its numbers ascend, its
    dead rows come in pairs of an entry and its retraction, its live rows are the logs of
    the chain, and replaying what is left of it from the start gives those logs too. *)
Theorem stored_stream_invariant indexer stream db H :
  stored_by indexer stream db H ->
  let rows := rows_of db indexer stream in
  rows_wf rows /\ balanced rows /\ live_entries rows = entries_of H /\ replayed rows = entries_of H.
Proof.
  intros [Hsh Htidy]%stored_invariant rows. destruct Hsh as [Hwf Hlive _ _], Htidy as [_ Hb]. split_and!; try done.
  rewrite replayed_live; [done|done|apply Hwf].
Qed.

(** C33. Calling until the report says complete ends, within one call per candidate row and one
    more, and leaves exactly the rows that are live or at or above the floor: the
    canonical view and a replay from the start answer what they did. *)
Theorem compaction_sweep indexer stream db H query blocks m :
  stored_by indexer stream db H -> query_indexer query = indexer -> query_stream query = stream -> configured query blocks m ->
  let floor := compactionFloor (query_latestBlock query) blocks in
  let rows := rows_of db indexer stream in
  exists db', sweepAll (length (candidatesBelow floor rows) + 1) db query = Some db'
  /\ rows_of db' indexer stream = filter (fun row => ~ (row_alive row = false /\ row_blockNumber row < floor)) rows
  /\ live_entries (rows_of db' indexer stream) = entries_of H
  /\ replayed (rows_of db' indexer stream) = entries_of H.
Proof.
  intros [Hsh Htidy]%stored_invariant <- <- Hcfg floor rows. destruct Hsh as [[_ Hl] Hlive _ _].
  destruct (sweep_ends db query blocks m Hcfg Htidy) as (db' & Hsweep & Hrows & Htidy'). exists db'.
  assert (live_entries (rows_of db' (query_indexer query) (query_stream query)) = entries_of H) as Hlive'.
  { rewrite <- Hlive. unfold live_entries. f_equal. rewrite Hrows, list_filter_filter. apply filter_ext_in. intros row _.
    destruct (row_alive row); intuition congruence. }
  split_and!; [done|done|done|]. rewrite replayed_live; [done|apply Htidy'|]. rewrite Hrows.
  by eapply Forall_sublist; [apply sublist_filter|].
Qed.

(** One call reclaims exactly the pairs its budget allows, deletes nothing live and
    nothing at or above the floor, reports what it did, says complete exactly when the
    scan reached the end, and touches no other stream. *)
Theorem compaction_exact indexer stream db H query blocks m :
  stored_by indexer stream db H -> query_indexer query = indexer -> query_stream query = stream -> configured query blocks m ->
  let floor := compactionFloor (query_latestBlock query) blocks in
  let before := rows_of db indexer stream in
  exists db' report, compactEmissionPairs db query = Ok (Some (db', report))
  /\ live_entries (rows_of db' indexer stream) = live_entries before
  /\ rows_of db' indexer stream `sublist_of` before
  /\ (forall row, row ∈ before -> row ∉ rows_of db' indexer stream -> row_alive row = false /\ row_blockNumber row < floor)
  /\ report_pairsCompacted report = (m `min` (length (candidatesBelow floor before) / 2))%nat
  /\ (length (candidatesBelow floor (rows_of db' indexer stream)) + report_pairsCompacted report * 2
       = length (candidatesBelow floor before))%nat
  /\ report_complete report = bool_decide (length (candidatesBelow floor before) < m * 2)%nat
  /\ forall indexer' stream', (indexer', stream') <> (indexer, stream) -> rows_of db' indexer' stream' = rows_of db indexer' stream'.
Proof.
  intros [_ Htidy]%stored_invariant <- <- Hcfg floor before.
  destruct (compaction_spec db query blocks m Hcfg Htidy) as (db' & report & ? & _ & ? & ? & ? & Hlen & Hdel & ? & ? & _ & ?).
  exists db', report. rewrite <- Hdel. split_and!; done.
Qed.

(** *** A stream with one block replaced, swept one pair at a time *)
Definition swept_query : PairCompactionQuery := mkCompactionQuery "main" "stream1" (Some (CompactBlocks 2)) 2 10 (Some 1).

Lemma swept_stored : stored_by "main" "stream1" run_after [sample_block 1 "a1"; sample_block 2 "b2"].
Proof.
  apply (stored_append "main" "stream1" run_before run_after [sample_block 1 "a1"] [sample_block 2 "a2"]
    [sample_block 2 "b2"] (claim_to 2 2)); [|by vm_compute|evaluate|by repeat constructor].
  apply (stored_append "main" "stream1" emptyDb run_before [] [] [sample_block 1 "a1"; sample_block 2 "a2"] (claim_to 2 2));
    [constructor|by vm_compute|evaluate|by repeat constructor].
Qed.

Lemma swept_configured : configured swept_query 2 1.
Proof. split; done. Qed.

Lemma stored_stream_invariant_witness :
  balanced (rows_of run_after "main" "stream1")
  /\ replayed (rows_of run_after "main" "stream1") = entries_of [sample_block 1 "a1"; sample_block 2 "b2"].
Proof. destruct (stored_stream_invariant "main" "stream1" run_after _ swept_stored) as (_ & Hb & _ & Hr). done. Defined.

Lemma compaction_sweep_witness :
  exists db', sweepAll 3 run_after swept_query = Some db'
  /\ length (rows_of run_after "main" "stream1") = 4%nat /\ length (rows_of db' "main" "stream1") = 2%nat.
Proof.
  destruct (compaction_sweep "main" "stream1" run_after _ swept_query 2 1 swept_stored eq_refl eq_refl swept_configured)
    as (db' & Hsweep & Hrows & _).
  exists db'. split_and!; [exact Hsweep|reflexivity|]. rewrite Hrows. vm_compute. reflexivity.
Defined.

Lemma compaction_exact_witness :
  exists db' report, compactEmissionPairs run_after swept_query = Ok (Some (db', report))
  /\ report_pairsCompacted report = 1%nat /\ report_complete report = false.
Proof.
  destruct (compaction_exact "main" "stream1" run_after _ swept_query 2 1 swept_stored eq_refl eq_refl swept_configured)
    as (db' & report & Hcall & _ & _ & _ & Hpairs & _ & Hcomplete & _).
  exists db', report. split; [exact Hcall|]. rewrite Hpairs, Hcomplete. split; vm_compute; reflexivity.
Defined.

(** *** A compacted tail: the positions of the feed are allocated again

    The highest numbers of the stream are a reclaimed pair, so the high-water mark drops
    and the next entry takes a number a feed consumer has already been served past. *)
Definition tail_before : EmissionDb :=
  append_turn (append_turn emptyDb 2 [] [sample_block 1 "a1"; sample_block 2 "a2"]) 3 [sample_block 2 "a2"] [].

Definition tail_compacted : EmissionDb :=
  match compactEmissionPairs tail_before (mkCompactionQuery "main" "stream1" (Some (CompactBlocks 2)) 2 10 None) with
  | Ok (Some (db, _)) => db
  | _ => emptyDb
  end.

Definition tail_after : EmissionDb := append_turn tail_compacted 12 [] [sample_block 9 "a9"; sample_block 11 "a11"; sample_block 12 "a12"].

Lemma compaction_reuses_seq :
  feed_position (readStreamFeed tail_before "main" "stream1" 0 10) = 3
  /\ heights (live_entries (rows_of tail_after "main" "stream1")) = [(1, "a1"); (9, "a9"); (11, "a11"); (12, "a12")]
  /\ heights (feed_entry <$> feed_entries (readStreamFeed tail_after "main" "stream1" 3 10)) = [(12, "a12")].
Proof. vm_compute. done. Qed.
