(* ===== verification/Chunks.v ===== *)
(** * Replaying part of a log

    What a replay of the rows of a block range delivers: the log cut at a block is a log
    again, and the rows a fold already covers are told from the new ones among them. *)
From S2P Require Import Prelude Types Stream Reorg Replay.

(** ** A log cut at a block *)
Definition below (to : Z) (gs : list StreamGroup) : list StreamGroup :=
  filter (fun g => number (group_block g) <= to) gs.

Definition above (to : Z) (gs : list StreamGroup) : list StreamGroup :=
  filter (fun g => to < number (group_block g)) gs.

Lemma below_groups to (D N : list EventBlock) :
  below to ((retractedGroup <$> D) ++ (appliedGroup <$> N))
  = (retractedGroup <$> upto to D) ++ (appliedGroup <$> upto to N).
Proof. unfold below, upto. rewrite filter_app. f_equal; by apply filter_pairs. Qed.

Lemma above_groups to (D N : list EventBlock) :
  above to ((retractedGroup <$> D) ++ (appliedGroup <$> N))
  = (retractedGroup <$> over to D) ++ (appliedGroup <$> over to N).
Proof. unfold above, over. rewrite filter_app. f_equal; by apply filter_pairs. Qed.

Lemma upto_upto to to' c : to <= to' -> upto to (upto to' c) = upto to c.
Proof. intros Hle. unfold upto. rewrite list_filter_filter. apply filter_ext_in. intros b _. lia. Qed.

Lemma below_app to gs gs' : below to (gs ++ gs') = below to gs ++ below to gs'.
Proof. apply filter_app. Qed.

Lemma above_app to gs gs' : above to (gs ++ gs') = above to gs ++ above to gs'.
Proof. apply filter_app. Qed.

(** The rows at or below a block are a log of the chain up to it. *)
Lemma cycles_below from H0 gs H to :
  cycles from H0 gs H -> cycles from (upto to H0) (below to gs) (upto to H).
Proof.
  induction 1 as [|gs P D N Hc IH Hwf Hdis Hlow]; [constructor|].
  rewrite below_app, below_groups, upto_app. rewrite upto_app in IH. constructor; [done|..].
  - rewrite <- upto_app. eapply chain_wf_sublist; [apply upto_sublist|done].
  - intros x y [_ Hx]%list_elem_of_filter [_ Hy]%list_elem_of_filter. by apply Hdis.
  - eapply Forall_sublist; [|exact Hlow]. apply sublist_app; apply upto_sublist.
Qed.

(** The blocks of a log know their height by their hash. *)
Definition heighted (gs : list StreamGroup) : Prop :=
  forall g g', g ∈ gs -> g' ∈ gs -> hash (group_block g) = hash (group_block g') ->
    number (group_block g) = number (group_block g').

(** The rows above a block are a log over any chain up to it. *)
Lemma cycles_above from H0 gs H to base :
  cycles from H0 gs H -> chain_wf H0 -> chain_wf base -> Forall (fun b => number b <= to) base ->
  (forall b x, b ∈ base -> x ∈ over to H0 -> hash b <> hash x) ->
  (forall b g, b ∈ base -> g ∈ above to gs -> hash b <> hash (group_block g)) ->
  cycles (to + 1) (base ++ over to H0) (above to gs) (base ++ over to H).
Proof.
  intros Hc Hwf0 Hbase Hle Hd0. induction Hc as [|gs P D N Hc IH Hwf Hdis Hlow]; intros Hd; [constructor|].
  rewrite above_app, above_groups, over_app in *. rewrite (app_assoc base) in IH |- *. constructor.
  - apply IH. intros b g Hb Hg. apply Hd; [done|]. apply elem_of_app. by left.
  - rewrite <- app_assoc, <- over_app. pose proof (chain_wf_sublist _ _ (over_sublist to (P ++ N)) Hwf) as [Ha Hn Hb].
    destruct Hbase as [Hba Hbn Hbb]. split.
    + apply ascending_app. split_and!; [|done|done]. intros x y Hx [Hy _]%list_elem_of_filter.
      rewrite Forall_forall in Hle. specialize (Hle x Hx). lia.
    + rewrite fmap_app. apply NoDup_app. split_and!; [done| |done].
      intros h (b & -> & Hbin)%list_elem_of_fmap (x & Hh & Hx)%list_elem_of_fmap.
      rewrite over_app in Hx. apply elem_of_app in Hx as [Hx|Hx].
      * (* a block of P is on the chain the log started from, or was applied by it *)
        revert Hh. assert (x ∈ over to H0 \/ exists g, g ∈ above to gs /\ group_block g = x) as [Hx0|(g & Hg & <-)].
        { apply list_elem_of_filter in Hx as [Hgt Hx].
          assert (forall Z0, cycles from H0 gs Z0 -> x ∈ Z0 -> x ∈ H0 \/ appliedGroup x ∈ gs) as Hin.
          { clear. intros Z0. induction 1 as [|gs P D N Hc IH Hwf Hdis Hlow]; [by left|]. rewrite !elem_of_app. intros [Hx|Hx].
            - destruct IH as [?|?]; [apply elem_of_app; by left|by left|right; by left].
            - right; right; right. by apply list_elem_of_fmap_2. }
          destruct (Hin (P ++ D) Hc ltac:(apply elem_of_app; by left)) as [?|?].
          - left. by apply elem_of_filter_intro.
          - right. exists (appliedGroup x). split; [|done]. by apply elem_of_filter_intro. }
        -- by apply Hd0.
        -- apply Hd; [done|]. apply elem_of_app. by left.
      * revert Hh. apply (Hd b (appliedGroup x) Hbin). rewrite !elem_of_app. right; right. by apply list_elem_of_fmap_2.
    + by apply Forall_app.
  - intros x y [_ Hx]%list_elem_of_filter [_ Hy]%list_elem_of_filter. by apply Hdis.
  - apply Forall_app. split; apply Forall_forall; intros x [Hx _]%list_elem_of_filter; lia.
Qed.

(** ** What the last word on a block says *)
Lemma app_split_at {A} (l k l1 l2 : list A) x :
  l ++ k = l1 ++ x :: l2 ->
  (exists r, l = l1 ++ x :: r /\ l2 = r ++ k) \/ (exists r, l1 = l ++ r /\ k = r ++ x :: l2).
Proof.
  intros (r & [[-> Hk]|[-> ->]])%app_eq_app; [|right; by exists r].
  destruct r as [|y r]; simpl in Hk; [right; exists []; by rewrite !app_nil_r|].
  injection Hk as <- ->. left. by exists r.
Qed.

Definition mentions (g : StreamGroup) (removed : bool) (gs : list StreamGroup) : Prop :=
  exists g', g' ∈ gs /\ hash (group_block g') = hash (group_block g) /\ group_removed g' = removed.

#[export] Instance mentions_dec g removed gs : Decision (mentions g removed gs).
Proof.
  destruct (decide (Exists (fun g' => hash (group_block g') = hash (group_block g) /\ group_removed g' = removed) gs)) as [Hm|Hm];
    rewrite Exists_exists in Hm; [left|right]; exact Hm.
Defined.

Lemma mentions_app g v gs gs' : mentions g v (gs ++ gs') <-> mentions g v gs \/ mentions g v gs'.
Proof.
  unfold mentions. split.
  - intros (g' & [Hg|Hg]%elem_of_app & ?); [left|right]; by exists g'.
  - intros [(g' & Hg & ?)|(g' & Hg & ?)]; exists g'; (split; [apply elem_of_app; auto|done]).
Qed.

Lemma cycles_last_retracted from gs H l g r :
  cycles from [] gs H -> gs = l ++ g :: r -> group_removed g = true -> ~ mentions g false r ->
  hash (group_block g) ∉ hash <$> H.
Proof.
  intros Hc. revert l g r. induction Hc as [|gs P D N Hc IH Hwf Hdis Hlow]; intros l g r Hsplit Hr Hno; [by destruct l|].
  pose proof (chain_wf_hashes _ (cycles_chain _ _ _ _ chain_wf_nil Hc)) as Hnd. rewrite fmap_app in Hnd. apply NoDup_app in Hnd as (_ & HPD & _).
  assert (forall n, n ∈ N -> hash n = hash (group_block g) -> (exists r', r = r' ++ (appliedGroup <$> N)) -> False) as HN.
  { intros n Hn Hh (r' & ->). apply Hno. exists (appliedGroup n). split_and!; [apply elem_of_app; right; by apply list_elem_of_fmap_2|done|done]. }
  rewrite fmap_app, elem_of_app. apply app_split_at in Hsplit as [(r1 & Hgs & ->)|(l1 & -> & Hsplit)].
  - rewrite mentions_app in Hno.
    assert (hash (group_block g) ∉ hash <$> P ++ D) as HPDno by (by eapply IH; [exact Hgs|exact Hr|tauto]).
    rewrite fmap_app, elem_of_app in HPDno. intros [?|(n & Hh & Hn)%list_elem_of_fmap]; [tauto|].
    apply (HN n Hn (eq_sym Hh)). exists (r1 ++ (retractedGroup <$> D)). by rewrite <- app_assoc.
  - apply app_split_at in Hsplit as [(r1 & HD & ->)|(l2 & -> & Hsplit)].
    + assert (g ∈ retractedGroup <$> D) as (b & -> & Hb)%list_elem_of_fmap by (rewrite HD; apply elem_of_app; right; left).
      simpl. intros [HP|(n & Hh & Hn)%list_elem_of_fmap].
      * apply (HPD (hash b) HP). by apply list_elem_of_fmap_2.
      * apply (HN n Hn (eq_sym Hh)). by exists r1.
    + assert (g ∈ appliedGroup <$> N) as (b & -> & Hb)%list_elem_of_fmap by (rewrite Hsplit; apply elem_of_app; right; left). done.
Qed.

Lemma cycles_last_applied from gs H l g r :
  cycles from [] gs H -> gs = l ++ g :: r -> group_removed g = false -> ~ mentions g true r -> group_block g ∈ H.
Proof.
  intros Hc. revert l g r. induction Hc as [|gs P D N Hc IH Hwf Hdis Hlow]; intros l g r Hsplit Hr Hno; [by destruct l|].
  rewrite elem_of_app. apply app_split_at in Hsplit as [(r1 & Hgs & ->)|(l1 & -> & Hsplit)].
  - rewrite !mentions_app in Hno. assert (group_block g ∈ P ++ D) as [?|HD]%elem_of_app by (eapply IH; [exact Hgs|exact Hr|tauto]); [by left|].
    exfalso. apply Hno. right. left. exists (retractedGroup (group_block g)). split_and!; [by apply list_elem_of_fmap_2|done|done].
  - apply app_split_at in Hsplit as [(r1 & HD & ->)|(l2 & -> & Hsplit)].
    + assert (g ∈ retractedGroup <$> D) as (b & -> & Hb)%list_elem_of_fmap by (rewrite HD; apply elem_of_app; right; left). done.
    + assert (g ∈ appliedGroup <$> N) as (b & -> & Hb)%list_elem_of_fmap by (rewrite Hsplit; apply elem_of_app; right; left). by right.
Qed.

(** A retraction follows the application it takes back. *)
Lemma cycles_applied_before from gs H l g r :
  cycles from [] gs H -> gs = l ++ g :: r -> group_removed g = true -> mentions g false l.
Proof.
  intros Hc. revert l g r. induction Hc as [|gs P D N Hc IH Hwf Hdis Hlow]; intros l g r Hsplit Hr; [by destruct l|].
  apply app_split_at in Hsplit as [(r1 & Hgs & ->)|(l1 & -> & Hsplit)]; [by eapply IH|].
  apply app_split_at in Hsplit as [(r1 & HD & ->)|(l2 & -> & Hsplit)].
  - assert (g ∈ retractedGroup <$> D) as (b & -> & Hb)%list_elem_of_fmap by (rewrite HD; apply elem_of_app; right; left).
    apply mentions_app. left. exists (appliedGroup b). split_and!; [|done|done]. eapply cycles_applied; [exact Hc|]. apply elem_of_app. by right.
  - assert (g ∈ appliedGroup <$> N) as (b & -> & Hb)%list_elem_of_fmap by (rewrite Hsplit; apply elem_of_app; right; left). done.
Qed.

(** ** The walk over covered and new rows together *)
Lemma replayStep_fst w acc acc' gs : (foldl replayStep (w, acc) gs).1 = (foldl replayStep (w, acc') gs).1.
Proof.
  revert w acc acc'. induction gs as [|g gs IH]; intros w acc acc'; [done|]. cbn [foldl]. unfold replayStep at 2 4.
  destruct (group_removed g), (live w !! hash (group_block g)); apply IH.
Qed.

Lemma replayStep_other w acc gs h :
  (forall g, g ∈ gs -> hash (group_block g) <> h) -> live (foldl replayStep (w, acc) gs).1 !! h = live w !! h.
Proof.
  revert w acc. induction gs as [|g gs IH]; intros w acc Hne; [done|]. cbn [foldl]. unfold replayStep at 2.
  assert (hash (group_block g) <> h) as Hg by (apply Hne; left).
  assert (forall g', g' ∈ gs -> hash (group_block g') <> h) as Hgs by (intros g' ?; apply Hne; by right).
  destruct (group_removed g), (live w !! hash (group_block g)); rewrite IH by done; try done; simpl.
  - by rewrite lookup_delete_ne.
  - by rewrite lookup_insert_ne.
Qed.

(** The covered rows are passed over, the new ones are walked. *)
Lemma replayLoop_mixed T w acc L R :
  (forall l g r, L = l ++ g :: r -> number (group_block g) <= T ->
    let held := live (foldl replayStep (w, []) (above T l)).1 !! hash (group_block g) in
    if group_removed g then held = None else is_Some held \/ retractedLater (hash (group_block g)) (r ++ R) = true) ->
  replayLoop T w acc (L ++ R)
  = replayLoop T (foldl replayStep (w, acc) (above T L)).1 (foldl replayStep (w, acc) (above T L)).2 R.
Proof.
  revert w acc. induction L as [|g L IH]; intros w acc Hskip; [done|]. rewrite <- app_comm_cons. cbn [replayLoop].
  unfold above. rewrite filter_cons. destruct (decide (T < number (group_block g))) as [Hnew|Hold].
  - assert (forall w' acc', replayStep (w, []) g = (w', acc') -> replayLoop T w' (acc ++ acc') (L ++ R)
      = replayLoop T (foldl replayStep (w', acc ++ acc') (above T L)).1 (foldl replayStep (w', acc ++ acc') (above T L)).2 R) as Hrec.
    { intros w' acc' Hstep. apply IH. intros l x r -> Hx. specialize (Hskip (g :: l) x r eq_refl Hx). unfold above in Hskip.
      rewrite filter_cons_True in Hskip by done. cbn [foldl] in Hskip. rewrite Hstep, (replayStep_fst w' acc' []) in Hskip. exact Hskip. }
    cbn [foldl]. unfold replayStep at 2 4. unfold replayStep in Hrec.
    destruct (group_removed g), (live w !! hash (group_block g)) as [x|].
    + by apply (Hrec _ (events (group_block g))).
    + specialize (Hrec _ [] eq_refl). by rewrite app_nil_r in Hrec.
    + specialize (Hrec _ [] eq_refl). by rewrite app_nil_r in Hrec.
    + rewrite decide_False by lia. by apply (Hrec _ (events (group_block g))).
  - assert (replayLoop T w acc (L ++ R)
      = replayLoop T (foldl replayStep (w, acc) (above T L)).1 (foldl replayStep (w, acc) (above T L)).2 R) as Hrec.
    { apply IH. intros l x r -> Hx. specialize (Hskip (g :: l) x r eq_refl Hx). unfold above in Hskip.
      rewrite filter_cons_False in Hskip by done. exact Hskip. }
    specialize (Hskip [] g L eq_refl ltac:(lia)). cbv zeta in Hskip. cbn [above foldl fst] in Hskip. unfold above in Hskip. rewrite filter_nil in Hskip. cbn [foldl fst] in Hskip.
    destruct (group_removed g); [by rewrite Hskip|]. destruct (live w !! hash (group_block g)) as [x|]; [done|].
    rewrite decide_True; [done|]. split; [lia|]. destruct Hskip as [[? [=]]|?]; done.
Qed.

(** ** A chunk *)
Lemma cycles_relow from from' H0 gs H :
  cycles from H0 gs H -> Forall (fun g => from' <= number (group_block g)) gs -> cycles from' H0 gs H.
Proof.
  induction 1 as [|gs P D N Hc IH Hwf Hdis Hlow]; intros Hall; [constructor|].
  rewrite !Forall_app, !Forall_fmap in Hall. destruct Hall as (Hgs & HD & HN). constructor; auto. by apply Forall_app.
Qed.

Lemma cycles_numbers from H0 gs H : cycles from H0 gs H -> Forall (fun g => from <= number (group_block g)) gs.
Proof.
  induction 1 as [|gs P D N Hc IH Hwf Hdis Hlow]; [constructor|]. apply Forall_app in Hlow as [HD HN].
  rewrite !Forall_app, !Forall_fmap. done.
Qed.

Lemma cycles_app from H0 gs H1 gs' H2 : cycles from H0 gs H1 -> cycles from H1 gs' H2 -> cycles from H0 (gs ++ gs') H2.
Proof.
  intros H01. induction 1 as [|gs' P D N Hc IH Hwf Hdis Hlow]; [by rewrite app_nil_r|]. rewrite app_assoc. by constructor.
Qed.

Lemma from_block_all from gs : Forall (fun g => from <= number (group_block g)) gs -> from_block from gs = gs.
Proof. apply filter_Forall_id. Qed.

(** The rows a chunk reads. *)
Definition slice (from to : Z) (gs : list StreamGroup) : list StreamGroup := from_block from (below to gs).

Section Chunk.
Context (d from0 : Z) (s : LastSync) (bounds : FetchBounds) (gs0 gs1 : list StreamGroup) (H0 H : list EventBlock).
Let from := newLastFromBlock bounds.
Let to := newLastToBlock bounds.
Let T := lastToBlock s.

(** No block at or below what the fold covers was applied twice in what it reads. *)
Hypothesis Honce : NoDup (verdict <$> below T (from_block from (gs0 ++ gs1))).
Hypothesis Hheights : heighted (gs0 ++ gs1).
Hypothesis Hc0 : cycles from0 [] gs0 H0.
Hypothesis Hstart : d <= from0.
Hypothesis Hadv : advancing d s bounds.

Lemma new_in_range g : g ∈ gs0 -> T < number (group_block g) -> from <= number (group_block g).
Proof.
  intros Hg Hn. pose proof (cycles_numbers _ _ _ _ Hc0) as Hall. rewrite Forall_forall in Hall. specialize (Hall g Hg).
  unfold from. rewrite (advancing_from _ _ _ Hadv). unfold getFromBlock. fold T. case_decide; lia.
Qed.

Lemma twice_applied k1 g k2 g1 g2 :
  gs0 = k1 ++ g :: k2 -> from <= number (group_block g) <= T ->
  g1 ∈ k1 ++ [g] -> g2 ∈ k2 ++ gs1 -> hash (group_block g1) = hash (group_block g) -> hash (group_block g2) = hash (group_block g) ->
  group_removed g1 = group_removed g2 -> False.
Proof.
  intros Hgs Hn Hg1 Hg2 Hh1 Hh2 Hv. revert Honce. rewrite Hgs.
  replace ((k1 ++ g :: k2) ++ gs1) with ((k1 ++ [g]) ++ (k2 ++ gs1)) by (by rewrite <- !app_assoc).
  set (X := k1 ++ [g]) in *. set (Y := k2 ++ gs1) in *.
  unfold below, from_block. rewrite !filter_app, fmap_app. intros (_ & Hdis & _)%NoDup_app.
  assert (forall x, x ∈ gs0 ++ gs1 -> hash (group_block x) = hash (group_block g) -> number (group_block x) = number (group_block g)) as Hnum.
  { intros x Hx Hh. apply Hheights; [done| |done]. rewrite Hgs. apply elem_of_app. left. apply elem_of_app. right. left. }
  assert (g1 ∈ gs0 ++ gs1 /\ g2 ∈ gs0 ++ gs1) as [Hin1 Hin2].
  { unfold X, Y in *. rewrite Hgs, !elem_of_app, !elem_of_cons in *. pose proof (not_elem_of_nil g1). tauto. }
  pose proof (Hnum g1 Hin1 Hh1) as Hn1. pose proof (Hnum g2 Hin2 Hh2) as Hn2.
  apply (Hdis (verdict g1)).
  - apply list_elem_of_fmap_2. repeat (apply elem_of_filter_intro; [lia|]). done.
  - replace (verdict g1) with (verdict g2) by (unfold verdict; congruence).
    apply list_elem_of_fmap_2. repeat (apply elem_of_filter_intro; [lia|]). done.
Qed.

Lemma chunk_skips w K l g r :
  walk_holds w K -> sees from K (upto T H0) -> T <= to ->
  slice from to gs0 = l ++ g :: r -> number (group_block g) <= T ->
  let held := live (foldl replayStep (w, []) (above T l)).1 !! hash (group_block g) in
  if group_removed g then held = None
  else is_Some held \/ retractedLater (hash (group_block g)) (r ++ below to gs1) = true.
Proof.
  intros Hw [HKsub HK] Hto Hsplit Hold held. unfold slice, from_block, below in Hsplit. rewrite list_filter_filter in Hsplit.
  assert (forall x, x ∈ l -> x ∈ gs0) as Hl.
  { intros x Hx. assert (x ∈ l ++ g :: r) as Hin by (apply elem_of_app; by left). rewrite <- Hsplit in Hin. by apply list_elem_of_filter in Hin as [_ ?]. }
  apply filter_split in Hsplit as (k1 & k2 & Hgs & [Hf _] & Hr).
  assert (g ∈ gs0) as Hg by (rewrite Hgs; apply elem_of_app; right; left).
  assert (held = live w !! hash (group_block g)) as ->.
  { apply replayStep_other. intros x [Hnew Hx]%list_elem_of_filter Hh.
    assert (number (group_block x) = number (group_block g)) by (apply Hheights; [apply elem_of_app; left; by apply Hl|apply elem_of_app; by left|done]). lia. }
  destruct (group_removed g) eqn:Hrm.
  - eapply walk_live_None; [exact Hw|]. intros Hin.
    assert (hash (group_block g) ∈ hash <$> H0) as HinH.
    { eapply elem_of_sublist; [exact Hin|]. etrans; [apply sublist_fmap, HKsub|]. apply sublist_fmap, upto_sublist. }
    revert HinH. eapply cycles_last_retracted; [exact Hc0|exact Hgs|done|]. intros (g2 & Hg2 & Hh2 & Hv2).
    destruct (cycles_applied_before _ _ _ _ _ _ Hc0 Hgs Hrm) as (g1 & Hg1 & Hh1 & Hv1).
    eapply (twice_applied k1 g k2 g1 g2 Hgs); try done; try lia; [apply elem_of_app; by left|apply elem_of_app; by left|congruence].
  - destruct (decide (mentions g true k2)) as [(g2 & Hg2 & Hh2 & Hv2)|Hno].
    + right. apply retractedLater_true.
      * exists g2. split; [|done]. apply elem_of_app. left. rewrite <- Hr. apply elem_of_filter_intro; [|done].
        assert (number (group_block g2) = number (group_block g)); [|lia].
        apply Hheights; [|apply elem_of_app; by left|done]. rewrite Hgs, !elem_of_app, elem_of_cons. tauto.
      * intros g3 Hg3 Hh3. destruct (group_removed g3) eqn:Hv3; [done|exfalso].
        eapply (twice_applied k1 g k2 g g3 Hgs); try done; try lia; [apply elem_of_app; right; left| |congruence].
        apply elem_of_app in Hg3 as [Hg3|[_ Hg3]%list_elem_of_filter]; apply elem_of_app; [left|by right].
        rewrite <- Hr in Hg3. by apply list_elem_of_filter in Hg3 as [_ ?].
    + left. exists (group_block g). apply walk_live_Some with K; [done|]. apply HK; [|lia].
      apply elem_of_filter_intro; [done|]. by eapply cycles_last_applied.
Qed.

Hypothesis Hc1 : cycles from H0 gs1 H.

Lemma slice_cycles : cycles from [] (slice from to (gs0 ++ gs1)) (over (from - 1) (upto to H)).
Proof.
  assert (cycles (Z.min from0 from) [] (gs0 ++ gs1) H) as Hc.
  { apply cycles_app with H0; (eapply cycles_relow; [eassumption|]); [pose proof (cycles_numbers _ _ _ _ Hc0) as Hall|pose proof (cycles_numbers _ _ _ _ Hc1) as Hall];
      (eapply Forall_impl; [exact Hall|]; simpl; lia). }
  apply (cycles_below _ _ _ _ to) in Hc. replace from with (from - 1 + 1) at 1 by lia.
  assert (slice from to (gs0 ++ gs1) = above (from - 1) (below to (gs0 ++ gs1))) as ->.
  { unfold slice, from_block, above. apply filter_ext_in. intros g _. lia. }
  apply (cycles_above _ _ _ _ (from - 1) []) in Hc; [done|apply chain_wf_nil|apply chain_wf_nil|constructor| |];
    by intros b x ?%not_elem_of_nil.
Qed.

Lemma base_distinct b g :
  T <= to -> b ∈ upto T H0 -> g ∈ above T (below to gs0) -> hash b <> hash (group_block g).
Proof.
  intros Hle [Hb Hbin]%list_elem_of_filter [Hg [_ Hgin]%list_elem_of_filter]%list_elem_of_filter Hh.
  assert (number (group_block (appliedGroup b)) = number (group_block g)) as Hn; [|simpl in Hn; lia].
  apply Hheights; [apply elem_of_app; left; by eapply cycles_applied|apply elem_of_app; by left|done].
Qed.

(** What a chunk adds to a fold that covers up to [T]. *)
Definition added : list StreamGroup := above T (below to gs0) ++ below to gs1.

Lemma added_cycles : T <= to -> chain_wf (upto T H0) -> cycles from (upto T H0) added (upto to H).
Proof.
  intros Hle Hwf. pose proof (cycles_chain _ _ _ _ chain_wf_nil Hc0) as Hwf0.
  apply cycles_app with (upto to H0); [|by apply cycles_below].
  pose proof (cycles_below _ _ _ _ to Hc0) as Hb.
  apply (cycles_above _ _ _ _ T (upto T H0)) in Hb; [|apply chain_wf_nil|done| |by intros b x _ ?%not_elem_of_nil|by intros b g ? ?; apply base_distinct].
  2:{ apply Forall_forall. by intros b [? _]%list_elem_of_filter. }
  cbn [upto over filter list_filter] in Hb. change (over T []) with (@nil EventBlock) in Hb. rewrite app_nil_r in Hb.
  rewrite <- (upto_upto T to H0) in Hb at 2 by done. rewrite upto_over in Hb.
  - eapply cycles_relow; [exact Hb|]. apply Forall_forall. intros g [Hg [_ Hin]%list_elem_of_filter]%list_elem_of_filter. by apply new_in_range.
  - eapply ascending_sublist; [apply upto_sublist|]. apply Hwf0.
Qed.

Lemma chunk_replay :
  holds d (finality bounds) s (upto T H0) -> T <= to -> nothing_reread T (below to gs1) ->
  exists s', generateStreamFromReplay s d (group_events (slice from to (gs0 ++ gs1))) bounds = Ok (group_events added, s')
    /\ context s' = context s /\ latestBlock s' = newLatestBlock bounds /\ lastToBlock s' = to
    /\ holds d (finality bounds) s' (upto to H).
Proof.
  intros [Hwf Hwin Hreach] Hto Hre. unfold generateStreamFromReplay.
  rewrite decide_False by (pose proof (advancing_from _ _ _ Hadv); tauto).
  rewrite (cycles_groups _ _ _ _ chain_wf_nil slice_cycles).
  assert (NoDup (hash <$> [] ++ unconfirmedBlocks s)) as Hnd.
  { eapply sublist_NoDup; [apply Hwf|]. by apply sublist_fmap. }
  pose proof (seed_holds _ _ _ walk_holds_empty Hnd) as Hseed. cbn [app] in Hseed.
  assert (sees from (unconfirmedBlocks s) (upto T H0)) as Hsees.
  { split; [done|]. intros b Hb Hf. apply Hreach; [done|]. by rewrite <- (advancing_from _ _ _ Hadv). }
  assert (slice from to (gs0 ++ gs1) = slice from to gs0 ++ below to gs1) as ->.
  { unfold slice. rewrite below_app. unfold from_block. rewrite filter_app. f_equal. apply filter_Forall_id.
    eapply Forall_sublist; [apply sublist_filter|]. by eapply cycles_numbers. }
  fold T. rewrite replayLoop_mixed by (intros l g r Hsplit Hg; by eapply chunk_skips).
  assert (above T (slice from to gs0) = above T (below to gs0)) as ->.
  { unfold slice, above, from_block, below. rewrite !list_filter_filter. apply filter_ext_in. intros g Hg.
    pose proof (new_in_range g Hg). lia. }
  rewrite replayLoop_fold by done. rewrite <- surjective_pairing, <- foldl_app. fold added.
  destruct (cycles_replay _ _ _ _ _ _ [] Hwf (added_cycles Hto Hwf) Hseed Hsees) as (w & K & -> & Hw & HK).
  eexists. split_and!; [done..|]. eapply walk_cursor_holds; try done.
  eapply chain_wf_sublist; [apply upto_sublist|]. eapply cycles_chain, Hc1. by eapply cycles_chain, Hc0; apply chain_wf_nil.
Qed.
End Chunk.
