(* ===== verification/Recode.v ===== *)
(** * The decoded half

    What the engine concludes from a log does not depend on what an ABI made of its bytes:
    a fetch shaped under one decoding is the fetch shaped under another, decoded again. *)
From S2P Require Import Prelude Types Stream Reorg Replay Emissions.

Section Recode.
Context (decodeOnto : string -> list string -> string -> Decoded).

Definition redecode (e : LogEvent) : LogEvent :=
  mkLog (blockNumber e) (blockHash e) (transactionIndex e) (removed e) (address e) (data e) (topics e)
    (transactionHash e) (logIndex e) (blockTimestamp e) (decodeOnto (address e) (topics e) (data e)).

Definition reblock (b : EventBlock) : EventBlock := mkBlock (hash b) (number b) (redecode <$> events b).

Definition regroup (g : StreamGroup) : StreamGroup := mkGroup (reblock (group_block g)) (group_removed g).

Definition resync (s : LastSync) : LastSync :=
  mkSync (context s) (latestBlock s) (lastFromBlock s) (lastToBlock s) (reblock <$> unconfirmedBlocks s).

Lemma redecode_feed e : feed_of_log (redecode e) = feed_of_log e.
Proof. done. Qed.

Lemma live_redecode live es : foldl live_step live (redecode <$> es) = foldl live_step live es.
Proof. revert live. induction es as [|e es IH]; intros live; [done|]. apply IH. Qed.

Lemma redecode_removed e : redecode (asRemoved e) = asRemoved (redecode e).
Proof. done. Qed.

Lemma redecode_twice e : redecode (redecode e) = redecode e.
Proof. done. Qed.

Lemma reblock_twice b : reblock (reblock b) = reblock b.
Proof. unfold reblock. cbn [hash number events]. f_equal. rewrite <- list_fmap_compose. by apply list_fmap_ext. Qed.

Lemma reblock_applied b : regroup (appliedGroup b) = appliedGroup (reblock b).
Proof. done. Qed.

Lemma reblock_retracted b : regroup (retractedGroup b) = retractedGroup (reblock b).
Proof. unfold regroup, retractedGroup, reblock. cbn. do 2 f_equal. rewrite <- !list_fmap_compose. by apply list_fmap_ext. Qed.

Lemma regroup_events gs : group_events (regroup <$> gs) = redecode <$> group_events gs.
Proof. induction gs as [|g gs IH]; [done|]. csimpl. rewrite !group_events_cons, IH, fmap_app. done. Qed.

Lemma events_of_reblock c : events_of (reblock <$> c) = redecode <$> events_of c.
Proof. induction c as [|b c IH]; [done|]. csimpl. rewrite !events_of_cons, IH, fmap_app. done. Qed.

Lemma retractions_of_reblock c : retractions_of (reblock <$> c) = redecode <$> retractions_of c.
Proof.
  unfold retractions_of. rewrite events_of_reblock, <- !list_fmap_compose. by apply list_fmap_ext.
Qed.

Lemma filter_reblock (P : EventBlock -> Prop) `{!forall b, Decision (P b)} (c : list EventBlock) :
  (forall b, P (reblock b) <-> P b) -> filter P (reblock <$> c) = reblock <$> filter P c.
Proof. intros HP. apply filter_pairs. auto. Qed.

Lemma upto_reblock to c : upto to (reblock <$> c) = reblock <$> upto to c.
Proof. by apply filter_reblock. Qed.

(** ** Grouping and the reorg walk *)
Lemma groupLogs_redecode es : groupLogsPerBlock (redecode <$> es) = reblock <$> groupLogsPerBlock es.
Proof.
  unfold groupLogsPerBlock. change (@nil EventBlock) with (reblock <$> []) at 1. generalize (@nil EventBlock).
  assert (forall gs e, addToGroup (reblock <$> gs) (redecode e) = reblock <$> addToGroup gs e) as Hadd.
  { intros gs e. induction gs as [|b gs IH]; [done|]. cbn [fmap list_fmap addToGroup]. unfold reblock at 1 2. cbn [hash].
    change (blockHash (redecode e)) with (blockHash e). case_decide; csimpl; [|by f_equal].
    f_equal. unfold reblock. cbn [hash number events]. by rewrite fmap_app. }
  induction es as [|e es IH]; intros gs; [done|]. cbn [fmap list_fmap foldl]. unfold fetchStep at 2 4.
  change (removed (redecode e)) with (removed e). destruct (removed e); [apply IH|]. rewrite Hadd. apply IH.
Qed.

Lemma hashPerNumber_reblock bs : newBlockHashPerNumber (reblock <$> bs) = newBlockHashPerNumber bs.
Proof. unfold newBlockHashPerNumber. generalize (∅ : gmap Z string). induction bs as [|b bs IH]; intros m; [done|]. apply IH. Qed.

Lemma findReorg_reblock hashAt from to window i :
  findReorg hashAt from to (reblock <$> window) i
  = ((fun '(b, c) => (reblock b, c)) <$> (findReorg hashAt from to window i).1, (findReorg hashAt from to window i).2).
Proof.
  revert i. induction window as [|b window IH]; intros i; [done|]. cbn [fmap list_fmap findReorg].
  change (number (reblock b)) with (number b). change (hash (reblock b)) with (hash b). case_decide; [apply IH|].
  destruct (hashAt !! number b); [|done]. case_decide; [apply IH|done].
Qed.

Lemma sort_reblock c : sort_on number (reblock <$> c) = reblock <$> sort_on number c.
Proof.
  unfold sort_on. induction c as [|b c IH]; [done|]. rewrite fmap_cons. cbn [foldr]. rewrite IH.
  generalize (foldr (insert_on number) [] c). intros l. induction l as [|x l IHl]; [done|].
  rewrite fmap_cons. cbn [insert_on]. change (number (reblock b)) with (number b). change (number (reblock x)) with (number x).
  case_decide; [done|]. rewrite fmap_cons. by f_equal.
Qed.

(** ** Shaping a fetch *)
Lemma generateStreamToAppend_redecode s d es bounds :
  generateStreamToAppend (resync s) d (redecode <$> es) bounds
  = (fun a => mkAppended (redecode <$> eventStream a) (resync (newLastSync a)) (reorg a))
      <$> generateStreamToAppend s d es bounds.
Proof.
  unfold generateStreamToAppend. change (getFromBlock (resync s) d (finality bounds)) with (getFromBlock s d (finality bounds)).
  case_decide; [done|]. rewrite groupLogs_redecode, hashPerNumber_reblock. cbn [unconfirmedBlocks resync]. rewrite findReorg_reblock.
  destruct (findReorg _ _ _ (unconfirmedBlocks s) 0) as [found i]. cbn [fst snd fmap result_fmap].
  f_equal. cbn [eventStream newLastSync reorg]. rewrite <- fmap_take, <- fmap_drop.
  assert ((fun b => windowKeyOf (number b) (hash b)) <$> (reblock <$> take i (unconfirmedBlocks s))
    = (fun b => windowKeyOf (number b) (hash b)) <$> take i (unconfirmedBlocks s)) as ->.
  { rewrite <- list_fmap_compose. by apply list_fmap_ext. }
  set (retained := list_to_set _).
  assert (forall b, isNewBlock retained (reblock b) = isNewBlock retained b) as Hnew.
  { intros b. unfold isNewBlock. apply bool_decide_ext. cbn [events reblock hash number].
    assert (redecode <$> events b = [] <-> events b = []) by (split; [apply fmap_nil_inv|by intros ->]). tauto. }
  rewrite !filter_reblock by (intros b; by rewrite ?Hnew).
  f_equal.
  - rewrite fmap_app, <- events_of_reblock. f_equal. destruct found as [[b c]|]; [|done]. apply retractions_of_reblock.
  - unfold resync. cbn [context latestBlock lastFromBlock lastToBlock unconfirmedBlocks]. by rewrite <- fmap_app, sort_reblock.
  - by destruct found as [[b c]|].
Qed.

(** ** Chains and logs *)
Lemma reblock_hash (c : list EventBlock) : hash <$> (reblock <$> c) = hash <$> c.
Proof. rewrite <- list_fmap_compose. by apply list_fmap_ext. Qed.

Lemma block_wf_reblock b : block_wf (reblock b) <-> block_wf b.
Proof.
  split; intros [Hne He Hnum]; cbn [reblock events number hash] in *.
  - apply Forall_fmap in He. split; [by destruct (events b)|exact He|done].
  - split; cbn [reblock events number hash]; [by destruct (events b)|by apply Forall_fmap|done].
Qed.

Lemma chain_wf_reblock c : chain_wf (reblock <$> c) <-> chain_wf c.
Proof.
  assert (number <$> (reblock <$> c) = number <$> c) as Hnum by (rewrite <- list_fmap_compose; by apply list_fmap_ext).
  split; intros [Ha Hn Hwf]; split.
  - by eapply ascending_by_fmap.
  - by rewrite <- reblock_hash.
  - rewrite Forall_fmap in Hwf. eapply Forall_impl; [exact Hwf|]. intros b. apply block_wf_reblock.
  - by eapply ascending_by_fmap.
  - by rewrite reblock_hash.
  - apply Forall_fmap. eapply Forall_impl; [exact Hwf|]. intros b. apply block_wf_reblock.
Qed.

Lemma cycles_reblock from H0 gs H :
  cycles from H0 gs H -> cycles from (reblock <$> H0) (regroup <$> gs) (reblock <$> H).
Proof.
  induction 1 as [|gs P D N Hc IH Hwf Hdis Hlow]; [constructor|]. rewrite !fmap_app in *.
  assert (regroup <$> (retractedGroup <$> D) = retractedGroup <$> (reblock <$> D)) as ->.
  { rewrite <- !list_fmap_compose. apply list_fmap_ext. intros i b _. apply reblock_retracted. }
  assert (regroup <$> (appliedGroup <$> N) = appliedGroup <$> (reblock <$> N)) as ->.
  { rewrite <- !list_fmap_compose. by apply list_fmap_ext. }
  constructor; [done|..].
  - rewrite <- fmap_app. by apply chain_wf_reblock.
  - intros x y (x' & -> & Hx)%list_elem_of_fmap (y' & -> & Hy)%list_elem_of_fmap. exact (Hdis x' y' Hx Hy).
  - rewrite <- fmap_app. by apply Forall_fmap.
Qed.
End Recode.
