(* ===== verification/Rebuild.v ===== *)
(** * The bounded rebuild

    [packages/core/src/generation/rebuild.ts] over the bounded read of
    [packages/server/src/streamReader.ts]: a fold that fetches nothing replays the stored
    stream in chunks, each from the cursor its own store holds. *)
From S2P Require Import Prelude JsMap Types Stream Reorg Replay Invalidation Entities StoreSpec MutationContext EntityProcessor Json Cursor StreamBuilder Emissions.

(** ** The port *)
Record ReplayChunkQuery : Type := mkChunkQuery {
  chunk_stream : string;
  chunk_fromBlock : Z;
  chunk_foldedThrough : Z;
  chunk_maxEmissions : nat
}.

(** The stored logs, with their verdicts and without a decoded half. *)
Record ReplayChunk : Type := mkChunk {
  chunk_eventStream : list FeedEntry;
  chunk_lastFromBlock : Z;
  chunk_lastToBlock : Z;
  chunk_latestBlock : Z;
  chunk_truncated : bool;
  chunk_highWater : Z
}.

(** The verdicts that are not a chunk. *)
Inductive NoChunk : Type :=
  | Absent
  | DoesNotReachBack (startBlock : Z)
  | InconsistentRead (reason : string).

Inductive ReplayRead : Type :=
  | ReadChunk (chunk : ReplayChunk)
  | ReadNothing (why : NoChunk).

Definition ReplaySource : Type := ReplayChunkQuery -> ReplayRead.

(** ** The stored stream, read in slices *)

(** [ORDER BY blockNumber, seq]: the next block numbers. *)
Definition probeBlocks (db : EmissionDb) (indexer stream : string) (fromBlock : Z) (limit : nat) : list Z :=
  row_blockNumber <$> take limit (sort_by (lex (on row_blockNumber) (on row_seq))
    (filter (fun row => fromBlock <= row_blockNumber row) (rows_of db indexer stream))).

Definition readRange (db : EmissionDb) (indexer stream : string) (fromBlock toBlock : Z) : list FeedEntry :=
  if decide (toBlock < fromBlock) then []
  else storedLogOf <$> sort_on row_seq
    (filter (fun row => fromBlock <= row_blockNumber row /\ row_blockNumber row <= toBlock) (rows_of db indexer stream)).

Definition storedEmissionReplaySource (db : EmissionDb) (indexer : string) : ReplaySource :=
  fun query =>
    let '(mkChunkQuery stream fromBlock foldedThrough maxEmissions) := query in
    match readStreamCoverage db indexer stream with
    | None => ReadNothing Absent
    | Some coverage =>
        if decide (fromBlock < cov_startBlock coverage) then ReadNothing (DoesNotReachBack (cov_startBlock coverage))
        else
          let probe := probeBlocks db indexer stream fromBlock (maxEmissions + 1) in
          let floor := Z.max (foldedThrough + 1) fromBlock in
          let budgetCut := match probe !! maxEmissions with Some n => n - 1 | None => cov_lastToBlock coverage end in
          let lastToBlock := Z.min (cov_lastToBlock coverage) (Z.max budgetCut floor) in
          ReadChunk (mkChunk (readRange db indexer stream fromBlock lastToBlock) fromBlock lastToBlock
            (cov_latestBlock coverage) (bool_decide (lastToBlock < cov_lastToBlock coverage))
            (readStreamHighWaterMark db indexer stream))
    end.

(** [readStoredStream] and the tail a writer walks its window out of. *)
Definition readStoredStream (db : EmissionDb) (indexer stream : string) (fromBlock : Z) : list FeedEntry :=
  storedLogOf <$> sort_on row_seq (filter (fun row => fromBlock <= row_blockNumber row) (rows_of db indexer stream)).

Record StreamCursorRead : Type := mkCursorRead {
  read_latestBlock : Z;
  read_lastFromBlock : Z;
  read_lastToBlock : Z;
  read_tail : list FeedEntry
}.

Definition streamCursorSourceOn (db : EmissionDb) (indexer : string) (stream : string) (finality : Z) : option StreamCursorRead :=
  match readStreamCoverage db indexer stream with
  | None => None
  | Some coverage =>
      let from := Z.max 0 (cov_lastToBlock coverage - finality) in
      Some (mkCursorRead (cov_latestBlock coverage) (cov_lastFromBlock coverage) (cov_lastToBlock coverage)
        (readStoredStream db indexer stream from))
  end.

(** ** The report *)
Inductive RebuildStop : Type :=
  | StreamConsumed
  | BudgetSpent
  | NothingStored
  | StreamStartsAbove (startBlock : Z)
  | Undecodable
  | StreamInconsistent (detail : string).

Definition stopFor (read : NoChunk) : RebuildStop :=
  match read with
  | Absent => NothingStored
  | DoesNotReachBack startBlock => StreamStartsAbove startBlock
  | InconsistentRead reason => StreamInconsistent reason
  end.

Definition retryCanAdvance (stopped : RebuildStop) : bool :=
  match stopped with
  | BudgetSpent | NothingStored | StreamConsumed => true
  | _ => false
  end.

Record RebuildReport : Type := mkRebuildReport {
  rebuild_generation : GenerationId;
  rebuild_fromBlock : Z;
  rebuild_toBlock : option Z;
  rebuild_scanned : nat;
  rebuild_replayed : nat;
  rebuild_retracted : nat;
  rebuild_highWater : Z;
  rebuild_complete : bool;
  rebuild_stopped : RebuildStop
}.

Inductive RebuildError : Type :=
  | InvalidRebuildBudget
  | NotLoaded (e : IngestError)
  | NotReplayed (e : EngineError)
  | NotProcessed (e : FoldError).

Definition DEFAULT_MAX_EMISSIONS_PER_CHUNK : nat := 2000.
Definition DEFAULT_FEED_BATCH_SIZE : Z := 300.

Definition budgetOf (maxEmissions : option Z) : result RebuildError nat :=
  match maxEmissions with
  | None => Ok DEFAULT_MAX_EMISSIONS_PER_CHUNK
  | Some maxEmissions => if decide (maxEmissions < 1) then Err InvalidRebuildBudget else Ok (Z.to_nat maxEmissions)
  end.

(** ** Decoding again

    [decodeOnto] is what the running ABI makes of an address, topics and data. *)
Section Reparse.
Context (decodeOnto : string -> list string -> string -> Decoded).

Definition decodedLog (stored : FeedEntry) : LogEvent :=
  let e := feed_entry stored in
  mkLog (entry_blockNumber e) (entry_blockHash e) (entry_transactionIndex e) (feed_removed stored) (entry_address e)
    (entry_data e) (entry_topics e) (entry_transactionHash e) (entry_logIndex e) (entry_blockTimestamp e)
    (decodeOnto (entry_address e) (entry_topics e) (entry_data e)).

(** An empty [data] or [address] is falsy. *)
Definition has_raw (stored : FeedEntry) : bool :=
  bool_decide (entry_data (feed_entry stored) <> "") && bool_decide (entry_address (feed_entry stored) <> "").

Definition reparse (stored : list FeedEntry) : option (list LogEvent) :=
  if forallb has_raw stored then Some (decodedLog <$> stored) else None.

(** The raw half of a decoded event. *)
Definition rawOf (e : LogEvent) : FeedEntry :=
  mkFeedEntry (mkCanonicalEntry (blockNumber e) (blockHash e) (logIndex e) (transactionHash e) (transactionIndex e)
    (blockTimestamp e) (address e) (topics e) (data e)) (removed e).
End Reparse.

(** ** The rebuild *)
Record GenerationRebuild : Type := mkRebuild {
  rb_stream : string;
  rb_context : WireContext;
  rb_defaultFromBlock : Z;
  rb_finality : Z;
  rb_maxEmissions : nat;
  rb_feedBatchSize : Z;
  rb_processorIdentity : string;
  rb_declaredFinalityDepth : option Z
}.

(** What the rebuild shares with a receiver over the same store: the load, the identity
    and the cursor of a fold that never ran. *)
Definition receiver_of (rb : GenerationRebuild) : StreamBuilder () :=
  mkBuilder () (rb_context rb) (rb_defaultFromBlock rb) (rb_finality rb) (rb_stream rb) [] (rb_processorIdentity rb)
    (rb_declaredFinalityDepth rb) None None None.

Section Rebuild.
Context {S : Type} `{StateStore S} (processor : Processor) (decodeOnto : string -> list string -> string -> Decoded).
Context (rb : GenerationRebuild).

Definition generation : GenerationId := mkGeneration (rb_stream rb) (rb_processorIdentity rb).

(** [checkpoint]: this fold's own cursor, or a fresh one; a foreign one is left alone. *)
Definition checkpoint (store : S) : result RebuildError LastSync :=
  match load (receiver_of rb) store with
  | Err e => Err (NotLoaded e)
  | Ok None => Ok (freshSync (receiver_of rb))
  | Ok (Some lastSync) => if ownCursor (receiver_of rb) lastSync then Ok lastSync else Ok (freshSync (receiver_of rb))
  end.

(** One [process] call per batch. *)
Fixpoint processBatches (store : S) (batches : list DeliveryBatch) : S * result RebuildError unit :=
  match batches with
  | [] => (store, Ok tt)
  | batch :: rest =>
      match applyEventStream serializeLastSync store processor (batch_events batch)
              (Some (SYNC_CURSOR_KEY, batch_lastSync batch)) with
      | (store', _, Err e) => (store', Err (NotProcessed e))
      | (store', _, Ok _) => processBatches store' rest
      end
  end.

(** Deliver a replayed stream; a stream with nothing in it still moves the cursor. *)
Definition deliver (store : S) (eventStream : list LogEvent) (newLastSync : LastSync) : S * result RebuildError unit :=
  match batchStreamForDelivery eventStream newLastSync (rb_feedBatchSize rb) with
  | [] => processBatches store [mkDelivery [] newLastSync]
  | batches => processBatches store batches
  end.

Definition chunkStop (chunk : ReplayChunk) : RebuildStop :=
  if chunk_truncated chunk then BudgetSpent else StreamConsumed.

Definition more (replay : ReplaySource) (store : S) (maxEmissions : option Z) : S * result RebuildError RebuildReport :=
  match match maxEmissions with None => Ok (rb_maxEmissions rb) | Some _ => budgetOf maxEmissions end with
  | Err e => (store, Err e)
  | Ok budget =>
  match checkpoint store with
  | Err e => (store, Err e)
  | Ok lastSync =>
  let fromBlock := getFromBlock lastSync (rb_defaultFromBlock rb) (rb_finality rb) in
  let read := replay (mkChunkQuery (rb_stream rb) fromBlock (lastToBlock lastSync) budget) in
  let report toBlock scanned replayed retracted highWater complete stopped :=
    Ok (mkRebuildReport generation fromBlock toBlock scanned replayed retracted highWater complete stopped) in
  match read with
  | ReadChunk chunk =>
      let scanned := length (chunk_eventStream chunk) in
      match reparse decodeOnto (chunk_eventStream chunk) with
      | None => (store, report None scanned 0%nat 0%nat (chunk_highWater chunk) false Undecodable)
      | Some replayable =>
          if decide (chunk_lastToBlock chunk = lastToBlock lastSync /\ chunk_latestBlock chunk = latestBlock lastSync)
          then (store, report (Some (chunk_lastToBlock chunk)) scanned 0%nat 0%nat (chunk_highWater chunk)
                         (negb (chunk_truncated chunk)) (chunkStop chunk))
          else
            match generateStreamFromReplay lastSync (rb_defaultFromBlock rb) replayable
                    (mkBounds (chunk_latestBlock chunk) (chunk_lastFromBlock chunk) (chunk_lastToBlock chunk) (rb_finality rb)) with
            | Err e => (store, Err (NotReplayed e))
            | Ok (eventStream, newLastSync) =>
                match deliver store eventStream newLastSync with
                | (store', Err e) => (store', Err e)
                | (store', Ok _) =>
                    (store', report (Some (chunk_lastToBlock chunk)) scanned (length eventStream)
                               (length (filter (fun e => removed e = true) eventStream)) (chunk_highWater chunk)
                               (negb (chunk_truncated chunk)) (chunkStop chunk))
                end
            end
      end
  | ReadNothing why => (store, report None 0%nat 0%nat 0%nat 0 false (stopFor why))
  end end end.

(** [follow]: whether the delta was taken, and how many events of it. *)
Definition follow (store : S) (delta_eventStream : list LogEvent) (delta_lastSync : LastSync)
    : S * result RebuildError (bool * nat) :=
  match checkpoint store with
  | Err e => (store, Err e)
  | Ok lastSync =>
      let fromBlock := getFromBlock lastSync (rb_defaultFromBlock rb) (rb_finality rb) in
      if decide (fromBlock <> lastFromBlock delta_lastSync) then (store, Ok (false, 0%nat))
      else
        let replayable := default delta_eventStream (reparse decodeOnto (rawOf <$> delta_eventStream)) in
        match generateStreamFromReplay lastSync (rb_defaultFromBlock rb) replayable
                (mkBounds (latestBlock delta_lastSync) (lastFromBlock delta_lastSync) (lastToBlock delta_lastSync) (rb_finality rb)) with
        | Err (UnexpectedFromBlockError _ _) => (store, Ok (false, 0%nat))
        | Err e => (store, Err (NotReplayed e))
        | Ok (eventStream, newLastSync) =>
            match deliver store eventStream newLastSync with
            | (store', Err e) => (store', Err e)
            | (store', Ok _) => (store', Ok (true, length eventStream))
            end
        end
  end.

(** [rebuildUntilLevel] of [packages/cli/src/followers.ts], for one generation: it asks
    again only while a chunk stopped on its budget. *)
Fixpoint rebuildUntilLevel (fuel : nat) (replay : ReplaySource) (store : S) : S * option (result RebuildError RebuildReport) :=
  match fuel with
  | O => (store, None)
  | Datatypes.S fuel =>
      match more replay store None with
      | (store', Err e) => (store', Some (Err e))
      | (store', Ok report) =>
          match rebuild_stopped report with
          | BudgetSpent => rebuildUntilLevel fuel replay store'
          | _ => (store', Some (Ok report))
          end
      end
  end.
End Rebuild.
