(* ===== verification/Publishing.v ===== *)
(** * Publishing a stored stream

    The stream seed of [packages/server/src/publication.ts]: the stored rows up to the cut,
    read in chunks, without the pairs a reorganisation left, as a document a client
    installs. *)
From S2P Require Import Prelude JsMap Types Stream AbiEvents EventRanges Invalidation Json Canonical StreamConfig SourceIdentity StreamBuilder Emissions Keeper SeedDocument SeedInstall Feed Compaction Rebuild.

Inductive PublicationRefusal : Type :=
  | NoStoredStream
  | NoStreamIdentity
  | PublicationThrew (e : ConfigError).

(** ** [readStoredStreamUpTo] *)
Fixpoint readStoredStreamUpTo (fuel : nat) (source : ReplaySource) (stream : string) (from cut : Z) (budget : nat) : result PublicationRefusal (list FeedEntry) :=
  match fuel with
  | O => Err NoStoredStream
  | S fuel =>
      if decide (cut < from) then Ok []
      else match source (mkChunkQuery stream from (from - 1) budget) with
           | ReadNothing _ => Err NoStoredStream
           | ReadChunk chunk =>
               let inRange := filter (fun e => entryAt e <= cut) (chunk_eventStream chunk) in
               if bool_decide (cut <= chunk_lastToBlock chunk) || negb (chunk_truncated chunk) then Ok inRange
               else rest ← readStoredStreamUpTo fuel source stream (chunk_lastToBlock chunk + 1) cut budget; Ok (inRange ++ rest)
           end
  end.

(** ** [dropRetractedPairs]: the positions to leave out, and where each log last stood. *)
Record Pairing : Type := mkPairing { dropped : gset nat; standing_at : gmap string nat }.

Definition retractionStep (state : Pairing) (place : nat * FeedEntry) : Pairing :=
  let '(position, event) := place in
  let c := coordinate (feed_entry event) in
  if negb (feed_removed event) then mkPairing (dropped state) (<[c := position]> (standing_at state))
  else match standing_at state !! c with
       | None => state
       | Some applied => mkPairing ({[applied]} ∪ ({[position]} ∪ dropped state)) (delete c (standing_at state))
       end.

Definition pairsOf (events : list FeedEntry) : Pairing := foldl retractionStep (mkPairing ∅ ∅) (imap pair events).

Definition dropRetractedPairs (events : list FeedEntry) : list FeedEntry :=
  snd <$> filter (fun place => place.1 ∉ dropped (pairsOf events)) (imap pair events).

(** ** [produceStreamSeed] *)
Definition seedName (indexer : string) : string := "etherfold publish --seed (the stored stream of the named indexer " +:+ quoted indexer +:+ ")".

Section Produce.
Context `{lib : AbiLibrary} (sha256_hex : string -> string).

Definition produceStreamSeed (db : EmissionDb) (indexer stream : string) (config : UsedStreamConfig) (tip cut : Z) (readBudget : nat) (producedAt : string)
    : result PublicationRefusal StreamSeed :=
  match readStreamCoverage db indexer stream with
  | None => Err NoStoredStream
  | Some coverage =>
      if decide (cov_lastToBlock coverage < cut) then Err NoStoredStream
      else if existsb (fun e => bool_decide (streamHash e = None)) (cov_source coverage) then Err NoStreamIdentity
      else
        let digest := streamDigestOfSourceHashes sha256_hex (cov_source coverage) config in
        if decide (digest <> stream) then Err NoStreamIdentity
        else
          events ← readStoredStreamUpTo (S (Z.to_nat (cut - cov_startBlock coverage + 1))) (storedEmissionReplaySource db indexer) stream (cov_startBlock coverage) cut readBudget;
          match streamConfigHashOf (Some (provide config)) with
          | Err e => Err (PublicationThrew e)
          | Ok hash =>
              Ok (mkSeed (mkProducer "stored-stream" (seedName indexer) producedAt) tip config None digest (cov_startBlock coverage) cut
                    (mkContext (cov_source coverage) (default "" hash) "") (AnEvent <$> dropRetractedPairs events))
          end
  end.
End Produce.

(** ** Chunks of a range *)

(** The rows of a range of blocks, in the order they were stored. *)
Definition rangeRows (rows : list EmissionRow) (from to : Z) : list EmissionRow :=
  filter (fun row => from <= row_blockNumber row /\ row_blockNumber row <= to) rows.

(** Consecutive ranges, each read whole. *)
Inductive sliced (rows : list EmissionRow) : Z -> Z -> list EmissionRow -> Prop :=
  | sliced_done from to : to < from -> sliced rows from to []
  | sliced_chunk from mid to l : from <= mid -> sliced rows (mid + 1) to l -> sliced rows from to (rangeRows rows from (Z.min mid to) ++ l).

Lemma readStored_sliced db indexer stream coverage cut budget : readStreamCoverage db indexer stream = Some coverage -> cut <= cov_lastToBlock coverage ->
  ascending row_seq (rows_of db indexer stream) ->
  forall fuel from, cov_startBlock coverage <= from -> Z.max 0 (cut - from + 1) < Z.of_nat fuel ->
  exists l, sliced (rows_of db indexer stream) from cut l /\ readStoredStreamUpTo fuel (storedEmissionReplaySource db indexer) stream from cut budget = Ok (storedLogOf <$> l).
Proof.
  intros Hcov Hcut Hasc. induction fuel as [|fuel IH]; intros from Hfrom Hfuel; cbn [readStoredStreamUpTo].
  { lia. }
  case_decide as Hlt; [exists []; split; [by constructor|done]|].
  unfold storedEmissionReplaySource at 1. rewrite Hcov, decide_False by lia.
  set (budgetCut := match _ !! budget with Some n => n - 1 | None => cov_lastToBlock coverage end).
  set (last := Z.min (cov_lastToBlock coverage) (Z.max budgetCut (Z.max (from - 1 + 1) from))). cbn [chunk_lastToBlock chunk_truncated chunk_eventStream].
  assert (from <= last) as Hlast by lia.
  assert (filter (fun e => entryAt e <= cut) (readRange db indexer stream from last) = storedLogOf <$> rangeRows (rows_of db indexer stream) from (Z.min last cut)) as Hread.
  { unfold readRange. rewrite decide_False by lia. rewrite sort_on_id by (apply ascending_weaken; eapply ascending_sublist; [apply sublist_filter|done]).
    rewrite (filter_pairs (fun row => row_blockNumber row <= cut) (fun e => entryAt e <= cut)) by done. f_equal. unfold rangeRows. rewrite list_filter_filter. apply filter_ext_in. intros row _. lia. }
  rewrite Hread. destruct (bool_decide (cut <= last) || negb (bool_decide (last < cov_lastToBlock coverage))) eqn:Hstop.
  - exists (rangeRows (rows_of db indexer stream) from (Z.min last cut) ++ []). split; [|by rewrite app_nil_r].
    assert (cut <= last) as Hle by (apply orb_true_iff in Hstop as [Hs%bool_decide_eq_true|Hs%negb_true_iff%bool_decide_eq_false]; lia).
    constructor; [done|]. constructor. lia.
  - apply orb_false_iff in Hstop as [Hs%bool_decide_eq_false _]. destruct (IH (last + 1)) as (l & Hl & ->); [lia|lia|].
    exists (rangeRows (rows_of db indexer stream) from (Z.min last cut) ++ l). split; [by constructor|]. by rewrite fmap_app.
Qed.

(** ** What is left of a log without its pairs *)
Definition coordinateOf (e : FeedEntry) : string := coordinate (feed_entry e).

Definition lastOf (c : string) (l : list FeedEntry) : option FeedEntry := last (filter (fun e => coordinateOf e = c) l).

(** Every retraction takes back the log applied last under its coordinate, and no log is
    applied twice without one between. *)
Definition alternating (events : list FeedEntry) : Prop :=
  forall l x r, events = l ++ x :: r ->
    if feed_removed x then exists a, lastOf (coordinateOf x) l = Some a /\ feed_removed a = false
    else forall a, lastOf (coordinateOf x) l = Some a -> feed_removed a = true.

Lemma lastOf_snoc c l x : lastOf c (l ++ [x]) = if decide (coordinateOf x = c) then Some x else lastOf c l.
Proof.
  unfold lastOf. rewrite filter_app, filter_cons, filter_nil. case_decide; [by rewrite last_snoc|by rewrite app_nil_r].
Qed.

Record paired (l : list FeedEntry) (st : Pairing) : Prop := {
  paired_standing c p : standing_at st !! c = Some p <->
    exists x, l !! p = Some x /\ coordinateOf x = c /\ feed_removed x = false /\ forall q y, l !! q = Some y -> coordinateOf y = c -> (q <= p)%nat;
  paired_last c : match standing_at st !! c with
    | Some p => exists a, lastOf c l = Some a /\ feed_removed a = false
    | None => forall a, lastOf c l = Some a -> feed_removed a = true
    end;
  paired_dropped p x : l !! p = Some x -> p ∈ dropped st <-> standing_at st !! coordinateOf x <> Some p;
  paired_bound p : p ∈ dropped st -> (p < length l)%nat
}.

Lemma lookup_snoc_cases {A} (l : list A) x p y : (l ++ [x]) !! p = Some y <-> l !! p = Some y \/ p = length l /\ x = y.
Proof.
  destruct (decide (p < length l)%nat) as [Hlt|Hge].
  - rewrite lookup_app_l by done. split; [by left|]. intros [?|[-> _]]; [done|lia].
  - rewrite lookup_app_r by lia. rewrite (lookup_ge_None_2 l p) by lia. destruct (decide (p = length l)) as [->|Hne].
    + rewrite Nat.sub_diag. cbn. split; [intros [= ->]; by right|]. by intros [[=]|[_ ->]].
    + destruct (p - length l)%nat as [|n] eqn:Hn; [lia|]. cbn. split; [done|]. by intros [[=]|[-> _]].
Qed.

Lemma paired_step l x st : alternating (l ++ [x]) -> paired l st -> paired (l ++ [x]) (retractionStep st (length l, x)).
Proof.
  intros Halt [Hs Hl Hd Hb]. specialize (Halt l x [] eq_refl). unfold retractionStep. fold (coordinateOf x). specialize (Hl (coordinateOf x)) as Hlx.
  assert (forall p y, l !! p = Some y -> (p < length l)%nat) as Hlen by (intros p y ?%lookup_lt_Some; done).
  destruct (feed_removed x) eqn:Hx; cbn [negb].
  - destruct Halt as (a & Ha & Hra). destruct (standing_at st !! coordinateOf x) as [applied|] eqn:Hst; [|rewrite (Hlx a Ha) in Hra; done].
    assert (forall c, c <> coordinateOf x -> delete (coordinateOf x) (standing_at st) !! c = standing_at st !! c) as Hother by (intros; by rewrite lookup_delete_ne).
    split; cbn [standing_at dropped].
    + intros c p. destruct (decide (c = coordinateOf x)) as [->|Hne].
      * rewrite lookup_delete_eq. split; [done|]. intros (y & Hy & Hc & Hry & Hmax). apply lookup_snoc_cases in Hy as [Hy|[-> <-]]; [|congruence].
        specialize (Hmax (length l) x). rewrite lookup_snoc_cases in Hmax. specialize (Hmax ltac:(by right) eq_refl). apply Hlen in Hy. lia.
      * rewrite Hother, Hs by done. split; intros (y & Hy & Hc & Hry & Hmax); exists y.
        -- split_and!; [apply lookup_snoc_cases; by left|done|done|]. intros q z [Hz|[-> <-]]%lookup_snoc_cases Hzc; [by eapply Hmax|congruence].
        -- apply lookup_snoc_cases in Hy as [Hy|[-> <-]]; [|congruence]. split_and!; [done..|]. intros q z Hz. apply Hmax. apply lookup_snoc_cases. by left.
    + intros c. rewrite lastOf_snoc. destruct (decide (coordinateOf x = c)) as [<-|Hne].
      * rewrite lookup_delete_eq. by intros b [= <-].
      * rewrite Hother by done. apply Hl.
    + intros p y. rewrite lookup_snoc_cases, !elem_of_union, !elem_of_singleton. intros [Hy|[-> <-]].
      * rewrite (Hd _ _ Hy). destruct (decide (coordinateOf y = coordinateOf x)) as [Heq|Hne].
        -- rewrite Heq, lookup_delete_eq, Hst. split; [done|]. intros _. destruct (decide (p = applied)) as [->|Hp]; [by left|]. right; right. congruence.
        -- rewrite Hother by done. split; [|tauto]. intros [->|[->|?]]; [| |done].
           ++ apply Hs in Hst as (z & Hz & Hzc & _). congruence.
           ++ apply Hlen in Hy. lia.
      * rewrite lookup_delete_eq. split; [done|]. intros _. right; left. done.
    + intros p. rewrite !elem_of_union, !elem_of_singleton, length_app. cbn [length]. intros [->|[->|Hp%Hb]]; [|lia|lia].
      apply Hs in Hst as (z & Hz & _). apply Hlen in Hz. lia.
  - assert (standing_at st !! coordinateOf x = None) as Hnone.
    { destruct (standing_at st !! coordinateOf x); [|done]. destruct Hlx as (a & Ha & Hra). rewrite (Halt a Ha) in Hra. done. }
    split; cbn [standing_at dropped].
    + intros c p. destruct (decide (c = coordinateOf x)) as [->|Hne].
      * rewrite lookup_insert_eq. split.
        -- intros [= <-]. exists x. split_and!; [apply lookup_snoc_cases; by right|done|done|]. intros q z [Hz|[-> _]]%lookup_snoc_cases _; [apply Hlen in Hz; lia|done].
        -- intros (y & Hy & Hc & Hry & Hmax). apply lookup_snoc_cases in Hy as [Hy|[-> <-]]; [|done].
           specialize (Hmax (length l) x). rewrite lookup_snoc_cases in Hmax. specialize (Hmax ltac:(by right) eq_refl). apply Hlen in Hy. lia.
      * rewrite lookup_insert_ne, Hs by done. split; intros (y & Hy & Hc & Hry & Hmax); exists y.
        -- split_and!; [apply lookup_snoc_cases; by left|done|done|]. intros q z [Hz|[-> <-]]%lookup_snoc_cases Hzc; [by eapply Hmax|congruence].
        -- apply lookup_snoc_cases in Hy as [Hy|[-> <-]]; [|congruence]. split_and!; [done..|]. intros q z Hz. apply Hmax. apply lookup_snoc_cases. by left.
    + intros c. rewrite lastOf_snoc. destruct (decide (coordinateOf x = c)) as [<-|Hne].
      * rewrite lookup_insert_eq. by exists x.
      * rewrite lookup_insert_ne by done. apply Hl.
    + intros p y. rewrite lookup_snoc_cases. intros [Hy|[-> <-]].
      * rewrite (Hd _ _ Hy). destruct (decide (coordinateOf y = coordinateOf x)) as [Heq|Hne].
        -- rewrite Heq, lookup_insert_eq, Hnone. split; [|done]. intros _ [= Hp]. apply Hlen in Hy. lia.
        -- by rewrite lookup_insert_ne.
      * rewrite lookup_insert_eq. split; [|done]. intros Hin%Hb. lia.
    + intros p Hp%Hb. rewrite length_app. cbn [length]. lia.
Qed.

Lemma alternating_prefix l r : alternating (l ++ r) -> alternating l.
Proof. intros Halt l1 x r1 ->. apply (Halt l1 x (r1 ++ r)). by rewrite <- app_assoc. Qed.

Lemma pairs_paired events : alternating events -> paired events (pairsOf events).
Proof.
  unfold pairsOf. induction events as [|x l IH] using rev_ind; intros Halt.
  - split; cbn; [| |by intros p x|by intros p ?%elem_of_empty].
    + intros c p. rewrite lookup_empty. split; [done|]. by intros (x & [=] & _).
    + intros c. by rewrite lookup_empty.
  - assert (imap pair (l ++ [x]) = imap pair l ++ [(length l, x)]) as Himap by (rewrite imap_app; cbn; by rewrite Nat.add_0_r).
    rewrite Himap, foldl_app. cbn [foldl].
    apply paired_step; [done|]. apply IH. by eapply alternating_prefix.
Qed.

(** What no later entry under its coordinate touches. *)
Definition stands (x : FeedEntry) (later : list FeedEntry) : Prop := feed_removed x = false /\ Forall (fun y => coordinateOf y <> coordinateOf x) later.

#[export] Instance stands_dec x later : Decision (stands x later).
Proof. unfold stands. apply _. Defined.

Fixpoint survivors (events : list FeedEntry) : list FeedEntry :=
  match events with
  | [] => []
  | x :: later => (if decide (stands x later) then [x] else []) ++ survivors later
  end.

Lemma drop_survivors events : alternating events -> dropRetractedPairs events = survivors events.
Proof.
  intros Halt. destruct (pairs_paired events Halt) as [Hs _ Hd _]. unfold dropRetractedPairs. set (st := pairsOf events) in *. clearbody st.
  assert (forall l r, events = l ++ r -> snd <$> filter (fun place : nat * FeedEntry => place.1 ∉ dropped st) (imap (fun i x => ((length l + i)%nat, x)) r) = survivors r) as Hall; [|exact (Hall [] events eq_refl)].
  intros l r. revert l. induction r as [|x r IH]; intros l Heq; [done|]. cbn [imap survivors]. rewrite Nat.add_0_r, filter_cons.
  assert (events !! length l = Some x) as Hx by (rewrite Heq; by apply list_lookup_middle).
  specialize (IH (l ++ [x]) ltac:(by rewrite <- app_assoc)).
  rewrite (imap_ext _ (fun i y => ((length (l ++ [x]) + i)%nat, y))) by (intros i y _; unfold compose; f_equal; rewrite length_app; simpl; lia).
  assert (length l ∉ dropped st <-> stands x r) as Hiff.
  { rewrite (Hd _ _ Hx). split.
    - intros Hst. apply dec_stable in Hst. apply Hs in Hst as (y & Hy & _ & Hry & Hmax). rewrite Hx in Hy. injection Hy as <-. split; [done|].
      apply Forall_forall. intros y (i & Hi)%list_elem_of_lookup Hc. specialize (Hmax (length l + S i)%nat y). rewrite Heq, lookup_app_r in Hmax by lia.
      replace (length l + S i - length l)%nat with (S i) in Hmax by lia. specialize (Hmax Hi Hc). lia.
    - intros [Hrx Hno] Hnot. apply Hnot, Hs. exists x. split_and!; [done..|]. intros q y Hy Hc. destruct (decide (q <= length l)%nat); [done|].
      rewrite Heq, lookup_app_r in Hy by lia. destruct (q - length l)%nat as [|i] eqn:Hq; [lia|]. cbn in Hy. rewrite Forall_forall in Hno.
      exfalso. by apply (Hno y (list_elem_of_lookup_2 _ _ _ Hy)). }
  destruct (decide (stands x r)) as [Hst|Hst]; [rewrite decide_True by (by apply Hiff)|rewrite decide_False by (cbn; rewrite Hiff; done)].
  - cbn [app fmap list_fmap]. f_equal. exact IH.
  - exact IH.
Qed.

(** ** A stored log without its pairs is what is live *)
Lemma pairing_places d : pairing d -> forall live, Forall (fun row => row_removed row = false) live -> (length live <= 1)%nat ->
  forall u row v, d ++ live = u ++ row :: v ->
    if row_removed row then exists a, last u = Some a /\ row_removed a = false else forall a, last u = Some a -> row_removed a = true.
Proof.
  induction 1 as [|a r d Ha Hr Hd IH]; intros live Hlive Hlen u row v Heq.
  - cbn in Heq. subst live. rewrite length_app in Hlen. cbn in Hlen. destruct u; [|cbn in Hlen; lia]. cbn [app] in Hlive. apply Forall_cons in Hlive as [-> _]. done.
  - destruct u as [|x [|y u]]; cbn in Heq.
    + injection Heq as <- Heq. by rewrite Ha.
    + injection Heq as <- <- Heq. rewrite Hr. by exists a.
    + injection Heq as <- <- Heq. specialize (IH live Hlive Hlen u row v Heq). destruct u as [|z u]; [|exact IH].
      destruct (row_removed row); [by destruct IH as (? & [=] & _)|]. by intros b [= <-].
Qed.

Section Logs.
Context (l : list EmissionRow).
Hypothesis Hbalanced : balanced l.
Hypothesis Hlive : Forall (fun row => row_alive row = true -> row_removed row = false) l.
(** A log's coordinate says which block it is in. *)
Hypothesis Hplace : forall row row', row ∈ l -> row' ∈ l -> coordinate (entryOf row) = coordinate (entryOf row') -> group_of row row'.

Lemma coordinate_group row row' : row ∈ l -> row' ∈ l -> coordinate (entryOf row') = coordinate (entryOf row) <-> group_of row row'.
Proof.
  intros Hr Hr'. split; [intros Heq; by apply Hplace|]. intros (_ & Hi & Hh)%groupOrder_eq. unfold coordinate. cbn. by rewrite Hi, Hh.
Qed.

Lemma group_split l1 row l2 : l = l1 ++ row :: l2 ->
  exists d live, pairing d /\ Forall (fun r => row_alive r = false) d /\ (live = [] \/ exists r, live = [r] /\ row_alive r = true /\ row_removed r = false)
    /\ d ++ live = filter (group_of row) l1 ++ row :: filter (group_of row) l2.
Proof.
  intros Heq. destruct (Hbalanced row) as (d & live & Hk & Hp & Hd & Hl). exists d, live. split_and!; [done|done| |].
  - destruct Hl as [->|(r & -> & Hr)]; [by left|]. right. exists r. split_and!; [done..|]. rewrite Forall_forall in Hlive. apply Hlive; [|done].
    assert (r ∈ filter (group_of row) l) as [_ ?]%list_elem_of_filter; [|done]. rewrite Hk. apply elem_of_app. right. left.
  - by rewrite <- Hk, Heq, filter_app, filter_cons_True by apply groupOrder_refl.
Qed.

Lemma lastOf_rows l1 row l2 : l = l1 ++ row :: l2 -> lastOf (coordinate (entryOf row)) (storedLogOf <$> l1) = storedLogOf <$> last (filter (group_of row) l1).
Proof.
  intros Heq. unfold lastOf. rewrite (filter_pairs (group_of row) (fun e => coordinateOf e = coordinate (entryOf row))), fmap_last; [done|].
  intros x Hx. apply (coordinate_group row x); rewrite Heq; apply elem_of_app; [right; left|by left].
Qed.

Lemma rows_alternating : alternating (storedLogOf <$> l).
Proof.
  intros a x b Heq. apply fmap_app_inv in Heq as (l1 & k & -> & Hk & Hl). symmetry in Hk. apply fmap_cons_inv in Hk as (row & l2 & -> & -> & ->).
  destruct (group_split _ _ _ Hl) as (d & live & Hp & _ & Hlv & Hsplit).
  pose proof (pairing_places d Hp live) as Hplaces. unfold coordinateOf. cbn [storedLogOf feed_entry feed_removed]. rewrite (lastOf_rows l1 row l2 Hl).
  assert (Forall (fun r => row_removed r = false) live /\ (length live <= 1)%nat) as [Hl1 Hl2].
  { destruct Hlv as [->|(r & -> & _ & Hr)]; split; try (cbn; lia); repeat constructor. done. }
  specialize (Hplaces Hl1 Hl2 _ _ _ Hsplit). destruct (row_removed row).
  - destruct Hplaces as (a & -> & Ha). by exists (storedLogOf a).
  - intros e He. destruct (last (filter (group_of row) l1)) as [a|]; [|done]. injection He as <-. cbn. by apply Hplaces.
Qed.

Lemma rows_stand l1 row l2 : l = l1 ++ row :: l2 -> stands (storedLogOf row) (storedLogOf <$> l2) <-> row_alive row = true.
Proof.
  intros Heq. destruct (group_split _ _ _ Heq) as (d & live & Hp & Hd & Hlv & Hsplit).
  assert (row ∈ l) as Hrow by (rewrite Heq; apply elem_of_app; right; left).
  assert (Forall (fun y => coordinateOf y <> coordinateOf (storedLogOf row)) (storedLogOf <$> l2) <-> filter (group_of row) l2 = []) as Hno.
  { rewrite Forall_fmap. split.
    - intros Hall. apply elem_of_nil_inv. intros y [Hg Hy]%list_elem_of_filter. rewrite Forall_forall in Hall. apply (Hall y Hy).
      apply (coordinate_group row y); [done| |done]. rewrite Heq. apply elem_of_app. right. by right.
    - intros Hnil. apply Forall_forall. intros y Hy Hc. assert (y ∈ filter (group_of row) l2) as Hin; [|rewrite Hnil in Hin; by apply not_elem_of_nil in Hin].
      apply list_elem_of_filter. split; [|done]. apply (coordinate_group row y); [done| |done]. rewrite Heq. apply elem_of_app. right. by right. }
  unfold stands. rewrite Hno. cbn [storedLogOf feed_removed]. set (v := filter (group_of row) l2) in *. split.
  - intros [Hrm Hnil]. rewrite Hnil in Hsplit. destruct Hlv as [->|(r & -> & Hr & _)].
    + rewrite app_nil_r in Hsplit. destruct (pairing_retracted _ _ _ _ Hp Hsplit) as [?|Hex]; [congruence|]. by apply Exists_nil in Hex.
    + apply app_inj_tail in Hsplit as [_ <-]. done.
  - intros Hal. split; [rewrite Forall_forall in Hlive; by apply Hlive|]. destruct v as [|y v]; [done|]. exfalso.
    assert (row ∈ d) as Hin; [|rewrite Forall_forall in Hd; rewrite (Hd row Hin) in Hal; done].
    destruct Hlv as [->|(r & -> & _)]; [rewrite app_nil_r in Hsplit; rewrite Hsplit; apply elem_of_app; right; left|].
    destruct (exists_last (l := y :: v)) as (v' & z & Hz); [done|]. rewrite Hz, app_comm_cons, app_assoc in Hsplit.
    apply app_inj_tail in Hsplit as [-> _]. apply elem_of_app. right. left.
Qed.

Lemma rows_survivors : survivors (storedLogOf <$> l) = storedLogOf <$> filter (fun row => row_alive row = true) l.
Proof.
  assert (forall l1 l2, l = l1 ++ l2 -> survivors (storedLogOf <$> l2) = storedLogOf <$> filter (fun row => row_alive row = true) l2) as Hall; [|exact (Hall [] l eq_refl)].
  intros l1 l2. revert l1. induction l2 as [|row l2 IH]; intros l1 Heq; [done|]. cbn [fmap list_fmap survivors]. rewrite filter_cons.
  specialize (IH (l1 ++ [row]) ltac:(by rewrite <- app_assoc)). pose proof (rows_stand l1 row l2 Heq) as Hiff. rewrite IH.
  destruct (decide (stands (storedLogOf row) (storedLogOf <$> l2))) as [Hs|Hs]; [rewrite decide_True by (by apply Hiff)|rewrite decide_False by (by rewrite <- Hiff)]; done.
Qed.

Lemma dropped_rows : dropRetractedPairs (storedLogOf <$> l) = storedLogOf <$> filter (fun row => row_alive row = true) l.
Proof. rewrite drop_survivors by apply rows_alternating. apply rows_survivors. Qed.
End Logs.

(** ** The chunks together *)
Lemma sliced_group rows k from to l : sliced rows from to l ->
  filter (group_of k) l = if decide (from <= row_blockNumber k /\ row_blockNumber k <= to) then filter (group_of k) rows else [].
Proof.
  assert (forall a b, filter (group_of k) (rangeRows rows a b) = if decide (a <= row_blockNumber k /\ row_blockNumber k <= b) then filter (group_of k) rows else []) as Hrange.
  { intros a b. unfold rangeRows. rewrite list_filter_filter. case_decide as Hk.
    - apply filter_ext_in. intros row _. unfold group_of. rewrite groupOrder_eq. split; [tauto|]. intros (Hn & ? & ?). split_and!; try done; lia.
    - apply elem_of_nil_inv. intros row [[Hg Hab] _]%list_elem_of_filter. apply Hk. unfold group_of in Hg. apply groupOrder_eq in Hg as (Hn & _). lia. }
  induction 1 as [from to Hlt|from mid to l Hle _ IH].
  - rewrite filter_nil. case_decide; [lia|done].
  - rewrite filter_app, Hrange, IH. repeat case_decide; rewrite ?app_nil_r; done || lia.
Qed.

Lemma sliced_elem rows from to l row : sliced rows from to l -> row ∈ l -> row ∈ rows /\ from <= row_blockNumber row <= to.
Proof.
  induction 1 as [from to Hlt|from mid to l Hle _ IH]; [by intros ?%not_elem_of_nil|]. intros [[[? ?] ?]%list_elem_of_filter|Hin]%elem_of_app; [split; [done|lia]|].
  destruct (IH Hin). split; [done|lia].
Qed.

Lemma filter_at {A} (key : A -> Z) (m : Z) (l : list A) : ascending_weak key l -> filter (fun x => key x <= m) l ++ filter (fun x => m < key x) l = l.
Proof.
  induction 1 as [|x l Hl IH Hx]; [done|]. rewrite !filter_cons. destruct (decide (key x <= m)) as [Hle|Hgt].
  - rewrite decide_False by lia. cbn [app]. by f_equal.
  - rewrite decide_True by lia. assert (filter (fun y => key y <= m) l = []) as Hnil.
    { apply elem_of_nil_inv. intros y [Hy Hin]%list_elem_of_filter. rewrite Forall_forall in Hx. specialize (Hx y Hin). cbn in Hx. lia. }
    rewrite Hnil in *. cbn [app] in *. by f_equal.
Qed.

Lemma sliced_live rows from to l : ascending_weak row_blockNumber (filter (fun row => row_alive row = true) rows) -> sliced rows from to l ->
  filter (fun row => row_alive row = true) l = filter (fun row => from <= row_blockNumber row /\ row_blockNumber row <= to) (filter (fun row => row_alive row = true) rows).
Proof.
  set (L := filter (fun row => row_alive row = true) rows). intros HL.
  assert (forall a b, filter (fun row => row_alive row = true) (rangeRows rows a b) = filter (fun row => a <= row_blockNumber row /\ row_blockNumber row <= b) L) as Hrange.
  { intros a b. unfold rangeRows, L. rewrite !list_filter_filter. apply filter_ext_in. tauto. }
  induction 1 as [from to Hlt|from mid to l Hle _ IH].
  - symmetry. apply elem_of_nil_inv. intros row [? _]%list_elem_of_filter. lia.
  - rewrite filter_app, Hrange, IH. set (M := filter (fun row => from <= row_blockNumber row /\ row_blockNumber row <= to) L).
    rewrite <- (filter_at row_blockNumber mid M) by (eapply StronglySorted_sublist; [apply sublist_filter|exact HL]).
    unfold M. rewrite !list_filter_filter. f_equal; apply filter_ext_in; intros row _; lia.
Qed.

Lemma sorted_entries_ascending (L : list EmissionRow) : StronglySorted entry_lt (entryOf <$> L) -> ascending_weak row_blockNumber L.
Proof.
  induction L as [|row L IH]; intros Hs; [constructor|]. rewrite fmap_cons in Hs. apply StronglySorted_inv in Hs as [Hs Hrow]. constructor; [by apply IH|].
  rewrite Forall_fmap in Hrow. eapply Forall_impl; [exact Hrow|]. unfold entry_lt. cbn. intros r Hr. lia.
Qed.

Lemma sorted_entries_eq l x y : StronglySorted entry_lt l -> x ∈ l -> y ∈ l -> position_of x = position_of y -> x = y.
Proof.
  induction 1 as [|z l Hl IH Hz]; [by intros ?%not_elem_of_nil|]. rewrite Forall_forall in Hz. unfold entry_lt, position_of in *.
  intros [->|Hx]%elem_of_cons [->|Hy]%elem_of_cons Heq; [done| | |by apply IH]; injection Heq as Hn Hi.
  - specialize (Hz y Hy). lia.
  - specialize (Hz x Hx). lia.
Qed.

Section Published.
Context (db : EmissionDb) (indexer stream : string) (H : list EventBlock) (coverage : CoverageRow).
Hypothesis Hstored : stored_by indexer stream db H.
Hypothesis Hcov : readStreamCoverage db indexer stream = Some coverage.
(** A log's coordinate says which block it is in: a block hash names one block. *)
Hypothesis Hplace : forall row row', row ∈ rows_of db indexer stream -> row' ∈ rows_of db indexer stream ->
  coordinate (entryOf row) = coordinate (entryOf row') -> group_of row row'.

(** The chain's own entries between the start of the stream and a block. *)
Definition canonicalUpTo (cut : Z) : list FeedEntry :=
  (fun e => mkFeedEntry e false) <$> filter (fun e => cov_startBlock coverage <= entry_blockNumber e /\ entry_blockNumber e <= cut) (entries_of H).

Lemma published_events cut budget : cut <= cov_lastToBlock coverage ->
  exists events, readStoredStreamUpTo (S (Z.to_nat (cut - cov_startBlock coverage + 1))) (storedEmissionReplaySource db indexer) stream (cov_startBlock coverage) cut budget = Ok events
    /\ dropRetractedPairs events = canonicalUpTo cut.
Proof.
  intros Hcut. pose proof (stored_invariant indexer stream db H Hstored) as [[[Hasc Hlive] Hent Hc Hord] [_ Hbal]].
  destruct (readStored_sliced db indexer stream coverage cut budget Hcov Hcut Hasc (S (Z.to_nat (cut - cov_startBlock coverage + 1))) (cov_startBlock coverage)) as (l & Hl & ->); [lia|lia|].
  eexists. split; [done|]. assert (forall row, row ∈ l -> row ∈ rows_of db indexer stream) as Hin by (intros row Hrow; by eapply sliced_elem).
  rewrite dropped_rows.
  - rewrite (sliced_live (rows_of db indexer stream) (cov_startBlock coverage) cut l); [|apply sorted_entries_ascending; change (StronglySorted entry_lt (live_entries (rows_of db indexer stream))); rewrite Hent; by apply entries_sorted|done].
    unfold canonicalUpTo. rewrite <- Hent. unfold live_entries.
    rewrite (filter_pairs (fun row => cov_startBlock coverage <= row_blockNumber row /\ row_blockNumber row <= cut)
      (fun e => cov_startBlock coverage <= entry_blockNumber e /\ entry_blockNumber e <= cut)) by done.
    rewrite <- list_fmap_compose. apply list_fmap_ext. intros i row Hrow%list_elem_of_lookup_2. apply list_elem_of_filter in Hrow as [_ [Hal Hrow]%list_elem_of_filter].
    unfold storedLogOf, compose. f_equal. rewrite Forall_forall in Hlive. by apply Hlive.
  - intros k. rewrite (sliced_group _ k _ _ _ Hl). case_decide; [apply Hbal|]. exists [], []. split_and!; [done|constructor|constructor|by left].
  - apply Forall_forall. intros row Hrow. rewrite Forall_forall in Hlive. apply Hlive. by apply Hin.
  - intros row row' Hr Hr'. apply Hplace; by apply Hin.
Qed.

Lemma published_coherent cut : 0 <= cov_startBlock coverage -> coherent (cov_startBlock coverage) cut (canonicalUpTo cut).
Proof.
  intros Hstart. pose proof (stored_invariant indexer stream db H Hstored) as [[[Hasc Hlive] Hent Hc Hord] _].
  pose proof (entries_sorted H Hc Hord) as Hsorted. unfold canonicalUpTo. set (es := filter _ (entries_of H)).
  assert (StronglySorted entry_lt es) as Hes by (eapply StronglySorted_sublist; [apply sublist_filter|exact Hsorted]).
  assert (forall e, e ∈ es -> cov_startBlock coverage <= entry_blockNumber e <= cut) as Hrange by (intros e [He _]%list_elem_of_filter; done).
  assert (forall x, x ∈ es -> exists row, row ∈ rows_of db indexer stream /\ x = entryOf row) as Hrow.
  { intros x [_ Hx]%list_elem_of_filter. rewrite <- Hent in Hx. apply list_elem_of_fmap in Hx as (row & -> & [_ Hr]%list_elem_of_filter). by exists row. }
  split.
  - apply Forall_fmap, Forall_forall. exact Hrange.
  - apply Forall_fmap, Forall_forall. done.
  - intros a b (x & -> & Hx)%list_elem_of_fmap (y & -> & Hy)%list_elem_of_fmap Hn. unfold entryAt in Hn. cbn in Hn |- *.
    apply list_elem_of_filter in Hx as [_ Hx], Hy as [_ Hy]. pose proof (chain_wf_blocks _ Hc) as Hb.
    destruct (entries_of_block H x Hb Hx) as (b & Hbin & Hbn & -> & _), (entries_of_block H y Hb Hy) as (b' & Hbin' & Hbn' & -> & _).
    f_equal. eapply (ascending_key_inj number); [apply Hc|done|done|congruence].
  - rewrite <- list_fmap_compose. apply NoDup_fmap_2_strong.
    + intros x y Hx Hy Heq. apply (sorted_entries_eq es); [done..|]. destruct (Hrow x Hx) as (r & Hr & ->), (Hrow y Hy) as (r' & Hr' & ->).
      apply Hplace in Heq; [|done..]. apply groupOrder_eq in Heq as (Hn & Hi & _). unfold position_of. cbn. congruence.
    + clear -Hes. induction Hes as [|x l Hl IH Hx]; constructor; [|done]. intros Hin. rewrite Forall_forall in Hx. specialize (Hx x Hin). unfold entry_lt in Hx. lia.
  - rewrite <- list_fmap_compose. constructor.
    + clear -Hes. induction Hes as [|x l Hl IH Hx]; csimpl; constructor; [done|]. apply Forall_fmap. eapply Forall_impl; [exact Hx|]. intros y Hy. exact Hy.
    + apply Forall_fmap, Forall_forall. intros x Hx%Hrange. left. unfold placeOf, entryAt. cbn. lia.
Qed.
(** ** What a client makes of it *)
Section Received.
Context `{lib : AbiLibrary} (sha256_hex : string -> string) (get : string -> option (bool * string)) (inflate : string -> option string).
Context `{laws : ExistingStreamLaws IndexingSource UsedStreamConfig K}.
Context (config : UsedStreamConfig) (tip cut : Z) (budget : nat) (producedAt : string) (seed : StreamSeed).
Hypothesis Hseed : produceStreamSeed sha256_hex db indexer stream config tip cut budget producedAt = Ok seed.
Hypothesis Hsettled : settledConfig config = config.
Hypothesis Hstart : 0 <= cov_startBlock coverage.

Lemma produced_seed : exists hash, streamConfigHashOf (Some (provide config)) = Ok hash
  /\ stream = streamDigestOfSourceHashes sha256_hex (cov_source coverage) config
  /\ seed = mkSeed (mkProducer "stored-stream" (seedName indexer) producedAt) tip config None stream (cov_startBlock coverage) cut
       (mkContext (cov_source coverage) (default "" hash) "") (AnEvent <$> canonicalUpTo cut).
Proof.
  revert Hseed. unfold produceStreamSeed. rewrite Hcov. case_decide as Hcut; [done|]. destruct (existsb _ _); [done|]. case_decide as Hdig; [done|].
  destruct (published_events cut budget) as (events & -> & Hdrop); [lia|]. cbn [mbind result_bind]. destruct (streamConfigHashOf _) as [hash|]; [|done].
  intros [= <-]. exists hash. split_and!; [done|done|]. by rewrite Hdrop, Hdig.
Qed.

Lemma published_admitted options client location body :
  clientIdentityOf sha256_hex (opt_source options) (opt_streamConfig options) = Ok client -> client_digest client = stream ->
  stream <> "" -> opt_expectedContentHash options = None -> cov_startBlock coverage <= reachOf options ->
  used_finality (opt_streamConfig options) <= tip - cut ->
  fetchSeedBody get location = Some body -> streamSeedPayloadFrom inflate body = Some (serializeStreamSeed seed) ->
  admitSeed sha256_hex get inflate options (reachOf options) client location = Ok (inr seed).
Proof.
  intros Hclient Hsame Hne Hpin Hreach Hmargin Hbody Hpay. destruct produced_seed as (hash & Hhash & Hdig & Heq).
  assert (settled seed = seed) as Hset by (rewrite Heq; unfold settled; cbn [seed_streamConfig]; by rewrite Hsettled).
  unfold admitSeed. rewrite Hbody, Hpay, Hpin, seed_read, Hset by (by rewrite Heq).
  assert (identityRefusalOf sha256_hex seed (opt_source options) client = Ok None) as ->.
  { unfold identityRefusalOf, hashOfConfig. rewrite Heq. cbn [seed_context seed_streamConfig seed_streamDigest ctx_source ctx_config]. rewrite <- Hdig, Hhash, decide_False by (intros Hno; by apply Hno).
    cbn [mbind result_bind]. rewrite decide_False by (intros Hno; by apply Hno). by rewrite decide_True. }
  cbn [mbind result_bind]. rewrite decide_False by (rewrite Heq; cbn [seed_fromBlock]; lia).
  assert (incoherenceOf seed = None) as ->.
  { apply incoherence_exact. exists (canonicalUpTo cut). rewrite Heq. split; [done|]. by apply published_coherent. }
  rewrite decide_False by (rewrite Heq; cbn [seed_chainHeadAtCapture seed_toBlock]; lia). done.
Qed.

(** C25. The seed a server makes of its stored stream is one its clients take: a client that asks
    for the same stream, reaching no further back than the stored rows do and holding no
    more finality than the cut left, reads the published document and ends up, over an empty
    keeper that answers, with the chain's own logs up to the cut, whatever retractions the
    stored rows hold. *)
Theorem published_seed_installs options client location body (k : K) :
  clientIdentityOf sha256_hex (opt_source options) (opt_streamConfig options) = Ok client -> client_digest client = stream ->
  stream <> "" -> opt_expectedContentHash options = None -> cov_startBlock coverage <= reachOf options ->
  used_finality (opt_streamConfig options) <= tip - cut ->
  fetchSeedBody get location = Some body -> streamSeedPayloadFrom inflate body = Some (serializeStreamSeed seed) ->
  es_kept (configuredFor options k) (opt_source options) None -> es_answers (configuredFor options k) ->
  exists k' kept segments, installStreamSeed sha256_hex get inflate [location] options k
      = (k', Ok (Installed location cut (cov_startBlock coverage) (length (canonicalUpTo cut)) segments))
    /\ es_kept k' (opt_source options) (Some kept) /\ concat (kept_batches kept) = canonicalUpTo cut
    /\ kept_start kept = cov_startBlock coverage /\ lastToBlock (kept_sync kept) = cut.
Proof.
  intros Hclient Hsame Hne Hpin Hreach Hmargin Hbody Hpay Hk Hans.
  pose proof (published_admitted options client location body Hclient Hsame Hne Hpin Hreach Hmargin Hbody Hpay) as Hadmit.
  destruct (install_takes sha256_hex get inflate options client [] location [] seed k Hpin Hk Hans Hclient (Forall_nil_2 _) Hadmit) as (k' & segments & Hinst).
  cbn [app] in Hinst. pose proof (install_spec sha256_hex get inflate options [location] k) as Hspec. rewrite Hinst in Hspec. destruct Hspec as [(_ & seed' & kept & from' & Hadm & Hk' & Hev & Hst & Hsync & _) _].
  destruct produced_seed as (hash & _ & _ & Heq). assert (settled seed = seed) as Hset by (rewrite Heq; unfold settled; cbn [seed_streamConfig]; by rewrite Hsettled).
  destruct (admitted_served _ _ _ _ _ _ _ Hadm) as (body' & payload & Hb & Hp & _ & Hparse). rewrite Hbody in Hb. injection Hb as <-. rewrite Hpay in Hp. injection Hp as <-.
  rewrite seed_read, Hset in Hparse by (by rewrite Heq). injection Hparse as <-.
  exists k', kept, segments. rewrite Hinst. rewrite Heq in Hev, Hst, Hsync |- *. cbn [seed_eventStream seed_fromBlock seed_toBlock] in *. rewrite length_fmap.
  split_and!; [done|done| |done|by rewrite Hsync]. apply (f_equal eventsOf) in Hev. rewrite !eventsOf_events in Hev. done.
Qed.
End Received.
End Published.
