(* ===== verification/Rebuilt.v ===== *)
(** * What a rebuild leaves

    The delivery of a replayed log, batch by batch, into a store; then a chunk, and a host
    that calls until the stream is consumed. *)
From S2P Require Import Prelude JsMap Types Stream Reorg Replay Invalidation Entities StoreSpec MutationContext EntityProcessor Json Cursor StreamBuilder Emissions Chunks Rebuild.

(** ** A log read from its start *)
Inductive turns : list EventBlock -> list StreamGroup -> list EventBlock -> Prop :=
  | turns_none H : turns H [] H
  | turns_turn P D N gs H :
      chain_wf (P ++ N) -> turns (P ++ N) gs H ->
      turns (P ++ D) ((retractedGroup <$> D) ++ (appliedGroup <$> N) ++ gs) H.

Lemma turns_app C gs C' gs' H : turns C gs C' -> turns C' gs' H -> turns C (gs ++ gs') H.
Proof.
  induction 1 as [|P D N gs C' Hwf Ht IH]; intros Ht'; [done|]. rewrite <- !app_assoc. constructor; auto.
Qed.

Lemma cycles_turns from H0 gs H : cycles from H0 gs H -> turns H0 gs H.
Proof.
  induction 1 as [|gs P D N Hc IH Hwf Hdis Hlow]; [constructor|]. eapply turns_app; [exact IH|].
  rewrite <- (app_nil_r (appliedGroup <$> N)). apply turns_turn; [done|constructor].
Qed.

Lemma starts_applied_removed g gs k x :
  starts_applied k -> k = x ++ gs -> head x = Some g -> group_removed g = true -> False.
Proof. intros Hst -> Hg Hr. destruct x; [done|]. injection Hg as ->. simpl in Hst. congruence. Qed.

Lemma turns_nil C H : turns C [] H -> C = H.
Proof.
  remember (@nil StreamGroup) as l eqn:Hl. induction 1 as [H|P D N gs H Hwf Ht IH]; [done|].
  apply app_nil in Hl as [->%fmap_nil_inv Hl]. apply app_nil in Hl as [->%fmap_nil_inv ->]. rewrite app_nil_r in *. by apply IH.
Qed.

(** A whole run of retractions takes a suffix off the chain. *)
Lemma turns_retract C r k H :
  turns C (r ++ k) H -> Forall (fun g => group_removed g = true) r -> starts_applied k -> chain_wf C ->
  exists P D, C = P ++ D /\ r ≡ₚ retractedGroup <$> D /\ turns P k H.
Proof.
  intros Ht. remember (r ++ k) as l eqn:Hl. revert r k Hl. induction Ht as [H|P D N gs H Hwf Ht IH]; intros r k Hl Hr Hst HC.
  { symmetry in Hl. apply app_nil in Hl as [-> ->]. exists H, []. split_and!; [by rewrite app_nil_r|done|constructor]. }
  assert (forall x, retractedGroup <$> D = r ++ x -> k = x ++ (appliedGroup <$> N) ++ gs -> x = []) as Hcut.
  { intros x HD Hk. destruct x as [|g x]; [done|exfalso]. eapply starts_applied_removed; [exact Hst|exact Hk|done|].
    assert (g ∈ retractedGroup <$> D) as (b & -> & _)%list_elem_of_fmap by (rewrite HD; apply elem_of_app; right; left). done. }
  assert (turns P ((appliedGroup <$> N) ++ gs) H) as HtP.
  { pose proof (turns_turn P [] N gs H Hwf Ht) as Hturn. by rewrite app_nil_r in Hturn. }
  symmetry in Hl. apply app_eq_app in Hl as (x & [[-> Hk]|[HD ->]]).
  2:{ pose proof (Hcut x HD eq_refl) as ->. rewrite app_nil_r in HD. exists P, D. rewrite HD. split_and!; done. }
  apply Forall_app in Hr as [_ Hx]. destruct N as [|n N].
  - simpl in Hk. rewrite app_nil_r in IH, Hwf. destruct (IH x k Hk Hx Hst Hwf) as (P' & D' & -> & Hperm & Hrest).
    exists P', (D' ++ D). split_and!; [by rewrite app_assoc| |done]. rewrite Hperm, fmap_app. apply Permutation_app_comm.
  - destruct x as [|g x]; [|csimpl in Hk; injection Hk as <- _; by apply Forall_cons in Hx as [? _]].
    simpl in Hk. subst k. exists P, D. rewrite app_nil_r. done.
Qed.

(** Applied groups extend it. *)
Lemma turns_apply C a k H :
  turns C (a ++ k) H -> Forall (fun g => group_removed g = false) a -> chain_wf C ->
  exists N, a = appliedGroup <$> N /\ chain_wf (C ++ N) /\ turns (C ++ N) k H.
Proof.
  intros Ht. remember (a ++ k) as l eqn:Hl. revert a k Hl. induction Ht as [H|P D N gs H Hwf Ht IH]; intros a k Hl Ha HC.
  { symmetry in Hl. apply app_nil in Hl as [-> ->]. exists []. rewrite app_nil_r. split_and!; [done|done|constructor]. }
  destruct a as [|g a].
  { exists []. rewrite app_nil_r. split_and!; [done|done|]. simpl in Hl. rewrite <- Hl. by apply turns_turn. }
  destruct D as [|d D]; [|csimpl in Hl; injection Hl as <- _; by apply Forall_cons in Ha as [? _]].
  rewrite app_nil_r in *. change ((appliedGroup <$> N) ++ gs = (g :: a) ++ k) in Hl. set (ga := g :: a) in *.
  symmetry in Hl. apply app_eq_app in Hl as (x & [[Hax Hgs]|[HN Hk]]).
  - rewrite Hax in Ha. apply Forall_app in Ha as [_ Hx]. destruct (IH x k Hgs Hx Hwf) as (N' & -> & HwfN & Hrest).
    exists (N ++ N'). rewrite fmap_app, app_assoc. done.
  - apply fmap_app_inv in HN as (N1 & N2 & Ha1 & Hx & ->). exists N1. subst k x.
    rewrite app_assoc in Hwf, Ht. split_and!; [by symmetry| |].
    + eapply chain_wf_sublist; [|exact Hwf]. by apply sublist_inserts_r.
    + pose proof (turns_turn (P ++ N1) [] N2 gs H) as Hturn. rewrite app_nil_r in Hturn. by apply Hturn.
Qed.

(** ** One batch *)
Lemma forkPoint_permuted (r r' rest : list LogEvent) :
  r ≡ₚ r' -> forkPoint (r ++ rest) = forkPoint (r' ++ rest).
Proof.
  intros Hp. unfold forkPoint. f_equal. rewrite !foldl_app. f_equal. generalize (@None Z).
  induction Hp as [|e r r' Hp IH|e e' r|r r1 r2 Hp1 IH1 Hp2 IH2]; intros low; cbn [foldl]; [done|apply IH| |by rewrite IH1].
  f_equal. destruct (removed e), (removed e'), low; try done; f_equal; lia.
Qed.

Lemma group_events_permuted gs gs' : gs ≡ₚ gs' -> group_events gs ≡ₚ group_events gs'.
Proof.
  induction 1 as [|g gs gs' Hp IH|g g' gs|gs gs1 gs2 Hp1 IH1 Hp2 IH2]; rewrite ?group_events_cons; [done|by rewrite IH| |by rewrite IH1].
  rewrite !app_assoc. apply Permutation_app_tail, Permutation_app_comm.
Qed.

Lemma batch_parts r D N :
  r ≡ₚ retractedGroup <$> D -> chain_wf D -> chain_wf N ->
  groupByBlock (group_events (r ++ (appliedGroup <$> N))) = N
  /\ forkPoint (group_events (r ++ (appliedGroup <$> N))) = (fun b => number b - 1) <$> head D.
Proof.
  intros Hp HD HN. rewrite group_events_app, group_events_applied.
  pose proof (group_events_permuted _ _ Hp) as Hev. rewrite group_events_retracted in Hev. split.
  - unfold groupByBlock. rewrite foldl_app.
    assert (Forall (fun e => removed e = true) (group_events r)) as Hrm.
    { rewrite Hev. unfold retractions_of. apply Forall_fmap, Forall_forall. done. }
    assert (foldl fetchStep [] (group_events r) = []) as ->.
    { clear Hev. induction Hrm as [|e evs He Hevs IH]; [done|]. cbn [foldl].
      assert (fetchStep [] e = []) as -> by (unfold fetchStep; by rewrite He). done. }
    apply (groupByBlock_stream [] N); apply HN.
  - rewrite (forkPoint_permuted _ _ _ Hev). by apply forkPoint_stream; [|apply HN].
Qed.

Lemma delivered_none cursor bs : delivered cursor [] bs -> bs = [].
Proof. intros Hd. inversion Hd as [|r a rest bs' Hr Ha Hne]; [done|]. by destruct r, a. Qed.

Section Delivery.
Context {S : Type} `{StateStoreLaws S} (processor : Processor) (floor : Z) (entities : entities_map).

(** The blocks a log speaks of, every chain of which the processor can fold. *)
Record foldable (known : EventBlock -> Prop) : Prop := {
  foldable_folds C : chain_wf C -> Forall known C -> is_Ok (fold_chain entities processor C);
  foldable_lower b b' : known b -> known b' -> lower_hash b = lower_hash b' -> hash b = hash b';
  foldable_floor b : known b -> floor < number b;
  foldable_plain b : known b -> block_plain b
}.

Definition stored_fold (store : S) (C : list EventBlock) : Prop :=
  declarations store = entities /\ exists h, repr floor store h /\ fold_chain entities processor C = Ok h.

Lemma lower_distinct known C : foldable known -> chain_wf C -> Forall known C -> NoDup (lower_hash <$> C).
Proof.
  intros Hf [_ Hnd _] Hk. induction C as [|b C IH]; csimpl in *; [constructor|].
  apply NoDup_cons in Hnd as [Hb Hnd]. apply Forall_cons in Hk as [Hkb Hk]. constructor; [|by apply IH].
  intros (x & Hx & Hin)%list_elem_of_fmap. apply Hb. rewrite Forall_forall in Hk.
  apply list_elem_of_fmap. exists x. split; [|done]. apply (foldable_lower _ Hf); auto.
Qed.

Lemma batch_folds known store P D N r cursor :
  foldable known -> handlers_declared entities processor ->
  stored_fold store (P ++ D) -> chain_wf (P ++ D) -> chain_wf (P ++ N) -> Forall known (P ++ D) -> Forall known (P ++ N) ->
  r ≡ₚ retractedGroup <$> D ->
  exists store' reports, applyEventStream serializeLastSync store processor (group_events (r ++ (appliedGroup <$> N)))
      (Some (SYNC_CURSOR_KEY, cursor)) = (store', reports, Ok tt)
    /\ stored_fold store' (P ++ N) /\ readCursor store' SYNC_CURSOR_KEY = Some (serializeLastSync cursor).
Proof.
  intros Hf Hdecl [Hd (h & Hr & Hfold)] HD HN HkD HkN Hp.
  assert (chain_wf D) as HwfD by (eapply chain_wf_sublist; [|exact HD]; by apply sublist_inserts_l).
  assert (chain_wf N) as HwfN by (eapply chain_wf_sublist; [|exact HN]; by apply sublist_inserts_l).
  destruct (batch_parts r D N Hp HwfD HwfN) as [HgN Hfork]. rewrite <- Hd in *.
  pose proof (applyEventStream_parts serializeLastSync processor floor store h P D [] N _ SYNC_CURSOR_KEY cursor HgN) as Happ.
  rewrite !app_nil_r in Happ. specialize (Happ Hfork Hr Hdecl Hfold HD HN).
  destruct (applyEventStream _ _ _ _ _) as [[store' reports] res].
  destruct Happ as (k & h' & Hk & Hd' & Hf' & Hr' & Hcur & Hend).
  { apply (lower_distinct known); [by rewrite Hd in *|done|done]. }
  { apply Forall_app in HkD as [_ HkD]. eapply Forall_impl; [exact HkD|]. intros b. by apply (foldable_floor known). }
  destruct res as [[]|e].
  - subst k. rewrite firstn_all in Hf'. exists store', reports. split; [done|]. split; [split; [congruence|by exists h'; rewrite Hd in *]|].
    rewrite Hcur. unfold cursor_at. rewrite firstn_all. destruct (last N) as [b|] eqn:Hl; [by rewrite decide_True|].
    by apply last_None in Hl as ->.
  - destruct Hend as [_ Hno]. exfalso. apply Hno. rewrite Hd. apply (foldable_folds known); [done|..].
    + eapply chain_wf_sublist; [|exact HN]. apply sublist_app; [done|]. apply sublist_take.
    + eapply Forall_sublist; [|exact HkN]. apply sublist_app; [done|]. apply sublist_take.
Qed.

Definition applied_known (known : EventBlock -> Prop) (gs : list StreamGroup) : Prop :=
  Forall (fun g => group_removed g = false -> known (group_block g)) gs.

(** A whole delivery, in as many batches as it was cut. *)
Lemma processBatches_run known cursor gs bs :
  foldable known -> handlers_declared entities processor -> delivered cursor gs bs ->
  forall store C K, stored_fold store C -> turns C gs K -> chain_wf C -> Forall known C -> applied_known known gs ->
  exists store', processBatches processor store bs = (store', Ok tt) /\ stored_fold store' K
    /\ (gs <> [] -> readCursor store' SYNC_CURSOR_KEY = Some (serializeLastSync cursor)).
Proof.
  intros Hf Hdecl. induction 1 as [|r a rest bs Hr Ha Hne Hst Hdel IH]; intros store C K Hs Ht HC HkC Hkg.
  { exists store. apply turns_nil in Ht as ->. done. }
  apply turns_retract in Ht as (P & D & -> & Hp & Ht); [|done..].
  assert (chain_wf P) as HP by (eapply chain_wf_sublist; [|exact HC]; by apply sublist_inserts_r).
  apply turns_apply in Ht as (N & -> & HN & Ht); [|done..].
  unfold applied_known in Hkg. rewrite !Forall_app, Forall_fmap in Hkg. destruct Hkg as (_ & HkN & Hkrest).
  assert (Forall known (P ++ N)) as HkPN.
  { apply Forall_app in HkC as [HkP _]. apply Forall_app. split; [done|]. eapply Forall_impl; [exact HkN|]. intros b Hb. by apply Hb. }
  cbn [processBatches batch_events batch_lastSync].
  destruct (batch_folds known store P D N r (match rest with [] => cursor | _ => cursorSyncedThrough cursor
    (foldedThrough (group_events (r ++ (appliedGroup <$> N)))) end)) as (s1 & reports & -> & Hs1 & Hcur1); [done..|].
  destruct (IH s1 (P ++ N) K) as (s2 & Hrun & Hs2 & Hcur2); [done..|]. rewrite Hrun.
  exists s2. split_and!; [done|done|]. intros _. destruct rest as [|g rest]; [|by apply Hcur2].
  apply delivered_none in Hdel as ->. injection Hrun as <-. done.
Qed.
End Delivery.

(** ** A chunk of a stored log *)
Definition level (g : StreamGroup) : Prop :=
  Forall (fun e => blockNumber e = number (group_block g)) (events (group_block g)).

Lemma cycles_level from H0 gs H : chain_wf H0 -> cycles from H0 gs H -> Forall level gs.
Proof.
  intros H0wf. induction 1 as [|gs P D N Hc IH Hwf Hdis Hlow]; [constructor|].
  pose proof (chain_wf_blocks _ (cycles_chain _ _ _ _ H0wf Hc)) as [_ HD]%Forall_app.
  pose proof (chain_wf_blocks _ Hwf) as [_ HN]%Forall_app. rewrite !Forall_app, !Forall_fmap. split_and!; [done|..].
  - eapply Forall_impl; [exact HD|]. intros b [_ Hb]. unfold compose, level. cbn [retractedGroup group_block events number].
    apply Forall_fmap. eapply Forall_impl; [exact Hb|]. by intros e [? _].
  - eapply Forall_impl; [exact HN|]. intros b [_ Hb]. eapply Forall_impl; [exact Hb|]. by intros e [? _].
Qed.

(** Selecting the rows of a block range selects whole groups. *)
Lemma filter_levels (P : Z -> Prop) `{!forall n, Decision (P n)} gs :
  Forall level gs ->
  filter (fun e => P (blockNumber e)) (group_events gs) = group_events (filter (fun g => P (number (group_block g))) gs).
Proof.
  induction 1 as [|g gs Hg Hgs IH]; [done|]. rewrite group_events_cons, filter_app, IH, filter_cons. case_decide as Hp.
  - rewrite group_events_cons. f_equal. apply filter_Forall_id. eapply Forall_impl; [exact Hg|]. by intros e ->.
  - rewrite filter_Forall_nil; [done|]. eapply Forall_impl; [exact Hg|]. by intros e ->.
Qed.

Lemma slice_events from to gs : Forall level gs ->
  group_events (slice from to gs) = filter (fun e => from <= blockNumber e /\ blockNumber e <= to) (group_events gs).
Proof.
  intros Hl. unfold slice, from_block, below. rewrite list_filter_filter.
  symmetry. exact (filter_levels (fun n => from <= n /\ n <= to) gs Hl).
Qed.

Lemma readRange_slice db indexer stream gs from to :
  ascending row_seq (rows_of db indexer stream) ->
  feedEntryOf <$> rows_of db indexer stream = feed_of_log <$> group_events gs -> Forall level gs ->
  readRange db indexer stream from to = feed_of_log <$> group_events (slice from to gs).
Proof.
  intros Ha Hrows Hl. unfold readRange. rewrite slice_events by done. case_decide as Hr.
  { rewrite filter_Forall_nil; [done|]. apply Forall_forall. lia. }
  rewrite sort_on_id by (eapply ascending_weaken, ascending_sublist; [apply sublist_filter|done]).
  set (Q := fun x : FeedEntry => from <= entry_blockNumber (feed_entry x) /\ entry_blockNumber (feed_entry x) <= to).
  assert (forall x, Decision (Q x)) as HQ by (intros x; unfold Q; apply _).
  rewrite <- (filter_pairs (fun e => from <= blockNumber e /\ blockNumber e <= to) Q feed_of_log) by done.
  rewrite <- Hrows. symmetry. by apply filter_pairs.
Qed.

(** A log whose decoded half is the running ABI's. *)
Record raw_ok (decodeOnto : string -> list string -> string -> Decoded) (e : LogEvent) : Prop := {
  raw_data : data e <> "";
  raw_address : address e <> "";
  raw_topics : (length (topics e) <= 4)%nat;
  raw_decoded : decoded e = decodeOnto (address e) (topics e) (data e)
}.

Lemma reparse_feed decodeOnto es : Forall (raw_ok decodeOnto) es -> reparse decodeOnto (feed_of_log <$> es) = Some es.
Proof.
  intros Hes. unfold reparse.
  assert (forallb has_raw (feed_of_log <$> es) = true) as ->.
  { apply forallb_forall. intros x (e & -> & He)%list_elem_of_In%list_elem_of_fmap. rewrite Forall_forall in Hes.
    destruct (Hes e He) as [Hd Ha _ _]. unfold has_raw. simpl. by rewrite !bool_decide_true. }
  f_equal. rewrite <- list_fmap_compose. rewrite <- (list_fmap_id es) at 2. apply list_fmap_ext. intros i e He.
  apply list_elem_of_lookup_2 in He. rewrite Forall_forall in Hes. destruct (Hes e He) as [_ _ Ht Hdec].
  unfold compose, decodedLog, feed_of_log, entry_of_log. simpl. rewrite take_ge by done. rewrite <- Hdec. by destruct e.
Qed.

(** ** A chunk of a rebuild *)
Section Following.
Context {S : Type} `{StateStoreLaws S} (processor : Processor) (decodeOnto : string -> list string -> string -> Decoded).
Context (rb : GenerationRebuild) (floor : Z) (sourceHash configHash : string).
Hypothesis Hcontext : rb_context rb = wireContextOf sourceHash configHash.
Hypothesis Hretention : forall declared, rb_declaredFinalityDepth rb = Some declared -> rb_finality rb <= declared.
Hypothesis Hfinality : 0 <= rb_finality rb.
Hypothesis Hbatch : 1 <= rb_feedBatchSize rb.

Let d := rb_defaultFromBlock rb.
Let f := rb_finality rb.

(** The store holds the fold of [C] and the cursor this fold resumes from. *)
Definition rebuilt (store : S) (lastSync : LastSync) (C : list EventBlock) : Prop :=
  tracks processor (receiver_of rb) floor store lastSync C [].

Lemma checkpoint_resumes store lastSync : resumes (receiver_of rb) store lastSync -> checkpoint rb store = Ok lastSync.
Proof.
  intros [Hown Hcur]. unfold checkpoint, load. cbn [declaredFinalityDepth sb_finality receiver_of].
  assert (ownCursor (receiver_of rb) lastSync = true) as Hmine.
  { unfold ownCursor. rewrite Hown. unfold freshSync. cbn [context ctx_processor].
    rewrite bool_decide_true by done. cbn [andb sb_context receiver_of]. rewrite Hcontext. apply stateMatches_own. }
  destruct (rb_declaredFinalityDepth rb) as [declared|] eqn:Hdec; [rewrite decide_False by (specialize (Hretention declared eq_refl); lia)|];
    (destruct Hcur as [->|[-> ->]]; [by rewrite Hmine|done]).
Qed.

(** What a delivery of a log over the fold of [C] leaves. *)
Lemma deliver_run known store C gs K cursor lastSync from :
  foldable processor floor (declarations store) known -> rebuilt store lastSync C -> cycles from C gs K ->
  Forall known C -> applied_known known gs ->
  context cursor = context lastSync -> holds d f cursor K -> Forall known K ->
  exists store', deliver processor rb store (group_events gs) cursor = (store', Ok tt)
    /\ declarations store' = declarations store /\ rebuilt store' cursor K.
Proof.
  intros Hf [Hdecl (h & Hr & Hfold) [Hown Hcur] Hholds] Hc HkC Hkg Hctx Hnew HkK. rewrite app_nil_r in Hholds.
  pose proof (holds_chain _ _ _ _ Hholds) as HC.
  assert (stored_fold processor floor (declarations store) store C) as Hs by (split; [done|by exists h]).
  assert (exists store', deliver processor rb store (group_events gs) cursor = (store', Ok tt)
    /\ stored_fold processor floor (declarations store) store' K
    /\ readCursor store' SYNC_CURSOR_KEY = Some (serializeLastSync cursor)) as (store' & Hrun & [Hd' (h' & Hr' & Hf')] & Hc').
  { unfold deliver, batchStreamForDelivery. rewrite (cycles_groups _ _ _ _ HC Hc).
    pose proof (batchLoop_delivered cursor (rb_feedBatchSize rb) (length gs) gs Hbatch (cycles_wf _ _ _ _ HC Hc) (le_n _)) as Hdel.
    apply cycles_turns in Hc. destruct (batchLoop _ _ _ _) as [|b bs].
    - assert (gs = []) as -> by (inversion Hdel; done). apply turns_nil in Hc as ->.
      destruct (batch_folds processor floor (declarations store) known store K [] [] [] cursor) as (store' & reports & Hrun & Hs' & Hc'); rewrite ?app_nil_r; try done.
      exists store'. rewrite app_nil_r in Hs'. change (group_events ([] ++ (appliedGroup <$> []))) with (@nil LogEvent) in Hrun.
      cbn [processBatches batch_events batch_lastSync]. by rewrite Hrun.
    - destruct (processBatches_run processor floor (declarations store) known cursor gs _ Hf Hdecl Hdel store C K) as (store' & Hrun & Hs' & Hcur'); [done..|].
      exists store'. split_and!; [done|done|]. apply Hcur'. intros ->. by apply delivered_none in Hdel. }
  exists store'. split; [done|]. split; [done|]. split.
  - by rewrite Hd'.
  - exists h'. by rewrite Hd'.
  - split; [by rewrite Hctx|]. left. rewrite Hc'. apply parseStoredCursor_serialized. eapply (sync_plain_of (receiver_of rb)); [exact Hnew|].
    eapply Forall_impl; [exact HkK|]. apply (foldable_plain _ _ _ _ Hf).
  - by rewrite app_nil_r.
Qed.

(** The rows of one stream, and what they are the log of. *)
Record stored_log (known : EventBlock -> Prop) (db : EmissionDb) (indexer : string) (gs : list StreamGroup)
    (K : list EventBlock) (cov : CoverageRow) : Prop := {
  log_rows : ascending row_seq (rows_of db indexer (rb_stream rb));
  log_feed : feedEntryOf <$> rows_of db indexer (rb_stream rb) = feed_of_log <$> group_events gs;
  log_claim : readStreamCoverage db indexer (rb_stream rb) = Some cov;
  log_start : cov_startBlock cov <= d <= cov_lastToBlock cov;
  log_tip : cov_lastToBlock cov <= cov_latestBlock cov /\ 0 < cov_latestBlock cov;
  log_cycles : cycles d [] gs K;
  log_heights : heighted gs;
  log_within : Forall (fun g => 0 < number (group_block g) <= cov_lastToBlock cov) gs;
  log_raw : Forall (raw_ok decodeOnto) (group_events gs);
  log_known : applied_known known gs
}.

Lemma log_level known db indexer gs K cov : stored_log known db indexer gs K cov -> Forall level gs.
Proof. intros Hl. eapply cycles_level; [apply chain_wf_nil|apply Hl]. Qed.

Lemma log_chain known db indexer gs K cov : stored_log known db indexer gs K cov ->
  chain_wf K /\ Forall known K /\ upto (cov_lastToBlock cov) K = K.
Proof.
  intros Hl. pose proof (log_cycles _ _ _ _ _ _ Hl) as Hc. split_and!; [by eapply cycles_chain, Hc; apply chain_wf_nil|..].
  - apply Forall_forall. intros b Hb. pose proof (log_known _ _ _ _ _ _ Hl) as Hk. unfold applied_known in Hk.
    rewrite Forall_forall in Hk. by apply (Hk (appliedGroup b) (cycles_applied _ _ _ _ Hc Hb)).
  - apply filter_Forall_id, Forall_forall. intros b Hb. pose proof (log_within _ _ _ _ _ _ Hl) as Hk.
    rewrite Forall_forall in Hk. by apply (Hk (appliedGroup b) (cycles_applied _ _ _ _ Hc Hb)).
Qed.

(** How far the next chunk reaches. *)
Definition chunk_to (db : EmissionDb) (indexer : string) (cov : CoverageRow) (lastSync : LastSync) : Z :=
  let from := getFromBlock lastSync d f in
  let budgetCut := match probeBlocks db indexer (rb_stream rb) from (rb_maxEmissions rb + 1) !! rb_maxEmissions rb with
                   | Some n => n - 1 | None => cov_lastToBlock cov end in
  Z.min (cov_lastToBlock cov) (Z.max budgetCut (Z.max (lastToBlock lastSync + 1) from)).

Lemma log_known_of known gs0 gs1 K0 : applied_known known (gs0 ++ gs1) -> cycles d [] gs0 K0 -> Forall known K0.
Proof.
  intros [Hk _]%Forall_app Hc. apply Forall_forall. intros b Hb. rewrite Forall_forall in Hk.
  by apply (Hk (appliedGroup b) (cycles_applied _ _ _ _ Hc Hb)).
Qed.

Lemma added_known known s bounds gs0 gs1 : applied_known known (gs0 ++ gs1) -> applied_known known (added s bounds gs0 gs1).
Proof.
  intros [H0' H1]%Forall_app. apply Forall_app. split.
  - eapply Forall_sublist; [|exact H0']. etrans; apply sublist_filter.
  - eapply Forall_sublist; [|exact H1]. apply sublist_filter.
Qed.

Lemma cycles_nil from C K : cycles from C [] K -> C = K.
Proof.
  intros Hc. by apply cycles_turns, turns_nil in Hc.
Qed.

(** One call over a stored log. *)
Lemma more_chunk known db indexer gs0 gs1 K0 K cov store s :
  let T := lastToBlock s in let from := getFromBlock s d f in let to := chunk_to db indexer cov s in
  foldable processor floor (declarations store) known -> stored_log known db indexer (gs0 ++ gs1) K cov ->
  cycles d [] gs0 K0 -> cycles from K0 gs1 K -> rebuilt store s (upto T K0) ->
  T <= cov_lastToBlock cov -> latestBlock s <= cov_latestBlock cov ->
  (T < cov_lastToBlock cov \/ latestBlock s = cov_latestBlock cov \/ latestBlock s - f <= cov_lastToBlock cov) ->
  (T = cov_lastToBlock cov -> latestBlock s = cov_latestBlock cov -> gs1 = []) ->
  NoDup (verdict <$> below T (from_block from (gs0 ++ gs1))) -> nothing_reread T (below to gs1) ->
  exists store' s' report,
    more processor decodeOnto rb (storedEmissionReplaySource db indexer) store None = (store', Ok report)
    /\ declarations store' = declarations store /\ rebuilt store' s' (upto to K)
    /\ lastToBlock s' = to /\ latestBlock s' = cov_latestBlock cov
    /\ rebuild_toBlock report = Some to /\ rebuild_complete report = bool_decide (to = cov_lastToBlock cov)
    /\ rebuild_stopped report = (if bool_decide (to = cov_lastToBlock cov) then StreamConsumed else BudgetSpent).
Proof.
  intros T from to Hf Hl Hc0 Hc1 Hreb HT Hlat Hnear Hmoved Honce Hre.
  pose proof (log_start _ _ _ _ _ _ Hl) as [Hs0 Hdcov]. pose proof (log_tip _ _ _ _ _ _ Hl) as [Htl Htip].
  pose proof (log_known _ _ _ _ _ _ Hl) as Hknown. pose proof (log_chain _ _ _ _ _ _ Hl) as (HK & HkK & _).
  assert (d <= from) as Hfrom by apply (getFromBlock_start (receiver_of rb)).
  assert (to <= cov_lastToBlock cov) as Hto by (unfold to, chunk_to; lia).
  assert (Z.min (cov_lastToBlock cov) (T + 1) <= to) as Hprog by (unfold to, chunk_to, T; lia).
  assert (bool_decide (to < cov_lastToBlock cov) = negb (bool_decide (to = cov_lastToBlock cov))) as Htrunc.
  { repeat case_bool_decide; done || lia. }
  unfold more. rewrite (checkpoint_resumes store s) by apply Hreb. cbv zeta. fold d f from.
  unfold storedEmissionReplaySource. rewrite (log_claim _ _ _ _ _ _ Hl), decide_False by lia.
  cbn [chunk_eventStream chunk_lastToBlock chunk_latestBlock chunk_lastFromBlock chunk_truncated chunk_highWater].
  change (Z.min (cov_lastToBlock cov) _) with to. fold T.
  rewrite (readRange_slice _ _ _ _ _ _ (log_rows _ _ _ _ _ _ Hl) (log_feed _ _ _ _ _ _ Hl) (log_level _ _ _ _ _ _ Hl)).
  rewrite reparse_feed.
  2:{ rewrite slice_events by (eapply log_level; exact Hl). eapply Forall_sublist; [apply sublist_filter|apply (log_raw _ _ _ _ _ _ Hl)]. }
  assert (T < cov_lastToBlock cov \/ latestBlock s - f <= cov_lastToBlock cov -> from <= to) as Hfromto.
  { intros Hor. assert (from <= cov_lastToBlock cov) as Hle by (unfold from, getFromBlock, T in *; case_decide; lia).
    unfold to, chunk_to. fold from. lia. }
  clearbody to. destruct (decide (to = T /\ cov_latestBlock cov = latestBlock s)) as [[HtoT Hsame]|Hactive].
  - assert (T = cov_lastToBlock cov) as Hlevel by lia.
    rewrite (Hmoved Hlevel (eq_sym Hsame)) in Hc1. apply cycles_nil in Hc1 as ->.
    eexists store, s, _. split; [done|]. cbn [rebuild_toBlock rebuild_complete rebuild_stopped]. unfold chunkStop.
    cbn [chunk_truncated]. rewrite Htrunc, negb_involutive. split_and!; try done; [by rewrite HtoT|by destruct (bool_decide (to = _))].
  - assert (advancing d s (mkBounds (cov_latestBlock cov) from to f)) as Hadv.
    { split; simpl; [done|split; [apply Hfromto; lia|lia]|lia|done]. }
    assert (holds d f s (upto T K0)) as Hholds by (destruct Hreb as [_ _ _ Hh]; by rewrite app_nil_r in Hh).
    destruct (chunk_replay d d s (mkBounds (cov_latestBlock cov) from to f) gs0 gs1 K0 K) as (s' & Hrun & Hctx & Hlat' & Hto' & Hnew);
      [done|apply Hl|done|done|done|done|done|simpl; lia|done|].
    pose proof (added_cycles d d s (mkBounds (cov_latestBlock cov) from to f) gs0 gs1 K0 K (log_heights _ _ _ _ _ _ Hl) Hc0 ltac:(done) Hadv Hc1) as Hadd.
    cbn [newLatestBlock newLastToBlock newLastFromBlock finality] in *. rewrite Hrun.
    destruct (deliver_run known store (upto T K0) (added s (mkBounds (cov_latestBlock cov) from to f) gs0 gs1) (upto to K) s' s from)
      as (store' & Hdel & Hdecl & Hreb'); try done.
    + apply Hadd; [lia|apply Hholds].
    + eapply Forall_sublist; [apply sublist_filter|]. by eapply log_known_of.
    + by apply added_known.
    + eapply Forall_sublist; [apply sublist_filter|done].
    + rewrite Hdel. eexists store', s', _. split; [done|]. cbn [rebuild_toBlock rebuild_complete rebuild_stopped]. unfold chunkStop.
      cbn [chunk_truncated]. rewrite Htrunc, negb_involutive. split_and!; try done. by destruct (bool_decide (to = _)).
Qed.

(** The whole loop over a stream nobody appends to meanwhile. *)
Lemma rebuild_loop_run known db indexer gs K cov fuel store s :
  foldable processor floor (declarations store) known -> stored_log known db indexer gs K cov -> NoDup (verdict <$> gs) ->
  rebuilt store s (upto (lastToBlock s) K) -> lastToBlock s <= cov_lastToBlock cov -> latestBlock s <= cov_latestBlock cov ->
  (lastToBlock s < cov_lastToBlock cov \/ latestBlock s = cov_latestBlock cov \/ latestBlock s - f <= cov_lastToBlock cov) ->
  (Z.to_nat (cov_lastToBlock cov - lastToBlock s) < fuel)%nat ->
  exists store' s' report,
    rebuildUntilLevel processor decodeOnto rb fuel (storedEmissionReplaySource db indexer) store = (store', Some (Ok report))
    /\ rebuild_complete report = true /\ rebuild_stopped report = StreamConsumed
    /\ rebuild_toBlock report = Some (cov_lastToBlock cov)
    /\ declarations store' = declarations store /\ rebuilt store' s' K
    /\ lastToBlock s' = cov_lastToBlock cov /\ latestBlock s' = cov_latestBlock cov.
Proof.
  revert store s. induction fuel as [|fuel IH]; intros store s Hf Hl Hnd Hreb HT Hlat Hnear Hfuel; [lia|].
  pose proof (log_chain _ _ _ _ _ _ Hl) as (HK & HkK & Hall).
  pose proof (log_cycles _ _ _ _ _ _ Hl) as Hc. rewrite <- (app_nil_r gs) in Hl.
  destruct (more_chunk known db indexer gs [] K K cov store s) as (s1 & c1 & report & Hmore & Hd1 & Hreb1 & Ht1 & Hl1 & Hrep & Hcomp & Hstop);
    try done; [constructor| |].
  { rewrite app_nil_r. eapply sublist_NoDup; [exact Hnd|]. apply sublist_fmap. unfold below, from_block. etrans; apply sublist_filter. }
  cbn [rebuildUntilLevel]. rewrite Hmore. rewrite app_nil_r in Hl.
  destruct (decide (chunk_to db indexer cov s = cov_lastToBlock cov)) as [Hto|Hto].
  - rewrite bool_decide_true in Hcomp, Hstop by done. rewrite Hstop.
    rewrite Hto, Hall in Hreb1. eexists s1, c1, report. split_and!; done || congruence.
  - rewrite bool_decide_false in Hcomp, Hstop by done. rewrite Hstop. destruct (IH s1 c1) as (s2 & c2 & report2 & Hloop & H1 & H2 & H3 & H4 & H5 & H6 & H7).
    + by rewrite Hd1.
    + done.
    + done.
    + by rewrite Ht1.
    + rewrite Ht1. unfold chunk_to. lia.
    + lia.
    + rewrite Ht1. unfold chunk_to in *. lia.
    + rewrite Ht1. unfold chunk_to in *. lia.
    + eexists s2, c2, report2. split_and!; try done. congruence.
Qed.

(** ** A delta taken as it is pushed *)
Lemma reparse_raw es : Forall (raw_ok decodeOnto) es -> reparse decodeOnto (rawOf <$> es) = Some es.
Proof.
  intros Hes. rewrite <- (reparse_feed decodeOnto es Hes). f_equal. apply list_fmap_ext. intros i e He%list_elem_of_lookup_2.
  rewrite Forall_forall in Hes. destruct (Hes e He) as [_ _ Ht _]. unfold rawOf, feed_of_log, entry_of_log. by rewrite take_ge.
Qed.

Lemma follow_delta known store s C K gs delta_stream delta :
  let bounds := mkBounds (latestBlock delta) (lastFromBlock delta) (lastToBlock delta) f in
  foldable processor floor (declarations store) known -> rebuilt store s C -> Forall known C ->
  rawOf <$> delta_stream = rawOf <$> group_events gs -> Forall (raw_ok decodeOnto) (group_events gs) -> applied_known known gs ->
  if decide (lastFromBlock delta = getFromBlock s d f) then
    advancing d s bounds -> cycles (lastFromBlock delta) C gs K -> Forall known K -> nothing_reread (lastToBlock s) gs ->
    exists store' s', follow processor decodeOnto rb store delta_stream delta = (store', Ok (true, length (group_events gs)))
      /\ declarations store' = declarations store /\ rebuilt store' s' K
      /\ lastToBlock s' = lastToBlock delta /\ latestBlock s' = latestBlock delta
  else follow processor decodeOnto rb store delta_stream delta = (store, Ok (false, 0%nat)).
Proof.
  intros bounds Hf Hreb HkC Hraw Hok Hkg. unfold follow. rewrite (checkpoint_resumes store s) by apply Hreb. cbv zeta. fold d f.
  destruct (decide (lastFromBlock delta = getFromBlock s d f)) as [Heq|Hne]; [|by rewrite decide_True].
  rewrite decide_False by (intros []; done). intros Hadv Hc HkK Hre. rewrite Hraw, (reparse_raw _ Hok).
  assert (holds d f s C) as Hholds by (destruct Hreb as [_ _ _ Hh]; by rewrite app_nil_r in Hh).
  destruct (cycles_follow d s bounds C K gs Hholds Hadv Hc Hre) as (s' & Hrun & Hctx & Hlat & Hto & Hnew).
  cbn [default from_option id]. fold bounds. rewrite Hrun.
  destruct (deliver_run known store C gs K s' s (lastFromBlock delta)) as (store' & -> & Hd & Hreb'); [done..|].
  by exists store', s'.
Qed.

(** A host that keeps asking is answered: over a stream nobody appends to meanwhile,
    from any checkpoint on its chain, at most one call per block still to cover
    reaches the report that says complete, and the store then holds the fold of the
    stream's chain, at the stream's own position. *)
Theorem rebuild_completes known db indexer gs K cov fuel store s :
  foldable processor floor (declarations store) known -> stored_log known db indexer gs K cov -> NoDup (verdict <$> gs) ->
  rebuilt store s (upto (lastToBlock s) K) -> lastToBlock s <= cov_lastToBlock cov -> latestBlock s <= cov_latestBlock cov ->
  (lastToBlock s < cov_lastToBlock cov \/ latestBlock s = cov_latestBlock cov \/ latestBlock s - f <= cov_lastToBlock cov) ->
  (Z.to_nat (cov_lastToBlock cov - lastToBlock s) < fuel)%nat ->
  exists store' s' report,
    rebuildUntilLevel processor decodeOnto rb fuel (storedEmissionReplaySource db indexer) store = (store', Some (Ok report))
    /\ rebuild_complete report = true /\ rebuild_stopped report = StreamConsumed
    /\ rebuild_toBlock report = Some (cov_lastToBlock cov)
    /\ declarations store' = declarations store /\ rebuilt store' s' K
    /\ lastToBlock s' = cov_lastToBlock cov /\ latestBlock s' = cov_latestBlock cov.
Proof. apply rebuild_loop_run. Qed.

(** C10. One call, over a stream that went from [gs0] to [gs0 ++ gs1] since this fold's
    checkpoint, retractions of blocks it had folded included: the fold that covered
    the old chain up to its own position covers the new one up to the chunk's end,
    and the report says complete exactly at the stream's end.  The handlers can fold every
    block, and the claim of the stream has moved with it: a fork that leaves both its last
    block and its latest block where they were is excluded ([rebuild_misses_level_fork]);
    where the last block did not move, the latest did not either or was within the finality
    depth of it at the checkpoint.  No block the fold had covered is applied or taken back
    twice in what is read again, and none it had settled is applied and then taken back in
    what is new ([nothing_reread]). *)
Theorem more_follows known db indexer gs0 gs1 K0 K cov store s :
  let T := lastToBlock s in let from := getFromBlock s d f in let to := chunk_to db indexer cov s in
  foldable processor floor (declarations store) known -> stored_log known db indexer (gs0 ++ gs1) K cov ->
  cycles d [] gs0 K0 -> cycles from K0 gs1 K -> rebuilt store s (upto T K0) ->
  T <= cov_lastToBlock cov -> latestBlock s <= cov_latestBlock cov ->
  (T < cov_lastToBlock cov \/ latestBlock s = cov_latestBlock cov \/ latestBlock s - f <= cov_lastToBlock cov) ->
  (T = cov_lastToBlock cov -> latestBlock s = cov_latestBlock cov -> gs1 = []) ->
  NoDup (verdict <$> below T (from_block from (gs0 ++ gs1))) -> nothing_reread T (below to gs1) ->
  exists store' s' report,
    more processor decodeOnto rb (storedEmissionReplaySource db indexer) store None = (store', Ok report)
    /\ declarations store' = declarations store /\ rebuilt store' s' (upto to K)
    /\ lastToBlock s' = to /\ latestBlock s' = cov_latestBlock cov
    /\ rebuild_toBlock report = Some to /\ rebuild_complete report = bool_decide (to = cov_lastToBlock cov)
    /\ rebuild_stopped report = (if bool_decide (to = cov_lastToBlock cov) then StreamConsumed else BudgetSpent).
Proof. apply more_chunk. Qed.

(** A delta that begins elsewhere than where this fold resumes is left alone; one that
    begins there and extends the chain this fold holds is folded, whatever the
    writer's own decoding of it was. *)
Theorem follow_takes known store s C K gs delta_stream delta :
  let bounds := mkBounds (latestBlock delta) (lastFromBlock delta) (lastToBlock delta) f in
  foldable processor floor (declarations store) known -> rebuilt store s C -> Forall known C ->
  rawOf <$> delta_stream = rawOf <$> group_events gs -> Forall (raw_ok decodeOnto) (group_events gs) -> applied_known known gs ->
  if decide (lastFromBlock delta = getFromBlock s d f) then
    advancing d s bounds -> cycles (lastFromBlock delta) C gs K -> Forall known K -> nothing_reread (lastToBlock s) gs ->
    exists store' s', follow processor decodeOnto rb store delta_stream delta = (store', Ok (true, length (group_events gs)))
      /\ declarations store' = declarations store /\ rebuilt store' s' K
      /\ lastToBlock s' = lastToBlock delta /\ latestBlock s' = latestBlock delta
  else follow processor decodeOnto rb store delta_stream delta = (store, Ok (false, 0%nat)).
Proof. apply follow_delta. Qed.
End Following.
