(* ===== verification/Fetched.v ===== *)
(** * What a fetcher asks for and makes of it

    The theorems about a fetcher of [Decoding] that its constructor accepted: the requests
    it sends ask for what the rules let through, and a log is decoded under the declaration
    of the contract it comes from. *)
From S2P Require Import Prelude JsMap Types AbiEvents Quantities EventRanges FilterRules Requests Issuing Decoding Emissions Rebuild Rebuilt Recode.

Section Fetched.
Context `{lib : AbiLibrary} (decodeEventLog : list AbiEvent -> string -> list string -> result string (option (string * JsVal))).

(** What decoding makes of a log under one declaration. *)
Definition decodedAs (event : AbiEvent) (data : string) (topics : list string) : Decoded :=
  match decodeEventLog [event] data topics with
  | Err err => DecodeFailure (decodeErrorOf err)
  | Ok (Some (eventName, args)) => Parsed eventName args
  | Ok None => DecodeFailure "parsing did not return any results"
  end.

Lemma built_plain listed f a here : built listed f -> jm_get (abiPerAddress f) a = Some here ->
  free_of ":" a /\ plain a /\ exists contract, contract ∈ listed /\ getAddress (source_address contract) = Some a.
Proof.
  intros Hb Hget%jm_get_elem. assert (a ∈ (abiPerAddress f).*1) as Hin by (apply list_elem_of_fmap; by exists (a, here)).
  apply (bt_keys _ _ Hb) in Hin as (contract & Hc & Ha). destruct (getAddress_hex _ _ Ha) as (? & ? & ? & ?).
  split_and!; [done|done|]. by exists contract.
Qed.

(** A log that carries a declared topic, at a contract that declares it, is decoded under a
    declaration the contract makes of that very event. *)
Lemma decodeOnto_declared listed configured parseConfig f a e t data args :
  newLogEventFetcher (ListedContracts listed) configured parseConfig = Ok f -> mergedListDecodes f = false ->
  declaredAt listed a e -> topic0Of e = Some t ->
  (forall e', declaredAt listed a e' -> topic0Of e' = Some t -> canonicalSignatureOf e' = canonicalSignatureOf e) ->
  exists k, declaredAt listed a k /\ canonicalSignatureOf k = canonicalSignatureOf e /\ decodingShapeOf k = decodingShapeOf e
    /\ decodeOnto decodeEventLog f a (t :: args) data = decodedAs k data (t :: args).
Proof.
  intros Hnew Hm He Ht Honly. destruct (fetcher_built _ _ _ _ Hnew) as [Hb _].
  destruct (jm_get (abiPerAddress f) a) as [here|] eqn:Hget.
  2: { exfalso. apply jm_get_None in Hget. apply Hget, (bt_keys _ _ Hb). destruct He as (c & Hc & Ha & _). by exists c. }
  destruct (bt_kept _ _ Hb _ _ Hget) as (events & Hevents & Hkept). destruct (built_plain _ _ _ _ Hb Hget) as (Hcolon & _).
  destruct (kept_all _ _ e Hkept) as (k & Hk & Hks & Hkd); [by apply Hevents|].
  assert (Forall (fun p => free_of ":" p.1) (declaredPairs (abiPerAddress f))) as Hall.
  { apply Forall_forall. intros [b k'] (here' & Hb' & _)%declaredPairs_elem. apply (jm_get_Some _ _ _ (bt_wf _ _ Hb)) in Hb'.
    by destruct (built_plain _ _ _ _ Hb Hb'). }
  destruct (addPreselected_spec _ a t Hall Hcolon []) as [Hfrom Hto]. rewrite <- (bt_table _ _ Hb) in Hfrom, Hto.
  assert (topic0Of k = Some t) as Hkt by (rewrite <- Ht; by apply same_topic0).
  destruct Hto as [k' Hk']; [right; exists k; split; [|done]; apply declaredPairs_elem; exists here; split; [by apply jm_get_elem|done]|].
  destruct (Hfrom _ Hk') as [[=]|[(here' & Hin & Hk'in)%declaredPairs_elem Hk't]].
  apply (jm_get_Some _ _ _ (bt_wf _ _ Hb)) in Hin. rewrite Hget in Hin. injection Hin as <-.
  assert (declaredAt listed a k') as Hdecl.
  { apply Hevents. destruct Hkept as (Hsub & _). eapply elem_of_sublist; [exact Hk'in|exact Hsub]. }
  exists k'. split_and!; [done|by apply Honly| |].
  - rewrite <- Hkd. destruct Hkept as (_ & _ & _ & _ & Hnd). specialize (Hnd eq_refl).
    assert (canonicalSignatureOf k' = canonicalSignatureOf k) as Hs by (rewrite Hks; by apply Honly).
    f_equal. by apply (NoDup_fmap_inj_on canonicalSignatureOf here).
  - unfold decodeOnto, decodedAs. rewrite Hm, Hget. cbn [head]. by rewrite Hk'.
Qed.

(** A log of an address the source does not list is kept, and says so. *)
Lemma decodeOnto_elsewhere listed configured parseConfig f a data topics :
  newLogEventFetcher (ListedContracts listed) configured parseConfig = Ok f -> mergedListDecodes f = false ->
  (forall contract, contract ∈ listed -> getAddress (source_address contract) <> Some a) ->
  decodeOnto decodeEventLog f a topics data = DecodeFailure "event triggered at a different address".
Proof.
  intros Hnew Hm Hno. destruct (fetcher_built _ _ _ _ Hnew) as [Hb _]. unfold decodeOnto. rewrite Hm.
  destruct (jm_get (abiPerAddress f) a) as [here|] eqn:Hget; [|done]. exfalso.
  destruct (built_plain _ _ _ _ Hb Hget) as (_ & _ & c & Hc & Ha). by apply (Hno _ Hc).
Qed.

(** ** Decoding again

    Decoding a stored log under other declarations is fetching it under them.  A node's log
    has data, [0x] at least, and at most four topics. *)
Definition rpc_whole (log : RpcLog) : Prop := rpc_data log <> "" /\ (length (rpc_topics log) <= 4)%nat.

Lemma parse_again f f' logs es : parse decodeEventLog f logs = Ok es ->
  parse decodeEventLog f' logs = Ok (redecode (decodeOnto decodeEventLog f') <$> es).
Proof.
  intros Hes%mapR_Forall2. apply mapR_Forall2. induction Hes as [|log e logs es He _ IH]; [constructor|]. constructor; [|done].
  unfold parseLog in *. apply bind_Ok in He as (a & Ha & (n & Hn & (i & Hi & (j & Hj & [= <-])%bind_Ok)%bind_Ok)%bind_Ok).
  by rewrite Ha; cbn [mbind result_bind]; rewrite Hn; cbn [mbind result_bind]; rewrite Hi; cbn [mbind result_bind]; rewrite Hj.
Qed.

Lemma parse_raw_ok f logs es : parse decodeEventLog f logs = Ok es -> Forall rpc_whole logs ->
  Forall (raw_ok (decodeOnto decodeEventLog f)) es.
Proof.
  intros Hes%mapR_Forall2. induction Hes as [|log e logs es He _ IH]; [constructor|]. intros [[Hd Ht] Hds]%Forall_cons. constructor; [|by apply IH].
  unfold parseLog in He. apply bind_Ok in He as (a & Ha%normalizeAddress_Ok & (n & Hn & (i & Hi & (j & Hj & [= <-])%bind_Ok)%bind_Ok)%bind_Ok).
  split; cbn; [done|by destruct (getAddress_hex _ _ Ha)|done|done].
Qed.

Lemma redecode_feeds d (es : list LogEvent) : feed_of_log <$> (redecode d <$> es) = feed_of_log <$> es.
Proof. rewrite <- list_fmap_compose. by apply list_fmap_ext. Qed.

Lemma reparse_refetches f f' logs es : parse decodeEventLog f logs = Ok es -> Forall rpc_whole logs ->
  exists es', parse decodeEventLog f' logs = Ok es' /\ reparse (decodeOnto decodeEventLog f') (feed_of_log <$> es) = Some es'.
Proof.
  intros Hes Hd. pose proof (parse_again f f' logs es Hes) as Hes'. eexists. split; [exact Hes'|].
  rewrite <- (redecode_feeds (decodeOnto decodeEventLog f') es). apply reparse_feed. by eapply parse_raw_ok.
Qed.

(** ** What is asked for *)
Lemma inScope_addressIn scope a : inScope scope (Some a) <-> addressIn scope a = true.
Proof.
  destruct scope as [addresses|]; [|done]. cbn. rewrite bool_decide_eq_true. split; [by intros (? & [= <-] & ?)|]. intros Ha. by exists a.
Qed.

Definition fetcherDeclarations (f : LogEventFetcher) : list SourceDeclaration := sourceDeclarations (abiPerAddress f) (allABIEvents f).

Lemma sourceDeclarations_elem perAddress all d : perAddress <> [] ->
  d ∈ sourceDeclarations perAddress all <-> exists a e, (a, e) ∈ declaredPairs perAddress /\ d = mkDeclaration (Some a) e.
Proof.
  intros Hne. unfold sourceDeclarations. destruct perAddress as [|p ps]; [done|]. rewrite list_elem_of_fmap. split.
  - intros ([a e] & -> & Hin). by exists a, e.
  - intros (a & e & Hin & ->). by exists (a, e).
Qed.

Lemma sourceDeclarations_uniform perAddress all :
  uniform (sourceDeclarations perAddress all) (isAddressLess (sourceDeclarations perAddress all)).
Proof.
  unfold uniform. apply Forall_forall. intros d Hd. unfold isAddressLess. rewrite forallb_forall. destruct (decide (perAddress = [])) as [->|Hne].
  - unfold sourceDeclarations in *. apply list_elem_of_fmap in Hd as (e & -> & He). split; [|done]. intros _ x Hx%list_elem_of_In.
    apply list_elem_of_fmap in Hx as (e' & -> & _). done.
  - pose proof Hd as Hd'. apply (sourceDeclarations_elem _ _ _ Hne) in Hd' as (a & e & Hin & ->). split; [done|]. intros Hall.
    by specialize (Hall _ (proj1 (list_elem_of_In _ _) Hd)).
Qed.

Lemma sourceDeclarations_plain listed f a : built listed f -> Some a ∈ declaration_address <$> fetcherDeclarations f -> plain a.
Proof.
  intros Hb (d & Ha & Hd)%list_elem_of_fmap. unfold fetcherDeclarations in Hd. destruct (decide (abiPerAddress f = [])) as [Hnil|Hne].
  - rewrite Hnil in Hd. by apply list_elem_of_fmap in Hd as (e & -> & _).
  - apply (sourceDeclarations_elem _ _ _ Hne) in Hd as (a' & e & (here & Hin & _)%declaredPairs_elem & ->). injection Ha as ->.
    apply (jm_get_Some _ _ _ (bt_wf _ _ Hb)) in Hin. by destruct (built_plain _ _ _ _ Hb Hin) as (_ & ? & _).
Qed.

Lemma fetcher_addresses_plain listed f : built listed f -> plainScope (contractAddresses f).
Proof.
  intros Hb. rewrite (bt_addresses _ _ Hb). apply Forall_forall. intros a (c & _ & Ha)%(bt_keys _ _ Hb).
  by destruct (getAddress_hex _ _ Ha) as (? & ? & _ & ?).
Qed.

(** The requests ask for the topics of every declaration of the source. *)
Lemma fetcher_topics listed f t : built listed f ->
  t ∈ eventNameTopics f <-> exists contract e, contract ∈ listed /\ e ∈ eventsOfAbi (source_abi contract) /\ topic0Of e = Some t.
Proof.
  intros Hb. destruct (bt_topics _ _ Hb) as [_ ->]. destruct (bt_all _ _ Hb) as (events & Hall & Hsub & Hcov & _). split.
  - intros (e & He & Ht). assert (e ∈ events) as Hin by (eapply elem_of_sublist; [exact He|exact Hsub]).
    apply Hall in Hin as (c & Hc & Hec). by exists c, e.
  - intros (c & e & Hc & He & Ht). destruct (Hcov e) as (s & [Hs|?%not_elem_of_nil] & Hsig & Hshape); [apply Hall; by exists c| |done].
    exists s. split; [done|]. rewrite <- Ht. by apply same_topic0.
Qed.

Lemma fetcher_declares listed f a e t : built listed f -> declaredAt listed a e -> topic0Of e = Some t ->
  declares (fetcherDeclarations f) (Some a) t.
Proof.
  intros Hb He Ht. destruct (jm_get (abiPerAddress f) a) as [here|] eqn:Hget.
  2: { exfalso. apply jm_get_None in Hget. apply Hget, (bt_keys _ _ Hb). destruct He as (c & Hc & Ha & _). by exists c. }
  destruct (bt_kept _ _ Hb _ _ Hget) as (events & Hevents & Hkept).
  destruct (kept_all _ _ e Hkept) as (k & Hk & Hks & Hkd); [by apply Hevents|].
  exists (mkDeclaration (Some a) k). split_and!; [|done|cbn; rewrite <- Ht; by apply same_topic0].
  apply sourceDeclarations_elem; [by intros Hnil; rewrite Hnil in Hget|]. exists a, k. split; [|done].
  apply declaredPairs_elem. exists here. split; [by apply jm_get_elem|done].
Qed.

Lemma fetcher_resolution listed rules parseAll f :
  newLogEventFetcher (ListedContracts listed) [] (mkParseConfig parseAll rules) = Ok f ->
  built listed f /\ resolveFilterRules rules (fetcherDeclarations f) = Ok (fetcher_filters f)
  /\ uniform (fetcherDeclarations f) (isAddressLess (fetcherDeclarations f))
  /\ Forall (fun g => plainScope (filter_scope g)) (fetcher_filters f).
Proof.
  intros Hnew. destruct (fetcher_built _ _ _ _ Hnew) as (Hb & Hrules & Hnone & _). cbn in Hrules, Hnone. fold (fetcherDeclarations f) in Hrules.
  assert (resolveFilterRules rules (fetcherDeclarations f) = Ok (fetcher_filters f)) as Hres.
  { destruct (decide (rules = [])) as [->|Hne]; [|by apply Hrules].
    rewrite Hnone by done. unfold resolveFilterRules, leftovers. cbn. by destruct (isAddressLess _). }
  pose proof (sourceDeclarations_uniform (abiPerAddress f) (allABIEvents f)) as Hu. fold (fetcherDeclarations f) in Hu.
  split_and!; [done..|]. apply Forall_forall. intros g Hg. destruct (filter_scope g) as [addresses|] eqn:Hsc; [|done].
  apply Forall_forall. intros x Hx. apply (sourceDeclarations_plain _ _ _ Hb). eapply resolve_scope; [exact Hres|exact Hu|exact Hg|].
  unfold filter_scope in Hsc. by destruct g; cbn in *; rewrite Hsc.
Qed.

(** A log of a declared event is asked for unless a rule governs it there and none of the
    governing rules' entries lets it through. *)
Lemma fetcher_asks listed rules parseAll f a e t args :
  newLogEventFetcher (ListedContracts listed) [] (mkParseConfig parseAll rules) = Ok f ->
  declaredAt listed a e -> topic0Of e = Some t ->
  (exists request, request ∈ generateLogRequestForTopicsAndFiltersCombinations (contractAddresses f) (eventNameTopics f) (fetcher_filters f)
     /\ requestMatches request a (t :: args) = true)
  <-> (forall rule, rule ∈ rules -> governs (fetcherDeclarations f) rule (Some a) t ->
        exists rule' entry, rule' ∈ rules /\ governs (fetcherDeclarations f) rule' (Some a) t
          /\ entry ∈ rule_match rule' /\ entryMatches entry args = true).
Proof.
  intros Hnew He Ht. destruct (fetcher_resolution _ _ _ _ Hnew) as (Hb & Hres & Hu & Hplain).
  destruct (resolve_exact _ _ _ Hres Hu _ _ (fetcher_declares _ _ _ _ _ Hb He Ht)) as [Hmatch Hleft].
  rewrite generate_spec by (done || by eapply fetcher_addresses_plain).
  assert (t ∈ eventNameTopics f) as Hlive.
  { apply (fetcher_topics _ _ _ Hb). destruct He as (c & Hc & _ & Hec). by exists c, e. }
  assert (addressIn (contractAddresses f) a = true) as Hall.
  { rewrite (bt_addresses _ _ Hb). apply bool_decide_eq_true, (bt_keys _ _ Hb). destruct He as (c & Hc & Ha & _). by exists c. }
  assert (forall rule, rule ∈ rules -> governs (fetcherDeclarations f) rule (Some a) t -> exists scope m, MatchFilter t scope m ∈ fetcher_filters f /\ addressIn scope a = true) as Hment.
  { intros rule Hrule Hg. pose proof (accepted_nonempty _ _ _ _ Hres Hrule) as Hne. destruct (rule_match rule) as [|m ms] eqn:Hms; [done|].
    destruct (proj2 (Hmatch m)) as (scope & Hin & Hsc%inScope_addressIn); [exists rule; rewrite Hms; split_and!; [done|done|left]|]. by exists scope, m. }
  split.
  - intros (_ & [(scope & entry & Hin & Hsc & Hentry)|[(scope & Hin & Hsc)|[Hno _]]]) rule Hrule Hg.
    + destruct (proj1 (Hmatch entry)) as (rule' & Hrule' & Hg' & Hm); [exists scope; by rewrite inScope_addressIn|]. by exists rule', entry.
    + destruct (proj1 Hleft) as [_ Hno]; [exists scope; by rewrite inScope_addressIn|]. destruct Hno. by exists rule.
    + destruct Hno. destruct (Hment _ Hrule Hg) as (scope & m & Hin & _). by eexists.
  - intros Hasked. split; [done|].
    destruct (decide (mentions (fetcher_filters f) t)) as [Hm|Hm]; [|by right; right].
    set (governed := fun g => match g with MatchFilter t' scope _ => bool_decide (t' = t) && addressIn scope a | LeftoverFilter _ _ => false end).
    destruct (decide (Exists (fun g => governed g = true) (fetcher_filters f))) as [Hex|Hno].
    + left. apply Exists_exists in Hex as ([t' scope m|] & Hin & Hg); [|done]. apply andb_true_iff in Hg as [->%bool_decide_eq_true Hsc].
      destruct (proj1 (Hmatch m)) as (rule & Hrule & Hg & _); [exists scope; by rewrite inScope_addressIn|].
      destruct (Hasked _ Hrule Hg) as (rule' & entry & Hrule' & Hg' & Hm' & Hentry).
      destruct (proj2 (Hmatch entry)) as (scope' & Hin' & Hsc'%inScope_addressIn); [by exists rule'|]. by exists scope', entry.
    + right. left. destruct (proj2 Hleft) as (scope & Hin & Hsc%inScope_addressIn); [|by exists scope]. split; [done|].
      intros (rule & Hrule & Hg). destruct (Hment _ Hrule Hg) as (scope & m & Hin & Hsc). apply Hno, Exists_exists. eexists. split; [exact Hin|].
      cbn. by rewrite bool_decide_true.
Qed.
End Fetched.
