(* ===== verification/Fetching.v ===== *)
(** * A fetcher at work

    A library of two addresses and the theorems of [Fetched] and [Issuing] at a source of
    two contracts that declare one event, with a rule that filters it at one of them. *)
From S2P Require Import Prelude JsMap Types AbiEvents Quantities EventRanges FilterRules Requests Issuing Decoding Emissions Rebuild Fetched.

(** The checksummed form of [0xa] is [0xA]; a signature is the name with its parentheses. *)
Definition sampleAddress (addr : string) : option string :=
  if decide (addr = "0xa" \/ addr = "0xA") then Some "0xA"
  else if decide (addr = "0xb" \/ addr = "0xB") then Some "0xB" else None.

Lemma sampleAddress_cases a b : sampleAddress a = Some b -> b = "0xA" \/ b = "0xB".
Proof. unfold sampleAddress. repeat case_decide; intros [= <-]; tauto. Qed.

Definition sampleSignature (event : AbiEvent) : string := event_name event +:+ "(address,uint256)".
Definition sampleSelector (event : AbiEvent) : string := "0x" +:+ sampleSignature event.

Lemma sampleSelector_of a b : sampleSignature a = sampleSignature b -> sampleSelector a = sampleSelector b.
Proof. unfold sampleSelector. by intros ->. Qed.

Lemma sampleAddress_again a b : sampleAddress a = Some b -> sampleAddress b = Some b.
Proof. by intros [-> | ->]%sampleAddress_cases. Qed.

Lemma sampleAddress_hex a b : sampleAddress a = Some b -> b <> "" /\ b <> "*" /\ free_of ":" b /\ free_of "," b.
Proof. by intros [-> | ->]%sampleAddress_cases; evaluate. Qed.

#[export] Instance sampleLibrary : AbiLibrary := {
  toEventSignature := sampleSignature;
  toEventSelector := sampleSelector;
  getAddress := sampleAddress;
  selector_of_signature := sampleSelector_of;
  getAddress_again := sampleAddress_again;
  getAddress_hex := sampleAddress_hex
}.

Definition transferInputs : list AbiParameter :=
  [mkParameter (Some "to") "address" (Some true) None; mkParameter (Some "value") "uint256" None None].
Definition transfer : AbiEvent := mkAbiEvent "Transfer" transferInputs None.
Definition sampleSource : SourceContracts :=
  ListedContracts [mkSourceContract "0xa" [EventItem (mkRanged transfer None None); OtherItem] (Some 5);
                   mkSourceContract "0xb" [EventItem (mkRanged transfer (Some 10) (Some 20))] None].
Definition sampleListed : list SourceContract :=
  match sampleSource with ListedContracts listed => listed | MergedAbi _ _ => [] end.
Definition mine : FilterRule := mkRule "Transfer" (Some ["0xa"]) [[ThisTopic "me"; AnyTopic]; [OneOfTopics ["you"; "us"]]].
Definition noRule : LogParseConfig := mkParseConfig false [].

Definition theFetcher (r : result ConstructError LogEventFetcher) : LogEventFetcher :=
  match r with Ok f => f | Err _ => mkFetcher None [] [] [] [] [] [] true end.

(** An entry longer than the event has indexed arguments is refused; cut, it is taken. *)
Example too_long_refused :
  newLogEventFetcher sampleSource [] (mkParseConfig false [mine]) = Err (FilterRefused (EntryTooLong "Transfer" "0xTransfer(address,uint256)")).
Proof. by vm_compute. Qed.

Definition mineCut : FilterRule := mkRule "Transfer" (Some ["0xa"]) [[ThisTopic "me"]; [OneOfTopics ["you"; "us"]]].
Definition filtered : LogEventFetcher := theFetcher (newLogEventFetcher sampleSource [] (mkParseConfig false [mineCut])).

Lemma filtered_built : newLogEventFetcher sampleSource [] (mkParseConfig false [mineCut]) = Ok filtered.
Proof. by vm_compute. Qed.

Example filtered_requests :
  generateLogRequestForTopicsAndFiltersCombinations (contractAddresses filtered) (eventNameTopics filtered) (fetcher_filters filtered)
  = [mkRequest [OneOfTopics ["0xTransfer(address,uint256)"]] (Some ["0xB"]);
     mkRequest [ThisTopic "0xTransfer(address,uint256)"; ThisTopic "me"] (Some ["0xA"]);
     mkRequest [ThisTopic "0xTransfer(address,uint256)"; OneOfTopics ["you"; "us"]] (Some ["0xA"])].
Proof. by vm_compute. Qed.

(** A chain of logs, and the node that holds it. *)
Definition transferTopic : string := "0xTransfer(address,uint256)".
Definition logAt (n i addr : string) (args : list string) : RpcLog :=
  mkRpcLog (Some n) ("hash" +:+ n) "0x0" None addr "0x01" (transferTopic :: args) ("tx" +:+ n) i None.
Definition sampleChain : list RpcLog :=
  [logAt "0x7" "0x0" "0xa" ["me"]; logAt "0x7" "0x1" "0xb" ["other"]; logAt "0xc" "0x0" "0xa" ["other"]; logAt "0x10" "0x2" "0xb" ["me"]].

Definition sampleNode (scope : option (list string)) (from to : string) (slots : option (list ArgumentSlot)) : result string (list RpcLog) :=
  match quantity from, quantity to with
  | Some from, Some to => Ok (filter (fun log => inRange from to log && askedBy [mkRequest (default [] slots) scope] log = true) sampleChain)
  | _, _ => Err "invalid range"
  end.

Lemma sampleChain_of : chain_of sampleChain.
Proof.
  split.
  - repeat constructor; by eexists _, _.
  - repeat constructor.
  - intros a b Ha Hb. unfold sampleChain in Ha, Hb. each_in Ha; each_in Hb; done.
Qed.

Lemma sampleNode_answers : answersFrom sampleNode sampleChain.
Proof. intros scope slots from to Hf Ht. unfold sampleNode. by rewrite !quantity_toQuantity. Qed.

Lemma declared_transfer : declaredAt sampleListed "0xA" transfer.
Proof. eexists. split; [left|]. split; [done|]. vm_compute. left. Qed.

(** The three requests over blocks 5 to 16, whose answers come in backwards. *)
Definition sampleSchedule : list nat := [2; 1; 0]%nat.

Example filtered_fetch :
  getLogsWithVariousFilters sampleNode (contractAddresses filtered) (Some (eventNameTopics filtered)) (fetcher_filters filtered) 5 16 sampleSchedule
  = Some (Ok [logAt "0x7" "0x0" "0xa" ["me"]; logAt "0x7" "0x1" "0xb" ["other"]; logAt "0x10" "0x2" "0xb" ["me"]]).
Proof. by vm_compute. Qed.

(** A decoder that reports the event it was given and the first argument. *)
Definition sampleDecode (abi : list AbiEvent) (data : string) (topics : list string) : result string (option (string * JsVal)) :=
  match abi, topics with
  | [event], _ :: arg :: _ => Ok (Some (event_name event, JStr arg))
  | _, _ => Err "no match"
  end.

Definition plainFetcher : LogEventFetcher := theFetcher (newLogEventFetcher sampleSource [] noRule).

Lemma plain_built : newLogEventFetcher sampleSource [] noRule = Ok plainFetcher.
Proof. by vm_compute. Qed.

(** ** The theorems, and where they hold *)

(** C35. A log is asked for unless a rule governs it. *)
Theorem asks_what_rules_let_through {lib : AbiLibrary} listed rules parseAll f a e t args :
  newLogEventFetcher (ListedContracts listed) [] (mkParseConfig parseAll rules) = Ok f ->
  declaredAt listed a e -> topic0Of e = Some t ->
  (exists request, request ∈ generateLogRequestForTopicsAndFiltersCombinations (contractAddresses f) (eventNameTopics f) (fetcher_filters f)
     /\ requestMatches request a (t :: args) = true)
  <-> (forall rule, rule ∈ rules -> governs (fetcherDeclarations f) rule (Some a) t ->
        exists rule' entry, rule' ∈ rules /\ governs (fetcherDeclarations f) rule' (Some a) t
          /\ entry ∈ rule_match rule' /\ entryMatches entry args = true).
Proof. apply fetcher_asks. Qed.

Lemma asks_what_rules_let_through_witness :
  (exists request, request ∈ generateLogRequestForTopicsAndFiltersCombinations (contractAddresses filtered) (eventNameTopics filtered) (fetcher_filters filtered)
     /\ requestMatches request "0xA" [transferTopic; "me"] = true)
  <-> (forall rule, rule ∈ [mineCut] -> governs (fetcherDeclarations filtered) rule (Some "0xA") transferTopic ->
        exists rule' entry, rule' ∈ [mineCut] /\ governs (fetcherDeclarations filtered) rule' (Some "0xA") transferTopic
          /\ entry ∈ rule_match rule' /\ entryMatches entry ["me"] = true).
Proof. apply (asks_what_rules_let_through sampleListed [mineCut] false filtered "0xA" transfer); [exact filtered_built|exact declared_transfer|done]. Defined.

(** C36. The answer to a range does not depend on the schedule. *)
Theorem fetch_exact {lib : AbiLibrary} {E : Type} (eth_getLogs : option (list string) -> string -> string -> option (list ArgumentSlot) -> result E (list RpcLog))
    chain contractAddresses live filters from to schedule answer :
  chain_of chain -> answersFrom eth_getLogs chain -> 0 <= from -> 0 <= to ->
  getLogsWithVariousFilters eth_getLogs contractAddresses (Some live) filters from to schedule = Some answer ->
  answer = Ok (filter (fun log => inRange from to log
    && askedBy (generateLogRequestForTopicsAndFiltersCombinations contractAddresses live filters) log = true) chain).
Proof. apply getLogsWithVariousFilters_exact. Qed.

Lemma fetch_exact_witness :
  Ok [logAt "0x7" "0x0" "0xa" ["me"]; logAt "0x7" "0x1" "0xb" ["other"]; logAt "0x10" "0x2" "0xb" ["me"]]
  = Ok (E:=string) (filter (fun log => inRange 5 16 log
      && askedBy (generateLogRequestForTopicsAndFiltersCombinations (contractAddresses filtered) (eventNameTopics filtered) (fetcher_filters filtered)) log = true) sampleChain).
Proof. apply (fetch_exact sampleNode sampleChain _ _ _ 5 16 sampleSchedule); [exact sampleChain_of|exact sampleNode_answers|lia|lia|exact filtered_fetch]. Defined.

(** A list of requests always finishes. *)
Theorem requests_finish {E : Type} (answer : nat -> result E (list RpcLog)) total schedule :
  (length (waiting (foldl (settleWorker answer total) (startWorkers total) schedule)) <= MAX_CONCURRENT_LOG_REQUESTS)%nat
  /\ exists more, (length more <= total)%nat /\ issueRequestsBounded answer total (schedule ++ more) = Some (mapR answer (seq 0 total)).
Proof.
  destruct (issue_completes answer total schedule) as [Hbusy (more & Hlen & out & Hout)]. split; [done|].
  exists more. split; [done|]. by rewrite Hout, (issue_answers _ _ _ _ Hout).
Qed.

(** A log is decoded as its contract declares it. *)
Theorem decodes_as_declared {lib : AbiLibrary} (decodeEventLog : list AbiEvent -> string -> list string -> result string (option (string * JsVal)))
    listed configured parseConfig f a e t data args :
  newLogEventFetcher (ListedContracts listed) configured parseConfig = Ok f -> mergedListDecodes f = false ->
  declaredAt listed a e -> topic0Of e = Some t ->
  (forall e', declaredAt listed a e' -> topic0Of e' = Some t -> canonicalSignatureOf e' = canonicalSignatureOf e) ->
  exists k, declaredAt listed a k /\ canonicalSignatureOf k = canonicalSignatureOf e /\ decodingShapeOf k = decodingShapeOf e
    /\ decodeOnto decodeEventLog f a (t :: args) data = decodedAs decodeEventLog k data (t :: args).
Proof. apply decodeOnto_declared. Qed.

Lemma transfers_only e : declaredAt sampleListed "0xA" e -> e = transfer.
Proof.
  intros (c & Hc & Ha & He). unfold sampleListed, sampleSource in Hc. each_in Hc.
  - vm_compute in He. by each_in He.
  - vm_compute in Ha. discriminate Ha.
Qed.

Lemma decodes_as_declared_witness :
  exists k, declaredAt sampleListed "0xA" k /\ canonicalSignatureOf k = canonicalSignatureOf transfer
    /\ decodingShapeOf k = decodingShapeOf transfer
    /\ decodeOnto sampleDecode plainFetcher "0xA" [transferTopic; "me"] "0x01" = decodedAs sampleDecode k "0x01" [transferTopic; "me"].
Proof.
  apply (decodes_as_declared sampleDecode sampleListed [] noRule plainFetcher "0xA" transfer);
    [exact plain_built|reflexivity|exact declared_transfer|reflexivity|].
  intros e' He _. rewrite (transfers_only e' He). reflexivity.
Defined.

Lemma evaluated {A} `{EqDecision A} (x y : A) : bool_decide (x = y) = true -> x = y.
Proof. apply bool_decide_eq_true. Qed.

(** C37. Decoding stored logs again is fetching them again. *)
Theorem reparse_is_refetch {lib : AbiLibrary} (decodeEventLog : list AbiEvent -> string -> list string -> result string (option (string * JsVal)))
    f f' logs es :
  parse decodeEventLog f logs = Ok es -> Forall rpc_whole logs ->
  exists es', parse decodeEventLog f' logs = Ok es' /\ reparse (decodeOnto decodeEventLog f') (feed_of_log <$> es) = Some es'.
Proof. apply reparse_refetches. Qed.

Definition sampleEvents : list LogEvent :=
  match parse sampleDecode plainFetcher sampleChain with Ok es => es | Err _ => [] end.

Lemma sampleEvents_parsed : parse sampleDecode plainFetcher sampleChain = Ok sampleEvents.
Proof. vm_compute. reflexivity. Qed.

Lemma sampleChain_whole : Forall rpc_whole sampleChain.
Proof. repeat constructor; done. Qed.

Lemma reparse_is_refetch_witness : exists es',
  parse sampleDecode filtered sampleChain = Ok es'
  /\ reparse (decodeOnto sampleDecode filtered) (feed_of_log <$> sampleEvents) = Some es'.
Proof. apply (reparse_is_refetch sampleDecode plainFetcher); [exact sampleEvents_parsed|exact sampleChain_whole]. Defined.

(** C38. No block an event may appear in is asked without its topic. *)
Theorem narrowing_complete {lib : AbiLibrary} contracts perTopic contract item topic0 from to n :
  requestableRangesPerTopic contracts = Ok perTopic ->
  contract ∈ contractEntriesOf contracts FROM_THE_CONTRACT_START_BLOCK -> 0 <= entry_defaultFirstBlock contract ->
  EventItem item ∈ entry_abi contract -> one_kind (entry_abi contract) ->
  topic0Of (ranged_event item) = Some topic0 ->
  holdsBlock (liveRange item (entry_defaultFirstBlock contract)) n -> from <= n <= to ->
  canOccurIn (jm_get perTopic topic0) from to = true.
Proof. apply requestable_sound. Qed.

Definition onlyB : SourceContracts :=
  ListedContracts [mkSourceContract "0xb" [EventItem (mkRanged transfer (Some 10) (Some 20))] None].

Example onlyB_narrowed :
  requestableRangesPerTopic onlyB = Ok [(transferTopic, [mkRange 10 (Some 20)])]
  /\ canOccurIn (Some [mkRange 10 (Some 20)]) 1 9 = false.
Proof. vm_compute. split; reflexivity. Qed.

Lemma narrowing_complete_witness : canOccurIn (Some [mkRange 10 (Some 20)]) 15 30 = true.
Proof.
  apply (narrowing_complete onlyB [(transferTopic, [mkRange 10 (Some 20)])]
    (mkContractEntry (Some "0xb") [EventItem (mkRanged transfer (Some 10) (Some 20))] 0) (mkRanged transfer (Some 10) (Some 20)) transferTopic 15 30 20);
    [reflexivity|vm_compute; left|simpl; lia|left|intros x y Hx Hy _; vm_compute in Hx, Hy; each_in Hx; by each_in Hy|reflexivity|vm_compute; split; intros [=]|lia].
Defined.

(** An accepted rule constrains arguments its events have. *)
Theorem accepted_rules_typed {lib : AbiLibrary} declarations rules filters rule entry d :
  resolveFilterRules rules declarations = Ok filters -> rule ∈ rules -> entry ∈ rule_match rule ->
  d ∈ declarations -> wanted rule d = true ->
  match rule_contracts rule with
  | None => True
  | Some contracts => exists c a, c ∈ contracts /\ getAddress c = Some a /\ declaration_address d = Some a
  end ->
  (exists slot, slot ∈ entry /\ slot <> AnyTopic) /\ (length entry <= indexedArgumentCount (declaration_event d))%nat.
Proof. apply accepted_entry. Qed.

Lemma accepted_rules_typed_witness :
  (exists slot, slot ∈ [ThisTopic "me"] /\ slot <> AnyTopic) /\ (1 <= indexedArgumentCount transfer)%nat.
Proof.
  apply (accepted_rules_typed (fetcherDeclarations filtered) [mineCut] (fetcher_filters filtered) mineCut [ThisTopic "me"] (mkDeclaration (Some "0xA") transfer));
    [vm_compute; reflexivity|left|left|vm_compute; left|reflexivity|].
  exists "0xa", "0xA". split; [left|split; reflexivity].
Defined.

(** One range per event, covering what is declared. *)
Theorem normalized_range ranges :
  ranges <> [] -> Forall valid ranges ->
  match normalizeRanges ranges with
  | Ok normal => exists r, normal = [r] /\ (forall n, covered ranges n -> holdsBlock r n)
      /\ (Forall closed ranges -> forall n, holdsBlock r n -> covered ranges n)
      /\ (~ Forall closed ranges -> range_lastBlock r = None)
      /\ exists x, x ∈ ranges /\ range_firstBlock x = range_firstBlock r
  | Err (GapInRanges a b) => Forall closed ranges /\ a <= b /\ (forall n, a <= n <= b -> ~ covered ranges n)
      /\ covered ranges (a - 1) /\ covered ranges (b + 1)
  | Err _ => False
  end.
Proof. apply normalizeRanges_spec. Qed.

Lemma normalized_range_witness :
  let ranges := [mkRange 30 (Some 40); mkRange 1 (Some 29); mkRange 5 (Some 20)] in
  exists r, [mkRange 1 (Some 40)] = [r] /\ (forall n, covered ranges n -> holdsBlock r n)
    /\ (Forall closed ranges -> forall n, holdsBlock r n -> covered ranges n)
    /\ (~ Forall closed ranges -> range_lastBlock r = None)
    /\ exists x, x ∈ ranges /\ range_firstBlock x = range_firstBlock r.
Proof.
  exact (normalized_range [mkRange 30 (Some 40); mkRange 1 (Some 29); mkRange 5 (Some 20)]
    ltac:(discriminate) ltac:(repeat constructor; vm_compute; intros [=])).
Defined.
