(* ===== verification/Seeding.v ===== *)
(** * A stream that is published and installed

    The theorems on stream identities, keepers and seeds, at the library of [Fetching]: two
    spellings of a configuration, a source that declares one event more, a keeper over two
    saves, and a stored stream with a retraction that a client installs. *)
From S2P Require Import Prelude JsMap Types Stream Registry Invalidation Hash AbiEvents EventRanges FilterRules Requests Issuing Decoding Json Canonical StreamConfig SourceIdentity.
From S2P Require Import StreamBuilder Emissions Keeper KeeperOnIndexedDB SeedDocument SeedInstall Feed Consumer Compaction Rebuild Publishing Fetched Fetching.

(** ** Two spellings of a configuration *)
Lemma sample_checksummed a b : getAddress a = Some b -> graphic_text b.
Proof. by intros [-> | ->]%sampleAddress_cases; apply (bool_decide_unpack _). Qed.

Definition rule_spelled : FilterRule := mkRule "Transfer" (Some ["0xb"; "0xa"]) [[ThisTopic "me"; AnyTopic]; [OneOfTopics ["you"; "us"]]].
Definition rule_tidy : FilterRule := mkRule "Transfer" (Some ["0xA"; "0xB"]) [[OneOfTopics ["us"; "you"; "us"]]; [ThisTopic "me"]; [ThisTopic "me"]].
Definition config_spelled : ProvidedStreamConfig := mkProvided (Given 2) (Given (mkParse Undefined (Given [rule_spelled]))).
Definition config_tidy : ProvidedStreamConfig := mkProvided (Given 2) (Given (mkParse StreamConfig.Absent (Given [rule_tidy; rule_spelled]))).

Definition resolved (c : ProvidedStreamConfig) : UsedStreamConfig := match resolveStreamConfig (Some c) with Ok u => u | Err _ => mkUsed 0 None end.

Lemma config_spelled_resolved : resolveStreamConfig (Some config_spelled) = Ok (resolved config_spelled).
Proof. by vm_compute. Qed.
Lemma config_tidy_resolved : resolveStreamConfig (Some config_tidy) = Ok (resolved config_tidy).
Proof. by vm_compute. Qed.

Example resolved_once : canonical_form (config_value (resolved config_spelled)) = canonical_form (config_value (resolved config_tidy)).
Proof. by vm_compute. Qed.

Lemma sample_rules_graphic : graphic_rule rule_spelled /\ graphic_rule rule_tidy.
Proof. split; (split; [by apply (bool_decide_unpack _)|unfold rule_spelled, rule_tidy, graphic_entry; cbn [rule_match]; repeat constructor; by apply (bool_decide_unpack _)]). Qed.

Lemma canonical_rules_ask_the_same_witness :
  (exists r, r ∈ match canonicalFilterRules [rule_tidy; rule_spelled] with Ok rules => rules | Err _ => [] end
     /\ governs (fetcherDeclarations filtered) r (Some "0xA") transferTopic)
  <-> (exists r, r ∈ [rule_tidy; rule_spelled] /\ governs (fetcherDeclarations filtered) r (Some "0xA") transferTopic).
Proof.
  destruct sample_rules_graphic as [Hs Ht].
  apply (canonical_rules_ask_the_same sample_checksummed [rule_tidy; rule_spelled] _ (Forall_cons_2 _ _ _ Ht (Forall_cons_2 _ _ _ Hs (Forall_nil_2 _))) eq_refl
    (fetcherDeclarations filtered) (Some "0xA") transferTopic []).
Defined.

(** ** Sources *)
Definition theSource : IndexingSource := mkSource "1" (Some "0xgenesis") sampleSource [("chainId", HStr "1")].

(** The same with an event declared later at the second contract. *)
Definition approval : AbiEvent := mkAbiEvent "Approval" transferInputs None.
Definition growing : SourceContracts :=
  ListedContracts [mkSourceContract "0xa" [EventItem (mkRanged transfer None None); OtherItem] (Some 5);
                   mkSourceContract "0xb" [EventItem (mkRanged approval (Some 30) None); EventItem (mkRanged transfer (Some 10) (Some 20))] None].
Definition grownSource : IndexingSource := mkSource "1" (Some "0xgenesis") growing [("chainId", HStr "1"); ("more", HBool true)].

Definition entriesOf (source : IndexingSource) : list SourceHashEntry := match sourceHashesOf source with Ok entries => entries | Err _ => [] end.

Lemma theSource_hashed : sourceHashesOf theSource = Ok (entriesOf theSource).
Proof. by vm_compute. Qed.
Lemma grownSource_hashed : sourceHashesOf grownSource = Ok (entriesOf grownSource).
Proof. by vm_compute. Qed.

Lemma digest_text_exact_witness : same_stream (Some config_spelled) (Some config_tidy).
Proof.
  destruct sample_rules_graphic as [Hs Ht].
  apply (digest_text_exact sample_checksummed theSource theSource (entriesOf theSource) (entriesOf theSource) (Some config_spelled) (Some config_tidy)
    (resolved config_spelled) (resolved config_tidy)); [by constructor|by repeat constructor|exact config_spelled_resolved|exact config_tidy_resolved|exact theSource_hashed..|].
  vm_compute. reflexivity.
Defined.

(** A declared event, one of a list that can be computed. *)
Definition liveDeclarations (source : IndexingSource) : list (LiveEvent * EventBlockRange) :=
  match liveEventsOf (source_contracts source) with Ok lives => lives ≫= (fun live => pair live <$> live_ranges live) | Err _ => [] end.

Lemma declared_listed source live range : declared source live range <-> (live, range) ∈ liveDeclarations source.
Proof.
  unfold declared, liveDeclarations. destruct (liveEventsOf _) as [lives|]; [|split; [by intros (? & [=] & _)|by intros ?%not_elem_of_nil]].
  rewrite list_elem_of_bind. split.
  - intros (l & [= <-] & Hl & Hr). exists live. split; [by apply list_elem_of_fmap_2|done].
  - intros (l & (r & [= -> ->] & Hr)%list_elem_of_fmap & Hl). by exists lives.
Qed.

Lemma grown_known : known_to grownSource theSource 20 /\ known_to theSource grownSource 20.
Proof.
  split; intros live range Hd%declared_listed; vm_compute in Hd; repeat (apply elem_of_cons in Hd as [[= -> ->]|Hd]); try (by apply not_elem_of_nil in Hd); intros Hle; try (by cbn in Hle; lia);
    eexists _, _; rewrite declared_listed; vm_compute liveDeclarations;
    first [solve [split; [left|done]]|solve [split; [right; left|done]]|solve [split; [right; right; left|done]]].
Qed.

Lemma later_events_stay_valid_witness :
  stateMatches (entriesOf grownSource) "cfg" 20 (mkContext (entriesOf theSource) "cfg" "proc") = true
  /\ streamMatches (entriesOf grownSource) "cfg" 20 (mkContext (entriesOf theSource) "cfg" "proc") = true.
Proof.
  destruct grown_known as [Hg Hk].
  exact (later_events_stay_valid theSource grownSource _ _ "cfg" "proc" 20 theSource_hashed grownSource_hashed eq_refl Hk Hg).
Defined.

(** ** A stored stream, published *)
Definition sample_sha (text : string) : string := "0x" +:+ simple_hash_of (utf16 text).
Definition plain_config : UsedStreamConfig := mkUsed 2 None.
Definition the_stream : string := Eval vm_compute in streamDigestOfSourceHashes sample_sha (entriesOf theSource) plain_config.
Definition claimTo (to : Z) : StreamCoverage := mkCoverage (entriesOf theSource) "cfg" to 1 to.

Definition append_here (db : EmissionDb) (to : Z) (D N : list EventBlock) : EmissionDb :=
  match appendEmissions db (mkAppend "main" the_stream (claimTo to) (retractions_of D ++ events_of N)) with Some db' => db' | None => db end.

Definition applied_db : EmissionDb := Eval vm_compute in append_here emptyDb 2 [] [sample_block 1 "a1"; sample_block 2 "a2"].
Definition replaced_db : EmissionDb := Eval vm_compute in append_here applied_db 4 [sample_block 2 "a2"] [sample_block 2 "b2"; sample_block 4 "b4"].
Definition replaced_chain : list EventBlock := [sample_block 1 "a1"; sample_block 2 "b2"; sample_block 4 "b4"].

Lemma replaced_stored : stored_by "main" the_stream replaced_db replaced_chain.
Proof.
  apply (stored_append "main" the_stream applied_db replaced_db [sample_block 1 "a1"] [sample_block 2 "a2"]
    [sample_block 2 "b2"; sample_block 4 "b4"] (claimTo 4)); [|by vm_compute|evaluate|by repeat constructor].
  apply (stored_append "main" the_stream emptyDb applied_db [] [] [sample_block 1 "a1"; sample_block 2 "a2"] (claimTo 2));
    [constructor|by vm_compute|evaluate|by repeat constructor].
Qed.

Definition replaced_coverage : CoverageRow := Eval vm_compute in mkCoverageRow "main" the_stream (entriesOf theSource) "cfg" 1 4 1 4.

Lemma replaced_places row row' : row ∈ rows_of replaced_db "main" the_stream -> row' ∈ rows_of replaced_db "main" the_stream ->
  coordinate (entryOf row) = coordinate (entryOf row') -> group_of row row'.
Proof.
  intros Hr Hr'. vm_compute in Hr, Hr'. each_in Hr; each_in Hr'; vm_compute; by intros [=].
Qed.

Definition the_seed : StreamSeed := Eval vm_compute in
  match produceStreamSeed sample_sha replaced_db "main" the_stream plain_config 5 3 1 "now" with
  | Ok seed => seed
  | Err _ => mkSeed (mkProducer "" "" "") 0 plain_config None "" 0 0 (mkContext [] "" "") []
  end.

Example the_seed_events : seed_eventStream the_seed = AnEvent <$> ((fun e => mkFeedEntry e false) <$> entries_of [sample_block 1 "a1"; sample_block 2 "b2"]).
Proof. by vm_compute. Qed.

Definition the_options : StreamSeedInstallOptions := mkInstallOptions theSource plain_config (Some 1) (Some 1) None.
Definition the_site (location : string) : option (bool * string) :=
  if decide (location = "seed.json") then Some (true, serializeStreamSeed the_seed) else None.
Definition fresh_keeper : IDBKeeper * bool := (mkIDBKeeper (mkKeyval ∅ ∅ true) (mkUsed 17 None), false).
Definition the_client : ClientIdentity := Eval vm_compute in
  match clientIdentityOf sample_sha theSource plain_config with Ok client => client | Err _ => mkClient [] "" "" end.

(** The client takes it into an empty keeper, in one segment per block. *)
Lemma published_seed_installs_witness :
  exists k' kept segments, installStreamSeed sample_sha the_site Some ["seed.json"] the_options fresh_keeper (keeper := keepStreamOnIndexedDB sample_sha "main")
      = (k', Ok (Installed "seed.json" 3 1 2 segments))
    /\ es_kept (ExistingStreamLaws := keepStreamOnIndexedDB_laws sample_sha "main") k' theSource (Some kept)
    /\ length (concat (kept_batches kept)) = 2%nat.
Proof.
  destruct (published_seed_installs replaced_db "main" the_stream replaced_chain replaced_coverage replaced_stored ltac:(by vm_compute) replaced_places
    sample_sha the_site Some (laws := keepStreamOnIndexedDB_laws sample_sha "main") plain_config 5 3 1 "now" the_seed ltac:(by vm_compute) eq_refl ltac:(done)
    the_options the_client "seed.json" (serializeStreamSeed the_seed) fresh_keeper) as (k' & kept & segments & Hinst & Hk & Hev & _).
  - by vm_compute.
  - by vm_compute.
  - by vm_compute.
  - done.
  - done.
  - done.
  - done.
  - by vm_compute.
  - exists the_stream. split; [by vm_compute|done].
  - done.
  - exists k', kept, segments. split; [exact Hinst|split; [exact Hk|by rewrite Hev]].
Defined.

Lemma seed_reads_back_witness : parseStreamSeed (serializeStreamSeed the_seed) = Ok (SeedDocument.settled the_seed).
Proof. apply (seed_reads_back the_seed). by vm_compute. Defined.

(** ** A keeper over two saves and one that would leave a hole *)
Definition first_sync : LastSync := mkSync (mkContext (entriesOf theSource) "cfg" "") 4 1 2 [].
Definition later_sync (from to : Z) : LastSync := mkSync (mkContext (entriesOf theSource) "cfg" "") 9 from to [].
Definition batchOf (n : Z) (h : string) : list FeedEntry := (fun e => mkFeedEntry e false) <$> entries_of [sample_block n h].

Definition empty_keeper : IDBKeeper := mkIDBKeeper (mkKeyval ∅ ∅ true) plain_config.
Definition save_here (sync : LastSync) (batch : list FeedEntry) (k : IDBKeeper) : IDBKeeper * bool * SaveOutcome :=
  saveNewEvents (port := portOver sample_sha "main") theSource sync batch (k, false).
Definition kept_once : IDBKeeper * bool * SaveOutcome := save_here first_sync (batchOf 1 "a1") empty_keeper.
Definition kept_twice : IDBKeeper * bool * SaveOutcome := save_here (later_sync 3 5) [] kept_once.1.1.
Definition kept_thrice : IDBKeeper * bool * SaveOutcome := save_here (later_sync 7 8) (batchOf 7 "a7") kept_twice.1.1.

Lemma kept_step a k saves sync batch :
  kept_by (laws := port_laws sample_sha "main") a k saves -> addressHere sample_sha k theSource = Some a ->
  kept_by (laws := port_laws sample_sha "main") a (save_here sync batch k).1.1 (if decide ((save_here sync batch k).2 = Saved) then saves ++ [(sync, batch)] else saves).
Proof.
  intros Hk Ha. destruct (save_here sync batch k) as [[k' reported'] out] eqn:Hsave. cbn [fst snd].
  pose proof (kept_save (laws := port_laws sample_sha "main") a _ _ theSource sync batch false k' reported' out Hk Hsave (ex_intro _ a Ha)) as Hk'.
  destruct (decide (out = Saved)) as [Hout|Hout].
  - rewrite (decide_True _ _ (conj Ha Hout)) in Hk'. exact Hk'.
  - rewrite decide_False in Hk'; [exact Hk'|]. intros [_ Hs]. exact (Hout Hs).
Qed.

(** Another tab saves a batch with events while a read is between its transactions. *)
Definition kept_more : IDBKeeper * bool * SaveOutcome := save_here (later_sync 3 5) (batchOf 4 "a4") kept_once.1.1.

Lemma once_run : kept_by (laws := port_laws sample_sha "main") the_stream kept_once.1.1 [(first_sync, batchOf 1 "a1")].
Proof.
  pose proof (kept_nothing (laws := port_laws sample_sha "main") the_stream empty_keeper ltac:(by vm_compute)) as Hk.
  apply (kept_step _ _ _ first_sync (batchOf 1 "a1")) in Hk; [|by vm_compute]. by rewrite decide_True in Hk by (by vm_compute).
Qed.

Lemma once_step sync batch :
  (save_here sync batch kept_once.1.1).2 = Saved ->
  rtc (keeper_step (laws := port_laws sample_sha "main") the_stream) (kept_once.1.1, [(first_sync, batchOf 1 "a1")])
    ((save_here sync batch kept_once.1.1).1.1, [(first_sync, batchOf 1 "a1"); (sync, batch)]).
Proof.
  intros Hsaved. apply rtc_once. destruct (save_here sync batch kept_once.1.1) as [[k' reported'] out] eqn:Hsave. cbn [fst snd] in *.
  assert (addressHere sample_sha kept_once.1.1 theSource = Some the_stream) as Ha by (by vm_compute).
  pose proof (step_save (laws := port_laws sample_sha "main") the_stream _ [(first_sync, batchOf 1 "a1")] theSource sync batch false k' reported' out Hsave (ex_intro _ _ Ha)) as Hstep.
  rewrite (decide_True _ _ (conj Ha Hsaved)) in Hstep. exact Hstep.
Qed.

Lemma keeper_keeps_witness :
  kept_thrice.2 = Declined
  /\ (forall r, fetchAcross (port := portOver sample_sha "main") theSource 0 kept_once.1.1 kept_twice.1.1 = Some r -> r = StreamStarts 1)
  /\ forall r, fetchAcross (port := portOver sample_sha "main") theSource 0 kept_once.1.1 kept_more.1.1 = Some r -> exists reason, r = StreamDamaged reason.
Proof.
  split; [by vm_compute|]. split; intros r Hr.
  - destruct (keeper_keeps (laws := port_laws sample_sha "main") the_stream _ _ _ _ theSource once_run (once_step (later_sync 3 5) [] ltac:(by vm_compute)) ltac:(by vm_compute)) as (Hreads & _ & _).
    destruct (Hreads 0 r Hr) as [_ Hmore]. exact (Hmore [(later_sync 3 5, [])] eq_refl).
  - destruct (keeper_keeps (laws := port_laws sample_sha "main") the_stream _ _ _ _ theSource once_run (once_step (later_sync 3 5) (batchOf 4 "a4") ltac:(by vm_compute)) ltac:(by vm_compute)) as (Hreads & _ & _).
    destruct (Hreads 0 r Hr) as [_ Hmore]. specialize (Hmore [(later_sync 3 5, batchOf 4 "a4")] eq_refl). rewrite decide_False in Hmore by (by vm_compute). exact Hmore.
Defined.

(** A clear and a save of another stretch between the two transactions is not noticed: the
    segments of the new stream under the cursor of the old one. *)
Definition kept_anew : IDBKeeper * bool * SaveOutcome :=
  save_here (later_sync 30 50) (batchOf 40 "b4") (clear (port := portOver sample_sha "main") theSource kept_once.1.1).1.

Example torn_by_clear :
  kept_anew.2 = Saved
  /\ fetchAcross (port := portOver sample_sha "main") theSource 1 kept_once.1.1 kept_anew.1.1
     = Some (StreamOf (withoutWindow first_sync) (batchOf 40 "b4")).
Proof. by vm_compute. Qed.
