(* ===== verification/LogFetcher.v ===== *)
(** * The sender: one cycle of a log fetcher

    [packages/core/src/logFetcher.ts], over the retries of
    [internal/utils/retry.ts].  The node and the receiver are operations on a world, the
    class [FetchPort]; every call may answer differently from the one before. *)
From S2P Require Import Prelude Types Invalidation Stream StreamBuilder.

(** ** Retries *)
Section Retry.
Context {W E A : Type} (operation : W -> W * result E A) (retryable : E -> bool).

(** The attempts left after this one. *)
Fixpoint retryLoop (spare : nat) (w : W) : W * result E A :=
  match operation w with
  | (w, Ok a) => (w, Ok a)
  | (w, Err err) =>
      match spare with
      | O => (w, Err err)
      | S spare => if retryable err then retryLoop spare w else (w, Err err)
      end
  end.

(** [attempts] counts the first one; the delays are not modelled. *)
Definition withRetries (attempts : Z) (w : W) : W * result E A := retryLoop (Z.to_nat (attempts - 1)) w.
End Retry.

(** ** The port *)
Inductive IngestionResponse : Type :=
  | IngestionAcknowledgement (expectedFromBlock applied retracted : Z) (reorg : option ReorgDetection)
  | CursorCorrection (expectedFromBlock : Z).

Class FetchPort (W E : Type) : Type := {
  getBlockNumber : W -> W * result E Z;
  getChainId : W -> W * result E string;
  getLogEvents : Z -> Z -> W -> W * result E (list LogEvent * Z);
  reportedResultCap : W -> option Z;
  askExpectedFromBlock : WireContext -> W -> W * result E (Z * option WireContext);
  send : WireBatch -> W -> W * result E IngestionResponse;
  isRetryable : E -> bool
}.

Inductive SuspectResultCountSource : Type := configured | reported | byDefault.

Inductive LogFetcherError (E : Type) : Type :=
  | NoFetchProgressError (fromBlock toBlockUsed : Z)
  | SuspectedTruncationError (fromBlock : Z) (count : nat) (source : SuspectResultCountSource)
  | UnexpectedChainError (expected got : string)
  | ContextMismatch (expected received : WireContext)
  | RefusedHere (e : EngineError)
  | Thrown (e : E).
Arguments NoFetchProgressError {E}.
Arguments SuspectedTruncationError {E}.
Arguments UnexpectedChainError {E}.
Arguments ContextMismatch {E}.
Arguments RefusedHere {E}.
Arguments Thrown {E}.

Record LogFetcher : Type := mkLogFetcher {
  lf_context : WireContext;
  lf_chainId : string;
  lf_attempts : Z;
  configuredSuspectResultCount : option Z;
  defaultSuspectResultCount : Z;
  maxCorrectionsPerCycle : Z
}.

Inductive FetchCycleOutcome : Type :=
  | Pushed (fromBlock toBlock latestBlock : Z) (logs : nat) (applied retracted expectedFromBlock : Z)
      (reorg : option ReorgDetection) (corrections : nat)
  | UpToDate (expectedFromBlock latestBlock : Z)
  | Yielded (expectedFromBlock latestBlock : Z) (corrections : nat).

Section LogFetcher.
Context {W E : Type} `{port : FetchPort W E} (lf : LogFetcher).

(** A port call under the retry policy. *)
Definition retried {A} (operation : W -> W * result E A) (w : W) : W * result (LogFetcherError E) A :=
  match withRetries operation isRetryable (lf_attempts lf) w with
  | (w, Ok a) => (w, Ok a)
  | (w, Err e) => (w, Err (Thrown e))
  end.

Definition suspectResultCount (w : W) : Z * SuspectResultCountSource :=
  match configuredSuspectResultCount lf, reportedResultCap w with
  | Some count, _ => (count, configured)
  | None, Some count => (count, reported)
  | None, None => (defaultSuspectResultCount lf, byDefault)
  end.

(** Fetch again, half as far, until the answer is not suspect. [None] is out of fuel. *)
Fixpoint fetchCompleteRange (fuel : nat) (fromBlock requestedToBlock : Z) (w : W)
    : W * option (result (LogFetcherError E) (list LogEvent * Z)) :=
  match fuel with
  | O => (w, None)
  | S fuel =>
      match retried (getLogEvents fromBlock requestedToBlock) w with
      | (w, Err e) => (w, Some (Err e))
      | (w, Ok (events, toBlockUsed)) =>
          if decide (toBlockUsed < fromBlock) then (w, Some (Err (NoFetchProgressError fromBlock toBlockUsed)))
          else
            let '(count, source) := suspectResultCount w in
            if decide (Z.of_nat (length events) < count) then (w, Some (Ok (events, toBlockUsed)))
            else if decide (toBlockUsed <= fromBlock) then (w, Some (Err (SuspectedTruncationError fromBlock (length events) source)))
            else fetchCompleteRange fuel fromBlock (fromBlock + (toBlockUsed - fromBlock) / 2) w
      end
  end.

Definition assertChain (w : W) : W * result (LogFetcherError E) unit :=
  match retried getChainId w with
  | (w, Ok chainId) => (w, if decide (chainId = lf_chainId lf) then Ok tt else Err (UnexpectedChainError (lf_chainId lf) chainId))
  | (w, Err e) => (w, Err e)
  end.

(** [expectedFromBlockHint] travels with the world. *)
Definition askWhereToStart (w : W) : W * option Z * result (LogFetcherError E) Z :=
  match retried (askExpectedFromBlock (lf_context lf)) w with
  | (w, Err e) => (w, None, Err e)
  | (w, Ok (expectedFromBlock, context)) =>
      match context with
      | Some context =>
          if sameWireContext (Some context) (Some (lf_context lf)) then (w, Some expectedFromBlock, Ok expectedFromBlock)
          else (w, None, Err (ContextMismatch context (lf_context lf)))
      | None => (w, Some expectedFromBlock, Ok expectedFromBlock)
      end
  end.

(** A push that throws forgets the hint. *)
Definition push (batch : WireBatch) (w : W) (hint : option Z) : W * option Z * result (LogFetcherError E) IngestionResponse :=
  match retried (send batch) w with
  | (w, Ok response) => (w, hint, Ok response)
  | (w, Err e) => (w, None, Err e)
  end.

(** What is checked of a range between its fetch and its push. *)
Definition checkedBatch (fromBlock toBlock latestBlock : Z) (events : list LogEvent) (w : W) : W * result (LogFetcherError E) WireBatch :=
  match assertLogsCarryTimestamps events with
  | Err e => (w, Err (RefusedHere e))
  | Ok _ =>
      match assertChain w with
      | (w, Err e) => (w, Err e)
      | (w, Ok _) =>
          let batch := mkBatch (Some (lf_context lf)) fromBlock toBlock latestBlock events in
          match assertWellFormed batch with
          | Err e => (w, Err (RefusedHere e))
          | Ok _ => (w, Ok batch)
          end
      end
  end.

(** The loop of a cycle; [spare] corrections may still be followed. *)
Fixpoint pushLoop (spare corrections : nat) (fuel : nat) (fromBlock latestBlock : Z) (w : W) (hint : option Z)
    : W * option Z * option (result (LogFetcherError E) FetchCycleOutcome) :=
  if decide (latestBlock < fromBlock) then (w, hint, Some (Ok (UpToDate fromBlock latestBlock)))
  else
    match fetchCompleteRange fuel fromBlock latestBlock w with
    | (w, None) => (w, hint, None)
    | (w, Some (Err e)) => (w, hint, Some (Err e))
    | (w, Some (Ok (events, toBlock))) =>
        match checkedBatch fromBlock toBlock latestBlock events w with
        | (w, Err e) => (w, hint, Some (Err e))
        | (w, Ok batch) =>
            match push batch w hint with
            | (w, hint, Err e) => (w, hint, Some (Err e))
            | (w, _, Ok (IngestionAcknowledgement expectedFromBlock applied retracted reorg)) =>
                (w, Some expectedFromBlock, Some (Ok (Pushed fromBlock toBlock latestBlock (length events) applied retracted expectedFromBlock reorg corrections)))
            | (w, _, Ok (CursorCorrection expectedFromBlock)) =>
                match spare with
                | O => (w, Some expectedFromBlock, Some (Ok (Yielded expectedFromBlock latestBlock (S corrections))))
                | S spare => pushLoop spare (S corrections) fuel expectedFromBlock latestBlock w (Some expectedFromBlock)
                end
            end
        end
    end.

Definition fetchAndPush (fuel : nat) (w : W) (hint : option Z) : W * option Z * option (result (LogFetcherError E) FetchCycleOutcome) :=
  match match hint with Some fromBlock => (w, hint, Ok fromBlock) | None => askWhereToStart w end with
  | (w, hint, Err e) => (w, hint, Some (Err e))
  | (w, hint, Ok fromBlock) =>
      match retried getBlockNumber w with
      | (w, Err e) => (w, hint, Some (Err e))
      | (w, Ok latestBlock) => pushLoop (Z.to_nat (maxCorrectionsPerCycle lf)) 0 fuel fromBlock latestBlock w hint
      end
  end.
End LogFetcher.

(** ** What a cycle sends *)
Section Cycle.
Context {W E : Type} `{port : FetchPort W E} (lf : LogFetcher).
Context (cap : nat) (logsIn : Z -> Z -> list LogEvent) (Tip : Z -> Prop) (Inv : W -> Prop).
Context (Acked : WireBatch -> IngestionResponse -> W -> Prop).

(** The batch of a range is sent with its source's context, well formed, with its times,
    and whole. *)
Record honest_batch (batch : WireBatch) : Prop := {
  hb_context : batch_context batch = Some (lf_context lf);
  hb_wellFormed : assertWellFormed batch = Ok tt;
  hb_times : assertLogsCarryTimestamps (batch_logs batch) = Ok tt;
  hb_whole : batch_logs batch = logsIn (batch_fromBlock batch) (batch_toBlock batch);
  hb_tip : Tip (batch_latestBlock batch)
}.

(** A node that cuts an answer short at [cap] logs without saying so, behind a fetcher that
    does not ask past the range it is given; the counts it suspects are at most [cap].  A
    receiver that keeps [Inv] over honest batches, and [Acked] where it acknowledges one. *)
Record port_ok : Prop := {
  po_logs f t w : Inv w -> 0 <= f <= t -> Inv (getLogEvents f t w).1 /\
    forall events used, (getLogEvents f t w).2 = Ok (events, used) -> used <= t /\ events = take cap (logsIn f used);
  po_suspect w : Inv w -> (suspectResultCount lf w).1 <= Z.of_nat cap;
  po_block w : Inv w -> Inv (getBlockNumber w).1 /\ forall n, (getBlockNumber w).2 = Ok n -> Tip n;
  po_chain w : Inv w -> Inv (getChainId w).1;
  po_ask w : Inv w -> Inv (askExpectedFromBlock (lf_context lf) w).1 /\
    forall n context, (askExpectedFromBlock (lf_context lf) w).2 = Ok (n, context) -> 0 <= n;
  po_send batch w : Inv w -> honest_batch batch -> Inv (send batch w).1 /\
    forall response, (send batch w).2 = Ok response ->
      match response with CursorCorrection n => 0 <= n | _ => Acked batch response (send batch w).1 end
}.

Hypothesis Hport : port_ok.

Lemma retried_ok {A} (operation : W -> W * result E A) (P : A -> W -> Prop) w :
  (forall w, Inv w -> Inv (operation w).1 /\ forall a, (operation w).2 = Ok a -> P a (operation w).1) -> Inv w ->
  Inv (retried lf operation w).1 /\ forall a, (retried lf operation w).2 = Ok a -> P a (retried lf operation w).1.
Proof.
  intros Hop Hw. unfold retried, withRetries.
  assert (forall n w, Inv w -> Inv (retryLoop operation isRetryable n w).1
    /\ forall a, (retryLoop operation isRetryable n w).2 = Ok a -> P a (retryLoop operation isRetryable n w).1) as Hloop.
  { induction n as [|n IH]; intros w0 H0; cbn [retryLoop]; destruct (Hop w0 H0) as [H1 H2]; destruct (operation w0) as [w1 [a|e]]; cbn [fst snd] in *;
      try done. destruct (isRetryable e); [by apply IH|done]. }
  specialize (Hloop (Z.to_nat (lf_attempts lf - 1)) w Hw).
  destruct (retryLoop operation isRetryable _ w) as [w1 [a|e]]; cbn [fst snd] in *; [|split; [apply Hloop|done]].
  split; [apply Hloop|]. intros a' [= <-]. by apply Hloop.
Qed.

(** A range is answered whole, within the block it was asked up to, when there is fuel for
    halving it down to nothing. *)
Lemma fetchCompleteRange_ok fuel : forall from to w, Inv w -> 0 <= from <= to ->
  Inv (fetchCompleteRange lf fuel from to w).1 /\
  (forall events used, (fetchCompleteRange lf fuel from to w).2 = Some (Ok (events, used)) -> from <= used <= to /\ events = logsIn from used) /\
  (to - from < Z.of_nat fuel -> (fetchCompleteRange lf fuel from to w).2 <> None).
Proof.
  induction fuel as [|fuel IH]; intros from to w Hw Hle; cbn [fetchCompleteRange]; [split_and!; [done|done|lia]|].
  destruct (retried_ok (getLogEvents from to) (fun a _ => a.2 <= to /\ a.1 = take cap (logsIn from a.2)) w) as [Hw1 Hans]; [|done|].
  { intros w0 H0. destruct (po_logs Hport _ _ _ H0 Hle) as [H1 H2]. split; [done|]. intros [events used]. apply H2. }
  destruct (retried lf (getLogEvents from to) w) as [w1 [[events used]|e]]; cbn [fst snd] in *; [|done].
  destruct (Hans _ eq_refl) as [Hused Hcut]. cbn [fst snd] in *. case_decide as Hback; [done|].
  pose proof (po_suspect Hport _ Hw1) as Hsus. destruct (suspectResultCount lf w1) as [count source]. cbn [fst] in Hsus.
  case_decide as Hcount; cbn [fst snd].
  - split_and!; [done| |done]. intros events' used' [= <- <-]. split; [lia|]. rewrite Hcut. apply take_ge.
    rewrite Hcut, length_take in Hcount. lia.
  - case_decide as Hone; [done|].
    assert ((used - from) / 2 < used - from) by (apply Z.div_lt; lia). assert (0 <= (used - from) / 2) by (apply Z.div_pos; lia).
    destruct (IH from (from + (used - from) / 2) w1 Hw1 ltac:(lia)) as (H1 & H2 & H3). split_and!; [done| |].
    + intros events' used' Hrun. destruct (H2 _ _ Hrun) as [? ->]. split; [lia|done].
    + intros Hfuel. apply H3. lia.
Qed.

Lemma checkedBatch_ok from to latest events w : Inv w -> Tip latest -> events = logsIn from to ->
  Inv (checkedBatch lf from to latest events w).1 /\
  forall batch, (checkedBatch lf from to latest events w).2 = Ok batch -> honest_batch batch /\ batch = mkBatch (Some (lf_context lf)) from to latest events.
Proof.
  intros Hw Htip Hev. unfold checkedBatch, assertChain. destruct (assertLogsCarryTimestamps events) as [[]|e] eqn:Ht; [|done].
  destruct (retried_ok getChainId (fun _ _ => True) w) as [Hw1 _]; [intros w0 H0; split; [by apply (po_chain Hport)|done]|done|].
  destruct (retried lf getChainId w) as [w1 [id|e]]; cbn [fst snd] in *; [|done]. case_decide; [|done].
  destruct (assertWellFormed _) as [[]|e] eqn:Hwf; [|done]. split; [done|]. intros batch [= <-]. by split; [split|].
Qed.

Lemma push_ok batch w hint : Inv w -> honest_batch batch ->
  Inv (push lf batch w hint).1.1 /\ forall response, (push lf batch w hint).2 = Ok response ->
    match response with CursorCorrection n => 0 <= n | _ => Acked batch response (push lf batch w hint).1.1 end.
Proof.
  intros Hw Hb. unfold push.
  destruct (retried_ok (send batch) (fun r w => match r with CursorCorrection n => 0 <= n | _ => Acked batch r w end) w) as [Hw1 Hr]; [|done|].
  { intros w0 H0. by apply (po_send Hport). }
  destruct (retried lf (send batch) w) as [w1 [r|e]]; cbn [fst snd] in *; [|done]. split; [done|]. intros r' [= <-]. by apply (Hr _ eq_refl).
Qed.

(** What the outcome of a cycle says of the world it leaves. *)
Definition truthful (corrections : nat) (out : option (result (LogFetcherError E) FetchCycleOutcome)) (w : W) : Prop :=
  match out with
  | Some (Ok (Pushed from to latest logs applied retracted expectedFromBlock reorg n)) =>
      from <= to <= latest /\ Tip latest /\ logs = length (logsIn from to) /\ (n <= corrections)%nat /\
      Acked (mkBatch (Some (lf_context lf)) from to latest (logsIn from to)) (IngestionAcknowledgement expectedFromBlock applied retracted reorg) w
  | Some (Ok (UpToDate from latest)) => latest < from /\ Tip latest
  | Some (Ok (Yielded _ _ n)) => n = S corrections
  | Some (Err _) | None => True
  end.

Definition enough (fuel : nat) : Prop := forall n, Tip n -> n < Z.of_nat fuel.

Lemma pushLoop_ok spare : forall corrections fuel from latest w hint, Inv w -> 0 <= from -> Tip latest ->
  let run := pushLoop lf spare corrections fuel from latest w hint in
  Inv run.1.1 /\ truthful (corrections + spare) run.2 run.1.1 /\ (enough fuel -> run.2 <> None).
Proof.
  induction spare as [|spare IH]; intros corrections fuel from latest w hint Hw Hf Hl; cbn [pushLoop]; cbv zeta.
  all: case_decide as Hup; [cbn; split_and!; done|].
  all: destruct (fetchCompleteRange_ok fuel from latest w Hw ltac:(lia)) as (Hw1 & Hwhole & Hfuel).
  all: destruct (fetchCompleteRange lf fuel from latest w) as [w1 [[[events to]|e]|]]; cbn [fst snd] in *;
    [|split_and!; done|split_and!; [done..|intros Hb; exfalso; apply Hfuel; [specialize (Hb _ Hl); lia|done]]].
  all: destruct (Hwhole _ _ eq_refl) as [Hto Hev]; destruct (checkedBatch_ok from to latest events w1 Hw1 Hl Hev) as [Hw2 Hbatch].
  all: destruct (checkedBatch lf from to latest events w1) as [w2 [batch|e]]; cbn [fst snd] in *; [|split_and!; done].
  all: destruct (Hbatch _ eq_refl) as [Hhonest Heq]; destruct (push_ok batch w2 hint Hw2 Hhonest) as [Hw3 Hack].
  all: destruct (push lf batch w2 hint) as [[w3 hint3] [[n applied retracted reorg|n]|e]]; cbn [fst snd] in *; try (split_and!; done).
  1,3: specialize (Hack _ eq_refl); cbn in Hack; subst batch events; split_and!; [done|cbn; split_and!; [lia|lia|done|done|lia|done]|done].
  - split_and!; [done|cbn; lia|done].
  - specialize (IH (S corrections) fuel n latest w3 (Some n) Hw3 (Hack _ eq_refl) Hl). replace (corrections + S spare)%nat with (S corrections + spare)%nat by lia.
    exact IH.
Qed.

(** One cycle sends honest batches only, reports what it did, and ends. *)
Lemma fetchAndPush_ok fuel w hint : Inv w -> (forall n, hint = Some n -> 0 <= n) ->
  let run := fetchAndPush lf fuel w hint in
  Inv run.1.1 /\ truthful (Z.to_nat (maxCorrectionsPerCycle lf)) run.2 run.1.1 /\ (enough fuel -> run.2 <> None).
Proof.
  intros Hw Hhint. unfold fetchAndPush.
  assert (Inv (match hint with Some fromBlock => (w, hint, Ok fromBlock) | None => askWhereToStart lf w end).1.1
    /\ forall n, (match hint with Some fromBlock => (w, hint, Ok fromBlock) | None => askWhereToStart lf w end).2 = Ok n -> 0 <= n) as [Hw1 Hstart].
  { destruct hint as [n|]; [split; [done|]; intros n' [= <-]; by apply Hhint|]. unfold askWhereToStart.
    destruct (retried_ok (askExpectedFromBlock (lf_context lf)) (fun a _ => 0 <= a.1) w) as [H1 H2]; [|done|].
    { intros w0 H0. destruct (po_ask Hport _ H0) as [H1 H2]. split; [done|]. intros [n c]. apply H2. }
    destruct (retried lf _ w) as [w1 [[n context]|e]]; cbn [fst snd] in *; [|done].
    destruct context as [context|]; [destruct (sameWireContext _ _)|]; cbn [fst snd]; (split; [done|]); intros n' [= <-]; by apply (H2 _ eq_refl). }
  destruct (match hint with Some _ => _ | None => _ end) as [[w1 hint1] [from|e]]; cbn [fst snd] in *; [|split_and!; done].
  destruct (retried_ok getBlockNumber (fun n _ => Tip n) w1) as [Hw2 Hn]; [by intros w0 H0; apply (po_block Hport)|done|].
  destruct (retried lf getBlockNumber w1) as [w2 [latest|e]]; cbn [fst snd] in *; [|split_and!; done].
  apply (pushLoop_ok _ 0); [done|by apply Hstart|by apply Hn].
Qed.
End Cycle.
