(* ===== verification/Sending.v ===== *)
(** * A log fetcher over a range fetcher

    The port of [LogFetcher] as [LogEventFetcher] implements it: the ranges are sized by
    [RangeFetcher], the logs decoded by [Decoding]'s [parse] or any other decoding, and the
    receiver is left open.  [range_port_ok] discharges what the cycle asks of its port. *)
From S2P Require Import Prelude JsMap Types EventRanges RangeFetcher Invalidation Stream StreamBuilder LogFetcher.

Section Port.
Context {R ProviderError Log ReceiverError DecodeError : Type} (config : RangeFetcherConfig).
Context (topics : option (list string)) (ranges : TopicBlockRanges).
Context (archive : ProviderError -> option string) (reported stated clueOf : ProviderError -> option Z) (tooWide : ProviderError -> bool).
Context (ask : nat -> option (list string) -> Z -> Z -> result ProviderError (list Log)) (decode : Log -> result DecodeError LogEvent).
Context (tip : R -> R * result ReceiverError Z) (chain : R -> R * result ReceiverError string).
Context (expected : WireContext -> R -> R * result ReceiverError (Z * option WireContext)).
Context (deliver : WireBatch -> R -> R * result ReceiverError IngestionResponse) (canRetry : ReceiverError -> bool).

Inductive SendError : Type :=
  | FromNode (e : RangeFetchError (ProviderError:=ProviderError))
  | Undecoded (e : DecodeError)
  | FromReceiver (e : ReceiverError).

Definition onReceiver {A} (operation : R -> R * result ReceiverError A) (w : RangeLogFetcher * R)
    : (RangeLogFetcher * R) * result SendError A :=
  match operation w.2 with
  | (r, Ok a) => ((w.1, r), Ok a)
  | (r, Err e) => ((w.1, r), Err (FromReceiver e))
  end.

(** [LogEventFetcher.getLogEvents] *)
Definition rangeLogEvents (fromBlock toBlock : Z) (w : RangeLogFetcher * R)
    : (RangeLogFetcher * R) * result SendError (list LogEvent * Z) :=
  match getLogs config topics ranges archive reported stated clueOf tooWide ask (Z.to_nat (numRetry config)) w.1 fromBlock toBlock with
  | (st, Err e) => ((st, w.2), Err (FromNode e))
  | (st, Ok (logs, toBlockUsed)) =>
      ((st, w.2), match mapR decode logs with Ok events => Ok (events, toBlockUsed) | Err e => Err (Undecoded e) end)
  end.

#[local] Instance range_port : FetchPort (RangeLogFetcher * R) SendError := {
  getBlockNumber := onReceiver tip;
  getChainId := onReceiver chain;
  getLogEvents := rangeLogEvents;
  reportedResultCap w := lowestReportedResultCap w.1;
  askExpectedFromBlock context := onReceiver (expected context);
  send batch := onReceiver (deliver batch);
  isRetryable e := match e with
                   | FromNode (ArchiveRefusedError _ _ _) => false
                   | FromReceiver e => canRetry e
                   | _ => true
                   end
}.

(** ** The port keeps its promise *)
Context (lf : LogFetcher) (cap : nat) (logsIn : Z -> Z -> list LogEvent) (Tip : Z -> Prop) (InvR : R -> Prop).
Context (AckedR : WireBatch -> IngestionResponse -> R -> Prop).

(** A node that may cut an answer short, whose refusals name a block inside the range they
    refuse and no more logs than it answers with; a receiver that keeps its own state. *)
Record node_ok : Prop := {
  no_config : config_ok config;
  no_answers attempt f t logs : 0 <= f <= t -> askRange topics ranges ask attempt f t = Ok logs ->
    exists all, logs = take cap all /\ mapR decode all = Ok (logsIn f t);
  no_clues attempt f t e c : askRange topics ranges ask attempt f t = Err e -> truthyNumber (clueOf e) = Some c -> f < c <= t;
  no_reports e c : reported e = Some c -> c <= Z.of_nat cap;
  no_suspect : default (defaultSuspectResultCount lf) (configuredSuspectResultCount lf) <= Z.of_nat cap;
  no_tip r : InvR r -> InvR (tip r).1 /\ forall n, (tip r).2 = Ok n -> Tip n;
  no_chain r : InvR r -> InvR (chain r).1;
  no_expected r : InvR r -> InvR (expected (lf_context lf) r).1 /\ forall n c, (expected (lf_context lf) r).2 = Ok (n, c) -> 0 <= n;
  no_deliver batch r : InvR r -> honest_batch lf logsIn Tip batch -> InvR (deliver batch r).1 /\
    forall response, (deliver batch r).2 = Ok response ->
      match response with CursorCorrection n => 0 <= n | _ => AckedR batch response (deliver batch r).1 end
}.

Definition sending (w : RangeLogFetcher * R) : Prop :=
  sized w.1 /\ (forall c, lowestReportedResultCap w.1 = Some c -> c <= Z.of_nat cap) /\ InvR w.2.

Lemma mapR_take {A B X} (f : A -> result X B) l bs n : mapR f l = Ok bs -> mapR f (take n l) = Ok (take n bs).
Proof. rewrite !mapR_Forall2. intros Hl. by apply Forall2_take. Qed.

(** What is reported of a result cap is what some refusal reported. *)
Lemma getLogs_reports (Hreports : forall e c, reported e = Some c -> c <= Z.of_nat cap) retry : forall st f t,
  (forall c, lowestReportedResultCap st = Some c -> c <= Z.of_nat cap) ->
  forall c, lowestReportedResultCap (getLogs config topics ranges archive reported stated clueOf tooWide ask retry st f t).1 = Some c -> c <= Z.of_nat cap.
Proof.
  assert (forall st e, (forall c, lowestReportedResultCap st = Some c -> c <= Z.of_nat cap) ->
    forall c, lowestReportedResultCap (recordReportedResultCap st (reported e)) = Some c -> c <= Z.of_nat cap) as Hrec.
  { intros st e Hst c. unfold recordReportedResultCap. destruct (reported e) as [c'|] eqn:Hr; [|apply Hst].
    destruct (match lowestReportedResultCap st with Some _ => _ | None => _ end); [apply Hst|]. intros [= <-]. by eapply Hreports. }
  assert (forall st n f t, lowestReportedResultCap (adaptToAnswer config st n f t) = lowestReportedResultCap st) as Hans.
  { intros. unfold adaptToAnswer. by destruct (truthyNumber _). }
  assert (forall st c, lowestReportedResultCap (lowerBlockCeilingTo config st c) = lowestReportedResultCap st) as Hlow.
  { intros. unfold lowerBlockCeilingTo. destruct c; [|done]. by case_decide. }
  assert (forall st a b w f t, lowestReportedResultCap (adaptToRefusal config st a b w f t) = lowestReportedResultCap st) as Href.
  { intros st a b w f t. unfold adaptToRefusal. assert (forall st2 n, lowestReportedResultCap st2 = lowestReportedResultCap st ->
      lowestReportedResultCap (match truthyNumber (foundNumBlockToHigh st2) with
        | Some found => with_size st2 (if decide (found < n) then widthUnder found (safeNumBlock st2) else n)
        | None => with_size st2 n end) = lowestReportedResultCap st) as Hsize by (intros st2 n H2; by destruct (truthyNumber _)).
    destruct (truthyNumber b); apply Hsize; [apply Hlow|]. destruct w; by rewrite ?Hlow. }
  induction retry as [|retry IH]; intros st f t Hst; cbn [getLogs]; destruct (askRange topics ranges ask _ f _) as [logs|e]; cbn [fst]; rewrite ?Hans; try done.
  - destruct (archive e); cbn [fst]; [done|by apply Hrec].
  - destruct (archive e); cbn [fst]; [done|].
    set (st1 := adaptToRefusal _ _ _ _ _ _ _). assert (forall c, lowestReportedResultCap st1 = Some c -> c <= Z.of_nat cap) as H1.
    { unfold st1. rewrite Href. by apply Hrec. }
    specialize (IH st1 f (f + numBlocksToFetch st1 - 1) H1).
    destruct (getLogs _ _ _ _ _ _ _ _ _ retry st1 f _) as [st2 [[logs used]|e']]; cbn [fst] in *; rewrite ?Hans; done.
Qed.

Lemma onReceiver_ok {A} (operation : R -> R * result ReceiverError A) (P : A -> R -> Prop) w :
  (InvR w.2 -> InvR (operation w.2).1 /\ forall a, (operation w.2).2 = Ok a -> P a (operation w.2).1) -> sending w ->
  sending (onReceiver operation w).1 /\ forall a, (onReceiver operation w).2 = Ok a -> P a (onReceiver operation w).1.2.
Proof.
  intros Hop (H1 & H2 & H3). destruct (Hop H3) as [H4 H5]. unfold onReceiver. destruct (operation w.2) as [r [a|e]]; cbn [fst snd] in *.
  - split; [by split_and!|]. intros a' [= <-]. by apply H5.
  - split; [by split_and!|done].
Qed.

Lemma range_port_ok : node_ok -> port_ok lf cap logsIn Tip sending (fun batch response w => AckedR batch response w.2).
Proof.
  intros Hn. split.
  - intros f t [st r] (Hst & Hcap & Hr) Hft. cbn [getLogEvents range_port]. unfold rangeLogEvents. cbn [fst snd] in *.
    pose proof (getLogs_spec config (no_config Hn) topics ranges archive reported stated clueOf tooWide ask (Z.to_nat (numRetry config)) st f t Hst ltac:(lia)) as (Hst' & _ & Hout).
    pose proof (getLogs_reports (no_reports Hn) (Z.to_nat (numRetry config)) st f t Hcap) as Hcap'.
    pose proof (getLogs_within config (no_config Hn) topics ranges archive reported stated clueOf tooWide ask (Z.to_nat (numRetry config)) st f t) as Hwithin.
    destruct (getLogs _ _ _ _ _ _ _ _ _ _ st f t) as [st' [[logs used]|e]]; cbn [fst snd] in *; [|by split].
    split; [by split_and!|]. intros events used' Hdec. destruct (mapR decode logs) as [es|] eqn:Hlogs; [|done]. injection Hdec as -> ->.
    destruct Hout as (Hfu & attempt & _ & Hask). destruct (no_answers Hn attempt f used' logs ltac:(lia) Hask) as (all & -> & Hall).
    split; [|apply (mapR_take _ _ _ cap) in Hall; rewrite Hall in Hlogs; by injection Hlogs].
    apply (Hwithin (take cap all) used'); [done|lia| |done]. intros a u e _ He c Hc. by eapply (no_clues Hn).
  - intros [st r] (_ & Hcap & _). pose proof (no_suspect Hn) as Hc. unfold suspectResultCount. cbn [reportedResultCap range_port fst] in *.
    destruct (configuredSuspectResultCount lf); [done|]. destruct (lowestReportedResultCap st); cbn; [by apply Hcap|done].
  - intros w Hw. apply (onReceiver_ok tip (fun n _ => Tip n)); [|done]. apply (no_tip Hn).
  - intros w Hw. apply (onReceiver_ok chain (fun _ _ => True)); [|done]. intros Hr. split; [by apply (no_chain Hn)|done].
  - intros w Hw. destruct (onReceiver_ok (expected (lf_context lf)) (fun a _ => 0 <= a.1) w) as [H1 H2]; [|done|].
    + intros Hr. destruct (no_expected Hn _ Hr) as [H1 H2]. split; [done|]. intros [n c]. apply H2.
    + split; [done|]. intros n c. apply (H2 (n, c)).
  - intros batch w Hw Hb. apply (onReceiver_ok (deliver batch) (fun r x => match r with CursorCorrection n => 0 <= n | _ => AckedR batch r x end)); [|done].
    intros Hr. by apply (no_deliver Hn).
Qed.
End Port.

(** C4. Behind a node that may cut an answer short, at a cap that is not below the suspect count
    (configured, or the default), whose refusals report no cap above its own and hint only at
    blocks after the range's first and up to its last, every batch a cycle hands to the receiver is honest:
    it carries its source's context and its times, is well formed and holds all the logs of
    its range.  The cycle ends, and its outcome is what the receiver answered.  [InvR] is
    whatever the receiver keeps over honest batches, [AckedR] what it owes for a batch it
    acknowledges. *)
Theorem cycle_sends_whole {R ProviderError Log ReceiverError DecodeError} (config : RangeFetcherConfig) topics ranges
    (archive : ProviderError -> option string) reported stated clueOf tooWide ask (decode : Log -> result DecodeError LogEvent)
    tip chain expected deliver (canRetry : ReceiverError -> bool) lf cap logsIn Tip (InvR : R -> Prop) AckedR fuel w hint :
  node_ok config topics ranges reported clueOf ask decode tip chain expected deliver lf cap logsIn Tip InvR AckedR ->
  sending cap InvR w -> (forall n, hint = Some n -> 0 <= n) ->
  let run := fetchAndPush (port := range_port config topics ranges archive reported stated clueOf tooWide ask decode tip chain expected deliver canRetry) lf fuel w hint in
  sending cap InvR run.1.1 /\
  truthful lf logsIn Tip (fun batch response w => AckedR batch response w.2) (Z.to_nat (maxCorrectionsPerCycle lf)) run.2 run.1.1 /\
  (enough Tip fuel -> run.2 <> None).
Proof. intros Hn. by eapply fetchAndPush_ok, range_port_ok. Qed.

(** ** A node that cuts its answers at two logs, and a receiver that keeps its batches *)
Definition cutContext : WireContext := mkWireContext [] "cfg".
Definition cutLog (n : Z) : LogEvent := mkLog n (pretty n) 0 false "0xc0" "0x" [] "0xt" 0 (Some n) (Parsed "Set" JNull).
Definition cutLogsIn (from to : Z) : list LogEvent := filter (fun e => from <= blockNumber e <= to) (cutLog <$> [1; 2; 3; 4]).
Definition cutAsk (_ : nat) (_ : option (list string)) (from to : Z) : result string (list LogEvent) :=
  if decide (8 < to - from) then Err "too wide" else Ok (take 2 (cutLogsIn from to)).
Definition cutDeliver (batch : WireBatch) (sent : list WireBatch) : list WireBatch * result string IngestionResponse :=
  (sent ++ [batch], Ok (IngestionAcknowledgement (batch_toBlock batch + 1) (Z.of_nat (length (batch_logs batch))) 0 None)).
Definition cutFetcher : LogFetcher := mkLogFetcher cutContext "1" 3 (Some 2) 10000 2.
Definition cutPort : FetchPort (RangeLogFetcher * list WireBatch) (SendError (ProviderError:=string) (ReceiverError:=string) (DecodeError:=string)) :=
  range_port defaultRangeConfig None [] (fun _ => None) (fun _ => None) (fun _ => None) (fun _ => None) (fun _ => false)
    cutAsk (fun e => Ok e) (fun sent => (sent, Ok 12)) (fun sent => (sent, Ok "1")) (fun _ sent => (sent, Ok (0, None))) cutDeliver (fun _ => true).

Example cut_cycle :
  let run := fetchAndPush (port := cutPort) cutFetcher 13 (newRangeLogFetcher defaultRangeConfig None, []) None in
  (run.1.1.2, run.2) = ([mkBatch (Some cutContext) 0 1 12 [cutLog 1]], Some (Ok (Pushed 0 1 12 1 1 0 2 None 0))).
Proof. vm_compute. reflexivity. Qed.

#[local] Abbreviation cutSent := (Forall (honest_batch cutFetcher cutLogsIn (eq 12))).
#[local] Abbreviation cutKept := (fun (batch : WireBatch) (_ : IngestionResponse) (sent : list WireBatch) => batch ∈ sent).

Lemma cut_node_ok : node_ok defaultRangeConfig None [] (fun _ : string => None) (fun _ => None) cutAsk (fun e => Ok e : result string LogEvent)
  (fun sent => (sent, Ok 12 : result string Z)) (fun sent => (sent, Ok "1")) (fun _ sent => (sent, Ok (0, None))) cutDeliver
  cutFetcher 2 cutLogsIn (eq 12) cutSent cutKept.
Proof.
  split; cbn [fst snd]; try done.
  - intros attempt f t logs _. unfold askRange, cutAsk. cbn. case_decide; [done|]. intros [= <-]. exists (cutLogsIn f t).
    split; [done|]. rewrite mapR_Forall2. apply Forall_Forall2_diag. by apply Forall_true.
  - intros r Hr. split; [done|]. by intros n [= <-].
  - intros r Hr. split; [done|]. intros n c [= <-]. lia.
  - intros batch r Hr Hb. split; [cbn; apply Forall_app; by split; [|constructor]|]. cbn. intros response [= <-].
    apply elem_of_app. right. apply list_elem_of_here.
Qed.

Lemma cycle_sends_whole_witness :
  let run := fetchAndPush (port := cutPort) cutFetcher 13 (newRangeLogFetcher defaultRangeConfig None, []) None in
  sending 2 cutSent run.1.1 /\ truthful cutFetcher cutLogsIn (eq 12) (fun batch response w => cutKept batch response w.2) 2 run.2 run.1.1
  /\ (enough (eq 12) 13 -> run.2 <> None).
Proof.
  assert (sending 2 cutSent (newRangeLogFetcher defaultRangeConfig None, [])) as Hstart
    by (split_and!; [apply newRangeLogFetcher_sized; split; cbn; lia|done|constructor]).
  exact (cycle_sends_whole defaultRangeConfig None [] (fun _ => None) (fun _ => None) (fun _ => None) (fun _ => None) (fun _ => false)
    cutAsk (fun e => Ok e) _ _ _ cutDeliver (fun _ => true) cutFetcher 2 cutLogsIn (eq 12) _ _ 13 _ None cut_node_ok Hstart ltac:(done)).
Defined.
