(* ===== verification/Direct.v ===== *)
(** * The sender and the receiver in one process

    [packages/core/src/directIngestion.ts]: the receiver as the sender's ingestion target,
    one receiver or whichever of several is live.  The second half puts the whole of a
    combined deployment together, [LogFetcher] over [RangeFetcher] into [StreamBuilder]
    over any store: after a cycle the store holds the fold of the node's chain. *)
From S2P Require Import Prelude JsMap Types EventRanges RangeFetcher Invalidation Stream Reorg Cursor StoreSpec EntityProcessor StreamBuilder LogFetcher Sending.

Record LogIngestion (W : Type) : Type := mkLogIngestion {
  ingestion_context : WireContext;
  ingestion_expected : W -> W * result IngestError Z;
  ingestion_receive : WireBatch -> W -> W * result IngestError IngestionResult
}.
Arguments mkLogIngestion {_}. Arguments ingestion_context {_}. Arguments ingestion_expected {_}. Arguments ingestion_receive {_}.

Section Ingestion.
Context {W : Type}.

(** One receiver, or the receivers live at the moment of the ask. *)
Inductive Ingestion : Type :=
  | OneReceiver (receiver : LogIngestion W)
  | LiveIngestions (live : W -> W * list (LogIngestion W)).

Inductive DirectError : Type :=
  | NoLiveReceiverError (expected : list WireContext) (received : option WireContext)
  | FromReceive (e : IngestError).

(** [NoLiveReceiverError.retryable]: only while nothing at all is live. *)
Definition noReceiverRetryable (e : DirectError) : option bool :=
  match e with NoLiveReceiverError expected _ => Some (bool_decide (expected = [])) | FromReceive _ => None end.

Context (ingestion : Ingestion).

Definition receiverFor (context : option WireContext) (w : W) : W * result DirectError (LogIngestion W) :=
  match ingestion with
  | OneReceiver receiver => (w, Ok receiver)
  | LiveIngestions liveNow =>
      let '(w, live) := liveNow w in
      (w, match filter (fun receiver => sameWireContext (Some (ingestion_context receiver)) context = true) live with
          | found :: _ => Ok found
          | [] => Err (NoLiveReceiverError (ingestion_context <$> live) context)
          end)
  end.

Definition directExpectedFromBlock (context : WireContext) (w : W) : W * result DirectError (Z * option WireContext) :=
  match receiverFor (Some context) w with
  | (w, Err e) => (w, Err e)
  | (w, Ok receiver) =>
      match ingestion_expected receiver w with
      | (w, Ok n) => (w, Ok (n, Some (ingestion_context receiver)))
      | (w, Err e) => (w, Err (FromReceive e))
      end
  end.

(** The batch's own context selects; the one resumable refusal is an answer. *)
Definition directSend (batch : WireBatch) (w : W) : W * result DirectError IngestionResponse :=
  match receiverFor (batch_context batch) w with
  | (w, Err e) => (w, Err e)
  | (w, Ok receiver) =>
      match ingestion_receive receiver batch w with
      | (w, Ok outcome) =>
          (w, Ok (IngestionAcknowledgement (ingestion_expectedFromBlock outcome) (Z.of_nat (applied outcome)) (Z.of_nat (retracted outcome))
                    (ingestion_reorg outcome)))
      | (w, Err (Refused (UnexpectedFromBlockError expected _))) => (w, Ok (CursorCorrection expected))
      | (w, Err e) => (w, Err (FromReceive e))
      end
  end.
End Ingestion.

Lemma generateStreamToAppend_refusal s d logs bounds e :
  generateStreamToAppend s d logs bounds = Err e ->
  e = UnexpectedFromBlockError (getFromBlock s d (finality bounds)) (newLastFromBlock bounds) /\ d <= getFromBlock s d (finality bounds).
Proof.
  unfold generateStreamToAppend. case_decide; [intros [= <-]; split; [done|]; unfold getFromBlock; case_decide; lia|].
  by destruct (findReorg _ _ _ _ _).
Qed.

(** What resolves the cursor never refuses a batch. *)
Lemma currentLastSync_refusal {world S} `{StateStore S} (sb : StreamBuilder world) store w store' w' e :
  currentLastSync sb store w = (store', w', Err e) -> match e with Refused _ => False | _ => True end.
Proof.
  unfold currentLastSync, load. destruct (match container sb with Some _ => _ | None => _ end) as [w2 []]; [|by intros [= _ _ <-]].
  destruct (declaredFinalityDepth sb); [case_decide; [by intros [= _ _ <-]|]|].
  all: destruct (parseStoredCursor _) as [l|]; [|done]; destruct (ownCursor sb l); [done|]; destruct (container sb); [done|]; destruct (reset _ _); [done|];
    by intros [= _ _ <-].
Qed.

(** A fold as a receiver. *)
Definition foldIngestion {world S} `{StateStore S} (processor : Processor) (sb : StreamBuilder world) : LogIngestion (S * world) :=
  mkLogIngestion (sb_context sb)
    (fun w => let '(store, w, r) := expectedFromBlock sb w.1 w.2 in ((store, w), r))
    (fun batch w => let '(store, w, r) := receive processor sb w.1 w.2 batch in ((store, w), r)).

(** A batch goes to a receiver that takes its context, and where none does the sender is
    told so, to try again only while nothing at all is live. *)
Lemma directSend_routed {world S} `{StateStore S} (liveNow : S * world -> (S * world) * list (LogIngestion (S * world))) batch w :
  (forall receiver, receiver ∈ (liveNow w).2 -> exists processor sb, receiver = foldIngestion processor sb) ->
  match (directSend (LiveIngestions liveNow) batch w).2 with
  | Err (NoLiveReceiverError expected received as e) => expected = ingestion_context <$> (liveNow w).2 /\ received = batch_context batch
      /\ Forall (fun context => sameWireContext (Some context) received = false) expected
      /\ (noReceiverRetryable e = Some true <-> (liveNow w).2 = [])
  | Err (FromReceive (Refused (WireContextMismatchError _ _))) => False
  | _ => True
  end.
Proof.
  intros Hfolds. unfold directSend. cbn [receiverFor]. destruct (liveNow w) as [w' live]. cbn [snd] in Hfolds.
  destruct (filter _ live) as [|found rest] eqn:Hlive; cbn [snd].
  - split_and!; [done..| |].
    + apply Forall_fmap, Forall_forall. intros r Hr. apply not_true_iff_false. intros Hsame.
      assert (r ∈ filter (fun receiver => sameWireContext (Some (ingestion_context receiver)) (batch_context batch) = true) live) as Hin
        by (by apply list_elem_of_filter). rewrite Hlive in Hin. by apply elem_of_nil in Hin.
    + cbn [noReceiverRetryable]. split; [intros [= Hnil%bool_decide_eq_true]; by eapply fmap_nil_inv|by intros ->].
  - assert (found ∈ filter (fun receiver => sameWireContext (Some (ingestion_context receiver)) (batch_context batch) = true) live) as [Hsame Hin]%list_elem_of_filter
      by (rewrite Hlive; apply list_elem_of_here).
    destruct (Hfolds _ Hin) as (processor & sb & ->). cbn [foldIngestion ingestion_receive ingestion_context fst snd] in *.
    unfold receive, assertContext. rewrite Hsame.
    destruct (assertWellFormed batch) as [u|e] eqn:Hwf; [|by apply engine_refusal in Hwf as [reason ->]].
    destruct (currentLastSync sb w'.1 w'.2) as [[store1 w1] [s|e]] eqn:Hcur.
    2:{ apply currentLastSync_refusal in Hcur. by destruct e. }
    destruct (generateStreamToAppend _ _ _ _) as [a|e] eqn:Hgen; [|by destruct (generateStreamToAppend_refusal _ _ _ _ _ Hgen) as [-> _]].
    destruct (storeStream _ _ _ _) as [w2 []]; [|done]. by destruct (applyEventStream _ _ _ _ _) as [[store2 reports] [v|e]].
Qed.

(** ** What a fold is told by the sender of its own chain *)
Section Combined.
Context {world S : Type} `{StateStoreLaws S} (processor : Processor) (sb : StreamBuilder world) (floor : Z).
Context (sourceHash configHash : string).
Hypothesis Hcontext : sb_context sb = wireContextOf sourceHash configHash.
Hypothesis Hretention : forall declared, declaredFinalityDepth sb = Some declared -> sb_finality sb <= declared.
Hypothesis Hstart : 0 <= sb_defaultFromBlock sb.
Hypothesis Hfinality : 0 <= sb_finality sb.
Hypothesis Hresolves : forall resolve g w, container sb = Some resolve -> (resolve g w).2 = true.

Let d := sb_defaultFromBlock sb.
Let f := sb_finality sb.

(** The node's chain, its tip, and what the fold still holds that the node dropped. *)
Context (C : list EventBlock) (tip : Z) (D0 : list EventBlock).
Hypothesis Htip : 0 < tip.
Hypothesis Hchain : chain_wf C.
Hypothesis Hplain : Forall block_plain C.
Hypothesis Hnodup : NoDup (lower_hash <$> C).

(** The fold's blocks are the node's up to a fork no deeper than it re-reads. *)
Inductive follows (store : S) : Prop :=
  | follows_intro P D1 D2 N s :
      P ++ N = C -> tracks processor sb floor store s (P ++ D1) D2 -> D1 ++ D2 = [] \/ D1 ++ D2 = D0 ->
      (forall x y, x ∈ D1 ++ D2 -> y ∈ N -> hash x <> hash y) ->
      Forall (fun b => getFromBlock s d f <= number b) ((D1 ++ D2) ++ N) -> latestBlock s <= tip ->
      Forall (fun b => floor < number b) (D1 ++ D2) -> follows store.

(** A batch that reaches the first block to take back. *)
Definition reaches_fork (batch : WireBatch) : Prop := forall x, head D0 = Some x -> number x <= batch_toBlock batch.

(** An acknowledged batch: the store holds the node's chain, up to the batch's last block
    at least and with nothing dead in it, and the next block asked for is its cursor's. *)
Definition folded (batch : WireBatch) (next : Z) (store : S) : Prop :=
  exists s held, tracks processor sb floor store s held [] /\ next = getFromBlock s d f
    /\ upto (batch_toBlock batch) C `prefix_of` held /\ held `prefix_of` C.

#[local] Abbreviation logsIn := (fun from to => events_of (blocks_in from to C)).

Lemma upto_prefix P N to : P ++ N = C -> upto to C `prefix_of` P ++ upto to N /\ P ++ upto to N `prefix_of` C.
Proof.
  intros HC. pose proof Hchain as [Ha _ _]. rewrite <- HC in Ha |- *. pose proof (upto_over to _ Ha) as Hcut.
  apply ascending_app in Ha as (Hlt & HP & HN). pose proof (upto_over to _ HN) as HcutN. split; [|exists (over to N); by rewrite <- app_assoc, HcutN].
  unfold upto. rewrite filter_app. fold (upto to P) (upto to N). destruct (upto to N) as [|x l] eqn:Hup.
  - rewrite !app_nil_r. exists (over to P). by rewrite upto_over.
  - assert (upto to P = P) as ->; [|done]. apply filter_Forall_id, Forall_forall. intros y Hy.
    assert (x ∈ upto to N) as [Hx HxN]%list_elem_of_filter by (rewrite Hup; apply list_elem_of_here). specialize (Hlt y x Hy HxN). lia.
Qed.

Lemma deliver_follows lf batch store w :
  lf_context lf = sb_context sb -> LogFetcher.honest_batch lf logsIn (eq tip) batch -> follows store -> reaches_fork batch ->
  let '(store', w', r) := receive processor sb store w batch in
  follows store' /\ forall res, r = Ok res -> folded batch (ingestion_expectedFromBlock res) store'.
Proof.
  intros Hlf [Hctx Hwf _ Hwhole Hlatest] Hfollows Hcovers. destruct Hfollows as [P D1 D2 N s HC Htr HD Hfork Hdepth Hlow Hfloor].
  destruct batch as [ctx from to latest logs]. unfold reaches_fork in Hcovers. cbn [batch_context batch_fromBlock batch_toBlock batch_latestBlock batch_logs] in *.
  subst ctx logs latest. destruct (decide (from = getFromBlock s d f)) as [Hfrom|Hne].
  2:{ pose proof (receive_refusal processor sb sourceHash configHash Hcontext Hretention Hresolves store w
        (mkBatch (Some (lf_context lf)) from to tip (logsIn from to))) as Href.
      cbv zeta in Href. cbn [batch_context batch_fromBlock] in Href. rewrite Hlf, sameWireContext_refl in Href. rewrite Hlf in Hwf. rewrite Hwf in Href.
      rewrite Hlf, (Href s (tracks_cursor _ _ _ _ _ _ _ Htr) Hne). split; [|done]. by apply (follows_intro _ P D1 D2 N s). }
  pose proof Hwf as (Hft & Htl & _ & _)%assertWellFormed_ok. cbn [batch_fromBlock batch_toBlock batch_latestBlock] in Hft, Htl.
  set (bounds := mkBounds tip from to f).
  assert (honest_fetch d s bounds P (D1 ++ D2) N) as Hfetch.
  { split; [split; cbn [bounds newLastFromBlock newLastToBlock newLatestBlock finality]; lia || done|by rewrite HC|done| |].
    - cbn [bounds newLastFromBlock]. by rewrite Hfrom.
    - intros x Hx. destruct HD as [HD|HD]; rewrite HD in Hx; [done|]. by apply Hcovers. }
  pose proof (receive_step processor sb floor sourceHash configHash Hcontext Hretention Hstart Hresolves store w s bounds P D1 D2 N
    eq_refl Htr Hfetch ltac:(by rewrite HC) ltac:(by rewrite HC) Hfloor) as Hstep. cbv zeta in Hstep.
  unfold StreamBuilder.honest_batch, fetched_logs in Hstep. rewrite HC, <- Hlf in Hstep.
  cbn [bounds newLastFromBlock newLastToBlock newLatestBlock] in Hstep.
  assert (upto to N = take (length (upto to N)) N) as Htake.
  { pose proof Hchain as [Ha _ _]. rewrite <- HC in Ha. apply ascending_app in Ha as (_ & _ & HN).
    rewrite <- (upto_over to N HN) at 3. by rewrite take_app_length. }
  destruct (receive processor sb store w _) as [[store' w'] [res|[]]]; try done.
  - destruct Hstep as [(_ & _ & _ & Hnext & _ & Htr') [Hlow' Hdepth']]. split.
    + apply (follows_intro _ (P ++ upto to N) [] [] (drop (length (upto to N)) N) (ingestion_lastSync res)); cbn [app]; try done.
      * rewrite Htake at 1. by rewrite <- app_assoc, take_drop.
      * by rewrite app_nil_r.
      * by left.
      * by intros x y Hx%elem_of_nil.
    + intros res' [= <-]. destruct (upto_prefix P N to HC). by exists (ingestion_lastSync res), (P ++ upto to N).
  - destruct Hstep as [-> _]. split; [|done]. by apply (follows_intro _ P D1 D2 N s).
  - destruct Hstep as (k & s' & (Hk & _ & Htr') & [Hlow' Hdepth'] & Hzero). split; [|done].
    assert (take k (upto to N) = take k N) as Htk by (rewrite Htake, take_take; f_equal; lia). rewrite Htk in Htr'.
    apply (follows_intro _ (P ++ take k N) [] (if decide (k = 0%nat) then D1 ++ D2 else []) (drop k N) s'); cbn [app].
    + by rewrite <- app_assoc, take_drop.
    + by rewrite app_nil_r.
    + case_decide; [done|by left].
    + intros x y Hx Hy. case_decide; [|by apply elem_of_nil in Hx]. apply Hfork; [done|]. rewrite <- (take_drop k N). apply elem_of_app. by right.
    + case_decide as Hk0; [|done]. rewrite (Hzero Hk0), Hk0, drop_0. done.
    + done.
    + by case_decide.
Qed.

(** ** The combined deployment *)
Section Deployment.
Context {NS ProviderError Log DecodeError : Type} (config : RangeFetcherConfig) (topics : option (list string)) (ranges : TopicBlockRanges).
Context (archive : ProviderError -> option string) (reported stated clueOf : ProviderError -> option Z) (tooWide : ProviderError -> bool).
Context (ask : nat -> option (list string) -> Z -> Z -> result ProviderError (list Log)) (decode : Log -> result DecodeError LogEvent).
Context (getTip : NS -> NS * result DirectError Z) (getChain : NS -> NS * result DirectError string) (canRetry : DirectError -> bool).
Context (lf : LogFetcher) (cap : nat).

(** What the node answers from, what lies behind the receiver, and the batches it was
    handed, which nothing reads. *)
#[local] Abbreviation Behind := (NS * ((S * world) * list WireBatch))%type.

Definition nodeTip (r : Behind) : Behind * result DirectError Z := let '(ns, n) := getTip r.1 in ((ns, r.2), n).
Definition nodeChain (r : Behind) : Behind * result DirectError string := let '(ns, n) := getChain r.1 in ((ns, r.2), n).

Definition target : Ingestion := OneReceiver (foldIngestion processor sb).

Definition askFold (context : WireContext) (r : Behind) : Behind * result DirectError (Z * option WireContext) :=
  let '(fold, n) := directExpectedFromBlock target context r.2.1 in ((r.1, (fold, r.2.2)), n).

Definition sendFold (batch : WireBatch) (r : Behind) : Behind * result DirectError IngestionResponse :=
  let '(fold, response) := directSend target batch r.2.1 in ((r.1, (fold, r.2.2 ++ [batch])), response).

Definition combined : FetchPort (RangeLogFetcher * Behind) (SendError (ProviderError:=ProviderError) (ReceiverError:=DirectError) (DecodeError:=DecodeError)) :=
  range_port config topics ranges archive reported stated clueOf tooWide ask decode nodeTip nodeChain askFold sendFold
    (fun e => default (canRetry e) (noReceiverRetryable e)).

(** A node that answers from the chain [C] under the tip [tip], though it may cut an answer
    at [cap] logs or fail a call; what is read in its refusals is about the range refused. *)
Record serves : Prop := {
  sv_config : config_ok config;
  sv_answers attempt from to logs : 0 <= from <= to -> askRange topics ranges ask attempt from to = Ok logs ->
    exists all, logs = take cap all /\ mapR decode all = Ok (logsIn from to);
  sv_clues attempt from to e c : askRange topics ranges ask attempt from to = Err e -> truthyNumber (clueOf e) = Some c -> from < c <= to;
  sv_reports e c : reported e = Some c -> c <= Z.of_nat cap;
  sv_suspect : default (defaultSuspectResultCount lf) (configuredSuspectResultCount lf) <= Z.of_nat cap;
  sv_tip ns n : (getTip ns).2 = Ok n -> n = tip;
  sv_context : lf_context lf = sb_context sb
}.

Definition keeps (r : Behind) : Prop :=
  Forall (LogFetcher.honest_batch lf logsIn (eq tip)) r.2.2 /\ (Forall reaches_fork r.2.2 -> follows r.2.1.1).

Definition acked (batch : WireBatch) (response : IngestionResponse) (r : Behind) : Prop :=
  match response with
  | IngestionAcknowledgement next _ _ _ => Forall reaches_fork r.2.2 -> folded batch next r.2.1.1
  | CursorCorrection _ => True
  end.

Lemma receive_correction store w batch store' w' expected got :
  receive processor sb store w batch = (store', w', Err (Refused (UnexpectedFromBlockError expected got))) -> 0 <= expected.
Proof.
  unfold receive. destruct (assertContext _ _) as [[]|e] eqn:Hc; [|intros [= _ _ ->]; unfold assertContext in Hc; by destruct (sameWireContext _ _)].
  destruct (assertWellFormed batch) as [[]|e] eqn:Hwf; [|apply engine_refusal in Hwf as [reason ->]; done].
  destruct (currentLastSync sb store w) as [[store1 w1] [s|e]] eqn:Hcur.
  2:{ intros [= _ _ ->]. by apply currentLastSync_refusal in Hcur. }
  destruct (generateStreamToAppend _ _ _ _) as [a|e] eqn:Hgen.
  - destruct (storeStream _ _ _ _) as [w2 []]; [|done]. by destruct (applyEventStream _ _ _ _ _) as [[store2 reports] [u|e]].
  - destruct (generateStreamToAppend_refusal _ _ _ _ _ Hgen) as [-> Hd]. intros [= _ _ <- _]. etrans; [exact Hstart|exact Hd].
Qed.

Lemma combined_node_ok : serves -> node_ok config topics ranges reported clueOf ask decode nodeTip nodeChain askFold sendFold lf cap logsIn (eq tip) keeps acked.
Proof.
  intros Hs. destruct Hs as [H1 H2 H3 H4 H5 H6 H7]. split; try done.
  - intros [ns r] Hr. unfold nodeTip. cbn [fst snd]. specialize (H6 ns). destruct (getTip ns) as [ns' n]. split; [exact Hr|].
    intros m Hm. symmetry. by apply H6.
  - intros [ns r] Hr. unfold nodeChain. cbn [fst snd]. destruct (getChain ns) as [ns' n]. exact Hr.
  - intros [ns [[store w] sent]] [Hr1 Hr2]. unfold askFold, directExpectedFromBlock. cbn [target receiverFor foldIngestion ingestion_expected fst snd] in *.
    destruct (expectedFromBlock sb store w) as [[store' w'] r] eqn:Hrun. split.
    + assert (keeps (ns, ((store', w'), sent))) as Hkeep; [|by destruct r]. split; [done|]. cbn [fst snd]. intros Hcov. destruct (Hr2 Hcov) as [P D1 D2 N s HC Htr ? ? ? ? ?].
      unfold expectedFromBlock in Hrun. rewrite (currentLastSync_resumes sb sourceHash configHash Hcontext Hretention Hresolves _ _ _ (tracks_cursor _ _ _ _ _ _ _ Htr)) in Hrun.
      injection Hrun as <- _ _. by apply (follows_intro _ P D1 D2 N s).
    + intros n c Hn. destruct r as [m|e]; [|done]. injection Hn as -> _. unfold expectedFromBlock in Hrun.
      destruct (currentLastSync sb store w) as [[store1 w1] [s|e]]; [|done]. injection Hrun as _ _ <-. etrans; [exact Hstart|]. apply getFromBlock_start.
  - intros batch [ns [[store w] sent]] [Hr1 Hr2] Hb. unfold sendFold, directSend. cbn [target receiverFor foldIngestion ingestion_receive fst snd] in *.
    pose proof (deliver_follows lf batch store w H7 Hb) as Hdeliver. pose proof (receive_correction store w batch) as Hcorrect.
    destruct (receive processor sb store w batch) as [[store' w'] r].
    assert (keeps (ns, ((store', w'), sent ++ [batch]))) as Hkeep.
    { split; cbn [fst snd]; [by apply Forall_app; split; [|constructor]|]. intros [Hcov Hlast]%Forall_app. apply Forall_inv in Hlast. by destruct (Hdeliver (Hr2 Hcov) Hlast). }
    destruct r as [res|e].
    + split; [exact Hkeep|]. intros response [= <-]. cbn [acked fst snd]. intros [Hcov Hlast]%Forall_app. apply Forall_inv in Hlast.
      destruct (Hdeliver (Hr2 Hcov) Hlast) as [_ Hfolded]. by apply Hfolded.
    + destruct e as [[]| | | | |]; (split; [exact Hkeep|]); intros response [=]; subst response. by eapply Hcorrect.
Qed.

End Deployment.
End Combined.
