(* ===== verification/Writer.v ===== *)
(** * The stream's one writer

    [StreamWriter] of [packages/core/src/stream/writer.ts] over the tables of
    [Emissions.v]: the deployment appends what it fetched from the position the stream
    itself records, and offers the delta to the folds.  Then what any run of accepted
    batches leaves stored, and what a generation that replays it holds.

    A stored row has no decoded half; [absent] stands in for it where the code casts a
    stored log to a [LogEvent], and no theorem depends on what it is. *)
From S2P Require Import Prelude JsMap Types Stream Reorg Replay Invalidation Entities StoreSpec MutationContext EntityProcessor.
From S2P Require Import Json Cursor StreamBuilder Emissions Feed Consumer Chunks Recode Rebuild Rebuilt.

(** ** The writer *)
Record StreamDelta : Type := mkDelta {
  delta_stream : string;
  delta_eventStream : list LogEvent;
  delta_lastSync : LastSync
}.

Record StreamWriter (world : Type) : Type := mkWriter {
  sw_context : WireContext;
  sw_defaultFromBlock : Z;
  sw_finality : Z;
  sw_streamDigest : string;
  sw_sourceHashes : list SourceHashEntry;
  sw_cursor : string -> Z -> world -> option StreamCursorRead;
  sw_appendEmissions : port world EmissionWrite;
  sw_recordReorg : option (port world ReorgDetection);
  sw_deliver : option (port world StreamDelta)
}.
Arguments sw_context {_}. Arguments sw_defaultFromBlock {_}. Arguments sw_finality {_}. Arguments sw_streamDigest {_}.
Arguments sw_sourceHashes {_}. Arguments sw_cursor {_}. Arguments sw_appendEmissions {_}. Arguments sw_recordReorg {_}.
Arguments sw_deliver {_}.

Inductive WriterError : Type :=
  | BatchRefused (e : EngineError)
  | StreamHoleError (stream : string) (coveredThrough appendingFrom : Z)
  | EmissionsNotAppended
  | DeltaNotDelivered.

Section Writer.
Context {world : Type} (sw : StreamWriter world) (absent : Decoded).

(** [as unknown as LogEvent]: a stored log where the engine expects a decoded one. *)
Definition castLog (stored : FeedEntry) : LogEvent := decodedLog (fun _ _ _ => absent) stored.

Definition lastSyncOf (stored : option StreamCursorRead) : LastSync :=
  let ctx := mkContext (wire_source (sw_context sw)) (wire_config (sw_context sw)) "" in
  match stored with
  | None => mkSync ctx 0 0 0 []
  | Some stored =>
      mkSync ctx (read_latestBlock stored) (read_lastFromBlock stored) (read_lastToBlock stored)
        (windowOfStoredStream (castLog <$> read_tail stored) (read_lastToBlock stored) (sw_finality sw))
  end.

Definition readPosition (w : world) : option StreamCursorRead := sw_cursor sw (sw_streamDigest sw) (sw_finality sw) w.

Definition streamLastSync (w : world) : LastSync := lastSyncOf (readPosition w).

(** Reading it writes nothing. *)
Definition expectedFromBlock (w : world) : Z :=
  getFromBlock (streamLastSync w) (sw_defaultFromBlock sw) (sw_finality sw).

Definition writeOf (emissions : list LogEvent) (newLastSync : LastSync) : EmissionWrite :=
  mkEmissionWrite (sw_streamDigest sw)
    (mkCoverage (sw_sourceHashes sw) (wire_config (sw_context sw)) (latestBlock newLastSync) (lastFromBlock newLastSync)
       (lastToBlock newLastSync)) emissions.

(** A batch that would leave a hole above the stream is refused; an empty one is still
    handed over. *)
Definition storeStream (stored : option StreamCursorRead) (emissions : list LogEvent) (newLastSync : LastSync) (w : world)
    : world * result WriterError unit :=
  if match stored with
     | Some stored => bool_decide (read_lastToBlock stored + 1 < lastFromBlock newLastSync)
     | None => false
     end
  then (w, Err (StreamHoleError (sw_streamDigest sw) (default 0 (read_lastToBlock <$> stored)) (lastFromBlock newLastSync)))
  else
    let '(w, stored) := sw_appendEmissions sw (writeOf emissions newLastSync) w in
    (w, if stored then Ok tt else Err EmissionsNotAppended).

(** Best effort. *)
Definition noteReorg (reorg : ReorgDetection) (w : world) : world :=
  match sw_recordReorg sw with None => w | Some record => (record reorg w).1 end.

Definition deliverDelta (delta : StreamDelta) (w : world) : world * bool :=
  match sw_deliver sw with None => (w, true) | Some deliver => deliver delta w end.

Definition receive (w : world) (batch : WireBatch) : world * result WriterError IngestionResult :=
  if sameWireContext (Some (sw_context sw)) (batch_context batch) then
    match assertWellFormed batch with
    | Err e => (w, Err (BatchRefused e))
    | Ok _ =>
    let stored := readPosition w in
    match generateStreamToAppend (lastSyncOf stored) (sw_defaultFromBlock sw) (batch_logs batch)
        (mkBounds (batch_latestBlock batch) (batch_fromBlock batch) (batch_toBlock batch) (sw_finality sw)) with
    | Err e => (w, Err (BatchRefused e))
    | Ok a =>
    match storeStream stored (eventStream a) (newLastSync a) w with
    | (w, Err e) => (w, Err e)
    | (w, Ok _) =>
        let w := match reorg a with Some r => noteReorg r w | None => w end in
        match deliverDelta (mkDelta (sw_streamDigest sw) (eventStream a) (newLastSync a)) w with
        | (w, false) => (w, Err DeltaNotDelivered)
        | (w, true) =>
            (w, Ok (mkIngestion
              (length (filter (fun e => removed e = false) (eventStream a)))
              (length (filter (fun e => removed e = true) (eventStream a)))
              (eventStream a) (newLastSync a)
              (getFromBlock (newLastSync a) (sw_defaultFromBlock sw) (sw_finality sw)) (reorg a)))
        end
    end end end
  else (w, Err (BatchRefused (WireContextMismatchError (sw_context sw) (batch_context batch)))).
End Writer.

(** ** A deployment: the writer over the stored tables *)

(** What the node says of a log, whole: the EVM's four topics at most. *)
Record raw_half (e : LogEvent) : Prop := {
  half_data : data e <> "";
  half_address : address e <> "";
  half_topics : (length (topics e) <= 4)%nat
}.

Section Deployed.
Context {world : Type} (sw : StreamWriter world) (absent : Decoded) (db_of : world -> EmissionDb) (indexer : string).

(** The two ends of the stream are the tables, and nothing the writer calls besides
    touches them; an offer to the folds never fails. *)
Class Deployment : Prop := {
  deployed_cursor stream f w : sw_cursor sw stream f w = streamCursorSourceOn (db_of w) indexer stream f;
  deployed_append write w :
    emissionAppenderFor indexer write (db_of w)
    = (db_of (sw_appendEmissions sw write w).1, (sw_appendEmissions sw write w).2);
  deployed_record record r w : sw_recordReorg sw = Some record -> db_of (record r w).1 = db_of w;
  deployed_deliver deliver delta w :
    sw_deliver sw = Some deliver -> db_of (deliver delta w).1 = db_of w /\ (deliver delta w).2 = true
}.
Context `{!Deployment}.

Let d := sw_defaultFromBlock sw.
Let f := sw_finality sw.
Let stream := sw_streamDigest sw.
Let undecoded : string -> list string -> string -> Decoded := fun _ _ _ => absent.

(** The log a stream holds, and the chain it leaves applied. *)
Record written (w : world) (gs : list StreamGroup) (K : list EventBlock) : Prop := {
  written_rows : rows_wf (rows_of (db_of w) indexer stream);
  written_feed : feedEntryOf <$> rows_of (db_of w) indexer stream = feed_of_log <$> group_events gs;
  written_live : live_entries (rows_of (db_of w) indexer stream) = foldl live_step [] (group_events gs);
  written_cycles : cycles d [] gs K;
  written_raw : Forall (fun g => regroup undecoded g = g) gs;
  written_half : Forall raw_half (group_events gs);
  written_claim :
    match readStreamCoverage (db_of w) indexer stream with
    | None => gs = [] /\ K = []
    | Some cov => cov_startBlock cov = d /\ d <= cov_lastToBlock cov <= cov_latestBlock cov /\ 0 < cov_latestBlock cov
        /\ Forall (fun g => number (group_block g) <= cov_lastToBlock cov) gs
    end
}.

Lemma regrouped gs : Forall (fun g => regroup undecoded g = g) gs -> regroup undecoded <$> gs = gs.
Proof. intros Hg. rewrite <- (list_fmap_id gs) at 2. apply Forall_fmap_ext_1. eapply Forall_impl; [exact Hg|]. done. Qed.

Lemma written_blocks w gs K b : written w gs K -> b ∈ K -> reblock undecoded b = b /\ appliedGroup b ∈ gs.
Proof.
  intros Hw Hb. pose proof (cycles_applied _ _ _ _ (written_cycles _ _ _ Hw) Hb) as Hin. split; [|done].
  pose proof (written_raw _ _ _ Hw) as Hr. rewrite Forall_forall in Hr. by injection (Hr _ Hin).
Qed.

Lemma written_chain w gs K : written w gs K -> reblock undecoded <$> K = K.
Proof.
  intros Hw. rewrite <- (list_fmap_id K) at 2. apply list_fmap_ext. intros i b Hb%list_elem_of_lookup_2.
  by apply (written_blocks w gs K).
Qed.

(** What the writer reads back, decoded as nothing, is the log's own tail. *)
Lemma castLog_feed es :
  Forall raw_half es -> castLog absent <$> (feed_of_log <$> es) = redecode undecoded <$> es.
Proof.
  intros Hes. rewrite <- list_fmap_compose. apply list_fmap_ext. intros i e He%list_elem_of_lookup_2.
  rewrite Forall_forall in Hes. destruct (Hes e He) as [_ _ Ht]. unfold compose, castLog, decodedLog, redecode. simpl.
  by rewrite take_ge.
Qed.

Lemma raw_from_block gs from :
  Forall (fun g => regroup undecoded g = g) gs ->
  redecode undecoded <$> group_events (from_block from gs) = group_events (from_block from gs).
Proof.
  intros Hg. rewrite <- regroup_events, regrouped; [done|]. eapply Forall_sublist; [apply sublist_filter|exact Hg].
Qed.

Lemma stored_tail w gs K from :
  written w gs K ->
  castLog absent <$> readStoredStream (db_of w) indexer stream from = group_events (from_block from gs).
Proof.
  intros Hw. assert (Forall level gs) as Hl by (eapply cycles_level; [apply chain_wf_nil|apply Hw]).
  pose proof (written_rows _ _ _ Hw) as [Ha _].
  assert (readStoredStream (db_of w) indexer stream from = feed_of_log <$> group_events (from_block from gs)) as ->.
  { unfold readStoredStream.
    rewrite sort_on_id by (eapply ascending_weaken, ascending_sublist; [apply sublist_filter|exact Ha]).
    pose proof (filter_levels (fun n => from <= n) gs Hl) as Hev. unfold from_block. cbv beta in Hev. rewrite <- Hev.
    set (Q := fun x : FeedEntry => from <= entry_blockNumber (feed_entry x)).
    assert (forall x, Decision (Q x)) as HQ by (intros x; unfold Q; apply _).
    rewrite <- (filter_pairs (fun e => from <= blockNumber e) Q feed_of_log) by done.
    rewrite <- (written_feed _ _ _ Hw). symmetry. by apply filter_pairs. }
  rewrite castLog_feed; [by apply raw_from_block, Hw|].
  pose proof (filter_levels (fun n => from <= n) gs Hl) as Hev. cbv beta in Hev. unfold from_block. rewrite <- Hev.
  eapply Forall_sublist; [apply sublist_filter|apply Hw].
Qed.

Lemma written_tail_chain w gs K from :
  written w gs K -> cycles (from - 1 + 1) [] (from_block from gs) (over (from - 1) K).
Proof.
  intros Hw. pose proof (cycles_above _ _ _ _ (from - 1) [] (written_cycles _ _ _ Hw) chain_wf_nil chain_wf_nil) as Hc.
  assert (from_block from gs = above (from - 1) gs) as -> by (apply filter_ext_in; intros g _; lia).
  apply Hc; [constructor|..]; by intros b x ?%not_elem_of_nil.
Qed.

(** The position the writer resumes from is a resume point of its stream. *)
Lemma written_position w gs K :
  written w gs K -> 0 <= f ->
  let s := streamLastSync sw absent w in
  holds d f s K /\ resync undecoded s = s
  /\ match readStreamCoverage (db_of w) indexer stream with
     | None => latestBlock s = 0 /\ lastToBlock s = 0
     | Some cov => latestBlock s = cov_latestBlock cov /\ lastToBlock s = cov_lastToBlock cov
     end.
Proof.
  intros Hw Hf s. pose proof (written_claim _ _ _ Hw) as Hclaim. pose proof (written_cycles _ _ _ Hw) as Hc.
  assert (chain_wf K) as HK by (eapply cycles_chain, Hc; apply chain_wf_nil).
  unfold s, streamLastSync, readPosition. rewrite deployed_cursor. unfold streamCursorSourceOn. fold stream f.
  destruct (readStreamCoverage (db_of w) indexer stream) as [cov|].
  2:{ destruct Hclaim as [-> ->]. cbn [lastSyncOf]. split_and!; [|done|done|done]. split; [done|done|]. by intros b ?%not_elem_of_nil. }
  destruct Hclaim as (_ & Hto & Htip & Hle). cbn [lastSyncOf read_latestBlock read_lastFromBlock read_lastToBlock read_tail].
  rewrite (stored_tail w gs K) by done. set (T := cov_lastToBlock cov) in *. set (from := Z.max 0 (T - f)).
  change (sw_finality sw) with f.
  rewrite (window_of_cycles _ _ _ T f (written_tail_chain w gs K from Hw)).
  assert (within T f (over (from - 1) K) = within T f K) as Hwin.
  { unfold within, over. rewrite list_filter_filter. apply filter_ext_in. intros b Hb. pose proof (chain_wf_blocks _ HK) as Hwf.
    rewrite Forall_forall in Hwf. pose proof (block_wf_number _ (Hwf b Hb)). unfold from. lia. }
  rewrite Hwin. split_and!; [|..|done|done].
  - split; [done|apply sublist_filter|]. intros b Hb Hfrom. cbn [unconfirmedBlocks]. apply elem_of_filter_intro; [|done].
    assert (number b <= T) as HbT.
    { rewrite Forall_forall in Hle. by apply (Hle (appliedGroup b)), (written_blocks w gs K). }
    revert Hfrom. unfold getFromBlock. cbn [latestBlock lastToBlock]. case_decide; lia.
  - unfold resync. cbn [context latestBlock lastFromBlock lastToBlock unconfirmedBlocks]. f_equal.
    rewrite <- (list_fmap_id (within T f K)) at 2. apply list_fmap_ext. intros i b Hb%list_elem_of_lookup_2.
    apply list_elem_of_filter in Hb as [_ Hb]. by apply (written_blocks w gs K).
Qed.

(** A batch that carries the whole range of a chain, decoded in whatever way. *)
Definition honestBatch (bounds : FetchBounds) (C : list EventBlock) : WireBatch :=
  mkBatch (Some (sw_context sw)) (newLastFromBlock bounds) (newLastToBlock bounds) (newLatestBlock bounds) (fetched_logs bounds C).

(** What the cycle concludes, from the chain as the node says it. *)
Lemma written_append w gs P D N C bounds :
  written w gs (P ++ D) -> finality bounds = f -> honest_fetch d (streamLastSync sw absent w) bounds P D N ->
  reblock undecoded <$> C = P ++ N ->
  exists a, generateStreamToAppend (streamLastSync sw absent w) d (fetched_logs bounds C) bounds = Ok a
    /\ redecode undecoded <$> eventStream a = retractions_of D ++ events_of (upto (newLastToBlock bounds) N)
    /\ reorg a = (fun x => mkReorg (causeIn N x) (number x) (hash x)) <$> head D
    /\ latestBlock (newLastSync a) = newLatestBlock bounds /\ lastToBlock (newLastSync a) = newLastToBlock bounds
    /\ lastFromBlock (newLastSync a) = newLastFromBlock bounds.
Proof.
  intros Hw Hfin Hfetch HC. assert (0 <= f) as Hf by (pose proof (advancing_finality _ _ _ (honest_advancing _ _ _ _ _ _ Hfetch)); lia).
  destruct (written_position w gs (P ++ D) Hw Hf) as (Hholds & Hresync & _). rewrite <- Hfin in Hholds.
  destruct (append_honest _ _ _ _ _ _ Hholds Hfetch) as (a0 & Ha0 & Hev & Hreorg & Hlat & Hto & _ & _).
  assert (fetched_logs bounds (P ++ N) = redecode undecoded <$> fetched_logs bounds C) as Hlogs.
  { unfold fetched_logs. rewrite <- HC, <- events_of_reblock. f_equal. unfold blocks_in. by apply filter_reblock. }
  pose proof (generateStreamToAppend_redecode undecoded (streamLastSync sw absent w) d (fetched_logs bounds C) bounds) as Hre.
  rewrite Hresync, <- Hlogs, Ha0 in Hre.
  assert (forall a, generateStreamToAppend (streamLastSync sw absent w) d (fetched_logs bounds C) bounds = Ok a ->
    lastFromBlock (newLastSync a) = newLastFromBlock bounds) as Hfrom.
  { intros a. unfold generateStreamToAppend. case_decide; [done|]. destruct (findReorg _ _ _ _ _). by intros [= <-]. }
  destruct (generateStreamToAppend _ d (fetched_logs bounds C) bounds) as [a|e]; [|done].
  cbn [fmap result_fmap] in Hre. injection Hre as ->. cbn [eventStream newLastSync reorg resync latestBlock lastToBlock] in *.
  exists a. split_and!; auto.
Qed.

Definition cycle_groups (to : Z) (D N : list EventBlock) : list StreamGroup :=
  (retractedGroup <$> D) ++ (appliedGroup <$> upto to N).

Lemma feed_of_redecode (es : list LogEvent) : feed_of_log <$> (redecode undecoded <$> es) = feed_of_log <$> es.
Proof. rewrite <- list_fmap_compose. by apply list_fmap_ext. Qed.

Lemma written_half_of w gs K b : written w gs K -> b ∈ K -> Forall raw_half (events b).
Proof.
  intros Hw Hb. destruct (written_blocks w gs K b Hw Hb) as [_ Hin]. pose proof (written_half _ _ _ Hw) as Hh.
  apply Forall_forall. intros e He. rewrite Forall_forall in Hh. apply Hh. apply elem_of_concat.
  exists (events b). split; [done|]. by apply (list_elem_of_fmap_2 (fun g => events (group_block g)) gs (appliedGroup b)).
Qed.

Lemma fetched_block C c b :
  reblock undecoded <$> C = c -> Forall raw_half (events_of C) -> b ∈ c -> reblock undecoded b = b /\ Forall raw_half (events b).
Proof.
  intros <- Hh (x & -> & Hx)%list_elem_of_fmap. split; [apply reblock_twice|]. cbn [reblock events]. apply Forall_fmap, Forall_forall.
  intros e He. rewrite Forall_forall in Hh. destruct (Hh e) as [H1 H2 H3]; [|by split].
  apply elem_of_concat. exists (events x). split; [done|]. by apply list_elem_of_fmap_2.
Qed.

Lemma retractions_half D : (forall b, b ∈ D -> Forall raw_half (events b)) -> Forall raw_half (retractions_of D).
Proof.
  intros HD. unfold retractions_of. apply Forall_fmap, events_of_Forall. intros b Hb. eapply Forall_impl; [by apply HD|].
  intros e [H1 H2 H3]. by split.
Qed.

(** The tables after the append. *)
Lemma written_appended w gs P D N C bounds a db' :
  written w gs (P ++ D) -> finality bounds = f -> honest_fetch d (streamLastSync sw absent w) bounds P D N ->
  reblock undecoded <$> C = P ++ N -> Forall raw_half (events_of C) ->
  lastToBlock (streamLastSync sw absent w) <= newLastToBlock bounds ->
  redecode undecoded <$> eventStream a = retractions_of D ++ events_of (upto (newLastToBlock bounds) N) ->
  latestBlock (newLastSync a) = newLatestBlock bounds -> lastToBlock (newLastSync a) = newLastToBlock bounds ->
  lastFromBlock (newLastSync a) = newLastFromBlock bounds ->
  appendEmissions (db_of w) (mkAppend indexer stream (write_coverage (writeOf sw (eventStream a) (newLastSync a))) (eventStream a)) = Some db' ->
  forall w', db_of w' = db' ->
  written w' (gs ++ cycle_groups (newLastToBlock bounds) D N) (P ++ upto (newLastToBlock bounds) N).
Proof.
  intros Hw Hfin Hfetch HC Hhalf Hgrow Hev Hlat Hto Hfrom Happ w' Hdb.
  destruct (append_spec (db_of w) indexer stream (write_coverage (writeOf sw (eventStream a) (newLastSync a))) (eventStream a))
    as (db1 & Happ1 & Hrows & Hcov & _). rewrite Happ in Happ1. injection Happ1 as <-.
  pose proof (honest_advancing _ _ _ _ _ _ Hfetch) as [Hadv Hrange [Htip _] Hf0].
  rewrite Hfin in Hadv, Hf0.
  assert (d <= newLastFromBlock bounds) as Hd by (rewrite Hadv; apply getFromBlock_ge_default).
  destruct (written_position w gs (P ++ D) Hw Hf0) as (_ & _ & Hpos).
  assert (group_events (gs ++ cycle_groups (newLastToBlock bounds) D N)
    = group_events gs ++ (redecode undecoded <$> eventStream a)) as Hgs.
  { unfold cycle_groups. by rewrite !group_events_app, group_events_retracted, group_events_applied, Hev. }
  split.
  - rewrite Hdb, Hrows. apply stored_wf; [apply Hw|apply high_water_bounds].
  - by rewrite Hdb, Hrows, stored_feed, (written_feed _ _ _ Hw), Hgs, fmap_app, feed_of_redecode.
  - rewrite Hdb, Hrows, stored_live, (written_live _ _ _ Hw), Hgs, foldl_app, live_redecode; [done|apply Hw|apply high_water_bounds|].
    apply Forall_forall. by intros row [? _]%list_elem_of_filter.
  - apply cycles_turn; [apply Hw|..].
    + eapply chain_wf_sublist; [|apply (honest_chain _ _ _ _ _ _ Hfetch)]. apply sublist_app; [done|apply upto_sublist].
    + intros x y Hx [_ Hy]%list_elem_of_filter. by apply (honest_fork _ _ _ _ _ _ Hfetch).
    + eapply Forall_sublist; [apply sublist_app; [done|apply upto_sublist]|].
      eapply Forall_impl; [apply (honest_depth _ _ _ _ _ _ Hfetch)|]. simpl. lia.
  - apply Forall_app. split; [apply Hw|]. apply Forall_app. split; apply Forall_fmap, Forall_forall; intros b Hb; unfold compose.
    + rewrite reblock_retracted. f_equal. apply (written_blocks w gs (P ++ D)); [done|]. apply elem_of_app. by right.
    + rewrite reblock_applied. f_equal. apply list_elem_of_filter in Hb as [_ Hb].
      apply (fetched_block C (P ++ N)); [done|done|]. apply elem_of_app. by right.
  - rewrite Hgs. apply Forall_app. split; [apply Hw|]. rewrite Hev. apply Forall_app. split.
    + apply retractions_half. intros b Hb. apply (written_half_of w gs (P ++ D)); [done|]. apply elem_of_app. by right.
    + apply events_of_Forall. intros b [_ Hb]%list_elem_of_filter. apply (fetched_block C (P ++ N)); [done|done|]. apply elem_of_app. by right.
  - rewrite Hdb, Hcov. pose proof (written_claim _ _ _ Hw) as Hclaim.
    unfold claimed. cbn [cov_startBlock cov_lastToBlock cov_latestBlock write_coverage writeOf coverage_latestBlock coverage_lastFromBlock coverage_lastToBlock].
    rewrite Hlat, Hto, Hfrom. split_and!; try lia.
    + destruct (readStreamCoverage (db_of w) indexer stream) as [cov|]; [apply Hclaim|]. rewrite Hadv. unfold getFromBlock.
      destruct Hpos as [-> _]. done.
    + apply Forall_app. split.
      * destruct (readStreamCoverage (db_of w) indexer stream) as [cov|]; [|destruct Hclaim as [-> _]; constructor].
        destruct Hclaim as (_ & _ & _ & Hle), Hpos as [_ HT]. eapply Forall_impl; [exact Hle|]. simpl. lia.
      * unfold cycle_groups. apply Forall_app. split; apply Forall_fmap, Forall_forall; intros b Hb; cbn.
        -- destruct (written_blocks w gs (P ++ D) b Hw) as [_ Hin]; [apply elem_of_app; by right|].
           destruct (readStreamCoverage (db_of w) indexer stream) as [cov|]; [|destruct Hclaim as [-> _]; by apply not_elem_of_nil in Hin].
           destruct Hclaim as (_ & _ & _ & Hle), Hpos as [_ HT]. rewrite Forall_forall in Hle. specialize (Hle _ Hin). simpl in Hle. lia.
        -- by apply list_elem_of_filter in Hb as [? _].
Qed.

Hypothesis Hstart : 0 <= sw_defaultFromBlock sw.

Lemma redecode_filter (v : bool) (es : list LogEvent) :
  length (filter (fun e => removed e = v) es) = length (filter (fun e => removed e = v) (redecode undecoded <$> es)).
Proof. by rewrite (filter_pairs (fun e => removed e = v) (fun e => removed e = v)), length_fmap. Qed.

(** The append of an accepted batch: no hole, and the tables move. *)
Lemma storeStream_appends w gs K a db' :
  written w gs K -> lastFromBlock (newLastSync a) = getFromBlock (streamLastSync sw absent w) d f ->
  appendEmissions (db_of w) (mkAppend indexer stream (write_coverage (writeOf sw (eventStream a) (newLastSync a))) (eventStream a)) = Some db' ->
  exists w1, storeStream sw (readPosition sw w) (eventStream a) (newLastSync a) w = (w1, Ok tt) /\ db_of w1 = db'.
Proof.
  intros Hw Hfrom Happ. unfold storeStream.
  assert (match readPosition sw w with Some stored => bool_decide (read_lastToBlock stored + 1 < lastFromBlock (newLastSync a)) | None => false end = false) as ->.
  { rewrite Hfrom. unfold streamLastSync, readPosition. rewrite deployed_cursor. unfold streamCursorSourceOn. fold stream.
    pose proof (written_claim _ _ _ Hw) as Hclaim. destruct (readStreamCoverage (db_of w) indexer stream) as [cov|]; [|done].
    apply bool_decide_eq_false. cbn [lastSyncOf read_lastToBlock read_latestBlock read_lastFromBlock]. unfold getFromBlock.
    cbn [latestBlock lastToBlock]. case_decide; lia. }
  pose proof (deployed_append (writeOf sw (eventStream a) (newLastSync a)) w) as Hp. unfold emissionAppenderFor in Hp.
  cbn [write_stream write_emissions writeOf] in Hp. fold stream in Hp. rewrite Happ in Hp. injection Hp as Hdb Hok.
  destruct (sw_appendEmissions sw (writeOf sw (eventStream a) (newLastSync a)) w) as [w1 ok]. simpl in *. subst. by eexists.
Qed.

Lemma noteReorg_db r w : db_of (match r with Some r => noteReorg sw r w | None => w end) = db_of w.
Proof.
  destruct r as [r|]; [|done]. unfold noteReorg. destruct (sw_recordReorg sw) as [record|] eqn:Hr; [|done]. by apply deployed_record.
Qed.

Lemma deliverDelta_db delta w : exists w', deliverDelta sw delta w = (w', true) /\ db_of w' = db_of w.
Proof.
  unfold deliverDelta. destruct (sw_deliver sw) as [deliver|] eqn:Hd; [|by exists w].
  destruct (deployed_deliver deliver delta w Hd) as [Hdb Hok]. destruct (deliver delta w) as [w' ok]. simpl in *. subst. by exists w'.
Qed.

(** One honest batch. *)
Lemma receive_written w gs P D N C bounds :
  let to := newLastToBlock bounds in
  written w gs (P ++ D) -> finality bounds = f -> honest_fetch d (streamLastSync sw absent w) bounds P D N ->
  reblock undecoded <$> C = P ++ N -> Forall raw_half (events_of C) -> lastToBlock (streamLastSync sw absent w) <= to ->
  exists w' res, receive sw absent w (honestBatch bounds C) = (w', Ok res)
    /\ redecode undecoded <$> ingestion_emissions res = retractions_of D ++ events_of (upto to N)
    /\ applied res = length (events_of (upto to N)) /\ retracted res = length (events_of D)
    /\ ingestion_reorg res = (fun x => mkReorg (causeIn N x) (number x) (hash x)) <$> head D
    /\ ingestion_expectedFromBlock res = expectedFromBlock sw absent w'
    /\ written w' (gs ++ cycle_groups to D N) (P ++ upto to N).
Proof.
  intros to Hw Hfin Hfetch HC Hhalf Hgrow.
  destruct (written_append w gs P D N C bounds Hw Hfin Hfetch HC) as (a & Ha & Hev & Hreorg & Hlat & Hto & Hfrom).
  destruct (append_spec (db_of w) indexer stream (write_coverage (writeOf sw (eventStream a) (newLastSync a))) (eventStream a))
    as (db' & Happ & _ & Hcov & _).
  pose proof (honest_advancing _ _ _ _ _ _ Hfetch) as [Hadv Hrange [Htip _] Hf0]. rewrite Hfin in Hadv, Hf0.
  unfold receive, honestBatch. cbn [batch_context batch_logs batch_latestBlock batch_fromBlock batch_toBlock].
  rewrite sameWireContext_refl, fetched_logs_well_formed; [|..].
  2:{ apply (chain_wf_reblock undecoded C). rewrite HC. apply (honest_chain _ _ _ _ _ _ Hfetch). }
  2:{ pose proof (getFromBlock_ge_default (streamLastSync sw absent w) d f). unfold d in *. lia. }
  2:{ lia. }
  replace (mkBounds (newLatestBlock bounds) (newLastFromBlock bounds) (newLastToBlock bounds) (sw_finality sw))
    with bounds by (destruct bounds; cbn in *; subst; done).
  change (lastSyncOf sw absent (readPosition sw w)) with (streamLastSync sw absent w). fold d. rewrite Ha.
  destruct (storeStream_appends w gs (P ++ D) a db' Hw) as (w1 & -> & Hdb1); [by rewrite Hfrom|done|].
  cbv zeta. pose proof (noteReorg_db (reorg a) w1) as Hdb2.
  destruct (deliverDelta_db (mkDelta (sw_streamDigest sw) (eventStream a) (newLastSync a))
    (match reorg a with Some r => noteReorg sw r w1 | None => w1 end)) as (w3 & -> & Hdb3).
  assert (db_of w3 = db') as Hdb by congruence.
  assert (written w3 (gs ++ cycle_groups to D N) (P ++ upto to N)) as Hw3 by (by eapply written_appended).
  eexists w3, _. split; [done|]. cbn [ingestion_emissions applied retracted ingestion_reorg ingestion_expectedFromBlock].
  assert (Forall block_wf (upto to N)) as Hwf.
  { pose proof (chain_wf_blocks _ (honest_chain _ _ _ _ _ _ Hfetch)) as [_ HN]%Forall_app. eapply Forall_sublist; [apply upto_sublist|done]. }
  destruct (stream_counts D (upto to N) Hwf) as [Happlied Hretracted]. pose proof Hev as Hev'. fold to in Hev'.
  split_and!; try done.
  - by rewrite redecode_filter, Hev', Happlied.
  - rewrite redecode_filter, Hev', Hretracted. apply length_fmap.
  - unfold expectedFromBlock. destruct (written_position w3 _ _ Hw3 Hf0) as (_ & _ & Hpos). rewrite Hdb, Hcov in Hpos.
    cbn [cov_latestBlock cov_lastToBlock claimed write_coverage writeOf coverage_latestBlock coverage_lastToBlock] in Hpos.
    destruct Hpos as [Hl HT]. unfold getFromBlock. by rewrite Hl, HT.
Qed.

(** A run of the writer: batches it accepted, and whatever else happens to the world that
    leaves this stream's rows and claim alone. *)
Inductive writing : world -> list StreamGroup -> list EventBlock -> Prop :=
  | writing_start w :
      rows_of (db_of w) indexer stream = [] -> readStreamCoverage (db_of w) indexer stream = None -> writing w [] []
  | writing_batch w gs P D N C bounds w' res :
      writing w gs (P ++ D) -> finality bounds = f -> honest_fetch d (streamLastSync sw absent w) bounds P D N ->
      reblock undecoded <$> C = P ++ N -> Forall raw_half (events_of C) ->
      lastToBlock (streamLastSync sw absent w) <= newLastToBlock bounds ->
      receive sw absent w (honestBatch bounds C) = (w', Ok res) ->
      writing w' (gs ++ cycle_groups (newLastToBlock bounds) D N) (P ++ upto (newLastToBlock bounds) N)
  | writing_elsewhere w gs K w' :
      writing w gs K -> rows_of (db_of w') indexer stream = rows_of (db_of w) indexer stream ->
      readStreamCoverage (db_of w') indexer stream = readStreamCoverage (db_of w) indexer stream -> writing w' gs K.

Lemma writing_written w gs K : writing w gs K -> written w gs K.
Proof.
  induction 1 as [w Hrows Hcov|w gs P D N C bounds w' res Hrun IH Hfin Hfetch HC Hhalf Hgrow Hrec|w gs K w' Hrun IH Hrows Hcov].
  - split; rewrite ?Hrows, ?Hcov; try done; try constructor; constructor.
  - destruct (receive_written w gs P D N C bounds IH Hfin Hfetch HC Hhalf Hgrow) as (w1 & res1 & Hrec1 & _ & _ & _ & _ & _ & Hw1).
    rewrite Hrec in Hrec1. by injection Hrec1 as <- <-.
  - destruct IH as [H1 H2 H3 H4 H5 H6 H7]. split; by rewrite ?Hrows, ?Hcov.
Qed.

(** The log, decoded by whoever reads it. *)
Lemma written_stored_log decodeOnto rb known w gs K cov :
  rb_stream rb = stream -> rb_defaultFromBlock rb = d -> 1 <= d -> written w gs K ->
  readStreamCoverage (db_of w) indexer stream = Some cov -> heighted gs -> applied_known known (regroup decodeOnto <$> gs) ->
  stored_log decodeOnto rb known (db_of w) indexer (regroup decodeOnto <$> gs) (reblock decodeOnto <$> K) cov.
Proof.
  intros Hs Hd H1 Hw Hcov Hh Hk. pose proof (written_claim _ _ _ Hw) as Hclaim. rewrite Hcov in Hclaim.
  destruct Hclaim as (Hc0 & Hcd & Hct & Hle). split; rewrite ?Hs, ?Hd.
  - apply (written_rows _ _ _ Hw).
  - rewrite (written_feed _ _ _ Hw), regroup_events, <- list_fmap_compose. by apply list_fmap_ext.
  - done.
  - lia.
  - lia.
  - by apply (cycles_reblock decodeOnto _ [] gs K), Hw.
  - intros g g' (x & -> & Hx)%list_elem_of_fmap (x' & -> & Hx')%list_elem_of_fmap. exact (Hh x x' Hx Hx').
  - apply Forall_fmap. pose proof (cycles_numbers _ _ _ _ (written_cycles _ _ _ Hw)) as Hn. rewrite Forall_forall in *.
    intros g Hg. specialize (Hn g Hg). specialize (Hle g Hg). simpl in *. lia.
  - rewrite regroup_events. apply Forall_fmap. eapply Forall_impl; [apply (written_half _ _ _ Hw)|]. intros e [Ha Hb Hc]. by split.
  - done.
Qed.

(** C7. One honest batch is accepted, whatever ABI decoded it: what is emitted takes back
    exactly the dead branch and applies exactly the new one, the counts and the reorg are
    the real ones, the next range is asked for from the stream's own new position, and
    the tables hold the log with this cycle at its end. *)
Theorem writer_appends w gs P D N C bounds :
  let to := newLastToBlock bounds in
  written w gs (P ++ D) -> finality bounds = f -> honest_fetch d (streamLastSync sw absent w) bounds P D N ->
  reblock undecoded <$> C = P ++ N -> Forall raw_half (events_of C) -> lastToBlock (streamLastSync sw absent w) <= to ->
  exists w' res, receive sw absent w (honestBatch bounds C) = (w', Ok res)
    /\ redecode undecoded <$> ingestion_emissions res = retractions_of D ++ events_of (upto to N)
    /\ applied res = length (events_of (upto to N)) /\ retracted res = length (events_of D)
    /\ ingestion_reorg res = (fun x => mkReorg (causeIn N x) (number x) (hash x)) <$> head D
    /\ ingestion_expectedFromBlock res = expectedFromBlock sw absent w'
    /\ written w' (gs ++ cycle_groups to D N) (P ++ upto to N).
Proof. apply receive_written. Qed.

(** C6. After any run of accepted batches the rows are a log whose live rows are the chain's
    own entries, and the position read back off them, window and all, is a resume point
    of that chain: nothing else has to be remembered between two batches. *)
Theorem stream_is_log w gs K :
  writing w gs K -> 0 <= f ->
  rows_wf (rows_of (db_of w) indexer stream)
  /\ feedEntryOf <$> rows_of (db_of w) indexer stream = feed_of_log <$> group_events gs
  /\ live_entries (rows_of (db_of w) indexer stream) = entry_of_log <$> events_of K
  /\ cycles d [] gs K /\ holds d f (streamLastSync sw absent w) K.
Proof.
  intros Hrun%writing_written Hf. pose proof (written_position w gs K Hrun Hf) as (Hholds & _).
  split_and!; [apply Hrun|apply Hrun| |apply Hrun|done].
  rewrite (written_live _ _ _ Hrun). eapply live_cycles, Hrun.
Qed.
End Deployed.

(** ** From the node to a generation that fetched nothing *)
Section Converging.
Context {world : Type} (sw : StreamWriter world) (absent : Decoded) (db_of : world -> EmissionDb) (indexer : string).
Context `{!Deployment sw db_of indexer}.
Context {S : Type} `{StateStoreLaws S} (processor : Processor) (decodeOnto : string -> list string -> string -> Decoded).
Context (rb : GenerationRebuild) (floor : Z) (sourceHash configHash : string).
Hypothesis Hcontext : rb_context rb = wireContextOf sourceHash configHash.
Hypothesis Hretention : forall declared, rb_declaredFinalityDepth rb = Some declared -> rb_finality rb <= declared.
Hypothesis Hfinality : 0 <= rb_finality rb.
Hypothesis Hbatch : 1 <= rb_feedBatchSize rb.
Hypothesis Hstream : rb_stream rb = sw_streamDigest sw.
Hypothesis Hfrom : rb_defaultFromBlock rb = sw_defaultFromBlock sw.
Hypothesis Hstart : 1 <= sw_defaultFromBlock sw.

Lemma upto_none to c : Forall (fun b => to < number b) c -> upto to c = [].
Proof. intros Hc. apply filter_Forall_nil. eapply Forall_impl; [exact Hc|]. simpl. lia. Qed.

Lemma fresh_generation_rebuilds known w gs K cov fuel store :
  writing sw absent db_of indexer w gs K -> readStreamCoverage (db_of w) indexer (sw_streamDigest sw) = Some cov ->
  heighted gs -> NoDup (verdict <$> gs) ->
  foldable processor floor (declarations store) known -> applied_known known (regroup decodeOnto <$> gs) ->
  rebuilt processor rb floor store (freshSync (receiver_of rb)) [] -> (Z.to_nat (cov_lastToBlock cov) < fuel)%nat ->
  exists store' s report,
    rebuildUntilLevel processor decodeOnto rb fuel (storedEmissionReplaySource (db_of w) indexer) store = (store', Some (Ok report))
    /\ rebuild_complete report = true /\ rebuilt processor rb floor store' s (reblock decodeOnto <$> K)
    /\ lastToBlock s = lastToBlock (streamLastSync sw absent w) /\ latestBlock s = latestBlock (streamLastSync sw absent w).
Proof.
  intros Hrun Hcov Hh Hnd Hf Hk Hreb Hfuel. pose proof (writing_written sw absent db_of indexer ltac:(lia) w gs K Hrun) as Hw.
  pose proof (written_stored_log sw absent db_of indexer decodeOnto rb known w gs K cov Hstream Hfrom Hstart Hw Hcov Hh Hk) as Hl.
  pose proof (written_claim _ _ _ _ _ _ _ Hw) as Hclaim. rewrite Hcov in Hclaim. destruct Hclaim as (_ & Hcd & Hct & _).
  destruct (rebuild_loop_run processor decodeOnto rb floor sourceHash configHash Hcontext Hretention Hfinality Hbatch known (db_of w) indexer
    (regroup decodeOnto <$> gs) (reblock decodeOnto <$> K) cov fuel store (freshSync (receiver_of rb)))
    as (store' & s & report & Hloop & Hcomp & _ & _ & _ & Hreb' & Ht & Hlat); try done.
  - rewrite <- list_fmap_compose. erewrite list_fmap_ext; [exact Hnd|done].
  - cbn [lastToBlock freshSync]. rewrite upto_reblock, upto_none; [done|]. apply Forall_forall. intros b Hb.
    pose proof (cycles_numbers _ _ _ _ (written_cycles _ _ _ _ _ _ _ Hw)) as Hn. rewrite Forall_forall in Hn.
    destruct (written_blocks _ _ _ _ _ _ _ _ Hw Hb) as [_ Hin]. specialize (Hn _ Hin). simpl in Hn. lia.
  - simpl. lia.
  - simpl. lia.
  - simpl. lia.
  - simpl. by rewrite Z.sub_0_r.
  - exists store', s, report. assert (streamLastSync sw absent w = lastSyncOf sw absent
      (streamCursorSourceOn (db_of w) indexer (sw_streamDigest sw) (sw_finality sw))) as ->.
    { unfold streamLastSync, readPosition. f_equal. by apply (@deployed_cursor world sw db_of indexer _). }
    unfold streamCursorSourceOn. rewrite Hcov. done.
Qed.

End Converging.
