(* ===== verification/Scenarios.v ===== *)
(** * A concrete indexer

    The receiver over the in-memory store, with a small author's object: the
    theorems of the other files applied to it, and the runs on which the code
    falls short of what its comments promise. *)
From S2P Require Import Prelude JsMap Types Stream Reorg Replay Invalidation Entities.
From S2P Require Import Retention StoreSpec Versions MemoryStore MutationContext EntityProcessor Cursor StreamBuilder.

(** ** The indexer *)

(** Every [Set] event writes the item of its block; one whose data is [boom]
    throws. *)
Definition sample_handler (event : LogEvent) : Handler :=
  if decide (data event = "boom") then Throw
  else Set_ "Item" (sample_id (blockNumber event))
         {["owner" := VText (blockHash event); "amount" := VBigInt (blockNumber event)]} Return.

Definition sample_processor : Processor :=
  mkProcessor (fun eventName => if decide (eventName = "Set") then Some sample_handler else None) None.

Definition sample_builder : StreamBuilder unit :=
  mkBuilder unit (wireContextOf "hsource" "hconfig") 0 10 "digest" [] "proc" (Some 10) None None None.

Definition empty_store : MemoryStateStore :=
  mkMemory sample_entities [] [] [] [] [] Unbounded None None.

(** A block whose handler throws. *)
Definition failing_block (n : Z) (h : string) : EventBlock :=
  mkBlock h n [mkLog n h 0 false "0xc0" "boom" [] ("0xt" +:+ h) 0 (Some (1000 + n)) (Parsed "Set" JNull)].

(** A complete fetch of a chain from [from] through [to], seen under the tip [tip]. *)
Definition push (from to tip : Z) (chain : list EventBlock) : WireBatch :=
  honest_batch sample_builder (mkBounds tip from to 10) chain.

(** Feed batches one after the other, and collect the errors. *)
Fixpoint feed (store : MemoryStateStore) (batches : list WireBatch)
    : MemoryStateStore * list (option IngestError) :=
  match batches with
  | [] => (store, [])
  | batch :: rest =>
      let '(store', _, r) := receive sample_processor sample_builder store tt batch in
      let '(store'', errors) := feed store' rest in
      (store'', (match r with Ok _ => None | Err e => Some e end) :: errors)
  end.

Definition owner_of (store : MemoryStateStore) (n : Z) : option (option Value) :=
  match m_getCurrent store "Item" (sample_id n) with
  | Ok (Some row) => Some (row !! "owner")
  | _ => None
  end.

Definition chain_a : list EventBlock := [sample_block 1 "a1"; sample_block 2 "a2"].
Definition chain_b : list EventBlock := [sample_block 1 "a1"; sample_block 2 "b2"; sample_block 3 "b3"].

(** A node that forks at block 2: the fold follows it. *)
Example fork_followed :
  let '(store, errors) := feed empty_store [push 0 2 2 chain_a; push 0 3 3 chain_b] in
  errors = [None; None] /\ owner_of store 1 = Some (Some (VText "a1"))
  /\ owner_of store 2 = Some (Some (VText "b2")) /\ owner_of store 3 = Some (Some (VText "b3")).
Proof. vm_compute. done. Qed.

(** ** Where the code falls short *)

(** A retraction moves the store without its cursor.  A batch that replaces block
    2 reverts it and then stops in the new block's handler; the chain goes back to
    the first branch; the cursor still claims block 2, so the next batch is
    accepted and delivers only what is above it.  The item of block 2 is gone for
    good, though the chain the node serves, and the one first folded, has it. *)
Theorem torn_revert_loses_block :
  let branch := [sample_block 1 "a1"; failing_block 2 "b2"] in
  let '(before, _) := feed empty_store [push 0 2 2 chain_a] in
  let '(after, errors) :=
    feed empty_store [push 0 2 2 chain_a; push 0 2 2 branch; push 0 4 4 (chain_a ++ [sample_block 4 "a4"])] in
  errors = [None; Some (NotFolded HandlerThrew); None]
  /\ owner_of before 2 = Some (Some (VText "a2"))
  /\ owner_of after 1 = Some (Some (VText "a1")) /\ owner_of after 2 = None
  /\ owner_of after 4 = Some (Some (VText "a4")).
Proof. vm_compute. done. Qed.

(** A tip that moves back opens the re-read range below the window.  Block 88 is
    final under the tip 100 and left the window; a batch under the tip 95 is
    accepted; from then on the receiver asks from block 85, finds block 88 in no
    window, delivers it again, and the store refuses it whatever the tip. *)
Theorem tip_regression_wedges :
  let chain := [sample_block 88 "a88"; sample_block 95 "a95"] in
  let '(store, errors) :=
    feed empty_store [push 0 100 100 chain; push 90 95 95 chain; push 85 95 95 chain; push 85 200 200 chain] in
  errors = [None; None; Some (NotFolded (StoreFailed (BlockAlreadyRecorded 88)));
            Some (NotFolded (StoreFailed (BlockAlreadyRecorded 88)))]
  /\ (expectedFromBlock sample_builder store tt).2 = Ok 85.
Proof. vm_compute. done. Qed.

(** A fetch cut short below a held dead block delivers the new branch under it
    with no retraction, and the store refuses the block. *)
Theorem truncated_refetch_refused :
  let branch := [sample_block 5 "a5"; sample_block 7 "b7"; sample_block 9 "b9"] in
  let '(store, errors) :=
    feed empty_store [push 0 9 9 [sample_block 5 "a5"; sample_block 9 "a9"]; push 0 8 9 branch] in
  errors = [None; Some (NotFolded (StoreFailed (BlockNotAboveTip 7 9)))]
  /\ owner_of store 9 = Some (Some (VText "a9")).
Proof. vm_compute. done. Qed.

(** The rows a live fold stored while block 5 was replaced and came back, with
    block 6 above it, and the cursor it was left with. *)
Definition flip_flop : result EngineError (list LogEvent * LastSync) :=
  let fresh := freshSync sample_builder in
  first ← generateStreamToAppend fresh 0 (events_of [sample_block 5 "x"]) (mkBounds 5 0 5 10);
  second ← generateStreamToAppend (newLastSync first) 0 (events_of [sample_block 5 "y"]) (mkBounds 5 0 5 10);
  third ← generateStreamToAppend (newLastSync second) 0
            (events_of [sample_block 5 "x"; sample_block 6 "z"]) (mkBounds 6 0 6 10);
  Ok (eventStream first ++ eventStream second ++ eventStream third, newLastSync third).

(** Re-reading those rows under that cursor retracts block 5 and applies it
    again, but not block 6, which the cursor holds: a store that held both is left
    without block 6. *)
Theorem replay_flip_flop_drops :
  match flip_flop with
  | Err _ => False
  | Ok (rows, cursor) =>
      match generateStreamFromReplay cursor 0 rows (mkBounds 6 0 6 10) with
      | Err _ => False
      | Ok (offered, cursor') =>
          let '(live, _) := feed empty_store [push 0 5 5 [sample_block 5 "x"]; push 0 5 5 [sample_block 5 "y"];
            push 0 6 6 [sample_block 5 "x"; sample_block 6 "z"]] in
          let '(caught_up, _, r) := applyEventStream serializeLastSync live sample_processor offered
            (Some (SYNC_CURSOR_KEY, cursor')) in
          parseStoredCursor (readCursor live SYNC_CURSOR_KEY) = Some cursor
          /\ offered = retractions_of [sample_block 5 "x"] ++ events_of [sample_block 5 "x"]
          /\ unconfirmedBlocks cursor' = [sample_block 5 "x"; sample_block 6 "z"]
          /\ owner_of live 6 = Some (Some (VText "z")) /\ r = Ok tt
          /\ owner_of caught_up 5 = Some (Some (VText "x")) /\ owner_of caught_up 6 = None
      end
  end.
Proof. vm_compute. done. Qed.

(** Three blocks recorded in a store that keeps a window of two blocks under a
    finality of two: item 7 is written at blocks 1 and 5, item 8 at block 10. *)
Definition recorded_blocks : result StoreError MemoryStateStore :=
  s0 ← newMemoryStore sample_entities (Some (SetBlocks 2)) (Some 2);
  foldl (fun r '(n, h, id, amount) =>
      s ← r; m_applyBlock s (sample_pointer n h) [sample_upsert id amount] None) (Ok s0)
    [(1, "0xa1", 7, 100); (5, "0xa5", 7, 200); (10, "0xaa", 8, 300)].

(** The amount of item [id] as of block [at_]. *)
Definition amount_as_of (s : MemoryStateStore) (id at_ : Z) :=
  (fun row => row ≫= fun r => r !! "amount") <$> m_getAsOf s "Item" (sample_id id) at_.

(** A prune drops what closed at or below its floor; a revert then lowers the tip
    to the last recorded block, and the window with it, so a read as of a block
    the prune already emptied is admitted and answers that the row never was. *)
Theorem prune_then_revert_forgets :
  match recorded_blocks with
  | Err _ => False
  | Ok s1 =>
      match m_prune s1 None with
      | Err _ => False
      | Ok (s2, report) =>
          report_floor report = Some 8 /\ m_tip (m_revertTo s2 8) = Some 5
          /\ amount_as_of (m_revertTo s1 8) 7 4 = Ok (Some (VBigInt 100))
          /\ m_getAsOf (m_revertTo s2 8) "Item" (sample_id 7) 4 = Ok None
      end
  end.
Proof. vm_compute. done. Qed.

(** ** The theorems at work *)
Lemma empty_store_new : newMemoryStore sample_entities None None = Ok empty_store.
Proof. done. Qed.

Lemma empty_repr : repr (-1) empty_store [].
Proof.
  destruct (memory_run_repr sample_entities empty_store [] (-1) sample_entities_wf) as [_ Hr]; [|exact Hr].
  by apply run_new with None None.
Qed.

Lemma sample_handlers : handlers_declared sample_entities sample_processor.
Proof.
  intros e h Hh. unfold handlerOf, sample_processor in Hh. cbn [onEvent handleUnparsedEvent] in Hh.
  destruct (decoded e) as [eventName args|]; [|done]. case_decide; [|done]. injection Hh as <-.
  unfold sample_handler. case_decide; repeat constructor.
Qed.

Lemma sample_tracks : tracks sample_processor sample_builder (-1) empty_store (freshSync sample_builder) ([] ++ []) [].
Proof.
  split.
  - apply sample_handlers.
  - exists []. split; [apply empty_repr|done].
  - split; [done|]. by right.
  - split; [apply chain_wf_nil|done|]. by intros b ?%not_elem_of_nil.
Qed.

Lemma sample_retention declared :
  declaredFinalityDepth sample_builder = Some declared -> sb_finality sample_builder <= declared.
Proof. intros [= <-]. done. Qed.

Lemma sample_resolves (resolve : port unit GenerationId) g (w : unit) :
  container sample_builder = Some resolve -> (resolve g w).2 = true.
Proof. done. Qed.

Lemma sample_first_fetch :
  honest_fetch 0 (freshSync sample_builder) (mkBounds 2 0 2 10) [] ([] ++ []) chain_a.
Proof. split; [by split|evaluate| |evaluate|done]. by intros x y ?%not_elem_of_nil. Qed.

Lemma chain_plain c : Forall (fun b => exists n h, b = sample_block n h) c -> Forall block_plain c.
Proof.
  intros Hc. eapply Forall_impl; [exact Hc|]. intros b (n & h & ->). by repeat constructor.
Qed.

Ltac sample_plain := apply chain_plain; repeat (apply Forall_cons_2; [by eexists _, _|]); apply Forall_nil_2.

(** The cursors of the two batches. *)
Definition first_cursor : option LastSync :=
  match receive sample_processor sample_builder empty_store tt (push 0 2 2 chain_a) with
  | (_, _, Ok res) => Some (ingestion_lastSync res)
  | _ => None
  end.

Definition second_cursor : option LastSync :=
  match receive sample_processor sample_builder empty_store tt (push 0 2 2 chain_a) with
  | (store, _, Ok _) =>
      match receive sample_processor sample_builder store tt (push 0 3 3 chain_b) with
      | (_, _, Ok res) => Some (ingestion_lastSync res)
      | _ => None
      end
  | _ => None
  end.

Lemma sample_first_accepted :
  first_cursor = Some (mkSync (context (freshSync sample_builder)) 2 0 2 chain_a).
Proof. by vm_compute. Qed.

Lemma sample_second_accepted :
  second_cursor = Some (mkSync (context (freshSync sample_builder)) 3 0 3 chain_b).
Proof. by vm_compute. Qed.

Lemma receive_folds_witness :
  exists store res, receive sample_processor sample_builder empty_store tt (push 0 2 2 chain_a) = (store, tt, Ok res)
    /\ ingestion_emissions res = retractions_of ([] ++ []) ++ events_of (upto 2 chain_a)
    /\ applied res = 2%nat
    /\ tracks sample_processor sample_builder (-1) store (ingestion_lastSync res) ([] ++ upto 2 chain_a) [].
Proof.
  pose proof (receive_folds sample_processor sample_builder (-1) "hsource" "hconfig" eq_refl sample_retention
    ltac:(done) sample_resolves empty_store tt (freshSync sample_builder) (mkBounds 2 0 2 10) [] [] [] chain_a
    eq_refl sample_tracks sample_first_fetch ltac:(sample_plain) ltac:(evaluate) ltac:(constructor)) as Hcycle.
  cbn zeta in Hcycle. change (honest_batch sample_builder (mkBounds 2 0 2 10) ([] ++ chain_a)) with (push 0 2 2 chain_a) in Hcycle.
  destruct (receive sample_processor sample_builder empty_store tt (push 0 2 2 chain_a)) as [[store []] [res|e]] eqn:Hrec.
  - destruct Hcycle as (He & Ha & _ & _ & _ & Ht). by exists store, res.
  - exfalso. pose proof sample_first_accepted as Hok. unfold first_cursor in Hok. by rewrite Hrec in Hok.
Defined.

(** Two cycles, the second across a fork. *)
Lemma sample_run_first :
  exists store res, receive sample_processor sample_builder empty_store tt (push 0 2 2 chain_a) = (store, tt, Ok res)
    /\ accepted_run sample_processor sample_builder (-1) store (ingestion_lastSync res) chain_a.
Proof.
  destruct (receive sample_processor sample_builder empty_store tt (push 0 2 2 chain_a)) as [[store []] [res|e]] eqn:Hrec.
  - exists store, res. split; [done|].
    apply (run_batch sample_processor sample_builder (-1) empty_store (freshSync sample_builder) [] [] chain_a
      (mkBounds 2 0 2 10) tt store tt res); [apply run_start, sample_tracks|done|apply sample_first_fetch
      |sample_plain|evaluate|constructor|exact Hrec].
  - exfalso. pose proof sample_first_accepted as Hok. unfold first_cursor in Hok. by rewrite Hrec in Hok.
Qed.

Lemma receiver_follows_chain_witness :
  exists store lastSync, accepted_run sample_processor sample_builder (-1) store lastSync chain_b
    /\ exists h, fold_chain (declarations store) sample_processor chain_b = Ok h.
Proof.
  destruct sample_run_first as (store & res & Hrec & Hrun).
  destruct (receive sample_processor sample_builder store tt (push 0 3 3 chain_b)) as [[store2 []] [res2|e]] eqn:Hrec2.
  2:{ exfalso. pose proof sample_second_accepted as Hok. unfold second_cursor in Hok. by rewrite Hrec, Hrec2 in Hok. }
  assert (accepted_run sample_processor sample_builder (-1) store2 (ingestion_lastSync res2) chain_b) as Hrun2.
  { apply (run_batch sample_processor sample_builder (-1) store (ingestion_lastSync res) [sample_block 1 "a1"]
      [sample_block 2 "a2"] [sample_block 2 "b2"; sample_block 3 "b3"] (mkBounds 3 0 3 10) tt store2 tt res2);
      [exact Hrun|done| |sample_plain|evaluate|evaluate|exact Hrec2].
    pose proof sample_first_accepted as Hcur. unfold first_cursor in Hcur. rewrite Hrec in Hcur.
    injection Hcur as ->. split; [by split|evaluate| |evaluate|].
    - intros x y Hx Hy. each_in Hx. each_in Hy; done.
    - by intros x [= <-]. }
  exists store2, (ingestion_lastSync res2). split; [exact Hrun2|].
  destruct (receiver_follows_chain sample_processor sample_builder (-1) "hsource" "hconfig" eq_refl sample_retention
    ltac:(done) sample_resolves store2 (ingestion_lastSync res2) chain_b Hrun2) as [(h & Hh & _) _].
  by exists h.
Defined.

(** A batch that starts at block 1 where the receiver resumes at 0. *)
Lemma receive_refuses_witness :
  let batch := push 1 2 2 chain_a in
  resumes sample_builder empty_store (freshSync sample_builder)
  /\ receive sample_processor sample_builder empty_store tt batch
     = (empty_store, tt, Err (Refused (UnexpectedFromBlockError 0 1))).
Proof.
  intros batch. assert (resumes sample_builder empty_store (freshSync sample_builder)) as Hres by (split; [done|by right]).
  split; [exact Hres|].
  pose proof (receive_refuses sample_processor sample_builder "hsource" "hconfig" eq_refl sample_retention
    sample_resolves empty_store tt batch) as Hr.
  cbn zeta in Hr. change (sameWireContext (Some (sb_context sample_builder)) (batch_context batch)) with true in Hr.
  assert (assertWellFormed batch = Ok tt) as Hwf by (by vm_compute). rewrite Hwf in Hr.
  apply (Hr (freshSync sample_builder) Hres). done.
Defined.

(** The cursor of an older processor. *)
Definition foreign_store : MemoryStateStore :=
  m_writeCursor empty_store SYNC_CURSOR_KEY
    (serializeLastSync (mkSync (mkContext (wire_source (sb_context sample_builder)) "hconfig" "older") 9 0 9 [])).

Lemma currentLastSync_discards_witness :
  exists store', currentLastSync sample_builder foreign_store tt = (store', tt, Ok (freshSync sample_builder))
    /\ readCursor store' SYNC_CURSOR_KEY = None.
Proof.
  assert (repr (-1) foreign_store []) as Hr by (apply with_cursors_repr, empty_repr).
  destruct (currentLastSync_discards sample_builder (-1) sample_retention sample_resolves foreign_store tt
    (mkSync (mkContext (wire_source (sb_context sample_builder)) "hconfig" "older") 9 0 9 []) [] Hr)
    as (store' & Hs & _ & Hn & _); [constructor|by vm_compute|by vm_compute|].
  exists store'. split; [exact Hs|exact Hn].
Defined.

Lemma applyEventStream_folds_witness :
  let '(s', _, r) := applyEventStream serializeLastSync empty_store sample_processor
      (retractions_of ([] ++ []) ++ events_of chain_a) (Some ("key", sample_cursor)) in
  reached serializeLastSync sample_processor (-1) (declarations empty_store) [] chain_a "key" sample_cursor
    (readCursor empty_store "key") s' r.
Proof.
  apply (applyEventStream_folds serializeLastSync sample_processor (-1) empty_store [] [] [] [] chain_a);
    [apply empty_repr|apply sample_handlers|done|evaluate|evaluate|evaluate|constructor].
Defined.

(** A handler that stages an upsert reads it back, and so does a reader of the block. *)
Lemma read_your_writes_witness :
  exists pending s' answer', mc_set sample_entities [] "Item" (sample_id 7) {["owner" := VText "me"]} = Ok pending
    /\ applyBlock empty_store (sample_pointer 1 "0xa1") (stagedMutations pending) None = Ok s'
    /\ getCurrent s' "Item" (sample_id 7) = Ok (Some answer') /\ answer' !! "owner" = Some (VText "me").
Proof.
  set (key := "Item" +:+ String SEPARATOR "7").
  set (pending := [(key, Upsert "Item" (sample_id 7) {["owner" := VText "me"]})]).
  assert (mc_set sample_entities [] "Item" (sample_id 7) {["owner" := VText "me"]} = Ok pending) as Hset by (by vm_compute).
  assert (staging_wf sample_entities pending) as Hst.
  { split; [apply NoDup_singleton|]. intros k m Hin%list_elem_of_singleton. injection Hin as -> ->. by vm_compute. }
  destruct (applyBlock empty_store (sample_pointer 1 "0xa1") (stagedMutations pending) None) as [s'|e] eqn:Happ.
  2:{ not_error Happ. }
  destruct (mc_get sample_entities (getCurrent empty_store) pending "Item" (sample_id 7)) as [answer|e] eqn:Hget.
  2:{ not_error Hget. }
  destruct (read_your_writes (-1) empty_store [] pending (sample_pointer 1 "0xa1") None s' "Item" sample_entity
    (sample_id 7) key answer empty_repr Hst Happ) as (answer' & Hread & Hsame); [done|by vm_compute|exact Hget|].
  assert (default None ((fun row => row !! "owner") <$> answer) = Some (VText "me")) as Hamount.
  { assert ((match mc_get sample_entities (getCurrent empty_store) pending "Item" (sample_id 7) with
            | Ok row => default None ((fun row => row !! "owner") <$> row) | Err _ => None end) = Some (VText "me"))
      as Hval by (vm_compute; reflexivity).
    rewrite Hget in Hval. exact Hval. }
  destruct answer as [row|]; [|done]. destruct answer' as [row'|]; [|done].
  exists pending, s', row'. split_and!; [exact Hset|done|exact Hread|].
  rewrite <- (Hsame "owner"); [exact Hamount|]. right. left.
Defined.
