(* ===== verification/Combining.v ===== *)
(** * A combined deployment, concretely

    The indexer of [Scenarios] behind a node that cuts its answers at four logs, across a
    fork: the theorem of [Direct] applied to it. *)
From S2P Require Import Prelude JsMap Types Stream Reorg Invalidation Entities EventRanges RangeFetcher Cursor StoreSpec Versions MemoryStore EntityProcessor StreamBuilder LogFetcher Sending Direct Scenarios.

(** The node's chain is [chain_b]; the fold holds [chain_a]. *)
Definition held_a : MemoryStateStore := (receive sample_processor sample_builder empty_store tt (push 0 2 2 chain_a)).1.1.

Definition served (chain : list EventBlock) (_ : nat) (_ : option (list string)) (from to : Z) : result string (list LogEvent) :=
  Ok (take 4 (events_of (blocks_in from to chain))).

Definition sample_sender : LogFetcher := mkLogFetcher (sb_context sample_builder) "1" 3 (Some 4) 10000 2.

Definition sample_port (chain : list EventBlock) (tip : Z) : FetchPort (RangeLogFetcher * (unit * ((MemoryStateStore * unit) * list WireBatch)))
    (SendError (ProviderError:=string) (ReceiverError:=DirectError) (DecodeError:=string)) :=
  combined sample_processor sample_builder defaultRangeConfig None [] (fun _ => None) (fun _ => None) (fun _ => None) (fun _ => None) (fun _ => false)
    (served chain) (fun e => Ok e) (fun u => (u, Ok tip)) (fun u => (u, Ok "1")) (fun _ => true).

(** A cycle with a stale hint: corrected once, then pushed. *)
Definition sample_cycle := fetchAndPush (port := sample_port chain_b 3) sample_sender 4
  (newRangeLogFetcher defaultRangeConfig None, (tt, ((held_a, tt), []))) (Some 2).

Example sample_cycle_runs :
  sample_cycle.2 = Some (Ok (Pushed 0 3 3 3 2 1 0 (Some (mkReorg contradiction 2 "a2")) 1))
  /\ (batch_fromBlock <$> sample_cycle.1.1.2.2.2) = [2; 0]
  /\ owner_of sample_cycle.1.1.2.2.1.1 2 = Some (Some (VText "b2")).
Proof. vm_compute. done. Qed.

Lemma sample_serves : serves sample_builder chain_b 3 defaultRangeConfig None [] (fun _ : string => None) (fun _ => None)
  (served chain_b) (fun e => Ok e : result string LogEvent) (fun u : unit => (u, Ok 3)) sample_sender 4.
Proof.
  split; try done.
  - intros attempt from to logs _. unfold askRange, served. cbn. intros [= <-]. eexists. split; [done|].
    rewrite mapR_Forall2. apply Forall_Forall2_diag. by apply Forall_true.
  - by intros ns n [= <-].
Qed.

Lemma sample_follows : follows sample_processor sample_builder (-1) chain_b 3 [sample_block 2 "a2"] held_a.
Proof.
  destruct sample_run_first as (store & res & Hrec & Hrun). pose proof sample_first_accepted as Hcur. unfold first_cursor in Hcur.
  rewrite Hrec in Hcur. injection Hcur as Hcur. unfold held_a. rewrite Hrec. cbn [fst].
  apply (accepted_run_tracks sample_processor sample_builder (-1) "hsource" "hconfig" eq_refl sample_retention ltac:(done) sample_resolves) in Hrun.
  rewrite Hcur in Hrun.
  apply (follows_intro _ _ _ _ _ _ _ [sample_block 1 "a1"] [sample_block 2 "a2"] [] [sample_block 2 "b2"; sample_block 3 "b3"] _ eq_refl Hrun);
    [by right| |evaluate|done|evaluate].
  intros x y Hx Hy. each_in Hx. each_in Hy; done.
Qed.

