(* ===== verification/Rebuilding.v ===== *)
(** * A concrete rebuild

    A successor generation over a stored stream: the theorems of the rebuild applied to
    it, and two runs on which a fold that has a hole, or holds a dead block, reports
    itself level with the stream. *)
From S2P Require Import Prelude JsMap Types Stream Reorg Replay Invalidation Entities Retention StoreSpec Versions MemoryStore.
From S2P Require Import MutationContext EntityProcessor Json Cursor StreamBuilder Emissions Feed Chunks Rebuild Rebuilt Scenarios.

(** ** The generation and its stream *)
Definition sample_decode (address : string) (topics : list string) (data : string) : Decoded := Parsed "Set" JNull.

(** One emission per chunk, unless a block holds more. *)
Definition sample_rebuild : GenerationRebuild :=
  mkRebuild "stream1" (wireContextOf "hsource" "hconfig") 1 10 1 300 "proc" (Some 10).

Definition ask_more (db : EmissionDb) (store : MemoryStateStore) : MemoryStateStore * result RebuildError RebuildReport :=
  more sample_processor sample_decode sample_rebuild (storedEmissionReplaySource db "main") store None.

Definition rebuild_from (db : EmissionDb) (store : MemoryStateStore) : MemoryStateStore * option (result RebuildError RebuildReport) :=
  rebuildUntilLevel sample_processor sample_decode sample_rebuild 9 (storedEmissionReplaySource db "main") store.

(** A stream that applied three blocks, then forked at its tip without its tip moving. *)
Definition forkless : EmissionDb :=
  append_turn emptyDb 3 [] [sample_block 1 "a1"; sample_block 2 "a2"; sample_block 3 "a3"].
Definition forked : EmissionDb := append_turn forkless 3 [sample_block 3 "a3"] [sample_block 3 "b3"].

(** The writer's own cycle is an ordinary one: the tip is re-read and its block was replaced. *)
Example forked_is_a_cycle :
  (fun a => (eventStream a, lastToBlock (newLastSync a), latestBlock (newLastSync a)))
    <$> generateStreamToAppend
      (mkSync (context (freshSync (receiver_of sample_rebuild))) 3 1 3 [sample_block 1 "a1"; sample_block 2 "a2"; sample_block 3 "a3"])
      1 (events_of [sample_block 1 "a1"; sample_block 2 "a2"; sample_block 3 "b3"]) (mkBounds 3 1 3 10)
  = Ok (retractions_of [sample_block 3 "a3"] ++ events_of [sample_block 3 "b3"], 3, 3).
Proof. by vm_compute. Qed.

(** A fork that leaves the tip's height where it was moves neither number the rebuild
    compares: the fold answers [complete] over the dead block. *)
Lemma rebuild_misses_level_fork :
  let '(level, _) := rebuild_from forkless empty_store in
  let '(after, report) := ask_more forked level in
  owner_of level 3 = Some (Some (VText "a3")) /\ owner_of after 3 = Some (Some (VText "a3"))
  /\ (fun r => (rebuild_complete r, rebuild_replayed r, rebuild_highWater r)) <$> report = Ok (true, 0%nat, 5)
  /\ owner_of (rebuild_from forked empty_store).1 3 = Some (Some (VText "b3")).
Proof. vm_compute. done. Qed.

(** The writer, at block 2, fetches block 3: its delta holds that block alone and
    starts, like every read within the finality distance of the first block, there. *)
Definition third_delta : result EngineError (list LogEvent * LastSync) :=
  (fun a => (eventStream a, newLastSync a))
    <$> generateStreamToAppend
      (mkSync (context (freshSync (receiver_of sample_rebuild))) 2 1 2 [sample_block 1 "a1"; sample_block 2 "a2"])
      1 (events_of [sample_block 1 "a1"; sample_block 2 "a2"; sample_block 3 "a3"]) (mkBounds 3 1 3 10).

(** A generation that was just created resumes at that same block, takes the delta, and
    the two blocks below it are never folded: the rebuild finds it level. *)
Lemma follow_leaves_hole :
  match third_delta with
  | Ok (delta, lastSync) =>
      let '(store, taken) := follow sample_processor sample_decode sample_rebuild empty_store delta lastSync in
      taken = Ok (true, 1%nat) /\ owner_of store 1 = None /\ owner_of store 2 = None
      /\ owner_of store 3 = Some (Some (VText "a3"))
      /\ (rebuild_complete <$> (ask_more forkless store).2) = Ok true
      /\ owner_of (ask_more forkless store).1 1 = None
  | Err _ => False
  end.
Proof. vm_compute. done. Qed.

(** ** The theorems at work *)
Definition known_blocks : list EventBlock :=
  [sample_block 1 "a1"; sample_block 2 "a2"; sample_block 3 "a3"; sample_block 3 "b3"].

Lemma known_folds C :
  chain_wf C -> Forall (fun b => b ∈ known_blocks) C -> is_Ok (fold_chain sample_entities sample_processor C).
Proof.
  intros [Ha _ _] Hk. destruct C as [|x C]; [by eexists|].
  apply Forall_cons in Hk as [Hx Hk]. apply StronglySorted_inv in Ha as [Ha Hxs].
  destruct C as [|y C]; [each_in Hx; by eexists|].
  apply Forall_cons in Hk as [Hy Hk]. apply Forall_cons in Hxs as [Hxy Hxs]. apply StronglySorted_inv in Ha as [Ha Hys].
  destruct C as [|z C]; [each_in Hx; each_in Hy; try (simpl in Hxy; lia); by eexists|].
  apply Forall_cons in Hk as [Hz Hk]. apply Forall_cons in Hys as [Hyz Hys]. apply StronglySorted_inv in Ha as [_ Hzs].
  clear Hxs. each_in Hx; each_in Hy; try (simpl in Hxy; lia); each_in Hz; try (simpl in Hyz; lia);
    (destruct C as [|w C]; [by eexists|]; apply Forall_cons in Hk as [Hw _], Hzs as [Hzw _]; exfalso; each_in Hw; simpl in Hzw; lia).
Qed.

Lemma known_foldable : foldable sample_processor (-1) (declarations empty_store) (fun b => b ∈ known_blocks).
Proof.
  split.
  - apply known_folds.
  - intros b b' Hb Hb'. each_in Hb; each_in Hb'; done.
  - intros b Hb. each_in Hb; simpl; lia.
  - intros b Hb. each_in Hb; by repeat constructor.
Qed.

Definition forked_groups : list StreamGroup :=
  (appliedGroup <$> [sample_block 1 "a1"; sample_block 2 "a2"; sample_block 3 "a3"])
  ++ (retractedGroup <$> [sample_block 3 "a3"]) ++ (appliedGroup <$> [sample_block 3 "b3"]).
Definition forked_chain : list EventBlock := [sample_block 1 "a1"; sample_block 2 "a2"; sample_block 3 "b3"].
Definition level_claim : CoverageRow := mkCoverageRow "main" "stream1" [] "cfg" 1 3 1 3.

Lemma forked_cycles : cycles 1 [] forked_groups forked_chain.
Proof.
  change forked_chain with ([sample_block 1 "a1"; sample_block 2 "a2"] ++ [sample_block 3 "b3"]). apply cycles_turn.
  - apply (cycles_turn 1 [] [] [] [] [sample_block 1 "a1"; sample_block 2 "a2"; sample_block 3 "a3"]); [constructor|evaluate| |evaluate].
    by intros x y ?%not_elem_of_nil.
  - evaluate.
  - intros x y Hx Hy. each_in Hx. each_in Hy. done.
  - evaluate.
Qed.

Lemma forked_log : stored_log sample_decode sample_rebuild (fun b => b ∈ known_blocks) forked "main" forked_groups forked_chain level_claim.
Proof.
  split; [evaluate|vm_compute; reflexivity|vm_compute; reflexivity|split; done|split; done|apply forked_cycles| | | |].
  - intros g g' Hg Hg'. unfold forked_groups in Hg, Hg'. csimpl in Hg. csimpl in Hg'. each_in Hg; each_in Hg'; done.
  - evaluate.
  - unfold forked_groups. vm_compute. repeat constructor; done || lia.
  - unfold applied_known. apply Forall_forall. intros g Hg. unfold forked_groups in Hg. csimpl in Hg. each_in Hg; intros Hr; try done;
      cbn [appliedGroup group_block]; unfold known_blocks; rewrite !elem_of_cons; tauto.
Qed.

Lemma sample_rebuilt : rebuilt sample_processor sample_rebuild (-1) empty_store (freshSync (receiver_of sample_rebuild)) [].
Proof.
  split.
  - apply sample_handlers.
  - exists []. split; [apply empty_repr|done].
  - split; [done|]. by right.
  - split; [apply chain_wf_nil|done|]. by intros b ?%not_elem_of_nil.
Qed.

Lemma rebuild_completes_witness :
  exists store s report, rebuild_from forked empty_store = (store, Some (Ok report))
    /\ rebuild_complete report = true /\ rebuilt sample_processor sample_rebuild (-1) store s forked_chain.
Proof.
  destruct (rebuild_completes sample_processor sample_decode sample_rebuild (-1) "hsource" "hconfig" eq_refl
    ltac:(by intros ? [= <-]) ltac:(done) ltac:(done) (fun b => b ∈ known_blocks) forked "main" forked_groups forked_chain level_claim
    9 empty_store (freshSync (receiver_of sample_rebuild)) known_foldable forked_log ltac:(evaluate) sample_rebuilt
    ltac:(done) ltac:(done) ltac:(by left) ltac:(vm_compute; lia)) as (store & s & report & Hrun & Hc & _ & _ & _ & Hr & _).
  exists store, s, report. split; [exact Hrun|]. split; [exact Hc|exact Hr].
Defined.

(** A chunk of a stream that forked after this generation was registered. *)
Definition forkless_groups : list StreamGroup :=
  appliedGroup <$> [sample_block 1 "a1"; sample_block 2 "a2"; sample_block 3 "a3"].
Definition forkless_chain : list EventBlock := [sample_block 1 "a1"; sample_block 2 "a2"; sample_block 3 "a3"].

Lemma forkless_cycles : cycles 1 [] forkless_groups forkless_chain.
Proof.
  apply (cycles_turn 1 [] [] [] [] forkless_chain); [constructor|evaluate| |evaluate]. by intros x y ?%not_elem_of_nil.
Qed.

Lemma fork_cycles :
  cycles 1 forkless_chain ((retractedGroup <$> [sample_block 3 "a3"]) ++ (appliedGroup <$> [sample_block 3 "b3"])) forked_chain.
Proof.
  apply (cycles_turn 1 forkless_chain [] [sample_block 1 "a1"; sample_block 2 "a2"] [sample_block 3 "a3"] [sample_block 3 "b3"]);
    [constructor|evaluate| |evaluate]. intros x y Hx Hy. each_in Hx. each_in Hy. done.
Qed.

Lemma more_follows_witness :
  exists store s report, ask_more forked empty_store = (store, Ok report) /\ rebuild_toBlock report = Some 1
    /\ rebuilt sample_processor sample_rebuild (-1) store s (upto 1 forked_chain).
Proof.
  destruct (more_follows sample_processor sample_decode sample_rebuild (-1) "hsource" "hconfig" eq_refl
    ltac:(by intros ? [= <-]) ltac:(done) ltac:(done) (fun b => b ∈ known_blocks) forked "main" forkless_groups
    ((retractedGroup <$> [sample_block 3 "a3"]) ++ (appliedGroup <$> [sample_block 3 "b3"])) forkless_chain forked_chain level_claim
    empty_store (freshSync (receiver_of sample_rebuild)) known_foldable forked_log forkless_cycles fork_cycles sample_rebuilt
    ltac:(done) ltac:(done) ltac:(by left) ltac:(done) ltac:(constructor) ltac:(vm_compute; repeat constructor))
    as (store & s & report & Hrun & _ & Hr & _ & _ & Hto & _).
  exists store, s, report. split; [exact Hrun|]. split; [exact Hto|exact Hr].
Defined.

(** The first delta of a stream, offered to a generation that holds nothing yet. *)
Lemma follow_takes_witness :
  exists store s, follow sample_processor sample_decode sample_rebuild empty_store (events_of forkless_chain)
      (mkSync (context (freshSync (receiver_of sample_rebuild))) 3 1 3 forkless_chain) = (store, Ok (true, 3%nat))
    /\ rebuilt sample_processor sample_rebuild (-1) store s forkless_chain.
Proof.
  destruct (follow_takes sample_processor sample_decode sample_rebuild (-1) "hsource" "hconfig" eq_refl
    ltac:(by intros ? [= <-]) ltac:(done) (fun b => b ∈ known_blocks) empty_store (freshSync (receiver_of sample_rebuild))
    [] forkless_chain forkless_groups (events_of forkless_chain)
    (mkSync (context (freshSync (receiver_of sample_rebuild))) 3 1 3 forkless_chain) known_foldable sample_rebuilt
    ltac:(constructor) eq_refl ltac:(vm_compute; repeat constructor; done || lia)
    ltac:(repeat constructor; unfold known_blocks; cbn; rewrite !elem_of_cons; tauto)) as (store & s & Hrun & _ & Hr & _);
    [split; done|apply forkless_cycles| |vm_compute; repeat constructor|].
  - repeat (apply Forall_cons_2; [unfold known_blocks; rewrite !elem_of_cons; tauto|]). constructor.
  - exists store, s. split; [exact Hrun|exact Hr].
Defined.
