(* ===== verification/Writing.v ===== *)
(** * A concrete deployment

    One stream written from an empty table through a fork, and a generation created
    afterwards that replays it: the theorems of the writer applied to them. *)
From S2P Require Import Prelude JsMap Types Stream Reorg Replay Invalidation Entities Retention StoreSpec Versions MemoryStore.
From S2P Require Import MutationContext EntityProcessor Json Cursor StreamBuilder Emissions Feed Chunks Recode Rebuild Rebuilt Writer Scenarios Rebuilding.

Definition no_half : Decoded := DecodeFailure "".

Definition sample_writer : StreamWriter EmissionDb :=
  mkWriter EmissionDb (wireContextOf "hsource" "hconfig") 1 10 "stream1" []
    (fun stream f db => streamCursorSourceOn db "main" stream f) (emissionAppenderFor "main") None None.

#[local] Instance sample_deployment : Deployment sample_writer (fun db => db) "main".
Proof. split; [done| |done|done]. intros write db. cbn. by destruct (emissionAppenderFor "main" write db). Qed.

Definition rawly (c : list EventBlock) : list EventBlock := reblock (fun _ _ _ => no_half) <$> c.

Definition node_before : list EventBlock := [sample_block 1 "a1"; sample_block 2 "a2"; sample_block 3 "a3"].
Definition node_after : list EventBlock := [sample_block 1 "a1"; sample_block 2 "a2"; sample_block 3 "b3"].

Definition write (bounds : FetchBounds) (chain : list EventBlock) (db : EmissionDb) : EmissionDb :=
  (Writer.receive sample_writer no_half db (honestBatch sample_writer bounds chain)).1.
Definition accepted (bounds : FetchBounds) (chain : list EventBlock) (db : EmissionDb) : option IngestionResult :=
  match (Writer.receive sample_writer no_half db (honestBatch sample_writer bounds chain)).2 with Ok res => Some res | Err _ => None end.

Lemma written_of bounds chain db res :
  accepted bounds chain db = Some res ->
  Writer.receive sample_writer no_half db (honestBatch sample_writer bounds chain) = (write bounds chain db, Ok res).
Proof.
  unfold accepted, write. destruct (Writer.receive _ _ _ _) as [w [r|e]]; [|done]. by intros [= ->].
Qed.

Definition db_before : EmissionDb := write (mkBounds 3 1 3 10) node_before emptyDb.
Definition db_after : EmissionDb := write (mkBounds 3 1 3 10) node_after db_before.

Lemma sample_written_start : written sample_writer no_half (fun db => db) "main" emptyDb [] ([] ++ []).
Proof. apply writing_written; [apply sample_deployment|done|]. by apply writing_start. Qed.

Lemma sample_half c : Forall (fun b => exists n h, b = sample_block n h) c -> Forall raw_half (events_of c).
Proof.
  intros Hc. apply events_of_Forall. intros b Hb. rewrite Forall_forall in Hc. destruct (Hc b Hb) as (n & h & ->).
  repeat constructor; done || (simpl; lia).
Qed.

Ltac sample_halves := apply sample_half; repeat (apply Forall_cons_2; [by eexists _, _|]); apply Forall_nil_2.

Lemma first_honest :
  honest_fetch 1 (streamLastSync sample_writer no_half emptyDb) (mkBounds 3 1 3 10) [] [] (rawly node_before).
Proof. split; [by split|evaluate| |evaluate|done]. by intros x y ?%not_elem_of_nil. Qed.

Lemma second_honest :
  honest_fetch 1 (streamLastSync sample_writer no_half db_before) (mkBounds 3 1 3 10) (rawly [sample_block 1 "a1"; sample_block 2 "a2"])
    (rawly [sample_block 3 "a3"]) (rawly [sample_block 3 "b3"]).
Proof.
  split; [|evaluate| |evaluate|].
  - split; [by vm_compute|by vm_compute|by vm_compute|done].
  - intros x y Hx Hy. unfold rawly in *. csimpl in Hx. csimpl in Hy. each_in Hx. each_in Hy. done.
  - by intros x [= <-].
Qed.

Lemma writer_appends_witness :
  exists res, accepted (mkBounds 3 1 3 10) node_before emptyDb = Some res /\ applied res = 3%nat /\ retracted res = 0%nat.
Proof.
  destruct (writer_appends sample_writer no_half (fun db => db) "main" ltac:(done) emptyDb [] [] [] (rawly node_before) node_before
    (mkBounds 3 1 3 10) sample_written_start eq_refl first_honest eq_refl ltac:(sample_halves) ltac:(done))
    as (w & res & Hrec & _ & Ha & Hr & _).
  exists res. unfold accepted. rewrite Hrec. split; [done|]. split; [exact Ha|exact Hr].
Defined.

(** The run across the fork. *)
Lemma run_before :
  writing sample_writer no_half (fun db => db) "main" db_before
    (cycle_groups 3 [] (rawly node_before)) (rawly node_before).
Proof.
  destruct (accepted (mkBounds 3 1 3 10) node_before emptyDb) as [res|] eqn:Hacc; [|vm_compute in Hacc; discriminate].
  apply (writing_batch sample_writer no_half (fun db => db) "main" emptyDb [] [] [] (rawly node_before) node_before
    (mkBounds 3 1 3 10) db_before res).
  - by apply writing_start.
  - done.
  - apply first_honest.
  - done.
  - sample_halves.
  - done.
  - by apply written_of.
Qed.

Definition after_groups : list StreamGroup :=
  cycle_groups 3 [] (rawly node_before) ++ cycle_groups 3 (rawly [sample_block 3 "a3"]) (rawly [sample_block 3 "b3"]).

Lemma run_after : writing sample_writer no_half (fun db => db) "main" db_after after_groups (rawly node_after).
Proof.
  destruct (accepted (mkBounds 3 1 3 10) node_after db_before) as [res|] eqn:Hacc; [|vm_compute in Hacc; discriminate].
  apply (writing_batch sample_writer no_half (fun db => db) "main" db_before (cycle_groups 3 [] (rawly node_before))
    (rawly [sample_block 1 "a1"; sample_block 2 "a2"]) (rawly [sample_block 3 "a3"]) (rawly [sample_block 3 "b3"]) node_after
    (mkBounds 3 1 3 10) db_after res).
  - apply run_before.
  - done.
  - apply second_honest.
  - done.
  - sample_halves.
  - by vm_compute.
  - by apply written_of.
Qed.

Lemma stream_is_log_witness :
  live_entries (rows_of db_after "main" "stream1") = entry_of_log <$> events_of (rawly node_after)
  /\ holds 1 10 (streamLastSync sample_writer no_half db_after) (rawly node_after).
Proof.
  destruct (stream_is_log sample_writer no_half (fun db => db) "main" ltac:(done) db_after after_groups (rawly node_after)
    run_after ltac:(done)) as (_ & _ & Hlive & _ & Hholds).
  split; [exact Hlive|exact Hholds].
Defined.

